(* ===== verification/_CoqProject ===== *)
-Q . S2P
Prelude.v
Controls.v
Shortcuts.v
Hold.v
Contract.v
SeatPool.v
Text.v
SeatRuntime.v
Uinput.v
Catalog.v
Topology.v
Evdev.v
Devices.v
Dbus.v
PhysicalSources.v
Activity.v
Policies.v
Health.v
Runtime.v
Capture.v
Receiver.v
Decimal.v
Limits.v
LimitsSim.v
Library.v
Programs.v
Documents.v
Floats.v
Files.v
PlayLog.v
Saves.v
Sessions.v
Completion.v
CompletionSim.v
History.v
SaveStore.v
SaveSim.v
Peers.v
SavePeer.v
SavePeerSim.v
Identity.v
Authorization.v
PeerRpc.v
PeerRpcSim.v
