(* ===== verification/Prelude.v ===== *)
(** * Korri: a verification library

    Korri is a game console built on Linux. This library models three of its
    services and proves what they promise. The input daemon (services/inputd,
    with the policies of services/inputd/core and the wire contract of
    contracts/input) turns physical, virtual and remote controllers into seats a
    game reads and into console actions. The limits daemon (services/limitsd)
    holds the frequency, power and memory limits of a device and of the game it
    runs. The host daemon (services/korrid) keeps the library of games and runs the
    sessions; of it the reconciliation and the publication of what discovery found
    are modelled, the completion of a session with its play log, the history of
    saves, the exchange of that history between devices, and the identity of a
    device with the authorization of the requests it takes from others.

    ** The program and its model

    The input daemon is two processes that share one contract. The _seat receiver_ owns the gamepads that games read. It is modelled from
    the bottom up:
    - [SeatPool] (inputd/src/seat_pool.rs): the numbered seats, who owns each,
      what is known of each device; over the interface [SeatBackend].
    - [Uinput] (input_seat_uinput.rs): the implementation of [SeatBackend] that
      creates uinput devices and encodes states as kernel events.
    - [Contract] (contracts/input/src/lib.rs): requests, replies and states.
    - [SeatRuntime] (input_seat.rs): the controllers of a session, the route,
      arming, the mirror of a streamed launch, feedback, expiry.
    - [Receiver] (input_seat_receiver.rs): the event loop of [run] in front of it,
      with the coordinator, the lease, the mirror socket and the sidecar.

    The _input daemon_ proper reads controllers and triggers actions:
    - [Controls], [Shortcuts], [Hold] (core/src/*.rs): controls, chords and taps,
      and hold-to-confirm.
    - [Catalog] (action_catalog.rs): the actions, their triggers, and the commands
      the environment binds to them.
    - [Topology] (source_topology.rs), [Devices] (devices.rs), [Evdev] (the event
      decoder of capture.rs): sysfs and /proc facts, opening and decoding devices.
    - [Dbus] (dbus.rs) and [PhysicalSources] (physical_sources.rs): who may speak
      for InputPlumber, its profiles, and the discovery of physical controllers.
    - [Activity] (activity.rs): the rate limited report that a person is playing.
    - [Policies] (the policies of runtime.rs): the catalog as shortcut policies.
    - [Runtime] (runtime.rs, virtual_targets.rs): one normalized virtual target.
    - [Capture] (capture.rs): many physical controllers, and the facts about them
      that are queued for the host.
    - [Health] (health.rs): the readiness reported to the service manager.

    The _limits daemon_ is [Limits] (limitsd/src/lib.rs): what a request may ask,
    how a percent becomes a frequency the kernel takes, and what is written,
    remembered and put back. [LimitsSim] runs it on a concrete file system.

    The _host daemon_:
    - [Library] (discovery/reconcile/change.rs): the pass that turns a scan into a
      new library, new locations and provider links.
    - [Documents] (discovery/reconcile.rs, reconcile/documents.rs): how the two
      documents of the configuration and the record of what discovery owns are
      replaced together, through a journal that a restart completes.
    - [PlayLog] (host/play_log.rs): the document of plays of a person and game.
    - [Saves] (saves/types.rs, saves/record.rs): the record of a save snapshot.
    - [History] (saves/record.rs, saves/history.rs): the canonical form and the name
      of a record, and the join of heads with the union of their screenshots.
    - [SaveStore] (saves/store.rs): records, heads and objects in the files of a
      store: reconciling, the base of a launch, choosing, restoring, pruning and
      what peers ask. [SaveSim] runs it with concrete codecs and histories.
    - [Peers] (saves/peer/mod.rs, client.rs, object_route.rs, with the parts of
      federation they use): the requests between two devices, what the other one
      answers, and the download of an object over several origins, as programs over
      a world in which other tasks change the store between any two operations.
    - [SavePeer] (saves/peer/sync.rs): the exchange of histories with a contact, the
      checks before a launch and the fetching of content. [SavePeerSim] runs it
      between two stores.
    - [Sessions] (host/identity.rs, host/hooks.rs, host/session_state.rs): the
      record of the active session, what its end does ([complete_active_snapshot],
      [finish_after_hooks]) and what a start of the daemon makes of it ([recover]).
    - [Completion] proves [Sessions] over the files of [PlayLog]; [CompletionSim]
      runs it with concrete codecs, a host and a disk.
    - [Identity] (identity.rs): the key of a device and its owner statement: loading,
      accepting a newer statement, signing and encrypting.
    - [Authorization] (authorization.rs, the requests of lib.rs): who a sender is by
      its evidence and what such a sender may ask; the revocations and the grants of
      streaming certificates in their files.
    - [PeerRpc] (peer_rpc.rs, the route of saves/peer/object_route.rs): the request of
      another device from its bytes to its answer, as a program over files, memory
      and the streaming host, where other requests act between any two operations.
      [PeerRpcSim] runs it with a table of events, and is the witness of all three.
    - [Programs] holds what such code runs on: operations that may fail, and a
      machine that may stop between any two of them. [Documents] has operations
      of its own; [Files] is a private directory tree with links, modes, faults
      and power losses, which the stores of the sessions share.

    [Prelude] holds results, machine integers, byte strings, ordered collections,
    the list operations of the iterators the code uses, and the automation
    ([korri], a base of rewrite rules and hints, [members] and [decide_vm]).
    [Text] holds UTF-8 decoding, line and token splitting and number parsing,
    [Decimal] the printing of numbers and what the parsers read back of it, and
    [Floats] shows that whole numbers in binary64 are exact.

    ** How the code is read

    A method that takes [&mut self] is a function from the state to the new state
    and its result; the [?] operator is the notation [try!], which keeps the state
    reached so far. A [BTreeMap] is a [gmap] whose iteration order is
    [btree_entries]. An [unwrap], [expect] or index that could panic is an
    [option] whose [None] is the panic, and the theorems show it is not reached.
    Names are those of the code, with a prefix where two files use the same one.

    What lies outside of the program is an argument: a [SeatBackend] and its laws
    [SeatBackendLaws], the kernel operations of [Uinput], the D-Bus operations
    [Bus], the device access [CaptureProvider], the file system of [Catalog], the
    world [Outside] of the receiver with [SidecarLaws], the JSON parsers, the file
    system of [Limits], and of the host daemon the parts of a configuration that
    are only handed on ([Config]), its YAML text ([Yaml], [YamlLaws]) and its
    decoder with SHA-256 ([Codecs], [CodecLaws]), and the JSON and time stamps of the play log
    and the session record ([PlayCodec], [SessionCodec] and their laws), and the JSON,
    SHA-256 and time stamps of the saves ([SaveCodec], [StoreCodec], [StoreLaws]), and of
    the exchange the parser of addresses ([Urls]), the network, the directory of
    contacts and the clock, which answer as they like ([Answer], [Choice]); only the
    marks of contacts are taken to be changed by no other task than the one that
    exchanges with that contact, as the code holds a lock for it. Of identities and
    requests it is the nostr library ([Nostr]: events, keys, signatures and NIP-44;
    [NostrLaws]: JSON reads back, keys and names have their length, and the name of an
    event names nothing else), SHA-256 and the JSON of grants ([GrantCodec]), the JSON
    of envelopes ([Envelopes]) and the contents of requests and answers ([Payloads]);
    the handlers behind [dispatch] answer as they like, and what they do to a
    certificate is all that is taken of them ([certify]). Nothing is assumed of the
    secrecy of a message. Launch
    units, limits, seats, the save store and the clock answer the calls of a
    session as they like ([HostCall]). The laws say what a successful operation establishes and what an operation leaves
    alone. Nothing is assumed of an operation that fails. On a disk a sync of a
    file keeps its content and a sync of a directory the names in it; a power loss
    keeps no more than that, and of each path the old or the new, with anything in
    a file that was not synced. A directory that was made is taken to last, as the
    code syncs its parent at once, and nothing lies below a link. The directories of
    authorization and of the replay marks are made without that sync: what is shown of
    their files after a power loss is shown of directories that are kept. Every law is discharged
    by a concrete instance: [SeatBackendLaws] by the uinput backend over any kernel
    that takes the events it acknowledges, and by a memory backend; the others by
    simulations that run the witnesses.

    Integers are [Z] in the range of their type, with the wrap-around, saturation
    or checked conversion of the code written out; the hold progress is binary64.
    Recursion is structural, with fuel in these places: [decimal], where twenty
    digits cover a [u64]; [serve], the endless loop of the receiver, of which
    [receiver_runs_until] says when it ends; [free_suffix], the search for a
    free id, for which one more step than there are taken ids is enough
    ([unique_id_spec]); its counter is an [i32] in the code, more than the
    memory of a machine could take ids for; [free_instant], the search for a free
    time stamp, with one more step than there are taken ones
    ([free_instant_total]); the origins that are tried, the rounds of a download and
    the walk over the records of a contact, where running out is a program that
    never ends, which [synchronize_ends] excludes; [retain], which forgets one play in each step and
    has a step for every play; [free_name], the search for a free name of a
    screenshot, with one more step than there are files ([free_name_total]); and
    the searches [search] and [spread] through a history, with a step for every
    parent of a record ([ancestor_correct], [distances_spec]).

    ** What is shown

    - Authority (SeatRuntime, Uinput, Receiver): while no device failure is latched,
      what a game reads from a seat is neutral or exactly the last state of a
      connected controller that was seen neutral since the route was set and owns
      the seat in the session that has the route. The chain goes from the runtime
      over any backend, through the event encoder, to the kernel's view and the
      loop heads of the receiver. Lease, mirror, session and sidecar always agree;
      losing the coordinator and every way out of the loop silence the seats.
    - Seat bookkeeping (SeatPool): what the pool remembers is what devices hold, and
      what connect, resize, end_session and write_state do on every branch.
    - Shortcuts (Shortcuts, Hold, Policies): exactly the assembled chords fire,
      once, and stopping a game takes authenticated D-Bus input of one exact chord,
      every control of which such input released since the policies started or were
      last reset. The configured commands never include it.
    - Truth of reports (Capture): what the host was told replays to exactly the
      controllers held open; a reconcile pass is all or nothing; messages act only
      from the owner of a controller that is held and armed.
    - Identification (Topology, Devices, PhysicalSources, Dbus): what the parsers,
      classifiers and discovery accept, and that reporting readiness writes nothing.
    - Codecs and bounds: the decoder inverts the encoder, frames of any wire value
      become states in range, counters and queues stay in their bounds.

    - Limits (Limits): nothing panics, whatever the files hold; the interval of
      frequencies is never inverted and is written in an order the kernel takes; a
      request that reports success has written all of it, and one that fails leaves
      the old limits on the hardware, where putting them back did not fail as well, or a
      session that is still to be reverted; a session ends only when the device has its
      values back. What a store to an attribute of a CPU policy or GPU node shows is the
      law [MachineLaws]; of a cgroup's files nothing is assumed but that writing them
      leaves those attributes alone.
    - The library (Library): a pass never panics and leaves no dangling link; files a
      person wrote, and files in storages the pass has no evidence about, stay; content
      once held stays held
      unless every source of it was unpaired; all that was found is held; ids are
      readable and free.
    - Publication (Documents): a commit is atomic under any faults and crashes of it
      and of the restarts that complete it; a foreign edit is not overwritten; what
      a run without faults leaves behind. An ownership the caller changed beforehand is
      the exception: it goes to the disk first, and a stop leaves it beside the old
      documents ([ownership_written_early]).
    - Completion of a session (PlayLog, Sessions, Completion): however often it is
      tried, stopped and failed, a play is still to be recorded or recorded exactly
      once, when all stops are of the daemon and when all are power losses; once the unit is over, a start
      that nothing disturbs finishes it from any phase. The log never forgets the
      play that is being added, and only the oldest plays to make room; every key
      has a file of its own. Two windows are shown: a daemon stop and a later power
      loss can lose a play together ([mixed_stops_lose_play]), and a file that a
      stop leaves behind blocks the deletion of a person's records.

    - Saves (History, SaveStore): a join keeps the progress and every screenshot of
      all heads and does not depend on their order; reconciling, choosing and
      restoring leave one head and lose no record; a launch continues from the first
      head whose progress is there, and only then from the newest content of the device;
      a capture stores what its record names ([capture_stores]); pruning takes only what another device holds
      and nothing else names; an object is what its name says. A location key that
      changes its kind is shown to block the saves of a game. That names are hashes
      enters as hypotheses that a name is new and that no record is its own ancestor.

    - The exchange of saves (Peers, SavePeer): an exchange that reports success has
      every head a contact told, with all its ancestors, in the local history, found
      the contents whole and sent what is here, whatever other tasks do; a contact that
      is told the very heads of the last one may do neither ([synchronize_exchanges]); it ends ([synchronize_ends]); a check before a launch
      that warns of nothing tells the truth, also when it was cut off
      ([launch_check_truthful]); records are pushed at most once for a request
      ([push_sent_once]); what a download stores is the object that was named
      ([download_stores]), and a transfer resumes where it stopped
      ([transfer_resumes]). No operation of a store forgets a record or makes a
      history unreadable ([history_only_grows]).

    - Identity (Identity): a device that accepted an owner statement goes back to no
      earlier one, whatever fails, stops or loses power, unless its identity is reset or
      its owner is replaced offline, which is not modelled ([accepted_statement_lasts]); the memory of verified statements changes no
      answer ([memo_transparent]).
    - Authorization (Authorization): who is recognised is exactly who the evidence names
      ([principal_spec]); a commit that reports success is found by every later start
      ([commit_lasts]). A file that a stop leaves behind is shown to block every start
      ([leftover_blocks_start]).
    - Requests between devices (PeerRpc): what is authenticated is signed, recent, meant
      for this device and within the rights of its sender ([authenticate_sound]); a
      revocation denies from its commit on until the identity is switched
      ([revocation_denies]); an event is accepted once while the daemon runs
      ([replay_refused]), where no nonce is consumed by a later clock and its sender
      signs no second request with its nonce and an earlier time. Both conditions are
      needed, as two runs show: a switch clears the revocations of a daemon that still
      serves ([switch_forgets_revocations]), and a refused nonce is remembered by its own
      time ([nonce_overwritten]). The reconciliation keeps every certificate accounted for and takes back
      what is stale ([reconciliation_accounts]), when no other request changes the
      grants meanwhile; a second certificate of one device is shown to escape it
      ([certificate_outlives_pass]).

    Invariants are proved by induction on reachability relations ([pool_reachable],
    [rt_reachable], [reachable], [policies_reachable], [runtime_reachable],
    [capture_reachable], [receiver_reachable]) whose steps are all the operations.

    ** What is not modelled

    Socket, file descriptor and process plumbing, the tokio loop of main.rs with
    its timers, the execution of actions (actions.rs, direct_runner.rs,
    cgroup_sandbox.rs), the HTTP client of the host (korrid_client.rs), bundle
    selection and the privileged helpers. Of the host daemon: the requests on a
    running session (start, freeze, stop, focus) and the hooks before it, the
    transfer of a person's plays to another, the scanner and the identification of files, pairing ([mutate] of
    reconcile.rs), the titles a person owns, upstreams, relay, acquisition,
    federation, netplay and plugins. The listener and the socket calls of the
    limits daemon. Of the saves: materializing the files of a game,
    access lists, and the memories of files that were checked before; of their
    exchange the choice of a connection and the racing of requests. Of identities:
    the signer of the automatic binding, the offline replacement of an owner, gift
    wraps, the name of a person, NIP-46 and the keys for iroh and nearby devices; of
    requests the handlers, the limits of admission, the HTTP server and the socket of
    the streaming host. Log output, Debug texts that nothing
    reads, and timeouts around D-Bus calls (an expired call is a failed one) are
    left out. JSON parsing is a third-party library. *)

From stdpp Require Export prelude gmap strings list fin_maps sorting.
From Stdlib Require Export ZArith Lia Ascii.
From Stdlib Require String.

Notation EmptyString := String.EmptyString.
Notation SCons := String.String.

#[global] Open Scope Z_scope.

Declare Scope korri_scope.
Delimit Scope korri_scope with korri.
#[global] Open Scope korri_scope.

(** ** Results and early return *)

(** Rust's [Result<A, E>]. *)
Inductive result (E A : Type) : Type :=
| Ok (a : A)
| Err (e : E).
Arguments Ok {E A} a.
Arguments Err {E A} e.

#[export] Instance result_eq_dec {E A} `{EqDecision E, EqDecision A} : EqDecision (result E A).
Proof. solve_decision. Defined.

#[export] Instance result_ret {E} : MRet (result E) := fun A a => Ok a.
#[export] Instance result_bind {E} : MBind (result E) :=
  fun A B f r => match r with Ok a => f a | Err e => Err e end.

Lemma bind_ok {E A B} (e : result E A) (f : A -> result E B) y :
  e ≫= f = Ok y -> exists x, e = Ok x /\ f x = Ok y.
Proof. destruct e as [x|er]; [|done]. by exists x. Qed.

Definition is_ok {E A} (r : result E A) : bool :=
  match r with Ok _ => true | Err _ => false end.

Definition is_err {E A} (r : result E A) : bool := negb (is_ok r).

(** [Result::map_err]. *)
Definition map_err {E F A} (f : E -> F) (r : result E A) : result F A :=
  match r with Ok a => Ok a | Err e => Err (f e) end.

(** [Result::ok]. *)
Definition ok {E A} (r : result E A) : option A :=
  match r with Ok a => Some a | Err _ => None end.

(** [Option::ok_or]. *)
Definition ok_or {E A} (o : option A) (e : E) : result E A :=
  match o with Some a => Ok a | None => Err e end.

(** The [?] operator in a function that updates [&mut self]: the state reached
    so far is kept when the called operation fails. *)
Notation "'try!' s ',' x '<-' e ';;' k" :=
  (match e with
   | (s, Ok x) => k
   | (s, Err er) => (s, Err er)
   end)
  (at level 10, s name, x name, e at level 99, k at level 200,
   format "'[v' 'try!'  s ','  x  '<-'  e ';;' '//' k ']'") : korri_scope.

(** [map_err] under the state. *)
Definition on_err {S E F A} (f : E -> F) (p : S * result E A) : S * result F A :=
  (p.1, map_err f p.2).

(** Truth of a boolean option test ([Option::is_some_and]). *)
Definition is_some_and {A} (o : option A) (f : A -> bool) : bool :=
  match o with Some a => f a | None => false end.

Definition is_some {A} (o : option A) : bool :=
  match o with Some _ => true | None => false end.

Definition is_none {A} (o : option A) : bool := negb (is_some o).

(** ** Machine integers *)

(** A machine integer is a [Z] in its type's range; the operations below write
    out what the source does at the bounds. *)
Definition in_u8 (z : Z) : Prop := 0 <= z <= 255.
Definition in_u16 (z : Z) : Prop := 0 <= z <= 65535.
Definition in_u32 (z : Z) : Prop := 0 <= z <= 4294967295.
Definition in_u64 (z : Z) : Prop := 0 <= z <= 18446744073709551615.
Definition in_i16 (z : Z) : Prop := -32768 <= z <= 32767.
Definition in_i32 (z : Z) : Prop := -2147483648 <= z <= 2147483647.

Definition u64_max : Z := 18446744073709551615.

(** [u64::saturating_sub]. *)
Definition saturating_sub (a b : Z) : Z := Z.max 0 (a - b).

Definition try_u8 (z : Z) : option Z := if (0 <=? z) && (z <=? 255) then Some z else None.
Definition try_u16 (z : Z) : option Z := if (0 <=? z) && (z <=? 65535) then Some z else None.
Definition try_i16 (z : Z) : option Z :=
  if (-32768 <=? z) && (z <=? 32767) then Some z else None.

Definition between (lo z hi : Z) : bool := (lo <=? z) && (z <=? hi).

Lemma land_below n a m : 0 <= n -> Z.land m (Z.ones n) = m -> 0 <= Z.land a m < 2 ^ n.
Proof.
  intros Hn Hm. rewrite <- Hm, Z.land_assoc, Z.land_ones by done.
  apply Z.mod_pos_bound. lia.
Qed.

(** [n.to_string()] of an unsigned integer, in decimal. *)
Definition digit (d : Z) : ascii := ascii_of_N (Z.to_N (48 + d)).

Fixpoint decimal_fuel (fuel : nat) (z : Z) (acc : string) : string :=
  match fuel with
  | O => acc
  | S fuel =>
      let acc := SCons (digit (z mod 10)) acc in
      if z <? 10 then acc else decimal_fuel fuel (z / 10) acc
  end.

(** Twenty digits cover every [u64]. *)
Definition decimal (z : Z) : string := decimal_fuel 20 z EmptyString.

(** ** Strings as byte sequences *)

(** A Rust [str] is its UTF-8 bytes. *)
Definition byte (a : ascii) : Z := Z.of_N (N_of_ascii a).

Definition bytes (s : string) : list Z := map byte (String.list_ascii_of_string s).

Definition str_len (s : string) : Z := Z.of_nat (String.length s).

Definition str_is_empty (s : string) : bool :=
  match s with EmptyString => true | _ => false end.

Fixpoint all_chars (f : ascii -> bool) (s : string) : bool :=
  match s with
  | EmptyString => true
  | SCons a s => f a && all_chars f s
  end.

Definition any_char (f : ascii -> bool) (s : string) : bool :=
  negb (all_chars (fun a => negb (f a)) s).

Definition is_ascii_digit (a : ascii) : bool := between 48 (byte a) 57.

Definition is_lower_hex (a : ascii) : bool := is_ascii_digit a || between 97 (byte a) 102.

Definition is_ascii_hexdigit (a : ascii) : bool :=
  is_ascii_digit a || between 65 (byte a) 70 || between 97 (byte a) 102.

(** [str::strip_prefix]. *)
Fixpoint strip_prefix (p s : string) : option string :=
  match p, s with
  | EmptyString, _ => Some s
  | SCons a p, SCons b s => if decide (a = b) then strip_prefix p s else None
  | SCons _ _, EmptyString => None
  end.

Lemma strip_prefix_app p s : strip_prefix p (p +:+ s) = Some s.
Proof. induction p as [|a p IH]; simpl; [done|]. by rewrite decide_True. Qed.

Lemma strip_prefix_Some p s r : strip_prefix p s = Some r -> s = p +:+ r.
Proof.
  revert s; induction p as [|a p IH]; intros s; simpl; [by intros [= ->]|].
  destruct s as [|b s]; [done|]. destruct (decide (a = b)) as [<-|]; [|done].
  by intros ->%IH.
Qed.

Definition starts_with (p s : string) : bool := is_some (strip_prefix p s).

(** [char::is_control] on a UTF-8 string: U+0000..U+001F and U+007F are one
    byte each, U+0080..U+009F are the two bytes C2 80..C2 9F (C2 is never a
    continuation byte). *)
Fixpoint has_control (s : string) : bool :=
  match s with
  | EmptyString => false
  | SCons a s' =>
      (byte a <? 32) || (byte a =? 127)
      || ((byte a =? 194)
          && match s' with String b _ => between 128 (byte b) 159 | EmptyString => false end)
      || has_control s'
  end.

(** [lines.join(sep)]. *)
Fixpoint join (sep : string) (l : list string) : string :=
  match l with
  | [] => EmptyString
  | [x] => x
  | x :: l => x +:+ sep +:+ join sep l
  end.

(** ** Ordered collections *)

(** [BTreeMap] and [BTreeSet] are [gmap] and [gset]; where the source iterates
    one, the order of its keys is observable and is the sorted order below. *)
Class TotalOrd (K : Type) := {
  ord_le : relation K;
  ord_le_dec :: RelDecision ord_le;
  ord_le_po :: PartialOrder ord_le;
  ord_le_total :: Total ord_le;
}.

#[export] Instance string_ord : TotalOrd string := {| ord_le := String.le |}.

#[export] Instance Z_ord : TotalOrd Z := {| ord_le := Z.le |}.

(** Derived [Ord] of a tuple or of a variant's fields: lexicographic. *)
Definition pair_le {A B} `{TotalOrd A, TotalOrd B} (p q : A * B) : Prop :=
  (p.1 <> q.1 /\ ord_le p.1 q.1) \/ (p.1 = q.1 /\ ord_le p.2 q.2).

#[export] Instance pair_le_dec {A B} `{EqDecision A, TotalOrd A, TotalOrd B} :
  RelDecision (pair_le (A:=A) (B:=B)).
Proof. intros p q. unfold pair_le. apply _. Defined.

#[export] Instance pair_le_po {A B} `{TotalOrd A, TotalOrd B} : PartialOrder (pair_le (A:=A) (B:=B)).
Proof.
  split; [split|].
  - intros [a b]; right; by split.
  - intros [a b] [c d] [e f] [[H1 H2]|[H1 H2]] [[H3 H4]|[H3 H4]]; simpl in *; subst.
    + left; simpl. split; [|by etrans]. intros ->. apply H1. by apply (anti_symm ord_le).
    + by left.
    + by left.
    + right; simpl. split; [done|by etrans].
  - intros [a b] [c d] [[H1 H2]|[H1 H2]] [[H3 H4]|[H3 H4]]; simpl in *; subst; try done.
    + destruct H1. by apply (anti_symm ord_le).
    + f_equal. by apply (anti_symm ord_le).
Qed.

#[export] Instance pair_le_total {A B} `{EqDecision A, TotalOrd A, TotalOrd B} :
  Total (pair_le (A:=A) (B:=B)).
Proof.
  intros [a b] [c d]. unfold pair_le; simpl.
  destruct (decide (a = c)) as [->|Hne].
  - destruct (total ord_le b d); [left|right]; by right.
  - destruct (total ord_le a c); [left|right]; left; auto.
Qed.

#[export] Instance pair_ord {A B} `{EqDecision A, TotalOrd A, TotalOrd B} : TotalOrd (A * B) :=
  {| ord_le := pair_le |}.

(** An order read through an injection: [derive(Ord)] of a type whose values
    are encoded as tuples. *)
Definition via_le {A B} `{TotalOrd B} (f : A -> B) (x y : A) : Prop := ord_le (f x) (f y).

Definition ord_via {A B} `{TotalOrd B} (f : A -> B) (Hf : Inj (=) (=) f) : TotalOrd A.
Proof.
  refine {| ord_le := via_le f |}.
  - intros x y. unfold via_le. apply _.
  - split; [split|].
    + intros x. unfold via_le. reflexivity.
    + intros x y z. unfold via_le. apply transitivity.
    + intros x y H1 H2. apply Hf. by apply (anti_symm ord_le).
  - intros x y. apply (total ord_le).
Defined.

Section btree.
Context {K V : Type} `{Countable K, TotalOrd K}.

Definition entry_le (p q : K * V) : Prop := ord_le p.1 q.1.

#[local] Instance entry_le_dec : RelDecision entry_le.
Proof. intros p q. unfold entry_le. apply _. Defined.
#[local] Instance entry_le_total : Total entry_le.
Proof. intros p q. apply (total ord_le). Qed.
#[local] Instance entry_le_trans : Transitive entry_le.
Proof. intros p q r. unfold entry_le. apply transitivity. Qed.

(** The iteration order of a [BTreeMap]. *)
Definition btree_entries (m : gmap K V) : list (K * V) := merge_sort entry_le (map_to_list m).

Definition btree_keys (m : gmap K V) : list K := (btree_entries m).*1.
Definition btree_values (m : gmap K V) : list V := (btree_entries m).*2.

Lemma btree_entries_perm (m : gmap K V) : btree_entries m ≡ₚ map_to_list m.
Proof. apply merge_sort_Permutation. Qed.

Lemma elem_of_btree_entries (m : gmap K V) k v : (k, v) ∈ btree_entries m <-> m !! k = Some v.
Proof. by rewrite btree_entries_perm, elem_of_map_to_list. Qed.

Lemma elem_of_btree_keys (m : gmap K V) k : k ∈ btree_keys m <-> is_Some (m !! k).
Proof.
  unfold btree_keys. rewrite list_elem_of_fmap. split.
  - intros ([k' v] & -> & ?%elem_of_btree_entries). by exists v.
  - intros [v ?]. exists (k, v). by rewrite elem_of_btree_entries.
Qed.

Lemma btree_keys_NoDup (m : gmap K V) : NoDup (btree_keys m).
Proof. unfold btree_keys. rewrite btree_entries_perm. apply NoDup_fst_map_to_list. Qed.

Lemma btree_entries_NoDup (m : gmap K V) : NoDup (btree_entries m).*1.
Proof. apply btree_keys_NoDup. Qed.

Lemma btree_entries_sorted (m : gmap K V) : StronglySorted entry_le (btree_entries m).
Proof. apply StronglySorted_merge_sort; apply _. Qed.

Lemma length_btree_entries (m : gmap K V) : length (btree_entries m) = size m.
Proof. rewrite btree_entries_perm. apply length_map_to_list. Qed.

(** [map.values().any(f)]. *)
Definition map_any (f : V -> bool) (m : gmap K V) : bool :=
  existsb (fun kv => f kv.2) (map_to_list m).

Lemma map_any_true f (m : gmap K V) :
  map_any f m = true <-> exists k v, m !! k = Some v /\ f v = true.
Proof.
  unfold map_any. rewrite existsb_exists. split.
  - intros ([k v] & Hin & Hf). exists k, v.
    by rewrite <- elem_of_map_to_list, list_elem_of_In.
  - intros (k & v & Hl & Hf). exists (k, v).
    by rewrite <- list_elem_of_In, elem_of_map_to_list.
Qed.

Lemma map_any_false f (m : gmap K V) :
  map_any f m = false <-> forall k v, m !! k = Some v -> f v = false.
Proof.
  rewrite <- not_true_iff_false, map_any_true. split.
  - intros Hn k v Hl. destruct (f v) eqn:Hf; [|done]. destruct Hn. by exists k, v.
  - intros Ha (k & v & Hl & Hf). rewrite (Ha k v Hl) in Hf. done.
Qed.
End btree.

(** The iteration order of a [BTreeSet]. *)
Definition btree_elements {K} `{Countable K, TotalOrd K} (s : gset K) : list K :=
  merge_sort ord_le (elements s).

Lemma elem_of_btree_elements {K} `{Countable K, TotalOrd K} (s : gset K) k :
  k ∈ btree_elements s <-> k ∈ s.
Proof. unfold btree_elements. by rewrite merge_sort_Permutation, elem_of_elements. Qed.

Lemma btree_elements_NoDup {K} `{Countable K, TotalOrd K} (s : gset K) : NoDup (btree_elements s).
Proof. unfold btree_elements. rewrite merge_sort_Permutation. apply NoDup_elements. Qed.

(** Sorting by a key, as [sort_by] and [sort_by_key] do. *)
Section sorting.
Context {A K : Type} `{TotalOrd K} (f : A -> K).

Definition key_le (x y : A) : Prop := ord_le (f x) (f y).

#[local] Instance key_le_dec : RelDecision key_le.
Proof. intros x y. unfold key_le. apply _. Defined.
#[local] Instance key_le_total : Total key_le.
Proof. intros x y. apply (total ord_le). Qed.
#[local] Instance key_le_trans : Transitive key_le.
Proof. intros x y z. unfold key_le. apply transitivity. Qed.

Definition sort_on (l : list A) : list A := merge_sort key_le l.

Lemma sort_on_perm l : sort_on l ≡ₚ l.
Proof. apply merge_sort_Permutation. Qed.

Lemma sort_on_sorted l : StronglySorted key_le (sort_on l).
Proof. apply StronglySorted_merge_sort; apply _. Qed.
End sorting.

(** ** Lists *)

(** [iter().position(f)]. *)
Fixpoint position {A} (f : A -> bool) (l : list A) : option nat :=
  match l with
  | [] => None
  | x :: l => if f x then Some 0%nat else S <$> position f l
  end.

(** [iter().find(f)]. *)
Fixpoint find {A} (f : A -> bool) (l : list A) : option A :=
  match l with
  | [] => None
  | x :: l => if f x then Some x else find f l
  end.

(** [iter().filter(f).collect()]. *)
Fixpoint keep {A} (f : A -> bool) (l : list A) : list A :=
  match l with
  | [] => []
  | x :: l => if f x then x :: keep f l else keep f l
  end.

(** [iter().filter_map(f).collect()]. *)
Fixpoint filter_map {A B} (f : A -> option B) (l : list A) : list B :=
  match l with
  | [] => []
  | x :: l => match f x with Some y => y :: filter_map f l | None => filter_map f l end
  end.

Lemma position_Some {A} (f : A -> bool) l i :
  position f l = Some i <->
  (exists x, l !! i = Some x /\ f x = true) /\ (forall j x, (j < i)%nat -> l !! j = Some x -> f x = false).
Proof.
  revert i; induction l as [|y l IH]; intros i; simpl.
  { split; [done|]. by intros [(x & ? & _) _]. }
  destruct (f y) eqn:Hy.
  - split.
    + intros [= <-]. split; [by exists y|]. intros j x ?. lia.
    + intros [_ Hlt]. destruct i as [|i]; [done|].
      specialize (Hlt 0%nat y ltac:(lia) eq_refl). congruence.
  - rewrite fmap_Some. split.
    + intros (j & Hj & ->). apply IH in Hj as [(x & ? & ?) Hlt]. split; [by exists x|].
      intros [|k] x' ? Hk; simpl in Hk; [by simplify_eq|]. eapply Hlt; [|done]. lia.
    + intros [(x & Hx & Hfx) Hlt]. destruct i as [|i]; simpl in Hx; [congruence|].
      exists i. split; [|done]. apply IH. split; [by exists x|].
      intros j x' Hj Hx'. eapply (Hlt (S j)); [lia|done].
Qed.

Lemma position_None {A} (f : A -> bool) l :
  position f l = None <-> forall x, x ∈ l -> f x = false.
Proof.
  induction l as [|y l IH]; simpl.
  { split; [|done]. intros _ x Hx. by apply not_elem_of_nil in Hx. }
  destruct (f y) eqn:Hy.
  - split; [done|]. intros Ha. rewrite (Ha y) in Hy; [done|left].
  - rewrite fmap_None, IH. split.
    + intros Ha x [->|?]%elem_of_cons; auto.
    + intros Ha x ?. apply Ha. by right.
Qed.

Lemma find_Some {A} (f : A -> bool) l x : find f l = Some x -> x ∈ l /\ f x = true.
Proof.
  induction l as [|y l IH]; simpl; [done|]. destruct (f y) eqn:Hy.
  - intros [= ->]. split; [left|done].
  - intros [? ?]%IH. split; [by right|done].
Qed.

Lemma find_None {A} (f : A -> bool) l : find f l = None <-> forall x, x ∈ l -> f x = false.
Proof.
  induction l as [|y l IH]; simpl.
  { split; [|done]. intros _ x Hx. by apply not_elem_of_nil in Hx. }
  destruct (f y) eqn:Hy.
  - split; [done|]. intros Ha. rewrite (Ha y) in Hy; [done|left].
  - rewrite IH. split.
    + intros Ha x [->|?]%elem_of_cons; auto.
    + intros Ha x ?. apply Ha. by right.
Qed.

Lemma elem_of_keep {A} (f : A -> bool) l x : x ∈ keep f l <-> x ∈ l /\ f x = true.
Proof.
  induction l as [|y l IH]; simpl; [set_solver|].
  destruct (f y) eqn:Hy; rewrite ?elem_of_cons, IH; intuition (subst; congruence || auto).
Qed.

Lemma keep_NoDup {A} (f : A -> bool) l : NoDup l -> NoDup (keep f l).
Proof.
  induction l as [|x l IH]; simpl; [done|]. intros [Hx Hl]%NoDup_cons. destruct (f x); [|by apply IH].
  apply NoDup_cons. split; [|by apply IH]. by intros [? _]%elem_of_keep.
Qed.

Lemma keep_fmap_NoDup {A B} (g : A -> B) (f : A -> bool) l : NoDup (g <$> l) -> NoDup (g <$> keep f l).
Proof.
  induction l as [|x l IH]; simpl; [done|]. intros [Hx Hnd]%NoDup_cons.
  destruct (f x); simpl; [|by apply IH]. apply NoDup_cons. split; [|by apply IH].
  intros (y & Heq & [Hy _]%elem_of_keep)%list_elem_of_fmap. apply Hx, list_elem_of_fmap. eauto.
Qed.

Lemma length_filter_map {A B} (f : A -> option B) l : (length (filter_map f l) <= length l)%nat.
Proof. induction l as [|x l IH]; simpl; [done|]. destruct (f x); simpl; lia. Qed.

Lemma elem_of_filter_map {A B} (f : A -> option B) l y :
  y ∈ filter_map f l <-> exists x, x ∈ l /\ f x = Some y.
Proof.
  induction l as [|x l IH]; simpl; [set_solver|].
  destruct (f x) eqn:Hx; rewrite ?elem_of_cons, IH; setoid_rewrite elem_of_cons; split.
  - intros [->|(z & ? & ?)]; eauto.
  - intros (z & [->|?] & ?); [left; congruence|eauto].
  - intros (z & ? & ?); eauto.
  - intros (z & [->|?] & ?); [congruence|eauto].
Qed.

Lemma forallb_spec {A} (f : A -> bool) l : forallb f l = true <-> forall x, x ∈ l -> f x = true.
Proof.
  rewrite forallb_forall. split; intros Ha x Hx; apply Ha; by apply list_elem_of_In.
Qed.

Lemma existsb_spec {A} (f : A -> bool) l : existsb f l = true <-> exists x, x ∈ l /\ f x = true.
Proof.
  rewrite existsb_exists. split; intros (x & Hx & Hf); exists x; by rewrite list_elem_of_In in *.
Qed.

(** ** Automation *)

(** [korri] holds what membership in the collections of the program means, and
    the facts on duplicates and membership the components discharge. *)
Create HintDb korri discriminated.

#[export] Hint Rewrite @elem_of_btree_entries @elem_of_btree_keys @elem_of_btree_elements
  @elem_of_keep @elem_of_filter_map : korri.
#[export] Hint Resolve btree_keys_NoDup btree_entries_NoDup btree_elements_NoDup keep_fmap_NoDup : korri.

(** Unfold membership everywhere. *)
Ltac members := autorewrite with korri in *.

(** Decide a closed decidable goal by evaluation. *)
Ltac decide_vm := refine (bool_decide_unpack _ _); vm_compute; exact I.
