(* ===== verification/Controls.v ===== *)
(** * Controls (services/inputd/core/src/controls.rs)

    The semantic controls a shortcut can name, their event record, and the
    decoding of raw values and D-pad axes into them. *)

From S2P Require Import Prelude.

Inductive Control : Type :=
| Home | L1 | R1 | Start | Select | L3 | R3 | Back | X
| VolumeUp | VolumeDown | DpadUp | DpadDown | DpadLeft | DpadRight.

#[export] Instance Control_eq_dec : EqDecision Control.
Proof. solve_decision. Defined.

(** The discriminant of the enum, which its derived [Ord] compares. *)
Definition control_index (c : Control) : Z :=
  match c with
  | Home => 0 | L1 => 1 | R1 => 2 | Start => 3 | Select => 4 | L3 => 5 | R3 => 6
  | Back => 7 | X => 8 | VolumeUp => 9 | VolumeDown => 10 | DpadUp => 11
  | DpadDown => 12 | DpadLeft => 13 | DpadRight => 14
  end.

#[export] Instance control_index_inj : Inj (=) (=) control_index.
Proof. intros [] []; done. Qed.

Definition all_controls : list Control :=
  [Home; L1; R1; Start; Select; L3; R3; Back; X; VolumeUp; VolumeDown;
   DpadUp; DpadDown; DpadLeft; DpadRight].

Definition control_of_index (z : Z) : option Control := all_controls !! Z.to_nat z.

Lemma control_of_index_index c : control_of_index (control_index c) = Some c.
Proof. by destruct c. Qed.

#[export] Instance Control_countable : Countable Control :=
  inj_countable control_index control_of_index control_of_index_index.

#[export] Instance Control_ord : TotalOrd Control := ord_via control_index _.

(** [FromStr for Control]; [None] is [Err(UnknownControl)]. *)
Definition control_from_str (value : string) : option Control :=
  if decide (value = "home") then Some Home
  else if decide (value = "l1") then Some L1
  else if decide (value = "r1") then Some R1
  else if decide (value = "start") then Some Start
  else if decide (value = "select") then Some Select
  else if decide (value = "l3") then Some L3
  else if decide (value = "r3") then Some R3
  else if decide (value = "back") then Some Back
  else if decide (value = "x") then Some X
  else if decide (value = "volume-up") then Some VolumeUp
  else if decide (value = "volume-down") then Some VolumeDown
  else if decide (value = "dpad-up") then Some DpadUp
  else if decide (value = "dpad-down") then Some DpadDown
  else if decide (value = "dpad-left") then Some DpadLeft
  else if decide (value = "dpad-right") then Some DpadRight
  else None.

Inductive ControlTransition : Type := Pressed | Released.

#[export] Instance ControlTransition_eq_dec : EqDecision ControlTransition.
Proof. solve_decision. Defined.

Record ControlEvent := MkControlEvent {
  ce_source : string;
  ce_control : Control;
  ce_transition : ControlTransition;
}.

Definition pressed (source : string) (control : Control) : ControlEvent :=
  MkControlEvent source control Pressed.

Definition released (source : string) (control : Control) : ControlEvent :=
  MkControlEvent source control Released.

Inductive ControlValue : Type := ValueReleased | ValuePressed | ValueRepeat.

Definition control_value_from_i32 (value : Z) : option ControlValue :=
  if value =? 0 then Some ValueReleased
  else if value =? 1 then Some ValuePressed
  else if value =? 2 then Some ValueRepeat
  else None.

Inductive DpadAxis : Type := Horizontal | Vertical.

#[export] Instance DpadAxis_eq_dec : EqDecision DpadAxis.
Proof. solve_decision. Defined.

(** [DpadAxis::control_for]. *)
Definition control_for (axis : DpadAxis) (value : Z) : option Control :=
  match axis, value ?= 0 with
  | Horizontal, Lt => Some DpadLeft
  | Horizontal, Gt => Some DpadRight
  | Vertical, Lt => Some DpadUp
  | Vertical, Gt => Some DpadDown
  | _, Eq => None
  end.
