(* ===== verification/Shortcuts.v ===== *)
(** * Shortcut policy (services/inputd/core/src/shortcuts.rs)

    Chord and tap recognition over the controls every source holds. A
    non-destructive shortcut may be assembled from several sources; a
    destructive one must be held on one source, exactly, and only after every
    destructive control was seen released since the policy was last disarmed. *)

From S2P Require Import Prelude Controls.

(** ** Data *)

Inductive SourceRule : Type := AnySource | SameSource.

#[export] Instance SourceRule_eq_dec : EqDecision SourceRule.
Proof. solve_decision. Defined.

Record ShortcutDefinition := MkShortcut {
  sc_id : string;
  required_controls : list Control;
  sc_exact : bool;
  source_rule : SourceRule;
}.

(** The controls are collected through a [BTreeSet]: sorted, no duplicate. *)
Definition shortcut_new (id : string) (controls : list Control) (exact : bool)
    (rule : SourceRule) : ShortcutDefinition :=
  MkShortcut id (btree_elements (list_to_set controls : gset Control)) exact rule.

Definition non_destructive (id : string) (controls : list Control) (exact : bool)
    : ShortcutDefinition :=
  shortcut_new id controls exact AnySource.

Definition destructive (id : string) (controls : list Control) : ShortcutDefinition :=
  shortcut_new id controls true SameSource.

Record TapDefinition := MkTap { tap_id : string; tap_control : Control }.

(** [ShortcutMatch] is its [id]. *)
Definition ShortcutMatch : Type := string.

Record SourceState := MkSource {
  ss_pressed : gset Control;
  ss_horizontal : option Control;
  ss_vertical : option Control;
}.

(** [SourceState::default()]. *)
Definition source_default : SourceState := MkSource ∅ None None.

Record ShortcutPolicy := MkPolicy {
  shortcuts : list ShortcutDefinition;
  taps : list TapDefinition;
  sources : gmap string SourceState;
  fired_ids : gset string;
  consumed_taps : gset Control;
  destructive_controls : gset Control;
  destructive_disarmed_controls : gset Control;
}.

(** ** Field updates *)

Definition with_sources (f : gmap string SourceState -> gmap string SourceState)
    (p : ShortcutPolicy) : ShortcutPolicy :=
  MkPolicy (shortcuts p) (taps p) (f (sources p)) (fired_ids p) (consumed_taps p)
    (destructive_controls p) (destructive_disarmed_controls p).

Definition with_fired (f : gset string -> gset string) (p : ShortcutPolicy) : ShortcutPolicy :=
  MkPolicy (shortcuts p) (taps p) (sources p) (f (fired_ids p)) (consumed_taps p)
    (destructive_controls p) (destructive_disarmed_controls p).

Definition with_consumed (f : gset Control -> gset Control) (p : ShortcutPolicy) : ShortcutPolicy :=
  MkPolicy (shortcuts p) (taps p) (sources p) (fired_ids p) (f (consumed_taps p))
    (destructive_controls p) (destructive_disarmed_controls p).

Definition with_disarmed (f : gset Control -> gset Control) (p : ShortcutPolicy) : ShortcutPolicy :=
  MkPolicy (shortcuts p) (taps p) (sources p) (fired_ids p) (consumed_taps p)
    (destructive_controls p) (f (destructive_disarmed_controls p)).

Definition with_pressed (f : gset Control -> gset Control) (s : SourceState) : SourceState :=
  MkSource (f (ss_pressed s)) (ss_horizontal s) (ss_vertical s).

(** ** Construction *)

Definition policy_new (shortcuts : list ShortcutDefinition) (taps : list TapDefinition)
    : ShortcutPolicy :=
  let destructive_controls : gset Control :=
    list_to_set
      (mjoin (required_controls <$>
        keep (fun shortcut => bool_decide (source_rule shortcut = SameSource)) shortcuts)) in
  MkPolicy shortcuts taps ∅ ∅ ∅ destructive_controls destructive_controls.

(** ** Queries *)

Definition has_control_pressed (control : Control) (s : SourceState) : bool :=
  bool_decide (control ∈ ss_pressed s).

Definition is_pressed (p : ShortcutPolicy) (control : Control) : bool :=
  map_any (has_control_pressed control) (sources p).

Definition active_controls (p : ShortcutPolicy) : gset Control :=
  ⋃ ((fun kv : string * SourceState => ss_pressed kv.2) <$> map_to_list (sources p)).

Definition holds_all (shortcut : ShortcutDefinition) (s : SourceState) : bool :=
  forallb (fun control => has_control_pressed control s) (required_controls shortcut).

Definition definition_matches (p : ShortcutPolicy) (shortcut : ShortcutDefinition)
    (source : string) : bool :=
  match source_rule shortcut with
  | AnySource =>
      let active := active_controls p in
      forallb (fun control => bool_decide (control ∈ active)) (required_controls shortcut)
      && (negb (sc_exact shortcut)
          || (size active =? length (required_controls shortcut))%nat)
  | SameSource =>
      bool_decide (destructive_disarmed_controls p = ∅)
      && is_some_and (sources p !! source) (fun state =>
           holds_all shortcut state
           && (negb (sc_exact shortcut)
               || (size (ss_pressed state) =? length (required_controls shortcut))%nat))
  end.

Definition definition_assembled (p : ShortcutPolicy) (shortcut : ShortcutDefinition) : bool :=
  match source_rule shortcut with
  | AnySource => forallb (is_pressed p) (required_controls shortcut)
  | SameSource => map_any (holds_all shortcut) (sources p)
  end.

Definition is_action_active (p : ShortcutPolicy) (id : string) : bool :=
  is_some_and (find (fun shortcut => bool_decide (sc_id shortcut = id)) (shortcuts p))
    (definition_assembled p).

(** ** Operations *)

Definition disarm_destructive_matching (p : ShortcutPolicy) : ShortcutPolicy :=
  with_disarmed (fun _ => destructive_controls p) p.

Definition source_in_use (s : SourceState) : bool :=
  negb (bool_decide (ss_pressed s = ∅)) || is_some (ss_horizontal s) || is_some (ss_vertical s).

Definition remove_empty_sources (p : ShortcutPolicy) : ShortcutPolicy :=
  with_sources (filter (fun kv => source_in_use kv.2 = true)) p.

Definition rearm_inactive_actions (p : ShortcutPolicy) : ShortcutPolicy :=
  let still_active : gset string :=
    list_to_set (sc_id <$> keep (definition_assembled p) (shortcuts p)) in
  with_fired (filter (fun id => id ∈ still_active)) p.

(** One iteration of the loop of [press]: the policy and the matches so far. *)
Definition press_step (source : string) (control : Control)
    (acc : ShortcutPolicy * list ShortcutMatch) (shortcut : ShortcutDefinition)
    : ShortcutPolicy * list ShortcutMatch :=
  let '(p, matches) := acc in
  if negb (bool_decide (control ∈ required_controls shortcut))
     || bool_decide (sc_id shortcut ∈ fired_ids p)
     || negb (definition_matches p shortcut source)
  then (p, matches)
  else
    (with_consumed (fun c => c ∪ list_to_set (required_controls shortcut))
       (with_fired (fun f => {[sc_id shortcut]} ∪ f) p),
     matches ++ [sc_id shortcut]).

Definition press (source : string) (control : Control) (p : ShortcutPolicy)
    : ShortcutPolicy * list ShortcutMatch :=
  let state := default source_default (sources p !! source) in
  if has_control_pressed control state
  then (with_sources <[source := state]> p, [])
  else
    let p := with_sources <[source := with_pressed (fun s => {[control]} ∪ s) state]> p in
    fold_left (press_step source control) (shortcuts p) (p, []).

Definition release (source : string) (control : Control) (p : ShortcutPolicy)
    : ShortcutPolicy * list ShortcutMatch :=
  match sources p !! source with
  | None => (p, [])
  | Some state =>
      if negb (has_control_pressed control state) then (p, [])
      else
        let p := with_sources <[source := with_pressed (fun s => s ∖ {[control]}) state]> p in
        let p := remove_empty_sources p in
        let p := rearm_inactive_actions p in
        if is_pressed p control then (p, [])
        else
          let consumed := bool_decide (control ∈ consumed_taps p) in
          let p := with_consumed (fun c => c ∖ {[control]}) p in
          if consumed then (p, [])
          else (p, tap_id <$> keep (fun tap => bool_decide (tap_control tap = control)) (taps p))
  end.

Definition handle (event : ControlEvent) (p : ShortcutPolicy)
    : ShortcutPolicy * list ShortcutMatch :=
  match ce_transition event with
  | Pressed => press (ce_source event) (ce_control event) p
  | Released =>
      release (ce_source event) (ce_control event)
        (with_disarmed (fun d => d ∖ {[ce_control event]}) p)
  end.

Definition handle_value (source control : string) (value : Z) (p : ShortcutPolicy)
    : ShortcutPolicy * list ShortcutMatch :=
  match control_from_str control with
  | None => (p, [])
  | Some control =>
      match control_value_from_i32 value with
      | None => (p, [])
      | Some ValueReleased => handle (released source control) p
      | Some ValuePressed => handle (pressed source control) p
      | Some ValueRepeat => (p, [])
      end
  end.

Definition axis_of (axis : DpadAxis) (s : SourceState) : option Control :=
  match axis with Horizontal => ss_horizontal s | Vertical => ss_vertical s end.

Definition set_axis (axis : DpadAxis) (next : option Control) (s : SourceState) : SourceState :=
  match axis with
  | Horizontal => MkSource (ss_pressed s) next (ss_vertical s)
  | Vertical => MkSource (ss_pressed s) (ss_horizontal s) next
  end.

Definition handle_opt (event : option ControlEvent) (p : ShortcutPolicy)
    : ShortcutPolicy * list ShortcutMatch :=
  match event with Some event => handle event p | None => (p, []) end.

Definition handle_dpad_axis (source : string) (axis : DpadAxis) (value : Z) (p : ShortcutPolicy)
    : ShortcutPolicy * list ShortcutMatch :=
  let next := control_for axis value in
  let state := default source_default (sources p !! source) in
  let previous := axis_of axis state in
  if bool_decide (previous = next)
  then (with_sources <[source := state]> p, [])
  else
    let p := with_sources <[source := set_axis axis next state]> p in
    let '(p, matches) := handle_opt (released source <$> previous) p in
    let '(p, matches') := handle_opt (pressed source <$> next) p in
    (p, matches ++ matches').

Definition clear_source (source : string) (p : ShortcutPolicy) : ShortcutPolicy :=
  let p := with_sources (delete source) p in
  let p := remove_empty_sources p in
  let p := rearm_inactive_actions p in
  let p := with_consumed (filter (fun control => is_pressed p control = true)) p in
  disarm_destructive_matching p.

Definition reset (p : ShortcutPolicy) : ShortcutPolicy :=
  disarm_destructive_matching
    (with_consumed (fun _ => ∅) (with_fired (fun _ => ∅) (with_sources (fun _ => ∅) p))).

(** ** Runs *)

(** The policy after a sequence of control events. *)
Definition handle_all (events : list ControlEvent) (p : ShortcutPolicy) : ShortcutPolicy :=
  fold_left (fun p event => (handle event p).1) events p.

(** Every public operation that changes the policy. *)
Inductive policy_step : ShortcutPolicy -> ShortcutPolicy -> Prop :=
| step_handle event p : policy_step p (handle event p).1
| step_value source control value p : policy_step p (handle_value source control value p).1
| step_axis source axis value p : policy_step p (handle_dpad_axis source axis value p).1
| step_clear source p : policy_step p (clear_source source p)
| step_reset p : policy_step p (reset p).

(** The policies the program can reach from a construction. *)
Inductive reachable (scs : list ShortcutDefinition) (tps : list TapDefinition)
    : ShortcutPolicy -> Prop :=
| reach_new : reachable scs tps (policy_new scs tps)
| reach_step p p' : reachable scs tps p -> policy_step p p' -> reachable scs tps p'.

(** The controls a sequence of events released. *)
Definition released_controls (events : list ControlEvent) : gset Control :=
  list_to_set (ce_control <$>
    keep (fun event => bool_decide (ce_transition event = Released)) events).

(** The pressed part of [press], before the shortcut loop. *)
Definition press_insert (source : string) (control : Control) (p : ShortcutPolicy)
    : ShortcutPolicy :=
  with_sources
    <[source := with_pressed (fun s => {[control]} ∪ s)
                  (default source_default (sources p !! source))]> p.

(** Every id that has fired still has an assembled shortcut. *)
Definition fired_assembled (p : ShortcutPolicy) : Prop :=
  forall id, id ∈ fired_ids p ->
    exists sc, sc ∈ shortcuts p /\ sc_id sc = id /\ definition_assembled p sc = true.

(** What [shortcut_new] guarantees of a definition. *)
Definition well_built (sc : ShortcutDefinition) : Prop :=
  NoDup (required_controls sc) /\ (source_rule sc = SameSource -> sc_exact sc = true).

(** ** Lemmas *)

Lemma well_built_destructive id cs : well_built (destructive id cs).
Proof. split; [apply btree_elements_NoDup|done]. Qed.

Lemma well_built_non_destructive id cs exact : well_built (non_destructive id cs exact).
Proof. split; [apply btree_elements_NoDup|done]. Qed.

Lemma is_pressed_true p c :
  is_pressed p c = true <-> exists src s, sources p !! src = Some s /\ c ∈ ss_pressed s.
Proof.
  unfold is_pressed, has_control_pressed. rewrite map_any_true.
  by setoid_rewrite bool_decide_eq_true.
Qed.

Lemma elem_of_active p c :
  c ∈ active_controls p <-> exists src s, sources p !! src = Some s /\ c ∈ ss_pressed s.
Proof.
  unfold active_controls. rewrite elem_of_union_list. split.
  - intros (X0 & ([src s] & -> & Hin)%list_elem_of_fmap & Hc).
    exists src, s. by rewrite <- elem_of_map_to_list.
  - intros (src & s & Hs & Hc). exists (ss_pressed s). split; [|done].
    apply list_elem_of_fmap. exists (src, s). by rewrite elem_of_map_to_list.
Qed.

(** The queries read only the pressed controls of the sources. *)
Definition pressed_le (p p' : ShortcutPolicy) : Prop :=
  forall src s, sources p !! src = Some s ->
    exists s', sources p' !! src = Some s' /\ ss_pressed s ⊆ ss_pressed s'.

#[export] Instance pressed_le_refl : Reflexive pressed_le.
Proof. intros p src s Hs. by exists s. Qed.

#[export] Instance pressed_le_trans : Transitive pressed_le.
Proof.
  intros p q r H1 H2 src s Hs. destruct (H1 _ _ Hs) as (s' & Hs' & ?).
  destruct (H2 _ _ Hs') as (s'' & ? & ?). exists s''. set_solver.
Qed.

Lemma pressed_le_eq p p' : sources p = sources p' -> pressed_le p p'.
Proof. intros Heq src s Hs. exists s. by rewrite <- Heq. Qed.

Lemma assembled_mono p p' sc :
  pressed_le p p' -> definition_assembled p sc = true -> definition_assembled p' sc = true.
Proof.
  intros Hle. unfold definition_assembled. destruct (source_rule sc).
  - rewrite !forallb_spec. intros Ha c Hc. specialize (Ha c Hc).
    apply is_pressed_true in Ha as (src & s & Hs & Hin). destruct (Hle _ _ Hs) as (s' & ? & ?).
    apply is_pressed_true. exists src, s'. set_solver.
  - rewrite !map_any_true. intros (src & s & Hs & Hh). destruct (Hle _ _ Hs) as (s' & ? & Hsub).
    exists src, s'. split; [done|]. unfold holds_all, has_control_pressed in *.
    rewrite forallb_spec in *. intros c Hc. specialize (Hh c Hc).
    rewrite bool_decide_eq_true in *. set_solver.
Qed.

Lemma assembled_sources p p' sc :
  sources p = sources p' -> definition_assembled p sc = definition_assembled p' sc.
Proof. intros Heq. unfold definition_assembled, is_pressed. by rewrite Heq. Qed.

Lemma matches_assembled p sc source :
  definition_matches p sc source = true -> definition_assembled p sc = true.
Proof.
  unfold definition_matches, definition_assembled. destruct (source_rule sc).
  - intros [Ha _]%andb_true_iff. rewrite forallb_spec in *. intros c Hc.
    specialize (Ha c Hc). rewrite bool_decide_eq_true, elem_of_active in Ha.
    by apply is_pressed_true.
  - intros [_ Hs]%andb_true_iff. destruct (sources p !! source) as [s|] eqn:Hl; [|done].
    apply andb_true_iff in Hs as [Hh _]. apply map_any_true. by exists source, s.
Qed.

Lemma matches_congr p p' sc source :
  sources p = sources p' ->
  destructive_disarmed_controls p = destructive_disarmed_controls p' ->
  definition_matches p sc source = definition_matches p' sc source.
Proof. intros Hs Hd. unfold definition_matches, active_controls. by rewrite Hs, Hd. Qed.

(** The shortcut loop of [press]: what it emits and what it leaves alone. *)
Lemma press_loop_spec source control l p p' ms0 ms :
  fold_left (press_step source control) l (p, ms0) = (p', ms) ->
  exists new,
    ms = ms0 ++ new /\ NoDup new /\
    fired_ids p' = fired_ids p ∪ list_to_set new /\
    (forall id, id ∈ new <->
       id ∉ fired_ids p /\ exists sc, sc ∈ l /\ sc_id sc = id /\ control ∈ required_controls sc
                          /\ definition_matches p sc source = true) /\
    sources p' = sources p /\ shortcuts p' = shortcuts p /\ taps p' = taps p /\
    destructive_controls p' = destructive_controls p /\
    destructive_disarmed_controls p' = destructive_disarmed_controls p /\
    consumed_taps p ⊆ consumed_taps p'.
Proof.
  revert p ms0. induction l as [|sc l IH]; intros p ms0; simpl.
  { intros [= <- <-]. exists []. rewrite app_nil_r. repeat split; try done; try set_solver.
    constructor. }
  destruct (_ || _) eqn:Hskip.
  - intros (new & -> & Hnd & Hf & Hiff & Hrest)%IH. exists new. do 3 (split; [done|]).
    split; [|done]. intros id. rewrite Hiff. split.
    + intros (? & sc' & ? & ?). split; [done|]. exists sc'. split; [by right|done].
    + intros (Hid & sc' & [->|?]%elem_of_cons & Hsc); [|by eauto 6].
      exfalso. destruct Hsc as (Heq & Hc & Hm). rewrite Hm in Hskip. subst id.
      rewrite bool_decide_true, bool_decide_false in Hskip; done.
  - apply orb_false_iff in Hskip as [[Hc Hid]%orb_false_iff Hm].
    apply negb_false_iff, bool_decide_eq_true in Hc. apply bool_decide_eq_false in Hid.
    apply negb_false_iff in Hm.
    intros (new & -> & Hnd & Hf & Hiff & Hs & Hsc & Ht & Hdc & Hdd & Hcons)%IH.
    simpl in *. exists (sc_id sc :: new). split; [by rewrite <- app_assoc|].
    assert (sc_id sc ∉ new) as Hnew by (rewrite Hiff; set_solver).
    split; [by constructor|]. split; [rewrite Hf; set_solver|].
    split; [|by (split_and!; try done; set_solver)]. intros id. rewrite elem_of_cons, Hiff. split.
    + intros [->|(? & sc' & ? & ? & ? & Hm')].
      * split; [done|]. exists sc. split_and!; try done. left.
      * split; [set_solver|]. exists sc'. split_and!; try done. by right.
    + intros (Hid' & sc' & [->|?]%elem_of_cons & Heq & Hc' & Hm'); [by left|].
      destruct (decide (id = sc_id sc)) as [->|Hne]; [by left|]. right.
      split; [set_solver|]. by exists sc'.
Qed.

Lemma press_insert_le source control p : pressed_le p (press_insert source control p).
Proof.
  intros src s Hs. simpl. destruct (decide (source = src)) as [<-|Hne].
  - rewrite lookup_insert_eq. rewrite Hs. simpl. eexists. split; [done|]. simpl. set_solver.
  - rewrite lookup_insert_ne by done. by exists s.
Qed.

Lemma insert_default_le source f p :
  (forall s, ss_pressed s ⊆ ss_pressed (f s)) ->
  pressed_le p (with_sources <[source := f (default source_default (sources p !! source))]> p).
Proof.
  intros Hf src s Hs. simpl. destruct (decide (source = src)) as [<-|Hne].
  - rewrite lookup_insert_eq, Hs. simpl. eauto.
  - rewrite lookup_insert_ne by done. by exists s.
Qed.

Lemma fired_assembled_mono p p' :
  pressed_le p p' -> shortcuts p' = shortcuts p -> fired_ids p' = fired_ids p ->
  fired_assembled p -> fired_assembled p'.
Proof.
  intros Hle Hsc Hf Hp id Hid. rewrite Hf in Hid. destruct (Hp id Hid) as (sc & ? & ? & ?).
  exists sc. rewrite Hsc. split_and!; try done. by eapply assembled_mono.
Qed.

Lemma fired_assembled_same p p' :
  sources p' = sources p -> shortcuts p' = shortcuts p -> fired_ids p' = fired_ids p ->
  fired_assembled p -> fired_assembled p'.
Proof. intros Hs. apply fired_assembled_mono. by apply pressed_le_eq. Qed.

Lemma rearm_fired_assembled p : fired_assembled (rearm_inactive_actions p).
Proof.
  intros id. simpl. rewrite elem_of_filter. intros [Hid _].
  rewrite elem_of_list_to_set, list_elem_of_fmap in Hid.
  destruct Hid as (sc & -> & [Hin Ha]%elem_of_keep). exists sc. split_and!; try done.
Qed.

(** The shortcuts, taps and destructive controls are fixed at construction. *)
Definition same_config (p p' : ShortcutPolicy) : Prop :=
  shortcuts p' = shortcuts p /\ taps p' = taps p /\
  destructive_controls p' = destructive_controls p.

Lemma same_config_trans p q r : same_config p q -> same_config q r -> same_config p r.
Proof. unfold same_config. intuition congruence. Qed.

(** [press] on a control the source does not hold yet. *)
Lemma press_unfold source control p :
  has_control_pressed control (default source_default (sources p !! source)) = false ->
  press source control p =
    fold_left (press_step source control) (shortcuts p) (press_insert source control p, []).
Proof. intros Hp. unfold press, press_insert. by rewrite Hp. Qed.

Lemma press_config source control p : same_config p (press source control p).1.
Proof.
  destruct (has_control_pressed control (default source_default (sources p !! source))) eqn:Hp.
  - unfold press. by rewrite Hp.
  - rewrite press_unfold by done. destruct (fold_left _ _ _) as [p' ms] eqn:Hf. simpl.
    apply press_loop_spec in Hf as (new & _ & _ & _ & _ & _ & ? & ? & ? & _). done.
Qed.

Lemma press_disarmed source control p :
  destructive_disarmed_controls (press source control p).1 = destructive_disarmed_controls p.
Proof.
  destruct (has_control_pressed control (default source_default (sources p !! source))) eqn:Hp.
  - unfold press. by rewrite Hp.
  - rewrite press_unfold by done. destruct (fold_left _ _ _) as [p' ms] eqn:Hf. simpl.
    by apply press_loop_spec in Hf as (new & _ & _ & _ & _ & _ & _ & _ & _ & ? & _).
Qed.

Lemma press_fired_assembled source control p :
  fired_assembled p -> fired_assembled (press source control p).1.
Proof.
  intros Hp.
  destruct (has_control_pressed control (default source_default (sources p !! source))) eqn:Hc.
  - unfold press. rewrite Hc. simpl. apply (fired_assembled_mono p); [|done..].
    by apply (insert_default_le source id).
  - rewrite press_unfold by done. destruct (fold_left _ _ _) as [p' ms] eqn:Hf. simpl.
    apply press_loop_spec in Hf as (new & _ & _ & Hfi & Hiff & Hs & Hsc & _).
    intros id. rewrite Hfi, elem_of_union, elem_of_list_to_set. intros [Hid|Hid].
    + destruct (Hp id Hid) as (sc & ? & ? & Ha). exists sc. rewrite Hsc. split_and!; try done.
      eapply assembled_mono; [|exact Ha]. etrans; [apply press_insert_le|].
      by apply pressed_le_eq.
    + apply Hiff in Hid as (_ & sc & ? & ? & _ & Hm). exists sc. rewrite Hsc.
      split_and!; try done. apply matches_assembled in Hm.
      by rewrite (assembled_sources _ _ _ Hs).
Qed.

Lemma release_config source control p : same_config p (release source control p).1.
Proof.
  unfold release. destruct (sources p !! source) as [s|]; [|done].
  destruct (negb _); [done|]. destruct (is_pressed _ _); [done|].
  by destruct (bool_decide _).
Qed.

Lemma release_disarmed source control p :
  destructive_disarmed_controls (release source control p).1 = destructive_disarmed_controls p.
Proof.
  unfold release. destruct (sources p !! source) as [s|]; [|done].
  destruct (negb _); [done|]. destruct (is_pressed _ _); [done|].
  by destruct (bool_decide _).
Qed.

Lemma release_fired_assembled source control p :
  fired_assembled p -> fired_assembled (release source control p).1.
Proof.
  intros Hp. unfold release. destruct (sources p !! source) as [s|]; [|done].
  destruct (negb _); [done|]. set (q := rearm_inactive_actions _).
  assert (fired_assembled q) as Hq by apply rearm_fired_assembled.
  destruct (is_pressed q control); [done|].
  destruct (bool_decide _); simpl; by apply (fired_assembled_same q).
Qed.

Lemma handle_config event p : same_config p (handle event p).1.
Proof.
  unfold handle. destruct (ce_transition event); [apply press_config|].
  eapply same_config_trans; [|apply release_config]. done.
Qed.

Lemma handle_fired_assembled event p : fired_assembled p -> fired_assembled (handle event p).1.
Proof.
  intros Hp. unfold handle. destruct (ce_transition event).
  - by apply press_fired_assembled.
  - apply release_fired_assembled. by apply (fired_assembled_same p).
Qed.

Lemma handle_disarmed event p :
  destructive_disarmed_controls (handle event p).1
  = destructive_disarmed_controls p ∖ released_controls [event].
Proof.
  unfold handle, released_controls. destruct event as [source control []]; simpl.
  - rewrite press_disarmed. set_solver.
  - rewrite release_disarmed. simpl. set_solver.
Qed.

Lemma handle_opt_inv (P : ShortcutPolicy -> Prop) event p :
  (forall e q, P q -> P (handle e q).1) -> P p -> P (handle_opt event p).1.
Proof. intros Hh Hp. destruct event; simpl; auto. Qed.

(** A property preserved by [handle] and by touching a source without changing
    what it presses holds after an axis event. *)
Lemma handle_dpad_axis_inv (P : ShortcutPolicy -> Prop) source axis value p :
  (forall e q, P q -> P (handle e q).1) ->
  (forall f q, (forall s, ss_pressed (f s) = ss_pressed s) -> P q ->
     P (with_sources <[source := f (default source_default (sources q !! source))]> q)) ->
  P p -> P (handle_dpad_axis source axis value p).1.
Proof.
  intros Hh Ht Hp. unfold handle_dpad_axis. destruct (bool_decide _).
  - by apply (Ht id).
  - destruct (handle_opt (released source <$> _) _) as [q ms] eqn:Hq.
    destruct (handle_opt (pressed source <$> _) q) as [r ms'] eqn:Hr. simpl.
    replace r with (handle_opt (pressed source <$> control_for axis value) q).1 by (by rewrite Hr).
    apply handle_opt_inv; [done|].
    match type of Hq with handle_opt ?e ?t = _ =>
      replace q with (handle_opt e t).1 by (by rewrite Hq) end.
    apply handle_opt_inv; [done|]. apply Ht; [|done]. intros s. by destruct axis.
Qed.

Lemma policy_step_config p p' : policy_step p p' -> same_config p p'.
Proof.
  destruct 1 as [event p|source control value p|source axis value p|source p|p].
  - apply handle_config.
  - unfold handle_value. destruct (control_from_str control); [|done].
    destruct (control_value_from_i32 value) as [[]|]; try done; apply handle_config.
  - apply (handle_dpad_axis_inv (same_config p)); [| |done].
    + intros e q Hq. eapply same_config_trans; [done|apply handle_config].
    + done.
  - done.
  - done.
Qed.

Lemma policy_step_fired p p' : policy_step p p' -> fired_assembled p -> fired_assembled p'.
Proof.
  destruct 1 as [event p|source control value p|source axis value p|source p|p]; intros Hp.
  - by apply handle_fired_assembled.
  - unfold handle_value. destruct (control_from_str control); [|done].
    destruct (control_value_from_i32 value) as [[]|]; try done; by apply handle_fired_assembled.
  - apply (handle_dpad_axis_inv fired_assembled); [|intros f q Hf Hq|done].
    + intros e q. apply handle_fired_assembled.
    + apply (fired_assembled_mono q); [|done..]. apply insert_default_le.
      intros s. by rewrite Hf.
  - unfold clear_source, disarm_destructive_matching.
    set (r := rearm_inactive_actions _).
    apply (fired_assembled_same r); [done..|]. apply rearm_fired_assembled.
  - unfold reset. simpl. intros id Hid. simpl in Hid. set_solver.
Qed.

Lemma reachable_config scs tps p :
  reachable scs tps p ->
  shortcuts p = scs /\ taps p = tps /\ destructive_controls p = destructive_controls (policy_new scs tps).
Proof.
  induction 1 as [|p p' _ IH Hstep]; [done|].
  destruct (policy_step_config _ _ Hstep) as (-> & -> & ->). done.
Qed.

Lemma handle_all_config events p : same_config p (handle_all events p).
Proof.
  revert p. induction events as [|e events IH]; intros p; simpl; [done|].
  eapply same_config_trans; [apply handle_config|apply IH].
Qed.

Lemma released_controls_cons e events :
  released_controls (e :: events) = released_controls [e] ∪ released_controls events.
Proof.
  unfold released_controls. simpl. destruct (bool_decide _); simpl; set_solver.
Qed.

Lemma handle_all_disarmed events p :
  destructive_disarmed_controls (handle_all events p)
  = destructive_disarmed_controls p ∖ released_controls events.
Proof.
  revert p. induction events as [|e events IH]; intros p; simpl.
  { unfold released_controls. simpl. set_solver. }
  change (fold_left _ events ?q) with (handle_all events q).
  rewrite IH, handle_disarmed, (released_controls_cons e events). set_solver.
Qed.

Lemma press_emits source control p id :
  id ∈ (press source control p).2 ->
  has_control_pressed control (default source_default (sources p !! source)) = false /\
  id ∉ fired_ids p /\
  exists sc, sc ∈ shortcuts p /\ sc_id sc = id /\ control ∈ required_controls sc /\
    definition_matches (press_insert source control p) sc source = true.
Proof.
  destruct (has_control_pressed control (default source_default (sources p !! source))) eqn:Hc.
  { unfold press. rewrite Hc. simpl. by intros ?%not_elem_of_nil. }
  rewrite press_unfold by done. destruct (fold_left _ _ _) as [p' ms] eqn:Hf. simpl.
  apply press_loop_spec in Hf as (new & -> & _ & _ & Hiff & _). simpl.
  intros Hid%Hiff. done.
Qed.

Lemma release_emits source control p id :
  id ∈ (release source control p).2 -> exists tap, tap ∈ taps p /\ tap_id tap = id.
Proof.
  unfold release. destruct (sources p !! source) as [s|]; simpl; [|by intros ?%not_elem_of_nil].
  destruct (negb _); simpl; [by intros ?%not_elem_of_nil|].
  destruct (is_pressed _ _); simpl; [by intros ?%not_elem_of_nil|].
  destruct (bool_decide _); simpl; [by intros ?%not_elem_of_nil|].
  intros (tap & -> & [? _]%elem_of_keep)%list_elem_of_fmap. by exists tap.
Qed.

(** An event forgets a fired id only by leaving all its shortcuts unassembled. *)
Lemma handle_keeps_fired event p id sc :
  id ∈ fired_ids p -> sc ∈ shortcuts p -> sc_id sc = id ->
  definition_assembled (handle event p).1 sc = true -> id ∈ fired_ids (handle event p).1.
Proof.
  intros Hid Hsc Heq. unfold handle. destruct (ce_transition event).
  - intros _. set (source := ce_source event). set (control := ce_control event).
    destruct (has_control_pressed control (default source_default (sources p !! source))) eqn:Hc.
    + unfold press. by rewrite Hc.
    + rewrite press_unfold by done. destruct (fold_left _ _ _) as [p' ms] eqn:Hf. simpl.
      apply press_loop_spec in Hf as (new & _ & _ & -> & _). simpl. set_solver.
  - set (p0 := with_disarmed _ p). unfold release. change (sources p0) with (sources p).
    destruct (sources p !! ce_source event) as [s|]; [|done].
    destruct (negb _); [done|]. set (r := remove_empty_sources _).
    assert (definition_assembled r sc = true -> id ∈ fired_ids (rearm_inactive_actions r)) as Hr.
    { intros Ha. simpl. apply elem_of_filter. split; [|done].
      apply elem_of_list_to_set, list_elem_of_fmap. exists sc. split; [done|].
      by apply elem_of_keep. }
    destruct (is_pressed _ _); [exact Hr|]. by destruct (bool_decide _).
Qed.

(** A full-size subset given as a duplicate-free list is the whole set. *)
Lemma exact_held (l : list Control) (s : gset Control) :
  NoDup l -> (forall c, c ∈ l -> c ∈ s) -> size s = length l -> s = list_to_set l.
Proof.
  intros Hnd Hsub Hsz. symmetry. apply set_subseteq_size_eq; [set_solver|].
  rewrite Hsz, size_list_to_set by done. done.
Qed.

(** ** Properties *)

(** In every policy the program can reach, an id that has fired and has not
    been rearmed still has a shortcut whose controls are all held (on one
    source for a destructive shortcut). *)
Theorem fired_ids_assembled scs tps p :
  reachable scs tps p ->
  forall id, id ∈ fired_ids p ->
    exists sc, sc ∈ scs /\ sc_id sc = id /\ definition_assembled p sc = true.
Proof.
  intros Hr id Hid. pose proof (reachable_config _ _ _ Hr) as (Hsc & _).
  enough (fired_assembled p) as Hf by (rewrite <- Hsc; by apply Hf).
  clear id Hid Hsc. induction Hr as [|p p' _ IH Hstep].
  - intros id Hid. simpl in Hid. set_solver.
  - by eapply policy_step_fired.
Qed.

(** a press emits exactly the ids of the shortcuts that name the control,
    match now and had not fired, each once, and marks exactly these as fired. *)
Theorem press_spec source control p :
  has_control_pressed control (default source_default (sources p !! source)) = false ->
  let p1 := press_insert source control p in
  let '(p', ms) := press source control p in
  NoDup ms /\
  (forall id, id ∈ ms <->
     id ∉ fired_ids p /\
     exists sc, sc ∈ shortcuts p /\ sc_id sc = id /\ control ∈ required_controls sc /\
       definition_matches p1 sc source = true) /\
  fired_ids p' = fired_ids p ∪ list_to_set ms /\
  sources p' = sources p1.
Proof.
  intros Hc p1. rewrite press_unfold by done. destruct (fold_left _ _ _) as [p' ms] eqn:Hf.
  apply press_loop_spec in Hf as (new & -> & Hnd & Hfi & Hiff & Hs & _).
  simpl in *. by split_and!.
Qed.

(** after a reset, a destructive id fires on a press only when every
    destructive control was released since, and the pressing source then holds
    exactly the controls of a shortcut with that id. *)
Theorem destructive_needs_release p events source control id :
  (forall sc, sc ∈ shortcuts p -> well_built sc) ->
  (forall sc, sc ∈ shortcuts p -> sc_id sc = id -> source_rule sc = SameSource) ->
  let q := handle_all events (reset p) in
  id ∈ (handle (pressed source control) q).2 ->
  destructive_controls p ⊆ released_controls events /\
  exists sc s, sc ∈ shortcuts p /\ sc_id sc = id /\
    sources (press_insert source control q) !! source = Some s /\
    ss_pressed s = list_to_set (required_controls sc).
Proof.
  intros Hwb Hsame q (_ & _ & sc & Hsc & Hid & _ & Hm)%press_emits.
  assert (shortcuts q = shortcuts p) as Hq by apply (handle_all_config events (reset p)).
  rewrite Hq in Hsc. pose proof (Hsame _ Hsc Hid) as Hrule.
  change (ce_source (pressed source control)) with source in Hm.
  change (ce_control (pressed source control)) with control in Hm.
  unfold definition_matches in Hm. rewrite Hrule in Hm.
  apply andb_true_iff in Hm as [Hd Hm]. apply bool_decide_eq_true in Hd.
  change (destructive_disarmed_controls q = ∅) in Hd.
  unfold q in Hd. rewrite handle_all_disarmed in Hd. simpl in Hd.
  split; [intros c Hc; destruct (decide (c ∈ released_controls events)); set_solver|].
  destruct (sources (press_insert source control q) !! source) as [s|] eqn:Hs; [|discriminate Hm].
  apply andb_true_iff in Hm as [Hh Hx]. destruct (Hwb _ Hsc) as [Hnd Hex].
  exists sc, s. split_and!; try done. apply exact_held; [done| |].
  - unfold holds_all, has_control_pressed in Hh. rewrite forallb_spec in Hh.
    intros c Hcin. specialize (Hh c Hcin). by apply bool_decide_eq_true in Hh.
  - rewrite Hex in Hx by done. by apply Nat.eqb_eq in Hx.
Qed.

(** while a fired chord stays assembled, no later control event emits its
    id again. *)
Theorem no_refire_while_assembled p events id :
  id ∈ fired_ids p ->
  (forall tap, tap ∈ taps p -> tap_id tap <> id) ->
  (forall pre, pre `prefix_of` events ->
     exists sc, sc ∈ shortcuts p /\ sc_id sc = id /\
       definition_assembled (handle_all pre p) sc = true) ->
  forall pre event, pre ++ [event] `prefix_of` events ->
    id ∉ (handle event (handle_all pre p)).2.
Proof.
  intros Hid Htap Hass.
  assert (forall pre, pre `prefix_of` events -> id ∈ fired_ids (handle_all pre p)) as Hfired.
  { intros pre. induction pre as [|e pre IH] using rev_ind; [done|]. intros Hpre.
    specialize (IH ltac:(by eapply prefix_app_l)).
    destruct (Hass _ Hpre) as (sc & Hsc & Hscid & Ha). revert Ha.
    unfold handle_all. rewrite fold_left_app. simpl.
    change (fold_left _ pre p) with (handle_all pre p). intros Ha.
    eapply handle_keeps_fired; [done| |done|done].
    by rewrite (proj1 (handle_all_config pre p)). }
  intros pre event Hpre.
  specialize (Hfired pre ltac:(by eapply prefix_app_l)).
  unfold handle. destruct (ce_transition event).
  - intros (_ & Hn & _)%press_emits. done.
  - intros (tap & Ht & Heq)%release_emits. revert Heq. apply Htap.
    by rewrite <- (proj1 (proj2 (handle_all_config pre p))).
Qed.

(** a release emits the taps of the control exactly when the control was
    held on that source, is now held nowhere, and no chord consumed it. *)
Theorem release_taps source control p :
  let '(p', ms) := release source control p in
  ms =
    (if is_some_and (sources p !! source) (has_control_pressed control)
        && negb (is_pressed p' control)
        && negb (bool_decide (control ∈ consumed_taps p))
     then tap_id <$> keep (fun tap => bool_decide (tap_control tap = control)) (taps p)
     else []) /\
  (is_some_and (sources p !! source) (has_control_pressed control) = true ->
   is_pressed p' control = false -> control ∉ consumed_taps p') /\
  (forall src s, sources p' !! src = Some s -> src = source -> control ∉ ss_pressed s).
Proof.
  unfold release. destruct (sources p !! source) as [s|] eqn:Hs; simpl.
  2: { split_and!; [done|done|]. intros src s Hl ->. congruence. }
  destruct (has_control_pressed control s) eqn:Hc; simpl.
  2: { split_and!; [done|done|]. intros src s' Hl ->. rewrite Hs in Hl. simplify_eq.
       by apply bool_decide_eq_false in Hc. }
  set (q := rearm_inactive_actions _).
  assert (forall src s, sources q !! src = Some s -> src = source -> control ∉ ss_pressed s) as Hq.
  { intros src s' Hl ->. unfold q in Hl. simpl in Hl.
    apply map_lookup_filter_Some in Hl as [Hl _]. rewrite lookup_insert_eq in Hl.
    simplify_eq. simpl. set_solver. }
  destruct (is_pressed q control) eqn:Hp; simpl.
  { rewrite Hp. split_and!; done. }
  change (consumed_taps q) with (consumed_taps p).
  assert (forall f, is_pressed (with_consumed f q) control = false) as Hp' by done.
  destruct (bool_decide (control ∈ consumed_taps p)); rewrite Hp';
    (split_and!; [done|intros _ _; simpl; set_solver|done]).
Qed.

(** ** Witnesses *)

Lemma handle_all_reachable scs tps events p :
  reachable scs tps p -> reachable scs tps (handle_all events p).
Proof.
  revert p. induction events as [|e events IH]; intros p Hp; simpl; [done|].
  apply IH. eapply reach_step; [done|apply step_handle].
Qed.

Definition demo_shortcuts : list ShortcutDefinition :=
  [destructive "kill" [L1; R1; Start; Select]; non_destructive "prev" [Home; L1] false].

Definition demo_taps : list TapDefinition := [MkTap "panel" Home].

Definition demo_policy : ShortcutPolicy := policy_new demo_shortcuts demo_taps.

Definition demo_held : ShortcutPolicy :=
  handle_all [pressed "pad" Home; pressed "keys" L1] demo_policy.

(** Every destructive control goes down and up, then three of them are held. *)
Definition demo_armed_events : list ControlEvent :=
  [pressed "pad" L1; released "pad" L1; pressed "pad" R1; released "pad" R1;
   pressed "pad" Start; released "pad" Start; pressed "pad" Select; released "pad" Select;
   pressed "pad" L1; pressed "pad" R1; pressed "pad" Start].

Lemma fired_ids_assembled_witness :
  exists sc, sc ∈ demo_shortcuts /\ sc_id sc = "prev" /\ definition_assembled demo_held sc = true.
Proof.
  apply (fired_ids_assembled demo_shortcuts demo_taps demo_held).
  - apply handle_all_reachable, reach_new.
  - decide_vm.
Defined.

Lemma press_spec_witness :
  fired_ids (press "keys" L1 (handle_all [pressed "pad" Home] demo_policy)).1 = {["prev"]}.
Proof.
  assert (has_control_pressed L1
    (default source_default (sources (handle_all [pressed "pad" Home] demo_policy) !! "keys")) = false)
    as Hc by reflexivity.
  pose proof (press_spec "keys" L1 _ Hc) as Hp.
  destruct (press "keys" L1 _) as [p' ms] eqn:Hpress.
  destruct Hp as (_ & _ & Hf & _). cbn [fst]. rewrite Hf.
  apply (f_equal snd) in Hpress. cbn [snd] in Hpress. rewrite <- Hpress.
  decide_vm.
Defined.

Lemma demo_well_built sc : sc ∈ shortcuts demo_policy -> well_built sc.
Proof.
  intros Hsc. unfold demo_policy, demo_shortcuts in Hsc. simpl in Hsc.
  apply elem_of_cons in Hsc as [->|Hsc]; [apply well_built_destructive|].
  apply elem_of_cons in Hsc as [->|Hsc]; [apply well_built_non_destructive|].
  by apply not_elem_of_nil in Hsc.
Qed.

Lemma demo_kill_same sc :
  sc ∈ shortcuts demo_policy -> sc_id sc = "kill" -> source_rule sc = SameSource.
Proof.
  intros Hsc. unfold demo_policy, demo_shortcuts in Hsc. simpl in Hsc.
  apply elem_of_cons in Hsc as [->|Hsc]; [done|].
  apply elem_of_cons in Hsc as [->|Hsc]; [done|]. by apply not_elem_of_nil in Hsc.
Qed.

Lemma destructive_needs_release_witness :
  (handle (pressed "pad" Select) (handle_all demo_armed_events (reset demo_policy))).2 = ["kill"] /\
  destructive_controls demo_policy ⊆ released_controls demo_armed_events.
Proof.
  split; [reflexivity|].
  apply (destructive_needs_release demo_policy demo_armed_events "pad" Select "kill").
  - apply demo_well_built.
  - apply demo_kill_same.
  - decide_vm.
Defined.

Lemma no_refire_while_assembled_witness :
  "prev" ∉ (handle (pressed "third" L1) (handle_all [pressed "third" Home] demo_held)).2.
Proof.
  apply (no_refire_while_assembled demo_held
           [pressed "third" Home; pressed "third" L1] "prev").
  - decide_vm.
  - intros tap. unfold demo_held. rewrite (proj1 (proj2 (handle_all_config _ demo_policy))).
    intros [->|?%not_elem_of_nil]%elem_of_cons; done.
  - intros pre Hpre.
    exists (non_destructive "prev" [Home; L1] false). split_and!.
    + unfold demo_held. rewrite (proj1 (handle_all_config _ demo_policy)). right; left.
    + done.
    + destruct pre as [|e1 [|e2 [|e3 pre]]].
      * reflexivity.
      * destruct Hpre as [k [= <- _]]. reflexivity.
      * destruct Hpre as [k [= <- <- _]]. reflexivity.
      * destruct Hpre as [k Hk]. discriminate Hk.
  - exists []. reflexivity.
Defined.
