(* ===== verification/Hold.v ===== *)
(** * Hold policy (services/inputd/core/src/hold.rs)

    Tap, progress and hold recognition over named holds on a millisecond clock.
    Progress is an IEEE binary64 fraction, computed here with the Standard
    Library's executable specification floats. *)

From S2P Require Import Prelude.
From Stdlib Require Import SpecFloat.

(** ** binary64 *)

Definition f64 : Type := spec_float.

(** [n as f64]: round to nearest even. *)
Definition f64_of_Z (z : Z) : f64 := binary_normalize 53 1024 z 0 false.

Definition f64_div (a b : f64) : f64 := SFdiv 53 1024 a b.

Definition f64_lt (a b : f64) : bool :=
  match SFcompare a b with Some Lt => true | _ => false end.

Definition f64_zero : f64 := S754_zero false.
Definition f64_one : f64 := f64_of_Z 1.

(** [f64::clamp]: a NaN stays. *)
Definition f64_clamp (x lo hi : f64) : f64 :=
  let x := if f64_lt x lo then lo else x in
  if f64_lt hi x then hi else x.

(** ** Data *)

Record HoldConfig := MkHoldConfig { tap_ms : Z; hold_ms : Z }.

Definition hold_config_default : HoldConfig := MkHoldConfig 250 2000.

Inductive HoldConfigError : Type := ZeroHoldDuration.

Inductive HoldPhase : Type := PhasePress | PhaseProgress | PhaseFired | PhaseTap | PhaseCancel.

#[export] Instance HoldPhase_eq_dec : EqDecision HoldPhase.
Proof. solve_decision. Defined.

Record HoldUpdate := MkUpdate {
  hu_id : string;
  hu_phase : HoldPhase;
  hu_progress : f64;
  hu_elapsed_ms : Z;
}.

Record HoldState := MkHold { started_at_ms : Z; hold_fired : bool }.

Record HoldPolicy := MkHoldPolicy { hp_config : HoldConfig; holds : gmap string HoldState }.

Definition with_holds (f : gmap string HoldState -> gmap string HoldState) (p : HoldPolicy)
    : HoldPolicy :=
  MkHoldPolicy (hp_config p) (f (holds p)).

(** ** Operations *)

Definition hold_policy_new (config : HoldConfig) : result HoldConfigError HoldPolicy :=
  if hold_ms config =? 0 then Err ZeroHoldDuration
  else Ok (MkHoldPolicy
             (MkHoldConfig (Z.min (tap_ms config) (hold_ms config)) (hold_ms config)) ∅).

Definition progress (config : HoldConfig) (elapsed_ms : Z) : f64 :=
  let span := Z.max (saturating_sub (hold_ms config) (tap_ms config)) 1 in
  let elapsed_after_tap := saturating_sub elapsed_ms (tap_ms config) in
  f64_clamp (f64_div (f64_of_Z elapsed_after_tap) (f64_of_Z span)) f64_zero f64_one.

Definition engage (id : string) (now_ms : Z) (p : HoldPolicy) : HoldPolicy * list HoldUpdate :=
  if is_some (holds p !! id) then (p, [])
  else (with_holds <[id := MkHold now_ms false]> p, [MkUpdate id PhasePress f64_zero 0]).

(** The update [advance] reports for one hold. *)
Definition advance_update (config : HoldConfig) (now_ms : Z) (entry : string * HoldState)
    : option HoldUpdate :=
  let '(id, state) := entry in
  if hold_fired state then None
  else
    let elapsed_ms := saturating_sub now_ms (started_at_ms state) in
    if hold_ms config <=? elapsed_ms then Some (MkUpdate id PhaseFired f64_one elapsed_ms)
    else if elapsed_ms <? tap_ms config then None
    else Some (MkUpdate id PhaseProgress (progress config elapsed_ms) elapsed_ms).

(** The change [advance] makes to one hold. *)
Definition advance_state (config : HoldConfig) (now_ms : Z) (state : HoldState) : HoldState :=
  if hold_fired state then state
  else if hold_ms config <=? saturating_sub now_ms (started_at_ms state)
  then MkHold (started_at_ms state) true
  else state.

Definition advance (now_ms : Z) (p : HoldPolicy) : HoldPolicy * list HoldUpdate :=
  (with_holds (fmap (advance_state (hp_config p) now_ms)) p,
   filter_map (advance_update (hp_config p) now_ms) (btree_entries (holds p))).

Definition release_hold (id : string) (now_ms : Z) (p : HoldPolicy) : HoldPolicy * list HoldUpdate :=
  match holds p !! id with
  | None => (p, [])
  | Some state =>
      let p := with_holds (delete id) p in
      if hold_fired state then (p, [])
      else
        let elapsed_ms := saturating_sub now_ms (started_at_ms state) in
        if elapsed_ms <? tap_ms (hp_config p)
        then (p, [MkUpdate id PhaseTap f64_zero elapsed_ms])
        else (p, [MkUpdate id PhaseCancel (progress (hp_config p) elapsed_ms) elapsed_ms])
  end.

Definition clear (id : string) (p : HoldPolicy) : HoldPolicy * bool :=
  (with_holds (delete id) p, is_some (holds p !! id)).

Definition is_holding (id : option string) (p : HoldPolicy) : bool :=
  match id with
  | Some id => is_some (holds p !! id)
  | None => negb (bool_decide (holds p = ∅))
  end.

Definition reset_holds (p : HoldPolicy) : HoldPolicy := with_holds (fun _ => ∅) p.

(** ** Runs *)

Inductive HoldOp : Type :=
| OpEngage (id : string) (now_ms : Z)
| OpAdvance (now_ms : Z)
| OpRelease (id : string) (now_ms : Z)
| OpClear (id : string)
| OpReset.

Definition hold_step (op : HoldOp) (p : HoldPolicy) : HoldPolicy * list HoldUpdate :=
  match op with
  | OpEngage id now => engage id now p
  | OpAdvance now => advance now p
  | OpRelease id now => release_hold id now p
  | OpClear id => ((clear id p).1, [])
  | OpReset => (reset_holds p, [])
  end.

Fixpoint hold_run (ops : list HoldOp) (p : HoldPolicy) : HoldPolicy * list HoldUpdate :=
  match ops with
  | [] => (p, [])
  | op :: ops =>
      let '(p, us) := hold_step op p in
      let '(p, us') := hold_run ops p in
      (p, us ++ us')
  end.

(** Updates of an id in a phase. *)
Definition count_phase (id : string) (phase : HoldPhase) (us : list HoldUpdate) : Z :=
  Z.of_nat (length (keep (fun u => bool_decide (hu_id u = id) && bool_decide (hu_phase u = phase)) us)).

(** The ways a hold ends for the client. *)
Definition outcomes (id : string) (us : list HoldUpdate) : Z :=
  count_phase id PhaseFired us + count_phase id PhaseTap us + count_phase id PhaseCancel us.

(** A hold that has not had its outcome. *)
Definition pending (id : string) (p : HoldPolicy) : Z :=
  match holds p !! id with Some s => if hold_fired s then 0 else 1 | None => 0 end.

Definition discards (op : HoldOp) : bool :=
  match op with OpClear _ | OpReset => true | _ => false end.

(** ** Lemmas *)

Lemma count_phase_app id ph us us' :
  count_phase id ph (us ++ us') = count_phase id ph us + count_phase id ph us'.
Proof.
  unfold count_phase. induction us as [|u us IH]; simpl; [lia|].
  destruct (_ && _); simpl; lia.
Qed.

Lemma outcomes_app id us us' : outcomes id (us ++ us') = outcomes id us + outcomes id us'.
Proof. unfold outcomes. rewrite !count_phase_app. lia. Qed.

Lemma count_phase_other id ph us :
  (forall u, u ∈ us -> hu_id u <> id) -> count_phase id ph us = 0.
Proof.
  unfold count_phase. induction us as [|u us IH]; intros Hu; simpl; [done|].
  rewrite (bool_decide_false (hu_id u = id)) by (apply Hu; left). simpl.
  apply IH. intros u' ?. apply Hu. by right.
Qed.

(** A filter over entries with distinct keys reports one key at most once. *)
Lemma count_filter_map id ph f (l : list (string * HoldState)) :
  (forall k s u, f (k, s) = Some u -> hu_id u = k) -> NoDup l.*1 ->
  count_phase id ph (filter_map f l) =
  match find (fun kv => bool_decide (kv.1 = id)) l with
  | Some kv => match f kv with
               | Some u => if bool_decide (hu_phase u = ph) then 1 else 0
               | None => 0
               end
  | None => 0
  end.
Proof.
  intros Hf. induction l as [|[k s] l IH]; simpl; [done|]. intros [Hk Hnd]%NoDup_cons.
  destruct (bool_decide (k = id)) eqn:Heq.
  - apply bool_decide_eq_true in Heq as ->.
    assert (count_phase id ph (filter_map f l) = 0) as H0.
    { apply count_phase_other. intros u ([k' s'] & Hin & Hu)%elem_of_filter_map.
      rewrite (Hf _ _ _ Hu). intros ->. apply Hk, list_elem_of_fmap. by exists (id, s'). }
    destruct (f (id, s)) as [u|] eqn:Hu; [|done].
    unfold count_phase in *. simpl. rewrite (bool_decide_true (hu_id u = id)) by eauto. simpl.
    destruct (bool_decide (hu_phase u = ph)); simpl; lia.
  - apply bool_decide_eq_false in Heq. rewrite <- IH by done.
    destruct (f (k, s)) as [u|] eqn:Hu; [|done].
    unfold count_phase. simpl. rewrite (bool_decide_false (hu_id u = id)); [done|].
    by rewrite (Hf _ _ _ Hu).
Qed.

Lemma find_btree_entries (m : gmap string HoldState) id :
  find (fun kv => bool_decide (kv.1 = id)) (btree_entries m) = (fun s => (id, s)) <$> m !! id.
Proof.
  destruct (find _ _) as [[k s]|] eqn:Hf.
  - apply find_Some in Hf as [Hin Heq%bool_decide_eq_true]. simpl in Heq; subst k.
    apply elem_of_btree_entries in Hin. simpl in *. by rewrite Hin.
  - destruct (m !! id) as [s|] eqn:Hs; [|done].
    rewrite find_None in Hf. apply elem_of_btree_entries in Hs.
    specialize (Hf _ Hs). simpl in Hf. by rewrite bool_decide_true in Hf.
Qed.

Lemma advance_update_id c now k s u : advance_update c now (k, s) = Some u -> hu_id u = k.
Proof.
  simpl. destruct (hold_fired s); [done|]. destruct (_ <=? _); [by intros [= <-]|].
  destruct (_ <? _); [done|]. by intros [= <-].
Qed.

Lemma count_advance id ph now p :
  count_phase id ph (advance now p).2 =
  match holds p !! id with
  | Some s => match advance_update (hp_config p) now (id, s) with
              | Some u => if bool_decide (hu_phase u = ph) then 1 else 0
              | None => 0
              end
  | None => 0
  end.
Proof.
  unfold advance. cbn [snd]. rewrite count_filter_map.
  - rewrite find_btree_entries. by destruct (holds p !! id).
  - apply advance_update_id.
  - apply (btree_keys_NoDup (holds p)).
Qed.

Lemma count_phase_singleton id ph u :
  count_phase id ph [u] =
  if bool_decide (hu_id u = id) && bool_decide (hu_phase u = ph) then 1 else 0.
Proof. unfold count_phase. simpl. by destruct (_ && _). Qed.

Lemma pending_insert id id' s p :
  pending id (with_holds <[id' := s]> p) =
  if bool_decide (id' = id) then (if hold_fired s then 0 else 1) else pending id p.
Proof.
  unfold pending. simpl. destruct (bool_decide (id' = id)) eqn:Heq.
  - apply bool_decide_eq_true in Heq as ->. by rewrite lookup_insert_eq.
  - apply bool_decide_eq_false in Heq. by rewrite lookup_insert_ne.
Qed.

Lemma pending_delete id id' p :
  pending id (with_holds (delete id') p) = if bool_decide (id' = id) then 0 else pending id p.
Proof.
  unfold pending. simpl. destruct (bool_decide (id' = id)) eqn:Heq.
  - apply bool_decide_eq_true in Heq as ->. by rewrite lookup_delete_eq.
  - apply bool_decide_eq_false in Heq. by rewrite lookup_delete_ne.
Qed.

Lemma engage_balance id id' now p :
  count_phase id PhasePress (engage id' now p).2 + pending id p
  = outcomes id (engage id' now p).2 + pending id (engage id' now p).1.
Proof.
  unfold engage. destruct (holds p !! id') as [s|] eqn:Hs; [simpl; unfold outcomes, count_phase; simpl; lia|].
  cbn [fst snd is_some]. rewrite pending_insert. unfold outcomes. rewrite !count_phase_singleton. simpl.
  destruct (bool_decide (id' = id)) eqn:Heq; simpl; [|lia].
  apply bool_decide_eq_true in Heq as ->. unfold pending. rewrite Hs. lia.
Qed.

Lemma advance_balance id now p :
  count_phase id PhasePress (advance now p).2 + pending id p
  = outcomes id (advance now p).2 + pending id (advance now p).1.
Proof.
  unfold outcomes. rewrite !count_advance. unfold pending. cbn [advance fst with_holds holds].
  rewrite lookup_fmap. destruct (holds p !! id) as [s|]; [|done]. cbn [fmap option_fmap option_map].
  unfold advance_update, advance_state.
  destruct (hold_fired s) eqn:Hf; [by rewrite Hf|]. destruct (_ <=? _); [done|].
  destruct (_ <? _); simpl; by rewrite Hf.
Qed.

Lemma release_balance id id' now p :
  count_phase id PhasePress (release_hold id' now p).2 + pending id p
  = outcomes id (release_hold id' now p).2 + pending id (release_hold id' now p).1.
Proof.
  unfold release_hold. destruct (holds p !! id') as [s|] eqn:Hs; [|simpl; unfold outcomes, count_phase; simpl; lia].
  destruct (hold_fired s) eqn:Hf; [|destruct (_ <? _)]; cbn [fst snd];
    rewrite pending_delete; unfold outcomes; rewrite ?count_phase_singleton; simpl;
    (destruct (bool_decide (id' = id)) eqn:Heq;
     [apply bool_decide_eq_true in Heq as ->; unfold pending; rewrite Hs, Hf|];
     simpl; unfold count_phase; simpl; lia).
Qed.

(** ** Properties *)

(** along any run without [clear] and [reset], the presses reported for an id
    equal its outcomes (fired, tap or cancel) plus the one hold still pending:
    every press gets exactly one outcome and a fired hold is silent after. *)
Theorem every_press_has_one_outcome ops p id :
  forallb (fun op => negb (discards op)) ops = true ->
  let '(p', us) := hold_run ops p in
  count_phase id PhasePress us + pending id p = outcomes id us + pending id p'.
Proof.
  revert p. induction ops as [|op ops IH]; intros p Hops; simpl; [done|].
  apply andb_true_iff in Hops as [Hop Hops].
  destruct (hold_step op p) as [q us] eqn:Hq. specialize (IH q Hops).
  destruct (hold_run ops q) as [p' us'].
  assert (count_phase id PhasePress us + pending id p = outcomes id us + pending id q) as Hb.
  { replace us with (hold_step op p).2 by (by rewrite Hq).
    replace q with (hold_step op p).1 by (by rewrite Hq).
    destruct op; simpl in *; try done.
    - apply engage_balance. - apply advance_balance. - apply release_balance. }
  rewrite count_phase_app, outcomes_app. lia.
Qed.

(** [advance] reports, in the order of the ids, exactly the unfired holds at
    or past the tap time: fired from the hold time on, progress before it. *)
Theorem advance_reports now p u :
  u ∈ (advance now p).2 <->
  exists s, holds p !! hu_id u = Some s /\ hold_fired s = false /\
    hu_elapsed_ms u = saturating_sub now (started_at_ms s) /\
    ((hold_ms (hp_config p) <= hu_elapsed_ms u /\ hu_phase u = PhaseFired /\ hu_progress u = f64_one)
     \/ (tap_ms (hp_config p) <= hu_elapsed_ms u < hold_ms (hp_config p) /\ hu_phase u = PhaseProgress
         /\ hu_progress u = progress (hp_config p) (hu_elapsed_ms u))).
Proof.
  unfold advance. cbn [snd]. rewrite elem_of_filter_map. split.
  - intros ([k s] & Hin & Hu). apply elem_of_btree_entries in Hin.
    pose proof (advance_update_id _ _ _ _ _ Hu) as Hid. rewrite Hid. clear Hid. exists s.
    split; [done|]. unfold advance_update in Hu. destruct (hold_fired s); [done|].
    split; [done|]. destruct (Z.leb_spec (hold_ms (hp_config p)) (saturating_sub now (started_at_ms s))).
    + injection Hu as <-. simpl. split; [done|]. by left.
    + destruct (Z.ltb_spec (saturating_sub now (started_at_ms s)) (tap_ms (hp_config p))); [done|].
      injection Hu as <-. simpl. split; [done|]. right. split; [lia|done].
  - intros (s & Hs & Hf & He & Hcase). exists (hu_id u, s).
    split; [by apply elem_of_btree_entries|]. unfold advance_update. rewrite Hf, <- He.
    clear Hs. destruct u as [k ph pr el]; simpl in *. destruct Hcase as [(? & -> & ->)|(? & -> & ->)].
    + by rewrite (proj2 (Z.leb_le _ _)).
    + rewrite (proj2 (Z.leb_gt _ _)), (proj2 (Z.ltb_ge _ _)) by lia. done.
Qed.

(** ** Witnesses *)

Definition demo_ops : list HoldOp :=
  [OpEngage "a" 0; OpEngage "b" 100; OpAdvance 1000; OpRelease "b" 1200; OpAdvance 2500; OpRelease "a" 2600;
   OpEngage "a" 3000].

Definition demo_holds : HoldPolicy := MkHoldPolicy hold_config_default ∅.

Lemma every_press_has_one_outcome_witness :
  count_phase "a" PhasePress (hold_run demo_ops demo_holds).2 = 2 /\
  count_phase "a" PhasePress (hold_run demo_ops demo_holds).2 + pending "a" demo_holds
  = outcomes "a" (hold_run demo_ops demo_holds).2 + pending "a" (hold_run demo_ops demo_holds).1.
Proof.
  split; [vm_compute; reflexivity|].
  pose proof (every_press_has_one_outcome demo_ops demo_holds "a" eq_refl) as Hw.
  destruct (hold_run demo_ops demo_holds) as [p' us]. exact Hw.
Defined.
