(* ===== verification/Contract.v ===== *)
(** * Seat coordination treaty (contracts/input/src/lib.rs)

    The gamepad state, the coordinator's requests and the receiver's replies,
    which korrid and the seat receiver share. *)

From S2P Require Import Prelude.

Definition COORDINATION_VERSION : Z := 2.
Definition MAX_COORDINATION_BYTES : Z := 65536.
Definition MAX_REMOTE_EVENTS : Z := 128.
Definition COORDINATOR_TIMEOUT_MS : Z := 1250.
Definition MAX_PHYSICAL_SOURCES : Z := 255.
Definition GAMEPAD_STICK_FLAT : Z := 4096.

Record GamepadState := MkPad {
  buttons : Z;
  left_trigger : Z;
  right_trigger : Z;
  left_stick_x : Z;
  left_stick_y : Z;
  right_stick_x : Z;
  right_stick_y : Z;
}.

#[export] Instance GamepadState_eq_dec : EqDecision GamepadState.
Proof. solve_decision. Defined.

(** The widths of the fields: u32, u8 and i16. *)
Definition pad_in_range (s : GamepadState) : Prop :=
  in_u32 (buttons s) /\ in_u8 (left_trigger s) /\ in_u8 (right_trigger s) /\
  in_i16 (left_stick_x s) /\ in_i16 (left_stick_y s) /\
  in_i16 (right_stick_x s) /\ in_i16 (right_stick_y s).

Definition within_flat (v : Z) : bool := (- GAMEPAD_STICK_FLAT <=? v) && (v <=? GAMEPAD_STICK_FLAT).

Definition is_neutral_for_rearm (s : GamepadState) : bool :=
  (buttons s =? 0) && (left_trigger s =? 0) && (right_trigger s =? 0)
  && within_flat (left_stick_x s) && within_flat (left_stick_y s)
  && within_flat (right_stick_x s) && within_flat (right_stick_y s).

Definition neutral : GamepadState := MkPad 0 0 0 0 0 0 0.

Inductive SeatOrder : Type := FirstPress | Attached.

#[export] Instance SeatOrder_eq_dec : EqDecision SeatOrder.
Proof. solve_decision. Defined.

Inductive SeatRequest : Type :=
| Hello
| Poll
| ApplyCount (count : Z)
| BeginSession (launch_id : string) (seat_order : SeatOrder)
| ReserveNetplay (launch_id device_public_key : string)
| EndSession (launch_id : string)
| Route (launch_id : option string)
| PhysicalConnected (device_id name : string) (state : GamepadState)
| PhysicalState (device_id : string) (state : GamepadState)
| PhysicalDisconnected (device_id : string).

#[export] Instance SeatRequest_eq_dec : EqDecision SeatRequest.
Proof. solve_decision. Defined.

Inductive SeatFailure : Type :=
| FInvalid | FNotReady | FActive | FStale | FUnknownSource | FRateLimited | FBackend.

#[export] Instance SeatFailure_eq_dec : EqDecision SeatFailure.
Proof. solve_decision. Defined.

Record RemoteSource := MkRemote {
  rs_client_id : string;
  rs_launch_id : string;
  rs_controller_number : Z;
  rs_state : GamepadState;
  rs_slot : option Z;
}.

Inductive RemoteEvent : Type :=
| RemoteConnected (source : RemoteSource)
| RemoteState (source : RemoteSource)
| RemoteDisconnected (client_id launch_id : string) (controller_number : Z).

(** A [PathBuf] is its path string. *)
Record SeatReply := MkReply {
  occupied_local_seats : list string;
  reply_failure : option SeatFailure;
  reply_count : Z;
  reply_session : option string;
  reply_recovery_required : bool;
  reply_slot : option Z;
  remote_sources : list RemoteSource;
  remote_events : list RemoteEvent;
}.

Lemma neutral_rearms : is_neutral_for_rearm neutral = true.
Proof. reflexivity. Qed.

Lemma neutral_in_range : pad_in_range neutral.
Proof. unfold pad_in_range, in_u32, in_u8, in_i16; simpl; lia. Qed.
