(* ===== verification/SeatPool.v ===== *)
(** * Seat pool (services/inputd/src/seat_pool.rs)

    The pool owns the virtual gamepads and allocates them to source keys. It is
    proved against an interface of the device backend ([SeatBackend], the trait
    of input_seat.rs) and the contract the pool's module comment states for it
    ([SeatBackendLaws]).

    The source keeps the backend in an [Option] that is [None] only after
    [cleanup], which ends the pool's life; here a live pool holds its backend and
    [cleanup] returns the retired one. *)

From S2P Require Import Prelude Contract.

(** ** The backend interface (input_seat.rs) *)

Definition MAX_SEATS : Z := 4.

Record SeatSpec := MkSpec { spec_slot : Z; spec_name : string; spec_physical_path : string }.

Definition spec_for_slot (slot : Z) : SeatSpec :=
  MkSpec slot ("Korri Seat P" +:+ decimal slot) ("korri/input-seat/p" +:+ decimal slot).

Class SeatBackend (B : Type) := {
  be_create : SeatSpec -> B -> B * result string unit;
  be_event_device : Z -> B -> result string string;
  be_write_state : Z -> GamepadState -> B -> B * result string unit;
  be_destroy : Z -> B -> B * result string unit;
}.

(** [be_device b slot] is the full state the virtual device of [slot] holds. A
    successful write establishes it, whatever failed before; no operation
    touches the device of another slot. *)
Class SeatBackendLaws (B : Type) `{SeatBackend B} := {
  be_device : B -> Z -> option GamepadState;
  be_write_ok slot state b b' :
    be_write_state slot state b = (b', Ok ()) -> be_device b' slot = Some state;
  be_write_frame slot slot' state b :
    slot' <> slot -> be_device (be_write_state slot state b).1 slot' = be_device b slot';
  be_create_frame spec slot' b :
    slot' <> spec_slot spec -> be_device (be_create spec b).1 slot' = be_device b slot';
  be_destroy_frame slot slot' b :
    slot' <> slot -> be_device (be_destroy slot b).1 slot' = be_device b slot';
}.

(** ** Data *)

Inductive PoolError : Type :=
| NoSeat
| UnknownSource
| DisconnectedSource
| InvalidSession (message : string)
| SessionAlreadyActive
| StaleSession
| PoolBackend (message : string).

#[export] Instance PoolError_eq_dec : EqDecision PoolError.
Proof. solve_decision. Defined.

Definition is_hex_id (value : string) : bool := all_chars is_lower_hex value.

(** [validate_launch_id] (input_seat.rs). *)
Definition validate_launch_id (value : string) : result string unit :=
  if (str_len value =? 32) && is_hex_id value then Ok ()
  else Err "launch ID must be 32 lower-case hexadecimal bytes".

Section pool.
Context {K B : Type} `{EqDecision K, SeatBackend B}.

Record Binding := MkBinding { bd_source : K; bd_connected : bool }.

Record Seat := MkSeat {
  seat_slot : Z;
  binding : option Binding;
  known_state : option GamepadState;
}.

Record SeatPool := MkPool {
  backend : B;
  seats : list Seat;
  session : option string;
}.

(** ** Field updates *)

Definition with_backend (b : B) (p : SeatPool) : SeatPool := MkPool b (seats p) (session p).
Definition with_seats (l : list Seat) (p : SeatPool) : SeatPool := MkPool (backend p) l (session p).
Definition with_session (s : option string) (p : SeatPool) : SeatPool :=
  MkPool (backend p) (seats p) s.

Definition with_known (k : option GamepadState) (s : Seat) : Seat :=
  MkSeat (seat_slot s) (binding s) k.
Definition with_binding (b : option Binding) (s : Seat) : Seat :=
  MkSeat (seat_slot s) b (known_state s).

Definition update_seat (index : nat) (f : Seat -> Seat) (p : SeatPool) : SeatPool :=
  with_seats (alter f index (seats p)) p.

(** ** Operations *)

Definition bound_to (source : K) (s : Seat) : bool :=
  is_some_and (binding s) (fun b => bool_decide (bd_source b = source)).

Definition seat_index (source : K) (p : SeatPool) : option nat :=
  position (bound_to source) (seats p).

(** An index past the seats panics in the source; every caller below passes
    the position of a seat. *)
Definition write (index : nat) (state : GamepadState) (p : SeatPool)
    : SeatPool * result string unit :=
  match seats p !! index with
  | None => (p, Err "index out of bounds")
  | Some seat =>
      if bool_decide (known_state seat = Some state) then (p, Ok ())
      else
        let p := update_seat index (with_known None) p in
        let '(b, r) := be_write_state (seat_slot seat) state (backend p) in
        let p := with_backend b p in
        match r with
        | Err e => (p, Err e)
        | Ok _ => (update_seat index (with_known (Some state)) p, Ok ())
        end
  end.

(** The loops over all seats that attempt a neutral write on the selected ones,
    optionally free them, and collect the errors. *)
Fixpoint neutralize_seats (selected : Seat -> bool) (free : bool) (indices : list nat)
    (p : SeatPool) : SeatPool * list string :=
  match indices with
  | [] => (p, [])
  | index :: indices =>
      if is_some_and (seats p !! index) selected then
        match write index neutral p with
        | (p, Ok _) =>
            neutralize_seats selected free indices
              (if free then update_seat index (with_binding None) p else p)
        | (p, Err error) =>
            let '(p, errors) := neutralize_seats selected free indices p in
            (p, error :: errors)
        end
      else neutralize_seats selected free indices p
  end.

Definition all_indices (p : SeatPool) : list nat := seq 0 (length (seats p)).

Definition report (errors : list string) : result PoolError unit :=
  match errors with [] => Ok () | _ => Err (PoolBackend (join "; " errors)) end.

Definition neutralize (p : SeatPool) : SeatPool * result PoolError unit :=
  let '(p, errors) := neutralize_seats (fun _ => true) false (all_indices p) p in
  (p, report errors).

(** Destroys the given slots, attempting each. *)
Fixpoint destroy_seats (slots : list Z) (b : B) : B * list string :=
  match slots with
  | [] => (b, [])
  | slot :: slots =>
      let '(b, r) := be_destroy slot b in
      let '(b, errors) := destroy_seats slots b in
      (b, match r with Ok _ => errors | Err e => e :: errors end)
  end.

(** The retired backend and the outcome. *)
Definition cleanup (p : SeatPool) : B * result string unit :=
  let '(p, errors) := neutralize_seats (fun _ => true) false (all_indices p) p in
  let '(b, errors') := destroy_seats (rev (seat_slot <$> seats p)) (backend p) in
  (b, match errors ++ errors' with [] => Ok () | errors => Err (join "; " errors) end).

Definition stop (p : SeatPool) : B * result PoolError unit :=
  let '(b, r) := cleanup p in (b, map_err PoolBackend r).

(** Creates, pushes and neutralizes one seat per slot. *)
Fixpoint create_seats (slots : list Z) (p : SeatPool) : SeatPool * result string unit :=
  match slots with
  | [] => (p, Ok ())
  | slot :: slots =>
      match be_create (spec_for_slot slot) (backend p) with
      | (b, Err e) => (with_backend b p, Err e)
      | (b, Ok _) =>
          let p := with_seats (seats p ++ [MkSeat slot None None]) (with_backend b p) in
          match write (length (seats p) - 1) neutral p with
          | (p, Err e) => (p, Err e)
          | (p, Ok _) => create_seats slots p
          end
      end
  end.

(** On failure the rollback's backend is what is left. *)
Definition pool_new (count : Z) (b : B) : result (PoolError * B) SeatPool :=
  match create_seats (seqZ 1 count) (MkPool b [] None) with
  | (p, Ok _) => Ok p
  | (p, Err error) =>
      match cleanup p with
      | (b, Ok _) => Err (PoolBackend error, b)
      | (b, Err cleanup_error) =>
          Err (PoolBackend (error +:+ "; rollback: " +:+ cleanup_error), b)
      end
  end.

Definition begin_session (id : string) (p : SeatPool) : SeatPool * result PoolError unit :=
  match validate_launch_id id with
  | Err e => (p, Err (InvalidSession e))
  | Ok _ =>
      if is_some (session p) then (p, Err SessionAlreadyActive)
      else (with_session (Some id) p, Ok ())
  end.

Definition disconnected_binding (s : Seat) : bool :=
  is_some_and (binding s) (fun b => negb (bd_connected b)).

Definition end_session (id : string) (p : SeatPool) : SeatPool * result PoolError unit :=
  if negb (bool_decide (session p = Some id)) then (p, Err StaleSession)
  else
    let '(p, errors) := neutralize_seats disconnected_binding true (all_indices p) p in
    match errors with
    | [] => (with_session None p, Ok ())
    | _ => (p, Err (PoolBackend (join "; " errors)))
    end.

Definition is_connected (s : Seat) : bool := is_some_and (binding s) bd_connected.

Definition connect_at (index : nat) (source : K) (p : SeatPool) : SeatPool * result PoolError Z :=
  match on_err PoolBackend (write index neutral p) with
  | (p, Err e) => (p, Err e)
  | (p, Ok _) =>
      let p := update_seat index (with_binding (Some (MkBinding source true))) p in
      (p, ok_or (seat_slot <$> seats p !! index) NoSeat)
  end.

Definition connect (source : K) (p : SeatPool) : SeatPool * result PoolError Z :=
  match seat_index source p with
  | Some index =>
      match seats p !! index with
      | Some seat =>
          if is_connected seat then (p, Ok (seat_slot seat)) else connect_at index source p
      | None => (p, Err NoSeat)
      end
  | None =>
      match position (fun seat => is_none (binding seat)) (seats p) with
      | None => (p, Err NoSeat)
      | Some index => connect_at index source p
      end
  end.

Definition release_all (id : string) (p : SeatPool) : SeatPool * result PoolError unit :=
  if negb (bool_decide (session p = Some id)) then (p, Err StaleSession)
  else
    let '(p, errors) :=
      neutralize_seats (fun seat => is_some (binding seat)) true (all_indices p) p in
    (p, report errors).

Definition set_connected (c : bool) (s : Seat) : Seat :=
  with_binding ((fun b => MkBinding (bd_source b) c) <$> binding s) s.

Definition slot_of (source : K) (p : SeatPool) : option Z :=
  index ← seat_index source p; seat_slot <$> seats p !! index.

Definition reserve (id : string) (source : K) (p : SeatPool) : SeatPool * result PoolError Z :=
  if negb (bool_decide (session p = Some id)) then (p, Err StaleSession)
  else
    match slot_of source p with
    | Some slot => (p, Ok slot)
    | None =>
        match connect source p with
        | (p, Err e) => (p, Err e)
        | (p, Ok slot) => (update_seat (Z.to_nat (slot - 1)) (set_connected false) p, Ok slot)
        end
    end.

Definition disconnect (source : K) (p : SeatPool) : SeatPool * result PoolError Z :=
  match seat_index source p with
  | None => (p, Err UnknownSource)
  | Some index =>
      let p := update_seat index (set_connected false) p in
      match on_err PoolBackend (write index neutral p) with
      | (p, Err e) => (p, Err e)
      | (p, Ok _) =>
          let p := if is_none (session p) then update_seat index (with_binding None) p else p in
          (p, ok_or (seat_slot <$> seats p !! index) UnknownSource)
      end
  end.

Definition write_state (source : K) (state : GamepadState) (p : SeatPool)
    : SeatPool * result PoolError Z :=
  match seat_index source p with
  | None => (p, Err UnknownSource)
  | Some index =>
      if negb (is_some_and (seats p !! index) is_connected) then (p, Err DisconnectedSource)
      else
        match on_err PoolBackend (write index state p) with
        | (p, Err e) => (p, Err e)
        | (p, Ok _) => (p, ok_or (seat_slot <$> seats p !! index) UnknownSource)
        end
  end.

Definition has_binding (matches : K -> bool) (p : SeatPool) : bool :=
  existsb (fun seat => is_some_and (binding seat) (fun b => matches (bd_source b))) (seats p).

(** [self.seats.len() as u8]. *)
Definition count (p : SeatPool) : Z := Z.of_nat (length (seats p)) mod 256.

Fixpoint collect_devices (l : list Seat) (b : B) : result PoolError (list string) :=
  match l with
  | [] => Ok []
  | seat :: l =>
      match be_event_device (seat_slot seat) b with
      | Err e => Err (PoolBackend e)
      | Ok path => match collect_devices l b with Ok ps => Ok (path :: ps) | Err e => Err e end
      end
  end.

Definition occupied_event_devices (include : K -> bool) (p : SeatPool)
    : result PoolError (list string) :=
  collect_devices
    (keep (fun seat => is_some_and (binding seat)
                         (fun b => bd_connected b && include (bd_source b))) (seats p))
    (backend p).

(** The shrinking loop of [resize]: destroys the last seat while there are more
    than [count]; [extra] of them. *)
Fixpoint shrink (extra : nat) (p : SeatPool) : SeatPool * result PoolError unit :=
  match extra with
  | O => (p, Ok ())
  | S extra =>
      match last (seats p) with
      | None => (p, Ok ())
      | Some seat =>
          match be_destroy (seat_slot seat) (backend p) with
          | (b, Err e) => (with_backend b p, Err (PoolBackend e))
          | (b, Ok _) =>
              shrink extra (with_seats (take (length (seats p) - 1) (seats p)) (with_backend b p))
          end
      end
  end.

Definition resize (n : Z) (p : SeatPool) : SeatPool * result PoolError unit :=
  if is_some (session p) then (p, Err SessionAlreadyActive)
  else if n =? count p then (p, Ok ())
  else
    match neutralize p with
    | (p, Err e) => (p, Err e)
    | (p, Ok _) =>
        match shrink (length (seats p) - Z.to_nat n) p with
        | (p, Err e) => (p, Err e)
        | (p, Ok _) =>
            on_err PoolBackend
              (create_seats (seqZ (count p + 1) (n - count p)) p)
        end
    end.
End pool.

Arguments Binding K : clear implicits.
Arguments Seat K : clear implicits.
Arguments SeatPool K B : clear implicits.

#[export] Instance Binding_eq_dec {K} `{EqDecision K} : EqDecision (Binding K).
Proof. solve_decision. Defined.

(** ** Invariants *)

Section theory.
Context {K B : Type} `{EqDecision K, SeatBackend B}.
Implicit Types p q : SeatPool K B.
Implicit Types s t : Seat K.

(** Slots number the seats from one and no key holds two seats. *)
Record pool_wf p : Prop := {
  wf_slots i s : seats p !! i = Some s -> seat_slot s = Z.of_nat i + 1;
  wf_len : (length (seats p) <= 255)%nat;
  wf_unique i j s t k :
    seats p !! i = Some s -> seats p !! j = Some t ->
    bound_to k s = true -> bound_to k t = true -> i = j;
}.

(** Every seat of [q] is neutral for sure, or as it was in [p]. *)
Definition settled p q : Prop :=
  forall i s, seats q !! i = Some s -> known_state s = Some neutral \/ seats p !! i = Some s.

(** [t] is the seat [s] with the same slot and no new owner. *)
Definition seat_le s t : Prop :=
  seat_slot t = seat_slot s /\ forall k, bound_to k t = true -> bound_to k s = true.

Definition pool_le p q : Prop := Forall2 seat_le (seats p) (seats q).

(** Every operation on a pool that its clients call. *)
Inductive pool_step : SeatPool K B -> SeatPool K B -> Prop :=
| ps_begin id p : pool_step p (begin_session id p).1
| ps_end id p : pool_step p (end_session id p).1
| ps_connect k p : pool_step p (connect k p).1
| ps_release_all id p : pool_step p (release_all id p).1
| ps_reserve id k p : pool_step p (reserve id k p).1
| ps_disconnect k p : pool_step p (disconnect k p).1
| ps_write_state k st p : pool_step p (write_state k st p).1
| ps_neutralize p : pool_step p (neutralize p).1
| ps_resize n p : 1 <= n <= 255 -> pool_step p (resize n p).1.

Inductive pool_reachable : SeatPool K B -> Prop :=
| pr_new n b p : 1 <= n <= 255 -> pool_new n b = Ok p -> pool_reachable p
| pr_step p q : pool_reachable p -> pool_step p q -> pool_reachable q.

(** ** Lemmas: seats *)

Lemma bound_to_true k s :
  bound_to k s = true <-> exists c, binding s = Some (MkBinding k c).
Proof.
  unfold bound_to. destruct (binding s) as [[k' c]|]; simpl.
  - rewrite bool_decide_eq_true. split; [intros ->; by eexists|by intros [? [= -> _]]].
  - split; [done|by intros [? ?]].
Qed.

#[global] Instance seat_le_refl : Reflexive seat_le.
Proof. by intros s. Qed.
#[global] Instance seat_le_trans : Transitive seat_le.
Proof. intros s t u [? ?] [? ?]. split; [congruence|auto]. Qed.

#[global] Instance pool_le_refl : Reflexive pool_le.
Proof. intros p. unfold pool_le. reflexivity. Qed.
#[global] Instance pool_le_trans : Transitive pool_le.
Proof. intros p q r. unfold pool_le. apply transitivity. Qed.

#[global] Instance settled_refl : Reflexive settled.
Proof. intros p i s. auto. Qed.
#[global] Instance settled_trans : Transitive settled.
Proof. intros p q r Hpq Hqr i s Hs. destruct (Hqr _ _ Hs) as [?|?%Hpq]; auto. Qed.

Lemma Forall2_alter_seats f (l : list (Seat K)) i :
  (forall s, seat_le s (f s)) -> Forall2 seat_le l (alter f i l).
Proof.
  intros Hf. revert i. induction l as [|s l IH]; intros [|i]; simpl; constructor; try done.
  apply IH.
Qed.

Lemma pool_le_update f i p : (forall s, seat_le s (f s)) -> pool_le p (update_seat i f p).
Proof. intros Hf. by apply Forall2_alter_seats. Qed.

Lemma with_known_le k s : seat_le s (with_known k s).
Proof. done. Qed.
Lemma with_binding_none_le s : seat_le s (with_binding None s).
Proof. done. Qed.
Lemma set_connected_le c s : seat_le s (set_connected c s).
Proof. split; [done|]. intros k. unfold bound_to. simpl. by destruct (binding s). Qed.

Lemma pool_le_wf p q : pool_le p q -> pool_wf p -> pool_wf q.
Proof.
  intros Hle [Hs Hl Hu]. unfold pool_le in Hle. split.
  - intros i t Ht. destruct (Forall2_lookup_r _ _ _ _ _ Hle Ht) as (s & Hsi & Heq & _).
    rewrite Heq. by apply Hs.
  - by rewrite <- (Forall2_length _ _ _ Hle).
  - intros i j s' t' k Hi Hj Hbs Hbt.
    destruct (Forall2_lookup_r _ _ _ _ _ Hle Hi) as (s & Hsi & _ & Hks).
    destruct (Forall2_lookup_r _ _ _ _ _ Hle Hj) as (t & Htj & _ & Hkt).
    eapply (Hu i j s t k); eauto.
Qed.

Lemma seats_update i f p : seats (update_seat i f p) = alter f i (seats p).
Proof. done. Qed.

(** ** Lemmas: one write *)

Lemma alter_id_at {A} (f : A -> A) (l : list A) i x :
  l !! i = Some x -> f x = x -> alter f i l = l.
Proof.
  intros Hx Hf. apply list_eq. intros j. destruct (decide (i = j)) as [<-|Hne].
  - rewrite list_lookup_alter_eq, Hx. simpl. by rewrite Hf.
  - by rewrite list_lookup_alter_ne.
Qed.

Lemma alter_twice {A} (f g : A -> A) (l : list A) i :
  alter f i (alter g i l) = alter (fun x => f (g x)) i l.
Proof. revert i. induction l as [|x l IH]; intros [|i]; simpl; [done..|]. f_equal. apply IH. Qed.

Lemma alter_snoc {A} (f : A -> A) (l : list A) x :
  alter f (length l) (l ++ [x]) = l ++ [f x].
Proof. induction l as [|y l IH]; simpl; [done|]. f_equal. apply IH. Qed.

Lemma alter_out {A} (f : A -> A) (l : list A) i : l !! i = None -> alter f i l = l.
Proof.
  intros Hx. apply list_eq. intros j. destruct (decide (i = j)) as [<-|Hne].
  - by rewrite list_lookup_alter_eq, Hx.
  - by rewrite list_lookup_alter_ne.
Qed.

Lemma write_spec i st p q r :
  write i st p = (q, r) ->
  session q = session p /\
  seats q = alter (with_known (match r with Ok _ => Some st | Err _ => None end)) i (seats p).
Proof.
  unfold write. destruct (seats p !! i) as [s|] eqn:Hs.
  2: { intros [= <- <-]. split; [done|]. by rewrite alter_out. }
  destruct (bool_decide _) eqn:Hk.
  - apply bool_decide_eq_true in Hk. intros [= <- <-]. split; [done|].
    symmetry. eapply alter_id_at; [done|]. destruct s; simpl in *. by rewrite Hk.
  - destruct (be_write_state _ _ _) as [b [u|e]]; intros [= <- <-]; simpl; [|done].
    split; [done|]. by rewrite alter_twice.
Qed.

Lemma write_le i st p : pool_le p (write i st p).1.
Proof.
  destruct (write i st p) as [q r] eqn:Hw. apply write_spec in Hw as [_ Hs].
  unfold pool_le. simpl. rewrite Hs. apply Forall2_alter_seats. intros. apply with_known_le.
Qed.

Lemma write_neutral_settled i p q u : write i neutral p = (q, Ok u) -> settled p q.
Proof.
  intros [_ Hs]%write_spec j s. rewrite Hs. destruct (decide (i = j)) as [<-|Hne].
  - rewrite list_lookup_alter_eq, fmap_Some. intros (t & _ & ->). by left.
  - rewrite list_lookup_alter_ne by done. by right.
Qed.

Lemma update_settled i f p q :
  (forall s, known_state (f s) = known_state s) ->
  (forall s, seats q !! i = Some s -> known_state s = Some neutral) ->
  settled p q -> settled p (update_seat i f q).
Proof.
  intros Hf Hn Hpq j s. simpl. destruct (decide (i = j)) as [<-|Hne].
  - rewrite list_lookup_alter_eq, fmap_Some. intros (t & Ht & ->). left. rewrite Hf. auto.
  - rewrite list_lookup_alter_ne by done. apply Hpq.
Qed.

Lemma write_neutral_at i p q u s :
  write i neutral p = (q, Ok u) -> seats q !! i = Some s -> known_state s = Some neutral.
Proof.
  intros [_ ->]%write_spec. rewrite list_lookup_alter_eq, fmap_Some. by intros (t & _ & ->).
Qed.

(** ** Lemmas: loops over the seats *)

Lemma neutralize_seats_le sel free l p : pool_le p (neutralize_seats sel free l p).1.
Proof.
  revert p. induction l as [|i l IH]; intros p; simpl; [reflexivity|].
  destruct (is_some_and _ _); [|apply IH].
  pose proof (write_le i neutral p) as Hw. destruct (write i neutral p) as [q [u|e]]; simpl in *.
  - etrans; [done|]. destruct free; [|apply IH].
    etrans; [|apply IH]. apply pool_le_update. intros. apply with_binding_none_le.
  - specialize (IH q). destruct (neutralize_seats sel free l q) as [q' es]. simpl in *. by etrans.
Qed.

Lemma neutralize_seats_session sel free l p :
  session (neutralize_seats sel free l p).1 = session p.
Proof.
  revert p. induction l as [|i l IH]; intros p; simpl; [done|].
  destruct (is_some_and _ _); [|apply IH].
  destruct (write i neutral p) as [q [u|e]] eqn:Hw; apply write_spec in Hw as [Hss _].
  - rewrite IH. by destruct free.
  - specialize (IH q). destruct (neutralize_seats sel free l q). simpl in *. congruence.
Qed.

Lemma neutralize_seats_settled sel free l p q :
  neutralize_seats sel free l p = (q, []) -> settled p q.
Proof.
  revert p. induction l as [|i l IH]; intros p; simpl; [by intros [= ->]|].
  destruct (is_some_and _ _); [|apply IH].
  destruct (write i neutral p) as [q' [u|e]] eqn:Hw.
  2: { destruct (neutralize_seats _ _ l q'). done. }
  intros Hr%IH. etrans; [|exact Hr]. pose proof (write_neutral_settled _ _ _ _ Hw).
  destruct free; [|done]. apply update_settled; [done| |done].
  intros s. by eapply write_neutral_at.
Qed.

(** A successful pass over all the indices leaves every selected seat neutral
    (and free, when the pass frees). *)
Lemma neutralize_seats_done sel free l p q :
  NoDup l -> neutralize_seats sel free l p = (q, []) ->
  forall i s, seats q !! i = Some s ->
    if decide (i ∈ l)
    then exists s0, seats p !! i = Some s0 /\
           if sel s0
           then s = (if free then with_binding None (with_known (Some neutral) s0)
                     else with_known (Some neutral) s0)
           else s = s0
    else seats p !! i = Some s.
Proof.
  intros Hnd. revert p. induction Hnd as [|i l Hi Hnd IH]; intros p; simpl.
  { intros [= ->] j s Hs. done. }
  destruct (seats p !! i) as [s0|] eqn:Hs0; simpl.
  2: { intros Hr j s Hs. specialize (IH _ Hr j s Hs).
       destruct (decide (j = i)) as [->|Hne].
       - rewrite decide_False in IH by done. congruence.
       - destruct (decide (j ∈ l)); [rewrite decide_True by set_solver|rewrite decide_False by set_solver]; done. }
  destruct (sel s0) eqn:Hsel.
  - destruct (write i neutral p) as [q' [u|e]] eqn:Hw; [|by destruct (neutralize_seats _ _ l q')].
    apply write_spec in Hw as [_ Hw]. intros Hr j s Hs. specialize (IH _ Hr j s Hs).
    destruct (decide (j = i)) as [->|Hne].
    + rewrite decide_False in IH by done. rewrite decide_True by set_solver.
      exists s0. split; [done|]. rewrite Hsel.
      destruct free; [rewrite seats_update, list_lookup_alter_eq in IH|];
        rewrite Hw, list_lookup_alter_eq, Hs0 in IH; simpl in IH; congruence.
    + assert (seats (if free then update_seat i (with_binding None) q' else q') !! j = seats p !! j) as Heq.
      { destruct free; simpl; rewrite ?list_lookup_alter_ne, Hw, ?list_lookup_alter_ne; done. }
      rewrite Heq in IH.
      destruct (decide (j ∈ l)); [rewrite decide_True by set_solver|rewrite decide_False by set_solver]; done.
  - intros Hr j s Hs. specialize (IH _ Hr j s Hs). destruct (decide (j = i)) as [->|Hne].
    + rewrite decide_False in IH by done. rewrite decide_True by set_solver.
      exists s0. split; [done|]. rewrite Hsel. congruence.
    + destruct (decide (j ∈ l)); [rewrite decide_True by set_solver|rewrite decide_False by set_solver]; done.
Qed.

(** ** Lemmas: sessions and neutralization *)

Lemma all_indices_NoDup p : NoDup (all_indices p).
Proof. apply NoDup_ListNoDup, List.seq_NoDup. Qed.

Lemma elem_of_all_indices p i : i ∈ all_indices p <-> (i < length (seats p))%nat.
Proof. unfold all_indices. rewrite list_elem_of_In, List.in_seq. lia. Qed.

Lemma loop_at sel free p q :
  neutralize_seats sel free (all_indices p) p = (q, []) ->
  forall i s, seats q !! i = Some s ->
    exists s0, seats p !! i = Some s0 /\
      if sel s0
      then s = (if free then with_binding None (with_known (Some neutral) s0)
                else with_known (Some neutral) s0)
      else s = s0.
Proof.
  intros Hr i s Hs. pose proof (neutralize_seats_done _ _ _ _ _ (all_indices_NoDup p) Hr i s Hs) as Hd.
  rewrite decide_True in Hd; [done|]. apply elem_of_all_indices.
  pose proof (neutralize_seats_le sel free (all_indices p) p) as Hle. rewrite Hr in Hle.
  rewrite (Forall2_length _ _ _ Hle). by eapply lookup_lt_Some.
Qed.

Lemma report_ok errors u : report errors = Ok u -> errors = [].
Proof. by destruct errors. Qed.

Lemma neutralize_le p : pool_le p (neutralize p).1.
Proof.
  unfold neutralize. pose proof (neutralize_seats_le (fun _ => true) false (all_indices p) p) as Hle.
  by destruct (neutralize_seats _ _ _ p).
Qed.

Lemma neutralize_session p : session (neutralize p).1 = session p.
Proof.
  unfold neutralize. pose proof (neutralize_seats_session (fun _ => true) false (all_indices p) p) as Hle.
  by destruct (neutralize_seats _ _ _ p).
Qed.

Lemma neutralize_ok p q u :
  neutralize p = (q, Ok u) ->
  forall i s, seats q !! i = Some s -> known_state s = Some neutral.
Proof.
  unfold neutralize. destruct (neutralize_seats _ _ _ p) as [q' es] eqn:Hr.
  intros [= -> Hes%report_ok] i s Hs. subst es.
  destruct (loop_at _ _ _ _ Hr i s Hs) as (s0 & _ & ->). done.
Qed.

Lemma end_session_le id p : pool_le p (end_session id p).1.
Proof.
  unfold end_session. destruct (negb _); [reflexivity|].
  pose proof (neutralize_seats_le disconnected_binding true (all_indices p) p) as Hle.
  destruct (neutralize_seats _ _ _ p) as [q [|e es]]; done.
Qed.

Lemma release_all_le id p : pool_le p (release_all id p).1.
Proof.
  unfold release_all. destruct (negb _); [reflexivity|].
  pose proof (neutralize_seats_le (fun s => is_some (binding s)) true (all_indices p) p) as Hle.
  by destruct (neutralize_seats _ _ _ p).
Qed.

Lemma end_session_settled id p q u : end_session id p = (q, Ok u) -> settled p q.
Proof.
  unfold end_session. destruct (negb _); [done|].
  destruct (neutralize_seats _ _ _ p) as [q' [|e es]] eqn:Hr; [|done].
  intros [= <- _]. apply neutralize_seats_settled in Hr. done.
Qed.

Lemma release_all_settled id p q u : release_all id p = (q, Ok u) -> settled p q.
Proof.
  unfold release_all. destruct (negb _); [done|].
  destruct (neutralize_seats _ _ _ p) as [q' es] eqn:Hr.
  intros [= -> Hes%report_ok]. subst es. by eapply neutralize_seats_settled.
Qed.

Lemma release_all_session id p : session (release_all id p).1 = session p.
Proof.
  unfold release_all. destruct (negb _); [done|].
  pose proof (neutralize_seats_session (fun s => is_some (binding s)) true (all_indices p) p).
  by destruct (neutralize_seats _ _ _ p).
Qed.

(** ** Lemmas: lookup by key *)

Lemma seat_index_Some k p i :
  seat_index k p = Some i -> exists s, seats p !! i = Some s /\ bound_to k s = true.
Proof. unfold seat_index. intros [(s & ? & ?) _]%position_Some. by exists s. Qed.

Lemma seat_index_None k p :
  seat_index k p = None <-> forall i s, seats p !! i = Some s -> bound_to k s = false.
Proof.
  unfold seat_index. rewrite position_None. split.
  - intros Ha i s Hs. apply Ha. by eapply list_elem_of_lookup_2.
  - intros Ha s [i Hs]%list_elem_of_lookup. by eapply Ha.
Qed.

Lemma seat_index_wf k p i s :
  pool_wf p -> seats p !! i = Some s -> bound_to k s = true -> seat_index k p = Some i.
Proof.
  intros [_ _ Hu] Hs Hb. destruct (seat_index k p) as [j|] eqn:Hj.
  - apply seat_index_Some in Hj as (t & Ht & Hbt). f_equal. by eapply (Hu j i t s k).
  - rewrite seat_index_None in Hj. by rewrite (Hj _ _ Hs) in Hb.
Qed.

Lemma slot_of_Some k p n :
  pool_wf p ->
  slot_of k p = Some n <->
  exists i s, seats p !! i = Some s /\ bound_to k s = true /\ n = Z.of_nat i + 1.
Proof.
  intros Hwf. unfold slot_of. split.
  - destruct (seat_index k p) as [i|] eqn:Hi; simpl; [|done].
    apply seat_index_Some in Hi as (s & Hs & Hb). rewrite Hs. intros [= <-].
    exists i, s. split_and!; [done..|]. by apply (wf_slots _ Hwf).
  - intros (i & s & Hs & Hb & ->). rewrite (seat_index_wf _ _ _ _ Hwf Hs Hb). simpl.
    rewrite Hs. simpl. f_equal. by apply (wf_slots _ Hwf).
Qed.

Lemma slot_of_None k p :
  slot_of k p = None <-> forall i s, seats p !! i = Some s -> bound_to k s = false.
Proof.
  rewrite <- seat_index_None. unfold slot_of. destruct (seat_index k p) as [i|] eqn:Hi; simpl; [|done].
  apply seat_index_Some in Hi as (s & -> & _). done.
Qed.

(** ** Lemmas: connecting *)

(** The seats after [connect_at]: one write at [index], and its new owner. *)
Lemma connect_at_seats i k p q r :
  connect_at i k p = (q, r) ->
  session q = session p /\
  seats q = match r with
            | Err (PoolBackend _) => alter (with_known None) i (seats p)
            | _ => alter (fun s => with_binding (Some (MkBinding k true))
                                    (with_known (Some neutral) s)) i (seats p)
            end /\
  (forall n, r = Ok n -> seat_slot <$> seats p !! i = Some n) /\
  (is_Some (seats p !! i) -> exists n e, r = Ok n \/ r = Err (PoolBackend e)).
Proof.
  unfold connect_at, on_err. destruct (write i neutral p) as [p1 [u|e]] eqn:Hw; simpl;
    apply write_spec in Hw as [Hss Hs].
  - intros [= <- <-]. simpl. rewrite Hs, alter_twice, list_lookup_alter_eq.
    destruct (seats p !! i) as [s|] eqn:Hi; simpl.
    + split_and!; [done|done|by intros n [= <-]|]. intros _. exists (seat_slot s), EmptyString. by left.
    + split_and!; [done|by rewrite alter_out|done|]. by intros [? ?].
  - intros [= <- <-]. split_and!; [done|done|done|]. intros _. exists 0, e. by right.
Qed.

Lemma connect_at_wf i k p :
  pool_wf p ->
  (forall j s, seats p !! j = Some s -> bound_to k s = true -> j = i) ->
  pool_wf (connect_at i k p).1.
Proof.
  intros Hwf Hk. destruct (connect_at i k p) as [q r] eqn:Hc.
  apply connect_at_seats in Hc as (_ & Hs & _). simpl.
  assert (seats q = alter (with_known None) i (seats p) -> pool_wf q) as Hle.
  { intros Hq. eapply pool_le_wf; [|exact Hwf]. unfold pool_le. rewrite Hq.
    apply Forall2_alter_seats. intros. apply with_known_le. }
  set (f := fun s => with_binding (Some (MkBinding k true)) (with_known (Some neutral) s)) in Hs.
  assert (seats q = alter f i (seats p) -> pool_wf q) as Hf; [|destruct r as [|[]]; auto].
  clear Hle Hs. intros Hq. destruct Hwf as [Hsl Hl Hu].
  assert (forall j s, seats q !! j = Some s ->
            exists s0, seats p !! j = Some s0 /\ seat_slot s = seat_slot s0 /\
              ((j = i /\ forall k', bound_to k' s = true -> k' = k) \/ (j <> i /\ s = s0))) as Hat.
  { intros j s. rewrite Hq. destruct (decide (i = j)) as [<-|Hne].
    - rewrite list_lookup_alter_eq, fmap_Some. intros (s0 & Hs0 & ->). exists s0.
      split_and!; [done|done|]. left. split; [done|].
      intros k' [c Hc]%bound_to_true. unfold f in Hc. simpl in Hc. by simplify_eq.
    - rewrite list_lookup_alter_ne by done. intros Hs. exists s. auto. }
  split.
  - intros j s (s0 & Hs0 & -> & _)%Hat. by apply Hsl.
  - by rewrite Hq, length_alter.
  - intros a b s t k' Ha Hb Hbs Hbt.
    apply Hat in Ha as (s0 & Hs0 & _ & [[-> Hka]|[Hne ->]]);
      apply Hat in Hb as (t0 & Ht0 & _ & [[-> Hkb]|[Hne' ->]]); try done.
    + rewrite (Hka _ Hbs) in Hbt. symmetry. eauto.
    + rewrite (Hkb _ Hbt) in Hbs. eauto.
    + eauto.
Qed.

(** [connect] reports a seat that already is connected, or connects the key's
    reserved seat, or the first free seat. *)
Lemma connect_cases k p q r :
  pool_wf p -> connect k p = (q, r) ->
  (q = p /\ r = Err NoSeat /\
     (forall i s, seats p !! i = Some s -> bound_to k s = false /\ is_some (binding s) = true)) \/
  (exists i s, seats p !! i = Some s /\
     ((bound_to k s = true /\ is_connected s = true /\ q = p /\ r = Ok (Z.of_nat i + 1)) \/
      (connect_at i k p = (q, r) /\
       ((bound_to k s = true /\ is_connected s = false) \/
        (slot_of k p = None /\ binding s = None /\
         forall j t, (j < i)%nat -> seats p !! j = Some t -> is_some (binding t) = true))))).
Proof.
  intros Hwf. unfold connect. destruct (seat_index k p) as [i|] eqn:Hi.
  - apply seat_index_Some in Hi as (s & Hs & Hb). rewrite Hs. intros Hc. right. exists i, s.
    split; [done|]. destruct (is_connected s) eqn:Hcon.
    + left. injection Hc as <- <-. rewrite (wf_slots _ Hwf _ _ Hs). done.
    + right. split; [done|]. by left.
  - destruct (position _ (seats p)) as [i|] eqn:Hpos.
    + apply position_Some in Hpos as [(s & Hs & Hb) Hlt]. intros Hc. right. exists i, s.
      split; [done|]. right. split; [done|]. right.
      split; [by apply slot_of_None, seat_index_None|].
      split; [by destruct (binding s)|]. intros j t Hj Ht. specialize (Hlt j t Hj Ht).
      unfold is_none in Hlt. by apply negb_false_iff in Hlt.
    + intros [= <- <-]. left. split_and!; [done|done|]. intros i s Hs.
      split; [by eapply seat_index_None|]. rewrite position_None in Hpos.
      specialize (Hpos s ltac:(by eapply list_elem_of_lookup_2)).
      unfold is_none in Hpos. by apply negb_false_iff in Hpos.
Qed.

Lemma connect_wf k p : pool_wf p -> pool_wf (connect k p).1.
Proof.
  intros Hwf. destruct (connect k p) as [q r] eqn:Hc.
  apply connect_cases in Hc as [(-> & _)|(i & s & Hs & [(_ & _ & -> & _)|[Hc Hcase]])]; try done.
  replace q with (connect_at i k p).1 by (by rewrite Hc). apply connect_at_wf; [done|].
  intros j t Ht Hb. destruct Hcase as [[Hbs _]|[Hno _]].
  - by eapply (wf_unique _ Hwf j i t s k).
  - rewrite slot_of_None in Hno. by rewrite (Hno _ _ Ht) in Hb.
Qed.

Lemma connect_at_settled i k p q n : connect_at i k p = (q, Ok n) -> settled p q.
Proof.
  intros (_ & Hs & _)%connect_at_seats j s. rewrite Hs. destruct (decide (i = j)) as [<-|Hne].
  - rewrite list_lookup_alter_eq, fmap_Some. intros (t & _ & ->). by left.
  - rewrite list_lookup_alter_ne by done. by right.
Qed.

Lemma connect_settled k p q n : pool_wf p -> connect k p = (q, Ok n) -> settled p q.
Proof.
  intros Hwf Hc. apply connect_cases in Hc as [(_ & ? & _)|(i & s & Hs & [(_ & _ & -> & _)|[Hc _]])]; try done.
  by eapply connect_at_settled.
Qed.

Lemma connect_session k p : session (connect k p).1 = session p.
Proof.
  unfold connect. destruct (seat_index k p) as [i|].
  - destruct (seats p !! i) as [s|]; [|done]. destruct (is_connected s); [done|].
    destruct (connect_at i k p) eqn:Hc. by apply connect_at_seats in Hc as [? _].
  - destruct (position _ _) as [i|]; [|done].
    destruct (connect_at i k p) eqn:Hc. by apply connect_at_seats in Hc as [? _].
Qed.

Lemma connect_errors k p q e :
  pool_wf p -> connect k p = (q, Err e) ->
  (e = NoSeat /\ q = p) \/ exists m, e = PoolBackend m.
Proof.
  intros Hwf Hc. apply connect_cases in Hc as [(-> & [= ->] & _)|(i & s & Hs & [(_ & _ & _ & ?)|[Hc _]])]; try done.
  - by left.
  - apply connect_at_seats in Hc as (_ & _ & _ & Hr).
    destruct (Hr ltac:(by eexists)) as (n & m & [?|[= ->]]); [done|]. right. by exists m.
Qed.

(** ** Lemmas: the remaining operations *)

Lemma reserve_wf id k p : pool_wf p -> pool_wf (reserve id k p).1.
Proof.
  intros Hwf. unfold reserve. destruct (negb _); [done|]. destruct (slot_of k p); [done|].
  pose proof (connect_wf k p Hwf) as Hc. destruct (connect k p) as [q [n|e]]; [|done].
  eapply pool_le_wf; [|exact Hc]. apply pool_le_update. intros. apply set_connected_le.
Qed.

Lemma set_connected_known c s : known_state (set_connected c s) = known_state s.
Proof. done. Qed.

Lemma connect_at_seat i k p q n s :
  connect_at i k p = (q, Ok n) -> seats q !! i = Some s ->
  known_state s = Some neutral /\ binding s = Some (MkBinding k true).
Proof.
  intros (_ & -> & _)%connect_at_seats. rewrite list_lookup_alter_eq, fmap_Some.
  by intros (t & _ & ->).
Qed.

Lemma reserve_settled id k p q n : pool_wf p -> reserve id k p = (q, Ok n) -> settled p q.
Proof.
  intros Hwf. unfold reserve. destruct (negb _); [done|].
  destruct (slot_of k p) eqn:Hsl; [by intros [= <- _]|].
  destruct (connect k p) as [q' [m|e]] eqn:Hc; [|done]. intros [= <- <-].
  pose proof (connect_settled _ _ _ _ Hwf Hc) as Hset.
  apply update_settled; [apply set_connected_known| |done].
  intros s Hs. apply connect_cases in Hc as [(_ & ? & _)|(i & s0 & Hs0 & Hcase)]; [done| |done].
  destruct Hcase as [(Hb & _)|[Hc _]].
  - pose proof (proj1 (slot_of_None k p) Hsl) as Hno. by rewrite (Hno _ _ Hs0) in Hb.
  - apply connect_at_seats in Hc as Hat. destruct Hat as (_ & _ & Hslot & _).
    specialize (Hslot m eq_refl). rewrite Hs0 in Hslot. simpl in Hslot.
    rewrite (wf_slots _ Hwf _ _ Hs0) in Hslot. injection Hslot as <-.
    replace (Z.to_nat (Z.of_nat i + 1 - 1)) with i in Hs by lia.
    by eapply connect_at_seat in Hs as [? _].
Qed.

Lemma reserve_errors id k p q e :
  pool_wf p -> reserve id k p = (q, Err e) ->
  (e = StaleSession \/ e = NoSeat) /\ q = p \/ exists m, e = PoolBackend m.
Proof.
  intros Hwf. unfold reserve. destruct (negb _).
  { intros [= <- <-]. left. auto. }
  destruct (slot_of k p); [done|]. destruct (connect k p) as [q' [m|e']] eqn:Hc; [done|].
  intros [= <- <-]. apply connect_errors in Hc as [[-> ->]|?]; auto.
Qed.

Lemma reserve_session id k p : session (reserve id k p).1 = session p.
Proof.
  unfold reserve. destruct (negb _); [done|]. destruct (slot_of k p); [done|].
  pose proof (connect_session k p). by destruct (connect k p) as [q [n|e]].
Qed.

Lemma disconnect_le k p : pool_le p (disconnect k p).1.
Proof.
  unfold disconnect. destruct (seat_index k p) as [i|]; [|reflexivity]. unfold on_err.
  set (p1 := update_seat i (set_connected false) p).
  assert (pool_le p p1) as H1 by (apply pool_le_update; intros; apply set_connected_le).
  pose proof (write_le i neutral p1) as Hw.
  destruct (write i neutral p1) as [q [u|e]]; simpl in *; [|by etrans].
  etrans; [exact H1|]. etrans; [exact Hw|]. destruct (is_none _); [|reflexivity].
  apply pool_le_update. intros. apply with_binding_none_le.
Qed.

(** After a successful [disconnect] the key's seat is neutral and not
    connected; no other seat changed. *)
Lemma disconnect_ok k p q n :
  pool_wf p -> disconnect k p = (q, Ok n) ->
  session q = session p /\
  forall i s, seats q !! i = Some s ->
    (known_state s = Some neutral /\ is_connected s = false) \/
    (seats p !! i = Some s /\ bound_to k s = false).
Proof.
  intros Hwf. unfold disconnect. destruct (seat_index k p) as [i|] eqn:Hi; [|done]. unfold on_err.
  destruct (write i neutral _) as [q' [u|e]] eqn:Hw; simpl; [|done].
  apply write_spec in Hw as [Hss Hs]. simpl in Hss, Hs. intros [= <- Hn].
  apply seat_index_Some in Hi as (si & Hsi & Hbi). split.
  { by destruct (is_none (session q')). }
  intros j s Hj. destruct (decide (i = j)) as [<-|Hne].
  - left. destruct (is_none (session q'));
      [rewrite seats_update, list_lookup_alter_eq in Hj|];
      rewrite Hs, list_lookup_alter_eq, list_lookup_alter_eq, Hsi in Hj; simpl in Hj;
      injection Hj as <-; (split; [done|]); unfold is_connected; simpl;
      [done|by destruct (binding si)].
  - right. assert (seats p !! j = Some s) as Hps.
    { destruct (is_none (session q'));
        [rewrite seats_update, list_lookup_alter_ne in Hj by done|];
        rewrite Hs, !list_lookup_alter_ne in Hj by done; done. }
    split; [done|]. destruct (bound_to k s) eqn:Hb; [|done].
    destruct Hne. by eapply (wf_unique _ Hwf i j si s k).
Qed.

Lemma disconnect_errors k p q e :
  pool_wf p -> disconnect k p = (q, Err e) ->
  (e = UnknownSource /\ q = p /\ slot_of k p = None) \/ exists m, e = PoolBackend m.
Proof.
  intros Hwf. unfold disconnect. destruct (seat_index k p) as [i|] eqn:Hi.
  2: { intros [= <- <-]. left. split_and!; [done..|]. by apply slot_of_None, seat_index_None. }
  unfold on_err. destruct (write i neutral _) as [q' [u|e']] eqn:Hw; simpl.
  2: { intros [= <- <-]. right. by eexists. }
  apply write_spec in Hw as [_ Hs]. simpl in Hs. intros [= <- He].
  apply seat_index_Some in Hi as (si & Hsi & _). exfalso. revert He.
  destruct (is_none (session q'));
    rewrite ?seats_update, ?list_lookup_alter_eq, Hs, !list_lookup_alter_eq, Hsi; done.
Qed.

Lemma write_state_le k st p : pool_le p (write_state k st p).1.
Proof.
  unfold write_state. destruct (seat_index k p) as [i|]; [|reflexivity].
  destruct (negb _); [reflexivity|]. unfold on_err. pose proof (write_le i st p) as Hw.
  by destruct (write i st p) as [q [u|e]].
Qed.

Lemma write_state_session k st p : session (write_state k st p).1 = session p.
Proof.
  unfold write_state. destruct (seat_index k p) as [i|]; [|done].
  destruct (negb _); [done|]. unfold on_err.
  destruct (write i st p) as [q [u|e]] eqn:Hw; by apply write_spec in Hw as [? _].
Qed.

Lemma write_state_ok k st p q n :
  write_state k st p = (q, Ok n) ->
  exists i, seat_index k p = Some i /\ seats q = alter (with_known (Some st)) i (seats p) /\
    is_some_and (seats p !! i) is_connected = true.
Proof.
  unfold write_state. destruct (seat_index k p) as [i|]; [|done].
  destruct (is_some_and _ _) eqn:Hc; simpl; [|done]. unfold on_err.
  destruct (write i st p) as [q' [u|e]] eqn:Hw; simpl; [|done]. intros [= <- _].
  apply write_spec in Hw as [_ Hs]. exists i. done.
Qed.

Lemma write_state_errors k st p q e :
  write_state k st p = (q, Err e) ->
  (q = p /\ (e = UnknownSource \/ e = DisconnectedSource)) \/ exists m, e = PoolBackend m.
Proof.
  unfold write_state. destruct (seat_index k p) as [i|] eqn:Hi; [|intros [= <- <-]; auto].
  destruct (negb _); [intros [= <- <-]; auto|]. unfold on_err.
  destruct (write i st p) as [q' [u|e']] eqn:Hw; simpl; [|intros [= <- <-]; eauto].
  apply write_spec in Hw as [_ Hs]. apply seat_index_Some in Hi as (si & Hsi & _).
  rewrite Hs, list_lookup_alter_eq, Hsi. done.
Qed.

(** ** Lemmas: creating and resizing *)

Lemma with_seats_app_wf b slot p :
  pool_wf p -> slot = Z.of_nat (length (seats p)) + 1 -> (length (seats p) < 255)%nat ->
  pool_wf (with_seats (seats p ++ [MkSeat slot None None]) (with_backend b p)).
Proof.
  intros [Hs Hl Hu] -> Hlt. split; simpl.
  - intros i s. rewrite lookup_app. destruct (seats p !! i) as [t|] eqn:Ht.
    + intros [= <-]. by apply Hs.
    + apply lookup_ge_None in Ht. intros Hi. apply list_lookup_singleton_Some in Hi as [Hi <-].
      simpl. lia.
  - rewrite length_app. simpl. lia.
  - assert (forall i s k, (seats p ++ [MkSeat (Z.of_nat (length (seats p)) + 1) None None]) !! i = Some s ->
              bound_to k s = true -> seats p !! i = Some s) as Hold.
    { intros i s k. rewrite lookup_app. destruct (seats p !! i) as [t|]; [done|].
      intros [_ <-]%list_lookup_singleton_Some. done. }
    intros i j s t k Hi Hj Hbs Hbt. eapply (Hu i j s t k); eauto.
Qed.

Lemma pool_le_length p q : pool_le p q -> length (seats q) = length (seats p).
Proof. intros Hle. symmetry. by eapply Forall2_length. Qed.

Lemma create_seats_wf lo n p :
  pool_wf p -> lo = Z.of_nat (length (seats p)) + 1 -> Z.of_nat (length (seats p)) + n <= 255 ->
  pool_wf (create_seats (seqZ lo n) p).1.
Proof.
  intros Hwf -> Hb. destruct (Z_le_gt_dec n 0) as [Hn|Hn].
  { by rewrite seqZ_nil by lia. }
  revert p Hwf Hb. pattern n. apply (natlike_rec2); [| |lia].
  - intros p Hwf _. by rewrite seqZ_nil by lia.
  - clear n Hn. intros n Hn IH p Hwf Hb. rewrite seqZ_cons by lia. simpl.
    destruct (be_create _ _) as [b [u|e]]; [|by destruct Hwf].
    set (p1 := with_seats _ _).
    assert (pool_wf p1) as H1 by (apply with_seats_app_wf; [done|done|lia]).
    pose proof (write_le (length (seats p1) - 1) neutral p1) as Hw.
    destruct (write _ neutral p1) as [q [u'|e]] eqn:Hwr; simpl in *; [|by eapply pool_le_wf].
    assert (length (seats q) = S (length (seats p))) as Hlen.
    { rewrite (pool_le_length _ _ Hw). unfold p1. simpl. rewrite length_app. simpl. lia. }
    specialize (IH q ltac:(by eapply pool_le_wf) ltac:(lia)).
    replace (Z.succ (Z.of_nat (length (seats p)) + 1)) with (Z.of_nat (length (seats q)) + 1) by lia.
    by replace (Z.pred (Z.succ n)) with n by lia.
Qed.

Lemma shrink_wf extra p : pool_wf p -> pool_wf (shrink extra p).1.
Proof.
  revert p. induction extra as [|extra IH]; intros p Hwf; simpl; [done|].
  destruct (last (seats p)) as [s|]; [|done].
  destruct (be_destroy _ _) as [b [u|e]]; [|by destruct Hwf]. apply IH.
  destruct Hwf as [Hs Hl Hu]. split; simpl.
  - intros i t Ht. apply Hs. by rewrite lookup_take_Some in Ht; destruct Ht.
  - rewrite length_take. lia.
  - intros i j t t' k [Ht _]%lookup_take_Some [Ht' _]%lookup_take_Some. eauto.
Qed.

(** [shrink] removes seats from the end and leaves the others alone. *)
Lemma shrink_seats extra p q u :
  shrink extra p = (q, Ok u) ->
  seats q = take (length (seats p) - extra) (seats p) /\ session q = session p.
Proof.
  revert p. induction extra as [|extra IH]; intros p; simpl.
  { intros [= -> _]. rewrite take_ge by lia. done. }
  destruct (last (seats p)) as [s|] eqn:Hl.
  2: { apply last_None in Hl. intros [= -> _]. rewrite Hl. by rewrite take_nil. }
  destruct (be_destroy _ _) as [b [u'|e]]; [|done]. intros [-> ->]%IH. simpl. split; [|done].
  rewrite take_take, length_take. f_equal. lia.
Qed.

Lemma count_wf p : pool_wf p -> count p = Z.of_nat (length (seats p)).
Proof. intros [_ Hl _]. unfold count. rewrite Z.mod_small; lia. Qed.

Lemma resize_wf n p : 1 <= n <= 255 -> pool_wf p -> pool_wf (resize n p).1.
Proof.
  intros Hn Hwf. unfold resize. destruct (is_some _); [done|]. destruct (_ =? _); [done|].
  pose proof (neutralize_le p) as Hle. destruct (neutralize p) as [p1 [u|e]]; simpl in *;
    [|by eapply pool_le_wf].
  assert (pool_wf p1) as H1 by by eapply pool_le_wf.
  pose proof (shrink_wf (length (seats p1) - Z.to_nat n) p1 H1) as H2.
  destruct (shrink _ p1) as [p2 [u'|e]] eqn:Hsh; simpl in *; [|done].
  apply shrink_seats in Hsh as [Hs _].
  rewrite (count_wf p2) by done. apply create_seats_wf; [done|done|].
  rewrite Hs, length_take. lia.
Qed.

Lemma pool_new_wf n b p : 1 <= n <= 255 -> pool_new n b = Ok p -> pool_wf p.
Proof.
  intros Hn. unfold pool_new.
  pose proof (create_seats_wf 1 n (MkPool b [] None : SeatPool K B)) as Hc.
  destruct (create_seats _ _) as [q [u|e]]; simpl in *.
  - intros [= ->]. apply Hc; [|done|lia]. split; [by intros ??|simpl; lia|by intros ????? ?].
  - destruct (cleanup q) as [b' [u|e']]; done.
Qed.

Lemma pool_step_wf p q : pool_step p q -> pool_wf p -> pool_wf q.
Proof.
  destruct 1; intros Hwf.
  - unfold begin_session. destruct (validate_launch_id id); [|done].
    destruct (is_some _); [done|]. by destruct Hwf.
  - eapply pool_le_wf; [apply end_session_le|done].
  - by apply connect_wf.
  - eapply pool_le_wf; [apply release_all_le|done].
  - by apply reserve_wf.
  - eapply pool_le_wf; [apply disconnect_le|done].
  - eapply pool_le_wf; [apply write_state_le|done].
  - eapply pool_le_wf; [apply neutralize_le|done].
  - by apply resize_wf.
Qed.

(** Creating seats from a settled pool adds neutral seats only. *)
Lemma create_seats_ok slots p q u :
  create_seats slots p = (q, Ok u) ->
  session q = session p /\
  exists new, seats q = seats p ++ new /\ length new = length slots /\
    Forall (fun s => known_state s = Some neutral /\ binding s = None) new.
Proof.
  revert p. induction slots as [|slot slots IH]; intros p; simpl.
  { intros [= -> _]. split; [done|]. exists []. by rewrite app_nil_r. }
  destruct (be_create _ _) as [b [u1|e]]; [|done].
  destruct (write _ neutral _) as [p2 [u2|e]] eqn:Hw; [|done]. intros Hr.
  apply write_spec in Hw as [Hss Hs]. simpl in Hss, Hs.
  apply IH in Hr as [-> (new & Hq & Hlen & Hnew)]. split; [done|].
  exists (with_known (Some neutral) (MkSeat slot None None) :: new). rewrite Hq, Hs, length_app. simpl.
  split; [|split; [lia|by constructor]].
  replace (length (seats p) + 1 - 1)%nat with (length (seats p)) by lia.
  rewrite alter_snoc. by rewrite <- app_assoc.
Qed.

Lemma create_seats_session slots p : session (create_seats slots p).1 = session p.
Proof.
  revert p; induction slots as [|slot slots IH]; intros p; simpl; [done|].
  destruct (be_create (spec_for_slot slot) (backend p)) as [b [u|e]]; [|done].
  destruct (write _ _ _) as [q [u'|e]] eqn:Hw; apply write_spec in Hw as [Hs _]; [|done].
  by rewrite IH.
Qed.

Lemma shrink_session extra p : session (shrink extra p).1 = session p.
Proof.
  revert p; induction extra as [|extra IH]; intros p; simpl; [done|].
  destruct (last (seats p)) as [s|]; [|done].
  destruct (be_destroy (seat_slot s) (backend p)) as [b [u|e]]; [|done]. by rewrite IH.
Qed.

Lemma resize_session n p : session (resize n p).1 = session p.
Proof.
  unfold resize. destruct (is_some (session p)); [done|]. destruct (n =? count p); [done|].
  pose proof (neutralize_session p) as Hn. destruct (neutralize p) as [p1 [u|e]]; [|done].
  pose proof (shrink_session (length (seats p1) - Z.to_nat n) p1) as Hs.
  destruct (shrink _ p1) as [p2 [u'|e]]; simpl in *; [|congruence].
  unfold on_err. simpl. rewrite create_seats_session. congruence.
Qed.

Lemma neutralize_errors p q e : neutralize p = (q, Err e) -> exists m, e = PoolBackend m.
Proof.
  unfold neutralize. destruct (neutralize_seats _ _ _ _) as [q' [|er ers]]; simpl; intros ?;
    simplify_eq; eauto.
Qed.

Lemma shrink_errors extra p q e : shrink extra p = (q, Err e) -> exists m, e = PoolBackend m.
Proof.
  revert p; induction extra as [|extra IH]; intros p; simpl; [done|].
  destruct (last (seats p)) as [s|]; [|done].
  destruct (be_destroy (seat_slot s) (backend p)) as [b [u|m]]; [apply IH|].
  intros [= _ <-]. eauto.
Qed.

Lemma resize_errors n p q e :
  resize n p = (q, Err e) ->
  (e = SessionAlreadyActive /\ q = p) \/ exists m, e = PoolBackend m.
Proof.
  unfold resize. destruct (is_some (session p)); [intros [= <- <-]; by left|].
  destruct (n =? count p); [done|].
  destruct (neutralize p) as [p1 [u|e1]] eqn:Hn.
  2:{ intros [= _ <-]. right. by apply (neutralize_errors _ _ _ Hn). }
  destruct (shrink _ p1) as [p2 [u'|e2]] eqn:Hs.
  2:{ intros [= _ <-]. right. by apply (shrink_errors _ _ _ _ Hs). }
  unfold on_err. destruct (create_seats _ _) as [p3 [u3|e3]]; simpl; intros [= <-].
  right. subst. eauto.
Qed.

Lemma resize_settled n p q u : resize n p = (q, Ok u) -> settled p q.
Proof.
  unfold resize. destruct (is_some (session p)); [done|].
  destruct (n =? count p); [by intros [= <-]|].
  destruct (neutralize p) as [p1 [u1|e1]] eqn:Hn; [|done].
  destruct (shrink _ p1) as [p2 [u2|e2]] eqn:Hs; [|done]. unfold on_err.
  destruct (create_seats _ p2) as [p3 [u3|e3]] eqn:Hc; simpl; [|done]. intros [= <-].
  apply shrink_seats in Hs as [Hs _]. apply create_seats_ok in Hc as (_ & new & Hnew & _ & Hf).
  intros i s Hi. left. rewrite Hnew in Hi. apply lookup_app_Some in Hi as [Hi|[_ Hi]].
  - rewrite Hs in Hi. apply lookup_take_Some in Hi as [Hi _].
    by apply (neutralize_ok _ _ _ Hn i).
  - rewrite Forall_lookup in Hf. by apply (Hf _ s Hi).
Qed.


Lemma pool_new_neutral n b p :
  pool_new n b = Ok p -> forall i s, seats p !! i = Some s -> known_state s = Some neutral.
Proof.
  unfold pool_new. destruct (create_seats _ _) as [q [u|e]] eqn:Hc.
  - intros [= ->] i s Hi. apply create_seats_ok in Hc as (_ & new & Hnew & _ & Hf).
    simpl in Hnew. rewrite Hnew in Hi. rewrite Forall_lookup in Hf. by apply (Hf i).
  - destruct (cleanup q) as [b' [u|e']]; done.
Qed.

End theory.

(** ** What the pool knows of its devices *)

Section devices.
Context {K B : Type} `{EqDecision K, SeatBackendLaws B}.
Implicit Types p q : SeatPool K B.
Implicit Types s t : Seat K.

(** The state the pool remembers of a seat is the state its device holds. *)
Definition device_agrees p : Prop :=
  forall i s st, seats p !! i = Some s -> known_state s = Some st ->
    be_device (backend p) (seat_slot s) = Some st.

Definition coherent p : Prop := pool_wf p /\ device_agrees p.

Lemma agrees_update f i p :
  (forall s, seat_slot (f s) = seat_slot s /\ (known_state (f s) = known_state s \/ known_state (f s) = None)) ->
  device_agrees p -> device_agrees (update_seat i f p).
Proof.
  intros Hf Ha j s st. simpl. destruct (decide (i = j)) as [<-|Hne].
  - rewrite list_lookup_alter_eq, fmap_Some. intros (t & Ht & ->).
    destruct (Hf t) as [-> [->| ->]]; [|done]. by eapply Ha.
  - rewrite list_lookup_alter_ne by done. apply Ha.
Qed.

(** An operation of the backend on the slot of seat [i], whose state is
    forgotten first, leaves the other seats' knowledge true. *)
Lemma agrees_backend i b p :
  pool_wf p ->
  (forall slot', slot' <> Z.of_nat i + 1 -> be_device b slot' = be_device (backend p) slot') ->
  device_agrees p -> (forall s, seats p !! i = Some s -> known_state s = None) ->
  device_agrees (with_backend b p).
Proof.
  intros Hwf Hframe Ha Hi j s st Hj Hk. simpl in *.
  destruct (decide (i = j)) as [<-|Hne]; [rewrite (Hi _ Hj) in Hk; done|].
  rewrite Hframe; [by eapply Ha|]. rewrite (wf_slots _ Hwf _ _ Hj). lia.
Qed.

Lemma write_agrees i st p : coherent p -> coherent (write i st p).1.
Proof.
  intros [Hwf Ha]. split; [eapply pool_le_wf; [apply write_le|done]|].
  unfold write. destruct (seats p !! i) as [s|] eqn:Hs; [|done].
  destruct (bool_decide _); [done|].
  set (p0 := update_seat i (with_known None) p).
  assert (pool_wf p0) as Hwf0.
  { eapply pool_le_wf; [|exact Hwf]. apply pool_le_update. intros. apply with_known_le. }
  assert (device_agrees p0) as Ha0 by (apply agrees_update; [intros t; split; [done|by right]|done]).
  assert (seat_slot s = Z.of_nat i + 1) as Hslot by exact (wf_slots _ Hwf _ _ Hs).
  destruct (be_write_state _ _ _) as [b r] eqn:Hb.
  assert (device_agrees (with_backend b p0)) as Hab.
  { apply (agrees_backend i); [done| |done|].
    - intros slot' Hne. rewrite <- Hslot in Hne.
      replace b with (be_write_state (seat_slot s) st (backend p0)).1 by (by rewrite Hb).
      by apply be_write_frame.
    - intros t. simpl. rewrite list_lookup_alter_eq, fmap_Some. by intros (? & _ & ->). }
  destruct r as [u|e]; [|done]. destruct u. intros j t st'. simpl.
  destruct (decide (i = j)) as [<-|Hne].
  - rewrite !list_lookup_alter_eq, Hs. simpl. intros [= <-] [= <-]. simpl.
    by eapply be_write_ok.
  - rewrite list_lookup_alter_ne by done. apply Hab.
Qed.

Lemma coherent_update f i p :
  (forall s, seat_le s (f s)) ->
  (forall s, known_state (f s) = known_state s) -> coherent p -> coherent (update_seat i f p).
Proof.
  intros Hle Hk [Hwf Ha]. split.
  - eapply pool_le_wf; [|exact Hwf]. by apply pool_le_update.
  - apply agrees_update; [|done]. intros s. split; [apply Hle|auto].
Qed.

Lemma neutralize_seats_coherent sel free l p :
  coherent p -> coherent (neutralize_seats sel free l p).1.
Proof.
  revert p. induction l as [|i l IH]; intros p Hp; simpl; [done|].
  destruct (is_some_and _ _); [|by apply IH].
  pose proof (write_agrees i neutral p Hp) as Hw.
  destruct (write i neutral p) as [q [u|e]]; simpl in Hw.
  - apply IH. destruct free; [|done].
    apply coherent_update; [intros; apply with_binding_none_le|done|done].
  - specialize (IH q Hw). by destruct (neutralize_seats sel free l q).
Qed.

Lemma with_session_coherent id p : coherent p -> coherent (with_session id p).
Proof. intros [[Hs Hl Hu] Ha]. by split. Qed.

Lemma neutralize_coherent p : coherent p -> coherent (neutralize p).1.
Proof.
  intros Hp. unfold neutralize.
  pose proof (neutralize_seats_coherent (fun _ => true) false (all_indices p) p Hp).
  by destruct (neutralize_seats _ _ _ p).
Qed.

Lemma connect_at_agrees i k p : coherent p -> device_agrees (connect_at i k p).1.
Proof.
  intros Hp. pose proof (write_agrees i neutral p Hp) as Hw. unfold connect_at, on_err.
  destruct (write i neutral p) as [q [u|e]]; simpl in *; [|apply Hw].
  apply agrees_update; [intros t; split; [done|by left]|apply Hw].
Qed.

Lemma connect_coherent k p : coherent p -> coherent (connect k p).1.
Proof.
  intros Hp. split; [apply connect_wf, Hp|]. unfold connect.
  destruct (seat_index k p) as [i|].
  - destruct (seats p !! i) as [s|]; [|apply Hp]. destruct (is_connected s); [apply Hp|].
    by apply connect_at_agrees.
  - destruct (position _ _) as [i|]; [|apply Hp]. by apply connect_at_agrees.
Qed.

Lemma create_seats_coherent lo n p :
  coherent p -> lo = Z.of_nat (length (seats p)) + 1 -> Z.of_nat (length (seats p)) + n <= 255 ->
  coherent (create_seats (seqZ lo n) p).1.
Proof.
  intros Hp -> Hb. destruct (Z_le_gt_dec n 0) as [Hn|Hn]; [by rewrite seqZ_nil by lia|].
  revert p Hp Hb. pattern n. apply (natlike_rec2); [| |lia].
  { intros p Hp _. by rewrite seqZ_nil by lia. }
  clear n Hn. intros n Hn IH p Hp Hb. rewrite seqZ_cons by lia. simpl.
  set (slot := Z.of_nat (length (seats p)) + 1).
  destruct (be_create (spec_for_slot slot) (backend p)) as [b r] eqn:Hc.
  assert (device_agrees (with_backend b p)) as Hab.
  { intros j s st Hj Hk. simpl in *. replace b with (be_create (spec_for_slot slot) (backend p)).1 by (by rewrite Hc).
    rewrite be_create_frame; [by eapply Hp|]. simpl. rewrite (wf_slots _ (proj1 Hp) _ _ Hj).
    apply lookup_lt_Some in Hj. unfold slot. lia. }
  destruct r as [u|e]; [|split; [by destruct Hp as [[]]|done]]. set (p1 := with_seats _ _).
  assert (coherent p1) as H1.
  { split; [apply with_seats_app_wf; [apply Hp|done|lia]|].
    intros j s st. simpl. rewrite lookup_app. destruct (seats p !! j) as [t|] eqn:Ht.
    - intros [= <-]. by apply (Hab j).
    - by intros [_ <-]%list_lookup_singleton_Some. }
  pose proof (write_agrees (length (seats p1) - 1) neutral p1 H1) as Hw.
  pose proof (write_le (length (seats p1) - 1) neutral p1) as Hle.
  destruct (write _ neutral p1) as [q [u'|e]]; simpl in *; [|done].
  assert (length (seats q) = S (length (seats p))) as Hlen.
  { rewrite (pool_le_length _ _ Hle). unfold p1. simpl. rewrite length_app. simpl. lia. }
  specialize (IH q Hw ltac:(lia)).
  replace (Z.succ slot) with (Z.of_nat (length (seats q)) + 1) by (unfold slot; lia).
  by replace (Z.pred (Z.succ n)) with n by lia.
Qed.

Lemma shrink_coherent extra p q u : coherent p -> shrink extra p = (q, Ok u) -> coherent q.
Proof.
  revert p. induction extra as [|extra IH]; intros p Hp; simpl; [by intros [= <- _]|].
  destruct (last (seats p)) as [s|] eqn:Hl; [|by intros [= <- _]].
  rewrite last_lookup in Hl.
  destruct (be_destroy (seat_slot s) (backend p)) as [b [u'|e]] eqn:Hd; [|done].
  apply IH. destruct Hp as [Hwf Ha]. split.
  - destruct Hwf as [Hs Hlen Hu]. split; simpl.
    + intros i t [Ht _]%lookup_take_Some. by apply Hs.
    + rewrite length_take. lia.
    + intros i j t t' k [Ht _]%lookup_take_Some [Ht' _]%lookup_take_Some. eauto.
  - intros j t st [Ht Hj]%lookup_take_Some Hk. simpl.
    replace b with (be_destroy (seat_slot s) (backend p)).1 by (by rewrite Hd).
    rewrite be_destroy_frame; [by eapply Ha|].
    rewrite (wf_slots _ Hwf _ _ Hl), (wf_slots _ Hwf _ _ Ht). lia.
Qed.

Lemma resize_coherent n p q u :
  1 <= n <= 255 -> coherent p -> resize n p = (q, Ok u) -> coherent q.
Proof.
  intros Hn Hp. unfold resize. destruct (is_some _); [done|].
  destruct (_ =? _); [by intros [= <- _]|].
  pose proof (neutralize_coherent p Hp) as H1. destruct (neutralize p) as [p1 [u1|e]]; [|done].
  simpl in H1. destruct (shrink _ p1) as [p2 [u2|e]] eqn:Hsh; [|done].
  pose proof (shrink_coherent _ _ _ _ H1 Hsh) as H2. apply shrink_seats in Hsh as [Hs _].
  unfold on_err. intros Hc.
  assert (coherent (create_seats (seqZ (count p2 + 1) (n - count p2)) p2).1) as H3.
  { rewrite (count_wf p2) by apply H2. apply create_seats_coherent; [done|done|].
    rewrite Hs, length_take. lia. }
  by injection Hc as <- _.
Qed.

(** A pool in use: a failed [resize] ends it ("the caller must retire this
    pool"), any other operation may fail. *)
Inductive pool_live : SeatPool K B -> Prop :=
| pl_new n b p : 1 <= n <= 255 -> pool_new n b = Ok p -> pool_live p
| pl_begin id p : pool_live p -> pool_live (begin_session id p).1
| pl_end id p : pool_live p -> pool_live (end_session id p).1
| pl_connect k p : pool_live p -> pool_live (connect k p).1
| pl_release_all id p : pool_live p -> pool_live (release_all id p).1
| pl_reserve id k p : pool_live p -> pool_live (reserve id k p).1
| pl_disconnect k p : pool_live p -> pool_live (disconnect k p).1
| pl_write_state k st p : pool_live p -> pool_live (write_state k st p).1
| pl_neutralize p : pool_live p -> pool_live (neutralize p).1
| pl_resize n p q u : 1 <= n <= 255 -> pool_live p -> resize n p = (q, Ok u) -> pool_live q.

Lemma loop_coherent sel free p :
  coherent p -> coherent (neutralize_seats sel free (all_indices p) p).1.
Proof. apply neutralize_seats_coherent. Qed.

Lemma end_session_coherent id p : coherent p -> coherent (end_session id p).1.
Proof.
  intros Hp. unfold end_session. destruct (negb _); [done|].
  pose proof (loop_coherent disconnected_binding true p Hp) as Hl.
  destruct (neutralize_seats _ _ _ p) as [q [|e es]]; [|done].
  by apply with_session_coherent.
Qed.

Lemma release_all_coherent id p : coherent p -> coherent (release_all id p).1.
Proof.
  intros Hp. unfold release_all. destruct (negb _); [done|].
  pose proof (loop_coherent (fun s => is_some (binding s)) true p Hp) as Hl.
  by destruct (neutralize_seats _ _ _ p).
Qed.

Lemma reserve_coherent id k p : coherent p -> coherent (reserve id k p).1.
Proof.
  intros Hp. unfold reserve. destruct (negb _); [done|]. destruct (slot_of k p); [done|].
  pose proof (connect_coherent k p Hp) as Hc. destruct (connect k p) as [q [n|e]]; [|done].
  apply coherent_update; [intros; apply set_connected_le|done|done].
Qed.

Lemma disconnect_coherent k p : coherent p -> coherent (disconnect k p).1.
Proof.
  intros Hp. unfold disconnect. destruct (seat_index k p) as [i|]; [|done]. unfold on_err.
  assert (coherent (update_seat i (set_connected false) p)) as H1
    by (apply coherent_update; [intros; apply set_connected_le|done|done]).
  pose proof (write_agrees i neutral _ H1) as Hw.
  destruct (write i neutral _) as [q [u|e]]; simpl in *; [|done].
  destruct (is_none _); [|done].
  apply coherent_update; [intros; apply with_binding_none_le|done|done].
Qed.

Lemma write_state_coherent k st p : coherent p -> coherent (write_state k st p).1.
Proof.
  intros Hp. unfold write_state. destruct (seat_index k p) as [i|]; [|done].
  destruct (negb _); [done|]. unfold on_err. pose proof (write_agrees i st p Hp).
  by destruct (write i st p) as [q [u|e]].
Qed.

Lemma begin_session_coherent id p : coherent p -> coherent (begin_session id p).1.
Proof.
  intros Hp. unfold begin_session. destruct (validate_launch_id id); [|done].
  destruct (is_some _); [done|]. by apply with_session_coherent.
Qed.

Lemma pool_new_coherent n b p : 1 <= n <= 255 -> pool_new n b = Ok p -> coherent p.
Proof.
  intros Hn. unfold pool_new.
  pose proof (create_seats_coherent 1 n (MkPool b [] None : SeatPool K B)) as Hc.
  destruct (create_seats _ _) as [q [u|e]]; simpl in *.
  - intros [= ->]. apply Hc; [|done|lia].
    split; [split; [by intros ??|simpl; lia|by intros ????? ?]|by intros ????].
  - destruct (cleanup q) as [b' [u|e']]; done.
Qed.

Lemma pool_live_coherent p : pool_live p -> coherent p.
Proof.
  induction 1; eauto using pool_new_coherent, begin_session_coherent, end_session_coherent,
    connect_coherent, release_all_coherent, reserve_coherent, disconnect_coherent,
    write_state_coherent, neutralize_coherent, resize_coherent.
Qed.
End devices.

(** ** Properties *)

Section properties.
Context {K B : Type} `{EqDecision K, SeatBackend B}.
Implicit Types p q : SeatPool K B.

(** every reachable pool numbers its seats 1..n with n at most 255 and gives
    no key two seats; [count] never truncates. *)
Theorem pool_wf_reachable p : pool_reachable p -> pool_wf p /\ count p = Z.of_nat (length (seats p)).
Proof.
  intros Hr. enough (pool_wf p) by (split; [done|by apply count_wf]).
  induction Hr; [by eapply pool_new_wf|by eapply pool_step_wf].
Qed.

(** [connect] gives the key its own seat when it has one, else the first
    free seat; it moves no other key, and refuses exactly when the key has no
    seat and every seat has an owner. *)
Theorem connect_spec k p q r :
  pool_wf p -> connect k p = (q, r) ->
  match r with
  | Ok n =>
      slot_of k q = Some n /\
      (forall k', k' <> k -> slot_of k' q = slot_of k' p) /\
      (slot_of k p = Some n \/
       slot_of k p = None /\
       (exists s, seats p !! Z.to_nat (n - 1) = Some s /\ binding s = None) /\
       forall j t, (j < Z.to_nat (n - 1))%nat -> seats p !! j = Some t -> is_some (binding t) = true)
  | Err NoSeat =>
      q = p /\ slot_of k p = None /\
      forall i s, seats p !! i = Some s -> is_some (binding s) = true
  | Err e => exists m, e = PoolBackend m
  end.
Proof.
  intros Hwf Hc. pose proof (connect_wf k p Hwf) as Hwfq. rewrite Hc in Hwfq. simpl in Hwfq.
  apply connect_cases in Hc as [(-> & -> & Hall)|(i & s & Hs & Hcase)]; [| |done].
  { split; [done|]. split; [apply slot_of_None; intros i s Hs; by destruct (Hall _ _ Hs)|].
    intros i s Hs. by destruct (Hall _ _ Hs). }
  destruct Hcase as [(Hb & _ & -> & ->)|[Hc Hcase]].
  { assert (slot_of k p = Some (Z.of_nat i + 1)) by (apply slot_of_Some; eauto).
    split_and!; auto. }
  pose proof (connect_at_seats _ _ _ _ _ Hc) as (_ & Hq & Hn & Hr).
  destruct (Hr ltac:(by eexists)) as (n & e & [-> | ->]); [|by exists e].
  specialize (Hn n eq_refl). rewrite Hs in Hn. simpl in Hn.
  rewrite (wf_slots _ Hwf _ _ Hs) in Hn. injection Hn as <-.
  assert (forall j t, j <> i -> seats q !! j = Some t <-> seats p !! j = Some t) as Hother.
  { intros j t Hne. by rewrite Hq, list_lookup_alter_ne. }
  split; [|split].
  - apply slot_of_Some; [done|]. destruct (seats q !! i) as [t|] eqn:Ht.
    + exists i, t. split; [done|]. split; [|done]. apply bound_to_true. exists true.
      by eapply connect_at_seat.
    + rewrite Hq, list_lookup_alter_eq, Hs in Ht. done.
  - intros k' Hk'. apply option_eq. intros m. rewrite !slot_of_Some by done.
    split; intros (j & t & Ht & Hbt & ->); exists j, t; (split; [|done]);
      (destruct (decide (j = i)) as [->|Hne]; [exfalso|by apply Hother]).
    + destruct (connect_at_seat _ _ _ _ _ _ Hc Ht) as [_ Hbind].
      apply bound_to_true in Hbt as [c Hbt]. congruence.
    + rewrite Hs in Ht. injection Ht as <-. destruct Hcase as [[Hb _]|(_ & Hb & _)].
      * apply bound_to_true in Hb as [c Hb], Hbt as [c' Hbt]. congruence.
      * apply bound_to_true in Hbt as [c' Hbt]. congruence.
  - replace (Z.to_nat (Z.of_nat i + 1 - 1)) with i by lia.
    destruct Hcase as [[Hb _]|(Hno & Hfree & Hlt)]; [left|right].
    + apply slot_of_Some; eauto.
    + split_and!; eauto.
Qed.

(** [end_session] with the active id ends it only after every disconnected
    reservation was neutralized and freed; connected seats are untouched, and on
    a failure the session stays bound. *)
Theorem end_session_spec id p q r :
  end_session id p = (q, r) ->
  match r with
  | Ok _ =>
      session p = Some id /\ session q = None /\
      forall i s, seats q !! i = Some s ->
        disconnected_binding s = false /\
        exists s0, seats p !! i = Some s0 /\
          (if disconnected_binding s0
           then binding s = None /\ known_state s = Some neutral
           else s = s0)
  | Err StaleSession => q = p /\ session p <> Some id
  | Err e => session q = session p /\ exists m, e = PoolBackend m
  end.
Proof.
  unfold end_session. destruct (bool_decide (session p = Some id)) eqn:Hid; simpl.
  2: { apply bool_decide_eq_false in Hid. by intros [= <- <-]. }
  apply bool_decide_eq_true in Hid.
  pose proof (neutralize_seats_session disconnected_binding true (all_indices p) p) as Hss.
  destruct (neutralize_seats _ _ _ p) as [q' [|e es]] eqn:Hr; simpl in Hss; intros [= <- <-].
  2: { split; [done|]. by eexists. }
  split_and!; [done|done|]. intros i s Hs. simpl in Hs.
  destruct (loop_at _ _ _ _ Hr i s Hs) as (s0 & Hs0 & Heq).
  destruct (disconnected_binding s0) eqn:Hd; subst s.
  - split; [done|]. exists s0. by rewrite Hd.
  - split; [done|]. exists s0. by rewrite Hd.
Qed.

(** a successful [resize] outside a session leaves exactly [n] seats; the
    seats that survive keep slot and owner, the new ones are free, and when the
    count changed all are neutral. *)
Theorem resize_spec n p q u :
  1 <= n <= 255 -> pool_wf p -> resize n p = (q, Ok u) ->
  session p = None /\ count q = n /\
  (forall i s, seats q !! i = Some s ->
     match seats p !! i with
     | Some s0 => seat_slot s = seat_slot s0 /\ binding s = binding s0
     | None => binding s = None
     end) /\
  (n <> count p -> forall i s, seats q !! i = Some s -> known_state s = Some neutral).
Proof.
  intros Hn Hwf Hr. pose proof (resize_wf n p Hn Hwf) as Hwfq. rewrite Hr in Hwfq. simpl in Hwfq.
  revert Hr. unfold resize. destruct (session p) as [id|] eqn:Hss; simpl; [done|].
  destruct (Z.eqb_spec n (count p)) as [->|Hne].
  { intros [= -> _]. split_and!; [done|done| |done]. intros i s ->. done. }
  destruct (neutralize p) as [p1 [u1|e]] eqn:Hne1; [|done].
  pose proof (neutralize_ok _ _ _ Hne1) as Hneu.
  assert (forall i s, seats p1 !! i = Some s -> exists s0, seats p !! i = Some s0 /\
            seat_slot s = seat_slot s0 /\ binding s = binding s0) as Hkeep.
  { revert Hne1. unfold neutralize. destruct (neutralize_seats _ _ _ p) as [p1' es] eqn:Hl.
    intros [= -> Hes%report_ok] i s Hs. subst es.
    destruct (loop_at _ _ _ _ Hl i s Hs) as (s0 & Hs0 & ->). by exists s0. }
  pose proof (neutralize_le p) as Hle. rewrite Hne1 in Hle. simpl in Hle.
  apply pool_le_length in Hle.
  destruct (shrink _ p1) as [p2 [u2|e]] eqn:Hsh; [|done].
  pose proof (shrink_wf (length (seats p1) - Z.to_nat n) p1) as Hwf2. rewrite Hsh in Hwf2. simpl in Hwf2.
  assert (pool_wf p2) as Hp2.
  { apply Hwf2. eapply pool_le_wf; [|exact Hwf].
    pose proof (neutralize_le p) as Hle'. by rewrite Hne1 in Hle'. }
  apply shrink_seats in Hsh as [Hs2 _]. unfold on_err.
  destruct (create_seats _ p2) as [q' [u'|e]] eqn:Hcr; simpl; [|done]. intros [= -> _].
  apply create_seats_ok in Hcr as [_ (new & Hq & Hlen & Hnew)].
  rewrite length_seqZ, (count_wf p2 Hp2) in Hlen.
  assert (length (seats p2) <= Z.to_nat n)%nat as Hle2 by (rewrite Hs2, length_take; lia).
  assert (length (seats p2) <= length (seats p1))%nat as Hle1 by (rewrite Hs2, length_take; lia).
  assert (length (seats q) = Z.to_nat n) as Hlq by (rewrite Hq, length_app; lia).
  assert (forall i s, seats q !! i = Some s ->
            seats p1 !! i = Some s \/
            (known_state s = Some neutral /\ binding s = None /\ seats p !! i = None)) as Hcase.
  { intros i s. rewrite Hq. destruct (decide (i < length (seats p2))%nat) as [Hlt|Hge].
    - rewrite lookup_app_l by done. rewrite Hs2. intros [? _]%lookup_take_Some. by left.
    - rewrite lookup_app_r by lia. intros Hi. right.
      rewrite Forall_lookup in Hnew. destruct (Hnew _ _ Hi). split_and!; [done|done|].
      apply lookup_ge_None. apply lookup_lt_Some in Hi.
      assert (length (seats p2) = length (seats p1)) by (rewrite Hs2, length_take in *; lia). lia. }
  split_and!; [done|rewrite (count_wf q Hwfq), Hlq; lia| |].
  - intros i s [Hs|(_ & Hb & ->)]%Hcase; [|done].
    destruct (Hkeep _ _ Hs) as (s0 & -> & ? & ?). done.
  - intros _ i s [Hs|(? & _)]%Hcase; [by eapply Hneu|done].
Qed.
End properties.

Section device_properties.
Context {K B : Type} `{EqDecision K, SeatBackendLaws B}.
Implicit Types p q : SeatPool K B.

(** as long as the pool is in use, the state it remembers of a seat, which
    it never writes again, is the state that seat's device holds. *)
Theorem pool_knowledge_is_true p i s st :
  pool_live p -> seats p !! i = Some s -> known_state s = Some st ->
  be_device (backend p) (seat_slot s) = Some st.
Proof. intros Hl. eapply (pool_live_coherent p Hl). Qed.

(** when [write_state] succeeds, the device of the reported slot holds the
    requested state, whether the write was sent or deduplicated. *)
Theorem write_state_establishes k st p q n :
  pool_live p -> write_state k st p = (q, Ok n) ->
  slot_of k p = Some n /\ be_device (backend q) n = Some st.
Proof.
  intros Hl Hw. pose proof (pool_live_coherent p Hl) as [Hwf _].
  pose proof (pool_live_coherent _ (pl_write_state k st p Hl)) as [Hwfq Hag].
  rewrite Hw in Hwfq, Hag. simpl in Hwfq, Hag.
  pose proof (write_state_ok _ _ _ _ _ Hw) as (i & Hi & Hq & _).
  apply seat_index_Some in Hi as (s & Hs & Hb).
  assert (seats q !! i = Some (with_known (Some st) s)) as Hqi
    by (by rewrite Hq, list_lookup_alter_eq, Hs).
  assert (n = Z.of_nat i + 1) as ->.
  { revert Hw. unfold write_state. rewrite (seat_index_wf k p i s Hwf Hs Hb).
    destruct (negb _); [done|]. unfold on_err. destruct (write i st p) as [q' [u|e]]; simpl; [|done].
    intros [= -> Hn]. rewrite Hqi in Hn. simpl in Hn. injection Hn as <-. exact (wf_slots _ Hwf _ _ Hs). }
  split; [apply slot_of_Some; eauto|].
  specialize (Hag _ _ st Hqi eq_refl). simpl in Hag. by rewrite (wf_slots _ Hwf _ _ Hs) in Hag.
Qed.
End device_properties.

(** ** Witnesses *)

(** A concrete backend: a table of device states, with slots whose writes fail. *)
Record MemBackend := MkMem { mem_devices : gmap Z GamepadState; mem_broken : gset Z }.

#[export] Instance mem_backend : SeatBackend MemBackend := {|
  be_create spec b := (b, Ok ());
  be_event_device slot _ := Ok ("/dev/input/event" +:+ decimal slot);
  be_write_state slot state b :=
    if bool_decide (slot ∈ mem_broken b) then (b, Err "write failed")
    else (MkMem (<[slot := state]> (mem_devices b)) (mem_broken b), Ok ());
  be_destroy slot b := (MkMem (delete slot (mem_devices b)) (mem_broken b), Ok ());
|}.

#[export] Instance mem_backend_laws : SeatBackendLaws MemBackend.
Proof.
  refine {| be_device b slot := mem_devices b !! slot |}.
  - intros slot state b b'. simpl. destruct (bool_decide _); [done|]. intros [= <-].
    apply lookup_insert_eq.
  - intros slot slot' state b Hne. simpl. destruct (bool_decide _); [done|]. simpl.
    by apply lookup_insert_ne.
  - done.
  - intros slot slot' b Hne. simpl. by apply lookup_delete_ne.
Defined.

Definition demo_launch : string := "0123456789abcdef0123456789abcdef".

Definition demo_boot : SeatPool string MemBackend :=
  match pool_new 3 (MkMem ∅ ∅) with Ok p => p | Err _ => MkPool (MkMem ∅ ∅) [] None end.

Definition demo_pad : GamepadState := MkPad 4096 0 0 20000 0 0 0.

(** Two keys connected in a session, one of them lost again. *)
Definition demo_pool : SeatPool string MemBackend :=
  (disconnect "b" (connect "b" (connect "a" (begin_session demo_launch demo_boot).1).1).1).1.

Lemma demo_pool_live : pool_live demo_pool.
Proof. apply pl_disconnect, pl_connect, pl_connect, pl_begin, (pl_new 3 (MkMem ∅ ∅)); [lia|done]. Qed.

Lemma demo_pool_reachable : pool_reachable demo_pool.
Proof.
  eapply pr_step; [|apply ps_disconnect]. eapply pr_step; [|apply ps_connect].
  eapply pr_step; [|apply ps_connect]. eapply pr_step; [|apply ps_begin].
  apply (pr_new 3 (MkMem ∅ ∅)); [lia|done].
Qed.

Lemma demo_pool_wf : pool_wf demo_pool.
Proof. eapply pool_live_coherent, demo_pool_live. Qed.

Lemma pool_wf_reachable_witness : count demo_pool = 3 /\ pool_wf demo_pool.
Proof.
  split; [vm_compute; reflexivity|]. apply (pool_wf_reachable demo_pool), demo_pool_reachable.
Defined.

Lemma connect_spec_witness :
  exists q, connect "c" demo_pool = (q, Ok 3) /\ slot_of "c" q = Some 3.
Proof.
  destruct (connect "c" demo_pool) as [q r] eqn:Hc. exists q.
  pose proof (connect_spec "c" demo_pool q r demo_pool_wf Hc) as Hs.
  assert (r = Ok 3) as -> by (apply (f_equal snd) in Hc; vm_compute in Hc; by rewrite <- Hc).
  split; [done|apply Hs].
Defined.

Lemma end_session_spec_witness :
  exists q, end_session demo_launch demo_pool = (q, Ok ()) /\ session q = None.
Proof.
  destruct (end_session demo_launch demo_pool) as [q r] eqn:Hc. exists q.
  pose proof (end_session_spec demo_launch demo_pool q r Hc) as Hs.
  assert (r = Ok ()) as -> by (apply (f_equal snd) in Hc; vm_compute in Hc; by rewrite <- Hc).
  split; [done|apply Hs].
Defined.

Lemma resize_spec_witness :
  exists q, resize 5 demo_boot = (q, Ok ()) /\ count q = 5.
Proof.
  destruct (resize 5 demo_boot) as [q r] eqn:Hc. exists q.
  assert (r = Ok ()) as -> by (apply (f_equal snd) in Hc; vm_compute in Hc; by rewrite <- Hc).
  split; [done|]. assert (pool_wf demo_boot) as Hwf.
  { apply (pool_new_wf 3 (MkMem ∅ ∅)); [lia|done]. }
  apply (resize_spec 5 demo_boot q () ltac:(lia) Hwf Hc).
Defined.

Lemma pool_knowledge_is_true_witness :
  be_device (backend (write_state "a" demo_pad demo_pool).1) 1 = Some demo_pad.
Proof.
  apply (pool_knowledge_is_true (write_state "a" demo_pad demo_pool).1 0
           (MkSeat 1 (Some (MkBinding "a" true)) (Some demo_pad)) demo_pad).
  - apply pl_write_state, demo_pool_live.
  - vm_compute. reflexivity.
  - reflexivity.
Defined.

Lemma write_state_establishes_witness :
  exists q, write_state "a" demo_pad demo_pool = (q, Ok 1) /\ be_device (backend q) 1 = Some demo_pad.
Proof.
  destruct (write_state "a" demo_pad demo_pool) as [q r] eqn:Hc. exists q.
  assert (r = Ok 1) as -> by (apply (f_equal snd) in Hc; vm_compute in Hc; by rewrite <- Hc).
  split; [done|]. apply (write_state_establishes "a" demo_pad demo_pool q 1 demo_pool_live Hc).
Defined.
