(* ===== verification/Text.v ===== *)
(** * Text of the standard library

    The [str] operations the sources use to read kernel files and D-Bus replies,
    on UTF-8 bytes: whitespace, lines, splitting, radix parsing, paths. *)

From S2P Require Import Prelude.

Notation text := (list ascii).

Definition to_text (s : string) : text := String.list_ascii_of_string s.
Definition of_text (l : text) : string := String.string_of_list_ascii l.

Lemma of_to_text s : of_text (to_text s) = s.
Proof. apply String.string_of_list_ascii_of_string. Qed.

Lemma str_len_text s : str_len s = Z.of_nat (length (to_text s)).
Proof. unfold str_len. f_equal. induction s as [|a s IH]; simpl; [done|]. by f_equal. Qed.

Lemma str_len_app s t : str_len (s +:+ t) = str_len s + str_len t.
Proof. unfold str_len. induction s as [|a s IH]; simpl; [done|]. change (String.append s t) with (s +:+ t). lia. Qed.

Lemma to_of_text l : to_text (of_text l) = l.
Proof. apply String.list_ascii_of_string_of_list_ascii. Qed.

Definition is_byte (b : Z) (a : ascii) : bool := byte a =? b.

Definition LF : Z := 10.
Definition CR : Z := 13.

(** [OsStr::as_bytes().contains(&0)]. *)
Definition has_nul (s : string) : bool := any_char (is_byte 0) s.

(** ** UTF-8 *)

Definition continuation (a : ascii) : bool := between 128 (byte a) 191.

(** [OsStr::to_str]: the well-formed UTF-8 byte sequences. *)
Fixpoint utf8_valid (l : text) : bool :=
  match l with
  | [] => true
  | a :: l1 =>
      if byte a <? 128 then utf8_valid l1
      else match l1 with
           | [] => false
           | b :: l2 =>
               if between 194 (byte a) 223 then continuation b && utf8_valid l2
               else match l2 with
                    | [] => false
                    | c :: l3 =>
                        if between 224 (byte a) 239 then
                          (if byte a =? 224 then between 160 (byte b) 191
                           else if byte a =? 237 then between 128 (byte b) 159
                           else continuation b)
                          && continuation c && utf8_valid l3
                        else match l3 with
                             | [] => false
                             | d :: l4 =>
                                 between 240 (byte a) 244
                                 && (if byte a =? 240 then between 144 (byte b) 191
                                     else if byte a =? 244 then between 128 (byte b) 143
                                     else continuation b)
                                 && continuation c && continuation d && utf8_valid l4
                             end
                    end
           end
  end.

Definition to_str (s : string) : option string := if utf8_valid (to_text s) then Some s else None.

Lemma ascii_utf8 l : forallb (fun a => byte a <? 128) l = true -> utf8_valid l = true.
Proof. induction l as [|a l IH]; [done|]. cbn [forallb utf8_valid]. intros [-> Hl]%andb_prop. by apply IH. Qed.

Lemma lower_hex_ascii a : is_lower_hex a = true -> byte a <? 128 = true /\ (byte a =? 46) = false.
Proof. unfold is_lower_hex, is_ascii_digit, between. intros H. split; [apply Z.ltb_lt|apply Z.eqb_neq]; lia. Qed.

(** ** Whitespace *)

Definition white1 (b : Z) : bool := between 9 b 13 || (b =? 32).
Definition white2 (a b : Z) : bool := (a =? 194) && ((b =? 133) || (b =? 160)).
Definition white3 (a b c : Z) : bool :=
  ((a =? 225) && (b =? 154) && (c =? 128))
  || ((a =? 226) && (b =? 128)
      && (between 128 c 138 || (c =? 168) || (c =? 169) || (c =? 175)))
  || ((a =? 226) && (b =? 129) && (c =? 159))
  || ((a =? 227) && (b =? 128) && (c =? 128)).

(** The UTF-8 forms of [White_Space] at the front. *)
Fixpoint trim_front (l : text) : text :=
  match l with
  | [] => []
  | a :: l1 =>
      if white1 (byte a) then trim_front l1
      else match l1 with
           | [] => l
           | b :: l2 =>
               if white2 (byte a) (byte b) then trim_front l2
               else match l2 with
                    | [] => l
                    | c :: l3 => if white3 (byte a) (byte b) (byte c) then trim_front l3 else l
                    end
           end
  end.

(** The same on the reversed bytes. *)
Fixpoint trim_reversed (l : text) : text :=
  match l with
  | [] => []
  | c :: l1 =>
      if white1 (byte c) then trim_reversed l1
      else match l1 with
           | [] => l
           | b :: l2 =>
               if white2 (byte b) (byte c) then trim_reversed l2
               else match l2 with
                    | [] => l
                    | a :: l3 => if white3 (byte a) (byte b) (byte c) then trim_reversed l3 else l
                    end
           end
  end.

Definition trim_back (l : text) : text := reverse (trim_reversed (reverse l)).

Definition trim_text (l : text) : text := trim_back (trim_front l).

Definition trim_end (s : string) : string := of_text (trim_back (to_text s)).
Definition trim (s : string) : string := of_text (trim_text (to_text s)).

(** A word collected in reverse. *)
Definition flush (word : text) : list text := match word with [] => [] | _ => [reverse word] end.

Fixpoint words_of (word l : text) : list text :=
  match l with
  | [] => flush word
  | a :: l1 =>
      if white1 (byte a) then flush word ++ words_of [] l1
      else match l1 with
           | [] => words_of (a :: word) l1
           | b :: l2 =>
               if white2 (byte a) (byte b) then flush word ++ words_of [] l2
               else match l2 with
                    | [] => words_of (a :: word) l1
                    | c :: l3 =>
                        if white3 (byte a) (byte b) (byte c) then flush word ++ words_of [] l3
                        else words_of (a :: word) l1
                    end
           end
  end.

Definition split_whitespace (s : string) : list string := of_text <$> words_of [] (to_text s).

(** ** Lines and separators *)

Definition strip_cr (line : text) : text :=
  match line with a :: l => if is_byte CR a then l else line | [] => [] end.

(** The current line is collected in reverse; a line feed drops one carriage
    return before it, and text after the last line feed is a line of its own. *)
Fixpoint lines_of (line l : text) : list text :=
  match l with
  | [] => flush line
  | a :: l => if is_byte LF a then reverse (strip_cr line) :: lines_of [] l
              else lines_of (a :: line) l
  end.

Definition lines (s : string) : list string := of_text <$> lines_of [] (to_text s).

(** [split("\n\n")]. *)
Fixpoint blocks_of (block l : text) : list text :=
  match l with
  | [] => [reverse block]
  | a :: l1 =>
      match l1 with
      | b :: l2 =>
          if is_byte LF a && is_byte LF b then reverse block :: blocks_of [] l2
          else blocks_of (a :: block) l1
      | [] => blocks_of (a :: block) l1
      end
  end.

Definition blocks (s : string) : list string := of_text <$> blocks_of [] (to_text s).

(** [split(byte)]: always one more piece than separators. *)
Fixpoint pieces_of (sep : Z) (piece l : text) : list text :=
  match l with
  | [] => [reverse piece]
  | a :: l => if is_byte sep a then reverse piece :: pieces_of sep [] l
              else pieces_of sep (a :: piece) l
  end.

Definition split_on (sep : Z) (s : string) : list string := of_text <$> pieces_of sep [] (to_text s).

(** [split_once(byte)]. *)
Fixpoint split_once (sep : Z) (s : string) : option (string * string) :=
  match s with
  | EmptyString => None
  | SCons a s =>
      if is_byte sep a then Some (EmptyString, s)
      else match split_once sep s with
           | Some (front, back) => Some (SCons a front, back)
           | None => None
           end
  end.

Fixpoint drop_byte (b : Z) (l : text) : text :=
  match l with a :: l' => if is_byte b a then drop_byte b l' else l | [] => [] end.

(** [trim_matches] at one byte. *)
Definition trim_byte (b : Z) (s : string) : string :=
  of_text (reverse (drop_byte b (reverse (drop_byte b (to_text s))))).

(** [str::contains(pattern)]. *)
Fixpoint contains (pattern s : string) : bool :=
  starts_with pattern s || match s with EmptyString => false | SCons _ s => contains pattern s end.

(** ** Numbers *)

Definition hex_digit (a : ascii) : option Z :=
  let b := byte a in
  if between 48 b 57 then Some (b - 48)
  else if between 97 b 102 then Some (b - 87)
  else if between 65 b 70 then Some (b - 55)
  else None.

Fixpoint parse_hex (acc : Z) (s : string) : option Z :=
  match s with
  | EmptyString => Some acc
  | SCons a s => match hex_digit a with Some d => parse_hex (acc * 16 + d) s | None => None end
  end.

(** [from_str_radix(s, 16)] of an unsigned type with maximum [max]. *)
Definition from_hex (max : Z) (s : string) : option Z :=
  let digits := default s (strip_prefix "+" s) in
  if str_is_empty digits then None
  else match parse_hex 0 digits with
       | Some n => if n <=? max then Some n else None
       | None => None
       end.

(** ** Paths *)

Definition SLASH : Z := 47.

Definition is_absolute (path : string) : bool := starts_with "/" path.

(** [Path::join] with a relative path. *)
Definition path_join (root rest : string) : string :=
  match reverse (to_text root) with
  | [] => rest
  | a :: _ => if is_byte SLASH a then root +:+ rest else root +:+ "/" +:+ rest
  end.

(** The normal and parent components of an absolute path: empty and current
    components are skipped. *)
Definition path_components (path : string) : list string :=
  keep (fun c => negb (str_is_empty c) && negb (bool_decide (c = "."))) (split_on SLASH path).

(** ** Facts *)

Lemma from_hex_range max s n : from_hex max s = Some n -> n <= max.
Proof.
  unfold from_hex. destruct (str_is_empty _); [done|].
  destruct (parse_hex _ _) as [m|]; [|done]. destruct (Z.leb_spec m max); [|done].
  by intros [= <-].
Qed.

Lemma hex_digit_nonneg a d : hex_digit a = Some d -> 0 <= d.
Proof.
  unfold hex_digit, between. cbv zeta.
  repeat (match goal with |- context [if ?b then _ else _] => destruct b eqn:? end);
    intros [= <-]; lia.
Qed.

Lemma parse_hex_nonneg acc s n : 0 <= acc -> parse_hex acc s = Some n -> 0 <= n.
Proof.
  revert acc; induction s as [|a s IH]; intros acc Hacc; simpl; [by intros [= <-]|].
  destruct (hex_digit a) as [d|] eqn:Hd; [|done]. apply hex_digit_nonneg in Hd.
  apply IH. lia.
Qed.

Lemma from_hex_nonneg max s n : from_hex max s = Some n -> 0 <= n.
Proof.
  unfold from_hex. destruct (str_is_empty _); [done|].
  destruct (parse_hex 0 _) as [m|] eqn:Hm; [|done]. destruct (m <=? max); [|done].
  intros [= <-]. by eapply (parse_hex_nonneg 0).
Qed.
