(* ===== verification/SeatRuntime.v ===== *)
(** * Seat runtime (services/inputd/src/input_seat.rs)

    The only allocator of the production receiver: korrid's coordinator requests
    (sessions, routing, physical controllers) and Sunshine's mirrored frames
    (remote controllers) reach the seats through it.

    [serde_json] is a parameter ([parse_envelope]); error values that the source
    formats with [Debug] are kept unformatted. *)

From S2P Require Import Prelude Text Contract SeatPool.

Definition MAX_MIRROR_FRAME_BYTES : Z := 2048.
Definition MAX_EVENTS_PER_SECOND : Z := 240.
Definition STALE_SOURCE_TIMEOUT_MS : Z := 1250.
Definition SUPPORTED_BUTTON_MASK : Z := 63487. (* 0xf7ff *)
Definition DEFAULT_SEAT_COUNT : Z := MAX_SEATS.

(** ** Data *)

Inductive MirrorOutcome : Type :=
| MAccepted (slot : Z) | MUnauthorized | MInvalid | MStaleLaunch | MUnknownSource | MNoSeat
| MRateLimited | MBackendFailed | MFeedbackFailed.

#[export] Instance MirrorOutcome_eq_dec : EqDecision MirrorOutcome.
Proof. solve_decision. Defined.

Inductive SeatResetOutcome : Type := RAccepted | RStaleLaunch | RBackendFailed.

Inductive SourceKey : Type :=
| KPhysical (device_id : string)
| KNetplay (device_public_key : string)
| KRemote (launch_id client_id : string) (controller_number : Z).

#[export] Instance SourceKey_eq_dec : EqDecision SourceKey.
Proof. solve_decision. Defined.

(** The variant's discriminant and its fields, which the derived [Ord] compares. *)
Definition source_key_code (k : SourceKey) : Z * (string * (string * Z)) :=
  match k with
  | KPhysical d => (0, (d, (EmptyString, 0)))
  | KNetplay d => (1, (d, (EmptyString, 0)))
  | KRemote l c n => (2, (l, (c, n)))
  end.

#[export] Instance source_key_code_inj : Inj (=) (=) source_key_code.
Proof. intros [] []; simpl; congruence. Qed.

Definition source_key_of (c : Z * (string * (string * Z))) : option SourceKey :=
  let '(tag, (a, (b, n))) := c in
  if tag =? 0 then Some (KPhysical a)
  else if tag =? 1 then Some (KNetplay a)
  else if tag =? 2 then Some (KRemote a b n)
  else None.

Lemma source_key_of_code k : source_key_of (source_key_code k) = Some k.
Proof. by destruct k. Qed.

#[export] Instance SourceKey_countable : Countable SourceKey :=
  inj_countable source_key_code source_key_of source_key_of_code.

#[export] Instance SourceKey_ord : TotalOrd SourceKey := ord_via source_key_code _.

Record Source := MkSrc {
  src_state : GamepadState;
  has_state : bool;
  requires_neutral : bool;
  last_event_ms : Z;
  window_start_ms : Z;
  events_in_window : Z;
}.

Record SeatRuntime (B : Type) := MkRuntime {
  pool : SeatPool SourceKey B;
  sources : gmap SourceKey Source;
  mirror : option (string * string);
  game_route : bool;
  seat_order : SeatOrder;
  recovery_required : bool;
  faulted : bool;
  feedback_failed : bool;
  feedback : list RemoteEvent;
}.
Arguments MkRuntime {B}.
Arguments pool {B}.
Arguments sources {B}.
Arguments mirror {B}.
Arguments game_route {B}.
Arguments seat_order {B}.
Arguments recovery_required {B}.
Arguments faulted {B}.
Arguments feedback_failed {B}.
Arguments feedback {B}.

Inductive SunshineFrame : Type :=
| SourceConnected (client_id launch_id : string) (controller_number : Z)
| SourceDisconnected (client_id launch_id : string) (controller_number : Z) (reason : option string)
| SourceStateFrame (client_id launch_id : string) (controller_number : Z) (frame : GamepadState).

Record MirrorEnvelope := MkEnvelope { mirror_token : string; frame : SunshineFrame }.

Definition frame_client_id (f : SunshineFrame) : string :=
  match f with
  | SourceConnected c _ _ => c
  | SourceDisconnected c _ _ _ => c
  | SourceStateFrame c _ _ _ => c
  end.

Definition frame_launch_id (f : SunshineFrame) : string :=
  match f with
  | SourceConnected _ l _ => l
  | SourceDisconnected _ l _ _ => l
  | SourceStateFrame _ l _ _ => l
  end.

(** ** Pure helpers *)

Definition is_physical (k : SourceKey) : bool := match k with KPhysical _ => true | _ => false end.
Definition is_remote (k : SourceKey) : bool := match k with KRemote _ _ _ => true | _ => false end.

Definition pool_failure (error : PoolError) : SeatFailure :=
  match error with
  | SessionAlreadyActive => FActive
  | StaleSession => FStale
  | InvalidSession _ => FInvalid
  | UnknownSource | DisconnectedSource => FUnknownSource
  | NoSeat => FActive
  | PoolBackend _ => FBackend
  end.

Definition valid_native_text (value : string) (max : Z) : bool :=
  negb (str_is_empty value) && (str_len value <=? max) && negb (has_control value).

(** [!SUPPORTED_BUTTON_MASK] on 32 bits. *)
Definition valid_state (state : GamepadState) : bool :=
  Z.land (buttons state) (Z.lxor 4294967295 SUPPORTED_BUTTON_MASK) =? 0.

Definition invert_sunshine_axis (value : Z) : Z :=
  if value =? -32768 then 32767 else - value.

Definition validate_token (value : string) : result string unit :=
  if (str_len value =? 64)
     && all_chars (fun a => is_ascii_hexdigit a && negb (between 65 (byte a) 90)) value
  then Ok () else Err "mirror token must be 64 lower-case hexadecimal bytes".

(** The loop over the indices of the longer slice; [get] past the end is 0. *)
Definition byte_at (l : list Z) (i : nat) : Z := default 0 (l !! i).

Definition constant_time_equal (left right : list Z) : bool :=
  let difference := Z.lxor (Z.of_nat (length left)) (Z.of_nat (length right)) in
  fold_left (fun difference index =>
               Z.lor difference (Z.lxor (byte_at left index) (byte_at right index)))
    (seq 0 (Nat.max (length left) (length right))) difference =? 0.

(** The state a mirrored frame stands for. *)
Definition sunshine_state (f : GamepadState) : GamepadState :=
  MkPad (Z.land (buttons f) SUPPORTED_BUTTON_MASK) (left_trigger f) (right_trigger f)
    (left_stick_x f) (invert_sunshine_axis (left_stick_y f))
    (right_stick_x f) (invert_sunshine_axis (right_stick_y f)).

Definition contains_byte (b : Z) (l : list Z) : bool := existsb (Z.eqb b) l.

(** [decode_envelope]; [parse_envelope] is [serde_json::from_slice] at
    [MirrorEnvelope]. *)
Definition decode_envelope (parse_envelope : list Z -> option MirrorEnvelope) (packet : list Z)
    : option MirrorEnvelope :=
  let body := take (length packet - 1) packet in
  if bool_decide (packet = [])
     || (MAX_MIRROR_FRAME_BYTES <? Z.of_nat (length packet))
     || negb (bool_decide (last packet = Some LF))
     || contains_byte LF body || contains_byte CR body
  then None
  else parse_envelope body.

(** [reason.contains(['\n', '\0'])]. *)
Definition bad_reason (reason : option string) : bool :=
  is_some_and reason (fun reason =>
    (128 <? str_len reason) || any_char (fun a => (byte a =? 10) || (byte a =? 0)) reason).

Section runtime.
Context {B : Type} `{SeatBackend B}.
Implicit Types rt : SeatRuntime B.

(** ** Field updates *)

Definition set_pool (p : SeatPool SourceKey B) rt : SeatRuntime B :=
  MkRuntime p (sources rt) (mirror rt) (game_route rt) (seat_order rt) (recovery_required rt)
    (faulted rt) (feedback_failed rt) (feedback rt).
Definition set_sources (s : gmap SourceKey Source) rt : SeatRuntime B :=
  MkRuntime (pool rt) s (mirror rt) (game_route rt) (seat_order rt) (recovery_required rt)
    (faulted rt) (feedback_failed rt) (feedback rt).
Definition set_mirror (m : option (string * string)) rt : SeatRuntime B :=
  MkRuntime (pool rt) (sources rt) m (game_route rt) (seat_order rt) (recovery_required rt)
    (faulted rt) (feedback_failed rt) (feedback rt).
Definition set_game_route (g : bool) rt : SeatRuntime B :=
  MkRuntime (pool rt) (sources rt) (mirror rt) g (seat_order rt) (recovery_required rt)
    (faulted rt) (feedback_failed rt) (feedback rt).
Definition set_seat_order (o : SeatOrder) rt : SeatRuntime B :=
  MkRuntime (pool rt) (sources rt) (mirror rt) (game_route rt) o (recovery_required rt)
    (faulted rt) (feedback_failed rt) (feedback rt).
Definition set_recovery (r : bool) rt : SeatRuntime B :=
  MkRuntime (pool rt) (sources rt) (mirror rt) (game_route rt) (seat_order rt) r
    (faulted rt) (feedback_failed rt) (feedback rt).
Definition set_faulted (f : bool) rt : SeatRuntime B :=
  MkRuntime (pool rt) (sources rt) (mirror rt) (game_route rt) (seat_order rt)
    (recovery_required rt) f (feedback_failed rt) (feedback rt).
Definition set_feedback (failed : bool) (f : list RemoteEvent) rt : SeatRuntime B :=
  MkRuntime (pool rt) (sources rt) (mirror rt) (game_route rt) (seat_order rt)
    (recovery_required rt) (faulted rt) failed f.

Definition require_neutral_of (b : bool) (s : Source) : Source :=
  MkSrc (src_state s) (has_state s) b (last_event_ms s) (window_start_ms s) (events_in_window s).

Definition update_src (key : SourceKey) (f : Source -> Source) rt : SeatRuntime B :=
  set_sources (alter f key (sources rt)) rt.

(** A pool operation on the runtime, with the failure [pool_failure] gives. *)
Definition on_pool {A} (op : SeatPool SourceKey B -> SeatPool SourceKey B * result PoolError A)
    rt : SeatRuntime B * result SeatFailure A :=
  let '(p, r) := op (pool rt) in (set_pool p rt, map_err pool_failure r).

(** ** Internal operations *)

(** The error of [SeatPool::new] is returned unformatted. *)
Definition boot (b : B) : result (PoolError * B) (SeatRuntime B) :=
  match pool_new DEFAULT_SEAT_COUNT b with
  | Err e => Err e
  | Ok p => Ok (MkRuntime p ∅ None false Attached true false false [])
  end.

Definition require_ready rt : result SeatFailure unit :=
  if recovery_required rt || faulted rt || feedback_failed rt then Err FNotReady else Ok ().

Definition mirror_launch rt : option string := fst <$> mirror rt.

Definition set_route (game : bool) rt : SeatRuntime B * result SeatFailure unit :=
  let rt := set_game_route false rt in
  let rt := set_sources (require_neutral_of true <$> sources rt) rt in
  match on_pool neutralize rt with
  | (rt, Err e) => (rt, Err e)
  | (rt, Ok _) => (set_game_route game rt, Ok ())
  end.

Definition first_press rt : bool :=
  is_some (session (pool rt)) && bool_decide (seat_order rt = FirstPress).

(** [pool.connect] where a full pool is [None] and another failure returns. *)
Definition try_connect (key : SourceKey) rt : SeatRuntime B * result SeatFailure (option Z) :=
  match connect key (pool rt) with
  | (p, Ok slot) => (set_pool p rt, Ok (Some slot))
  | (p, Err NoSeat) => (set_pool p rt, Ok None)
  | (p, Err error) => (set_pool p rt, Err (pool_failure error))
  end.

Definition connect_source (key : SourceKey) (state : GamepadState) (now_ms : Z) (has : bool) rt
    : SeatRuntime B * result SeatFailure (option Z) :=
  match (if first_press rt && is_none (slot_of key (pool rt)) then (rt, Ok None)
         else try_connect key rt) with
  | (rt, Err e) => (rt, Err e)
  | (rt, Ok slot) =>
      (set_sources (<[key := MkSrc state has true now_ms now_ms 0]> (sources rt)) rt, Ok slot)
  end.

(** The admission budget of remote frames: the source with its window advanced,
    and whether the frame is refused. *)
Definition admit_frame (key : SourceKey) (now_ms : Z) (s : Source) : Source * bool :=
  if is_remote key then
    let s := if 1000 <=? saturating_sub now_ms (window_start_ms s)
             then MkSrc (src_state s) (has_state s) (requires_neutral s) (last_event_ms s) now_ms 0
             else s in
    if MAX_EVENTS_PER_SECOND <=? events_in_window s then (s, true)
    else (MkSrc (src_state s) (has_state s) (requires_neutral s) (last_event_ms s)
            (window_start_ms s) (events_in_window s + 1), false)
  else (s, false).

(** The last part of [update_source], for an armed source while the game has
    the input. *)
Definition forward_state (key : SourceKey) (state : GamepadState) rt
    : SeatRuntime B * result SeatFailure (option Z) :=
  let slot := slot_of key (pool rt) in
  match (if is_none slot && first_press rt && negb (is_neutral_for_rearm state)
         then try_connect key rt else (rt, Ok slot)) with
  | (rt, Err e) => (rt, Err e)
  | (rt, Ok None) => (rt, Ok None)
  | (rt, Ok (Some slot)) =>
      match on_pool (write_state key state) rt with
      | (rt, Err e) => (rt, Err e)
      | (rt, Ok _) => (rt, Ok (Some slot))
      end
  end.

Definition update_source (key : SourceKey) (state : GamepadState) (now_ms : Z) rt
    : SeatRuntime B * result SeatFailure (option Z) :=
  match sources rt !! key with
  | None => (rt, Err FUnknownSource)
  | Some s =>
      let '(s, limited) := admit_frame key now_ms s in
      if limited then (set_sources (<[key := s]> (sources rt)) rt, Err FRateLimited)
      else
        let s := MkSrc state true (requires_neutral s) now_ms (window_start_ms s)
                   (events_in_window s) in
        let rt := set_sources (<[key := s]> (sources rt)) rt in
        let slot := slot_of key (pool rt) in
        if negb (game_route rt) then (rt, Ok slot)
        else if requires_neutral s then
          (if is_neutral_for_rearm state then update_src key (require_neutral_of false) rt else rt,
           Ok slot)
        else forward_state key state rt
  end.

Definition push_feedback (event : RemoteEvent) rt : SeatRuntime B :=
  if MAX_REMOTE_EVENTS <=? Z.of_nat (length (feedback rt))
  then set_feedback true (feedback rt) rt
  else set_feedback (feedback_failed rt) (feedback rt ++ [event]) rt.

(** The loop of [rebalance]. *)
Fixpoint rebalance_keys (keys : list SourceKey) rt : SeatRuntime B * result SeatFailure unit :=
  match keys with
  | [] => (rt, Ok ())
  | key :: keys =>
      if is_some (slot_of key (pool rt)) then rebalance_keys keys rt
      else
        match try_connect key rt with
        | (rt, Ok (Some _)) => rebalance_keys keys (update_src key (require_neutral_of true) rt)
        | (rt, Ok None) => rebalance_keys keys rt
        | (rt, Err e) => (rt, Err e)
        end
  end.

Definition rebalance rt : SeatRuntime B * result SeatFailure unit :=
  if first_press rt then (rt, Ok ()) else rebalance_keys (btree_keys (sources rt)) rt.

(** The disconnect of the pool inside [disconnect_source]: a key without a
    seat is no failure. *)
Definition pool_disconnect (key : SourceKey) rt : SeatRuntime B * result SeatFailure unit :=
  match disconnect key (pool rt) with
  | (p, Ok _) => (set_pool p rt, Ok ())
  | (p, Err UnknownSource) => (set_pool p rt, Ok ())
  | (p, Err error) => (set_pool p rt, Err (pool_failure error))
  end.

Definition disconnect_source (key : SourceKey) rt : SeatRuntime B * result SeatFailure unit :=
  match sources rt !! key with
  | None => (rt, Err FUnknownSource)
  | Some source =>
      let rt := set_sources (delete key (sources rt)) rt in
      let '(rt, result) := pool_disconnect key rt in
      let rt :=
        if has_state source then
          match key with
          | KRemote launch_id client_id controller_number =>
              push_feedback (RemoteDisconnected client_id launch_id controller_number) rt
          | _ => rt
          end
        else rt in
      match result with
      | Err e => (rt, Err e)
      | Ok _ => rebalance rt
      end
  end.

(** The loops that retire several sources and record whether one failed. *)
Fixpoint disconnect_keys (keys : list SourceKey) rt : SeatRuntime B * bool :=
  match keys with
  | [] => (rt, false)
  | key :: keys =>
      let '(rt, r) := disconnect_source key rt in
      let '(rt, failed) := disconnect_keys keys rt in
      (rt, is_err r || failed)
  end.

(** ** Public operations *)

Definition bind (launch_id mirror_token : string) rt : SeatRuntime B * result string unit :=
  match require_ready rt with
  | Err _ => (rt, Err "seat coordinator is not ready")
  | Ok _ =>
      match validate_launch_id launch_id with
      | Err e => (rt, Err e)
      | Ok _ =>
          match validate_token mirror_token with
          | Err e => (rt, Err e)
          | Ok _ =>
              if negb (bool_decide (session (pool rt) = Some launch_id))
              then (rt, Err "mirror has no matching authoritative session")
              else if is_some (mirror rt) then (rt, Err "input-seat launch is already bound")
              else (set_mirror (Some (launch_id, mirror_token)) rt, Ok ())
          end
      end
  end.

Definition unbind rt : SeatRuntime B * result string unit :=
  let rt := set_mirror None rt in
  let keys := keep is_remote (btree_keys (sources rt)) in
  let '(rt, failed) := disconnect_keys keys rt in
  if failed then (set_faulted true rt, Err "mirror neutralization failed")
  else (rt, Ok ()).

Definition coordinator_lost rt : SeatRuntime B * result string unit :=
  let rt := set_mirror None (set_game_route false (set_recovery true rt)) in
  let keys := btree_keys (sources rt) in
  let '(rt, failed) := disconnect_keys keys rt in
  let '(rt, r) := on_pool neutralize rt in
  let failed := failed || is_err r in
  let rt := set_feedback false [] rt in
  if failed then (set_faulted true rt, Err "coordinator loss neutralization failed")
  else (rt, Ok ()).

(** The loop of [reset]: retires held state of the given sources. *)
Fixpoint reset_keys (keys : list SourceKey) rt : SeatRuntime B * bool :=
  match keys with
  | [] => (rt, false)
  | key :: keys =>
      let rt := update_src key (require_neutral_of true) rt in
      let '(rt, failed) :=
        if is_some (slot_of key (pool rt)) then
          let '(rt, r) := on_pool (write_state key neutral) rt in (rt, is_err r)
        else (rt, false) in
      let '(rt, failed') := reset_keys keys rt in
      (rt, failed || failed')
  end.

Definition reset_mirror (launch_id : string) rt : SeatRuntime B * SeatResetOutcome :=
  if faulted rt then (rt, RBackendFailed)
  else if negb (bool_decide (mirror_launch rt = Some launch_id)) then (rt, RStaleLaunch)
  else
    let keys := keep is_remote (btree_keys (sources rt)) in
    let '(rt, failed) := reset_keys keys rt in
    if failed then (set_faulted true rt, RBackendFailed) else (rt, RAccepted).

Definition remote_source (key : SourceKey) rt : option RemoteSource :=
  match key with
  | KRemote launch_id client_id controller_number =>
      match sources rt !! key with
      | None => None
      | Some s =>
          if negb (has_state s) then None
          else Some (MkRemote client_id launch_id controller_number (src_state s)
                       (slot_of key (pool rt)))
      end
  | _ => None
  end.

Definition all_remote_sources rt : list RemoteSource :=
  filter_map (fun key => remote_source key rt) (btree_keys (sources rt)).

Fixpoint expire_keys (keys : list SourceKey) rt : SeatRuntime B * result SeatFailure unit :=
  match keys with
  | [] => (rt, Ok ())
  | key :: keys =>
      match disconnect_source key rt with
      | (rt, Err error) => (set_faulted true rt, Err error)
      | (rt, Ok _) => expire_keys keys rt
      end
  end.

Definition is_stale (now_ms : Z) (s : Source) : bool :=
  STALE_SOURCE_TIMEOUT_MS <=? saturating_sub now_ms (last_event_ms s).

Definition expire_stale (now_ms : Z) rt : SeatRuntime B * result SeatFailure Z :=
  let keys :=
    (keep (fun kv : SourceKey * Source => is_stale now_ms kv.2) (btree_entries (sources rt))).*1 in
  match expire_keys keys rt with
  | (rt, Err e) => (rt, Err e)
  | (rt, Ok _) => (rt, Ok (Z.of_nat (length keys)))
  end.
(** ** Coordinator requests *)

Notation reply_to R := (SeatRuntime R * result SeatFailure (option Z))%type.

Definition apply_count (count : Z) rt : reply_to B :=
  if count =? 0 then (rt, Err FInvalid)
  else
    try! rt, u <- on_pool (resize count) rt ;;
    try! rt, u <- rebalance rt ;;
    (set_recovery false rt, Ok None).

Definition begin_session_request (launch_id : string) (order : SeatOrder) rt : reply_to B :=
  if is_err (validate_launch_id launch_id) then (rt, Err FInvalid)
  else if recovery_required rt && bool_decide (session (pool rt) = Some launch_id) then
    (set_recovery false (set_seat_order order rt), Ok None)
  else
    match require_ready rt with
    | Err e => (rt, Err e)
    | Ok _ =>
        try! rt, u <- on_pool (begin_session launch_id) rt ;;
        let rt := set_seat_order order rt in
        if bool_decide (order = FirstPress) then
          try! rt, u <- on_pool (release_all launch_id) rt ;;
          (rt, Ok None)
        else (rt, Ok None)
    end.

(** [matches!(source, SourceKey::Netplay(known) if known != &device_public_key)]. *)
Definition other_netplay (device_public_key : string) (k : SourceKey) : bool :=
  match k with
  | KNetplay known => negb (bool_decide (known = device_public_key))
  | _ => false
  end.

Definition reserve_netplay (launch_id device_public_key : string) rt : reply_to B :=
  match require_ready rt with
  | Err e => (rt, Err e)
  | Ok _ =>
      if negb (str_len device_public_key =? 64) || negb (is_hex_id device_public_key)
      then (rt, Err FInvalid)
      else if negb (bool_decide (session (pool rt) = Some launch_id)) then (rt, Err FStale)
      else if has_binding (other_netplay device_public_key) (pool rt) then (rt, Err FActive)
      else
        try! rt, slot <- on_pool (reserve launch_id (KNetplay device_public_key)) rt ;;
        (rt, Ok (Some slot))
  end.

Definition end_session_request (launch_id : string) rt : reply_to B :=
  if negb (bool_decide (session (pool rt) = Some launch_id)) then (rt, Err FStale)
  else
    try! rt, u <- on_err (fun _ => FBackend) (unbind rt) ;;
    try! rt, u <- set_route false rt ;;
    try! rt, u <- on_pool (end_session launch_id) rt ;;
    let rt := set_seat_order Attached rt in
    try! rt, u <- rebalance rt ;;
    (rt, Ok None).

Definition route_request (launch_id : option string) rt : reply_to B :=
  match require_ready rt with
  | Err e => (rt, Err e)
  | Ok _ =>
      if is_some_and launch_id (fun id => negb (bool_decide (session (pool rt) = Some id)))
      then (rt, Err FStale)
      else
        try! rt, u <- set_route (is_some launch_id) rt ;;
        (rt, Ok None)
  end.

Definition physical_connected (device_id name : string) (state : GamepadState) (now_ms : Z) rt
    : reply_to B :=
  match require_ready rt with
  | Err e => (rt, Err e)
  | Ok _ =>
      if negb (valid_native_text device_id 512) || negb (valid_native_text name 256)
         || negb (valid_state state)
      then (rt, Err FInvalid)
      else
        let key := KPhysical device_id in
        if is_some (sources rt !! key) then (rt, Ok (slot_of key (pool rt)))
        else if MAX_PHYSICAL_SOURCES
                <=? Z.of_nat (length (keep is_physical (btree_keys (sources rt))))
        then (rt, Err FInvalid)
        else
          try! rt, slot <- connect_source key state now_ms true rt ;;
          (update_src key (require_neutral_of (negb (is_neutral_for_rearm state))) rt, Ok slot)
  end.

Definition apply (request : SeatRequest) (now_ms : Z) rt : reply_to B :=
  if faulted rt then (rt, Err FBackend)
  else
    match request with
    | Hello | Poll => (rt, Ok None)
    | ApplyCount count => apply_count count rt
    | BeginSession launch_id order => begin_session_request launch_id order rt
    | ReserveNetplay launch_id key => reserve_netplay launch_id key rt
    | EndSession launch_id => end_session_request launch_id rt
    | Route launch_id => route_request launch_id rt
    | PhysicalConnected device_id name state => physical_connected device_id name state now_ms rt
    | PhysicalState device_id state =>
        match require_ready rt with
        | Err e => (rt, Err e)
        | Ok _ =>
            if negb (valid_state state) then (rt, Err FInvalid)
            else update_source (KPhysical device_id) state now_ms rt
        end
    | PhysicalDisconnected device_id =>
        match require_ready rt with
        | Err e => (rt, Err e)
        | Ok _ =>
            try! rt, u <- disconnect_source (KPhysical device_id) rt ;;
            (rt, Ok None)
        end
    end.

(** What the reply reads of the runtime after the request, and the result the
    device paths leave. *)
Definition coordinate (request : SeatRequest) (now_ms : Z) rt : SeatRuntime B * SeatReply :=
  let '(rt, result) := apply request now_ms rt in
  let '(occupied, result) :=
    match occupied_event_devices is_physical (pool rt) with
    | Ok paths => (paths, result)
    | Err _ => ([], Err FBackend)
    end in
  let rt := if bool_decide (result = Err FBackend)
            then set_recovery true (set_faulted true rt) else rt in
  (set_feedback (feedback_failed rt) [] rt,
   MkReply occupied (match result with Err e => Some e | Ok _ => None end) (count (pool rt))
     (session (pool rt)) (recovery_required rt)
     (match result with Ok slot => slot | Err _ => None end)
     (all_remote_sources rt) (feedback rt)).

(** ** Mirrored frames *)

(** The controller, the state and whether it disconnects, or [None] for a
    reason that is refused. *)
Definition decode_frame (f : SunshineFrame) : option (Z * option GamepadState * bool) :=
  match f with
  | SourceConnected _ _ n => Some (n, None, false)
  | SourceDisconnected _ _ n reason => if bad_reason reason then None else Some (n, None, true)
  | SourceStateFrame _ _ n pad => Some (n, Some (sunshine_state pad), false)
  end.

(** The state of a connected source: the update, and the event it feeds back.
    [initialized] and [changed] are read before the update. *)
Definition deliver (key : SourceKey) (state : GamepadState) (now_ms : Z) rt : reply_to B :=
  let initialized := is_some_and (sources rt !! key) has_state in
  let changed := is_some_and (sources rt !! key)
                   (fun s => negb (bool_decide (src_state s = state))) in
  let '(rt, result) := update_source key state now_ms rt in
  if is_ok result && (negb initialized || changed) then
    match remote_source key rt with
    | Some source =>
        (push_feedback (if initialized then RemoteState source else RemoteConnected source) rt,
         result)
    | None => (rt, result)
    end
  else (rt, result).

Definition accept_frame (key : SourceKey) (state : option GamepadState) (disconnect : bool)
    (now_ms : Z) rt : reply_to B :=
  if disconnect then
    let slot := slot_of key (pool rt) in
    try! rt, u <- disconnect_source key rt ;;
    (rt, Ok slot)
  else
    try! rt, slot <-
      (if is_some (sources rt !! key) then (rt, Ok (slot_of key (pool rt)))
       else connect_source key neutral now_ms false rt) ;;
    match state with
    | None => (rt, Ok slot)
    | Some state => deliver key state now_ms rt
    end.

Definition accept (parse_envelope : list Z -> option MirrorEnvelope) (packet : list Z) (now_ms : Z)
    rt : SeatRuntime B * MirrorOutcome :=
  if faulted rt then (rt, MBackendFailed)
  else if feedback_failed rt then (rt, MFeedbackFailed)
  else
    match mirror rt with
    | None => (rt, MStaleLaunch)
    | Some (launch, token) =>
        match decode_envelope parse_envelope packet with
        | None => (rt, MInvalid)
        | Some envelope =>
            if negb (constant_time_equal (bytes (mirror_token envelope)) (bytes token))
            then (rt, MUnauthorized)
            else if negb (bool_decide (frame_launch_id (frame envelope) = launch))
            then (rt, MStaleLaunch)
            else if negb (valid_native_text (frame_client_id (frame envelope)) 256)
            then (rt, MInvalid)
            else
              match decode_frame (frame envelope) with
              | None => (rt, MInvalid)
              | Some (controller, state, disconnect) =>
                  if 15 <? controller then (rt, MInvalid)
                  else
                    let key := KRemote launch (frame_client_id (frame envelope)) controller in
                    let '(rt, result) := accept_frame key state disconnect now_ms rt in
                    if feedback_failed rt then (rt, MFeedbackFailed)
                    else
                      match result with
                      | Ok (Some slot) => (rt, MAccepted slot)
                      | Ok None => (rt, MNoSeat)
                      | Err FUnknownSource => (rt, MUnknownSource)
                      | Err FRateLimited => (rt, MRateLimited)
                      | Err _ => (set_faulted true rt, MBackendFailed)
                      end
              end
        end
    end.

Definition stop_runtime rt : B * result PoolError unit := stop (pool rt).
End runtime.

(** ** What the internal operations leave alone *)

Section theory.
Context {B : Type} `{SeatBackendLaws B}.
Implicit Types rt : SeatRuntime B.
Implicit Types p q : SeatPool SourceKey B.

(** A pool operation that keeps the session, the shape of the pool and the
    truth of what it knows of the devices. *)
Definition calm p q : Prop :=
  session q = session p /\ (pool_wf p -> pool_wf q) /\ (coherent p -> coherent q).

#[export] Instance calm_refl : Reflexive calm.
Proof. by intros p. Qed.
#[export] Instance calm_trans : Transitive calm.
Proof. intros p q r (E1 & W1 & C1) (E2 & W2 & C2). split; [congruence|]. auto. Qed.

Lemma connect_calm k p : calm p (connect k p).1.
Proof. split; [apply connect_session|]. split; [apply connect_wf|apply connect_coherent]. Qed.

Lemma neutralize_calm p : calm p (neutralize p).1.
Proof.
  split; [apply neutralize_session|]. split; [|apply neutralize_coherent].
  apply pool_le_wf, neutralize_le.
Qed.

Lemma write_state_calm k st p : calm p (write_state k st p).1.
Proof.
  split; [apply write_state_session|]. split; [|apply write_state_coherent].
  apply pool_le_wf, write_state_le.
Qed.

Lemma release_all_calm id p : calm p (release_all id p).1.
Proof.
  split; [apply release_all_session|]. split; [|apply release_all_coherent].
  apply pool_le_wf, release_all_le.
Qed.

Lemma reserve_calm id k p : calm p (reserve id k p).1.
Proof. split; [apply reserve_session|]. split; [apply reserve_wf|apply reserve_coherent]. Qed.

Lemma disconnect_session k p : session (disconnect k p).1 = session p.
Proof.
  unfold disconnect. destruct (seat_index k p) as [i|]; [|done]. unfold on_err; simpl.
  destruct (write i neutral (update_seat i (set_connected false) p)) as [q [u|e]] eqn:Hw; simpl;
    apply write_spec in Hw as [Hs _]; [|done].
  by destruct (is_none (session q)).
Qed.

Lemma disconnect_calm k p : calm p (disconnect k p).1.
Proof.
  split; [apply disconnect_session|]. split; [|apply disconnect_coherent].
  apply pool_le_wf, disconnect_le.
Qed.

Definition events_ok (m : gmap SourceKey Source) : Prop :=
  forall k s, m !! k = Some s -> 0 <= events_in_window s <= MAX_EVENTS_PER_SECOND.

(** The frame of an internal operation. *)
Record framed rt rt' : Prop := {
  fr_calm : calm (pool rt) (pool rt');
  fr_mirror : mirror rt' = mirror rt;
  fr_route : game_route rt' = game_route rt;
  fr_order : seat_order rt' = seat_order rt;
  fr_recovery : recovery_required rt' = recovery_required rt;
  fr_faulted : faulted rt' = faulted rt;
  fr_failed : feedback_failed rt = true -> feedback_failed rt' = true;
  fr_length : Z.of_nat (length (feedback rt)) <= MAX_REMOTE_EVENTS ->
              Z.of_nat (length (feedback rt')) <= MAX_REMOTE_EVENTS;
  fr_events : events_ok (sources rt) -> events_ok (sources rt');
}.

#[export] Instance framed_refl : Reflexive framed.
Proof. intros rt. by split. Qed.
#[export] Instance framed_trans : Transitive framed.
Proof. intros a b c [] []. split; try congruence; eauto using calm_trans. Qed.

Lemma framed_wf rt rt' : framed rt rt' -> pool_wf (pool rt) -> pool_wf (pool rt').
Proof. intros Hf. apply (fr_calm _ _ Hf). Qed.

Lemma framed_coherent rt rt' : framed rt rt' -> coherent (pool rt) -> coherent (pool rt').
Proof. intros Hf. apply (fr_calm _ _ Hf). Qed.

Lemma framed_unfailed rt rt' :
  framed rt rt' -> feedback_failed rt' = false -> feedback_failed rt = false.
Proof.
  intros Hf Hn. destruct (feedback_failed rt) eqn:E; [|done].
  apply (fr_failed _ _ Hf) in E. congruence.
Qed.

Lemma framed_pool p rt : calm (pool rt) p -> framed rt (set_pool p rt).
Proof. intros Hc. by split. Qed.

Lemma framed_sources m rt :
  (events_ok (sources rt) -> events_ok m) -> framed rt (set_sources m rt).
Proof. intros Hm. by split. Qed.

Lemma events_alter f k (m : gmap SourceKey Source) :
  (forall s, events_in_window (f s) = events_in_window s) -> events_ok m -> events_ok (alter f k m).
Proof.
  intros Hf Hm k' s. destruct (decide (k = k')) as [<-|Hne].
  - rewrite lookup_alter_eq, fmap_Some. intros (s0 & Hs0 & ->). rewrite Hf. eauto.
  - rewrite lookup_alter_ne by done. apply Hm.
Qed.

Lemma events_insert k s (m : gmap SourceKey Source) :
  0 <= events_in_window s <= MAX_EVENTS_PER_SECOND -> events_ok m -> events_ok (<[k := s]> m).
Proof.
  intros Hs Hm k' s'. destruct (decide (k = k')) as [<-|Hne].
  - rewrite lookup_insert_eq. by intros [= <-].
  - rewrite lookup_insert_ne by done. apply Hm.
Qed.

Lemma events_fmap b (m : gmap SourceKey Source) :
  events_ok m -> events_ok (require_neutral_of b <$> m).
Proof. intros Hm k s. rewrite lookup_fmap, fmap_Some. intros (s0 & ? & ->). simpl. eauto. Qed.

Lemma events_delete k (m : gmap SourceKey Source) : events_ok m -> events_ok (delete k m).
Proof. intros Hm k' s [_ ?]%lookup_delete_Some. eauto. Qed.

Lemma framed_update_src k b rt : framed rt (update_src k (require_neutral_of b) rt).
Proof. apply framed_sources, events_alter. done. Qed.

Lemma framed_push e rt : framed rt (push_feedback e rt).
Proof.
  unfold push_feedback. destruct (Z.leb_spec MAX_REMOTE_EVENTS (Z.of_nat (length (feedback rt)))).
  - by split.
  - split; try done. simpl. rewrite length_app. simpl. lia.
Qed.

Lemma on_pool_framed {A} (op : SeatPool SourceKey B -> SeatPool SourceKey B * result PoolError A) rt :
  calm (pool rt) (op (pool rt)).1 -> framed rt (on_pool op rt).1.
Proof. unfold on_pool. destruct (op (pool rt)) as [p r]. apply framed_pool. Qed.

Lemma try_connect_framed k rt : framed rt (try_connect k rt).1.
Proof.
  unfold try_connect. pose proof (connect_calm k (pool rt)) as Hc.
  destruct (connect k (pool rt)) as [p [n|[]]]; by apply framed_pool.
Qed.

Lemma try_connect_sources k rt : sources (try_connect k rt).1 = sources rt.
Proof. unfold try_connect. by destruct (connect k (pool rt)) as [p [n|[]]]. Qed.

Lemma connect_source_framed k st now has rt : framed rt (connect_source k st now has rt).1.
Proof.
  unfold connect_source.
  destruct (first_press rt && is_none (slot_of k (pool rt))).
  { apply framed_sources, events_insert. simpl. unfold MAX_EVENTS_PER_SECOND. lia. }
  pose proof (try_connect_framed k rt) as Hf.
  destruct (try_connect k rt) as [rt1 [o|e]]; [|done]. etrans; [exact Hf|].
  apply framed_sources, events_insert. simpl. unfold MAX_EVENTS_PER_SECOND. lia.
Qed.

Lemma admit_frame_spec k now s s' limited :
  admit_frame k now s = (s', limited) ->
  src_state s' = src_state s /\ has_state s' = has_state s /\
  requires_neutral s' = requires_neutral s /\
  (0 <= events_in_window s <= MAX_EVENTS_PER_SECOND ->
   0 <= events_in_window s' <= MAX_EVENTS_PER_SECOND).
Proof.
  unfold admit_frame, MAX_EVENTS_PER_SECOND. destruct (is_remote k); [|by intros [= <- <-]].
  destruct (1000 <=? _); simpl.
  - intros [= <- <-]. simpl. repeat split; lia.
  - destruct (Z.leb_spec 240 (events_in_window s)); intros [= <- <-]; simpl; repeat split; lia.
Qed.

Lemma forward_state_framed k st rt : framed rt (forward_state k st rt).1.
Proof.
  unfold forward_state.
  destruct (is_none (slot_of k (pool rt)) && first_press rt && negb (is_neutral_for_rearm st)).
  - pose proof (try_connect_framed k rt) as Hf.
    destruct (try_connect k rt) as [rt1 [[n|]|e]]; [|done|done]. etrans; [exact Hf|].
    pose proof (on_pool_framed (write_state k st) rt1 (write_state_calm _ _ _)) as Hg.
    by destruct (on_pool (write_state k st) rt1) as [rt2 []].
  - destruct (slot_of k (pool rt)); [|done].
    pose proof (on_pool_framed (write_state k st) rt (write_state_calm _ _ _)) as Hg.
    by destruct (on_pool (write_state k st) rt) as [rt2 []].
Qed.

Lemma update_source_framed k st now rt : framed rt (update_source k st now rt).1.
Proof.
  unfold update_source. destruct (sources rt !! k) as [s|] eqn:Hs; [|done].
  destruct (admit_frame k now s) as [s' limited] eqn:Ha.
  apply admit_frame_spec in Ha as (_ & _ & _ & He).
  assert (Hi : forall s'', events_in_window s'' = events_in_window s' ->
                 framed rt (set_sources (<[k := s'']> (sources rt)) rt)).
  { intros s'' Hs''. apply framed_sources. intros Hm.
    apply events_insert; [|done]. rewrite Hs''. apply He, (Hm k s Hs). }
  destruct limited; [by apply Hi|]. simpl.
  destruct (negb (game_route rt)); [by apply Hi|].
  destruct (requires_neutral s').
  - destruct (is_neutral_for_rearm st); [|by apply Hi].
    etrans; [|apply framed_update_src]. by apply Hi.
  - etrans; [|apply forward_state_framed]. by apply Hi.
Qed.

Lemma rebalance_keys_framed l rt : framed rt (rebalance_keys l rt).1.
Proof.
  revert rt; induction l as [|k l IH]; intros rt; simpl; [done|].
  destruct (is_some (slot_of k (pool rt))); [apply IH|].
  pose proof (try_connect_framed k rt) as Hf.
  destruct (try_connect k rt) as [rt1 [[n|]|e]]; [| |done]; (etrans; [exact Hf|]).
  - etrans; [apply framed_update_src|apply IH].
  - apply IH.
Qed.

Lemma rebalance_framed rt : framed rt (rebalance rt).1.
Proof. unfold rebalance. destruct (first_press rt); [done|]. apply rebalance_keys_framed. Qed.

Lemma rebalance_keys_dom l rt : dom (sources (rebalance_keys l rt).1) = dom (sources rt).
Proof.
  revert rt; induction l as [|k l IH]; intros rt; simpl; [done|].
  destruct (is_some (slot_of k (pool rt))); [apply IH|].
  pose proof (try_connect_sources k rt) as Hs.
  destruct (try_connect k rt) as [rt1 [[n|]|e]]; simpl in Hs.
  - rewrite IH. simpl. by rewrite dom_alter_L, Hs.
  - by rewrite IH, Hs.
  - simpl. by rewrite Hs.
Qed.

Lemma rebalance_dom rt : dom (sources (rebalance rt).1) = dom (sources rt).
Proof. unfold rebalance. destruct (first_press rt); [done|]. apply rebalance_keys_dom. Qed.

Lemma pool_disconnect_framed k rt : framed rt (pool_disconnect k rt).1.
Proof.
  unfold pool_disconnect. pose proof (disconnect_calm k (pool rt)) as Hc.
  destruct (disconnect k (pool rt)) as [p [n|[]]]; by apply framed_pool.
Qed.

Lemma pool_disconnect_sources k rt : sources (pool_disconnect k rt).1 = sources rt.
Proof. unfold pool_disconnect. by destruct (disconnect k (pool rt)) as [p [n|[]]]. Qed.

(** The feedback [disconnect_source] gives for a remote controller. *)
Lemma framed_feedback has k rt :
  framed rt (if has : bool then
               match k with
               | KRemote l c n => push_feedback (RemoteDisconnected c l n) rt
               | _ => rt
               end
             else rt) /\
  sources (if has : bool then
             match k with
             | KRemote l c n => push_feedback (RemoteDisconnected c l n) rt
             | _ => rt
             end
           else rt) = sources rt /\
  pool (if has : bool then
          match k with
          | KRemote l c n => push_feedback (RemoteDisconnected c l n) rt
          | _ => rt
          end
        else rt) = pool rt.
Proof.
  destruct has; [|done]. destruct k; try done. split; [apply framed_push|].
  unfold push_feedback. by destruct (_ <=? _).
Qed.

Lemma disconnect_source_framed k rt : framed rt (disconnect_source k rt).1.
Proof.
  unfold disconnect_source. destruct (sources rt !! k) as [s|] eqn:Hs; [|done].
  set (rt0 := set_sources (delete k (sources rt)) rt).
  assert (F0 : framed rt rt0) by (apply framed_sources, events_delete).
  pose proof (pool_disconnect_framed k rt0) as F1.
  destruct (pool_disconnect k rt0) as [rt1 r]. simpl in *.
  destruct (framed_feedback (has_state s) k rt1) as (F2 & _).
  set (rt2 := if has_state s then _ else rt1) in *.
  assert (framed rt rt2) by (etrans; [exact F0|]; etrans; [exact F1|exact F2]).
  destruct r; [|done]. etrans; [eassumption|]. apply rebalance_framed.
Qed.

Lemma disconnect_source_dom k rt :
  dom (sources (disconnect_source k rt).1) = dom (sources rt) ∖ {[k]}.
Proof.
  unfold disconnect_source. destruct (sources rt !! k) as [s|] eqn:Hs.
  2:{ simpl. apply not_elem_of_dom in Hs. set_solver. }
  set (rt0 := set_sources (delete k (sources rt)) rt).
  pose proof (pool_disconnect_sources k rt0) as F1.
  destruct (pool_disconnect k rt0) as [rt1 r]. simpl in *.
  destruct (framed_feedback (has_state s) k rt1) as (_ & F2 & _).
  set (rt2 := if has_state s then _ else rt1) in *.
  assert (dom (sources rt2) = dom (sources rt) ∖ {[k]}) by (rewrite F2, F1; apply dom_delete_L).
  destruct r; [by rewrite rebalance_dom|done].
Qed.

Lemma disconnect_keys_framed l rt : framed rt (disconnect_keys l rt).1.
Proof.
  revert rt; induction l as [|k l IH]; intros rt; simpl; [done|].
  pose proof (disconnect_source_framed k rt) as Hf.
  destruct (disconnect_source k rt) as [rt1 r]. specialize (IH rt1).
  destruct (disconnect_keys l rt1) as [rt2 failed]. by etrans.
Qed.

Lemma disconnect_keys_dom l rt :
  dom (sources (disconnect_keys l rt).1) = dom (sources rt) ∖ list_to_set l.
Proof.
  revert rt; induction l as [|k l IH]; intros rt; simpl; [set_solver|].
  pose proof (disconnect_source_dom k rt) as Hf.
  destruct (disconnect_source k rt) as [rt1 r]. specialize (IH rt1).
  destruct (disconnect_keys l rt1) as [rt2 failed]. simpl in *. set_solver.
Qed.

Lemma reset_keys_framed l rt : framed rt (reset_keys l rt).1.
Proof.
  revert rt; induction l as [|k l IH]; intros rt; simpl; [done|].
  set (rt0 := update_src k (require_neutral_of true) rt).
  assert (F0 : framed rt rt0) by apply framed_update_src.
  destruct (is_some (slot_of k (pool rt))).
  - pose proof (on_pool_framed (write_state k neutral) rt0 (write_state_calm _ _ _)) as F1.
    destruct (on_pool (write_state k neutral) rt0) as [rt1 r]. specialize (IH rt1).
    destruct (reset_keys l rt1) as [rt2 failed]. simpl in *.
    etrans; [exact F0|]. by etrans.
  - specialize (IH rt0). destruct (reset_keys l rt0) as [rt2 failed]. by etrans.
Qed.

Lemma reset_keys_dom l rt : dom (sources (reset_keys l rt).1) = dom (sources rt).
Proof.
  revert rt; induction l as [|k l IH]; intros rt; simpl; [done|].
  set (rt0 := update_src k (require_neutral_of true) rt).
  assert (F0 : dom (sources rt0) = dom (sources rt)) by apply dom_alter_L.
  destruct (is_some (slot_of k (pool rt))).
  - unfold on_pool. destruct (write_state k neutral (pool rt0)) as [p r].
    specialize (IH (set_pool p rt0)).
    destruct (reset_keys l (set_pool p rt0)) as [rt2 failed]. simpl in *. congruence.
  - specialize (IH rt0). destruct (reset_keys l rt0) as [rt2 failed]. simpl in *. congruence.
Qed.

(** ** Routing: what a seat's device may hold *)

(** The source whose state a seat forwards. *)
Definition forwards rt (s : Seat SourceKey) : Prop :=
  game_route rt = true /\
  exists key src, binding s = Some (MkBinding key true) /\ sources rt !! key = Some src /\
    requires_neutral src = false /\ known_state s = Some (src_state src).

Definition gate rt : Prop :=
  forall i s, seats (pool rt) !! i = Some s -> known_state s = Some neutral \/ forwards rt s.

(** A seat of the new runtime is neutral, or it is a seat of the old one whose
    armed source kept its state. *)
Lemma gate_intro rt rt' :
  gate rt -> game_route rt' = game_route rt ->
  (forall i s, seats (pool rt') !! i = Some s ->
     known_state s = Some neutral \/
     seats (pool rt) !! i = Some s /\
     forall key src, binding s = Some (MkBinding key true) -> sources rt !! key = Some src ->
       requires_neutral src = false ->
       exists src', sources rt' !! key = Some src' /\ requires_neutral src' = false /\
         src_state src' = src_state src) ->
  gate rt'.
Proof.
  intros Hg Hr Hs i s Hi. destruct (Hs i s Hi) as [?|[Hi0 Hsrc]]; [by left|].
  destruct (Hg i s Hi0) as [?|(Hroute & key & src & Hb & Hk & Hn & Hst)]; [by left|].
  destruct (Hsrc key src Hb Hk Hn) as (src' & Hk' & Hn' & Hst').
  right. split; [congruence|]. exists key, src'. repeat split; congruence.
Qed.

Lemma gate_set_pool p rt : settled (pool rt) p -> gate rt -> gate (set_pool p rt).
Proof.
  intros Hs Hg. apply (gate_intro rt); [done|done|]. intros i s Hi.
  destruct (Hs i s Hi) as [?|?]; [by left|]. right. split; [done|]. intros key src _ Hk Hn. eauto.
Qed.

(** Seats bound to another key than [key] do not see a change of its source. *)
Lemma gate_set_sources key m rt :
  (forall k, k <> key -> m !! k = sources rt !! k) ->
  (forall i s, seats (pool rt) !! i = Some s -> binding s = Some (MkBinding key true) ->
     known_state s = Some neutral) ->
  gate rt -> gate (set_sources m rt).
Proof.
  intros Hm Hk Hg. apply (gate_intro rt); [done|done|]. intros i s Hi.
  destruct (decide (binding s = Some (MkBinding key true))) as [Hb|Hb]; [left; eauto|].
  right. split; [done|]. intros k src Hb' Hk' Hn. exists src. simpl.
  rewrite Hm by congruence. done.
Qed.

Lemma gate_silent rt :
  game_route rt = false -> gate rt ->
  forall i s, seats (pool rt) !! i = Some s -> known_state s = Some neutral.
Proof. intros Hr Hg i s Hi. destruct (Hg i s Hi) as [?|[? _]]; congruence. Qed.

(** A key whose source is missing or not armed has a neutral seat. *)
Lemma gate_unarmed key rt :
  gate rt -> (forall src, sources rt !! key = Some src -> requires_neutral src = true) ->
  forall i s, seats (pool rt) !! i = Some s -> binding s = Some (MkBinding key true) ->
    known_state s = Some neutral.
Proof.
  intros Hg Hu i s Hi Hb. destruct (Hg i s Hi) as [?|(_ & k & src & Hb' & Hk & Hn & _)]; [done|].
  simplify_eq. apply Hu in Hk. congruence.
Qed.

Lemma all_neutral_gate rt :
  (forall i s, seats (pool rt) !! i = Some s -> known_state s = Some neutral) -> gate rt.
Proof. intros Hn i s Hi. left. eauto. Qed.

(** Only the pool, the sources and the route matter. *)
Lemma gate_ext rt rt' :
  pool rt' = pool rt -> sources rt' = sources rt -> game_route rt' = game_route rt ->
  gate rt -> gate rt'.
Proof.
  intros Hp Hs Hr Hg. apply (gate_intro rt); [done|done|]. intros i s Hi. right.
  rewrite <- Hp. split; [done|]. intros k src Hb Hk Hn. exists src. by rewrite Hs.
Qed.

Lemma pool_failure_backend m : pool_failure (PoolBackend m) = FBackend.
Proof. done. Qed.

Lemma try_connect_gate k rt rt' r :
  pool_wf (pool rt) -> gate rt -> try_connect k rt = (rt', r) ->
  match r with
  | Ok o => gate rt' /\ settled (pool rt) (pool rt') /\
            (o = None -> pool rt' = pool rt)
  | Err e => e = FBackend
  end.
Proof.
  intros Hwf Hg. unfold try_connect.
  destruct (connect k (pool rt)) as [p [n|e]] eqn:Hc.
  - intros [= <- <-]. apply connect_settled in Hc; [|done].
    split; [by apply gate_set_pool|]. by split.
  - pose proof (connect_errors _ _ _ _ Hwf Hc) as [[-> ->]|[m ->]]; intros [= <- <-]; [|done].
    split; [by apply gate_set_pool|]. by split.
Qed.

Lemma gate_update_src_true k rt : 
  (forall i s, seats (pool rt) !! i = Some s -> binding s = Some (MkBinding k true) ->
     known_state s = Some neutral) ->
  gate rt -> gate (update_src k (require_neutral_of true) rt).
Proof.
  intros Hk. apply (gate_set_sources k); [|done]. intros k' ?. by apply lookup_alter_ne.
Qed.

Lemma rebalance_keys_gate l rt rt' r :
  pool_wf (pool rt) -> gate rt -> rebalance_keys l rt = (rt', r) -> r <> Err FBackend -> gate rt'.
Proof.
  revert rt; induction l as [|k l IH]; intros rt Hwf Hg; simpl; [by intros [= <- <-]|].
  destruct (is_some (slot_of k (pool rt))) eqn:Hsl; [by apply IH|].
  pose proof (try_connect_framed k rt) as Hf.
  destruct (try_connect k rt) as [rt1 [o|e]] eqn:Hc; pose proof (try_connect_gate _ _ _ _ Hwf Hg Hc) as Hq.
  - destruct Hq as (Hg1 & Hset & Hnone).
    assert (Hwf1 : pool_wf (pool rt1)) by exact (framed_wf _ _ Hf Hwf).
    destruct o as [n|]; [|by apply IH].
    apply IH; [done|]. apply gate_update_src_true; [|done].
    intros i s Hi Hb. destruct (Hset i s Hi) as [?|Hi0]; [done|].
    destruct (slot_of k (pool rt)) eqn:Hsl'; [done|].
    pose proof (proj1 (slot_of_None k (pool rt)) Hsl' i s Hi0) as Hbt.
    assert (bound_to k s = true) by (apply bound_to_true; eauto). congruence.
  - simpl in Hq. subst e. by intros [= <- <-].
Qed.

Lemma rebalance_gate rt rt' r :
  pool_wf (pool rt) -> gate rt -> rebalance rt = (rt', r) -> r <> Err FBackend -> gate rt'.
Proof.
  intros Hwf Hg. unfold rebalance. destruct (first_press rt); [by intros [= <- <-]|].
  by apply rebalance_keys_gate.
Qed.

Lemma disconnect_source_gate k rt rt' r :
  pool_wf (pool rt) -> gate rt -> disconnect_source k rt = (rt', r) -> r <> Err FBackend -> gate rt'.
Proof.
  intros Hwf Hg. unfold disconnect_source.
  destruct (sources rt !! k) as [src|] eqn:Hk; [|by intros [= <- <-]].
  set (rt0 := set_sources (delete k (sources rt)) rt).
  pose proof (pool_disconnect_framed k rt0) as Hf.
  pose proof (pool_disconnect_sources k rt0) as Hs1.
  destruct (pool_disconnect k rt0) as [rt1 r1] eqn:Hd. simpl in Hf, Hs1.
  destruct (framed_feedback (has_state src) k rt1) as (Hf2 & Hs2 & Hp2).
  set (rt2 := if has_state src then _ else rt1) in *.
  assert (Hwf2 : pool_wf (pool rt2)) by (rewrite Hp2; exact (framed_wf _ _ Hf Hwf)).
  assert (Hg2 : r1 <> Err FBackend -> gate rt2).
  { intros Hr1. apply (gate_intro rt); [done| |].
    - transitivity (game_route rt1); [apply fr_route, Hf2|apply (fr_route _ _ Hf)].
    - intros i s. rewrite Hp2, Hs2, Hs1. simpl.
      assert (Hother : seats (pool rt) !! i = Some s -> bound_to k s = false ->
        forall key src0, binding s = Some (MkBinding key true) -> sources rt !! key = Some src0 ->
        requires_neutral src0 = false ->
        exists src', delete k (sources rt) !! key = Some src' /\ requires_neutral src' = false /\
          src_state src' = src_state src0).
      { intros _ Hb key src0 Hb' Hk' Hn. exists src0. rewrite lookup_delete_ne; [done|].
        intros <-. assert (bound_to k s = true) by (apply bound_to_true; eauto). congruence. }
      unfold pool_disconnect in Hd. subst rt0. simpl in Hd.
      destruct (disconnect k (pool rt)) as [p [n|e]] eqn:Hp.
      + injection Hd as <- <-. simpl. intros Hi.
        destruct (disconnect_ok _ _ _ _ Hwf Hp) as [_ Hok].
        destruct (Hok i s Hi) as [[? _]|[Hi0 Hb]]; [by left|]. right. split; [done|].
        by apply Hother.
      + destruct (disconnect_errors _ _ _ _ Hwf Hp) as [(-> & -> & Hsl)|[m ->]].
        * injection Hd as <- <-. simpl. intros Hi. right. split; [done|]. apply Hother; [done|].
          by apply (proj1 (slot_of_None k (pool rt)) Hsl i).
        * injection Hd as <- <-. done. }
  destruct r1 as [u|e].
  - intros Hr. apply (rebalance_gate rt2); [done|by apply Hg2|done].
  - intros [= <- <-] Hne. by apply Hg2.
Qed.


(** The gate for the seats other than the one [k] drives. *)
Definition gate_except k rt : Prop :=
  forall i s, seats (pool rt) !! i = Some s -> binding s <> Some (MkBinding k true) ->
    known_state s = Some neutral \/ forwards rt s.

Lemma gate_except_all k rt :
  gate_except k rt ->
  (forall i s, seats (pool rt) !! i = Some s -> binding s <> Some (MkBinding k true)) -> gate rt.
Proof. intros Hg Hn i s Hi. eauto. Qed.

Lemma slot_none_unbound k p :
  slot_of k p = None -> forall i s, seats p !! i = Some s -> binding s <> Some (MkBinding k true).
Proof.
  intros Hsl i s Hi Hb. pose proof (proj1 (slot_of_None k p) Hsl i s Hi) as Hbt.
  assert (bound_to k s = true) by (apply bound_to_true; eauto). congruence.
Qed.

Lemma seat_bound_connected k (s : Seat SourceKey) :
  bound_to k s = true -> is_connected s = true -> binding s = Some (MkBinding k true).
Proof.
  intros [c Hc]%bound_to_true. unfold is_connected. rewrite Hc. simpl. by intros ->.
Qed.

Lemma write_state_refused k st p q e :
  pool_wf p -> write_state k st p = (q, Err e) -> (forall m, e <> PoolBackend m) ->
  q = p /\ forall i s, seats p !! i = Some s -> binding s <> Some (MkBinding k true).
Proof.
  intros Hwf Hw He. pose proof (write_state_errors _ _ _ _ _ Hw) as [[-> _]|[m ->]].
  2:{ by destruct (He m). }
  split; [done|]. intros i s Hi Hb.
  assert (Hidx : seat_index k p = Some i).
  { apply (seat_index_wf _ _ _ s); [done|done|]. apply bound_to_true. eauto. }
  unfold write_state in Hw. rewrite Hidx in Hw. unfold is_connected in Hw. rewrite Hi in Hw.
  simpl in Hw. rewrite Hb in Hw. simpl in Hw. unfold on_err in Hw.
  destruct (write i st p) as [q [u|e']] eqn:Hwr; simpl in Hw; [|by simplify_eq; destruct (He e')].
  apply write_spec in Hwr as [_ Hq]. rewrite Hq, list_lookup_alter_eq, Hi in Hw. done.
Qed.

Lemma write_gate k st src rt rt' r :
  pool_wf (pool rt) -> gate_except k rt -> game_route rt = true ->
  sources rt !! k = Some src -> requires_neutral src = false -> src_state src = st ->
  on_pool (write_state k st) rt = (rt', r) -> r <> Err FBackend -> gate rt'.
Proof.
  intros Hwf Hg Hr Hk Hn Hst. unfold on_pool.
  destruct (write_state k st (pool rt)) as [p [n|e]] eqn:Hw; intros [= <- <-] Hne.
  - apply write_state_ok in Hw as (i & Hidx & Hp & Hc). intros j s. simpl. rewrite Hp.
    destruct (seat_index_Some _ _ _ Hidx) as (s0 & Hi & Hb). rewrite Hi in Hc. simpl in Hc.
    pose proof (seat_bound_connected _ _ Hb Hc) as Hb0.
    destruct (decide (i = j)) as [<-|Hij].
    + rewrite list_lookup_alter_eq, Hi. intros [= <-]. right. split; [done|].
      exists k, src. by rewrite Hst.
    + rewrite list_lookup_alter_ne by done. intros Hj. apply (Hg j s Hj). intros Hbj.
      apply Hij. eapply (wf_unique _ Hwf i j s0 s k); [done|done|done|].
      apply bound_to_true; eauto.
  - destruct (write_state_refused k st (pool rt) p e Hwf Hw) as [-> Hu].
    { intros m ->. by apply Hne. }
    apply (gate_except_all k); done.
Qed.

Lemma forward_state_gate k st src rt rt' r :
  pool_wf (pool rt) -> gate_except k rt -> game_route rt = true ->
  sources rt !! k = Some src -> requires_neutral src = false -> src_state src = st ->
  forward_state k st rt = (rt', r) -> r <> Err FBackend -> gate rt'.
Proof.
  intros Hwf Hg Hr Hk Hn Hst. unfold forward_state.
  destruct (slot_of k (pool rt)) as [n|] eqn:Hsl; simpl.
  - pose proof (write_gate k st src rt) as Hwg.
    destruct (on_pool (write_state k st) rt) as [rt2 [u|e]]; intros [= <- <-] Hne;
      (eapply Hwg; [done..| |]; try done); congruence.
  - pose proof (slot_none_unbound _ _ Hsl) as Hu.
    assert (Hg0 : gate rt) by (by apply (gate_except_all k)).
    destruct (first_press rt && negb (is_neutral_for_rearm st)); [|by intros [= <- <-]].
    pose proof (try_connect_framed k rt) as Hf. pose proof (try_connect_sources k rt) as Hs.
    destruct (try_connect k rt) as [rt1 [o|e]] eqn:Hc;
      pose proof (try_connect_gate _ _ _ _ Hwf Hg0 Hc) as Hq; simpl in Hq, Hf, Hs.
    2:{ subst e. by intros [= <- <-]. }
    destruct Hq as (Hg1 & _ & _). destruct o as [n|]; [|by intros [= <- <-]].
    assert (Hwf1 : pool_wf (pool rt1)) by exact (framed_wf _ _ Hf Hwf).
    assert (Hge : gate_except k rt1) by (intros j s Hj _; exact (Hg1 j s Hj)).
    pose proof (write_gate k st src rt1) as Hwg.
    destruct (on_pool (write_state k st) rt1) as [rt2 [u|e]]; intros [= <- <-] Hne;
      (eapply Hwg; [done|exact Hge|by rewrite (fr_route _ _ Hf)|by rewrite Hs|done|done| |];
       try done); congruence.
Qed.

Lemma update_source_gate k st now rt rt' r :
  pool_wf (pool rt) -> gate rt -> update_source k st now rt = (rt', r) -> r <> Err FBackend ->
  gate rt'.
Proof.
  intros Hwf Hg. unfold update_source.
  destruct (sources rt !! k) as [s|] eqn:Hk; [|by intros [= <- <-]].
  destruct (admit_frame k now s) as [s' limited] eqn:Ha.
  apply admit_frame_spec in Ha as (Hst & _ & Hrn & _).
  destruct limited.
  { intros [= <- <-] _. apply (gate_intro rt); [done|done|]. intros i t Hi. right.
    split; [done|]. intros key src _ Hsrc Hn. simpl. destruct (decide (k = key)) as [<-|].
    - exists s'. rewrite lookup_insert_eq. split; [done|]. split; congruence.
    - exists src. by rewrite lookup_insert_ne. }
  simpl. destruct (game_route rt) eqn:Hr; simpl.
  2:{ intros [= <- <-] _. apply all_neutral_gate. simpl. by apply gate_silent. }
  destruct (requires_neutral s') eqn:Hrn'.
  - intros [= <- <-] _.
    assert (Hu : forall i t, seats (pool rt) !! i = Some t -> binding t = Some (MkBinding k true) ->
                   known_state t = Some neutral).
    { apply gate_unarmed; [done|]. intros src. rewrite Hk. intros [= <-]. congruence. }
    assert (Hg0 : forall s'', gate (set_sources (<[k := s'']> (sources rt)) rt)).
    { intros s''. apply (gate_set_sources k); [|done|done]. intros k' ?.
      by rewrite lookup_insert_ne. }
    destruct (is_neutral_for_rearm st); [|done]. apply (gate_set_sources k); [|done|done].
    intros k' ?. by apply lookup_alter_ne.
  - intros Hfw Hne. eapply forward_state_gate; [| | | | | |exact Hfw|done]; simpl.
    + done.
    + intros i t Hi Hb. destruct (Hg i t Hi) as [?|(_ & key & src & Hb' & Hsrc & Hn & Hks)]; [by left|].
      right. split; [done|]. exists key, src. simpl. rewrite lookup_insert_ne; [done|]. congruence.
    + done.
    + by rewrite lookup_insert_eq.
    + done.
    + done.
Qed.

Lemma connect_source_gate k st now has rt rt' r :
  pool_wf (pool rt) -> gate rt -> sources rt !! k = None ->
  connect_source k st now has rt = (rt', r) -> r <> Err FBackend ->
  gate rt' /\
  (forall i s, seats (pool rt') !! i = Some s -> binding s = Some (MkBinding k true) ->
     known_state s = Some neutral).
Proof.
  intros Hwf Hg Hk. unfold connect_source.
  assert (Hins : forall rt1 src, gate rt1 -> sources rt1 = sources rt ->
    gate (set_sources (<[k := src]> (sources rt1)) rt1) /\
    forall i s, seats (pool rt1) !! i = Some s -> binding s = Some (MkBinding k true) ->
      known_state s = Some neutral).
  { intros rt1 src Hg1 Hs1.
    assert (Hu : forall i s, seats (pool rt1) !! i = Some s -> binding s = Some (MkBinding k true) ->
                   known_state s = Some neutral).
    { apply gate_unarmed; [done|]. intros src'. rewrite Hs1, Hk. done. }
    split; [|done]. apply (gate_set_sources k); [|done|done].
    intros k' ?. by rewrite lookup_insert_ne. }
  destruct (first_press rt && is_none (slot_of k (pool rt))).
  { intros [= <- <-] _. by apply (Hins rt). }
  pose proof (try_connect_sources k rt) as Hs.
  destruct (try_connect k rt) as [rt1 [o|e]] eqn:Hc;
    pose proof (try_connect_gate _ _ _ _ Hwf Hg Hc) as Hq; simpl in Hq, Hs; intros [= <- <-] Hne.
  - destruct Hq as (Hg1 & _ & _). by apply (Hins rt1).
  - by subst e.
Qed.

Lemma set_route_gate g rt rt' r :
  set_route g rt = (rt', r) -> r <> Err FBackend -> r = Ok () /\
  forall i s, seats (pool rt') !! i = Some s -> known_state s = Some neutral.
Proof.
  unfold set_route, on_pool. simpl. destruct (neutralize (pool rt)) as [p [[]|e]] eqn:Hn; simpl.
  - intros [= <- <-] _. split; [done|]. by apply (neutralize_ok _ _ _ Hn).
  - intros [= <- <-]. unfold neutralize in Hn.
    destruct (neutralize_seats _ _ _ _) as [q [|er ers]]; simpl in Hn; [done|].
    simplify_eq. done.
Qed.

Lemma disconnect_keys_gate l rt rt' :
  pool_wf (pool rt) -> gate rt -> disconnect_keys l rt = (rt', false) -> gate rt'.
Proof.
  revert rt; induction l as [|k l IH]; intros rt Hwf Hg; simpl; [by intros [= <-]|].
  pose proof (disconnect_source_framed k rt) as Hf.
  destruct (disconnect_source k rt) as [rt1 r1] eqn:Hd.
  destruct (disconnect_keys l rt1) as [rt2 failed] eqn:Hl. intros [= <- [Hr ->]%orb_false_elim].
  eapply IH; [| |exact Hl].
  - exact (framed_wf _ _ Hf Hwf).
  - eapply disconnect_source_gate; [exact Hwf|exact Hg|exact Hd|]. by destruct r1.
Qed.

Lemma reset_keys_gate l rt rt' :
  pool_wf (pool rt) -> gate rt -> reset_keys l rt = (rt', false) -> gate rt'.
Proof.
  revert rt; induction l as [|k l IH]; intros rt Hwf Hg; simpl; [by intros [= <-]|].
  set (rt0 := update_src k (require_neutral_of true) rt).
  assert (Hother : forall i s, seats (pool rt) !! i = Some s -> binding s <> Some (MkBinding k true) ->
                     known_state s = Some neutral \/ forwards rt0 s).
  { intros i s Hi Hb. destruct (Hg i s Hi) as [?|(Hr & key & src & Hb' & Hk & Hn & Hst)]; [by left|].
    right. split; [done|]. exists key, src. simpl. rewrite lookup_alter_ne by congruence. done. }
  destruct (slot_of k (pool rt)) as [n|] eqn:Hsl; simpl.
  - unfold on_pool. simpl.
    pose proof (write_state_calm k neutral (pool rt)) as (_ & Hw & _).
    destruct (write_state k neutral (pool rt)) as [p [m|e]] eqn:Hws; simpl.
    2:{ by destruct (reset_keys l _). }
    destruct (reset_keys l (set_pool p rt0)) as [rt2 failed] eqn:Hl. intros [= <- ->].
    eapply IH; [| |exact Hl]; [by apply Hw|].
    apply write_state_ok in Hws as (i & Hidx & Hp & Hc). intros j s. simpl. rewrite Hp.
    destruct (seat_index_Some _ _ _ Hidx) as (s0 & Hi & Hb).
    destruct (decide (i = j)) as [<-|Hij].
    + rewrite list_lookup_alter_eq, Hi. intros [= <-]. by left.
    + rewrite list_lookup_alter_ne by done. intros Hj.
      apply (Hother j s Hj). intros Hbj. apply Hij.
      eapply (wf_unique _ Hwf i j s0 s k); [done|done|done|]. apply bound_to_true; eauto.
  - destruct (reset_keys l rt0) as [rt2 failed] eqn:Hl. intros [= <- ->].
    apply (IH rt0); [done| |exact Hl]. intros i s Hi. apply (Hother i s Hi).
    by apply (slot_none_unbound _ _ Hsl i).
Qed.


(** ** The runtime's invariant *)

(** What holds whatever the devices do. *)
Record core rt : Prop := {
  core_wf : pool_wf (pool rt);
  core_mirror : forall l t, mirror rt = Some (l, t) -> session (pool rt) = Some l;
  core_route : game_route rt = true -> is_Some (session (pool rt));
  core_remote : forall l c n, is_Some (sources rt !! KRemote l c n) -> mirror_launch rt = Some l;
  core_feedback : Z.of_nat (length (feedback rt)) <= MAX_REMOTE_EVENTS;
  core_events : events_ok (sources rt);
}.

(** What holds until a device failure is latched. A lost feedback event opens
    the gate until the coordinator is declared lost. *)
Definition live rt : Prop :=
  faulted rt = false -> coherent (pool rt) /\ (feedback_failed rt = false -> gate rt).

Definition inv rt : Prop := core rt /\ live rt.

Definition remote_within rt rt' : Prop :=
  forall l c n, is_Some (sources rt' !! KRemote l c n) ->
    is_Some (sources rt !! KRemote l c n) \/ mirror_launch rt = Some l.

Lemma remote_within_dom rt rt' : dom (sources rt') ⊆ dom (sources rt) -> remote_within rt rt'.
Proof. intros Hd l c n Hk. left. apply elem_of_dom, Hd, elem_of_dom, Hk. Qed.

Lemma core_framed rt rt' : framed rt rt' -> remote_within rt rt' -> core rt -> core rt'.
Proof.
  intros [(Hs & Hw & _) Hm Hr _ _ _ _ Hl He] Hk [Cw Cm Cr Ck Cf Ce].
  split; auto.
  - intros l t. rewrite Hm, Hs. apply Cm.
  - rewrite Hr, Hs. apply Cr.
  - intros l c n Hs'. unfold mirror_launch in *. rewrite Hm.
    destruct (Hk l c n Hs') as [?|?]; eauto.
Qed.

(** An operation that keeps the gate, and one that reports a device failure. *)
Lemma inv_framed rt rt' :
  framed rt rt' -> remote_within rt rt' -> inv rt ->
  (pool_wf (pool rt) -> gate rt -> gate rt') -> inv rt'.
Proof.
  intros Hf Hk [Hc Hl] Hg. split; [by eapply core_framed|].
  intros Hn. rewrite (fr_faulted _ _ Hf) in Hn. destruct (Hl Hn) as [Hco Hga]. split.
  - exact (framed_coherent _ _ Hf Hco).
  - intros Hff. apply Hg; [apply Hc|]. apply Hga. exact (framed_unfailed _ _ Hf Hff).
Qed.

Lemma inv_faulted rt : core rt -> inv (set_faulted true rt).
Proof. intros []. by split. Qed.

(** The state left by an operation whose caller latches a device failure. *)
Definition latched {A} (r : result SeatFailure A) rt : SeatRuntime B :=
  match r with Err FBackend => set_faulted true rt | _ => rt end.

Lemma latched_inv {A} (r : result SeatFailure A) rt rt' :
  framed rt rt' -> remote_within rt rt' -> inv rt ->
  (pool_wf (pool rt) -> gate rt -> r <> Err FBackend -> gate rt') -> inv (latched r rt').
Proof.
  intros Hf Hk Hi Hg.
  assert (Hb : r <> Err FBackend -> inv rt') by (intros ?; eapply inv_framed; eauto).
  assert (Hc : core rt') by (eapply core_framed; [done|done|apply Hi]).
  unfold latched. destruct r as [a|[]]; try (by apply Hb). by apply inv_faulted.
Qed.

Lemma gate_pool_op {A} (op : SeatPool SourceKey B -> SeatPool SourceKey B * result PoolError A) rt :
  (forall p a, op (pool rt) = (p, Ok a) -> settled (pool rt) p) ->
  (forall p e, op (pool rt) = (p, Err e) -> p = pool rt \/ exists m, e = PoolBackend m) ->
  gate rt -> (on_pool op rt).2 <> Err FBackend -> gate (on_pool op rt).1.
Proof.
  intros Hok Herr Hg. unfold on_pool. destruct (op (pool rt)) as [p [a|e]] eqn:Hop; simpl.
  - intros _. apply gate_set_pool; eauto.
  - destruct (Herr p e eq_refl) as [->|[m ->]]; [|done]. intros _. by apply gate_set_pool.
Qed.

Lemma on_pool_sources {A} (op : SeatPool SourceKey B -> SeatPool SourceKey B * result PoolError A) rt :
  sources (on_pool op rt).1 = sources rt.
Proof. unfold on_pool. by destruct (op (pool rt)). Qed.

Lemma rebalance_inv rt : inv rt -> inv (latched (rebalance rt).2 (rebalance rt).1).
Proof.
  intros Hi. apply (latched_inv _ rt); [apply rebalance_framed| |done|].
  - apply remote_within_dom. by rewrite rebalance_dom.
  - intros Hwf Hg Hne. destruct (rebalance rt) as [rt' r] eqn:E.
    by apply (rebalance_gate rt rt' r).
Qed.

Lemma resize_inv n rt :
  1 <= n <= 255 -> inv rt ->
  inv (latched (on_pool (resize n) rt).2 (on_pool (resize n) rt).1).
Proof.
  intros Hn [[Cw Cm Cr Ck Cf Ce] Hl]. unfold on_pool.
  pose proof (resize_session n (pool rt)) as Hs. pose proof (resize_wf n _ Hn Cw) as Hw.
  destruct (resize n (pool rt)) as [p [u|e]] eqn:Hr; simpl in *.
  - split; [split; simpl; try done; rewrite Hs; done|].
    intros Hf. destruct (Hl Hf) as [Hco Hg]. simpl. split.
    + eapply resize_coherent; eauto.
    + intros Hff. apply gate_set_pool; [by apply (resize_settled n _ _ u)|]. by apply Hg.
  - destruct (resize_errors _ _ _ _ Hr) as [[-> ->]|[m ->]]; simpl.
    + split; [by split|exact Hl].
    + apply inv_faulted. split; simpl; try done; by rewrite Hs.
Qed.

Lemma inv_set_recovery b rt : inv rt -> inv (set_recovery b rt).
Proof. intros [[] Hl]. split; [by split|exact Hl]. Qed.

Lemma inv_set_order o rt : inv rt -> inv (set_seat_order o rt).
Proof. intros [[] Hl]. split; [by split|exact Hl]. Qed.

Lemma release_all_errors id p q e :
  release_all id p = (q, Err e) -> q = p \/ exists m, e = PoolBackend m.
Proof.
  unfold release_all. destruct (negb _); [intros [= <- _]; by left|].
  destruct (neutralize_seats _ _ _ _) as [q' [|er ers]]; simpl; intros ?; simplify_eq. eauto.
Qed.

Lemma end_session_errors id p q e :
  end_session id p = (q, Err e) -> (q = p /\ e = StaleSession) \/ exists m, e = PoolBackend m.
Proof.
  unfold end_session. destruct (negb _); [intros [= <- <-]; by left|].
  destruct (neutralize_seats _ _ _ _) as [q' [|er ers]]; simpl; intros ?; simplify_eq. eauto.
Qed.


Lemma unbind_inv rt rt' r :
  unbind rt = (rt', r) -> inv rt ->
  inv rt' /\ mirror rt' = None /\ session (pool rt') = session (pool rt) /\
  (r = Ok () \/ faulted rt' = true).
Proof.
  intros Hu Hi. unfold unbind in Hu.
  set (rt0 := set_mirror None rt) in *.
  set (keys := keep is_remote (btree_keys (sources rt0))) in *.
  pose proof (disconnect_keys_framed keys rt0) as Hf.
  pose proof (disconnect_keys_dom keys rt0) as Hd.
  destruct (disconnect_keys keys rt0) as [rt1 failed] eqn:Hk. simpl in Hf, Hd.
  assert (Hs1 : session (pool rt1) = session (pool rt)) by apply (fr_calm _ _ Hf).
  assert (Hm1 : mirror rt1 = None) by apply (fr_mirror _ _ Hf).
  destruct Hi as [[Cw Cm Cr Ck Cf Ce] Hl].
  assert (Hno : forall l c n, sources rt1 !! KRemote l c n = None).
  { intros l c n. apply not_elem_of_dom. rewrite Hd. intros [Hin Hnot]%elem_of_difference.
    apply Hnot, elem_of_list_to_set, elem_of_keep. split; [|done].
    by apply elem_of_btree_keys, elem_of_dom. }
  assert (Hc : core rt1).
  { split.
    - exact (framed_wf _ _ Hf Cw).
    - intros l t. by rewrite Hm1.
    - rewrite (fr_route _ _ Hf), Hs1. apply Cr.
    - intros l c n. rewrite Hno. by intros [].
    - exact (fr_length _ _ Hf Cf).
    - exact (fr_events _ _ Hf Ce). }
  destruct failed; injection Hu as <- <-.
  - split; [by apply inv_faulted|]. auto.
  - split; [|by auto]. split; [done|]. intros Hn. rewrite (fr_faulted _ _ Hf) in Hn.
    destruct (Hl Hn) as [Hco Hg]. split; [exact (framed_coherent _ _ Hf Hco)|]. intros Hff.
    apply (disconnect_keys_gate keys rt0 rt1); [exact Cw| |exact Hk].
    apply (gate_ext rt); [done..|]. apply Hg. exact (framed_unfailed _ _ Hf Hff).
Qed.

Lemma set_route_inv g rt rt' r :
  set_route g rt = (rt', r) -> inv rt -> (g = true -> is_Some (session (pool rt))) ->
  inv (latched r rt') /\ mirror rt' = mirror rt /\ session (pool rt') = session (pool rt) /\
  (r = Ok () -> game_route rt' = g).
Proof.
  intros Hset Hi Hg. pose proof (set_route_gate g rt rt' r Hset) as Hn.
  pose proof (neutralize_calm (pool rt)) as (Hs & Hw & Hc).
  destruct Hi as [[Cw Cm Cr Ck Cf Ce] Hl].
  unfold set_route, on_pool in Hset. simpl in Hset.
  destruct (neutralize (pool rt)) as [p [[]|e]] eqn:Hne; simpl in *.
  - injection Hset as <- <-. split; [|by auto]. simpl. split.
    + split; simpl; auto; try (by rewrite Hs).
      * intros l c n. rewrite lookup_fmap. intros [s Hs'].
        apply fmap_Some in Hs' as (s0 & Hs0 & _). apply (Ck l c n). eauto.
      * by apply events_fmap.
    + intros Hf. destruct (Hl Hf) as [Hco _]. split; [by apply Hc|]. intros _.
      apply all_neutral_gate. by apply Hn.
  - injection Hset as <- <-. destruct (neutralize_errors _ _ _ Hne) as [m ->]. simpl.
    split; [|by auto]. apply inv_faulted. split; simpl; auto; try (by rewrite Hs).
    + intros l c n. rewrite lookup_fmap. intros [s Hs'].
      apply fmap_Some in Hs' as (s0 & Hs0 & _). apply (Ck l c n). eauto.
    + by apply events_fmap.
Qed.

Lemma begin_session_inv id rt rt' r :
  on_pool (begin_session id) rt = (rt', r) -> inv rt -> inv (latched r rt').
Proof.
  intros Hop [[Cw Cm Cr Ck Cf Ce] Hl]. unfold on_pool in Hop.
  assert (Hsame : inv (set_pool (pool rt) rt)) by (split; [by split|exact Hl]).
  unfold begin_session in Hop.
  destruct (validate_launch_id id); [|by injection Hop as <- <-].
  destruct (session (pool rt)) as [s|] eqn:Hs; simpl in Hop; injection Hop as <- <-; [done|].
  split.
  - split; simpl; auto.
    + destruct Cw. by split.
    + intros l t Hm. apply Cm in Hm. done.
  - intros Hf. destruct (Hl Hf) as [Hco Hg]. split; [by apply with_session_coherent|].
    intros Hff. apply gate_set_pool; [|by apply Hg]. intros i s Hi. by right.
Qed.

Lemma pool_op_inv {A} (op : SeatPool SourceKey B -> SeatPool SourceKey B * result PoolError A) rt :
  calm (pool rt) (op (pool rt)).1 ->
  (pool_wf (pool rt) -> forall p a, op (pool rt) = (p, Ok a) -> settled (pool rt) p) ->
  (pool_wf (pool rt) -> forall p e, op (pool rt) = (p, Err e) ->
     p = pool rt \/ exists m, e = PoolBackend m) ->
  inv rt -> inv (latched (on_pool op rt).2 (on_pool op rt).1).
Proof.
  intros Hcalm Hok Herr Hi. apply (latched_inv _ rt); [by apply on_pool_framed| |done|].
  - apply remote_within_dom. by rewrite on_pool_sources.
  - intros Hwf Hg. exact (gate_pool_op op rt (Hok Hwf) (Herr Hwf) Hg).
Qed.

Lemma apply_count_inv n rt rt' r :
  in_u8 n -> apply_count n rt = (rt', r) -> inv rt -> inv (latched r rt').
Proof.
  intros Hn Ha Hi. unfold apply_count in Ha. unfold in_u8 in Hn.
  destruct (Z.eqb_spec n 0); [by injection Ha as <- <-|].
  pose proof (resize_inv n rt ltac:(lia) Hi) as H1.
  destruct (on_pool (resize n) rt) as [rt1 [u|e]]; simpl in H1; [|by injection Ha as <- <-].
  pose proof (rebalance_inv rt1 H1) as H2.
  destruct (rebalance rt1) as [rt2 [u2|e]]; simpl in H2; injection Ha as <- <-; [|done].
  by apply inv_set_recovery.
Qed.

Lemma begin_session_request_inv id order rt rt' r :
  begin_session_request id order rt = (rt', r) -> inv rt -> inv (latched r rt').
Proof.
  intros Ha Hi. unfold begin_session_request in Ha.
  destruct (is_err (validate_launch_id id)); [by injection Ha as <- <-|].
  destruct (recovery_required rt && _).
  { injection Ha as <- <-. by apply inv_set_recovery, inv_set_order. }
  unfold require_ready in Ha. destruct (_ || _); [by injection Ha as <- <-|].
  destruct (on_pool (begin_session id) rt) as [rt1 [u|e]] eqn:Hb;
    pose proof (begin_session_inv _ _ _ _ Hb Hi) as H1; [|by injection Ha as <- <-].
  simpl in H1. apply (inv_set_order order) in H1.
  destruct (bool_decide (order = FirstPress)); [|by injection Ha as <- <-].
  pose proof (pool_op_inv (release_all id) _ (release_all_calm _ _)
    (fun _ => release_all_settled id _) (fun _ => release_all_errors id _) H1) as H2.
  destruct (on_pool (release_all id) _) as [rt2 [u2|e]]; by injection Ha as <- <-.
Qed.

Lemma reserve_netplay_inv id key rt rt' r :
  reserve_netplay id key rt = (rt', r) -> inv rt -> inv (latched r rt').
Proof.
  intros Ha Hi. unfold reserve_netplay, require_ready in Ha.
  destruct (recovery_required rt || _ || _); [by injection Ha as <- <-|].
  destruct (negb _ || _); [by injection Ha as <- <-|].
  destruct (negb _); [by injection Ha as <- <-|].
  destruct (has_binding _ _); [by injection Ha as <- <-|].
  pose proof (pool_op_inv (reserve id (KNetplay key)) rt (reserve_calm _ _ _)) as H1.
  destruct (on_pool (reserve id (KNetplay key)) rt) as [rt1 [u|e]]; injection Ha as <- <-;
    (apply H1; [|intros Hwf p e' He'|done]).
  1,3: intros Hwf p n; by apply reserve_settled.
  all: destruct (reserve_errors _ _ _ _ _ Hwf He') as [[_ ->]|?]; eauto.
Qed.

Lemma end_session_request_inv id rt rt' r :
  end_session_request id rt = (rt', r) -> inv rt -> inv (latched r rt').
Proof.
  intros Ha Hi. unfold end_session_request in Ha.
  destruct (negb _); [by injection Ha as <- <-|]. unfold on_err in Ha.
  destruct (unbind rt) as [rt1 r1] eqn:Hu.
  destruct (unbind_inv _ _ _ Hu Hi) as (H1 & Hm1 & _ & _). simpl in Ha.
  destruct r1 as [u|e]; simpl in Ha; [|injection Ha as <- <-; apply inv_faulted, H1].
  destruct (set_route false rt1) as [rt2 r2] eqn:Hr.
  destruct (set_route_inv _ _ _ _ Hr H1) as (H2 & Hm2 & _ & Hg2); [done|].
  destruct r2 as [[]|e]; [|by injection Ha as <- <-]. simpl in H2. specialize (Hg2 eq_refl).
  assert (H3 : forall rt3 r3, on_pool (end_session id) rt2 = (rt3, r3) -> inv (latched r3 rt3)).
  { intros rt3 r3. destruct H2 as [[Cw Cm Cr Ck Cf Ce] Hl]. unfold on_pool.
    pose proof (end_session_le id (pool rt2)) as Hle.
    pose proof (end_session_coherent id (pool rt2)) as Hco.
    destruct (end_session id (pool rt2)) as [p re] eqn:He. intros [= <- <-].
    assert (Hc : core (set_pool p rt2)).
    { split; simpl; auto.
      - by eapply pool_le_wf.
      - intros l t. rewrite Hm2, Hm1. done.
      - by rewrite Hg2. }
    destruct re as [u3|e]; simpl.
    - split; [done|]. intros Hf. destruct (Hl Hf) as [Hco2 Hga]. split; [by apply Hco|].
      intros Hff. apply gate_set_pool; [by eapply end_session_settled|]. by apply Hga.
    - destruct (end_session_errors _ _ _ _ He) as [[-> ->]|[m ->]]; simpl.
      + split; [done|exact Hl].
      + by apply inv_faulted. }
  destruct (on_pool (end_session id) rt2) as [rt3 r3]. specialize (H3 _ _ eq_refl).
  destruct r3 as [u3|e]; [|by injection Ha as <- <-]. simpl in H3.
  apply (inv_set_order Attached), rebalance_inv in H3.
  destruct (rebalance _) as [rt4 [u4|e]]; by injection Ha as <- <-.
Qed.


Lemma connect_source_dom k st now has rt :
  dom (sources (connect_source k st now has rt).1) ⊆ {[k]} ∪ dom (sources rt).
Proof.
  unfold connect_source.
  destruct (first_press rt && is_none (slot_of k (pool rt))); simpl.
  { by rewrite dom_insert_L. }
  pose proof (try_connect_sources k rt) as Hs.
  destruct (try_connect k rt) as [rt1 [o|e]]; simpl in *; rewrite ?dom_insert_L, Hs; set_solver.
Qed.

Lemma forward_state_sources k st rt : sources (forward_state k st rt).1 = sources rt.
Proof.
  unfold forward_state.
  assert (Hw : forall rt1 n, sources match on_pool (write_state k st) rt1 with
                 | (rt2, Ok _) => (rt2, Ok (Some n))
                 | (rt2, Err e) => (rt2, @Err SeatFailure (option Z) e)
                 end.1 = sources rt1).
  { intros rt1 n. rewrite <- (on_pool_sources (write_state k st) rt1).
    by destruct (on_pool (write_state k st) rt1) as [rt2 []]. }
  pose proof (try_connect_sources k rt) as Ht.
  destruct (is_none _ && _ && _).
  - destruct (try_connect k rt) as [rt1 [[n|]|e]]; [|done..]. simpl in Ht. by rewrite Hw.
  - by destruct (slot_of k (pool rt)).
Qed.

Lemma update_source_dom k st now rt : dom (sources (update_source k st now rt).1) = dom (sources rt).
Proof.
  unfold update_source. destruct (sources rt !! k) as [s|] eqn:Hs; [|done].
  assert (Hi : forall s', dom (<[k := s']> (sources rt)) = dom (sources rt)).
  { intros s'. rewrite dom_insert_L. apply elem_of_dom_2 in Hs. set_solver. }
  destruct (admit_frame k now s) as [s' []]; [apply Hi|].
  destruct (negb _); [apply Hi|]. simpl.
  destruct (requires_neutral s').
  { destruct (is_neutral_for_rearm st); simpl; rewrite ?dom_alter_L; apply Hi. }
  rewrite forward_state_sources. apply Hi.
Qed.

Lemma update_source_inv k st now rt rt' r :
  update_source k st now rt = (rt', r) -> inv rt -> inv (latched r rt').
Proof.
  intros Hu Hi. pose proof (update_source_framed k st now rt) as Hf.
  pose proof (update_source_dom k st now rt) as Hd. rewrite Hu in Hf, Hd. simpl in *.
  apply (latched_inv _ rt); [done| |done|].
  - apply remote_within_dom. by rewrite Hd.
  - intros Hwf Hg. by apply (update_source_gate k st now rt).
Qed.

Lemma disconnect_source_inv k rt rt' r :
  disconnect_source k rt = (rt', r) -> inv rt -> inv (latched r rt').
Proof.
  intros Hu Hi. pose proof (disconnect_source_framed k rt) as Hf.
  pose proof (disconnect_source_dom k rt) as Hd. rewrite Hu in Hf, Hd. simpl in *.
  apply (latched_inv _ rt); [done| |done|].
  - apply remote_within_dom. rewrite Hd. set_solver.
  - intros Hwf Hg. by apply (disconnect_source_gate k rt).
Qed.

(** A new source of a key the mirror may name. *)
Definition admissible k rt : Prop :=
  sources rt !! k = None /\ forall l c n, k = KRemote l c n -> mirror_launch rt = Some l.

Lemma connect_source_inv k st now has rt rt' r :
  admissible k rt -> connect_source k st now has rt = (rt', r) -> inv rt -> inv (latched r rt').
Proof.
  intros [Hk Hm] Hu Hi. pose proof (connect_source_framed k st now has rt) as Hf.
  pose proof (connect_source_dom k st now has rt) as Hd. rewrite Hu in Hf, Hd. simpl in *.
  apply (latched_inv _ rt); [done| |done|].
  - intros l c n Hin. apply elem_of_dom in Hin. apply Hd in Hin.
    apply elem_of_union in Hin as [Heq|Hin]; [|left; by apply elem_of_dom].
    right. apply elem_of_singleton in Heq. eauto.
  - intros Hwf Hg Hne. by apply (connect_source_gate k st now has rt rt' r).
Qed.

Lemma physical_connected_inv d n st now rt rt' r :
  physical_connected d n st now rt = (rt', r) -> inv rt -> inv (latched r rt').
Proof.
  intros Ha Hi. unfold physical_connected, require_ready in Ha.
  destruct (recovery_required rt || _ || _); [by injection Ha as <- <-|].
  destruct (negb _ || _ || _); [by injection Ha as <- <-|].
  destruct (sources rt !! KPhysical d) as [s|] eqn:Hk; simpl in Ha; [by injection Ha as <- <-|].
  destruct (_ <=? _); [by injection Ha as <- <-|].
  destruct (connect_source (KPhysical d) st now true rt) as [rt1 [o|e]] eqn:Hc.
  2:{ injection Ha as <- <-. apply (connect_source_inv (KPhysical d) st now true rt); [|done..].
      split; [done|]. by intros. }
  injection Ha as <- <-. pose proof (connect_source_framed (KPhysical d) st now true rt) as Hf.
  pose proof (connect_source_dom (KPhysical d) st now true rt) as Hd.
  rewrite Hc in Hf, Hd. simpl in Hf, Hd.
  apply (inv_framed rt); [etrans; [exact Hf|apply framed_update_src]| |done|].
  - intros l c m Hin. left. apply elem_of_dom in Hin. simpl in Hin. rewrite dom_alter_L in Hin.
    apply elem_of_dom. set_solver.
  - intros Hwf Hg.
    destruct (connect_source_gate _ _ _ _ _ _ _ Hwf Hg Hk Hc) as [Hg1 Hn1]; [done|].
    apply (gate_set_sources (KPhysical d)); [|done|done]. intros k ?. by apply lookup_alter_ne.
Qed.

Definition request_in_range (request : SeatRequest) : Prop :=
  match request with
  | ApplyCount count => in_u8 count
  | PhysicalConnected _ _ state | PhysicalState _ state => pad_in_range state
  | _ => True
  end.

Lemma apply_inv request now rt rt' r :
  request_in_range request -> apply request now rt = (rt', r) -> inv rt -> inv (latched r rt').
Proof.
  intros Hq Ha Hi. unfold apply in Ha. destruct (faulted rt) eqn:Hf.
  { injection Ha as <- <-. apply inv_faulted, Hi. }
  destruct request as [| |n|id order|id key|id|id|d nm st|d st|d].
  - by injection Ha as <- <-.
  - by injection Ha as <- <-.
  - by apply (apply_count_inv n rt).
  - by apply (begin_session_request_inv id order rt).
  - by apply (reserve_netplay_inv id key rt).
  - by apply (end_session_request_inv id rt).
  - unfold route_request, require_ready in Ha. destruct (recovery_required rt || _ || _);
      [by injection Ha as <- <-|].
    destruct (is_some_and id _) eqn:Hid; [by injection Ha as <- <-|].
    destruct (set_route (is_some id) rt) as [rt1 r1] eqn:Hr.
    destruct (set_route_inv _ _ _ _ Hr Hi) as (H1 & _).
    { destruct id as [id|]; [|done]. simpl in Hid. intros _.
      apply negb_false_iff, bool_decide_eq_true in Hid. eauto. }
    destruct r1 as [u|e]; by injection Ha as <- <-.
  - by apply (physical_connected_inv d nm st now rt).
  - unfold require_ready in Ha. destruct (recovery_required rt || _ || _);
      [by injection Ha as <- <-|].
    destruct (negb _); [by injection Ha as <- <-|]. by apply (update_source_inv _ _ _ _ _ _ Ha).
  - unfold require_ready in Ha. destruct (recovery_required rt || _ || _);
      [by injection Ha as <- <-|].
    destruct (disconnect_source (KPhysical d) rt) as [rt1 r1] eqn:Hd.
    pose proof (disconnect_source_inv _ _ _ _ Hd Hi) as H1.
    destruct r1; by injection Ha as <- <-.
Qed.

Lemma core_take_feedback rt : core rt -> core (set_feedback (feedback_failed rt) [] rt).
Proof. intros []. split; simpl; try done. Qed.

Lemma inv_take_feedback rt : inv rt -> inv (set_feedback (feedback_failed rt) [] rt).
Proof. intros [Hc Hl]. split; [by apply core_take_feedback|exact Hl]. Qed.

Lemma coordinate_inv request now rt :
  request_in_range request -> inv rt -> inv (coordinate request now rt).1.
Proof.
  intros Hq Hi. unfold coordinate. destruct (apply request now rt) as [rt1 r] eqn:Ha.
  pose proof (apply_inv _ _ _ _ _ Hq Ha Hi) as H1.
  assert (Hc : core rt1) by (destruct r as [o|[]]; destruct H1 as [[] _]; by split).
  assert (Hb : inv (set_recovery true (set_faulted true rt1))).
  { by apply inv_set_recovery, inv_faulted. }
  destruct (occupied_event_devices is_physical (pool rt1)) as [paths|e]; simpl.
  - destruct r as [o|[]]; first [exact (inv_take_feedback _ Hb)|exact (inv_take_feedback _ H1)].
  - exact (inv_take_feedback _ Hb).
Qed.

Definition lost_start rt : SeatRuntime B :=
  set_mirror None (set_game_route false (set_recovery true rt)).

Lemma coordinator_lost_cases rt rt' r :
  coordinator_lost rt = (rt', r) ->
  exists rt2, framed (lost_start rt) rt2 /\ sources rt2 = ∅ /\
    match r with
    | Ok _ => rt' = set_feedback false [] rt2 /\
        forall i s, seats (pool rt2) !! i = Some s -> known_state s = Some neutral
    | Err _ => rt' = set_faulted true (set_feedback false [] rt2)
    end.
Proof.
  unfold coordinator_lost. fold (lost_start rt).
  set (rt0 := lost_start rt). set (keys := btree_keys (sources rt0)).
  pose proof (disconnect_keys_framed keys rt0) as Hf.
  pose proof (disconnect_keys_dom keys rt0) as Hd.
  destruct (disconnect_keys keys rt0) as [rt1 failed]. simpl in Hf, Hd.
  assert (Hno : sources rt1 = ∅).
  { apply dom_empty_inv_L. rewrite Hd. apply elem_of_equiv_empty_L.
    intros k [Hin Hnot]%elem_of_difference.
    apply Hnot, elem_of_list_to_set, elem_of_btree_keys, elem_of_dom, Hin. }
  pose proof (on_pool_framed neutralize rt1 (neutralize_calm _)) as Hf2.
  pose proof (on_pool_sources neutralize rt1) as Hs2. unfold on_pool in *.
  destruct (neutralize (pool rt1)) as [p r2] eqn:Hn. simpl in *.
  intros Hr. exists (set_pool p rt1). split; [by etrans|]. split; [done|].
  destruct (failed || is_err (map_err pool_failure r2)) eqn:Hfail; injection Hr as <- <-; [done|].
  split; [done|]. apply orb_false_elim in Hfail as [_ Hr2]. destruct r2 as [u|e]; [|done].
  exact (neutralize_ok _ _ _ Hn).
Qed.

Lemma coordinator_lost_inv rt : inv rt -> inv (coordinator_lost rt).1.
Proof.
  intros [[Cw Cm Cr Ck Cf Ce] Hl]. destruct (coordinator_lost rt) as [rt' r] eqn:Hlost.
  apply coordinator_lost_cases in Hlost as (rt2 & Hf & Hs & Hr).
  assert (Hc : core (set_feedback false [] rt2)).
  { split; simpl; [exact (framed_wf _ _ Hf Cw)| | | |done|].
    - intros l t. by rewrite (fr_mirror _ _ Hf).
    - by rewrite (fr_route _ _ Hf).
    - intros l c n. rewrite Hs, lookup_empty. by intros [].
    - rewrite Hs. intros k s. by rewrite lookup_empty. }
  destruct r as [u|e]; simpl; [|subst rt'; by apply inv_faulted].
  destruct Hr as [-> Hn]. split; [done|]. intros Hfa. simpl in Hfa. rewrite (fr_faulted _ _ Hf) in Hfa.
  destruct (Hl Hfa) as [Hco _]. split; [exact (framed_coherent _ _ Hf Hco)|]. intros _.
  by apply all_neutral_gate.
Qed.

Lemma bind_inv id tok rt : inv rt -> inv (bind id tok rt).1.
Proof.
  intros Hi. unfold bind. destruct (require_ready rt); [|done].
  destruct (validate_launch_id id); [|done]. destruct (validate_token tok); [|done].
  destruct (bool_decide (session (pool rt) = Some id)) eqn:Hs; simpl; [|done].
  destruct (mirror rt) as [m|] eqn:Hm; simpl; [done|].
  apply bool_decide_eq_true in Hs. destruct Hi as [[Cw Cm Cr Ck Cf Ce] Hl].
  split; [|exact Hl]. split; simpl; try done.
  - intros l t [= <- <-]. done.
  - intros l c n Hk. specialize (Ck l c n Hk). unfold mirror_launch in Ck. by rewrite Hm in Ck.
Qed.

Lemma reset_mirror_inv id rt : inv rt -> inv (reset_mirror id rt).1.
Proof.
  intros Hi. unfold reset_mirror. destruct (faulted rt) eqn:Hfa; [done|].
  destruct (negb _); [done|]. set (keys := keep is_remote _).
  pose proof (reset_keys_framed keys rt) as Hf. pose proof (reset_keys_dom keys rt) as Hd.
  destruct (reset_keys keys rt) as [rt1 failed] eqn:Hk. simpl in Hf, Hd.
  assert (Hw : remote_within rt rt1) by (apply remote_within_dom; by rewrite Hd).
  destruct failed; simpl.
  - apply inv_faulted. by eapply core_framed; [| |apply Hi].
  - apply (inv_framed rt); [done..|]. intros Hwf Hg. by apply (reset_keys_gate keys rt).
Qed.

Lemma expire_keys_inv l rt : inv rt -> inv (expire_keys l rt).1.
Proof.
  revert rt; induction l as [|k l IH]; intros rt Hi; simpl; [done|].
  destruct (disconnect_source k rt) as [rt1 r1] eqn:Hd.
  pose proof (disconnect_source_inv _ _ _ _ Hd Hi) as H1.
  destruct r1 as [u|e]; simpl; [by apply IH|].
  apply inv_faulted. destruct e; destruct H1 as [[] _]; by split.
Qed.

Lemma expire_stale_inv now rt : inv rt -> inv (expire_stale now rt).1.
Proof.
  intros Hi. unfold expire_stale. set (keys := fst <$> _).
  pose proof (expire_keys_inv keys rt Hi) as H1. by destruct (expire_keys keys rt) as [rt1 []].
Qed.

Lemma latched_core {A} (r : result SeatFailure A) rt : inv (latched r rt) -> core rt.
Proof. intros [Hc _]. destruct r as [a|[]]; try done. destruct Hc. by split. Qed.

Lemma inv_push e rt : inv rt -> inv (push_feedback e rt).
Proof.
  intros Hi. apply (inv_framed rt); [apply framed_push| |done|].
  - apply remote_within_dom. unfold push_feedback. by destruct (_ <=? _).
  - intros _. apply gate_ext; unfold push_feedback; by destruct (_ <=? _).
Qed.

Lemma latched_push {A} e (r : result SeatFailure A) rt :
  inv (latched r rt) -> inv (latched r (push_feedback e rt)).
Proof.
  intros Hi. destruct r as [a|[]]; simpl in *; try (by apply inv_push).
  apply inv_faulted. eapply (core_framed rt); [apply framed_push| |apply (latched_core (A:=A) (Err FBackend)), Hi].
  apply remote_within_dom. unfold push_feedback. by destruct (_ <=? _).
Qed.

Lemma deliver_inv k st now rt rt' r :
  deliver k st now rt = (rt', r) -> inv rt -> inv (latched r rt').
Proof.
  intros Hd Hi. unfold deliver in Hd.
  destruct (update_source k st now rt) as [rt1 r1] eqn:Hu.
  pose proof (update_source_inv _ _ _ _ _ _ Hu Hi) as H1.
  destruct (is_ok r1 && _); [|by injection Hd as <- <-].
  destruct (remote_source k rt1); injection Hd as <- <-; [|done]. by apply latched_push.
Qed.

Lemma accept_frame_inv k st d now rt rt' r :
  (forall l c n, k = KRemote l c n -> mirror_launch rt = Some l) ->
  accept_frame k st d now rt = (rt', r) -> inv rt -> inv (latched r rt').
Proof.
  intros Hm Ha Hi. unfold accept_frame in Ha. destruct d.
  - destruct (disconnect_source k rt) as [rt1 r1] eqn:Hd.
    pose proof (disconnect_source_inv _ _ _ _ Hd Hi) as H1. destruct r1; by injection Ha as <- <-.
  - destruct (sources rt !! k) as [s|] eqn:Hk; simpl in Ha.
    + destruct st as [st|]; [by apply (deliver_inv k st now rt)|by injection Ha as <- <-].
    + destruct (connect_source k neutral now false rt) as [rt1 r1] eqn:Hc.
      pose proof (connect_source_inv _ _ _ _ _ _ _ (conj Hk Hm) Hc Hi) as H1.
      destruct r1 as [o|e]; [|by injection Ha as <- <-].
      destruct st as [st|]; [by apply (deliver_inv k st now rt1)|by injection Ha as <- <-].
Qed.



Lemma deliver_framed k st now rt : framed rt (deliver k st now rt).1.
Proof.
  unfold deliver. pose proof (update_source_framed k st now rt) as Hf.
  destruct (update_source k st now rt) as [rt1 r1].
  destruct (is_ok r1 && _); [|done]. destruct (remote_source k rt1); [|done].
  etrans; [exact Hf|apply framed_push].
Qed.

Lemma accept_frame_framed k st d now rt : framed rt (accept_frame k st d now rt).1.
Proof.
  unfold accept_frame. destruct d.
  { pose proof (disconnect_source_framed k rt). by destruct (disconnect_source k rt) as [rt1 []]. }
  destruct (is_some (sources rt !! k)).
  { destruct st; [apply deliver_framed|done]. }
  pose proof (connect_source_framed k neutral now false rt) as Hf.
  destruct (connect_source k neutral now false rt) as [rt1 [o|e]]; [|done].
  destruct st; [|done]. etrans; [exact Hf|apply deliver_framed].
Qed.

Lemma accept_inv parse packet now rt : inv rt -> inv (accept parse packet now rt).1.
Proof.
  intros Hi. unfold accept. destruct (faulted rt) eqn:Hfa; [done|].
  destruct (feedback_failed rt); [done|].
  destruct (mirror rt) as [[launch token]|] eqn:Hm; [|done].
  destruct (decode_envelope parse packet) as [env|]; [|done].
  do 3 (destruct (negb _); [done|]).
  destruct (decode_frame (frame env)) as [[[n st] d]|]; [|done].
  destruct (15 <? n); [done|].
  set (k := KRemote launch (frame_client_id (frame env)) n).
  pose proof (accept_frame_framed k st d now rt) as Hf.
  destruct (accept_frame k st d now rt) as [rt1 r1] eqn:Ha. simpl in Hf.
  assert (H1 : inv (latched r1 rt1)).
  { eapply accept_frame_inv; [|exact Ha|done]. intros l c m [= -> _ _].
    unfold mirror_launch. by rewrite Hm. }
  destruct (feedback_failed rt1) eqn:Hff; simpl.
  - split; [by eapply latched_core|]. intros _. split; [|congruence].
    apply (framed_coherent rt); [done|]. by apply Hi.
  - pose proof (latched_core _ _ H1) as Hc.
    destruct r1 as [[s|]|[]]; simpl; try done; by apply inv_faulted.
Qed.

Lemma boot_inv b rt : boot b = Ok rt -> inv rt.
Proof.
  unfold boot. destruct (pool_new DEFAULT_SEAT_COUNT b) as [p|e] eqn:Hp; [|done].
  intros [= <-]. assert (Hr : 1 <= DEFAULT_SEAT_COUNT <= 255) by (by unfold DEFAULT_SEAT_COUNT, MAX_SEATS).
  pose proof (pool_new_coherent _ _ _ Hr Hp) as Hc. split.
  - split; simpl; try done; [apply Hc|].
    intros l c n. rewrite lookup_empty. by intros [].
  - intros _. split; [done|]. intros _. apply all_neutral_gate. simpl.
    exact (pool_new_neutral _ _ _ Hp).
Qed.

End theory.

(** ** Reachable runtimes *)

Section reachable.
Context {B : Type} `{SeatBackendLaws B}.
Implicit Types rt : SeatRuntime B.

(** One call of the receiver. *)
Inductive rt_step parse rt : SeatRuntime B -> Prop :=
| st_coordinate request now :
    request_in_range request -> rt_step parse rt (coordinate request now rt).1
| st_bind launch_id token : rt_step parse rt (bind launch_id token rt).1
| st_unbind : rt_step parse rt (unbind rt).1
| st_lost : rt_step parse rt (coordinator_lost rt).1
| st_reset launch_id : rt_step parse rt (reset_mirror launch_id rt).1
| st_accept packet now : rt_step parse rt (accept parse packet now rt).1
| st_expire now : rt_step parse rt (expire_stale now rt).1.

Inductive rt_reachable parse : SeatRuntime B -> Prop :=
| rr_boot b rt : boot b = Ok rt -> rt_reachable parse rt
| rr_step rt rt' : rt_reachable parse rt -> rt_step parse rt rt' -> rt_reachable parse rt'.

Lemma reachable_inv parse rt : rt_reachable parse rt -> inv rt.
Proof.
  induction 1 as [b rt Hb|rt rt' _ IH Hs]; [by eapply boot_inv|].
  destruct Hs; [by apply coordinate_inv|by apply bind_inv| |by apply coordinator_lost_inv|
    by apply reset_mirror_inv|by apply accept_inv|by apply expire_stale_inv].
  destruct (unbind rt) as [rt1 r] eqn:Hu. by destruct (unbind_inv _ _ _ Hu IH).
Qed.

(** What the invariant says of a device. *)
Lemma inv_authorized rt i s :
  inv rt -> faulted rt = false -> feedback_failed rt = false ->
  seats (pool rt) !! i = Some s ->
  be_device (backend (pool rt)) (seat_slot s) = Some neutral \/
  game_route rt = true /\ is_Some (session (pool rt)) /\
  exists key src, binding s = Some (MkBinding key true) /\ sources rt !! key = Some src /\
    requires_neutral src = false /\
    be_device (backend (pool rt)) (seat_slot s) = Some (src_state src).
Proof.
  intros [Hc Hl] Hf Hff Hi.
  destruct (Hl Hf) as [[_ Hd] Hg].
  destruct (Hg Hff i s Hi) as [Hn|(Hro & key & src & Hb & Hk & Hn & Hst)].
  - left. by apply (Hd i s).
  - right. split; [done|]. split; [by apply Hc|]. exists key, src. repeat split; try done.
    by apply (Hd i s).
Qed.

(** Input reaches a game only from an armed controller of the session that
    has the route. While no failure is latched, the device of every seat is
    neutral, unless the route is on a session, the seat is bound to a connected
    source that was seen neutral since the route was set, and the device holds
    exactly that source's last state. *)
Theorem device_state_authorized parse rt i s :
  rt_reachable parse rt -> faulted rt = false -> feedback_failed rt = false ->
  seats (pool rt) !! i = Some s ->
  be_device (backend (pool rt)) (seat_slot s) = Some neutral \/
  game_route rt = true /\ is_Some (session (pool rt)) /\
  exists key src, binding s = Some (MkBinding key true) /\ sources rt !! key = Some src /\
    requires_neutral src = false /\
    be_device (backend (pool rt)) (seat_slot s) = Some (src_state src).
Proof.
  intros Hr. by apply inv_authorized, (reachable_inv parse).
Qed.

(** The mirror speaks only for the session the pool is in: its launch is the
    pool's session, and every remote controller the runtime knows belongs to it.
    After [unbind] no remote controller is left. *)
Theorem mirror_within_session parse rt :
  rt_reachable parse rt ->
  (forall l t, mirror rt = Some (l, t) -> session (pool rt) = Some l) /\
  (forall l c n, is_Some (sources rt !! KRemote l c n) -> mirror_launch rt = Some l) /\
  (forall l c n, sources (unbind rt).1 !! KRemote l c n = None).
Proof.
  intros Hr. pose proof (reachable_inv _ _ Hr) as Hi. destruct (Hi) as [Hc _].
  split; [apply Hc|]. split; [apply Hc|]. intros l c n.
  destruct (unbind rt) as [rt1 r] eqn:Hu.
  destruct (unbind_inv _ _ _ Hu Hi) as ([Hc1 _] & Hm1 & _).
  destruct (sources rt1 !! KRemote l c n) eqn:Hk; [|done].
  pose proof (core_remote _ Hc1 l c n ltac:(eauto)) as Hml.
  unfold mirror_launch in Hml. by rewrite Hm1 in Hml.
Qed.

(** The feedback queue never exceeds its limit, and the frame counter of a
    source never leaves its budget, so the [u16] it is kept in cannot overflow. *)
Theorem runtime_bounds parse rt :
  rt_reachable parse rt ->
  Z.of_nat (length (feedback rt)) <= MAX_REMOTE_EVENTS /\
  forall k s, sources rt !! k = Some s ->
    0 <= events_in_window s <= MAX_EVENTS_PER_SECOND /\ in_u16 (events_in_window s + 1).
Proof.
  intros Hr. destruct (reachable_inv _ _ Hr) as [Hc _]. split; [apply Hc|].
  intros k s Hk. pose proof (core_events _ Hc k s Hk) as He.
  unfold in_u16, MAX_EVENTS_PER_SECOND in *. lia.
Qed.

(** What a successful loss leaves, from the invariant. *)
Lemma lost_silences rt rt' :
  inv rt -> faulted rt = false -> coordinator_lost rt = (rt', Ok ()) ->
  sources rt' = ∅ /\ mirror rt' = None /\ game_route rt' = false /\ feedback rt' = [] /\
  feedback_failed rt' = false /\ recovery_required rt' = true /\
  session (pool rt') = session (pool rt) /\
  forall i s, seats (pool rt') !! i = Some s ->
    be_device (backend (pool rt')) (seat_slot s) = Some neutral.
Proof.
  intros [_ Hl] Hf Hlost.
  apply coordinator_lost_cases in Hlost as (rt2 & Hf2 & Hs & -> & Hn).
  destruct (Hl Hf) as [Hco _]. pose proof (framed_coherent _ _ Hf2 Hco) as [_ Hd]. simpl.
  split_and!; try done.
  - apply (fr_mirror _ _ Hf2).
  - apply (fr_route _ _ Hf2).
  - apply (fr_recovery _ _ Hf2).
  - apply (fr_calm _ _ Hf2).
  - intros i s Hi. apply (Hd i s); [done|]. by apply (Hn i).
Qed.

(** Losing the coordinator silences the seats: whatever happened before, when
    it succeeds every device is neutral, no controller, mirror, feedback or route
    is left and the coordinator has to recover. The session survives. *)
Theorem coordinator_lost_silences parse rt rt' :
  rt_reachable parse rt -> faulted rt = false -> coordinator_lost rt = (rt', Ok ()) ->
  sources rt' = ∅ /\ mirror rt' = None /\ game_route rt' = false /\ feedback rt' = [] /\
  feedback_failed rt' = false /\ recovery_required rt' = true /\
  session (pool rt') = session (pool rt) /\
  forall i s, seats (pool rt') !! i = Some s ->
    be_device (backend (pool rt')) (seat_slot s) = Some neutral.
Proof.
  intros Hr. by apply lost_silences, (reachable_inv parse).
Qed.
End reachable.

(** ** Frames and tokens *)

Lemma fold_lor_zero (f : nat -> Z) l d :
  fold_left (fun d i => Z.lor d (f i)) l d = 0 <-> d = 0 /\ forall i, i ∈ l -> f i = 0.
Proof.
  revert d; induction l as [|i l IH]; intros d; simpl; [set_solver|].
  rewrite IH, Z.lor_eq_0_iff. setoid_rewrite elem_of_cons. split.
  - intros [[? ?] ?]. split; [done|]. intros j [->|?]; auto.
  - intros [? Ha]. auto.
Qed.

Lemma constant_time_equal_iff l r : constant_time_equal l r = true <-> l = r.
Proof.
  unfold constant_time_equal. rewrite Z.eqb_eq, fold_lor_zero, Z.lxor_eq_0_iff.
  split; [|intros ->; split; [done|]; intros; by rewrite Z.lxor_nilpotent].
  intros [Hlen Hb]. apply list_eq_same_length with (length r); [lia|lia|].
  intros i x y Hi Hx Hy. specialize (Hb i).
  rewrite elem_of_seq, Z.lxor_eq_0_iff in Hb. unfold byte_at in Hb.
  rewrite Hx, Hy in Hb. simpl in Hb. apply Hb. lia.
Qed.

Lemma bytes_inj s t : bytes s = bytes t -> s = t.
Proof.
  unfold bytes. intros Hm.
  assert (Hl : String.list_ascii_of_string s = String.list_ascii_of_string t).
  { revert Hm. generalize (String.list_ascii_of_string s), (String.list_ascii_of_string t).
    induction l as [|a l IH]; intros [|b l']; simpl; try done. intros [= Hb Hm].
    f_equal; [|by apply IH]. unfold byte in Hb. apply N2Z.inj in Hb.
    by rewrite <- (ascii_N_embedding a), Hb, ascii_N_embedding. }
  by rewrite <- (String.string_of_list_ascii_of_string s), Hl, String.string_of_list_ascii_of_string.
Qed.

Lemma invert_sunshine_axis_range v : in_i16 v -> in_i16 (invert_sunshine_axis v).
Proof. unfold in_i16, invert_sunshine_axis. destruct (Z.eqb_spec v (-32768)); lia. Qed.

(** A mirrored frame of any values the wire can carry becomes a state in
    range, with supported buttons only. *)
Theorem sunshine_state_valid f :
  pad_in_range f -> pad_in_range (sunshine_state f) /\ valid_state (sunshine_state f) = true.
Proof.
  intros (Hb & Hlt & Hrt & Hlx & Hly & Hrx & Hry). split.
  - pose proof (land_below 16 (buttons f) SUPPORTED_BUTTON_MASK ltac:(lia) eq_refl) as Hl.
    change (2 ^ 16) with 65536 in Hl.
    unfold pad_in_range. simpl. split_and!; try done.
    + unfold in_u32. lia.
    + by apply invert_sunshine_axis_range.
    + by apply invert_sunshine_axis_range.
  - unfold valid_state. simpl. rewrite <- Z.land_assoc. 
    change (Z.land SUPPORTED_BUTTON_MASK _) with 0. by rewrite Z.land_0_r.
Qed.

Section operations.
Context {B : Type} `{SeatBackendLaws B}.
Implicit Types rt : SeatRuntime B.

(** Nothing but a packet that carries the bound token and names the bound
    launch changes the runtime; every other packet leaves it as it was. *)
Theorem accept_requires_token parse packet now rt :
  (accept parse packet now rt).1 = rt \/
  exists launch token envelope,
    mirror rt = Some (launch, token) /\ decode_envelope parse packet = Some envelope /\
    mirror_token envelope = token /\ frame_launch_id (frame envelope) = launch /\
    Z.of_nat (length packet) <= MAX_MIRROR_FRAME_BYTES /\ faulted rt = false.
Proof.
  unfold accept. destruct (faulted rt) eqn:Hf; [by left|]. destruct (feedback_failed rt); [by left|].
  destruct (mirror rt) as [[launch token]|]; [|by left].
  destruct (decode_envelope parse packet) as [env|] eqn:Hd; [|by left].
  destruct (constant_time_equal _ _) eqn:Ht; simpl; [|by left].
  destruct (bool_decide _) eqn:Hl; simpl; [|by left]. apply bool_decide_eq_true in Hl.
  right. exists launch, token, env. split_and!; try done.
  - by apply bytes_inj, constant_time_equal_iff.
  - unfold decode_envelope in Hd. destruct (_ || _ || _ || _ || _) eqn:E; [done|].
    repeat (apply orb_false_elim in E as [E ?]).
    match goal with H : (_ <? _) = false |- _ => apply Z.ltb_ge in H; done end.
Qed.

Lemma expire_keys_dom l rt rt' u :
  expire_keys l rt = (rt', Ok u) -> dom (sources rt') = dom (sources rt) ∖ list_to_set l.
Proof.
  revert rt; induction l as [|k l IH]; intros rt; simpl; [intros [= <-]; set_solver|].
  pose proof (disconnect_source_dom k rt) as Hd.
  destruct (disconnect_source k rt) as [rt1 [u1|e]]; [|done]. simpl in Hd.
  intros ->%IH. rewrite Hd. set_solver.
Qed.

(** Expiry removes exactly the sources whose last event is too old and
    reports how many they were. *)
Theorem expire_stale_spec now rt rt' n :
  expire_stale now rt = (rt', Ok n) ->
  (forall k, is_Some (sources rt' !! k) <->
     exists s, sources rt !! k = Some s /\ is_stale now s = false) /\
  n = Z.of_nat (size (sources rt)) - Z.of_nat (size (sources rt')).
Proof.
  unfold expire_stale. set (keys := fst <$> _).
  assert (Hk : forall k, k ∈ keys <-> exists s, sources rt !! k = Some s /\ is_stale now s = true).
  { intros k. unfold keys. rewrite list_elem_of_fmap. split.
    - intros ([k' s] & -> & Hin). members. by exists s.
    - intros (s & Hs & Hst). exists (k, s). by members. }
  assert (Hnd : NoDup keys) by (unfold keys; auto with korri).
  destruct (expire_keys keys rt) as [rt1 [u|e]] eqn:He; [|done]. intros [= <- <-].
  apply expire_keys_dom in He. split.
  - intros k. rewrite <- elem_of_dom, He, elem_of_difference, elem_of_list_to_set, Hk, elem_of_dom.
    split.
    + intros [[s Hs] Hn]. exists s. split; [done|]. destruct (is_stale now s) eqn:E; [|done].
      destruct Hn. eauto.
    + intros (s & Hs & Hst). split; [eauto|]. intros (s' & Hs' & Hst'). congruence.
  - rewrite <- !size_dom, He, size_difference.
    + rewrite size_list_to_set by done.
      assert (list_to_set keys ⊆ dom (sources rt)) as Hsub%subseteq_size.
      { intros k. rewrite elem_of_list_to_set, Hk. intros (s & Hs & _). by apply elem_of_dom_2 in Hs. }
      rewrite size_list_to_set in Hsub by done. lia.
    + intros k. rewrite elem_of_list_to_set, Hk. intros (s & Hs & _). by apply elem_of_dom_2 in Hs.
Qed.

(** Every seat is bound. *)
Definition full (p : SeatPool SourceKey B) : Prop :=
  forall i s, seats p !! i = Some s -> is_some (binding s) = true.

Lemma connect_keeps k k' p q n :
  pool_wf p -> connect k p = (q, Ok n) ->
  (full p -> full q) /\ (is_some (slot_of k' p) = true -> is_some (slot_of k' q) = true) /\
  is_some (slot_of k q) = true.
Proof.
  intros Hwf Hc.
  assert (Hslot : forall (p' : SeatPool SourceKey B) k0 j s, seats p' !! j = Some s -> bound_to k0 s = true ->
            is_some (slot_of k0 p') = true).
  { intros p' k0 j s Hj Hb. destruct (slot_of k0 p') eqn:E; [done|].
    rewrite (proj1 (slot_of_None k0 p') E j s Hj) in Hb. done. }
  destruct (connect_cases _ _ _ _ Hwf Hc) as [(_ & [=] & _)|(i & s & Hi & [(Hb & _ & -> & _)|[Hat Hcase]])].
  { split; [done|]. split; [done|]. eauto. }
  destruct (connect_at_seats _ _ _ _ _ Hat) as (_ & Hq & _). simpl in Hq.
  assert (Hqi : forall j t, seats q !! j = Some t ->
            (j = i /\ binding t = Some (MkBinding k true)) \/ (j <> i /\ seats p !! j = Some t)).
  { intros j t. rewrite Hq. destruct (decide (i = j)) as [<-|Hij].
    - rewrite list_lookup_alter_eq, Hi. intros [= <-]. by left.
    - rewrite list_lookup_alter_ne by done. auto. }
  split; [|split].
  - intros Hfull j t Hj. destruct (Hqi j t Hj) as [[_ ->]|[_ Hp]]; [done|]. by apply (Hfull j).
  - intros Hs. destruct (slot_of k' p) as [m|] eqn:E; [|done].
    apply slot_of_Some in E as (j & t & Hj & Hb & _); [|done].
    destruct (decide (i = j)) as [<-|Hij].
    + assert (t = s) as -> by congruence. apply (Hslot q k' i (with_binding (Some (MkBinding k true))
        (with_known (Some neutral) s))).
      { by rewrite Hq, list_lookup_alter_eq, Hi. }
      destruct Hcase as [[Hbk _]|(_ & Hn & _)].
      * apply bound_to_true in Hb as [c Hc']. apply bound_to_true in Hbk as [c' Hc''].
        assert (k' = k) as -> by congruence. by apply bound_to_true; eexists.
      * apply bound_to_true in Hb as [c Hc']. congruence.
    + apply (Hslot q k' j t); [|done]. by rewrite Hq, list_lookup_alter_ne.
  - apply (Hslot q k i (with_binding (Some (MkBinding k true)) (with_known (Some neutral) s))).
    + by rewrite Hq, list_lookup_alter_eq, Hi.
    + apply bound_to_true. by eexists.
Qed.

Definition served k (p : SeatPool SourceKey B) : Prop := is_some (slot_of k p) = true \/ full p.

Lemma try_connect_serves k k' rt rt' o :
  pool_wf (pool rt) -> try_connect k rt = (rt', Ok o) ->
  (served k' (pool rt) -> served k' (pool rt')) /\ served k (pool rt').
Proof.
  intros Hwf. unfold try_connect. destruct (connect k (pool rt)) as [p [n|e]] eqn:Hc.
  - intros [= <- _]. destruct (connect_keeps _ k' _ _ _ Hwf Hc) as (Hf & Hs & Hk). simpl.
    split; [|by left]. intros [?|?]; [left|right]; auto.
  - destruct (connect_errors _ _ _ _ Hwf Hc) as [[-> ->]|[m ->]]; intros [= <- _]. simpl.
    split; [done|]. right.
    destruct (connect_cases _ _ _ _ Hwf Hc) as [(_ & _ & Hf)|(i & s & Hi & [(_ & _ & _ & [=])|[Hat _]])].
    + intros i s Hi. by apply (Hf i s Hi).
    + destruct (connect_at_seats _ _ _ _ _ Hat) as (_ & _ & _ & Hr).
      destruct Hr as (n & e & [[=]|[=]]). eauto.
Qed.

Lemma rebalance_keys_serves l rt rt' u k :
  pool_wf (pool rt) -> rebalance_keys l rt = (rt', Ok u) -> k ∈ l \/ served k (pool rt) ->
  served k (pool rt').
Proof.
  revert rt; induction l as [|x l IH]; intros rt Hwf; simpl.
  { intros [= <-] [Hin|?]; [by apply not_elem_of_nil in Hin|done]. }
  destruct (is_some (slot_of x (pool rt))) eqn:Hsl.
  { intros Hr [[->|Hin]%elem_of_cons|Hs]; eapply IH; eauto. right. by left. }
  pose proof (try_connect_framed x rt) as Hf.
  destruct (try_connect x rt) as [rt1 [o|e]] eqn:Hc; [|done].
  destruct (try_connect_serves x k rt rt1 o Hwf Hc) as [Hk Hx].
  pose proof (framed_wf _ _ Hf Hwf) as Hwf1. simpl in Hwf1.
  assert (Hgoal : k ∈ x :: l \/ served k (pool rt) -> k ∈ l \/ served k (pool rt1)).
  { intros [[->|Hin]%elem_of_cons|Hs]; auto. }
  destruct o; intros Hr Hin; (eapply IH; [| exact Hr|]; [done|]; by apply Hgoal).
Qed.

(** Seats do not stay free while a controller waits: outside first-press
    sessions, after [rebalance] every known source has a seat or every seat is
    bound. *)
Theorem rebalance_work_conserving parse rt rt' u k :
  rt_reachable parse rt -> rebalance rt = (rt', Ok u) -> first_press rt = false ->
  is_Some (sources rt !! k) ->
  is_Some (slot_of k (pool rt')) \/
  forall i s, seats (pool rt') !! i = Some s -> is_some (binding s) = true.
Proof.
  intros Hreach Hr Hfp Hk. destruct (reachable_inv _ _ Hreach) as [Hc _].
  unfold rebalance in Hr. rewrite Hfp in Hr.
  destruct (rebalance_keys_serves _ _ _ _ k (core_wf _ Hc) Hr) as [Hs|Hf].
  - left. by apply elem_of_btree_keys.
  - left. destruct (slot_of k (pool rt')); [eauto|done].
  - by right.
Qed.

(** The two [unwrap]s of the runtime cannot panic: a successful state frame
    leaves a remote source to report, and a successful connect leaves the source
    it inserted. *)
Theorem runtime_unwraps_safe l c n st now has k rt :
  (is_ok (update_source (KRemote l c n) st now rt).2 = true ->
   is_Some (remote_source (KRemote l c n) (update_source (KRemote l c n) st now rt).1)) /\
  (is_ok (connect_source k st now has rt).2 = true ->
   is_Some (sources (connect_source k st now has rt).1 !! k)).
Proof.
  split.
  - set (kr := KRemote l c n). unfold update_source.
    destruct (sources rt !! kr) as [s|]; [|done].
    destruct (admit_frame kr now s) as [s' []]; [done|]. intros _.
    assert (Hrs : forall x rt1, sources rt1 !! kr = Some x -> has_state x = true ->
              is_Some (remote_source kr rt1)).
    { intros x rt1 Hx Hh. unfold remote_source. simpl. fold kr. rewrite Hx, Hh. simpl. eauto. }
    destruct (negb _); [eapply Hrs; [apply lookup_insert_eq|done]|].
    destruct (requires_neutral _).
    + destruct (is_neutral_for_rearm st); [|eapply Hrs; [apply lookup_insert_eq|done]].
      eapply Hrs; [simpl; rewrite lookup_alter_eq, lookup_insert_eq; done|done].
    + eapply Hrs; [rewrite forward_state_sources; apply lookup_insert_eq|done].
  - unfold connect_source. destruct (first_press rt && _); simpl.
    { intros _. rewrite lookup_insert_eq. eauto. }
    destruct (try_connect k rt) as [rt1 [o|e]]; [|done]. intros _. simpl.
    rewrite lookup_insert_eq. eauto.
Qed.
End operations.

(** ** Concrete runs *)

Definition demo_token : string :=
  "0123456789abcdef0123456789abcdef0123456789abcdef0123456789abcdef".

Definition demo_envelope (state : GamepadState) : MirrorEnvelope :=
  MkEnvelope demo_token (SourceStateFrame "client" demo_launch 0 state).

Definition demo_parse (body : list Z) : option MirrorEnvelope :=
  match body with
  | [] => Some (demo_envelope neutral)
  | _ => Some (demo_envelope demo_pad)
  end.

Definition demo_start : SeatRuntime MemBackend :=
  match boot (MkMem ∅ ∅) with
  | Ok rt => rt
  | Err _ => MkRuntime (MkPool (MkMem ∅ ∅) [] None) ∅ None false Attached true true true []
  end.

(** Two seats, a session with the route, and an armed controller that presses. *)
Definition demo_requests : list (SeatRequest * Z) :=
  [(ApplyCount 2, 0); (BeginSession demo_launch Attached, 1);
   (PhysicalConnected "pad0" "Pad" neutral, 2); (Route (Some demo_launch), 3);
   (PhysicalState "pad0" neutral, 4); (PhysicalState "pad0" demo_pad, 5)].

Definition run_requests (l : list (SeatRequest * Z)) (rt : SeatRuntime MemBackend)
    : SeatRuntime MemBackend :=
  fold_left (fun rt '(request, now) => (coordinate request now rt).1) l rt.

Definition demo_rt : SeatRuntime MemBackend := run_requests demo_requests demo_start.

(** The same with the mirror bound and a remote controller. *)
Definition demo_mirrored : SeatRuntime MemBackend :=
  (accept demo_parse [LF] 6 (bind demo_launch demo_token demo_rt).1).1.

Lemma run_requests_reachable parse l rt :
  Forall (fun q => request_in_range q.1) l -> rt_reachable parse rt ->
  rt_reachable parse (run_requests l rt).
Proof.
  intros Hl; revert rt; induction Hl as [|[q now] l Hq _ IH]; intros rt Hr; simpl; [done|].
  apply IH. eapply rr_step; [exact Hr|]. by apply st_coordinate.
Qed.

Lemma demo_rt_reachable : rt_reachable demo_parse demo_rt.
Proof.
  apply run_requests_reachable.
  - repeat constructor; try (vm_compute; intuition congruence).
  - apply (rr_boot _ (MkMem ∅ ∅)). vm_compute. reflexivity.
Qed.

Lemma demo_mirrored_reachable : rt_reachable demo_parse demo_mirrored.
Proof.
  eapply rr_step; [|apply st_accept]. eapply rr_step; [|apply st_bind]. apply demo_rt_reachable.
Qed.

Lemma device_state_authorized_witness :
  be_device (backend (pool demo_rt)) 1 = Some demo_pad /\ game_route demo_rt = true.
Proof.
  destruct (device_state_authorized demo_parse demo_rt 0
              (MkSeat 1 (Some (MkBinding (KPhysical "pad0") true)) (Some demo_pad))
              demo_rt_reachable) as [Hn|(Hr & _ & _)].
  - vm_compute. reflexivity.
  - vm_compute. reflexivity.
  - vm_compute. reflexivity.
  - exfalso. vm_compute in Hn. discriminate.
  - split; [vm_compute; reflexivity|exact Hr].
Defined.

Lemma mirror_within_session_witness :
  mirror_launch demo_mirrored = Some demo_launch /\
  is_Some (sources demo_mirrored !! KRemote demo_launch "client" 0) /\
  session (pool demo_mirrored) = Some demo_launch.
Proof.
  destruct (mirror_within_session demo_parse demo_mirrored demo_mirrored_reachable) as (Hm & Hk & _).
  split; [apply (Hk demo_launch "client" 0)|split].
  1,2: vm_compute; eexists; reflexivity.
  apply (Hm demo_launch demo_token). vm_compute. reflexivity.
Defined.

Lemma runtime_bounds_witness : Z.of_nat (length (feedback demo_mirrored)) <= MAX_REMOTE_EVENTS.
Proof.
  destruct (runtime_bounds demo_parse demo_mirrored demo_mirrored_reachable) as [Hb _]. exact Hb.
Defined.

Lemma coordinator_lost_silences_witness :
  exists rt', coordinator_lost demo_mirrored = (rt', Ok ()) /\ sources rt' = ∅.
Proof.
  exists (coordinator_lost demo_mirrored).1.
  assert (Hl : coordinator_lost demo_mirrored = ((coordinator_lost demo_mirrored).1, Ok ())).
  { vm_compute. reflexivity. }
  assert (Hf : faulted demo_mirrored = false) by (vm_compute; reflexivity).
  destruct (coordinator_lost_silences demo_parse demo_mirrored _ demo_mirrored_reachable Hf Hl)
    as (Hs & _).
  split; [exact Hl|exact Hs].
Defined.

Lemma sunshine_state_valid_witness :
  valid_state (sunshine_state (MkPad 4294967295 255 255 (-32768) (-32768) 32767 32767)) = true.
Proof. apply sunshine_state_valid. repeat split; vm_compute; discriminate. Defined.

Lemma expire_stale_spec_witness :
  exists rt', expire_stale 1255 demo_mirrored = (rt', Ok 1) /\
    is_Some (sources rt' !! KRemote demo_launch "client" 0).
Proof.
  exists (expire_stale 1255 demo_mirrored).1.
  assert (He : expire_stale 1255 demo_mirrored = ((expire_stale 1255 demo_mirrored).1, Ok 1)).
  { vm_compute. reflexivity. }
  split; [exact He|].
  destruct (expire_stale_spec 1255 demo_mirrored _ 1 He) as [Hk _].
  apply (proj2 (Hk (KRemote demo_launch "client" 0))).
  eexists. split; vm_compute; reflexivity.
Defined.

Lemma rebalance_work_conserving_witness :
  is_Some (slot_of (KPhysical "pad0") (pool (rebalance demo_mirrored).1)).
Proof.
  destruct (rebalance_work_conserving demo_parse demo_mirrored (rebalance demo_mirrored).1 ()
              (KPhysical "pad0") demo_mirrored_reachable) as [Hs|_].
  - vm_compute. reflexivity.
  - vm_compute. reflexivity.
  - vm_compute. eexists. reflexivity.
  - exact Hs.
  - vm_compute. eexists. reflexivity.
Defined.
