(* ===== verification/Uinput.v ===== *)
(** * Kernel seat devices (services/inputd/src/input_seat_uinput.rs)

    The production [SeatBackend]: one uinput device per seat, written with the
    events that differ from the last state the device is known to hold.

    The kernel is the class [Kernel]: a device has a setup and a value per
    control, [emit] writes events and may stop after a prefix. The entries of
    [/sys/class/input], the device nodes each poll sees and the device builder
    are its operations, since the source reads them from the system. *)

From S2P Require Import Prelude Text Contract SeatPool SeatRuntime.

(** ** Events *)

Definition EV_KEY : Z := 1.
Definition EV_ABS : Z := 3.

Definition BTN_SOUTH : Z := 304.
Definition BTN_EAST : Z := 305.
Definition BTN_NORTH : Z := 307.
Definition BTN_WEST : Z := 308.
Definition BTN_TL : Z := 310.
Definition BTN_TR : Z := 311.
Definition BTN_SELECT : Z := 314.
Definition BTN_START : Z := 315.
Definition BTN_MODE : Z := 316.
Definition BTN_THUMBL : Z := 317.
Definition BTN_THUMBR : Z := 318.

Definition ABS_X : Z := 0.
Definition ABS_Y : Z := 1.
Definition ABS_Z : Z := 2.
Definition ABS_RX : Z := 3.
Definition ABS_RY : Z := 4.
Definition ABS_RZ : Z := 5.
Definition ABS_HAT0X : Z := 16.
Definition ABS_HAT0Y : Z := 17.

Record InputEvent := MkEvent { ev_type : Z; ev_code : Z; ev_value : Z }.

Definition BUTTONS : list (Z * Z) :=
  [(16, BTN_START); (32, BTN_SELECT); (64, BTN_THUMBL); (128, BTN_THUMBR); (256, BTN_TL);
   (512, BTN_TR); (1024, BTN_MODE); (4096, BTN_SOUTH); (8192, BTN_EAST); (16384, BTN_NORTH);
   (32768, BTN_WEST)].

Definition SEAT_USB_VERSION : Z := 276. (* 0x0114 *)
Definition DPAD_UP : Z := 1.
Definition DPAD_DOWN : Z := 2.
Definition DPAD_LEFT : Z := 4.
Definition DPAD_RIGHT : Z := 8.

(** [buttons & mask != 0]. *)
Definition has_bits (buttons mask : Z) : bool := negb (Z.land buttons mask =? 0).

Definition hat (buttons negative positive : Z) : Z :=
  match has_bits buttons negative, has_bits buttons positive with
  | true, false => -1
  | false, true => 1
  | _, _ => 0
  end.

(** The event of one control, when the value before differs from the one after. *)
Definition push (type code : Z) (before : option Z) (after : Z) : list InputEvent :=
  if bool_decide (before = Some after) then [] else [MkEvent type code after].

Definition push_axis (axis : Z) (before : option Z) (after : Z) : list InputEvent :=
  push EV_ABS axis before after.

Definition button_events (current : option GamepadState) (next : GamepadState) : list InputEvent :=
  concat (map (fun '(mask, key) =>
    push EV_KEY key ((fun s => Z.b2z (has_bits (buttons s) mask)) <$> current)
      (Z.b2z (has_bits (buttons next) mask))) BUTTONS).

Definition output_events (current : option GamepadState) (next : GamepadState) : list InputEvent :=
  button_events current next
  ++ push_axis ABS_HAT0X ((fun s => hat (buttons s) DPAD_LEFT DPAD_RIGHT) <$> current)
       (hat (buttons next) DPAD_LEFT DPAD_RIGHT)
  ++ push_axis ABS_HAT0Y ((fun s => hat (buttons s) DPAD_UP DPAD_DOWN) <$> current)
       (hat (buttons next) DPAD_UP DPAD_DOWN)
  ++ push_axis ABS_Z (left_trigger <$> current) (left_trigger next)
  ++ push_axis ABS_RZ (right_trigger <$> current) (right_trigger next)
  ++ push_axis ABS_X (left_stick_x <$> current) (left_stick_x next)
  ++ push_axis ABS_Y (left_stick_y <$> current) (left_stick_y next)
  ++ push_axis ABS_RX (right_stick_x <$> current) (right_stick_x next)
  ++ push_axis ABS_RY (right_stick_y <$> current) (right_stick_y next).

(** ** The device description *)

Record DeviceSetup := MkSetup {
  su_name : string;
  su_phys : string;
  su_id : Z * Z * Z * Z;
  su_keys : list Z;
  su_axes : list (Z * Z * Z * Z);
}.

Definition BUS_USB : Z := 3.

(** What [build_device] asks the kernel for; a NUL in the path is refused by
    [CString::new]. *)
Definition device_setup (spec : SeatSpec) : result string DeviceSetup :=
  if has_nul (spec_physical_path spec) then Err "nul byte found in provided data"
  else Ok (MkSetup (spec_name spec) (spec_physical_path spec) (BUS_USB, 1118, 654, SEAT_USB_VERSION)
    (map snd BUTTONS)
    [(ABS_X, -32768, 32767, GAMEPAD_STICK_FLAT); (ABS_Y, -32768, 32767, GAMEPAD_STICK_FLAT);
     (ABS_Z, 0, 255, 0); (ABS_RX, -32768, 32767, GAMEPAD_STICK_FLAT);
     (ABS_RY, -32768, 32767, GAMEPAD_STICK_FLAT); (ABS_RZ, 0, 255, 0);
     (ABS_HAT0X, -1, 1, 0); (ABS_HAT0Y, -1, 1, 0)]).

Definition declares (su : DeviceSetup) (type code : Z) : bool :=
  ((type =? EV_KEY) && existsb (Z.eqb code) (su_keys su))
  || ((type =? EV_ABS) && existsb (fun '(axis, _, _, _) => axis =? code) (su_axes su)).

(** ** Seat names *)

Fixpoint parse_digits (acc : Z) (s : string) : option Z :=
  match s with
  | EmptyString => Some acc
  | SCons a s => if is_ascii_digit a then parse_digits (acc * 10 + (byte a - 48)) s else None
  end.

(** [str::parse::<NonZeroU8>]: an optional plus sign, then digits. *)
Definition parse_nonzero_u8 (s : string) : option Z :=
  let digits := default s (strip_prefix "+" s) in
  if str_is_empty digits then None
  else match parse_digits 0 digits with
       | Some n => if (1 <=? n) && (n <=? 255) then Some n else None
       | None => None
       end.

Definition seat_slot_name (value prefix : string) : bool :=
  is_some_and (strip_prefix prefix value) (fun slot =>
    is_some_and (parse_nonzero_u8 slot) (fun n => bool_decide (decimal n = slot))).

Definition is_seat_identity (name physical_path : option string) : bool :=
  is_some_and name (fun value => seat_slot_name value "Korri Seat P")
  || is_some_and physical_path (fun value => seat_slot_name value "korri/input-seat/p").

(** An entry of [/sys/class/input]: its file name and the contents of its
    [device/name] and [device/phys]. *)
Record SysEntry := MkEntry { se_file : string; se_name : option string; se_phys : option string }.

Fixpoint reject_entries (entries : list (result string SysEntry)) : result string unit :=
  match entries with
  | [] => Ok ()
  | Err e :: _ => Err e
  | Ok entry :: entries =>
      if negb (starts_with "event" (se_file entry)) then reject_entries entries
      else if is_seat_identity (trim_end <$> se_name entry) (trim_end <$> se_phys entry)
      then Err "a stale Korri input seat already exists"
      else reject_entries entries
  end.

Definition reject_existing_seats (listing : result string (list (result string SysEntry)))
    : result string unit :=
  match listing with Err e => Err e | Ok entries => reject_entries entries end.

(** ** The kernel *)

(** One poll for the device's nodes: each node's path and, when its metadata can
    be read, its group and mode; [None] when the enumeration fails. *)
Definition NodePoll : Type := option (list (string * option (Z * Z))).

Class Kernel (D : Type) := {
  k_listing : result string (list (result string SysEntry));
  k_build : DeviceSetup -> result string D;
  k_polls : D -> list NodePoll;
  k_emit : list InputEvent -> D -> D * result string unit;
  k_setup : D -> DeviceSetup;
  k_control : D -> Z -> Z -> Z;
}.

(** The value the events leave a control with. *)
Definition last_value (su : DeviceSetup) (type code : Z) (events : list InputEvent) (v : Z) : Z :=
  fold_left (fun v e =>
    if (ev_type e =? type) && (ev_code e =? code) && declares su type code
    then ev_value e else v) events v.

(** The documented uinput behaviour the backend relies on: a new device has the
    requested setup and reads zero, and a complete write leaves each declared
    control with its last value. *)
Class KernelLaws (D : Type) `{Kernel D} := {
  k_build_setup su d : k_build su = Ok d -> k_setup d = su;
  k_build_zero su d type code : k_build su = Ok d -> k_control d type code = 0;
  k_emit_setup events d : k_setup (k_emit events d).1 = k_setup d;
  k_emit_sets events d d' u type code :
    k_emit events d = (d', Ok u) ->
    k_control d' type code = last_value (k_setup d) type code events (k_control d type code);
}.

(** ** The backend *)

Section backend.
Context {D : Type} `{Kernel D}.

Record SeatDevice := MkDevice {
  sd_event_device : string;
  sd_device : D;
  sd_output : option GamepadState;
}.

Record UinputSeatBackend := MkUinput {
  devices : gmap Z SeatDevice;
  event_gid : Z;
  preflight_complete : bool;
}.

Definition uinput_new (gid : Z) : UinputSeatBackend := MkUinput ∅ gid false.

Definition set_devices (m : gmap Z SeatDevice) (b : UinputSeatBackend) : UinputSeatBackend :=
  MkUinput m (event_gid b) (preflight_complete b).

(** [SeatOutput::write]: the new cache, the device and the result. *)
Definition output_write (next : GamepadState) (current : option GamepadState) (d : D)
    : option GamepadState * D * result string unit :=
  match output_events current next with
  | [] => (Some next, d, Ok ())
  | events =>
      match k_emit events d with
      | (d, Err e) => (None, d, Err e)
      | (d, Ok _) => (Some next, d, Ok ())
      end
  end.

Definition node_ready (gid : Z) (node : string * option (Z * Z)) : bool :=
  is_some_and node.2 (fun '(g, mode) => (g =? gid) && (Z.land mode 511 =? 432)).

(** The polls before the deadline, in order. *)
Fixpoint wait_for_event_node (gid : Z) (polls : list NodePoll) : result string string :=
  match polls with
  | [] => Err "Korri seat event node did not reach the required group and mode"
  | None :: polls => wait_for_event_node gid polls
  | Some nodes :: polls =>
      match find (node_ready gid) nodes with
      | Some node => Ok node.1
      | None => wait_for_event_node gid polls
      end
  end.

Definition build_device (spec : SeatSpec) : result string D :=
  match device_setup spec with Err e => Err e | Ok su => k_build su end.

Definition event_device (slot : Z) (b : UinputSeatBackend) : result string string :=
  ok_or (sd_event_device <$> devices b !! slot) "Korri seat is not active".

Definition create (spec : SeatSpec) (b : UinputSeatBackend) : UinputSeatBackend * result string unit :=
  if (spec_slot spec =? 0) || is_some (devices b !! spec_slot spec)
  then (b, Err "invalid or duplicate Korri seat slot")
  else
    match (if preflight_complete b then Ok () else reject_existing_seats k_listing) with
    | Err e => (b, Err e)
    | Ok _ =>
        let b := MkUinput (devices b) (event_gid b) true in
        match build_device spec with
        | Err e => (b, Err e)
        | Ok d =>
            match wait_for_event_node (event_gid b) (k_polls d) with
            | Err e => (b, Err e)
            | Ok path =>
                (set_devices (<[spec_slot spec := MkDevice path d (Some neutral)]> (devices b)) b,
                 Ok ())
            end
        end
    end.

Definition uinput_write_state (slot : Z) (next : GamepadState) (b : UinputSeatBackend)
    : UinputSeatBackend * result string unit :=
  match devices b !! slot with
  | None => (b, Err "Korri seat is not active")
  | Some seat =>
      let '(output, d, r) := output_write next (sd_output seat) (sd_device seat) in
      (set_devices (<[slot := MkDevice (sd_event_device seat) d output]> (devices b)) b, r)
  end.

Definition uinput_destroy (slot : Z) (b : UinputSeatBackend)
    : UinputSeatBackend * result string unit :=
  (set_devices (delete slot (devices b)) b, Ok ()).
End backend.

Arguments SeatDevice D : clear implicits.
Arguments UinputSeatBackend D : clear implicits.

#[export] Instance uinput_backend {D} `{Kernel D} : SeatBackend (UinputSeatBackend D) := {|
  be_create := create;
  be_event_device := event_device;
  be_write_state := uinput_write_state;
  be_destroy := uinput_destroy;
|}.

(** ** What the device reads *)

(** Every control of a seat with the value a state gives it. *)
Definition CONTROLS : list (Z * Z * (GamepadState -> Z)) :=
  map (fun '(mask, key) => (EV_KEY, key, fun s => Z.b2z (has_bits (buttons s) mask))) BUTTONS
  ++ [(EV_ABS, ABS_HAT0X, fun s => hat (buttons s) DPAD_LEFT DPAD_RIGHT);
      (EV_ABS, ABS_HAT0Y, fun s => hat (buttons s) DPAD_UP DPAD_DOWN);
      (EV_ABS, ABS_Z, left_trigger); (EV_ABS, ABS_RZ, right_trigger);
      (EV_ABS, ABS_X, left_stick_x); (EV_ABS, ABS_Y, left_stick_y);
      (EV_ABS, ABS_RX, right_stick_x); (EV_ABS, ABS_RY, right_stick_y)].

Definition delta_of (current : option GamepadState) (next : GamepadState)
    (L : list (Z * Z * (GamepadState -> Z))) : list InputEvent :=
  concat (map (fun '(t, c, f) => push t c (f <$> current) (f next)) L).

Lemma output_events_table current next : output_events current next = delta_of current next CONTROLS.
Proof.
  unfold output_events, button_events, delta_of, CONTROLS, push_axis, BUTTONS. simpl.
  rewrite <- !app_assoc, app_nil_r. reflexivity.
Qed.

Definition control_key (p : Z * Z * (GamepadState -> Z)) : Z * Z := p.1.

Lemma controls_distinct : NoDup (map control_key CONTROLS).
Proof. decide_vm. Qed.

Lemma controls_declared spec su t c f :
  device_setup spec = Ok su -> (t, c, f) ∈ CONTROLS -> declares su t c = true.
Proof.
  unfold device_setup. destruct (has_nul _); [done|]. intros [= <-] Hin.
  apply (list_elem_of_fmap_2 control_key) in Hin.
  assert (Hall : Forall (fun '(t, c) => declares (MkSetup (spec_name spec) (spec_physical_path spec)
    (BUS_USB, 1118, 654, SEAT_USB_VERSION) (map snd BUTTONS)
    [(ABS_X, -32768, 32767, GAMEPAD_STICK_FLAT); (ABS_Y, -32768, 32767, GAMEPAD_STICK_FLAT);
     (ABS_Z, 0, 255, 0); (ABS_RX, -32768, 32767, GAMEPAD_STICK_FLAT);
     (ABS_RY, -32768, 32767, GAMEPAD_STICK_FLAT); (ABS_RZ, 0, 255, 0);
     (ABS_HAT0X, -1, 1, 0); (ABS_HAT0Y, -1, 1, 0)]) t c = true) (control_key <$> CONTROLS)).
  { repeat constructor. }
  rewrite Forall_forall in Hall. exact (Hall _ Hin).
Qed.

Lemma last_value_app su t c l l' v :
  last_value su t c (l ++ l') v = last_value su t c l' (last_value su t c l v).
Proof. unfold last_value. apply fold_left_app. Qed.

Lemma last_value_push su t c t' c' before after v :
  last_value su t c (push t' c' before after) v =
  if bool_decide ((t', c') = (t, c)) && declares su t c && negb (bool_decide (before = Some after))
  then after else v.
Proof.
  unfold push, last_value. destruct (bool_decide (before = Some after)); simpl.
  - by rewrite andb_false_r.
  - rewrite andb_true_r.
    assert (((t' =? t) && (c' =? c))%bool = bool_decide ((t', c') = (t, c))) as ->; [|done].
    destruct (Z.eqb_spec t' t), (Z.eqb_spec c' c); simpl; symmetry;
      first [apply bool_decide_eq_true; congruence|apply bool_decide_eq_false; congruence].
Qed.

Lemma last_value_other su t c cur next L v :
  (t, c) ∉ map control_key L -> last_value su t c (delta_of cur next L) v = v.
Proof.
  unfold delta_of. revert v; induction L as [|[[t' c'] f] L IH]; intros v Hn; simpl; [done|].
  simpl in Hn. apply not_elem_of_cons in Hn as [Hne Hn].
  rewrite last_value_app, last_value_push, bool_decide_eq_false_2 by (unfold control_key in Hne; simpl in Hne; congruence).
  by apply IH.
Qed.

Lemma last_value_delta su t c f cur next L v :
  NoDup (map control_key L) -> (t, c, f) ∈ L -> declares su t c = true ->
  last_value su t c (delta_of cur next L) v =
  if bool_decide (f <$> cur = Some (f next)) then v else f next.
Proof.
  intros Hnd Hin Hd. revert v Hnd Hin.
  induction L as [|[[t' c'] f'] L IH]; intros v Hnd Hin; [by apply not_elem_of_nil in Hin|].
  unfold delta_of. simpl. fold (delta_of cur next L). rewrite last_value_app, last_value_push.
  simpl in Hnd. apply NoDup_cons in Hnd as [Hn Hnd].
  apply elem_of_cons in Hin as [[= <- <- <-]|Hin].
  - rewrite last_value_other by done. rewrite bool_decide_eq_true_2, Hd by done. simpl.
    by destruct (bool_decide _).
  - rewrite bool_decide_eq_false_2; [by apply IH|]. intros [= -> ->]. apply Hn.
    apply (list_elem_of_fmap_2 control_key) in Hin. exact Hin.
Qed.

Section refinement.
Context {D : Type} `{KernelLaws D}.

(** The device reads as the state. *)
Definition shows (d : D) (s : GamepadState) : Prop :=
  forall t c f, (t, c, f) ∈ CONTROLS -> k_control d t c = f s.

Definition is_seat (d : D) : Prop := exists spec, device_setup spec = Ok (k_setup d).

(** A seat's cache is true of its device. *)
Definition seat_sound (s : SeatDevice D) : Prop :=
  is_seat (sd_device s) /\ forall st, sd_output s = Some st -> shows (sd_device s) st.

Definition sound (b : UinputSeatBackend D) : Prop :=
  forall slot s, devices b !! slot = Some s -> seat_sound s.

Lemma sound_insert slot s b : seat_sound s -> sound b -> sound (set_devices (<[slot := s]> (devices b)) b).
Proof.
  intros Hs Hb slot' s'. simpl. destruct (decide (slot = slot')) as [<-|Hne].
  - rewrite lookup_insert_eq. by intros [= <-].
  - rewrite lookup_insert_ne by done. apply Hb.
Qed.

Lemma output_write_sound path next current d out d' r :
  seat_sound (MkDevice path d current) -> output_write next current d = (out, d', r) ->
  seat_sound (MkDevice path d' out) /\ (r = Ok () -> out = Some next).
Proof.
  intros [[spec Hspec] Hcur] Hw. simpl in *.
  assert (Hshow : forall e u, k_emit (output_events current next) d = (e, Ok u) -> shows e next).
  { intros e u He t c f Hin. rewrite (k_emit_sets _ _ _ _ t c He), output_events_table.
    rewrite (last_value_delta _ _ _ f) by eauto using controls_distinct, controls_declared.
    case_bool_decide as Hb; [|done]. apply fmap_Some in Hb as (st & -> & Hf).
    rewrite (Hcur st eq_refl t c f Hin). done. }
  unfold output_write in Hw. destruct (output_events current next) as [|ev evs] eqn:Hev.
  - injection Hw as <- <- <-. split; [|done]. split; [by exists spec|]. simpl.
    intros st [= <-] t c f Hin.
    pose proof (last_value_delta (k_setup d) t c f current next CONTROLS (k_control d t c)
      controls_distinct Hin (controls_declared _ _ _ _ _ Hspec Hin)) as Hlv.
    rewrite <- output_events_table, Hev in Hlv. simpl in Hlv.
    case_bool_decide as Hb; [|done]. apply fmap_Some in Hb as (st & -> & ->).
    by apply Hcur.
  - pose proof (k_emit_setup (ev :: evs) d) as Hsu.
    destruct (k_emit (ev :: evs) d) as [e [u|m]] eqn:He; injection Hw as <- <- <-; simpl in Hsu;
      (split; [split; [exists spec; simpl; congruence|]|done]); simpl; [|done].
    intros st [= <-]. by apply (Hshow e u).
Qed.

Lemma write_sound slot next b : sound b -> sound (uinput_write_state slot next b).1.
Proof.
  intros Hb. unfold uinput_write_state. destruct (devices b !! slot) as [s|] eqn:Hs; [|done].
  destruct (output_write next (sd_output s) (sd_device s)) as [[out d] r] eqn:Hw.
  apply sound_insert; [|done]. eapply output_write_sound; [|exact Hw].
  destruct s. exact (Hb _ _ Hs).
Qed.

Lemma fresh_shows su d : k_build su = Ok d -> shows d neutral.
Proof.
  intros Hb t c f Hin. rewrite (k_build_zero su d t c Hb).
  assert (Hall : Forall (fun p => p.2 neutral = 0) CONTROLS) by (repeat constructor).
  rewrite Forall_forall in Hall. symmetry. exact (Hall _ Hin).
Qed.

Lemma create_sound spec b : sound b -> sound (create spec b).1.
Proof.
  intros Hb. unfold create. destruct (_ || _); [done|].
  destruct (if preflight_complete b then _ else _); [|done].
  unfold build_device. destruct (device_setup spec) as [su|e] eqn:Hsu; [|done].
  destruct (k_build su) as [d|e] eqn:Hd; [|done].
  destruct (wait_for_event_node _ _) as [path|e]; [|done].
  apply sound_insert; [|done]. split; simpl.
  - exists spec. by rewrite (k_build_setup su d Hd).
  - intros st [= <-]. exact (fresh_shows su d Hd).
Qed.

Lemma destroy_sound slot b : sound b -> sound (uinput_destroy slot b).1.
Proof.
  intros Hb slot' s. simpl. rewrite lookup_delete_Some. intros [_ Hs]. by apply (Hb slot').
Qed.

(** ** The backend as the pool's interface *)

(** A backend whose caches are true of its devices; every operation keeps it. *)
Record Sealed := Seal { unseal : UinputSeatBackend D; sealed_sound : sound unseal }.

Lemma new_sound gid : sound (uinput_new gid).
Proof. intros slot s. simpl. by rewrite lookup_empty. Qed.

Definition seal_new (gid : Z) : Sealed := Seal (uinput_new gid) (new_sound gid).

Definition sealed_create (spec : SeatSpec) (b : Sealed) : Sealed * result string unit :=
  (Seal (create spec (unseal b)).1 (create_sound _ _ (sealed_sound b)), (create spec (unseal b)).2).

Definition sealed_write (slot : Z) (next : GamepadState) (b : Sealed) : Sealed * result string unit :=
  (Seal (uinput_write_state slot next (unseal b)).1 (write_sound _ _ _ (sealed_sound b)),
   (uinput_write_state slot next (unseal b)).2).

Definition sealed_destroy (slot : Z) (b : Sealed) : Sealed * result string unit :=
  (Seal (uinput_destroy slot (unseal b)).1 (destroy_sound _ _ (sealed_sound b)), Ok ()).

#[export] Instance sealed_backend : SeatBackend Sealed := {|
  be_create := sealed_create;
  be_event_device slot b := event_device slot (unseal b);
  be_write_state := sealed_write;
  be_destroy := sealed_destroy;
|}.

Definition cached (b : UinputSeatBackend D) (slot : Z) : option GamepadState :=
  s ← devices b !! slot; sd_output s.

Lemma cached_insert slot slot' s b :
  slot' <> slot -> cached (set_devices (<[slot := s]> (devices b)) b) slot' = cached b slot'.
Proof. intros Hne. unfold cached. simpl. by rewrite lookup_insert_ne. Qed.

#[export] Instance sealed_laws : SeatBackendLaws Sealed.
Proof.
  refine {| be_device b slot := cached (unseal b) slot |}.
  - intros slot state [b Hb] b' Hw. injection Hw as <- Hr. simpl in *.
    unfold uinput_write_state in *. destruct (devices b !! slot) as [s|] eqn:Hs; [|done].
    destruct (output_write state (sd_output s) (sd_device s)) as [[out d] r] eqn:Ho.
    simpl in *. subst r. unfold cached. simpl. rewrite lookup_insert_eq. simpl.
    destruct s as [path d0 cur]. by apply (output_write_sound path _ _ _ _ _ _ (Hb _ _ Hs) Ho).
  - intros slot slot' state [b Hb] Hne. simpl. unfold uinput_write_state.
    destruct (devices b !! slot) as [s|]; [|done].
    destruct (output_write _ _ _) as [[out d] r]. by apply cached_insert.
  - intros spec slot' [b Hb] Hne. simpl. unfold create.
    destruct (_ || _); [done|]. destruct (if preflight_complete b then _ else _); [|done].
    destruct (build_device spec); [|done]. destruct (wait_for_event_node _ _); [|done].
    unfold cached. simpl. by rewrite lookup_insert_ne.
  - intros slot slot' [b Hb] Hne. simpl. unfold cached. simpl. by rewrite lookup_delete_ne.
Defined.
End refinement.

(** ** Seat identities *)

Lemma parse_decimal n : 1 <= n <= 255 -> parse_nonzero_u8 (decimal n) = Some n.
Proof.
  intros Hn.
  assert (Hall : Forall (fun n => parse_nonzero_u8 (decimal n) = Some n) (seqZ 1 255)) by decide_vm.
  rewrite Forall_forall in Hall. apply Hall, elem_of_seqZ. lia.
Qed.

Lemma parse_nonzero_u8_range s n : parse_nonzero_u8 s = Some n -> 1 <= n <= 255.
Proof.
  unfold parse_nonzero_u8. destruct (str_is_empty _); [done|].
  destruct (parse_digits 0 _) as [m|]; [|done].
  destruct (Z.leb_spec 1 m), (Z.leb_spec m 255); simpl; try done. intros [= <-]. lia.
Qed.

Lemma seat_slot_name_iff prefix value :
  seat_slot_name value prefix = true <->
  exists n, 1 <= n <= 255 /\ value = prefix +:+ decimal n.
Proof.
  unfold seat_slot_name. split.
  - destruct (strip_prefix prefix value) as [slot|] eqn:Hp; [|done]. simpl.
    destruct (parse_nonzero_u8 slot) as [n|] eqn:Hn; [|done]. simpl.
    intros Hd%bool_decide_eq_true. exists n. split; [by eapply parse_nonzero_u8_range|].
    rewrite Hd. by apply strip_prefix_Some.
  - intros (n & Hn & ->). rewrite strip_prefix_app. simpl. rewrite parse_decimal by done. simpl.
    by apply bool_decide_eq_true.
Qed.

(** The startup check recognises exactly the identities the daemon gives its
    own seats: the name or the physical path of [SeatSpec::for_slot] for a slot
    from 1 to 255, in canonical decimal. *)
Theorem seat_identity_exact name phys :
  is_seat_identity name phys = true <->
  exists slot, 1 <= slot <= 255 /\
    (name = Some (spec_name (spec_for_slot slot)) \/
     phys = Some (spec_physical_path (spec_for_slot slot))).
Proof.
  unfold is_seat_identity. rewrite orb_true_iff. split.
  - intros [Hn|Hp].
    + destruct name as [name|]; [|done]. apply seat_slot_name_iff in Hn as (n & Hn & ->). eauto.
    + destruct phys as [phys|]; [|done]. apply seat_slot_name_iff in Hp as (n & Hn & ->). eauto.
  - intros (slot & Hs & [-> | ->]); [left|right]; apply seat_slot_name_iff; eauto.
Qed.

(** ** Properties of the backend *)

Definition ev_key (e : InputEvent) : Z * Z := (ev_type e, ev_code e).

Section properties.
Context {D : Type} `{KernelLaws D}.

(** After an emit that failed, possibly half way, the backend trusts nothing:
    the cache is dropped and the next write sends every control of the seat, so
    its success establishes the whole state. *)
Theorem failed_emit_rewrites_all next current (d d' : D) out e :
  output_write next current d = (out, d', Err e) ->
  out = None /\
  (forall next', map ev_key (output_events out next') = map control_key CONTROLS) /\
  forall next' d'' u, is_seat d ->
    output_write next' out d' = (Some next', d'', Ok u) -> shows d'' next'.
Proof.
  intros Hw. unfold output_write in Hw.
  destruct (output_events current next) as [|ev evs]; [done|].
  pose proof (k_emit_setup (ev :: evs) d) as Hsu.
  destruct (k_emit (ev :: evs) d) as [d1 [u|m]]; [done|]. injection Hw as <- <- _. simpl in Hsu.
  split; [done|]. split; [done|]. intros next' d'' u [spec Hspec] Hw'.
  destruct (output_write_sound EmptyString next' None d1 (Some next') d'' (Ok u)) as [[_ Hs] _]; [|done|by apply Hs].
  split; [|done]. exists spec. simpl. congruence.
Qed.

(** C2: End to end, over the uinput backend: while no failure is latched, every
    kernel device of a seat reads neutral on all its controls, unless the route
    is on a session and the seat belongs to an armed, connected controller whose
    last state the device then reads exactly. *)
Theorem kernel_reads_authorized_state parse (rt : SeatRuntime Sealed) i s :
  rt_reachable parse rt -> faulted rt = false -> feedback_failed rt = false ->
  seats (pool rt) !! i = Some s ->
  exists seat, devices (unseal (backend (pool rt))) !! seat_slot s = Some seat /\
    (shows (sd_device seat) neutral \/
     game_route rt = true /\ is_Some (session (pool rt)) /\
     exists key src, binding s = Some (MkBinding key true) /\ sources rt !! key = Some src /\
       requires_neutral src = false /\ shows (sd_device seat) (src_state src)).
Proof.
  intros Hr Hf Hff Hi. destruct (reachable_inv _ _ Hr) as [Hc Hl].
  destruct (Hl Hf) as [[_ Hd] Hg].
  assert (Hshow : forall st, known_state s = Some st -> exists seat,
    devices (unseal (backend (pool rt))) !! seat_slot s = Some seat /\ shows (sd_device seat) st).
  { intros st Hst. pose proof (Hd i s st Hi Hst) as Hb. simpl in Hb.
    apply bind_Some in Hb as (seat & Hs & Ho). exists seat. split; [done|].
    by apply (sealed_sound (backend (pool rt)) _ _ Hs). }
  destruct (Hg Hff i s Hi) as [Hn|(Hro & key & src & Hb & Hk & Hn & Hst)].
  - destruct (Hshow _ Hn) as (seat & Hs & Hsh). exists seat. auto.
  - destruct (Hshow _ Hst) as (seat & Hs & Hsh). exists seat. split; [done|]. right.
    split; [done|]. split; [by apply Hc|]. exists key, src. done.
Qed.
End properties.

(** ** A simulated kernel *)

Record SimDevice := MkSim { sim_setup : DeviceSetup; sim_values : gmap (Z * Z) Z }.

Definition sim_apply (d : SimDevice) (e : InputEvent) : SimDevice :=
  if declares (sim_setup d) (ev_type e) (ev_code e)
  then MkSim (sim_setup d) (<[(ev_type e, ev_code e) := ev_value e]> (sim_values d))
  else d.

Definition sim_control (d : SimDevice) (t c : Z) : Z := default 0 (sim_values d !! (t, c)).

#[export] Instance sim_kernel : Kernel SimDevice := {|
  k_listing := Ok [Ok (MkEntry "event0" (Some "Power Button") None)];
  k_build su := Ok (MkSim su ∅);
  k_polls _ := [None; Some [("/dev/input/event7", Some (104, 8624))]];
  k_emit events d := (fold_left sim_apply events d, Ok ());
  k_setup := sim_setup;
  k_control := sim_control;
|}.

Lemma sim_fold_setup events d : sim_setup (fold_left sim_apply events d) = sim_setup d.
Proof.
  revert d; induction events as [|e events IH]; intros d; simpl; [done|].
  rewrite IH. unfold sim_apply. by destruct (declares _ _ _).
Qed.

#[export] Instance sim_kernel_laws : KernelLaws SimDevice.
Proof.
  split.
  - by intros su d [= <-].
  - by intros su d t c [= <-].
  - intros events d. apply sim_fold_setup.
  - intros events d d' u t c [= <- _]. simpl. unfold last_value.
    revert d; induction events as [|e events IH]; intros d; simpl; [done|].
    assert (Hs : sim_setup (sim_apply d e) = sim_setup d).
    { unfold sim_apply. by destruct (declares _ _ _). }
    rewrite IH, Hs. f_equal. unfold sim_apply, sim_control.
    destruct (Z.eqb_spec (ev_type e) t) as [<-|Ht], (Z.eqb_spec (ev_code e) c) as [<-|Hc]; simpl;
      match goal with |- context [declares ?s (ev_type e) (ev_code e)] =>
        destruct (declares s (ev_type e) (ev_code e)) end; simpl; try done;
      rewrite ?lookup_insert_eq, ?lookup_insert_ne by congruence; done.
Defined.

Definition sealed_start : SeatRuntime (Sealed (D := SimDevice)) :=
  match boot (seal_new 104) with
  | Ok rt => rt
  | Err _ => MkRuntime (MkPool (seal_new 104) [] None) ∅ None false Attached true true true []
  end.

Definition sealed_run (l : list (SeatRequest * Z)) (rt : SeatRuntime (Sealed (D := SimDevice))) :=
  fold_left (fun rt '(request, now) => (coordinate request now rt).1) l rt.

Lemma sealed_run_reachable parse l rt :
  Forall (fun q => request_in_range q.1) l -> rt_reachable parse rt ->
  rt_reachable parse (sealed_run l rt).
Proof.
  intros Hl; revert rt; induction Hl as [|[q now] l Hq _ IH]; intros rt Hr; simpl; [done|].
  apply IH. eapply rr_step; [exact Hr|]. by apply st_coordinate.
Qed.

Definition sealed_demo : SeatRuntime (Sealed (D := SimDevice)) := sealed_run demo_requests sealed_start.

Lemma sealed_demo_reachable : rt_reachable demo_parse sealed_demo.
Proof.
  apply sealed_run_reachable.
  - repeat constructor; try (vm_compute; intuition congruence).
  - apply (rr_boot _ (seal_new 104)). unfold sealed_start.
    assert (Hok : is_ok (boot (seal_new (D := SimDevice) 104)) = true) by (vm_compute; reflexivity).
    by destruct (boot (seal_new 104)).
Qed.

Lemma kernel_reads_authorized_state_witness :
  exists seat, devices (unseal (backend (pool sealed_demo))) !! 1 = Some seat /\
    k_control (sd_device seat) EV_ABS ABS_X = 20000.
Proof.
  destruct (kernel_reads_authorized_state demo_parse sealed_demo 0
              (MkSeat 1 (Some (MkBinding (KPhysical "pad0") true)) (Some demo_pad))
              sealed_demo_reachable) as (seat & Hs & _).
  - vm_compute. reflexivity.
  - vm_compute. reflexivity.
  - vm_compute. reflexivity.
  - exists seat. split; [exact Hs|]. vm_compute in Hs. injection Hs as <-. reflexivity.
Defined.

(** A device that takes one event and then fails, once. *)
Record FlakyDevice := MkFlaky { fl_device : SimDevice; fl_fail : bool }.

#[export] Instance flaky_kernel : Kernel FlakyDevice := {|
  k_listing := Ok [];
  k_build su := Ok (MkFlaky (MkSim su ∅) true);
  k_polls _ := [];
  k_emit events d :=
    if fl_fail d then (MkFlaky (fold_left sim_apply (take 1 events) (fl_device d)) false, Err "EIO")
    else (MkFlaky (fold_left sim_apply events (fl_device d)) false, Ok ());
  k_setup d := sim_setup (fl_device d);
  k_control d := sim_control (fl_device d);
|}.

#[export] Instance flaky_kernel_laws : KernelLaws FlakyDevice.
Proof.
  split.
  - by intros su d [= <-].
  - by intros su d t c [= <-].
  - intros events [d []]; simpl; apply sim_fold_setup.
  - intros events [d []] d' u t c; simpl; [done|]. intros [= <- _]. simpl.
    exact (k_emit_sets (D := SimDevice) events d _ () t c eq_refl).
Defined.

Definition flaky_start : FlakyDevice :=
  match device_setup (spec_for_slot 1) with
  | Ok su => MkFlaky (MkSim su ∅) true
  | Err _ => MkFlaky (MkSim (MkSetup EmptyString EmptyString (0, 0, 0, 0) [] []) ∅) true
  end.

Lemma failed_emit_rewrites_all_witness :
  let w := output_write demo_pad (Some neutral) flaky_start in
  w.2 = Err "EIO" /\ shows (output_write neutral w.1.1 w.1.2).1.2 neutral.
Proof.
  destruct (failed_emit_rewrites_all demo_pad (Some neutral) flaky_start
              (output_write demo_pad (Some neutral) flaky_start).1.2
              (output_write demo_pad (Some neutral) flaky_start).1.1 "EIO")
    as (_ & _ & Hs); [vm_compute; reflexivity|].
  split; [reflexivity|]. apply (Hs neutral _ ()).
  - exists (spec_for_slot 1). vm_compute. reflexivity.
  - vm_compute. reflexivity.
Defined.
