(* ===== verification/Catalog.v ===== *)
(** * Action catalog (services/inputd/src/action_catalog.rs)

    The closed set of device actions, what triggers each and which of them the
    environment may bind to a command.

    [serde_json] ([parse_action]) and the file system ([canonicalize],
    [metadata]) are parameters. An [OsString] or a [PathBuf] is its bytes. *)

From stdpp Require Import finite.
From S2P Require Import Prelude Text Controls.

Inductive ActionId : Type :=
| ControllerActivity | SystemPanel | KillCurrentGame | ActVolumeUp | ActVolumeDown
| BrightnessUp | BrightnessDown | PowerSuspend | LidClosed | LidOpened | ScreenSwitch
| ToggleBottomScreen | ToggleTopScreen | WorkspacePrev | WorkspaceNext | MoveOutputUp
| MoveOutputDown | ToggleBottomKeyboard | ToggleSteamVisibility.

#[export] Instance ActionId_eq_dec : EqDecision ActionId.
Proof. solve_decision. Defined.

Definition all_actions : list ActionId :=
  [ControllerActivity; SystemPanel; KillCurrentGame; ActVolumeUp; ActVolumeDown; BrightnessUp;
   BrightnessDown; PowerSuspend; LidClosed; LidOpened; ScreenSwitch; ToggleBottomScreen;
   ToggleTopScreen; WorkspacePrev; WorkspaceNext; MoveOutputUp; MoveOutputDown;
   ToggleBottomKeyboard; ToggleSteamVisibility].

Lemma all_actions_complete id : id ∈ all_actions.
Proof. destruct id; by apply (bool_decide_unpack _). Qed.

#[export] Instance ActionId_finite : Finite ActionId.
Proof. refine {| enum := all_actions |}; [decide_vm|apply all_actions_complete]. Defined.

Definition as_str (id : ActionId) : string :=
  match id with
  | ControllerActivity => "controller-activity"
  | SystemPanel => "system-panel"
  | KillCurrentGame => "kill-current-game"
  | ActVolumeUp => "volume-up"
  | ActVolumeDown => "volume-down"
  | BrightnessUp => "brightness-up"
  | BrightnessDown => "brightness-down"
  | PowerSuspend => "power-suspend"
  | LidClosed => "lid-closed"
  | LidOpened => "lid-opened"
  | ScreenSwitch => "screen-switch"
  | ToggleBottomScreen => "toggle-bottom-screen"
  | ToggleTopScreen => "toggle-top-screen"
  | WorkspacePrev => "workspace-prev"
  | WorkspaceNext => "workspace-next"
  | MoveOutputUp => "move-output-up"
  | MoveOutputDown => "move-output-down"
  | ToggleBottomKeyboard => "toggle-bottom-keyboard"
  | ToggleSteamVisibility => "toggle-steam-visibility"
  end.

Inductive DispatchMode : Type := Direct | ExactPanel | ExactStop.

#[export] Instance DispatchMode_eq_dec : EqDecision DispatchMode.
Proof. solve_decision. Defined.

Record Chord := MkChord { ch_controls : list Control; ch_exact : bool }.

Inductive Trigger : Type :=
| Activity
| Tap (control : Control)
| Press (control : Control)
| Chords (chords : list Chord)
| ChordsAndConfiguredBackTap (chords : list Chord)
| ConfiguredBackTap
| Unsupported.

Record ActionCatalogEntry := MkAction {
  ac_id : ActionId;
  environment_name : string;
  trigger : Trigger;
  dispatch_mode : DispatchMode;
}.

Definition WORKSPACE_PREV : list Chord :=
  [MkChord [Home; DpadLeft] false; MkChord [Home; L1] false].
Definition WORKSPACE_NEXT : list Chord :=
  [MkChord [Home; DpadRight] false; MkChord [Home; R1] false].
Definition BRIGHTNESS_UP : list Chord := [MkChord [Home; VolumeUp] false].
Definition BRIGHTNESS_DOWN : list Chord := [MkChord [Home; VolumeDown] false].
Definition MOVE_OUTPUT_UP : list Chord := [MkChord [Home; DpadUp] false].
Definition MOVE_OUTPUT_DOWN : list Chord := [MkChord [Home; DpadDown] false].
Definition SCREEN_SWITCH : list Chord := [MkChord [Home; Back] false].
Definition TOGGLE_BOTTOM_SCREEN : list Chord := [MkChord [Home; L3] true].
Definition TOGGLE_TOP_SCREEN : list Chord := [MkChord [Home; R3] true].
Definition TOGGLE_BOTTOM_KEYBOARD : list Chord := [MkChord [Home; X] false].
Definition KILL_CURRENT_GAME : list Chord := [MkChord [L1; R1; Start; Select] true].

Definition ACTION_CATALOG : list ActionCatalogEntry :=
  [MkAction ControllerActivity "KORRI_INPUTD_CONTROLLER_ACTIVITY" Activity Direct;
   MkAction SystemPanel "KORRI_INPUTD_SYSTEM_PANEL" (Tap Home) ExactPanel;
   MkAction KillCurrentGame "KORRI_INPUTD_KILL_CURRENT_GAME" (Chords KILL_CURRENT_GAME) ExactStop;
   MkAction ActVolumeUp "KORRI_INPUTD_VOLUME_UP" (Press VolumeUp) Direct;
   MkAction ActVolumeDown "KORRI_INPUTD_VOLUME_DOWN" (Press VolumeDown) Direct;
   MkAction BrightnessUp "KORRI_INPUTD_BRIGHTNESS_UP" (Chords BRIGHTNESS_UP) Direct;
   MkAction BrightnessDown "KORRI_INPUTD_BRIGHTNESS_DOWN" (Chords BRIGHTNESS_DOWN) Direct;
   MkAction PowerSuspend "KORRI_INPUTD_POWER_SUSPEND" Unsupported Direct;
   MkAction LidClosed "KORRI_INPUTD_LID_CLOSED" Unsupported Direct;
   MkAction LidOpened "KORRI_INPUTD_LID_OPENED" Unsupported Direct;
   MkAction ScreenSwitch "KORRI_INPUTD_SCREEN_SWITCH" (Chords SCREEN_SWITCH) Direct;
   MkAction ToggleBottomScreen "KORRI_INPUTD_TOGGLE_BOTTOM_SCREEN" (Chords TOGGLE_BOTTOM_SCREEN) Direct;
   MkAction ToggleTopScreen "KORRI_INPUTD_TOGGLE_TOP_SCREEN" (Chords TOGGLE_TOP_SCREEN) Direct;
   MkAction WorkspacePrev "KORRI_INPUTD_WORKSPACE_PREV" (Chords WORKSPACE_PREV) Direct;
   MkAction WorkspaceNext "KORRI_INPUTD_WORKSPACE_NEXT" (Chords WORKSPACE_NEXT) Direct;
   MkAction MoveOutputUp "KORRI_INPUTD_MOVE_OUTPUT_UP" (Chords MOVE_OUTPUT_UP) Direct;
   MkAction MoveOutputDown "KORRI_INPUTD_MOVE_OUTPUT_DOWN" (Chords MOVE_OUTPUT_DOWN) Direct;
   MkAction ToggleBottomKeyboard "KORRI_INPUTD_BOTTOM_KEYBOARD"
     (ChordsAndConfiguredBackTap TOGGLE_BOTTOM_KEYBOARD) Direct;
   MkAction ToggleSteamVisibility "KORRI_INPUTD_TOGGLE_STEAM_VISIBILITY" ConfiguredBackTap Direct].

(** [TryFrom<&str>]. *)
Definition action_try_from (value : string) : option ActionId :=
  ac_id <$> find (fun entry => bool_decide (as_str (ac_id entry) = value)) ACTION_CATALOG.

(** [expect]s that the id is found. *)
Definition find_action (id : ActionId) : option ActionCatalogEntry :=
  find (fun entry => bool_decide (ac_id entry = id)) ACTION_CATALOG.

Definition action_entry (id : ActionId) : ActionCatalogEntry :=
  default (MkAction id EmptyString Unsupported Direct) (find_action id).

(** ** Configuration *)

Inductive ActionConfigError : Type :=
| ExecutableNotAbsolute (path : string)
| ExecutableContainsNul
| ArgumentContainsNul
| InvalidEnvironmentName
| InvalidEnvironmentValue
| ZeroConcurrency
| ZeroTimeout
| ZeroOutputLimit
| ControlGroupRetained
| PrivilegedActionIdentity
| DestructiveCommandOverride
| CommandIsNotUtf8
| CommandIsNotExplicitArgv
| ExecutableNotImmutable (path : string)
| ExecutableTraversal (path : string)
| ExecutableNotRegular (path : string)
| ExecutableNotExecutable (path : string)
| UnsupportedConfiguredAction (id : ActionId)
| UnsupportedTriggerConfiguration (name : string)
| ContainmentUnavailable (message : string).

Notation OsEnv := (gmap string string).

Record ActionRoutes := MkRoutes { back_tap : option ActionId }.

Definition routes_default : ActionRoutes := MkRoutes None.

Definition routes_from_environment (environment : OsEnv) : result ActionConfigError ActionRoutes :=
  match environment !! "KORRI_INPUTD_BACK_TAP_ACTION" ≫= to_str with
  | None => Ok (MkRoutes None)
  | Some value =>
      if bool_decide (value = "toggle-bottom-keyboard") then Ok (MkRoutes (Some ToggleBottomKeyboard))
      else if bool_decide (value = "toggle-steam-visibility")
      then Ok (MkRoutes (Some ToggleSteamVisibility))
      else Err (UnsupportedTriggerConfiguration "KORRI_INPUTD_BACK_TAP_ACTION")
  end.

Definition is_reachable (routes : ActionRoutes) (entry : ActionCatalogEntry) : bool :=
  match trigger entry with
  | Unsupported => false
  | ConfiguredBackTap => bool_decide (back_tap routes = Some (ac_id entry))
  | _ => true
  end.

Record ActionCommand := MkCommand {
  executable : string;
  argv : list string;
  cmd_environment : OsEnv;
}.

(** The map from ids to commands. *)
Notation ActionCommands := (gmap ActionId ActionCommand).

Record ConfiguredAction := MkConfigured {
  ca_executable : string;
  ca_argv : list string;
  ca_environment : OsEnv;
}.

(** [path.strip_prefix("/nix/store")], then a normal component that is not the last. *)
Definition store_item (path : string) : option string :=
  if is_absolute path then
    match path_components path with
    | nix :: store :: item :: _ :: _ =>
        if bool_decide (nix = "nix") && bool_decide (store = "store")
           && negb (bool_decide (item = ".."))
        then Some item else None
    | _ => None
    end
  else None.

Definition has_traversal (path : string) : bool :=
  existsb (fun c => bool_decide (c = ".") || bool_decide (c = "..")) (split_on SLASH path).

(** [std::fs]: the canonical path, and whether it is a regular file with its mode. *)
Record FileSystem := MkFs {
  canonicalize : string -> option string;
  metadata : string -> option (bool * Z);
}.

Section configuration.
Variable fs : FileSystem.
Variable parse_action : string -> option ConfiguredAction.

Definition canonical_immutable_executable (path : string) : result ActionConfigError string :=
  if has_traversal path then Err (ExecutableTraversal path)
  else
    match store_item path, canonicalize fs path with
    | Some raw_item, Some canonical =>
        match store_item canonical with
        | None => Err (ExecutableNotImmutable path)
        | Some canonical_item =>
            if negb (bool_decide (raw_item = canonical_item)) then Err (ExecutableNotImmutable path)
            else
              match metadata fs canonical with
              | None => Err (ExecutableNotRegular canonical)
              | Some (is_file, mode) =>
                  if negb is_file then Err (ExecutableNotRegular canonical)
                  else if Z.land mode 73 =? 0 then Err (ExecutableNotExecutable canonical)
                  else Ok canonical
              end
        end
    | _, _ => Err (ExecutableNotImmutable path)
    end.

(** The first bad pair in the order of the map. *)
Fixpoint check_environment (entries : list (string * string)) : result ActionConfigError unit :=
  match entries with
  | [] => Ok ()
  | (name, value) :: entries =>
      if str_is_empty name || any_char (is_byte 61) name || has_nul name
      then Err InvalidEnvironmentName
      else if has_nul value then Err InvalidEnvironmentValue
      else check_environment entries
  end.

Definition action_command_new (exe : string) (args : list string) (environment : OsEnv)
    : result ActionConfigError ActionCommand :=
  if negb (is_absolute exe) then Err (ExecutableNotAbsolute exe)
  else if has_nul exe then Err ExecutableContainsNul
  else
    match check_environment (btree_entries environment) with
    | Err e => Err e
    | Ok _ =>
        if existsb has_nul args then Err ArgumentContainsNul
        else
          match canonical_immutable_executable exe with
          | Err e => Err e
          | Ok canonical => Ok (MkCommand canonical args environment)
          end
    end.

(** One entry of the catalog: the command it configures, if any. *)
Definition configure_entry (routes : ActionRoutes) (environment : OsEnv) (entry : ActionCatalogEntry)
    : result ActionConfigError (option ActionCommand) :=
  if bool_decide (dispatch_mode entry = ExactStop) then Ok None
  else
    match environment !! environment_name entry with
    | None => Ok None
    | Some raw =>
        if negb (is_reachable routes entry) then Err (UnsupportedConfiguredAction (ac_id entry))
        else
          match to_str raw with
          | None => Err CommandIsNotUtf8
          | Some raw =>
              match parse_action raw with
              | None => Err CommandIsNotExplicitArgv
              | Some configured =>
                  match canonical_immutable_executable (ca_executable configured) with
                  | Err e => Err e
                  | Ok exe =>
                      match action_command_new exe (ca_argv configured) (ca_environment configured) with
                      | Err e => Err e
                      | Ok command => Ok (Some command)
                      end
                  end
              end
          end
    end.

Fixpoint configure (routes : ActionRoutes) (environment : OsEnv) (entries : list ActionCatalogEntry)
    (commands : ActionCommands) : result ActionConfigError ActionCommands :=
  match entries with
  | [] => Ok commands
  | entry :: entries =>
      match configure_entry routes environment entry with
      | Err e => Err e
      | Ok None => configure routes environment entries commands
      | Ok (Some command) =>
          configure routes environment entries (<[ac_id entry := command]> commands)
      end
  end.

Definition commands_from_environment (environment : OsEnv)
    : result ActionConfigError (ActionCommands * ActionRoutes) :=
  if is_some (environment !! environment_name (action_entry KillCurrentGame))
  then Err DestructiveCommandOverride
  else
    match routes_from_environment environment with
    | Err e => Err e
    | Ok routes =>
        match configure routes environment ACTION_CATALOG ∅ with
        | Err e => Err e
        | Ok commands => Ok (commands, routes)
        end
    end.
End configuration.

(** ** Properties *)

(** The catalog and the ids agree in both directions: every id has exactly
    one entry, [action_entry] finds it (its [expect] cannot fail), and parsing a
    name gives back the one id that prints it. *)
Theorem catalog_complete id value :
  (exists entry, find_action id = Some entry /\ ac_id entry = id /\
     forall entry', entry' ∈ ACTION_CATALOG -> ac_id entry' = id -> entry' = entry) /\
  (action_try_from value = Some id <-> value = as_str id).
Proof.
  split.
  - destruct id; eexists; (split; [reflexivity|]; split; [reflexivity|]);
      intros entry' Hin Hid; repeat (apply elem_of_cons in Hin as [->|Hin]; [by simplify_eq|]);
      by apply not_elem_of_nil in Hin.
  - split; [|intros ->; by destruct id].
    unfold action_try_from. intros (entry & Hf & ->)%fmap_Some.
    apply find_Some in Hf as [_ Hb]. by apply bool_decide_eq_true in Hb.
Qed.

(** What a configured command satisfies. *)
Definition command_ok (fs : FileSystem) (command : ActionCommand) : Prop :=
  (exists item, store_item (executable command) = Some item) /\
  (exists mode, metadata fs (executable command) = Some (true, mode) /\ Z.land mode 73 <> 0) /\
  Forall (fun a => has_nul a = false) (argv command) /\
  forall name value, cmd_environment command !! name = Some value ->
    name <> EmptyString /\ has_nul name = false /\ has_nul value = false.

Lemma canonical_ok fs path exe :
  canonical_immutable_executable fs path = Ok exe ->
  (exists item, store_item exe = Some item) /\
  exists mode, metadata fs exe = Some (true, mode) /\ Z.land mode 73 <> 0.
Proof.
  unfold canonical_immutable_executable. destruct (has_traversal path); [done|].
  destruct (store_item path) as [raw|]; [|done].
  destruct (canonicalize fs path) as [canonical|]; [|done].
  destruct (store_item canonical) as [item|] eqn:Hi; [|done].
  destruct (negb _); [done|]. destruct (metadata fs canonical) as [[[] mode]|] eqn:Hm; try done.
  simpl. destruct (Z.eqb_spec (Z.land mode 73) 0); [done|]. intros [= <-]. eauto.
Qed.

Lemma check_environment_ok entries name value u :
  check_environment entries = Ok u -> (name, value) ∈ entries ->
  name <> EmptyString /\ has_nul name = false /\ has_nul value = false.
Proof.
  induction entries as [|[n v] entries IH]; simpl; [by intros _ Hin%not_elem_of_nil|].
  destruct (str_is_empty n || any_char (is_byte 61) n || has_nul n) eqn:Hn; [done|].
  destruct (has_nul v) eqn:Hv; [done|]. intros Hc [[= -> ->]|Hin]%elem_of_cons; [|by apply IH].
  apply orb_false_elim in Hn as [[He _]%orb_false_elim Hn]. repeat split; try done.
  by intros ->.
Qed.

Lemma action_command_ok fs exe args env command :
  action_command_new fs exe args env = Ok command -> command_ok fs command.
Proof.
  unfold action_command_new. destruct (negb (is_absolute exe)); [done|].
  destruct (has_nul exe); [done|].
  destruct (check_environment (btree_entries env)) as [u|] eqn:Hc; [|done].
  destruct (existsb has_nul args) eqn:Ha; [done|].
  destruct (canonical_immutable_executable fs exe) as [canonical|] eqn:He; [|done].
  intros [= <-]. apply canonical_ok in He as [Hi Hm]. split; [done|]. split; [done|]. split; simpl.
  - apply Forall_forall. intros a Hin. destruct (has_nul a) eqn:E; [|done].
    rewrite <- Ha. symmetry. apply existsb_exists. exists a. by rewrite <- list_elem_of_In.
  - intros name value Hl. eapply check_environment_ok; [exact Hc|]. by apply elem_of_btree_entries.
Qed.

Definition command_allowed (fs : FileSystem) (routes : ActionRoutes) (environment : OsEnv)
    (id : ActionId) (command : ActionCommand) : Prop :=
  dispatch_mode (action_entry id) <> ExactStop /\ is_reachable routes (action_entry id) = true /\
  is_Some (environment !! environment_name (action_entry id)) /\ command_ok fs command.

Lemma configure_entry_ok fs parse routes env entry command :
  entry ∈ ACTION_CATALOG -> configure_entry fs parse routes env entry = Ok (Some command) ->
  command_allowed fs routes env (ac_id entry) command.
Proof.
  intros Hin. unfold configure_entry, command_allowed.
  assert (action_entry (ac_id entry) = entry) as ->.
  { repeat (apply elem_of_cons in Hin as [->|Hin]; [reflexivity|]). by apply not_elem_of_nil in Hin. }
  case_bool_decide as Hd; [done|].
  destruct (env !! environment_name entry) as [raw|] eqn:Hraw; [|done].
  destruct (is_reachable routes entry); simpl; [|done].
  destruct (to_str raw) as [text|]; [|done]. destruct (parse text) as [configured|]; [|done].
  destruct (canonical_immutable_executable _ _) as [exe|]; [|done].
  destruct (action_command_new _ _ _ _) as [c|] eqn:Hc; [|done]. intros [= <-].
  split; [done|]. split; [done|]. split; [eauto|]. by eapply action_command_ok.
Qed.

Lemma configure_ok fs parse routes env entries commands commands' :
  entries ⊆ ACTION_CATALOG ->
  configure fs parse routes env entries commands = Ok commands' ->
  (forall id c, commands !! id = Some c -> command_allowed fs routes env id c) ->
  forall id c, commands' !! id = Some c -> command_allowed fs routes env id c.
Proof.
  revert commands; induction entries as [|entry entries IH]; intros commands Hsub; simpl.
  { by intros [= <-]. }
  destruct (configure_entry fs parse routes env entry) as [[command|]|] eqn:He; [| |done].
  - intros Hc Hall. eapply IH; [set_solver|exact Hc|]. intros id c.
    destruct (decide (ac_id entry = id)) as [<-|Hne].
    + rewrite lookup_insert_eq. intros [= <-].
      apply (configure_entry_ok fs parse); [set_solver|done].
    + rewrite lookup_insert_ne by done. apply Hall.
  - apply IH. set_solver.
Qed.

(** No environment binds a command to the destructive action: an environment
    that names it is refused, and every command of an accepted environment is
    one the environment names, of a reachable non-destructive action, whose
    executable is a regular executable file in the immutable store and whose
    arguments and environment hold no NUL. *)
Theorem configured_commands_safe fs parse environment commands routes :
  commands_from_environment fs parse environment = Ok (commands, routes) ->
  commands !! KillCurrentGame = None /\
  environment !! "KORRI_INPUTD_KILL_CURRENT_GAME" = None /\
  forall id command, commands !! id = Some command ->
    command_allowed fs routes environment id command.
Proof.
  unfold commands_from_environment.
  change (environment_name (action_entry KillCurrentGame)) with "KORRI_INPUTD_KILL_CURRENT_GAME".
  destruct (environment !! "KORRI_INPUTD_KILL_CURRENT_GAME") eqn:Hkill; cbn [is_some]; [done|].
  destruct (routes_from_environment environment) as [r|]; [|done].
  destruct (configure fs parse r environment ACTION_CATALOG ∅) as [c|] eqn:Hc; [|done].
  intros [= <- <-].
  assert (Hall : forall id command, c !! id = Some command ->
            command_allowed fs r environment id command).
  { eapply configure_ok; [done|exact Hc|]. intros id c0. by rewrite lookup_empty. }
  split; [|done]. destruct (c !! KillCurrentGame) as [k|] eqn:Hk; [|done].
  apply Hall in Hk as [Hd _]. by destruct Hd.
Qed.

(** A store with one executable, and a parser that always reads it. *)
Definition demo_exe : string := "/nix/store/abc-volume/bin/volume".
Definition demo_fs : FileSystem :=
  MkFs (fun p => if bool_decide (p = demo_exe) then Some demo_exe else None)
       (fun p => if bool_decide (p = demo_exe) then Some (true, 33133) else None).
Definition demo_parse_action (raw : string) : option ConfiguredAction :=
  Some (MkConfigured demo_exe ["up"] (<["LANG" := "C"]> ∅)).
Definition demo_env : OsEnv := <["KORRI_INPUTD_VOLUME_UP" := "{}"]> ∅.

Lemma configured_commands_safe_witness :
  exists commands, commands_from_environment demo_fs demo_parse_action demo_env
    = Ok (commands, routes_default) /\ is_Some (commands !! ActVolumeUp) /\
    commands !! KillCurrentGame = None.
Proof.
  eexists. split; [vm_compute; reflexivity|]. split; [vm_compute; eexists; reflexivity|].
  refine (proj1 (configured_commands_safe demo_fs demo_parse_action demo_env _ routes_default _)).
  vm_compute. reflexivity.
Defined.
