(* ===== verification/Topology.v ===== *)
(** * Source topology (services/inputd/src/source_topology.rs)

    Classifies the sources of one InputPlumber composite from the kernel's
    capability bitmaps. [read_file] is [std::fs::read_to_string], [None] on any
    error. *)

From S2P Require Import Prelude Text.

Definition SYSTEM_SYSFS_ROOT : string := "/sys".
Definition BITS_PER_WORD : Z := 64.
Definition GAMEPAD_KEY_RANGES : list (Z * Z) := [(288, 319); (544, 547); (704, 743)].
Definition KEY_BTN_MODE : Z := 316.

Inductive SourceClass : Type := Gamepad | NonGamepad | Unknown.

#[export] Instance SourceClass_eq_dec : EqDecision SourceClass.
Proof. solve_decision. Defined.

Inductive SourceTopology : Type := MissingGamepad | OneGamepad | AmbiguousGamepads.

#[export] Instance SourceTopology_eq_dec : EqDecision SourceTopology.
Proof. solve_decision. Defined.

(** Collects the words, failing on the first malformed one. *)
Fixpoint parse_words (words : list string) : option (list Z) :=
  match words with
  | [] => Some []
  | word :: words =>
      if (BITS_PER_WORD / 4 <? str_len word) || negb (all_chars is_ascii_hexdigit word) then None
      else match from_hex u64_max word, parse_words words with
           | Some n, Some ns => Some (n :: ns)
           | _, _ => None
           end
  end.

(** The words least significant first, or [None] when malformed. *)
Definition parse_bitmap (content : string) : option (list Z) :=
  match parse_words (split_whitespace content) with
  | None | Some [] => None
  | Some words => Some (reverse words)
  end.

Definition bitmap_has (words : list Z) (bit : Z) : bool :=
  is_some_and (words !! Z.to_nat (bit / BITS_PER_WORD)) (fun word =>
    negb (Z.land word (Z.shiftl 1 (bit mod BITS_PER_WORD)) =? 0)).

Definition bits (first last : Z) : list Z := seqZ first (last - first + 1).

Definition has_gamepad_key (keys : list Z) : bool :=
  existsb (fun '(first, last) =>
    existsb (fun bit => negb (bit =? KEY_BTN_MODE) && bitmap_has keys bit) (bits first last))
    GAMEPAD_KEY_RANGES.

Section classifier.
Variable read_file : string -> option string.
Variable sysfs_root : string.

(** [None] when the source cannot be classified. *)
Definition is_non_gamepad (source_path : string) : option bool :=
  event ← strip_prefix "/dev/input/" source_path;
  number ← strip_prefix "event" event;
  if str_is_empty number || negb (all_chars is_ascii_digit number) then None
  else
    let capabilities :=
      path_join (path_join (path_join sysfs_root "class/input") event) "device/capabilities" in
    let read name := read_file (path_join capabilities name) ≫= parse_bitmap in
    keys ← read "key";
    axes ← read "abs";
    Some (negb (has_gamepad_key keys) && negb (existsb (fun word => negb (word =? 0)) axes)).

Definition classify (source_path : string) : SourceClass :=
  match is_non_gamepad source_path with
  | Some true => NonGamepad
  | Some false => Gamepad
  | None => Unknown
  end.

(** The loop of [topology]: [None] is its early return. *)
Fixpoint count_gamepads (single : bool) (paths : list string) (gamepads : Z) : option Z :=
  match paths with
  | [] => Some gamepads
  | path :: paths =>
      match classify path with
      | Gamepad => count_gamepads single paths (gamepads + 1)
      | NonGamepad => count_gamepads single paths gamepads
      | Unknown => if single then count_gamepads single paths (gamepads + 1) else None
      end
  end.

Definition topology (source_paths : list string) : SourceTopology :=
  match count_gamepads (Z.of_nat (length source_paths) =? 1) source_paths 0 with
  | None => AmbiguousGamepads
  | Some gamepads =>
      if gamepads =? 0 then MissingGamepad
      else if gamepads =? 1 then OneGamepad
      else AmbiguousGamepads
  end.

Lemma count_gamepads_spec single paths n :
  match count_gamepads single paths n with
  | Some m => m = n + Z.of_nat (length (keep (fun p => negb (bool_decide (classify p = NonGamepad))) paths))
      /\ (single = false -> forall p, p ∈ paths -> classify p <> Unknown)
  | None => single = false /\ exists p, p ∈ paths /\ classify p = Unknown
  end.
Proof.
  revert n; induction paths as [|p paths IH]; intros n; simpl.
  { split; [lia|]. intros _ p Hp. by apply not_elem_of_nil in Hp. }
  destruct (classify p) eqn:Hp; simpl.
  - specialize (IH (n + 1)). destruct (count_gamepads single paths (n + 1)).
    + destruct IH as [-> Hu]. split; [lia|]. intros Hs q [->|Hq]%elem_of_cons; [congruence|auto].
    + destruct IH as (? & q & ? & ?). split; [done|]. exists q. split; [by right|done].
  - specialize (IH n). destruct (count_gamepads single paths n).
    + destruct IH as [-> Hu]. split; [lia|]. intros Hs q [->|Hq]%elem_of_cons; [congruence|auto].
    + destruct IH as (? & q & ? & ?). split; [done|]. exists q. split; [by right|done].
  - destruct single.
    + specialize (IH (n + 1)). destruct (count_gamepads true paths (n + 1)).
      * destruct IH as [-> Hu]. split; [lia|done].
      * by destruct IH.
    + split; [done|]. exists p. split; [left|done].
Qed.

Lemma keep_none {A} (f : A -> bool) l : keep f l = [] <-> forall x, x ∈ l -> f x = false.
Proof.
  induction l as [|y l IH]; simpl.
  { split; [|done]. intros _ x Hx. by apply not_elem_of_nil in Hx. }
  destruct (f y) eqn:Hy.
  - split; [done|]. intros Ha. rewrite (Ha y) in Hy; [done|left].
  - rewrite IH. split.
    + intros Ha x [->|?]%elem_of_cons; auto.
    + intros Ha x ?. apply Ha. by right.
Qed.

(** What the topology says of a composite. It is missing exactly when every
    source is known not to be a gamepad; a composite with one gamepad has exactly
    one source that is not a known non-gamepad, and when it merges several
    sources that one is positively a gamepad and none is unclassified. *)
Theorem topology_spec paths :
  (topology paths = MissingGamepad <-> forall p, p ∈ paths -> classify p = NonGamepad) /\
  (topology paths = OneGamepad ->
     exists p, keep (fun q => negb (bool_decide (classify q = NonGamepad))) paths = [p] /\
       (classify p = Gamepad \/ paths = [p]) /\
       (length paths <> 1%nat -> forall q, q ∈ paths -> classify q <> Unknown)).
Proof.
  unfold topology. set (single := Z.of_nat (length paths) =? 1).
  pose proof (count_gamepads_spec single paths 0) as Hc.
  set (others := keep _ paths) in *.
  destruct (count_gamepads single paths 0) as [n|].
  - destruct Hc as [-> Hu]. split.
    + destruct (Z.eqb_spec (0 + Z.of_nat (length others)) 0) as [Hz|Hz].
      * split; [|done]. intros _ p Hp.
        assert (Hn : others = []) by (destruct others; simpl in *; [done|lia]).
        pose proof (proj1 (keep_none _ _) Hn p Hp) as Hb.
        by apply negb_false_iff, bool_decide_eq_true in Hb.
      * split; [by destruct (0 + Z.of_nat (length others) =? 1)|]. intros Ha. destruct Hz.
        assert (others = []) as ->; [|done]. apply keep_none. intros p Hp.
        by rewrite bool_decide_eq_true_2 by auto.
    + destruct (Z.eqb_spec (0 + Z.of_nat (length others)) 0); [done|].
      destruct (Z.eqb_spec (0 + Z.of_nat (length others)) 1) as [Ho|]; [|done]. intros _.
      assert (exists p, others = [p]) as [p Hp].
      { destruct others as [|p [|? ?]]; simpl in Ho; try lia. by exists p. }
      exists p. split; [done|].
      assert (Hin : p ∈ paths /\ negb (bool_decide (classify p = NonGamepad)) = true).
      { apply (elem_of_keep (fun q => negb (bool_decide (classify q = NonGamepad))) paths p).
        fold others. rewrite Hp. left. }
      destruct Hin as [Hin Hng]. apply negb_true_iff, bool_decide_eq_false in Hng.
      assert (Hmany : length paths <> 1%nat -> forall q, q ∈ paths -> classify q <> Unknown).
      { intros Hl. apply Hu. unfold single. apply Z.eqb_neq. lia. }
      split; [|done]. destruct (decide (length paths = 1%nat)) as [Hl|Hl].
      * right. destruct paths as [|q [|? ?]]; simpl in Hl; try lia.
        by apply list_elem_of_singleton in Hin as ->.
      * left. specialize (Hmany Hl p Hin). by destruct (classify p).
  - destruct Hc as (_ & q & Hq & Hc). split; [|done]. split; [done|].
    intros Ha. rewrite Ha in Hc by done. done.
Qed.
End classifier.

(** ** Bitmaps *)

(** The number a little-endian list of 64-bit words stands for. *)
Fixpoint words_value (words : list Z) : Z :=
  match words with [] => 0 | w :: words => w + 2 ^ 64 * words_value words end.

Lemma land_bit w i : 0 <= i -> negb (Z.land w (Z.shiftl 1 i) =? 0) = Z.testbit w i.
Proof.
  intros Hi. rewrite Z.shiftl_1_l. destruct (Z.testbit w i) eqn:Ht.
  - apply negb_true_iff, Z.eqb_neq. intros H0.
    assert (Hb : Z.testbit (Z.land w (2 ^ i)) i = false) by (rewrite H0; apply Z.bits_0).
    rewrite Z.land_spec, Z.pow2_bits_true, Ht in Hb by done. done.
  - apply negb_false_iff, Z.eqb_eq, Z.bits_inj'. intros j Hj.
    rewrite Z.land_spec, Z.bits_0. destruct (decide (i = j)) as [<-|Hne].
    + by rewrite Ht.
    + rewrite Z.pow2_bits_false by lia. apply andb_false_r.
Qed.

Lemma testbit_low w v i : in_u64 w -> 0 <= i < 64 -> Z.testbit (w + 2 ^ 64 * v) i = Z.testbit w i.
Proof.
  intros Hw Hi. rewrite <- (Z.mod_pow2_bits_low (w + 2 ^ 64 * v) 64 i) by lia.
  rewrite Z.mul_comm, Z.mod_add, Z.mod_small by (unfold in_u64 in Hw; lia). done.
Qed.

Lemma testbit_high w v i : in_u64 w -> 64 <= i -> Z.testbit (w + 2 ^ 64 * v) i = Z.testbit v (i - 64).
Proof.
  intros Hw Hi. replace i with (i - 64 + 64) at 1 by lia.
  rewrite <- Z.div_pow2_bits by lia. f_equal.
  rewrite Z.mul_comm, Z.div_add, Z.div_small by (unfold in_u64 in Hw; lia). lia.
Qed.

Lemma bitmap_has_testbit words bit :
  Forall in_u64 words -> 0 <= bit -> bitmap_has words bit = Z.testbit (words_value words) bit.
Proof.
  intros Hw. revert bit; induction Hw as [|w words Hw Hws IH]; intros bit Hb.
  { unfold bitmap_has. simpl. by rewrite Z.bits_0. }
  destruct (Z.lt_ge_cases bit 64) as [Hlt|Hge].
  - unfold bitmap_has, BITS_PER_WORD. rewrite Z.div_small by lia. simpl.
    rewrite Z.mod_small, land_bit by lia. by rewrite testbit_low.
  - simpl. rewrite testbit_high by done. rewrite <- IH by lia. unfold bitmap_has, BITS_PER_WORD.
    assert (Hd : bit / 64 = (bit - 64) / 64 + 1) by (rewrite <- Z.div_add by lia; f_equal; lia).
    assert (Hm : bit mod 64 = (bit - 64) mod 64).
    { rewrite <- (Z.mod_add (bit - 64) 1 64) by lia. f_equal. lia. }
    rewrite Hd, Hm, Z2Nat.inj_add by (try apply Z.div_pos; lia). by rewrite Nat.add_1_r.
Qed.

Lemma parse_words_u64 words ns : parse_words words = Some ns -> Forall in_u64 ns.
Proof.
  revert ns; induction words as [|w words IH]; intros ns; simpl; [by intros [= <-]|].
  destruct (_ || _); [done|]. destruct (from_hex u64_max w) as [n|] eqn:Hn; [|done].
  destruct (parse_words words) as [ms|]; [|done]. intros [= <-]. constructor; [|by apply IH].
  split; [by eapply from_hex_nonneg|by apply from_hex_range in Hn].
Qed.

Lemma parse_bitmap_spec content words :
  parse_bitmap content = Some words ->
  Forall in_u64 words /\ words <> [] /\ parse_words (split_whitespace content) = Some (reverse words).
Proof.
  unfold parse_bitmap. destruct (parse_words _) as [[|n ns]|] eqn:Hp; try done.
  intros [= <-]. split; [|split].
  - rewrite reverse_Permutation. by eapply parse_words_u64.
  - intros Hr%(f_equal length). rewrite length_reverse in Hr. done.
  - by rewrite reverse_involutive.
Qed.
