(* ===== verification/Evdev.v ===== *)
(** * Reading controller events (services/inputd/src/capture.rs, [apply_event])

    The decoder that folds normalized evdev events into a [GamepadState], and
    its relation to the encoder of the seat devices. *)

From S2P Require Import Prelude Text Contract SeatPool SeatRuntime Uinput Topology.

(** [(key code, button mask)]. *)
Definition CAPTURE_BUTTONS : list (Z * Z) :=
  [(315, 16); (314, 32); (317, 64); (318, 128); (310, 256); (311, 512); (316, 1024); (304, 4096);
   (305, 8192); (307, 16384); (308, 32768)].

Definition out_of_bounds : string := "normalized controller value outside bounds".

(** [buttons &= !mask] on 32 bits. *)
Definition clear_bits (b mask : Z) : Z := Z.land b (Z.lxor 4294967295 mask).

Definition with_buttons (b : Z) (s : GamepadState) : GamepadState :=
  MkPad b (left_trigger s) (right_trigger s) (left_stick_x s) (left_stick_y s) (right_stick_x s)
    (right_stick_y s).

Definition apply_axis (state : GamepadState) (code value : Z) : result string GamepadState :=
  let '(MkPad b lt rt lx ly rx ry) := state in
  if code =? 0 then match try_i16 value with Some v => Ok (MkPad b lt rt v ly rx ry) | None => Err out_of_bounds end
  else if code =? 1 then match try_i16 value with Some v => Ok (MkPad b lt rt lx v rx ry) | None => Err out_of_bounds end
  else if code =? 2 then match try_u8 value with Some v => Ok (MkPad b v rt lx ly rx ry) | None => Err out_of_bounds end
  else if code =? 3 then match try_i16 value with Some v => Ok (MkPad b lt rt lx ly v ry) | None => Err out_of_bounds end
  else if code =? 4 then match try_i16 value with Some v => Ok (MkPad b lt rt lx ly rx v) | None => Err out_of_bounds end
  else if code =? 5 then match try_u8 value with Some v => Ok (MkPad b lt v lx ly rx ry) | None => Err out_of_bounds end
  else if (code =? 16) || (code =? 17) then
    if negb (between (-1) value 1) then Err out_of_bounds
    else
      let '(negative, positive) := if code =? 16 then (4, 8) else (1, 2) in
      let b := clear_bits b (Z.lor negative positive) in
      Ok (MkPad (Z.lor b (if value <? 0 then negative else if 0 <? value then positive else 0))
            lt rt lx ly rx ry)
  else Ok state.

Definition apply_event (state : GamepadState) (event_type code value : Z) : result string GamepadState :=
  if event_type =? 1 then
    if negb (between 0 value 2) then Err out_of_bounds
    else
      match find (fun p : Z * Z => p.1 =? code) CAPTURE_BUTTONS with
      | Some (_, mask) =>
          Ok (with_buttons (if value =? 0 then clear_bits (buttons state) mask
                            else Z.lor (buttons state) mask) state)
      | None => Ok state
      end
  else if event_type =? 3 then apply_axis state code value
  else Ok state.

(** Events in order, stopping at the first refused one. *)
Fixpoint apply_events (state : GamepadState) (events : list InputEvent) : result string GamepadState :=
  match events with
  | [] => Ok state
  | e :: events =>
      match apply_event state (ev_type e) (ev_code e) (ev_value e) with
      | Ok state => apply_events state events
      | Err m => Err m
      end
  end.

(** ** Bits *)

Lemma has_bits_pow2 b i : 0 <= i -> has_bits b (2 ^ i) = Z.testbit b i.
Proof. intros Hi. unfold has_bits. rewrite <- Z.shiftl_1_l. by apply land_bit. Qed.

Lemma testbit_clear b m i :
  0 <= i < 32 -> Z.testbit (clear_bits b m) i = Z.testbit b i && negb (Z.testbit m i).
Proof.
  intros Hi. unfold clear_bits. rewrite Z.land_spec, Z.lxor_spec.
  change 4294967295 with (Z.ones 32). by rewrite Z.ones_spec_low by lia.
Qed.

Lemma supported_clear b m :
  Z.land b (Z.lxor 4294967295 SUPPORTED_BUTTON_MASK) = 0 ->
  Z.land (clear_bits b m) (Z.lxor 4294967295 SUPPORTED_BUTTON_MASK) = 0.
Proof.
  intros Hb. unfold clear_bits.
  rewrite <- Z.land_assoc, (Z.land_comm (Z.lxor 4294967295 m)), Z.land_assoc, Hb. apply Z.land_0_l.
Qed.

Lemma supported_lor b m :
  Z.land b (Z.lxor 4294967295 SUPPORTED_BUTTON_MASK) = 0 ->
  Z.land m (Z.lxor 4294967295 SUPPORTED_BUTTON_MASK) = 0 ->
  Z.land (Z.lor b m) (Z.lxor 4294967295 SUPPORTED_BUTTON_MASK) = 0.
Proof. intros Hb Hm. by rewrite Z.land_lor_distr_l, Hb, Hm. Qed.

Lemma u32_bits b : in_u32 b <-> Z.land b (Z.ones 32) = b.
Proof.
  rewrite Z.land_ones by lia. unfold in_u32. split.
  - intros Hb. apply Z.mod_small. lia.
  - intros Hb. pose proof (Z.mod_pos_bound b (2 ^ 32) ltac:(lia)). lia.
Qed.

Lemma u32_clear b m : in_u32 b -> in_u32 (clear_bits b m).
Proof.
  rewrite !u32_bits. intros Hb. unfold clear_bits.
  by rewrite <- Z.land_assoc, (Z.land_comm _ (Z.ones 32)), Z.land_assoc, Hb.
Qed.

Lemma u32_lor b m : in_u32 b -> in_u32 m -> in_u32 (Z.lor b m).
Proof. rewrite !u32_bits. intros Hb Hm. by rewrite Z.land_lor_distr_l, Hb, Hm. Qed.

(** ** The state stays in range *)

Lemma capture_button_supported code c mask :
  find (fun p : Z * Z => p.1 =? code) CAPTURE_BUTTONS = Some (c, mask) ->
  in_u32 mask /\ Z.land mask (Z.lxor 4294967295 SUPPORTED_BUTTON_MASK) = 0.
Proof.
  intros [Hin _]%find_Some.
  assert (Hall : Forall (fun p => (0 <=? p.2) && (p.2 <=? 4294967295)
    && (Z.land p.2 (Z.lxor 4294967295 SUPPORTED_BUTTON_MASK) =? 0) = true) CAPTURE_BUTTONS)
    by decide_vm.
  rewrite Forall_forall in Hall. specialize (Hall _ Hin). simpl in Hall.
  unfold in_u32. lia.
Qed.

Lemma try_i16_cases value :
  (try_i16 value = Some value /\ in_i16 value) \/ (try_i16 value = None /\ ~ in_i16 value).
Proof.
  unfold try_i16, in_i16. destruct (Z.leb_spec (-32768) value), (Z.leb_spec value 32767); simpl;
    (by left) || (right; split; [done|lia]).
Qed.

Lemma try_u8_cases value :
  (try_u8 value = Some value /\ in_u8 value) \/ (try_u8 value = None /\ ~ in_u8 value).
Proof.
  unfold try_u8, in_u8. destruct (Z.leb_spec 0 value), (Z.leb_spec value 255); simpl;
    (by left) || (right; split; [done|lia]).
Qed.

(** An analog axis, and a hat. *)
Ltac analog_axis Hv' code value n cases :=
  destruct (Z.eqb_spec code n) as [->|_];
  [destruct (cases value) as [[-> ?]|[-> ?]];
   [split; [unfold pad_in_range; simpl; split_and!; assumption|apply Hv']
   |right; split; [reflexivity|];
    first [left; split; [decide_vm|assumption] | right; left; split; [decide_vm|assumption]]]
  |].

(** Whatever a device sends, the decoded state stays in range with supported
    buttons only, and an event is refused exactly when its value is outside the
    range of its control; a refused event changes nothing. *)
Lemma apply_event_safe state event_type code value :
  pad_in_range state -> valid_state state = true ->
  match apply_event state event_type code value with
  | Ok state' => pad_in_range state' /\ valid_state state' = true
  | Err _ =>
      (event_type = 1 /\ ~ 0 <= value <= 2) \/
      (event_type = 3 /\ (code ∈ [0; 1; 3; 4] /\ ~ in_i16 value \/
                          code ∈ [2; 5] /\ ~ in_u8 value \/
                          code ∈ [16; 17] /\ ~ -1 <= value <= 1))
  end.
Proof.
  destruct state as [b lt rt lx ly rx ry].
  intros (Hb & Hlt & Hrt & Hlx & Hly & Hrx & Hry) Hv. simpl in *.
  unfold valid_state in Hv. simpl in Hv. apply Z.eqb_eq in Hv.
  assert (Hbut : forall b', in_u32 b' -> Z.land b' (Z.lxor 4294967295 SUPPORTED_BUTTON_MASK) = 0 ->
    pad_in_range (MkPad b' lt rt lx ly rx ry) /\ valid_state (MkPad b' lt rt lx ly rx ry) = true).
  { intros b' Hb' Hv'. split; [done|]. unfold valid_state. by apply Z.eqb_eq. }
  unfold apply_event. destruct (Z.eqb_spec event_type 1) as [->|_].
  { destruct (between 0 value 2) eqn:Hr; unfold between in Hr; cbn [negb].
    - destruct (find _ CAPTURE_BUTTONS) as [[c mask]|] eqn:Hf; [|by apply Hbut].
      apply capture_button_supported in Hf as [Hm Hs].
      unfold with_buttons. simpl. destruct (value =? 0); apply Hbut;
        auto using u32_clear, u32_lor, supported_clear, supported_lor.
    - left. split; [done|]. lia. }
  destruct (Z.eqb_spec event_type 3) as [->|_]; [|by apply Hbut].
  assert (Hv' : forall lt rt lx ly rx ry, valid_state (MkPad b lt rt lx ly rx ry) = true).
  { intros. apply Z.eqb_eq. exact Hv. }
  unfold apply_axis.
  analog_axis Hv' code value 0 try_i16_cases. analog_axis Hv' code value 1 try_i16_cases.
  analog_axis Hv' code value 2 try_u8_cases. analog_axis Hv' code value 3 try_i16_cases.
  analog_axis Hv' code value 4 try_i16_cases. analog_axis Hv' code value 5 try_u8_cases.
  destruct ((code =? 16) || (code =? 17)) eqn:Hc; [|by apply Hbut].
  destruct (between (-1) value 1) eqn:Hr; unfold between in Hr; cbn [negb].
  - destruct (code =? 16); apply Hbut;
      (first [apply u32_lor; [by apply u32_clear|] | apply supported_lor; [by apply supported_clear|]]);
      destruct (value <? 0), (0 <? value); try done; unfold in_u32; lia.
  - right. split; [done|]. right; right. split; [|lia].
    apply orb_true_iff in Hc as [Hc|Hc]; apply Z.eqb_eq in Hc as ->; decide_vm.
Qed.

(** ** The decoder inverts the encoder *)

(** Two states read alike when no control of a seat tells them apart. It is
    coarser than equality: a D-pad pressed both ways reads as centred. *)
Definition reads_as (s s' : GamepadState) : Prop :=
  forall t c f, (t, c, f) ∈ CONTROLS -> f s = f s'.

#[export] Instance reads_as_equivalence : Equivalence reads_as.
Proof.
  split.
  - by intros s t c f _.
  - intros s s' Hs t c f Hin. symmetry. by apply (Hs t c).
  - intros s1 s2 s3 H12 H23 t c f Hin. etrans; [by apply (H12 t c)|by apply (H23 t c)].
Qed.

Lemma has_bits_mask b m i : m = 2 ^ i -> 0 <= i -> has_bits b m = Z.testbit b i.
Proof. intros ->. apply has_bits_pow2. Qed.

(** Masks as bit numbers. *)
Ltac to_bits :=
  rewrite ?(fun b => has_bits_mask b 1 0 eq_refl), ?(fun b => has_bits_mask b 2 1 eq_refl),
    ?(fun b => has_bits_mask b 4 2 eq_refl), ?(fun b => has_bits_mask b 8 3 eq_refl),
    ?(fun b => has_bits_mask b 16 4 eq_refl), ?(fun b => has_bits_mask b 32 5 eq_refl),
    ?(fun b => has_bits_mask b 64 6 eq_refl), ?(fun b => has_bits_mask b 128 7 eq_refl),
    ?(fun b => has_bits_mask b 256 8 eq_refl), ?(fun b => has_bits_mask b 512 9 eq_refl),
    ?(fun b => has_bits_mask b 1024 10 eq_refl), ?(fun b => has_bits_mask b 4096 12 eq_refl),
    ?(fun b => has_bits_mask b 8192 13 eq_refl), ?(fun b => has_bits_mask b 16384 14 eq_refl),
    ?(fun b => has_bits_mask b 32768 15 eq_refl) by lia.

Ltac read_bits :=
  cbn [buttons with_buttons left_trigger right_trigger left_stick_x left_stick_y right_stick_x
       right_stick_y Z.b2z Z.eqb] in *;
  unfold hat, DPAD_LEFT, DPAD_RIGHT, DPAD_UP, DPAD_DOWN in *; to_bits;
  rewrite ?Z.lor_spec, ?testbit_clear by lia;
  cbn [Z.testbit Pos.testbit Z.lor Pos.lor Pos.pred_N Pos.pred_double N.pred N.testbit negb];
  rewrite ?andb_false_r, ?andb_true_r, ?orb_false_r, ?orb_true_r; reflexivity.

Lemma key_sets s mask key v t' c' f' :
  (mask, key) ∈ BUTTONS ->
  exists s', apply_event s EV_KEY key (Z.b2z v) = Ok s' /\ has_bits (buttons s') mask = v /\
    ((t', c', f') ∈ CONTROLS -> (t', c') <> (EV_KEY, key) -> f' s' = f' s).
Proof.
  intros Hin. unfold BUTTONS in Hin.
  repeat (apply elem_of_cons in Hin as [[= -> ->]|Hin];
    [destruct v; (eexists; split; [reflexivity|]; split; [read_bits|]);
     intros Hc Hne; unfold CONTROLS, BUTTONS in Hc; cbn [map app] in Hc;
     repeat (apply elem_of_cons in Hc as [[= -> -> ->]|Hc]; [first [by destruct Hne|read_bits]|]);
     by apply not_elem_of_nil in Hc|]).
  by apply not_elem_of_nil in Hin.
Qed.

(** An analog axis set to a value in range. *)
Ltac analog n cases H :=
  destruct (cases n) as [[Ht _]|[_ Hn]]; [|by destruct (Hn H)];
  unfold apply_event, apply_axis, EV_ABS, ABS_X, ABS_Y, ABS_Z, ABS_RX, ABS_RY, ABS_RZ;
  cbn [Z.eqb Pos.eqb]; rewrite Ht;
  (eexists; split; [reflexivity|]; split; [reflexivity|]);
  let Hc := fresh in let Hne := fresh in
  intros Hc Hne; unfold CONTROLS, BUTTONS in Hc; cbn [map app] in Hc;
  repeat (apply elem_of_cons in Hc as [[= -> -> ->]|Hc]; [first [by destruct Hne|reflexivity]|]);
  by apply not_elem_of_nil in Hc.

Lemma axis_sets s n t c f t' c' f' :
  pad_in_range n ->
  (t, c, f) ∈ [(EV_ABS, ABS_HAT0X, fun s => hat (buttons s) DPAD_LEFT DPAD_RIGHT);
      (EV_ABS, ABS_HAT0Y, fun s => hat (buttons s) DPAD_UP DPAD_DOWN);
      (EV_ABS, ABS_Z, left_trigger); (EV_ABS, ABS_RZ, right_trigger);
      (EV_ABS, ABS_X, left_stick_x); (EV_ABS, ABS_Y, left_stick_y);
      (EV_ABS, ABS_RX, right_stick_x); (EV_ABS, ABS_RY, right_stick_y)] ->
  exists s', apply_event s t c (f n) = Ok s' /\ f s' = f n /\
    ((t', c', f') ∈ CONTROLS -> (t', c') <> (t, c) -> f' s' = f' s).
Proof.
  intros (_ & Hlt & Hrt & Hlx & Hly & Hrx & Hry) Hin. destruct s as [b lt rt lx ly rx ry].
  do 2 (apply elem_of_cons in Hin as [[= -> -> ->]|Hin];
    [match goal with |- context [hat (buttons n) ?x ?y] =>
       assert (Hh : hat (buttons n) x y = -1 \/ hat (buttons n) x y = 0 \/ hat (buttons n) x y = 1)
         by (unfold hat; destruct (has_bits _ _), (has_bits _ _); auto);
       destruct Hh as [-> | [-> | ->]] end;
     (eexists; split; [reflexivity|]; split; [read_bits|]);
     intros Hc Hne; unfold CONTROLS, BUTTONS in Hc; cbn [map app] in Hc;
     repeat (apply elem_of_cons in Hc as [[= -> -> ->]|Hc]; [first [by destruct Hne|read_bits]|]);
     by apply not_elem_of_nil in Hc|]).
  apply elem_of_cons in Hin as [[= -> -> ->]|Hin]; [analog (left_trigger n) try_u8_cases Hlt|].
  apply elem_of_cons in Hin as [[= -> -> ->]|Hin]; [analog (right_trigger n) try_u8_cases Hrt|].
  apply elem_of_cons in Hin as [[= -> -> ->]|Hin]; [analog (left_stick_x n) try_i16_cases Hlx|].
  apply elem_of_cons in Hin as [[= -> -> ->]|Hin]; [analog (left_stick_y n) try_i16_cases Hly|].
  apply elem_of_cons in Hin as [[= -> -> ->]|Hin]; [analog (right_stick_x n) try_i16_cases Hrx|].
  apply elem_of_cons in Hin as [[= -> -> ->]|Hin]; [analog (right_stick_y n) try_i16_cases Hry|].
  by apply not_elem_of_nil in Hin.
Qed.

Lemma control_sets s n t c f :
  (t, c, f) ∈ CONTROLS -> pad_in_range n ->
  exists s', apply_event s t c (f n) = Ok s' /\ f s' = f n /\
    forall t' c' f', (t', c', f') ∈ CONTROLS -> (t', c') <> (t, c) -> f' s' = f' s.
Proof.
  intros Hin Hn.
  assert (Hone : forall t' c' f', exists s', apply_event s t c (f n) = Ok s' /\ f s' = f n /\
            ((t', c', f') ∈ CONTROLS -> (t', c') <> (t, c) -> f' s' = f' s)).
  { intros t' c' f'. unfold CONTROLS in Hin. apply elem_of_app in Hin as [Hin|Hin].
    - apply list_elem_of_fmap in Hin as ([mask key] & [= -> -> ->] & Hin).
      destruct (key_sets s mask key (has_bits (buttons n) mask) t' c' f' Hin) as (s' & Ha & Hb & Ho).
      exists s'. rewrite Hb. done.
    - by apply axis_sets. }
  destruct (Hone t c f) as (s' & Ha & Hf & _). exists s'. split; [done|]. split; [done|].
  intros t' c' f' Hc Hne. destruct (Hone t' c' f') as (s'' & Ha' & _ & Ho).
  assert (s'' = s') as -> by congruence. by apply Ho.
Qed.

Lemma apply_events_app s l l' :
  apply_events s (l ++ l') =
  match apply_events s l with Ok s' => apply_events s' l' | Err m => Err m end.
Proof.
  revert s; induction l as [|e l IH]; intros s; simpl; [done|].
  by destruct (apply_event _ _ _ _).
Qed.

Lemma decode_delta cur next L s :
  NoDup (map control_key L) -> L ⊆ CONTROLS -> pad_in_range next ->
  (forall c0, cur = Some c0 -> forall t c f, (t, c, f) ∈ L -> f s = f c0) ->
  exists s', apply_events s (delta_of cur next L) = Ok s' /\
    (forall t c f, (t, c, f) ∈ L -> f s' = f next) /\
    (forall t c f, (t, c, f) ∈ CONTROLS -> (t, c) ∉ map control_key L -> f s' = f s).
Proof.
  intros Hnd Hsub Hn. revert s Hnd Hsub.
  induction L as [|[[t c] f] L IH]; intros s Hnd Hsub Hs.
  { exists s. split; [done|]. split; [|done]. intros t c f Hin. by apply not_elem_of_nil in Hin. }
  simpl in Hnd. apply NoDup_cons in Hnd as [Hnin Hnd].
  assert (Hin : (t, c, f) ∈ CONTROLS) by (apply Hsub; left).
  set (before := f <$> cur).
  assert (Hpush : exists s1, apply_events s (push t c before (f next)) = Ok s1 /\
            f s1 = f next /\
            forall t' c' f', (t', c', f') ∈ CONTROLS -> (t', c') <> (t, c) -> f' s1 = f' s).
  { unfold push, before. case_bool_decide as Hb.
    - apply fmap_Some in Hb as (c0 & Hcur & Hf). exists s. split; [done|]. split; [|done].
      rewrite Hf. apply (Hs c0 Hcur t c). left.
    - destruct (control_sets s next t c f Hin Hn) as (s1 & Ha & Hf & Ho). exists s1. simpl.
      by rewrite Ha. }
  destruct Hpush as (s1 & Ha & Hf & Ho).
  assert (Hkeep : forall t' c' f', (t', c', f') ∈ L -> f' s1 = f' s).
  { intros t' c' f' Hin'. apply (Ho t' c'); [apply Hsub; by right|]. intros [= -> ->].
    apply Hnin. apply (list_elem_of_fmap_2 control_key) in Hin'. exact Hin'. }
  destruct (IH s1 Hnd) as (s2 & Ha2 & Hl & Hrest).
  { intros x Hx. apply Hsub. by right. }
  { intros c0 Hc0 t' c' f' Hin'. rewrite (Hkeep t' c' f' Hin'). apply (Hs c0 Hc0 t' c').
    by right. }
  exists s2. split.
  { unfold delta_of. simpl. fold before. by rewrite apply_events_app, Ha. }
  split.
  - intros t' c' f' [[= -> -> ->]|Hin']%elem_of_cons; [|by apply (Hl t' c')].
    rewrite <- Hf. apply (Hrest t c); [done|exact Hnin].
  - intros t' c' f' Hc Hnot. simpl in Hnot. apply not_elem_of_cons in Hnot as [Hne Hnot].
    rewrite (Hrest t' c' f' Hc Hnot). by apply (Ho t' c').
Qed.

(** C37: The decoder inverts the seat encoder. Decoding the events that take a
    device from one state to the next, starting from any state that reads as the
    first, never fails and ends in a state that reads as the second. From an
    unknown device the full write establishes it from any state at all. *)
Theorem decode_inverts_encode current next s :
  pad_in_range next -> (forall c0, current = Some c0 -> reads_as s c0) ->
  exists s', apply_events s (output_events current next) = Ok s' /\ reads_as s' next.
Proof.
  intros Hn Hs. rewrite output_events_table.
  destruct (decode_delta current next CONTROLS s controls_distinct) as (s' & Ha & Hr & _);
    [done|done| |by exists s'].
  intros c0 Hc0 t c f Hin. by apply (Hs c0 Hc0 t c).
Qed.

Lemma decode_inverts_encode_witness :
  exists s', apply_events demo_pad (output_events (Some demo_pad) neutral) = Ok s' /\
    reads_as s' neutral.
Proof.
  apply decode_inverts_encode.
  - repeat split; vm_compute; discriminate.
  - intros c0 [= <-]. reflexivity.
Defined.
