(* ===== verification/Devices.v ===== *)
(** * Input devices (services/inputd/src/devices.rs)

    Descriptors of kernel input devices, the normalized InputPlumber target among
    them, the parser of [/proc/bus/input/devices] and the exclusive opening of a
    capture.

    What the system answers is a parameter: [rdev] the device number of a node,
    [open_device] the evdev handle, whose ioctl replies are the fields of
    [RawDevice], and [sysfs_path] the sysfs path of a device number. *)

From S2P Require Import Prelude Text Contract SeatPool SeatRuntime Uinput Topology Evdev.

Definition XB360_TARGET_NAME : string := "Microsoft X-Box 360 pad".
Definition GAME_TARGET_NAME : string := "Microsoft X-Box 360 pad (Korri game)".
Definition PORTAL_TARGET_NAME : string := "Microsoft X-Box 360 pad (Korri portal)".
Definition GAME_TARGET_PHYS : string := "korri/inputd/game".
Definition PORTAL_TARGET_PHYS : string := "korri/inputd/portal".

Record DeviceInputId := MkInputId { id_bus : Z; id_vendor : Z; id_product : Z; id_version : Z }.

#[export] Instance DeviceInputId_eq_dec : EqDecision DeviceInputId.
Proof. solve_decision. Defined.

Definition XB360_INPUT_ID : DeviceInputId := MkInputId 3 1118 654 1.
Definition XB360_KEYS : list Z :=
  [304; 305; 307; 308; 310; 311; 314; 315; 316; 317; 318; 704; 705; 706; 707].
Definition XB360_ABSOLUTE_AXES : list Z := [0; 1; 2; 3; 4; 5; 16; 17].

Inductive DeviceClass : Type := ClassGamepad | ClassOther.

#[export] Instance DeviceClass_eq_dec : EqDecision DeviceClass.
Proof. solve_decision. Defined.

Record DeviceCapabilities := MkCaps {
  cap_keys : list Z;
  cap_absolute_axes : list Z;
  cap_force_feedback : bool;
}.

#[export] Instance DeviceCapabilities_eq_dec : EqDecision DeviceCapabilities.
Proof. solve_decision. Defined.

Record DeviceDescriptor := MkDescriptor {
  dd_path : string;
  dd_name : string;
  physical_path : option string;
  unique_id : option string;
  sysfs_path_of : option string;
  input_id : DeviceInputId;
  capabilities : DeviceCapabilities;
  class : DeviceClass;
  device_number : option Z;
}.

#[export] Instance DeviceDescriptor_eq_dec : EqDecision DeviceDescriptor.
Proof. solve_decision. Defined.

Definition inputplumber_xb360 : DeviceCapabilities := MkCaps XB360_KEYS XB360_ABSOLUTE_AXES true.

Definition is_inputplumber_xb360 (c : DeviceCapabilities) : bool :=
  bool_decide (cap_keys c = XB360_KEYS) && bool_decide (cap_absolute_axes c = XB360_ABSOLUTE_AXES)
  && cap_force_feedback c.

Definition is_validated_inputplumber_xb360 (d : DeviceDescriptor) : bool :=
  bool_decide (class d = ClassGamepad)
  && bool_decide (dd_name d = XB360_TARGET_NAME)
  && bool_decide (input_id d = XB360_INPUT_ID)
  && is_none (physical_path d)
  && is_none (unique_id d)
  && is_some_and (sysfs_path_of d) (starts_with "/devices/virtual/input/")
  && is_inputplumber_xb360 (capabilities d).

Record TargetIdentity := MkIdentity {
  ti_name : string;
  ti_physical_path : option string;
  ti_unique_id : option string;
  ti_input_id : DeviceInputId;
}.

#[export] Instance TargetIdentity_eq_dec : EqDecision TargetIdentity.
Proof. solve_decision. Defined.

Definition stable_identity (d : DeviceDescriptor) : TargetIdentity :=
  MkIdentity (dd_name d) (physical_path d) (unique_id d) (input_id d).

Inductive TargetResolution : Type :=
| Found (target : DeviceDescriptor)
| Missing (raw_gamepads : Z)
| Ambiguous (targets : list DeviceDescriptor).

Definition resolve_target (devices : list DeviceDescriptor) : TargetResolution :=
  match keep is_validated_inputplumber_xb360 devices with
  | [target] => Found target
  | [] => Missing (Z.of_nat (length (keep (fun d => bool_decide (class d = ClassGamepad)) devices)))
  | targets => Ambiguous targets
  end.

Inductive ProvenanceError : Type := NotValidatedTarget | Replaced.

Definition validate_opened_descriptor (expected opened : DeviceDescriptor)
    : result ProvenanceError unit :=
  if negb (is_validated_inputplumber_xb360 opened) then Err NotValidatedTarget
  else if negb (bool_decide (stable_identity expected = stable_identity opened))
          || negb (bool_decide (device_number expected = device_number opened))
  then Err Replaced
  else Ok ().

(** ** /proc/bus/input/devices *)

Definition QUOTE : Z := 34.
Definition EQUALS : Z := 61.

(** The first [Some] of [f] over the list. *)
Fixpoint find_map {A B} (f : A -> option B) (l : list A) : option B :=
  match l with
  | [] => None
  | x :: l => match f x with Some y => Some y | None => find_map f l end
  end.

(** The value of the first line with the prefix: what follows the first equals
    sign, trimmed, without its quotes. *)
Definition block_value (block prefix : string) : option string :=
  find_map (fun line =>
    (fun rest =>
       let value := match split_once EQUALS (trim rest) with
                    | Some (_, value) => trim value
                    | None => trim rest
                    end in
       trim_byte QUOTE value) <$> strip_prefix prefix (trim line)) (lines block).

Definition non_empty_value (block prefix : string) : option string :=
  value ← block_value block prefix;
  if str_is_empty value then None else Some value.

Definition u16_max : Z := 65535.

Definition parse_hex_field (input name : string) : Z :=
  default 0 (find_map (strip_prefix (name +:+ "=")) (split_whitespace input) ≫= from_hex u16_max).

(** The words of a bitmap line, most significant first. *)
Definition block_bitmap (block name : string) : option (list string) :=
  find_map (fun line => split_whitespace <$> strip_prefix ("B: " +:+ name +:+ "=") (trim line))
    (lines block).

(** The words as the kernel prints them; a word that does not parse has no bits. *)
Definition words_have (words : list string) (bit : Z) : bool :=
  let offset := Z.to_nat (bit / 64) in
  if (length words <? offset + 1)%nat then false
  else
    match words !! (length words - (offset + 1))%nat ≫= from_hex u64_max with
    | Some word => negb (Z.land word (Z.shiftl 1 (bit mod 64)) =? 0)
    | None => false
    end.

Definition bitmap_values (words : list string) : list Z :=
  keep (fun bit => bit <=? u16_max)
    (keep (words_have words) (seqZ 0 (Z.of_nat (length words) * 64))).

Definition words_are_gamepad (words : list string) : bool := words_have words 304 || words_have words 288.

Definition EV_FF : Z := 21.

Section parser.
Variable rdev : string -> option Z.
Variable input_root : string.

Definition is_event_node (part : string) : bool :=
  is_some_and (strip_prefix "event" part) (all_chars is_ascii_digit).

Definition parse_proc_block (block : string) : option DeviceDescriptor :=
  name ← non_empty_value block "N:";
  handlers ← non_empty_value block "H:";
  event_node ← find is_event_node (split_whitespace handlers);
  let input := default EmptyString
    (find_map (fun line => trim <$> strip_prefix "I:" (trim line)) (lines block)) in
  let id := MkInputId (parse_hex_field input "Bus") (parse_hex_field input "Vendor")
              (parse_hex_field input "Product") (parse_hex_field input "Version") in
  let key_words := block_bitmap block "KEY" in
  let path := path_join input_root event_node in
  Some (MkDescriptor path name (non_empty_value block "P:") (non_empty_value block "U:")
    (non_empty_value block "S:") id
    (MkCaps (from_option bitmap_values [] key_words)
       (from_option bitmap_values [] (block_bitmap block "ABS"))
       (is_some_and (block_bitmap block "EV") (fun words => words_have words EV_FF)))
    (if is_some_and key_words words_are_gamepad then ClassGamepad else ClassOther)
    (rdev path)).

Definition parse_proc_bus_input_devices (content : string) : list DeviceDescriptor :=
  filter_map parse_proc_block (blocks content).
End parser.

(** ** Opening a capture *)

Record RawDevice := MkRaw {
  raw_name : option string;
  raw_phys : option string;
  raw_uniq : option string;
  raw_id : DeviceInputId;
  raw_keys : option (list Z);
  raw_axes : option (list Z);
  raw_force_feedback : bool;
  raw_number : result string Z;
  raw_grab : result string unit;
  raw_key_state : result string (list Z);
  raw_absinfo : result string (list (Z * Z));
  raw_stream : result string unit;
}.

Definition capabilities_from_device (d : RawDevice) : DeviceCapabilities :=
  MkCaps (default [] (raw_keys d)) (default [] (raw_axes d)) (raw_force_feedback d).

Definition descriptor_from_opened_device (expected : DeviceDescriptor) (d : RawDevice) (number : Z)
    (sysfs : option string) : DeviceDescriptor :=
  MkDescriptor (dd_path expected) (default EmptyString (raw_name d)) (raw_phys d) (raw_uniq d) sysfs
    (raw_id d) (capabilities_from_device d)
    (if is_some_and (raw_keys d) (fun keys => existsb (Z.eqb 304) keys || existsb (Z.eqb 288) keys)
     then ClassGamepad else ClassOther)
    (Some number).

(** The event stream of a capture is its later input. *)
Record OpenedCapture := MkOpened { oc_descriptor : DeviceDescriptor; oc_initial : GamepadState }.

Section provider.
Variable proc_devices : result string string.
Variable rdev : string -> option Z.
Variable input_root : string.
Variable open_device : string -> result string RawDevice.
Variable sysfs_path : Z -> option string.

Definition enumerate_capture : result string (list DeviceDescriptor) :=
  match proc_devices with
  | Err e => Err e
  | Ok content => Ok (parse_proc_bus_input_devices rdev input_root content)
  end.

Definition open_capture (expected : DeviceDescriptor) : result string OpenedCapture :=
  device ← open_device (dd_path expected);
  number ← raw_number device;
  let descriptor := descriptor_from_opened_device expected device number (sysfs_path number) in
  u ← map_err (fun _ => "capture descriptor changed after enumeration")
        (validate_opened_descriptor expected descriptor);
  u ← raw_grab device;
  keys ← raw_key_state device;
  held ← apply_events neutral (map (fun key => MkEvent 1 key 1) keys);
  axes ← raw_absinfo device;
  initial ← apply_events held (map (fun '(axis, value) => MkEvent 3 axis value) axes);
  u ← raw_stream device;
  Ok (MkOpened descriptor initial).
End provider.

(** ** Properties *)

Lemma apply_events_safe s events s' :
  pad_in_range s -> valid_state s = true -> apply_events s events = Ok s' ->
  pad_in_range s' /\ valid_state s' = true.
Proof.
  revert s; induction events as [|e events IH]; intros s Hr Hv; simpl; [by intros [= <-]|].
  pose proof (apply_event_safe s (ev_type e) (ev_code e) (ev_value e) Hr Hv) as Hs.
  destruct (apply_event _ _ _ _) as [s1|]; [|done]. destruct Hs. by apply IH.
Qed.

(** A capture that opens is the device that was enumerated: the descriptor of
    the open handle is a validated normalized target with the expected identity,
    node and device number, and the state it starts from is in range with
    supported buttons only. *)
Theorem open_capture_sound open_device sysfs_path expected opened :
  open_capture open_device sysfs_path expected = Ok opened ->
  is_validated_inputplumber_xb360 (oc_descriptor opened) = true /\
  stable_identity (oc_descriptor opened) = stable_identity expected /\
  device_number (oc_descriptor opened) = device_number expected /\
  dd_path (oc_descriptor opened) = dd_path expected /\
  pad_in_range (oc_initial opened) /\ valid_state (oc_initial opened) = true.
Proof.
  unfold open_capture. destruct (open_device (dd_path expected)) as [device|]; [|done]. simpl.
  destruct (raw_number device) as [number|]; [|done]. simpl.
  set (descriptor := descriptor_from_opened_device _ _ _ _).
  unfold validate_opened_descriptor.
  destruct (is_validated_inputplumber_xb360 descriptor) eqn:Hv; [|done]. cbn [negb].
  destruct (negb _ || negb _) eqn:Hid; [done|]. simpl.
  apply orb_false_elim in Hid as [Hi Hn].
  apply negb_false_iff, bool_decide_eq_true in Hi. apply negb_false_iff, bool_decide_eq_true in Hn.
  destruct (raw_grab device); [|done]. simpl. destruct (raw_key_state device) as [keys|]; [|done].
  simpl. destruct (apply_events neutral _) as [held|] eqn:Hk; [|done]. simpl.
  destruct (raw_absinfo device) as [axes|]; [|done]. simpl.
  destruct (apply_events held _) as [initial|] eqn:Ha; [|done]. simpl.
  destruct (raw_stream device); [|done]. intros [= <-]. simpl.
  destruct (apply_events_safe _ _ _ neutral_in_range eq_refl Hk) as [Hr1 Hv1].
  destruct (apply_events_safe _ _ _ Hr1 Hv1 Ha) as [Hr2 Hv2].
  split_and!; try done; congruence.
Qed.

(** Exactly one validated target resolves. [Found] means the given devices
    hold one validated target and no other, [Ambiguous] names all of at least
    two, [Missing] means there is none and counts the gamepads that remain. *)
Theorem resolve_target_spec devices :
  match resolve_target devices with
  | Found d => keep is_validated_inputplumber_xb360 devices = [d] /\ d ∈ devices
  | Ambiguous ds =>
      ds = keep is_validated_inputplumber_xb360 devices /\ (2 <= length ds)%nat
  | Missing n =>
      (forall d, d ∈ devices -> is_validated_inputplumber_xb360 d = false) /\
      0 <= n <= Z.of_nat (length devices)
  end.
Proof.
  unfold resolve_target.
  destruct (keep is_validated_inputplumber_xb360 devices) as [|d [|d' ds]] eqn:Hk.
  - split.
    + apply keep_none, Hk.
    + split; [lia|]. apply Nat2Z.inj_le. clear Hk.
      induction devices as [|d devices IH]; simpl; [done|]. destruct (bool_decide _); simpl; lia.
  - split; [done|]. apply (elem_of_keep is_validated_inputplumber_xb360). rewrite Hk. left.
  - split; [done|]. simpl. lia.
Qed.

Lemma parse_words_lookup words ns i :
  parse_words words = Some ns ->
  length ns = length words /\ ns !! i = words !! i ≫= from_hex u64_max.
Proof.
  revert ns i; induction words as [|w words IH]; intros ns i; simpl; [by intros [= <-]|].
  destruct (_ || _); [done|]. destruct (from_hex u64_max w) as [n|] eqn:Hn; [|done].
  destruct (parse_words words) as [ms|] eqn:Hp; [|done]. intros [= <-]. simpl.
  destruct (IH ms (pred i) eq_refl) as [Hl Hi]. split; [by rewrite Hl|].
  destruct i as [|i]; simpl; [by rewrite Hn|]. apply (IH ms i eq_refl).
Qed.

Lemma readers_agree content keys bit :
  parse_bitmap content = Some keys -> 0 <= bit ->
  words_have (split_whitespace content) bit = bitmap_has keys bit.
Proof.
  intros (_ & _ & Hp)%parse_bitmap_spec Hb.
  set (words := split_whitespace content) in *.
  destruct (parse_words_lookup _ _ 0 Hp) as [Hl _]. rewrite length_reverse in Hl.
  unfold words_have, bitmap_has, BITS_PER_WORD. set (o := Z.to_nat (bit / 64)).
  destruct (Nat.ltb_spec (length words) (o + 1)) as [Hlt|Hge].
  - rewrite lookup_ge_None_2 by lia. done.
  - destruct (parse_words_lookup _ _ (length words - (o + 1)) Hp) as [_ Hi].
    rewrite <- Hi, reverse_lookup by lia.
    replace (length keys - S (length words - (o + 1)))%nat with o by lia.
    by destruct (keys !! o).
Qed.

(** The two readers of kernel bitmaps agree: on a well-formed bitmap the
    reader of [/proc] sees exactly the bits the sysfs classifier sees, and both
    see the bits of the number the words spell. So whatever the [/proc] rule
    calls a gamepad, the classifier does not call a known non-gamepad. *)
Theorem bitmap_readers_agree content keys :
  parse_bitmap content = Some keys ->
  (forall bit, 0 <= bit ->
     words_have (split_whitespace content) bit = bitmap_has keys bit /\
     bitmap_has keys bit = Z.testbit (words_value keys) bit) /\
  (words_are_gamepad (split_whitespace content) = true -> has_gamepad_key keys = true).
Proof.
  intros Hp. pose proof (parse_bitmap_spec _ _ Hp) as (Hu & _). split.
  - intros bit Hb. split; [by apply readers_agree|by apply bitmap_has_testbit].
  - unfold words_are_gamepad. rewrite !(readers_agree content keys) by (done || lia).
    intros Hg. unfold has_gamepad_key, GAMEPAD_KEY_RANGES. cbn [existsb].
    apply orb_true_iff. left. apply existsb_exists.
    apply orb_true_iff in Hg as [Hg|Hg]; [exists 304|exists 288];
      (split; [apply list_elem_of_In, elem_of_seqZ; lia|by rewrite Hg]).
Qed.

Lemma bitmap_values_In words bit :
  bit ∈ bitmap_values words <-> 0 <= bit <= u16_max /\ words_have words bit = true.
Proof.
  unfold bitmap_values. rewrite !elem_of_keep, elem_of_seqZ, Z.leb_le. split; [naive_solver lia|].
  intros [Hb Hw]. split; [|lia]. split; [|done]. split; [lia|].
  unfold words_have in Hw. destruct (Nat.ltb_spec (length words) (Z.to_nat (bit / 64) + 1)); [done|].
  pose proof (Z.div_mod bit 64 ltac:(lia)). pose proof (Z.mod_pos_bound bit 64 ltac:(lia)).
  pose proof (Z.div_pos bit 64). lia.
Qed.

(** What the parser makes of a block of [/proc/bus/input/devices]: the device
    has a name, its node is an event node under the input root, its keys are the
    set bits of the KEY bitmap, and it is a gamepad exactly when they contain
    [BTN_SOUTH] or [BTN_TRIGGER]. *)
Theorem parse_block_sound rdev root block d :
  parse_proc_block rdev root block = Some d ->
  dd_name d <> EmptyString /\
  (exists node, dd_path d = path_join root node /\ is_event_node node = true) /\
  (class d = ClassGamepad <-> 304 ∈ cap_keys (capabilities d) \/ 288 ∈ cap_keys (capabilities d)) /\
  Forall in_u16 (cap_keys (capabilities d)).
Proof.
  unfold parse_proc_block. intros (name & Hname & Hd)%bind_Some.
  apply bind_Some in Hd as (handlers & _ & Hd). apply bind_Some in Hd as (node & Hnode & Hd).
  injection Hd as <-. cbn [dd_name dd_path class capabilities cap_keys]. split_and!.
  - unfold non_empty_value in Hname. apply bind_Some in Hname as (v & _ & Hv).
    destruct (str_is_empty v) eqn:He; [done|]. injection Hv as <-. by intros ->.
  - exists node. apply find_Some in Hnode as [_ Hn]. done.
  - destruct (block_bitmap block "KEY") as [words|]; simpl.
    + rewrite !bitmap_values_In. unfold words_are_gamepad, u16_max.
      destruct (words_have words 304) eqn:H1, (words_have words 288) eqn:H2; simpl;
        split; try done; try (intros _; (left; split; [lia|done]) || (right; split; [lia|done]));
        intros [[_ ?]|[_ ?]]; done.
    + split; [done|]. intros [H1|H1]; by apply not_elem_of_nil in H1.
  - destruct (block_bitmap block "KEY") as [words|]; simpl; [|done].
    apply Forall_forall. intros bit Hb%bitmap_values_In. unfold in_u16, u16_max in *. lia.
Qed.

(** ** Concrete devices *)

Definition demo_block : string :=
"I: Bus=0003 Vendor=045e Product=028e Version=0001
N: Name=Microsoft X-Box 360 pad
P: Phys=
S: Sysfs=/devices/virtual/input/input12
U: Uniq=
H: Handlers=event12 js0
B: EV=20000b
B: KEY=f 0 0 0 0 0 0 7cdb000000000000 0 0 0 0
B: ABS=3003f".

Definition demo_device : DeviceDescriptor :=
  MkDescriptor "/dev/input/event12" XB360_TARGET_NAME None None
    (Some "/devices/virtual/input/input12") XB360_INPUT_ID inputplumber_xb360 ClassGamepad (Some 3340).

Lemma demo_block_parses : parse_proc_block (fun _ => Some 3340) "/dev/input" demo_block = Some demo_device.
Proof. vm_compute. reflexivity. Qed.

Lemma parse_block_sound_witness : class demo_device = ClassGamepad /\ 304 ∈ cap_keys (capabilities demo_device).
Proof.
  destruct (parse_block_sound (fun _ => Some 3340) "/dev/input" demo_block demo_device) as (_ & _ & Hc & _).
  - vm_compute. reflexivity.
  - assert (Hin : 304 ∈ cap_keys (capabilities demo_device)) by decide_vm.
    split; [apply Hc; left; exact Hin|exact Hin].
Defined.

Lemma bitmap_readers_agree_witness :
  exists keys, parse_bitmap "f 0 0 0 0 0 0 7cdb000000000000 0 0 0 0" = Some keys /\
    has_gamepad_key keys = true.
Proof.
  exists (default [] (parse_bitmap "f 0 0 0 0 0 0 7cdb000000000000 0 0 0 0")).
  split; [vm_compute; reflexivity|].
  refine (proj2 (bitmap_readers_agree "f 0 0 0 0 0 0 7cdb000000000000 0 0 0 0" _ _) _);
    vm_compute; reflexivity.
Defined.

Definition demo_raw : RawDevice :=
  MkRaw (Some XB360_TARGET_NAME) None None XB360_INPUT_ID (Some XB360_KEYS) (Some XB360_ABSOLUTE_AXES)
    true (Ok 3340) (Ok ()) (Ok [304]) (Ok [(0, 20000); (16, 0)]) (Ok ()).

Definition demo_open (path : string) : result string RawDevice := Ok demo_raw.
Definition demo_sysfs (number : Z) : option string := Some "/devices/virtual/input/input12".

Lemma open_capture_sound_witness :
  exists opened, open_capture demo_open demo_sysfs demo_device = Ok opened /\
    oc_initial opened = demo_pad /\ is_validated_inputplumber_xb360 (oc_descriptor opened) = true.
Proof.
  exists (MkOpened demo_device demo_pad). split; [vm_compute; reflexivity|]. split; [reflexivity|].
  refine (proj1 (open_capture_sound demo_open demo_sysfs demo_device (MkOpened demo_device demo_pad) _)).
  vm_compute. reflexivity.
Defined.
