(* ===== verification/Dbus.v ===== *)
(** * InputPlumber over D-Bus (services/inputd/src/dbus.rs)

    Authentication of InputPlumber's signals, their translation to controls, and
    the reconciliation of its composites' profiles.

    The bus and InputPlumber behind it are the record [Bus]: each call may change
    their state [W] and answers what it likes, so the same property read twice
    may differ. [UniqueName::try_from] is the parameter [unique_name]. The
    deadline around a pass is not modelled: a pass that misses it is dropped by
    its caller. *)

From Stdlib Require Import SpecFloat.
From S2P Require Import Prelude Text Controls Hold Topology.

Definition INPUTPLUMBER_BUS_NAME : string := "org.shadowblip.InputPlumber".
Definition INPUTPLUMBER_ROOT_PATH : string := "/org/shadowblip/InputPlumber".
Definition DBUS_TARGET_PATH : string := "/org/shadowblip/InputPlumber/devices/target/dbus0".
Definition DBUS_TARGET_INTERFACE : string := "org.shadowblip.Input.DBusDevice".
Definition DBUS_INPUT_MEMBER : string := "InputEvent".

Inductive DbusRuntimeError : Type :=
| TimedOut
| Rejected (message : string)
| Zbus (error : string).

Definition is_transport_failure (e : DbusRuntimeError) : bool :=
  match e with TimedOut | Zbus _ => true | Rejected _ => false end.

Inductive ProfileStatus : Type :=
| StPending | StMissingSource | StAmbiguousSources | StReady | StApplied.

Inductive CompositeDisposition : Type := Required | MissingRequired | EmptyOther | OtherComposite.

Inductive SemanticInput : Type :=
| SControl (control : Control) (transition : ControlTransition)
| SAxis (axis : DpadAxis) (value : Z).

#[export] Instance SemanticInput_eq_dec : EqDecision SemanticInput.
Proof. solve_decision. Defined.

(** ** Capabilities *)

Definition f64_is_finite (v : f64) : bool :=
  match v with S754_zero _ | S754_finite _ _ _ => true | _ => false end.

(** 0.5 is 2^52 * 2^-53. *)
Definition f64_half : f64 := S754_finite false 4503599627370496 (-53).

Definition f64_ge (a b : f64) : bool :=
  match SFcompare a b with Some Gt | Some Eq => true | _ => false end.

Definition button_of (capability : string) : option Control :=
  if bool_decide (capability = "ui_guide") then Some Home
  else if bool_decide (capability = "ui_l1") then Some L1
  else if bool_decide (capability = "ui_r1") then Some R1
  else if bool_decide (capability = "ui_l3") then Some L3
  else if bool_decide (capability = "ui_r3") then Some R3
  else if bool_decide (capability = "ui_option") then Some Start
  else if bool_decide (capability = "ui_select") then Some Select
  else if bool_decide (capability = "ui_back") then Some Back
  else if bool_decide (capability = "ui_osk") then Some X
  else if bool_decide (capability = "ui_volume_up") then Some VolumeUp
  else if bool_decide (capability = "ui_volume_down") then Some VolumeDown
  else None.

Definition direction_of (capability : string) : option (DpadAxis * Z) :=
  if bool_decide (capability = "ui_up") then Some (Vertical, -1)
  else if bool_decide (capability = "ui_down") then Some (Vertical, 1)
  else if bool_decide (capability = "ui_left") then Some (Horizontal, -1)
  else if bool_decide (capability = "ui_right") then Some (Horizontal, 1)
  else None.

Definition map_capability (capability : string) (value : f64) : option SemanticInput :=
  if negb (f64_is_finite value) then None
  else
    let transition := if f64_ge value f64_half then Pressed else Released in
    match button_of capability with
    | Some control => Some (SControl control transition)
    | None =>
        match direction_of capability with
        | Some (axis, sign) =>
            Some (SAxis axis (if bool_decide (transition = Pressed) then sign else 0))
        | None => None
        end
    end.

(** ** Authentication *)

Record Signal := MkSignal {
  sg_sender : string;
  sg_path : string;
  sg_interface : string;
  sg_member : string;
  sg_capability : string;
  sg_value : f64;
}.

(** A message: the header fields that are present and the body, when it has the
    signature of an input event. *)
Record Message := MkMessage {
  ms_sender : option string;
  ms_path : option string;
  ms_interface : option string;
  ms_member : option string;
  ms_body : option (string * f64);
}.

Record DbusAuthenticator := MkAuth { auth_owner : option string }.

Definition auth_default : DbusAuthenticator := MkAuth None.

Section authenticator.
Variable unique_name : string -> bool.

(** [owner.filter(UniqueName)]. *)
Definition valid_owner (owner : option string) : option string :=
  owner ← owner; if unique_name owner then Some owner else None.

Definition set_owner (owner : option string) (a : DbusAuthenticator) : DbusAuthenticator * bool :=
  let owner := valid_owner owner in
  if bool_decide (auth_owner a = owner) then (a, false) else (MkAuth owner, true).
End authenticator.

Definition from_target (a : DbusAuthenticator) (sender path interface member : string) : bool :=
  bool_decide (auth_owner a = Some sender) && bool_decide (path = DBUS_TARGET_PATH)
  && bool_decide (interface = DBUS_TARGET_INTERFACE) && bool_decide (member = DBUS_INPUT_MEMBER).

Definition authenticate (a : DbusAuthenticator) (s : Signal) : option SemanticInput :=
  if negb (from_target a (sg_sender s) (sg_path s) (sg_interface s) (sg_member s)) then None
  else map_capability (sg_capability s) (sg_value s).

Definition authenticated_message (a : DbusAuthenticator) (m : Message) : option SemanticInput :=
  sender ← ms_sender m;
  path ← ms_path m;
  interface ← ms_interface m;
  member ← ms_member m;
  if negb (from_target a sender path interface member) then None
  else
    '(capability, value) ← ms_body m;
    map_capability capability value.

(** ** Introspection *)

Definition DQ : Z := 34.
Definition quote : string := SCons (ascii_of_nat 34) EmptyString.
Definition NODE_PREFIX : string := "<node name=" +:+ quote +:+ "CompositeDevice".

Fixpoint dedup (l : list string) : list string :=
  match l with
  | [] => []
  | x :: l =>
      match l with
      | [] => [x]
      | y :: _ => if bool_decide (x = y) then dedup l else x :: dedup l
      end
  end.

Definition composite_path (line : string) : option string :=
  rest ← strip_prefix NODE_PREFIX (trim line);
  '(name, _) ← split_once DQ rest;
  if str_is_empty name || negb (all_chars is_ascii_digit name) then None
  else Some (INPUTPLUMBER_ROOT_PATH +:+ "/CompositeDevice" +:+ name).

Definition composite_paths_from_introspection (xml : string) : list string :=
  dedup (merge_sort ord_le (filter_map composite_path (lines xml))).

Definition introspection_has_target_interface (xml : string) : bool :=
  contains ("<interface name=" +:+ quote +:+ "org.shadowblip.Input.DBusDevice" +:+ quote +:+ ">") xml.

Definition composite_disposition (dbus_devices source_paths : list string) : CompositeDisposition :=
  let required := existsb (fun target => bool_decide (target = DBUS_TARGET_PATH)) dbus_devices in
  match required, source_paths with
  | true, [] => MissingRequired
  | true, _ => Required
  | false, [] => EmptyOther
  | false, _ => OtherComposite
  end.

(** ** The bus *)

Inductive OwnerError : Type := NameHasNoOwner | OtherOwnerError (error : string).

Record Bus (W : Type) := MkBus {
  get_name_owner : W -> W * result OwnerError string;
  introspect : string -> string -> W -> W * result string string;
  source_device_paths : string -> string -> W -> W * result string (list string);
  target_devices : string -> string -> W -> W * result string (list string);
  dbus_devices : string -> string -> W -> W * result string (list string);
  profile_path : string -> string -> W -> W * result string string;
  load_profile_path : string -> string -> string -> W -> W * result string unit;
  stop_composite : string -> string -> W -> W * result string unit;
  device_type : string -> string -> W -> W * result string string;
  device_paths : string -> string -> W -> W * result string (list string);
}.
Arguments get_name_owner {W}.
Arguments introspect {W}.
Arguments source_device_paths {W}.
Arguments target_devices {W}.
Arguments dbus_devices {W}.
Arguments profile_path {W}.
Arguments load_profile_path {W}.
Arguments stop_composite {W}.
Arguments device_type {W}.
Arguments device_paths {W}.

Section passes.
Context {W : Type}.
Variable bus : Bus W.
Variable classifier : string -> SourceClass.
Variable topology_of : list string -> SourceTopology.

(** A zbus error is carried through [?]. *)
Definition zbus {A} (p : W * result string A) : W * result DbusRuntimeError A := on_err Zbus p.

Definition current_unique_owner (w : W) : W * result DbusRuntimeError (option string) :=
  match get_name_owner bus w with
  | (w, Ok owner) => (w, Ok (Some owner))
  | (w, Err NameHasNoOwner) => (w, Ok None)
  | (w, Err (OtherOwnerError e)) => (w, Err (Zbus e))
  end.

Definition is_gamepad (path : string) : bool := bool_decide (classifier path = Gamepad).
Definition is_unknown (path : string) : bool := bool_decide (classifier path = Unknown).

Definition not_retained : DbusRuntimeError :=
  Rejected "InputPlumber did not retain the immutable Korri profile".

(** What the loop over the composites carries: the gamepads seen and whether a
    profile was applied, or the status of an early return. *)
Fixpoint capture_composites (owner profile : string) (paths : list string) (count : Z) (applied : bool)
    (w : W) : W * result DbusRuntimeError (ProfileStatus + Z * bool) :=
  match paths with
  | [] => (w, Ok (inr (count, applied)))
  | path :: paths =>
      try! w, sources <- zbus (source_device_paths bus owner path w) ;;
      if 256 <? Z.of_nat (length sources) then (w, Err (Rejected "too many physical sources"))
      else
        match topology_of sources with
        | MissingGamepad => capture_composites owner profile paths count applied w
        | AmbiguousGamepads => (w, Ok (inl StAmbiguousSources))
        | OneGamepad =>
            if negb (existsb is_gamepad sources) then (w, Ok (inl StAmbiguousSources))
            else
              try! w, current <- zbus (profile_path bus owner path w) ;;
              try! w, loaded <-
                (if bool_decide (current = profile) then (w, Ok (Some applied))
                 else
                   try! w, now <- current_unique_owner w ;;
                   if negb (bool_decide (now = Some owner)) then (w, Ok None)
                   else
                     try! w, u <- zbus (load_profile_path bus owner path profile w) ;;
                     try! w, retained <- zbus (profile_path bus owner path w) ;;
                     if negb (bool_decide (retained = profile)) then (w, Err not_retained)
                     else (w, Ok (Some true))) ;;
              match loaded with
              | None => (w, Ok (inl StPending))
              | Some applied =>
                  try! w, again <- zbus (source_device_paths bus owner path w) ;;
                  if negb (bool_decide (again = sources)) then (w, Ok (inl StPending))
                  else capture_composites owner profile paths (count + 1) applied w
              end
        end
  end.

Definition ensure_capture_profiles (profile : string) (w : W) : W * result DbusRuntimeError ProfileStatus :=
  try! w, owner <- current_unique_owner w ;;
  match owner with
  | None => (w, Ok StPending)
  | Some owner =>
      try! w, xml <- zbus (introspect bus owner INPUTPLUMBER_ROOT_PATH w) ;;
      if 1048576 <? str_len xml then (w, Err (Rejected "composite introspection exceeds bound"))
      else
        let paths := composite_paths_from_introspection xml in
        if 256 <? Z.of_nat (length paths) then (w, Err (Rejected "too many composites"))
        else
          try! w, r <- capture_composites owner profile paths 0 false w ;;
          match r with
          | inl status => (w, Ok status)
          | inr (count, applied) =>
              try! w, now <- current_unique_owner w ;;
              if negb (bool_decide (now = Some owner)) then (w, Ok StPending)
              else (w, Ok (if count =? 0 then StMissingSource
                           else if applied then StApplied else StReady))
          end
  end.

Definition profile_status_with_sources (status : ProfileStatus) (source_paths : list string)
    : ProfileStatus :=
  match topology_of source_paths with
  | MissingGamepad => StMissingSource
  | OneGamepad => status
  | AmbiguousGamepads => StAmbiguousSources
  end.

(** The first loop of [ensure_profile]: the candidates, whether a required
    composite lacks sources and whether an empty one was stopped. *)
Fixpoint survey (owner : string) (paths : list string) (candidates : list string)
    (missing_required stopped_empty : bool) (w : W)
    : W * result DbusRuntimeError (list string * bool * bool) :=
  match paths with
  | [] => (w, Ok (candidates, missing_required, stopped_empty))
  | path :: paths =>
      try! w, devices <- zbus (dbus_devices bus owner path w) ;;
      try! w, sources <- zbus (source_device_paths bus owner path w) ;;
      match composite_disposition devices sources with
      | Required => survey owner paths (candidates ++ [path]) missing_required stopped_empty w
      | MissingRequired => survey owner paths candidates true stopped_empty w
      | EmptyOther =>
          try! w, u <- zbus (stop_composite bus owner path w) ;;
          survey owner paths candidates missing_required true w
      | OtherComposite => survey owner paths candidates missing_required stopped_empty w
      end
  end.

Definition too_many_owners : DbusRuntimeError :=
  Rejected "more than one InputPlumber composite owns the required DBus target".

(** Whether the owner is still the one the pass started with. *)
Definition owner_kept (owner : string) (w : W) : W * result DbusRuntimeError bool :=
  try! w, now <- current_unique_owner w ;;
  (w, Ok (bool_decide (now = Some owner))).

Definition load_profile (owner path profile : string) (w : W)
    : W * result DbusRuntimeError ProfileStatus :=
  try! w, current <- zbus (profile_path bus owner path w) ;;
  if bool_decide (current = profile) then (w, Ok StReady)
  else
    try! w, u <- zbus (load_profile_path bus owner path profile w) ;;
    try! w, kept <- owner_kept owner w ;;
    if negb kept then (w, Ok StPending)
    else
      try! w, retained <- zbus (profile_path bus owner path w) ;;
      if negb (bool_decide (retained = profile)) then (w, Err not_retained)
      else
        try! w, kept <- owner_kept owner w ;;
        (w, Ok (if kept then StApplied else StPending)).

Definition ensure_profile (profile : string) (w : W) : W * result DbusRuntimeError ProfileStatus :=
  try! w, owner <- current_unique_owner w ;;
  match owner with
  | None => (w, Ok StPending)
  | Some owner =>
      try! w, xml <- zbus (introspect bus owner INPUTPLUMBER_ROOT_PATH w) ;;
      try! w, surveyed <- survey owner (composite_paths_from_introspection xml) [] false false w ;;
      try! w, kept <- owner_kept owner w ;;
      let '(candidates, missing_required, stopped_empty) := surveyed in
      if negb kept then (w, Ok StPending)
      else if missing_required then
        (w, if bool_decide (candidates = []) then Ok StMissingSource else Err too_many_owners)
      else if stopped_empty then (w, Ok StPending)
      else
        match candidates with
        | [] => (w, Ok StPending)
        | [path] =>
            try! w, status <- load_profile owner path profile w ;;
            match status with
            | StPending => (w, Ok StPending)
            | status =>
                try! w, sources <- zbus (source_device_paths bus owner path w) ;;
                try! w, kept <- owner_kept owner w ;;
                (w, Ok (if kept then profile_status_with_sources status sources else StPending))
            end
        | _ => (w, Err too_many_owners)
        end
  end.

Definition current_authenticated_owner (w : W) : W * result DbusRuntimeError (option string) :=
  try! w, owner <- current_unique_owner w ;;
  match owner with
  | None => (w, Ok None)
  | Some owner =>
      match introspect bus owner DBUS_TARGET_PATH w with
      | (w, Err _) => (w, Ok None)
      | (w, Ok xml) =>
          if negb (introspection_has_target_interface xml) then (w, Ok None)
          else
            try! w, kept <- owner_kept owner w ;;
            (w, Ok (if kept then Some owner else None))
      end
  end.
End passes.

(** ** Properties *)

(** A message becomes input exactly when it comes from the one authenticated
    owner, from its target object, interface and member, with a body whose
    capability is known and whose value is finite. Without an owner nothing is
    accepted. *)
Theorem authenticated_message_iff a m input :
  authenticated_message a m = Some input <->
  exists sender capability value,
    auth_owner a = Some sender /\ ms_sender m = Some sender /\
    ms_path m = Some DBUS_TARGET_PATH /\ ms_interface m = Some DBUS_TARGET_INTERFACE /\
    ms_member m = Some DBUS_INPUT_MEMBER /\ ms_body m = Some (capability, value) /\
    map_capability capability value = Some input.
Proof.
  unfold authenticated_message, from_target. split.
  - intros (sender & Hs & H1)%bind_Some. apply bind_Some in H1 as (path & Hp & H1).
    apply bind_Some in H1 as (interface & Hi & H1). apply bind_Some in H1 as (member & Hm & H1).
    destruct (_ && _ && _ && _) eqn:Hc; [|done]. simpl in H1.
    apply andb_true_iff in Hc as [[[Ho Hpp]%andb_true_iff Hii]%andb_true_iff Hmm].
    apply bool_decide_eq_true in Ho, Hpp, Hii, Hmm. subst.
    apply bind_Some in H1 as ([capability value] & Hb & Hmap).
    exists sender, capability, value. done.
  - intros (sender & capability & value & Ho & Hs & Hp & Hi & Hm & Hb & Hmap).
    rewrite Hs. simpl. rewrite Hp. simpl. rewrite Hi. simpl. rewrite Hm. simpl.
    rewrite !bool_decide_eq_true_2 by done. simpl. by rewrite Hb.
Qed.

Lemma elem_of_dedup l x : x ∈ dedup l <-> x ∈ l.
Proof.
  induction l as [|y l IH]; [done|]. simpl. destruct l as [|z l]; [done|].
  case_bool_decide as Hyz; rewrite ?elem_of_cons, IH; set_solver.
Qed.

Definition str_lt (x y : string) : Prop := ord_le x y /\ x <> y.

Lemma dedup_sorted l : StronglySorted ord_le l -> StronglySorted str_lt (dedup l).
Proof.
  induction l as [|y l IH]; intros Hs; [constructor|]. simpl. destruct l as [|z l].
  { repeat constructor. }
  apply StronglySorted_inv in Hs as [Hs Hall]. case_bool_decide as Hyz; [by apply IH|].
  constructor; [by apply IH|]. apply Forall_forall. intros x Hx. apply (proj1 (elem_of_dedup _ _)) in Hx.
  rewrite Forall_forall in Hall. split; [by apply Hall|]. intros ->.
  apply StronglySorted_inv in Hs as [_ Hz]. rewrite Forall_forall in Hz. apply Hyz.
  apply elem_of_cons in Hx as [->|Hx]; [done|].
  apply (anti_symm ord_le); [apply Hall; left|by apply Hz].
Qed.

(** The composites of an introspection reply are listed once each, in strict
    order, and are exactly the paths its lines name, each a numbered composite
    under the InputPlumber root. *)
Theorem composite_paths_spec xml :
  StronglySorted str_lt (composite_paths_from_introspection xml) /\
  forall p, p ∈ composite_paths_from_introspection xml <->
    exists line, line ∈ lines xml /\ composite_path line = Some p.
Proof.
  unfold composite_paths_from_introspection. split.
  - apply dedup_sorted, StronglySorted_merge_sort; apply _.
  - intros p. by rewrite elem_of_dedup, merge_sort_Permutation, elem_of_filter_map.
Qed.

(** The bus with the two calls that change InputPlumber refused. *)
Definition read_only {W} (bus : Bus W) : Bus W :=
  MkBus W (get_name_owner bus) (introspect bus) (source_device_paths bus) (target_devices bus)
    (dbus_devices bus) (profile_path bus) (fun _ _ _ w => (w, Err "read only"))
    (fun _ _ w => (w, Err "read only")) (device_type bus) (device_paths bus).

Section read_only.
Context {W : Type}.
Variable bus : Bus W.
Variable classifier : string -> SourceClass.
Variable topology_of : list string -> SourceTopology.

Lemma current_owner_read_only w :
  current_unique_owner (read_only bus) w = current_unique_owner bus w.
Proof. done. Qed.

(** Without an application, the composites were only read. *)
Lemma capture_composites_read_only owner profile paths count applied w w' n applied' :
  capture_composites bus classifier topology_of owner profile paths count applied w
    = (w', Ok (inr (n, applied'))) ->
  count <= n /\ (applied = true -> applied' = true) /\
  (applied' = false \/ n = count ->
   applied' = applied /\
   capture_composites (read_only bus) classifier topology_of owner profile paths count applied w
     = (w', Ok (inr (n, applied')))).
Proof.
  revert count applied w; induction paths as [|path paths IH]; intros count applied w.
  { simpl. intros [= <- <- <-]. split; [lia|]. split; [done|]. auto. }
  cbn [capture_composites]. change (source_device_paths (read_only bus)) with (source_device_paths bus).
  change (profile_path (read_only bus)) with (profile_path bus).
  destruct (zbus (source_device_paths bus owner path w)) as [w1 [sources|e]]; [|done].
  destruct (256 <? _); [done|]. destruct (topology_of sources); [apply IH| |done].
  destruct (negb _); [done|].
  destruct (zbus (profile_path bus owner path w1)) as [w2 [current|e]]; [|done].
  case_bool_decide as Hcur.
  - destruct (zbus (source_device_paths bus owner path w2)) as [w3 [again|e]]; [|done].
    destruct (negb _); [done|]. intros Hc. apply IH in Hc as (Hn & Ha & Hr).
    split; [lia|]. split; [done|]. intros [Hf|Hf]; [|lia]. apply Hr. by left.
  - rewrite current_owner_read_only.
    destruct (current_unique_owner bus w2) as [w3 [now|e]]; [|done].
    destruct (negb (bool_decide (now = Some owner))); [done|].
    destruct (zbus (load_profile_path bus owner path profile w3)) as [w4 [u|e]]; [|done].
    destruct (zbus (profile_path bus owner path w4)) as [w5 [retained|e]]; [|done].
    destruct (negb _); [done|].
    destruct (zbus (source_device_paths bus owner path w5)) as [w6 [again|e]]; [|done].
    destruct (negb _); [done|]. intros Hc. apply IH in Hc as (Hn & Ha & Hr).
    specialize (Ha eq_refl). split; [lia|]. split; [done|]. intros [Hf|Hf]; [congruence|lia].
Qed.

Lemma capture_composites_early owner profile paths count applied w w' early :
  capture_composites bus classifier topology_of owner profile paths count applied w
    = (w', Ok (inl early)) -> early = StPending \/ early = StAmbiguousSources.
Proof.
  revert count applied w; induction paths as [|path paths IH]; intros count applied w; [done|].
  cbn [capture_composites].
  destruct (zbus (source_device_paths bus owner path w)) as [w1 [sources|e]]; [|done].
  destruct (256 <? _); [done|].
  destruct (topology_of sources); [apply IH| |intros [= _ <-]; by right].
  destruct (negb _); [intros [= _ <-]; by right|].
  destruct (zbus (profile_path bus owner path w1)) as [w2 [current|e]]; [|done].
  match goal with |- context [match ?load with _ => _ end] => destruct load as [w3 [[b|]|e]] end;
    [|intros [= _ <-]; by left|done].
  destruct (zbus (source_device_paths bus owner path w3)) as [w4 [again|e]]; [|done].
  destruct (negb _); [intros [= _ <-]; by left|]. apply IH.
Qed.

(** Reporting readiness writes nothing: when profile reconciliation ends with
    every capture ready or with no gamepad at all, it behaved exactly as it would
    on a bus that refuses every call that changes InputPlumber. *)
Theorem ready_is_read_only profile w w' status :
  ensure_capture_profiles bus classifier topology_of profile w = (w', Ok status) ->
  status = StReady \/ status = StMissingSource ->
  ensure_capture_profiles (read_only bus) classifier topology_of profile w = (w', Ok status).
Proof.
  unfold ensure_capture_profiles. rewrite current_owner_read_only.
  destruct (current_unique_owner bus w) as [w1 [[owner|]|e]]; [|by intros [= <- <-] _|done].
  change (introspect (read_only bus)) with (introspect bus).
  destruct (zbus (introspect bus owner _ w1)) as [w2 [xml|e]]; [|done].
  destruct (1048576 <? str_len xml); [done|]. set (paths := composite_paths_from_introspection xml).
  destruct (256 <? _); [done|].
  destruct (capture_composites bus classifier topology_of owner profile paths 0 false w2)
    as [w3 [[early|[n applied]]|e]] eqn:Hc; [| |done].
  - intros [= <- <-] [-> | ->]; by apply capture_composites_early in Hc as [].
  - intros Hrun Hst. apply capture_composites_read_only in Hc as (Hn & _ & Hr).
    destruct (current_unique_owner bus w3) as [w4 [now|e]] eqn:Ho; [|done].
    destruct (negb (bool_decide (now = Some owner))) eqn:Hkept.
    { injection Hrun as <- <-. by destruct Hst. }
    assert (Hcase : applied = false \/ n = 0).
    { destruct (Z.eqb_spec n 0) as [->|]; [by right|].
      destruct applied; [|by left]. injection Hrun as <- <-. by destruct Hst. }
    destruct (Hr Hcase) as [_ ->]. by rewrite current_owner_read_only, Ho, Hkept.
Qed.
End read_only.

(** ** A concrete provider *)

Definition demo_xml : string := "  <node name=" +:+ quote +:+ "CompositeDevice0" +:+ quote +:+ "/>".

Definition demo_composite : string := "/org/shadowblip/InputPlumber/CompositeDevice0".
Definition demo_target : string := "/org/shadowblip/InputPlumber/devices/target/gamepad0".
Definition demo_profile : string := "/nix/store/p/profile.yaml".

Definition demo_bus : Bus unit :=
  MkBus unit (fun w => (w, Ok ":1.5")) (fun _ _ w => (w, Ok demo_xml))
    (fun _ _ w => (w, Ok ["/dev/input/event3"])) (fun _ _ w => (w, Ok [demo_target]))
    (fun _ _ w => (w, Ok [DBUS_TARGET_PATH])) (fun _ _ w => (w, Ok demo_profile))
    (fun _ _ _ w => (w, Ok ())) (fun _ _ w => (w, Ok ())) (fun _ _ w => (w, Ok "xb360"))
    (fun _ _ w => (w, Ok ["/dev/input/event12"])).

Lemma ready_is_read_only_witness :
  ensure_capture_profiles (read_only demo_bus) (fun _ => Gamepad) (fun _ => OneGamepad) demo_profile ()
    = ((), Ok StReady).
Proof.
  apply (ready_is_read_only demo_bus).
  - vm_compute. reflexivity.
  - left. reflexivity.
Defined.
