(* ===== verification/PhysicalSources.v ===== *)
(** * Physical controllers (services/inputd/src/physical_sources.rs)

    Discovery of the normalized output of each InputPlumber composite, bound to
    one owner and re-read before it is believed, and the reconnect identity of
    the raw controller behind it.

    The bus is the record of [Dbus]; [ObjectPath::try_from] is the parameter
    [object_path]. The deadline of a pass is its caller's. *)

From S2P Require Import Prelude Text Contract SeatPool SeatRuntime Topology Devices Dbus.

Definition MAX_ENTRIES : Z := 256.
Definition MAX_INTROSPECTION_BYTES : Z := 1048576.
Definition MAX_PATH_BYTES : Z := 4096.

Record PhysicalSource := MkPhysical {
  composite_path_of : string;
  ps_source_paths : list string;
  ps_target_path : string;
  ps_dbus_paths : list string;
  ps_descriptor : DeviceDescriptor;
}.

#[export] Instance PhysicalSource_eq_dec : EqDecision PhysicalSource.
Proof. solve_decision. Defined.

Record PhysicalSources := MkSources { ps_owner : string; controllers : list PhysicalSource }.

#[export] Instance PhysicalSources_eq_dec : EqDecision PhysicalSources.
Proof. solve_decision. Defined.

Record IdentifiedSource := MkIdentified {
  is_source : PhysicalSource;
  is_device_id : string;
  is_raw : DeviceDescriptor;
}.

#[export] Instance IdentifiedSource_eq_dec : EqDecision IdentifiedSource.
Proof. solve_decision. Defined.

Definition rejected {A} (message : string) : result DbusRuntimeError A := Err (Rejected message).

(** [Path] equality compares components; the paths compared here are absolute. *)
Definition path_eq (a b : string) : bool :=
  is_absolute a && is_absolute b && bool_decide (path_components a = path_components b).

Definition all_digits (s : string) : bool := negb (str_is_empty s) && all_chars is_ascii_digit s.

Definition is_event_path (path : string) : bool :=
  is_some_and (strip_prefix "/dev/input/event" path) all_digits.

Definition is_dbus_target_path (path : string) : bool :=
  is_some_and (strip_prefix "/org/shadowblip/InputPlumber/devices/target/dbus" path) all_digits.

Definition is_normalized_type (device_type : string) : bool :=
  bool_decide (device_type = "xb360") || bool_decide (device_type = "gamepad").

Definition check_paths (paths : list string) : result DbusRuntimeError unit :=
  if (MAX_ENTRIES <? Z.of_nat (length paths))
     || existsb (fun path => str_is_empty path || (MAX_PATH_BYTES <? str_len path)) paths
  then rejected "InputPlumber path list exceeds discovery bounds"
  else Ok ().

(** [paths.windows(2).any(equal)]. *)
Fixpoint has_adjacent (l : list string) : bool :=
  match l with
  | x :: l => match l with y :: _ => bool_decide (x = y) || has_adjacent l | [] => false end
  | [] => false
  end.

Definition path_set (paths : list string) : result DbusRuntimeError (list string) :=
  match check_paths paths with
  | Err e => Err e
  | Ok _ =>
      let paths := merge_sort ord_le paths in
      if has_adjacent paths then rejected "duplicate InputPlumber path" else Ok paths
  end.

(** Inserts every element, [None] when one is already there. *)
Fixpoint insert_all (l : list string) (s : gset string) : option (gset string) :=
  match l with
  | [] => Some s
  | x :: l => if bool_decide (x ∈ s) then None else insert_all l ({[x]} ∪ s)
  end.

Section discovery.
Context {W : Type}.
Variable bus : Bus W.
Variable devices : list DeviceDescriptor.
Variable classifier : string -> SourceClass.
Variable topology_of : list string -> SourceTopology.
Variable object_path : string -> bool.

Definition is_target_path (path : string) : bool :=
  is_some_and (strip_prefix "/org/shadowblip/InputPlumber/devices/target/" path)
    (fun name => negb (str_is_empty name) && negb (any_char (is_byte SLASH) name))
  && object_path path.

(** ** Identities *)

Definition device_id_of (raw : DeviceDescriptor) : option string :=
  let non_empty (o : option string) := id ← o; if str_is_empty id then None else Some id in
  match non_empty (unique_id raw) with
  | Some id => Some id
  | None => non_empty (physical_path raw)
  end.

(** One controller: its raw gamepad and its identity. *)
Definition identify_source (source : PhysicalSource) : result DbusRuntimeError IdentifiedSource :=
  if existsb (is_unknown classifier) (ps_source_paths source)
  then rejected "unknown physical source class"
  else
    match keep (is_gamepad classifier) (ps_source_paths source) with
    | [path] =>
        match keep (fun d => path_eq (dd_path d) path) devices with
        | [raw] =>
            if is_validated_inputplumber_xb360 raw || negb (bool_decide (class raw = ClassGamepad))
               || str_is_empty (dd_name raw) || (512 <? str_len (dd_name raw))
               || has_control (dd_name raw)
            then rejected "raw source is not a physical gamepad"
            else
              match device_id_of raw with
              | None => rejected "physical source has neither uniq nor phys reconnect identity"
              | Some id => Ok (MkIdentified source id raw)
              end
        | _ => rejected "missing or ambiguous raw source descriptor"
        end
    | _ => rejected "physical identity requires one positive gamepad source"
    end.

Fixpoint identify_all (sources : list PhysicalSource) (identities : gset string)
    : result DbusRuntimeError (list IdentifiedSource) :=
  match sources with
  | [] => Ok []
  | source :: sources =>
      match identify_source source with
      | Err e => Err e
      | Ok identified =>
          let id := is_device_id identified in
          if (256 <? str_len id) || has_control id || bool_decide (id ∈ identities)
          then rejected "invalid or duplicate physical reconnect identity"
          else
            match identify_all sources ({[id]} ∪ identities) with
            | Err e => Err e
            | Ok rest => Ok (identified :: rest)
            end
      end
  end.

Definition identify_sources (sources : PhysicalSources)
    : result DbusRuntimeError (list IdentifiedSource) :=
  if MAX_PHYSICAL_SOURCES <? Z.of_nat (length (controllers sources))
  then rejected "too many physical controllers"
  else identify_all (controllers sources) ∅.

(** ** Discovery *)

Record TargetSnapshot := MkTarget {
  ts_path : string;
  ts_device_type : string;
  ts_nodes : option (list string);
}.

Record CompositeSnapshot := MkComposite {
  cs_path : string;
  cs_sources : list string;
  cs_topology : SourceTopology;
  cs_dbus_paths : list string;
  cs_targets : option (list TargetSnapshot);
}.

(** Everything assigned so far. *)
Record Assigned := MkAssigned {
  as_sources : gset string;
  as_targets : gset string;
  as_nodes : gset string;
  as_dbus : gset string;
}.

Definition candidate : Type := string * DeviceDescriptor.

Fixpoint match_nodes (target_path : string) (nodes : list string) (assigned : gset string)
    : result DbusRuntimeError (gset string * list candidate) :=
  match nodes with
  | [] => Ok (assigned, [])
  | node :: nodes =>
      if negb (is_event_path node) || bool_decide (node ∈ assigned)
      then rejected "invalid or multiply assigned target event node"
      else
        let next found :=
          match match_nodes target_path nodes ({[node]} ∪ assigned) with
          | Err e => Err e
          | Ok (assigned, rest) => Ok (assigned, found ++ rest)
          end in
        match keep (fun d => path_eq (dd_path d) node) devices with
        | [] => next []
        | [descriptor] =>
            next (if is_validated_inputplumber_xb360 descriptor
                  then [(target_path, descriptor)] else [])
        | _ => rejected "ambiguous descriptor for target event node"
        end
  end.

Fixpoint inspect_targets (owner : string) (targets : list string) (targets_seen nodes_seen : gset string)
    (w : W)
    : W * result DbusRuntimeError (gset string * gset string * list candidate * list TargetSnapshot) :=
  match targets with
  | [] => (w, Ok (targets_seen, nodes_seen, [], []))
  | target_path :: targets =>
      if negb (is_target_path target_path) || bool_decide (target_path ∈ targets_seen)
      then (w, rejected "invalid or multiply assigned InputPlumber target")
      else
        let targets_seen := {[target_path]} ∪ targets_seen in
        try! w, kind <- zbus (device_type bus owner target_path w) ;;
        if str_is_empty kind || (MAX_PATH_BYTES <? str_len kind)
        then (w, rejected "invalid InputPlumber target type")
        else if negb (is_normalized_type kind) then
          try! w, rest <- inspect_targets owner targets targets_seen nodes_seen w ;;
          let '(ts, ns, cands, snaps) := rest in
          (w, Ok (ts, ns, cands, MkTarget target_path kind None :: snaps))
        else
          try! w, listed <- zbus (device_paths bus owner target_path w) ;;
          try! w, nodes <- (w, path_set listed) ;;
          try! w, matched <- (w, match_nodes target_path nodes nodes_seen) ;;
          let '(nodes_seen, found) := matched in
          try! w, rest <- inspect_targets owner targets targets_seen nodes_seen w ;;
          let '(ts, ns, cands, snaps) := rest in
          (w, Ok (ts, ns, found ++ cands, MkTarget target_path kind (Some nodes) :: snaps))
  end.

(** A composite with one gamepad: its controller and its targets. *)
Definition inspect_gamepad (owner path : string) (sources dbus_paths : list string) (a : Assigned) (w : W)
    : W * result DbusRuntimeError (Assigned * PhysicalSource * list TargetSnapshot) :=
  if negb (Z.of_nat (length (keep (is_gamepad classifier) sources)) =? 1)
     || existsb (is_unknown classifier) sources
  then (w, rejected "physical controller lacks positive gamepad provenance")
  else
    match (if negb (Z.of_nat (length dbus_paths) =? 1)
              || negb (forallb is_dbus_target_path dbus_paths)
           then None else insert_all dbus_paths (as_dbus a)) with
    | None => (w, rejected "controller requires one authenticated DBus target")
    | Some dbus =>
        try! w, listed <- zbus (target_devices bus owner path w) ;;
        try! w, targets <- (w, path_set listed) ;;
        try! w, inspected <- inspect_targets owner targets (as_targets a) (as_nodes a) w ;;
        let '(ts, ns, cands, snaps) := inspected in
        match cands with
        | [(target_path, descriptor)] =>
            (w, Ok (MkAssigned (as_sources a) ts ns dbus,
                    MkPhysical path sources target_path dbus_paths descriptor, snaps))
        | _ => (w, rejected "missing or ambiguous normalized composite output")
        end
    end.

Fixpoint inspect_composites (owner : string) (paths : list string) (a : Assigned) (w : W)
    : W * result DbusRuntimeError (Assigned * list PhysicalSource * list CompositeSnapshot) :=
  match paths with
  | [] => (w, Ok (a, [], []))
  | path :: paths =>
      try! w, listed <- zbus (source_device_paths bus owner path w) ;;
      try! w, sources <- (w, path_set listed) ;;
      if existsb (fun s => starts_with "/dev/input/" s && negb (is_event_path s)) sources
      then (w, rejected "malformed composite event source path")
      else
        match insert_all sources (as_sources a) with
        | None => (w, rejected "duplicate or cross-composite physical source")
        | Some seen =>
            let a := MkAssigned seen (as_targets a) (as_nodes a) (as_dbus a) in
            let topology := topology_of sources in
            try! w, dbus_listed <- zbus (dbus_devices bus owner path w) ;;
            try! w, dbus_paths <- (w, path_set dbus_listed) ;;
            match topology with
            | MissingGamepad =>
                try! w, rest <- inspect_composites owner paths a w ;;
                let '(a, found, snaps) := rest in
                (w, Ok (a, found, MkComposite path sources topology dbus_paths None :: snaps))
            | AmbiguousGamepads => (w, rejected "composite requires one gamepad-class source")
            | OneGamepad =>
                try! w, one <- inspect_gamepad owner path sources dbus_paths a w ;;
                let '(a, controller, targets) := one in
                try! w, rest <- inspect_composites owner paths a w ;;
                let '(a, found, snaps) := rest in
                (w, Ok (a, controller :: found,
                        MkComposite path sources topology dbus_paths (Some targets) :: snaps))
            end
        end
  end.

Fixpoint recheck_targets (owner : string) (targets : list TargetSnapshot) (w : W)
    : W * result DbusRuntimeError unit :=
  match targets with
  | [] => (w, Ok ())
  | snapshot :: targets =>
      try! w, kind <- zbus (device_type bus owner (ts_path snapshot) w) ;;
      if negb (bool_decide (kind = ts_device_type snapshot))
      then (w, rejected "InputPlumber target type changed during discovery")
      else
        match ts_nodes snapshot with
        | None => recheck_targets owner targets w
        | Some nodes =>
            try! w, listed <- zbus (device_paths bus owner (ts_path snapshot) w) ;;
            try! w, again <- (w, path_set listed) ;;
            if negb (bool_decide (again = nodes))
            then (w, rejected "InputPlumber target changed during discovery")
            else recheck_targets owner targets w
        end
  end.

Definition composite_changed : DbusRuntimeError :=
  Rejected "InputPlumber composite changed during discovery".

(** The three reads are a short-circuit disjunction in the source. *)
Fixpoint recheck (owner : string) (snapshots : list CompositeSnapshot) (w : W)
    : W * result DbusRuntimeError unit :=
  match snapshots with
  | [] => (w, Ok ())
  | snapshot :: snapshots =>
      try! w, listed <- zbus (source_device_paths bus owner (cs_path snapshot) w) ;;
      try! w, sources <- (w, path_set listed) ;;
      if negb (bool_decide (sources = cs_sources snapshot))
         || negb (bool_decide (topology_of (cs_sources snapshot) = cs_topology snapshot))
      then (w, Err composite_changed)
      else
        try! w, dbus_listed <- zbus (dbus_devices bus owner (cs_path snapshot) w) ;;
        try! w, dbus <- (w, path_set dbus_listed) ;;
        if negb (bool_decide (dbus = cs_dbus_paths snapshot)) then (w, Err composite_changed)
        else
          match cs_targets snapshot with
          | None => recheck owner snapshots w
          | Some targets =>
              try! w, target_listed <- zbus (target_devices bus owner (cs_path snapshot) w) ;;
              try! w, target_paths <- (w, path_set target_listed) ;;
              if negb (bool_decide (target_paths = map ts_path targets)) then (w, Err composite_changed)
              else
                try! w, u <- recheck_targets owner targets w ;;
                recheck owner snapshots w
          end
  end.

Definition discover (w : W) : W * result DbusRuntimeError PhysicalSources :=
  try! w, current <- current_unique_owner bus w ;;
  match current with
  | None => (w, rejected "InputPlumber has no current owner")
  | Some owner =>
      try! w, xml <- zbus (introspect bus owner INPUTPLUMBER_ROOT_PATH w) ;;
      if MAX_INTROSPECTION_BYTES <? str_len xml
      then (w, rejected "InputPlumber introspection exceeds discovery bounds")
      else
        let paths := composite_paths_from_introspection xml in
        try! w, u <- (w, check_paths paths) ;;
        try! w, inspected <- inspect_composites owner paths (MkAssigned ∅ ∅ ∅ ∅) w ;;
        let '(_, found, snapshots) := inspected in
        try! w, u <- recheck owner snapshots w ;;
        try! w, now <- current_unique_owner bus w ;;
        if negb (bool_decide (now = Some owner))
        then (w, rejected "InputPlumber owner changed during discovery")
        else (w, Ok (MkSources owner found))
  end.
End discovery.

(** ** What a successful discovery has checked *)

Lemma insert_all_Some l s s' :
  insert_all l s = Some s' -> NoDup l /\ (forall x, x ∈ l -> x ∉ s) /\ s' = list_to_set l ∪ s.
Proof.
  revert s; induction l as [|x l IH]; intros s; simpl.
  { intros [= <-]. split; [constructor|]. set_solver. }
  case_bool_decide as Hx; [done|]. intros (Hnd & Hout & ->)%IH. split; [|split].
  - constructor; [|done]. intros Hin. apply (Hout x Hin). set_solver.
  - intros y [->|Hy]%elem_of_cons; [done|]. specialize (Hout y Hy). set_solver.
  - set_solver.
Qed.

Section soundness.
Context {W : Type}.
Variable bus : Bus W.
Variable devices : list DeviceDescriptor.
Variable classifier : string -> SourceClass.
Variable topology_of : list string -> SourceTopology.
Variable object_path : string -> bool.

(** A normalized output at a node that was not assigned before. *)
Definition fresh_output (seen seen' : gset string) (d : DeviceDescriptor) : Prop :=
  d ∈ devices /\ is_validated_inputplumber_xb360 d = true /\
  exists node, is_event_path node = true /\ node ∉ seen /\ node ∈ seen' /\
    path_eq (dd_path d) node = true.

Lemma fresh_output_mono s1 s2 s3 s4 d :
  s1 ⊆ s2 -> s3 ⊆ s4 -> fresh_output s2 s3 d -> fresh_output s1 s4 d.
Proof.
  intros H12 H34 (Hd & Hv & node & He & Ho & Hi & Hp). split; [done|]. split; [done|].
  exists node. set_solver.
Qed.

Lemma match_nodes_sound tp nodes s s' cands :
  match_nodes devices tp nodes s = Ok (s', cands) ->
  s ⊆ s' /\ forall t d, (t, d) ∈ cands -> t = tp /\ fresh_output s s' d.
Proof.
  revert s s' cands; induction nodes as [|node nodes IH]; intros s s' cands; simpl.
  { intros [= <- <-]. split; [done|]. intros t d Hin. by apply not_elem_of_nil in Hin. }
  destruct (is_event_path node) eqn:He; [|done]. simpl. case_bool_decide as Hn; [done|].
  assert (Hnext : forall found cands',
    (forall t d, (t, d) ∈ found -> t = tp /\ d ∈ devices /\
       is_validated_inputplumber_xb360 d = true /\ path_eq (dd_path d) node = true) ->
    match match_nodes devices tp nodes ({[node]} ∪ s) with
    | Err e => Err e
    | Ok (assigned, rest) => Ok (assigned, found ++ rest)
    end = Ok (s', cands') ->
    s ⊆ s' /\ forall t d, (t, d) ∈ cands' -> t = tp /\ fresh_output s s' d).
  { intros found cands' Hf. destruct (match_nodes devices tp nodes _) as [[s1 rest]|] eqn:Hm; [|done].
    intros [= <- <-]. apply IH in Hm as [Hsub Hr]. split; [set_solver|].
    intros t d [Hin|Hin]%elem_of_app.
    - destruct (Hf t d Hin) as (-> & Hd & Hv & Hp). split; [done|]. split; [done|]. split; [done|].
      exists node. set_solver.
    - destruct (Hr t d Hin) as [-> Hfr]. split; [done|].
      eapply fresh_output_mono; [| |exact Hfr]; set_solver. }
  destruct (keep (fun d => path_eq (dd_path d) node) devices) as [|d0 [|? ?]] eqn:Hk; [| |done].
  - apply (Hnext []). intros t d Hin. by apply not_elem_of_nil in Hin.
  - apply (Hnext (if is_validated_inputplumber_xb360 d0 then [(tp, d0)] else [])).
    intros t d. destruct (is_validated_inputplumber_xb360 d0) eqn:Hv.
    + intros [= -> ->]%list_elem_of_singleton.
      assert (Hd : d0 ∈ devices /\ path_eq (dd_path d0) node = true).
      { apply (elem_of_keep (fun d => path_eq (dd_path d) node) devices d0). rewrite Hk. left. }
      destruct Hd. done.
    + intros Hin. by apply not_elem_of_nil in Hin.
Qed.

Lemma inspect_targets_sound owner targets ts ns w w' ts' ns' cands snaps :
  inspect_targets bus devices object_path owner targets ts ns w = (w', Ok (ts', ns', cands, snaps)) ->
  ts ⊆ ts' /\ ns ⊆ ns' /\
  forall t d, (t, d) ∈ cands ->
    is_target_path object_path t = true /\ t ∉ ts /\ t ∈ ts' /\ fresh_output ns ns' d.
Proof.
  revert ts ns w w' ts' ns' cands snaps.
  induction targets as [|target targets IH]; intros ts ns w w' ts' ns' cands snaps; cbn [inspect_targets].
  { intros [= _ <- <- <- _]. split; [done|]. split; [done|].
    intros t d Hin. by apply not_elem_of_nil in Hin. }
  destruct (is_target_path object_path target) eqn:Ht; [|done]. cbn [negb orb].
  case_bool_decide as Hseen; [done|].
  destruct (zbus (device_type bus owner target w)) as [w1 [kind|e]]; [|done].
  destruct (_ || _); [done|]. destruct (negb (is_normalized_type kind)).
  - destruct (inspect_targets bus devices object_path owner targets _ ns w1)
      as [w2 [[[[ts1 ns1] cands1] snaps1]|e]] eqn:Hr; [|done].
    intros [= _ <- <- <- _]. apply IH in Hr as (Hts & Hns & Hc).
    split; [set_solver|]. split; [done|]. intros t d Hin.
    destruct (Hc t d Hin) as (? & ? & ? & ?). set_solver.
  - destruct (zbus (device_paths bus owner target w1)) as [w2 [listed|e]]; [|done].
    destruct (path_set listed) as [nodes|e]; [|done].
    destruct (match_nodes devices target nodes ns) as [[ns0 found]|e] eqn:Hm; [|done].
    apply match_nodes_sound in Hm as [Hns0 Hfound].
    destruct (inspect_targets bus devices object_path owner targets _ ns0 w2)
      as [w3 [[[[ts1 ns1] cands1] snaps1]|e]] eqn:Hr; [|done].
    intros [= _ <- <- <- _]. apply IH in Hr as (Hts & Hns & Hc).
    split; [set_solver|]. split; [set_solver|]. intros t d [Hin|Hin]%elem_of_app.
    + destruct (Hfound t d Hin) as [-> Hfr]. split_and!; [done|done|set_solver|].
      eapply fresh_output_mono; [| |exact Hfr]; done.
    + destruct (Hc t d Hin) as (? & ? & ? & Hfr). split_and!; [done|set_solver|done|].
      eapply fresh_output_mono; [| |exact Hfr]; done.
Qed.

(** What discovery has established of one controller. *)
Definition controller_ok (c : PhysicalSource) : Prop :=
  ps_descriptor c ∈ devices /\ is_validated_inputplumber_xb360 (ps_descriptor c) = true /\
  (exists p, keep (is_gamepad classifier) (ps_source_paths c) = [p]) /\
  (forall p, p ∈ ps_source_paths c -> classifier p <> Unknown) /\
  (exists d, ps_dbus_paths c = [d] /\ is_dbus_target_path d = true) /\
  is_target_path object_path (ps_target_path c) = true.

Lemma inspect_gamepad_sound owner path sources dbus a w w' a' c snaps :
  inspect_gamepad bus devices classifier object_path owner path sources dbus a w
    = (w', Ok (a', c, snaps)) ->
  controller_ok c /\ ps_source_paths c = sources /\ as_sources a' = as_sources a /\
  (forall d, d ∈ ps_dbus_paths c -> d ∉ as_dbus a /\ d ∈ as_dbus a') /\
  as_dbus a ⊆ as_dbus a' /\ as_nodes a ⊆ as_nodes a' /\
  fresh_output (as_nodes a) (as_nodes a') (ps_descriptor c).
Proof.
  unfold inspect_gamepad. destruct (negb _ || _) eqn:Hg; [done|].
  apply orb_false_elim in Hg as [Hone Hunk]. apply negb_false_iff, Z.eqb_eq in Hone.
  destruct (negb _ || _) eqn:Hd; [done|]. apply orb_false_elim in Hd as [Hlen Hall].
  apply negb_false_iff, Z.eqb_eq in Hlen. apply negb_false_iff in Hall.
  destruct (insert_all dbus (as_dbus a)) as [seen|] eqn:Hins; [|done].
  apply insert_all_Some in Hins as (_ & Hout & ->).
  destruct (zbus (target_devices bus owner path w)) as [w1 [listed|e]]; [|done].
  destruct (path_set listed) as [targets|e]; [|done].
  destruct (inspect_targets _ _ _ _ _ _ _ _) as [w2 [[[[ts ns] cands] snaps1]|e]] eqn:Hi; [|done].
  apply inspect_targets_sound in Hi as (_ & Hns & Hc).
  destruct cands as [|[t d] [|? ?]]; [done| |done]. intros [= _ <- <- _]. simpl.
  destruct (Hc t d ltac:(left)) as (Ht & _ & _ & Hfr).
  assert (Hdb : exists x, dbus = [x] /\ is_dbus_target_path x = true).
  { destruct dbus as [|x [|? ?]]; simpl in Hlen; try lia. exists x. split; [done|].
    simpl in Hall. by rewrite andb_true_r in Hall. }
  split; [|split; [done|split; [done|split; [|split; [set_solver|split; [done|done]]]]]].
  - unfold controller_ok. simpl. destruct (Hfr) as (Hin & Hv & _). split_and!; try done.
    + destruct (keep (is_gamepad classifier) sources) as [|p [|? ?]]; simpl in Hone; try lia.
      by exists p.
    + intros p Hp Hu. assert (Hex : existsb (is_unknown classifier) sources = true).
      { apply existsb_exists. exists p. rewrite <- list_elem_of_In. split; [done|].
        by apply bool_decide_eq_true. }
      congruence.
  - intros x Hx. split; [by apply Hout|]. set_solver.
Qed.

(** No two controllers share a source, a D-Bus target or a node, and none uses
    what was assigned before. *)
Definition disjoint_from (a : Assigned) (found : list PhysicalSource) : Prop :=
  (NoDup (concat (map ps_source_paths found)) /\
   forall x, x ∈ concat (map ps_source_paths found) -> x ∉ as_sources a) /\
  (NoDup (concat (map ps_dbus_paths found)) /\
   forall x, x ∈ concat (map ps_dbus_paths found) -> x ∉ as_dbus a) /\
  exists nodes, NoDup nodes /\ (forall n, n ∈ nodes -> n ∉ as_nodes a) /\
    Forall2 (fun c n => is_event_path n = true /\ path_eq (dd_path (ps_descriptor c)) n = true)
      found nodes.

Lemma NoDup_app_fresh (l k : list string) (s : gset string) :
  NoDup l -> NoDup k -> (forall x, x ∈ l -> x ∈ s) -> (forall x, x ∈ k -> x ∉ s) -> NoDup (l ++ k).
Proof. intros Hl Hk Hls Hks. apply NoDup_app. split; [done|]. split; [|done]. intros x ? ?. by apply (Hks x); auto. Qed.

Lemma inspect_composites_sound owner paths a w w' a' found snaps :
  inspect_composites bus devices classifier topology_of object_path owner paths a w
    = (w', Ok (a', found, snaps)) ->
  Forall controller_ok found /\ disjoint_from a found.
Proof.
  revert a w w' a' found snaps; induction paths as [|path paths IH]; intros a w w' a' found snaps;
    cbn [inspect_composites].
  { intros [= _ <- <- _]. split; [constructor|]. repeat split; try constructor; simpl;
      try (intros x Hx; by apply not_elem_of_nil in Hx).
    exists []. split; [constructor|]. split; [intros x Hx; by apply not_elem_of_nil in Hx|constructor]. }
  destruct (zbus (source_device_paths bus owner path w)) as [w1 [listed|e]]; [|done].
  destruct (path_set listed) as [sources|e]; [|done].
  destruct (existsb _ sources); [done|].
  destruct (insert_all sources (as_sources a)) as [seen|] eqn:Hins; [|done].
  apply insert_all_Some in Hins as (Hnd & Hout & ->).
  set (a1 := MkAssigned _ _ _ _).
  destruct (zbus (dbus_devices bus owner path w1)) as [w2 [dlisted|e]]; [|done].
  destruct (path_set dlisted) as [dbus|e]; [|done].
  assert (Hweak : forall found, disjoint_from a1 found -> disjoint_from a found).
  { intros f ((Hn1 & Ho1) & Hrest). split; [|exact Hrest]. split; [done|]. intros x Hx.
    specialize (Ho1 x Hx). unfold a1 in Ho1. simpl in Ho1. set_solver. }
  destruct (topology_of sources); [| |done].
  - destruct (inspect_composites _ _ _ _ _ _ paths a1 w2) as [w3 [[[a2 f] s]|e]] eqn:Hr; [|done].
    intros [= _ <- <- _]. apply IH in Hr as [Hok Hdis]. auto.
  - destruct (inspect_gamepad _ _ _ _ _ _ _ _ a1 w2) as [w3 [[[a2 c] ts]|e]] eqn:Hg; [|done].
    destruct (inspect_composites _ _ _ _ _ _ paths a2 w3) as [w4 [[[a3 f] s]|e]] eqn:Hr; [|done].
    intros [= _ <- <- _]. apply IH in Hr as [Hok ((Hn1 & Ho1) & (Hn2 & Ho2) & nodes & Hn3 & Ho3 & H2)].
    apply inspect_gamepad_sound in Hg as (Hc & Hsrc & Has & Hdb & Hdbsub & Hnsub & Hfr).
    split; [by constructor|]. unfold disjoint_from. cbn [map concat]. rewrite Hsrc. split_and!.
    + apply (NoDup_app_fresh _ _ (as_sources a2)); [done|done| |done].
      intros x Hx. rewrite Has. unfold a1. simpl. set_solver.
    + intros x [Hx|Hx]%elem_of_app; [by apply Hout|]. specialize (Ho1 x Hx). rewrite Has in Ho1.
      unfold a1 in Ho1. simpl in Ho1. set_solver.
    + apply (NoDup_app_fresh _ _ (as_dbus a2)); [|done| |done].
      * destruct Hc as (_ & _ & _ & _ & (d & -> & _) & _). apply NoDup_singleton.
      * intros x Hx. by apply Hdb.
    + intros x [Hx|Hx]%elem_of_app; [by apply (Hdb x Hx)|]. specialize (Ho2 x Hx). set_solver.
    + destruct Hfr as (_ & _ & node & He & Hno & Hni & Hp). exists (node :: nodes). split_and!.
      * constructor; [|done]. intros Hin. by apply (Ho3 node Hin).
      * intros n [->|Hn]%elem_of_cons; [exact Hno|]. specialize (Ho3 n Hn).
        intros Hn'. apply Ho3, Hnsub. exact Hn'.
      * by constructor.
Qed.
End soundness.

(** ** Paths of event nodes *)

Lemma pieces_of_plain sep acc l :
  forallb (fun a => negb (is_byte sep a)) l = true -> pieces_of sep acc l = [reverse acc ++ l].
Proof.
  revert acc; induction l as [|a l IH]; intros acc; simpl; [by rewrite app_nil_r|].
  destruct (is_byte sep a); [done|]. simpl. intros Hl. rewrite IH by done.
  by rewrite reverse_cons, <- app_assoc.
Qed.

Lemma digits_plain s :
  all_chars is_ascii_digit s = true -> forallb (fun a => negb (is_byte SLASH a)) (to_text s) = true.
Proof.
  induction s as [|a s IH]; [done|]. simpl. intros [Ha Hs]%andb_prop. apply andb_true_intro.
  split; [|by apply IH]. unfold is_ascii_digit, between in Ha. apply andb_prop in Ha as [Ha _].
  apply Z.leb_le in Ha. unfold is_byte. change SLASH with 47.
  destruct (Z.eqb_spec (byte a) 47); [lia|done].
Qed.

Lemma event_path_components number :
  all_chars is_ascii_digit number = true ->
  path_components ("/dev/input/event" +:+ number) = ["dev"; "input"; "event" +:+ number].
Proof.
  intros Hn. unfold path_components, split_on.
  assert (Hp : pieces_of SLASH [] (to_text ("/dev/input/event" +:+ number))
               = [[]; to_text "dev"; to_text "input"; to_text ("event" +:+ number)]).
  { change (pieces_of SLASH [] (to_text ("/dev/input/event" +:+ number)))
      with ([] :: to_text "dev" :: to_text "input"
            :: pieces_of SLASH (reverse (to_text "event")) (to_text number)).
    rewrite pieces_of_plain by (by apply digits_plain).
    by rewrite reverse_involutive. }
  rewrite Hp. cbn [fmap list_fmap]. rewrite !of_to_text.
  reflexivity.
Qed.

Lemma event_path_inj a b :
  is_event_path a = true -> is_event_path b = true -> path_components a = path_components b -> a = b.
Proof.
  unfold is_event_path, is_some_and, all_digits.
  destruct (strip_prefix _ a) as [na|] eqn:Ha; [|done].
  destruct (strip_prefix _ b) as [nb|] eqn:Hb; [|done].
  intros [_ Hna]%andb_prop [_ Hnb]%andb_prop.
  apply strip_prefix_Some in Ha as ->. apply strip_prefix_Some in Hb as ->.
  rewrite !event_path_components by done. intros [= Hn]. change (na = nb) in Hn. by subst.
Qed.

(** The descriptor paths of controllers at distinct event nodes are distinct. *)
Lemma distinct_nodes_distinct_paths (found : list PhysicalSource) nodes :
  NoDup nodes ->
  Forall2 (fun c n => is_event_path n = true /\ path_eq (dd_path (ps_descriptor c)) n = true)
    found nodes ->
  NoDup (map (fun c => path_components (dd_path (ps_descriptor c))) found).
Proof.
  intros Hnd H2. induction H2 as [|c n found nodes [He Hp] H2 IH]; simpl; [constructor|].
  apply NoDup_cons in Hnd as [Hout Hnd]. constructor; [|by apply IH].
  intros (c' & Heq & [i Hi]%list_elem_of_lookup_1)%list_elem_of_fmap.
  destruct (Forall2_lookup_l _ _ _ _ _ H2 Hi) as (n' & Hn' & He' & Hp').
  apply Hout. unfold path_eq in Hp, Hp'. rewrite !andb_true_iff, bool_decide_eq_true in Hp, Hp'.
  rewrite (event_path_inj n n'); [by eapply list_elem_of_lookup_2|done|done|].
  destruct Hp as [_ <-], Hp' as [_ <-]. done.
Qed.

Section claims.
Context {W : Type}.
Variable bus : Bus W.
Variable devices : list DeviceDescriptor.
Variable classifier : string -> SourceClass.
Variable topology_of : list string -> SourceTopology.
Variable object_path : string -> bool.

(** Every controller a discovery pass returns is a validated normalized output
    of the device list, behind exactly one raw gamepad, with every source
    classified, one well-formed D-Bus target and a well-formed object path; no
    two controllers share a raw source, a D-Bus target or an event node; and the
    last thing the pass read was that the owner it is bound to is still the
    owner. *)
Theorem discover_sound w w' found :
  discover bus devices classifier topology_of object_path w = (w', Ok found) ->
  Forall (controller_ok devices classifier object_path) (controllers found) /\
  NoDup (concat (map ps_source_paths (controllers found))) /\
  NoDup (concat (map ps_dbus_paths (controllers found))) /\
  NoDup (map (fun c => path_components (dd_path (ps_descriptor c))) (controllers found)) /\
  exists w1, current_unique_owner bus w1 = (w', Ok (Some (ps_owner found))).
Proof.
  unfold discover. destruct (current_unique_owner bus w) as [w1 [[owner|]|e]]; [|done|done].
  destruct (zbus (introspect bus owner INPUTPLUMBER_ROOT_PATH w1)) as [w2 [xml|e]]; [|done].
  destruct (MAX_INTROSPECTION_BYTES <? str_len xml); [done|].
  destruct (check_paths _) as [[]|e]; [|done].
  destruct (inspect_composites _ _ _ _ _ _ _ _ w2) as [w3 [[[a f] snaps]|e]] eqn:Hi; [|done].
  destruct (recheck _ _ _ _ w3) as [w4 [[]|e]]; [|done].
  destruct (current_unique_owner bus w4) as [w5 [now|e]] eqn:Ho; [|done].
  case_bool_decide as Hnow; [|done]. simpl. intros [= <- <-]. simpl.
  apply inspect_composites_sound in Hi as [Hok ((Hs & _) & (Hd & _) & nodes & Hn & _ & H2)].
  split_and!; [done|done|done|by eapply distinct_nodes_distinct_paths|].
  exists w4. by rewrite Ho, Hnow.
Qed.

(** What an identity names: a raw gamepad of the device list, at the one source
    path of the controller classified as a gamepad. *)
Definition identity_ok (i : IdentifiedSource) : Prop :=
  is_raw i ∈ devices /\ class (is_raw i) = ClassGamepad /\
  is_validated_inputplumber_xb360 (is_raw i) = false /\
  (exists p, p ∈ ps_source_paths (is_source i) /\ path_eq (dd_path (is_raw i)) p = true) /\
  (unique_id (is_raw i) = Some (is_device_id i) \/
   physical_path (is_raw i) = Some (is_device_id i)) /\
  valid_native_text (is_device_id i) 256 = true /\ valid_native_text (dd_name (is_raw i)) 512 = true.

Lemma device_id_of_spec raw id :
  device_id_of raw = Some id ->
  (unique_id raw = Some id \/ physical_path raw = Some id) /\ str_is_empty id = false.
Proof.
  unfold device_id_of. destruct (unique_id raw) as [u|], (physical_path raw) as [p|]; simpl;
    try (destruct (str_is_empty u) eqn:Hu; simpl); try (destruct (str_is_empty p) eqn:Hp; simpl);
    try done; intros [= <-]; auto.
Qed.

Lemma identify_source_ok source i :
  identify_source devices classifier source = Ok i ->
  (256 <? str_len (is_device_id i)) = false -> has_control (is_device_id i) = false ->
  is_source i = source /\ identity_ok i.
Proof.
  unfold identify_source. destruct (existsb _ _); [done|].
  destruct (keep (is_gamepad classifier) _) as [|p [|? ?]] eqn:Hp; [done| |done].
  destruct (keep _ devices) as [|raw [|? ?]] eqn:Hr; [done| |done].
  destruct (_ || _) eqn:Hg; [done|]. rewrite !orb_false_iff in Hg.
  destruct Hg as ((((Hv & Hc) & He) & Hl) & Hctl).
  destruct (device_id_of raw) as [id|] eqn:Hid; [|done]. intros [= <-]. simpl. intros H256 Hcid.
  apply device_id_of_spec in Hid as [Hid Hne]. split; [done|].
  assert (Hraw : raw ∈ devices /\ path_eq (dd_path raw) p = true).
  { apply (elem_of_keep (fun d => path_eq (dd_path d) p) devices raw). rewrite Hr. left. }
  assert (Hps : p ∈ ps_source_paths source /\ is_gamepad classifier p = true).
  { apply (elem_of_keep (is_gamepad classifier)). rewrite Hp. left. }
  unfold identity_ok, valid_native_text. simpl. rewrite Hne, He, Hctl, Hcid.
  apply negb_false_iff, bool_decide_eq_true in Hc.
  destruct Hraw as [Hraw Heq], Hps as [Hps _].
  split_and!; try done.
  - by exists p.
  - apply Z.ltb_ge in H256. simpl. by rewrite (proj2 (Z.leb_le _ _) H256).
  - apply Z.ltb_ge in Hl. simpl. by rewrite (proj2 (Z.leb_le _ _) Hl).
Qed.
Lemma identify_all_ok sources seen ids :
  identify_all devices classifier sources seen = Ok ids ->
  map is_source ids = sources /\ Forall identity_ok ids /\ NoDup (map is_device_id ids) /\
  forall x, x ∈ map is_device_id ids -> x ∉ seen.
Proof.
  clear bus topology_of object_path.
  revert seen ids; induction sources as [|s sources IH]; intros seen ids; simpl.
  { intros [= <-]. split_and!; try constructor. intros x Hx. by apply not_elem_of_nil in Hx. }
  destruct (identify_source devices classifier s) as [i|e] eqn:Hs; [|done].
  destruct (_ || _) eqn:Hg; [done|]. rewrite !orb_false_iff, bool_decide_eq_false in Hg.
  destruct Hg as ((H256 & Hc) & Hout).
  destruct (identify_all devices classifier sources _) as [rest|e] eqn:Hr; [|done].
  intros [= <-]. apply IH in Hr as (<- & Hok & Hnd & Hfresh).
  apply identify_source_ok in Hs as [<- Hi]; [|done|done]. simpl.
  split_and!; [done|by constructor| |].
  - constructor; [|done]. intros Hin. specialize (Hfresh _ Hin). set_solver.
  - intros x [->|Hx]%elem_of_cons; [done|]. specialize (Hfresh x Hx). set_solver.
Qed.

(** Every identity a pass hands to capture is distinct, names the raw gamepad
    behind its controller by its uniq or phys attribute (never by a node
    number), and is bounded printable text; there are at most
    MAX_PHYSICAL_SOURCES of them, one per discovered controller, in order. *)
Theorem identities_sound sources ids :
  identify_sources devices classifier sources = Ok ids ->
  map is_source ids = controllers sources /\ Forall identity_ok ids /\
  NoDup (map is_device_id ids) /\ Z.of_nat (length ids) <= MAX_PHYSICAL_SOURCES.
Proof.
  unfold identify_sources. destruct (Z.ltb_spec MAX_PHYSICAL_SOURCES (Z.of_nat (length (controllers sources))));
    [done|]. intros (Hm & Hok & Hnd & _)%identify_all_ok. split_and!; try done.
  rewrite <- (length_map is_source), Hm. lia.
Qed.
End claims.

(** ** A concrete pass *)

Definition demo_classifier (path : string) : SourceClass := Gamepad.

Definition demo_raw_pad (name : string) : DeviceDescriptor :=
  MkDescriptor "/dev/input/event3" name (Some "usb-0000:00:14.0-1/input0") (Some "aa:bb:cc:dd:ee:ff")
    None XB360_INPUT_ID inputplumber_xb360 ClassGamepad (Some 3331).

Definition demo_devices (name : string) : list DeviceDescriptor := [demo_raw_pad name; demo_device].

Definition demo_object_path (path : string) : bool := starts_with "/" path.

Definition demo_controller : PhysicalSource :=
  MkPhysical demo_composite ["/dev/input/event3"] demo_target [DBUS_TARGET_PATH] demo_device.

Lemma demo_discovers :
  discover demo_bus (demo_devices "Pad") demo_classifier (fun _ => OneGamepad) demo_object_path ()
    = ((), Ok (MkSources ":1.5" [demo_controller])).
Proof. vm_compute. reflexivity. Qed.

Lemma discover_sound_witness :
  controller_ok (demo_devices "Pad") demo_classifier demo_object_path demo_controller.
Proof.
  destruct (discover_sound demo_bus (demo_devices "Pad") demo_classifier (fun _ => OneGamepad)
              demo_object_path () () (MkSources ":1.5" [demo_controller])) as [Hok _].
  - exact demo_discovers.
  - exact (Forall_inv Hok).
Defined.

Lemma identities_sound_witness :
  identity_ok (demo_devices "Pad")
    (MkIdentified demo_controller "aa:bb:cc:dd:ee:ff" (demo_raw_pad "Pad")).
Proof.
  destruct (identities_sound (demo_devices "Pad") demo_classifier (MkSources ":1.5" [demo_controller])
              [MkIdentified demo_controller "aa:bb:cc:dd:ee:ff" (demo_raw_pad "Pad")]) as (_ & Hok & _).
  - vm_compute. reflexivity.
  - exact (Forall_inv Hok).
Defined.

(** A controller name of 300 bytes. *)
Definition long_name : string := of_text (repeat (Ascii.ascii_of_nat 97) 300).

(** The two ends disagree on names: identification accepts a controller whose
    name has 300 bytes, and no ready seat runtime accepts the connect request
    made from that identity. *)
Theorem long_name_identified_but_refused :
  exists i, identify_sources (demo_devices long_name) demo_classifier
              (MkSources ":1.5" [demo_controller]) = Ok [i] /\
    forall B (ops : SeatBackend B) (rt : SeatRuntime B) state now_ms,
      (physical_connected (is_device_id i) (dd_name (is_raw i)) state now_ms rt).2
        = match require_ready rt with Ok _ => Err FInvalid | Err e => Err e end.
Proof.
  exists (MkIdentified demo_controller "aa:bb:cc:dd:ee:ff" (demo_raw_pad long_name)). split.
  - vm_compute. reflexivity.
  - intros B ops rt state now_ms. unfold physical_connected. destruct (require_ready rt); [|done].
    assert (Hn : valid_native_text (dd_name (demo_raw_pad long_name)) 256 = false)
      by (vm_compute; reflexivity).
    cbn [is_device_id is_raw]. rewrite Hn. by rewrite orb_true_r.
Qed.
