(* ===== verification/Activity.v ===== *)
(** * Controller activity (services/inputd/src/activity.rs)

    The idle observer: which keys, controls, axes and hats are held, whether
    something changed, and the rate limit on reporting it. *)

From S2P Require Import Prelude Controls Dbus.

Definition ACTIVITY_INTERVAL_MS : Z := 1000.

(** [ca_axes] has six entries and the hats two, as the arrays of the source. *)
Record ControllerActivity := MkActivity {
  ca_keys : gset Z;
  ca_controls : gset Control;
  ca_axes : list bool;
  ca_hats : list Z;
  ca_semantic_hats : list Z;
  pending : bool;
  last_sent : option Z;
}.

Definition activity_default : ControllerActivity :=
  MkActivity ∅ ∅ (replicate 6 false) [0; 0] [0; 0] false None.

Definition activity_reset (a : ControllerActivity) : ControllerActivity :=
  MkActivity ∅ ∅ (replicate 6 false) [0; 0] [0; 0] false (last_sent a).

Definition with_ca_keys (changed : bool) (keys : gset Z) (a : ControllerActivity) : ControllerActivity :=
  MkActivity keys (ca_controls a) (ca_axes a) (ca_hats a) (ca_semantic_hats a)
    (pending a || changed) (last_sent a).

Definition with_ca_controls (changed : bool) (controls : gset Control) (a : ControllerActivity)
    : ControllerActivity :=
  MkActivity (ca_keys a) controls (ca_axes a) (ca_hats a) (ca_semantic_hats a)
    (pending a || changed) (last_sent a).

Definition with_ca_axes (changed : bool) (axes : list bool) (a : ControllerActivity) : ControllerActivity :=
  MkActivity (ca_keys a) (ca_controls a) axes (ca_hats a) (ca_semantic_hats a)
    (pending a || changed) (last_sent a).

Definition with_ca_hats (changed : bool) (hats : list Z) (a : ControllerActivity) : ControllerActivity :=
  MkActivity (ca_keys a) (ca_controls a) (ca_axes a) hats (ca_semantic_hats a)
    (pending a || changed) (last_sent a).

Definition with_ca_semantic_hats (changed : bool) (hats : list Z) (a : ControllerActivity)
    : ControllerActivity :=
  MkActivity (ca_keys a) (ca_controls a) (ca_axes a) (ca_hats a) hats
    (pending a || changed) (last_sent a).

Definition observed_key (code : Z) : bool :=
  (code =? 304) || (code =? 305) || (code =? 307) || (code =? 308) || between 310 code 318
  || between 704 code 707 || (code =? 278) || (code =? 114) || (code =? 115).

Definition is_trigger (code : Z) : bool := (code =? 2) || (code =? 5).

Definition axis_in_range (code value : Z) : bool :=
  if is_trigger code then between 0 value 255 else between (-32768) value 32767.

(** [unsigned_abs] of a stick, the value of a trigger. *)
Definition magnitude (code value : Z) : Z :=
  if is_trigger code then Z.max value 0 else Z.abs value.

(** The level above which an axis becomes, or stays, active. *)
Definition axis_threshold (code : Z) (previous : bool) : Z :=
  if is_trigger code then (if previous then 4 else 8) else (if previous then 3072 else 4096).

Definition activity_evdev (event_type code value : Z) (a : ControllerActivity) : ControllerActivity :=
  if (event_type =? 1) && observed_key code && between 0 value 1 then
    if value =? 1
    then with_ca_keys (negb (bool_decide (code ∈ ca_keys a))) ({[code]} ∪ ca_keys a) a
    else with_ca_keys (bool_decide (code ∈ ca_keys a)) (ca_keys a ∖ {[code]}) a
  else if (event_type =? 3) && between 0 code 5 then
    if negb (axis_in_range code value) then a
    else
      let previous := default false (ca_axes a !! Z.to_nat code) in
      let active := axis_threshold code previous <? magnitude code value in
      with_ca_axes (xorb previous active) (<[Z.to_nat code := active]> (ca_axes a)) a
  else if (event_type =? 3) && between 16 code 17 && between (-1) value 1 then
    let slot := default 0 (ca_hats a !! Z.to_nat (code - 16)) in
    with_ca_hats (negb (slot =? value)) (<[Z.to_nat (code - 16) := value]> (ca_hats a)) a
  else a.

Definition hat_slot (axis : DpadAxis) : nat := match axis with Horizontal => 0 | Vertical => 1 end.

Definition semantic (input : SemanticInput) (a : ControllerActivity) : ControllerActivity :=
  match input with
  | SControl control Pressed =>
      with_ca_controls (negb (bool_decide (control ∈ ca_controls a))) ({[control]} ∪ ca_controls a) a
  | SControl control Released =>
      with_ca_controls (bool_decide (control ∈ ca_controls a)) (ca_controls a ∖ {[control]}) a
  | SAxis axis value =>
      let slot := default 0 (ca_semantic_hats a !! hat_slot axis) in
      with_ca_semantic_hats (negb (slot =? value)) (<[hat_slot axis := value]> (ca_semantic_hats a)) a
  end.

Definition held (a : ControllerActivity) : bool :=
  negb (bool_decide (ca_keys a = ∅)) || negb (bool_decide (ca_controls a = ∅))
  || existsb id (ca_axes a)
  || existsb (fun v => negb (v =? 0)) (ca_hats a)
  || existsb (fun v => negb (v =? 0)) (ca_semantic_hats a).

Definition take_due (now_ms : Z) (a : ControllerActivity) : ControllerActivity * bool :=
  if negb (pending a || held a)
     || is_some_and (last_sent a) (fun last => saturating_sub now_ms last <? ACTIVITY_INTERVAL_MS)
  then (a, false)
  else (MkActivity (ca_keys a) (ca_controls a) (ca_axes a) (ca_hats a) (ca_semantic_hats a)
          false (Some now_ms), true).

(** ** Runs of the observer *)

Inductive ActivityOp : Type :=
| AReset
| AEvdev (event_type code value : Z)
| ASemantic (input : SemanticInput)
| ATake (now_ms : Z).

Definition activity_op (op : ActivityOp) (a : ControllerActivity) : ControllerActivity * list Z :=
  match op with
  | AReset => (activity_reset a, [])
  | AEvdev t c v => (activity_evdev t c v a, [])
  | ASemantic input => (semantic input a, [])
  | ATake now => let '(a, due) := take_due now a in (a, if due then [now] else [])
  end.

(** The reports a run makes, by the time they were due. *)
Fixpoint run_activity (ops : list ActivityOp) (a : ControllerActivity) : ControllerActivity * list Z :=
  match ops with
  | [] => (a, [])
  | op :: ops =>
      let '(a, now) := activity_op op a in
      let '(a, later) := run_activity ops a in
      (a, now ++ later)
  end.

Definition spaced (x y : Z) : Prop := ACTIVITY_INTERVAL_MS <= y - x.

Lemma activity_evdev_last t c v a : last_sent (activity_evdev t c v a) = last_sent a.
Proof. unfold activity_evdev. repeat case_match; done. Qed.

Lemma semantic_last input a : last_sent (semantic input a) = last_sent a.
Proof. destruct input as [c []|ax v]; done. Qed.

Lemma activity_op_spaced op a a' ts :
  activity_op op a = (a', ts) ->
  (ts = [] /\ last_sent a' = last_sent a) \/
  exists now, ts = [now] /\ last_sent a' = Some now /\
    forall last, last_sent a = Some last -> spaced last now.
Proof.
  destruct op as [|t c v|input|now]; simpl.
  - intros [= <- <-]. by left.
  - intros [= <- <-]. left. by rewrite activity_evdev_last.
  - intros [= <- <-]. left. by rewrite semantic_last.
  - unfold take_due. destruct (_ || _) eqn:Hg; intros [= <- <-]; [by left|]. right. exists now.
    split; [done|]. split; [done|]. intros last Hl. apply orb_false_elim in Hg as [_ Hg].
    rewrite Hl in Hg. apply Z.ltb_ge in Hg. unfold saturating_sub, ACTIVITY_INTERVAL_MS in *.
    unfold spaced, ACTIVITY_INTERVAL_MS. lia.
Qed.

Lemma run_activity_spaced ops a :
  StronglySorted spaced (run_activity ops a).2 /\
  forall last, last_sent a = Some last -> Forall (spaced last) (run_activity ops a).2.
Proof.
  revert a; induction ops as [|op ops IH]; intros a; simpl; [split; constructor|].
  destruct (activity_op op a) as [a1 ts] eqn:Hop. specialize (IH a1).
  destruct (run_activity ops a1) as [a2 later]. simpl in *. destruct IH as [Hs Hf].
  apply activity_op_spaced in Hop as [[-> Hl]|(now & -> & Hl & Hsp)]; simpl.
  { split; [done|]. by rewrite <- Hl. }
  specialize (Hf now Hl). split; [by constructor|]. intros last Ha. specialize (Hsp last Ha).
  constructor; [done|]. eapply Forall_impl; [exact Hf|]. unfold spaced, ACTIVITY_INTERVAL_MS in *.
  lia.
Qed.

(** Over any sequence of resets, events and polls, at any clock readings, two
    activity reports are at least ACTIVITY_INTERVAL_MS apart: losing and
    regaining a controller does not bypass the limit. *)
Theorem activity_rate_limited ops a : StronglySorted spaced (run_activity ops a).2.
Proof. apply run_activity_spaced. Qed.

(** ** Idle controllers *)

(** Nothing held and nothing to report. *)
Definition quiet (a : ControllerActivity) : Prop :=
  ca_keys a = ∅ /\ ca_controls a = ∅ /\ ca_axes a = replicate 6 false /\
  ca_hats a = [0; 0] /\ ca_semantic_hats a = [0; 0] /\ pending a = false.

(** An event an idle controller may produce: axis travel within the level that
    starts activity, centred hats, and no press. *)
Definition noise (op : ActivityOp) : Prop :=
  match op with
  | AEvdev t c v =>
      (t = 1 -> v <> 1) /\
      (t = 3 -> 0 <= c <= 5 -> magnitude c v <= axis_threshold c false) /\
      (t = 3 -> 16 <= c <= 17 -> v = 0)
  | ASemantic (SControl _ tr) => tr = Released
  | ASemantic (SAxis _ v) => v = 0
  | AReset | ATake _ => True
  end.

Lemma quiet_not_held a : quiet a -> held a = false.
Proof. intros (Hk & Hc & Ha & Hh & Hs & _). unfold held. by rewrite Hk, Hc, Ha, Hh, Hs. Qed.

Lemma between_true lo z hi : between lo z hi = true <-> lo <= z <= hi.
Proof. unfold between. rewrite andb_true_iff, !Z.leb_le. done. Qed.

Lemma quiet_evdev t c v a : quiet a -> noise (AEvdev t c v) -> quiet (activity_evdev t c v a).
Proof.
  intros (Hk & Hc & Ha & Hh & Hs & Hp) (Hpress & Haxis & Hhat). unfold activity_evdev.
  destruct ((t =? 1) && _ && _) eqn:Hkey.
  { rewrite !andb_true_iff, Z.eqb_eq, between_true in Hkey. destruct Hkey as [[-> _] Hv].
    destruct (Z.eqb_spec v 1) as [->|]; [by destruct Hpress|].
    rewrite Hk. rewrite bool_decide_eq_false_2 by set_solver.
    split_and!; simpl; try done; [set_solver|by rewrite Hp]. }
  destruct ((t =? 3) && between 0 c 5) eqn:Hax.
  { rewrite andb_true_iff, Z.eqb_eq, between_true in Hax. destruct Hax as [-> Hcr].
    destruct (negb _); [done|].
    assert (Hsame : default false (ca_axes a !! Z.to_nat c) = false).
    { rewrite Ha. destruct (replicate 6 false !! Z.to_nat c) eqn:E; [|done]. by apply lookup_replicate in E as [-> _]. }
    cbv zeta. rewrite Hsame, (proj2 (Z.ltb_ge _ _) (Haxis eq_refl Hcr)). simpl.
    split_and!; simpl; try done; [|by rewrite Hp].
    rewrite Ha, insert_replicate. done. }
  destruct ((t =? 3) && _ && _) eqn:Hht; [|by split_and!].
  rewrite !andb_true_iff, Z.eqb_eq, !between_true in Hht. destruct Hht as [[-> Hcr] _].
  rewrite (Hhat eq_refl Hcr), Hh.
  assert (Hc2 : c = 16 \/ c = 17) by lia. destruct Hc2 as [-> | ->];
    (split_and!; simpl; try done; by rewrite Hp).
Qed.

Lemma quiet_semantic input a : quiet a -> noise (ASemantic input) -> quiet (semantic input a).
Proof.
  intros (Hk & Hc & Ha & Hh & Hs & Hp) Hn. destruct input as [c tr|ax v]; simpl in Hn; subst; simpl.
  - rewrite Hc, bool_decide_eq_false_2 by set_solver.
    split_and!; simpl; try done; [set_solver|by rewrite Hp].
  - rewrite Hs. destruct ax; (split_and!; simpl; try done; by rewrite Hp).
Qed.

Lemma quiet_op op a : quiet a -> noise op -> quiet (activity_op op a).1 /\ (activity_op op a).2 = [].
Proof.
  intros Hq Hn. destruct op as [|t c v|input|now]; cbn [activity_op fst snd].
  - by repeat split.
  - split; [by apply quiet_evdev|done].
  - split; [by apply quiet_semantic|done].
  - unfold take_due. rewrite (quiet_not_held a Hq). destruct Hq as (? & ? & ? & ? & ? & Hp).
    rewrite Hp. by repeat split.
Qed.

(** A controller that only produces noise is never reported: stick travel up to
    an eighth, trigger travel up to 8 of 255 and releases, in any order and over
    any number of polls and resets. *)
Theorem noise_is_silent ops a :
  quiet a -> Forall noise ops -> (run_activity ops a).2 = [].
Proof.
  intros Hq Hn. revert a Hq. induction Hn as [|op ops Hop Hops IH]; intros a Hq; [done|].
  destruct (quiet_op op a Hq Hop) as [Hq' Hts]. cbn [run_activity].
  destruct (activity_op op a) as [a1 ts]. simpl in *. subst. specialize (IH a1 Hq').
  destruct (run_activity ops a1). done.
Qed.

Lemma noise_is_silent_witness :
  (run_activity [AEvdev 3 0 4096; ATake 5000; AEvdev 3 2 8; AEvdev 1 304 0; AReset; ATake 9000]
     activity_default).2 = [].
Proof.
  apply noise_is_silent; [by repeat split|].
  repeat constructor; simpl; try lia; done.
Defined.

(** One step further than the noise is reported, and repeated while it is held. *)
Example activity_reported :
  (run_activity [AEvdev 3 0 4097; ATake 5000; ATake 5999; AEvdev 3 0 3073; ATake 6000; AEvdev 3 0 3072;
                 ATake 7000; ATake 8000] activity_default).2 = [5000; 6000; 7000].
Proof. vm_compute. reflexivity. Qed.
