(* ===== verification/Policies.v ===== *)
(** * Shortcut policies of one input source (services/inputd/src/runtime.rs)

    [Policies] and [map_evdev]: the shortcut policies built from the action
    catalog, the mapping of kernel events to semantic inputs, and what an input
    from each kind of source may trigger.

    A failed [expect] is [None]; [policies_total] shows that none can fail. *)

From S2P Require Import Prelude Text Controls Shortcuts Catalog Dbus.

Record RuntimeAction := MkRuntimeAction { ra_id : ActionId; ra_mode : DispatchMode }.

Definition EVDEV_SOURCE : string := "evdev:inputplumber-xb360".
Definition DBUS_SOURCE : string := "dbus:inputplumber".
Definition REMOTE_SOURCE : string := "remote:authenticated-mirror".

Inductive InputSource : Type := Evdev | Remote | AuthenticatedDbus.

#[export] Instance InputSource_eq_dec : EqDecision InputSource.
Proof. solve_decision. Defined.

Definition source_name (source : InputSource) : string :=
  match source with
  | Evdev => EVDEV_SOURCE
  | Remote => REMOTE_SOURCE
  | AuthenticatedDbus => DBUS_SOURCE
  end.

Record Policies := MkPolicies {
  nd_policy : ShortcutPolicy;
  d_policy : ShortcutPolicy;
  direct_presses : gmap Control ActionId;
}.

(** What the loop over the catalog collects. *)
Record Collected := MkCollected {
  co_shortcuts : list ShortcutDefinition;
  co_destructive : list ShortcutDefinition;
  co_taps : list TapDefinition;
  co_presses : gmap Control ActionId;
}.

Definition collect_chords (entry : ActionCatalogEntry) (chords : list Chord) (c : Collected) : Collected :=
  let name := as_str (ac_id entry) in
  if bool_decide (dispatch_mode entry = ExactStop)
  then MkCollected (co_shortcuts c)
         (co_destructive c ++ map (fun chord => destructive name (ch_controls chord)) chords)
         (co_taps c) (co_presses c)
  else MkCollected
         (co_shortcuts c ++ map (fun chord => non_destructive name (ch_controls chord) (ch_exact chord)) chords)
         (co_destructive c) (co_taps c) (co_presses c).

Definition collect_tap (entry : ActionCatalogEntry) (control : Control) (c : Collected) : Collected :=
  MkCollected (co_shortcuts c) (co_destructive c)
    (co_taps c ++ [MkTap (as_str (ac_id entry)) control]) (co_presses c).

Definition collect_trigger (entry : ActionCatalogEntry) (c : Collected) : Collected :=
  match trigger entry with
  | Tap control => collect_tap entry control c
  | Press control =>
      MkCollected (co_shortcuts c) (co_destructive c) (co_taps c) (<[control := ac_id entry]> (co_presses c))
  | Chords chords | ChordsAndConfiguredBackTap chords => collect_chords entry chords c
  | Activity | ConfiguredBackTap | Unsupported => c
  end.

Definition collect_entry (routes : ActionRoutes) (c : Collected) (entry : ActionCatalogEntry) : Collected :=
  let c := collect_trigger entry c in
  if bool_decide (back_tap routes = Some (ac_id entry)) then collect_tap entry Back c else c.

Definition policies_new (routes : ActionRoutes) : Policies :=
  let c := fold_left (collect_entry routes) ACTION_CATALOG (MkCollected [] [] [] ∅) in
  MkPolicies (policy_new (co_shortcuts c) (co_taps c)) (policy_new (co_destructive c) []) (co_presses c).

Definition policies_reset (p : Policies) : Policies :=
  MkPolicies (reset (nd_policy p)) (reset (d_policy p)) (direct_presses p).

Definition clear_evdev (p : Policies) : Policies :=
  MkPolicies (clear_source EVDEV_SOURCE (nd_policy p)) (d_policy p) (direct_presses p).

Definition handle_policy (policy : ShortcutPolicy) (source : string) (input : SemanticInput)
    : ShortcutPolicy * list string :=
  match input with
  | SControl control Pressed => handle (pressed source control) policy
  | SControl control Released => handle (released source control) policy
  | SAxis axis value => handle_dpad_axis source axis value policy
  end.

Definition catalog_action (id : ActionId) : RuntimeAction :=
  MkRuntimeAction id (dispatch_mode (action_entry id)).

Definition direct_press (input : SemanticInput) (p : Policies) : list RuntimeAction :=
  match input with
  | SControl control Pressed =>
      match direct_presses p !! control with Some id => [catalog_action id] | None => [] end
  | _ => []
  end.

Definition is_nil {A} (l : list A) : bool := match l with [] => true | _ => false end.

Definition policies_handle (source : InputSource) (input : SemanticInput) (p : Policies)
    : Policies * option (list RuntimeAction) :=
  let name := source_name source in
  let '(nd, ids) := handle_policy (nd_policy p) name input in
  let p := MkPolicies nd (d_policy p) (direct_presses p) in
  match mapM action_try_from ids with
  | None => (p, None)
  | Some ids =>
      let actions := map catalog_action ids in
      let actions := if is_nil actions then direct_press input p else actions in
      if negb (bool_decide (source = AuthenticatedDbus)) then (p, Some actions)
      else
        let '(d, ids) := handle_policy (d_policy p) name input in
        let p := MkPolicies (nd_policy p) d (direct_presses p) in
        match mapM action_try_from ids with
        | None => (p, None)
        | Some ids => (p, Some (actions ++ map (fun id => MkRuntimeAction id ExactStop) ids))
        end
  end.

Definition key_control (code : Z) : option Control :=
  if code =? 316 then Some Home            (* 0x13c *)
  else if code =? 310 then Some L1         (* 0x136 *)
  else if code =? 311 then Some R1         (* 0x137 *)
  else if code =? 315 then Some Start      (* 0x13b *)
  else if code =? 314 then Some Select     (* 0x13a *)
  else if code =? 317 then Some L3         (* 0x13d *)
  else if code =? 318 then Some R3         (* 0x13e *)
  else if code =? 278 then Some Back       (* 0x116 *)
  else if code =? 307 then Some X          (* 0x133 *)
  else if code =? 115 then Some VolumeUp   (* 0x73 *)
  else if code =? 114 then Some VolumeDown (* 0x72 *)
  else None.

Definition map_evdev (event_type code value : Z) : option SemanticInput :=
  if event_type =? 3 then
    if code =? 16 then Some (SAxis Horizontal value)
    else if code =? 17 then Some (SAxis Vertical value)
    else None
  else if negb (event_type =? 1) || negb (between 0 value 2) then None
  else if value =? 2 then None
  else
    control ← key_control code;
    Some (SControl control (if value =? 0 then Released else Pressed)).

(** ** Reachable policies *)

Inductive policies_reachable (routes : ActionRoutes) : Policies -> Prop :=
| policies_boot : policies_reachable routes (policies_new routes)
| policies_after_reset p : policies_reachable routes p -> policies_reachable routes (policies_reset p)
| policies_after_clear p : policies_reachable routes p -> policies_reachable routes (clear_evdev p)
| policies_after_handle source input p :
    policies_reachable routes p -> policies_reachable routes (policies_handle source input p).1.

(** The configuration of the policies never changes. *)
Definition same_policies (p q : Policies) : Prop :=
  same_config (nd_policy p) (nd_policy q) /\ same_config (d_policy p) (d_policy q) /\
  direct_presses q = direct_presses p.

(** Only authenticated D-Bus input ever reached the destructive policy. *)
Definition dbus_only (p : Policies) : Prop :=
  forall source, is_Some (sources (d_policy p) !! source) -> source = DBUS_SOURCE.

Lemma handle_policy_step p source input : policy_step p (handle_policy p source input).1.
Proof. destruct input as [c []|axis v]; constructor. Qed.

Lemma policies_handle_parts source input p :
  nd_policy (policies_handle source input p).1 = (handle_policy (nd_policy p) (source_name source) input).1 /\
  direct_presses (policies_handle source input p).1 = direct_presses p /\
  (d_policy (policies_handle source input p).1 = d_policy p \/
   source = AuthenticatedDbus /\
   d_policy (policies_handle source input p).1 = (handle_policy (d_policy p) DBUS_SOURCE input).1).
Proof.
  unfold policies_handle. destruct (handle_policy (nd_policy p) _ input) as [nd ids].
  destruct (mapM action_try_from ids) as [ids'|]; [|by split_and!; [| |left]].
  case_bool_decide as Hs; simpl; [|by split_and!; [| |left]]. subst source.
  destruct (handle_policy (d_policy p) _ input) as [d ids2] eqn:Hd.
  destruct (mapM action_try_from ids2); simpl; (split_and!; [done|done|right]);
    by split.
Qed.

Lemma policies_reachable_config routes p :
  policies_reachable routes p -> same_policies (policies_new routes) p.
Proof.
  induction 1 as [|p _ IH|p _ IH|source input p _ IH].
  - done.
  - destruct IH as (Hn & Hd & Hp). split_and!; [| |done];
      (eapply same_config_trans; [eassumption|]; apply policy_step_config, step_reset).
  - destruct IH as (Hn & Hd & Hp). split_and!; [|done|done].
    eapply same_config_trans; [eassumption|]. apply policy_step_config, step_clear.
  - destruct IH as (Hn & Hd & Hp). destruct (policies_handle_parts source input p) as (Hn' & Hp' & Hd').
    unfold same_policies. rewrite Hn', Hp'. split_and!; [| |done].
    + eapply same_config_trans; [eassumption|]. apply policy_step_config, handle_policy_step.
    + destruct Hd' as [->|[_ ->]]; [done|].
      eapply same_config_trans; [eassumption|]. apply policy_step_config, handle_policy_step.
Qed.

(** ** What an input can emit *)

Lemma handle_emits event p id :
  id ∈ (handle event p).2 ->
  id ∈ (sc_id <$> shortcuts p) ++ (tap_id <$> taps p).
Proof.
  unfold handle. rewrite elem_of_app, !list_elem_of_fmap. destruct (ce_transition event).
  - intros (_ & _ & sc & Hin & <- & _)%press_emits. left. by exists sc.
  - intros (tap & Hin & <-)%release_emits. right. by exists tap.
Qed.

Lemma handle_opt_emits event p id :
  id ∈ (handle_opt event p).2 ->
  id ∈ (sc_id <$> shortcuts p) ++ (tap_id <$> taps p).
Proof. destruct event; simpl; [apply handle_emits|by intros ?%not_elem_of_nil]. Qed.

Lemma handle_opt_config event p : same_config p (handle_opt event p).1.
Proof. destruct event; simpl; [apply handle_config|done]. Qed.

(** The two events an axis value stands for. *)
Lemma handle_dpad_axis_events source axis value p p' ids :
  handle_dpad_axis source axis value p = (p', ids) ->
  ids = [] \/
  exists q ms ms' e,
    same_config p q /\
    handle_opt (pressed source <$> control_for axis value) q = (p', ms') /\
    ids = ms ++ ms' /\
    (ms = [] \/ exists q0, same_config p q0 /\ handle (released source e) q0 = (q, ms)).
Proof.
  unfold handle_dpad_axis. case_bool_decide; [intros [= _ <-]; by left|].
  match goal with |- context [handle_opt (released source <$> ?pr) ?q0] =>
    destruct (handle_opt (released source <$> pr) q0) as [q ms] eqn:Hr;
    assert (Hq : same_config p q) by
      (replace q with (handle_opt (released source <$> pr) q0).1 by (by rewrite Hr);
       eapply (same_config_trans _ q0); [done|apply handle_opt_config]);
    destruct pr as [c|] end.
  - destruct (handle_opt (pressed source <$> _) q) as [q' ms'] eqn:Hp. intros [= <- <-]. right.
    exists q, ms, ms', c. split_and!; try done. right. eexists. split; [|exact Hr]. done.
  - simpl in Hr. destruct (handle_opt (pressed source <$> _) q) as [q' ms'] eqn:Hp.
    intros [= <- <-]. right. exists q, ms, ms', Home. split_and!; try done. left.
    by injection Hr as _ <-.
Qed.

Lemma handle_policy_emits p source input id :
  id ∈ (handle_policy p source input).2 ->
  id ∈ (sc_id <$> shortcuts p) ++ (tap_id <$> taps p).
Proof.
  destruct input as [c []|axis v]; simpl; [apply handle_emits..|].
  destruct (handle_dpad_axis source axis v p) as [p' ids] eqn:Hd. simpl.
  apply handle_dpad_axis_events in Hd as [->|(q & ms & ms' & e & (Hs & Ht & _) & Hp & -> & Hms)].
  { by intros ?%not_elem_of_nil. }
  intros [Hin|Hin]%elem_of_app.
  - destruct Hms as [->|(q0 & (Hs0 & Ht0 & _) & Hr)]; [by apply not_elem_of_nil in Hin|].
    rewrite <- Hs0, <- Ht0. apply (handle_emits (released source e)). by rewrite Hr.
  - rewrite <- Hs, <- Ht. apply (handle_opt_emits (pressed source <$> control_for axis v)).
    by rewrite Hp.
Qed.

(** A match of a destructive policy: the controls the source holds. *)
Definition fires_held (p' : ShortcutPolicy) (source id : string) : Prop :=
  exists sc s, sc ∈ shortcuts p' /\ sc_id sc = id /\ sources p' !! source = Some s /\
    ss_pressed s = list_to_set (required_controls sc) /\ destructive_disarmed_controls p' = ∅.

Definition same_source_only (p : ShortcutPolicy) : Prop :=
  taps p = [] /\ forall sc, sc ∈ shortcuts p -> well_built sc /\ source_rule sc = SameSource.

Lemma same_source_config p q : same_config p q -> same_source_only p -> same_source_only q.
Proof. intros (Hs & Ht & _) [Hp Hsc]. unfold same_source_only. by rewrite Hs, Ht. Qed.

Lemma press_fires_held source control p p' ids id :
  same_source_only p -> handle (pressed source control) p = (p', ids) -> id ∈ ids ->
  fires_held p' source id.
Proof.
  intros [_ Hsc] Hh Hid.
  assert (Hc : same_config p p') by (replace p' with (handle (pressed source control) p).1
    by (by rewrite Hh); apply handle_config).
  change (press source control p = (p', ids)) in Hh.
  assert (Hin : id ∈ (press source control p).2) by (by rewrite Hh).
  apply press_emits in Hin as (Hnew & _ & sc & Hin & Hscid & _ & Hm).
  rewrite press_unfold in Hh by done.
  apply press_loop_spec in Hh as (_ & _ & _ & _ & _ & Hsrc & _ & _ & _ & Hdis & _).
  destruct (Hsc sc Hin) as [[Hnd Hex] Hrule]. unfold definition_matches in Hm. rewrite Hrule in Hm.
  apply andb_true_iff in Hm as [Hd Hm]. apply bool_decide_eq_true in Hd. rewrite <- Hsrc in Hm.
  destruct (sources p' !! source) as [s|] eqn:Hs; [|done]. simpl in Hm.
  apply andb_true_iff in Hm as [Hh Hx]. exists sc, s. destruct Hc as (Hshort & _ & _).
  split_and!; [by rewrite Hshort|done|done| |by rewrite Hdis].
  rewrite (Hex Hrule) in Hx. simpl in Hx. apply exact_held; [done| |by apply Nat.eqb_eq].
  unfold holds_all, has_control_pressed in Hh. rewrite forallb_spec in Hh.
  intros c Hc. specialize (Hh c Hc). by apply bool_decide_eq_true in Hh.
Qed.

Lemma release_fires_nothing source control p :
  same_source_only p -> (handle (released source control) p).2 = [].
Proof.
  intros [Ht _]. destruct (handle (released source control) p).2 as [|id l] eqn:Hl; [done|].
  assert (Hin : id ∈ (handle (released source control) p).2) by (rewrite Hl; left).
  unfold handle in Hin. apply release_emits in Hin as (tap & Htap & _).
  simpl in Htap. rewrite Ht in Htap. by apply not_elem_of_nil in Htap.
Qed.

Lemma destructive_fires_held source input p p' ids id :
  same_source_only p -> handle_policy p source input = (p', ids) -> id ∈ ids -> fires_held p' source id.
Proof.
  intros Hp Hh Hid. destruct input as [c []|axis v]; simpl in Hh.
  - by eapply press_fires_held.
  - exfalso. pose proof (release_fires_nothing source c p Hp) as Hn. rewrite Hh in Hn. simpl in Hn.
    subst. by apply not_elem_of_nil in Hid.
  - apply handle_dpad_axis_events in Hh as [->|(q & ms & ms' & e & Hq & Hpr & -> & Hms)].
    { by apply not_elem_of_nil in Hid. }
    assert (ms = []) as ->.
    { destruct Hms as [->|(q0 & Hq0 & Hr)]; [done|].
      pose proof (release_fires_nothing source e q0 (same_source_config _ _ Hq0 Hp)) as Hn.
      by rewrite Hr in Hn. }
    simpl in Hid. destruct (control_for axis v) as [c|]; simpl in Hpr.
    + eapply press_fires_held; [by eapply same_source_config|exact Hpr|done].
    + injection Hpr as _ <-. by apply not_elem_of_nil in Hid.
Qed.

(** ** The policies built from the catalog *)

Definition nd_ids (routes : ActionRoutes) : list string :=
  let p := nd_policy (policies_new routes) in (sc_id <$> shortcuts p) ++ (tap_id <$> taps p).

Definition id_known (id : string) : bool := is_some (action_try_from id).

(** An id of the non-destructive policy names no destructive action. *)
Definition id_harmless (id : string) : bool :=
  match action_try_from id with
  | Some id => negb (bool_decide (dispatch_mode (action_entry id) = ExactStop))
  | None => true
  end.

Lemma nd_ids_known routes : forallb id_known (nd_ids routes) = true.
Proof. destruct routes as [[[]|]]; vm_compute; reflexivity. Qed.

Lemma nd_ids_harmless environment routes :
  routes_from_environment environment = Ok routes -> forallb id_harmless (nd_ids routes) = true.
Proof.
  unfold routes_from_environment.
  destruct (environment !! _ ≫= to_str) as [v|]; [|intros [= <-]; vm_compute; reflexivity].
  destruct (bool_decide _); [intros [= <-]; vm_compute; reflexivity|].
  destruct (bool_decide _); [intros [= <-]; vm_compute; reflexivity|done].
Qed.

Lemma destructive_built routes :
  shortcuts (d_policy (policies_new routes)) =
    [destructive (as_str KillCurrentGame) [L1; R1; Start; Select]] /\
  taps (d_policy (policies_new routes)) = [].
Proof. destruct routes as [[[]|]]; split; vm_compute; reflexivity. Qed.

Lemma presses_built routes :
  direct_presses (policies_new routes) = {[VolumeUp := ActVolumeUp; VolumeDown := ActVolumeDown]}.
Proof. destruct routes as [[[]|]]; vm_compute; reflexivity. Qed.

Lemma kill_controls :
  (list_to_set (required_controls (destructive (as_str KillCurrentGame) [L1; R1; Start; Select]))
     : gset Control) = {[L1; R1; Start; Select]}.
Proof. vm_compute. reflexivity. Qed.

Lemma mapM_known ids : (forall id, id ∈ ids -> id_known id = true) -> is_Some (mapM action_try_from ids).
Proof.
  intros Hk. apply mapM_is_Some_2, Forall_forall. intros id Hid. specialize (Hk id Hid).
  unfold id_known in Hk. destruct (action_try_from id) as [a|] eqn:E; [exists a; exact E|done].
Qed.

Lemma mapM_elem ids acts a :
  mapM action_try_from ids = Some acts -> a ∈ acts -> exists id, id ∈ ids /\ action_try_from id = Some a.
Proof.
  intros H2%mapM_Some Ha. apply list_elem_of_lookup_1 in Ha as [i Hi].
  destruct (Forall2_lookup_r _ _ _ _ _ H2 Hi) as (id & Hid & Hp).
  exists id. split; [by eapply list_elem_of_lookup_2|done].
Qed.

Lemma nd_emits_known routes p source input id :
  policies_reachable routes p -> id ∈ (handle_policy (nd_policy p) source input).2 ->
  id ∈ nd_ids routes.
Proof.
  intros ((Hs & Ht & _) & _)%policies_reachable_config Hid%handle_policy_emits.
  unfold nd_ids. by rewrite <- Hs, <- Ht.
Qed.

Lemma reachable_same_source routes p :
  policies_reachable routes p ->
  same_source_only (d_policy p) /\
  shortcuts (d_policy p) = [destructive (as_str KillCurrentGame) [L1; R1; Start; Select]].
Proof.
  intros (_ & (Hs & Ht & Hd) & _)%policies_reachable_config.
  destruct (destructive_built routes) as [Hb Hbt]. rewrite Hb in Hs. rewrite Hbt in Ht.
  split; [|done]. split; [done|]. rewrite Hs. intros sc ->%list_elem_of_singleton.
  split; [apply well_built_destructive|done].
Qed.

Lemma kill_known : action_try_from (as_str KillCurrentGame) = Some KillCurrentGame.
Proof. vm_compute. reflexivity. Qed.

Lemma d_emits_known routes p source input p' ids id :
  policies_reachable routes p -> handle_policy (d_policy p) source input = (p', ids) -> id ∈ ids ->
  id = as_str KillCurrentGame /\ destructive_disarmed_controls p' = ∅ /\
  exists s, sources p' !! source = Some s /\ ss_pressed s = {[L1; R1; Start; Select]}.
Proof.
  intros Hr Hh Hid. destruct (reachable_same_source routes p Hr) as [Hss Hsc].
  destruct (destructive_fires_held source input (d_policy p) p' ids id Hss Hh Hid)
    as (sc & s & Hin & Hscid & Hs & Hpr & Hd).
  assert (Hc : shortcuts p' = shortcuts (d_policy p)).
  { replace p' with (handle_policy (d_policy p) source input).1 by (by rewrite Hh).
    apply policy_step_config, handle_policy_step. }
  rewrite Hc, Hsc in Hin. apply list_elem_of_singleton in Hin as ->.
  split_and!; [by rewrite <- Hscid|done|]. exists s. split; [done|]. by rewrite Hpr, kill_controls.
Qed.

(** ** What was released *)

(** What is done to the policies. *)
Inductive PolicyStep : Type :=
| Fed (source : InputSource) (input : SemanticInput)
| WasReset
| LostEvdev.

#[export] Instance policy_step_eq_dec : EqDecision PolicyStep.
Proof. solve_decision. Defined.

Definition policies_step (p : Policies) (s : PolicyStep) : Policies :=
  match s with
  | Fed source input => (policies_handle source input p).1
  | WasReset => policies_reset p
  | LostEvdev => clear_evdev p
  end.

Definition policies_run (routes : ActionRoutes) (steps : list PolicyStep) : Policies :=
  fold_left policies_step steps (policies_new routes).

(** What was done since the program started or was last reset. *)
Definition since_reset (steps : list PolicyStep) : list PolicyStep :=
  fold_left (fun seen s => match s with WasReset => [] | _ => seen ++ [s] end) steps [].

Lemma run_snoc routes steps s : policies_run routes (steps ++ [s]) = policies_step (policies_run routes steps) s.
Proof. unfold policies_run. by rewrite fold_left_app. Qed.

Lemma since_reset_snoc steps s :
  since_reset (steps ++ [s]) = match s with WasReset => [] | _ => since_reset steps ++ [s] end.
Proof. unfold since_reset. by rewrite fold_left_app. Qed.

Lemma run_reachable routes steps : policies_reachable routes (policies_run routes steps).
Proof.
  induction steps as [|s steps IH] using rev_ind; [constructor|]. rewrite run_snoc. destruct s; by constructor.
Qed.

(** The axes of a source only stand for controls of the D-pad. *)
Definition of_dpad (c : option Control) : Prop := forall x, c = Some x -> x ∈ [DpadLeft; DpadRight; DpadUp; DpadDown].

Definition dpad_axes (s : SourceState) : Prop := of_dpad (ss_horizontal s) /\ of_dpad (ss_vertical s).

Definition axes_dpad (p : ShortcutPolicy) : Prop := map_Forall (fun _ s => dpad_axes s) (sources p).

Lemma of_dpad_control_for axis value : of_dpad (control_for axis value).
Proof. intros x. unfold control_for. destruct axis, (value ?= 0); intros [= <-]; set_solver. Qed.

Lemma dpad_default source p : axes_dpad p -> dpad_axes (default source_default (sources p !! source)).
Proof. intros Hp. destruct (sources p !! source) as [s|] eqn:Hs; [by eapply Hp|]. by split. Qed.

Lemma axes_insert source s p : axes_dpad p -> dpad_axes s -> axes_dpad (with_sources <[source := s]> p).
Proof. intros Hp Hs. by apply map_Forall_insert_2. Qed.

Lemma axes_handle event p : axes_dpad p -> axes_dpad (handle event p).1.
Proof.
  intros Hp. destruct event as [source control []]; unfold handle; cbn [ce_transition ce_source ce_control].
  - pose proof (dpad_default source p Hp) as Hd. unfold press. destruct (has_control_pressed _ _); [by apply axes_insert|].
    set (q := with_sources _ p). assert (Hq : axes_dpad q) by (apply axes_insert; [done|apply Hd]).
    destruct (fold_left _ _ _) as [p' ms] eqn:Hf. apply press_loop_spec in Hf as (_ & _ & _ & _ & _ & Hs & _).
    unfold axes_dpad. cbn [fst]. by rewrite Hs.
  - unfold release. cbn [sources with_disarmed]. destruct (sources p !! source) as [s|] eqn:Hs; [|done]. destruct (negb _); [done|].
    assert (Hq : axes_dpad (with_sources <[source := with_pressed (fun s => s ∖ {[control]}) s]> p)) by (apply axes_insert; [done|exact (Hp source s Hs)]).
    set (t := rearm_inactive_actions _). assert (Ht : axes_dpad t).
    { intros k x (Hx & _)%map_lookup_filter_Some. by apply (Hq k). }
    destruct (is_pressed _ _); [done|]. by destruct (bool_decide _).
Qed.

Lemma axes_opt event p : axes_dpad p -> axes_dpad (handle_opt event p).1.
Proof. destruct event; [apply axes_handle|done]. Qed.

Lemma axis_of_dpad axis s : dpad_axes s -> of_dpad (axis_of axis s).
Proof. intros [Hh Hv]. by destruct axis. Qed.

Lemma dpad_set_axis axis next s : dpad_axes s -> of_dpad next -> dpad_axes (set_axis axis next s).
Proof. intros [Hh Hv] Hn. destruct axis; split; assumption. Qed.

(** After an axis event the controls outside of the D-pad are disarmed as before. *)
Lemma handle_dpad_axis_dpad source axis value p :
  axes_dpad p ->
  axes_dpad (handle_dpad_axis source axis value p).1 /\
  forall c, c ∉ [DpadLeft; DpadRight; DpadUp; DpadDown] ->
    c ∈ destructive_disarmed_controls p -> c ∈ destructive_disarmed_controls (handle_dpad_axis source axis value p).1.
Proof.
  intros Hp. pose proof (dpad_default source p Hp) as Hd. unfold handle_dpad_axis. case_bool_decide; [by split; [apply axes_insert|]|].
  set (q := with_sources _ p).
  assert (Hq : axes_dpad q) by (apply axes_insert; [done|apply dpad_set_axis; [done|apply of_dpad_control_for]]).
  pose proof (axis_of_dpad axis _ Hd) as Ha.
  destruct (handle_opt (released source <$> _) q) as [q1 ms] eqn:H1.
  destruct (handle_opt (pressed source <$> _) q1) as [q2 ms2] eqn:H2. cbn [fst].
  replace q2 with (handle_opt (pressed source <$> control_for axis value) q1).1 by (by rewrite H2).
  assert (Hq1 : axes_dpad q1 /\ forall c, c ∉ [DpadLeft; DpadRight; DpadUp; DpadDown] -> c ∈ destructive_disarmed_controls q -> c ∈ destructive_disarmed_controls q1).
  { match type of H1 with handle_opt ?e _ = _ => replace q1 with (handle_opt e q).1 by (by rewrite H1) end.
    split; [by apply axes_opt|]. intros c Hc Hin. destruct (axis_of axis _) as [x|] eqn:Hx; [|done]. cbn [fmap option_fmap option_map handle_opt].
    rewrite handle_disarmed. specialize (Ha x eq_refl). unfold released_controls. simpl. apply elem_of_difference. split; [done|].
    intros Hcx. apply Hc. set_solver. }
  destruct Hq1 as [Hax Hdis]. split; [by apply axes_opt|]. intros c Hc Hin. destruct (control_for axis value) as [x|]; cbn [fmap option_fmap option_map handle_opt].
  - rewrite handle_disarmed. unfold released_controls. simpl. apply elem_of_difference. split; [by apply Hdis|set_solver].
  - by apply Hdis.
Qed.

Definition kill_chord : list Control := [L1; R1; Start; Select].

Lemma kill_chord_required routes : destructive_controls (d_policy (policies_new routes)) = {[L1; R1; Start; Select]}.
Proof. destruct routes as [[[]|]]; vm_compute; reflexivity. Qed.

Lemma kill_chord_disarmed routes : destructive_disarmed_controls (d_policy (policies_new routes)) = {[L1; R1; Start; Select]}.
Proof. destruct routes as [[[]|]]; vm_compute; reflexivity. Qed.

Lemma elem_of_kill_chord c : c ∈ kill_chord -> c ∈ ({[L1; R1; Start; Select]} : gset Control).
Proof. unfold kill_chord. set_solver. Qed.

Lemma reset_disarms routes p c : policies_reachable routes p -> c ∈ kill_chord -> c ∈ destructive_disarmed_controls (d_policy (policies_reset p)).
Proof.
  intros Hr Hc. destruct (policies_reachable_config routes p Hr) as (_ & (_ & _ & Hdc) & _).
  unfold policies_reset, reset, disarm_destructive_matching, with_disarmed, with_consumed, with_fired, with_sources.
  cbn [d_policy destructive_disarmed_controls destructive_controls]. rewrite Hdc, kill_chord_required. by apply elem_of_kill_chord.
Qed.

(** A control of the chord stays disarmed until authenticated input releases it. *)
Lemma disarmed_until_released routes steps :
  axes_dpad (d_policy (policies_run routes steps)) /\
  forall c, c ∈ kill_chord -> Fed AuthenticatedDbus (SControl c Released) ∉ since_reset steps ->
    c ∈ destructive_disarmed_controls (d_policy (policies_run routes steps)).
Proof.
  induction steps as [|s steps [Hax IH]] using rev_ind.
  { split; [apply map_Forall_empty|]. intros c Hc _. change (policies_run routes []) with (policies_new routes).
    rewrite kill_chord_disarmed. by apply elem_of_kill_chord. }
  rewrite run_snoc, since_reset_snoc. pose proof (run_reachable routes steps) as Hr. set (p := policies_run routes steps) in *. destruct s as [source input| |].
  - pose proof (policies_handle_parts source input p) as (_ & _ & [Heq|[-> Heq]]); cbn [policies_step]; rewrite Heq.
    { split; [done|]. intros c Hc Hn. apply IH; [done|]. intros Hin. apply Hn, elem_of_app. by left. }
    destruct input as [c tr|axis value].
    + split; [destruct tr; by apply axes_handle|]. intros x Hx Hn.
      assert (Hold : x ∈ destructive_disarmed_controls (d_policy p)) by (apply IH; [done|]; intros Hin; apply Hn, elem_of_app; by left).
      destruct tr; cbn [handle_policy]; rewrite handle_disarmed; apply elem_of_difference; (split; [done|]); unfold released_controls; simpl; [set_solver|].
      intros Hc. apply Hn, elem_of_app. right. assert (x = c) as -> by set_solver. by left.
    + destruct (handle_dpad_axis_dpad DBUS_SOURCE axis value (d_policy p) Hax) as [Ha Hd]. split; [done|]. intros x Hx Hn. apply Hd.
      * unfold kill_chord in Hx. set_solver.
      * apply IH; [done|]. intros Hin. apply Hn, elem_of_app. by left.
  - split; [apply map_Forall_empty|]. intros c Hc _. by apply (reset_disarms routes).
  - split; [done|]. intros c Hc Hn. apply IH; [done|]. intros Hin. apply Hn, elem_of_app. by left.
Qed.

(** ** Properties *)

(** Every id an input emits parses. *)
Lemma policies_never_fail routes p source input :
  policies_reachable routes p -> is_Some (policies_handle source input p).2.
Proof.
  intros Hr. unfold policies_handle.
  destruct (handle_policy (nd_policy p) _ input) as [nd ids] eqn:Hnd.
  destruct (mapM_known ids) as [acts ->].
  { intros id Hid. eapply forallb_spec; [apply (nd_ids_known routes)|].
    apply (nd_emits_known routes p (source_name source) input); [done|]. by rewrite Hnd. }
  destruct (negb _); [by eexists|].
  destruct (handle_policy (d_policy _) _ input) as [d ids2] eqn:Hd. cbn [d_policy] in Hd.
  destruct (mapM_known ids2) as [acts2 ->]; [|by eexists].
  intros id Hid. destruct (d_emits_known routes p _ _ _ _ id Hr Hd Hid) as [-> _].
  vm_compute. reflexivity.
Qed.

(** Building and feeding the policies never panics: every id a shortcut or tap
    can emit parses back to a catalog action, for every configured route, source
    kind and input. *)
Theorem policies_total routes p source input :
  policies_reachable routes p -> is_Some (policies_handle source input p).2.
Proof. apply policies_never_fail. Qed.

(** What an exact stop needs. *)
Lemma exact_stop_needs environment routes p source input p' actions id :
  routes_from_environment environment = Ok routes ->
  policies_reachable routes p ->
  policies_handle source input p = (p', Some actions) ->
  MkRuntimeAction id ExactStop ∈ actions ->
  source = AuthenticatedDbus /\ id = KillCurrentGame /\
  destructive_disarmed_controls (d_policy p') = ∅ /\ (forall c, input <> SControl c Released) /\
  exists s, sources (d_policy p') !! DBUS_SOURCE = Some s /\ ss_pressed s = {[L1; R1; Start; Select]}.
Proof.
  intros Henv Hr. unfold policies_handle.
  destruct (handle_policy (nd_policy p) _ input) as [nd ids] eqn:Hnd.
  destruct (mapM action_try_from ids) as [acts|] eqn:Hm; [|done].
  set (first := if is_nil _ then _ else _).
  assert (Hfirst : forall a, MkRuntimeAction a ExactStop ∉ first).
  { intros a Hin. unfold first in Hin.
    assert (Hharm : MkRuntimeAction a ExactStop ∈ map catalog_action acts -> False).
    { intros (b & Heq & Hin')%list_elem_of_fmap.
      injection Heq as -> Hmode. destruct (mapM_elem ids acts _ Hm Hin') as (s & Hs & Hp).
      assert (Hk : s ∈ nd_ids routes).
      { apply (nd_emits_known routes p (source_name source) input); [done|]. by rewrite Hnd. }
      pose proof (proj1 (forallb_spec _ _) (nd_ids_harmless environment routes Henv) s Hk) as Hh.
      unfold id_harmless in Hh. rewrite Hp in Hh. by rewrite <- Hmode, bool_decide_eq_true_2 in Hh. }
    destruct (is_nil _); [|by apply Hharm].
    destruct input as [c []|]; simpl in Hin; try by apply not_elem_of_nil in Hin.
    destruct (policies_reachable_config routes p Hr) as (_ & _ & Hpr). rewrite Hpr, presses_built in Hin.
    destruct c; vm_compute in Hin; try (by apply not_elem_of_nil in Hin);
      by apply list_elem_of_singleton in Hin. }
  case_bool_decide as Hsrc; cbn [negb]; [|intros [= _ <-] Hin; by destruct (Hfirst id)].
  destruct (handle_policy (d_policy _) _ input) as [d ids2] eqn:Hd. cbn [d_policy] in Hd.
  destruct (mapM action_try_from ids2) as [acts2|] eqn:Hm2; [|done].
  intros [= <- <-] [Hin|Hin]%elem_of_app; [by destruct (Hfirst id)|].
  apply list_elem_of_fmap in Hin as (a & [= ->] & Ha).
  destruct (mapM_elem _ _ _ Hm2 Ha) as (s & Hs & Hp). subst source.
  destruct (d_emits_known routes p _ _ _ _ s Hr Hd Hs) as (-> & Hdis & Hheld).
  rewrite kill_known in Hp. injection Hp as <-. do 3 (split; [done|]). split; [|done]. intros c ->.
  pose proof (release_fires_nothing DBUS_SOURCE c (d_policy p) (proj1 (reachable_same_source routes p Hr))) as Hno.
  cbn [handle_policy] in Hd. change (source_name AuthenticatedDbus) with DBUS_SOURCE in Hd. rewrite Hd in Hno. cbn [snd] in Hno.
  rewrite Hno in Hs. by apply not_elem_of_nil in Hs.
Qed.

Lemma other_sources_never_stop environment routes p source input p' actions id :
  routes_from_environment environment = Ok routes -> policies_reachable routes p ->
  policies_handle source input p = (p', Some actions) -> source <> AuthenticatedDbus ->
  MkRuntimeAction id ExactStop ∉ actions.
Proof.
  intros He Hr Hh Hs Hin. by destruct (exact_stop_needs environment routes p source input p' actions id He Hr Hh Hin).
Qed.

(** C3: The one destructive action is only ever emitted for authenticated D-Bus
    input: it is the exact stop of the current game, the D-Bus source holds
    exactly L1, R1, Start and Select at that moment, and authenticated input released
    every one of these after the program started or was last reset, so that a chord
    that was held then stops nothing. Kernel and remote input never stop a game,
    whatever back tap the environment configures. *)
Theorem exact_stop_authenticated environment routes steps source input p' actions id :
  routes_from_environment environment = Ok routes ->
  policies_handle source input (policies_run routes steps) = (p', Some actions) ->
  MkRuntimeAction id ExactStop ∈ actions ->
  source = AuthenticatedDbus /\ id = KillCurrentGame /\
  (exists s, sources (d_policy p') !! DBUS_SOURCE = Some s /\ ss_pressed s = {[L1; R1; Start; Select]}) /\
  forall c, c ∈ kill_chord -> Fed AuthenticatedDbus (SControl c Released) ∈ since_reset steps.
Proof.
  intros He Hh Hin. pose proof (run_reachable routes steps) as Hr.
  destruct (exact_stop_needs environment routes _ source input p' actions id He Hr Hh Hin) as (-> & Hid & Hdis & Hrel & Hheld).
  do 3 (split; [done|]). intros c Hc. apply dec_stable. intros Hn.
  destruct (disarmed_until_released routes (steps ++ [Fed AuthenticatedDbus input])) as [_ Hd].
  rewrite run_snoc in Hd. cbn [policies_step] in Hd. rewrite Hh in Hd. cbn [fst] in Hd. rewrite Hdis in Hd.
  assert (Hlast : Fed AuthenticatedDbus (SControl c Released) ∉ since_reset (steps ++ [Fed AuthenticatedDbus input])).
  { rewrite since_reset_snoc. intros [Hin'|Heq%list_elem_of_singleton]%elem_of_app; [done|]. injection Heq as Heq. by destruct (Hrel c). }
  exact (not_elem_of_empty c (Hd c Hc Hlast)).
Qed.

(** ** Concrete runs *)

Definition feed (source : InputSource) (inputs : list SemanticInput) : list PolicyStep := Fed source <$> inputs.

Definition demo_presses : list SemanticInput :=
  [SControl L1 Released; SControl R1 Released; SControl Start Released; SControl Select Released;
   SControl L1 Pressed; SControl R1 Pressed; SControl Start Pressed].

Definition demo_steps : list PolicyStep := feed AuthenticatedDbus demo_presses.

Lemma policies_total_witness :
  is_Some (policies_handle Remote (SAxis Horizontal (-1)) (policies_run routes_default demo_steps)).2.
Proof. apply (policies_total routes_default). apply run_reachable. Defined.

Lemma exact_stop_authenticated_witness :
  MkRuntimeAction KillCurrentGame ExactStop
    ∈ default [] (policies_handle AuthenticatedDbus (SControl Select Pressed) (policies_run routes_default demo_steps)).2 /\
  AuthenticatedDbus = AuthenticatedDbus.
Proof.
  assert (Hin : MkRuntimeAction KillCurrentGame ExactStop
    ∈ default [] (policies_handle AuthenticatedDbus (SControl Select Pressed) (policies_run routes_default demo_steps)).2)
    by (vm_compute; left).
  split; [exact Hin|].
  assert (Hsome : is_Some (policies_handle AuthenticatedDbus (SControl Select Pressed) (policies_run routes_default demo_steps)).2)
    by (vm_compute; eexists; reflexivity).
  destruct (policies_handle AuthenticatedDbus (SControl Select Pressed) (policies_run routes_default demo_steps))
    as [p' [actions|]] eqn:Hh; [|destruct Hsome as [? [=]]].
  refine (proj1 (exact_stop_authenticated ∅ routes_default demo_steps AuthenticatedDbus
    (SControl Select Pressed) p' actions KillCurrentGame _ Hh Hin)).
  reflexivity.
Defined.

(** The chord that is held while the policies are reset stops nothing. *)
Example held_chord_refused :
  (policies_handle AuthenticatedDbus (SControl Select Pressed)
     (policies_run routes_default (feed AuthenticatedDbus demo_presses ++ WasReset
        :: feed AuthenticatedDbus [SControl L1 Pressed; SControl R1 Pressed; SControl Start Pressed]))).2 = Some [].
Proof. vm_compute. reflexivity. Qed.

(** The same presses as kernel or remote input stop nothing. *)
Example exact_stop_refused :
  (policies_handle Evdev (SControl Select Pressed)
     (policies_run routes_default (feed Evdev demo_presses))).2 = Some [] /\
  (policies_handle Remote (SControl Select Pressed)
     (policies_run routes_default (feed Remote demo_presses))).2 = Some [].
Proof. split; vm_compute; reflexivity. Qed.
