(* ===== verification/Health.v ===== *)
(** * Runtime health (services/inputd/src/health.rs)

    The fixed status words and the systemd publisher, which sends a status only
    when it changed and remembers it only when it was sent. *)

From S2P Require Import Prelude.

Inductive RuntimeHealth : Type := HReady | HMissing | HAmbiguous | HRecovering.

#[export] Instance RuntimeHealth_eq_dec : EqDecision RuntimeHealth.
Proof. solve_decision. Defined.

Definition status (health : RuntimeHealth) : string :=
  match health with
  | HReady => "Ready"
  | HMissing => "Missing"
  | HAmbiguous => "Ambiguous"
  | HRecovering => "Recovering"
  end.

Definition LF_STRING : string := SCons (ascii_of_nat 10) EmptyString.

Section publisher.
Context {W : Type}.
(** [NOTIFY_SOCKET], and one datagram to the socket at a [sun_path]. *)
Variable notify_socket : W -> option string.
Variable send_datagram : string -> string -> W -> W * result string unit.

(** [sizeof(sockaddr_un) - sizeof(sa_family_t)] on Linux. *)
Definition SUN_PATH_BYTES : Z := 108.

Definition AT : Z := 64.

(** An abstract name starts with a NUL in place of its [@]. *)
Definition sun_path (socket : string) : string :=
  match socket with
  | SCons a rest => if byte a =? AT then SCons (ascii_of_nat 0) rest else socket
  | EmptyString => socket
  end.

Definition notify (message : string) (w : W) : W * result string unit :=
  match notify_socket w with
  | None => (w, Ok ())
  | Some EmptyString => (w, Err "NOTIFY_SOCKET is empty")
  | Some (SCons first _ as socket) =>
      if SUN_PATH_BYTES <? str_len socket + (if byte first =? AT then 0 else 1)
      then (w, Err "NOTIFY_SOCKET is too long")
      else send_datagram (sun_path socket) message w
  end.

Record SystemdHealthPublisher := MkPublisher { last : option RuntimeHealth }.

Definition initialized (health : RuntimeHealth) (w : W) (p : SystemdHealthPublisher)
    : W * SystemdHealthPublisher * result string unit :=
  match notify ("READY=1" +:+ LF_STRING +:+ "STATUS=" +:+ status health) w with
  | (w, Err e) => (w, p, Err e)
  | (w, Ok _) => (w, MkPublisher (Some health), Ok ())
  end.

Definition publish (health : RuntimeHealth) (w : W) (p : SystemdHealthPublisher)
    : W * SystemdHealthPublisher * result string unit :=
  if bool_decide (last p = Some health) then (w, p, Ok ())
  else
    match notify ("STATUS=" +:+ status health) w with
    | (w, Err e) => (w, p, Err e)
    | (w, Ok _) => (w, MkPublisher (Some health), Ok ())
    end.

(** The health loop: the publisher is asked again at every turn, and a failed
    turn is retried by the next. *)
Fixpoint publish_all (healths : list RuntimeHealth) (w : W) (p : SystemdHealthPublisher)
    : W * SystemdHealthPublisher :=
  match healths with
  | [] => (w, p)
  | health :: healths =>
      let '(w, p, _) := publish health w p in publish_all healths w p
  end.

Lemma publish_failure health w p w' p' e : publish health w p = (w', p', Err e) -> p' = p.
Proof. unfold publish. case_bool_decide; [done|]. destruct (notify _ w) as [w1 [|]]; by intros [= _ <- _]. Qed.
End publisher.

Lemma status_inj : Inj (=) (=) status.
Proof. intros [] []; done. Qed.
