(* ===== verification/Runtime.v ===== *)
(** * The input runtime (services/inputd/src/runtime.rs, virtual_targets.rs)

    The state machine of the daemon that follows one normalized target: the
    provider owner it trusts, the target it holds open, the router that owns its
    events, and the policies those events drive.

    Opening and enumerating devices are the operations of a [TargetProvider]
    over a world [W]; the stream of the open target is the argument of
    [next_evdev_actions]; clock readings are arguments. A [None] where the
    source returns a list is a panic; the claims show there is none. *)

From S2P Require Import Prelude Text Controls Shortcuts Catalog Devices Dbus Uinput Activity Policies Health.

Inductive InputOwner : Type := OwnerGame | OwnerPortal.

#[export] Instance InputOwner_eq_dec : EqDecision InputOwner.
Proof. solve_decision. Defined.

(** ** Routers *)

Class TargetRouter (R : Type) := {
  router_set_owner : InputOwner -> R -> R;
  router_owner : R -> InputOwner;
  route : InputEvent -> R -> R * result string unit;
}.

(** The contract a client relies on: the owner is the one set last. *)
Class TargetRouterLaws (R : Type) `{TargetRouter R} := {
  owner_set o r : router_owner (router_set_owner o r) = o;
  owner_route e r : router_owner (route e r).1 = router_owner r;
}.

Record DisabledTargetRouter := MkDisabled { disabled_owner : InputOwner }.

#[export] Instance disabled_router : TargetRouter DisabledTargetRouter := {
  router_set_owner o _ := MkDisabled o;
  router_owner := disabled_owner;
  route _ r := (r, Ok ());
}.

#[export] Instance disabled_router_laws : TargetRouterLaws DisabledTargetRouter.
Proof. split; done. Qed.

(** A uinput device that takes events. *)
Class VirtualDevice (D : Type) := emit : list InputEvent -> D -> D * result string unit.

Record UinputTargetRouter (D : Type) := MkUinputRouter {
  game_device : D;
  portal_device : D;
  uinput_owner : InputOwner;
}.
Arguments MkUinputRouter {D}.
Arguments game_device {D}.
Arguments portal_device {D}.
Arguments uinput_owner {D}.

Definition uinput_route {D} `{VirtualDevice D} (event : InputEvent) (r : UinputTargetRouter D)
    : UinputTargetRouter D * result string unit :=
  if ev_type event =? 0 then (r, Ok ())
  else
    match uinput_owner r with
    | OwnerGame =>
        let '(d, res) := emit [event] (game_device r) in
        (MkUinputRouter d (portal_device r) OwnerGame, res)
    | OwnerPortal =>
        let '(d, res) := emit [event] (portal_device r) in
        (MkUinputRouter (game_device r) d OwnerPortal, res)
    end.

#[export] Instance uinput_router {D} `{VirtualDevice D} : TargetRouter (UinputTargetRouter D) := {
  router_set_owner o r := MkUinputRouter (game_device r) (portal_device r) o;
  router_owner := uinput_owner;
  route := uinput_route;
}.

#[export] Instance uinput_router_laws {D} `{VirtualDevice D} : TargetRouterLaws (UinputTargetRouter D).
Proof.
  split; [done|]. intros e r. simpl. unfold uinput_route. destruct (ev_type e =? 0); [done|].
  destruct (uinput_owner r) eqn:Ho; by destruct (emit _ _).
Qed.

(** ** State *)

Inductive RecoveryReason : Type :=
| ProviderUnavailable
| DiscoveryFailed
| RequiredTargetUnreadable
| DescriptorChangedAfterOpen
| EventStreamLost
| TargetRoutingFailed
| SourceTopologyAmbiguous.

#[export] Instance RecoveryReason_eq_dec : EqDecision RecoveryReason.
Proof. solve_decision. Defined.

Record ReadyTarget := MkReady { rt_identity : TargetIdentity; rt_path : string }.

#[export] Instance ReadyTarget_eq_dec : EqDecision ReadyTarget.
Proof. solve_decision. Defined.

Inductive RuntimeState : Type :=
| StateMissing (raw_gamepads : Z)
| StateAmbiguous (targets : list string)
| StateRecovering (reason : RecoveryReason)
| StateReady (target : ReadyTarget).

#[export] Instance RuntimeState_eq_dec : EqDecision RuntimeState.
Proof. solve_decision. Defined.

(** [From<&RuntimeState> for RuntimeHealth]. *)
Definition health_of (state : RuntimeState) : RuntimeHealth :=
  match state with
  | StateReady _ => HReady
  | StateMissing _ => HMissing
  | StateAmbiguous _ => HAmbiguous
  | StateRecovering _ => HRecovering
  end.

Definition is_ready (state : RuntimeState) : bool :=
  match state with StateReady _ => true | _ => false end.

Definition ready_target (d : DeviceDescriptor) : ReadyTarget :=
  MkReady (stable_identity d) (dd_path d).

Record OpenedTarget (R : Type) := MkOpenedTarget { ot_descriptor : DeviceDescriptor; router : R }.
Arguments MkOpenedTarget {R}.
Arguments ot_descriptor {R}.
Arguments router {R}.

Record TargetProvider (R W : Type) := MkProvider {
  enumerate : W -> W * result string (list DeviceDescriptor);
  open_target : DeviceDescriptor -> W -> W * result string (OpenedTarget R);
}.
Arguments MkProvider {R W}.
Arguments enumerate {R W}.
Arguments open_target {R W}.

Record Runtime (R : Type) := MkRuntime {
  state : RuntimeState;
  opened : option (OpenedTarget R);
  policies : Policies;
  dbus : DbusAuthenticator;
  input_owner : InputOwner;
  activity : option ControllerActivity;
}.
Arguments MkRuntime {R}.
Arguments state {R}.
Arguments opened {R}.
Arguments policies {R}.
Arguments dbus {R}.
Arguments input_owner {R}.
Arguments activity {R}.

Definition transition {R} (s : RuntimeState) (rt : Runtime R) : Runtime R :=
  MkRuntime s (opened rt) (policies rt) (dbus rt) (input_owner rt) (activity rt).

Definition with_opened {R} (o : option (OpenedTarget R)) (rt : Runtime R) : Runtime R :=
  MkRuntime (state rt) o (policies rt) (dbus rt) (input_owner rt) (activity rt).

Definition with_policies {R} (p : Policies) (rt : Runtime R) : Runtime R :=
  MkRuntime (state rt) (opened rt) p (dbus rt) (input_owner rt) (activity rt).

Definition with_dbus {R} (a : DbusAuthenticator) (rt : Runtime R) : Runtime R :=
  MkRuntime (state rt) (opened rt) (policies rt) a (input_owner rt) (activity rt).

Definition with_activity {R} (a : option ControllerActivity) (rt : Runtime R) : Runtime R :=
  MkRuntime (state rt) (opened rt) (policies rt) (dbus rt) (input_owner rt) a.

(** ** Operations *)

Section runtime.
Context {R : Type} `{TargetRouter R}.
Variable unique_name : string -> bool.

Definition with_action_routes (routes : ActionRoutes) : Runtime R :=
  MkRuntime (StateRecovering ProviderUnavailable) None (policies_new routes) auth_default OwnerPortal None.

Definition enable_activity (rt : Runtime R) : Runtime R := with_activity (Some activity_default) rt.

Definition set_input_owner (owner : InputOwner) (rt : Runtime R) : Runtime R :=
  MkRuntime (state rt)
    ((fun o => MkOpenedTarget (ot_descriptor o) (router_set_owner owner (router o))) <$> opened rt)
    (policies rt) (dbus rt) owner (activity rt).

Definition close_target (rt : Runtime R) : Runtime R :=
  let rt := match opened rt with
            | Some _ => with_policies (clear_evdev (policies rt)) (with_opened None rt)
            | None => rt
            end in
  let rt := with_policies (policies_reset (policies rt)) rt in
  with_activity (activity_reset <$> activity rt) rt.

(** Close the target and enter a state. *)
Definition close_into (s : RuntimeState) (rt : Runtime R) : Runtime R := transition s (close_target rt).

Definition set_dbus_owner (owner : option string) (rt : Runtime R) : Runtime R :=
  let '(auth, changed) := set_owner unique_name owner (dbus rt) in
  let rt := with_dbus auth rt in
  if negb changed then rt else close_into (StateRecovering ProviderUnavailable) rt.

(** The open target is the one the enumeration found. *)
Definition same_target (o : OpenedTarget R) (expected : DeviceDescriptor) : bool :=
  bool_decide (dd_path (ot_descriptor o) = dd_path expected)
  && bool_decide (stable_identity (ot_descriptor o) = stable_identity expected)
  && bool_decide (device_number (ot_descriptor o) = device_number expected).

Definition owner_known (rt : Runtime R) : bool := is_some (auth_owner (dbus rt)).

Definition open_found {W} (provider : TargetProvider R W) (expected : DeviceDescriptor) (w : W)
    (rt : Runtime R) : W * Runtime R :=
  let rt := close_target rt in
  match open_target provider expected w with
  | (w, Err _) => (w, transition (StateRecovering RequiredTargetUnreadable) rt)
  | (w, Ok o) =>
      match validate_opened_descriptor expected (ot_descriptor o) with
      | Err _ => (w, transition (StateRecovering DescriptorChangedAfterOpen) rt)
      | Ok _ =>
          let o' := MkOpenedTarget (ot_descriptor o) (router_set_owner (input_owner rt) (router o)) in
          let rt := with_opened (Some o') rt in
          (w, transition (if owner_known rt then StateReady (ready_target (ot_descriptor o))
                          else StateRecovering ProviderUnavailable) rt)
      end
  end.

Definition reconcile {W} (provider : TargetProvider R W) (w : W) (rt : Runtime R) : W * Runtime R :=
  if negb (owner_known rt) then (w, close_into (StateRecovering ProviderUnavailable) rt)
  else
    match enumerate provider w with
    | (w, Err _) => (w, close_into (StateRecovering DiscoveryFailed) rt)
    | (w, Ok devices) =>
        match resolve_target devices with
        | Missing raw_gamepads =>
            (w, close_into (if owner_known rt then StateMissing raw_gamepads
                            else StateRecovering ProviderUnavailable) rt)
        | Ambiguous targets => (w, close_into (StateAmbiguous (map dd_path targets)) rt)
        | Found expected =>
            if is_some_and (opened rt) (fun o => same_target o expected)
            then (w, if owner_known rt && negb (is_ready (state rt))
                     then transition (StateReady (ready_target expected)) rt else rt)
            else open_found provider expected w rt
        end
    end.

(** An authenticated input: observed, then handed to the policies. *)
Definition semantic_input (source : InputSource) (input : SemanticInput) (rt : Runtime R)
    : Runtime R * option (list RuntimeAction) :=
  let '(p, actions) := policies_handle source input (policies rt) in (with_policies p rt, actions).

Definition authenticated_input (input : option SemanticInput) (rt : Runtime R)
    : Runtime R * option (list RuntimeAction) :=
  if negb (is_ready (state rt)) then (rt, Some [])
  else
    match input with
    | None => (rt, Some [])
    | Some input => semantic_input AuthenticatedDbus input (with_activity (semantic input <$> activity rt) rt)
    end.

Definition handle_dbus_signal (signal : Signal) (rt : Runtime R) : Runtime R * option (list RuntimeAction) :=
  authenticated_input (authenticate (dbus rt) signal) rt.

Definition handle_dbus_message (message : Message) (rt : Runtime R)
    : Runtime R * option (list RuntimeAction) :=
  authenticated_input (authenticated_message (dbus rt) message) rt.

(** [Policies::advance] returns no action. *)
Definition advance_actions (now_ms : Z) (rt : Runtime R) : Runtime R * list RuntimeAction :=
  if negb (is_ready (state rt)) then (rt, [])
  else
    match activity rt with
    | None => (rt, [])
    | Some a =>
        let '(a, due) := take_due now_ms a in
        (with_activity (Some a) rt,
         if due then [MkRuntimeAction Catalog.ControllerActivity Direct] else [])
    end.

Definition event_stream_lost (rt : Runtime R) : Runtime R := close_into (StateRecovering EventStreamLost) rt.

Definition source_missing (rt : Runtime R) : Runtime R := close_into (StateMissing 0) rt.

Definition source_ambiguous (rt : Runtime R) : Runtime R :=
  close_into (StateRecovering SourceTopologyAmbiguous) rt.

Definition handle_evdev (event_type code value : Z) (rt : Runtime R)
    : Runtime R * option (list RuntimeAction) :=
  if (event_type =? 0) && (code =? 3) then (event_stream_lost rt, Some [])
  else if negb (is_ready (state rt)) then (rt, Some [])
  else
    let rt := with_activity (activity_evdev event_type code value <$> activity rt) rt in
    match map_evdev event_type code value with
    | Some input => semantic_input Evdev input rt
    | None => (rt, Some [])
    end.

(** [event] is what the stream of the open target yields; the outer option of
    the result is a panic. *)
Definition next_evdev_actions (event : option (result string InputEvent)) (rt : Runtime R)
    : Runtime R * option (result string (option (list RuntimeAction))) :=
  match opened rt with
  | None => (rt, Some (Ok None))
  | Some o =>
      match event with
      | Some (Ok event) =>
          let '(r, routed) := route event (router o) in
          let rt := with_opened (Some (MkOpenedTarget (ot_descriptor o) r)) rt in
          match routed with
          | Err _ =>
              (close_into (StateRecovering TargetRoutingFailed) rt,
               Some (Err "virtual target routing failed"))
          | Ok _ =>
              let '(rt, actions) := handle_evdev (ev_type event) (ev_code event) (ev_value event) rt in
              (rt, (fun actions => Ok (Some actions)) <$> actions)
          end
      | Some (Err error) => (event_stream_lost rt, Some (Err error))
      | None => (event_stream_lost rt, Some (Ok None))
      end
  end.
End runtime.

(** ** Reachable runtimes *)

(** No control is held anywhere, as after a reset. *)
Definition quiet_policies (p : Policies) : Prop :=
  sources (nd_policy p) = ∅ /\ sources (d_policy p) = ∅.

Section theory.
Context {R : Type} `{TargetRouterLaws R}.
Variable unique_name : string -> bool.
Variable routes : ActionRoutes.

Inductive runtime_step : Runtime R -> Runtime R -> Prop :=
| step_enable rt : runtime_step rt (enable_activity rt)
| step_input_owner o rt : runtime_step rt (set_input_owner o rt)
| step_dbus_owner o rt : runtime_step rt (set_dbus_owner unique_name o rt)
| step_reconcile {W : Type} (provider : TargetProvider R W) w rt :
    runtime_step rt (reconcile provider w rt).2
| step_signal s rt : runtime_step rt (handle_dbus_signal s rt).1
| step_message m rt : runtime_step rt (handle_dbus_message m rt).1
| step_advance now rt : runtime_step rt (advance_actions now rt).1
| step_evdev t c v rt : runtime_step rt (handle_evdev t c v rt).1
| step_next event rt : runtime_step rt (next_evdev_actions event rt).1
| step_lost rt : runtime_step rt (event_stream_lost rt)
| step_missing rt : runtime_step rt (source_missing rt)
| step_ambiguous rt : runtime_step rt (source_ambiguous rt).

Inductive runtime_reachable : Runtime R -> Prop :=
| runtime_boot : runtime_reachable (with_action_routes routes)
| runtime_next rt rt' : runtime_reachable rt -> runtime_step rt rt' -> runtime_reachable rt'.

(** What is open is what the state says, under the owner that is trusted, and
    nothing is held while nothing is open. *)
Definition open_ok (rt : Runtime R) : Prop :=
  match opened rt with
  | Some o =>
      is_Some (auth_owner (dbus rt)) /\ state rt = StateReady (ready_target (ot_descriptor o)) /\
      is_validated_inputplumber_xb360 (ot_descriptor o) = true /\
      router_owner (router o) = input_owner rt
  | None => is_ready (state rt) = false /\ quiet_policies (policies rt)
  end.

Definition runtime_ok (rt : Runtime R) : Prop :=
  policies_reachable routes (policies rt) /\ open_ok rt.

Lemma close_target_ok (rt : Runtime R) :
  policies_reachable routes (policies rt) ->
  policies_reachable routes (policies (close_target rt)) /\ quiet_policies (policies (close_target rt)) /\
  opened (close_target rt) = None /\ dbus (close_target rt) = dbus rt /\
  input_owner (close_target rt) = input_owner rt.
Proof.
  intros Hp. unfold close_target. destruct (opened rt) as [o|] eqn:Ho; simpl;
    (split_and!; try done); by repeat constructor.
Qed.

Lemma close_into_ok s rt :
  policies_reachable routes (policies rt) -> is_ready s = false -> runtime_ok (close_into s rt).
Proof.
  intros Hp Hs. destruct (close_target_ok rt Hp) as (Hr & Hq & Ho & _).
  split; [done|]. unfold open_ok. change (opened (close_into s rt)) with (opened (close_target rt)).
  by rewrite Ho.
Qed.

Lemma semantic_input_ok source input rt :
  runtime_ok rt -> is_ready (state rt) = true -> runtime_ok (semantic_input source input rt).1.
Proof.
  intros [Hp Ho] Hready. unfold semantic_input.
  destruct (policies_handle source input (policies rt)) as [p acts] eqn:Hh. simpl.
  split; [change p with ((p, acts).1); rewrite <- Hh; by constructor|].
  unfold open_ok in *. simpl. destruct (opened rt); [done|]. destruct Ho. congruence.
Qed.

Lemma authenticated_input_ok input rt : runtime_ok rt -> runtime_ok (authenticated_input input rt).1.
Proof.
  intros Hrt. unfold authenticated_input. destruct (is_ready (state rt)) eqn:Hready; [|done]. simpl.
  destruct input; [|done]. by apply semantic_input_ok.
Qed.

Lemma handle_evdev_ok t c v rt : runtime_ok rt -> runtime_ok (handle_evdev t c v rt).1.
Proof.
  intros Hrt. unfold handle_evdev. destruct (_ && _); [by apply close_into_ok; [apply Hrt|]|].
  destruct (is_ready (state rt)) eqn:Hready; [|done]. simpl.
  destruct (map_evdev t c v); [|done]. by apply semantic_input_ok.
Qed.

Lemma open_found_ok {W} (provider : TargetProvider R W) expected w rt :
  policies_reachable routes (policies rt) -> is_Some (auth_owner (dbus rt)) ->
  runtime_ok (open_found provider expected w rt).2.
Proof.
  intros Hp Howner. destruct (close_target_ok rt Hp) as (Hr & Hq & Ho & Hd & Hio).
  unfold open_found. revert Hr Hq Ho Hd Hio. generalize (close_target rt). intros rt1 Hr Hq Ho Hd Hio.
  destruct (open_target provider expected w) as [w1 [o|e]].
  - unfold validate_opened_descriptor. destruct (is_validated_inputplumber_xb360 _) eqn:Hv; simpl;
      [|by (split; [|unfold open_ok; simpl; rewrite Ho])].
    destruct (_ || _); [by (split; [|unfold open_ok; simpl; rewrite Ho])|].
    split; [done|]. unfold open_ok, owner_known. simpl. rewrite Hd, Hio.
    destruct Howner as [u Hu]. rewrite Hu. split_and!; [by exists u|done|done|apply owner_set].
  - by (split; [|unfold open_ok; simpl; rewrite Ho]).
Qed.

Lemma reconcile_ok {W} (provider : TargetProvider R W) w rt :
  runtime_ok rt -> runtime_ok (reconcile provider w rt).2.
Proof.
  intros Hrt. pose proof Hrt as [Hp Ho]. unfold reconcile, owner_known.
  destruct (auth_owner (dbus rt)) as [u|] eqn:Hu; simpl; [|by apply close_into_ok].
  destruct (enumerate provider w) as [w1 [devices|e]]; simpl; [|by apply close_into_ok].
  destruct (resolve_target devices) as [expected|n|targets]; simpl; [|by apply close_into_ok..].
  destruct (opened rt) as [o|] eqn:Hopen; simpl; [|by apply open_found_ok].
  destruct (same_target o expected) eqn:Hsame; simpl; [|by apply open_found_ok].
  destruct (is_ready (state rt)) eqn:Hready; [done|].
  unfold open_ok in Ho. rewrite Hopen in Ho. destruct Ho as (_ & Hst & _). by rewrite Hst in Hready.
Qed.

Lemma next_ok event rt : runtime_ok rt -> runtime_ok (next_evdev_actions event rt).1.
Proof.
  intros Hrt. pose proof Hrt as [Hp Ho]. unfold next_evdev_actions, open_ok in *.
  destruct (opened rt) as [o|] eqn:Hopen; [|done].
  destruct event as [[event|e]|]; [|by apply close_into_ok..].
  destruct (route event (router o)) as [r routed] eqn:Hroute.
  destruct routed; [|by apply close_into_ok].
  set (rt1 := with_opened _ rt).
  assert (H1 : runtime_ok rt1).
  { split; [done|]. unfold open_ok. simpl. destruct Ho as (? & ? & ? & Hown).
    split_and!; try done. rewrite <- Hown. change r with ((r, Ok (E:=string) a).1).
    rewrite <- Hroute. apply owner_route. }
  pose proof (handle_evdev_ok (ev_type event) (ev_code event) (ev_value event) rt1 H1) as H2.
  by destruct (handle_evdev _ _ _ rt1).
Qed.

Lemma runtime_step_ok rt rt' : runtime_step rt rt' -> runtime_ok rt -> runtime_ok rt'.
Proof.
  intros Hstep Hrt. destruct Hstep.
  - done.
  - destruct Hrt as [Hp Ho]. split; [done|]. unfold open_ok, set_input_owner in *. simpl.
    destruct (opened rt); simpl; [|done]. destruct Ho as (? & ? & ? & _).
    split_and!; try done. apply owner_set.
  - unfold set_dbus_owner, set_owner. case_bool_decide; simpl.
    + destruct rt; exact Hrt.
    + apply close_into_ok; [apply Hrt|done].
  - by apply reconcile_ok.
  - by apply authenticated_input_ok.
  - by apply authenticated_input_ok.
  - unfold advance_actions. destruct (negb _); [done|]. destruct (activity rt); [|done].
    by destruct (take_due now _).
  - by apply handle_evdev_ok.
  - by apply next_ok.
  - apply close_into_ok; [apply Hrt|done].
  - apply close_into_ok; [apply Hrt|done].
  - apply close_into_ok; [apply Hrt|done].
Qed.

Lemma runtime_reachable_ok rt : runtime_reachable rt -> runtime_ok rt.
Proof.
  induction 1 as [|rt rt' _ IH Hstep]; [|by eapply runtime_step_ok].
  split; [constructor|]. by unfold open_ok.
Qed.

(** ** Properties *)

(** C6: In every reachable runtime the target is open exactly when the state is
    Ready; then a provider owner is trusted, the open descriptor is a validated
    normalized target whose identity and path are the ones the state reports,
    and its router owns the events for the current input owner. Otherwise no
    policy holds a control, so a shortcut is only ever completed by events of
    one uninterrupted open period. *)
Theorem ready_iff_open rt :
  runtime_reachable rt ->
  (forall t, state rt = StateReady t ->
     exists o, opened rt = Some o /\ t = ready_target (ot_descriptor o) /\
       is_validated_inputplumber_xb360 (ot_descriptor o) = true /\
       router_owner (router o) = input_owner rt /\ is_Some (auth_owner (dbus rt))) /\
  (is_ready (state rt) = false -> opened rt = None /\ quiet_policies (policies rt)).
Proof.
  intros [_ Ho]%runtime_reachable_ok. unfold open_ok in Ho. destruct (opened rt) as [o|].
  - destruct Ho as (Hd & Hst & Hv & Hr). split.
    + intros t Ht. rewrite Hst in Ht. injection Ht as <-. by exists o.
    + by rewrite Hst.
  - destruct Ho as [Hst Hq]. split; [|done]. intros t Ht. by rewrite Ht in Hst.
Qed.

(** No reachable runtime panics, and none acts without authority: D-Bus signals
    and messages, kernel events and reads of the target always return, and
    while the runtime is not Ready they trigger nothing and change nothing but
    the recovery reason of a lost stream. *)
Theorem unready_runtime_is_inert rt signal message t c v event :
  runtime_reachable rt ->
  is_Some (handle_dbus_signal signal rt).2 /\ is_Some (handle_dbus_message message rt).2 /\
  is_Some (handle_evdev t c v rt).2 /\ is_Some (next_evdev_actions event rt).2 /\
  (is_ready (state rt) = false ->
    handle_dbus_signal signal rt = (rt, Some []) /\ handle_dbus_message message rt = (rt, Some []) /\
    (handle_evdev t c v rt).2 = Some [] /\ next_evdev_actions event rt = (rt, Some (Ok None))).
Proof.
  intros Hreach. destruct (runtime_reachable_ok rt Hreach) as [Hp Ho].
  assert (Hsem : forall source input (rt1 : Runtime R), policies rt1 = policies rt ->
            is_Some (semantic_input source input rt1).2).
  { intros source input rt1 Heq. unfold semantic_input.
    assert (Ht : is_Some (policies_handle source input (policies rt1)).2).
    { rewrite Heq. destruct (policies_never_fail routes (policies rt) source input Hp) as [acts Ha]. by exists acts. }
    by destruct (policies_handle source input (policies rt1)). }
  assert (Hauth : forall input, is_Some (authenticated_input input rt).2).
  { intros input. unfold authenticated_input. destruct (negb _); [by eexists|].
    destruct input; [by apply Hsem|by eexists]. }
  assert (Hev : forall t c v (rt1 : Runtime R), policies rt1 = policies rt -> is_Some (handle_evdev t c v rt1).2).
  { intros t' c' v' rt1 Heq. unfold handle_evdev. destruct (_ && _); [by eexists|].
    destruct (negb _); [by eexists|]. destruct (map_evdev _ _ _); [by apply Hsem|by eexists]. }
  split; [apply Hauth|]. split; [apply Hauth|]. split; [by apply Hev|]. split.
  - unfold next_evdev_actions. destruct (opened rt); [|by eexists].
    destruct event as [[event|e]|]; [|by eexists..].
    destruct (route event _) as [r []]; [|by eexists].
    match goal with |- context [handle_evdev ?a ?b ?d ?x] =>
      destruct (Hev a b d x eq_refl) as [acts Ha]; destruct (handle_evdev a b d x) end.
    simpl in *. subst. by eexists.
  - intros Hst. unfold open_ok in Ho. destruct (opened rt) as [o|] eqn:Hopen.
    { destruct Ho as (_ & Hst' & _). by rewrite Hst' in Hst. }
    unfold handle_dbus_signal, handle_dbus_message, authenticated_input, handle_evdev, next_evdev_actions.
    rewrite Hst, Hopen. simpl. split_and!; try done. by destruct (_ && _).
Qed.
End theory.

(** ** A concrete run *)

Definition demo_provider : TargetProvider DisabledTargetRouter unit :=
  MkProvider (fun w => (w, Ok [demo_device]))
    (fun d w => (w, Ok (MkOpenedTarget d (MkDisabled OwnerPortal)))).

Definition demo_unique (name : string) : bool := starts_with ":" name.

Definition demo_owned : Runtime DisabledTargetRouter :=
  set_input_owner OwnerGame (set_dbus_owner demo_unique (Some ":1.5") (with_action_routes routes_default)).

Definition demo_runtime : Runtime DisabledTargetRouter := (reconcile demo_provider () demo_owned).2.

Lemma demo_owned_reachable : runtime_reachable demo_unique routes_default demo_owned.
Proof.
  eapply runtime_next; [|apply step_input_owner]. eapply runtime_next; [|apply step_dbus_owner].
  constructor.
Qed.

Lemma ready_iff_open_witness :
  (exists o, opened demo_runtime = Some o /\ router_owner (router o) = OwnerGame) /\
  opened demo_owned = None.
Proof.
  split.
  - destruct (ready_iff_open demo_unique routes_default demo_runtime) as [Hready _].
    + eapply runtime_next; [exact demo_owned_reachable|apply step_reconcile].
    + destruct (Hready (ready_target demo_device)) as (o & Ho & _ & _ & Hr & _).
      * vm_compute. reflexivity.
      * exists o. split; [exact Ho|]. rewrite Hr. vm_compute. reflexivity.
  - destruct (ready_iff_open demo_unique routes_default demo_owned demo_owned_reachable) as [_ Hun].
    apply Hun. vm_compute. reflexivity.
Defined.

Lemma unready_runtime_is_inert_witness :
  handle_dbus_message (MkMessage (Some ":1.5") (Some DBUS_TARGET_PATH) (Some DBUS_TARGET_INTERFACE)
    (Some DBUS_INPUT_MEMBER) None) demo_owned = (demo_owned, Some []).
Proof.
  destruct (unready_runtime_is_inert demo_unique routes_default demo_owned
    (MkSignal EmptyString EmptyString EmptyString EmptyString EmptyString f64_half)
    (MkMessage (Some ":1.5") (Some DBUS_TARGET_PATH) (Some DBUS_TARGET_INTERFACE)
      (Some DBUS_INPUT_MEMBER) None) 0 0 0 None demo_owned_reachable) as (_ & _ & _ & _ & Hun).
  apply Hun. vm_compute. reflexivity.
Defined.
