(* ===== verification/Capture.v ===== *)
(** * Production capture (services/inputd/src/capture.rs)

    The producer side of the seat treaty: the physical controllers it holds
    open under one provider owner, the queue of facts it owes the coordinator,
    and the shortcut policies of every physical and remote controller.

    Opening devices and asking the provider are operations over a world [W]; the
    streams are the argument [ready] of a poll; clock readings are arguments. *)

From S2P Require Import Prelude Text Contract Controls Shortcuts Catalog Topology Evdev Devices.
From S2P Require Import Dbus PhysicalSources Uinput Activity Policies Runtime.

Definition MAX_UPDATES : Z := 1024.

Record CapturedSource := MkCaptured {
  cs_identity : IdentifiedSource;
  cs_opened : OpenedCapture;
  cs_state : GamepadState;
  cs_published : GamepadState;
  cs_policies : Policies;
  cs_armed : bool;
}.

Record RemoteShortcutSource := MkRemoteShortcut {
  rss_state : GamepadState;
  rss_policies : Policies;
  rss_armed : bool;
}.

(** Launch, client and controller number. *)
Notation remote_key := (string * string * Z)%type.

Record CaptureRuntime := MkCapture {
  c_state : RuntimeState;
  c_owner : option string;
  c_sources : gmap string CapturedSource;
  c_remote : gmap remote_key RemoteShortcutSource;
  c_updates : list SeatRequest;
  c_routes : ActionRoutes;
  c_activity : option ControllerActivity;
  c_poll_cursor : nat;
  c_overflow : bool;
  c_settled : option (list DeviceDescriptor);
}.

Definition set_c_state (s : RuntimeState) (c : CaptureRuntime) : CaptureRuntime :=
  MkCapture s (c_owner c) (c_sources c) (c_remote c) (c_updates c) (c_routes c) (c_activity c)
    (c_poll_cursor c) (c_overflow c) (c_settled c).

Definition set_c_owner (o : option string) (c : CaptureRuntime) : CaptureRuntime :=
  MkCapture (c_state c) o (c_sources c) (c_remote c) (c_updates c) (c_routes c) (c_activity c)
    (c_poll_cursor c) (c_overflow c) (c_settled c).

Definition set_c_sources (s : gmap string CapturedSource) (c : CaptureRuntime) : CaptureRuntime :=
  MkCapture (c_state c) (c_owner c) s (c_remote c) (c_updates c) (c_routes c) (c_activity c)
    (c_poll_cursor c) (c_overflow c) (c_settled c).

Definition set_c_remote (r : gmap remote_key RemoteShortcutSource) (c : CaptureRuntime) : CaptureRuntime :=
  MkCapture (c_state c) (c_owner c) (c_sources c) r (c_updates c) (c_routes c) (c_activity c)
    (c_poll_cursor c) (c_overflow c) (c_settled c).

Definition set_c_updates (u : list SeatRequest) (c : CaptureRuntime) : CaptureRuntime :=
  MkCapture (c_state c) (c_owner c) (c_sources c) (c_remote c) u (c_routes c) (c_activity c)
    (c_poll_cursor c) (c_overflow c) (c_settled c).

Definition set_c_activity (a : option ControllerActivity) (c : CaptureRuntime) : CaptureRuntime :=
  MkCapture (c_state c) (c_owner c) (c_sources c) (c_remote c) (c_updates c) (c_routes c) a
    (c_poll_cursor c) (c_overflow c) (c_settled c).

Definition set_c_cursor (n : nat) (c : CaptureRuntime) : CaptureRuntime :=
  MkCapture (c_state c) (c_owner c) (c_sources c) (c_remote c) (c_updates c) (c_routes c) (c_activity c)
    n (c_overflow c) (c_settled c).

Definition set_c_overflow (b : bool) (c : CaptureRuntime) : CaptureRuntime :=
  MkCapture (c_state c) (c_owner c) (c_sources c) (c_remote c) (c_updates c) (c_routes c) (c_activity c)
    (c_poll_cursor c) b (c_settled c).

Definition set_c_settled (s : option (list DeviceDescriptor)) (c : CaptureRuntime) : CaptureRuntime :=
  MkCapture (c_state c) (c_owner c) (c_sources c) (c_remote c) (c_updates c) (c_routes c) (c_activity c)
    (c_poll_cursor c) (c_overflow c) s.

(** ** Queue and topology *)

Definition capture_new (routes : ActionRoutes) : CaptureRuntime :=
  MkCapture (StateRecovering ProviderUnavailable) None ∅ ∅ [] routes None 0 false None.

Definition has_sources (c : CaptureRuntime) : bool := negb (bool_decide (c_sources c = ∅)).

Definition topology_settled (devices : list DeviceDescriptor) (c : CaptureRuntime) : bool :=
  is_some (c_owner c) && has_sources c && bool_decide (c_settled c = Some devices).

Definition record_settled_topology (devices : list DeviceDescriptor) (c : CaptureRuntime) : CaptureRuntime :=
  set_c_settled (if is_some (c_owner c) && has_sources c then Some devices else None) c.

Definition enable_capture_activity (c : CaptureRuntime) : CaptureRuntime :=
  set_c_activity (Some activity_default) c.

Definition queue (update : SeatRequest) (c : CaptureRuntime) : CaptureRuntime :=
  if Z.of_nat (length (c_updates c)) =? MAX_UPDATES then set_c_overflow true c
  else set_c_updates (c_updates c ++ [update]) c.

Definition take_updates (c : CaptureRuntime) : CaptureRuntime * result string (list SeatRequest) :=
  if c_overflow c then (c, Err "physical producer queue overflow")
  else (set_c_updates [] c, Ok (c_updates c)).

(** ** Sources *)

Definition first_ready (c : CaptureRuntime) : option ReadyTarget :=
  match btree_values (c_sources c) with
  | s :: _ => Some (ready_target (oc_descriptor (cs_opened s)))
  | [] => None
  end.

Definition remove (id : string) (c : CaptureRuntime) : CaptureRuntime :=
  match c_sources c !! id with
  | None => c
  | Some _ =>
      let c := set_c_sources (delete id (c_sources c)) c in
      let c := set_c_settled None c in
      let c := queue (PhysicalDisconnected id) c in
      set_c_state (match first_ready c with
                   | Some target => StateReady target
                   | None => StateRecovering EventStreamLost
                   end) c
  end.

Definition remove_all (ids : list string) (c : CaptureRuntime) : CaptureRuntime :=
  fold_left (fun c id => remove id c) ids c.

Definition close_sources (c : CaptureRuntime) : CaptureRuntime :=
  let c := remove_all (btree_keys (c_sources c)) c in
  set_c_activity (activity_reset <$> c_activity c) c.

Definition capture_transport_lost (c : CaptureRuntime) : CaptureRuntime :=
  let c := close_sources (set_c_settled None c) in
  let c := set_c_overflow false (set_c_updates [] (set_c_remote ∅ c)) in
  set_c_state (StateRecovering TargetRoutingFailed) c.

Definition capture_source_missing (c : CaptureRuntime) : CaptureRuntime :=
  set_c_state (StateMissing 0) (close_sources (set_c_settled None c)).

Definition capture_source_ambiguous (c : CaptureRuntime) : CaptureRuntime :=
  set_c_state (StateRecovering SourceTopologyAmbiguous) (close_sources (set_c_settled None c)).

Definition heartbeat (c : CaptureRuntime) : CaptureRuntime :=
  fold_left (fun c '(id, s) => queue (PhysicalState id (cs_published s)) c) (btree_entries (c_sources c)) c.

Definition capture_advance_actions (now_ms : Z) (c : CaptureRuntime) : CaptureRuntime * list RuntimeAction :=
  match c_activity c with
  | None => (c, [])
  | Some a =>
      let '(a, due) := take_due now_ms a in
      (set_c_activity (Some a) c,
       if due then [MkRuntimeAction Catalog.ControllerActivity Direct] else [])
  end.

(** ** Reconciliation *)

Record CaptureProvider (W : Type) := MkCaptureProvider {
  cp_enumerate : W -> W * result string (list DeviceDescriptor);
  cp_open : DeviceDescriptor -> W -> W * result string OpenedCapture;
}.
Arguments cp_enumerate {W}.
Arguments cp_open {W}.

(** The identities by id; [None] is a duplicate. *)
Fixpoint desired_of (identities : list IdentifiedSource) (m : gmap string IdentifiedSource)
    : option (gmap string IdentifiedSource) :=
  match identities with
  | [] => Some m
  | i :: identities =>
      if is_some (m !! is_device_id i) then None
      else desired_of identities (<[is_device_id i := i]> m)
  end.

Definition stale_ids (desired : gmap string IdentifiedSource) (c : CaptureRuntime) : list string :=
  keep (fun id => negb (bool_decide (desired !! id = cs_identity <$> c_sources c !! id)))
    (btree_keys (c_sources c)).

Definition captured_from (routes : ActionRoutes) (identity : IdentifiedSource) (o : OpenedCapture)
    : CapturedSource :=
  let s := oc_initial o in
  MkCaptured identity o s s (policies_new routes) (is_neutral_for_rearm s).

Fixpoint open_desired {W} (provider : CaptureProvider W) (desired : list (string * IdentifiedSource)) (w : W)
    (c : CaptureRuntime) : W * CaptureRuntime * result string unit :=
  match desired with
  | [] => (w, c, Ok ())
  | (id, identity) :: desired =>
      if is_some (c_sources c !! id) then open_desired provider desired w c
      else
        let expected := ps_descriptor (is_source identity) in
        match cp_open provider expected w with
        | (w, Err e) => (w, c, Err e)
        | (w, Ok o) =>
            match validate_opened_descriptor expected (oc_descriptor o) with
            | Err _ => (w, c, Err "actual opened descriptor mismatch")
            | Ok _ =>
                let c := queue (PhysicalConnected id (dd_name (is_raw identity)) (oc_initial o)) c in
                let c := set_c_sources (<[id := captured_from (c_routes c) identity o]> (c_sources c)) c in
                open_desired provider desired w c
            end
        end
  end.

Definition reconcile_sources {W} (provider : CaptureProvider W) (identities : list IdentifiedSource) (w : W)
    (c : CaptureRuntime) : W * CaptureRuntime * result string unit :=
  match c_owner c with
  | None => (w, close_sources c, Err "missing provider authority")
  | Some _ =>
      match desired_of identities ∅ with
      | None => (w, capture_source_ambiguous c, Err "duplicate physical reconnect identity")
      | Some desired =>
          let c := remove_all (stale_ids desired c) c in
          match open_desired provider (btree_entries desired) w c with
          | (w, c, Err e) => (w, c, Err e)
          | (w, c, Ok _) =>
              (w, set_c_state (match first_ready c with
                               | Some target => StateReady target
                               | None => StateMissing 0
                               end) c, Ok ())
          end
      end
  end.

Section passes.
Context {W : Type}.
Variable bus : Bus W.
Variable classifier : string -> SourceClass.
Variable topology_of : list string -> SourceTopology.
Variable object_path : string -> bool.
Variable unique_name : string -> bool.
Variable provider : CaptureProvider W.

Definition capture_set_dbus_owner (owner : option string) (c : CaptureRuntime) : CaptureRuntime :=
  let owner := valid_owner unique_name owner in
  if bool_decide (c_owner c = owner) then c
  else set_c_state (StateRecovering ProviderUnavailable)
         (set_c_owner owner (close_sources (set_c_settled None c))).

Definition validate_after_open (before after : PhysicalSources) (identities : list IdentifiedSource)
    (devices : list DeviceDescriptor) : result string unit :=
  if negb (bool_decide (before = after))
     || negb (bool_decide (ok (identify_sources devices classifier after) = Some identities))
  then Err "physical identity or provider mapping changed during open"
  else Ok ().

Definition owner_now (w : W) : W * option string :=
  let '(w, owner) := current_unique_owner bus w in (w, mjoin (ok owner)).

(** The fallible part of [reconcile]: the device list of a complete pass. *)
Definition reconcile_pass (w : W) (c : CaptureRuntime) : W * CaptureRuntime * result string (list DeviceDescriptor) :=
  match cp_enumerate provider w with
  | (w, Err _) => (w, c, Err "enumeration failed")
  | (w, Ok devices) =>
      match discover bus devices classifier topology_of object_path w with
      | (w, Err _) => (w, c, Err "physical discovery failed")
      | (w, Ok discovered) =>
          if negb (bool_decide (c_owner c = Some (ps_owner discovered)))
          then (w, c, Err "physical owner changed during discovery")
          else
            match identify_sources devices classifier discovered with
            | Err _ => (w, c, Err "physical reconnect identity rejected")
            | Ok identities =>
                match reconcile_sources provider identities w c with
                | (w, c, Err e) => (w, c, Err e)
                | (w, c, Ok _) =>
                    match cp_enumerate provider w with
                    | (w, Err e) => (w, c, Err e)
                    | (w, Ok after_open) =>
                        match discover bus after_open classifier topology_of object_path w with
                        | (w, Err _) => (w, c, Err "physical rediscovery failed after open")
                        | (w, Ok rediscovered) =>
                            match validate_after_open discovered rediscovered identities after_open with
                            | Err e => (w, c, Err e)
                            | Ok _ =>
                                let '(w, now) := owner_now w in
                                if negb (bool_decide (now = c_owner c))
                                then (w, c, Err "physical owner changed during open")
                                else (w, c, Ok after_open)
                            end
                        end
                    end
                end
            end
      end
  end.

Definition capture_reconcile (w : W) (c : CaptureRuntime) : W * CaptureRuntime :=
  let queued_before := length (c_updates c) in
  let '(w, c, result) := reconcile_pass w c in
  let c := set_c_settled None c in
  match result with
  | Ok devices => (w, record_settled_topology devices c)
  | Err _ =>
      let c := set_c_updates (take queued_before (c_updates c)) c in
      (w, set_c_overflow true (capture_source_ambiguous c))
  end.
End passes.

(** ** Kernel events *)

Definition update_captured (id : string) (s : CapturedSource) (c : CaptureRuntime) : CaptureRuntime :=
  set_c_sources (<[id := s]> (c_sources c)) c.

Definition with_cs_state (p : GamepadState) (s : CapturedSource) : CapturedSource :=
  MkCaptured (cs_identity s) (cs_opened s) p (cs_published s) (cs_policies s) (cs_armed s).

Definition with_cs_published (p : GamepadState) (s : CapturedSource) : CapturedSource :=
  MkCaptured (cs_identity s) (cs_opened s) (cs_state s) p (cs_policies s) (cs_armed s).

Definition with_cs_policies (p : Policies) (armed : bool) (s : CapturedSource) : CapturedSource :=
  MkCaptured (cs_identity s) (cs_opened s) (cs_state s) (cs_published s) p armed.

(** What a stream yields when it is polled: nothing yet, or an item. *)
Notation poll := (option (option (result string InputEvent))).

(** Poll every stream once, from the cursor on. *)
Fixpoint poll_from (ready : string -> poll) (ids : list string) (offsets : list nat) (cursor : nat)
    : option (nat * string * option (result string InputEvent)) :=
  match offsets with
  | [] => None
  | offset :: offsets =>
      let index := ((cursor + offset) mod length ids)%nat in
      match ids !! index with
      | None => None
      | Some id =>
          match ready id with
          | Some event => Some (((index + 1) mod length ids)%nat, id, event)
          | None => poll_from ready ids offsets cursor
          end
      end
  end.

Definition poll_streams (ready : string -> poll) (c : CaptureRuntime)
    : option (nat * string * option (result string InputEvent)) :=
  let ids := btree_keys (c_sources c) in poll_from ready ids (seq 0 (length ids)) (c_poll_cursor c).

(** The two controls the profile emits on evdev only. *)
Definition evdev_only (e : InputEvent) : bool :=
  (ev_type e =? 1) && ((ev_code e =? 278) || (ev_code e =? 307)).

Definition shortcut_from_evdev (e : InputEvent) (s : CapturedSource)
    : option (CapturedSource * list RuntimeAction) :=
  if cs_armed s && evdev_only e then
    match map_evdev 1 (ev_code e) (ev_value e) with
    | None => Some (s, [])
    | Some input =>
        let '(p, actions) := policies_handle Evdev input (cs_policies s) in
        actions ← actions;
        Some (with_cs_policies p (cs_armed s) s, actions)
    end
  else Some (s, []).

Definition rearm_captured (s : CapturedSource) : CapturedSource :=
  if negb (cs_armed s) && is_neutral_for_rearm (cs_state s)
  then with_cs_policies (policies_reset (cs_policies s)) true s else s.

(** A SYN_REPORT: rearm, then publish what changed. *)
Definition sync_report (id : string) (s : CapturedSource) (c : CaptureRuntime) : CaptureRuntime :=
  let s := rearm_captured s in
  if bool_decide (cs_state s = cs_published s) then update_captured id s c
  else queue (PhysicalState id (cs_state s)) (update_captured id (with_cs_published (cs_state s) s) c).

Notation evdev_result := (option (result string (option (list RuntimeAction)))).

(** One event of one stream; a [None] result is a panic. *)
Definition captured_event (id : string) (event : option (result string InputEvent)) (c : CaptureRuntime)
    : CaptureRuntime * evdev_result :=
  let lost c :=
    let c := remove id c in
    if has_sources c then c else set_c_state (StateRecovering EventStreamLost) c in
  match event with
  | Some (Ok e) =>
      if (ev_type e =? 0) && (ev_code e =? 3) then (lost c, Some (Ok None))
      else
        match c_sources c !! id with
        | None => (c, None)
        | Some s =>
            match apply_event (cs_state s) (ev_type e) (ev_code e) (ev_value e) with
            | Err error => (remove id c, Some (Err error))
            | Ok pad =>
                let s := with_cs_state pad s in
                let c := set_c_activity
                           (activity_evdev (ev_type e) (ev_code e) (ev_value e) <$> c_activity c) c in
                match shortcut_from_evdev e s with
                | None => (c, None)
                | Some (s, actions) =>
                    let c := if (ev_type e =? 0) && (ev_code e =? 0) then sync_report id s c
                             else update_captured id s c in
                    (c, Some (Ok (Some actions)))
                end
            end
        end
  | Some (Err error) => (lost c, Some (Err error))
  | None => (lost c, Some (Ok None))
  end.

(** [None] as first result: the poll is pending. *)
Definition capture_next_evdev (ready : string -> poll) (c : CaptureRuntime)
    : option (CaptureRuntime * evdev_result) :=
  if negb (has_sources c) then Some (c, Some (Ok None))
  else
    match poll_streams ready c with
    | None => None
    | Some (cursor, id, event) => Some (captured_event id event (set_c_cursor cursor c))
    end.

(** ** D-Bus messages *)

Definition owns_path (path : string) (kv : string * CapturedSource) : bool :=
  existsb (fun target => bool_decide (target = path)) (ps_dbus_paths (is_source (cs_identity kv.2))).

(** The message is for one captured source: its id, the source and the input. *)
Definition capture_message (m : Message) (c : CaptureRuntime) : option (string * CapturedSource * SemanticInput) :=
  if negb (bool_decide (ms_sender m = c_owner c))
     || negb (bool_decide (ms_interface m = Some DBUS_TARGET_INTERFACE))
     || negb (bool_decide (ms_member m = Some DBUS_INPUT_MEMBER))
  then None
  else
    path ← ms_path m;
    '(id, s) ← find (owns_path path) (btree_entries (c_sources c));
    '(capability, value) ← ms_body m;
    input ← map_capability capability value;
    Some (id, s, input).

Definition capture_dbus_message (m : Message) (c : CaptureRuntime)
    : CaptureRuntime * option (list RuntimeAction) :=
  match capture_message m c with
  | None => (c, Some [])
  | Some (id, s, input) =>
      let c := set_c_activity (semantic input <$> c_activity c) c in
      if negb (cs_armed s) then (c, Some [])
      else
        let '(p, actions) := policies_handle AuthenticatedDbus input (cs_policies s) in
        (update_captured id (with_cs_policies p (cs_armed s) s) c, actions)
  end.

(** ** Remote events *)

Definition remote_key_of (s : RemoteSource) : remote_key :=
  (rs_launch_id s, rs_client_id s, rs_controller_number s).

Definition axes_of (s : GamepadState) : list Z :=
  [left_stick_x s; left_stick_y s; left_trigger s; right_stick_x s; right_stick_y s; right_trigger s].

Definition observe_axes (old new : GamepadState) (a : ControllerActivity) : ControllerActivity :=
  fold_left (fun a '(code, before, after) =>
               if before =? after then a else activity_evdev 3 code after a)
    (zip (zip [0; 1; 2; 3; 4; 5] (axes_of old)) (axes_of new)) a.

(** The observer, the policies and the actions so far. *)
Record RemoteRun := MkRun {
  rr_activity : option ControllerActivity;
  rr_policies : Policies;
  rr_actions : list RuntimeAction;
}.

Definition remote_input (input : SemanticInput) (r : RemoteRun) : option RemoteRun :=
  let '(p, actions) := policies_handle Remote input (rr_policies r) in
  actions ← actions;
  Some (MkRun (semantic input <$> rr_activity r) p (rr_actions r ++ actions)).

Definition remote_button (old new : Z) (r : option RemoteRun) (button : Z * Z) : option RemoteRun :=
  let '(code, mask) := button in
  r ← r;
  if Z.land old mask =? Z.land new mask then Some r
  else
    match map_evdev 1 code (if Z.land new mask =? 0 then 0 else 1) with
    | Some input => remote_input input r
    | None => Some r
    end.

Definition b2z (b : bool) : Z := if b then 1 else 0.

Definition remote_hat_value (buttons negative positive : Z) : Z :=
  b2z (negb (Z.land buttons positive =? 0)) - b2z (negb (Z.land buttons negative =? 0)).

Definition remote_hat (old new : Z) (r : option RemoteRun) (hat : Z * Z * Z) : option RemoteRun :=
  let '(code, negative, positive) := hat in
  r ← r;
  if remote_hat_value old negative positive =? remote_hat_value new negative positive then Some r
  else
    input ← map_evdev 3 code (remote_hat_value new negative positive);
    remote_input input r.

Definition remote_changes (old new : Z) (r : RemoteRun) : option RemoteRun :=
  fold_left (remote_hat old new) [(16, 4, 8); (17, 1, 2)]
    (fold_left (remote_button old new) CAPTURE_BUTTONS (Some r)).

Definition remote_state (source : RemoteSource) (c : CaptureRuntime) : CaptureRuntime * option (list RuntimeAction) :=
  let key := remote_key_of source in
  match c_remote c !! key with
  | None => (c, Some [])
  | Some current =>
      let old := rss_state current in
      let new := rs_state source in
      let c := set_c_activity (observe_axes old new <$> c_activity c) c in
      if negb (rss_armed current) then
        let next := if is_neutral_for_rearm new
                    then MkRemoteShortcut new (policies_reset (rss_policies current)) true
                    else MkRemoteShortcut new (rss_policies current) false in
        (set_c_remote (<[key := next]> (c_remote c)) c, Some [])
      else
        match remote_changes (buttons old) (buttons new) (MkRun (c_activity c) (rss_policies current) []) with
        | None => (c, None)
        | Some r =>
            let next := MkRemoteShortcut new (rr_policies r) true in
            (set_c_activity (rr_activity r) (set_c_remote (<[key := next]> (c_remote c)) c),
             Some (rr_actions r))
        end
  end.

Definition handle_remote_event (event : RemoteEvent) (c : CaptureRuntime)
    : CaptureRuntime * option (list RuntimeAction) :=
  match event with
  | RemoteConnected source =>
      let s := rs_state source in
      (set_c_remote
         (<[remote_key_of source := MkRemoteShortcut s (policies_new (c_routes c)) (is_neutral_for_rearm s)]>
            (c_remote c)) c, Some [])
  | RemoteDisconnected client_id launch_id controller_number =>
      (set_c_remote (delete (launch_id, client_id, controller_number) (c_remote c)) c, Some [])
  | RemoteState source => remote_state source c
  end.

(** ** What the coordinator is told *)

(** The coordinator's view of the physical controllers. *)
Notation view := (gmap string GamepadState).

(** One fact, [None] when it contradicts what was told before. *)
Definition replay_update (update : SeatRequest) (v : view) : option view :=
  match update with
  | PhysicalConnected id _ s => if is_some (v !! id) then None else Some (<[id := s]> v)
  | PhysicalState id s => if is_some (v !! id) then Some (<[id := s]> v) else None
  | PhysicalDisconnected id => if is_some (v !! id) then Some (delete id v) else None
  | _ => None
  end.

Fixpoint replay (updates : list SeatRequest) (v : view) : option view :=
  match updates with
  | [] => Some v
  | u :: updates => replay_update u v ≫= replay updates
  end.

(** What the coordinator should know. *)
Definition facts (c : CaptureRuntime) : view := cs_published <$> c_sources c.

(** The queue leads from what the coordinator was told to the facts, unless it
    overflowed. *)
Definition tracked (v : view) (c : CaptureRuntime) : Prop :=
  c_overflow c = true \/ replay (c_updates c) v = Some (facts c).

Lemma replay_app l k v : replay (l ++ k) v = replay l v ≫= replay k.
Proof.
  revert v; induction l as [|u l IH]; intros v; simpl; [done|].
  destruct (replay_update u v); simpl; [apply IH|done].
Qed.

Lemma queue_tracked v c c' u :
  tracked v c -> c_updates c' = c_updates c -> c_overflow c' = c_overflow c ->
  replay_update u (facts c) = Some (facts c') -> tracked v (queue u c').
Proof.
  intros Ht Hu Ho Hr. unfold queue. destruct (_ =? _); [by left|].
  destruct Ht as [Ht|Ht]; [left; simpl; congruence|]. right. simpl.
  rewrite Hu, replay_app, Ht. simpl. rewrite Hr. done.
Qed.

(** A change the coordinator is not told of changes no fact. *)
Lemma same_tracked v c c' :
  tracked v c -> c_updates c' = c_updates c -> c_overflow c' = c_overflow c -> facts c' = facts c ->
  tracked v c'.
Proof. intros [Ht|Ht] Hu Ho Hf; [left; congruence|right; congruence]. Qed.

(** ** Invariants *)

Definition src_ok (routes : ActionRoutes) (id : string) (s : CapturedSource) : Prop :=
  is_device_id (cs_identity s) = id /\ policies_reachable routes (cs_policies s) /\
  (cs_armed s = false -> quiet_policies (cs_policies s)) /\
  validate_opened_descriptor (ps_descriptor (is_source (cs_identity s))) (oc_descriptor (cs_opened s)) = Ok ().

Definition remote_ok (routes : ActionRoutes) (s : RemoteShortcutSource) : Prop :=
  policies_reachable routes (rss_policies s) /\ (rss_armed s = false -> quiet_policies (rss_policies s)).

Record capture_ok (routes : ActionRoutes) (v : view) (c : CaptureRuntime) : Prop := {
  ok_routes : c_routes c = routes;
  ok_tracked : tracked v c;
  ok_bounded : Z.of_nat (length (c_updates c)) <= MAX_UPDATES;
  ok_authority : c_owner c = None -> c_sources c = ∅;
  ok_sources : map_Forall (src_ok routes) (c_sources c);
  ok_remote : map_Forall (fun _ => remote_ok routes) (c_remote c);
  ok_settled : is_Some (c_settled c) -> c_sources c <> ∅;
}.

Lemma quiet_new routes : quiet_policies (policies_new routes).
Proof. done. Qed.

Lemma quiet_reset p : quiet_policies (policies_reset p).
Proof. done. Qed.

Lemma queue_length u c :
  Z.of_nat (length (c_updates c)) <= MAX_UPDATES ->
  Z.of_nat (length (c_updates (queue u c))) <= MAX_UPDATES.
Proof.
  intros Hl. unfold queue. destruct (Z.eqb_spec (Z.of_nat (length (c_updates c))) MAX_UPDATES); [done|].
  simpl. rewrite length_app. simpl. lia.
Qed.

(** [queue] touches the queue only. *)
Lemma queue_frame u c :
  c_routes (queue u c) = c_routes c /\ c_owner (queue u c) = c_owner c /\
  c_sources (queue u c) = c_sources c /\ c_remote (queue u c) = c_remote c /\
  c_settled (queue u c) = c_settled c /\ c_activity (queue u c) = c_activity c.
Proof. unfold queue. by destruct (_ =? _). Qed.

Section invariants.
Variable routes : ActionRoutes.
Variable v : view.

(** Changes that concern neither the facts nor the queue. *)
Lemma ok_frame c c' :
  capture_ok routes v c -> c_routes c' = c_routes c -> c_owner c' = c_owner c ->
  c_sources c' = c_sources c -> c_remote c' = c_remote c -> c_updates c' = c_updates c ->
  c_overflow c' = c_overflow c -> c_settled c' = c_settled c -> capture_ok routes v c'.
Proof.
  intros [] Hr Ho Hs Hrem Hu Hov Hset. split; rewrite ?Hr, ?Ho, ?Hs, ?Hrem, ?Hu, ?Hset; try done.
  eapply same_tracked; [done..|]. unfold facts. by rewrite Hs.
Qed.

Lemma ok_state s c : capture_ok routes v c -> capture_ok routes v (set_c_state s c).
Proof. intros Hc. by apply (ok_frame c). Qed.

Lemma ok_activity a c : capture_ok routes v c -> capture_ok routes v (set_c_activity a c).
Proof. intros Hc. by apply (ok_frame c). Qed.

Lemma ok_cursor n c : capture_ok routes v c -> capture_ok routes v (set_c_cursor n c).
Proof. intros Hc. by apply (ok_frame c). Qed.

Lemma ok_unsettle c : capture_ok routes v c -> capture_ok routes v (set_c_settled None c).
Proof. intros []. split; try done. by intros [? [=]]. Qed.

Lemma ok_overflow c : capture_ok routes v c -> capture_ok routes v (set_c_overflow true c).
Proof. intros []. split; try done. by left. Qed.

Lemma ok_set_remote r c :
  capture_ok routes v c -> map_Forall (fun _ => remote_ok routes) r ->
  capture_ok routes v (set_c_remote r c).
Proof. intros [] Hr. by split. Qed.

(** A source is replaced, and the coordinator is told when its fact changed. *)
Lemma ok_update id s s' c :
  capture_ok routes v c -> c_sources c !! id = Some s -> src_ok routes id s' ->
  cs_published s' = cs_published s -> capture_ok routes v (update_captured id s' c).
Proof.
  intros [] Hs Hok Hp. split; try done.
  - eapply same_tracked; [done..|]. unfold facts, update_captured. simpl.
    rewrite fmap_insert, Hp. apply insert_id. by rewrite lookup_fmap, Hs.
  - intros Ho. specialize (ok_authority0 Ho). simpl. rewrite ok_authority0 in Hs.
    by rewrite lookup_empty in Hs.
  - by apply map_Forall_insert_2.
  - intros _. apply insert_non_empty.
Qed.

Lemma ok_publish id s s' c :
  capture_ok routes v c -> c_sources c !! id = Some s -> src_ok routes id s' ->
  capture_ok routes v (queue (PhysicalState id (cs_published s')) (update_captured id s' c)).
Proof.
  intros [] Hs Hok. destruct (queue_frame (PhysicalState id (cs_published s')) (update_captured id s' c))
    as (Hr & Ho & Hso & Hre & Hse & _).
  split; rewrite ?Hr, ?Ho, ?Hso, ?Hre, ?Hse; try done.
  - eapply queue_tracked; [exact ok_tracked0|done..|]. unfold facts, update_captured. simpl.
    by rewrite lookup_fmap, Hs, fmap_insert.
  - by apply queue_length.
  - intros Hn. simpl in Hn. rewrite (ok_authority0 Hn), lookup_empty in Hs. done.
  - by apply map_Forall_insert_2.
  - intros _. apply insert_non_empty.
Qed.

Lemma remove_ok id c : capture_ok routes v c -> capture_ok routes v (remove id c).
Proof.
  intros Hc. unfold remove. destruct (c_sources c !! id) as [s|] eqn:Hs; [|done].
  apply ok_state. destruct Hc.
  set (c1 := set_c_settled None (set_c_sources (delete id (c_sources c)) c)).
  destruct (queue_frame (PhysicalDisconnected id) c1) as (Hr & Ho & Hso & Hre & Hse & _).
  split; rewrite ?Hr, ?Ho, ?Hso, ?Hre, ?Hse; try done.
  - eapply queue_tracked; [exact ok_tracked0|done..|]. unfold facts, c1. simpl.
    by rewrite lookup_fmap, Hs, fmap_delete.
  - by apply queue_length.
  - intros Hn. simpl in *. rewrite (ok_authority0 Hn). apply delete_empty.
  - simpl. by apply map_Forall_delete.
  - by intros [? [=]].
Qed.

Lemma remove_all_ok ids c : capture_ok routes v c -> capture_ok routes v (remove_all ids c).
Proof.
  revert c; induction ids as [|id ids IH]; intros c Hc; [done|]. apply (IH (remove id c)), remove_ok, Hc.
Qed.

Lemma close_ok c : capture_ok routes v c -> capture_ok routes v (close_sources c).
Proof. intros Hc. unfold close_sources. by apply ok_activity, remove_all_ok. Qed.

Lemma ambiguous_ok c : capture_ok routes v c -> capture_ok routes v (capture_source_ambiguous c).
Proof. intros Hc. unfold capture_source_ambiguous. by apply ok_state, close_ok, ok_unsettle. Qed.

Lemma missing_ok c : capture_ok routes v c -> capture_ok routes v (capture_source_missing c).
Proof. intros Hc. unfold capture_source_missing. by apply ok_state, close_ok, ok_unsettle. Qed.

Lemma heartbeat_ok c : capture_ok routes v c -> capture_ok routes v (heartbeat c).
Proof.
  intros Hc. unfold heartbeat.
  assert (Hl : forall l c', capture_ok routes v c' ->
    (forall id s, (id, s) ∈ l -> c_sources c' !! id = Some s) ->
    capture_ok routes v (fold_left (fun c '(id, s) => queue (PhysicalState id (cs_published s)) c) l c')).
  { intros l; induction l as [|[id s] l IH]; intros c' Hc' Hl; [done|]. simpl. apply IH.
    - assert (Hs : c_sources c' !! id = Some s) by (apply Hl; left).
      assert (Heq : update_captured id s c' = c').
      { unfold update_captured. rewrite insert_id by done. by destruct c'. }
      rewrite <- Heq. eapply ok_publish; [done|exact Hs|]. by apply (ok_sources _ _ _ Hc').
    - intros id' s' Hin. destruct (queue_frame (PhysicalState id (cs_published s)) c') as (_ & _ & -> & _).
      apply Hl. by right. }
  apply Hl; [done|]. intros id s. apply elem_of_btree_entries.
Qed.

(** Closing leaves no source. *)
Lemma remove_sources id c : c_sources (remove id c) = delete id (c_sources c).
Proof.
  unfold remove. destruct (c_sources c !! id) eqn:Hs; [|by rewrite delete_id].
  simpl. by destruct (queue_frame (PhysicalDisconnected id) (set_c_settled None (set_c_sources (delete id (c_sources c)) c)))
    as (_ & _ & -> & _).
Qed.

Lemma remove_all_lookup ids c i :
  c_sources (remove_all ids c) !! i = if bool_decide (i ∈ ids) then None else c_sources c !! i.
Proof.
  revert c; induction ids as [|id ids IH]; intros c.
  { by rewrite bool_decide_eq_false_2 by apply not_elem_of_nil. }
  change (remove_all (id :: ids) c) with (remove_all ids (remove id c)). rewrite IH, remove_sources.
  destruct (decide (i = id)) as [->|Hne].
  - rewrite lookup_delete_eq. rewrite (bool_decide_eq_true_2 (id ∈ id :: ids)) by left.
    by case_bool_decide.
  - rewrite lookup_delete_ne by done. case_bool_decide as Hin.
    + rewrite bool_decide_eq_true_2; [done|by right].
    + rewrite bool_decide_eq_false_2; [done|]. by intros [->|?]%elem_of_cons.
Qed.

Lemma close_sources_empty c : c_sources (close_sources c) = ∅.
Proof.
  apply map_empty. intros i. unfold close_sources. cbn [set_c_activity c_sources].
  rewrite remove_all_lookup. case_bool_decide as Hin; [done|].
  destruct (c_sources c !! i) eqn:Hi; [|done]. destruct Hin. apply elem_of_btree_keys. by eexists.
Qed.
End invariants.

(** ** Reconciliation keeps the invariants *)

Lemma desired_of_spec ids m m' :
  desired_of ids m = Some m' ->
  (forall id, m' !! id = match m !! id with
                         | Some i => Some i
                         | None => find (fun i => bool_decide (is_device_id i = id)) ids
                         end) /\
  (map_Forall (fun id i => is_device_id i = id) m -> map_Forall (fun id i => is_device_id i = id) m').
Proof.
  revert m; induction ids as [|i ids IH]; intros m; simpl.
  { intros [= <-]. split; [|done]. intros id. by destruct (m !! id). }
  destruct (m !! is_device_id i) eqn:Hi; [done|]. simpl. intros [Hl Hf]%IH. split.
  - intros id. rewrite Hl. destruct (decide (is_device_id i = id)) as [<-|Hne].
    + rewrite lookup_insert_eq, Hi, bool_decide_eq_true_2 by done. done.
    + rewrite lookup_insert_ne by done. by rewrite bool_decide_eq_false_2 by done.
  - intros Hm. apply Hf. by apply map_Forall_insert_2.
Qed.

Lemma queue_set_sources u m c : set_c_sources m (queue u c) = queue u (set_c_sources m c).
Proof. unfold queue. simpl. by destruct (_ =? _). Qed.

Lemma open_desired_frame {W} (provider : CaptureProvider W) desired w c w' c' r :
  open_desired provider desired w c = (w', c', r) ->
  c_owner c' = c_owner c /\ c_routes c' = c_routes c /\ c_remote c' = c_remote c /\
  (forall id s, c_sources c !! id = Some s -> c_sources c' !! id = Some s) /\
  (forall id, is_Some (c_sources c' !! id) -> is_Some (c_sources c !! id) \/ id ∈ desired.*1) /\
  (r = Ok () -> forall id i, (id, i) ∈ desired -> NoDup (desired.*1) -> c_sources c !! id = None ->
     cs_identity <$> c_sources c' !! id = Some i).
Proof.
  revert w c; induction desired as [|[id i] desired IH]; intros w c; cbn [open_desired].
  { intros [= _ <- <-]. split_and!; try done; try tauto.
    intros _ id i Hin. by apply not_elem_of_nil in Hin. }
  destruct (c_sources c !! id) as [s|] eqn:Hs; simpl.
  - intros (Ho & Hr & Hre & Hk & Hd & Hn)%IH. split_and!; try done.
    + intros id' Hid. destruct (Hd id' Hid); [by left|right; by right].
    + intros Hok id' i' [[= -> ->]|Hin]%elem_of_cons Hnd Hnone; [congruence|].
      simpl in Hnd. apply NoDup_cons in Hnd as [_ Hnd]. by apply Hn.
  - destruct (cp_open provider _ w) as [w1 [o|e]].
    2: { intros [= _ <- <-]. split_and!; try done; by left. }
    destruct (validate_opened_descriptor _ _); [|intros [= _ <- <-]; split_and!; try done; by left].
    intros Hrun. apply IH in Hrun as (Ho & Hr & Hre & Hk & Hd & Hn). clear IH.
    set (u := PhysicalConnected _ _ _) in *. destruct (queue_frame u c) as (Hqr & Hqo & Hqs & Hqre & _).
    cbn [set_c_sources c_owner c_routes c_remote c_sources] in *. rewrite Hqs, Hqr in *.
    split_and!; try congruence.
    + intros id' s' Hl. apply Hk. rewrite lookup_insert_ne; [done|]. congruence.
    + intros id' Hid. destruct (Hd id' Hid) as [Hin|Hin]; [|right; by right].
      destruct (decide (id = id')) as [->|Hne]; [right; left|left].
      by rewrite lookup_insert_ne in Hin.
    + intros Hok id' i' [[= -> ->]|Hin]%elem_of_cons Hnd Hnone; simpl in Hnd; apply NoDup_cons in Hnd as [Hout Hnd].
      * erewrite Hk by apply lookup_insert_eq. done.
      * apply Hn; [done|done|done|]. rewrite lookup_insert_ne; [done|]. intros ->. apply Hout.
        apply list_elem_of_fmap. by exists (id', i').
Qed.

Lemma open_desired_ok {W} (provider : CaptureProvider W) routes v desired w c w' c' r :
  capture_ok routes v c -> is_Some (c_owner c) ->
  (forall id i, (id, i) ∈ desired -> is_device_id i = id) ->
  open_desired provider desired w c = (w', c', r) -> capture_ok routes v c'.
Proof.
  revert w c; induction desired as [|[id i] desired IH]; intros w c Hc Ho Hd; cbn [open_desired].
  { by intros [= _ <- _]. }
  assert (Hd' : forall id i, (id, i) ∈ desired -> is_device_id i = id) by (intros; apply Hd; by right).
  destruct (c_sources c !! id) as [s|] eqn:Hs; simpl; [by apply IH|].
  destruct (cp_open provider _ w) as [w1 [o|e]]; [|by intros [= _ <- _]].
  destruct (validate_opened_descriptor _ _) as [[]|] eqn:Hv; [|by intros [= _ <- _]].
  set (u := PhysicalConnected _ _ _). destruct (queue_frame u c) as (Hqr & Hqo & Hqs & Hqre & Hqset & _).
  apply IH; [|simpl; by rewrite Hqo|done]. rewrite queue_set_sources, Hqs, Hqr.
  set (s' := captured_from _ _ _). destruct (queue_frame u (set_c_sources (<[id:=s']> (c_sources c)) c))
    as (Hr & Hw & Hso & Hre & Hse & _).
  destruct Hc. split; rewrite ?Hr, ?Hw, ?Hso, ?Hre, ?Hse; try done.
  - eapply queue_tracked; [exact ok_tracked0|done..|]. unfold facts, u. simpl.
    by rewrite lookup_fmap, Hs, fmap_insert.
  - by apply queue_length.
  - intros Hn. simpl in Hn. rewrite Hn in Ho. by destruct Ho.
  - apply map_Forall_insert_2; [|done]. unfold s', captured_from. split_and!; simpl.
    + apply Hd. left.
    + rewrite ok_routes0. constructor.
    + intros _. apply quiet_new.
    + done.
  - intros _. apply insert_non_empty.
Qed.

Lemma remove_all_frame ids c :
  c_owner (remove_all ids c) = c_owner c /\ c_routes (remove_all ids c) = c_routes c.
Proof.
  revert c; induction ids as [|id ids IH]; intros c; [done|].
  change (remove_all (id :: ids) c) with (remove_all ids (remove id c)).
  destruct (IH (remove id c)) as [-> ->]. unfold remove. destruct (c_sources c !! id); [|done]. simpl.
  match goal with |- context [queue ?u ?x] => destruct (queue_frame u x) as (-> & -> & _) end. done.
Qed.

Lemma reconcile_sources_ok {W} (provider : CaptureProvider W) routes v ids w c w' c' r :
  capture_ok routes v c -> reconcile_sources provider ids w c = (w', c', r) -> capture_ok routes v c'.
Proof.
  intros Hc. unfold reconcile_sources. destruct (c_owner c) as [owner|] eqn:Ho;
    [|intros [= _ <- _]; by apply close_ok].
  destruct (desired_of ids ∅) as [m|] eqn:Hm; [|intros [= _ <- _]; by apply ambiguous_ok].
  destruct (open_desired _ _ _ _) as [[w1 c1] [[]|e]] eqn:Hopen; intros [= _ <- _].
  - apply ok_state. eapply open_desired_ok; [| | |exact Hopen].
    + by apply remove_all_ok.
    + rewrite (proj1 (remove_all_frame _ _)), Ho. by eexists.
    + intros id i Hin%elem_of_btree_entries. apply desired_of_spec in Hm as [_ Hf].
      exact (Hf (map_Forall_empty _) id i Hin).
  - eapply open_desired_ok; [| | |exact Hopen].
    + by apply remove_all_ok.
    + rewrite (proj1 (remove_all_frame _ _)), Ho. by eexists.
    + intros id i Hin%elem_of_btree_entries. apply desired_of_spec in Hm as [_ Hf].
      exact (Hf (map_Forall_empty _) id i Hin).
Qed.

(** After a successful pass the captured identities are the desired ones. *)
Lemma reconcile_sources_spec {W} (provider : CaptureProvider W) ids w c w' c' :
  reconcile_sources provider ids w c = (w', c', Ok ()) ->
  c_owner c' = c_owner c /\
  forall id, cs_identity <$> c_sources c' !! id = find (fun i => bool_decide (is_device_id i = id)) ids.
Proof.
  unfold reconcile_sources. destruct (c_owner c) as [owner|] eqn:Ho; [|done].
  destruct (desired_of ids ∅) as [m|] eqn:Hm; [|done]. apply desired_of_spec in Hm as [Hm _].
  destruct (open_desired _ _ _ _) as [[w1 c1] [[]|e]] eqn:Hopen; [|done]. intros [= _ <-].
  apply open_desired_frame in Hopen as (Hown & _ & _ & Hk & Hd & Hn).
  destruct (remove_all_frame (stale_ids m c) c) as [Hro _]. split; [simpl; congruence|]. intros id. simpl.
  specialize (Hm id). rewrite lookup_empty in Hm. rewrite <- Hm.
  set (c0 := remove_all (stale_ids m c) c) in *.
  assert (Hc0 : forall s, c_sources c0 !! id = Some s -> m !! id = Some (cs_identity s)).
  { intros s. unfold c0. rewrite remove_all_lookup. case_bool_decide as Hin; [done|]. intros Hs.
    destruct (decide (m !! id = cs_identity <$> c_sources c !! id)) as [Heq|Hne]; [by rewrite Heq, Hs|].
    destruct Hin. unfold stale_ids. apply elem_of_keep. split; [apply elem_of_btree_keys; by eexists|].
    by rewrite bool_decide_eq_false_2. }
  destruct (c_sources c0 !! id) as [s|] eqn:Hs.
  - rewrite (Hk id s Hs). simpl. symmetry. by apply Hc0.
  - destruct (m !! id) as [i|] eqn:Hi.
    + apply Hn; [done| |apply btree_keys_NoDup|done]. by apply elem_of_btree_entries.
    + destruct (c_sources c1 !! id) as [s|] eqn:Hs1; [|done]. exfalso.
      destruct (Hd id (ex_intro _ s Hs1)) as [[? ?]|Hin]; [congruence|].
      apply elem_of_btree_keys in Hin as [? ?]. congruence.
Qed.

(** Marking the queue as overflowed commutes with closing. *)
Lemma overflow_remove id c : set_c_overflow true (remove id c) = remove id (set_c_overflow true c).
Proof.
  unfold remove. cbn [set_c_overflow c_sources]. destruct (c_sources c !! id); [|done].
  unfold queue. cbn. by destruct (_ =? _).
Qed.

Lemma overflow_ambiguous c :
  set_c_overflow true (capture_source_ambiguous c) = capture_source_ambiguous (set_c_overflow true c).
Proof.
  unfold capture_source_ambiguous, close_sources.
  change (c_sources (set_c_settled None (set_c_overflow true c))) with (c_sources (set_c_settled None c)).
  generalize (btree_keys (c_sources (set_c_settled None c))) as ids. intros ids.
  assert (Hl : forall x, set_c_overflow true (remove_all ids x) = remove_all ids (set_c_overflow true x)).
  { induction ids as [|id ids IH]; intros x; [done|].
    change (remove_all (id :: ids) ?y) with (remove_all ids (remove id y)).
    by rewrite IH, overflow_remove. }
  change (set_c_settled None (set_c_overflow true c)) with (set_c_overflow true (set_c_settled None c)).
  rewrite <- Hl. done.
Qed.

(** A state whose facts are lost is still well formed once it is marked. *)
Lemma ok_truncate routes v n c :
  capture_ok routes v c -> capture_ok routes v (set_c_overflow true (set_c_updates (take n (c_updates c)) c)).
Proof.
  intros []. split; simpl; try done; [by left|]. rewrite length_take. lia.
Qed.

Section pass.
Context {W : Type}.
Variable bus : Bus W.
Variable classifier : string -> SourceClass.
Variable topology_of : list string -> SourceTopology.
Variable object_path : string -> bool.
Variable unique_name : string -> bool.
Variable provider : CaptureProvider W.

Notation reconcile_pass := (reconcile_pass bus classifier topology_of object_path provider).
Notation capture_reconcile := (capture_reconcile bus classifier topology_of object_path provider).

(** What a complete pass has established, in terms of its last discovery. *)
Definition pass_complete (c : CaptureRuntime) (devices : list DeviceDescriptor) : Prop :=
  exists sources ids w1 w2,
    discover bus devices classifier topology_of object_path w1 = (w2, Ok sources) /\
    identify_sources devices classifier sources = Ok ids /\ c_owner c = Some (ps_owner sources) /\
    forall id, cs_identity <$> c_sources c !! id = find (fun i => bool_decide (is_device_id i = id)) ids.

Lemma reconcile_pass_spec routes v w c w' c' r :
  capture_ok routes v c -> reconcile_pass w c = (w', c', r) ->
  capture_ok routes v c' /\ forall devices, r = Ok devices -> pass_complete c' devices.
Proof.
  intros Hc. unfold Capture.reconcile_pass.
  destruct (cp_enumerate provider w) as [w1 [devices|e]]; [|by intros [= _ <- <-]].
  destruct (discover bus devices _ _ _ w1) as [w2 [found|e]] eqn:Hd1; [|by intros [= _ <- <-]].
  case_bool_decide as Hown; [|by intros [= _ <- <-]]. cbn [negb].
  destruct (identify_sources devices classifier found) as [ids|e] eqn:Hids; [|by intros [= _ <- <-]].
  destruct (reconcile_sources provider ids w2 c) as [[w3 c1] [[]|e]] eqn:Hrec.
  2: { intros [= _ <- <-]. split; [by eapply reconcile_sources_ok|done]. }
  assert (Hc1 : capture_ok routes v c1) by (by eapply reconcile_sources_ok).
  apply reconcile_sources_spec in Hrec as [Hown1 Hspec].
  destruct (cp_enumerate provider w3) as [w4 [after|e]]; [|by intros [= _ <- <-]].
  destruct (discover bus after _ _ _ w4) as [w5 [found'|e]] eqn:Hd2; [|by intros [= _ <- <-]].
  unfold validate_after_open. case_bool_decide as Hsame; [subst found'|by intros [= _ <- <-]].
  case_bool_decide as Hids'; [|by intros [= _ <- <-]]. simpl.
  destruct (owner_now bus w5) as [w6 now]. case_bool_decide as Hnow; intros [= _ <- <-]; [|done].
  split; [done|]. intros ds [= <-]. exists found, ids, w4, w5. split_and!; [done| |congruence|done].
  destruct (identify_sources after classifier found); simpl in Hids'; congruence.
Qed.

Lemma capture_reconcile_ok routes v w c :
  capture_ok routes v c -> capture_ok routes v (capture_reconcile w c).2.
Proof.
  intros Hc. unfold Capture.capture_reconcile.
  destruct (reconcile_pass w c) as [[w1 c1] r] eqn:Hp. apply (reconcile_pass_spec routes v) in Hp as [Hc1 _]; [|done].
  apply ok_unsettle in Hc1. destruct r as [devices|e]; cbn [snd].
  - unfold record_settled_topology. destruct Hc1. split; try done. intros [d Hd]. cbn in *.
    destruct (is_some (c_owner c1) && _) eqn:Hb; [|done]. apply andb_prop in Hb as [_ Hb].
    unfold has_sources in Hb. simpl in Hb. by apply negb_true_iff, bool_decide_eq_false in Hb.
  - rewrite overflow_ambiguous. apply ambiguous_ok, (ok_truncate routes v _ _ Hc1).
Qed.

Lemma set_dbus_owner_ok routes v o c :
  capture_ok routes v c -> capture_ok routes v (capture_set_dbus_owner unique_name o c).
Proof.
  intros Hc. unfold capture_set_dbus_owner. case_bool_decide; [done|]. apply ok_state.
  pose proof (close_ok routes v _ (ok_unsettle _ _ _ Hc)) as [].
  assert (He := close_sources_empty (set_c_settled None c)).
  by split.
Qed.
End pass.

Lemma transport_lost_ok routes v c :
  capture_ok routes v c -> capture_ok routes ∅ (capture_transport_lost c).
Proof.
  intros Hc. unfold capture_transport_lost. apply ok_state.
  pose proof (close_ok routes v _ (ok_unsettle _ _ _ Hc)) as Hd.
  assert (He := close_sources_empty (set_c_settled None c)).
  revert Hd He. generalize (close_sources (set_c_settled None c)). intros d [] He.
  split; simpl; try done.
  right. unfold facts. simpl. by rewrite He, fmap_empty.
Qed.

Lemma take_updates_ok routes v c c' us v' :
  capture_ok routes v c -> take_updates c = (c', Ok us) -> replay us v = Some v' ->
  capture_ok routes v' c'.
Proof.
  intros []. unfold take_updates. destruct (c_overflow c) eqn:Ho; [done|]. intros [= <- <-] Hr.
  destruct ok_tracked0 as [Ht|Ht]; [congruence|].
  split; try done. right. simpl. by rewrite <- Hr, Ht.
Qed.

(** ** Events keep the invariants and never panic *)

Lemma handle_some routes source input p :
  policies_reachable routes p ->
  exists p' acts, policies_handle source input p = (p', Some acts) /\ policies_reachable routes p'.
Proof.
  intros Hp. destruct (policies_never_fail routes p source input Hp) as [acts Ha].
  pose proof (policies_after_handle routes source input p Hp) as Hr.
  destruct (policies_handle source input p) as [p' o]. simpl in *. subst. by exists p', acts.
Qed.

Section events.
Variable routes : ActionRoutes.
Variable v : view.

Lemma shortcut_from_evdev_ok id e s :
  src_ok routes id s ->
  exists s' acts, shortcut_from_evdev e s = Some (s', acts) /\ src_ok routes id s' /\
    cs_published s' = cs_published s.
Proof.
  intros Hs. unfold shortcut_from_evdev. destruct (cs_armed s && _) eqn:Ha; [|by exists s, []].
  destruct (map_evdev _ _ _) as [input|]; [|by exists s, []]. destruct Hs as (Hid & Hp & Hq & Hv).
  destruct (handle_some routes Evdev input (cs_policies s) Hp) as (p' & acts & -> & Hp').
  exists (with_cs_policies p' (cs_armed s) s), acts. split; [done|]. split; [|done].
  apply andb_prop in Ha as [Ha _]. split_and!; try done. simpl. congruence.
Qed.

Lemma rearm_ok id s : src_ok routes id s -> src_ok routes id (rearm_captured s).
Proof.
  intros (Hid & Hp & Hq & Hv). unfold rearm_captured. destruct (_ && _); [|done].
  split_and!; try done. simpl. by constructor.
Qed.

Lemma rearm_published s : cs_published (rearm_captured s) = cs_published s.
Proof. unfold rearm_captured. by destruct (_ && _). Qed.

Lemma lost_ok id c :
  capture_ok routes v c ->
  capture_ok routes v (if has_sources (remove id c) then remove id c
                       else set_c_state (StateRecovering EventStreamLost) (remove id c)).
Proof. intros Hc. destruct (has_sources _); [|apply ok_state]; by apply remove_ok. Qed.

Lemma captured_event_ok id event c :
  capture_ok routes v c -> is_Some (c_sources c !! id) ->
  capture_ok routes v (captured_event id event c).1 /\ is_Some (captured_event id event c).2.
Proof.
  intros Hc [s Hs]. unfold captured_event.
  destruct event as [[e|error]|]; [|split; [by apply lost_ok|by eexists]..].
  destruct (_ && _); [split; [by apply lost_ok|by eexists]|]. rewrite Hs.
  destruct (apply_event (cs_state s) _ _ _) as [pad|error]; [|split; [by apply remove_ok|by eexists]].
  set (c1 := set_c_activity _ c). set (s1 := with_cs_state pad s).
  assert (Hc1 : capture_ok routes v c1) by (by apply ok_activity).
  assert (Hs1 : src_ok routes id s1) by (exact (ok_sources _ _ _ Hc id s Hs)).
  destruct (shortcut_from_evdev_ok id e s1 Hs1) as (s2 & acts & -> & Hs2 & Hp2).
  split; [|by eexists]. cbn [fst]. destruct (_ && _); [|by eapply ok_update].
  unfold sync_report. pose proof (rearm_ok id s2 Hs2) as Hs3. pose proof (rearm_published s2) as Hp3.
  case_bool_decide as Hsame.
  - eapply ok_update; [done|exact Hs|done|]. by rewrite Hp3, Hp2.
  - by apply (ok_publish routes v id s (with_cs_published (cs_state (rearm_captured s2)) (rearm_captured s2))).
Qed.

Lemma poll_from_elem ready ids offsets cursor n id event :
  poll_from ready ids offsets cursor = Some (n, id, event) -> id ∈ ids /\ ready id = Some event.
Proof.
  induction offsets as [|o offsets IH]; simpl; [done|].
  destruct (ids !! _) as [i|] eqn:Hi; [|done]. destruct (ready i) as [ev|] eqn:Hr; [|done].
  intros [= _ <- <-]. split; [by eapply list_elem_of_lookup_2|done].
Qed.

Lemma next_evdev_ok ready c c' r :
  capture_ok routes v c -> capture_next_evdev ready c = Some (c', r) ->
  capture_ok routes v c' /\ is_Some r.
Proof.
  intros Hc. unfold capture_next_evdev. destruct (negb (has_sources c)).
  { intros [= <- <-]. split; [done|by eexists]. }
  destruct (poll_streams ready c) as [[[n id] event]|] eqn:Hp; [|done].
  apply poll_from_elem in Hp as [Hid _]. apply elem_of_btree_keys in Hid.
  pose proof (captured_event_ok id event (set_c_cursor n c) (ok_cursor _ _ _ _ Hc) Hid) as Hev.
  destruct (captured_event _ _ _). by intros [= <- <-].
Qed.

(** A message that reaches a source. *)
Lemma capture_message_elem m c id s input :
  capture_message m c = Some (id, s, input) ->
  c_sources c !! id = Some s /\ ms_sender m = c_owner c /\
  exists path, ms_path m = Some path /\ path ∈ ps_dbus_paths (is_source (cs_identity s)).
Proof.
  unfold capture_message. destruct (_ || _) eqn:Hg; [done|].
  rewrite !orb_false_iff, !negb_false_iff, !bool_decide_eq_true in Hg. destruct Hg as [[Hsend _] _].
  destruct (ms_path m) as [path|]; [|done]. simpl.
  destruct (find (owns_path path) _) as [[id' s']|] eqn:Hf; [|done]. simpl.
  apply find_Some in Hf as [Hin Hown].
  destruct (ms_body m) as [[cap val]|]; [|done]. simpl.
  destruct (map_capability cap val); [|done]. simpl. intros [= <- <- _].
  split; [by apply elem_of_btree_entries|]. split; [done|]. exists path. split; [done|].
  unfold owns_path in Hown. apply existsb_exists in Hown as (p & Hp & Heq).
  apply bool_decide_eq_true in Heq as ->. by apply list_elem_of_In.
Qed.

Lemma dbus_message_ok m c :
  capture_ok routes v c ->
  capture_ok routes v (capture_dbus_message m c).1 /\ is_Some (capture_dbus_message m c).2.
Proof.
  intros Hc. unfold capture_dbus_message.
  destruct (capture_message m c) as [[[id s] input]|] eqn:Hm; [|split; [done|by eexists]].
  apply capture_message_elem in Hm as (Hs & _).
  destruct (cs_armed s) eqn:Ha; simpl; [|split; [by apply ok_activity|by eexists]].
  destruct (ok_sources _ _ _ Hc id s Hs) as (Hid & Hp & Hq & Hv).
  destruct (handle_some routes AuthenticatedDbus input (cs_policies s) Hp) as (p' & acts & -> & Hp').
  split; [|by eexists]. simpl. eapply ok_update; [by apply ok_activity|exact Hs| |done].
  by split_and!.
Qed.

(** A run over remote changes stays among the reachable policies. *)
Definition run_ok (r : option RemoteRun) : Prop :=
  exists run, r = Some run /\ policies_reachable routes (rr_policies run).

Lemma remote_input_ok input run :
  policies_reachable routes (rr_policies run) -> run_ok (remote_input input run).
Proof.
  intros Hp. unfold remote_input.
  destruct (handle_some routes Remote input (rr_policies run) Hp) as (p' & acts & -> & Hp'). by eexists.
Qed.

Lemma remote_changes_ok old new run :
  policies_reachable routes (rr_policies run) -> run_ok (remote_changes old new run).
Proof.
  intros Hp. unfold remote_changes.
  assert (Hb : forall l r, run_ok r -> run_ok (fold_left (remote_button old new) l r)).
  { intros l; induction l as [|[code mask] l IH]; intros r Hr; [done|]. simpl. apply IH.
    destruct Hr as (run' & -> & Hr). simpl. destruct (_ =? _); [by eexists|].
    case_match; [by apply remote_input_ok|by eexists]. }
  assert (Hh : forall n p q r, n = 16 \/ n = 17 -> run_ok r -> run_ok (remote_hat old new r (n, p, q))).
  { intros n p q r Hn (run' & -> & Hr). simpl. destruct (_ =? _); [by eexists|].
    destruct Hn as [-> | ->]; simpl; by apply remote_input_ok. }
  cbn [fold_left]. apply Hh; [by right|]. apply Hh; [by left|]. apply Hb. by eexists.
Qed.

Lemma remote_event_ok event c :
  capture_ok routes v c ->
  capture_ok routes v (handle_remote_event event c).1 /\ is_Some (handle_remote_event event c).2.
Proof.
  intros Hc. pose proof (ok_remote _ _ _ Hc) as Hre. destruct event as [s|s|cl la n]; cbn [handle_remote_event].
  - split; [|by eexists]. apply ok_set_remote; [done|]. apply map_Forall_insert_2; [|done].
    rewrite (ok_routes _ _ _ Hc). split; [constructor|done].
  - unfold remote_state. destruct (c_remote c !! remote_key_of s) as [cur|] eqn:Hcur; [|split; [done|by eexists]].
    destruct (Hre _ _ Hcur) as [Hp Hq].
    destruct (rss_armed cur) eqn:Ha; cbn [negb].
    + match goal with |- context [remote_changes ?a ?b ?r] =>
        destruct (remote_changes_ok a b r Hp) as (run & -> & Hrun) end.
      split; [|by eexists]. cbn [fst]. apply ok_activity, ok_set_remote; [by apply ok_activity|].
      by apply map_Forall_insert_2.
    + split; [|by eexists]. apply ok_set_remote; [by apply ok_activity|].
      apply map_Forall_insert_2; [|done]. destruct (is_neutral_for_rearm _).
      * split; [by constructor|done].
      * split; [done|]. intros _. by apply Hq.
  - split; [|by eexists]. apply ok_set_remote; [done|]. by apply map_Forall_delete.
Qed.
End events.

(** ** Reachable captures *)

Inductive capture_step : CaptureRuntime -> CaptureRuntime -> Prop :=
| cstep_activity c : capture_step c (enable_capture_activity c)
| cstep_owner unique_name o c : capture_step c (capture_set_dbus_owner unique_name o c)
| cstep_missing c : capture_step c (capture_source_missing c)
| cstep_ambiguous c : capture_step c (capture_source_ambiguous c)
| cstep_heartbeat c : capture_step c (heartbeat c)
| cstep_advance now c : capture_step c (capture_advance_actions now c).1
| cstep_reconcile {W : Type} (bus : Bus W) classifier topology_of object_path provider w c :
    capture_step c (capture_reconcile bus classifier topology_of object_path provider w c).2
| cstep_evdev ready c c' r : capture_next_evdev ready c = Some (c', r) -> capture_step c c'
| cstep_message m c : capture_step c (capture_dbus_message m c).1
| cstep_remote event c : capture_step c (handle_remote_event event c).1.

(** The facts sent since the transport was last lost, and the runtime. *)
Inductive capture_reachable (routes : ActionRoutes) : list SeatRequest -> CaptureRuntime -> Prop :=
| capture_boot : capture_reachable routes [] (capture_new routes)
| capture_then sent c c' :
    capture_reachable routes sent c -> capture_step c c' -> capture_reachable routes sent c'
| capture_take sent c c' updates :
    capture_reachable routes sent c -> take_updates c = (c', Ok updates) ->
    capture_reachable routes (sent ++ updates) c'
| capture_lost sent c :
    capture_reachable routes sent c -> capture_reachable routes [] (capture_transport_lost c).

Lemma capture_step_ok routes v c c' : capture_step c c' -> capture_ok routes v c -> capture_ok routes v c'.
Proof.
  intros Hstep Hc. destruct Hstep as [c|u o c|c|c|c|now c|W bus cl tp op pr w c|ready c c' r Hn|m c|event c].
  - by apply ok_activity.
  - by apply set_dbus_owner_ok.
  - by apply missing_ok.
  - by apply ambiguous_ok.
  - by apply heartbeat_ok.
  - unfold capture_advance_actions. destruct (c_activity c) as [a|]; [|done].
    destruct (take_due now a). by apply ok_activity.
  - by apply capture_reconcile_ok.
  - by eapply next_evdev_ok.
  - by apply dbus_message_ok.
  - by apply remote_event_ok.
Qed.

Lemma capture_reachable_ok routes sent c :
  capture_reachable routes sent c -> exists v, replay sent ∅ = Some v /\ capture_ok routes v c.
Proof.
  induction 1 as [|sent c c' _ (v & Hv & IH) Hstep|sent c c' us _ (v & Hv & IH) Ht|sent c _ (v & Hv & IH)].
  - exists ∅. split; [done|]. split; try done.
    + right. simpl. unfold facts. simpl. by rewrite fmap_empty.
    + intros [d Hd]. done.
  - exists v. split; [done|]. by eapply capture_step_ok.
  - assert (Hr : replay us v = Some (facts c)).
    { unfold take_updates in Ht. destruct (c_overflow c) eqn:Ho; [done|]. injection Ht as _ <-.
      destruct (ok_tracked _ _ _ IH); [congruence|done]. }
    exists (facts c). rewrite replay_app, Hv. split; [done|]. by eapply take_updates_ok.
  - exists ∅. split; [done|]. by apply (transport_lost_ok routes v).
Qed.

(** No action of the list stops a game. *)
Definition no_stop (actions : list RuntimeAction) : Prop := forall id, MkRuntimeAction id ExactStop ∉ actions.

Lemma no_stop_nil : no_stop [].
Proof. intros id. apply not_elem_of_nil. Qed.

Lemma no_stop_app l k : no_stop l -> no_stop k -> no_stop (l ++ k).
Proof. intros Hl Hk id [?|?]%elem_of_app; [by apply (Hl id)|by apply (Hk id)]. Qed.

Section stops.
Variable environment : OsEnv.
Variable routes : ActionRoutes.
Hypothesis configured : routes_from_environment environment = Ok routes.

Lemma handle_no_stop source input p p' acts :
  policies_reachable routes p -> source <> AuthenticatedDbus ->
  policies_handle source input p = (p', Some acts) -> no_stop acts.
Proof. intros Hp Hs Hh id. by eapply other_sources_never_stop. Qed.

Lemma evdev_no_stop id e s s' acts :
  src_ok routes id s -> shortcut_from_evdev e s = Some (s', acts) -> no_stop acts.
Proof.
  intros (_ & Hp & _). unfold shortcut_from_evdev.
  destruct (_ && _); [|intros [= _ <-]; apply no_stop_nil].
  destruct (map_evdev _ _ _) as [input|]; [|intros [= _ <-]; apply no_stop_nil].
  destruct (policies_handle Evdev input (cs_policies s)) as [p' [a|]] eqn:Hh; [|done]. simpl.
  intros [= _ <-]. by apply (handle_no_stop Evdev input (cs_policies s) p').
Qed.

(** The part of a run that matters here. *)
Definition run_quiet (r : option RemoteRun) : Prop :=
  forall run, r = Some run -> policies_reachable routes (rr_policies run) /\ no_stop (rr_actions run).

Lemma remote_input_quiet input run :
  policies_reachable routes (rr_policies run) -> no_stop (rr_actions run) -> run_quiet (remote_input input run).
Proof.
  intros Hp Hn run'. unfold remote_input.
  destruct (handle_some routes Remote input (rr_policies run) Hp) as (p' & acts & Hh & Hp').
  rewrite Hh. simpl. intros [= <-]. split; [done|]. apply no_stop_app; [done|].
  by apply (handle_no_stop Remote input (rr_policies run) p').
Qed.

Lemma remote_changes_quiet old new run :
  policies_reachable routes (rr_policies run) -> no_stop (rr_actions run) ->
  run_quiet (remote_changes old new run).
Proof.
  intros Hp Hn. unfold remote_changes.
  assert (Hb : forall l r, run_quiet r -> run_quiet (fold_left (remote_button old new) l r)).
  { intros l; induction l as [|[code mask] l IH]; intros r Hr; [done|]. simpl. apply IH.
    destruct r as [run'|]; simpl; [|done]. destruct (Hr run' eq_refl) as [Hp' Hn'].
    destruct (_ =? _); [done|]. case_match; [by apply remote_input_quiet|done]. }
  assert (Hh : forall hat r, run_quiet r -> run_quiet (remote_hat old new r hat)).
  { intros [[n p] q] r Hr. destruct r as [run'|]; simpl; [|done].
    destruct (Hr run' eq_refl) as [Hp' Hn']. destruct (_ =? _); [done|].
    destruct (map_evdev 3 n _); simpl; [by apply remote_input_quiet|done]. }
  cbn [fold_left]. apply Hh, Hh, Hb. intros run' [= <-]. done.
Qed.

Lemma remote_event_no_stop v event c acts :
  capture_ok routes v c -> (handle_remote_event event c).2 = Some acts -> no_stop acts.
Proof.
  intros Hc. destruct event as [s|s|cl la n]; cbn [handle_remote_event];
    [intros [= <-]; apply no_stop_nil| |intros [= <-]; apply no_stop_nil].
  unfold remote_state. destruct (c_remote c !! remote_key_of s) as [cur|] eqn:Hcur;
    [|intros [= <-]; apply no_stop_nil].
  destruct (ok_remote _ _ _ Hc _ _ Hcur) as [Hp _].
  destruct (negb _); [intros [= <-]; apply no_stop_nil|].
  match goal with |- context [remote_changes ?a ?b ?r] =>
    pose proof (remote_changes_quiet a b r Hp no_stop_nil) as Hq; destruct (remote_changes a b r) as [run|] end;
    [|done].
  intros [= <-]. by apply Hq.
Qed.

Lemma captured_event_no_stop v id event c acts :
  capture_ok routes v c -> (captured_event id event c).2 = Some (Ok (Some acts)) -> no_stop acts.
Proof.
  intros Hc. unfold captured_event. destruct event as [[e|error]|]; [|done..].
  destruct (_ && _); [done|]. destruct (c_sources c !! id) as [s|] eqn:Hs; [|done].
  destruct (apply_event _ _ _ _) as [pad|]; [|done].
  destruct (shortcut_from_evdev e _) as [[s' a]|] eqn:Hsh; [|done]. intros [= <-].
  eapply (evdev_no_stop id); [|exact Hsh]. exact (ok_sources _ _ _ Hc id s Hs).
Qed.
End stops.

(** ** Properties *)

(** C4: The coordinator is told the truth: in every reachable capture the queue holds
    at most MAX_UPDATES facts, and what was sent since the transport was last
    lost, followed by what is queued, is a consistent history (no connect of a
    connected controller, no state or disconnect of an unknown one) that leads
    exactly to the states of the controllers held open. When facts were lost to
    the bound, nothing more is sent until the transport is retired. *)
Theorem capture_tells_the_truth routes sent c :
  capture_reachable routes sent c ->
  Z.of_nat (length (c_updates c)) <= MAX_UPDATES /\
  is_Some (replay sent ∅) /\
  (c_overflow c = false -> replay (sent ++ c_updates c) ∅ = Some (facts c)) /\
  (c_overflow c = true -> (take_updates c).1 = c /\ is_err (take_updates c).2 = true).
Proof.
  intros (v & Hv & Hc)%capture_reachable_ok. split_and!.
  - apply (ok_bounded _ _ _ Hc).
  - by exists v.
  - intros Ho. rewrite replay_app, Hv. simpl. destruct (ok_tracked _ _ _ Hc); [congruence|done].
  - intros Ho. unfold take_updates. by rewrite Ho.
Qed.

(** C7: A D-Bus message drives a shortcut only when it comes from the one trusted
    owner, on a D-Bus path of a controller that is held open and was neutral
    since; kernel events and remote controllers never stop a game; and no event,
    whatever it is, makes the capture panic. *)
Theorem capture_authority environment routes sent c m ready event :
  routes_from_environment environment = Ok routes ->
  capture_reachable routes sent c ->
  (exists actions, (capture_dbus_message m c).2 = Some actions /\
     (actions <> [] -> exists id s owner path,
        c_sources c !! id = Some s /\ cs_armed s = true /\
        c_owner c = Some owner /\ ms_sender m = Some owner /\
        ms_path m = Some path /\ path ∈ ps_dbus_paths (is_source (cs_identity s)))) /\
  (forall c' r, capture_next_evdev ready c = Some (c', r) ->
     is_Some r /\ forall actions, r = Some (Ok (Some actions)) -> no_stop actions) /\
  (exists actions, (handle_remote_event event c).2 = Some actions /\ no_stop actions).
Proof.
  intros Henv (v & _ & Hc)%capture_reachable_ok. split_and!.
  - destruct (proj2 (dbus_message_ok routes v m c Hc)) as [actions Ha]. exists actions. split; [done|].
    intros Hne. unfold capture_dbus_message in Ha.
    destruct (capture_message m c) as [[[id s] input]|] eqn:Hm; [|by injection Ha as <-].
    apply capture_message_elem in Hm as (Hs & Hsend & path & Hpath & Hin).
    destruct (cs_armed s) eqn:Harm; [|by injection Ha as <-].
    destruct (c_owner c) as [owner|] eqn:Ho.
    + by exists id, s, owner, path.
    + rewrite (ok_authority _ _ _ Hc Ho), lookup_empty in Hs. done.
  - intros c' r Hn. split; [by eapply next_evdev_ok|]. intros actions ->.
    unfold capture_next_evdev in Hn. destruct (negb _); [done|].
    destruct (poll_streams ready c) as [[[n id] ev]|]; [|done].
    pose proof (captured_event_no_stop environment routes Henv v id ev (set_c_cursor n c) actions
      (ok_cursor _ _ _ _ Hc)) as Hq.
    destruct (captured_event _ _ _). injection Hn as _ ->. by apply Hq.
  - destruct (proj2 (remote_event_ok routes v event c Hc)) as [actions Ha]. exists actions.
    split; [done|]. by eapply remote_event_no_stop.
Qed.

Lemma pass_complete_frame {W} (bus : Bus W) classifier topology_of object_path c c' devices :
  c_owner c' = c_owner c -> c_sources c' = c_sources c ->
  pass_complete bus classifier topology_of object_path c devices ->
  pass_complete bus classifier topology_of object_path c' devices.
Proof.
  intros Ho Hs (so & ids & w1 & w2 & H1 & H2 & H3 & H4). exists so, ids, w1, w2.
  rewrite Ho, Hs. done.
Qed.

(** A reconcile pass is all or nothing. Either it captured exactly the
    controllers its last discovery identified, under the owner that discovery
    was bound to, each opened through a descriptor that matches the discovered
    one, and it records the device list it verified; or it holds nothing, has
    no settled topology and refuses to send any fact. *)
Theorem reconcile_all_or_nothing {W} (bus : Bus W) classifier topology_of object_path provider
    routes sent c w w' c' :
  capture_reachable routes sent c ->
  capture_reconcile bus classifier topology_of object_path provider w c = (w', c') ->
  (exists devices, pass_complete bus classifier topology_of object_path c' devices /\
     c_settled c' = (if has_sources c' then Some devices else None) /\
     map_Forall (fun _ s => validate_opened_descriptor (ps_descriptor (is_source (cs_identity s)))
                              (oc_descriptor (cs_opened s)) = Ok ()) (c_sources c')) \/
  (c_sources c' = ∅ /\ c_settled c' = None /\ is_err (take_updates c').2 = true).
Proof.
  intros (v & _ & Hc)%capture_reachable_ok Hrun.
  pose proof (capture_reconcile_ok bus classifier topology_of object_path provider routes v w c Hc) as Hc'.
  rewrite Hrun in Hc'. simpl in Hc'. revert Hrun. unfold capture_reconcile.
  destruct (reconcile_pass _ _ _ _ _ w c) as [[w1 c1] r] eqn:Hp.
  apply (reconcile_pass_spec _ _ _ _ _ routes v) in Hp as [Hc1 Hspec]; [|done].
  destruct r as [devices|e].
  - intros [= _ <-]. left. exists devices. specialize (Hspec devices eq_refl).
    destruct Hspec as (so & ids & wa & wb & H1 & H2 & H3 & H4). split_and!.
    + apply (pass_complete_frame bus classifier topology_of object_path c1); [done|done|].
      by exists so, ids, wa, wb.
    + unfold record_settled_topology. simpl. rewrite H3. done.
    + intros id s Hs. apply (ok_sources _ _ _ Hc' id s Hs).
  - intros [= _ <-]. right.
    assert (He : c_sources (capture_source_ambiguous (set_c_updates
        (take (length (c_updates c)) (c_updates (set_c_settled None c1))) (set_c_settled None c1))) = ∅)
      by apply close_sources_empty.
    split; [exact He|]. split; [|done].
    destruct (c_settled _) eqn:Hset; [|done]. exfalso. apply (ok_settled _ _ _ Hc'); [|exact He].
    rewrite Hset. by eexists.
Qed.

(** ** A concrete capture *)

Definition demo_capture_provider : CaptureProvider unit :=
  MkCaptureProvider unit (fun w => (w, Ok (demo_devices "Pad")))
    (fun d w => (w, Ok (MkOpened demo_device neutral))).

Definition demo_owned_capture : CaptureRuntime :=
  capture_set_dbus_owner demo_unique (Some ":1.5") (capture_new routes_default).

Definition demo_captured : CaptureRuntime :=
  (capture_reconcile demo_bus demo_classifier (fun _ => OneGamepad) demo_object_path
     demo_capture_provider () demo_owned_capture).2.

Definition demo_press (e : InputEvent) (id : string) : poll := Some (Some (Ok e)).

Lemma demo_owned_capture_reachable : capture_reachable routes_default [] demo_owned_capture.
Proof. eapply capture_then; [constructor|apply cstep_owner]. Qed.

Lemma demo_captured_reachable : capture_reachable routes_default [] demo_captured.
Proof. eapply capture_then; [apply demo_owned_capture_reachable|apply cstep_reconcile]. Qed.

Lemma capture_tells_the_truth_witness :
  c_updates demo_captured = [PhysicalConnected "aa:bb:cc:dd:ee:ff" "Pad" neutral] /\
  replay ([] ++ c_updates demo_captured) ∅ = Some (facts demo_captured).
Proof.
  split; [vm_compute; reflexivity|].
  destruct (capture_tells_the_truth routes_default [] demo_captured demo_captured_reachable)
    as (_ & _ & Hfacts & _).
  apply Hfacts. vm_compute. reflexivity.
Defined.

Definition demo_message : Message :=
  MkMessage (Some ":1.5") (Some DBUS_TARGET_PATH) (Some DBUS_TARGET_INTERFACE) (Some DBUS_INPUT_MEMBER)
    (Some ("Gamepad:Button:Guide", f64_half)).

Lemma capture_authority_witness :
  is_Some (capture_dbus_message demo_message demo_captured).2 /\
  (forall c' r, capture_next_evdev (demo_press (MkEvent 1 307 1)) demo_captured = Some (c', r) -> is_Some r).
Proof.
  destruct (capture_authority ∅ routes_default [] demo_captured demo_message (demo_press (MkEvent 1 307 1))
    (RemoteDisconnected "c" "l" 0)) as ((actions & Ha & _) & Hev & _).
  - reflexivity.
  - exact demo_captured_reachable.
  - split; [by exists actions|]. intros c' r Hn. exact (proj1 (Hev c' r Hn)).
Defined.

Lemma reconcile_all_or_nothing_witness :
  is_some (c_sources demo_captured !! "aa:bb:cc:dd:ee:ff") = true /\
  exists devices, pass_complete demo_bus demo_classifier (fun _ => OneGamepad) demo_object_path
                    demo_captured devices.
Proof.
  assert (Hs : is_some (c_sources demo_captured !! "aa:bb:cc:dd:ee:ff") = true) by (vm_compute; reflexivity).
  split; [exact Hs|].
  destruct (capture_reconcile demo_bus demo_classifier (fun _ => OneGamepad) demo_object_path
     demo_capture_provider () demo_owned_capture) as [w' c'] eqn:Hrun.
  assert (Hc : demo_captured = c') by (unfold demo_captured; by rewrite Hrun).
  rewrite Hc in Hs |- *.
  destruct (reconcile_all_or_nothing demo_bus demo_classifier (fun _ => OneGamepad) demo_object_path
    demo_capture_provider routes_default [] demo_owned_capture () w' c' demo_owned_capture_reachable Hrun)
    as [(devices & Hp & _)|(He & _)].
  - by exists devices.
  - rewrite He, lookup_empty in Hs. discriminate Hs.
Defined.
