(* ===== verification/Receiver.v ===== *)
(** * The seat receiver (services/inputd/src/input_seat_receiver.rs)

    The event loop in front of [SeatRuntime]: one coordinator connection, one
    lease that binds the mirror of a launch, the mirror socket, and the sidecar
    file that hands the mirror token to the streaming host.

    Sockets, files, the clock and the random generator are the operations of
    [Outside] over a world [W]; what a poll reports for a connection that is
    absent is nothing, as [poll] documents for a negative descriptor. *)

From S2P Require Import Prelude Text Contract SeatPool SeatRuntime.

Definition CONTROL_VERSION : Z := 1.
Definition CONTROL_START : Z := 1.
Definition CONTROL_STOP : Z := 2.
Definition CONTROL_RESET : Z := 3.
Definition CONTROL_BYTES : Z := 34.
Definition REASON_NONE : Z := 0.
Definition REASON_INVALID : Z := 1.
Definition REASON_PEER : Z := 2.
Definition REASON_ACTIVE : Z := 3.
Definition REASON_BACKEND : Z := 4.
Definition REASON_STALE : Z := 5.

(** ** Packets *)

Definition string_of_bytes (l : list Z) : string :=
  of_text (map (fun z => ascii_of_N (Z.to_N z)) l).

Record ControlRequest := MkControl { operation : Z; cr_launch_id : string }.

Definition decode_control (bytes : list Z) : option ControlRequest :=
  if negb (Z.of_nat (length bytes) =? CONTROL_BYTES) then None
  else
    match bytes with
    | version :: operation :: rest =>
        if negb (version =? CONTROL_VERSION) then None
        else
          launch_id ← to_str (string_of_bytes rest);
          if is_ok (validate_launch_id launch_id) then Some (MkControl operation launch_id) else None
    | _ => None
    end.

(** [parse_request] is [serde_json::from_slice] at [SeatRequest]. *)
Definition decode_coordination (parse_request : list Z -> option SeatRequest) (bytes : list Z)
    : option SeatRequest :=
  match bytes with
  | version :: body =>
      if negb (version =? COORDINATION_VERSION) || (MAX_COORDINATION_BYTES <? Z.of_nat (length bytes))
      then None else parse_request body
  | [] => None
  end.

(** The derived [Debug] of [SeatFailure]. *)
Definition failure_debug (failure : SeatFailure) : string :=
  match failure with
  | FInvalid => "Invalid"
  | FNotReady => "NotReady"
  | FActive => "Active"
  | FStale => "Stale"
  | FUnknownSource => "UnknownSource"
  | FRateLimited => "RateLimited"
  | FBackend => "Backend"
  end.

Definition rejected_coordination (failure : SeatFailure) : SeatReply :=
  MkReply [] (Some failure) 0 None true None [] [].

(** ** The outside *)

Inductive Lane : Type := LCoordinator | LLease | LFrame | LConnection.

(** What one poll reports. *)
Record Revents := MkRevents {
  control_in : bool;
  coordinator_in : bool;
  coordinator_hup : bool;
  lease_in : bool;
  lease_hup : bool;
  mirror_in : bool;
}.

(** The sidecar's content: launch, generation and mirror token. *)
Definition sidecar_content : Type := string * Z * string.

Record Outside (W : Type) := MkOutside {
  poll : W -> W * result string (option Revents);
  monotonic_ms : W -> Z;
  receive_packet : Lane -> Z -> W -> W * result string (list Z);
  send_reply : Lane -> Z -> Z -> W -> W * result string unit;
  send_coordination : Lane -> SeatReply -> W -> W * result string unit;
  accept_control : W -> W * result string unit;
  accept_mirror : W -> W * result string unit;
  peer_credentials : Lane -> W -> W * result string (Z * Z);
  random_token : W -> W * result string string;
  bind_mirror : W -> W * result string unit;
  close_mirror : W -> W;
  write_sidecar : sidecar_content -> W -> W * result string unit;
  remove_sidecar : W -> W * result string unit;
  sidecar : W -> option sidecar_content;
}.
Arguments poll {W}.
Arguments monotonic_ms {W}.
Arguments receive_packet {W}.
Arguments send_reply {W}.
Arguments send_coordination {W}.
Arguments accept_control {W}.
Arguments accept_mirror {W}.
Arguments peer_credentials {W}.
Arguments random_token {W}.
Arguments bind_mirror {W}.
Arguments close_mirror {W}.
Arguments write_sidecar {W}.
Arguments remove_sidecar {W}.
Arguments sidecar {W}.

(** What the file system promises of the sidecar, which no other operation
    touches. *)
Class SidecarLaws {W : Type} (o : Outside W) : Prop := {
  sc_write c w w' : write_sidecar o c w = (w', Ok ()) -> sidecar o w' = Some c;
  sc_remove w w' : remove_sidecar o w = (w', Ok ()) -> sidecar o w' = None;
  sc_poll w : sidecar o (poll o w).1 = sidecar o w;
  sc_receive l n w : sidecar o (receive_packet o l n w).1 = sidecar o w;
  sc_reply l s r w : sidecar o (send_reply o l s r w).1 = sidecar o w;
  sc_coordination l r w : sidecar o (send_coordination o l r w).1 = sidecar o w;
  sc_accept_control w : sidecar o (accept_control o w).1 = sidecar o w;
  sc_accept_mirror w : sidecar o (accept_mirror o w).1 = sidecar o w;
  sc_peer l w : sidecar o (peer_credentials o l w).1 = sidecar o w;
  sc_token w : sidecar o (random_token o w).1 = sidecar o w;
  sc_bind w : sidecar o (bind_mirror o w).1 = sidecar o w;
  sc_close w : sidecar o (close_mirror o w) = sidecar o w;
}.

Record Options := MkOptions {
  control_uid : Z;
  control_gid : Z;
  sunshine_uid : Z;
  sunshine_gid : Z;
}.

(** ** The loop *)

Section receiver.
Context {B W : Type} `{SeatBackend B}.
Variable o : Outside W.
Variable options : Options.
Variable parse_request : list Z -> option SeatRequest.
Variable parse_envelope : list Z -> option MirrorEnvelope.

(** The variables of [run]: the coordinator's last request time, the lease's
    launch and the generation. *)
Record Receiver := MkReceiver {
  runtime : SeatRuntime B;
  coordinator : option Z;
  lease : option string;
  generation : Z;
}.

Definition set_runtime (rt : SeatRuntime B) (r : Receiver) : Receiver :=
  MkReceiver rt (coordinator r) (lease r) (generation r).
Definition set_coordinator (c : option Z) (r : Receiver) : Receiver :=
  MkReceiver (runtime r) c (lease r) (generation r).
Definition set_lease (l : option string) (r : Receiver) : Receiver :=
  MkReceiver (runtime r) (coordinator r) l (generation r).
Definition set_generation (g : Z) (r : Receiver) : Receiver :=
  MkReceiver (runtime r) (coordinator r) (lease r) g.

Notation step := (W * Receiver * result string unit)%type.

Definition first_error (a b : result string unit) : result string unit :=
  match a with Ok _ => b | Err e => Err e end.

Definition retire_lease (acknowledge : bool) (w : W) (r : Receiver) : step :=
  let '(rt, result) := unbind (runtime r) in
  let r := set_runtime rt r in
  let '(w, cleanup) := remove_sidecar o w in
  match lease r with
  | None => (w, r, first_error result cleanup)
  | Some _ =>
      let r := set_lease None r in
      let w := close_mirror o w in
      match first_error result cleanup with
      | Err e => (w, r, Err e)
      | Ok _ =>
          if acknowledge then let '(w, _) := send_reply o LLease 0 REASON_NONE w in (w, r, Ok ())
          else (w, r, Ok ())
      end
  end.

Definition lose_coordinator (w : W) (r : Receiver) : step :=
  let r := set_coordinator None r in
  let '(rt, neutral) := coordinator_lost (runtime r) in
  let '(w, r, cleanup) := retire_lease false w (set_runtime rt r) in
  (w, r, first_error neutral cleanup).

(** A coordinator's request: its reply is sent, and a mirror that the request
    revoked takes the lease with it. The connection is lost ([true]) when the
    reply cannot be sent. *)
Definition serve_request (request : SeatRequest) (now : Z) (w : W) (r : Receiver)
    : W * Receiver * result string bool :=
  let r := set_coordinator (Some now) r in
  let '(rt, reply) := coordinate request now (runtime r) in
  let r := set_runtime rt r in
  match (if is_some (lease r) && is_none (mirror_launch rt) then retire_lease false w r
         else (w, r, Ok ())) with
  | (w, r, Err e) => (w, r, Err e)
  | (w, r, Ok _) =>
      let '(w, sent) := send_coordination o LCoordinator reply w in
      if faulted (runtime r) then (w, r, Err "seat backend is uncertain; receiver restart required")
      else (w, r, Ok (is_err sent))
  end.

(** A readable coordinator: its request is served, or it is lost ([true]). *)
Definition serve_coordinator (now : Z) (w : W) (r : Receiver) : W * Receiver * result string bool :=
  let '(w, packet) := receive_packet o LCoordinator (MAX_COORDINATION_BYTES + 1) w in
  match ok packet ≫= decode_coordination parse_request with
  | None | Some Hello => (w, r, Ok true)
  | Some request => serve_request request now w r
  end.

Definition timed_out (now : Z) (r : Receiver) : bool :=
  is_some_and (coordinator r) (fun last => COORDINATOR_TIMEOUT_MS <=? saturating_sub now last).

Definition coordinator_phase (ev : Revents) (now : Z) (w : W) (r : Receiver) : step :=
  let lost := timed_out now r || (is_some (coordinator r) && coordinator_hup ev) in
  match (if negb lost && is_some (coordinator r) && coordinator_in ev then serve_coordinator now w r
         else (w, r, Ok lost)) with
  | (w, r, Err e) => (w, r, Err e)
  | (w, r, Ok lost) => if lost then lose_coordinator w r else (w, r, Ok ())
  end.

(** A command on the lease. *)
Definition lease_command (launch_id : string) (request : option ControlRequest) (w : W) (r : Receiver) : step :=
  match request with
  | None => retire_lease false w r
  | Some request =>
      if (operation request =? CONTROL_STOP) && bool_decide (cr_launch_id request = launch_id)
      then retire_lease true w r
      else if operation request =? CONTROL_RESET then
        let '(rt, outcome) := reset_mirror (cr_launch_id request) (runtime r) in
        let r := set_runtime rt r in
        let '(status, reason) := match outcome with
                                 | RAccepted => (0, REASON_NONE)
                                 | RStaleLaunch => (1, REASON_STALE)
                                 | RBackendFailed => (1, REASON_BACKEND)
                                 end in
        let '(w, sent) := send_reply o LLease status reason w in
        if faulted (runtime r) then (w, r, Err "seat reset failed")
        else if is_err sent then retire_lease false w r else (w, r, Ok ())
      else
        let reason := if operation request =? CONTROL_STOP then REASON_STALE else REASON_INVALID in
        let '(w, sent) := send_reply o LLease 1 reason w in
        if is_err sent then retire_lease false w r else (w, r, Ok ())
  end.

(** [readable] and [hup] are what the poll reported of the lease it watched. *)
Definition lease_phase (readable hup : bool) (w : W) (r : Receiver) : step :=
  match (match lease r with
         | Some launch_id =>
             if readable then
               let '(w, packet) := receive_packet o LLease (CONTROL_BYTES + 1) w in
               lease_command launch_id (ok packet ≫= decode_control) w r
             else (w, r, Ok ())
         | None => (w, r, Ok ())
         end) with
  | (w, r, Err e) => (w, r, Err e)
  | (w, r, Ok _) => if hup then retire_lease false w r else (w, r, Ok ())
  end.

Definition mirror_phase (readable : bool) (now : Z) (w : W) (r : Receiver) : step :=
  if negb readable || is_none (lease r) then (w, r, Ok ())
  else
    match accept_mirror o w with
    | (w, Err _) => (w, r, Ok ())
    | (w, Ok _) =>
        match peer_credentials o LFrame w with
        | (w, Err e) => (w, r, Err e)
        | (w, Ok peer) =>
            if negb (bool_decide (peer = (sunshine_uid options, sunshine_gid options))) then (w, r, Ok ())
            else
              match receive_packet o LFrame (MAX_MIRROR_FRAME_BYTES + 1) w with
              | (w, Err _) => (w, r, Ok ())
              | (w, Ok packet) =>
                  let '(rt, outcome) := accept parse_envelope packet now (runtime r) in
                  let r := set_runtime rt r in
                  if bool_decide (outcome = MBackendFailed)
                  then (w, r, Err "input-seat backend write failed") else (w, r, Ok ())
              end
        end
    end.

Definition expiry_phase (now : Z) (w : W) (r : Receiver) : step :=
  match expire_stale now (runtime r) with
  | (rt, Err e) => (w, set_runtime rt r, Err ("source expiry failed: " +:+ failure_debug e))
  | (rt, Ok _) =>
      let r := set_runtime rt r in
      if feedback_failed rt then lose_coordinator w r else (w, r, Ok ())
  end.

(** A coordinator introduces itself. *)
Definition hello (packet : list Z) (now : Z) (w : W) (r : Receiver) : step :=
  if negb (bool_decide (decode_coordination parse_request packet = Some Hello)) then
    let '(w, _) := send_coordination o LConnection (rejected_coordination FInvalid) w in (w, r, Ok ())
  else if is_some (coordinator r) then
    let '(w, _) := send_coordination o LConnection (rejected_coordination FActive) w in (w, r, Ok ())
  else
    let '(rt, reply) := coordinate Hello now (runtime r) in
    let r := set_runtime rt r in
    let '(w, sent) := send_coordination o LConnection reply w in
    (w, if is_ok sent then set_coordinator (Some now) r else r, Ok ()).

(** START: bind the launch, publish its token, take the lease. *)
Definition start_lease (launch_id : string) (w : W) (r : Receiver) : step :=
  match random_token o w with
  | (w, Err e) => (w, r, Err e)
  | (w, Ok token) =>
      match bind launch_id token (runtime r) with
      | (rt, Err _) =>
          let '(w, _) := send_reply o LConnection 1 REASON_BACKEND w in (w, set_runtime rt r, Ok ())
      | (rt, Ok _) =>
          let r := set_runtime rt r in
          if u64_max <? generation r + 1 then (w, r, Err "input-seat generation overflow")
          else
            let r := set_generation (generation r + 1) r in
            match bind_mirror o w with
            | (w, Err e) => (w, r, Err e)
            | (w, Ok _) =>
                match write_sidecar o (launch_id, generation r, token) w with
                | (w, Err e) => (close_mirror o w, r, Err e)
                | (w, Ok _) =>
                    let r := set_lease (Some launch_id) r in
                    let '(w, sent) := send_reply o LLease 0 REASON_NONE w in
                    if is_err sent then retire_lease false w r else (w, r, Ok ())
                end
            end
      end
  end.

Definition control_request (packet : list Z) (now : Z) (w : W) (r : Receiver) : step :=
  if bool_decide (head packet = Some COORDINATION_VERSION) then hello packet now w r
  else
    let refuse reason := let '(w, _) := send_reply o LConnection 1 reason w in (w, r, Ok ()) in
    match decode_control packet with
    | None => refuse REASON_INVALID
    | Some request =>
        if is_some (lease r) then refuse REASON_ACTIVE
        else if negb (operation request =? CONTROL_START) then refuse REASON_INVALID
        else if is_none (coordinator r) then refuse REASON_BACKEND
        else start_lease (cr_launch_id request) w r
    end.

Definition control_phase (readable : bool) (now : Z) (w : W) (r : Receiver) : step :=
  if negb readable then (w, r, Ok ())
  else
    match accept_control o w with
    | (w, Err _) => (w, r, Ok ())
    | (w, Ok _) =>
        match peer_credentials o LConnection w with
        | (w, Err e) => (w, r, Err e)
        | (w, Ok peer) =>
            if negb (bool_decide (peer = (control_uid options, control_gid options))) then
              let '(w, _) := receive_packet o LConnection (MAX_COORDINATION_BYTES + 1) w in
              let '(w, _) := send_reply o LConnection 1 REASON_PEER w in (w, r, Ok ())
            else
              match receive_packet o LConnection (MAX_COORDINATION_BYTES + 1) w with
              | (w, Err _) => (w, r, Ok ())
              | (w, Ok packet) => control_request packet now w r
              end
        end
    end.

Notation "'phase!' w r '<-' e ';;' k" :=
  (match e with
   | (w, r, Ok _) => k
   | (w, r, Err er) => (w, r, Err er)
   end) (at level 10, w name, r name, e at level 99, k at level 200).

(** One iteration of the loop. *)
Definition turn (w : W) (r : Receiver) : step :=
  match poll o w with
  | (w, Err e) => (w, r, Err e)
  | (w, Ok None) => (w, r, Ok ())
  | (w, Ok (Some ev)) =>
      let now := monotonic_ms o w in
      let watched := is_some (lease r) in
      phase! w r <- coordinator_phase ev now w r ;;
      phase! w r <- lease_phase (watched && lease_in ev) (watched && lease_hup ev) w r ;;
      phase! w r <- mirror_phase (watched && mirror_in ev) now w r ;;
      phase! w r <- expiry_phase now w r ;;
      control_phase (control_in ev) now w r
  end.

(** The artifacts of authority are removed on every way out of the loop. *)
Definition shutdown (result : result string unit) (w : W) (r : Receiver) : step :=
  let '(w, r, cleanup) := retire_lease false w r in
  let '(rt, neutral) := coordinator_lost (runtime r) in
  (w, set_runtime rt r, first_error (first_error result cleanup) neutral).

(** The loop, up to [fuel] turns; it ends when a turn fails or a signal asked it
    to stop. *)
Variable stopping : W -> bool.

Fixpoint serve (fuel : nat) (w : W) (r : Receiver) : W * Receiver * option (result string unit) :=
  if stopping w then let '(w, r, result) := shutdown (Ok ()) w r in (w, r, Some result)
  else
    match fuel with
    | O => (w, r, None)
    | S fuel =>
        match turn w r with
        | (w, r, Ok _) => serve fuel w r
        | (w, r, Err e) => let '(w, r, result) := shutdown (Err e) w r in (w, r, Some result)
        end
    end.
End receiver.

(** ** What the runtime's operations do to the mirror *)

Section mirror.
Context {B : Type} `{SeatBackendLaws B}.
Implicit Types rt : SeatRuntime B.

(** The mirror is kept or revoked, never replaced. *)
Definition mirror_kept rt rt' : Prop := mirror rt' = mirror rt \/ mirror rt' = None.

Lemma kept_trans rt1 rt2 rt3 : mirror_kept rt1 rt2 -> mirror_kept rt2 rt3 -> mirror_kept rt1 rt3.
Proof. unfold mirror_kept. intros [-> | ->] [-> | ->]; auto. Qed.

Lemma framed_kept rt rt' : framed rt rt' -> mirror_kept rt rt'.
Proof. intros Hf. left. apply (fr_mirror _ _ Hf). Qed.

Lemma on_pool_kept {A} (op : SeatPool SourceKey B -> SeatPool SourceKey B * result PoolError A) rt :
  mirror_kept rt (on_pool op rt).1.
Proof. unfold on_pool. destruct (op (pool rt)). by left. Qed.

Lemma unbind_mirror rt : mirror (unbind rt).1 = None.
Proof.
  unfold unbind. set (keys := keep _ _). pose proof (disconnect_keys_framed keys (set_mirror None rt)) as Hf.
  destruct (disconnect_keys keys (set_mirror None rt)) as [rt1 []]; apply (fr_mirror _ _ Hf).
Qed.

Lemma set_route_kept g rt : mirror_kept rt (set_route g rt).1.
Proof.
  unfold set_route. set (rt1 := set_sources _ _).
  pose proof (on_pool_kept neutralize rt1) as Hk. destruct (on_pool neutralize rt1) as [rt2 []]; exact Hk.
Qed.

Lemma end_session_kept id rt : mirror_kept rt (end_session_request id rt).1.
Proof.
  unfold end_session_request. destruct (negb _); [by left|].
  assert (Hlost : forall rt1 rt2, mirror rt1 = None -> mirror_kept rt1 rt2 -> mirror rt2 = None)
    by (intros rt1 rt2 Hm [Hk | Hk]; congruence).
  pose proof (unbind_mirror rt) as Hu. destruct (unbind rt) as [rt1 [[]|e]]; simpl in *; [|by right].
  pose proof (Hlost rt1 _ Hu (set_route_kept false rt1)) as M2.
  destruct (set_route false rt1) as [rt2 [[]|e]]; simpl in *; [|by right].
  pose proof (Hlost rt2 _ M2 (on_pool_kept (end_session id) rt2)) as M3.
  destruct (on_pool (end_session id) rt2) as [rt3 [u|e]]; simpl in *; [|by right].
  pose proof (rebalance_framed (set_seat_order Attached rt3)) as Hf.
  right. destruct (rebalance (set_seat_order Attached rt3)) as [rt4 [[]|e]]; simpl in *;
    rewrite (fr_mirror _ _ Hf); exact M3.
Qed.

Lemma apply_kept request now rt : mirror_kept rt (apply request now rt).1.
Proof.
  unfold apply. destruct (faulted rt); [by left|]. destruct request; try (by left).
  - unfold apply_count. destruct (_ =? 0); [by left|].
    pose proof (on_pool_kept (resize count) rt) as H1.
    destruct (on_pool (resize count) rt) as [rt1 [u|e]]; simpl in *; [|done].
    pose proof (framed_kept _ _ (rebalance_framed rt1)) as Hf.
    destruct (rebalance rt1) as [rt2 [[]|e]]; exact (kept_trans _ _ _ H1 Hf).
  - unfold begin_session_request. destruct (is_err _); [by left|]. destruct (_ && _); [by left|].
    destruct (require_ready rt); [|by left].
    pose proof (on_pool_kept (begin_session launch_id) rt) as H1.
    destruct (on_pool (begin_session launch_id) rt) as [rt1 [u|e]]; simpl in *; [|done].
    destruct (bool_decide _); [|done].
    pose proof (on_pool_kept (release_all launch_id) (set_seat_order seat_order rt1)) as H2.
    destruct (on_pool (release_all launch_id) (set_seat_order seat_order rt1)) as [rt2 [u2|e]];
      exact (kept_trans _ _ _ H1 H2).
  - unfold reserve_netplay. destruct (require_ready rt); [|by left].
    destruct (_ || _); [by left|]. destruct (negb _); [by left|]. destruct (has_binding _ _); [by left|].
    match goal with |- context [on_pool ?op rt] =>
      pose proof (on_pool_kept op rt) as H1; destruct (on_pool op rt) as [rt1 [u|e]]; exact H1 end.
  - apply end_session_kept.
  - unfold route_request. destruct (require_ready rt); [|by left]. destruct (is_some_and _ _); [by left|].
    pose proof (set_route_kept (is_some launch_id) rt) as H1.
    destruct (set_route (is_some launch_id) rt) as [rt1 [u|e]]; exact H1.
  - unfold physical_connected. destruct (require_ready rt); [|by left]. destruct (_ || _); [by left|].
    destruct (is_some _); [by left|]. destruct (_ <=? _); [by left|].
    pose proof (connect_source_framed (KPhysical device_id) state now true rt) as Hf.
    destruct (connect_source (KPhysical device_id) state now true rt) as [rt1 [slot|e]]; simpl in *;
      left; apply (fr_mirror _ _ Hf).
  - destruct (require_ready rt); [|by left]. destruct (negb _); [by left|].
    apply framed_kept, update_source_framed.
  - destruct (require_ready rt); [|by left].
    pose proof (disconnect_source_framed (KPhysical device_id) rt) as Hf.
    destruct (disconnect_source (KPhysical device_id) rt) as [rt1 [u|e]]; simpl in *;
      left; apply (fr_mirror _ _ Hf).
Qed.

Lemma coordinate_kept request now rt : mirror_kept rt (coordinate request now rt).1.
Proof.
  unfold coordinate. pose proof (apply_kept request now rt) as Hk.
  destruct (apply request now rt) as [rt1 result]. simpl in Hk.
  destruct (occupied_event_devices _ _); cbn [fst]; case_bool_decide; exact Hk.
Qed.

Lemma accept_mirror_same parse packet now rt : mirror (accept parse packet now rt).1 = mirror rt.
Proof.
  unfold accept. destruct (faulted rt); [done|]. destruct (feedback_failed rt); [done|].
  destruct (mirror rt) as [[launch token]|] eqn:Hm; [|done].
  destruct (decode_envelope parse packet) as [env|]; [|done].
  destruct (negb _); [done|]. destruct (negb _); [done|]. destruct (negb _); [done|].
  destruct (decode_frame _) as [[[n st] d]|]; [|done]. destruct (15 <? n); [done|].
  match goal with |- context [accept_frame ?k st d now rt] =>
    pose proof (accept_frame_framed k st d now rt) as Hf; destruct (accept_frame k st d now rt) as [rt1 r] end.
  simpl in Hf. pose proof (fr_mirror _ _ Hf) as Hm1. rewrite Hm in Hm1.
  destruct (feedback_failed rt1); [done|]. destruct r as [[slot|]|[]]; done.
Qed.

Lemma reset_mirror_same id rt : mirror (reset_mirror id rt).1 = mirror rt.
Proof.
  unfold reset_mirror. destruct (faulted rt); [done|]. destruct (negb _); [done|].
  match goal with |- context [reset_keys ?l rt] =>
    pose proof (reset_keys_framed l rt) as Hf; destruct (reset_keys l rt) as [rt1 []] end;
    apply (fr_mirror _ _ Hf).
Qed.

Lemma expire_mirror_same now rt : mirror (expire_stale now rt).1 = mirror rt.
Proof.
  unfold expire_stale. generalize ((keep (fun kv : SourceKey * Source => is_stale now kv.2)
    (btree_entries (sources rt))).*1) as keys. intros keys.
  assert (He : mirror (expire_keys keys rt).1 = mirror rt).
  { revert rt; induction keys as [|k keys IH]; intros rt; simpl; [done|].
    pose proof (disconnect_source_framed k rt) as Hf. destruct (disconnect_source k rt) as [rt1 [u|e]]; simpl in *.
    - rewrite IH. apply (fr_mirror _ _ Hf).
    - apply (fr_mirror _ _ Hf). }
  destruct (expire_keys keys rt) as [rt1 [u|e]]; exact He.
Qed.

Lemma coordinator_lost_mirror rt :
  mirror (coordinator_lost rt).1 = None /\ sources (coordinator_lost rt).1 = ∅ /\
  game_route (coordinator_lost rt).1 = false /\ feedback_failed (coordinator_lost rt).1 = false.
Proof.
  destruct (coordinator_lost rt) as [rt' r] eqn:Hlost.
  apply coordinator_lost_cases in Hlost as (rt2 & Hf & Hs & Hr).
  pose proof (fr_mirror _ _ Hf) as Hm. pose proof (fr_route _ _ Hf) as Hg.
  destruct r as [u|e]; [destruct Hr as [-> _]|subst rt']; by split_and!.
Qed.

Lemma bind_mirror_cases l t rt :
  match bind l t rt with
  | (rt', Ok _) => mirror rt' = Some (l, t) /\ mirror rt = None /\ rt' = set_mirror (Some (l, t)) rt /\
                   feedback_failed rt = false
  | (rt', Err _) => rt' = rt
  end.
Proof.
  unfold bind, require_ready. destruct (recovery_required rt || faulted rt || feedback_failed rt) eqn:Hr; [done|].
  apply orb_false_elim in Hr as [_ Hr].
  destruct (validate_launch_id l); [|done]. destruct (validate_token t); [|done]. destruct (negb _); [done|].
  destruct (mirror rt) eqn:Hm; [done|]. simpl. by split_and!.
Qed.
End mirror.

(** ** The invariant of the loop *)

Section loop.
Context {B W : Type} `{SeatBackendLaws B}.
Variable o : Outside W.
Context `{!SidecarLaws o}.
Variable options : Options.
Variable parse_request : list Z -> option SeatRequest.
Variable parse_envelope : list Z -> option MirrorEnvelope.
(** [serde] yields fields of the request's integer types. *)
Hypothesis typed : forall l request, parse_request l = Some request -> request_in_range request.

Notation Receiver := (Receiver (B:=B)).
Notation reach r := (rt_reachable parse_envelope (runtime r)).

(** The sidecar names the bound mirror, and nothing when none is bound. *)
Definition published (r : Receiver) : option sidecar_content :=
  (fun '(launch, token) => (launch, generation r, token)) <$> mirror (runtime r).

(** Between phases. *)
Record mid_ok (w : W) (r : Receiver) : Prop := {
  mo_reach : reach r;
  mo_lease : mirror_launch (runtime r) = lease r;
  mo_coordinator : is_Some (lease r) -> is_Some (coordinator r);
  mo_generation : 0 <= generation r <= u64_max;
  mo_sidecar : sidecar o w = published r;
}.

(** At the head of the loop the feedback is intact too. *)
Definition head_ok (w : W) (r : Receiver) : Prop := mid_ok w r /\ feedback_failed (runtime r) = false.

(** A phase keeps the runtime reachable on every exit, and the invariant when
    the loop goes on. *)
Definition sound_phase (w : W) (r : Receiver) (out : W * Receiver * result string unit) : Prop :=
  reach out.1.2 /\ (out.2 = Ok () -> mid_ok out.1.1 out.1.2).

Lemma unbind_reach r : reach r -> rt_reachable parse_envelope (unbind (runtime r)).1.
Proof. intros Hr. eapply rr_step; [exact Hr|apply st_unbind]. Qed.

(** A change of the runtime that keeps its mirror. *)
Lemma mid_runtime w w' r rt :
  mid_ok w r -> rt_reachable parse_envelope rt -> mirror rt = mirror (runtime r) ->
  sidecar o w' = sidecar o w -> mid_ok w' (set_runtime rt r).
Proof.
  intros [] Hr Hm Hs. split; simpl; try done.
  - unfold mirror_launch in *. by rewrite Hm.
  - unfold published in *. simpl. by rewrite Hs, Hm.
Qed.

Lemma mid_world w w' r : mid_ok w r -> sidecar o w' = sidecar o w -> mid_ok w' r.
Proof. intros [] Hs. split; try done. by rewrite Hs. Qed.

Lemma mid_same_runtime w r : mid_ok w r -> mid_ok w (set_runtime (runtime r) r).
Proof. intros []. by split. Qed.

Lemma mid_coordinator w r now : mid_ok w r -> mid_ok w (set_coordinator (Some now) r).
Proof. intros []. split; try done. Qed.

Lemma retire_cases ack w r w' r' res :
  retire_lease o ack w r = (w', r', res) ->
  runtime r' = (unbind (runtime r)).1 /\ lease r' = None /\ coordinator r' = coordinator r /\
  generation r' = generation r /\ (res = Ok () -> (unbind (runtime r)).2 = Ok () /\ sidecar o w' = None).
Proof.
  unfold retire_lease. destruct (unbind (runtime r)) as [rt result] eqn:Hu.
  destruct (remove_sidecar o w) as [w1 cleanup] eqn:Hrem.
  change (lease (set_runtime rt r)) with (lease r). destruct (lease r) as [l|] eqn:Hl.
  - destruct result as [[]|e]; simpl.
    + destruct cleanup as [[]|e]; simpl.
      * destruct ack.
        -- match goal with |- context [send_reply o ?l ?s ?x ?w] =>
             pose proof (sc_reply l s x w) as Hs; destruct (send_reply o l s x w) as [w2 y] end.
           intros [= <- <- <-]. simpl in *. split_and!; try done. intros _. split; [done|].
           rewrite Hs, sc_close. by eapply sc_remove.
        -- intros [= <- <- <-]. simpl. split_and!; try done. intros _. split; [done|].
           rewrite sc_close. by eapply sc_remove.
      * intros [= <- <- <-]. by simpl.
    + intros [= <- <- <-]. by simpl.
  - intros [= <- <- <-]. simpl. split_and!; try done. destruct result as [[]|e]; simpl; [|done].
    destruct cleanup as [[]|e]; simpl; [|done]. intros _. split; [done|]. by eapply sc_remove.
Qed.

Lemma retire_sound ack w r :
  reach r -> 0 <= generation r <= u64_max -> sound_phase w r (retire_lease o ack w r).
Proof.
  intros Hr Hg. destruct (retire_lease o ack w r) as [[w' r'] res] eqn:Hrun.
  apply retire_cases in Hrun as (Hrt & Hl & _ & Hgen & Hok). unfold sound_phase. simpl.
  assert (Hreach : reach r') by (rewrite Hrt; by apply unbind_reach).
  split; [done|]. intros Hres. destruct (Hok Hres) as [_ Hside].
  assert (Hm : mirror (runtime r') = None) by (rewrite Hrt; apply unbind_mirror).
  split; [done| | |by rewrite Hgen|].
  - unfold mirror_launch. by rewrite Hm, Hl.
  - rewrite Hl. by intros [? ?].
  - unfold published. by rewrite Hm, Hside.
Qed.

Lemma lose_sound w r :
  reach r -> 0 <= generation r <= u64_max -> sound_phase w r (lose_coordinator o w r).
Proof.
  intros Hr Hg. unfold lose_coordinator.
  pose proof (rr_step parse_envelope _ _ Hr (st_lost parse_envelope (runtime r))) as Hr1.
  change (runtime (set_coordinator None r)) with (runtime r).
  destruct (coordinator_lost (runtime r)) as [rt neutral]. simpl in Hr1.
  pose proof (retire_sound false w (set_runtime rt (set_coordinator None r)) Hr1 Hg) as [H1 H2].
  destruct (retire_lease o false w _) as [[w' r'] cleanup]. simpl in *. split; [done|]. simpl.
  destruct neutral; [|done]. simpl. apply H2.
Qed.

(** Losing the coordinator leaves no failed feedback. *)
Lemma unbind_no_sources (rt : SeatRuntime B) :
  (forall l c n, sources rt !! KRemote l c n = None) -> unbind rt = (set_mirror None rt, Ok ()).
Proof.
  intros Hn. unfold unbind. cbn [set_mirror sources].
  assert (Hk : keep is_remote (btree_keys (sources rt)) = []).
  { destruct (keep is_remote (btree_keys (sources rt))) as [|k l] eqn:Hk; [done|].
    assert (Hin : k ∈ keep is_remote (btree_keys (sources rt))) by (rewrite Hk; left).
    apply elem_of_keep in Hin as [Hin Hrem]. apply elem_of_btree_keys in Hin as [s Hs].
    destruct k as [d|d|l0 c n]; [done..|]. by rewrite Hn in Hs. }
  rewrite Hk. done.
Qed.

Lemma lose_feedback w r w' r' res :
  lose_coordinator o w r = (w', r', res) -> feedback_failed (runtime r') = false.
Proof.
  unfold lose_coordinator. change (runtime (set_coordinator None r)) with (runtime r).
  pose proof (coordinator_lost_mirror (runtime r)) as (Hm & Hs & _ & Hf).
  destruct (coordinator_lost (runtime r)) as [rt neutral]. simpl in Hm, Hs, Hf.
  destruct (retire_lease o false w _) as [[w1 r1] cleanup] eqn:Hret. intros [= _ <- _].
  apply retire_cases in Hret as (-> & _). simpl. rewrite unbind_no_sources; [done|].
  intros l c n. by rewrite Hs.
Qed.

(** What serving the coordinator keeps; [true] in the result asks for its loss. *)
Definition sound_service (out : W * Receiver * result string bool) : Prop :=
  reach out.1.2 /\ 0 <= generation out.1.2 <= u64_max /\ (is_ok out.2 = true -> mid_ok out.1.1 out.1.2).

(** A request keeps the mirror, or revokes it and the lease goes too. *)
Lemma revoked_lease_sound w r rt :
  mid_ok w r -> rt_reachable parse_envelope rt -> mirror_kept (runtime r) rt ->
  let r' := set_runtime rt r in
  let out := if is_some (lease r') && is_none (mirror_launch rt) then retire_lease o false w r'
             else (w, r', Ok ()) in
  sound_phase w r out /\ generation out.1.2 = generation r.
Proof.
  intros Hmid Hr Hk r' out. unfold out. pose proof (mo_generation _ _ Hmid) as Hg.
  destruct (_ && _) eqn:Hret.
  - split; [by apply (retire_sound false w r')|].
    destruct (retire_lease o false w r') as [[w2 r2] x] eqn:Hrun.
    apply retire_cases in Hrun as (_ & _ & _ & Hgen & _). exact Hgen.
  - split; [|done]. split; [done|]. intros _. apply (mid_runtime w w r rt); try done.
    destruct Hk as [Hk | Hk]; [done|]. rewrite Hk.
    unfold mirror_launch in Hret. rewrite Hk in Hret. simpl in Hret. rewrite andb_true_r in Hret.
    pose proof (mo_lease _ _ Hmid) as Hl. unfold mirror_launch in Hl.
    destruct (mirror (runtime r)); [|done]. simpl in Hl. by rewrite <- Hl in Hret.
Qed.

Lemma serve_request_sound request now w r :
  mid_ok w r -> request_in_range request -> sound_service (serve_request o request now w r).
Proof.
  intros Hmid Hrange. unfold serve_request. set (r1 := set_coordinator (Some now) r).
  pose proof (coordinate_kept request now (runtime r1)) as Hk.
  pose proof (rr_step parse_envelope _ _ (mo_reach _ _ Hmid)
                (st_coordinate parse_envelope (runtime r) request now Hrange)) as Hr1.
  change (runtime r1) with (runtime r) in *.
  destruct (coordinate request now (runtime r)) as [rt reply]. simpl in Hk, Hr1.
  pose proof (mo_generation _ _ Hmid) as Hg.
  pose proof (revoked_lease_sound w r1 rt (mid_coordinator w r now Hmid) Hr1 Hk) as [[Hs1 Hs2] Hgen].
  destruct (if is_some (lease (set_runtime rt r1)) && is_none (mirror_launch rt) then _ else _)
    as [[w2 r2] [[]|e]]; simpl in Hs1, Hs2, Hgen.
  2: { unfold sound_service. simpl. rewrite Hgen. done. }
  specialize (Hs2 eq_refl).
  pose proof (sc_coordination LCoordinator reply w2) as Hw2.
  destruct (send_coordination o LCoordinator reply w2) as [w3 sent]. simpl in Hw2.
  unfold sound_service. destruct (faulted (runtime r2)); simpl; rewrite Hgen; split_and!; try done; try apply Hg.
  intros _. by eapply mid_world.
Qed.

Lemma serve_coordinator_sound now w r :
  mid_ok w r -> sound_service (serve_coordinator o parse_request now w r).
Proof.
  intros Hmid. unfold serve_coordinator.
  pose proof (sc_receive LCoordinator (MAX_COORDINATION_BYTES + 1) w) as Hw.
  destruct (receive_packet o LCoordinator _ w) as [w1 packet]. simpl in Hw.
  assert (Hmid1 : mid_ok w1 r) by (by eapply mid_world).
  assert (Hlost : sound_service (w1, r, Ok true)) by (destruct Hmid1; done).
  destruct (ok packet ≫= decode_coordination parse_request) as [request|] eqn:Hreq; [|exact Hlost].
  assert (Hrange : request_in_range request).
  { destruct (ok packet) as [l|]; [|done]. simpl in Hreq. unfold decode_coordination in Hreq.
    destruct l; [done|]. destruct (_ || _); [done|]. by eapply typed. }
  destruct request; [exact Hlost|by apply serve_request_sound..].
Qed.

Lemma coordinator_phase_sound ev now w r :
  mid_ok w r -> sound_phase w r (coordinator_phase o parse_request ev now w r).
Proof.
  intros Hmid. unfold coordinator_phase.
  set (lost := timed_out now r || _).
  destruct (negb lost && is_some (coordinator r) && coordinator_in ev).
  - pose proof (serve_coordinator_sound now w r Hmid) as (H1 & H2 & H3).
    destruct (serve_coordinator o parse_request now w r) as [[w1 r1] [b|e]]; simpl in *; [|by split].
    destruct b; [by apply lose_sound|]. split; [done|]. intros _. by apply H3.
  - destruct lost; [apply lose_sound; apply Hmid|]. split; [apply Hmid|done].
Qed.

(** Dropping the lease after a send that failed. *)
Lemma retire_if_sound ack (failed : bool) w w1 r :
  mid_ok w r -> sidecar o w1 = sidecar o w ->
  sound_phase w r (if failed then retire_lease o ack w1 r else (w1, r, Ok ())).
Proof.
  intros Hmid Hs. destruct failed.
  - apply (retire_sound ack w1 r); apply Hmid.
  - split; [apply Hmid|]. intros _. by eapply mid_world.
Qed.

Lemma lease_command_sound l request w r : mid_ok w r -> sound_phase w r (lease_command o l request w r).
Proof.
  intros Hmid. unfold lease_command. destruct request as [request|]; [|apply retire_sound; apply Hmid].
  destruct (_ && _); [apply retire_sound; apply Hmid|]. destruct (operation request =? CONTROL_RESET).
  - pose proof (rr_step parse_envelope _ _ (mo_reach _ _ Hmid)
                  (st_reset parse_envelope (runtime r) (cr_launch_id request))) as Hr1.
    pose proof (reset_mirror_same (cr_launch_id request) (runtime r)) as Hm.
    destruct (reset_mirror (cr_launch_id request) (runtime r)) as [rt outcome]. simpl in Hr1, Hm.
    destruct (match outcome with RAccepted => _ | _ => _ end) as [status reason].
    pose proof (sc_reply LLease status reason w) as Hs.
    destruct (send_reply o LLease status reason w) as [w1 sent]. simpl in Hs.
    change (runtime (set_runtime rt r)) with rt. destruct (faulted rt); [by split|].
    apply (retire_if_sound false (is_err sent) w w1); [|done]. by apply (mid_runtime w w).
  - match goal with |- context [send_reply o ?l ?s ?x w] =>
      pose proof (sc_reply l s x w) as Hs; destruct (send_reply o l s x w) as [w1 sent] end.
    by apply (retire_if_sound false (is_err sent) w w1).
Qed.

(** A phase that follows another. *)
Lemma sound_then w r out (k : W -> Receiver -> W * Receiver * result string unit) :
  sound_phase w r out -> (forall w1 r1, mid_ok w1 r1 -> sound_phase w1 r1 (k w1 r1)) ->
  sound_phase w r (match out with (w, r, Err e) => (w, r, Err e) | (w, r, Ok _) => k w r end).
Proof.
  intros [H1 H2] Hk. destruct out as [[w1 r1] [[]|e]]; simpl in *; [|by split]. by apply Hk, H2.
Qed.

Lemma stay_sound w r : mid_ok w r -> sound_phase w r (w, r, Ok ()).
Proof. intros Hmid. split; [apply Hmid|done]. Qed.

Lemma lease_phase_sound readable hup w r : mid_ok w r -> sound_phase w r (lease_phase o readable hup w r).
Proof.
  intros Hmid. unfold lease_phase.
  apply (sound_then w r _ (fun w r => if hup then retire_lease o false w r else (w, r, Ok ()))).
  - destruct (lease r) as [l|]; [|by apply stay_sound]. destruct readable; [|by apply stay_sound].
    pose proof (sc_receive LLease (CONTROL_BYTES + 1) w) as Hs.
    destruct (receive_packet o LLease _ w) as [w1 packet]. simpl in Hs.
    by apply (lease_command_sound l (ok packet ≫= decode_control) w1 r), (mid_world w).
  - intros w1 r1 H1. by apply (retire_if_sound false hup w1 w1).
Qed.

Lemma mirror_phase_sound readable now w r :
  mid_ok w r -> sound_phase w r (mirror_phase o options parse_envelope readable now w r).
Proof.
  intros Hmid. unfold mirror_phase. destruct (_ || _); [by apply stay_sound|].
  pose proof (sc_accept_mirror w) as H1. destruct (accept_mirror o w) as [w1 [u|e]]; simpl in H1;
    (assert (Hmid1 : mid_ok w1 r) by (by eapply mid_world)); [|by apply stay_sound].
  pose proof (sc_peer LFrame w1) as H2. destruct (peer_credentials o LFrame w1) as [w2 [peer|e]]; simpl in H2;
    (assert (Hmid2 : mid_ok w2 r) by (by eapply mid_world)); [|by split; [apply Hmid2|]].
  destruct (negb _); [by apply stay_sound|].
  pose proof (sc_receive LFrame (MAX_MIRROR_FRAME_BYTES + 1) w2) as H3.
  destruct (receive_packet o LFrame _ w2) as [w3 [packet|e]]; simpl in H3;
    (assert (Hmid3 : mid_ok w3 r) by (by eapply mid_world)); [|by apply stay_sound].
  pose proof (rr_step parse_envelope _ _ (mo_reach _ _ Hmid3)
                (st_accept parse_envelope (runtime r) packet now)) as Hr1.
  pose proof (accept_mirror_same parse_envelope packet now (runtime r)) as Hm.
  destruct (accept parse_envelope packet now (runtime r)) as [rt outcome]. simpl in Hr1, Hm.
  assert (Hend : mid_ok w3 (set_runtime rt r)) by (by apply (mid_runtime w3 w3)).
  case_bool_decide; [by split|]. by apply stay_sound.
Qed.

(** The expiry phase ends with intact feedback. *)
Lemma expiry_phase_sound now w r :
  mid_ok w r ->
  sound_phase w r (expiry_phase o now w r) /\
  ((expiry_phase o now w r).2 = Ok () -> feedback_failed (runtime (expiry_phase o now w r).1.2) = false).
Proof.
  intros Hmid. unfold expiry_phase.
  pose proof (rr_step parse_envelope _ _ (mo_reach _ _ Hmid) (st_expire parse_envelope (runtime r) now)) as Hr1.
  pose proof (expire_mirror_same now (runtime r)) as Hm.
  destruct (expire_stale now (runtime r)) as [rt [n|e]]; simpl in Hr1, Hm; [|by split; [split|]].
  assert (Hend : mid_ok w (set_runtime rt r)) by (by apply (mid_runtime w w)).
  destruct (feedback_failed rt) eqn:Hf.
  - split; [by apply (lose_sound w (set_runtime rt r)); apply Hend|].
    destruct (lose_coordinator o w (set_runtime rt r)) as [[w1 r1] res] eqn:Hl. intros _.
    by eapply lose_feedback.
  - split; [by apply (stay_sound w (set_runtime rt r))|done].
Qed.

(** A phase that leaves the loop head's invariant. *)
Definition sound_head (out : W * Receiver * result string unit) : Prop :=
  reach out.1.2 /\ (out.2 = Ok () -> head_ok out.1.1 out.1.2).

Lemma stay_head w r : head_ok w r -> sound_head (w, r, Ok ()).
Proof. intros Hh. split; [apply Hh|done]. Qed.

Lemma world_head w w' r : head_ok w r -> sidecar o w' = sidecar o w -> head_ok w' r.
Proof. intros [Hm Hf] Hs. split; [by eapply mid_world|done]. Qed.

Lemma hello_feedback now (rt : SeatRuntime B) :
  feedback_failed (coordinate Hello now rt).1 = feedback_failed rt.
Proof.
  unfold coordinate, apply. destruct (faulted rt); (destruct (occupied_event_devices _ _));
    cbn [fst]; case_bool_decide; done.
Qed.

Lemma hello_mirror now (rt : SeatRuntime B) : mirror (coordinate Hello now rt).1 = mirror rt.
Proof.
  unfold coordinate, apply. destruct (faulted rt); (destruct (occupied_event_devices _ _));
    cbn [fst]; case_bool_decide; done.
Qed.

Lemma hello_sound packet now w r : head_ok w r -> sound_head (hello o parse_request packet now w r).
Proof.
  intros Hh. unfold hello. destruct (negb _).
  { match goal with |- context [send_coordination o ?l ?x w] =>
      pose proof (sc_coordination l x w) as Hs; destruct (send_coordination o l x w) as [w1 y] end.
    by apply stay_head, (world_head w). }
  destruct (is_some (coordinator r)).
  { match goal with |- context [send_coordination o ?l ?x w] =>
      pose proof (sc_coordination l x w) as Hs; destruct (send_coordination o l x w) as [w1 y] end.
    by apply stay_head, (world_head w). }
  destruct Hh as [Hmid Hf].
  pose proof (rr_step parse_envelope _ _ (mo_reach _ _ Hmid)
                (st_coordinate parse_envelope (runtime r) Hello now I)) as Hr1.
  pose proof (hello_feedback now (runtime r)) as Hff. pose proof (hello_mirror now (runtime r)) as Hm.
  destruct (coordinate Hello now (runtime r)) as [rt reply]. simpl in Hr1, Hff, Hm.
  pose proof (sc_coordination LConnection reply w) as Hs.
  destruct (send_coordination o LConnection reply w) as [w1 sent]. simpl in Hs.
  assert (Hend : mid_ok w1 (set_runtime rt r)) by (by apply (mid_runtime w w1)).
  apply stay_head. destruct (is_ok sent).
  - split; [by apply mid_coordinator|]. simpl. congruence.
  - split; [done|]. simpl. congruence.
Qed.

Lemma start_lease_sound launch_id w r :
  head_ok w r -> lease r = None -> is_Some (coordinator r) -> sound_head (start_lease o launch_id w r).
Proof.
  intros [Hmid Hf] Hnone Hco. unfold start_lease.
  pose proof (sc_token w) as H1. destruct (random_token o w) as [w1 [token|e]]; simpl in H1;
    (assert (Hmid1 : mid_ok w1 r) by (by eapply mid_world)); [|by split; [apply Hmid1|]].
  pose proof (rr_step parse_envelope _ _ (mo_reach _ _ Hmid1)
                (st_bind parse_envelope (runtime r) launch_id token)) as Hr1.
  pose proof (bind_mirror_cases launch_id token (runtime r)) as Hb.
  destruct (bind launch_id token (runtime r)) as [rt [u|e]]; simpl in Hr1.
  2: { subst rt. pose proof (sc_reply LConnection 1 REASON_BACKEND w1) as Hs.
       destruct (send_reply o LConnection 1 REASON_BACKEND w1) as [w2 x].
       apply (stay_head w2 (set_runtime (runtime r) r)). split; [|done].
       by apply mid_same_runtime, (mid_world w1). }
  destruct Hb as (Hm & Hno & Hrt & _). change (generation (set_runtime rt r)) with (generation r).
  destruct (Z.ltb_spec u64_max (generation r + 1)); [by split|].
  destruct (bind_mirror o w1) as [w2 [x|e]]; [|by split].
  cbn [set_generation set_runtime generation].
  destruct (write_sidecar o (launch_id, generation r + 1, token) w2) as [w3 [y|e]] eqn:Hw; [|by split].
  destruct y. apply sc_write in Hw.
  set (r1 := set_lease (Some launch_id) (set_generation (generation r + 1) (set_runtime rt r))).
  pose proof (mo_generation _ _ Hmid) as Hg.
  assert (Hend : forall w', sidecar o w' = sidecar o w3 -> mid_ok w' r1).
  { intros w' Hw'. split; simpl; try done.
    - unfold mirror_launch. by rewrite Hm.
    - lia.
    - unfold published. simpl. rewrite Hm. by rewrite Hw', Hw. }
  pose proof (sc_reply LLease 0 REASON_NONE w3) as Hs.
  destruct (send_reply o LLease 0 REASON_NONE w3) as [w4 sent]. simpl in Hs.
  destruct (is_err sent).
  - pose proof (retire_sound false w4 r1 Hr1 (mo_generation _ _ (Hend w4 Hs))) as [Ha Hb].
    destruct (retire_lease o false w4 r1) as [[w5 r5] res] eqn:Hret. simpl in *. split; [done|].
    intros Hok. split; [by apply Hb|].
    apply retire_cases in Hret as (Hr5 & _). change (feedback_failed (runtime r5) = false).
    rewrite Hr5. change (runtime r1) with rt. rewrite unbind_no_sources; [by rewrite Hrt|]. intros l c n. rewrite Hrt. simpl.
    destruct (sources (runtime r) !! KRemote l c n) eqn:Hk; [|done].
    destruct (reachable_inv _ _ (mo_reach _ _ Hmid)) as [Hc _].
    pose proof (core_remote _ Hc l c n ltac:(eauto)) as Hml. unfold mirror_launch in Hml.
    by rewrite Hno in Hml.
  - apply (stay_head w4 r1). split; [by apply Hend|]. simpl. by rewrite Hrt.
Qed.

Lemma control_phase_sound readable now w r :
  head_ok w r -> sound_head (control_phase o options parse_request readable now w r).
Proof.
  intros Hh. unfold control_phase. destruct (negb readable); [by apply stay_head|].
  pose proof (sc_accept_control w) as H1. destruct (accept_control o w) as [w1 [u|e]]; simpl in H1;
    (assert (Hh1 : head_ok w1 r) by (by eapply world_head)); [|by apply stay_head].
  pose proof (sc_peer LConnection w1) as H2.
  destruct (peer_credentials o LConnection w1) as [w2 [peer|e]]; simpl in H2;
    (assert (Hh2 : head_ok w2 r) by (by eapply world_head)); [|by split; [apply Hh2|]].
  pose proof (sc_receive LConnection (MAX_COORDINATION_BYTES + 1) w2) as H3.
  destruct (receive_packet o LConnection _ w2) as [w3 packet]. simpl in H3.
  assert (Hh3 : head_ok w3 r) by (by eapply world_head).
  assert (Hrefuse : forall reason,
    sound_head (let '(w, _) := send_reply o LConnection 1 reason w3 in (w, r, Ok ()))).
  { intros reason. pose proof (sc_reply LConnection 1 reason w3) as Hs.
    destruct (send_reply o LConnection 1 reason w3) as [w4 x]. by apply stay_head, (world_head w3). }
  case_bool_decide; cbn [negb]; [|by apply Hrefuse]. destruct packet as [packet|e]; [|by apply stay_head].
  unfold control_request. case_bool_decide; [by apply hello_sound|].
  destruct (decode_control packet) as [request|]; [|by apply Hrefuse].
  destruct (lease r) eqn:Hl; simpl; [by apply Hrefuse|].
  destruct (negb _); [by apply Hrefuse|].
  destruct (coordinator r) eqn:Hc; simpl; [|by apply Hrefuse].
  apply start_lease_sound; [done|done|]. rewrite Hc. by eexists.
Qed.

Lemma turn_sound w r :
  head_ok w r -> sound_head (turn o options parse_request parse_envelope w r).
Proof.
  intros Hh. unfold turn. pose proof (sc_poll w) as Hp.
  destruct (poll o w) as [w1 [[ev|]|e]]; simpl in Hp;
    (assert (Hh1 : head_ok w1 r) by (by eapply world_head)); [|by apply stay_head|by split; [apply Hh1|]].
  set (now := monotonic_ms o w1). set (watched := is_some (lease r)). destruct Hh1 as [Hmid _].
  pose proof (coordinator_phase_sound ev now w1 r Hmid) as [Ha Hb].
  destruct (coordinator_phase o parse_request ev now w1 r) as [[w2 r2] [[]|e]]; simpl in *; [|by split].
  pose proof (lease_phase_sound (watched && lease_in ev) (watched && lease_hup ev) w2 r2 (Hb eq_refl)) as [Hc Hd].
  destruct (lease_phase o _ _ w2 r2) as [[w3 r3] [[]|e]]; simpl in *; [|by split].
  pose proof (mirror_phase_sound (watched && mirror_in ev) now w3 r3 (Hd eq_refl)) as [He Hf].
  destruct (mirror_phase o options parse_envelope _ now w3 r3) as [[w4 r4] [[]|e]]; simpl in *; [|by split].
  pose proof (expiry_phase_sound now w4 r4 (Hf eq_refl)) as [[Hg Hi] Hj].
  destruct (expiry_phase o now w4 r4) as [[w5 r5] [[]|e]]; simpl in *; [|by split].
  apply control_phase_sound. split; [by apply Hi|by apply Hj].
Qed.

(** The loop heads, and what the loop leaves behind. *)
Inductive receiver_reachable : W -> Receiver -> Prop :=
| receiver_boot b w rt :
    boot b = Ok rt -> sidecar o w = None -> receiver_reachable w (MkReceiver rt None None 0)
| receiver_turn w r w' r' :
    receiver_reachable w r -> turn o options parse_request parse_envelope w r = (w', r', Ok ()) ->
    receiver_reachable w' r'.

Lemma receiver_reachable_head w r : receiver_reachable w r -> head_ok w r.
Proof.
  induction 1 as [b w rt Hb Hs|w r w' r' _ IH Ht].
  - assert (Hm : mirror rt = None /\ feedback_failed rt = false).
    { unfold boot in Hb. destruct (pool_new _ b); [|done]. by injection Hb as <-. }
    destruct Hm as [Hm Hf]. split; [|done]. split; simpl; try done.
    + by eapply rr_boot.
    + unfold mirror_launch. by rewrite Hm.
    + unfold published. simpl. by rewrite Hm.
  - pose proof (turn_sound w r IH) as [_ H2]. rewrite Ht in H2. by apply H2.
Qed.

Lemma turn_reach w r :
  receiver_reachable w r -> reach (turn o options parse_request parse_envelope w r).1.2.
Proof. intros Hr. exact (proj1 (turn_sound w r (receiver_reachable_head w r Hr))). Qed.

Variable stopping : W -> bool.

(** However the loop ends, it ends in a shutdown of a reachable runtime. *)
Lemma serve_ends fuel w r w' r' result :
  receiver_reachable w r ->
  serve o options parse_request parse_envelope stopping fuel w r = (w', r', Some result) ->
  exists w1 r1 ended, reach r1 /\ shutdown o ended w1 r1 = (w', r', result).
Proof.
  revert w r; induction fuel as [|fuel IH]; intros w r Hr; cbn [serve].
  - destruct (stopping w); [|done]. destruct (shutdown o (Ok ()) w r) as [[w1 r1] res] eqn:Hs.
    intros [= <- <- <-]. exists w, r, (Ok ()). split; [apply (receiver_reachable_head w r Hr)|done].
  - destruct (stopping w).
    { destruct (shutdown o (Ok ()) w r) as [[w1 r1] res] eqn:Hs.
      intros [= <- <- <-]. exists w, r, (Ok ()). split; [apply (receiver_reachable_head w r Hr)|done]. }
    pose proof (turn_reach w r Hr) as Ht.
    destruct (turn o options parse_request parse_envelope w r) as [[w1 r1] [[]|e]] eqn:Hturn; simpl in Ht.
    + apply IH. by eapply receiver_turn.
    + destruct (shutdown o (Err e) w1 r1) as [[w2 r2] res] eqn:Hs.
      intros [= <- <- <-]. by exists w1, r1, (Err e).
Qed.

Lemma shutdown_cases ended w r w' r' result :
  reach r -> shutdown o ended w r = (w', r', result) ->
  lease r' = None /\ mirror (runtime r') = None /\ sources (runtime r') = ∅ /\
  game_route (runtime r') = false /\
  (result = Ok () -> ended = Ok () /\ sidecar o w' = None /\
     (faulted (runtime r') = false -> forall i s, seats (pool (runtime r')) !! i = Some s ->
        be_device (backend (pool (runtime r'))) (seat_slot s) = Some neutral)).
Proof.
  intros Hr. unfold shutdown. destruct (retire_lease o false w r) as [[w1 r1] cleanup] eqn:Hret.
  apply retire_cases in Hret as (Hrt & Hl & _ & _ & Hok).
  pose proof (unbind_reach r Hr) as Hr1. rewrite <- Hrt in Hr1.
  pose proof (coordinator_lost_mirror (runtime r1)) as (Hm & Hs & Hg & _).
  destruct (coordinator_lost (runtime r1)) as [rt neutral_result] eqn:Hlost. intros [= <- <- <-].
  simpl in *. split_and!; try done. destruct ended as [[]|e]; [|done]. simpl.
  destruct cleanup as [[]|e]; [|done]. simpl. intros ->. destruct (Hok eq_refl) as [_ Hside].
  split_and!; [done|done|]. intros Hf.
  assert (Hf1 : faulted (runtime r1) = false).
  { apply coordinator_lost_cases in Hlost as (rt2 & Hfr & _ & -> & _). rewrite <- Hf. simpl.
    by rewrite (fr_faulted _ _ Hfr). }
  pose proof (lost_silences _ _ (reachable_inv _ _ Hr1) Hf1 Hlost) as (_ & _ & _ & _ & _ & _ & _ & Hn).
  exact Hn.
Qed.

(** C1: At every head of the loop the authority artifacts agree: the lease is the
    launch of the bound mirror, which is the session of the seats; the sidecar
    names exactly that launch, its generation and its token, and is absent
    when nothing is bound; a lease implies a live coordinator; every remote
    controller belongs to the lease; and no feedback was lost. The loop drives
    the runtime through its interface only. *)
Theorem receiver_authority w r :
  receiver_reachable w r ->
  rt_reachable parse_envelope (runtime r) /\
  mirror_launch (runtime r) = lease r /\
  sidecar o w = (fun '(launch, token) => (launch, generation r, token)) <$> mirror (runtime r) /\
  (forall launch, lease r = Some launch ->
     session (pool (runtime r)) = Some launch /\ is_Some (coordinator r)) /\
  (forall launch client number, is_Some (sources (runtime r) !! KRemote launch client number) ->
     lease r = Some launch) /\
  feedback_failed (runtime r) = false /\ 0 <= generation r <= u64_max.
Proof.
  intros [Hmid Hf]%receiver_reachable_head. destruct Hmid.
  destruct (reachable_inv _ _ mo_reach0) as [Hc _]. split_and!; try done; try (by apply mo_generation0).
  - intros launch Hl. split; [|apply mo_coordinator0; rewrite Hl; by eexists].
    rewrite Hl in mo_lease0. unfold mirror_launch in mo_lease0.
    destruct (mirror (runtime r)) as [[l t]|] eqn:Hm; [|done]. injection mo_lease0 as <-.
    by apply (core_mirror _ Hc l t).
  - intros l c n Hk. rewrite <- mo_lease0. by apply (core_remote _ Hc l c n).
Qed.

(** While the receiver runs, the devices games read are safe at every loop head:
    unless a device failure is latched, each seat is neutral or holds exactly the
    last state of the connected, armed controller that owns it. *)
Theorem receiver_devices_authorized w r i s :
  receiver_reachable w r -> faulted (runtime r) = false ->
  seats (pool (runtime r)) !! i = Some s ->
  be_device (backend (pool (runtime r))) (seat_slot s) = Some neutral \/
  game_route (runtime r) = true /\ is_Some (session (pool (runtime r))) /\
  exists key src, binding s = Some (MkBinding key true) /\ sources (runtime r) !! key = Some src /\
    requires_neutral src = false /\
    be_device (backend (pool (runtime r))) (seat_slot s) = Some (src_state src).
Proof.
  intros [Hmid Hf]%receiver_reachable_head Hfa Hi.
  apply (inv_authorized _ i s); [apply (reachable_inv parse_envelope), Hmid|done..].
Qed.

(** C5: However the receiver ends, by a signal or by any error of any turn, it
    revokes everything first: no lease, mirror, controller or route is left.
    When it reports success the sidecar is gone, and every device is neutral
    unless a device failure was latched. *)
Theorem receiver_end_revokes fuel w r w' r' result :
  receiver_reachable w r ->
  serve o options parse_request parse_envelope stopping fuel w r = (w', r', Some result) ->
  lease r' = None /\ mirror (runtime r') = None /\ sources (runtime r') = ∅ /\
  game_route (runtime r') = false /\
  (result = Ok () -> sidecar o w' = None /\
     (faulted (runtime r') = false -> forall i s, seats (pool (runtime r')) !! i = Some s ->
        be_device (backend (pool (runtime r'))) (seat_slot s) = Some neutral)).
Proof.
  intros Hr (w1 & r1 & ended & Hreach & Hs)%serve_ends; [|done].
  destruct (shutdown_cases ended w1 r1 w' r' result Hreach Hs) as (Hl & Hm & Hso & Hg & Hok).
  split_and!; try done; by intros (_ & ? & ?)%Hok.
Qed.

(** The state after [n] turns that all went well. *)
Fixpoint after (n : nat) (w : W) (r : Receiver) : option (W * Receiver) :=
  match n with
  | O => Some (w, r)
  | S n =>
      match turn o options parse_request parse_envelope w r with
      | (w, r, Ok _) => after n w r
      | (_, _, Err _) => None
      end
  end.

(** The loop returns, and reports a result, as soon as a stop was requested at
    the head of a turn or a turn failed, and for no other reason: it is still
    running after [fuel] turns exactly when all of these succeeded and no head
    so far saw a stop request. *)
Theorem receiver_runs_until fuel w r :
  (serve o options parse_request parse_envelope stopping fuel w r).2 = None <->
  forall n, (n <= fuel)%nat -> exists w1 r1, after n w r = Some (w1, r1) /\ stopping w1 = false.
Proof.
  revert w r; induction fuel as [|fuel IH]; intros w r; cbn [serve].
  - destruct (stopping w) eqn:Hst.
    + destruct (shutdown o (Ok ()) w r) as [[w1 r1] res]. split; [done|].
      intros Hn. destruct (Hn O) as (w2 & r2 & [= <- <-] & ?); [lia|congruence].
    + split; [|done]. intros _ n Hn. assert (n = O) as -> by lia. by exists w, r.
  - destruct (stopping w) eqn:Hst.
    { destruct (shutdown o (Ok ()) w r) as [[w1 r1] res]. split; [done|].
      intros Hn. destruct (Hn O) as (w2 & r2 & [= <- <-] & ?); [lia|congruence]. }
    assert (Hsucc : forall n, after (S n) w r =
      match turn o options parse_request parse_envelope w r with
      | (w, r, Ok _) => after n w r | (_, _, Err _) => None end) by done.
    destruct (turn o options parse_request parse_envelope w r) as [[w1 r1] [u|e]].
    + rewrite IH. split.
      * intros Hn [|n] Hle; [by exists w, r|]. rewrite Hsucc. apply Hn. lia.
      * intros Hn n Hle. rewrite <- Hsucc. apply Hn. lia.
    + destruct (shutdown o (Err e) w1 r1) as [[w2 r2] res]. split; [done|].
      intros Hn. destruct (Hn 1%nat ltac:(lia)) as (? & ? & Ha & _). by rewrite Hsucc in Ha.
Qed.

(** A peer that is not the configured one changes nothing: whatever it sends on
    either socket, the coordinator, the lease, the generation and the runtime
    are untouched. *)
Theorem stranger_changes_nothing readable now w r w1 w2 peer :
  (accept_control o w = (w1, Ok ()) -> peer_credentials o LConnection w1 = (w2, Ok peer) ->
   peer <> (control_uid options, control_gid options) ->
   (control_phase o options parse_request readable now w r).1.2 = r /\
   (control_phase o options parse_request readable now w r).2 = Ok ()) /\
  (accept_mirror o w = (w1, Ok ()) -> peer_credentials o LFrame w1 = (w2, Ok peer) ->
   peer <> (sunshine_uid options, sunshine_gid options) ->
   mirror_phase o options parse_envelope true now w r = (if is_some (lease r) then w2 else w, r, Ok ())).
Proof.
  split.
  - intros Ha Hp Hne. unfold control_phase. destruct (negb readable); [done|]. rewrite Ha, Hp.
    rewrite bool_decide_eq_false_2 by done. cbn [negb].
    destruct (receive_packet o LConnection _ w2) as [w3 x].
    by destruct (send_reply o LConnection 1 REASON_PEER w3).
  - intros Ha Hp Hne. unfold mirror_phase. cbn [negb orb]. destruct (lease r); [|done]. simpl.
    rewrite Ha, Hp. by rewrite bool_decide_eq_false_2.
Qed.
End loop.

(** ** A concrete run *)

(** A scripted outside: what each poll reports and the packet it makes readable. *)
Record Sim := MkSim {
  sim_polls : list (Revents * list Z);
  sim_packet : list Z;
  sim_side : option sidecar_content;
}.

Definition sim_outside (uid : Z) : Outside Sim :=
  MkOutside Sim
    (fun w => match sim_polls w with
              | [] => (w, Err "poll")
              | (ev, packet) :: polls => (MkSim polls packet (sim_side w), Ok (Some ev))
              end)
    (fun _ => 100) (fun _ _ w => (w, Ok (sim_packet w))) (fun _ _ _ w => (w, Ok ()))
    (fun _ _ w => (w, Ok ())) (fun w => (w, Ok ())) (fun w => (w, Ok ())) (fun _ w => (w, Ok (uid, uid)))
    (fun w => (w, Ok demo_token)) (fun w => (w, Ok ())) (fun w => w)
    (fun c w => (MkSim (sim_polls w) (sim_packet w) (Some c), Ok ()))
    (fun w => (MkSim (sim_polls w) (sim_packet w) None, Ok ())) sim_side.

#[export] Instance sim_laws uid : SidecarLaws (sim_outside uid).
Proof.
  split; simpl; try done.
  - intros c w w'. by intros [= <-].
  - intros w w'. by intros [= <-].
  - intros w. by destruct (sim_polls w) as [|[ev p] l].
Qed.

Definition demo_options : Options := MkOptions 1 1 1 1.

Definition demo_request (body : list Z) : option SeatRequest :=
  match body with
  | [7] => Some Hello
  | [8] => Some (ApplyCount 2)
  | [9] => Some (BeginSession demo_launch Attached)
  | _ => None
  end.

Lemma demo_request_typed l request : demo_request l = Some request -> request_in_range request.
Proof.
  intros Hr. unfold demo_request in Hr. repeat case_match; simplify_eq; try done.
Qed.

Definition ev_control : Revents := MkRevents true false false false false false.
Definition ev_coordinator : Revents := MkRevents false true false false false false.

(** HELLO, a count, a session, then START. *)
Definition demo_script : list (Revents * list Z) :=
  [(ev_control, [2; 7]); (ev_coordinator, [2; 8]); (ev_coordinator, [2; 9]);
   (ev_control, 1 :: 1 :: bytes demo_launch)].

Definition demo_world : Sim := MkSim demo_script [] None.
Definition demo_receiver : Receiver := MkReceiver demo_start None None 0.

Fixpoint turns (n : nat) (w : Sim) (r : Receiver) : Sim * Receiver :=
  match n with
  | O => (w, r)
  | S n =>
      match turn (sim_outside 1) demo_options demo_request demo_parse w r with
      | (w, r, Ok _) => turns n w r
      | (w, r, Err _) => (w, r)
      end
  end.

Notation sim_reachable := (receiver_reachable (sim_outside 1) demo_options demo_request demo_parse).

Lemma demo_receiver_reachable : sim_reachable demo_world demo_receiver.
Proof. apply (receiver_boot _ _ _ _ (MkMem ∅ ∅)); [|done]. vm_compute. reflexivity. Qed.

(** Each of the four turns ends well. *)
Definition turn_ok (n : nat) : bool :=
  is_ok (turn (sim_outside 1) demo_options demo_request demo_parse
           (turns n demo_world demo_receiver).1 (turns n demo_world demo_receiver).2).2.

Lemma turns_next n w r w' r' :
  turn (sim_outside 1) demo_options demo_request demo_parse w r = (w', r', Ok ()) ->
  turns (S n) w r = turns n w' r'.
Proof. intros Ht. cbn [turns]. by rewrite Ht. Qed.

Lemma turns_reachable n w r :
  sim_reachable w r ->
  (forall m, (m < n)%nat -> is_ok (turn (sim_outside 1) demo_options demo_request demo_parse
                                  (turns m w r).1 (turns m w r).2).2 = true) ->
  sim_reachable (turns n w r).1 (turns n w r).2.
Proof.
  revert w r; induction n as [|n IH]; intros w r Hr Hok; [done|].
  pose proof (Hok 0%nat ltac:(lia)) as H0. cbn [turns] in H0 |- *. simpl in H0.
  destruct (turn (sim_outside 1) demo_options demo_request demo_parse w r) as [[w1 r1] [[]|e]] eqn:Ht; [|done].
  apply IH; [by eapply receiver_turn|]. intros m Hm. specialize (Hok (S m) ltac:(lia)).
  by rewrite (turns_next m w r w1 r1 Ht) in Hok.
Qed.

Lemma demo_leased_reachable :
  sim_reachable (turns 4 demo_world demo_receiver).1 (turns 4 demo_world demo_receiver).2.
Proof.
  apply turns_reachable; [apply demo_receiver_reachable|].
  intros m Hm. change (turn_ok m = true).
  do 4 (destruct m as [|m]; [vm_compute; reflexivity|]). lia.
Qed.

Lemma receiver_authority_witness :
  lease (turns 4 demo_world demo_receiver).2 = Some demo_launch /\
  session (pool (runtime (turns 4 demo_world demo_receiver).2)) = Some demo_launch.
Proof.
  destruct (receiver_authority (sim_outside 1) demo_options demo_request demo_parse demo_request_typed
    _ _ demo_leased_reachable) as (_ & _ & _ & Hs & _).
  assert (Hl : lease (turns 4 demo_world demo_receiver).2 = Some demo_launch) by (vm_compute; reflexivity).
  split; [exact Hl|]. apply (Hs _ Hl).
Defined.

Lemma receiver_devices_authorized_witness :
  be_device (backend (pool (runtime demo_receiver))) 1 = Some neutral.
Proof.
  destruct (receiver_devices_authorized (sim_outside 1) demo_options demo_request demo_parse
    demo_request_typed demo_world demo_receiver 0 (MkSeat 1 None (Some neutral)) demo_receiver_reachable)
    as [Hn|(Hg & _)].
  - vm_compute. reflexivity.
  - vm_compute. reflexivity.
  - exact Hn.
  - exfalso. vm_compute in Hg. discriminate Hg.
Defined.

Lemma receiver_end_revokes_witness :
  exists w' r', serve (sim_outside 1) demo_options demo_request demo_parse (fun _ => false) 9
                  demo_world demo_receiver = (w', r', Some (Err "poll")) /\ lease r' = None.
Proof.
  destruct (serve (sim_outside 1) demo_options demo_request demo_parse (fun _ => false) 9
              demo_world demo_receiver) as [[w' r'] [result|]] eqn:Hs.
  - exists w', r'.
    assert (Hres : (serve (sim_outside 1) demo_options demo_request demo_parse (fun _ => false) 9
              demo_world demo_receiver).2 = Some (Err "poll")) by (vm_compute; reflexivity).
    rewrite Hs in Hres. simpl in Hres. injection Hres as ->. split; [reflexivity|].
    exact (proj1 (receiver_end_revokes (sim_outside 1) demo_options demo_request demo_parse
      demo_request_typed (fun _ => false) 9 demo_world demo_receiver w' r' _ demo_receiver_reachable Hs)).
  - exfalso. assert (Hres : is_some (serve (sim_outside 1) demo_options demo_request demo_parse
      (fun _ => false) 9 demo_world demo_receiver).2 = true) by (vm_compute; reflexivity).
    rewrite Hs in Hres. discriminate Hres.
Defined.

Lemma stranger_changes_nothing_witness :
  (control_phase (sim_outside 7) demo_options demo_request true 100 demo_world demo_receiver).1.2
    = demo_receiver.
Proof.
  refine (proj1 (proj1 (stranger_changes_nothing (sim_outside 7) demo_options demo_request demo_parse
    true 100 demo_world demo_receiver demo_world demo_world (7, 7)) _ _ _)).
  - reflexivity.
  - reflexivity.
  - discriminate.
Defined.
