(* ===== verification/Decimal.v ===== *)
(** * Decimal numbers, lines and path prefixes of the standard library

    [u64::from_str], the inverse of [to_string]; what [str::trim] does to a line
    that was written with its newline; prefixes and suffixes of strings and
    paths. *)

From S2P Require Import Prelude Text.

(** ** Numbers *)

Definition decimal_digit (a : ascii) : option Z :=
  if is_ascii_digit a then Some (byte a - 48) else None.

Fixpoint parse_digits (acc : Z) (s : string) : option Z :=
  match s with
  | EmptyString => Some acc
  | SCons a s => match decimal_digit a with Some d => parse_digits (acc * 10 + d) s | None => None end
  end.

(** [str::parse] of an unsigned type with maximum [max]. *)
Definition from_decimal (max : Z) (s : string) : option Z :=
  let digits := default s (strip_prefix "+" s) in
  if str_is_empty digits then None
  else match parse_digits 0 digits with
       | Some n => if n <=? max then Some n else None
       | None => None
       end.

Lemma digit_byte d : 0 <= d < 10 -> byte (digit d) = 48 + d.
Proof.
  intros Hd.
  assert (Hall : Forall (fun d => byte (digit d) = 48 + d) (seqZ 0 10)) by decide_vm.
  rewrite Forall_forall in Hall. apply Hall, elem_of_seqZ. lia.
Qed.

Lemma is_digit_byte a : is_ascii_digit a = true <-> 48 <= byte a <= 57.
Proof. unfold is_ascii_digit, between. rewrite andb_true_iff, !Z.leb_le. done. Qed.

Lemma decimal_digit_digit d : 0 <= d < 10 -> decimal_digit (digit d) = Some d.
Proof.
  intros Hd. unfold decimal_digit. destruct (is_ascii_digit (digit d)) eqn:Hi.
  - rewrite digit_byte by done. f_equal. lia.
  - assert (is_ascii_digit (digit d) = true); [|congruence].
    apply is_digit_byte. rewrite digit_byte by done. lia.
Qed.

Lemma parse_decimal_fuel fuel z acc :
  0 <= z < 10 ^ Z.of_nat fuel -> (0 < fuel)%nat ->
  parse_digits 0 (decimal_fuel fuel z acc) = parse_digits z acc.
Proof.
  revert z acc; induction fuel as [|fuel IH]; intros z acc Hz Hf; [lia|].
  cbn [decimal_fuel]. destruct (Z.ltb_spec z 10) as [Hlt|Hge].
  - cbn [parse_digits]. rewrite Z.mod_small by lia. rewrite decimal_digit_digit by lia.
    f_equal; lia.
  - rewrite Nat2Z.inj_succ, Z.pow_succ_r in Hz by lia.
    destruct fuel as [|fuel]; [simpl in Hz; lia|].
    assert (0 <= z / 10 < 10 ^ Z.of_nat (S fuel)).
    { split; [apply Z.div_pos; lia|]. apply Z.div_lt_upper_bound; lia. }
    rewrite IH by lia. cbn [parse_digits]. rewrite decimal_digit_digit by (apply Z.mod_pos_bound; lia).
    f_equal. pose proof (Z.div_mod z 10). lia.
Qed.

Lemma parse_digits_decimal n : 0 <= n <= u64_max -> parse_digits 0 (decimal n) = Some n.
Proof. intros Hn. unfold decimal. apply (parse_decimal_fuel 20 n ""); unfold u64_max in *; lia. Qed.

Lemma all_chars_decimal fuel z acc :
  0 <= z -> all_chars is_ascii_digit acc = true -> all_chars is_ascii_digit (decimal_fuel fuel z acc) = true.
Proof.
  revert z acc; induction fuel as [|fuel IH]; intros z acc Hz Ha; [done|]. cbn [decimal_fuel].
  assert (Hd : is_ascii_digit (digit (z mod 10)) = true).
  { apply is_digit_byte. rewrite digit_byte; [|apply Z.mod_pos_bound; lia].
    pose proof (Z.mod_pos_bound z 10). lia. }
  destruct (z <? 10); [simpl; by rewrite Hd, Ha|].
  apply IH; [apply Z.div_pos; lia|]. simpl. by rewrite Hd, Ha.
Qed.

Lemma decimal_digits n : 0 <= n -> all_chars is_ascii_digit (decimal n) = true.
Proof. intros Hn. by apply all_chars_decimal. Qed.

Lemma decimal_fuel_nonempty fuel z acc :
  str_is_empty acc = false -> str_is_empty (decimal_fuel fuel z acc) = false.
Proof.
  revert z acc; induction fuel as [|fuel IH]; intros z acc Ha; [done|]. cbn [decimal_fuel].
  destruct (z <? 10); [done|]. by apply IH.
Qed.

Lemma decimal_nonempty n : str_is_empty (decimal n) = false.
Proof.
  unfold decimal. change (decimal_fuel 20 n "") with
    (let acc := SCons (digit (n mod 10)) EmptyString in if n <? 10 then acc else decimal_fuel 19 (n / 10) acc).
  cbv zeta. destruct (n <? 10); [done|]. by apply decimal_fuel_nonempty.
Qed.

(** Parsing inverts printing on every [u64]. *)
Lemma from_to_decimal max n : 0 <= n <= max -> max <= u64_max -> from_decimal max (decimal n) = Some n.
Proof.
  intros Hn Hm. unfold from_decimal.
  assert (Hp : strip_prefix "+" (decimal n) = None).
  { pose proof (decimal_digits n ltac:(lia)) as Hd. destruct (decimal n) as [|a s]; [done|].
    simpl in Hd |- *. apply andb_true_iff in Hd as [Ha _]. case_decide as Heq; [|done].
    subst a. done. }
  rewrite Hp. simpl. rewrite decimal_nonempty, parse_digits_decimal by lia.
  by rewrite (proj2 (Z.leb_le n max)) by lia.
Qed.

Lemma from_decimal_range max s n : from_decimal max s = Some n -> n <= max.
Proof.
  unfold from_decimal. destruct (str_is_empty _); [done|]. destruct (parse_digits _ _) as [k|]; [|done].
  destruct (Z.leb_spec k max); [|done]. by intros [= <-].
Qed.

Lemma parse_digits_nonneg acc s n : 0 <= acc -> parse_digits acc s = Some n -> 0 <= n.
Proof.
  revert acc; induction s as [|a s IH]; intros acc Ha; simpl; [by intros [= <-]|].
  unfold decimal_digit. destruct (is_ascii_digit a) eqn:Hi; [|done].
  apply is_digit_byte in Hi. apply IH. lia.
Qed.

Lemma from_decimal_nonneg max s n : from_decimal max s = Some n -> 0 <= n.
Proof.
  unfold from_decimal. destruct (str_is_empty _); [done|].
  destruct (parse_digits _ _) as [k|] eqn:Hp; [|done]. destruct (k <=? max); [|done].
  intros [= <-]. by eapply parse_digits_nonneg in Hp.
Qed.

(** ** Lines *)

(** Visible ASCII: no byte [trim] could remove. *)
Definition is_plain (a : ascii) : bool := between 33 (byte a) 126.

Lemma plain_not_white1 a : is_plain a = true -> white1 (byte a) = false.
Proof.
  unfold is_plain, white1, between. rewrite andb_true_iff, !Z.leb_le. intros Ha.
  rewrite orb_false_iff, andb_false_iff, !Z.leb_gt, Z.eqb_neq. lia.
Qed.

Lemma digit_plain a : is_ascii_digit a = true -> is_plain a = true.
Proof. rewrite is_digit_byte. unfold is_plain, between. rewrite andb_true_iff, !Z.leb_le. lia. Qed.

Lemma trim_front_plain a l : is_plain a = true -> trim_front (a :: l) = a :: l.
Proof.
  intros Ha. pose proof (plain_not_white1 a Ha) as Hw.
  unfold is_plain, between in Ha. rewrite andb_true_iff, !Z.leb_le in Ha.
  cbn [trim_front]. rewrite Hw. destruct l as [|b l]; [done|].
  unfold white2, white3. rewrite !(proj2 (Z.eqb_neq (byte a) _)) by lia. simpl.
  by destruct l.
Qed.

Lemma trim_reversed_plain c l : is_plain c = true -> trim_reversed (c :: l) = c :: l.
Proof.
  intros Hc. pose proof (plain_not_white1 c Hc) as Hw.
  unfold is_plain, between in Hc. rewrite andb_true_iff, !Z.leb_le in Hc.
  cbn [trim_reversed]. rewrite Hw. destruct l as [|b l]; [done|].
  unfold white2. rewrite !(proj2 (Z.eqb_neq (byte c) _)) by lia. rewrite andb_false_r.
  destruct l as [|a l]; [done|]. unfold white3, between.
  rewrite !(proj2 (Z.eqb_neq (byte c) _)), (proj2 (Z.leb_gt 128 (byte c))) by lia.
  by rewrite ?andb_false_r.
Qed.

Lemma trim_reversed_newline l : trim_reversed ("010"%char :: l) = trim_reversed l.
Proof. done. Qed.

Definition newline : string := SCons "010"%char EmptyString.

Lemma to_text_app s t : to_text (s +:+ t) = to_text s ++ to_text t.
Proof. induction s as [|a s IH]; simpl; [done|]. by rewrite IH. Qed.

Lemma all_chars_text f s : all_chars f s = forallb f (to_text s).
Proof. induction s as [|a s IH]; simpl; [done|]. by rewrite IH. Qed.

(** A value written on a line of its own is read back. *)
Lemma trim_line s : all_chars is_plain s = true -> trim (s +:+ newline) = s.
Proof.
  rewrite all_chars_text. intros Hs. unfold trim, trim_text, trim_back. rewrite to_text_app.
  rewrite <- (of_to_text s) at 2. f_equal. simpl (to_text newline).
  destruct (to_text s) as [|a l] eqn:Hl; [done|].
  cbn [app]. rewrite trim_front_plain by (simpl in Hs; by apply andb_true_iff in Hs as [? _]).
  rewrite app_comm_cons, reverse_snoc, trim_reversed_newline.
  assert (Hr : forall x, x ∈ a :: l -> is_plain x = true) by (by apply forallb_spec).
  destruct (reverse (a :: l)) as [|c r] eqn:Hrev.
  { apply (f_equal length) in Hrev. by rewrite length_reverse in Hrev. }
  rewrite trim_reversed_plain.
  - by rewrite <- Hrev, reverse_involutive.
  - apply Hr. rewrite <- (reverse_involutive (a :: l)), Hrev, elem_of_reverse. left.
Qed.

Lemma trim_decimal n : 0 <= n -> trim (decimal n +:+ newline) = decimal n.
Proof.
  intros Hn. apply trim_line. rewrite all_chars_text. apply forallb_spec. intros a Ha.
  apply digit_plain. pose proof (decimal_digits n Hn) as Hd. rewrite all_chars_text in Hd.
  by apply (proj1 (forallb_spec _ _) Hd).
Qed.

(** ** Prefixes and suffixes *)

Fixpoint strip_suffix_text (suffix l : text) : bool :=
  bool_decide (l = suffix) || match l with [] => false | _ :: l => strip_suffix_text suffix l end.

(** [str::ends_with]. *)
Definition ends_with (suffix s : string) : bool := strip_suffix_text (to_text suffix) (to_text s).

Lemma strip_suffix_text_spec suffix l :
  strip_suffix_text suffix l = true <-> exists front, l = front ++ suffix.
Proof.
  induction l as [|a l IH]; simpl.
  - rewrite orb_false_r, bool_decide_eq_true. split.
    + intros <-. by exists [].
    + intros (front & Hf). symmetry in Hf. by apply app_eq_nil in Hf as [_ ->].
  - rewrite orb_true_iff, bool_decide_eq_true, IH. split.
    + intros [<-|(front & ->)]; [by exists []|by exists (a :: front)].
    + intros ([|b front] & Hf); [by left|right]. injection Hf as <- Hf. by exists front.
Qed.

Lemma of_text_app l1 l2 : of_text (l1 ++ l2) = of_text l1 +:+ of_text l2.
Proof. induction l1 as [|a l1 IH]; simpl; [done|]. unfold of_text in *. simpl. by rewrite IH. Qed.

Lemma ends_with_spec suffix s : ends_with suffix s = true <-> exists front, s = front +:+ suffix.
Proof.
  unfold ends_with. rewrite strip_suffix_text_spec. split.
  - intros (front & Hf). exists (of_text front).
    rewrite <- (of_to_text s), Hf, of_text_app. by rewrite of_to_text.
  - intros (front & ->). exists (to_text front). apply to_text_app.
Qed.

(** [Path::starts_with]: component by component. *)
Definition path_starts_with (base path : string) : bool :=
  bool_decide (is_absolute base = is_absolute path)
  && bool_decide (path_components base = take (length (path_components base)) (path_components path)).

(** [Path == Path]. *)
Definition same_path (a b : string) : bool :=
  bool_decide (is_absolute a = is_absolute b) && bool_decide (path_components a = path_components b).

(** ** Unique decomposition at a separator *)

Definition no_byte (b : Z) (s : string) : bool := all_chars (fun a => negb (is_byte b a)) s.

Lemma app_slash_inj s t x y :
  no_byte SLASH s = true -> no_byte SLASH t = true ->
  s +:+ "/" +:+ x = t +:+ "/" +:+ y -> s = t /\ x = y.
Proof.
  unfold no_byte. revert t; induction s as [|a s IH]; intros [|b t]; simpl.
  - intros _ _ Heq. injection Heq as Heq. done.
  - intros _ Hb [= <- _]. apply andb_true_iff in Hb as [Hb _]. done.
  - intros Ha _ [= -> _]. apply andb_true_iff in Ha as [Ha _]. done.
  - rewrite !andb_true_iff. intros [_ Hs] [_ Ht] [= -> Heq].
    destruct (IH t Hs Ht Heq) as [-> ->]. done.
Qed.

Lemma append_assoc s t u : s +:+ (t +:+ u) = (s +:+ t) +:+ u.
Proof.
  induction s as [|a s IH]; [done|].
  change (SCons a (s +:+ (t +:+ u)) = SCons a ((s +:+ t) +:+ u)). by rewrite IH.
Qed.

Lemma string_app_inj s x y : s +:+ x = s +:+ y -> x = y.
Proof. induction s as [|a s IH]; [done|]. intros [= ?]. by apply IH. Qed.

(** [str::strip_suffix]. *)
Definition strip_suffix (suffix s : string) : option string :=
  of_text ∘ reverse ∘ to_text <$> strip_prefix (of_text (reverse (to_text suffix))) (of_text (reverse (to_text s))).

#[export] Instance to_text_inj : Inj (=) (=) to_text.
Proof. intros s t Hst. by rewrite <- (of_to_text s), <- (of_to_text t), Hst. Qed.

Lemma strip_suffix_Some suffix s x : strip_suffix suffix s = Some x <-> s = x +:+ suffix.
Proof.
  unfold strip_suffix. split.
  - intros (y & Hy%strip_prefix_Some & ->)%fmap_Some. apply (f_equal to_text) in Hy. rewrite to_of_text, to_text_app, to_of_text in Hy.
    apply (f_equal reverse) in Hy. rewrite reverse_involutive, reverse_app, reverse_involutive in Hy.
    rewrite <- (of_to_text s), Hy. unfold compose. apply (inj to_text). by rewrite !to_text_app, !to_of_text.
  - intros ->. rewrite to_text_app, reverse_app.
    assert (forall a b, of_text (a ++ b) = of_text a +:+ of_text b) as ->.
    { intros a b. apply (inj to_text). by rewrite to_text_app, !to_of_text. }
    rewrite strip_prefix_app. cbn. unfold compose. by rewrite to_of_text, reverse_involutive, of_to_text.
Qed.
