(* ===== verification/Limits.v ===== *)
(** * The limits daemon (services/limitsd/src/lib.rs)

    A privileged service that applies CPU and GPU frequency limits, per device
    and for the one running game, and restores the device's values afterwards.

    The file system is the operations of [Machine] over a world [W]. An
    operation that would panic (an index, a division, [clamp], [expect]) ends in
    [Panicked], which no handler catches. *)

From S2P Require Import Prelude Text Decimal.

(** ** Data *)

Definition PARENT_SLICE : string := "korri.slice".
Definition GAME_SLICE : string := "korri-games.slice".

Record Limits := MkLimits { lim_min : Z; lim_max : Z }.

Record Defaults := MkDefaults { def_cpu : Limits; def_gpu : Limits; governor : string }.

Inductive Request : Type :=
| Describe
| ApplyDevice (device : Defaults)
| ApplySession (unit_name : string) (cpu gpu : Limits)
| EndSession (unit_name : string).

Record CpuPolicy := MkPolicy {
  pol_name : string;
  pol_cpus : list Z;
  cpuinfo_max_freq : Z;
  pol_frequencies : list Z;
  available_governors : list string;
  min_freq : Z;
}.

Record GpuDevfreq := MkGpu { gpu_name : string; gpu_frequencies : list Z }.

Record Roots := MkRoots { sysfs : string; cgroup_root : string }.

Inductive Session : Type :=
| Active (unit_name : string) (device : Defaults) (cpu gpu : Limits)
| Reverting (unit_name : string).

Definition session_unit (s : Session) : string :=
  match s with Active u _ _ _ | Reverting u => u end.

Record Limitsd := MkLimitsd {
  roots : Roots;
  defaults : Defaults;
  device : Defaults;
  policies : list CpuPolicy;
  gpus : list GpuDevfreq;
  session : option Session;
}.

Definition set_device (d : Defaults) (s : Limitsd) : Limitsd :=
  MkLimitsd (roots s) (defaults s) d (policies s) (gpus s) (session s).
Definition set_policies (p : list CpuPolicy) (s : Limitsd) : Limitsd :=
  MkLimitsd (roots s) (defaults s) (device s) p (gpus s) (session s).
Definition set_session (x : option Session) (s : Limitsd) : Limitsd :=
  MkLimitsd (roots s) (defaults s) (device s) (policies s) (gpus s) x.

(** The [Ok] payload: [Describe] reports the tables, the rest the empty object.
    ([min_freq] is skipped when it is serialized.) *)
Inductive Value : Type :=
| Description (d : Defaults) (p : list CpuPolicy) (g : list GpuDevfreq)
| Nothing.

Inductive Response : Type :=
| ROk (value : Value)
| RErr (message : string).

(** ** Failing and panicking *)

Inductive Fault : Type :=
| Failed (message : string)
| Panicked.

Notation outcome := (result Fault).

Definition fail {A} (message : string) : outcome A := Err (Failed message).

Inductive IoError : Type :=
| NotFound
| IoFailed (message : string).

Definition io_text (e : IoError) : string :=
  match e with NotFound => "No such file or directory (os error 2)" | IoFailed m => m end.

Record Machine (W : Type) := MkMachine {
  read_to_string : string -> W -> result IoError string;
  (** Open an existing file, truncate it, write. *)
  overwrite : string -> string -> W -> W * result IoError unit;
  remount_sys : W -> W;
  (** The entries; a name that is not UTF-8 is [None]. *)
  read_dir : string -> W -> result IoError (list (result IoError (option string)));
  canonicalize : string -> W -> result IoError string;
  try_exists : string -> W -> result IoError bool;
}.
Arguments read_to_string {W}.
Arguments overwrite {W}.
Arguments remount_sys {W}.
Arguments read_dir {W}.
Arguments canonicalize {W}.
Arguments try_exists {W}.

(** ** Pure parts *)

Definition limits_validate (l : Limits) : outcome unit :=
  if (100 <? lim_min l) || (lim_max l =? 0) || (100 <? lim_max l) || (lim_max l <? lim_min l)
  then fail "percents require 0 <= min <= max <= 100 and max >= 1"
  else Ok ().

Definition wrap_u64 (z : Z) : Z := z mod 18446744073709551616.

Definition div_ceil (a b : Z) : Z := (a + b - 1) / b.

Definition step_percent (top step : Z) : Z := (step * 100 + top / 2) / top.

(** Select by the rounded percent labels; the raw frequencies are only the
    fallback of a policy without a step list. The division panics at [top = 0],
    and [clamp], which the fallback always computes, at [top < bottom]. *)
Definition mapped (l : Limits) (top bottom : Z) (steps : list Z) : outcome (Z * Z) :=
  let raw_min := wrap_u64 (div_ceil (top * lim_min l) 100) in
  let raw_max := wrap_u64 (top * lim_max l / 100) in
  let clamp raw : outcome Z := if top <? bottom then Err Panicked else Ok (Z.max bottom (Z.min top raw)) in
  let choose found step raw : outcome Z :=
    match found with
    | Some v => Ok v
    | None => raw ← clamp raw; Ok (default raw step)
    end in
  if bool_decide (steps <> []) && (top =? 0) then Err Panicked
  else
    max ← choose (find (fun v => step_percent top v <=? lim_max l) (reverse steps)) (head steps) raw_max;
    min ← choose (find (fun v => lim_min l <=? step_percent top v) steps) (list.last steps) raw_min;
    Ok (Z.min min max, max).

Definition UNIT_PREFIX : string := "korri-game-".
Definition UNIT_SUFFIX : string := ".service".

Definition validate_unit (unit_name : string) : outcome unit :=
  if negb (str_len unit_name =? str_len UNIT_PREFIX + 32 + str_len UNIT_SUFFIX)
     || negb (starts_with UNIT_PREFIX unit_name)
     || negb (ends_with UNIT_SUFFIX unit_name)
     || negb (forallb is_lower_hex (take 32 (drop 11 (to_text unit_name))))
  then fail "unit must match ^korri-game-[0-9a-f]{32}\.service$"
  else Ok ().

(** [Vec::dedup]. *)
Fixpoint dedup (l : list Z) : list Z :=
  match l with
  | [] => []
  | x :: l =>
      match l with
      | [] => [x]
      | y :: _ => if x =? y then dedup l else x :: dedup l
      end
  end.

Definition is_policy_name (name : string) : bool :=
  match strip_prefix "policy" name with
  | Some suffix => negb (str_is_empty suffix) && all_chars is_ascii_digit suffix
  | None => false
  end.

Definition is_ascii_alphanumeric (a : ascii) : bool :=
  is_ascii_digit a || between 65 (byte a) 90 || between 97 (byte a) 122.

Definition is_gpu_node (name : string) : bool :=
  negb (str_is_empty name || bool_decide (name = ".") || bool_decide (name = ".."))
  && all_chars (fun a => is_ascii_alphanumeric a
                         || is_byte 46 a || is_byte 95 a || is_byte 58 a || is_byte 45 a) name.

(** ** Paths *)

Definition cpu_path (r : Roots) (name : string) : string :=
  path_join (path_join (sysfs r) "devices/system/cpu/cpufreq") name.
Definition gpu_path (r : Roots) (name : string) : string :=
  path_join (path_join (sysfs r) "class/devfreq") name.
Definition parent_slice (r : Roots) : string := path_join (cgroup_root r) PARENT_SLICE.
Definition slice (r : Roots) : string := path_join (parent_slice r) GAME_SLICE.

(** The [?] of a read: the world stays. *)
Notation "'get!' w ',' x '<-' e ';;' k" :=
  (match e with Ok x => k | Err er => (w, Err er) end)
  (at level 10, w name, x name, e at level 99, k at level 200).

(** [collect::<Result<Vec<_>>>] of [map]. *)
Fixpoint collect {A B} (f : A -> outcome B) (l : list A) : outcome (list B) :=
  match l with
  | [] => Ok []
  | x :: l => match f x with
              | Err e => Err e
              | Ok y => match collect f l with Err e => Err e | Ok ys => Ok (y :: ys) end
              end
  end.

(** ** Files *)

Section machine.
Context {W : Type} (m : Machine W).

Definition read (path : string) (w : W) : outcome string :=
  match read_to_string m path w with
  | Ok s => Ok (trim s)
  | Err e => fail ("read " +:+ path +:+ ": " +:+ io_text e)
  end.

Definition invalid_frequency {A} (path : string) : outcome A := fail ("invalid frequency in " +:+ path).

Definition number (path : string) (w : W) : outcome Z :=
  s ← read path w;
  match from_decimal u64_max s with Some n => Ok n | None => invalid_frequency path end.

Definition frequencies (path : string) (w : W) : outcome (list Z) :=
  match read_to_string m path w with
  | Err NotFound => Ok []
  | Err e => fail ("read " +:+ path +:+ ": " +:+ io_text e)
  | Ok s =>
      values ← collect (fun v => match from_decimal u64_max v with
                                 | Some n => Ok n
                                 | None => invalid_frequency path
                                 end) (split_whitespace s);
      if existsb (Z.eqb 0) values then fail ("zero frequency in " +:+ path)
      else Ok (dedup (merge_sort Z.le values))
  end.

Definition u32_max : Z := 4294967295.

(** One CPU policy; a directory entry of another name is skipped. *)
Definition cpu_policy (r : Roots) (name : string) (w : W) : outcome CpuPolicy :=
  let path := cpu_path r name in
  top ← number (path_join path "cpuinfo_max_freq") w;
  bottom ← number (path_join path "cpuinfo_min_freq") w;
  if (bottom =? 0) || (top <? bottom) then fail ("invalid hardware frequency range for " +:+ name)
  else
    related ← read (path_join path "related_cpus") w;
    cpus ← collect (fun s => match from_decimal u32_max s with
                             | Some n => Ok n
                             | None => fail "invalid related_cpus"
                             end) (split_whitespace related);
    steps ← frequencies (path_join path "scaling_available_frequencies") w;
    governors ← read (path_join path "scaling_available_governors") w;
    Ok (MkPolicy name cpus top steps (split_whitespace governors) bottom).

Fixpoint policies_in (r : Roots) (entries : list (result IoError (option string))) (w : W)
    : outcome (list CpuPolicy) :=
  match entries with
  | [] => Ok []
  | Err e :: _ => fail (io_text e)
  | Ok None :: _ => fail "non-UTF8 CPU policy"
  | Ok (Some name) :: entries =>
      if negb (is_policy_name name) then policies_in r entries w
      else
        policy ← cpu_policy r name w;
        rest ← policies_in r entries w;
        Ok (policy :: rest)
  end.

Definition name_le (a b : CpuPolicy) : Prop := ord_le (pol_name a) (pol_name b).

#[local] Instance name_le_dec : RelDecision name_le.
Proof. intros a b. unfold name_le. apply _. Defined.

Definition cpu_policies (r : Roots) (w : W) : outcome (list CpuPolicy) :=
  let cpu_root := path_join (sysfs r) "devices/system/cpu/cpufreq" in
  match read_dir m cpu_root w with
  | Ok entries => found ← policies_in r entries w; Ok (merge_sort name_le found)
  | Err NotFound => Ok []
  | Err e => fail ("read " +:+ cpu_root +:+ ": " +:+ io_text e)
  end.

(** Sysfs and cgroup files must exist already; a read-only sysfs is remounted
    once, never a fixture's root and never the cgroups. *)
Definition write (s : Limitsd) (path value : string) (w : W) : W * outcome unit :=
  match overwrite m path (value +:+ newline) w with
  | (w, Ok _) => (w, Ok ())
  | (w, Err first) =>
      if same_path (sysfs (roots s)) "/sys" && path_starts_with (sysfs (roots s)) path
         && negb (path_starts_with (cgroup_root (roots s)) path)
      then
        match overwrite m path (value +:+ newline) (remount_sys m w) with
        | (w, Ok _) => (w, Ok ())
        | (w, Err e) =>
            (w, fail ("write " +:+ path +:+ ": " +:+ io_text e
                      +:+ " (before retry: " +:+ io_text first +:+ ")"))
        end
      else (w, fail ("write " +:+ path +:+ ": " +:+ io_text first))
  end.

Definition validate_device (s : Limitsd) (d : Defaults) : outcome unit :=
  _ ← limits_validate (def_cpu d);
  _ ← limits_validate (def_gpu d);
  match find (fun p => negb (bool_decide (governor d ∈ available_governors p))) (policies s) with
  | Some p => fail ("governor '" +:+ governor d +:+ "' is unavailable on " +:+ pol_name p)
  | None => Ok ()
  end.

(** Cross the old interval safely: raising min above the old max, or lowering
    max below the old min, is rejected by the kernel. *)
Definition write_interval (s : Limitsd) (root min_name max_name : string) (min max : Z) (w : W)
    : W * outcome unit :=
  get! w, old_min <- number (path_join root min_name) w ;;
  if max <? old_min then
    try! w, u <- write s (path_join root min_name) (decimal min) w ;;
    write s (path_join root max_name) (decimal max) w
  else
    try! w, u <- write s (path_join root max_name) (decimal max) w ;;
    write s (path_join root min_name) (decimal min) w.

(** A policy: the governor first, since some governors reset the limits. *)
Definition apply_policy (s : Limitsd) (d : Defaults) (cpu_max : Z) (p : CpuPolicy) (w : W)
    : W * outcome unit :=
  let path := cpu_path (roots s) (pol_name p) in
  try! w, u <- write s (path_join path "scaling_governor") (governor d) w ;;
  get! w, lo <- mapped (def_cpu d) (cpuinfo_max_freq p) (min_freq p) (pol_frequencies p) ;;
  get! w, hi <- mapped (MkLimits 0 cpu_max) (cpuinfo_max_freq p) (min_freq p) (pol_frequencies p) ;;
  write_interval s path "scaling_min_freq" "scaling_max_freq" lo.1 hi.2 w.

Definition apply_gpu (s : Limitsd) (gpu : Limits) (node : GpuDevfreq) (w : W) : W * outcome unit :=
  match gpu_frequencies node with
  | [] => (w, Err Panicked)
  | bottom :: _ =>
      let top := default bottom (list.last (gpu_frequencies node)) in
      get! w, bounds <- mapped gpu top bottom (gpu_frequencies node) ;;
      write_interval s (gpu_path (roots s) (gpu_name node)) "min_freq" "max_freq" bounds.1 bounds.2 w
  end.

(** [for x in l { f(x)?; }] *)
Fixpoint for_each {A} (f : A -> W -> W * outcome unit) (l : list A) (w : W) : W * outcome unit :=
  match l with
  | [] => (w, Ok ())
  | x :: l => try! w, u <- f x w ;; for_each f l w
  end.

Definition apply_hardware (s : Limitsd) (d : Defaults) (cpu_max : Z) (gpu : Limits) (w : W)
    : W * outcome unit :=
  try! w, u <- for_each (apply_policy s d cpu_max) (policies s) w ;;
  for_each (apply_gpu s gpu) (gpus s) w.

Definition apply_device (s : Limitsd) (d : Defaults) (w : W) : W * outcome unit :=
  apply_hardware s d (lim_max (def_cpu d)) (def_gpu d) w.

(** ** The game's cgroup *)

Definition cgroup (s : Limitsd) (unit_name : string) (w : W) : outcome string :=
  _ ← validate_unit unit_name;
  match canonicalize m (cgroup_root (roots s)) w with
  | Err e => fail ("resolve cgroup root: " +:+ io_text e)
  | Ok root =>
      let expected := path_join (path_join (path_join root PARENT_SLICE) GAME_SLICE) unit_name in
      match canonicalize m (path_join (slice (roots s)) unit_name) w with
      | Err e => fail ("resolve game cgroup: " +:+ io_text e)
      | Ok path =>
          if negb (same_path path expected)
          then fail "game cgroup must resolve at korri.slice/korri-games.slice/<unit>"
          else Ok path
      end
  end.

Definition exists_path (path : string) (w : W) : outcome bool :=
  match try_exists m path w with Ok b => Ok b | Err e => fail (io_text e) end.

Definition populated (s : Limitsd) (unit_name : string) (w : W) : outcome bool :=
  there ← exists_path (path_join (slice (roots s)) unit_name) w;
  if negb there then Ok false
  else
    path ← cgroup s unit_name w;
    events ← read (path_join path "cgroup.events") w;
    match head (filter_map (strip_prefix "populated ") (lines events)) with
    | Some value =>
        if bool_decide (value = "0") then Ok false
        else if bool_decide (value = "1") then Ok true
        else fail "invalid cgroup.events populated value"
    | None => fail "invalid cgroup.events populated value"
    end.

Definition write_uclamp (s : Limitsd) (unit_name : string) (cpu : Limits) (w : W) : W * outcome unit :=
  get! w, path <- cgroup s unit_name w ;;
  try! w, u <- write s (path_join path "cpu.uclamp.min") (decimal (lim_min cpu)) w ;;
  write s (path_join path "cpu.uclamp.max") (decimal (lim_max cpu)) w.

(** ** Sessions *)

Notation step A := (W * Limitsd * outcome A)%type.

(** The [?] of an operation that changes only the world, inside one that also
    changes the service. *)
Notation "'run!' w ',' s '<-' e ';;' k" :=
  (match e with (w, Ok _) => k | (w, Err er) => (w, s, Err er) end)
  (at level 10, w name, s name, e at level 99, k at level 200).

Notation "'look!' w ',' s ',' x '<-' e ';;' k" :=
  (match e with Ok x => k | Err er => (w, s, Err er) end)
  (at level 10, w name, s name, x name, e at level 99, k at level 200).

(** The session stays, as [Reverting], until every write succeeded. *)
Definition restore (w : W) (s : Limitsd) : step unit :=
  let s := set_session ((fun x => Reverting (session_unit x)) <$> session s) s in
  run! w, s <- apply_device s (device s) w ;;
  match session s with
  | None => (w, set_session None s, Ok ())
  | Some x =>
      look! w, s, there <- exists_path (path_join (slice (roots s)) (session_unit x)) w ;;
      if there then
        run! w, s <- write_uclamp s (session_unit x) (MkLimits 0 100) w ;;
        (w, set_session None s, Ok ())
      else (w, set_session None s, Ok ())
  end.

Definition poll_session (w : W) (s : Limitsd) : step unit :=
  match session s with
  | Some (Reverting _) => restore w s
  | Some x =>
      look! w, s, live <- populated s (session_unit x) w ;;
      if live then (w, s, Ok ()) else restore w s
  | None => (w, s, Ok ())
  end.

(** The CPU share of a session: the device's maximum or the game's, if higher. *)
Definition session_cpu_max (d : Defaults) (cpu : Limits) : Z := Z.max (lim_max (def_cpu d)) (lim_max cpu).

Definition reassert (w : W) (s : Limitsd) : step unit :=
  look! w, s, found <- cpu_policies (roots s) w ;;
  let s := set_policies found s in
  match poll_session w s with
  | (w, s, Err e) => (w, s, Err e)
  | (w, s, Ok _) =>
      run! w, s <- for_each (fun dir w => write s (path_join dir "cpu.uclamp.min") "max" w)
                     [parent_slice (roots s); slice (roots s)] w ;;
      match session s with
      | Some (Active unit_name d cpu gpu) =>
          run! w, s <- apply_hardware s d (session_cpu_max d cpu) gpu w ;;
          let '(w, r) := write_uclamp s unit_name cpu w in (w, s, r)
      | _ => let '(w, r) := apply_device s (device s) w in (w, s, r)
      end
  end.

Definition apply_device_request (d : Defaults) (w : W) (s : Limitsd) : step Value :=
  look! w, s, u <- validate_device s d ;;
  match session s with
  | Some _ => (w, set_device d s, Ok Nothing)
  | None =>
      match apply_device s d w with
      | (w, Ok _) => (w, set_device d s, Ok Nothing)
      | (w, Err Panicked) => (w, s, Err Panicked)
      | (w, Err (Failed e)) =>
          match apply_device s (device s) w with
          | (w, Err Panicked) => (w, s, Err Panicked)
          | (w, _) => (w, s, Err (Failed e))
          end
      end
  end.

Definition apply_session_request (unit_name : string) (cpu gpu : Limits) (w : W) (s : Limitsd)
    : step Value :=
  look! w, s, u <- validate_unit unit_name ;;
  look! w, s, u <- limits_validate cpu ;;
  look! w, s, u <- limits_validate gpu ;;
  look! w, s, u <- validate_device s (device s) ;;
  match session s with
  | Some _ => (w, s, fail "a session is already active")
  | None =>
      look! w, s, live <- populated s unit_name w ;;
      if negb live then (w, s, fail "game cgroup must exist and be populated")
      else
        look! w, s, path <- cgroup s unit_name w ;;
        look! w, s, u <- read (path_join path "cpu.uclamp.min") w ;;
        look! w, s, u <- read (path_join path "cpu.uclamp.max") w ;;
        let s := set_session (Some (Active unit_name (device s) cpu gpu)) s in
        let '(w, r) :=
          (try! w, u <- apply_hardware s (device s) (session_cpu_max (device s) cpu) gpu w ;;
           write_uclamp s unit_name cpu w) in
        match r with
        | Ok _ => (w, s, Ok Nothing)
        | Err Panicked => (w, s, Err Panicked)
        | Err (Failed e) =>
            match restore w s with
            | (w, s, Err Panicked) => (w, s, Err Panicked)
            | (w, s, _) => (w, s, Err (Failed e))
            end
        end
  end.

Definition end_session_request (unit_name : string) (w : W) (s : Limitsd) : step Value :=
  look! w, s, u <- validate_unit unit_name ;;
  if negb (is_some_and (session s) (fun x => bool_decide (session_unit x = unit_name)))
  then (w, s, fail "unit does not name the active session")
  else
    match restore w s with
    | (w, s, Err e) => (w, s, Err e)
    | (w, s, Ok _) => (w, s, Ok Nothing)
    end.

Definition execute (request : Request) (w : W) (s : Limitsd) : step Value :=
  look! w, s, found <- cpu_policies (roots s) w ;;
  let s := set_policies found s in
  match request with
  | Describe => (w, s, Ok (Description (defaults s) (policies s) (gpus s)))
  | ApplyDevice d => apply_device_request d w s
  | ApplySession unit_name cpu gpu => apply_session_request unit_name cpu gpu w s
  | EndSession unit_name => end_session_request unit_name w s
  end.

(** [None] is a panic. *)
Definition handle (request : Request) (w : W) (s : Limitsd) : W * Limitsd * option Response :=
  match execute request w s with
  | (w, s, Ok value) => (w, s, Some (ROk value))
  | (w, s, Err (Failed message)) => (w, s, Some (RErr message))
  | (w, s, Err Panicked) => (w, s, None)
  end.

(** ** Starting *)

Definition gpu_node (r : Roots) (w : W) (name : string) : outcome GpuDevfreq :=
  if negb (is_gpu_node name) then fail "invalid configured GPU node"
  else
    steps ← frequencies (path_join (gpu_path r name) "available_frequencies") w;
    match steps with
    | [] => fail ("GPU " +:+ name +:+ " has no available_frequencies")
    | _ => Ok (MkGpu name steps)
    end.

Definition start (r : Roots) (d : Defaults) (gpu_nodes : list string) (w : W) : W * outcome Limitsd :=
  get! w, found <- cpu_policies r w ;;
  get! w, nodes <- collect (gpu_node r w) gpu_nodes ;;
  let s := MkLimitsd r d d found nodes None in
  get! w, u <- validate_device s d ;;
  try! w, u <- for_each (fun dir w =>
                 try! w, u <- write s (path_join dir "cgroup.subtree_control") "+cpu" w ;;
                 write s (path_join dir "cpu.uclamp.min") "max" w)
               [parent_slice r; slice r] w ;;
  try! w, u <- apply_device s (device s) w ;;
  (w, Ok s).

(** ** One connection *)

(** What the socket yields: the peer's uid, and up to 4097 bytes that end at the
    first newline. *)
Record Connection := MkConnection {
  peer_uid : result string Z;
  frame : result string (list Z);
}.

Variable parse_request : list Z -> result string Request.

Definition receive (c : Connection) (allowed_uid : Z) : result string Request :=
  uid ← peer_uid c;
  bytes ← map_err (fun e => "read request: " +:+ e) (frame c);
  if negb (uid =? allowed_uid) then Err "peer uid is not korrid"
  else if (4096 <? Z.of_nat (length bytes)) || negb (bool_decide (list.last bytes = Some LF))
  then Err "request must be one JSON line of at most 4096 bytes"
  else map_err (fun e => "invalid request: " +:+ e) (parse_request bytes).

Definition serve_connection (c : Connection) (allowed_uid : Z) (w : W) (s : Limitsd)
    : W * Limitsd * option Response :=
  match receive c allowed_uid with
  | Ok request => handle request w s
  | Err message => (w, s, Some (RErr message))
  end.
End machine.

(** ** Hardware files *)

#[export] Instance CpuPolicy_eq_dec : EqDecision CpuPolicy.
Proof. solve_decision. Defined.
#[export] Instance GpuDevfreq_eq_dec : EqDecision GpuDevfreq.
Proof. solve_decision. Defined.

Definition cpu_file (r : Roots) (name leaf : string) : string := path_join (cpu_path r name) leaf.
Definition gpu_file (r : Roots) (name leaf : string) : string := path_join (gpu_path r name) leaf.

(** What [path_join] puts before its argument. *)
Definition join_prefix (root : string) : string :=
  match reverse (to_text root) with
  | [] => ""
  | a :: _ => if is_byte SLASH a then root else root +:+ "/"
  end.

Lemma path_join_prefix root rest : path_join root rest = join_prefix root +:+ rest.
Proof.
  unfold path_join, join_prefix. destruct (reverse (to_text root)) as [|a l]; [done|].
  destruct (is_byte SLASH a); [done|]. by rewrite append_assoc.
Qed.

(** The last byte tells the files of the hardware from those of a cgroup. *)
Definition last_byte (s : string) : option ascii := list.last (to_text s).

Lemma last_path_join root leaf a : last_byte leaf = Some a -> last_byte (path_join root leaf) = Some a.
Proof. unfold last_byte. intros Hl. by rewrite path_join_prefix, to_text_app, last_app, Hl. Qed.

Lemma plain_name_prefix root name :
  str_is_empty name = false -> no_byte SLASH name = true ->
  join_prefix (path_join root name) = path_join root name +:+ "/".
Proof.
  intros He Hn. unfold join_prefix. rewrite path_join_prefix, to_text_app, reverse_app.
  unfold no_byte in Hn. rewrite all_chars_text, forallb_spec in Hn.
  destruct (reverse (to_text name)) as [|a l] eqn:Hr.
  - apply (f_equal reverse) in Hr. rewrite reverse_involutive in Hr. by destruct name.
  - simpl. assert (Ha : a ∈ to_text name).
    { rewrite <- (reverse_involutive (to_text name)), Hr, elem_of_reverse. left. }
    apply Hn, negb_true_iff in Ha. by rewrite Ha.
Qed.

(** A name that is a directory of the hardware. *)
Definition node_name (name : string) : Prop := str_is_empty name = false /\ no_byte SLASH name = true.

Lemma cpu_file_eq r name leaf :
  node_name name ->
  cpu_file r name leaf = join_prefix (sysfs r) +:+ "devices/system/cpu/cpufreq/" +:+ name +:+ "/" +:+ leaf.
Proof.
  intros [He Hn]. unfold cpu_file. rewrite path_join_prefix. unfold cpu_path.
  rewrite plain_name_prefix by done. rewrite (path_join_prefix _ name), (path_join_prefix (sysfs r)).
  unfold join_prefix at 1. rewrite to_text_app, reverse_app. simpl.
  rewrite <- !append_assoc. reflexivity.
Qed.

Lemma gpu_file_eq r name leaf :
  node_name name ->
  gpu_file r name leaf = join_prefix (sysfs r) +:+ "class/devfreq/" +:+ name +:+ "/" +:+ leaf.
Proof.
  intros [He Hn]. unfold gpu_file. rewrite path_join_prefix. unfold gpu_path.
  rewrite plain_name_prefix by done. rewrite (path_join_prefix _ name), (path_join_prefix (sysfs r)).
  unfold join_prefix at 1. rewrite to_text_app, reverse_app. simpl.
  rewrite <- !append_assoc. reflexivity.
Qed.

Lemma cpu_file_inj r n n' l l' :
  node_name n -> node_name n' -> cpu_file r n l = cpu_file r n' l' -> n = n' /\ l = l'.
Proof.
  intros Hn Hn'. rewrite !cpu_file_eq by done. intros Heq.
  apply string_app_inj, string_app_inj in Heq. apply app_slash_inj in Heq; [done|apply Hn|apply Hn'].
Qed.

Lemma gpu_file_inj r n n' l l' :
  node_name n -> node_name n' -> gpu_file r n l = gpu_file r n' l' -> n = n' /\ l = l'.
Proof.
  intros Hn Hn'. rewrite !gpu_file_eq by done. intros Heq.
  apply string_app_inj, string_app_inj in Heq. apply app_slash_inj in Heq; [done|apply Hn|apply Hn'].
Qed.

Lemma cpu_gpu_file r n n' l l' : node_name n -> node_name n' -> cpu_file r n l <> gpu_file r n' l'.
Proof.
  intros Hn Hn'. rewrite cpu_file_eq, gpu_file_eq by done. intros Heq.
  apply string_app_inj in Heq. discriminate Heq.
Qed.

Lemma policy_node_name name : is_policy_name name = true -> node_name name.
Proof.
  unfold is_policy_name, node_name, no_byte. intros Hp.
  destruct (strip_prefix "policy" name) as [rest|] eqn:Hs; [|done].
  apply strip_prefix_Some in Hs as ->. apply andb_true_iff in Hp as [_ Hd]. split; [done|].
  rewrite all_chars_text in *. simpl. rewrite forallb_spec in *. intros a Ha.
  apply negb_true_iff. apply Hd, is_digit_byte in Ha. unfold is_byte, SLASH. apply Z.eqb_neq. lia.
Qed.

Lemma gpu_node_name name : is_gpu_node name = true -> node_name name.
Proof.
  unfold is_gpu_node, node_name, no_byte. intros [He Ha]%andb_true_iff.
  apply negb_true_iff in He. apply orb_false_iff in He as [He _]. apply orb_false_iff in He as [He _].
  split; [done|]. rewrite all_chars_text, forallb_spec in *. intros a Hin. specialize (Ha a Hin).
  apply negb_true_iff. unfold is_byte, SLASH. apply Z.eqb_neq. intros Hb.
  unfold is_ascii_alphanumeric, is_ascii_digit, is_byte in Ha. by rewrite Hb in Ha.
Qed.

(** A governor may reset the limits of its own policy. *)
Definition resets (p q : string) : Prop :=
  exists dir, p = path_join dir "scaling_governor" /\
    (q = path_join dir "scaling_min_freq" \/ q = path_join dir "scaling_max_freq").

Lemma resets_cpu r name q :
  resets (cpu_file r name "scaling_governor") q ->
  q = cpu_file r name "scaling_min_freq" \/ q = cpu_file r name "scaling_max_freq".
Proof.
  intros (dir & Hp & Hq). unfold cpu_file in *. rewrite !path_join_prefix in *.
  assert (Hd : join_prefix (cpu_path r name) = join_prefix dir).
  { apply (f_equal to_text) in Hp. rewrite !to_text_app in Hp. apply app_inj_2 in Hp as [Hp _]; [|done].
    by rewrite <- (of_to_text (join_prefix _)), Hp, of_to_text. }
  by rewrite Hd.
Qed.

Lemma resets_last p q : resets p q -> last_byte p = Some "r"%char /\ (last_byte q = Some "q"%char).
Proof. intros (dir & -> & [-> | ->]); split; by apply last_path_join. Qed.

(** The attributes the daemon sets on the hardware: three of a CPU policy, two of
    a GPU node. *)
Definition device_attribute (r : Roots) (p : string) : Prop :=
  (exists name leaf, is_policy_name name = true /\
     leaf ∈ ["scaling_governor"; "scaling_min_freq"; "scaling_max_freq"] /\ p = cpu_file r name leaf) \/
  (exists name leaf, is_gpu_node name = true /\
     leaf ∈ ["min_freq"; "max_freq"] /\ p = gpu_file r name leaf).

(** The attributes it writes in a cgroup. *)
Definition cgroup_attribute (p : string) : Prop :=
  exists dir leaf, leaf ∈ ["cpu.uclamp.min"; "cpu.uclamp.max"; "cgroup.subtree_control"] /\
    p = path_join dir leaf.

Lemma policy_attribute r name leaf :
  is_policy_name name = true -> leaf ∈ ["scaling_governor"; "scaling_min_freq"; "scaling_max_freq"] ->
  device_attribute r (cpu_file r name leaf).
Proof. intros Hn Hl. left. by exists name, leaf. Qed.

Lemma gpu_attribute r name leaf :
  is_gpu_node name = true -> leaf ∈ ["min_freq"; "max_freq"] -> device_attribute r (gpu_file r name leaf).
Proof. intros Hn Hl. right. by exists name, leaf. Qed.

(** What the attributes of cpufreq and devfreq document, as far as the daemon
    alone asks for limits: a store that succeeds is shown by the next read; a
    store to another attribute of the hardware, or to one of a cgroup, leaves
    the attribute as it is, except for what a governor resets. Nothing is said
    of what a cgroup's file shows after a store. *)
Class MachineLaws {W} (m : Machine W) (r : Roots) : Prop := {
  ml_shows p v w w' :
    device_attribute r p -> overwrite m p v w = (w', Ok ()) -> read_to_string m p w' = Ok v;
  ml_frame p v w q :
    device_attribute r p \/ cgroup_attribute p -> device_attribute r q -> q <> p -> ~ resets p q ->
    read_to_string m q (overwrite m p v w).1 = read_to_string m q w;
  ml_remount q w :
    device_attribute r q -> read_to_string m q (remount_sys m w) = read_to_string m q w;
}.

(** ** What a successful apply establishes *)

Section shows.
Context {W : Type} (m : Machine W).

(** The attribute shows [v] on a line. *)
Definition shows_value (q v : string) (w : W) : Prop := read_to_string m q w = Ok (v +:+ newline).

(** The files of one policy show a device's values. *)
Definition policy_shows (r : Roots) (d : Defaults) (cpu_max : Z) (p : CpuPolicy) (w : W) : Prop :=
  exists lo hi,
    mapped (def_cpu d) (cpuinfo_max_freq p) (min_freq p) (pol_frequencies p) = Ok lo /\
    mapped (MkLimits 0 cpu_max) (cpuinfo_max_freq p) (min_freq p) (pol_frequencies p) = Ok hi /\
    shows_value (cpu_file r (pol_name p) "scaling_governor") (governor d) w /\
    shows_value (cpu_file r (pol_name p) "scaling_min_freq") (decimal lo.1) w /\
    shows_value (cpu_file r (pol_name p) "scaling_max_freq") (decimal hi.2) w.

Definition gpu_shows (r : Roots) (gpu : Limits) (g : GpuDevfreq) (w : W) : Prop :=
  exists bounds,
    mapped gpu (default 0 (list.last (gpu_frequencies g))) (default 0 (head (gpu_frequencies g)))
      (gpu_frequencies g) = Ok bounds /\
    shows_value (gpu_file r (gpu_name g) "min_freq") (decimal bounds.1) w /\
    shows_value (gpu_file r (gpu_name g) "max_freq") (decimal bounds.2) w.

Definition hardware_shows (s : Limitsd) (d : Defaults) (cpu_max : Z) (gpu : Limits) (w : W) : Prop :=
  (forall p, p ∈ policies s -> policy_shows (roots s) d cpu_max p w) /\
  (forall g, g ∈ gpus s -> gpu_shows (roots s) gpu g w).

(** [f] leaves the attribute [q] alone. *)
Definition leaves (q : string) (f : W -> W * outcome unit) : Prop :=
  forall w, read_to_string m q (f w).1 = read_to_string m q w.
End shows.

Section applied.
Context {W : Type} (m : Machine W) (s : Limitsd) `{!MachineLaws m (roots s)}.

Notation shows_value := (shows_value m).
Notation leaves := (leaves m).
Notation attribute := (device_attribute (roots s)).

Lemma write_shows p v w w' : attribute p -> write m s p v w = (w', Ok ()) -> shows_value p v w'.
Proof.
  intros Hp. unfold write, Limits.shows_value. destruct (overwrite m p (v +:+ newline) w) as [w1 [[]|e]] eqn:Ho.
  - intros [= <-]. by eapply ml_shows.
  - destruct (_ && _); [|done].
    destruct (overwrite m p (v +:+ newline) (remount_sys m w1)) as [w2 [[]|e2]] eqn:Ho2; [|done].
    intros [= <-]. by eapply ml_shows.
Qed.

Lemma write_leaves p v q :
  attribute p \/ cgroup_attribute p -> attribute q -> q <> p -> ~ resets p q -> leaves q (write m s p v).
Proof.
  intros Hp Hq Hne Hr w. unfold write. pose proof (ml_frame p (v +:+ newline) w q Hp Hq Hne Hr) as H1.
  destruct (overwrite m p (v +:+ newline) w) as [w1 [u|e]]; [done|]. simpl in H1.
  destruct (_ && _); [|done].
  pose proof (ml_frame p (v +:+ newline) (remount_sys m w1) q Hp Hq Hne Hr) as H2. rewrite ml_remount in H2 by done.
  destruct (overwrite m p (v +:+ newline) (remount_sys m w1)) as [w2 [u|e2]]; simpl in *; congruence.
Qed.

Lemma try_leaves q f (g : unit -> W -> W * outcome unit) :
  leaves q f -> (forall u, leaves q (g u)) -> leaves q (fun w => try! w, u <- f w ;; g u w).
Proof.
  intros Hf Hg w. specialize (Hf w). destruct (f w) as [w1 [u|e]]; simpl in *; [|done].
  by rewrite Hg.
Qed.

Lemma for_each_leaves {A} q (f : A -> W -> W * outcome unit) l :
  (forall x, x ∈ l -> leaves q (f x)) -> leaves q (for_each f l).
Proof.
  induction l as [|x l IH]; intros Hf; [by intros w|].
  apply (try_leaves q (f x) (fun _ => for_each f l)); [apply Hf; left|].
  intros _. apply IH. intros y Hy. apply Hf. by right.
Qed.

(** Every element is established, when the others leave it alone. *)
Lemma for_each_establishes {A} `{EqDecision A} (Q : A -> W -> Prop) (f : A -> W -> W * outcome unit) l w w' :
  (forall x w w', x ∈ l -> f x w = (w', Ok ()) -> Q x w') ->
  (forall x y w, x ∈ l -> y ∈ l -> x <> y -> Q x w -> Q x (f y w).1) ->
  for_each f l w = (w', Ok ()) -> forall x, x ∈ l -> Q x w'.
Proof.
  intros Hest Hkeep.
  cut (forall l' w, l' ⊆ l -> for_each f l' w = (w', Ok ()) ->
         forall x, x ∈ l -> x ∈ l' \/ Q x w -> Q x w').
  { intros Hcut Hrun x Hx. by apply (Hcut l w) with (x := x); auto. }
  intros l'; induction l' as [|y l' IH]; intros w1 Hsub; simpl.
  { intros [= <-] x _ [Hx|Hx]; [by apply not_elem_of_nil in Hx|done]. }
  destruct (f y w1) as [w2 [[]|e]] eqn:Hf; [|done]. intros Hrun x Hx Hor.
  assert (Hy : y ∈ l) by (apply Hsub; left).
  apply (IH w2); [intros z Hz; apply Hsub; by right|done|done|].
  destruct (decide (x = y)) as [->|Hne]; [right; by eapply Hest|].
  destruct Hor as [[->|Hin]%elem_of_cons|HQ]; [done|by left|right].
  pose proof (Hkeep x y w1 Hx Hy Hne HQ) as HQ2. by rewrite Hf in HQ2.
Qed.

Lemma write_interval_shows root lo_name hi_name lo hi w w' :
  attribute (path_join root lo_name) -> attribute (path_join root hi_name) ->
  path_join root lo_name <> path_join root hi_name ->
  last_byte lo_name = Some "q"%char -> last_byte hi_name = Some "q"%char ->
  write_interval m s root lo_name hi_name lo hi w = (w', Ok ()) ->
  shows_value (path_join root lo_name) (decimal lo) w' /\
  shows_value (path_join root hi_name) (decimal hi) w'.
Proof.
  intros Halo Hahi Hne Hlo Hhi. unfold write_interval.
  assert (Hr : forall root name q, last_byte name = Some "q"%char -> ~ resets (path_join root name) q).
  { intros root' name q Hl [Hc _]%resets_last. rewrite (last_path_join _ _ _ Hl) in Hc. done. }
  assert (Htwo : forall p q x y w w', attribute p -> attribute q -> p <> q -> ~ resets q p ->
    (try! w, u <- write m s p x w ;; write m s q y w) = (w', Ok ()) ->
    shows_value p x w' /\ shows_value q y w').
  { intros p q x y w0 w2 Hp Hq Hpq Hrq. destruct (write m s p x w0) as [w1 [[]|e]] eqn:H1; [|done].
    intros H2. split; [|by eapply write_shows].
    pose proof (write_leaves q y p (or_introl Hq) Hp Hpq Hrq w1) as Hl.
    rewrite H2 in Hl. simpl in Hl. unfold Limits.shows_value. rewrite Hl. by eapply write_shows. }
  destruct (number m _ w) as [old|e]; [|done]. destruct (hi <? old).
  - apply Htwo; auto.
  - intros Hrun. apply Htwo in Hrun as [? ?]; auto.
Qed.

Lemma write_interval_leaves root lo_name hi_name lo hi q :
  attribute (path_join root lo_name) -> attribute (path_join root hi_name) -> attribute q ->
  last_byte lo_name = Some "q"%char -> last_byte hi_name = Some "q"%char ->
  q <> path_join root lo_name -> q <> path_join root hi_name ->
  leaves q (write_interval m s root lo_name hi_name lo hi).
Proof.
  intros Halo Hahi Hq Hlo Hhi H1 H2.
  assert (Hr : forall name, last_byte name = Some "q"%char -> ~ resets (path_join root name) q).
  { intros name Hl [Hc _]%resets_last. rewrite (last_path_join _ _ _ Hl) in Hc. done. }
  intros w. unfold write_interval. destruct (number m _ w) as [old|e]; [|done]. destruct (hi <? old).
  - by apply (try_leaves q (write m s _ _) (fun _ => write m s _ _)); [|intros _]; apply write_leaves; auto.
  - by apply (try_leaves q (write m s _ _) (fun _ => write m s _ _)); [|intros _]; apply write_leaves; auto.
Qed.

Lemma apply_policy_shows d cpu_max p w w' :
  is_policy_name (pol_name p) = true -> apply_policy m s d cpu_max p w = (w', Ok ()) ->
  policy_shows m (roots s) d cpu_max p w'.
Proof.
  intros Hn. pose proof (policy_node_name _ Hn) as Hnn.
  assert (Hat : forall leaf, leaf ∈ ["scaling_governor"; "scaling_min_freq"; "scaling_max_freq"] ->
    attribute (cpu_file (roots s) (pol_name p) leaf)) by (intros leaf; by apply policy_attribute).
  unfold apply_policy. unfold cpu_file in Hat. set (path := cpu_path (roots s) (pol_name p)) in *.
  destruct (write m s (path_join path "scaling_governor") (governor d) w) as [w1 [[]|e]] eqn:Hg; [|done].
  destruct (mapped (def_cpu d) _ _ _) as [lo|e] eqn:Hlo; [|done].
  destruct (mapped (MkLimits 0 cpu_max) _ _ _) as [hi|e] eqn:Hhi; [|done]. intros Hi.
  assert (Hne : forall l l', l <> l' -> path_join path l <> path_join path l').
  { intros l l' Hl Heq. apply (cpu_file_inj (roots s) (pol_name p) (pol_name p) l l') in Heq as [_ ?]; done. }
  assert (Ha1 : attribute (path_join path "scaling_governor")) by (apply Hat; set_solver).
  assert (Ha2 : attribute (path_join path "scaling_min_freq")) by (apply Hat; set_solver).
  assert (Ha3 : attribute (path_join path "scaling_max_freq")) by (apply Hat; set_solver).
  exists lo, hi. split_and!; [done|done| |by eapply write_interval_shows in Hi as [? ?]; auto..].
  pose proof (write_interval_leaves path "scaling_min_freq" "scaling_max_freq" lo.1 hi.2
    (path_join path "scaling_governor") Ha2 Ha3 Ha1 eq_refl eq_refl) as Hl.
  unfold Limits.shows_value, cpu_file. fold path.
  specialize (Hl ltac:(by apply Hne) ltac:(by apply Hne) w1). rewrite Hi in Hl. simpl in Hl. rewrite Hl.
  by eapply write_shows.
Qed.

Lemma apply_policy_leaves d cpu_max p q :
  is_policy_name (pol_name p) = true -> attribute q ->
  q <> cpu_file (roots s) (pol_name p) "scaling_governor" ->
  q <> cpu_file (roots s) (pol_name p) "scaling_min_freq" ->
  q <> cpu_file (roots s) (pol_name p) "scaling_max_freq" ->
  leaves q (apply_policy m s d cpu_max p).
Proof.
  intros Hn Hq H1 H2 H3 w. unfold apply_policy.
  apply (try_leaves q (write m s _ _)
    (fun _ w => get! w, lo <- mapped (def_cpu d) (cpuinfo_max_freq p) (min_freq p) (pol_frequencies p) ;;
                get! w, hi <- mapped (MkLimits 0 cpu_max) (cpuinfo_max_freq p) (min_freq p) (pol_frequencies p) ;;
                write_interval m s _ _ _ lo.1 hi.2 w)).
  - apply write_leaves; [left; apply policy_attribute; [done|set_solver]|done|done|].
    by intros [?|?]%(resets_cpu (roots s) (pol_name p)).
  - intros _ w1. destruct (mapped (def_cpu d) _ _ _) as [lo|e]; [|done].
    destruct (mapped (MkLimits 0 cpu_max) _ _ _) as [hi|e]; [|done].
    by apply write_interval_leaves; [apply policy_attribute; [done|set_solver]..|done| | | |].
Qed.

Lemma apply_gpu_shows gpu g w w' :
  is_gpu_node (gpu_name g) = true -> apply_gpu m s gpu g w = (w', Ok ()) -> gpu_shows m (roots s) gpu g w'.
Proof.
  intros Hn. pose proof (gpu_node_name _ Hn) as Hnn.
  unfold apply_gpu, gpu_shows. destruct (gpu_frequencies g) as [|bottom steps] eqn:Hf; [done|].
  assert (Hl : exists top, list.last (bottom :: steps) = Some top).
  { destruct (list.last (bottom :: steps)) eqn:E; [eauto|]. by apply last_None in E. }
  destruct Hl as [top Hl]. rewrite Hl. simpl.
  destruct (mapped gpu top bottom (bottom :: steps)) as [bounds|e] eqn:Hm; [|done]. intros Hi.
  exists bounds. split; [done|].
  apply write_interval_shows in Hi; [done|apply gpu_attribute; [done|set_solver]..| |done|done].
  intros Heq. apply (gpu_file_inj (roots s) (gpu_name g) (gpu_name g)) in Heq as [_ ?]; done.
Qed.

Lemma apply_gpu_leaves gpu g q :
  is_gpu_node (gpu_name g) = true -> attribute q ->
  q <> gpu_file (roots s) (gpu_name g) "min_freq" -> q <> gpu_file (roots s) (gpu_name g) "max_freq" ->
  leaves q (apply_gpu m s gpu g).
Proof.
  intros Hn Hq H1 H2 w. unfold apply_gpu. destruct (gpu_frequencies g); [done|].
  destruct (mapped _ _ _ _); [|done].
  by apply write_interval_leaves; [apply gpu_attribute; [done|set_solver]..|done| | | |].
Qed.
End applied.

(** ** The interval [mapped] selects *)

Definition clamped (top bottom raw : Z) : Z := Z.max bottom (Z.min top raw).

Definition max_choice (m top bottom : Z) (steps : list Z) : Z :=
  default (default (clamped top bottom (wrap_u64 (top * m / 100))) (head steps))
    (find (fun v => step_percent top v <=? m) (reverse steps)).

Definition min_choice (m top bottom : Z) (steps : list Z) : Z :=
  default (default (clamped top bottom (wrap_u64 (div_ceil (top * m) 100))) (list.last steps))
    (find (fun v => m <=? step_percent top v) steps).

Lemma mapped_ok l top bottom steps :
  0 < top -> bottom <= top ->
  mapped l top bottom steps =
    Ok (Z.min (min_choice (lim_min l) top bottom steps) (max_choice (lim_max l) top bottom steps),
        max_choice (lim_max l) top bottom steps).
Proof.
  intros Ht Hb. unfold mapped, max_choice, min_choice, clamped.
  rewrite (proj2 (Z.eqb_neq top 0)), andb_false_r by lia. rewrite (proj2 (Z.ltb_ge top bottom)) by lia.
  destruct (find _ (reverse steps)); destruct (find _ steps); simpl;
    destruct (head steps); destruct (list.last steps); done.
Qed.

Lemma find_app {A} (f : A -> bool) l1 l2 :
  find f (l1 ++ l2) = match find f l1 with Some x => Some x | None => find f l2 end.
Proof. induction l1 as [|x l1 IH]; simpl; [done|]. by destruct (f x). Qed.

Lemma find_last_max (f : Z -> bool) l v :
  StronglySorted Z.le l -> find f (reverse l) = Some v ->
  v ∈ l /\ f v = true /\ forall u, u ∈ l -> f u = true -> u <= v.
Proof.
  induction l as [|x l IH]; [done|]. intros [Hs Hx]%StronglySorted_inv.
  rewrite reverse_cons, find_app. destruct (find f (reverse l)) as [y|] eqn:Hf.
  - intros [= <-]. destruct (IH Hs eq_refl) as (Hin & Hy & Hmax). split_and!; [by right|done|].
    intros u [->|Hu]%elem_of_cons Hfu; [|by apply Hmax]. rewrite Forall_forall in Hx. by apply Hx.
  - simpl. destruct (f x) eqn:Hfx; [|done]. intros [= <-]. split_and!; [left|done|].
    intros u [->|Hu]%elem_of_cons Hfu; [done|]. rewrite find_None in Hf.
    rewrite Hf in Hfu; [done|]. by rewrite elem_of_reverse.
Qed.

Lemma find_first_min (f : Z -> bool) l v :
  StronglySorted Z.le l -> find f l = Some v ->
  v ∈ l /\ f v = true /\ forall u, u ∈ l -> f u = true -> v <= u.
Proof.
  induction l as [|x l IH]; [done|]. intros [Hs Hx]%StronglySorted_inv. simpl.
  destruct (f x) eqn:Hfx.
  - intros [= <-]. split_and!; [left|done|]. intros u [->|Hu]%elem_of_cons _; [done|].
    rewrite Forall_forall in Hx. by apply Hx.
  - intros Hf. destruct (IH Hs Hf) as (Hin & Hy & Hmin). split_and!; [by right|done|].
    intros u [->|Hu]%elem_of_cons Hfu; [congruence|by apply Hmin].
Qed.

Lemma max_choice_mono m m' top bottom steps :
  0 < top <= u64_max -> 0 <= m <= m' -> m' <= 100 -> StronglySorted Z.le steps ->
  max_choice m top bottom steps <= max_choice m' top bottom steps.
Proof.
  intros Ht Hm Hm' Hs. unfold max_choice.
  destruct (find (fun v => step_percent top v <=? m) (reverse steps)) as [v|] eqn:Hv.
  - destruct (find_last_max _ _ _ Hs Hv) as (Hin & Hle & _). rewrite Z.leb_le in Hle.
    destruct (find (fun v => step_percent top v <=? m') (reverse steps)) as [v'|] eqn:Hv'; simpl.
    + apply (find_last_max _ _ _ Hs Hv'); [done|]. rewrite Z.leb_le. lia.
    + rewrite find_None in Hv'. specialize (Hv' v). rewrite elem_of_reverse, Z.leb_gt in Hv'.
      specialize (Hv' Hin). lia.
  - destruct (find (fun v => step_percent top v <=? m') (reverse steps)) as [v'|] eqn:Hv'; simpl.
    + destruct (find_last_max _ _ _ Hs Hv') as (Hin & _ & _).
      destruct steps as [|x steps]; [by apply not_elem_of_nil in Hin|]. simpl.
      apply StronglySorted_inv in Hs as [_ Hx]. apply elem_of_cons in Hin as [->|Hin]; [done|].
      rewrite Forall_forall in Hx. by apply Hx.
    + destruct (head steps); simpl; [done|]. unfold clamped, wrap_u64, u64_max in *.
      assert (top * m / 100 <= top * m' / 100) by (apply Z.div_le_mono; nia).
      assert (0 <= top * m / 100) by (apply Z.div_pos; nia).
      assert (top * m' / 100 <= top) by (apply Z.div_le_upper_bound; nia).
      rewrite !Z.mod_small by lia. lia.
Qed.

(** The interval written for a policy is never inverted. *)
Lemma policy_interval_ordered d cpu_max top bottom steps lo hi :
  0 < top <= u64_max -> bottom <= top -> StronglySorted Z.le steps ->
  0 <= lim_max (def_cpu d) <= cpu_max -> cpu_max <= 100 ->
  mapped (def_cpu d) top bottom steps = Ok lo -> mapped (MkLimits 0 cpu_max) top bottom steps = Ok hi ->
  lo.1 <= hi.2.
Proof.
  intros Ht Hb Hs Hm Hc. rewrite !mapped_ok by lia. intros [= <-] [= <-]. simpl.
  pose proof (max_choice_mono (lim_max (def_cpu d)) cpu_max top bottom steps Ht Hm Hc Hs). lia.
Qed.

(** What a device's values have to satisfy, and what they look like when they
    come from a request. *)
Definition valid_limits (l : Limits) : Prop := 0 <= lim_min l <= lim_max l /\ 1 <= lim_max l <= 100.

Definition typed_limits (l : Limits) : Prop := in_u8 (lim_min l) /\ in_u8 (lim_max l).

Lemma limits_validate_ok l u : typed_limits l -> limits_validate l = Ok u -> valid_limits l.
Proof.
  unfold typed_limits, in_u8, limits_validate, valid_limits. intros Ht.
  destruct (_ || _) eqn:Hc; [done|]. intros _.
  rewrite !orb_false_iff, !Z.ltb_ge, Z.eqb_neq in Hc. lia.
Qed.

(** The selected interval. It is never inverted, and never truncated to 64
    bits. With a step list both ends are steps: the upper end is the highest
    step whose rounded percent is within the maximum (the lowest step when none
    is), the lower end the lowest step whose percent reaches the minimum, capped
    by the upper end. Without one both lie in the range of the hardware. *)
Theorem mapped_spec l top bottom steps :
  valid_limits l -> 0 < bottom <= top -> top <= u64_max -> StronglySorted Z.le steps ->
  exists lo hi, mapped l top bottom steps = Ok (lo, hi) /\ lo <= hi /\
    match steps with
    | [] =>
        bottom <= lo /\ hi <= top /\ hi = Z.max bottom (top * lim_max l / 100) /\
        lo = Z.min hi (Z.max bottom (div_ceil (top * lim_min l) 100))
    | first :: _ =>
        lo ∈ steps /\ hi ∈ steps /\
        (forall v, v ∈ steps -> step_percent top v <= lim_max l -> v <= hi) /\
        (step_percent top hi <= lim_max l \/
         hi = first /\ forall v, v ∈ steps -> lim_max l < step_percent top v) /\
        (lo < hi -> lim_min l <= step_percent top lo) /\
        (forall v, v ∈ steps -> lim_min l <= step_percent top v -> lo <= v)
    end.
Proof.
  intros [Hmin Hmax] Hb Ht Hs. rewrite mapped_ok by lia. eexists _, _. split; [done|]. split; [lia|].
  destruct steps as [|first rest].
  - unfold max_choice, min_choice, clamped, wrap_u64, div_ceil, u64_max in *. simpl.
    assert (0 <= top * lim_max l / 100 <= top)
      by (split; [apply Z.div_pos; nia|apply Z.div_le_upper_bound; nia]).
    assert (0 <= (top * lim_min l + 100 - 1) / 100 <= top)
      by (split; [apply Z.div_pos; nia|apply Z.lt_succ_r, Z.div_lt_upper_bound; nia]).
    rewrite !Z.mod_small by lia. lia.
  - set (steps := first :: rest) in *.
    assert (Hhi : max_choice (lim_max l) top bottom steps ∈ steps /\
      (forall v, v ∈ steps -> step_percent top v <= lim_max l -> v <= max_choice (lim_max l) top bottom steps) /\
      (step_percent top (max_choice (lim_max l) top bottom steps) <= lim_max l \/
       max_choice (lim_max l) top bottom steps = first /\
       forall v, v ∈ steps -> lim_max l < step_percent top v)).
    { unfold max_choice. destruct (find _ (reverse steps)) as [v|] eqn:Hf; simpl.
      - destruct (find_last_max _ _ _ Hs Hf) as (Hin & Hle & Hm). rewrite Z.leb_le in Hle.
        split_and!; [done| |by left]. intros u Hu Hp. apply Hm; [done|]. by apply Z.leb_le.
      - rewrite find_None in Hf.
        assert (Hall : forall v, v ∈ steps -> lim_max l < step_percent top v).
        { intros v Hv. apply Z.leb_gt, Hf. by rewrite elem_of_reverse. }
        split_and!; [left| |by right]. intros v Hv Hp. specialize (Hall v Hv). lia. }
    destruct Hhi as (Hin & Hcap & Hor). set (hi := max_choice _ _ _ _) in *.
    unfold min_choice. destruct (find _ steps) as [v|] eqn:Hf; simpl.
    + destruct (find_first_min _ _ _ Hs Hf) as (Hvin & Hle & Hm). rewrite Z.leb_le in Hle.
      split_and!; [by destruct (Z.min_dec v hi) as [->| ->]|done|done|done| |].
      * intros Hlt. by rewrite Z.min_l by lia.
      * intros u Hu Hp. assert (v <= u) by (apply Hm; [done|by apply Z.leb_le]). lia.
    + rewrite find_None in Hf.
      destruct (list.last steps) as [z|] eqn:Hz; [|by apply last_None in Hz]. simpl.
      assert (Hzin : z ∈ steps) by (by apply last_Some_elem_of).
      assert (Hzmax : forall u, u ∈ steps -> u <= z).
      { apply last_Some in Hz as [front Hz]. rewrite Hz in Hs |- *. intros u Hu.
        apply elem_of_app in Hu as [Hu|[->|?%not_elem_of_nil]%elem_of_cons]; [|done|done].
        apply (StronglySorted_app_1_elem_of _ _ _ u z Hs Hu). left. }
      split_and!; [by destruct (Z.min_dec z hi) as [->| ->]|done|done|done| |].
      * specialize (Hzmax hi Hin). lia.
      * intros u Hu Hp. specialize (Hf u Hu). rewrite Z.leb_gt in Hf. lia.
Qed.

(** ** The invariant *)

Record policy_ok (p : CpuPolicy) : Prop := {
  po_name : is_policy_name (pol_name p) = true;
  po_bottom : 0 < min_freq p <= cpuinfo_max_freq p;
  po_top : cpuinfo_max_freq p <= u64_max;
  po_steps : StronglySorted Z.le (pol_frequencies p);
  po_range : Forall (fun v => 0 < v <= u64_max) (pol_frequencies p);
}.

Record gpu_ok (g : GpuDevfreq) : Prop := {
  go_name : is_gpu_node (gpu_name g) = true;
  go_some : gpu_frequencies g <> [];
  go_range : Forall (fun v => 0 < v <= u64_max) (gpu_frequencies g);
  go_steps : StronglySorted Z.le (gpu_frequencies g);
}.

Definition valid_defaults (d : Defaults) : Prop := valid_limits (def_cpu d) /\ valid_limits (def_gpu d).
Definition typed_defaults (d : Defaults) : Prop := typed_limits (def_cpu d) /\ typed_limits (def_gpu d).

Definition valid_session (x : Session) : Prop :=
  validate_unit (session_unit x) = Ok () /\
  match x with
  | Active _ d cpu gpu => valid_defaults d /\ valid_limits cpu /\ valid_limits gpu
  | Reverting _ => True
  end.

Record limits_ok (s : Limitsd) : Prop := {
  lo_policies : forall p, p ∈ policies s -> policy_ok p;
  lo_policy_fun : forall p q, p ∈ policies s -> q ∈ policies s -> pol_name p = pol_name q -> p = q;
  lo_gpus : forall g, g ∈ gpus s -> gpu_ok g;
  lo_gpu_fun : forall g h, g ∈ gpus s -> h ∈ gpus s -> gpu_name g = gpu_name h -> g = h;
  lo_defaults : valid_defaults (defaults s);
  lo_device : valid_defaults (device s);
  lo_session : forall x, session s = Some x -> valid_session x;
}.

Lemma collect_ok {A B} (f : A -> outcome B) l ys :
  collect f l = Ok ys -> Forall2 (fun x y => f x = Ok y) l ys.
Proof.
  revert ys; induction l as [|x l IH]; intros ys; simpl; [by intros [= <-]|].
  destruct (f x) as [y|e] eqn:Hf; [|done]. destruct (collect f l) as [r|e]; [|done].
  intros [= <-]. constructor; [done|]. by apply IH.
Qed.

Lemma collect_elem {A B} (f : A -> outcome B) l ys y :
  collect f l = Ok ys -> y ∈ ys -> exists x, x ∈ l /\ f x = Ok y.
Proof.
  intros Hc%collect_ok (i & Hi)%list_elem_of_lookup_1.
  destruct (Forall2_lookup_r _ _ _ _ _ Hc Hi) as (x & Hx & Hf).
  exists x. split; [by eapply list_elem_of_lookup_2|done].
Qed.

Lemma dedup_cons x l : dedup (x :: l) = match l with
  | [] => [x] | y :: _ => if x =? y then dedup l else x :: dedup l end.
Proof. by destruct l. Qed.

Lemma elem_of_dedup_steps (l : list Z) v : v ∈ dedup l <-> v ∈ l.
Proof.
  induction l as [|x l IH]; [done|]. rewrite dedup_cons. destruct l as [|y l]; [done|].
  destruct (Z.eqb_spec x y) as [<-|Hne].
  - rewrite IH, !elem_of_cons. naive_solver.
  - by rewrite elem_of_cons, IH, (elem_of_cons (y :: l)).
Qed.

Lemma dedup_sorted_steps (l : list Z) : StronglySorted Z.le l -> StronglySorted Z.le (dedup l).
Proof.
  induction l as [|x l IH]; [done|]. rewrite dedup_cons. intros [Hs Hx]%StronglySorted_inv.
  destruct l as [|y l]; [by repeat constructor|]. destruct (x =? y); [by apply IH|].
  constructor; [by apply IH|]. rewrite Forall_forall in *. intros v Hv. rewrite elem_of_dedup_steps in Hv. by apply Hx.
Qed.

Section invariant.
Context {W : Type} (m : Machine W).

Lemma frequencies_ok path w l :
  frequencies m path w = Ok l ->
  StronglySorted Z.le l /\ Forall (fun v => 0 < v <= u64_max) l.
Proof.
  unfold frequencies. destruct (read_to_string m path w) as [s|[|e]]; [| |done].
  - simpl. destruct (collect _ _) as [vs|e] eqn:Hc; [|done]. simpl.
    destruct (existsb (Z.eqb 0) vs) eqn:Hz; [done|]. intros [= <-]. split.
    + apply dedup_sorted_steps. apply StronglySorted_merge_sort; apply _.
    + apply Forall_forall. intros v Hv. rewrite elem_of_dedup_steps in Hv. rewrite merge_sort_Permutation in Hv.
      assert (v <> 0).
      { intros ->. assert (existsb (Z.eqb 0) vs = true); [|congruence].
        apply existsb_spec. exists 0. done. }
      destruct (collect_elem _ _ _ _ Hc Hv) as (x & _ & Hx).
      destruct (from_decimal u64_max x) as [n|] eqn:Hn; [|done]. injection Hx as ->.
      pose proof (from_decimal_nonneg _ _ _ Hn). apply from_decimal_range in Hn. lia.
  - intros [= <-]. split; constructor.
Qed.

Lemma number_range path w n : number m path w = Ok n -> 0 <= n <= u64_max.
Proof.
  unfold number. destruct (read m path w); [|done]. simpl.
  destruct (from_decimal u64_max _) eqn:Hn; [|done]. intros [= <-].
  split; [by eapply from_decimal_nonneg|by eapply from_decimal_range].
Qed.

Lemma cpu_policy_ok r name w p :
  is_policy_name name = true -> cpu_policy m r name w = Ok p -> pol_name p = name /\ policy_ok p.
Proof.
  intros Hn. unfold cpu_policy. intros (top & Ht & (bottom & Hb & Hp)%bind_ok)%bind_ok.
  destruct (_ || _) eqn:Hr; [done|]. apply orb_false_elim in Hr as [Hr1%Z.eqb_neq Hr2%Z.ltb_ge].
  apply bind_ok in Hp as (related & _ & (cpus & _ & (steps & Hf & (g & _ & [= <-])%bind_ok)%bind_ok)%bind_ok).
  split; [done|]. apply number_range in Ht, Hb. apply frequencies_ok in Hf as [Hs Hr].
  split; simpl; try done; lia.
Qed.

Lemma policies_in_elem r entries w l p :
  policies_in m r entries w = Ok l -> p ∈ l ->
  exists name, is_policy_name name = true /\ cpu_policy m r name w = Ok p.
Proof.
  revert l; induction entries as [|[[name|]|e] entries IH]; intros l; simpl; [|..|done|done].
  { by intros [= <-] ?%not_elem_of_nil. }
  destruct (is_policy_name name) eqn:Hn; simpl; [|by apply IH].
  destruct (cpu_policy m r name w) as [q|e] eqn:Hq; [|done]. simpl.
  destruct (policies_in m r entries w) as [rest|e]; [|done]. simpl. intros [= <-].
  intros [->|Hin]%elem_of_cons; [by exists name|by eapply IH].
Qed.

Lemma cpu_policies_ok r w l :
  cpu_policies m r w = Ok l ->
  (forall p, p ∈ l -> policy_ok p) /\
  (forall p q, p ∈ l -> q ∈ l -> pol_name p = pol_name q -> p = q).
Proof.
  unfold cpu_policies. destruct (read_dir m _ w) as [entries|[|e]]; [| |done].
  - destruct (policies_in m r entries w) as [found|e] eqn:Hf; [|done]. simpl. intros [= <-].
    assert (Hel : forall p, p ∈ merge_sort name_le found ->
      exists name, is_policy_name name = true /\ cpu_policy m r name w = Ok p).
    { intros p Hp. rewrite merge_sort_Permutation in Hp. by eapply policies_in_elem. }
    split.
    + intros p (name & Hn & Hp)%Hel. by apply (cpu_policy_ok r name w p).
    + intros p q (n1 & Hn1 & Hp)%Hel (n2 & Hn2 & Hq)%Hel Heq.
      pose proof (cpu_policy_ok _ _ _ _ Hn1 Hp) as [H1 _].
      pose proof (cpu_policy_ok _ _ _ _ Hn2 Hq) as [H2 _]. congruence.
  - intros [= <-]. split; [intros p|intros p q]; by intros ?%not_elem_of_nil.
Qed.

Lemma gpu_nodes_ok r w names l :
  collect (gpu_node m r w) names = Ok l ->
  (forall g, g ∈ l -> gpu_ok g) /\
  (forall g h, g ∈ l -> h ∈ l -> gpu_name g = gpu_name h -> g = h).
Proof.
  intros Hc.
  assert (Hel : forall g, g ∈ l -> gpu_node m r w (gpu_name g) = Ok g /\ gpu_ok g).
  { intros g Hg. destruct (collect_elem _ _ _ _ Hc Hg) as (name & _ & Hn). unfold gpu_node in Hn |- *.
    destruct (is_gpu_node name) eqn:Hok; [|done]. simpl in Hn.
    apply bind_ok in Hn as (steps & Hf & Hn).
    assert (Hg' : g = MkGpu name steps /\ steps <> []) by (by destruct steps; [|injection Hn as <-]).
    destruct Hg' as [-> Hne]. simpl. rewrite Hok, Hf. split; [exact Hn|].
    apply frequencies_ok in Hf as [Hs Hr]. by split. }
  split; [intros g Hg; by apply Hel|].
  intros g h Hg Hh Heq. destruct (Hel g Hg) as [H1 _], (Hel h Hh) as [H2 _]. congruence.
Qed.

Lemma validate_device_ok s d u : typed_defaults d -> validate_device s d = Ok u -> valid_defaults d.
Proof.
  intros [Hc Hg]. unfold validate_device.
  destruct (limits_validate (def_cpu d)) as [u1|e] eqn:H1; [|done].
  destruct (limits_validate (def_gpu d)) as [u2|e] eqn:H2; [|done]. intros _.
  by split; eapply limits_validate_ok.
Qed.

Lemma ok_set_device d s : valid_defaults d -> limits_ok s -> limits_ok (set_device d s).
Proof. intros Hd []. by split. Qed.

Lemma ok_set_session x s :
  (forall y, x = Some y -> valid_session y) -> limits_ok s -> limits_ok (set_session x s).
Proof. intros Hx []. by split. Qed.

Lemma ok_set_policies w l s : cpu_policies m (roots s) w = Ok l -> limits_ok s -> limits_ok (set_policies l s).
Proof. intros [H1 H2]%cpu_policies_ok []. by split. Qed.

(** [restore] ends with no session, or with one that still has to be reverted. *)
Lemma restore_cases w s w' s' r :
  restore m w s = (w', s', r) ->
  (r = Ok () /\ s' = set_session None s) \/
  (is_err r = true /\ s' = set_session ((fun x => Reverting (session_unit x)) <$> session s) s).
Proof.
  unfold restore. cbn [session set_session roots device].
  destruct (apply_device m _ (device s) w) as [w1 [[]|e]]; [|intros [= <- <- <-]; by right].
  destruct (session s) as [x|]; simpl; [|intros [= <- <- <-]; by left].
  destruct (exists_path m _ w1) as [[]|e].
  - destruct (write_uclamp m _ _ _ w1) as [w2 [[]|e]]; intros [= <- <- <-]; [by left|by right].
  - intros [= <- <- <-]. by left.
  - intros [= <- <- <-]. by right.
Qed.

Lemma restore_limits w s : limits_ok s -> limits_ok (restore m w s).1.2.
Proof.
  intros Hs. destruct (restore m w s) as [[w' s'] r] eqn:Hr. simpl.
  apply restore_cases in Hr as [[_ ->]|[_ ->]]; apply ok_set_session; try done.
  intros y. destruct (session s) as [x|] eqn:Hx; [|done]. intros [= <-].
  split; [|done]. by apply (lo_session _ Hs) in Hx as [? _].
Qed.

Lemma poll_limits w s : limits_ok s -> limits_ok (poll_session m w s).1.2.
Proof.
  intros Hs. unfold poll_session. destruct (session s) as [[u d c g|u]|]; [| |done].
  - destruct (populated m s _ w) as [[]|e]; [done| |done]. by apply restore_limits.
  - by apply restore_limits.
Qed.

Lemma reassert_limits w s : limits_ok s -> limits_ok (reassert m w s).1.2.
Proof.
  intros Hs. unfold reassert. destruct (cpu_policies m (roots s) w) as [l|e] eqn:Hl; [|done].
  pose proof (poll_limits w _ (ok_set_policies w l s Hl Hs)) as H1.
  destruct (poll_session m w (set_policies l s)) as [[w1 s1] [[]|e]]; simpl in H1; [|done].
  destruct (for_each _ _ w1) as [w2 [[]|e]]; [|done].
  destruct (session s1) as [[u d c g|u]|].
  - destruct (apply_hardware m s1 d _ g w2) as [w3 [[]|e]]; [|done].
    by destruct (write_uclamp m s1 u c w3).
  - by destruct (apply_device m s1 (device s1) w2).
  - by destruct (apply_device m s1 (device s1) w2).
Qed.

(** The fields of a request are of the types [serde] reads. *)
Definition typed_request (request : Request) : Prop :=
  match request with
  | ApplyDevice d => typed_defaults d
  | ApplySession _ cpu gpu => typed_limits cpu /\ typed_limits gpu
  | _ => True
  end.

Lemma apply_device_limits d w s :
  typed_defaults d -> limits_ok s -> limits_ok (apply_device_request m d w s).1.2.
Proof.
  intros Hd Hs. unfold apply_device_request. destruct (validate_device s d) as [u|e] eqn:Hv; [|done].
  apply validate_device_ok in Hv; [|done]. destruct (session s); [by apply ok_set_device|].
  destruct (apply_device m s d w) as [w1 [x|[msg|]]]; [by apply ok_set_device| |done].
  by destruct (apply_device m s (device s) w1) as [w2 [y|[msg2|]]].
Qed.

Lemma apply_session_limits u cpu gpu w s :
  typed_limits cpu -> typed_limits gpu -> limits_ok s ->
  limits_ok (apply_session_request m u cpu gpu w s).1.2.
Proof.
  intros Hc Hg Hs. unfold apply_session_request.
  destruct (validate_unit u) as [[]|e] eqn:Hu; [|done].
  destruct (limits_validate cpu) as [u1|e] eqn:H1; [|done].
  destruct (limits_validate gpu) as [u2|e] eqn:H2; [|done].
  destruct (validate_device s (device s)); [|done]. destruct (session s); [done|].
  destruct (populated m s u w) as [[]|e]; [|done|done]. simpl.
  destruct (cgroup m s u w) as [path|e]; [|done]. destruct (read m _ w); [|done].
  destruct (read m (path_join path "cpu.uclamp.max") w); [|done].
  set (s1 := set_session _ s).
  assert (Hs1 : limits_ok s1).
  { apply ok_set_session; [|done]. intros y [= <-]. split; [done|]. split_and!.
    - apply Hs.
    - by eapply limits_validate_ok.
    - by eapply limits_validate_ok. }
  destruct (try! w, _ <- _ ;; _) as [w1 [[]|[msg|]]]; [done| |done].
  pose proof (restore_limits w1 s1 Hs1) as Hr.
  by destruct (restore m w1 s1) as [[w2 s2] [y|[msg2|]]].
Qed.

Lemma execute_limits request w s :
  typed_request request -> limits_ok s -> limits_ok (execute m request w s).1.2.
Proof.
  intros Ht Hs. unfold execute. destruct (cpu_policies m (roots s) w) as [l|e] eqn:Hl; [|done].
  apply (ok_set_policies w l) in Hs; [|done]. destruct request as [|d|u cpu gpu|u].
  - done.
  - by apply apply_device_limits.
  - destruct Ht. by apply apply_session_limits.
  - unfold end_session_request. destruct (validate_unit u); [|done]. destruct (negb _); [done|].
    pose proof (restore_limits w _ Hs) as Hr.
    by destruct (restore m w _) as [[w1 s1] [y|e]].
Qed.

Lemma start_limits r d nodes w w' s :
  typed_defaults d -> start m r d nodes w = (w', Ok s) -> limits_ok s /\ session s = None /\ device s = d.
Proof.
  intros Hd. unfold start. destruct (cpu_policies m r w) as [l|e] eqn:Hl; [|done].
  destruct (collect _ nodes) as [gs|e] eqn:Hg; [|done].
  destruct (validate_device _ d) as [u|e] eqn:Hv; [|done]. apply validate_device_ok in Hv; [|done].
  destruct (for_each _ _ w) as [w1 [u1|e]]; [|done].
  destruct (apply_device m _ _ w1) as [w2 [u2|e]]; [|done]. intros [= <- <-].
  apply cpu_policies_ok in Hl as [H1 H2]. apply gpu_nodes_ok in Hg as [H3 H4].
  split_and!; [by split|done|done].
Qed.

(** A service that was started and has handled any operations since; the files
    may have changed in any way between two of them. *)
Inductive serving : Limitsd -> Prop :=
| serving_start r d nodes w w' s :
    typed_defaults d -> start m r d nodes w = (w', Ok s) -> serving s
| serving_request request w s :
    typed_request request -> serving s -> serving (execute m request w s).1.2
| serving_poll w s : serving s -> serving (poll_session m w s).1.2
| serving_reassert w s : serving s -> serving (reassert m w s).1.2.

Lemma serving_ok s : serving s -> limits_ok s.
Proof.
  induction 1 as [r d nodes w w' s Hd Hstart|request w s Ht _ IH|w s _ IH|w s _ IH].
  - by apply start_limits in Hstart as [? _].
  - by apply execute_limits.
  - by apply poll_limits.
  - by apply reassert_limits.
Qed.
End invariant.

(** ** No panic *)

Definition calm {A} (r : outcome A) : Prop := r <> Err Panicked.

Lemma calm_bind {A B} (e : outcome A) (f : A -> outcome B) :
  calm e -> (forall x, e = Ok x -> calm (f x)) -> calm (e ≫= f).
Proof. unfold calm. destruct e as [x|er]; simpl; [intros _ Hf; by apply Hf|]. intros He _. congruence. Qed.

Lemma calm_collect {A B} (f : A -> outcome B) l : (forall x, calm (f x)) -> calm (collect f l).
Proof.
  intros Hf. induction l as [|x l IH]; simpl; [done|]. specialize (Hf x).
  destruct (f x) as [y|e]; [|unfold calm in *; congruence].
  destruct (collect f l) as [ys|e]; [done|unfold calm in *; congruence].
Qed.

Lemma gpu_ends g :
  gpu_ok g -> exists bottom top rest, gpu_frequencies g = bottom :: rest /\
    list.last (gpu_frequencies g) = Some top /\ 0 < bottom <= top /\ top <= u64_max.
Proof.
  intros []. destruct (gpu_frequencies g) as [|bottom rest] eqn:Hf; [done|].
  destruct (list.last (bottom :: rest)) as [top|] eqn:Hl; [|by apply last_None in Hl].
  exists bottom, top, rest. pose proof (last_Some_elem_of _ _ Hl) as Hin.
  rewrite Forall_forall in go_range0. pose proof (go_range0 bottom ltac:(left)).
  pose proof (go_range0 top Hin). apply StronglySorted_inv in go_steps0 as [_ Hs].
  apply elem_of_cons in Hin as [->|Hin]; [split_and!; done || lia|].
  rewrite Forall_forall in Hs. specialize (Hs top Hin). split_and!; done || lia.
Qed.

Create HintDb calm discriminated.

(** Split on whatever is matched; the leaves are failures with a message. *)
Ltac calm := repeat first
  [ solve [eauto with calm] | apply calm_bind; [|intros ? ?] | apply calm_collect; intros ?
  | progress cbv zeta | case_match | discriminate | done ].

Section calm.
Context {W : Type} (m : Machine W).

Lemma read_calm p w : calm (read m p w).
Proof. unfold read. calm. Qed.
#[local] Hint Resolve read_calm : calm.

Lemma number_calm p w : calm (number m p w).
Proof. unfold number. calm. Qed.
#[local] Hint Resolve number_calm : calm.

Lemma frequencies_calm p w : calm (frequencies m p w).
Proof. unfold frequencies. calm. Qed.
#[local] Hint Resolve frequencies_calm : calm.

Lemma cpu_policies_calm r w : calm (cpu_policies m r w).
Proof.
  unfold cpu_policies. destruct (read_dir m _ w) as [entries|[|e]]; [|done..].
  apply calm_bind; [|done].
  induction entries as [|[[name|]|e] entries IH]; simpl; [done| |done|done].
  destruct (negb _); [done|]. apply calm_bind; [unfold cpu_policy; calm|]. intros p _.
  by apply calm_bind.
Qed.

Lemma limits_validate_calm l : calm (limits_validate l).
Proof. unfold limits_validate. calm. Qed.

Lemma validate_unit_calm u : calm (validate_unit u).
Proof. unfold validate_unit. calm. Qed.
#[local] Hint Resolve cpu_policies_calm limits_validate_calm validate_unit_calm : calm.

Lemma validate_device_calm s d : calm (validate_device s d).
Proof. unfold validate_device. calm. Qed.

Lemma cgroup_calm s u w : calm (cgroup m s u w).
Proof. unfold cgroup. calm. Qed.

Lemma exists_path_calm p w : calm (exists_path m p w).
Proof. unfold exists_path. calm. Qed.
#[local] Hint Resolve validate_device_calm cgroup_calm exists_path_calm : calm.

Lemma populated_calm s u w : calm (populated m s u w).
Proof. unfold populated. calm. Qed.
#[local] Hint Resolve populated_calm : calm.

Lemma write_calm s p v w : calm (write m s p v w).2.
Proof. unfold write. repeat case_match; done. Qed.

Lemma calm_try {A} (f : W * outcome A) (g : W -> A -> W * outcome unit) :
  calm f.2 -> (forall w x, calm (g w x).2) -> calm (try! w, x <- f ;; g w x).2.
Proof. destruct f as [w [x|e]]; simpl; [intros _ Hg; apply Hg|]. unfold calm. congruence. Qed.

Lemma calm_err {A B} (e : Fault) : calm (A:=A) (Err e) -> calm (A:=B) (Err e).
Proof. unfold calm. congruence. Qed.

Lemma write_interval_calm s root a b lo hi w : calm (write_interval m s root a b lo hi w).2.
Proof.
  unfold write_interval. pose proof (number_calm (path_join root a) w) as Hn.
  destruct (number m _ w) as [old|e]; [|by eapply calm_err].
  destruct (hi <? old); apply calm_try; intros; apply write_calm.
Qed.

Lemma apply_policy_calm s d cpu_max p w : policy_ok p -> calm (apply_policy m s d cpu_max p w).2.
Proof.
  intros []. unfold apply_policy. cbv zeta. apply calm_try; [apply write_calm|]. intros w1 _.
  rewrite !mapped_ok by lia. apply write_interval_calm.
Qed.

Lemma apply_gpu_calm s gpu g w : gpu_ok g -> calm (apply_gpu m s gpu g w).2.
Proof.
  intros (bottom & top & rest & Hf & Hl & Hb & Ht)%gpu_ends. unfold apply_gpu. rewrite Hf in *.
  cbv zeta. rewrite Hl. cbn [default]. simpl. rewrite mapped_ok by lia. apply write_interval_calm.
Qed.

Lemma for_each_calm {A} (f : A -> W -> W * outcome unit) l w :
  (forall x w, x ∈ l -> calm (f x w).2) -> calm (for_each f l w).2.
Proof.
  revert w; induction l as [|x l IH]; intros w Hf; [done|]. simpl.
  apply calm_try; [apply Hf; left|]. intros w1 _. apply IH. intros y w2 Hy. apply Hf. by right.
Qed.

Lemma apply_hardware_calm s d cpu_max gpu w : limits_ok s -> calm (apply_hardware m s d cpu_max gpu w).2.
Proof.
  intros Hs. unfold apply_hardware. apply calm_try; [|intros w1 _]; apply for_each_calm.
  - intros p w1 Hp. by apply apply_policy_calm, (lo_policies _ Hs).
  - intros g w2 Hg. by apply apply_gpu_calm, (lo_gpus _ Hs).
Qed.

Lemma apply_device_calm s d w : limits_ok s -> calm (apply_device m s d w).2.
Proof. apply apply_hardware_calm. Qed.

Lemma write_uclamp_calm s u cpu w : calm (write_uclamp m s u cpu w).2.
Proof.
  unfold write_uclamp. pose proof (cgroup_calm s u w) as Hc.
  destruct (cgroup m s u w) as [path|e]; [|by eapply calm_err].
  apply calm_try; intros; apply write_calm.
Qed.

Lemma restore_calm w s : limits_ok s -> calm (restore m w s).2.
Proof.
  intros Hs. unfold restore. set (s1 := set_session _ s).
  assert (Hs1 : limits_ok s1).
  { apply ok_set_session; [|done]. intros y Hy. destruct (session s) as [x|] eqn:Hx; [|done].
    injection Hy as <-. apply (lo_session _ Hs) in Hx as [? _]. by split. }
  pose proof (apply_device_calm s1 (device s1) w Hs1) as H1.
  destruct (apply_device m s1 _ w) as [w1 [u|e]]; [|exact H1].
  destruct (session s1) as [x|]; [|done]. pose proof (exists_path_calm (path_join (slice (roots s1)) (session_unit x)) w1) as H2.
  destruct (exists_path m _ w1) as [[]|e]; [|done|by eapply calm_err].
  pose proof (write_uclamp_calm s1 (session_unit x) (MkLimits 0 100) w1) as H3.
  destruct (write_uclamp m s1 _ _ w1) as [w2 [u2|e]]; [done|exact H3].
Qed.

Lemma poll_calm w s : limits_ok s -> calm (poll_session m w s).2.
Proof.
  intros Hs. unfold poll_session. destruct (session s) as [[u d c g|u]|]; [|by apply restore_calm|done].
  cbn [session_unit]. pose proof (populated_calm s u w) as H1.
  destruct (populated m s u w) as [[]|e]; [done|by apply restore_calm|by eapply calm_err].
Qed.

Lemma apply_device_request_calm d w s : limits_ok s -> calm (apply_device_request m d w s).2.
Proof.
  intros Hs. unfold apply_device_request. pose proof (validate_device_calm s d) as H1.
  destruct (validate_device s d) as [u|e]; [|by eapply calm_err]. destruct (session s); [done|].
  pose proof (apply_device_calm s d w Hs) as H2. destruct (apply_device m s d w) as [w1 [x|[msg|]]]; [done| |done].
  pose proof (apply_device_calm s (device s) w1 Hs) as H3.
  by destruct (apply_device m s (device s) w1) as [w2 [y|[msg2|]]].
Qed.

Lemma look_calm {A B} (e : outcome A) w s (k : A -> W * Limitsd * outcome B) :
  calm e -> (forall x, e = Ok x -> calm (k x).2) ->
  calm (match e with Ok x => k x | Err er => (w, s, Err er) end).2.
Proof. destruct e as [x|er]; [intros _ Hk; by apply Hk|]. intros He _. simpl. by eapply calm_err. Qed.

Lemma apply_session_request_calm u cpu gpu w s :
  typed_limits cpu -> typed_limits gpu -> limits_ok s ->
  calm (apply_session_request m u cpu gpu w s).2.
Proof.
  intros Hc Hg Hs. unfold apply_session_request.
  apply look_calm; [apply validate_unit_calm|intros [] Hu].
  apply look_calm; [apply limits_validate_calm|intros u1 H1].
  apply look_calm; [apply limits_validate_calm|intros u2 H2].
  apply look_calm; [apply validate_device_calm|intros _ _].
  destruct (session s); [done|].
  apply look_calm; [apply populated_calm|intros live _]. destruct (negb live); [done|].
  apply look_calm; [apply cgroup_calm|intros path _].
  apply look_calm; [apply read_calm|intros _ _]. apply look_calm; [apply read_calm|intros _ _].
  set (s1 := set_session _ s).
  assert (Hs1 : limits_ok s1).
  { apply ok_set_session; [|done]. intros y [= <-]. split; [done|].
    split_and!; [apply Hs|by eapply limits_validate_ok|by eapply limits_validate_ok]. }
  match goal with |- context [let '(_, _) := ?e in _] => assert (He : calm e.2) end.
  { apply calm_try; [by apply apply_hardware_calm|]. intros; apply write_uclamp_calm. }
  destruct (try! w, _ <- _ ;; _) as [w1 [[]|[msg|]]]; [done| |done].
  pose proof (restore_calm w1 s1 Hs1) as Hr.
  by destruct (restore m w1 s1) as [[w2 s2] [y|[msg2|]]].
Qed.

Lemma execute_calm request w s :
  typed_request request -> limits_ok s -> calm (execute m request w s).2.
Proof.
  intros Ht Hs. unfold execute. pose proof (cpu_policies_calm (roots s) w) as Hp.
  apply look_calm; [done|]. intros l Hl. apply (ok_set_policies m w l) in Hs; [|done].
  destruct request as [|d|u cpu gpu|u]; [done|by apply apply_device_request_calm| |].
  - destruct Ht. by apply apply_session_request_calm.
  - unfold end_session_request. apply look_calm; [apply validate_unit_calm|intros _ _].
    destruct (negb _); [done|]. pose proof (restore_calm w _ Hs) as Hr.
    destruct (restore m w (set_policies l s)) as [[w1 s1] [x|e]]; [done|by eapply calm_err].
Qed.

Lemma reassert_calm w s : limits_ok s -> calm (reassert m w s).2.
Proof.
  intros Hs. unfold reassert. pose proof (cpu_policies_calm (roots s) w) as Hp.
  apply look_calm; [done|]. intros l Hl. apply (ok_set_policies m w l) in Hs; [|done].
  pose proof (poll_calm w _ Hs) as H1. pose proof (poll_limits m w _ Hs) as Hs1.
  destruct (poll_session m w (set_policies l s)) as [[w1 s1] [[]|e]]; simpl in Hs1; [|by eapply calm_err].
  match goal with |- context [for_each ?f ?l w1] =>
    pose proof (for_each_calm f l w1 ltac:(intros; apply write_calm)) as H2 end.
  destruct (for_each _ _ w1) as [w2 [[]|e]]; [|by eapply calm_err].
  destruct (session s1) as [[u d c g|u]|].
  - pose proof (apply_hardware_calm s1 d (session_cpu_max d c) g w2 Hs1) as H3.
    destruct (apply_hardware m s1 d _ g w2) as [w3 [[]|e]]; [|by eapply calm_err].
    pose proof (write_uclamp_calm s1 u c w3) as H4. by destruct (write_uclamp m s1 u c w3).
  - pose proof (apply_device_calm s1 (device s1) w2 Hs1) as H3. by destruct (apply_device m s1 (device s1) w2).
  - pose proof (apply_device_calm s1 (device s1) w2 Hs1) as H3. by destruct (apply_device m s1 (device s1) w2).
Qed.

(** C35: The service never panics, whatever the files hold and however they
    change: every request of a serving daemon is answered, and the periodic
    polls return. *)
Theorem limitsd_never_panics request w s :
  serving m s -> typed_request request ->
  is_Some (handle m request w s).2 /\
  (poll_session m w s).2 <> Err Panicked /\ (reassert m w s).2 <> Err Panicked.
Proof.
  intros Hs%serving_ok Ht. split_and!.
  - unfold handle. pose proof (execute_calm request w s Ht Hs) as Hc.
    by destruct (execute m request w s) as [[w1 s1] [v|[msg|]]].
  - by apply poll_calm.
  - by apply reassert_calm.
Qed.
End calm.

(** ** What the operations promise *)

Section promises.
Context {W : Type} (m : Machine W).

Lemma apply_hardware_shows s d cpu_max gpu w w' :
  MachineLaws m (roots s) -> limits_ok s -> apply_hardware m s d cpu_max gpu w = (w', Ok ()) ->
  hardware_shows m s d cpu_max gpu w'.
Proof.
  intros Hlaws Hs. unfold apply_hardware.
  assert (Hpk : forall p, p ∈ policies s -> is_policy_name (pol_name p) = true)
    by (intros p Hp; apply (po_name _ (lo_policies _ Hs p Hp))).
  assert (Hgk : forall g, g ∈ gpus s -> is_gpu_node (gpu_name g) = true)
    by (intros g Hg; apply (go_name _ (lo_gpus _ Hs g Hg))).
  assert (Hpn : forall p, p ∈ policies s -> node_name (pol_name p)) by (intros p Hp; by apply policy_node_name, Hpk).
  assert (Hgn : forall g, g ∈ gpus s -> node_name (gpu_name g)) by (intros g Hg; by apply gpu_node_name, Hgk).
  assert (Hpa : forall p leaf, p ∈ policies s ->
    leaf ∈ ["scaling_governor"; "scaling_min_freq"; "scaling_max_freq"] ->
    device_attribute (roots s) (cpu_file (roots s) (pol_name p) leaf))
    by (intros p leaf Hp; by apply policy_attribute, Hpk).
  assert (Hga : forall g leaf, g ∈ gpus s -> leaf ∈ ["min_freq"; "max_freq"] ->
    device_attribute (roots s) (gpu_file (roots s) (gpu_name g) leaf))
    by (intros g leaf Hg; by apply gpu_attribute, Hgk).
  destruct (for_each (apply_policy m s d cpu_max) (policies s) w) as [w1 [[]|e]] eqn:H1; [|done].
  intros H2. split.
  - intros p Hp. assert (Hp1 : policy_shows m (roots s) d cpu_max p w1).
    { revert p Hp. apply (for_each_establishes (policy_shows m (roots s) d cpu_max) (apply_policy m s d cpu_max)
        (policies s) w w1); [|clear H1|done].
      - intros p w2 w3 Hp. apply apply_policy_shows; [done|by apply Hpk].
      - intros p q w2 Hp Hq Hne (lo & hi & Hlo & Hhi & F1 & F2 & F3).
        assert (Hnn : pol_name p <> pol_name q) by (intros Heq; by apply Hne, (lo_policy_fun _ Hs)).
        assert (Hl : forall leaf, leaf ∈ ["scaling_governor"; "scaling_min_freq"; "scaling_max_freq"] ->
          read_to_string m (cpu_file (roots s) (pol_name p) leaf) (apply_policy m s d cpu_max q w2).1
          = read_to_string m (cpu_file (roots s) (pol_name p) leaf) w2).
        { intros leaf Hleaf. apply apply_policy_leaves; [done|by apply Hpk|by apply Hpa|..];
            intros [? _]%cpu_file_inj; auto. }
        exists lo, hi. unfold shows_value in *.
        split_and!; [exact Hlo|exact Hhi|rewrite Hl; [exact F1|set_solver]|rewrite Hl; [exact F2|set_solver]
                    |rewrite Hl; [exact F3|set_solver]]. }
    destruct Hp1 as (lo & hi & Hlo & Hhi & F1 & F2 & F3).
    assert (Hl : forall leaf, leaf ∈ ["scaling_governor"; "scaling_min_freq"; "scaling_max_freq"] ->
      leaves m (cpu_file (roots s) (pol_name p) leaf) (for_each (apply_gpu m s gpu) (gpus s))).
    { intros leaf Hleaf. apply for_each_leaves. intros g Hg.
      apply apply_gpu_leaves; [done|by apply Hgk|by apply Hpa|..]; apply cpu_gpu_file; auto. }
    exists lo, hi. unfold shows_value in *.
    pose proof (Hl "scaling_governor" ltac:(set_solver) w1) as E1.
    pose proof (Hl "scaling_min_freq" ltac:(set_solver) w1) as E2.
    pose proof (Hl "scaling_max_freq" ltac:(set_solver) w1) as E3. rewrite H2 in E1, E2, E3. simpl in E1, E2, E3.
    split_and!; [exact Hlo|exact Hhi|rewrite E1; exact F1|rewrite E2; exact F2|rewrite E3; exact F3].
  - apply (for_each_establishes (gpu_shows m (roots s) gpu) (apply_gpu m s gpu) (gpus s) w1 w'); [|clear H2|done].
    + intros g w2 w3 Hg. apply apply_gpu_shows; [done|by apply Hgk].
    + intros g h w2 Hg Hh Hne (bounds & Hb & F1 & F2).
      assert (Hnn : gpu_name g <> gpu_name h) by (intros Heq; by apply Hne, (lo_gpu_fun _ Hs)).
      assert (Hl : forall leaf, leaf ∈ ["min_freq"; "max_freq"] ->
        read_to_string m (gpu_file (roots s) (gpu_name g) leaf) (apply_gpu m s gpu h w2).1
        = read_to_string m (gpu_file (roots s) (gpu_name g) leaf) w2).
      { intros leaf Hleaf. apply apply_gpu_leaves; [done|by apply Hgk|by apply Hga|..];
          intros [? _]%gpu_file_inj; auto. }
      exists bounds. unfold shows_value in *.
      split_and!; [exact Hb|rewrite Hl; [exact F1|set_solver]|rewrite Hl; [exact F2|set_solver]].
Qed.

Lemma hardware_shows_ext s d cpu_max gpu w w' :
  limits_ok s ->
  (forall q, device_attribute (roots s) q -> read_to_string m q w' = read_to_string m q w) ->
  hardware_shows m s d cpu_max gpu w -> hardware_shows m s d cpu_max gpu w'.
Proof.
  intros Hs Hq [Hp Hg]. split.
  - intros p Hin. destruct (Hp p Hin) as (lo & hi & Hlo & Hhi & F1 & F2 & F3). exists lo, hi.
    pose proof (po_name _ (lo_policies _ Hs p Hin)) as Hn. unfold shows_value in *.
    split_and!; [exact Hlo|exact Hhi|rewrite Hq; [exact F1|]|rewrite Hq; [exact F2|]|rewrite Hq; [exact F3|]];
      (apply policy_attribute; [exact Hn|set_solver]).
  - intros g Hin. destruct (Hg g Hin) as (b & Hb & F1 & F2). exists b.
    pose proof (go_name _ (lo_gpus _ Hs g Hin)) as Hn. unfold shows_value in *.
    split_and!; [exact Hb|rewrite Hq; [exact F1|]|rewrite Hq; [exact F2|]];
      (apply gpu_attribute; [exact Hn|set_solver]).
Qed.

(** The last byte tells the attributes of the hardware, [q] or [r], from those of
    a cgroup, [n], [x] or [l]. *)
Lemma device_attribute_last r q :
  device_attribute r q -> last_byte q = Some "q"%char \/ last_byte q = Some "r"%char.
Proof.
  intros [(name & leaf & _ & Hl & ->)|(name & leaf & _ & Hl & ->)];
    repeat (apply elem_of_cons in Hl as [->|Hl]; [(by left; apply last_path_join) || (by right; apply last_path_join)|]);
    by apply not_elem_of_nil in Hl.
Qed.

Lemma cgroup_write_leaves s dir leaf v q :
  MachineLaws m (roots s) -> leaf ∈ ["cpu.uclamp.min"; "cpu.uclamp.max"; "cgroup.subtree_control"] ->
  device_attribute (roots s) q -> leaves m q (write m s (path_join dir leaf) v).
Proof.
  intros Hlaws Hl Hq.
  assert (Hp : exists a, last_byte (path_join dir leaf) = Some a /\ a <> "q"%char /\ a <> "r"%char).
  { repeat (apply elem_of_cons in Hl as [->|Hl];
      [eexists; split; [by apply last_path_join|by split]|]). by apply not_elem_of_nil in Hl. }
  destruct Hp as (a & Hp & H1 & H2). apply write_leaves; [done|right; by exists dir, leaf|done|..].
  - intros ->. apply device_attribute_last in Hq. destruct Hq; congruence.
  - intros [Hr _]%resets_last. congruence.
Qed.

Lemma write_uclamp_leaves s u cpu q :
  MachineLaws m (roots s) -> device_attribute (roots s) q -> leaves m q (write_uclamp m s u cpu).
Proof.
  intros Hlaws Hq w. unfold write_uclamp. destruct (cgroup m s u w) as [path|e]; [|done].
  apply (try_leaves m q (write m s (path_join path "cpu.uclamp.min") (decimal (lim_min cpu)))
           (fun _ => write m s (path_join path "cpu.uclamp.max") (decimal (lim_max cpu))));
    [|intros _]; (apply cgroup_write_leaves; [done|set_solver|done]).
Qed.

(** The values of the device alone. *)
Definition device_shows (s : Limitsd) (w : W) : Prop :=
  hardware_shows m s (device s) (lim_max (def_cpu (device s))) (def_gpu (device s)) w.

Lemma restore_shows w s w' s' :
  MachineLaws m (roots s) -> limits_ok s -> restore m w s = (w', s', Ok ()) -> session s' = None /\ device_shows s' w'.
Proof.
  intros Hlaws Hs. unfold restore. change (MachineLaws m (roots (set_session
    ((fun x => Reverting (session_unit x)) <$> session s) s))) in Hlaws.
  set (s1 := set_session _ s).
  assert (Hs1 : limits_ok s1).
  { apply ok_set_session; [|done]. intros y Hy. destruct (session s) as [x|] eqn:Hx; [|done].
    injection Hy as <-. apply (lo_session _ Hs) in Hx as [? _]. by split. }
  destruct (apply_device m s1 (device s1) w) as [w1 [[]|e]] eqn:Ha; [|done].
  apply apply_hardware_shows in Ha; [|done..].
  destruct (session s1) as [x|]; [|by intros [= <- <-]].
  destruct (exists_path m _ w1) as [[]|e]; [|by intros [= <- <-]|done].
  destruct (write_uclamp m s1 _ _ w1) as [w2 [[]|e]] eqn:Hu; [|done]. intros [= <- <-].
  split; [done|]. apply (hardware_shows_ext _ _ _ _ w1); [by apply ok_set_session| |done].
  intros q Hq. pose proof (write_uclamp_leaves s1 (session_unit x) (MkLimits 0 100) q Hlaws Hq w1) as Hl.
  by rewrite Hu in Hl.
Qed.

(** A request that reports success did all of it. Device values are on every
    CPU policy and GPU node, unless a session holds the hardware, which then
    was not touched. A session starts from none, with the device's CPU minimum,
    the higher of the two CPU maxima and its own GPU limits on the hardware, and
    its limits were written to the game's cgroup. Ending it leaves no session and the
    device's values on the hardware. *)
Theorem request_applied request w s w' s' v :
  MachineLaws m (roots s) -> serving m s -> typed_request request -> execute m request w s = (w', s', Ok v) ->
  match request with
  | Describe => w' = w /\ device s' = device s /\ session s' = session s
  | ApplyDevice d =>
      device s' = d /\ session s' = session s /\
      (session s = None -> device_shows s' w') /\ (is_Some (session s) -> w' = w)
  | ApplySession u cpu gpu =>
      session s = None /\ session s' = Some (Active u (device s) cpu gpu) /\ device s' = device s /\
      hardware_shows m s' (device s) (Z.max (lim_max (def_cpu (device s))) (lim_max cpu)) gpu w' /\
      exists w1, write_uclamp m s' u cpu w1 = (w', Ok ())
  | EndSession u =>
      (exists x, session s = Some x /\ session_unit x = u) /\ session s' = None /\
      device s' = device s /\ device_shows s' w'
  end.
Proof.
  intros Hlaws Hs%serving_ok Ht. unfold execute. destruct (cpu_policies m (roots s) w) as [l|e] eqn:Hl; [|done].
  apply (ok_set_policies m w l) in Hs; [|done]. change (session s) with (session (set_policies l s)).
  change (MachineLaws m (roots (set_policies l s))) in Hlaws.
  change (device s) with (device (set_policies l s)). generalize dependent (set_policies l s). clear s Hl l.
  intros s Hlaws Hs. destruct request as [|d|u cpu gpu|u]; [by intros [= <- <- _]|..].
  - unfold apply_device_request. destruct (validate_device s d); [|done].
    destruct (session s) as [x|] eqn:Hx.
    + intros [= <- <- _]. by split_and!.
    + destruct (apply_device m s d w) as [w1 [[]|[msg|]]] eqn:Ha; [| |done].
      * intros [= <- <- _]. apply apply_hardware_shows in Ha; [|done..].
        by split_and!.
      * by destruct (apply_device m s (device s) w1) as [w2 [y|[msg2|]]].
  - unfold apply_session_request. destruct (validate_unit u) as [[]|] eqn:Hun; [|done].
    destruct (limits_validate cpu) as [u1|e] eqn:H1; [|done].
    destruct (limits_validate gpu) as [u2|e] eqn:H2; [|done].
    destruct (validate_device s (device s)); [|done]. destruct (session s) as [x|] eqn:Hx; [done|].
    destruct (populated m s u w) as [[]|e]; [|done|done]. simpl.
    destruct (cgroup m s u w) as [path|e]; [|done]. destruct (read m _ w); [|done].
    destruct (read m (path_join path "cpu.uclamp.max") w); [|done].
    set (s1 := set_session _ s).
    assert (Hs1 : limits_ok s1).
    { apply ok_set_session; [|done]. intros y [= <-]. split; [done|].
      destruct Ht. split_and!; [apply Hs|by eapply limits_validate_ok..]. }
    destruct (apply_hardware m s1 (device s) _ gpu w) as [w1 [[]|e]] eqn:Ha.
    2: { destruct e; [|done]. by destruct (restore m w1 s1) as [[w2 s2] [y|[msg2|]]]. }
    destruct (write_uclamp m s1 u cpu w1) as [w2 [[]|e]] eqn:Hu.
    2: { destruct e; [|done]. by destruct (restore m w2 s1) as [[w3 s2] [y|[msg2|]]]. }
    intros [= <- <- _]. apply apply_hardware_shows in Ha; [|done..]. split_and!; try done.
    + apply (hardware_shows_ext _ _ _ _ w1); [done| |done]. intros q Hq.
      pose proof (write_uclamp_leaves s1 u cpu q Hlaws Hq w1) as Hlv. by rewrite Hu in Hlv.
    + by exists w1.
  - unfold end_session_request. destruct (validate_unit u); [|done].
    destruct (session s) as [x|] eqn:Hx; [|done]. simpl. case_bool_decide as Hux; [|done]. simpl.
    destruct (restore m w s) as [[w1 s1] [[]|e]] eqn:Hr; [|done]. intros [= <- <- _].
    pose proof (restore_cases _ _ _ _ _ _ Hr) as [[_ ->]|[[=] _]].
    apply restore_shows in Hr as [_ Hd]; [|done..]. split_and!; try done. by exists x.
Qed.
End promises.

(** ** Failing, refusing and ending *)

(** The unit names a game can have. *)
Definition is_unit (u : string) : Prop :=
  exists hex, str_len hex = 32 /\ all_chars is_lower_hex hex = true /\
    u = UNIT_PREFIX +:+ hex +:+ UNIT_SUFFIX.

Lemma validate_unit_iff u : validate_unit u = Ok () <-> is_unit u.
Proof.
  unfold validate_unit, is_unit. rewrite !str_len_text. split.
  - destruct (_ || _) eqn:Hc; [done|]. intros _.
    rewrite !orb_false_iff, !negb_false_iff, Z.eqb_eq in Hc. destruct Hc as [[[Hlen Hp] Hs] Hh].
    unfold starts_with in Hp. destruct (strip_prefix UNIT_PREFIX u) as [rest|] eqn:Hr; [|done].
    apply strip_prefix_Some in Hr. apply ends_with_spec in Hs as (front & Hf). subst u.
    apply (f_equal to_text) in Hf. rewrite !to_text_app in *. rewrite length_app in Hlen.
    simpl (length (to_text UNIT_PREFIX)) in Hlen. simpl (length (to_text UNIT_SUFFIX)) in Hlen.
    assert (Hl : length (to_text rest) = 40%nat) by lia.
    exists (of_text (take 32 (to_text rest))). rewrite str_len_text, to_of_text, length_take. split_and!.
    + lia.
    + rewrite all_chars_text, to_of_text. rewrite drop_app_ge in Hh by done. exact Hh.
    + rewrite <- (of_to_text rest) at 1. rewrite <- (of_to_text UNIT_SUFFIX), <- of_text_app.
      do 2 f_equal. rewrite <- (take_drop 32 (to_text rest)) at 1. f_equal.
      assert (Hd : drop 43 (to_text UNIT_PREFIX ++ to_text rest) = drop 43 (to_text front ++ to_text UNIT_SUFFIX))
        by (by f_equal).
      assert (Hfl : length (to_text front) = 43%nat).
      { apply (f_equal length) in Hf. rewrite !length_app in Hf. simpl in Hf. lia. }
      rewrite drop_app_ge in Hd by (simpl; lia). rewrite drop_app_length' in Hd by done. exact Hd.
  - intros (hex & Hl & Hh & ->). rewrite str_len_text in Hl. rewrite !to_text_app, !length_app.
    rewrite !Nat2Z.inj_add, Hl. rewrite (proj2 (Z.eqb_eq _ _)) by lia.
    unfold starts_with. rewrite strip_prefix_app. cbn [negb is_some orb].
    rewrite (proj2 (ends_with_spec UNIT_SUFFIX _)) by (exists (UNIT_PREFIX +:+ hex); by rewrite append_assoc).
    rewrite drop_app_length' by done. rewrite take_app_length' by lia.
    rewrite all_chars_text in Hh. by rewrite Hh.
Qed.

Lemma validate_unit_bad u : ~ is_unit u -> exists msg, validate_unit u = Err (Failed msg).
Proof.
  intros Hn. pose proof (validate_unit_calm u) as Hc. unfold calm in Hc.
  destruct (validate_unit u) as [[]|[msg|]] eqn:Hv; [|by exists msg|done].
  destruct Hn. by apply validate_unit_iff.
Qed.

Lemma limits_validate_bad l : typed_limits l -> ~ valid_limits l -> exists msg, limits_validate l = Err (Failed msg).
Proof.
  intros Ht Hn. pose proof (limits_validate_calm l) as Hc. unfold calm in Hc.
  destruct (limits_validate l) as [u|[msg|]] eqn:Hv; [|by exists msg|done].
  destruct Hn. by eapply limits_validate_ok.
Qed.

(** What a request asks for in vain. *)
Definition refused (request : Request) (s : Limitsd) : Prop :=
  match request with
  | Describe => False
  | ApplyDevice d =>
      ~ valid_defaults d \/ exists p, p ∈ policies s /\ governor d ∉ available_governors p
  | ApplySession u cpu gpu =>
      ~ is_unit u \/ ~ valid_limits cpu \/ ~ valid_limits gpu \/ is_Some (session s)
  | EndSession u => forall x, session s = Some x -> session_unit x <> u
  end.

Section ending.
Context {W : Type} (m : Machine W).

(** A request that is refused writes nothing: values out of range, a governor a
    policy does not offer, a unit name outside the grammar, a second session, or
    the end of a session that is not the active one. The world and the service
    stay as they were, and the caller gets a message. *)
Theorem refused_writes_nothing request w s found :
  typed_request request -> cpu_policies m (roots s) w = Ok found -> refused request (set_policies found s) ->
  exists message, execute m request w s = (w, set_policies found s, Err (Failed message)).
Proof.
  intros Ht Hf. unfold execute. rewrite Hf. generalize (set_policies found s). clear s Hf. intros s Hr.
  destruct request as [|d|u cpu gpu|u]; [done|..]; simpl in Hr, Ht.
  - unfold apply_device_request.
    assert (Hv : exists msg, validate_device s d = Err (Failed msg)).
    { destruct Ht as [Hc Hg]. pose proof (validate_device_calm s d) as Hcalm.
      destruct (validate_device s d) as [u|[msg|]] eqn:Hv; [|by exists msg|done].
      destruct Hr as [Hn|(p & Hp & Hgov)]; [destruct Hn; by eapply validate_device_ok|].
      unfold validate_device in Hv. apply bind_ok in Hv as (_ & _ & (_ & _ & Hv)%bind_ok).
      destruct (find _ (policies s)) eqn:Hfind; [done|]. rewrite find_None in Hfind.
      specialize (Hfind p Hp). by rewrite bool_decide_eq_false_2 in Hfind. }
    destruct Hv as [msg ->]. by exists msg.
  - unfold apply_session_request. destruct Ht as [Hc Hg].
    destruct (validate_unit u) as [[]|e] eqn:Hu.
    2: { pose proof (validate_unit_calm u) as Hcalm. rewrite Hu in Hcalm. destruct e; [eauto|done]. }
    destruct (limits_validate cpu) as [u1|e] eqn:H1.
    2: { pose proof (limits_validate_calm cpu) as Hcalm. rewrite H1 in Hcalm. destruct e; [eauto|done]. }
    destruct (limits_validate gpu) as [u2|e] eqn:H2.
    2: { pose proof (limits_validate_calm gpu) as Hcalm. rewrite H2 in Hcalm. destruct e; [eauto|done]. }
    destruct (validate_device s (device s)) as [u3|e] eqn:H3.
    2: { pose proof (validate_device_calm s (device s)) as Hcalm. rewrite H3 in Hcalm. destruct e; [eauto|done]. }
    destruct Hr as [Hn|[Hn|[Hn|[x ->]]]].
    + destruct Hn. by apply validate_unit_iff.
    + destruct Hn. by eapply limits_validate_ok.
    + destruct Hn. by eapply limits_validate_ok.
    + eauto.
  - unfold end_session_request. destruct (validate_unit u) as [[]|e] eqn:Hu.
    2: { pose proof (validate_unit_calm u) as Hcalm. rewrite Hu in Hcalm. destruct e; [eauto|done]. }
    destruct (session s) as [x|] eqn:Hx; simpl; [|eauto].
    rewrite bool_decide_eq_false_2 by (by apply Hr). simpl. eauto.
Qed.

(** What an operation does to a session: it keeps it, leaves it to be reverted,
    or ends it. *)
Definition session_next (x : Session) (next : option Session) : Prop :=
  next = None \/ next = Some x \/ next = Some (Reverting (session_unit x)).

Lemma restore_next w s w' s' r x :
  restore m w s = (w', s', r) -> session s = Some x ->
  device s' = device s /\ session_next x (session s') /\ (session s' = None <-> r = Ok ()).
Proof.
  intros [[-> ->]|[He ->]]%restore_cases Hx; simpl.
  - split_and!; [done|by left|done].
  - rewrite Hx. split_and!; [done|by right; right|]. simpl. split; [done|]. by intros ->.
Qed.

Lemma apply_device_fails d w s w' s' e :
  MachineLaws m (roots s) -> limits_ok s ->
  apply_device_request m d w s = (w', s', Err e) -> e <> Panicked ->
  s' = s /\
  (w' = w \/
   session s = None /\ (device_shows m s w' \/ exists w1 e', apply_device m s (device s) w1 = (w', Err e'))).
Proof.
  intros Hlaws Hs. unfold apply_device_request. destruct (validate_device s d); [|intros [= <- <- _] _; by auto].
  destruct (session s) as [x|] eqn:Hx; [done|].
  destruct (apply_device m s d w) as [w1 [y|[msg|]]]; [done| |by intros [= _ _ <-]].
  destruct (apply_device m s (device s) w1) as [w2 [[]|[msg2|]]] eqn:Ha; [..|by intros [= _ _ <-]];
    intros [= <- <- _] _; split; [done| |done|]; right; (split; [done|]).
  - left. by apply apply_hardware_shows in Ha.
  - right. eauto.
Qed.

Lemma apply_session_fails u cpu gpu w s w' s' e :
  MachineLaws m (roots s) -> limits_ok s -> typed_limits cpu -> typed_limits gpu ->
  apply_session_request m u cpu gpu w s = (w', s', Err e) -> e <> Panicked ->
  (s' = s /\ w' = w) \/
  (session s = None /\
   (s' = set_session None s /\ device_shows m s' w' \/ s' = set_session (Some (Reverting u)) s)).
Proof.
  unfold apply_session_request. intros Hlaws Hs Hc Hg Hr He.
  destruct (validate_unit u) as [[]|] eqn:Hu; [|injection Hr as <- <- _; by left].
  destruct (limits_validate cpu) eqn:H1; [|injection Hr as <- <- _; by left].
  destruct (limits_validate gpu) eqn:H2; [|injection Hr as <- <- _; by left].
  destruct (validate_device s (device s)); [|injection Hr as <- <- _; by left].
  destruct (session s) as [x|]; [injection Hr as <- <- _; by left|].
  destruct (populated m s u w) as [[]|er]; [|injection Hr as <- <- _; by left..].
  destruct (cgroup m s u w) as [path|er]; [|injection Hr as <- <- _; by left].
  destruct (read m _ w); [|injection Hr as <- <- _; by left].
  destruct (read m (path_join path "cpu.uclamp.max") w); [|injection Hr as <- <- _; by left].
  simpl in Hr. set (s1 := set_session _ s) in Hr.
  assert (Hs1 : limits_ok s1).
  { apply ok_set_session; [|done]. intros y [= <-]. split; [done|].
    split_and!; [apply Hs|by eapply limits_validate_ok..]. }
  destruct (try! w, _ <- _ ;; _) as [w1 [[]|[msg|]]]; [done| |by injection Hr as _ _ <-].
  destruct (restore m w1 s1) as [[w2 s2] r] eqn:Hre. right. split; [done|].
  assert (Heq : s2 = s' /\ w2 = w') by (destruct r as [y|[msg2|]]; injection Hr; auto).
  destruct Heq as [-> ->].
  pose proof (restore_cases _ _ _ _ _ _ Hre) as [[-> ->]|[_ ->]]; [left|by right].
  split; [done|]. by apply restore_shows in Hre as [_ ?].
Qed.

Lemma end_session_fails u w s w' s' e :
  end_session_request m u w s = (w', s', Err e) ->
  (s' = s /\ w' = w) \/
  ((exists x, session s = Some x /\ session_unit x = u) /\ s' = set_session (Some (Reverting u)) s).
Proof.
  unfold end_session_request. destruct (validate_unit u); [|intros [= <- <- _]; by left].
  destruct (session s) as [x|] eqn:Hx; simpl; [|intros [= <- <- _]; by left].
  case_bool_decide as Hux; simpl; [|intros [= <- <- _]; by left].
  destruct (restore m w s) as [[w1 s1] [y|er]] eqn:Hr; [done|]. intros [= _ <- _]. right.
  split; [by exists x|]. apply restore_cases in Hr as [[[=] _]|[_ ->]]. rewrite Hx. simpl. by rewrite Hux.
Qed.

(** C36: A request that failed leaves the daemon and the hardware as they were, or what
    it had begun is undone. The device values the daemon stands for are always
    the old ones. New device values that could not be set are taken back: every
    CPU policy and GPU node shows the old ones again, unless putting them back
    failed as well. A session that could not be started is gone, with the
    device's values on the hardware, or it waits to be reverted, and is never
    active; a session that could not be ended waits to be reverted. *)
Theorem failed_request_recovers request w s w' s' e :
  MachineLaws m (roots s) -> serving m s -> typed_request request ->
  execute m request w s = (w', s', Err e) -> e <> Panicked ->
  defaults s' = defaults s /\ device s' = device s /\ roots s' = roots s /\ gpus s' = gpus s /\
  (session s' = session s /\ w' = w \/
   match request with
   | Describe => False
   | ApplyDevice _ =>
       session s = None /\ session s' = None /\
       (device_shows m s' w' \/ exists w1 e', apply_device m s' (device s') w1 = (w', Err e'))
   | ApplySession u _ _ =>
       session s = None /\
       (session s' = None /\ device_shows m s' w' \/ session s' = Some (Reverting u))
   | EndSession u => (exists x, session s = Some x /\ session_unit x = u) /\ session s' = Some (Reverting u)
   end).
Proof.
  intros Hlaws Hs%serving_ok Ht. unfold execute. destruct (cpu_policies m (roots s) w) as [l|er] eqn:Hl.
  2: { intros [= <- <- _] _. auto 10. }
  apply (ok_set_policies m w l) in Hs; [|done]. change (MachineLaws m (roots (set_policies l s))) in Hlaws.
  change (session s) with (session (set_policies l s)).
  destruct request as [|d|u cpu gpu|u]; [done|..]; intros Hr He.
  - apply apply_device_fails in Hr as [-> Hw]; [|done..]. split_and!; try done.
    destruct Hw as [->|[Hx Hw]]; [by left|by right].
  - destruct Ht as [Hc Hg]. apply apply_session_fails in Hr as [[-> ->]|[Hx [[-> Hw]| ->]]]; [..|done|done|done|done|done];
      simpl; auto 10.
  - apply end_session_fails in Hr as [[-> ->]|[Hx ->]]; simpl; auto 10.
Qed.

(** Nobody but korrid is served: whatever another peer sends, the world and the
    service are untouched and the answer is an error. *)
Theorem stranger_is_refused parse c allowed w s :
  peer_uid c <> Ok allowed ->
  exists message, serve_connection m parse c allowed w s = (w, s, Some (RErr message)).
Proof.
  intros Hne. unfold serve_connection, receive. destruct (peer_uid c) as [uid|e]; simpl; [|eauto].
  destruct (frame c) as [bytes|e]; simpl; [|eauto].
  destruct (Z.eqb_spec uid allowed) as [->|]; simpl; [done|eauto].
Qed.
End ending.

Section restored.
Context {W : Type} (m : Machine W).

(** The session is as it was, waits to be reverted, or is over, with the values
    of the device on the hardware. *)
Definition kept_or_restored (x : Session) (after : W * Limitsd) : Prop :=
  match session after.2 with
  | None => device_shows m after.2 after.1
  | Some y => y = x \/ y = Reverting (session_unit x)
  end.

Lemma kept_same x w s : session s = Some x -> kept_or_restored x (w, s).
Proof. unfold kept_or_restored. simpl. intros ->. by left. Qed.

Lemma restore_restored x w s :
  MachineLaws m (roots s) -> limits_ok s -> session s = Some x -> kept_or_restored x (restore m w s).1.
Proof.
  intros Hlaws Hok Hx. destruct (restore m w s) as [[w' s'] r] eqn:Hr. unfold kept_or_restored. simpl.
  pose proof (restore_next _ _ _ _ _ _ _ Hr Hx) as (_ & Hn & Hd).
  destruct (session s') as [y|] eqn:Hy.
  - destruct Hn as [[=]|[[= ->]|[= ->]]]; auto.
  - rewrite (proj1 Hd eq_refl) in Hr. by apply restore_shows in Hr as [_ ?].
Qed.

Lemma poll_restored x w s :
  MachineLaws m (roots s) -> limits_ok s -> session s = Some x -> kept_or_restored x (poll_session m w s).1.
Proof.
  intros Hlaws Hok Hx. pose proof (restore_restored x w s Hlaws Hok Hx) as Hr. unfold poll_session. rewrite Hx.
  destruct x as [u d c g|u]; [|done]. destruct (populated m s _ w) as [[]|e]; [|done|]; by apply kept_same.
Qed.

Lemma poll_ended x w s w' s' r :
  poll_session m w s = (w', s', r) -> session s = Some x -> session s' = None -> r = Ok ().
Proof.
  intros Hp Hx Hn.
  assert (Hr : restore m w s = (w', s', r) -> r = Ok ()).
  { intros Hr. by destruct (restore_next _ _ _ _ _ _ _ Hr Hx) as (_ & _ & <-). }
  unfold poll_session in Hp. rewrite Hx in Hp. destruct x as [u d c g|u]; [|by apply Hr].
  destruct (populated m s _ w) as [[]|e]; [|by apply Hr|]; injection Hp as _ <- _; congruence.
Qed.

Lemma execute_restored x request w s :
  MachineLaws m (roots s) -> limits_ok s -> session s = Some x ->
  kept_or_restored x (execute m request w s).1.
Proof.
  intros Hlaws Hok Hx. unfold execute. destruct (cpu_policies m (roots s) w) as [l|e] eqn:Hl; [|by apply kept_same].
  apply (ok_set_policies m w l) in Hok; [|done]. change (session (set_policies l s) = Some x) in Hx.
  change (MachineLaws m (roots (set_policies l s))) in Hlaws.
  generalize dependent (set_policies l s). clear s Hl l. intros s Hlaws Hok Hx.
  pose proof (restore_restored x w s Hlaws Hok Hx) as Hr.
  destruct request as [|d|u cpu gpu|u]; [by apply kept_same|..].
  - unfold apply_device_request. rewrite Hx. destruct (validate_device s d); by apply kept_same.
  - unfold apply_session_request. rewrite Hx.
    destruct (validate_unit u), (limits_validate cpu), (limits_validate gpu), (validate_device s (device s));
      by apply kept_same.
  - unfold end_session_request. destruct (validate_unit u); [|by apply kept_same].
    destruct (negb _); [by apply kept_same|]. by destruct (restore m w s) as [[w1 s1] [y|e]].
Qed.

(** What a periodic pass does to a session is what its poll does; where the poll
    ended it, the pass writes the device's values once more. *)
Lemma reassert_poll w s w' s' r :
  MachineLaws m (roots s) -> limits_ok s -> reassert m w s = (w', s', r) ->
  (w' = w /\ s' = s) \/
  exists found w1 r1, cpu_policies m (roots s) w = Ok found /\
    poll_session m w (set_policies found s) = (w1, s', r1) /\
    (is_err r1 = true -> w' = w1 /\ r = r1) /\
    (session s' = None -> r = Ok () -> device_shows m s' w').
Proof.
  intros Hlaws Hok. unfold reassert. destruct (cpu_policies m (roots s) w) as [l|e] eqn:Hl.
  2: { intros [= <- <- _]. by left. }
  pose proof (ok_set_policies m w l s Hl Hok) as Hok1.
  pose proof (poll_limits m w _ Hok1) as Hok2.
  destruct (poll_session m w (set_policies l s)) as [[w1 s1] r1] eqn:Hp.
  assert (Hroots : roots s1 = roots s).
  { unfold poll_session in Hp. destruct (session (set_policies l s)) as [[u d c g|u]|].
    - destruct (populated m _ _ w) as [[]|e]; [by injection Hp as _ <- _| |by injection Hp as _ <- _].
      by apply restore_cases in Hp as [[_ ->]|[_ ->]].
    - by apply restore_cases in Hp as [[_ ->]|[_ ->]].
    - by injection Hp as _ <- _. }
  simpl in Hok2. intros Hrun. right. exists l, w1.
  destruct r1 as [[]|e1]; [|injection Hrun as <- <- <-; exists (Err e1); by split_and!].
  exists (Ok ()).
  destruct (for_each _ _ w1) as [w2 [[]|e2]]; [|injection Hrun as <- <- <-; by split_and!].
  destruct (session s1) as [[u d c g|u]|] eqn:Hx1.
  - assert (Hss : s' = s1) by (destruct (apply_hardware m s1 d _ g w2) as [w3 [[]|e3]];
      [destruct (write_uclamp m s1 u c w3)|]; by injection Hrun). subst s'. split_and!; try done. by rewrite Hx1.
  - assert (Hss : s' = s1) by (destruct (apply_device m s1 (device s1) w2); by injection Hrun).
    subst s'. split_and!; try done. by rewrite Hx1.
  - destruct (apply_device m s1 (device s1) w2) as [w3 r3] eqn:Ha. injection Hrun as <- <- <-.
    split_and!; try done. intros _ ->. apply apply_hardware_shows in Ha; [done|by rewrite Hroots|done].
Qed.

(** C34: A session ends only when the device's values are back: a request, a poll and
    the periodic pass leave the session as it is, leave it to be reverted, or
    leave none, and then every CPU policy and GPU node shows the values of the
    device. The pass writes them once more after they are back: when it reports
    success they are shown in the end, and when it fails they were shown when
    the session ended. *)
Theorem session_ends_restored w s x :
  MachineLaws m (roots s) -> serving m s -> session s = Some x ->
  (forall request, typed_request request -> kept_or_restored x (execute m request w s).1) /\
  kept_or_restored x (poll_session m w s).1 /\
  (forall w' s' r, reassert m w s = (w', s', r) ->
     match session s' with
     | Some y => y = x \/ y = Reverting (session_unit x)
     | None =>
         (exists found w1, cpu_policies m (roots s) w = Ok found /\
            poll_session m w (set_policies found s) = (w1, s', Ok ()) /\ device_shows m s' w1) /\
         (r = Ok () -> device_shows m s' w')
     end).
Proof.
  intros Hlaws Hok%serving_ok Hx. split_and!; [intros request _; by apply execute_restored|by apply poll_restored|].
  intros w' s' r [[-> ->]|(found & w1 & r1 & Hf & Hp & Hr1 & Hr)]%reassert_poll; [by rewrite Hx; left| |done..].
  pose proof (poll_restored x w (set_policies found s) Hlaws (ok_set_policies m w found s Hf Hok) Hx) as Hk.
  rewrite Hp in Hk. unfold kept_or_restored in Hk. simpl in Hk. destruct (session s') as [y|] eqn:Hy; [done|].
  split; [|by apply Hr]. exists found, w1. split_and!; [done| |done]. by rewrite Hp, (poll_ended _ _ _ _ _ _ Hp Hx Hy).
Qed.
End restored.

(** ** Crossing an interval *)

(** What cpufreq and devfreq document of a pair of limit attributes: a store is
    accepted while it keeps the interval ordered, and shown as it is. *)
Class IntervalLaws {W} (m : Machine W) (lo_path hi_path : string) : Prop := {
  il_min w lo hi v :
    number m lo_path w = Ok lo -> number m hi_path w = Ok hi -> 0 <= v <= hi ->
    exists w', overwrite m lo_path (decimal v +:+ newline) w = (w', Ok ()) /\
      number m lo_path w' = Ok v /\ number m hi_path w' = Ok hi;
  il_max w lo hi v :
    number m lo_path w = Ok lo -> number m hi_path w = Ok hi -> lo <= v <= u64_max ->
    exists w', overwrite m hi_path (decimal v +:+ newline) w = (w', Ok ()) /\
      number m lo_path w' = Ok lo /\ number m hi_path w' = Ok v;
}.

Section crossing.
Context {W : Type} (m : Machine W) (root lo_name hi_name : string).
Context `{!IntervalLaws m (path_join root lo_name) (path_join root hi_name)}.

Lemma write_accepted s p v w w' : overwrite m p (v +:+ newline) w = (w', Ok ()) -> write m s p v w = (w', Ok ()).
Proof. intros Ho. unfold write. by rewrite Ho. Qed.

Lemma write_interval_crosses s lo hi old_lo old_hi w :
  number m (path_join root lo_name) w = Ok old_lo -> number m (path_join root hi_name) w = Ok old_hi ->
  old_lo <= old_hi -> 0 <= lo <= hi -> hi <= u64_max ->
  exists w', write_interval m s root lo_name hi_name lo hi w = (w', Ok ()) /\
    number m (path_join root lo_name) w' = Ok lo /\ number m (path_join root hi_name) w' = Ok hi.
Proof.
  intros Hlo Hhi Hold Hnew Hmax. unfold write_interval. rewrite Hlo. destruct (Z.ltb_spec hi old_lo) as [Hlt|Hge].
  - destruct (il_min w old_lo old_hi lo Hlo Hhi) as (w1 & H1 & Hl1 & Hh1); [lia|].
    rewrite (write_accepted s _ _ _ _ H1).
    destruct (il_max w1 lo old_hi hi Hl1 Hh1) as (w2 & H2 & Hl2 & Hh2); [lia|].
    exists w2. by rewrite (write_accepted s _ _ _ _ H2).
  - destruct (il_max w old_lo old_hi hi Hlo Hhi) as (w1 & H1 & Hl1 & Hh1); [lia|].
    rewrite (write_accepted s _ _ _ _ H1).
    destruct (il_min w1 old_lo hi lo Hl1 Hh1) as (w2 & H2 & Hl2 & Hh2); [lia|].
    exists w2. by rewrite (write_accepted s _ _ _ _ H2).
Qed.
End crossing.

(** The bounds of what is selected for a policy. *)
Lemma mapped_range l p lo hi :
  policy_ok p -> valid_limits l ->
  mapped l (cpuinfo_max_freq p) (min_freq p) (pol_frequencies p) = Ok (lo, hi) ->
  0 <= lo <= hi /\ hi <= u64_max.
Proof.
  intros [] Hl Hm.
  destruct (mapped_spec l (cpuinfo_max_freq p) (min_freq p) (pol_frequencies p)) as (lo' & hi' & Hm' & Hle & Hcase);
    [done|lia|lia|done|]. rewrite Hm in Hm'. injection Hm' as <- <-.
  destruct (pol_frequencies p) as [|first rest]; [lia|].
  destruct Hcase as (Hlo & Hhi & _). rewrite Forall_forall in po_range0.
  pose proof (po_range0 _ Hlo). pose proof (po_range0 _ Hhi). lia.
Qed.

(** On a kernel that rejects an inverted interval, applying a policy is never
    rejected: whatever interval the governor leaves, the two stores are ordered
    so that each is accepted, and the selected interval, which is not inverted
    either, is what the policy shows in the end. *)
Theorem policy_never_rejected {W} (m : Machine W) s d cpu_max p w w1 old_lo old_hi :
  let path := cpu_path (roots s) (pol_name p) in
  IntervalLaws m (path_join path "scaling_min_freq") (path_join path "scaling_max_freq") ->
  policy_ok p -> valid_limits (def_cpu d) -> lim_max (def_cpu d) <= cpu_max <= 100 ->
  write m s (path_join path "scaling_governor") (governor d) w = (w1, Ok ()) ->
  number m (path_join path "scaling_min_freq") w1 = Ok old_lo ->
  number m (path_join path "scaling_max_freq") w1 = Ok old_hi -> old_lo <= old_hi ->
  exists w' lo hi, apply_policy m s d cpu_max p w = (w', Ok ()) /\ lo.1 <= hi.2 /\
    mapped (def_cpu d) (cpuinfo_max_freq p) (min_freq p) (pol_frequencies p) = Ok lo /\
    mapped (MkLimits 0 cpu_max) (cpuinfo_max_freq p) (min_freq p) (pol_frequencies p) = Ok hi /\
    number m (path_join path "scaling_min_freq") w' = Ok lo.1 /\
    number m (path_join path "scaling_max_freq") w' = Ok hi.2.
Proof.
  intros path Hlaws Hp Hd Hc Hg Hlo Hhi Hold. unfold apply_policy. fold path. rewrite Hg.
  assert (Htop : 0 < min_freq p <= cpuinfo_max_freq p /\ cpuinfo_max_freq p <= u64_max /\
    StronglySorted Z.le (pol_frequencies p)) by (destruct Hp; done).
  destruct Htop as (Hb & Ht & Hs).
  assert (Hvc : valid_limits (MkLimits 0 cpu_max)) by (destruct Hd; split; simpl; lia).
  destruct (mapped (def_cpu d) (cpuinfo_max_freq p) (min_freq p) (pol_frequencies p)) as [lo|e] eqn:Hl;
    [|rewrite mapped_ok in Hl by lia; done].
  destruct (mapped (MkLimits 0 cpu_max) (cpuinfo_max_freq p) (min_freq p) (pol_frequencies p)) as [hi|e] eqn:Hh;
    [|rewrite mapped_ok in Hh by lia; done].
  assert (Hord : lo.1 <= hi.2).
  { destruct Hd as [Hd1 Hd2].
    by apply (policy_interval_ordered d cpu_max (cpuinfo_max_freq p) (min_freq p) (pol_frequencies p) lo hi);
      [lia|lia|done|lia|lia|..]. }
  pose proof Hl as Hl1. pose proof Hh as Hh1. destruct lo as [lo1 lo2], hi as [hi1 hi2]. simpl in *.
  apply mapped_range in Hl1 as [Hl1 _]; [|done..]. apply mapped_range in Hh1 as [_ Hh1]; [|done..].
  destruct (write_interval_crosses m path "scaling_min_freq" "scaling_max_freq" s lo1 hi2 old_lo old_hi w1)
    as (w2 & H2 & Hn1 & Hn2); [done|done|done|lia|done|].
  exists w2, (lo1, lo2), (hi1, hi2). by rewrite H2.
Qed.
