(* ===== verification/LimitsSim.v ===== *)
(** * A simulated machine for the limits daemon

    An instance of [Machine] that answers like the kernel's files (a missing file
    refuses, a store that inverts an interval is rejected), with the laws the
    theorems of [Limits] assume, and each of those theorems applied on it. *)

From S2P Require Import Prelude Text Decimal Limits.


(** ** A simulated machine *)

Definition sim_cpu (leaf : string) : string := "/sim/devices/system/cpu/cpufreq/policy0/" +:+ leaf.
Definition sim_gpu (leaf : string) : string := "/sim/class/devfreq/gpu/" +:+ leaf.
Definition demo_unit : string := "korri-game-0123456789abcdef0123456789abcdef.service".
Definition sim_slice : string := "/cg/korri.slice/korri-games.slice".
Definition sim_unit (leaf : string) : string := sim_slice +:+ "/" +:+ demo_unit +:+ "/" +:+ leaf.

Notation files := (gmap string string).

Definition sim_value (p : string) (w : files) : option Z := w !! p ≫= fun c => from_decimal u64_max (trim c).

(** The kernel refuses a store that would invert an interval. *)
Definition sim_rejects (p v : string) (w : files) : bool :=
  existsb (fun pair : string * string =>
    match from_decimal u64_max (trim v) with
    | Some n =>
        (bool_decide (p = pair.1) && is_some_and (sim_value pair.2 w) (fun hi => hi <? n))
        || (bool_decide (p = pair.2) && is_some_and (sim_value pair.1 w) (fun lo => n <? lo))
    | None => false
    end)
  [(sim_cpu "scaling_min_freq", sim_cpu "scaling_max_freq"); (sim_gpu "min_freq", sim_gpu "max_freq")].

Definition sim_machine : Machine files :=
  MkMachine files
    (fun p w => match w !! p with Some c => Ok c | None => Err NotFound end)
    (fun p v w => match w !! p with
                  | None => (w, Err NotFound)
                  | Some _ => if sim_rejects p v w then (w, Err (IoFailed "Invalid argument (os error 22)"))
                              else (<[p := v]> w, Ok ())
                  end)
    (fun w => w)
    (fun p w => if bool_decide (p = "/sim/devices/system/cpu/cpufreq")
                then Ok [Ok (Some "boost"); Ok (Some "policy0")] else Err NotFound)
    (fun p w => Ok p)
    (fun p w => Ok (bool_decide (p = sim_slice +:+ "/" +:+ demo_unit))).

#[export] Instance sim_machine_laws r : MachineLaws sim_machine r.
Proof.
  split; simpl.
  - intros p v w w' _. destruct (w !! p); [|done]. destruct (sim_rejects p v w); [done|].
    intros [= <-]. by rewrite lookup_insert_eq.
  - intros p v w q _ _ Hne _. destruct (w !! p); [|done]. destruct (sim_rejects p v w); [done|]. simpl.
    by rewrite lookup_insert_ne.
  - done.
Qed.

Lemma sim_number p w n : number sim_machine p w = Ok n <-> sim_value p w = Some n.
Proof.
  unfold number, read, sim_value. simpl. destruct (w !! p) as [c|]; [|done]. simpl.
  destruct (from_decimal u64_max (trim c)) as [k|]; [|done]. split; by intros [= ->].
Qed.

Lemma sim_value_insert p n w : 0 <= n <= u64_max -> sim_value p (<[p := decimal n +:+ newline]> w) = Some n.
Proof.
  intros Hn. unfold sim_value. rewrite lookup_insert_eq. simpl. rewrite trim_decimal by lia.
  by apply from_to_decimal.
Qed.

Lemma sim_value_frame p q v w : q <> p -> sim_value q (<[p := v]> w) = sim_value q w.
Proof. intros Hne. unfold sim_value. by rewrite lookup_insert_ne. Qed.

Lemma sim_accepts p v w :
  is_Some (w !! p) -> sim_rejects p v w = false -> overwrite sim_machine p v w = (<[p := v]> w, Ok ()).
Proof. intros [c Hc] Hr. simpl. by rewrite Hc, Hr. Qed.

#[export] Instance sim_interval_laws :
  IntervalLaws sim_machine (sim_cpu "scaling_min_freq") (sim_cpu "scaling_max_freq").
Proof.
  assert (Hhave : forall p w n, sim_value p w = Some n -> is_Some (w !! p)).
  { unfold sim_value. intros p w n. destruct (w !! p); [eauto|done]. }
  split; intros w lo hi v Hlo Hhi Hv.
  - pose proof (number_range sim_machine _ _ _ Hhi) as Hr. rewrite sim_number in Hlo, Hhi.
    eexists. split; [apply sim_accepts|]; [by eapply Hhave| |].
    + unfold sim_rejects. simpl. rewrite trim_decimal, from_to_decimal by lia. rewrite Hhi. simpl.
      rewrite (proj2 (Z.ltb_ge hi v)) by lia. done.
    + rewrite !sim_number, sim_value_insert, sim_value_frame by (lia || done). done.
  - pose proof (number_range sim_machine _ _ _ Hlo) as Hr. rewrite sim_number in Hlo, Hhi.
    eexists. split; [apply sim_accepts|]; [by eapply Hhave| |].
    + unfold sim_rejects. simpl. rewrite trim_decimal, from_to_decimal by lia. rewrite Hlo. simpl.
      rewrite (proj2 (Z.ltb_ge v lo)) by lia. done.
    + rewrite !sim_number, sim_value_insert, sim_value_frame by (lia || done). done.
Qed.

Definition demo_files : files := list_to_map
  [(sim_cpu "cpuinfo_max_freq", "2000" +:+ newline); (sim_cpu "cpuinfo_min_freq", "500" +:+ newline);
   (sim_cpu "related_cpus", "0 1" +:+ newline);
   (sim_cpu "scaling_available_frequencies", "500 1000 1500 2000" +:+ newline);
   (sim_cpu "scaling_available_governors", "performance schedutil" +:+ newline);
   (sim_cpu "scaling_governor", "performance" +:+ newline);
   (sim_cpu "scaling_min_freq", "500" +:+ newline); (sim_cpu "scaling_max_freq", "2000" +:+ newline);
   (sim_gpu "available_frequencies", "100 200 400" +:+ newline);
   (sim_gpu "min_freq", "100" +:+ newline); (sim_gpu "max_freq", "400" +:+ newline);
   ("/cg/korri.slice/cgroup.subtree_control", ""); ("/cg/korri.slice/cpu.uclamp.min", "");
   (sim_slice +:+ "/cgroup.subtree_control", ""); (sim_slice +:+ "/cpu.uclamp.min", "");
   (sim_unit "cgroup.events", "populated 1" +:+ newline +:+ "frozen 0" +:+ newline);
   (sim_unit "cpu.uclamp.min", "0" +:+ newline); (sim_unit "cpu.uclamp.max", "max" +:+ newline)].

Definition demo_roots : Roots := MkRoots "/sim" "/cg".
Definition demo_device : Defaults := MkDefaults (MkLimits 0 50) (MkLimits 0 100) "schedutil".

Definition idle_limitsd : Limitsd := MkLimitsd demo_roots demo_device demo_device [] [] None.

(** The daemon started on the demo files, and the same with a running game. *)
Definition demo_limitsd : files * Limitsd :=
  match start sim_machine demo_roots demo_device ["gpu"] demo_files with
  | (w, Ok s) => (w, s)
  | (w, Err _) => (w, idle_limitsd)
  end.

Definition demo_session : Request := ApplySession demo_unit (MkLimits 25 100) (MkLimits 50 100).

Definition demo_playing : files * Limitsd := (execute sim_machine demo_session demo_limitsd.1 demo_limitsd.2).1.

Lemma demo_limitsd_serving : serving sim_machine demo_limitsd.2.
Proof.
  destruct (start sim_machine demo_roots demo_device ["gpu"] demo_files) as [w [s|e]] eqn:Hs.
  - assert (Heq : demo_limitsd = (w, s)) by (unfold demo_limitsd; by rewrite Hs). rewrite Heq.
    apply (serving_start sim_machine demo_roots demo_device ["gpu"] demo_files w s); [|done].
    unfold typed_defaults, typed_limits, in_u8. simpl. lia.
  - exfalso. assert (Hok : is_ok (start sim_machine demo_roots demo_device ["gpu"] demo_files).2 = true)
      by (vm_compute; reflexivity). rewrite Hs in Hok. discriminate Hok.
Qed.

Lemma demo_session_typed : typed_request demo_session.
Proof. unfold typed_request, typed_limits, in_u8. simpl. lia. Qed.

Lemma demo_playing_serving : serving sim_machine demo_playing.2.
Proof. apply serving_request; [apply demo_session_typed|apply demo_limitsd_serving]. Qed.

Lemma limitsd_never_panics_witness :
  is_Some (handle sim_machine demo_session demo_limitsd.1 demo_limitsd.2).2.
Proof.
  exact (proj1 (limitsd_never_panics sim_machine demo_session demo_limitsd.1 demo_limitsd.2
    demo_limitsd_serving demo_session_typed)).
Defined.

Lemma mapped_spec_witness :
  exists lo hi, mapped (MkLimits 30 60) 2000 500 [500; 1000; 1500; 2000] = Ok (lo, hi) /\ lo <= hi.
Proof.
  destruct (mapped_spec (MkLimits 30 60) 2000 500 [500; 1000; 1500; 2000]) as (lo & hi & Hm & Hle & _).
  - split; simpl; lia.
  - lia.
  - unfold u64_max. lia.
  - repeat constructor; lia.
  - exists lo, hi. split; assumption.
Defined.

Lemma request_applied_witness :
  session demo_playing.2 = Some (Active demo_unit demo_device (MkLimits 25 100) (MkLimits 50 100)).
Proof.
  destruct (execute sim_machine demo_session demo_limitsd.1 demo_limitsd.2) as [[w' s'] r] eqn:Hrun.
  assert (Hr : r = Ok Nothing).
  { change r with (w', s', r).2. rewrite <- Hrun. vm_compute. reflexivity. }
  subst r. pose proof (request_applied sim_machine demo_session _ _ w' s' Nothing
    (sim_machine_laws _) demo_limitsd_serving demo_session_typed Hrun) as (_ & Hs & _).
  unfold demo_playing. rewrite Hrun. simpl. rewrite Hs. vm_compute. reflexivity.
Defined.

Lemma refused_writes_nothing_witness :
  exists message, (execute sim_machine (EndSession "other") demo_playing.1 demo_playing.2).2 = Err (Failed message).
Proof.
  destruct (cpu_policies sim_machine (roots demo_playing.2) demo_playing.1) as [found|e] eqn:Hf.
  - destruct (refused_writes_nothing sim_machine (EndSession "other") demo_playing.1 demo_playing.2 found)
      as [message He]; [exact I|exact Hf| |].
    + intros x Hx. change (session demo_playing.2 = Some x) in Hx. assert (Hu : session_unit x = demo_unit).
      { assert (Hs : session_unit <$> session demo_playing.2 = Some demo_unit) by (vm_compute; reflexivity).
        rewrite Hx in Hs. injection Hs as Hs. exact Hs. }
      rewrite Hu. discriminate.
    + exists message. by rewrite He.
  - exfalso. assert (Hok : is_ok (cpu_policies sim_machine (roots demo_playing.2) demo_playing.1) = true)
      by (vm_compute; reflexivity). rewrite Hf in Hok. discriminate Hok.
Defined.

(** A machine whose GPU node has lost its upper limit: what is applied to it
    fails half way, and so does what is put back. *)
Definition broken_files : files := delete (sim_gpu "max_freq") demo_limitsd.1.

Example broken_session :
  session (execute sim_machine demo_session broken_files demo_limitsd.2).1.2 = Some (Reverting demo_unit).
Proof. vm_compute. reflexivity. Qed.

(** Device values whose minimum the node's upper limit is below: the store that
    raises it is refused after the CPU policy was set, and the old values are
    put back. *)
Definition high_machine : Machine files :=
  MkMachine files (read_to_string sim_machine)
    (fun p v w => if bool_decide (p = sim_gpu "min_freq" /\ v = "400" +:+ newline)
                  then (w, Err (IoFailed "Invalid argument (os error 22)"))
                  else overwrite sim_machine p v w)
    (remount_sys sim_machine) (read_dir sim_machine) (canonicalize sim_machine) (try_exists sim_machine).

#[export] Instance high_machine_laws r : MachineLaws high_machine r.
Proof.
  split.
  - intros p v w w' Hp. simpl. case_bool_decide; [done|]. by apply (ml_shows (m := sim_machine) (r := r) p).
  - intros p v w q Hp Hq Hne Hr. simpl. case_bool_decide; [done|]. by apply (ml_frame (m := sim_machine) (r := r) p).
  - done.
Qed.

Definition high_limitsd : files * Limitsd :=
  match start high_machine demo_roots demo_device ["gpu"] demo_files with
  | (w, Ok s) => (w, s)
  | (w, Err _) => (w, idle_limitsd)
  end.

Lemma high_limitsd_serving : serving high_machine high_limitsd.2.
Proof.
  destruct (start high_machine demo_roots demo_device ["gpu"] demo_files) as [w [s|e]] eqn:Hs.
  - assert (Heq : high_limitsd = (w, s)) by (unfold high_limitsd; by rewrite Hs). rewrite Heq.
    apply (serving_start high_machine demo_roots demo_device ["gpu"] demo_files w s); [|done].
    unfold typed_defaults, typed_limits, in_u8. simpl. lia.
  - exfalso. assert (Hok : is_ok (start high_machine demo_roots demo_device ["gpu"] demo_files).2 = true)
      by (vm_compute; reflexivity). rewrite Hs in Hok. discriminate Hok.
Qed.

Definition high_request : Request :=
  ApplyDevice (MkDefaults (MkLimits 0 100) (MkLimits 100 100) "performance").

(** The request fails, after the policy's governor and interval were changed, and
    every file is as before. *)
Example high_request_undone :
  bool_decide ((execute high_machine high_request high_limitsd.1 high_limitsd.2).1.1 = high_limitsd.1) = true.
Proof. vm_compute. reflexivity. Qed.

Lemma failed_request_recovers_witness :
  device (execute high_machine high_request high_limitsd.1 high_limitsd.2).1.2 = demo_device.
Proof.
  destruct (execute high_machine high_request high_limitsd.1 high_limitsd.2) as [[w' s'] [v|e]] eqn:Hrun.
  - exfalso. assert (Hr : is_err (execute high_machine high_request high_limitsd.1 high_limitsd.2).2 = true)
      by (vm_compute; reflexivity). rewrite Hrun in Hr. discriminate Hr.
  - destruct (failed_request_recovers high_machine high_request high_limitsd.1 high_limitsd.2 w' s' e
      (high_machine_laws _) high_limitsd_serving) as (_ & Hd & _); [|exact Hrun| |].
    + unfold typed_request, typed_defaults, typed_limits, in_u8. simpl. lia.
    + intros ->. assert (Hr : match (execute high_machine high_request high_limitsd.1 high_limitsd.2).2 with
                              | Err Panicked => true | _ => false end = false) by (vm_compute; reflexivity).
      rewrite Hrun in Hr. discriminate Hr.
    + simpl. rewrite Hd. vm_compute. reflexivity.
Defined.

Lemma session_ends_restored_witness :
  device_shows sim_machine (execute sim_machine (EndSession demo_unit) demo_playing.1 demo_playing.2).1.2
    (execute sim_machine (EndSession demo_unit) demo_playing.1 demo_playing.2).1.1.
Proof.
  destruct (execute sim_machine (EndSession demo_unit) demo_playing.1 demo_playing.2) as [[w' s'] r] eqn:Hrun.
  destruct (session demo_playing.2) as [x|] eqn:Hx.
  - destruct (session_ends_restored sim_machine demo_playing.1 demo_playing.2 x
      (sim_machine_laws _) demo_playing_serving Hx) as [Hend _].
    assert (Hnone : session s' = None).
    { change s' with (w', s', r).1.2. rewrite <- Hrun. vm_compute. reflexivity. }
    specialize (Hend (EndSession demo_unit) I). rewrite Hrun in Hend. unfold kept_or_restored in Hend.
    simpl in Hend. rewrite Hnone in Hend. exact Hend.
  - exfalso. assert (Hs : is_some (session demo_playing.2) = true) by (vm_compute; reflexivity).
    rewrite Hx in Hs. discriminate Hs.
Defined.

Lemma stranger_is_refused_witness :
  exists message, serve_connection sim_machine (fun _ => Ok Describe) (MkConnection (Ok 7) (Ok [LF])) 9
    demo_limitsd.1 demo_limitsd.2 = (demo_limitsd.1, demo_limitsd.2, Some (RErr message)).
Proof. apply stranger_is_refused. discriminate. Defined.

Definition demo_policy : CpuPolicy := MkPolicy "policy0" [0; 1] 2000 [500; 1000; 1500; 2000] ["schedutil"] 500.

Lemma policy_never_rejected_witness :
  exists w', apply_policy sim_machine demo_limitsd.2 demo_device 100 demo_policy demo_limitsd.1 = (w', Ok ()).
Proof.
  destruct (write sim_machine demo_limitsd.2 (sim_cpu "scaling_governor") "schedutil" demo_limitsd.1) as [w1 [[]|e]] eqn:Hg.
  - assert (Hw1 : w1 = (write sim_machine demo_limitsd.2 (sim_cpu "scaling_governor") "schedutil" demo_limitsd.1).1)
      by (by rewrite Hg).
    destruct (policy_never_rejected sim_machine demo_limitsd.2 demo_device 100 demo_policy demo_limitsd.1 w1 500 1000)
      as (w' & lo & hi & Hrun & _).
    + exact sim_interval_laws.
    + split; [reflexivity|simpl; lia|unfold u64_max; simpl; lia|repeat constructor; lia|].
      repeat constructor; unfold u64_max; lia.
    + split; simpl; lia.
    + simpl. lia.
    + exact Hg.
    + rewrite Hw1. vm_compute. reflexivity.
    + rewrite Hw1. vm_compute. reflexivity.
    + lia.
    + exists w'. exact Hrun.
  - exfalso. assert (Hok : is_ok (write sim_machine demo_limitsd.2 (sim_cpu "scaling_governor") "schedutil" demo_limitsd.1).2 = true)
      by (vm_compute; reflexivity). rewrite Hg in Hok. discriminate Hok.
Defined.
