(* ===== verification/Library.v ===== *)
(** * Library reconciliation (services/korrid/src/discovery/reconcile/change.rs)

    What one discovery pass does to the library, the locations, the storage and
    the provider links of a configuration, and to the private record of what
    discovery owns.

    The configuration carries parts that the pass only hands on: their types are
    the class [Config]. A [NonEmptyString] is its string. [None] is a panic of
    the source ([expect], an index). *)

From stdpp Require Import pretty.
From S2P Require Import Prelude Text Decimal.

(** ** Data *)

(** The parts of a configuration that reconciliation never looks into, and JSON
    values, of which it makes strings only. *)
Class Config := {
  PlaceBody : Type;
  Profile : Type;
  Json : Type;
  HostPayload : Type;
  ProviderPayload : Type;
  SystemPayload : Type;
  HookProfilePayload : Type;
  place_default : PlaceBody;
  json_string : string -> Json;
  PlaceBody_eq_dec :: EqDecision PlaceBody;
  Profile_eq_dec :: EqDecision Profile;
  Json_eq_dec :: EqDecision Json;
}.

(** *** The configuration (config/mod.rs, config/library.rs) *)

Record FileTargetDiscovery := MkDiscovery { first_seen_at : string; missing_since : option string }.

Record FileSetPart := MkPart { part_id : string; part_role : option string; part_path : string }.

Inductive Location : Type :=
| File (storage path : string) (discovery : option FileTargetDiscovery)
| FileSet (storage : string) (root : option string) (files : list FileSetPart)
    (discovery : option FileTargetDiscovery)
| Executable (path : string)
| Url (value : string)
| ProviderRef (provider provider_ref : string).

Inductive LibraryIdentity : Type :=
| LHash (value : string)
| LParts (value : string) (parts : list string)
| LChd (value : string)
| LProvider (value : string).

Definition identity_value (i : LibraryIdentity) : string :=
  match i with LHash v | LParts v _ | LChd v | LProvider v => v end.

Record LibraryRelease `{Config} := MkRelease {
  rel_id : string;
  rel_system : option string;
  rel_identity : option LibraryIdentity;
  rel_display : option (gmap string Json);
  inheritable : PlaceBody;
}.

Record LibraryItem `{Config} := MkItem {
  item_place : PlaceBody;
  item_profiles : gmap string Profile;
  item_profile : option string;
  item_title : option string;
  version_of : option string;
  item_relation : option string;
  item_contains : option (gmap string Json);
  item_display : option (gmap string Json);
  item_metadata : option (gmap string Json);
  releases : list LibraryRelease;
}.

Record SourcePayload := MkSource {
  src_title : option string;
  src_kind : list string;
  src_storage : string;
  src_system : string;
}.

Record StoragePayload := MkStorage { storage_root : string; storage_path : option (gmap string string) }.

Inductive ProviderLinkRefKind : Type := KindUrl | ProviderItemId | ExternalId.

Record ProviderLinkRef := MkRef {
  ref_kind : ProviderLinkRefKind;
  ref_value : string;
  ref_scope : option string;
  target_part : option string;
}.

Record ProviderLink := MkLink {
  link_provider : string;
  playable : string;
  link_release : option string;
  refs : list ProviderLinkRef;
}.

Record ConfigSnapshot `{Config} := MkSnapshot {
  host : option HostPayload;
  storage : gmap string StoragePayload;
  providers : gmap string ProviderPayload;
  systems : gmap string SystemPayload;
  routines : gmap string HookProfilePayload;
  library : gmap string LibraryItem;
  sources : gmap string SourcePayload;
  provider_links : gmap string ProviderLink;
  locations : gmap string (list Location);
}.

(** *** What a scan reports (discovery/identify/types.rs, plugin.rs, provider.rs) *)

Record PathRecord := MkPath { path_identity : string; path_files : list string }.

Inductive ContentIdentity : Type :=
| Hash (sha256 sha1 : string)
| Parts (value : string) (parts : list string)
| Chd (sha1 : string).

Definition content_value (i : ContentIdentity) : string :=
  match i with Hash sha256 _ => sha256 | Parts value _ => value | Chd sha1 => sha1 end.

Inductive EvidenceLevel : Type := Extension | Name | Bytes | DeclaredHash | Assigned.

Record FoundUnit := MkUnit {
  source_id : string;
  storage_id : string;
  unit_path : string;
  unit_parts : list string;
  tracks : list string;
  unit_system : string;
  unit_title : string;
  unit_version : option string;
  region : option string;
  unit_identity : ContentIdentity;
  evidence : EvidenceLevel;
}.

Record SourceScan := MkScan {
  scan_source : string;
  units : list FoundUnit;
  seen_paths : list string;
}.

Inductive DeclaredFileStatus : Type :=
| Found (identity : ContentIdentity) | Absent | Mismatch | Unreadable.

Record DeclaredFile := MkDeclaredFile {
  df_game : string;
  df_release : string;
  df_storage : string;
  df_path : string;
  df_status : DeclaredFileStatus;
}.

Inductive DeclaredReleaseFile : Type :=
| AccountRootFile (path : string)
| ArtifactFile (artifact path : string)
| PackageFile (package_file path : string).

Record DeclaredRelease := MkDeclaredRelease {
  dr_system : option string;
  hashes : list string;
  artifacts : list string;
  dr_file : option DeclaredReleaseFile;
}.

(** [releases] is an [IndexMap]: the order of the declaration. *)
Record DeclaredGame := MkDeclaredGame {
  dg_provider : string;
  dg_key : string;
  dg_title : string;
  dg_releases : list (string * DeclaredRelease);
}.

Record AccountRoot := MkAccount { user : string; account_storage : string; account_root : string }.

Record Observation := MkObservation {
  target_provider : string;
  target_ref : string;
  obs_id : string;
  obs_title : string;
  obs_system : string;
}.

Record ProviderScan := MkProviderScan { scan_id : string; observations : list Observation }.

Record ScanReport := MkReport {
  provider_scans : list ProviderScan;
  report_created : gset string;
  declared_games : gmap string DeclaredGame;
  accounts : list AccountRoot;
  unpaired : list string;
  report_origins : gmap string (gset string);
  report_paths : gmap string PathRecord;
  scanned : list SourceScan;
  skipped : list string;
  declared_files : list DeclaredFile;
}.

(** ** Locations *)

Definition location_storage (l : Location) : option string :=
  match l with File s _ _ | FileSet s _ _ _ => Some s | _ => None end.

Definition location_paths (l : Location) : list string :=
  match l with
  | File _ path _ => [path]
  | FileSet _ _ files _ => part_path <$> files
  | _ => []
  end.

Definition discovery (l : Location) : option FileTargetDiscovery :=
  match l with File _ _ d | FileSet _ _ _ d => d | _ => None end.

(** A write through [discovery_mut]. *)
Definition with_missing (since : option string) (l : Location) : Location :=
  let set d := MkDiscovery (first_seen_at d) since in
  match l with
  | File s p d => File s p (set <$> d)
  | FileSet s r f d => FileSet s r f (set <$> d)
  | _ => l
  end.

Definition same_location (a b : Location) : bool :=
  bool_decide (location_storage a = location_storage b)
  && bool_decide (location_paths a = location_paths b).

Definition is_file (l : Location) : bool := match l with File _ _ _ => true | _ => false end.

Definition is_provider_ref (l : Location) : bool := match l with ProviderRef _ _ => true | _ => false end.

(** [to_ascii_lowercase]. *)
Definition ascii_lower (a : ascii) : ascii :=
  if between 65 (byte a) 90 then ascii_of_N (Z.to_N (byte a + 32)) else a.

Definition lowercase (s : string) : string := of_text (ascii_lower <$> to_text s).

Definition library_identity (i : ContentIdentity) : LibraryIdentity :=
  match i with
  | Hash sha256 _ => LHash sha256
  | Parts value parts => LParts value parts
  | Chd sha1 => LChd sha1
  end.

Definition identity_matches (i : ContentIdentity) (hash : string) : bool :=
  bool_decide (content_value i = hash)
  || match i with Hash _ sha1 => bool_decide (sha1 = hash) | _ => false end.

Definition location (u : FoundUnit) (now : string) : Location :=
  let meta := Some (MkDiscovery now None) in
  match unit_identity u with
  | Parts _ _ =>
      let cue := ends_with ".cue" (lowercase (unit_path u)) in
      let descriptor := (cue || ends_with ".m3u" (lowercase (unit_path u)))
                        && negb (bool_decide (unit_path u ∈ unit_parts u)) in
      let first := if descriptor then [MkPart "descriptor" (Some "descriptor") (unit_path u)] else [] in
      FileSet (storage_id u) None
        (first ++ imap (fun i path =>
                   MkPart (pretty (S i)) (Some (if bool_decide (path ∈ tracks u) then "track" else "disc")) path)
                 (unit_parts u)) meta
  | _ => File (storage_id u) (unit_path u) meta
  end.

(** ** Names *)

(** [title.chars().flat_map(char::to_lowercase)], as far as [slug] looks at it:
    [None] is a character that is not ASCII. Two of those have an ASCII letter in
    their lower case, the Kelvin sign (E2 84 AA) and the dotted capital I (C4 B0). *)
Fixpoint lowered (l : text) : list (option ascii) :=
  match l with
  | [] => []
  | a :: l' =>
      if byte a <? 128 then Some (ascii_lower a) :: lowered l'
      else if byte a <? 224 then
        match l' with
        | b :: l => (if is_byte 196 a && is_byte 176 b then [Some "i"%char; None] else [None]) ++ lowered l
        | [] => [None]
        end
      else if byte a <? 240 then
        match l' with
        | b :: c :: l =>
            (if is_byte 226 a && is_byte 132 b && is_byte 170 c then Some "k"%char else None) :: lowered l
        | _ => [None]
        end
      else match l' with _ :: _ :: _ :: l => None :: lowered l | _ => [None] end
  end.

Definition is_alphanumeric (a : ascii) : bool :=
  is_ascii_digit a || between 65 (byte a) 90 || between 97 (byte a) 122.

Definition DASH : ascii := "-"%char.

(** The text so far, its last byte first. *)
Definition push_slug (result : text) (c : option ascii) : text :=
  match c with
  | Some a =>
      if is_alphanumeric a then a :: result
      else match result with [] => [] | last :: _ => if bool_decide (last = DASH) then result else DASH :: result end
  | None =>
      match result with [] => [] | last :: _ => if bool_decide (last = DASH) then result else DASH :: result end
  end.

Definition slug (title : string) : string :=
  let result := foldl push_slug [] (lowered (to_text title)) in
  let result := reverse (drop_byte 45 result) in
  match result with [] => "game" | _ => of_text result end.

Definition suffixed (base : string) (n : nat) : string := base +:+ "-" +:+ pretty n.

(** The counter of the source is an [i32]; it would need that many taken ids to
    leave it. [None]: no id is free. *)
Fixpoint free_suffix (fuel n : nat) (base : string) (occupied : list string) : option string :=
  match fuel with
  | O => None
  | S fuel =>
      if bool_decide (suffixed base n ∈ occupied) then free_suffix fuel (S n) base occupied
      else Some (suffixed base n)
  end.

Definition unique_id (base : string) (occupied : list string) : option string :=
  if bool_decide (base ∈ occupied) then free_suffix (S (length occupied)) 2 base occupied
  else Some base.

(** ** The state of a pass *)

Record CatalogChange := MkChange {
  created_storages : gset string;
  added_releases : nat;
  missing_locations : nat;
  origins : gmap string (gset string);
  paths : gmap string PathRecord;
}.

Definition with_created (x : gset string) (c : CatalogChange) : CatalogChange :=
  MkChange x (added_releases c) (missing_locations c) (origins c) (paths c).
Definition with_origins (x : gmap string (gset string)) (c : CatalogChange) : CatalogChange :=
  MkChange (created_storages c) (added_releases c) (missing_locations c) x (paths c).
Definition with_paths (x : gmap string PathRecord) (c : CatalogChange) : CatalogChange :=
  MkChange (created_storages c) (added_releases c) (missing_locations c) (origins c) x.
Definition release_added (c : CatalogChange) : CatalogChange :=
  MkChange (created_storages c) (S (added_releases c)) (missing_locations c) (origins c) (paths c).
Definition count_missing (n : nat) (c : CatalogChange) : CatalogChange :=
  MkChange (created_storages c) (added_releases c) (missing_locations c + n) (origins c) (paths c).

Definition add_origin (key source : string) (c : CatalogChange) : CatalogChange :=
  with_origins (<[key := {[source]} ∪ default ∅ (origins c !! key)]> (origins c)) c.

Section reconcile.
Context `{Config}.

Definition with_storage x (n : ConfigSnapshot) : ConfigSnapshot :=
  MkSnapshot _ (host n) x (providers n) (systems n) (routines n) (library n) (sources n) (provider_links n) (locations n).
Definition with_library x (n : ConfigSnapshot) : ConfigSnapshot :=
  MkSnapshot _ (host n) (storage n) (providers n) (systems n) (routines n) x (sources n) (provider_links n) (locations n).
Definition with_sources x (n : ConfigSnapshot) : ConfigSnapshot :=
  MkSnapshot _ (host n) (storage n) (providers n) (systems n) (routines n) (library n) x (provider_links n) (locations n).
Definition with_links x (n : ConfigSnapshot) : ConfigSnapshot :=
  MkSnapshot _ (host n) (storage n) (providers n) (systems n) (routines n) (library n) (sources n) x (locations n).
Definition with_locations x (n : ConfigSnapshot) : ConfigSnapshot :=
  MkSnapshot _ (host n) (storage n) (providers n) (systems n) (routines n) (library n) (sources n) (provider_links n) x.

Definition with_releases (x : list LibraryRelease) (g : LibraryItem) : LibraryItem :=
  MkItem _ (item_place g) (item_profiles g) (item_profile g) (item_title g) (version_of g)
    (item_relation g) (item_contains g) (item_display g) (item_metadata g) x.

(** The payload of a game the pass creates. *)
Definition new_item (title : string) (l : list LibraryRelease) : LibraryItem :=
  MkItem _ place_default ∅ None (Some title) None None None None None l.

(** The mutable arguments of the helpers: [next], [change], [release_games]. *)
Record State := MkState { next : ConfigSnapshot; change : CatalogChange; release_games : gmap string string }.

Definition on_next (f : ConfigSnapshot -> ConfigSnapshot) (s : State) : State :=
  MkState (f (next s)) (change s) (release_games s).
Definition on_change (f : CatalogChange -> CatalogChange) (s : State) : State :=
  MkState (next s) (f (change s)) (release_games s).
Definition on_games (f : gmap string string -> gmap string string) (s : State) : State :=
  MkState (next s) (change s) (f (release_games s)).

Definition set_game (id : string) (g : LibraryItem) : State -> State :=
  on_next (fun n => with_library (<[id := g]> (library n)) n).
Definition set_link (id : string) (l : ProviderLink) : State -> State :=
  on_next (fun n => with_links (<[id := l]> (provider_links n)) n).

(** [for x in l { f(x) }] over a state, where [f] may panic. *)
Fixpoint each {A S} (f : A -> S -> option S) (l : list A) (s : S) : option S :=
  match l with
  | [] => Some s
  | x :: l => match f x s with Some s => each f l s | None => None end
  end.

Definition keys_of {V} (m : gmap string V) : list string := btree_keys m.

(** ** Seeding the record of ownership *)

(** Neither skipped, nor outside both the unpaired and the scanned sources. *)
Definition concerned (report : ScanReport) (source : string) : bool :=
  negb (bool_decide (source ∈ skipped report))
  && (bool_decide (source ∈ unpaired report) || bool_decide (source ∈ scan_source <$> scanned report)).

Definition primary_path (l : Location) : option string :=
  match l with
  | File _ path _ => Some path
  | FileSet _ _ files _ =>
      part_path <$> match find (fun p => bool_decide (part_role p = Some "descriptor")) files with
                    | Some p => Some p
                    | None => head files
                    end
  | _ => None
  end.

Definition path_key (source path : string) : string := source +:+ newline +:+ path.

(** The pairs of source and identity that the path index knows. *)
Definition Indexed : Type := gset (string * string).

Definition seed_path (key source : string) (l : Location) (c : CatalogChange) : CatalogChange :=
  match primary_path l with
  | Some path =>
      match paths c !! path_key source path with
      | Some _ => c
      | None => with_paths (<[path_key source path := MkPath key (location_paths l)]> (paths c)) c
      end
  | None => c
  end.

Definition seed_source (report : ScanReport) (key : string) (l : Location)
    (acc : CatalogChange * Indexed) (entry : string * SourcePayload) : CatalogChange * Indexed :=
  let '(c, indexed) := acc in
  let '(source, record) := entry in
  if negb (concerned report source) then acc
  else if bool_decide (location_storage l = Some (src_storage record)) then
    let c := add_origin key source c in
    if is_file l || negb (bool_decide ((source, key) ∈ indexed))
    then (seed_path key source l c, {[(source, key)]} ∪ indexed)
    else (c, indexed)
  else acc.

Definition seed (report : ScanReport) (current : ConfigSnapshot) (c : CatalogChange) : CatalogChange :=
  let indexed : Indexed := list_to_set (filter_map (fun '(path, record) =>
    (fun sp : string * string => (sp.1, path_identity record)) <$> split_once LF path) (btree_entries (paths c))) in
  (foldl (fun acc '(key, ls) =>
     foldl (fun acc l => foldl (seed_source report key l) acc (btree_entries (sources current)))
       acc (keep (fun l => is_some (discovery l)) ls))
   (c, indexed) (btree_entries (locations current))).1.

(** ** Unpaired sources *)

(** What discovery put in a storage goes; what a person wrote stays. *)
Definition drop_discovered (storage : string) : list Location -> list Location :=
  keep (fun l => negb (bool_decide (location_storage l = Some storage)) || is_none (discovery l)).

Definition unpair (acc : ConfigSnapshot * CatalogChange) (source : string) : ConfigSnapshot * CatalogChange :=
  let '(n, c) := acc in
  let '(n, c) :=
    match sources n !! source with
    | None => (n, c)
    | Some record =>
        let s := src_storage record in
        let n := with_sources (delete source (sources n)) n in
        let n := with_locations (drop_discovered s <$> locations n) n in
        if bool_decide (s ∈ created_storages c)
           && negb (map_any (fun x => bool_decide (src_storage x = s)) (sources n))
           && negb (map_any (existsb (fun l => bool_decide (location_storage l = Some s))) (locations n))
        then (with_storage (delete s (storage n)) n, with_created (created_storages c ∖ {[s]}) c)
        else (n, c)
    end in
  (n, with_paths (filter (fun kv => starts_with (source +:+ newline) kv.1 = false) (paths c)) c).

Definition non_empty {A} (l : list A) : bool := match l with [] => false | _ => true end.

Definition drop_empty_locations (n : ConfigSnapshot) : ConfigSnapshot :=
  with_locations (filter (fun kv => non_empty kv.2 = true) (locations n)) n.

(** The release goes when all it ever had were the unpaired sources. The record
    of the origins goes with the first release of that identity. *)
Definition unpaired_release (report : ScanReport) (n : ConfigSnapshot) (o : gmap string (gset string))
    (r : LibraryRelease) : option string :=
  match rel_identity r with
  | None => None
  | Some i =>
      let gone :=
        is_none (locations n !! identity_value i)
        && is_some_and (o !! identity_value i)
             (fun x => negb (bool_decide (x = ∅)) && bool_decide (x ⊆ list_to_set (unpaired report))) in
      if gone then Some (identity_value i) else None
  end.

Fixpoint retain_releases (report : ScanReport) (n : ConfigSnapshot) (l : list LibraryRelease)
    (o : gmap string (gset string)) : list LibraryRelease * gmap string (gset string) :=
  match l with
  | [] => ([], o)
  | r :: l =>
      match unpaired_release report n o r with
      | Some identity => retain_releases report n l (delete identity o)
      | None => let '(l, o) := retain_releases report n l o in (r :: l, o)
      end
  end.

Definition retain_game (report : ScanReport) (acc : ConfigSnapshot * CatalogChange) (id : string)
    : ConfigSnapshot * CatalogChange :=
  let '(n, c) := acc in
  match library n !! id with
  | Some g =>
      let '(l, o) := retain_releases report n (releases g) (origins c) in
      (with_library (<[id := with_releases l g]> (library n)) n, with_origins o c)
  | None => acc
  end.

Definition drop_empty_games (n : ConfigSnapshot) : ConfigSnapshot :=
  with_library (filter (fun kv => non_empty (releases kv.2) = true) (library n)) n.

Definition drop_dangling_links (n : ConfigSnapshot) : ConfigSnapshot :=
  with_links (filter (fun kv => is_Some (library n !! playable kv.2)) (provider_links n)) n.

Definition cleanup (report : ScanReport) (n : ConfigSnapshot) (c : CatalogChange)
    : ConfigSnapshot * CatalogChange :=
  let gone : gset string := list_to_set (unpaired report) in
  let '(n, c) := foldl unpair (n, c) (btree_elements gone) in
  let n := drop_empty_locations n in
  let '(n, c) := foldl (retain_game report) (n, c) (keys_of (library n)) in
  (drop_dangling_links (drop_empty_games n), c).

Definition index_release (id : string) (m : gmap string string) (r : LibraryRelease) : gmap string string :=
  match rel_identity r with Some i => <[identity_value i := id]> m | None => m end.

(** Which game holds an identity; of two, the last. *)
Definition game_index (lib : gmap string LibraryItem) : gmap string string :=
  foldl (fun m '(id, g) => foldl (index_release id) m (releases g)) ∅ (btree_entries lib).

(** ** Missing files *)

(** Set when the file is gone and the time is not known yet; how many were set. *)
Definition mark_absent (now : string) (l : Location) : Location * nat :=
  match discovery l with
  | Some (MkDiscovery _ None) => (with_missing (Some now) l, 1%nat)
  | _ => (l, 0%nat)
  end.

Definition mark_seen (s : string) (seen : list string) (now : string) (l : Location) : Location * nat :=
  if negb (bool_decide (location_storage l = Some s)) then (l, 0%nat)
  else if existsb (fun p => negb (bool_decide (p ∈ seen))) (location_paths l) then mark_absent now l
  else (with_missing None l, 0%nat).

(** [for location in next.locations.values_mut().flatten()]. *)
Definition mark_all (f : Location -> Location * nat) (s : State) : State :=
  let marked := (fun ls => map f ls) <$> locations (next s) in
  let counted := concat (map (map snd) (btree_values marked)) in
  on_change (count_missing (foldr Nat.add 0%nat counted))
    (on_next (with_locations (map fst <$> marked)) s).

Definition is_absent (report : ScanReport) (l : Location) : bool :=
  existsb (fun f => match df_status f with Absent => true | _ => false end
                    && bool_decide (location_storage l = Some (df_storage f))
                    && bool_decide (df_path f ∈ location_paths l))
    (declared_files report).

Definition mark_declared (report : ScanReport) (now : string) (l : Location) : Location * nat :=
  if is_absent report l then mark_absent now l else (l, 0%nat).

(** ** One unit *)

Definition declared_link (g : DeclaredGame) (id : string) : ProviderLink :=
  MkLink (dg_provider g) id None [MkRef ProviderItemId (dg_key g) None None].

(** The declared release the content is: the first game with one of its hashes. *)
Definition declares (i : ContentIdentity) (entry : string * DeclaredGame) : option (string * string) :=
  let '(id, g) := entry in
  (fun r : string * DeclaredRelease => (id, r.1))
    <$> find (fun r : string * DeclaredRelease => existsb (identity_matches i) (hashes r.2)) (dg_releases g).

Definition first_some {A B} (f : A -> option B) (l : list A) : option B := head (filter_map f l).

Definition release_ids (g : LibraryItem) : list string := rel_id <$> releases g.

(** A game of its own, under a free id. *)
Definition create_game (title : string) (l : list LibraryRelease) (s : State) : option (State * string) :=
  match unique_id (slug title) (keys_of (library (next s))) with
  | Some id => Some (set_game id (new_item title l) s, id)
  | None => None
  end.

(** One release of the other game moves over. *)
Definition move_release (game_id : string) (r : LibraryRelease) (s : State) : option State :=
  match library (next s) !! game_id with
  | None => None
  | Some g =>
      match unique_id (rel_id r) (release_ids g) with
      | None => None
      | Some id =>
          let s := match rel_identity r with
                   | Some i => on_games (<[identity_value i := game_id]>) s
                   | None => s
                   end in
          let r := MkRelease _ id (rel_system r) (rel_identity r) (rel_display r) (inheritable r) in
          Some (set_game game_id (with_releases (releases g ++ [r]) g) s)
      end
  end.

Definition relink (other game_id : string) (l : ProviderLink) : ProviderLink :=
  if bool_decide (playable l = other) then MkLink (link_provider l) game_id (link_release l) (refs l) else l.

(** A newly learned declared identity joins games that were separate. *)
Definition merge_game (game_id other : string) (s : State) : option State :=
  match library (next s) !! other with
  | None => Some s
  | Some old =>
      let s := on_next (fun n => with_library (delete other (library n)) n) s in
      match each (move_release game_id) (releases old) s with
      | None => None
      | Some s => Some (on_next (fun n => with_links (relink other game_id <$> provider_links n) n) s)
      end
  end.

Definition shown (u : FoundUnit) : gmap string Json :=
  list_to_map (filter_map (fun '(k, v) => (fun v => (k, json_string v)) <$> v)
                 [("version", unit_version u); ("region", region u)]).

(** The release of the unit, if no game holds the identity. *)
Definition ensure_release (u : FoundUnit) (declared : option (string * string)) (game_id : string) (s : State)
    : option State :=
  let key := content_value (unit_identity u) in
  match release_games s !! key with
  | Some _ => Some s
  | None =>
      match library (next s) !! game_id with
      | None => None
      | Some g =>
          let base := match declared with Some (_, release) => release | None => unit_system u end in
          match unique_id base (release_ids g) with
          | None => None
          | Some id =>
              let display := shown u in
              let r := MkRelease _ id
                         (if str_is_empty (unit_system u) then None else Some (unit_system u))
                         (Some (library_identity (unit_identity u)))
                         (if bool_decide (display = ∅) then None else Some display) place_default in
              Some (on_games (<[key := game_id]>)
                     (on_change release_added (set_game game_id (with_releases (releases g ++ [r]) g) s)))
          end
      end
  end.

(** What stays of the locations of the identity the path had before. *)
Definition superseded (u : FoundUnit) (previous : PathRecord) (l : Location) : bool :=
  bool_decide (location_storage l = Some (storage_id u)) && is_some (discovery l)
  && bool_decide (location_paths l = path_files previous).

Definition retire_previous (u : FoundUnit) (previous : option PathRecord) (s : State) : State :=
  match previous with
  | Some record =>
      let old := path_identity record in
      if bool_decide (old = content_value (unit_identity u)) then s
      else
        match locations (next s) !! old with
        | None => s
        | Some ls =>
            let ls := keep (fun l => negb (superseded u record l)) ls in
            on_next (fun n => with_locations
              (if non_empty ls then <[old := ls]> (locations n) else delete old (locations n)) n) s
        end
  | None => s
  end.

Fixpoint refresh (fresh : Location) (ls : list Location) : list Location :=
  match ls with
  | [] => [fresh]
  | l :: ls => if same_location l fresh then with_missing None l :: ls else l :: refresh fresh ls
  end.

Definition place_unit (u : FoundUnit) (now : string) (s : State) : State :=
  let key := content_value (unit_identity u) in
  let fresh := location u now in
  let s := on_next (fun n =>
             with_locations (<[key := refresh fresh (default [] (locations n !! key))]> (locations n)) n) s in
  on_change (fun c =>
    let c := add_origin key (source_id u) c in
    with_paths (<[path_key (source_id u) (unit_path u) := MkPath key (location_paths fresh)]> (paths c)) c) s.

(** The declared game and release of a unit: given, or by its hashes. *)
Definition declaration (report : ScanReport) (u : FoundUnit) (declared : option (string * string))
    : option (string * string) :=
  match declared with
  | Some d => Some d
  | None => first_some (declares (unit_identity u)) (btree_entries (declared_games report))
  end.

(** The game of the unit: linked to the declaration, holding the identity,
    holding what the path had before, or new. *)
Definition choose_game (report : ScanReport) (u : FoundUnit) (declared : option (string * string))
    (previous : option PathRecord) (s : State) : option (State * string) :=
  let linked := '(id, _) ← declared; playable <$> provider_links (next s) !! id in
  let holding := release_games s !! content_value (unit_identity u) in
  let before := record ← previous; release_games s !! path_identity record in
  match linked, holding, before with
  | Some id, _, _ | None, Some id, _ | None, None, Some id => Some (s, id)
  | None, None, None =>
      let title := default (unit_title u) ('(id, _) ← declared; dg_title <$> declared_games report !! id) in
      create_game title [] s
  end.

Definition link_declared (report : ScanReport) (declared : option (string * string)) (game_id : string)
    (s : State) : option State :=
  match declared with
  | None => Some s
  | Some (id, _) =>
      match declared_games report !! id with
      | Some g => Some (set_link id (declared_link g game_id) s)
      | None => None
      end
  end.

Definition add_unit (report : ScanReport) (u : FoundUnit) (declared : option (string * string)) (now : string)
    (s : State) : option State :=
  let key := content_value (unit_identity u) in
  let previous := paths (change s) !! path_key (source_id u) (unit_path u) in
  let declared := declaration report u declared in
  let holding := release_games s !! key in
  '(s, game_id) ← choose_game report u declared previous s;
  s ← match declared, holding with
      | Some _, Some other => if bool_decide (other = game_id) then Some s else merge_game game_id other s
      | _, _ => Some s
      end;
  s ← link_declared report declared game_id s;
  s ← ensure_release u declared game_id s;
  Some (place_unit u now (retire_previous u previous s)).

(** ** The passes *)

Definition seen_by (scan : SourceScan) : list string :=
  seen_paths scan ++ concat (map (fun u => unit_path u :: unit_parts u) (units scan)).

Definition keep_seen_paths (source : string) (seen : list string) (c : CatalogChange) : CatalogChange :=
  let kept key := match strip_prefix (source +:+ newline) key with
                  | Some path => bool_decide (path ∈ seen)
                  | None => true
                  end in
  with_paths (filter (fun kv => kept kv.1 = true) (paths c)) c.

Definition scan_source_files (report : ScanReport) (now : string) (scan : SourceScan) (s : State) : option State :=
  if bool_decide (scan_source scan ∈ skipped report) then Some s
  else
    match sources (next s) !! scan_source scan with
    | None => Some s
    | Some source =>
        let seen := seen_by scan in
        let s := mark_all (mark_seen (src_storage source) seen now) s in
        s ← each (fun u => add_unit report u None now) (units scan) s;
        Some (on_change (keep_seen_paths (scan_source scan) seen) s)
    end.

Fixpoint release_of (key : string) (l : list (string * DeclaredRelease)) : option DeclaredRelease :=
  match l with
  | [] => None
  | (k, r) :: l => if bool_decide (k = key) then Some r else release_of key l
  end.

(** A prepared file whose declared hash was checked. *)
Definition add_declared_file (report : ScanReport) (now : string) (f : DeclaredFile) (s : State) : option State :=
  match df_status f with
  | Found identity =>
      match (g ← declared_games report !! df_game f;
             r ← release_of (df_release f) (dg_releases g);
             a ← find (fun a => bool_decide (account_storage a = df_storage f)) (accounts report);
             Some (g, r, a)) with
      | None => Some s
      | Some (g, r, a) =>
          let s := on_next (fun n =>
                     with_storage (<[df_storage f := MkStorage (account_root a) None]> (storage n)) n) s in
          let u := MkUnit (df_storage f) (df_storage f) (df_path f) [df_path f] [] (default "" (dr_system r))
                     (dg_title g) None None identity DeclaredHash in
          add_unit report u (Some (df_game f, df_release f)) now s
      end
  | _ => Some s
  end.

(** *** Releases from artifacts or a package *)

Definition holds_hash (r : DeclaredRelease) (i : LibraryIdentity) : bool :=
  bool_decide (identity_value i ∈ hashes r).

(** Before the first release that the game declares later. *)
Definition declared_position (g : DeclaredGame) (index : nat) (l : list LibraryRelease) : nat :=
  let later existing :=
    is_some_and (rel_identity existing) (fun i =>
      is_some_and (position (fun other => holds_hash other i) (snd <$> dg_releases g)) (Nat.ltb index)) in
  default (length l) (position later l).

Definition insert_at {A} (i : nat) (x : A) (l : list A) : list A := take i l ++ x :: drop i l.

(** The game of the declaration's link, or a new one. *)
Definition declared_game_id (declared_id : string) (g : DeclaredGame) (s : State) : option (State * string) :=
  match (l ← provider_links (next s) !! declared_id;
         if is_some (library (next s) !! playable l) then Some (playable l) else None) with
  | Some id => Some (s, id)
  | None => create_game (dg_title g) [] s
  end.

Definition insert_declared (declared_id : string) (g : DeclaredGame) (index : nat) (release_key key : string)
    (r : DeclaredRelease) (s : State) : option State :=
  '(s, game_id) ← declared_game_id declared_id g s;
  item ← library (next s) !! game_id;
  id ← unique_id release_key (release_ids item);
  let release := MkRelease _ id (dr_system r) (Some (LHash key)) None place_default in
  let l := insert_at (declared_position g index (releases item)) release (releases item) in
  Some (set_link declared_id (declared_link g game_id)
         (on_games (<[key := game_id]>)
           (on_change release_added (set_game game_id (with_releases l item) s)))).

Definition declared_release (declared_id : string) (g : DeclaredGame)
    (entry : nat * (string * DeclaredRelease)) (s : State) : option State :=
  let '(index, (release_key, r)) := entry in
  match dr_file r with
  | Some (ArtifactFile _ _) | Some (PackageFile _ _) =>
      match head (hashes r) with
      | None => Some s
      | Some key =>
          match first_some (fun hash => release_games s !! hash) (hashes r) with
          | Some game_id =>
              Some (match provider_links (next s) !! declared_id with
                    | Some _ => s
                    | None => set_link declared_id (declared_link g game_id) s
                    end)
          | None => insert_declared declared_id g index release_key key r s
          end
      end
  | _ => Some s
  end.

Definition enumerate {A} (l : list A) : list (nat * A) := imap pair l.

Definition reconcile_artifact_and_package_releases (report : ScanReport) (s : State) : option State :=
  each (fun '(id, g) => each (declared_release id g) (enumerate (dg_releases g)))
    (btree_entries (declared_games report)) s.

(** *** Releases of providers *)

Definition observation_key (o : Observation) : string := target_provider o +:+ "/" +:+ target_ref o.

(** A provider's release that the scan did not see again: its location goes, and
    with it the claim of discovery. *)
Definition withdraw (scan : string) (seen : list string) (key : string) (s : State) : State :=
  match origins (change s) !! key with
  | None => s
  | Some owners =>
      if bool_decide (scan ∈ owners) && negb (bool_decide (key ∈ seen)) then
        let s := match locations (next s) !! key with
                 | None => s
                 | Some ls =>
                     let ls := keep (fun l => negb (is_provider_ref l)) ls in
                     on_next (fun n => with_locations
                       (if non_empty ls then <[key := ls]> (locations n) else delete key (locations n)) n) s
                 end in
        on_change (fun c => with_origins (<[key := owners ∖ {[scan]}]> (origins c)) c) s
      else s
  end.

Definition drop_empty_origins (c : CatalogChange) : CatalogChange :=
  with_origins (filter (fun kv => kv.2 <> ∅) (origins c)) c.

Definition observe (scan : string) (o : Observation) (s : State) : option State :=
  let key := observation_key o in
  s ← match release_games s !! key with
      | Some _ => Some s
      | None =>
          let r := MkRelease _ (obs_id o) (Some (obs_system o)) (Some (LProvider key)) None place_default in
          '(s, id) ← create_game (obs_title o) [r] s;
          Some (on_change release_added (on_games (<[key := id]>) s))
      end;
  match default [] (locations (next s) !! key) with
  | [] =>
      let l := ProviderRef (target_provider o) (target_ref o) in
      Some (on_change (add_origin key scan)
             (on_next (fun n => with_locations (<[key := [l]]> (locations n)) n) s))
  | _ => Some s
  end.

Definition reconcile_provider (scan : ProviderScan) (s : State) : option State :=
  let seen := observation_key <$> observations scan in
  let s := foldl (fun s key => withdraw (scan_id scan) seen key s) s (keys_of (origins (change s))) in
  each (observe (scan_id scan)) (observations scan) (on_change drop_empty_origins s).

Definition reconcile_providers (report : ScanReport) (s : State) : option State :=
  each reconcile_provider (provider_scans report) s.

(** *** The whole pass *)

Definition passes (report : ScanReport) (now : string) (s : State) : option State :=
  s ← each (scan_source_files report now) (scanned report) s;
  s ← each (add_declared_file report now) (declared_files report) s;
  s ← reconcile_artifact_and_package_releases report (mark_all (mark_declared report now) s);
  reconcile_providers report s.

Definition begin (report : ScanReport) (current : ConfigSnapshot) : State :=
  let c := MkChange (report_created report) 0 0 (report_origins report) (report_paths report) in
  let '(n, c) := cleanup report current (seed report current c) in
  MkState n c (game_index (library n)).

(** The documents, when they change, and the counts. *)
Record Reconciled := MkReconciled {
  outcome_next : ConfigSnapshot;
  outcome_change : CatalogChange;
  device_yaml : option string;
  library_yaml : option string;
  added_games : nat;
  removed_games : nat;
}.

(** YAML: values, mappings and their text ([serde_yaml]), and a parsed document. *)
Inductive Document (M : Type) : Type :=
| DocNull
| DocMapping (m : M)
| DocOther.

Class Yaml := {
  YValue : Type;
  Mapping : Type;
  value_eqb : option YValue -> option YValue -> bool;
  mapping_eqb : Mapping -> Mapping -> bool;
  mapping_empty : Mapping;
  mapping_get : string -> Mapping -> option YValue;
  mapping_insert : string -> YValue -> Mapping -> Mapping;
  mapping_remove : string -> Mapping -> Mapping;
  mapping_keys : Mapping -> list string;
  snapshot_mapping : ConfigSnapshot -> Mapping;
  library_value : gmap string LibraryItem -> result string YValue;
  mapping_string : Mapping -> result string string;
  library_string : gmap string LibraryItem -> result string string;
  parse_document : string -> result string (Document Mapping);
}.

(** What the source expects of the serializer. *)
Class YamlLaws (Y : Yaml) : Prop := {
  mapping_serializes m : is_ok (mapping_string m) = true;
  library_serializes l : is_ok (library_string l) = true;
}.

Definition device_value `{Yaml} (n : ConfigSnapshot) : Mapping :=
  let value := mapping_remove "library" (snapshot_mapping n) in
  match host n with None => mapping_remove "host" value | Some _ => value end.

#[export] Instance LibraryIdentity_eq_dec : EqDecision LibraryIdentity.
Proof. solve_decision. Defined.
#[export] Instance LibraryRelease_eq_dec : EqDecision LibraryRelease.
Proof. solve_decision. Defined.
#[export] Instance LibraryItem_eq_dec : EqDecision LibraryItem.
Proof. solve_decision. Defined.

Definition count_games_not_in (a b : gmap string LibraryItem) : nat :=
  length (keep (fun id => is_none (b !! id)) (keys_of a)).

(** [expect("serializable ...")]. *)
Definition expect_text (changed : bool) (text : result string string) : option (option string) :=
  if changed then match text with Ok s => Some (Some s) | Err _ => None end else Some None.

Definition reconcile `{Yaml} (report : ScanReport) (current : ConfigSnapshot) (now : string) : option Reconciled :=
  s ← passes report now (begin report current);
  let n := next s in
  library_yaml ← expect_text (negb (bool_decide (library n = library current))) (library_string (library n));
  device_yaml ← expect_text (negb (mapping_eqb (device_value n) (device_value current)))
                  (mapping_string (device_value n));
  Some (MkReconciled n (change s) device_yaml library_yaml
    (count_games_not_in (library n) (library current))
    (count_games_not_in (library current) (library n))).

End reconcile.

Arguments DocNull {M}.
Arguments DocMapping {M}.
Arguments DocOther {M}.

(** ** Names are free, and well formed *)

#[export] Instance suffixed_inj base : Inj (=) (=) (suffixed base).
Proof. intros n m Heq. unfold suffixed in Heq. do 2 apply string_app_inj in Heq. by apply (inj pretty). Qed.

Lemma free_suffix_spec fuel n base l id :
  free_suffix fuel n base l = Some id ->
  id ∉ l /\ exists m, (n <= m)%nat /\ id = suffixed base m /\ forall k, (n <= k < m)%nat -> suffixed base k ∈ l.
Proof.
  revert n. induction fuel as [|fuel IH]; intros n; simpl; [done|].
  destruct (bool_decide_reflect (suffixed base n ∈ l)) as [Hin|Hout].
  - intros (Hid & m & Hm & -> & Hall)%IH. split; [done|]. exists m. split; [lia|]. split; [done|].
    intros k Hk. destruct (decide (k = n)) as [->|]; [done|]. apply Hall. lia.
  - intros [= <-]. split; [done|]. exists n. split; [lia|]. split; [done|]. lia.
Qed.

Lemma free_suffix_None fuel n base l :
  free_suffix fuel n base l = None -> forall m, (n <= m < n + fuel)%nat -> suffixed base m ∈ l.
Proof.
  revert n. induction fuel as [|fuel IH]; intros n; simpl; [lia|].
  destruct (bool_decide_reflect (suffixed base n ∈ l)) as [Hin|Hout]; [|done].
  intros Hn m Hm. destruct (decide (m = n)) as [->|]; [done|]. apply (IH _ Hn). lia.
Qed.

Lemma free_suffix_total n base l : exists id, free_suffix (S (length l)) n base l = Some id.
Proof.
  destruct (free_suffix (S (length l)) n base l) as [id|] eqn:Hf; [by exists id|exfalso].
  pose proof (free_suffix_None _ _ _ _ Hf) as Hall.
  assert (Hsub : (suffixed base <$> seq n (S (length l))) ⊆+ l).
  { apply NoDup_submseteq.
    - apply (NoDup_fmap_2 (suffixed base)), NoDup_seq.
    - intros x. rewrite list_elem_of_fmap. intros (m & -> & Hm%elem_of_seq). by apply Hall. }
  apply submseteq_length in Hsub. rewrite length_fmap, length_seq in Hsub. lia.
Qed.

(** A free id is always found, after at most one more candidate than there are
    taken ids; it is the base, or the base with the least free number from 2 on. *)
Theorem unique_id_spec base l :
  exists id, unique_id base l = Some id /\ id ∉ l /\
    (id = base \/
     base ∈ l /\ exists n, (2 <= n)%nat /\ id = suffixed base n /\
       forall m, (2 <= m < n)%nat -> suffixed base m ∈ l).
Proof.
  unfold unique_id. destruct (bool_decide_reflect (base ∈ l)) as [Hin|Hout].
  - destruct (free_suffix_total 2 base l) as [id Hid]. exists id. split; [done|].
    apply free_suffix_spec in Hid as [Hout Hn]. eauto.
  - exists base. auto.
Qed.

Lemma unique_id_free base l : exists id, unique_id base l = Some id /\ id ∉ l.
Proof.
  unfold unique_id. destruct (bool_decide_reflect (base ∈ l)) as [Hin|Hout]; [|by exists base].
  destruct (free_suffix_total 2 base l) as [id Hid]. exists id. split; [done|].
  by apply free_suffix_spec in Hid as [? _].
Qed.

(** A lower case letter or a digit. *)
Definition slug_char (a : ascii) : bool := is_ascii_digit a || between 97 (byte a) 122.

Definition no_capital (c : option ascii) : bool :=
  match c with Some a => negb (between 65 (byte a) 90) | None => true end.

Lemma ascii_lower_no_capital a : byte a < 128 -> no_capital (Some (ascii_lower a)) = true.
Proof. intros Ha. destruct a as [[] [] [] [] [] [] [] []]; vm_compute; vm_compute in Ha; congruence. Qed.

Lemma lowered_no_capital l : forallb no_capital (lowered l) = true.
Proof.
  induction l as [l IH] using (induction_ltof1 _ length); unfold ltof in IH.
  destruct l as [|a l]; [done|]. simpl. destruct (Z.ltb_spec (byte a) 128) as [Ha|_].
  - cbn [forallb]. rewrite ascii_lower_no_capital by done. apply IH. simpl. lia.
  - destruct (byte a <? 224).
    + destruct l as [|b l]; [done|]. rewrite forallb_app. rewrite IH by (simpl; lia).
      by destruct (is_byte 196 a && is_byte 176 b).
    + destruct (byte a <? 240).
      * destruct l as [|b [|c l]]; [done..|]. cbn [forallb]. rewrite IH by (simpl; lia).
        by destruct (is_byte 226 a && is_byte 132 b && is_byte 170 c).
      * destruct l as [|b [|c [|d l]]]; [done..|]. cbn [forallb]. rewrite IH by (simpl; lia). done.
Qed.

(** The text under construction: letters and digits, single dashes between them,
    none at the start; the last byte first. *)
Inductive slug_text : text -> Prop :=
| slug_nil : slug_text []
| slug_letter a l : slug_char a = true -> slug_text l -> slug_text (a :: l)
| slug_dash a l : slug_char a = true -> slug_text (a :: l) -> slug_text (DASH :: a :: l).

Lemma dash_not_slug : slug_char DASH = false.
Proof. done. Qed.

Lemma push_slug_text l c : no_capital c = true -> slug_text l -> slug_text (push_slug l c).
Proof.
  intros Hc Hl. assert (Hsep : slug_text (match l with [] => [] | last :: _ =>
    if bool_decide (last = DASH) then l else DASH :: l end)).
  { destruct l as [|last l]; [constructor|]. case_bool_decide as Hd; [done|].
    inversion Hl; subst; [by constructor|done]. }
  destruct c as [a|]; [|exact Hsep]. unfold push_slug.
  destruct (is_alphanumeric a) eqn:Ha; [|exact Hsep]. constructor; [|done].
  unfold is_alphanumeric in Ha. unfold slug_char. simpl in Hc. apply negb_true_iff in Hc.
  rewrite Hc, orb_false_r in Ha. exact Ha.
Qed.

Lemma fold_slug_text cs l : forallb no_capital cs = true -> slug_text l -> slug_text (foldl push_slug l cs).
Proof.
  revert l. induction cs as [|c cs IH]; intros l Hcs Hl; [done|]. simpl in Hcs.
  apply andb_prop in Hcs as [Hc Hcs]. apply IH; [done|]. by apply push_slug_text.
Qed.

(** A readable id: groups of lower case letters and digits, separated by single dashes. *)
Definition slug_like (s : string) : Prop :=
  exists a l, reverse (to_text s) = a :: l /\ slug_char a = true /\ slug_text l.

Lemma slug_char_not_dash a : slug_char a = true -> is_byte 45 a = false.
Proof.
  intros Ha. destruct (is_byte 45 a) eqn:Hd; [|done]. unfold is_byte in Hd.
  unfold slug_char, is_ascii_digit, between in Ha. lia.
Qed.

Lemma drop_dash l : slug_text l ->
  drop_byte 45 l = [] \/ exists a l', drop_byte 45 l = a :: l' /\ slug_char a = true /\ slug_text l'.
Proof.
  intros Hl. destruct Hl as [|a l Ha Hl|a l Ha Hl]; [by left|right..]; simpl.
  - rewrite slug_char_not_dash by done. eauto.
  - rewrite slug_char_not_dash by done. exists a, l. split; [done|]. split; [done|].
    inversion Hl; subst; [done|]. by rewrite dash_not_slug in Ha.
Qed.

(** Whatever the title, the id made from it is readable: not empty, of lower
    case letters and digits, with single dashes only between them. *)
Theorem slug_readable title : slug_like (slug title).
Proof.
  unfold slug. pose proof (fold_slug_text (lowered (to_text title)) [] (lowered_no_capital _) slug_nil) as Ht.
  destruct (drop_dash _ Ht) as [->|(a & l & -> & Ha & Hl)].
  - exists "e"%char, (reverse (to_text "gam")). split; [done|]. split; [done|].
    repeat (apply slug_letter; [done|]). apply slug_nil.
  - unfold slug_like. destruct (reverse (a :: l)) as [|b t] eqn:Hr.
    { apply (f_equal length) in Hr. by rewrite length_reverse in Hr. }
    exists a, l. rewrite to_of_text, <- Hr, reverse_involutive. auto.
Qed.

(** ** What every pass keeps *)

Section invariant.
Context `{Config}.

Definition holds_value (g : LibraryItem) (i : string) : Prop :=
  exists r, r ∈ releases g /\ identity_value <$> rel_identity r = Some i.

(** The library holds a release of that content. *)
Definition held (n : ConfigSnapshot) (i : string) : Prop :=
  exists id g, library n !! id = Some g /\ holds_value g i.

Definition links_resolve (n : ConfigSnapshot) : Prop :=
  forall id l, provider_links n !! id = Some l -> is_Some (library n !! playable l).

Record sound (s : State) : Prop := {
  index_holds k id : release_games s !! k = Some id -> exists g, library (next s) !! id = Some g /\ holds_value g k;
  sound_links : links_resolve (next s);
}.

Definition at_key (n : ConfigSnapshot) (k : string) : list Location := default [] (locations n !! k).

(** [P] picks the locations that must stay. *)
Record keeps (P : Location -> Prop) (n n' : ConfigSnapshot) : Prop := {
  keeps_held i : held n i -> held n' i;
  keeps_locations k l : P l -> l ∈ at_key n k -> l ∈ at_key n' k;
  keeps_sources : sources n' = sources n;
}.

#[export] Instance keeps_refl P : Reflexive (keeps P).
Proof. intros n. split; eauto. Qed.

#[export] Instance keeps_trans P : Transitive (keeps P).
Proof.
  intros n1 n2 n3 [H1 L1 S1] [H2 L2 S2]. split; [by auto|by auto|congruence].
Qed.

(** A step of the pass: it does not panic, stays sound and keeps; in the end the
    library holds the [found] contents. *)
Definition progress (src : gmap string SourcePayload) (P : Location -> Prop) (found : string -> Prop)
    (f : State -> option State) : Prop :=
  forall s, sound s -> sources (next s) = src ->
  exists s', f s = Some s' /\ sound s' /\ keeps P (next s) (next s') /\ forall i, found i -> held (next s') i.

Definition nothing (i : string) : Prop := False.

Lemma each_progress {A} src P (found : A -> string -> Prop) (f : A -> State -> option State) l :
  (forall x, x ∈ l -> progress src P (found x) (f x)) ->
  progress src P (fun i => exists x, x ∈ l /\ found x i) (each f l).
Proof.
  induction l as [|x l IH]; intros Hf s Hs Hsrc.
  { exists s. split; [done|]. split; [done|]. split; [done|]. by intros i (x & Hx%elem_of_nil & _). }
  destruct (Hf x ltac:(left) s Hs Hsrc) as (s1 & H1 & Hs1 & Hk1 & Hd1). simpl. rewrite H1.
  destruct (IH ltac:(intros; apply Hf; by right) s1 Hs1 ltac:(rewrite (keeps_sources _ _ _ Hk1); exact Hsrc)) as (s2 & -> & Hs2 & Hk2 & Hd2).
  exists s2. split; [done|]. split; [done|]. split; [by etrans|].
  intros i (y & [->|Hy]%elem_of_cons & Hi); [|eauto]. by apply (keeps_held _ _ _ Hk2), Hd1.
Qed.

(** *** Writing a game *)

Definition value_of (r : LibraryRelease) : option string := identity_value <$> rel_identity r.

Lemma holds_value_app g g' l i :
  releases g' = releases g ++ l -> holds_value g i -> holds_value g' i.
Proof. intros Heq (r & Hr & Hi). exists r. rewrite Heq, elem_of_app. auto. Qed.

Lemma held_set_game n id g' :
  (forall g, library n !! id = Some g -> forall i, holds_value g i -> holds_value g' i) ->
  forall i, held n i -> held (with_library (<[id := g']> (library n)) n) i.
Proof.
  intros Hh i (id1 & g1 & H1 & Hi). destruct (decide (id1 = id)) as [->|Hne].
  - exists id, g'. simpl. rewrite lookup_insert_eq. split; [done|]. by apply (Hh g1).
  - exists id1, g1. simpl. by rewrite lookup_insert_ne by done.
Qed.

Lemma set_game_progress P id g' s :
  (forall g, library (next s) !! id = Some g -> forall i, holds_value g i -> holds_value g' i) ->
  sound s -> sound (set_game id g' s) /\ keeps P (next s) (next (set_game id g' s)).
Proof.
  intros Hh [Hi Hl]. split; split.
  - intros k id1 Hk. destruct (Hi k id1 Hk) as (g & Hg & Hv). simpl.
    destruct (decide (id1 = id)) as [->|Hne].
    + exists g'. rewrite lookup_insert_eq. split; [done|]. by apply (Hh g).
    + exists g. by rewrite lookup_insert_ne by done.
  - intros k l Hk. simpl in *. destruct (Hl k l Hk) as [g Hg].
    destruct (decide (playable l = id)) as [->|Hne]; [by rewrite lookup_insert_eq|].
    rewrite lookup_insert_ne by done. by exists g.
  - by apply held_set_game.
  - done.
  - done.
Qed.

Lemma sound_index s k id g :
  sound s -> library (next s) !! id = Some g -> holds_value g k -> sound (on_games (<[k := id]>) s).
Proof.
  intros [Hi Hl] Hg Hk. split; [|done]. intros k1 id1. simpl. destruct (decide (k1 = k)) as [->|Hne].
  - rewrite lookup_insert_eq. intros [= <-]. by exists g.
  - rewrite lookup_insert_ne by done. apply Hi.
Qed.

Lemma sound_on_change f s : sound s -> sound (on_change f s).
Proof. intros [Hi Hl]. by split. Qed.

Lemma set_link_progress P id l s :
  is_Some (library (next s) !! playable l) -> sound s ->
  sound (set_link id l s) /\ keeps P (next s) (next (set_link id l s)).
Proof.
  intros Hg [Hi Hl]. split; split; try done. intros id1 l1. simpl. destruct (decide (id1 = id)) as [->|Hne].
  - rewrite lookup_insert_eq. by intros [= <-].
  - rewrite lookup_insert_ne by done. apply Hl.
Qed.

Lemma locations_progress P m s :
  (forall k l, P l -> l ∈ at_key (next s) k -> l ∈ default [] (m !! k)) -> sound s ->
  sound (on_next (with_locations m) s) /\ keeps P (next s) (next (on_next (with_locations m) s)).
Proof. intros Hp [Hi Hl]. by split; split. Qed.

Lemma keys_of_lookup {V} (m : gmap string V) k : k ∉ keys_of m -> m !! k = None.
Proof. unfold keys_of. rewrite elem_of_btree_keys. apply eq_None_not_Some. Qed.

Lemma create_game_progress P title l s :
  sound s -> exists s' id, create_game title l s = Some (s', id) /\ sound s' /\ keeps P (next s) (next s') /\
    library (next s) !! id = None /\ library (next s') !! id = Some (new_item title l) /\
    release_games s' = release_games s /\ change s' = change s /\ provider_links (next s') = provider_links (next s).
Proof.
  intros Hs. unfold create_game.
  destruct (unique_id_free (slug title) (keys_of (library (next s)))) as (id & -> & Hfree%keys_of_lookup).
  exists (set_game id (new_item title l) s), id.
  destruct (set_game_progress P id (new_item title l) s) as [Hs' Hk]; [by rewrite Hfree|done|].
  split; [done|]. split; [done|]. split; [done|]. split; [done|]. simpl. by rewrite lookup_insert_eq.
Qed.
End invariant.

(** *** Joining two games *)

Section merge.
Context `{Config}.

(** Between the removal of the other game and the last of its releases. *)
Record moving (game_id other : string) (rest : list LibraryRelease) (s : State) : Prop := {
  moving_target : is_Some (library (next s) !! game_id);
  moving_gone : library (next s) !! other = None;
  moving_index k id : release_games s !! k = Some id ->
    (exists g, library (next s) !! id = Some g /\ holds_value g k) \/
    (id = other /\ exists r, r ∈ rest /\ value_of r = Some k);
  moving_links id l : provider_links (next s) !! id = Some l ->
    is_Some (library (next s) !! playable l) \/ playable l = other;
}.

Lemma move_release_moving game_id other r rest s :
  game_id <> other -> moving game_id other (r :: rest) s ->
  exists s', move_release game_id r s = Some s' /\ moving game_id other rest s' /\
    (forall i, held (next s) i \/ value_of r = Some i -> held (next s') i) /\
    next s' = with_library (library (next s')) (next s).
Proof.
  intros Hne [[g Hg] Hgone Hidx Hlinks]. unfold move_release. rewrite Hg.
  destruct (unique_id_free (rel_id r) (release_ids g)) as (id & -> & _).
  set (r' := MkRelease _ id _ _ _ _). set (g' := with_releases (releases g ++ [r']) g).
  assert (Hkeep : forall k, holds_value g k -> holds_value g' k) by (intros k; by apply (holds_value_app g g' [r'])).
  assert (Hr' : forall k, value_of r = Some k -> holds_value g' k).
  { intros k Hk. exists r'. split; [|done]. simpl. rewrite elem_of_app, list_elem_of_singleton. auto. }
  eexists. split; [done|]. split_and!.
  - destruct (rel_identity r) as [i|] eqn:Hi; split; simpl.
    all: try (rewrite lookup_insert_eq; by eexists).
    all: try (by rewrite lookup_insert_ne by done).
    2, 4: intros k l Hk; destruct (Hlinks k l Hk) as [[x Hx]|]; [left|by right];
      destruct (decide (playable l = game_id)) as [->|]; [rewrite lookup_insert_eq|rewrite lookup_insert_ne by done]; by eexists.
    + intros k id1. destruct (decide (k = identity_value i)) as [->|Hk].
      * rewrite lookup_insert_eq. intros [= <-]. left. exists g'. rewrite lookup_insert_eq. split; [done|].
        apply Hr'. unfold value_of. by rewrite Hi.
      * rewrite lookup_insert_ne by done. intros Hk1. apply Hidx in Hk1 as [(x & Hx & Hv)|(-> & x & Hx & Hv)].
        -- left. destruct (decide (id1 = game_id)) as [->|].
           ++ exists g'. rewrite lookup_insert_eq. split; [done|]. apply Hkeep. congruence.
           ++ exists x. by rewrite lookup_insert_ne by done.
        -- right. split; [done|]. exists x. split; [|done]. apply elem_of_cons in Hx as [->|]; [|done].
           unfold value_of in Hv. rewrite Hi in Hv. simpl in Hv. congruence.
    + intros k id1 Hk1. apply Hidx in Hk1 as [(x & Hx & Hv)|(-> & x & Hx & Hv)].
      * left. destruct (decide (id1 = game_id)) as [->|].
        -- exists g'. rewrite lookup_insert_eq. split; [done|]. apply Hkeep. congruence.
        -- exists x. by rewrite lookup_insert_ne by done.
      * right. split; [done|]. exists x. split; [|done]. apply elem_of_cons in Hx as [->|]; [|done].
        unfold value_of in Hv. by rewrite Hi in Hv.
  - intros i [Hh|Hv].
    + destruct (rel_identity r); simpl; apply held_set_game; try done; intros g1 Hg1; simpl in *; congruence || (intros; apply Hkeep; congruence).
    + exists game_id, g'. split; [|by apply Hr']. destruct (rel_identity r); simpl; by rewrite lookup_insert_eq.
  - by destruct (rel_identity r).
Qed.

Lemma each_move_moving game_id other l s :
  game_id <> other -> moving game_id other l s ->
  exists s', each (move_release game_id) l s = Some s' /\ moving game_id other [] s' /\
    (forall i, held (next s) i \/ (exists r, r ∈ l /\ value_of r = Some i) -> held (next s') i) /\
    next s' = with_library (library (next s')) (next s).
Proof.
  intros Hne. revert s. induction l as [|r l IH]; intros s Hm; simpl.
  - exists s. split; [done|]. split; [done|]. split; [|by destruct s as [[]]].
    intros i [|(r & Hr%elem_of_nil & _)]; done.
  - destruct (move_release_moving _ _ _ _ _ Hne Hm) as (s1 & -> & Hm1 & Hh1 & Hn1).
    destruct (IH s1 Hm1) as (s2 & -> & Hm2 & Hh2 & Hn2). exists s2. split; [done|]. split; [done|]. split.
    + intros i [Hi|(x & Hx & Hv)]; [by eauto|]. apply elem_of_cons in Hx as [->|Hx]; apply Hh2; eauto.
    + rewrite Hn2, Hn1. by destruct (next s).
Qed.

Lemma merge_game_progress P game_id other s :
  game_id <> other -> is_Some (library (next s) !! game_id) -> sound s ->
  exists s', merge_game game_id other s = Some s' /\ sound s' /\ keeps P (next s) (next s') /\
    is_Some (library (next s') !! game_id).
Proof.
  intros Hne Hg Hs. unfold merge_game. destruct (library (next s) !! other) as [old|] eqn:Hold; [|by exists s].
  set (s0 := on_next _ s).
  assert (Hm : moving game_id other (releases old) s0).
  { destruct Hs as [Hi Hl]. split; simpl.
    - by rewrite lookup_delete_ne.
    - by rewrite lookup_delete_eq.
    - intros k id Hk. destruct (Hi k id Hk) as (g & Hgk & Hv). destruct (decide (id = other)) as [->|].
      + right. split; [done|]. replace g with old in Hv by congruence. exact Hv.
      + left. exists g. by rewrite lookup_delete_ne.
    - intros k l Hk. destruct (decide (playable l = other)) as [|]; [by right|]. left.
      rewrite lookup_delete_ne by done. by apply (Hl k). }
  destruct (each_move_moving _ _ _ _ Hne Hm) as (s1 & -> & [Ht Hgone Hidx Hlinks] & Hh & Hn1).
  assert (Hhs : forall i, held (next s) i -> held (next s1) i).
  { intros i (id & g & Hgi & Hv). apply Hh. destruct (decide (id = other)) as [->|].
    - right. replace g with old in Hv by congruence. exact Hv.
    - left. exists id, g. simpl. by rewrite lookup_delete_ne. }
  eexists. split; [done|]. split_and!; [split|split|].
  - intros k id Hk. destruct (Hidx k id Hk) as [Hx|(_ & r & Hr%elem_of_nil & _)]; done.
  - intros k l. simpl. rewrite lookup_fmap, fmap_Some. intros (l0 & Hl0 & ->). unfold relink.
    case_bool_decide as Hp; simpl; [done|]. by destruct (Hlinks k l0 Hl0).
  - exact Hhs.
  - unfold at_key. simpl. by rewrite Hn1.
  - simpl. by rewrite Hn1.
  - exact Ht.
Qed.
End merge.

(** *** One unit *)

Section unit.
Context `{Config} (P : Location -> Prop).

(** Of this storage only what a person wrote must stay. *)
Definition outside (st : string) : Prop :=
  forall l, P l -> location_storage l = Some st -> discovery l = None.

Lemma choose_game_progress report u declared previous s :
  sound s -> exists s' id, choose_game report u declared previous s = Some (s', id) /\
    sound s' /\ keeps P (next s) (next s') /\ is_Some (library (next s') !! id).
Proof.
  intros Hs. unfold choose_game. pose proof Hs as [Hidx Hlinks].
  assert (Hin : forall k id, release_games s !! k = Some id -> is_Some (library (next s) !! id)).
  { intros k id Hk. destruct (Hidx k id Hk) as (g & Hg & _). by exists g. }
  destruct (_ ← declared; _) as [id|] eqn:Hlinked.
  - exists s, id. split; [done|]. split; [done|]. split; [done|].
    destruct declared as [[d r]|]; [|done]. simpl in Hlinked.
    apply fmap_Some in Hlinked as (l & Hl & ->). by apply (Hlinks d l).
  - destruct (release_games s !! content_value (unit_identity u)) as [id|] eqn:Hh.
    + exists s, id. split; [done|]. split; [done|]. split; [done|]. by eapply Hin.
    + destruct (record ← previous; _) as [id|] eqn:Hb.
      * exists s, id. split; [done|]. split; [done|]. split; [done|].
        destruct previous as [record|]; [|done]. by eapply Hin.
      * edestruct (create_game_progress P) as (s' & id & Hc & Hs' & Hk & _ & Hg & _); [exact Hs|].
        exists s', id. split; [exact Hc|]. rewrite Hg. by eauto.
Qed.

Lemma link_declared_progress report declared id s :
  (forall d r, declared = Some (d, r) -> is_Some (declared_games report !! d)) ->
  sound s -> is_Some (library (next s) !! id) ->
  exists s', link_declared report declared id s = Some s' /\ sound s' /\ keeps P (next s) (next s') /\
    is_Some (library (next s') !! id).
Proof.
  intros Hd Hs Hg. unfold link_declared. destruct declared as [[d r]|]; [|by exists s].
  destruct (Hd d r eq_refl) as [g ->].
  destruct (set_link_progress P d (declared_link g id) s Hg Hs) as [Hs' Hk]. eauto.
Qed.

Lemma ensure_release_progress u declared id s :
  sound s -> is_Some (library (next s) !! id) ->
  exists s', ensure_release u declared id s = Some s' /\ sound s' /\ keeps P (next s) (next s') /\
    held (next s') (content_value (unit_identity u)).
Proof.
  intros Hs [g Hg]. unfold ensure_release. set (key := content_value (unit_identity u)).
  destruct (release_games s !! key) as [id'|] eqn:Hk.
  { exists s. split; [done|]. split; [done|]. split; [done|].
    destruct (index_holds _ Hs _ _ Hk) as (g' & Hg' & Hv). by exists id', g'. }
  rewrite Hg. destruct (unique_id_free (match declared with Some (_, release) => release | None => unit_system u end)
    (release_ids g)) as (rid & -> & _).
  set (r := MkRelease _ rid _ _ _ _). set (g' := with_releases (releases g ++ [r]) g).
  assert (Hv : holds_value g' key).
  { exists r. simpl. rewrite elem_of_app, list_elem_of_singleton. split; [by right|]. unfold key.
    by destruct (unit_identity u). }
  destruct (set_game_progress P id g' s) as [Hs' Hkeep]; [|done|].
  { intros g1 Hg1 i. replace g1 with g by congruence. by apply (holds_value_app g g' [r]). }
  assert (Hl : library (next (set_game id g' s)) !! id = Some g') by (simpl; by rewrite lookup_insert_eq).
  eexists. split; [done|]. split; [|split; [exact Hkeep|by exists id, g']].
  apply (sound_index (on_change release_added (set_game id g' s)) key id g'); [|exact Hl|exact Hv].
  by apply sound_on_change.
Qed.

Lemma retire_previous_progress u previous s :
  outside (storage_id u) -> sound s ->
  sound (retire_previous u previous s) /\ keeps P (next s) (next (retire_previous u previous s)).
Proof.
  intros Ho Hs. unfold retire_previous. destruct previous as [record|]; [|done].
  case_bool_decide; [done|]. destruct (locations (next s) !! path_identity record) as [ls|] eqn:Hls; [|done].
  set (ls' := keep _ ls).
  assert (Hin : forall l, P l -> l ∈ ls -> l ∈ ls').
  { intros l Hl Hll. unfold ls'. rewrite elem_of_keep. split; [done|]. unfold superseded.
    case_bool_decide as Hst; [|done]. by rewrite (Ho l Hl Hst). }
  apply (locations_progress P); [|done]. intros k l Hl. unfold at_key.
  destruct (decide (k = path_identity record)) as [->|Hne].
  - rewrite Hls. simpl. intros Hll. apply Hin in Hll; [|done]. clearbody ls'.
    destruct ls' as [|x ls']; [by apply elem_of_nil in Hll|]. simpl. by rewrite lookup_insert_eq.
  - destruct (non_empty ls'); [by rewrite lookup_insert_ne|by rewrite lookup_delete_ne].
Qed.

Lemma with_missing_undiscovered since l : discovery l = None -> with_missing since l = l.
Proof. destruct l as [? ? []|? ? ? []| | |]; done. Qed.

Lemma refresh_keeps fresh ls l st :
  outside st -> location_storage fresh = Some st -> P l -> l ∈ ls -> l ∈ refresh fresh ls.
Proof.
  intros Ho Hst Hl. induction ls as [|x ls IH]; [by intros ?%elem_of_nil|]. simpl.
  destruct (same_location x fresh) eqn:Hsame.
  - rewrite !elem_of_cons. intros [->|]; [left|by right].
    unfold same_location in Hsame. apply andb_prop in Hsame as [Hs _]. apply bool_decide_eq_true in Hs.
    by rewrite with_missing_undiscovered by (apply Ho; congruence).
  - rewrite !elem_of_cons. intros [->|]; [by left|right; by apply IH].
Qed.

Lemma location_storage_fresh u now : location_storage (location u now) = Some (storage_id u).
Proof. unfold location. by destruct (unit_identity u). Qed.

Lemma place_unit_progress u now s :
  outside (storage_id u) -> sound s ->
  sound (place_unit u now s) /\ keeps P (next s) (next (place_unit u now s)).
Proof.
  intros Ho Hs. unfold place_unit. set (key := content_value (unit_identity u)).
  edestruct (locations_progress P) as [Hs' Hk]; [|exact Hs|split; [apply sound_on_change, Hs'|exact Hk]].
  intros k l Hl. unfold at_key. destruct (decide (k = key)) as [->|Hne].
  - rewrite lookup_insert_eq. apply (refresh_keeps _ _ _ (storage_id u)); [done|apply location_storage_fresh|done].
  - by rewrite lookup_insert_ne.
Qed.

Lemma declaration_declared report u declared d r :
  (forall d r, declared = Some (d, r) -> is_Some (declared_games report !! d)) ->
  declaration report u declared = Some (d, r) -> is_Some (declared_games report !! d).
Proof.
  intros Hd. unfold declaration. destruct declared as [dr|]; [intros [= ->]; by eapply Hd|].
  unfold first_some. intros Hh%head_Some_elem_of. apply elem_of_filter_map in Hh as ([id g] & Hin & Hdec).
  unfold declares in Hdec. apply fmap_Some in Hdec as (x & _ & [= -> ->]).
  apply elem_of_btree_entries in Hin. by exists g.
Qed.

Lemma add_unit_progress src report u declared now :
  (forall d r, declared = Some (d, r) -> is_Some (declared_games report !! d)) ->
  outside (storage_id u) ->
  progress src P (eq (content_value (unit_identity u))) (add_unit report u declared now).
Proof.
  intros Hd Ho s Hs _. unfold add_unit.
  pose proof (fun d r => declaration_declared report u declared d r Hd) as Hdec.
  set (dec := declaration report u declared) in *. clearbody dec.
  set (holding := release_games s !! _). clearbody holding.
  set (previous := paths _ !! _). clearbody previous.
  destruct (choose_game_progress report u dec previous s Hs) as (s1 & id & -> & Hs1 & Hk1 & Hg1). simpl.
  assert (exists s2, match dec, holding with
      | Some _, Some other => if bool_decide (other = id) then Some s1 else merge_game id other s1
      | _, _ => Some s1 end = Some s2 /\ sound s2 /\ keeps P (next s1) (next s2) /\ is_Some (library (next s2) !! id))
    as (s2 & -> & Hs2 & Hk2 & Hg2).
  { destruct dec as [dr|], holding as [other|]; try (by exists s1). case_bool_decide; [by exists s1|].
    by apply merge_game_progress. }
  simpl. destruct (link_declared_progress report dec id s2 Hdec Hs2 Hg2) as (s3 & -> & Hs3 & Hk3 & Hg3). simpl.
  destruct (ensure_release_progress u dec id s3 Hs3 Hg3) as (s4 & -> & Hs4 & Hk4 & Hh4). simpl.
  destruct (retire_previous_progress u previous s4 Ho Hs4) as [Hs5 Hk5].
  destruct (place_unit_progress u now _ Ho Hs5) as [Hs6 Hk6].
  eexists. split; [done|]. split; [done|]. split; [by repeat (etrans; [eassumption|])|].
  intros i <-. by apply (keeps_held _ _ _ Hk6), (keeps_held _ _ _ Hk5).
Qed.
End unit.

(** *** The passes *)

Section passes.
Context `{Config} (src : gmap string SourcePayload) (P : Location -> Prop).

Lemma mark_all_progress f s :
  (forall l, P l -> (f l).1 = l) -> sound s ->
  sound (mark_all f s) /\ keeps P (next s) (next (mark_all f s)).
Proof.
  intros Hf Hs. unfold mark_all.
  edestruct (locations_progress P) as [Hs' Hk]; [|exact Hs|split; [apply sound_on_change, Hs'|exact Hk]].
  intros k l Hl. unfold at_key. rewrite !lookup_fmap. destruct (locations (next s) !! k) as [ls|]; simpl; [|done].
  intros Hin. apply list_elem_of_fmap. exists (f l). split; [by rewrite Hf|]. by apply list_elem_of_fmap_2.
Qed.

Lemma mark_absent_undiscovered now l : discovery l = None -> (mark_absent now l).1 = l.
Proof. intros Hd. unfold mark_absent. by rewrite Hd. Qed.

Lemma mark_seen_keeps st seen now l : outside P st -> P l -> (mark_seen st seen now l).1 = l.
Proof.
  intros Ho Hl. unfold mark_seen. case_bool_decide as Hst; [|done]. simpl. specialize (Ho l Hl Hst).
  destruct (existsb _ _); [by apply mark_absent_undiscovered|]. by apply with_missing_undiscovered.
Qed.

Lemma mark_declared_keeps report now l :
  (forall f, f ∈ declared_files report -> outside P (df_storage f)) -> P l -> (mark_declared report now l).1 = l.
Proof.
  intros Ho Hl. unfold mark_declared, is_absent. destruct (existsb _ _) eqn:He; [|done].
  apply existsb_spec in He as (f & Hf & Hx). apply andb_prop in Hx as [Hx _]. apply andb_prop in Hx as [_ Hst].
  apply bool_decide_eq_true in Hst. by apply mark_absent_undiscovered, (Ho f Hf l Hl).
Qed.

(** What a scan finds: the content of its units, unless its source is skipped or unknown. *)
Definition scan_finds (report : ScanReport) (scan : SourceScan) (i : string) : Prop :=
  scan_source scan ∉ skipped report /\ is_Some (src !! scan_source scan) /\
  exists u, u ∈ units scan /\ content_value (unit_identity u) = i.

Lemma scan_source_files_progress report now scan :
  (forall source, src !! scan_source scan = Some source -> scan_source scan ∉ skipped report ->
     outside P (src_storage source) /\ forall u, u ∈ units scan -> outside P (storage_id u)) ->
  progress src P (scan_finds report scan) (scan_source_files report now scan).
Proof.
  intros Ho s Hs Hsrc. unfold scan_source_files.
  case_bool_decide as Hskip; [exists s; split; [done|]; split; [done|]; split; [done|]; by intros i (? & _)|].
  rewrite Hsrc. destruct (src !! scan_source scan) as [source|] eqn:Hsource.
  2: { exists s. split; [done|]. split; [done|]. split; [done|]. intros i (_ & [x Hx] & _). congruence. }
  destruct (Ho source eq_refl Hskip) as [Hst Hu].
  destruct (mark_all_progress (mark_seen (src_storage source) (seen_by scan) now) s) as [Hs1 Hk1];
    [intros l Hl; by apply mark_seen_keeps|done|].
  edestruct (each_progress src P (fun u => eq (content_value (unit_identity u)))
    (fun u => add_unit report u None now) (units scan)) as (s2 & H2 & Hs2 & Hk2 & Hd2);
    [|exact Hs1|by rewrite (keeps_sources _ _ _ Hk1)|].
  { intros u Hin. apply add_unit_progress; [done|by apply Hu]. }
  rewrite H2. simpl. eexists. split; [done|]. split; [by apply sound_on_change|].
  split; [by etrans|]. intros i (_ & _ & u & Hin & Hi). apply Hd2. eauto.
Qed.

Definition file_finds (report : ScanReport) (f : DeclaredFile) (i : string) : Prop :=
  exists identity g r a, df_status f = Found identity /\ content_value identity = i /\
    declared_games report !! df_game f = Some g /\ release_of (df_release f) (dg_releases g) = Some r /\
    a ∈ accounts report /\ account_storage a = df_storage f.

Lemma with_storage_progress x s :
  sound s -> sound (on_next (with_storage x) s) /\ keeps P (next s) (next (on_next (with_storage x) s)).
Proof. intros [Hi Hl]. by split; split. Qed.

Lemma add_declared_file_progress report now f :
  outside P (df_storage f) -> progress src P (file_finds report f) (add_declared_file report now f).
Proof.
  intros Ho s Hs Hsrc. unfold add_declared_file.
  destruct (df_status f) as [identity| | |] eqn:Hst.
  2-4: exists s; split; [done|]; split; [done|]; split; [done|]; by intros i (x & g & r & a & Hx & _); congruence.
  destruct (_ ← _; _) as [[[g r] a]|] eqn:Hfind.
  - apply bind_Some in Hfind as (g' & Hg & (r' & Hr & (a' & Ha & [= -> -> ->])%bind_Some)%bind_Some).
    destruct (with_storage_progress (<[df_storage f := MkStorage (account_root a) None]> (storage (next s))) s Hs) as [Hs1 Hk1].
    edestruct (add_unit_progress P src report) as (s2 & -> & Hs2 & Hk2 & Hd2);
      [|exact Ho|exact Hs1|exact Hsrc|].
    { intros d rel [= <- <-]. by exists g. }
    exists s2. split; [done|]. split; [done|]. split; [by etrans|]. intros i (id2 & _ & _ & _ & Hx & Hi & _).
    apply Hd2. rewrite <- Hi. simpl. congruence.
  - exists s. split; [done|]. split; [done|]. split; [done|].
    intros i (id2 & g & r & a & _ & _ & Hg & Hr & Hin & Ha). exfalso. rewrite Hg in Hfind. simpl in Hfind.
    rewrite Hr in Hfind. simpl in Hfind.
    destruct (find _ (accounts report)) eqn:Hf; [done|]. rewrite find_None in Hf. specialize (Hf a Hin).
    by rewrite bool_decide_eq_true_2 in Hf.
Qed.
End passes.

(** *** Declared releases and providers *)

Section declared.
Context `{Config} (src : gmap string SourcePayload) (P : Location -> Prop).

Lemma elem_of_insert_at {A} i (x y : A) l : y ∈ insert_at i x l <-> y = x \/ y ∈ l.
Proof. unfold insert_at. rewrite elem_of_app, elem_of_cons. rewrite <- (take_drop i l) at 3. rewrite elem_of_app. tauto. Qed.

Lemma declared_game_id_progress declared_id g s :
  sound s -> exists s' id, declared_game_id declared_id g s = Some (s', id) /\
    sound s' /\ keeps P (next s) (next s') /\ is_Some (library (next s') !! id).
Proof.
  intros Hs. unfold declared_game_id.
  destruct (l ← provider_links (next s) !! declared_id; _) as [id|] eqn:Hl.
  - exists s, id. split; [done|]. split; [done|]. split; [done|].
    apply bind_Some in Hl as (l & _ & Hif). unfold is_some in Hif.
    destruct (library (next s) !! playable l) eqn:Hp; [|done]. injection Hif as <-. by eauto.
  - edestruct (create_game_progress P) as (s' & id & Hc & Hs' & Hk & _ & Hg & _); [exact Hs|].
    exists s', id. split; [exact Hc|]. rewrite Hg. by eauto.
Qed.

Lemma insert_declared_progress declared_id g index release_key key r s :
  sound s -> exists s', insert_declared declared_id g index release_key key r s = Some s' /\
    sound s' /\ keeps P (next s) (next s') /\ held (next s') key.
Proof.
  intros Hs. unfold insert_declared.
  destruct (declared_game_id_progress declared_id g s Hs) as (s1 & id & -> & Hs1 & Hk1 & [item Hitem]).
  simpl. rewrite Hitem. simpl.
  destruct (unique_id_free release_key (release_ids item)) as (rid & -> & _). simpl.
  set (release := MkRelease _ rid _ _ _ _). set (l := insert_at _ _ _). set (item' := with_releases l item).
  assert (Hv : holds_value item' key).
  { exists release. simpl. unfold l. by rewrite elem_of_insert_at; auto. }
  destruct (set_game_progress P id item' s1) as [Hs2 Hk2]; [|done|].
  { intros g1 Hg1 i (x & Hx & Hi). exists x. simpl. unfold l. rewrite elem_of_insert_at.
    split; [right|done]. congruence. }
  set (s2 := set_game id item' s1) in *.
  assert (Hl : library (next s2) !! id = Some item') by (simpl; by rewrite lookup_insert_eq).
  set (s3 := on_games (<[key := id]>) (on_change release_added s2)).
  assert (Hs3 : sound s3) by (apply (sound_index _ key id item'); [by apply sound_on_change|exact Hl|exact Hv]).
  destruct (set_link_progress P declared_id (declared_link g id) s3) as [Hs4 Hk4]; [by exists item'|done|].
  eexists. split; [done|]. split; [exact Hs4|]. split; [etrans; [exact Hk1|etrans; [exact Hk2|exact Hk4]]|].
  by exists id, item'.
Qed.

Lemma first_some_Some {A B} (f : A -> option B) l y : first_some f l = Some y -> exists x, x ∈ l /\ f x = Some y.
Proof. unfold first_some. intros Hh%head_Some_elem_of. by apply elem_of_filter_map. Qed.

Lemma declared_release_progress declared_id g entry :
  progress src P nothing (declared_release declared_id g entry).
Proof.
  intros s Hs _. unfold declared_release. destruct entry as [index [release_key r]].
  assert (Hstay : exists s', Some s = Some s' /\ sound s' /\ keeps P (next s) (next s') /\
    forall i, nothing i -> held (next s') i) by (exists s; repeat (split; [done|]); done).
  destruct (dr_file r) as [[|artifact path|package path]|]; try exact Hstay.
  all: destruct (head (hashes r)) as [key|]; [|exact Hstay].
  all: destruct (first_some _ (hashes r)) as [id|] eqn:Hf.
  1, 3: destruct (provider_links (next s) !! declared_id) as [l|]; [exact Hstay|];
    apply first_some_Some in Hf as (hash & _ & Hid); destruct (index_holds _ Hs _ _ Hid) as (x & Hx & _);
    destruct (set_link_progress P declared_id (declared_link g id) s) as [Hs1 Hk1]; [by exists x|done|];
    eexists; split; [done|]; split; [exact Hs1|]; split; [exact Hk1|done].
  all: destruct (insert_declared_progress declared_id g index release_key key r s Hs) as (s' & -> & Hs' & Hk' & _);
    exists s'; split; [done|]; split; [done|]; split; [exact Hk'|done].
Qed.

Lemma progress_weaken (found found' : string -> Prop) f :
  (forall i, found' i -> found i) -> progress src P found f -> progress src P found' f.
Proof.
  intros Hi Hp s Hs Hsrc. destruct (Hp s Hs Hsrc) as (s' & Hf & Hs' & Hk & Hd). exists s'. auto 10.
Qed.

Lemma artifact_releases_progress report :
  progress src P nothing (reconcile_artifact_and_package_releases report).
Proof.
  unfold reconcile_artifact_and_package_releases.
  eapply progress_weaken; [|apply (each_progress src P (fun _ => nothing))]; [done|].
  intros [id g] _. eapply progress_weaken; [|apply (each_progress src P (fun _ => nothing))]; [done|].
  intros entry _. apply declared_release_progress.
Qed.

(** The provider's own locations are the only ones it may take away. *)
Lemma withdraw_progress scan seen key s :
  (forall l, P l -> is_provider_ref l = false) -> sound s ->
  sound (withdraw scan seen key s) /\ keeps P (next s) (next (withdraw scan seen key s)).
Proof.
  intros Hp Hs. unfold withdraw. destruct (origins (change s) !! key) as [owners|]; [|done].
  destruct (_ && _); [|done]. destruct (locations (next s) !! key) as [ls|] eqn:Hls; [|by split; [apply sound_on_change|]].
  set (ls' := keep _ ls).
  edestruct (locations_progress P) as [Hs' Hk]; [|exact Hs|split; [apply sound_on_change, Hs'|exact Hk]].
  intros k l Hl. unfold at_key. destruct (decide (k = key)) as [->|Hne].
  - rewrite Hls. simpl. intros Hin. assert (Hin' : l ∈ ls') by (unfold ls'; rewrite elem_of_keep, Hp by done; done).
    clearbody ls'. destruct ls' as [|x ls']; [by apply elem_of_nil in Hin'|]. simpl. by rewrite lookup_insert_eq.
  - destruct (non_empty ls'); [by rewrite lookup_insert_ne|by rewrite lookup_delete_ne].
Qed.

Lemma withdraw_all_progress scan seen l s :
  (forall l, P l -> is_provider_ref l = false) -> sound s ->
  sound (foldl (fun s key => withdraw scan seen key s) s l) /\
  keeps P (next s) (next (foldl (fun s key => withdraw scan seen key s) s l)).
Proof.
  intros Hp. revert s. induction l as [|key l IH]; intros s Hs; simpl; [done|].
  destruct (withdraw_progress scan seen key s Hp Hs) as [Hs1 Hk1]. destruct (IH _ Hs1) as [Hs2 Hk2].
  split; [done|]. by etrans.
Qed.

Lemma observe_progress scan o : progress src P (eq (observation_key o)) (observe scan o).
Proof.
  intros s Hs _. unfold observe. set (key := observation_key o).
  assert (exists s1, match release_games s !! key with
      | Some _ => Some s
      | None =>
          '(s, id) ← create_game (obs_title o) [MkRelease _ (obs_id o) (Some (obs_system o)) (Some (LProvider key)) None place_default] s;
          Some (on_change release_added (on_games (<[key := id]>) s))
      end = Some s1 /\ sound s1 /\ keeps P (next s) (next s1) /\ held (next s1) key) as (s1 & -> & Hs1 & Hk1 & Hh1).
  { destruct (release_games s !! key) as [id|] eqn:Hid.
    - exists s. split; [done|]. split; [done|]. split; [done|].
      destruct (index_holds _ Hs _ _ Hid) as (g & Hg & Hv). by exists id, g.
    - edestruct (create_game_progress P) as (s' & id & Hc & Hs' & Hk & _ & Hg & _); [exact Hs|].
      rewrite Hc. simpl. assert (Hv : holds_value (new_item (obs_title o)
        [MkRelease _ (obs_id o) (Some (obs_system o)) (Some (LProvider key)) None place_default]) key).
      { eexists. split; [by left|done]. }
      eexists. split; [done|]. split; [|split; [exact Hk|by eexists _, _]].
      apply sound_on_change. by eapply sound_index. }
  simpl. destruct (default [] (locations (next s1) !! key)) as [|x ls] eqn:Hls.
  - edestruct (locations_progress P (<[key := [ProviderRef (target_provider o) (target_ref o)]]> (locations (next s1))) s1)
      as [Hs2 Hk2]; [|done|eexists; split; [done|]; split; [apply sound_on_change, Hs2|]; split; [by etrans|]].
    + intros k l _. unfold at_key. destruct (decide (k = key)) as [->|Hne].
      * rewrite Hls. by intros ?%elem_of_nil.
      * by rewrite lookup_insert_ne.
    + intros i <-. by apply (keeps_held _ _ _ Hk2).
  - exists s1. split; [done|]. split; [done|]. split; [done|]. by intros i <-.
Qed.

Definition provider_finds (scan : ProviderScan) (i : string) : Prop :=
  exists o, o ∈ observations scan /\ observation_key o = i.

Lemma reconcile_provider_progress scan :
  (forall l, P l -> is_provider_ref l = false) -> progress src P (provider_finds scan) (reconcile_provider scan).
Proof.
  intros Hp s Hs Hsrc. unfold reconcile_provider.
  edestruct (withdraw_all_progress (scan_id scan) (observation_key <$> observations scan) (keys_of (origins (change s))))
    as [Hs1 Hk1]; [done|exact Hs|].
  edestruct (each_progress src P (fun o => eq (observation_key o)) (observe (scan_id scan)) (observations scan))
    as (s2 & -> & Hs2 & Hk2 & Hd2); [intros; apply observe_progress|apply sound_on_change, Hs1| |].
  { simpl. rewrite (keeps_sources _ _ _ Hk1). exact Hsrc. }
  exists s2. split; [done|]. split; [done|]. split; [by etrans|].
  intros i (o & Ho & <-). apply Hd2. eauto.
Qed.
End declared.

(** *** Where a pass begins *)

Section begin.
Context `{Config}.

Lemma index_releases_spec id l m k i :
  foldl (index_release id) m l !! k = Some i ->
  (i = id /\ exists r, r ∈ l /\ value_of r = Some k) \/ m !! k = Some i.
Proof.
  revert m. induction l as [|r l IH]; intros m; simpl; [by right|].
  intros [(-> & x & Hx & Hv)|Hm]%IH; [left; split; [done|]; exists x; split; [by right|done]|].
  unfold index_release in Hm. destruct (rel_identity r) as [x|] eqn:Hr; [|by right].
  destruct (decide (k = identity_value x)) as [->|Hne].
  - rewrite lookup_insert_eq in Hm. injection Hm as <-. left. split; [done|]. exists r. split; [by left|].
    unfold value_of. by rewrite Hr.
  - rewrite lookup_insert_ne in Hm by done. by right.
Qed.

Lemma game_index_spec (lib : gmap string LibraryItem) k id :
  game_index lib !! k = Some id -> exists g, lib !! id = Some g /\ holds_value g k.
Proof.
  unfold game_index. assert (Hin : forall e, e ∈ btree_entries lib -> lib !! e.1 = Some e.2).
  { intros [i g] ?. by apply elem_of_btree_entries. }
  revert Hin. generalize (btree_entries lib). intros es Hin.
  enough (Hgen : forall m, foldl (fun m '(id, g) => foldl (index_release id) m (releases g)) m es !! k = Some id ->
      (exists g, lib !! id = Some g /\ holds_value g k) \/ m !! k = Some id).
  { intros Hk. destruct (Hgen ∅ Hk) as [|Hn]; [done|]. by rewrite lookup_empty in Hn. }
  induction es as [|[i g] es IH]; intros m; simpl; [by right|].
  intros [|Hm]%IH; [by left| |intros; apply Hin; by right].
  apply index_releases_spec in Hm as [(-> & r & Hr & Hv)|]; [left|by right].
  exists g. split; [apply (Hin (i, g)); by left|by exists r].
Qed.

(** *** Unpairing *)

Lemma elem_of_drop_discovered st l ls :
  l ∈ drop_discovered st ls <-> l ∈ ls /\ (location_storage l = Some st -> discovery l = None).
Proof.
  unfold drop_discovered. rewrite elem_of_keep. apply and_iff_compat_l.
  case_bool_decide as Hst; simpl; [|tauto]. unfold is_none, is_some.
  destruct (discovery l); simpl; split; intros Hx; try done; by specialize (Hx Hst).
Qed.

(** What one unpaired source takes with it. *)
Definition unpaired_from (n : ConfigSnapshot) (source : string) (n' : ConfigSnapshot) : Prop :=
  library n' = library n /\ provider_links n' = provider_links n /\ sources n' = delete source (sources n) /\
  forall k l, l ∈ at_key n' k <->
    l ∈ at_key n k /\ forall record, sources n !! source = Some record ->
      location_storage l = Some (src_storage record) -> discovery l = None.

Lemma unpair_spec n c source :
  unpaired_from n source (unpair (n, c) source).1 /\ origins (unpair (n, c) source).2 = origins c.
Proof.
  unfold unpair, unpaired_from. destruct (sources n !! source) as [record|] eqn:Hs.
  - set (n1 := with_sources _ n). set (n2 := with_locations _ n1).
    assert (Hn2 : library n2 = library n /\ provider_links n2 = provider_links n /\ sources n2 = delete source (sources n) /\
      forall k l, l ∈ at_key n2 k <->
        l ∈ at_key n k /\ forall record', Some record = Some record' ->
          location_storage l = Some (src_storage record') -> discovery l = None).
    { split; [done|]. split; [done|]. split; [done|]. intros k l. unfold at_key. simpl. rewrite lookup_fmap.
      destruct (locations n !! k) as [ls|]; simpl.
      - rewrite elem_of_drop_discovered. apply and_iff_compat_l. split; [by intros Hx ? [= <-]|intros Hx; exact (Hx record eq_refl)].
      - split; [by intros ?%elem_of_nil|by intros [?%elem_of_nil _]]. }
    destruct (_ && _); simpl; by rewrite ?Hs.
  - simpl. split; [|done]. split; [done|]. split; [done|]. split; [symmetry; by apply delete_id|].
    intros k l. split; [|tauto]. intros Hl. split; [done|]. done.
Qed.

Lemma unpair_all_spec l n c :
  NoDup l ->
  let '(n', c') := foldl unpair (n, c) l in
  library n' = library n /\ provider_links n' = provider_links n /\ origins c' = origins c /\
  (forall id, sources n' !! id = if bool_decide (id ∈ l) then None else sources n !! id) /\
  forall k x, x ∈ at_key n' k <->
    x ∈ at_key n k /\ forall source record, source ∈ l -> sources n !! source = Some record ->
      location_storage x = Some (src_storage record) -> discovery x = None.
Proof.
  revert n c. induction l as [|source l IH]; intros n c Hnd.
  { simpl. split; [done|]. split; [done|]. split; [done|]. split; [by intros id|]. intros k x. split; [|tauto].
    intros Hx. split; [done|]. by intros ? ? ?%elem_of_nil. }
  apply NoDup_cons in Hnd as [Hout Hnd].
  destruct (unpair_spec n c source) as [(H1 & H2 & H3 & H4) H5].
  change (foldl unpair (n, c) (source :: l)) with (foldl unpair (unpair (n, c) source) l).
  destruct (unpair (n, c) source) as [n1 c1]. simpl in H1, H2, H3, H4, H5. specialize (IH n1 c1 Hnd).
  destruct (foldl unpair (n1, c1) l) as [n2 c2]. destruct IH as (I1 & I2 & I3 & I4 & I5).
  split; [congruence|]. split; [congruence|]. split; [congruence|]. split.
  - intros id. rewrite I4, H3. destruct (decide (id = source)) as [->|Hne].
    + rewrite lookup_delete_eq. rewrite (bool_decide_eq_true_2 (source ∈ source :: l)) by by left.
      by case_bool_decide.
    + rewrite lookup_delete_ne by done. case_bool_decide as Hin; case_bool_decide as Hin2; try done.
      * destruct Hin2. by right.
      * by apply elem_of_cons in Hin2 as [|].
  - intros k x. rewrite I5, H4. split.
    + intros [[Hx Ha] Hb]. split; [done|]. intros s r [->|Hs]%elem_of_cons Hr; [by apply Ha|].
      apply (Hb s r Hs). rewrite H3, lookup_delete_ne by (by intros ->). exact Hr.
    + intros [Hx Ha]. split; [split; [done|]|].
      * intros r Hr. apply (Ha source r); [by left|done].
      * intros s r Hs. rewrite H3. intros [_ Hr]%lookup_delete_Some. apply (Ha s r); [by right|done].
Qed.
End begin.

(** *** Releases that go with their sources *)

Section cleanup.
Context `{Config}.

(** Nothing is left of the content, and only unpaired sources ever had it. *)
Definition unpaired_content (report : ScanReport) (n : ConfigSnapshot) (o : gmap string (gset string)) (i : string)
    : Prop :=
  locations n !! i = None /\
  exists x, o !! i = Some x /\ x <> ∅ /\ forall source, source ∈ x -> source ∈ unpaired report.

Lemma unpaired_content_mono report n o o' i : o ⊆ o' -> unpaired_content report n o i -> unpaired_content report n o' i.
Proof. intros Hsub [Hn (x & Hx & Hx')]. split; [done|]. exists x. split; [by eapply lookup_weaken|done]. Qed.

Lemma unpaired_release_Some report n o r i :
  unpaired_release report n o r = Some i -> value_of r = Some i /\ unpaired_content report n o i.
Proof.
  unfold unpaired_release, value_of. destruct (rel_identity r) as [x|]; [|done]. simpl.
  destruct (_ && _) eqn:Hc; [|done]. intros [= <-]. split; [done|].
  apply andb_prop in Hc as [Hn Ho]. split.
  - unfold is_none, is_some in Hn. by destruct (locations n !! _).
  - unfold is_some_and in Ho. destruct (o !! _) as [y|]; [|done]. exists y. split; [done|].
    apply andb_prop in Ho as [Hne Hsub]. apply negb_true_iff, bool_decide_eq_false in Hne.
    apply bool_decide_eq_true in Hsub. split; [done|]. intros s Hs. by apply Hsub, elem_of_list_to_set in Hs.
Qed.

Lemma retain_releases_spec report n l o :
  let '(l', o') := retain_releases report n l o in
  o' ⊆ o /\ (forall r, r ∈ l' -> r ∈ l) /\
  forall r i, r ∈ l -> value_of r = Some i -> r ∈ l' \/ unpaired_content report n o i.
Proof.
  revert o. induction l as [|r l IH]; intros o; simpl.
  { split; [done|]. split; [done|]. by intros r i ?%elem_of_nil. }
  destruct (unpaired_release report n o r) as [i|] eqn:Hr.
  - apply unpaired_release_Some in Hr as [Hv Hu]. specialize (IH (delete i o)).
    destruct (retain_releases report n l (delete i o)) as [l' o']. destruct IH as (Ho & Hin & Hkeep).
    assert (Hsub : delete i o ⊆ o) by apply delete_subseteq. split; [by etrans|].
    split; [by right; apply Hin|]. intros x j [->|Hx]%elem_of_cons Hj.
    + right. by replace j with i by congruence.
    + destruct (Hkeep x j Hx Hj) as [|Hu']; [by left|right]. by eapply unpaired_content_mono.
  - specialize (IH o). destruct (retain_releases report n l o) as [l' o']. destruct IH as (Ho & Hin & Hkeep).
    split; [done|]. split.
    + intros x [->|Hx]%elem_of_cons; [by left|right; by apply Hin].
    + intros x j [->|Hx]%elem_of_cons Hj; [left; by left|].
      destruct (Hkeep x j Hx Hj); [left; by right|by right].
Qed.

(** Between two games of the pass over the library. *)
Record retaining (report : ScanReport) (n : ConfigSnapshot) (o : gmap string (gset string))
    (n' : ConfigSnapshot) (o' : gmap string (gset string)) : Prop := {
  retaining_locations : locations n' = locations n;
  retaining_sources : sources n' = sources n;
  retaining_origins : o' ⊆ o;
  retaining_games id g r i : library n !! id = Some g -> r ∈ releases g -> value_of r = Some i ->
    (exists g', library n' !! id = Some g' /\ r ∈ releases g') \/ unpaired_content report n o i;
}.

Lemma retain_game_retaining report n o n' c id :
  retaining report n o n' (origins c) ->
  retaining report n o (retain_game report (n', c) id).1 (origins (retain_game report (n', c) id).2).
Proof.
  intros [Hl Hs Ho Hg]. unfold retain_game. destruct (library n' !! id) as [g|] eqn:Hid; [|by split].
  pose proof (retain_releases_spec report n' (releases g) (origins c)) as Hspec.
  destruct (retain_releases report n' (releases g) (origins c)) as [l o']. destruct Hspec as (Ho' & _ & Hkeep).
  split; simpl; [done|done|by etrans|]. intros id1 g1 r i Hg1 Hr Hi.
  destruct (Hg id1 g1 r i Hg1 Hr Hi) as [(g' & Hg' & Hr')|]; [|by right].
  destruct (decide (id1 = id)) as [->|Hne].
  - rewrite lookup_insert_eq. replace g' with g in Hr' by congruence.
    destruct (Hkeep r i Hr' Hi) as [|[Hn Hu]]; [left; by eexists|right].
    apply (unpaired_content_mono _ _ (origins c)); [done|]. split; [by rewrite <- Hl|done].
  - left. exists g'. by rewrite lookup_insert_ne by done.
Qed.

Lemma retain_games_retaining report n o n' c ids :
  retaining report n o n' (origins c) ->
  retaining report n o (foldl (retain_game report) (n', c) ids).1 (origins (foldl (retain_game report) (n', c) ids).2).
Proof.
  revert n' c. induction ids as [|id ids IH]; intros n' c Hr; [done|].
  change (foldl (retain_game report) (n', c) (id :: ids)) with (foldl (retain_game report) (retain_game report (n', c) id) ids).
  apply (retain_game_retaining report n o n' c id) in Hr.
  destruct (retain_game report (n', c) id) as [n2 c2]. by apply IH.
Qed.

(** What the clean-up leaves. *)
Lemma cleanup_spec report n c :
  let n' := (cleanup report n c).1 in
  links_resolve n' /\
  (forall id, sources n' !! id = if bool_decide (id ∈ unpaired report) then None else sources n !! id) /\
  (forall k l, l ∈ at_key n' k <->
    l ∈ at_key n k /\ forall source record, source ∈ unpaired report -> sources n !! source = Some record ->
      location_storage l = Some (src_storage record) -> discovery l = None) /\
  forall i, held n i -> held n' i \/ unpaired_content report n' (origins c) i.
Proof.
  unfold cleanup. set (gone := btree_elements _).
  assert (Hgone : forall id, id ∈ gone <-> id ∈ unpaired report).
  { intros id. unfold gone. by rewrite elem_of_btree_elements, elem_of_list_to_set. }
  pose proof (unpair_all_spec gone n c (btree_elements_NoDup _)) as Hu. clearbody gone.
  destruct (foldl unpair (n, c) gone) as [n1 c1]. destruct Hu as (Hlib & _ & Ho & Hsrc & Hat).
  assert (Hat2 : forall k, at_key (drop_empty_locations n1) k = at_key n1 k).
  { intros k. unfold at_key. simpl. rewrite map_lookup_filter. by destruct (locations n1 !! k) as [[]|]. }
  assert (Hlib2 : library (drop_empty_locations n1) = library n) by exact Hlib.
  assert (Hsrc2 : sources (drop_empty_locations n1) = sources n1) by done.
  set (n2 := drop_empty_locations n1) in *. clearbody n2.
  assert (Hr : retaining report n2 (origins c) n2 (origins c1)).
  { rewrite Ho. split; [done|done|done|]. intros id g r i Hg Hr _. left. by exists g. }
  apply (retain_games_retaining _ _ _ _ _ (keys_of (library n2))) in Hr.
  destruct (foldl (retain_game report) (n2, c1) (keys_of (library n2))) as [n3 c3].
  destruct Hr as [R1 R2 _ R4]. simpl in R1, R2, R4. cbn zeta. simpl. split_and!.
  - intros id l. simpl. rewrite map_lookup_filter_Some. by intros [_ Hp].
  - intros id. simpl. rewrite R2, Hsrc2, Hsrc. case_bool_decide as H1; case_bool_decide as H2; try done.
    + destruct H2. by apply Hgone.
    + destruct H1. by apply Hgone.
  - intros k l. unfold at_key at 1. simpl. rewrite R1. fold (at_key n2 k). rewrite Hat2, Hat.
    apply and_iff_compat_l. split; intros Hx s r Hs; apply Hx; by apply Hgone.
  - intros i (id & g & Hg & r & Hr & Hi). simpl. unfold unpaired_content in *. simpl. rewrite R1.
    destruct (R4 id g r i) as [(g' & Hg' & Hr')|]; [by rewrite Hlib2|done|done| |by right].
    left. exists id, g'. split; [|by exists r]. simpl. apply map_lookup_filter_Some. split; [done|]. simpl.
    destruct (releases g'); [by apply elem_of_nil in Hr'|done].
Qed.
End cleanup.

(** ** What a pass does *)

Section result.
Context `{Config} `{Y : !Yaml}.

(** The storages of the unpaired sources, of the completed scans, and of the
    declared files that were checked. *)
Definition touched (report : ScanReport) (current : ConfigSnapshot) (st : string) : Prop :=
  (exists source record, source ∈ unpaired report /\ sources current !! source = Some record /\
     src_storage record = st) \/
  (exists scan record, scan ∈ scanned report /\ scan_source scan ∉ skipped report /\
     sources current !! scan_source scan = Some record /\
     (src_storage record = st \/ exists u, u ∈ units scan /\ storage_id u = st)) \/
  (exists f, f ∈ declared_files report /\ df_storage f = st).

(** A file or a directory, not what a provider names, that a person wrote, or that lies
    outside every touched storage. *)
Definition protected (report : ScanReport) (current : ConfigSnapshot) (l : Location) : Prop :=
  is_provider_ref l = false /\
  forall st, location_storage l = Some st -> touched report current st -> discovery l = None.

Lemma protected_outside report current st : touched report current st -> outside (protected report current) st.
Proof. intros Ht l [_ Hl] Hst. by apply (Hl st). Qed.

(** The source stays paired, was scanned completely, and the scan found the content;
    or a declared file has it; or a provider offers it. *)
Definition found_content (report : ScanReport) (current : ConfigSnapshot) (i : string) : Prop :=
  (exists scan, scan ∈ scanned report /\ scan_source scan ∉ unpaired report /\
     scan_finds (sources current) report scan i) \/
  (exists f, f ∈ declared_files report /\ file_finds report f i) \/
  (exists scan, scan ∈ provider_scans report /\ provider_finds scan i).

Lemma begin_spec report current :
  let s := begin report current in
  sound s /\
  (forall id, sources (next s) !! id = if bool_decide (id ∈ unpaired report) then None else sources current !! id) /\
  (forall k l, protected report current l -> l ∈ at_key current k -> l ∈ at_key (next s) k) /\
  forall i, held current i -> held (next s) i \/
    unpaired_content report (next s)
      (origins (seed report current (MkChange (report_created report) 0 0 (report_origins report) (report_paths report)))) i.
Proof.
  unfold begin. set (c := seed report current _).
  pose proof (cleanup_spec report current c) as (Hlinks & Hsrc & Hat & Hheld).
  destruct (cleanup report current c) as [n' c']. simpl in *. split; [|split; [done|split; [|done]]].
  - split; simpl; [|done]. intros k id Hk. by apply game_index_spec.
  - intros k l Hp Hl. apply Hat. split; [done|]. intros source record Hs Hr Hst.
    apply (protected_outside report current (src_storage record)); [|done|done]. left. by exists source, record.
Qed.

Lemma passes_spec report current now :
  exists s, passes report now (begin report current) = Some s /\ sound s /\
    keeps (protected report current) (next (begin report current)) (next s) /\
    forall i, found_content report current i -> held (next s) i.
Proof.
  destruct (begin_spec report current) as (Hs0 & Hsrc & _ & _). set (s0 := begin report current) in *. clearbody s0.
  set (src := sources (next s0)) in *. set (P := protected report current).
  assert (Hcur : forall id source, src !! id = Some source -> sources current !! id = Some source /\ id ∉ unpaired report).
  { intros id source. rewrite Hsrc. by case_bool_decide. }
  unfold passes.
  edestruct (each_progress src P (scan_finds src report) (scan_source_files report now) (scanned report))
    as (s1 & -> & Hs1 & Hk1 & Hd1); [|exact Hs0|done|].
  { intros scan Hscan. apply scan_source_files_progress. intros source [Hsource _]%Hcur Hskip. split.
    - apply protected_outside. right. left. exists scan, source. auto.
    - intros u Hu. apply protected_outside. right. left. exists scan, source. eauto 10. }
  simpl. assert (Hout : forall f, f ∈ declared_files report -> outside P (df_storage f)).
  { intros f Hf. apply protected_outside. right. right. by exists f. }
  edestruct (each_progress src P (file_finds report) (add_declared_file report now) (declared_files report))
    as (s2 & -> & Hs2 & Hk2 & Hd2); [|exact Hs1|by rewrite (keeps_sources _ _ _ Hk1)|].
  { intros f Hf. apply add_declared_file_progress. by apply Hout. }
  simpl. destruct (mark_all_progress P (mark_declared report now) s2) as [Hs3 Hk3];
    [intros l Hl; by apply (mark_declared_keeps P)|done|].
  edestruct (artifact_releases_progress src P report) as (s4 & -> & Hs4 & Hk4 & _); [exact Hs3| |].
  { by rewrite (keeps_sources _ _ _ Hk3), (keeps_sources _ _ _ Hk2), (keeps_sources _ _ _ Hk1). }
  simpl. edestruct (each_progress src P provider_finds reconcile_provider (provider_scans report))
    as (s5 & H5 & Hs5 & Hk5 & Hd5); [|exact Hs4| |].
  { intros scan _. apply reconcile_provider_progress. by intros l [? _]. }
  { by rewrite (keeps_sources _ _ _ Hk4), (keeps_sources _ _ _ Hk3), (keeps_sources _ _ _ Hk2), (keeps_sources _ _ _ Hk1). }
  exists s5. split; [exact H5|]. split; [done|]. split; [by repeat (etrans; [eassumption|])|].
  intros i [(scan & Hscan & Hun & Hskip & [x Hx] & u & Hu)|[Hf|Hp]].
  - apply (keeps_held _ _ _ Hk5), (keeps_held _ _ _ Hk4), (keeps_held _ _ _ Hk3), (keeps_held _ _ _ Hk2), Hd1.
    exists scan. split; [done|]. split; [done|]. split; [|eauto]. exists x. by rewrite Hsrc, bool_decide_eq_false_2.
  - by apply (keeps_held _ _ _ Hk5), (keeps_held _ _ _ Hk4), (keeps_held _ _ _ Hk3), Hd2.
  - by apply Hd5.
Qed.

Lemma expect_text_ok changed t : is_ok t = true -> exists s, expect_text changed t = Some s.
Proof. unfold expect_text. destruct changed, t; simpl; eauto; done. Qed.

Lemma reconcile_Some report current now r :
  reconcile report current now = Some r ->
  exists s, passes report now (begin report current) = Some s /\ outcome_next r = next s /\ outcome_change r = change s.
Proof.
  unfold reconcile. intros (s & Hs & (l & _ & (d & _ & [= <-])%bind_Some)%bind_Some)%bind_Some. by exists s.
Qed.

(** C31: Reconciliation never panics, whatever was scanned and configured: every game
    it means to write is there and every id it looks for is free. In its result
    every provider link names a game of the library. *)
Theorem reconcile_total report current now :
  YamlLaws Y -> exists r, reconcile report current now = Some r /\ links_resolve (outcome_next r).
Proof.
  intros Hy. unfold reconcile. destruct (passes_spec report current now) as (s & -> & Hs & _). simpl.
  destruct (expect_text_ok (negb (bool_decide (library (next s) = library current))) _
    (library_serializes (library (next s)))) as [l ->]. simpl.
  destruct (expect_text_ok (negb (mapping_eqb (device_value (next s)) (device_value current))) _
    (mapping_serializes (device_value (next s)))) as [d ->]. simpl.
  eexists. split; [done|]. apply Hs.
Qed.

(** C30: A reconciliation touches on disk only what it has evidence for. A location that is
    not the reference of a provider is still there, as it was, when a person wrote it,
    whatever its storage; and also when discovery wrote it, unless its storage is one of
    an unpaired source, one of a source whose scan was completed or of a unit this scan
    found, or one of a declared file. *)
Theorem protected_locations_stay report current now r k l :
  reconcile report current now = Some r -> protected report current l ->
  l ∈ at_key current k -> l ∈ at_key (outcome_next r) k.
Proof.
  intros (s & Hr & -> & _)%reconcile_Some Hp Hl.
  destruct (passes_spec report current now) as (s' & Hr' & _ & Hk & _). simplify_eq. apply (keeps_locations _ _ _ Hk); [done|].
  by apply (begin_spec report current).
Qed.

(** C32: The library keeps its history: a content it held is still held, under some
    game, unless every source that ever had it was unpaired in this pass and
    nothing of it was left. *)
Theorem history_kept report current now r i :
  reconcile report current now = Some r -> held current i ->
  held (outcome_next r) i \/
  exists owners,
    origins (seed report current (MkChange (report_created report) 0 0 (report_origins report) (report_paths report)))
      !! i = Some owners /\
    owners <> ∅ /\ forall source, source ∈ owners -> source ∈ unpaired report.
Proof.
  intros (s & Hr & -> & _)%reconcile_Some Hh.
  destruct (passes_spec report current now) as (s' & Hr' & _ & Hk & _). simplify_eq. destruct (begin_spec report current) as (_ & _ & _ & Hb).
  destruct (Hb i Hh) as [Hi|[_ Hu]]; [left|by right]. by apply (keeps_held _ _ _ Hk).
Qed.

(** C33: Whatever the pass found is in the library in the end: every unit of a
    completed scan of a paired source, every declared file whose hash was
    checked, every release a provider offers. *)
Theorem found_is_held report current now r i :
  reconcile report current now = Some r -> found_content report current i -> held (outcome_next r) i.
Proof.
  intros (s & Hr & -> & _)%reconcile_Some.
  destruct (passes_spec report current now) as (s' & Hr' & _ & _ & Hf). simplify_eq. apply Hf.
Qed.
End result.

(** ** On a small library *)

Definition demo_config : Config := {|
  PlaceBody := unit; Profile := unit; Json := string; HostPayload := unit; ProviderPayload := unit;
  SystemPayload := unit; HookProfilePayload := unit; place_default := tt; json_string := fun s => s |}.
#[local] Existing Instance demo_config.

Definition demo_item (title hash : string) : LibraryItem :=
  new_item title [MkRelease _ "nes" (Some "nes") (Some (LHash hash)) None tt].

Definition demo_written : Location := File "nes" "kept.nes" None.
Definition demo_elsewhere : Location := File "usb" "far.nes" (Some (MkDiscovery "2020" None)).

Definition demo_current : ConfigSnapshot :=
  MkSnapshot _ None ∅ ∅ ∅ ∅ {["old-game" := demo_item "Old Game" "sha256:aa"]}
    {["nes" := MkSource None ["files"] "nes" "nes"]} ∅
    {["sha256:aa" := [File "nes" "gone.nes" (Some (MkDiscovery "2020" None)); demo_written; demo_elsewhere]]}.

Definition demo_unit : FoundUnit :=
  MkUnit "nes" "nes" "new.nes" ["new.nes"] [] "nes" "New Game!" (Some "1.1") None (Hash "sha256:bb" "sha1:cc") Bytes.

Definition demo_report : ScanReport :=
  MkReport [] ∅ ∅ [] [] ∅ ∅ [MkScan "nes" [demo_unit] []] [] [].

(** Mappings as maps of opaque values; enough to run the pass. *)
Definition demo_yaml : Yaml := {|
  YValue := unit; Mapping := gmap string unit;
  value_eqb := fun a b => bool_decide (a = b); mapping_eqb := fun a b => bool_decide (a = b);
  mapping_empty := ∅; mapping_get := fun k m => m !! k; mapping_insert := fun k v m => <[k := v]> m;
  mapping_remove := fun k m => delete k m; mapping_keys := keys_of;
  snapshot_mapping := fun n => {["library" := tt; "locations" := tt]};
  library_value := fun _ => Ok tt; mapping_string := fun _ => Ok "device"; library_string := fun _ => Ok "library";
  parse_document := fun _ => Ok DocNull |}.
#[local] Existing Instance demo_yaml.

Lemma demo_yaml_laws : YamlLaws demo_yaml.
Proof. by split. Qed.

Definition demo_reconcile (report : ScanReport) : option Reconciled := reconcile report demo_current "2026".

Lemma reconcile_total_witness :
  exists r, demo_reconcile demo_report = Some r /\ links_resolve (outcome_next r).
Proof. exact (reconcile_total demo_report demo_current "2026" demo_yaml_laws). Defined.

Example demo_adds_a_game :
  (fun r => (keys_of (library (outcome_next r)), added_games r, missing_locations (outcome_change r)))
    <$> demo_reconcile demo_report = Some (["new-game"; "old-game"], 1%nat, 1%nat).
Proof. vm_compute. reflexivity. Qed.

Lemma demo_locations :
  at_key demo_current "sha256:aa" =
  [File "nes" "gone.nes" (Some (MkDiscovery "2020" None)); demo_written; demo_elsewhere].
Proof. reflexivity. Qed.

Lemma protected_locations_stay_witness :
  exists r, demo_reconcile demo_report = Some r /\
    demo_written ∈ at_key (outcome_next r) "sha256:aa" /\ demo_elsewhere ∈ at_key (outcome_next r) "sha256:aa".
Proof.
  destruct (demo_reconcile demo_report) as [r|] eqn:Hr.
  - exists r. split; [reflexivity|]. split.
    + apply (protected_locations_stay demo_report demo_current
        "2026" r "sha256:aa" demo_written Hr); [|rewrite demo_locations; right; left].
      split; [reflexivity|]. intros st _ _. reflexivity.
    + apply (protected_locations_stay demo_report demo_current
        "2026" r "sha256:aa" demo_elsewhere Hr); [|rewrite demo_locations; right; right; left].
      split; [reflexivity|]. intros st [= <-] [(s & x & Hs & _)|[(scan & x & Hscan & _ & Hx & Hst)|(f & Hf & _)]].
      * change (s ∈ []) in Hs. destruct (proj1 (elem_of_nil s) Hs).
      * change (scan ∈ [MkScan "nes" [demo_unit] []]) in Hscan. apply list_elem_of_singleton in Hscan. subst scan.
        change (Some (MkSource None ["files"] "nes" "nes") = Some x) in Hx. injection Hx as <-.
        destruct Hst as [Hst|(u & Hu & Hst)]; [discriminate Hst|].
        change (u ∈ [demo_unit]) in Hu. apply list_elem_of_singleton in Hu. subst u. discriminate Hst.
      * change (f ∈ []) in Hf. destruct (proj1 (elem_of_nil f) Hf).
  - exfalso. assert (Hok : is_some (demo_reconcile demo_report) = true) by (vm_compute; reflexivity).
    rewrite Hr in Hok. discriminate Hok.
Defined.

Lemma history_kept_witness :
  exists r, demo_reconcile demo_report = Some r /\ held (outcome_next r) "sha256:aa".
Proof.
  destruct (demo_reconcile demo_report) as [r|] eqn:Hr.
  - exists r. split; [reflexivity|].
    destruct (history_kept demo_report demo_current "2026" r "sha256:aa" Hr) as [Hi|(owners & _ & Hne & Hall)].
    + exists "old-game", (demo_item "Old Game" "sha256:aa"). split; [reflexivity|].
      eexists. split; [by left|reflexivity].
    + exact Hi.
    + exfalso. apply set_choose_L in Hne as [x Hx]. apply Hall in Hx. change (x ∈ []) in Hx. destruct (proj1 (elem_of_nil x) Hx).
  - exfalso. assert (Hok : is_some (demo_reconcile demo_report) = true) by (vm_compute; reflexivity).
    rewrite Hr in Hok. discriminate Hok.
Defined.

Lemma found_is_held_witness :
  exists r, demo_reconcile demo_report = Some r /\ held (outcome_next r) "sha256:bb".
Proof.
  destruct (demo_reconcile demo_report) as [r|] eqn:Hr.
  - exists r. split; [reflexivity|].
    apply (found_is_held demo_report demo_current "2026" r "sha256:bb" Hr).
    left. exists (MkScan "nes" [demo_unit] []). split; [change (MkScan "nes" [demo_unit] [] ∈ [MkScan "nes" [demo_unit] []]); left|].
    split; [change ("nes" ∉ []); apply not_elem_of_nil|]. split; [change ("nes" ∉ []); apply not_elem_of_nil|].
    split; [exists (MkSource None ["files"] "nes" "nes"); reflexivity|].
    exists demo_unit. split; [change (demo_unit ∈ [demo_unit]); left|reflexivity].
  - exfalso. assert (Hok : is_some (demo_reconcile demo_report) = true) by (vm_compute; reflexivity).
    rewrite Hr in Hok. discriminate Hok.
Defined.
