(* ===== verification/Programs.v ===== *)
(** * Programs with faults and crashes

    A program is a tree of the operations it asks for, with what it does with
    each reply. How an operation goes is a choice of the outside: done, failed,
    answered so or so; the machine may stop before any operation. What holds at
    every stop, and what holds at the end, is [wp]. The operations, the choices,
    the replies and the effect on the disk are parameters: [Documents] and
    [Files] each have their own. *)

From S2P Require Import Prelude Text Decimal.

Section programs.
Context {Op : Type} {Reply Choice : Op -> Type} {Disk : Type}.

Inductive prog (A : Type) : Type :=
| Ret (a : A)
| Do (op : Op) (k : Reply op -> prog A).
Arguments Ret {A}.
Arguments Do {A}.

Fixpoint bind {A B} (p : prog A) (f : A -> prog B) : prog B :=
  match p with
  | Ret a => f a
  | Do op k => Do op (fun r => bind (k r) f)
  end.

(** The [?] of the source: an error ends the program. *)
Definition attempt {E A B} (p : prog (result E A)) (f : A -> prog (result E B)) : prog (result E B) :=
  bind p (fun r => match r with Ok a => f a | Err e => Ret (Err e) end).

(** One operation on a disk, and the way an operation goes when all is well. *)
Context {effect : forall op, Choice op -> Disk -> Disk * Reply op} {usual : forall op, Choice op}.

(** A run in which nothing fails. *)
Fixpoint run {A} (p : prog A) (d : Disk) : Disk * A :=
  match p with
  | Ret a => (d, a)
  | Do op k => let '(d, r) := effect op (usual op) d in run (k r) d
  end.

(** The states a run can be stopped in. *)
Fixpoint stops {A} (p : prog A) (d d' : Disk) : Prop :=
  d' = d \/
  match p with
  | Ret _ => False
  | Do op k => exists c, stops (k (effect op c d).2) (effect op c d).1 d'
  end.

(** The states a run can end in, and its result. *)
Fixpoint ends {A} (p : prog A) (d d' : Disk) (a : A) : Prop :=
  match p with
  | Ret b => d' = d /\ a = b
  | Do op k => exists c, ends (k (effect op c d).2) (effect op c d).1 d' a
  end.

Lemma stops_here {A} (p : prog A) d : stops p d d.
Proof. destruct p; by left. Qed.

Lemma stops_later {A} op (k : Reply op -> prog A) d c d' :
  stops (k (effect op c d).2) (effect op c d).1 d' -> stops (Do op k) d d'.
Proof. intros Hs. right. by exists c. Qed.

Lemma ends_stops {A} (p : prog A) d d' a : ends p d d' a -> stops p d d'.
Proof.
  revert d. induction p as [b|op k IH]; intros d; simpl; [intros [-> _]; by left|].
  intros (c & He). right. exists c. by apply IH.
Qed.

Lemma ends_bind {A B} (p : prog A) (f : A -> prog B) d d' b :
  ends (bind p f) d d' b <-> exists d1 a, ends p d d1 a /\ ends (f a) d1 d' b.
Proof.
  revert d. induction p as [a|op k IH]; intros d; simpl.
  - split; [intros He; by exists d, a|]. by intros (d1 & x & [-> ->] & He).
  - split.
    + intros (c & (d1 & a & Hk & Hf)%IH). exists d1, a. split; [by exists c|done].
    + intros (d1 & a & (c & Hk) & Hf). exists c. apply IH. by exists d1, a.
Qed.

(** A program that ends well got there well. *)
Lemma ends_attempt {E A B} (p : prog (result E A)) (f : A -> prog (result E B)) d d' b :
  ends (attempt p f) d d' (Ok b) -> exists d1 a, ends p d d1 (Ok a) /\ ends (f a) d1 d' (Ok b).
Proof.
  intros (d1 & [a|e] & Hp & Hf)%ends_bind; [by exists d1, a|]. by destruct Hf.
Qed.

(** Only operations of a kind are asked for. *)
Fixpoint asks {A} (P : Op -> Prop) (p : prog A) : Prop :=
  match p with
  | Ret _ => True
  | Do op k => P op /\ forall r, asks P (k r)
  end.

Lemma asks_bind {A B} P (p : prog A) (f : A -> prog B) : asks P p -> (forall a, asks P (f a)) -> asks P (bind p f).
Proof. intros Hp Hf. induction p as [a|op k IH]; simpl in *; [apply Hf|]. destruct Hp as [Ho Hk]. split; [done|]. intros r. by apply IH. Qed.

Lemma asks_attempt {E A B} P (p : prog (result E A)) (f : A -> prog (result E B)) :
  asks P p -> (forall a, asks P (f a)) -> asks P (attempt p f).
Proof. intros Hp Hf. apply asks_bind; [done|]. intros [a|e]; [apply Hf|done]. Qed.

Lemma asks_all {A} (p : prog A) : asks (fun _ => True) p.
Proof. induction p as [a|op k IH]; simpl; [done|]. split; [done|]. apply IH. Qed.

Lemma asks_mono {A} (P Q : Op -> Prop) (p : prog A) : (forall op, P op -> Q op) -> asks P p -> asks Q p.
Proof. intros HPQ Hp. induction p as [a|op k IH]; simpl in *; [done|]. destruct Hp as [Ho Hk]. split; [by apply HPQ|]. intros r. by apply IH. Qed.

Lemma stops_bind {A B} (p : prog A) (f : A -> prog B) d d' :
  stops (bind p f) d d' -> stops p d d' \/ exists d1 a, ends p d d1 a /\ stops (f a) d1 d'.
Proof.
  revert d. induction p as [a|op k IH]; intros d; simpl; [intros Hs; right; by exists d, a|].
  intros [->|(c & [Hs|(d1 & a & He & Hs)]%IH)]; [by left; left|left; right; by exists c|].
  right. exists d1, a. split; [by exists c|done].
Qed.

Section related.
Context (R : Disk -> Disk -> Prop) `{!Reflexive R, !Transitive R} (P : Op -> Prop).
Hypothesis effects_related : forall op c d, P op -> R d (effect op c d).1.

Lemma stops_related {A} (p : prog A) d d' : asks P p -> stops p d d' -> R d d'.
Proof. 
  revert d. induction p as [a|op k IH]; simpl; intros d Hp [->|Hs]; try done. destruct Hp as [Ho Hk], Hs as [c Hs].
  etrans; [by apply (effects_related op c d)|]. by eapply IH.
Qed.

Lemma ends_related {A} (p : prog A) d d' a : asks P p -> ends p d d' a -> R d d'.
Proof. intros Hp He. by eapply stops_related, ends_stops. Qed.
End related.

(** What every operation keeps. *)
Definition stable (M : Disk -> Prop) : Prop := forall op c d, M d -> M (effect op c d).1.

Lemma stops_stable {A} M (p : prog A) d d' : stable M -> stops p d d' -> M d -> M d'.
Proof.
  intros HM. revert d. induction p as [a|op k IH]; simpl; intros d [->|Hs]; try done. destruct Hs as [c Hs].
  intros Hd. eapply IH; [exact Hs|]. by apply HM.
Qed.

Lemma ends_stable {A} M (p : prog A) d d' a : stable M -> ends p d d' a -> M d -> M d'.
Proof. intros HM He. by eapply stops_stable, ends_stops. Qed.

(** The disk after the first [n] operations of a run without faults. *)
Fixpoint run_until {A} (n : nat) (p : prog A) (d : Disk) : Disk :=
  match n, p with
  | S n, Do op k => let '(d, r) := effect op (usual op) d in run_until n (k r) d
  | _, _ => d
  end.

Lemma run_until_stops {A} n (p : prog A) d : stops p d (run_until n p d).
Proof.
  revert p d. induction n as [|n IH]; intros p d; [apply stops_here|]. destruct p as [a|op k]; [apply stops_here|].
  apply (stops_later op k d (usual op)). simpl. destruct (effect op (usual op) d) as [d' r]. apply IH.
Qed.

(** [I] at every stop, [Q] at the end. *)
Fixpoint wp {A} (I : Disk -> Prop) (Q : A -> Disk -> Prop) (p : prog A) (d : Disk) : Prop :=
  I d /\
  match p with
  | Ret a => Q a d
  | Do op k => forall c, wp I Q (k (effect op c d).2) (effect op c d).1
  end.

Lemma wp_invariant {A} I Q (p : prog A) d : wp I Q p d -> I d.
Proof. destruct p; simpl; tauto. Qed.

Lemma wp_stops {A} I Q (p : prog A) d d' : stops p d d' -> wp I Q p d -> I d'.
Proof.
  revert d. induction p as [a|op k IH]; simpl; intros d [->|Hs] [Hi Hk]; try done.
  destruct Hs as [c Hs]. by eapply IH.
Qed.

Lemma wp_ends {A} I Q (p : prog A) d d' a : ends p d d' a -> wp I Q p d -> Q a d'.
Proof.
  revert d. induction p as [b|op k IH]; simpl; intros d; [by intros [-> ->] [_ Hq]|].
  intros [c He] [_ Hk]. by eapply IH.
Qed.

Lemma wp_mono {A} (I : Disk -> Prop) (Q Q' : A -> Disk -> Prop) p d :
  (forall a d, I d -> Q a d -> Q' a d) -> wp I Q p d -> wp I Q' p d.
Proof.
  intros Hq. revert d. induction p as [a|op k IH]; simpl; intros d [Hi Hk]; (split; [done|]); [by apply Hq|].
  intros c. apply IH, Hk.
Qed.

Lemma wp_inv_mono {A} (I I' : Disk -> Prop) (Q : A -> Disk -> Prop) p d : (forall d, I d -> I' d) -> wp I Q p d -> wp I' Q p d.
Proof.
  intros HI. revert d. induction p as [a|op k IH]; simpl; intros d [Hi Hk]; (split; [by apply HI|]); [done|]. intros c. apply IH, Hk.
Qed.

Lemma wp_and {A} (I : Disk -> Prop) (Q Q' : A -> Disk -> Prop) p d :
  wp I Q p d -> wp I Q' p d -> wp I (fun a d => Q a d /\ Q' a d) p d.
Proof.
  revert d. induction p as [a|op k IH]; simpl; intros d [Hi Hk] [_ Hk']; (split; [done|]); [done|].
  intros c. by apply IH.
Qed.

Lemma wp_bind {A B} I Q (p : prog A) (f : A -> prog B) d :
  wp I (fun a d => wp I Q (f a) d) p d -> wp I Q (bind p f) d.
Proof.
  revert d. induction p as [a|op k IH]; simpl; intros d [Hi Hk]; [done|]. split; [done|]. intros c. apply IH, Hk.
Qed.

Lemma wp_ret {A} (I : Disk -> Prop) (Q : A -> Disk -> Prop) a d : I d -> Q a d -> wp I Q (Ret a) d.
Proof. done. Qed.

Lemma wp_attempt {E A B} I Q (p : prog (result E A)) (f : A -> prog (result E B)) d :
  wp I (fun r d => match r with Ok a => wp I Q (f a) d | Err e => Q (Err e) d end) p d ->
  wp I Q (attempt p f) d.
Proof.
  intros Hp. apply wp_bind. eapply wp_mono; [|exact Hp]. intros [a|e] d' Hi Hq; [done|]. by apply wp_ret.
Qed.

(** An operation that leaves the disk alone. *)
Definition quiet (op : Op) : Prop := forall c d, (effect op c d).1 = d.

Lemma wp_quiet {A} (I : Disk -> Prop) Q op (k : Reply op -> prog A) d :
  quiet op -> I d -> (forall c, wp I Q (k (effect op c d).2) d) -> wp I Q (Do op k) d.
Proof. intros Hq Hi Hk. simpl. split; [done|]. intros c. rewrite Hq. apply Hk. Qed.

Lemma wp_asks_quiet {A} (p : prog A) d : asks quiet p -> wp (fun d' => d' = d) (fun _ _ => True) p d.
Proof. induction p as [a|op k IH]; simpl; [done|]. intros [Hq Hk]. split; [done|]. intros c. rewrite Hq. apply IH, Hk. Qed.

(** What a program ends in is one of its ends. *)
Lemma wp_its_ends {A} (I : Disk -> Prop) Q (p : prog A) d : wp I Q p d -> wp I (fun a d' => ends p d d' a) p d.
Proof.
  revert d. induction p as [a|op k IH]; simpl; intros d [Hi Hk]; (split; [done|]); [done|]. intros c.
  eapply wp_mono; [|apply IH, Hk]. intros a d' _ He. by exists c.
Qed.

(** *** Programs that may end in an error: what holds when they do not *)

Definition on_ok {E A} (Q : A -> Disk -> Prop) (r : result E A) (d : Disk) : Prop :=
  match r with Ok a => Q a d | Err _ => True end.

Section results.
Context (I : Disk -> Prop).

Lemma wp_step {E A B} (Q : B -> Disk -> Prop) (p : prog (result E A)) (f : A -> prog (result E B)) d :
  wp I (on_ok (fun a d => wp I (on_ok Q) (f a) d)) p d -> wp I (on_ok Q) (attempt p f) d.
Proof. intros Hp. apply wp_attempt. eapply wp_mono; [|exact Hp]. by intros [a|e] d'. Qed.

Lemma wp_ok {E A} (Q : A -> Disk -> Prop) (a : A) d : I d -> Q a d -> wp I (on_ok (E:=E) Q) (Ret (Ok a)) d.
Proof. done. Qed.

Lemma wp_err {E A} (Q : A -> Disk -> Prop) (e : E) d : I d -> wp I (on_ok Q) (Ret (Err e)) d.
Proof. done. Qed.
End results.

Lemma run_bind {A B} (p : prog A) (f : A -> prog B) d :
  run (bind p f) d = run (f (run p d).2) (run p d).1.
Proof. revert d. induction p as [a|op k IH]; intros d; simpl; [done|]. destruct (effect op (usual op) d) as [d' r]. apply IH. Qed.

Lemma run_attempt {E A B} (p : prog (result E A)) (f : A -> prog (result E B)) d a d' :
  run p d = (d', Ok a) -> run (attempt p f) d = run (f a) d'.
Proof. intros Hp. unfold attempt. by rewrite run_bind, Hp. Qed.

Lemma run_attempt_Err {E A B} (p : prog (result E A)) (f : A -> prog (result E B)) d e d' :
  run p d = (d', Err e) -> run (attempt p f) d = (d', Err e).
Proof. intros Hp. unfold attempt. by rewrite run_bind, Hp. Qed.

(** The run without faults ends well, with [Q]. *)
Definition goes {E A} (Q : A -> Disk -> Prop) (p : prog (result E A)) (d : Disk) : Prop :=
  exists d' a, run p d = (d', Ok a) /\ Q a d'.

Lemma goes_ok {E A} (Q : A -> Disk -> Prop) (a : A) d : Q a d -> goes (E:=E) Q (Ret (Ok a)) d.
Proof. intros Hq. by exists d, a. Qed.

Lemma goes_mono {E A} (Q Q' : A -> Disk -> Prop) (p : prog (result E A)) d :
  (forall a d', Q a d' -> Q' a d') -> goes Q p d -> goes Q' p d.
Proof. intros Hq (d' & a & Hr & Ha). exists d', a. auto. Qed.

Lemma goes_step {E A B} (Q : B -> Disk -> Prop) (p : prog (result E A)) (f : A -> prog (result E B)) d :
  goes (fun a d' => goes Q (f a) d') p d -> goes Q (attempt p f) d.
Proof. intros (d' & a & Hr & Hf). unfold goes. by rewrite (run_attempt p f d a d' Hr). Qed.

Lemma goes_bind {E A B} (Q : B -> Disk -> Prop) (p : prog A) (f : A -> prog (result E B)) d :
  goes Q (f (run p d).2) (run p d).1 -> goes Q (bind p f) d.
Proof. unfold goes. by rewrite run_bind. Qed.

Lemma goes_do {E B} (Q : B -> Disk -> Prop) op (k : Reply op -> prog (result E B)) d :
  goes Q (k (effect op (usual op) d).2) (effect op (usual op) d).1 -> goes Q (Do op k) d.
Proof. unfold goes. cbn [run]. by destruct (effect op (usual op) d). Qed.

Lemma goes_run {E A} (Q : A -> Disk -> Prop) (p : prog (result E A)) d d' a :
  run p d = (d', Ok a) -> Q a d' -> goes Q p d.
Proof. intros. by exists d', a. Qed.

(** A run without faults is one of the runs. *)
Lemma run_ends {A} (p : prog A) d : ends p d (run p d).1 (run p d).2.
Proof.
  revert d. induction p as [a|op k IH]; intros d; simpl; [done|].
  exists (usual op). destruct (effect op (usual op) d) as [d' r]. apply IH.
Qed.

Lemma goes_and {E A} I (Q R : A -> Disk -> Prop) (p : prog (result E A)) d :
  wp I (on_ok R) p d -> goes Q p d -> goes (fun a d' => Q a d' /\ R a d') p d.
Proof.
  intros Hw (d' & a & Hr & Hq). exists d', a. split; [done|]. split; [done|].
  pose proof (run_ends p d) as He. rewrite Hr in He. apply (wp_ends _ _ _ _ _ _ He Hw).
Qed.
End programs.

Arguments prog : clear implicits.
Arguments Ret {Op Reply A}.
Arguments Do {Op Reply A} & op k.
Arguments run {Op Reply Choice Disk} effect usual {A}.
Arguments run_until {Op Reply Choice Disk} effect usual {A}.
Arguments stops {Op Reply Choice Disk} effect {A}.
Arguments ends {Op Reply Choice Disk} effect {A}.
Arguments wp {Op Reply Choice Disk} effect {A}.
Arguments goes {Op Reply Choice Disk} effect usual {E A}.
Arguments quiet {Op Reply Choice Disk} effect.
Arguments stable {Op Reply Choice Disk} effect.
Arguments asks {Op Reply A}.
Arguments stops_later {Op Reply Choice Disk effect A}.

Notation "'step!' x '<-' p ';;' k" := (attempt p (fun x => k))
  (at level 10, x pattern, p at level 99, k at level 200).

(** ** Codecs that read back what they write, as the simulations use *)

Fixpoint bits (p : positive) : string :=
  match p with xH => EmptyString | xO p => SCons "0" (bits p) | xI p => SCons "1" (bits p) end.

Fixpoint from_bits (s : string) : option positive :=
  match s with
  | EmptyString => Some xH
  | SCons a s =>
      if bool_decide (a = "010"%char) then Some xH
      else
      p ← from_bits s;
      if bool_decide (a = "0"%char) then Some (xO p) else if bool_decide (a = "1"%char) then Some (xI p) else None
  end.

Lemma from_to_bits p : from_bits (bits p) = Some p.
Proof. induction p as [p IH|p IH|]; simpl; rewrite ?IH; done. Qed.

(** A newline behind it changes nothing. *)
Lemma from_to_bits_line p : from_bits (bits p +:+ newline) = Some p.
Proof. induction p as [p IH|p IH|]; simpl; rewrite ?IH; done. Qed.

Definition code {T} `{Countable T} (x : T) : result string string := Ok (bits (encode x)).

Definition decoded {T} `{Countable T} (s : string) : result string T :=
  match (p ← from_bits s; countable.decode p) with Some x => Ok x | None => Err "invalid" end.

Lemma decoded_code {T} `{Countable T} (x : T) : exists s, code x = Ok s /\ decoded s = Ok x.
Proof. eexists. split; [done|]. unfold decoded. rewrite from_to_bits. simpl. by rewrite decode_encode. Qed.


Lemma decoded_code_line {T} `{Countable T} (x : T) s : code x = Ok s -> decoded (s +:+ newline) = Ok x.
Proof. intros [= <-]. unfold decoded. rewrite from_to_bits_line. simpl. by rewrite decode_encode. Qed.
