(* ===== verification/Documents.v ===== *)
(** * The two readable documents and their journal
    (services/korrid/src/discovery/reconcile.rs, reconcile/documents.rs)

    How the discovery coordinator publishes a change: under the write lock it
    finishes what an earlier run left, reads the device and the library
    document, computes the new ones, records both in a private journal, and then
    replaces the files. The operations are programs over four files
    ([Programs]); the configuration decoder (config/mod.rs), JSON and SHA-256
    are the class [Codecs]. *)

From S2P Require Import Prelude Text Decimal Library Programs.

(** ** Data *)

Inductive FixedFile : Type := DeviceFile | LibraryFile | OwnershipFile | RepairFile.

#[export] Instance FixedFile_eq_dec : EqDecision FixedFile.
Proof. solve_decision. Defined.

#[export] Instance FixedFile_countable : Countable FixedFile.
Proof.
  refine (inj_countable'
    (fun f => match f with DeviceFile => 0 | LibraryFile => 1 | OwnershipFile => 2 | RepairFile => 3 end : nat)%nat
    (fun n => match n with O => DeviceFile | 1%nat => LibraryFile | 2%nat => OwnershipFile | _ => RepairFile end) _).
  by intros [].
Defined.

(** ** Operations on the files *)

(** A file is replaced as everywhere in the services: the content goes to a new
    temporary file next to it, which is synced ([Stage]), renamed over it
    ([Rename]), and the directory is synced ([SyncDir]). Nobody reads the
    temporary files; they are not part of the disk. [Prepare] creates a
    directory, [Write] fills a file that was just created. *)
Notation disk := (gmap FixedFile string).

Inductive Op : Type :=
| Exists (f : FixedFile)
| Read (f : FixedFile)
| CreateNew (f : FixedFile)
| Write (f : FixedFile) (content : string)
| Prepare
| Stage (f : FixedFile) (content : string)
| Rename (f : FixedFile) (content : string)
| SyncDir.

(** The message of a failed operation. *)
Definition io_failed : string := "Input/output error (os error 5)".
Definition not_found : string := "No such file or directory (os error 2)".
Definition already_exists : string := "File exists (os error 17)".

(** One operation, done or failed. [Exists] answers no when it fails. *)
Definition effect (op : Op) (fine : bool) (d : disk) : disk * result string string :=
  if negb fine then (d, Err io_failed)
  else
    match op with
    | Exists f | Read f => (d, match d !! f with Some c => Ok c | None => Err not_found end)
    | CreateNew f => match d !! f with
                     | Some _ => (d, Err already_exists)
                     | None => (<[f := EmptyString]> d, Ok EmptyString)
                     end
    | Write f c => (<[f := c]> d, Ok EmptyString)
    | Prepare | Stage _ _ | SyncDir => (d, Ok EmptyString)
    | Rename f c => (<[f := c]> d, Ok EmptyString)
    end.

Notation program A := (prog Op (fun _ => result string string) A).
Definition fine (_ : Op) : bool := true.

Notation run := (Programs.run (Reply:=fun _ => result string string) (Choice:=fun _ => bool) effect fine).
Notation run_until := (Programs.run_until (Reply:=fun _ => result string string) (Choice:=fun _ => bool) effect fine).
Notation stops := (Programs.stops (Reply:=fun _ => result string string) (Choice:=fun _ => bool) effect).
Notation ends := (Programs.ends (Reply:=fun _ => result string string) (Choice:=fun _ => bool) effect).
Notation wp := (Programs.wp (Reply:=fun _ => result string string) (Choice:=fun _ => bool) effect).

(** One operation whose failure is the error [e]. *)
Definition perform {E} (e : string -> E) (op : Op) : program (result E string) :=
  Do op (fun r => Ret (map_err e r)).

Inductive DiscoveryError : Type :=
| Conflict
| Invalid (message : string)
| Storage (message : string)
| Candidate (message : string).

(** An [expect] that does not hold is a panic. *)
Inductive Fault : Type :=
| Failed (e : DiscoveryError)
| Panicked.

Notation outcome := (result Fault).

Record Documents := MkDocuments { device_text : string; library_text : string }.

#[export] Instance Documents_eq_dec : EqDecision Documents.
Proof. solve_decision. Defined.

Record OwnershipJournal := MkOwnership {
  own_storages : gset string;
  own_origins : gmap string (gset string);
  own_paths : gmap string PathRecord;
}.

#[export] Instance PathRecord_eq_dec : EqDecision PathRecord.
Proof. solve_decision. Defined.
#[export] Instance OwnershipJournal_eq_dec : EqDecision OwnershipJournal.
Proof. solve_decision. Defined.

Definition no_ownership : OwnershipJournal := MkOwnership ∅ ∅ ∅.

Record PendingWrite := MkPending {
  expected : Documents;
  candidate : Documents;
  pending_ownership : OwnershipJournal;
}.

Record RepairJournal := MkRepair { pending_write : option PendingWrite }.

Record PrivateState := MkPrivate {
  ownership : OwnershipJournal;
  repair : RepairJournal;
  next_ownership : option OwnershipJournal;
}.

(** What the services hand to libraries and to the configuration decoder. *)
Class Codecs `{Config} := {
  encode_ownership : OwnershipJournal -> result string string;
  decode_ownership : string -> result string OwnershipJournal;
  encode_repair : RepairJournal -> result string string;
  decode_repair : string -> result string RepairJournal;
  revision : string -> string;
  decode_config_documents : string -> string -> result string ConfigSnapshot;
}.

(** The journals are read back as they were written. *)
Class CodecLaws `(C : Codecs) : Prop := {
  ownership_round o : exists s, encode_ownership o = Ok s /\ decode_ownership s = Ok o;
  repair_round r : exists s, encode_repair r = Ok s /\ decode_repair s = Ok r;
}.

Definition fail {A} (e : DiscoveryError) : outcome A := Err (Failed e).
Definition storage_error (message : string) : Fault := Failed (Storage message).
Definition candidate_error (message : string) : Fault := Failed (Candidate message).


Section documents.
Context `{Config} `{C : !Codecs}.

(** ** Files *)

Definition read_fixed (f : FixedFile) : program (outcome string) := perform storage_error (Read f).

Definition write_atomically (f : FixedFile) (content expected_revision : string) : program (outcome unit) :=
  step! _ <- perform storage_error (Stage f content) ;;
  step! current <- perform storage_error (Read f) ;;
  if negb (bool_decide (revision current = expected_revision)) then Ret (fail Conflict)
  else
    step! _ <- perform storage_error (Rename f content) ;;
    step! _ <- perform storage_error SyncDir ;;
    Ret (Ok ()).

(** A missing file is the default; [exists] answers no when it cannot look. *)
Definition read_json {T} (default : T) (decode : string -> result string T) (f : FixedFile) : program (outcome T) :=
  Do (Exists f) (fun r =>
    match r with
    | Err _ => Ret (Ok default)
    | Ok _ =>
        step! content <- perform storage_error (Read f) ;;
        Ret (map_err candidate_error (decode content))
    end).

Definition write_json_atomically (f : FixedFile) (encoded : result string string) : program (outcome unit) :=
  step! _ <- perform storage_error Prepare ;;
  match encoded with
  | Err e => Ret (Err (candidate_error e))
  | Ok content =>
      Do (Read f) (fun r =>
        if bool_decide (r = Ok content) then Ret (Ok ())
        else
          step! _ <- perform storage_error (Stage f content) ;;
          step! _ <- perform storage_error (Rename f content) ;;
          step! _ <- perform storage_error SyncDir ;;
          Ret (Ok ()))
  end.

Definition EMPTY_DOCUMENT : string := "{}" +:+ newline.

Definition ensure_fixed_file (f : FixedFile) : program (outcome unit) :=
  Do (Exists f) (fun r =>
    match r with
    | Ok _ => Ret (Ok ())
    | Err _ =>
        Do (CreateNew f) (fun r =>
          match r with
          | Ok _ => step! _ <- perform storage_error (Write f EMPTY_DOCUMENT) ;; Ret (Ok ())
          | Err e => if bool_decide (e = already_exists) then Ret (Ok ()) else Ret (Err (storage_error e))
          end)
    end).

Definition ensure_fixed_files : program (outcome unit) :=
  step! _ <- perform storage_error Prepare ;;
  step! _ <- ensure_fixed_file DeviceFile ;;
  ensure_fixed_file LibraryFile.

(** ** The private state *)

Definition private_read : program (outcome PrivateState) :=
  step! own <- read_json no_ownership decode_ownership OwnershipFile ;;
  step! rep <- read_json (MkRepair None) decode_repair RepairFile ;;
  Ret (Ok (MkPrivate own rep None)).

Definition private_write (p : PrivateState) : program (outcome unit) :=
  step! _ <- write_json_atomically OwnershipFile (encode_ownership (ownership p)) ;;
  write_json_atomically RepairFile (encode_repair (repair p)).

Definition reject_pending_publication : program (outcome unit) :=
  step! p <- private_read ;;
  match pending_write (repair p) with
  | Some _ => Ret (fail Conflict)
  | None => Ret (Ok ())
  end.

(** ** The documents *)

Definition documents_read : program (outcome Documents) :=
  step! d <- read_fixed DeviceFile ;;
  step! l <- read_fixed LibraryFile ;;
  Ret (Ok (MkDocuments d l)).

Definition validate (d : Documents) : outcome ConfigSnapshot :=
  map_err candidate_error (decode_config_documents (device_text d) (library_text d)).

(** [files]: the locations publish last. *)
Definition document_files : list FixedFile := [LibraryFile; DeviceFile].

Definition text_of (d : Documents) (f : FixedFile) : string :=
  match f with DeviceFile => device_text d | _ => library_text d end.

(** Each file that is not the new one yet. *)
Fixpoint replace_files (old new now : Documents) (files : list FixedFile) : program (outcome unit) :=
  match files with
  | [] => Ret (Ok ())
  | f :: files =>
      if bool_decide (text_of now f = text_of new f) then replace_files old new now files
      else
        step! _ <- write_atomically f (text_of new f) (revision (text_of old f)) ;;
        replace_files old new now files
  end.

Definition foreign (p : PendingWrite) (now : Documents) (f : FixedFile) : bool :=
  negb (bool_decide (text_of now f = text_of (expected p) f))
  && negb (bool_decide (text_of now f = text_of (candidate p) f)).

Definition recover (private : PrivateState) : program (outcome (bool * PrivateState)) :=
  match pending_write (repair private) with
  | None => Ret (Ok (false, private))
  | Some p =>
      step! current <- documents_read ;;
      if existsb (foreign p current) document_files then Ret (fail Conflict)
      else
        match validate (candidate p) with
        | Err e => Ret (Err e)
        | Ok _ =>
            step! _ <- replace_files (expected p) (candidate p) current document_files ;;
            step! again <- documents_read ;;
            if negb (bool_decide (again = candidate p)) then Ret (fail Conflict)
            else
              let private := MkPrivate (pending_ownership p) (MkRepair None) (next_ownership private) in
              step! _ <- private_write private ;;
              Ret (Ok (true, private))
        end
  end.

Definition commit (old new : Documents) (private : PrivateState) : program (outcome PrivateState) :=
  match validate new with
  | Err e => Ret (Err e)
  | Ok _ =>
      step! current <- documents_read ;;
      if negb (bool_decide (current = old)) then Ret (fail Conflict)
      else
        let own := default (ownership private) (next_ownership private) in
        let private := MkPrivate (ownership private) (repair private) None in
        if bool_decide (old = new) && bool_decide (own = ownership private) then Ret (Ok private)
        else
          let private := MkPrivate (ownership private) (MkRepair (Some (MkPending old new own))) None in
          step! _ <- private_write private ;;
          step! recovered <- recover private ;;
          Ret (Ok recovered.2)
  end.

(** ** What a restart does *)

(** Every operation begins so; its first mutation reads the documents again. *)
Definition restart : program (outcome (bool * PrivateState)) :=
  step! private <- private_read ;; recover private.

(** *** What the files hold *)

Definition json_on {T} (default : T) (decode : string -> result string T) (f : FixedFile) (d : disk) (x : T) : Prop :=
  match d !! f with None => x = default | Some s => decode s = Ok x end.

Definition own_on : disk -> OwnershipJournal -> Prop := json_on no_ownership decode_ownership OwnershipFile.
Definition rep_on : disk -> RepairJournal -> Prop := json_on (MkRepair None) decode_repair RepairFile.

Definition docs_on (d : disk) (docs : Documents) : Prop :=
  d !! DeviceFile = Some (device_text docs) /\ d !! LibraryFile = Some (library_text docs).

(** Nothing is pending. *)
Record settled (d : disk) (docs : Documents) (own : OwnershipJournal) : Prop := {
  settled_docs : docs_on d docs;
  settled_own : own_on d own;
  settled_rep : rep_on d (MkRepair None);
}.

(** The journal is written; each document is the old or the new one. *)
Record inflight (p : PendingWrite) (own : OwnershipJournal) (d : disk) : Prop := {
  inflight_rep : rep_on d (MkRepair (Some p));
  inflight_docs f : f ∈ document_files ->
    d !! f = Some (text_of (expected p) f) \/ d !! f = Some (text_of (candidate p) f);
  inflight_own : own_on d own \/ (own_on d (pending_ownership p) /\ docs_on d (candidate p));
}.

(** *** Rules for the operations *)

Section rules.
Context (I : disk -> Prop).

Lemma wp_perform {E} (Q : string -> disk -> Prop) (e : string -> E) op d :
  I d -> I (effect op true d).1 -> (forall s, (effect op true d).2 = Ok s -> Q s (effect op true d).1) ->
  wp I (on_ok Q) (perform e op) d.
Proof.
  intros Hi Hi' Hq. split; [done|]. intros [].
  - split; [done|]. destruct (effect op true d) as [d' [s|x]]; simpl; [by apply Hq|done].
  - simpl. done.
Qed.

Lemma wp_read_fixed (Q : string -> disk -> Prop) f d :
  I d -> (forall c, d !! f = Some c -> Q c d) -> wp I (on_ok Q) (read_fixed f) d.
Proof.
  intros Hi Hq. apply wp_perform; [done|done|]. intros s. simpl. destruct (d !! f); [intros [= <-]; by apply Hq|done].
Qed.

Lemma wp_documents_read (Q : Documents -> disk -> Prop) d :
  I d -> (forall docs, docs_on d docs -> Q docs d) -> wp I (on_ok Q) documents_read d.
Proof.
  intros Hi Hq. apply wp_step, wp_read_fixed; [done|]. intros c Hc. apply wp_step, wp_read_fixed; [done|].
  intros l Hl. apply wp_ok; [done|]. by apply Hq.
Qed.

Lemma wp_write_atomically (Q : unit -> disk -> Prop) f content rev d :
  I d -> I (<[f := content]> d) -> Q () (<[f := content]> d) -> wp I (on_ok Q) (write_atomically f content rev) d.
Proof.
  intros Hi Hi' Hq. apply wp_step, wp_perform; [done|done|]. intros _ _. apply wp_step, wp_perform; [done|done|].
  intros current _. simpl. destruct (negb _); [by apply wp_err|].
  apply wp_step, wp_perform; [done|done|]. intros _ _. apply wp_step, wp_perform; [done|done|]. intros _ _. by apply wp_ok.
Qed.

Lemma wp_write_json (Q : unit -> disk -> Prop) f encoded d :
  I d -> (forall content, encoded = Ok content -> I (<[f := content]> d) /\ Q () (<[f := content]> d)) ->
  wp I (on_ok Q) (write_json_atomically f encoded) d.
Proof.
  intros Hi Hc. apply wp_step, wp_perform; [done|done|]. intros _ _. simpl.
  destruct encoded as [content|e]; [|by apply wp_err]. destruct (Hc content eq_refl) as [Hi' Hq].
  apply wp_quiet; [by intros [] ?|done|]. intros fine. case_bool_decide as Heq.
  - assert (Hd : d !! f = Some content).
    { destruct fine; [|done]. simpl in Heq. by destruct (d !! f); simplify_eq. }
    apply wp_ok; [done|]. by rewrite insert_id in Hq.
  - apply wp_step, wp_perform; [done|done|]. intros _ _. apply wp_step, wp_perform; [done|done|]. intros _ _.
    apply wp_step, wp_perform; [done|done|]. intros _ _. by apply wp_ok.
Qed.
End rules.

(** *** The journal keeps the documents together *)

Lemma json_on_insert_ne {T} (x : T) df decode f g c d :
  f <> g -> json_on df decode f d x -> json_on df decode f (<[g := c]> d) x.
Proof. intros Hne. unfold json_on. by rewrite lookup_insert_ne. Qed.

Lemma json_on_insert {T} (x : T) df decode f c d : decode c = Ok x -> json_on df decode f (<[f := c]> d) x.
Proof. intros Hd. unfold json_on. by rewrite lookup_insert_eq. Qed.

Lemma docs_on_insert_ne docs g c d : g ∉ document_files -> docs_on d docs -> docs_on (<[g := c]> d) docs.
Proof.
  intros Hg [H1 H2]. split; rewrite lookup_insert_ne; try done; intros ->; apply Hg; [right|]; left.
Qed.

Lemma docs_on_text d docs f : f ∈ document_files -> docs_on d docs -> d !! f = Some (text_of docs f).
Proof.
  intros Hf [H1 H2]. apply elem_of_cons in Hf as [->|Hf]; [done|].
  apply list_elem_of_singleton in Hf as ->. done.
Qed.

Lemma document_not_private f : f ∈ document_files -> f <> OwnershipFile /\ f <> RepairFile.
Proof.
  intros Hf. apply elem_of_cons in Hf as [->|Hf]; [done|]. by apply list_elem_of_singleton in Hf as ->.
Qed.

Lemma inflight_replace p own f d :
  f ∈ document_files -> inflight p own d -> inflight p own (<[f := text_of (candidate p) f]> d).
Proof.
  intros Hf [Hr Hd Ho]. destruct (document_not_private f Hf) as [Hno Hnr]. split.
  - by apply json_on_insert_ne.
  - intros g Hg. destruct (decide (g = f)) as [->|Hne]; [right; by rewrite lookup_insert_eq|].
    rewrite lookup_insert_ne by done. by apply Hd.
  - destruct Ho as [Ho|[Ho Hc]]; [left; by apply json_on_insert_ne|right]. split; [by apply json_on_insert_ne|].
    by rewrite insert_id by (by apply docs_on_text).
Qed.

Lemma wp_replace_files (I : disk -> Prop) p own now files d :
  (forall d, inflight p own d -> I d) -> (forall f, f ∈ files -> f ∈ document_files) -> inflight p own d ->
  wp I (on_ok (fun _ d => inflight p own d)) (replace_files (expected p) (candidate p) now files) d.
Proof.
  intros Hi. revert d. induction files as [|f files IH]; intros d Hf Hd; cbn [replace_files]; [by apply wp_ok; [apply Hi|]|].
  assert (Hin : f ∈ document_files) by (apply Hf; by left).
  assert (Hfs : forall g, g ∈ files -> g ∈ document_files) by (intros; apply Hf; by right).
  case_bool_decide; [by apply IH|].
  apply wp_step, wp_write_atomically; [by apply Hi|by apply Hi, inflight_replace|]. by apply IH, inflight_replace.
Qed.

(** *** Stops *)

Section crash.
Context `{CL : !CodecLaws C} (old new : Documents) (before own own' : OwnershipJournal).

Notation pending := (MkPending old new own').

(** What every stop of a commit, and of any restart after it, leaves. The ownership
    in memory goes to the disk first, in the place of the one there [before]. *)
Definition consistent (d : disk) : Prop :=
  (settled d old before \/ settled d old own) \/ inflight pending own d \/ settled d new own'.

Lemma inflight_consistent d : inflight pending own d -> consistent d.
Proof. intros Hd. right. by left. Qed.

Lemma encoded_own o c : encode_ownership o = Ok c -> decode_ownership c = Ok o.
Proof. intros Hc. destruct (ownership_round o) as (s & Hs & Hd). congruence. Qed.

Lemma encoded_rep r c : encode_repair r = Ok c -> decode_repair c = Ok r.
Proof. intros Hc. destruct (repair_round r) as (s & Hs & Hd). congruence. Qed.

Lemma not_document_own : OwnershipFile ∉ document_files.
Proof. intros [Hx|Hx%list_elem_of_singleton]%elem_of_cons; discriminate Hx. Qed.

Lemma not_document_rep : RepairFile ∉ document_files.
Proof. intros [Hx|Hx%list_elem_of_singleton]%elem_of_cons; discriminate Hx. Qed.

(** The end of a recovery: ownership first, then the journal is cleared. *)
Lemma wp_finish next d :
  inflight pending own d -> docs_on d new ->
  wp consistent (on_ok (fun _ d => settled d new own')) (private_write (MkPrivate own' (MkRepair None) next)) d.
Proof.
  intros Hd Hdocs. unfold private_write. apply wp_step, wp_write_json; [by apply inflight_consistent|].
  intros c Hc%encoded_own. set (d1 := <[OwnershipFile := c]> d).
  assert (Hdocs1 : docs_on d1 new) by (apply docs_on_insert_ne; [apply not_document_own|done]).
  assert (Ho1 : own_on d1 own') by (by apply json_on_insert).
  assert (Hd1 : inflight pending own d1).
  { split.
    - apply json_on_insert_ne; [done|]. apply Hd.
    - intros f Hf. right. by apply docs_on_text.
    - by right. }
  split; [by apply inflight_consistent|]. apply wp_write_json; [by apply inflight_consistent|].
  intros c2 Hc2%encoded_rep. assert (Hd2 : settled (<[RepairFile := c2]> d1) new own').
  { split.
    - apply docs_on_insert_ne; [apply not_document_rep|done].
    - by apply json_on_insert_ne.
    - by apply json_on_insert. }
  split; [|done]. right. by right.
Qed.

Lemma wp_recover private d :
  pending_write (repair private) = Some pending -> inflight pending own d ->
  wp consistent (on_ok (fun r d => settled d new own' /\ ownership r.2 = own')) (recover private) d.
Proof.
  intros Hp Hd. unfold recover. rewrite Hp.
  apply wp_step, wp_documents_read; [by apply inflight_consistent|]. intros current _.
  destruct (existsb _ _); [by apply wp_err, inflight_consistent|].
  destruct (validate _); [|by apply wp_err, inflight_consistent].
  apply wp_step. eapply wp_mono; [|eapply (wp_replace_files consistent pending own); [apply inflight_consistent|done|exact Hd]].
  intros [[]|e] d1 _ Hd1; [|done].
  apply wp_step, wp_documents_read; [by apply inflight_consistent|]. intros again Hagain.
  destruct (bool_decide_reflect (again = candidate pending)) as [Heq|]; cbn [negb]; [|by apply wp_err, inflight_consistent].
  cbn [candidate] in Heq. subst again.
  apply wp_step. eapply wp_mono; [|by apply wp_finish]. intros [[]|e] d2 _ Hd2; [|done].
  apply wp_ok; [by right; right|]. done.
Qed.

Lemma settled_consistent d : settled d old before -> consistent d.
Proof. intros Hd. left. by left. Qed.

(** The journal of a commit is written while everything is still old. *)
Lemma wp_journal next d :
  settled d old before ->
  wp consistent (on_ok (fun _ d => inflight pending own d))
    (private_write (MkPrivate own (MkRepair (Some pending)) next)) d.
Proof.
  intros Hd. unfold private_write. apply wp_step, wp_write_json; [by apply settled_consistent|].
  intros c Hc%encoded_own. set (d1 := <[OwnershipFile := c]> d).
  assert (Hd1 : settled d1 old own).
  { destruct Hd as [H1 H2 H3]. split.
    - apply docs_on_insert_ne; [apply not_document_own|done].
    - by apply json_on_insert.
    - by apply json_on_insert_ne. }
  assert (Hc1 : consistent d1) by (left; by right).
  split; [done|]. apply wp_write_json; [done|].
  intros c2 Hc2%encoded_rep. assert (Hd2 : inflight pending own (<[RepairFile := c2]> d1)).
  { destruct Hd1 as [H1 H2 H3]. split.
    - by apply json_on_insert.
    - intros f Hf. left. rewrite lookup_insert_ne by (by apply document_not_private in Hf as [_ ?]). by apply docs_on_text.
    - left. by apply json_on_insert_ne. }
  split; [by apply inflight_consistent|done].
Qed.

Lemma wp_commit private d :
  ownership private = own -> default own (next_ownership private) = own' ->
  repair private = MkRepair None -> settled d old before ->
  wp consistent (on_ok (fun p d => (settled d new own' \/ own' = own /\ settled d new before) /\ ownership p = own'))
    (commit old new private) d.
Proof.
  intros Ho Hn Hr Hd. unfold commit. rewrite Ho, Hr, Hn. destruct (validate new); [|by apply wp_err, settled_consistent].
  apply wp_step, wp_documents_read; [by apply settled_consistent|]. intros current _.
  destruct (negb _); [by apply wp_err, settled_consistent|]. cbv zeta. cbn [ownership repair].
  destruct (_ && _) eqn:Hsame.
  - apply andb_prop in Hsame as [Hdoc%bool_decide_eq_true Hown%bool_decide_eq_true]. cbn [ownership] in Hown.
    apply wp_ok; [by apply settled_consistent|]. rewrite <- Hdoc, Hown. auto.
  - apply wp_step. eapply wp_mono; [|by apply wp_journal]. intros [[]|e] d1 Hi1 Hd1; [|done].
    apply wp_step. eapply wp_mono; [|by apply wp_recover]. intros [r|e] d2 Hi2 Hd2; [|done]. apply wp_ok; [done|].
    destruct Hd2. auto.
Qed.

(** A restart reads the private state, and finishes what it finds pending. *)
Lemma wp_read_json (I : disk -> Prop) {T} (df : T) decode f (Q : T -> disk -> Prop) d :
  I d -> Q df d -> (forall x, json_on df decode f d x -> Q x d) -> wp I (on_ok Q) (read_json df decode f) d.
Proof.
  intros Hi Hdf Hq. unfold read_json. apply wp_quiet; [by intros [] ?|done|]. intros fine.
  destruct (effect (Exists f) fine d).2; [|by apply wp_ok].
  apply wp_step, wp_perform; [done|done|]. intros s Hs. simpl in Hs.
  destruct (decode s) as [x|e] eqn:Hx; [|by apply wp_err]. apply wp_ok; [done|]. apply Hq. unfold json_on. simpl.
  by destruct (d !! f); simplify_eq.
Qed.

Lemma wp_restart d : consistent d -> wp consistent (on_ok (fun _ _ => True)) restart d.
Proof.
  intros Hd. unfold restart, private_read.
  assert (Hidle : forall o, wp consistent (on_ok (fun _ _ => True)) (recover (MkPrivate o (MkRepair None) None)) d)
    by (intros o; by apply wp_ok).
  apply wp_step, wp_step, wp_read_json; [done| |]; [|intros o _].
  all: apply wp_step, wp_read_json; [done| |]; [by apply wp_ok|intros r Hr; apply wp_ok; [done|]].
  all: destruct Hd as [[[_ _ Hrep]|[_ _ Hrep]]|[Hd|[_ _ Hrep]]].
  1, 2, 4, 5, 6, 8: replace r with (MkRepair None); [apply Hidle|].
  1-6: unfold rep_on, json_on in Hr, Hrep; destruct (d !! RepairFile); congruence.
  all: assert (Heq : r = MkRepair (Some pending)) by
    (pose proof (inflight_rep _ _ _ Hd) as Hrep; unfold rep_on, json_on in Hr, Hrep; destruct (d !! RepairFile); congruence).
  all: rewrite Heq; eapply wp_mono; [|by apply wp_recover]; by intros [].
Qed.

(** Any number of restarts, each stopped anywhere. *)
Definition interrupted : disk -> disk -> Prop := rtc (stops restart).

Lemma interrupted_consistent d d' : interrupted d d' -> consistent d -> consistent d'.
Proof. induction 1 as [d|d d1 d2 Hs _ IH]; [done|]. intros Hd. apply IH. eapply wp_stops; [exact Hs|]. by apply wp_restart. Qed.
End crash.

(** *** Runs without faults *)

Lemma run_read_fixed f c d : d !! f = Some c -> run (read_fixed f) d = (d, Ok c).
Proof. intros Hf. unfold read_fixed, perform. simpl. by rewrite Hf. Qed.

Lemma run_documents_read docs d : docs_on d docs -> run documents_read d = (d, Ok docs).
Proof.
  intros [Hd Hl]. unfold documents_read. rewrite (run_attempt _ _ _ _ _ (run_read_fixed _ _ _ Hd)).
  rewrite (run_attempt _ _ _ _ _ (run_read_fixed _ _ _ Hl)). by destruct docs.
Qed.

Lemma run_write_atomically f c old_text d :
  d !! f = Some old_text -> run (write_atomically f c (revision old_text)) d = (<[f := c]> d, Ok ()).
Proof. intros Hf. unfold write_atomically, attempt, perform. simpl. rewrite Hf. simpl. by rewrite bool_decide_eq_true_2. Qed.

Lemma run_write_json f c d : run (write_json_atomically f (Ok c)) d = (<[f := c]> d, Ok ()).
Proof.
  unfold write_json_atomically, attempt, perform. simpl. case_bool_decide as Heq; simpl; [|done].
  destruct (d !! f) eqn:Hf; [|done]. injection Heq as ->. by rewrite insert_id.
Qed.

Lemma run_read_json {T} (df : T) decode f d x :
  json_on df decode f d x -> run (read_json df decode f) d = (d, Ok x).
Proof.
  unfold json_on, read_json, attempt, perform. simpl. destruct (d !! f) eqn:Hf; simpl.
  - rewrite Hf. simpl. by intros ->.
  - by intros ->.
Qed.

Lemma run_private_read o r d : own_on d o -> rep_on d r -> run private_read d = (d, Ok (MkPrivate o r None)).
Proof.
  intros Ho Hr. unfold private_read. rewrite (run_attempt _ _ _ _ _ (run_read_json _ _ _ _ _ Ho)).
  by rewrite (run_attempt _ _ _ _ _ (run_read_json _ _ _ _ _ Hr)).
Qed.

Lemma restart_settled docs o d :
  settled d docs o -> run restart d = (d, Ok (false, MkPrivate o (MkRepair None) None)).
Proof. intros [_ Ho Hr]. unfold restart. by rewrite (run_attempt _ _ _ _ _ (run_private_read _ _ _ Ho Hr)). Qed.

Section finish.
Context `{CL : !CodecLaws C}.

Lemma run_private_write p d :
  exists c r, decode_ownership c = Ok (ownership p) /\ decode_repair r = Ok (repair p) /\
    run (private_write p) d = (<[RepairFile := r]> (<[OwnershipFile := c]> d), Ok ()).
Proof.
  destruct (ownership_round (ownership p)) as (c & Hc & Hdc). destruct (repair_round (repair p)) as (r & Hr & Hdr).
  exists c, r. split; [done|]. split; [done|]. unfold private_write. rewrite Hc, Hr.
  rewrite (run_attempt _ _ _ _ _ (run_write_json _ _ _)). apply run_write_json.
Qed.

(** The files the recovery of [p] starts from. *)
Definition current_docs (d : disk) : Documents :=
  MkDocuments (default EmptyString (d !! DeviceFile)) (default EmptyString (d !! LibraryFile)).

Lemma inflight_docs_on p o d : inflight p o d -> docs_on d (current_docs d).
Proof.
  intros Hd. split; unfold current_docs; simpl.
  - destruct (inflight_docs _ _ _ Hd DeviceFile ltac:(right; left)) as [-> | ->]; done.
  - destruct (inflight_docs _ _ _ Hd LibraryFile ltac:(left)) as [-> | ->]; done.
Qed.

Lemma inflight_not_foreign p o d : inflight p o d -> existsb (foreign p (current_docs d)) document_files = false.
Proof.
  intros Hd. pose proof (inflight_docs_on _ _ _ Hd) as Hc. apply not_true_iff_false.
  intros (f & Hf & Hx)%existsb_spec. apply andb_prop in Hx as [H1 H2].
  apply negb_true_iff, bool_decide_eq_false in H1, H2. pose proof (docs_on_text _ _ _ Hf Hc) as Ht.
  destruct (inflight_docs _ _ _ Hd f Hf); congruence.
Qed.

Lemma run_replace_files p o now files d :
  NoDup files -> (forall f, f ∈ files -> f ∈ document_files) ->
  (forall f, f ∈ files -> d !! f = Some (text_of now f)) -> inflight p o d ->
  exists d', run (replace_files (expected p) (candidate p) now files) d = (d', Ok ()) /\ inflight p o d' /\
    (forall f, f ∈ files -> d' !! f = Some (text_of (candidate p) f)) /\
    (forall f, f ∉ files -> d' !! f = d !! f).
Proof.
  intros Hnd Hf. revert d. induction Hnd as [|f files Hout Hnd IH]; intros d Hnow Hd; cbn [replace_files].
  { exists d. split; [done|]. split; [done|]. split; [by intros f ?%elem_of_nil|done]. }
  assert (Hin : f ∈ document_files) by (apply Hf; by left).
  assert (Hfs : forall g, g ∈ files -> g ∈ document_files) by (intros; apply Hf; by right).
  pose proof (Hnow f ltac:(left)) as Hnf. specialize (IH Hfs).
  assert (exists d1, run (if bool_decide (text_of now f = text_of (candidate p) f) then Ret (Ok ())
      else write_atomically f (text_of (candidate p) f) (revision (text_of (expected p) f))) d = (d1, Ok ()) /\
      inflight p o d1 /\ d1 !! f = Some (text_of (candidate p) f) /\ forall g, g <> f -> d1 !! g = d !! g)
    as (d1 & Hrun & Hd1 & Hnew & Hother).
  { case_bool_decide as Heq; [exists d; rewrite <- Heq; auto|]. exists (<[f := text_of (candidate p) f]> d).
    split; [|split; [by apply inflight_replace|split; [by rewrite lookup_insert_eq|intros; by rewrite lookup_insert_ne]]].
    destruct (inflight_docs _ _ _ Hd f Hin) as [Hold|Hold]; [|congruence]. by rewrite (run_write_atomically _ _ _ _ Hold). }
  destruct (IH d1) as (d2 & Hrun2 & Hd2 & Hnew2 & Hother2); [|done|].
  { intros g Hg. rewrite Hother by (by intros ->). apply Hnow. by right. }
  exists d2. split; [|split; [done|split]].
  - revert Hrun. case_bool_decide; intros Hrun; [by injection Hrun as <-|]. by rewrite (run_attempt _ _ _ _ _ Hrun).
  - intros g [->|Hg]%elem_of_cons; [by rewrite Hother2|by apply Hnew2].
  - intros g Hg%not_elem_of_cons. destruct Hg as [Hgf Hg]. by rewrite Hother2, Hother.
Qed.

Lemma restart_inflight p o d snap :
  inflight p o d -> validate (candidate p) = Ok snap ->
  exists d', run restart d = (d', Ok (true, MkPrivate (pending_ownership p) (MkRepair None) None)) /\
    settled d' (candidate p) (pending_ownership p).
Proof.
  intros Hd Hv. assert (exists o', own_on d o') as [o' Ho'] by (destruct (inflight_own _ _ _ Hd) as [|[? _]]; eauto).
  unfold restart. rewrite (run_attempt _ _ _ _ _ (run_private_read _ _ _ Ho' (inflight_rep _ _ _ Hd))).
  unfold recover. cbn [repair pending_write].
  pose proof (inflight_docs_on _ _ _ Hd) as Hdocs. rewrite (run_attempt _ _ _ _ _ (run_documents_read _ _ Hdocs)).
  rewrite (inflight_not_foreign _ _ _ Hd), Hv.
  destruct (run_replace_files p o (current_docs d) document_files d) as (d1 & Hrun & _ & Hnew & Hother); [|done| |done|].
  { apply NoDup_cons. split; [by intros Hx%list_elem_of_singleton|apply NoDup_singleton]. }
  { intros f Hf. by apply docs_on_text. }
  rewrite (run_attempt _ _ _ _ _ Hrun).
  assert (Hdocs1 : docs_on d1 (candidate p)) by (split; apply Hnew; [right; left|left]).
  rewrite (run_attempt _ _ _ _ _ (run_documents_read _ _ Hdocs1)). rewrite bool_decide_eq_true_2 by done. cbn [negb].
  destruct (run_private_write (MkPrivate (pending_ownership p) (MkRepair None) None) d1) as (c & r & Hc & Hr & Hw).
  cbn [next_ownership]. rewrite (run_attempt _ _ _ _ _ Hw). eexists. split; [done|]. split.
  - apply docs_on_insert_ne, docs_on_insert_ne; [apply not_document_rep|apply not_document_own|done].
  - apply json_on_insert_ne; [done|]. by apply json_on_insert.
  - by apply json_on_insert.
Qed.
End finish.

(** ** Crash safety *)

Section crash_safety.
Context `{CL : !CodecLaws C}.

(** C8: A commit is atomic under crashes. Stop it anywhere, whatever operation of it
    fails, and stop any number of restarts anywhere: the next undisturbed
    restart finds, or makes, either all of the new state, both documents and the
    ownership; or both old documents, with the ownership that was on the disk or the
    one in memory, which the commit writes first and which is the same unless the
    caller changed it before. Nothing is pending then. *)
Theorem commit_crash_atomic old new private own own' snap d d1 d2 :
  settled d old own -> repair private = MkRepair None ->
  default (ownership private) (next_ownership private) = own' -> validate new = Ok snap ->
  stops (commit old new private) d d1 -> interrupted d1 d2 ->
  exists d3 again p, run restart d2 = (d3, Ok (again, p)) /\ repair p = MkRepair None /\
    ((settled d3 old (ownership p) /\ (ownership p = own \/ ownership p = ownership private)) \/
     (settled d3 new own' /\ ownership p = own')).
Proof.
  intros Hd Hr Ho Hv Hs Hi.
  assert (H1 : consistent old new own (ownership private) own' d1).
  { eapply wp_stops; [exact Hs|]. by apply (wp_commit old new own (ownership private) own'). }
  apply (interrupted_consistent _ _ _ _ _ _ _ Hi) in H1 as [[H2|H2]|[H2|H2]].
  - rewrite (restart_settled _ _ _ H2). eexists _, _, _. split; [done|]. split; [done|]. left. by split; [|left].
  - rewrite (restart_settled _ _ _ H2). eexists _, _, _. split; [done|]. split; [done|]. left. by split; [|right].
  - destruct (restart_inflight _ _ _ snap H2 Hv) as (d3 & -> & Hd3). eexists _, _, _. split; [done|]. split; [done|]. by right.
  - rewrite (restart_settled _ _ _ H2). eexists _, _, _. split; [done|]. split; [done|]. by right.
Qed.

Lemma run_commit old new private snap d :
  settled d old (ownership private) -> repair private = MkRepair None -> validate new = Ok snap ->
  exists d' p, run (commit old new private) d = (d', Ok p).
Proof.
  intros Hd Hr Hv. unfold commit. rewrite Hv.
  rewrite (run_attempt _ _ _ _ _ (run_documents_read _ _ (settled_docs _ _ _ Hd))).
  rewrite bool_decide_eq_true_2 by done. cbn [negb]. cbv zeta. cbn [ownership repair].
  set (own' := default _ _). destruct (_ && _); [by eexists _, _|].
  set (p := MkPending old new own').
  destruct (run_private_write (MkPrivate (ownership private) (MkRepair (Some p)) None) d) as (c & r & Hc & Hr' & Hw).
  rewrite (run_attempt _ _ _ _ _ Hw). cbn [ownership repair] in Hc, Hr'.
  set (d1 := <[RepairFile := r]> _).
  assert (Hd1 : inflight p (ownership private) d1).
  { destruct Hd as [H1 H2 H3]. split.
    - by apply json_on_insert.
    - intros f Hf. left. destruct (document_not_private f Hf) as [Hno Hnr].
      unfold d1. rewrite !lookup_insert_ne by congruence. by apply docs_on_text.
    - left. apply json_on_insert_ne; [done|]. by apply json_on_insert. }
  destruct (restart_inflight p _ _ snap Hd1 Hv) as (d2 & Hrun & _).
  assert (Ho1 : own_on d1 (ownership private)) by (apply json_on_insert_ne; [done|]; by apply json_on_insert).
  pose proof (run_private_read _ _ _ Ho1 (inflight_rep _ _ _ Hd1)) as Hread.
  unfold restart in Hrun. rewrite (run_attempt _ _ _ _ _ Hread) in Hrun.
  rewrite (run_attempt _ _ _ _ _ Hrun). by eexists _, _.
Qed.

(** A commit that reports success has published: the documents are the new
    ones, the ownership is the new one, nothing is pending. Without faults, on
    files nobody else changed, it succeeds. *)
Theorem commit_publishes old new private own' d :
  settled d old (ownership private) -> repair private = MkRepair None ->
  default (ownership private) (next_ownership private) = own' ->
  (forall d' p, ends (commit old new private) d d' (Ok p) -> settled d' new own' /\ ownership p = own') /\
  (forall snap, validate new = Ok snap -> exists d' p, run (commit old new private) d = (d', Ok p)).
Proof.
  intros Hd Hr Ho. split; [|intros snap Hv; by eapply run_commit].
  intros d' p He. change (on_ok (E:=Fault) (fun p d => settled d new own' /\ ownership p = own') (Ok p) d').
  eapply (wp_ends (consistent old new (ownership private) (ownership private) own') _ _ _ _ _ He).
  eapply wp_mono; [|by apply (wp_commit old new (ownership private) (ownership private) own')].
  intros [q|e] x _; [|done]. intros [[Hx|[-> Hx]] Hq]; by split.
Qed.

(** What somebody else wrote into a document is not lost: while a document is
    neither the one the journal expects nor the one it is to become, recovery
    changes no file, and reports an error. *)
Theorem foreign_edit_survives private p d d' r docs f :
  pending_write (repair private) = Some p -> docs_on d docs ->
  f ∈ document_files -> text_of docs f <> text_of (expected p) f -> text_of docs f <> text_of (candidate p) f ->
  ends (recover private) d d' r -> d' = d /\ is_err r = true.
Proof.
  intros Hp Hd Hf Hold Hnew He.
  apply (wp_ends (fun x => x = d) (fun r x => x = d /\ is_err r = true) _ _ _ _ He).
  unfold recover. rewrite Hp. apply wp_attempt. unfold documents_read, read_fixed, perform, attempt.
  cbn [bind]. split; [done|]. intros [|]; [|by split].
  destruct Hd as [Hdev Hlib]. cbn [effect negb fst snd]. rewrite Hdev. cbn [map_err bind].
  split; [done|]. intros [|]; [|by split]. cbn [effect negb fst snd]. rewrite Hlib. cbn [map_err bind].
  split; [done|]. replace (MkDocuments (device_text docs) (library_text docs)) with docs by by destruct docs.
  assert (Hforeign : existsb (foreign p docs) document_files = true).
  { apply existsb_spec. exists f. split; [done|]. unfold foreign. by rewrite !bool_decide_eq_false_2. }
  rewrite Hforeign. by split.
Qed.

(** The ownership of a commit goes to disk before its journal. When the caller
    has already changed it in memory, a stop between the two leaves the changed
    ownership beside the old documents, with nothing pending to complete it. *)
Theorem ownership_written_early old new private own d snap :
  settled d old own -> validate new = Ok snap ->
  old <> new \/ default (ownership private) (next_ownership private) <> ownership private ->
  exists d', stops (commit old new private) d d' /\ settled d' old (ownership private).
Proof.
  intros Hd Hv Hne. destruct (ownership_round (ownership private)) as (c & Hc & Hdc).
  exists (<[OwnershipFile := c]> d). split.
  - unfold commit. rewrite Hv. unfold documents_read, read_fixed, perform, attempt. cbn [bind].
    destruct Hd as [[Hdev Hlib] _ _].
    apply (stops_later _ _ _ true). cbn [effect negb fst snd]. rewrite Hdev. cbn [map_err bind].
    apply (stops_later _ _ _ true). cbn [effect negb fst snd]. rewrite Hlib. cbn [map_err bind].
    replace (MkDocuments (device_text old) (library_text old)) with old by by destruct old.
    rewrite bool_decide_eq_true_2 by done. cbn [negb]. cbv zeta. cbn [ownership repair].
    assert (Hsame : bool_decide (old = new) && bool_decide (default (ownership private) (next_ownership private) =
      ownership private) = false).
    { rewrite andb_false_iff, !bool_decide_eq_false. exact Hne. }
    rewrite Hsame. unfold private_write, write_json_atomically, perform, attempt. cbn [bind ownership].
    apply (stops_later _ _ _ true). cbn [effect negb fst snd map_err bind]. rewrite Hc. cbn [bind].
    apply (stops_later _ _ _ false). cbn [effect negb fst snd]. rewrite bool_decide_eq_false_2 by done. cbn [bind].
    apply (stops_later _ _ _ true). cbn [effect negb fst snd map_err bind].
    apply (stops_later _ _ _ true). cbn [effect negb fst snd map_err bind]. apply stops_here.
  - destruct Hd as [H1 H2 H3]. split.
    + apply docs_on_insert_ne; [apply not_document_own|done].
    + by apply json_on_insert.
    + by apply json_on_insert_ne.
Qed.
End crash_safety.

(** *** Replacing a document *)

(** Each rename over a document comes right after a read of that document, whose
    content had the revision of the one the journal expects. *)
Fixpoint guarded {A} (old : Documents) (last : option (FixedFile * string)) (p : program A) : Prop :=
  match p with
  | Ret _ => True
  | Do op k =>
      (forall f c, op = Rename f c -> f ∈ document_files ->
         exists content, last = Some (f, content) /\ revision content = revision (text_of old f)) /\
      forall r, guarded old (match op, r with Read f, Ok content => Some (f, content) | _, _ => None end) (k r)
  end.

Lemma guarded_bind {A B} old last (p : program A) (f : A -> program B) :
  guarded old last p -> (forall a last, guarded old last (f a)) -> guarded old last (bind p f).
Proof.
  intros Hp Hf. revert last Hp. induction p as [a|op k IH]; intros last; simpl; [intros _; apply Hf|].
  intros [Hg Hk]. split; [done|]. intros r. apply IH, Hk.
Qed.

Lemma guarded_attempt {E A B} old last (p : program (result E A)) (f : A -> program (result E B)) :
  guarded old last p -> (forall a last, guarded old last (f a)) -> guarded old last (attempt p f).
Proof. intros Hp Hf. apply guarded_bind; [done|]. intros [a|e] l; [apply Hf|done]. Qed.

Lemma guarded_perform {E} old last (e : string -> E) op :
  (forall f c, op = Rename f c -> f ∉ document_files) -> guarded old last (perform e op).
Proof. intros Hop. split; [|done]. intros f c -> Hf. by destruct (Hop f c eq_refl). Qed.

Lemma guarded_documents_read old last : guarded old last documents_read.
Proof.
  apply guarded_attempt; [by apply guarded_perform|]. intros d l. apply guarded_attempt; [by apply guarded_perform|done].
Qed.

Lemma guarded_write_json old last f e : f ∉ document_files -> guarded old last (write_json_atomically f e).
Proof.
  intros Hf. apply guarded_attempt; [by apply guarded_perform|]. intros _ l. destruct e as [c|e]; [|done].
  split; [done|]. intros r. case_bool_decide; [done|].
  apply guarded_attempt; [by apply guarded_perform|]. intros _ l1.
  apply guarded_attempt; [apply guarded_perform; by intros g x [= <- _]|]. intros _ l2.
  apply guarded_attempt; [by apply guarded_perform|done].
Qed.

Lemma guarded_private_write old last p : guarded old last (private_write p).
Proof.
  apply guarded_attempt; [apply guarded_write_json, not_document_own|].
  intros _ l. apply guarded_write_json, not_document_rep.
Qed.

Lemma guarded_write_atomically old last f c : guarded old last (write_atomically f c (revision (text_of old f))).
Proof.
  apply guarded_attempt; [by apply guarded_perform|]. intros _ l. split; [done|]. intros [content|e]; [|done].
  cbn [map_err bind]. destruct (bool_decide_reflect (revision content = revision (text_of old f))) as [Hrev|]; [|done].
  cbn [negb]. split; [|intros [x|e]; [|done]; by apply guarded_attempt; [by apply guarded_perform|]].
  intros g x [= <- _] _. by exists content.
Qed.

Lemma guarded_replace_files old new now files last : guarded old last (replace_files old new now files).
Proof.
  revert last. induction files as [|f files IH]; intros last; [done|]. cbn [replace_files]. case_bool_decide; [apply IH|].
  apply guarded_attempt; [apply guarded_write_atomically|]. intros _ l. apply IH.
Qed.

(** Recovery replaces a document only right after it looked at it and saw the
    revision the journal expects, whatever happens to the files between any two
    of its operations. *)
Theorem replacement_is_checked private p :
  pending_write (repair private) = Some p -> guarded (expected p) None (recover private).
Proof.
  intros Hp. unfold recover. rewrite Hp. apply guarded_attempt; [apply guarded_documents_read|]. intros current l.
  destruct (existsb _ _); [done|]. destruct (validate _); [|done].
  apply guarded_attempt; [apply guarded_replace_files|]. intros _ l1.
  apply guarded_attempt; [apply guarded_documents_read|]. intros again l2. destruct (negb _); [done|].
  apply guarded_attempt; [apply guarded_private_write|done].
Qed.

(** ** The operations of the coordinator *)

Context `{Y : !Yaml}.

(** *** Documents from a configuration *)

Definition parse_mapping (content : string) : outcome Mapping :=
  match parse_document content with
  | Err e => Err (candidate_error e)
  | Ok DocNull => Ok mapping_empty
  | Ok (DocMapping m) => Ok m
  | Ok DocOther => fail (Invalid "YAML document must contain a record")
  end.

Definition serialize_mapping (m : Mapping) : outcome string := map_err candidate_error (mapping_string m).

(** Only the sections that changed. *)
Definition patch (old new document : Mapping) (key : string) : Mapping :=
  if value_eqb (mapping_get key old) (mapping_get key new) then document
  else match mapping_get key new with
       | Some value => mapping_insert key value document
       | None => mapping_remove key document
       end.

Definition with_snapshot (docs : Documents) (before after : ConfigSnapshot) : outcome Documents :=
  original ← parse_mapping (device_text docs);
  let old := device_value before in
  let new := device_value after in
  let patched := foldl (patch old new) original (mapping_keys old ++ mapping_keys new) in
  device ← (if mapping_eqb original patched then Ok (device_text docs) else serialize_mapping patched);
  library ← (if bool_decide (library before = library after) then Ok (library_text docs)
             else
               document ← parse_mapping (library_text docs);
               value ← map_err candidate_error (library_value (library after));
               serialize_mapping (mapping_insert "library" value document));
  Ok (MkDocuments device library).

Definition expect {A} (r : result string A) : outcome A := map_err (fun _ => Panicked) r.

Definition apply_change (current : ConfigSnapshot) (change : Reconciled) : outcome ConfigSnapshot :=
  device ← match device_yaml change with Some s => Ok s | None => expect (mapping_string (device_value current)) end;
  library ← match library_yaml change with Some s => Ok s | None => expect (library_string (library current)) end;
  map_err candidate_error (decode_config_documents device library).

(** *** One transaction *)

(** What every mutation does first: the fixed files exist, an earlier publication
    is finished, and the documents are read. *)
Definition opening : program (outcome (bool * PrivateState * Documents * ConfigSnapshot)) :=
  step! _ <- ensure_fixed_files ;;
  step! private <- private_read ;;
  step! recovered <- recover private ;;
  step! current <- documents_read ;;
  match validate current with
  | Err e => Ret (Err e)
  | Ok snapshot => Ret (Ok (recovered.1, recovered.2, current, snapshot))
  end.

Definition published : program (outcome ConfigSnapshot) :=
  step! docs <- documents_read ;; Ret (validate docs).

(** *** Publishing a scan *)

Definition with_history (report : ScanReport) (own : OwnershipJournal) : ScanReport :=
  MkReport (provider_scans report) (own_storages own ∪ report_created report) (declared_games report)
    (accounts report) (unpaired report) (own_origins own) (own_paths own) (scanned report) (skipped report)
    (declared_files report).

Definition change_ownership (c : CatalogChange) : OwnershipJournal :=
  MkOwnership (created_storages c) (origins c) (paths c).

Definition ok_or_panic {A} (o : option A) : outcome A := match o with Some a => Ok a | None => Err Panicked end.

(** The documents after a scan, and what discovery owns then. *)
Definition scan_candidate (report : ScanReport) (now : string) (current : Documents) (snapshot : ConfigSnapshot)
    (own : OwnershipJournal) : outcome (Documents * OwnershipJournal * nat) :=
  change ← ok_or_panic (reconcile (with_history report own) snapshot now);
  after ← apply_change snapshot change;
  new ← with_snapshot current snapshot after;
  Ok (new, change_ownership (outcome_change change), added_games change).

Definition set_next (own : OwnershipJournal) (p : PrivateState) : PrivateState :=
  MkPrivate (ownership p) (repair p) (Some own).

(** How many games the scan added, and whether it finished an earlier publication. *)
Definition discovery_run (report : ScanReport) (now : string) : program (outcome (nat * bool)) :=
  step! opened <- opening ;;
  let '(repaired, private, current, snapshot) := opened in
  match scan_candidate report now current snapshot (ownership private) with
  | Err e => Ret (Err e)
  | Ok (new, own, added) =>
      step! _ <- commit current new (set_next own private) ;;
      Ret (Ok (added, repaired))
  end.

(** *** Recording content that was acquired or copied *)

Definition holds (key : string) (g : LibraryItem) : bool :=
  existsb (fun r => bool_decide (identity_value <$> rel_identity r = Some key)) (releases g).

Definition game_for (n : ConfigSnapshot) (title key : string) (link_id : option string)
    : option (ConfigSnapshot * string) :=
  match first_some (fun '(id, g) => if holds key g then Some id else None) (btree_entries (library n)) with
  | Some id => Some (n, id)
  | None =>
      match (link_id ← link_id; link ← provider_links n !! link_id;
             if is_some (library n !! playable link) then Some (playable link) else None) with
      | Some id => Some (n, id)
      | None =>
          id ← unique_id (slug title) (keys_of (library n));
          Some (with_library (<[id := new_item title []]> (library n)) n, id)
      end
  end.

Definition ensure_content (n : ConfigSnapshot) (game_id system : string) (identity : ContentIdentity)
    : option ConfigSnapshot :=
  if map_any (holds (content_value identity)) (library n) then Some n
  else
    g ← library n !! game_id;
    id ← unique_id system (release_ids g);
    let r := MkRelease _ id (Some system) (Some (library_identity identity)) None place_default in
    Some (with_library (<[game_id := with_releases (releases g ++ [r]) g]> (library n)) n).

Definition record_snapshot (before : ConfigSnapshot) (title system : string) (identity : ContentIdentity)
    (provider : option (string * string)) : option (ConfigSnapshot * string) :=
  let link_id := (fun p : string * string => p.1 +:+ "/" +:+ p.2) <$> provider in
  '(n, game_id) ← game_for before title (content_value identity) link_id;
  n ← ensure_content n game_id system identity;
  match provider with
  | None => Some (n, game_id)
  | Some (name, claim_id) =>
      let link := MkLink name game_id None [MkRef ProviderItemId claim_id None None] in
      Some (with_links (<[name +:+ "/" +:+ claim_id := link]> (provider_links n)) n, game_id)
  end.

#[export] Instance ProviderLinkRefKind_eq_dec : EqDecision ProviderLinkRefKind.
Proof. solve_decision. Defined.
#[export] Instance ProviderLinkRef_eq_dec : EqDecision ProviderLinkRef.
Proof. solve_decision. Defined.
#[export] Instance ProviderLink_eq_dec : EqDecision ProviderLink.
Proof. solve_decision. Defined.

(** Nothing else of the configuration can differ. *)
Definition recorded_same (a b : ConfigSnapshot) : bool :=
  bool_decide (library a = library b) && bool_decide (provider_links a = provider_links b).

Definition record_content (title system : string) (identity : ContentIdentity) (provider : option (string * string))
    : program (outcome string) :=
  step! opened <- opening ;;
  let '(_, private, current, before) := opened in
  match record_snapshot before title system identity provider with
  | None => Ret (Err Panicked)
  | Some (after, game_id) =>
      if recorded_same after before then Ret (Ok game_id)
      else
        match with_snapshot current before after with
        | Err e => Ret (Err e)
        | Ok new => step! _ <- commit current new private ;; Ret (Ok game_id)
        end
  end.

(** *** Carrying titles over *)

Definition with_title (title : string) (g : LibraryItem) : LibraryItem :=
  MkItem _ (item_place g) (item_profiles g) (item_profile g) (Some title) (version_of g) (item_relation g)
    (item_contains g) (item_display g) (item_metadata g) (releases g).

Definition carry_title (acc : outcome ConfigSnapshot) (entry : string * string) : outcome ConfigSnapshot :=
  n ← acc;
  match library n !! entry.1 with
  | None => fail (Candidate "migration game is unavailable")
  | Some g => Ok (with_library (<[entry.1 := with_title entry.2 g]> (library n)) n)
  end.

Definition carry_titles (titles : gmap string string) : program (outcome unit) :=
  step! private <- private_read ;;
  step! recovered <- recover private ;;
  step! current <- documents_read ;;
  match (before ← validate current;
         after ← foldl carry_title (Ok before) (btree_entries titles);
         with_snapshot current before after) with
  | Err e => Ret (Err e)
  | Ok new => step! _ <- commit current new recovered.2 ;; Ret (Ok ())
  end.

(** ** What the operations promise *)

Lemma holds_spec key g : holds key g = true <-> holds_value g key.
Proof.
  unfold holds, holds_value. rewrite existsb_spec. split; intros (r & Hr & Hv); exists r; (split; [done|]).
  - by apply bool_decide_eq_true in Hv.
  - by apply bool_decide_eq_true.
Qed.

Lemma any_holds n key : map_any (holds key) (library n) = true <-> held n key.
Proof.
  rewrite map_any_true. unfold held. split; intros (id & g & Hg & Hh); exists id, g; (split; [done|]); by apply holds_spec.
Qed.

(** The game that gets the content: it holds it, or no game does. *)
Lemma game_for_spec n title key link_id :
  exists n' id, game_for n title key link_id = Some (n', id) /\
    (exists g, library n' !! id = Some g /\ (held n key -> holds_value g key)) /\
    provider_links n' = provider_links n /\ library n ⊆ library n' /\ (held n' key -> held n key).
Proof.
  unfold game_for. destruct (first_some _ (btree_entries (library n))) as [id|] eqn:Hf.
  - exists n, id. split; [done|]. apply first_some_Some in Hf as ([id' g] & Hin & Hx).
    destruct (holds key g) eqn:Hh; [|done]. injection Hx as <-. apply elem_of_btree_entries in Hin.
    split; [|done]. exists g. split; [done|]. intros _. by apply holds_spec.
  - assert (Hnone : ~ held n key).
    { intros (id & g & Hg & Hv%holds_spec). unfold first_some in Hf. apply head_None in Hf.
      assert (Hin : id ∈ filter_map (fun '(id, g) => if holds key g then Some id else None) (btree_entries (library n))).
      { apply elem_of_filter_map. exists (id, g). rewrite elem_of_btree_entries, Hv. done. }
      rewrite Hf in Hin. by apply elem_of_nil in Hin. }
    destruct (_ ← link_id; _) as [id|] eqn:Hl.
    + exists n, id. split; [done|]. apply bind_Some in Hl as (k & -> & (l & _ & Hif)%bind_Some).
      unfold is_some in Hif. destruct (library n !! playable l) as [g|] eqn:Hg; [|done]. injection Hif as <-.
      split; [|done]. by exists g.
    + destruct (unique_id_free (slug title) (keys_of (library n))) as (id & -> & Hfree%keys_of_lookup). simpl.
      eexists _, id. split; [done|]. split; [|split; [done|split; [by apply insert_subseteq|]]].
      * exists (new_item title []). simpl. rewrite lookup_insert_eq. split; [done|]. by intros ?%Hnone.
      * intros (id' & g & Hg & Hv). simpl in Hg. destruct (decide (id' = id)) as [->|Hne].
        -- rewrite lookup_insert_eq in Hg. injection Hg as <-. destruct Hv as (r & Hr & _). by apply elem_of_nil in Hr.
        -- rewrite lookup_insert_ne in Hg by done. by exists id', g.
Qed.

Lemma ensure_content_spec n id system identity :
  (exists g, library n !! id = Some g /\ (held n (content_value identity) -> holds_value g (content_value identity))) ->
  exists n' g, ensure_content n id system identity = Some n' /\ library n' !! id = Some g /\
    holds_value g (content_value identity) /\ provider_links n' = provider_links n /\
    (forall i, held n i -> held n' i) /\ (forall k, is_Some (library n !! k) -> is_Some (library n' !! k)).
Proof.
  intros (g & Hg & Hh). unfold ensure_content. set (key := content_value identity) in *.
  destruct (map_any (holds key) (library n)) eqn:Hany.
  - exists n, g. split; [done|]. split; [done|]. split; [by apply Hh, any_holds|]. done.
  - rewrite Hg. simpl. destruct (unique_id_free system (release_ids g)) as (rid & -> & _). simpl.
    set (r := MkRelease _ rid _ _ _ _). set (g' := with_releases (releases g ++ [r]) g).
    eexists _, g'. split; [done|]. split; [simpl; by rewrite lookup_insert_eq|]. split; [|split; [done|split]].
    + exists r. simpl. rewrite elem_of_app, list_elem_of_singleton. split; [by right|]. unfold key. by destruct identity.
    + apply held_set_game. intros g1 Hg1 i. replace g1 with g by congruence. by apply (holds_value_app g g' [r]).
    + intros k Hk. simpl. destruct (decide (k = id)) as [->|]; [by rewrite lookup_insert_eq|by rewrite lookup_insert_ne].
Qed.

(** Recording content never panics. Afterwards the game it returns is in the
    library and holds the content, the provider's link names that game, every
    content held before is still held, and no link dangles. *)
Theorem record_spec before title system identity provider :
  links_resolve before ->
  exists after id g, record_snapshot before title system identity provider = Some (after, id) /\
    library after !! id = Some g /\ holds_value g (content_value identity) /\
    (forall i, held before i -> held after i) /\ links_resolve after /\
    forall name claim, provider = Some (name, claim) ->
      playable <$> provider_links after !! (name +:+ "/" +:+ claim) = Some id.
Proof.
  intros Hl. unfold record_snapshot.
  destruct (game_for_spec before title (content_value identity) ((fun p : string * string => p.1 +:+ "/" +:+ p.2) <$> provider))
    as (n & id & -> & (g0 & Hg0 & Hh0) & Hln & Hsub & Hheld). simpl.
  destruct (ensure_content_spec n id system identity) as (n' & g & -> & Hg & Hv & Hln' & Hkeep & Hdom).
  { exists g0. split; [done|]. intros Hh. by apply Hh0, Hheld. }
  assert (Hall : forall i, held before i -> held n' i).
  { intros i (x & gx & Hx & Hvx). apply Hkeep. exists x, gx. split; [by eapply lookup_weaken|done]. }
  assert (Hres : links_resolve n').
  { intros k l. rewrite Hln', Hln. intros Hk. destruct (Hl k l Hk) as [x Hx].
    apply Hdom. exists x. by eapply lookup_weaken. }
  simpl. destruct provider as [[name claim]|].
  - eexists _, id, g. split; [done|]. split; [done|]. split; [done|]. split; [exact Hall|]. split.
    + intros k l. simpl. destruct (decide (k = name +:+ "/" +:+ claim)) as [->|Hne].
      * rewrite lookup_insert_eq. intros [= <-]. by exists g.
      * rewrite lookup_insert_ne by done. apply Hres.
    + intros name' claim' [= <- <-]. simpl. by rewrite lookup_insert_eq.
  - exists n', id, g. split; [done|]. split; [done|]. split; [done|]. split; [exact Hall|]. by split.
Qed.

(** *** Transactions without faults *)

Section transactions.
Context `{CL : !CodecLaws C}.

Lemma run_ensure_fixed_file f c d : d !! f = Some c -> run (ensure_fixed_file f) d = (d, Ok ()).
Proof. intros Hf. unfold ensure_fixed_file. simpl. by rewrite Hf. Qed.

Lemma run_ensure_fixed_files docs d : docs_on d docs -> run ensure_fixed_files d = (d, Ok ()).
Proof.
  intros [Hd Hl]. unfold ensure_fixed_files. rewrite (run_attempt _ _ _ EmptyString d) by done.
  rewrite (run_attempt _ _ _ _ _ (run_ensure_fixed_file _ _ _ Hd)). by eapply run_ensure_fixed_file.
Qed.

Lemma run_opening docs own snap d :
  settled d docs own -> validate docs = Ok snap ->
  run opening d = (d, Ok (false, MkPrivate own (MkRepair None) None, docs, snap)).
Proof.
  intros [Hdocs Ho Hr] Hv. unfold opening. rewrite (run_attempt _ _ _ _ _ (run_ensure_fixed_files _ _ Hdocs)).
  rewrite (run_attempt _ _ _ _ _ (run_private_read _ _ _ Ho Hr)).
  rewrite (run_attempt _ _ _ (false, MkPrivate own (MkRepair None) None) d) by done.
  rewrite (run_attempt _ _ _ _ _ (run_documents_read _ _ Hdocs)). by rewrite Hv.
Qed.

(** Publishing a scan, on settled files and without faults: it reports the games
    the reconciliation added, and the disk then holds exactly the documents and
    the ownership the reconciliation computed, with nothing pending. *)
Theorem discovery_run_publishes report now docs own snap new own' added snap' d :
  settled d docs own -> validate docs = Ok snap ->
  scan_candidate report now docs snap own = Ok (new, own', added) -> validate new = Ok snap' ->
  exists d', run (discovery_run report now) d = (d', Ok (added, false)) /\ settled d' new own'.
Proof.
  intros Hd Hv Hc Hv'. unfold discovery_run. rewrite (run_attempt _ _ _ _ _ (run_opening _ _ _ _ Hd Hv)).
  cbn [ownership]. rewrite Hc. set (private := set_next own' _).
  destruct (run_commit docs new private snap' d) as (d' & p & Hrun); [done|done|done|].
  exists d'. rewrite (run_attempt _ _ _ _ _ Hrun). split; [done|].
  pose proof (run_ends (effect:=effect) (usual:=fine) (commit docs new private) d) as He. rewrite Hrun in He. cbn [fst snd] in He.
  pose proof (wp_ends _ _ _ _ _ _ He (wp_commit docs new own own own' private d eq_refl eq_refl eq_refl Hd)) as Hq.
  destruct Hq as [[Hx|[Heq Hx]] _]; [exact Hx|by rewrite Heq].
Qed.
End transactions.

End documents.

(** ** Codecs that read back what they write *)

#[export] Instance PathRecord_countable : Countable PathRecord.
Proof.
  by refine (inj_countable' (fun r => (path_identity r, path_files r)) (fun p => MkPath p.1 p.2) _); intros [].
Defined.
#[export] Instance Documents_countable : Countable Documents.
Proof.
  by refine (inj_countable' (fun d => (device_text d, library_text d)) (fun p => MkDocuments p.1 p.2) _); intros [].
Defined.
#[export] Instance OwnershipJournal_countable : Countable OwnershipJournal.
Proof.
  by refine (inj_countable' (fun o => (own_storages o, own_origins o, own_paths o))
    (fun p => MkOwnership p.1.1 p.1.2 p.2) _); intros [].
Defined.
#[export] Instance PendingWrite_eq_dec : EqDecision PendingWrite.
Proof. solve_decision. Defined.
#[export] Instance PendingWrite_countable : Countable PendingWrite.
Proof.
  by refine (inj_countable' (fun w => (expected w, candidate w, pending_ownership w))
    (fun p => MkPending p.1.1 p.1.2 p.2) _); intros [].
Defined.
#[export] Instance RepairJournal_eq_dec : EqDecision RepairJournal.
Proof. solve_decision. Defined.
#[export] Instance RepairJournal_countable : Countable RepairJournal.
Proof. by refine (inj_countable' pending_write MkRepair _); intros []. Defined.

#[local] Existing Instance demo_config.
#[local] Existing Instance demo_yaml.

(** Every document decodes to the small library. *)
Definition demo_codecs : Codecs := {|
  encode_ownership := code; decode_ownership := decoded; encode_repair := code; decode_repair := decoded;
  revision := fun s => s; decode_config_documents := fun _ _ => Ok demo_current |}.
#[local] Existing Instance demo_codecs.

#[local] Instance demo_codec_laws : CodecLaws demo_codecs.
Proof. split; intros x; apply decoded_code. Qed.

Definition demo_old : Documents := MkDocuments "device" "library".
Definition demo_new : Documents := MkDocuments "device 2" "library 2".
Definition demo_own : OwnershipJournal := MkOwnership {["nes"]} ∅ ∅.
Definition demo_disk : disk := {[DeviceFile := "device"; LibraryFile := "library"]}.
Definition demo_private : PrivateState := MkPrivate no_ownership (MkRepair None) (Some demo_own).

Lemma demo_settled : settled demo_disk demo_old no_ownership.
Proof. repeat split. Qed.

(** Stopped after the journal and the first document were written. *)
Lemma commit_crash_atomic_witness :
  exists d3 again p,
    run restart (run_until 18 (commit demo_old demo_new demo_private) demo_disk) = (d3, Ok (again, p)) /\
    (settled d3 demo_old no_ownership \/ settled d3 demo_new demo_own).
Proof.
  destruct (commit_crash_atomic demo_old demo_new demo_private no_ownership demo_own demo_current demo_disk
    (run_until 18 (commit demo_old demo_new demo_private) demo_disk)
    (run_until 18 (commit demo_old demo_new demo_private) demo_disk)
    demo_settled eq_refl eq_refl eq_refl (run_until_stops _ _ _) (rtc_refl _ _)) as (d3 & again & p & Hr & _ & Hd).
  exists d3, again, p. split; [exact Hr|].
  destruct Hd as [[Hd Hp]|[Hd _]]; [left; destruct Hp as [Hp|Hp]; rewrite Hp in Hd|right]; exact Hd.
Defined.

Lemma commit_publishes_witness :
  exists d' p, run (commit demo_old demo_new demo_private) demo_disk = (d', Ok p) /\ settled d' demo_new demo_own.
Proof.
  destruct (commit_publishes demo_old demo_new demo_private demo_own demo_disk demo_settled eq_refl eq_refl) as [He Hr].
  destruct (Hr demo_current eq_refl) as (d' & p & Hrun). exists d', p. split; [exact Hrun|].
  apply (He d' p). pose proof (run_ends (effect:=effect) (usual:=fine) (commit demo_old demo_new demo_private) demo_disk) as Hends.
  rewrite Hrun in Hends. exact Hends.
Defined.

Definition demo_pending : PrivateState :=
  MkPrivate no_ownership (MkRepair (Some (MkPending demo_old demo_new demo_own))) None.

Definition edited_disk : disk := {[DeviceFile := "edited"; LibraryFile := "library"]}.

Lemma foreign_edit_survives_witness :
  (run (recover demo_pending) edited_disk).1 = edited_disk /\ is_err (run (recover demo_pending) edited_disk).2 = true.
Proof.
  apply (foreign_edit_survives demo_pending (MkPending demo_old demo_new demo_own) edited_disk _ _
    (MkDocuments "edited" "library") DeviceFile).
  - reflexivity.
  - split; reflexivity.
  - right. left.
  - discriminate.
  - discriminate.
  - apply run_ends.
Defined.

Lemma ownership_written_early_witness :
  exists d', stops (commit demo_old demo_new (MkPrivate demo_own (MkRepair None) None)) demo_disk d' /\
    settled d' demo_old demo_own.
Proof.
  apply (ownership_written_early demo_old demo_new (MkPrivate demo_own (MkRepair None) None) no_ownership demo_disk
    demo_current demo_settled eq_refl). left. discriminate.
Defined.

Lemma replacement_is_checked_witness : guarded demo_old None (recover demo_pending).
Proof. apply (replacement_is_checked demo_pending (MkPending demo_old demo_new demo_own)). reflexivity. Defined.

Lemma record_spec_witness :
  exists after id g, record_snapshot demo_current "New Game" "nes" (Chd "sha1:dd") (Some ("acquire", "7")) = Some (after, id) /\
    library after !! id = Some g /\ holds_value g "sha1:dd".
Proof.
  destruct (record_spec demo_current "New Game" "nes" (Chd "sha1:dd") (Some ("acquire", "7")))
    as (after & id & g & Hr & Hg & Hv & _).
  - intros k l Hk. change ((∅ : gmap string ProviderLink) !! k = Some l) in Hk. by rewrite lookup_empty in Hk.
  - exists after, id, g. split; [exact Hr|]. split; [exact Hg|exact Hv].
Defined.

Lemma discovery_run_publishes_witness :
  exists d' new own' added,
    run (discovery_run demo_report "2026") demo_disk = (d', Ok (added, false)) /\ settled d' new own'.
Proof.
  destruct (scan_candidate demo_report "2026" demo_old demo_current no_ownership) as [[[new own'] added]|e] eqn:Hc.
  - destruct (discovery_run_publishes demo_report "2026" demo_old no_ownership demo_current new own' added demo_current
      demo_disk demo_settled eq_refl Hc eq_refl) as (d' & Hrun & Hd).
    exists d', new, own', added. split; [exact Hrun|exact Hd].
  - exfalso. assert (Hok : is_ok (scan_candidate demo_report "2026" demo_old demo_current no_ownership) = true)
      by (vm_compute; reflexivity). rewrite Hc in Hok. discriminate Hok.
Defined.
