(* ===== verification/Floats.v ===== *)
(** * Whole numbers in binary64

    A whole number below 2^53 is held exactly: the conversion [f64_of_Z] of
    [Hold] shifts it to 53 digits and rounds nothing. *)

From Stdlib Require Import SpecFloat.
From S2P Require Import Prelude Hold.

Lemma digits2_bounds p : 2 ^ (Z.pos (digits2_pos p) - 1) <= Z.pos p < 2 ^ Z.pos (digits2_pos p).
Proof.
  induction p as [p IH|p IH|]; cbn [digits2_pos]; [| |done]; rewrite Pos2Z.inj_succ;
    replace (Z.succ (Z.pos (digits2_pos p)) - 1) with (Z.succ (Z.pos (digits2_pos p) - 1)) by lia;
    rewrite !Z.pow_succ_r by lia; lia.
Qed.

Lemma digits2_unique p d : 0 < d -> 2 ^ (d - 1) <= Z.pos p < 2 ^ d -> Z.pos (digits2_pos p) = d.
Proof.
  intros Hd Hp. pose proof (digits2_bounds p) as Hb.
  assert (Z.pos (digits2_pos p) - 1 < d).
  { apply (Z.pow_lt_mono_r_iff 2); lia. }
  assert (d - 1 < Z.pos (digits2_pos p)).
  { apply (Z.pow_lt_mono_r_iff 2); lia. }
  lia.
Qed.

Lemma shifted p d : Z.pos (Pos.iter xO p d) = Z.pos p * 2 ^ Z.pos d.
Proof.
  induction d as [|d IH] using Pos.peano_ind; [simpl; lia|]. rewrite Pos.iter_succ, Pos2Z.inj_succ, Z.pow_succ_r by lia.
  rewrite Pos2Z.inj_xO, IH. lia.
Qed.

(** A number of exactly 53 digits is not rounded. *)
Lemma round_exact m e : Z.pos (digits2_pos m) = 53 -> -1074 <= e <= 971 ->
  binary_round_aux 53 1024 false (Z.pos m) e loc_Exact = S754_finite false m e.
Proof.
  intros Hm He. unfold binary_round_aux, shr_fexp, Zdigits2. rewrite Hm.
  replace (fexp 53 1024 (53 + e) - e) with 0 by (unfold fexp, emin; lia).
  cbn [shr shr_record_of_loc shr_m loc_of_shr_record shr_r shr_s round_nearest_even]. rewrite Hm.
  replace (fexp 53 1024 (53 + e) - e) with 0 by (unfold fexp, emin; lia). cbn [shr shr_m shr_record_of_loc].
  by rewrite (proj2 (Z.leb_le e _)) by lia.
Qed.

Lemma f64_of_small p : Z.pos p < 2 ^ 53 ->
  exists m e, f64_of_Z (Z.pos p) = S754_finite false m e /\ -52 <= e <= 0 /\ Z.pos m = Z.pos p * 2 ^ (- e).
Proof.
  intros Hp. pose proof (digits2_bounds p) as Hb. set (d := Z.pos (digits2_pos p)) in *.
  assert (Hd : 1 <= d) by lia.
  assert (Hd53 : d <= 53).
  { assert (d - 1 < 53); [|lia]. apply (Z.pow_lt_mono_r_iff 2); lia. }
  unfold f64_of_Z. cbn [binary_normalize]. unfold binary_round, shl_align. fold d.
  replace (fexp 53 1024 (d + 0) - 0) with (d - 53) by (unfold fexp, emin; lia).
  replace (fexp 53 1024 (d + 0)) with (d - 53) by (unfold fexp, emin; lia).
  destruct (Z.eq_dec d 53) as [H53|H53].
  - rewrite H53. change (53 - 53) with 0. cbv iota beta.
    rewrite (round_exact p 0) by lia. exists p, 0. repeat split; simpl; lia.
  - assert (exists k, d - 53 = Z.neg k) as [k Hk] by (exists (Z.to_pos (53 - d)); lia). rewrite Hk.
    rewrite round_exact; [|apply digits2_unique; [lia|]|lia].
    + exists (Pos.iter xO p k), (Z.neg k). split; [done|]. split; [lia|]. by rewrite shifted.
    + rewrite shifted. replace (Z.pos k) with (53 - d) by lia.
      replace (53 - 1) with ((d - 1) + (53 - d)) by lia. replace (2 ^ 53) with (2 ^ (d + (53 - d))) by (f_equal; lia).
      rewrite !Z.pow_add_r by lia. assert (0 < 2 ^ (53 - d)) by (apply Z.pow_pos_nonneg; lia). nia.
Qed.

(** ** Rounded numbers *)

Lemma shr_1_half x : 0 <= shr_m x -> shr_m (shr_1 x) = shr_m x / 2.
Proof.
  destruct x as [m r s]. unfold shr_1. cbn [shr_m]. rewrite <- Z.div2_div. by destruct m as [|[p|p|]|p].
Qed.

Lemma shr_iter n x : 0 <= shr_m x -> shr_m (SpecFloat.iter_pos shr_1 n x) = shr_m x / 2 ^ Z.pos n.
Proof.
  revert x. induction n as [n IH|n IH|]; intros x Hx; cbn [SpecFloat.iter_pos].
  - assert (H1 : 0 <= shr_m (shr_1 x)) by (rewrite shr_1_half by done; apply Z_div_nonneg_nonneg; lia).
    assert (H2 : 0 <= shr_m (SpecFloat.iter_pos shr_1 n (shr_1 x))) by (rewrite IH by done; apply Z_div_nonneg_nonneg; lia).
    rewrite IH, IH, shr_1_half, !Z.div_div by lia. f_equal.
    replace (Z.pos n~1) with (Z.pos n + Z.pos n + 1) by lia. rewrite !Z.pow_add_r by lia. lia.
  - assert (H2 : 0 <= shr_m (SpecFloat.iter_pos shr_1 n x)) by (rewrite IH by done; apply Z_div_nonneg_nonneg; lia).
    rewrite IH, IH, !Z.div_div by lia. f_equal. replace (Z.pos n~0) with (Z.pos n + Z.pos n) by lia. by rewrite Z.pow_add_r by lia.
  - rewrite shr_1_half by done. done.
Qed.

(** A mantissa shifted down to the precision: still there, and not too long. *)
Lemma shr_fexp_some m e l x e' :
  0 < m < 2 ^ 64 -> 0 <= e <= 64 -> shr_fexp 53 1024 m e l = (x, e') ->
  0 < shr_m x < 2 ^ 53 /\ 0 <= e' <= e + 11.
Proof.
  intros Hm He. unfold shr_fexp. destruct m as [|p|p]; [lia| |lia]. cbn [Zdigits2].
  pose proof (digits2_bounds p) as Hb. set (d := Z.pos (digits2_pos p)) in *. assert (1 <= d) by lia.
  assert (Hd : d <= 64). { assert (d - 1 < 64); [|lia]. apply (Z.pow_lt_mono_r_iff 2); lia. }
  assert (Hr : shr_m (shr_record_of_loc (Z.pos p) l) = Z.pos p) by by destruct l as [|[]].
  replace (fexp 53 1024 (d + e) - e) with (Z.max (d - 53) (-1074 - e)) by (unfold fexp, emin; lia).
  rewrite Z.max_l by lia. destruct (d - 53) as [|n|n] eqn:Hn; cbn [shr]; intros [= <- <-]; rewrite ?Hr.
  - split; [|lia]. split; [lia|]. replace 53 with d by lia. lia.
  - rewrite shr_iter, Hr by (rewrite Hr; lia). rewrite <- Hn. split; [|lia]. split.
    + apply Z.div_str_pos. split; [apply Z.pow_pos_nonneg; lia|]. etrans; [|apply Hb]. apply Z.pow_le_mono_r; lia.
    + apply Z.div_lt_upper_bound; [apply Z.pow_pos_nonneg; lia|]. rewrite <- Z.pow_add_r by lia.
      replace (d - 53 + 53) with d by lia. apply Hb.
  - split; [|lia]. split; [lia|]. etrans; [apply Hb|]. apply Z.pow_lt_mono_r; lia.
Qed.

(** Whole numbers below 2^63 convert to positive numbers. *)
Lemma f64_of_whole p : Z.pos p < 2 ^ 63 -> exists m e, f64_of_Z (Z.pos p) = S754_finite false m e.
Proof.
  intros Hp. destruct (Z.lt_ge_cases (Z.pos p) (2 ^ 53)) as [Hs|Hl].
  { destruct (f64_of_small p Hs) as (m & e & Hm & _). by exists m, e. }
  pose proof (digits2_bounds p) as Hb. unfold f64_of_Z. cbn [binary_normalize]. unfold binary_round, shl_align.
  set (d := Z.pos (digits2_pos p)) in *.
  assert (Hd : 53 < d). { apply (Z.pow_lt_mono_r_iff 2); lia. }
  replace (fexp 53 1024 (d + 0) - 0) with (d - 53) by (unfold fexp, emin; lia).
  destruct (d - 53) as [|n|n] eqn:Hn; [lia| |lia]. unfold binary_round_aux.
  destruct (shr_fexp 53 1024 (Z.pos p) 0 loc_Exact) as [x e1] eqn:H1.
  apply shr_fexp_some in H1 as [Hx He1]; [|lia|lia].
  assert (Hround : shr_m x <= round_nearest_even (shr_m x) (loc_of_shr_record x) <= shr_m x + 1).
  { unfold round_nearest_even. destruct (loc_of_shr_record x) as [|[]]; [lia| |lia|lia]. destruct (Z.even _); lia. }
  destruct (shr_fexp 53 1024 _ e1 loc_Exact) as [y e2] eqn:H2. apply shr_fexp_some in H2 as [Hy He2]; [|lia|lia].
  destruct (shr_m y) as [|m|m]; [lia| |lia]. exists m, e2. by rewrite (proj2 (Z.leb_le e2 _)) by lia.
Qed.

Definition f64_nonnegative (x : f64) : Prop :=
  match x with S754_zero _ | S754_finite false _ _ => True | _ => False end.

Lemma whole_nonnegative z : 0 <= z < 2 ^ 63 -> f64_nonnegative (f64_of_Z z).
Proof.
  intros Hz. destruct z as [|p|p]; [done| |lia]. destruct (f64_of_whole p) as (m & e & ->); [lia|]. done.
Qed.
