(* ===== verification/Files.v ===== *)
(** * Private files, faults and power losses

    What the stores of the host daemon (services/korrid) do to the file system
    below its private state root: directories, regular files with a mode, links.
    An operation may fail, before or after it took effect; a write may stop half
    way. A power loss keeps the content of files that were synced and the names
    of directories that were synced; of the rest it keeps what it likes.
    What a store asks of other components is a call of the class [Services]. *)

From S2P Require Import Prelude Text Decimal Programs.

(** ** The file system *)

(** The components below the private state root. *)
Notation path := (list string).

(** [synced]: the content was synced since it was written. *)
Inductive node : Type :=
| Directory (mode : Z)
| Regular (mode : Z) (content : string) (synced : bool)
| Symlink (target_exists : bool)
| Special.

#[export] Instance node_eq_dec : EqDecision node.
Proof. solve_decision. Defined.

Notation tree := (gmap path node).

(** The tree the running system sees, and the names a power loss is sure to keep. *)
Record disk := MkDisk { seen : tree; kept : tree }.

Definition parent (p : path) : path := take (pred (length p)) p.

Definition child_of (d p : path) : Prop := p <> [] /\ parent p = d.

#[export] Instance child_of_dec d p : Decision (child_of d p).
Proof. unfold child_of. apply _. Defined.

Definition is_directory (n : option node) : bool := match n with Some (Directory _) => true | _ => false end.

(** The name of an entry: the last component. *)
Definition names (d : path) (t : tree) : list string :=
  omap (fun kv => if bool_decide (child_of d kv.1) then last kv.1 else None) (map_to_list t).

(** ** Operations *)

(** What other components do for a store, and how they answer when all is well. *)
Class Services := {
  Call : Type;
  Answer : Call -> Type;
  usual_answer : forall c, Answer c;
  usual_random : Z;
}.

Inductive IoError : Type := NotFound | AlreadyExists | OtherError.

Definition io_text (e : IoError) : string :=
  match e with
  | NotFound => "No such file or directory (os error 2)"
  | AlreadyExists => "File exists (os error 17)"
  | OtherError => "Input/output error (os error 5)"
  end.

(** [symlink_metadata]. *)
Inductive Metadata : Type :=
| MetaDirectory (mode : Z)
| MetaFile (mode len : Z)
| MetaOther.

Definition metadata (n : node) : Metadata :=
  match n with
  | Directory mode => MetaDirectory mode
  | Regular mode content _ => MetaFile mode (str_len content)
  | Symlink _ | Special => MetaOther
  end.

Inductive Op `{Services} : Type :=
| Stat (p : path)
| Exists (p : path)
| ReadDir (p : path)
| ReadFile (p : path) (limit : Z)
| MkDir (p : path) (mode : Z)
| CreateNew (p : path) (mode : Z)
| WriteAll (p : path) (content : string)
| SyncFile (p : path)
| Rename (p q : path)
| RemoveFile (p : path)
| RemoveTree (p : path)
| SyncDir (p : path)
| Random (width : Z)
| Ask (c : Call).

Definition Reply `{Services} (op : Op) : Type :=
  match op with
  | Stat _ => result IoError Metadata
  | Exists _ => bool
  | ReadDir _ => result IoError (list string)
  | ReadFile _ _ => result IoError string
  | Random _ => Z
  | Ask c => Answer c
  | _ => result IoError unit
  end.

(** [Fails 0] has no effect; [Fails n] fails after it took effect, as far as [n]
    says where it can stop half way. *)
Inductive Way : Type := Works | Fails (progress : nat).

Definition Choice `{Services} (op : Op) : Type :=
  match op with Random _ => Z | Ask c => Answer c | _ => Way end.

Definition usual `{Services} (op : Op) : Choice op :=
  match op with Random _ => usual_random | Ask c => usual_answer c | _ => Works end.

Fixpoint prefix_of (n : nat) (s : string) : string :=
  match n, s with S n, SCons a s => SCons a (prefix_of n s) | _, _ => EmptyString end.

(** The entries below [p]. *)
Definition below (p : path) (t : tree) : list path :=
  (map_to_list (filter (fun kv => p `prefix_of` kv.1 /\ kv.1 <> p) t)).*1.

Definition remove_all (l : list path) (t : tree) : tree := foldr delete t l.

Definition on_seen (f : tree -> tree) (d : disk) : disk := MkDisk (f (seen d)) (kept d).

(** The names in [p] are kept from now on, and what was below a name that is gone, is gone. *)
Definition synced_names (p : path) (d : disk) : tree :=
  filter (fun kv => child_of p kv.1) (seen d)
  ∪ filter (fun kv => ~ child_of p kv.1 /\
      (p `prefix_of` kv.1 -> kv.1 = p \/ is_directory (seen d !! take (S (length p)) kv.1) = true)) (kept d).

(** *** What an operation does when it works *)

Definition create (p : path) (n : node) (t : tree) : result IoError tree :=
  match t !! p with
  | Some _ => Err AlreadyExists
  | None => if is_directory (t !! parent p) then Ok (<[p := n]> t) else Err NotFound
  end.

Definition on_regular (f : Z -> string -> bool -> node) (p : path) (t : tree) : result IoError tree :=
  match t !! p with
  | Some (Regular mode content synced) => Ok (<[p := f mode content synced]> t)
  | Some _ => Err OtherError
  | None => Err NotFound
  end.

(** Directories are not renamed. *)
Definition rename (p q : path) (t : tree) : result IoError tree :=
  match t !! p with
  | None => Err NotFound
  | Some (Directory _) => Err OtherError
  | Some n => if is_directory (t !! q) || negb (is_directory (t !! parent q)) then Err OtherError
              else Ok (<[q := n]> (delete p t))
  end.

Definition remove_file (p : path) (t : tree) : result IoError tree :=
  match t !! p with
  | None => Err NotFound
  | Some (Directory _) => Err OtherError
  | Some _ => Ok (delete p t)
  end.

Definition remove_tree (p : path) (t : tree) : result IoError tree :=
  match t !! p with
  | None => Err NotFound
  | Some (Directory _) => Ok (delete p (remove_all (below p t) t))
  | Some _ => Err OtherError
  end.

(** An operation that changes the tree. *)
Definition change (w : Way) (f : tree -> result IoError tree) (half : nat -> tree -> tree) (d : disk)
    : disk * result IoError unit :=
  match w, f (seen d) with
  | Works, Ok t => (on_seen (fun _ => t) d, Ok ())
  | Works, Err e => (d, Err e)
  | Fails O, _ | Fails _, Err _ => (d, Err OtherError)
  | Fails n, Ok _ => (on_seen (half n) d, Err OtherError)
  end.

Definition query {A} (w : Way) (r : result IoError A) (d : disk) : disk * result IoError A :=
  match w with Works => (d, r) | Fails _ => (d, Err OtherError) end.

Definition stat (p : path) (t : tree) : result IoError Metadata :=
  match t !! p with Some n => Ok (metadata n) | None => Err NotFound end.

(** Through a link. *)
Definition exists_at (p : path) (t : tree) : bool :=
  match t !! p with Some (Symlink target_exists) => target_exists | Some _ => true | None => false end.

Definition read_dir (p : path) (t : tree) : result IoError (list string) :=
  match t !! p with
  | Some (Directory _) => Ok (names p t)
  | Some _ => Err OtherError
  | None => Err NotFound
  end.

Definition read_file (p : path) (limit : Z) (t : tree) : result IoError string :=
  match t !! p with
  | Some (Regular _ content _) => Ok (prefix_of (Z.to_nat limit) content)
  | Some _ => Err OtherError
  | None => Err NotFound
  end.

Definition took_effect (f : tree -> result IoError tree) (_ : nat) (t : tree) : tree :=
  match f t with Ok t => t | Err _ => t end.

(** A directory that was made is kept, as the code syncs its parent at once. *)
Definition make_directory (p : path) (mode : Z) (w : Way) (d : disk) : disk * result IoError unit :=
  match w, create p (Directory mode) (seen d) with
  | Works, Ok t => (MkDisk t (<[p := Directory mode]> (kept d)), Ok ())
  | Works, Err e => (d, Err e)
  | Fails O, _ | Fails _, Err _ => (d, Err OtherError)
  | Fails _, Ok t => (MkDisk t (<[p := Directory mode]> (kept d)), Err OtherError)
  end.

Definition sync_dir (p : path) (w : Way) (d : disk) : disk * result IoError unit :=
  match w, is_directory (seen d !! p) with
  | Works, true => (MkDisk (seen d) (synced_names p d), Ok ())
  | _, _ => (d, Err OtherError)
  end.

Section effect.
Context `{Services}.

Definition effect (op : Op) : Choice op -> disk -> disk * Reply op :=
  match op with
  | Stat p => fun w d => query w (stat p (seen d)) d
  | Exists p => fun w d => (d, match w with Works => exists_at p (seen d) | Fails _ => false end)
  | ReadDir p => fun w d => query w (read_dir p (seen d)) d
  | ReadFile p limit => fun w d => query w (read_file p limit (seen d)) d
  | MkDir p mode => make_directory p mode
  | CreateNew p mode => fun w => let f := create p (Regular mode EmptyString false) in change w f (took_effect f)
  | WriteAll p c => fun w =>
      change w (on_regular (fun mode _ _ => Regular mode c false) p)
        (fun n => took_effect (on_regular (fun mode _ _ => Regular mode (prefix_of n c) false) p) n)
  | SyncFile p => fun w =>
      let f := on_regular (fun mode c _ => Regular mode c true) p in change w f (fun _ t => t)
  | Rename p q => fun w => change w (rename p q) (took_effect (rename p q))
  | RemoveFile p => fun w => change w (remove_file p) (took_effect (remove_file p))
  | RemoveTree p => fun w => change w (remove_tree p) (fun n t => remove_all (take n (below p t)) t)
  | SyncDir p => sync_dir p
  | Random width => fun c d => (d, c mod 2 ^ width)
  | Ask c => fun answer d => (d, answer)
  end.

(** What a power loss does to a file that was not synced: anything. *)
Definition settles (n n' : node) : Prop :=
  match n with Regular mode _ false => exists c, n' = Regular mode c true | _ => n' = n end.

Definition power_loss (d d' : disk) : Prop :=
  kept d' = seen d' /\
  forall p,
    match seen d' !! p with
    | Some n' => exists n, (seen d !! p = Some n \/ kept d !! p = Some n) /\ settles n n'
    | None => seen d !! p = None \/ kept d !! p = None
    end.

End effect.

(** ** Paths *)

Lemma parent_child d name : parent (d ++ [name]) = d.
Proof. unfold parent. rewrite length_app. simpl. rewrite Nat.add_1_r. simpl. by rewrite take_app_length. Qed.

Lemma child_of_app d name : child_of d (d ++ [name]).
Proof. split; [by destruct d|apply parent_child]. Qed.

Lemma child_of_inv d p : child_of d p -> exists name, p = d ++ [name].
Proof.
  intros [Hne Hp]. destruct p as [|x p _] using rev_ind; [done|]. rewrite parent_child in Hp. subst. by exists x.
Qed.

Lemma not_child_length d p : length p <> S (length d) -> ~ child_of d p.
Proof. intros Hl (name & ->)%child_of_inv. rewrite length_app in Hl. simpl in Hl. lia. Qed.

Lemma elem_of_names d t name : name ∈ names d t <-> is_Some (t !! (d ++ [name])).
Proof.
  unfold names. rewrite list_elem_of_omap. split.
  - intros ([p n] & Hin%elem_of_map_to_list & Hl). simpl in Hl. case_bool_decide as Hc; [|done].
    apply child_of_inv in Hc as [x ->]. rewrite last_snoc in Hl. simplify_eq. by exists n.
  - intros [n Hn]. exists (d ++ [name], n). rewrite elem_of_map_to_list. split; [done|]. simpl.
    rewrite bool_decide_eq_true_2 by apply child_of_app. apply last_snoc.
Qed.

Lemma names_NoDup d t : NoDup (names d t).
Proof.
  unfold names. pose proof (NoDup_fst_map_to_list t) as Hnd. revert Hnd.
  induction (map_to_list t) as [|[p n] l IH]; [constructor|]. cbn [fmap list_fmap fst]. intros [Hout Hnd]%NoDup_cons.
  cbn [omap list_omap fst]. case_bool_decide as Hc; [|by apply IH].
  apply child_of_inv in Hc as [x ->]. rewrite last_snoc. apply NoDup_cons. split; [|by apply IH].
  rewrite list_elem_of_omap. intros ([q m] & Hin & Hl). simpl in Hl. case_bool_decide as Hc; [|done].
  apply child_of_inv in Hc as [y ->]. rewrite last_snoc in Hl. simplify_eq. apply Hout. apply list_elem_of_fmap. by exists (d ++ [x], m).
Qed.

Lemma lookup_synced_names p d k :
  synced_names p d !! k =
    if decide (child_of p k) then seen d !! k
    else if decide (p `prefix_of` k -> k = p \/ is_directory (seen d !! take (S (length p)) k) = true)
    then kept d !! k else None.
Proof.
  unfold synced_names. rewrite lookup_union, !map_lookup_filter.
  destruct (seen d !! k) as [n|] eqn:Hs, (kept d !! k) as [n'|] eqn:Hk; simpl;
    repeat case_decide; repeat case_guard; simpl in *; try done; try tauto; try (rewrite option_guard_False by tauto; done).
Qed.

Lemma synced_child p d name : synced_names p d !! (p ++ [name]) = seen d !! (p ++ [name]).
Proof. rewrite lookup_synced_names. by rewrite decide_True by apply child_of_app. Qed.

(** What lies elsewhere, or in a directory below, is as it was kept. *)
Lemma synced_elsewhere p d k : ~ child_of p k -> (p `prefix_of` k -> k = p) -> synced_names p d !! k = kept d !! k.
Proof. intros Hc Hp. rewrite lookup_synced_names, decide_False by done. rewrite decide_True; [done|]. auto. Qed.

Lemma synced_below p d k name :
  ~ child_of p k -> (p ++ [name]) `prefix_of` k -> is_directory (seen d !! (p ++ [name])) = true ->
  synced_names p d !! k = kept d !! k.
Proof.
  intros Hc [l ->] Hd. rewrite lookup_synced_names, decide_False by done. rewrite decide_True; [done|]. intros _. right.
  rewrite <- app_assoc. rewrite (app_assoc p [name]).
  replace (take (S (length p)) ((p ++ [name]) ++ l)) with (p ++ [name]); [done|].
  rewrite take_app_le by (rewrite length_app; simpl; lia). rewrite take_ge; [done|]. rewrite length_app. simpl. lia.
Qed.

Lemma prefix_all n s : (String.length s <= n)%nat -> prefix_of n s = s.
Proof.
  revert n. induction s as [|a s IH]; intros [|n] Hn; simpl in *; try done; [lia|]. by rewrite IH by lia.
Qed.

(** ** Rules *)

Section rules.
Context `{Services}.
Context (I : disk -> Prop).

Notation wp := (Programs.wp (Reply:=Reply) (Choice:=Choice) effect).

Lemma wp_stat {A} (Q : A -> disk -> Prop) p k d :
  I d -> (forall r, r = stat p (seen d) \/ r = Err OtherError -> wp I Q (k r) d) -> wp I Q (Do (Stat p) k) d.
Proof. intros Hi Hk. split; [done|]. intros [|n]; apply Hk; auto. Qed.

Lemma wp_exists {A} (Q : A -> disk -> Prop) p k d :
  I d -> (forall b, wp I Q (k b) d) -> wp I Q (Do (Exists p) k) d.
Proof. intros Hi Hk. split; [done|]. intros c. apply Hk. Qed.

Lemma wp_read_dir {A} (Q : A -> disk -> Prop) p k d :
  I d -> (forall r, r = read_dir p (seen d) \/ r = Err OtherError -> wp I Q (k r) d) -> wp I Q (Do (ReadDir p) k) d.
Proof. intros Hi Hk. split; [done|]. intros [|n]; apply Hk; auto. Qed.

Lemma wp_read_file {A} (Q : A -> disk -> Prop) p limit k d :
  I d -> (forall r, r = read_file p limit (seen d) \/ r = Err OtherError -> wp I Q (k r) d) ->
  wp I Q (Do (ReadFile p limit) k) d.
Proof. intros Hi Hk. split; [done|]. intros [|n]; apply Hk; auto. Qed.

Lemma wp_random {A} (Q : A -> disk -> Prop) width k d :
  I d -> (forall n, wp I Q (k n) d) -> wp I Q (Do (Random width) k) d.
Proof. intros Hi Hk. split; [done|]. intros c. apply Hk. Qed.

Lemma wp_ask {A} (Q : A -> disk -> Prop) c (k : Answer c -> prog Op Reply A) d :
  I d -> (forall a, wp I Q (k a) d) -> wp I Q (Do (Ask c) k) d.
Proof. intros Hi Hk. split; [done|]. intros a. apply Hk. Qed.

(** An operation that changes the tree, whatever way it goes. *)
Definition after (f : tree -> result IoError tree) (d : disk) (K : disk -> Prop) : Prop :=
  forall t, f (seen d) = Ok t -> K (MkDisk t (kept d)).

Lemma change_cases {A} (Q : A -> disk -> Prop) w f half k d :
  (forall n, half n (seen d) = took_effect f n (seen d)) ->
  after f d (fun d' => wp I Q (k (Ok ())) d' /\ wp I Q (k (Err OtherError)) d') ->
  (forall e, e = OtherError \/ f (seen d) = Err e -> wp I Q (k (Err e)) d) ->
  wp I Q (k (change w f half d).2) (change w f half d).1.
Proof.
  intros Hhalf Hf He. unfold change, after, took_effect in *. specialize (Hhalf 1%nat) as Hone.
  destruct (f (seen d)) as [t|e] eqn:Ht.
  - destruct w as [|[|n]]; cbn [fst snd]; [by apply Hf|apply He; by left|]. unfold on_seen. rewrite Hhalf. by apply Hf.
  - destruct w as [|[|n]]; cbn [fst snd]; apply He; auto.
Qed.

Lemma wp_create {A} (Q : A -> disk -> Prop) p mode k d :
  I d ->
  after (create p (Regular mode EmptyString false)) d
    (fun d' => wp I Q (k (Ok ())) d' /\ wp I Q (k (Err OtherError)) d') ->
  (forall e, wp I Q (k (Err e)) d) -> wp I Q (Do (CreateNew p mode) k) d.
Proof. intros Hi Hf He. split; [done|]. intros w. apply change_cases; auto. Qed.

Lemma wp_rename {A} (Q : A -> disk -> Prop) p q k d :
  I d -> after (rename p q) d (fun d' => wp I Q (k (Ok ())) d' /\ wp I Q (k (Err OtherError)) d') ->
  (forall e, wp I Q (k (Err e)) d) -> wp I Q (Do (Rename p q) k) d.
Proof. intros Hi Hf He. split; [done|]. intros w. apply change_cases; auto. Qed.

Lemma wp_remove {A} (Q : A -> disk -> Prop) p k d :
  I d -> after (remove_file p) d (fun d' => wp I Q (k (Ok ())) d' /\ wp I Q (k (Err OtherError)) d') ->
  (forall e, e = OtherError \/ remove_file p (seen d) = Err e -> wp I Q (k (Err e)) d) ->
  wp I Q (Do (RemoveFile p) k) d.
Proof. intros Hi Hf He. split; [done|]. intros w. apply change_cases; auto. Qed.

Lemma wp_write {A} (Q : A -> disk -> Prop) p c k d :
  I d ->
  after (on_regular (fun mode _ _ => Regular mode c false) p) d (fun d' => wp I Q (k (Ok ())) d') ->
  (forall c', after (on_regular (fun mode _ _ => Regular mode c' false) p) d (fun d' => wp I Q (k (Err OtherError)) d')) ->
  (forall e, wp I Q (k (Err e)) d) -> wp I Q (Do (WriteAll p c) k) d.
Proof.
  intros Hi Hf Hh He. split; [done|]. intros w. cbn [effect]. unfold change, took_effect, on_regular, after in *.
  destruct (seen d !! p) as [[|mode c0 s| |]|] eqn:Hp; destruct w as [|[|n]]; cbn [fst snd]; try apply He; [by apply Hf|].
  unfold on_seen. rewrite Hp. by apply (Hh (prefix_of (S n) c)).
Qed.

Lemma wp_sync_file {A} (Q : A -> disk -> Prop) p k d :
  I d -> after (on_regular (fun mode c _ => Regular mode c true) p) d (fun d' => wp I Q (k (Ok ())) d') ->
  (forall e, wp I Q (k (Err e)) d) -> wp I Q (Do (SyncFile p) k) d.
Proof.
  intros Hi Hf He. split; [done|]. intros w. cbn [effect]. unfold change, after in *.
  destruct d as [t kp]. destruct (on_regular _ p _) as [t'|e] eqn:Ht; destruct w as [|[|n]]; cbn [fst snd]; try apply He; by apply Hf.
Qed.

Lemma wp_sync_dir {A} (Q : A -> disk -> Prop) p k d :
  I d -> (is_directory (seen d !! p) = true -> wp I Q (k (Ok ())) (MkDisk (seen d) (synced_names p d))) ->
  (forall e, wp I Q (k (Err e)) d) -> wp I Q (Do (SyncDir p) k) d.
Proof.
  intros Hi Hf He. split; [done|]. intros w. cbn [effect]. unfold sync_dir.
  destruct w as [|n], (is_directory (seen d !! p)); simpl; auto.
Qed.

Lemma wp_mkdir {A} (Q : A -> disk -> Prop) p mode k d :
  I d ->
  (seen d !! p = None -> is_directory (seen d !! parent p) = true ->
   let d' := MkDisk (<[p := Directory mode]> (seen d)) (<[p := Directory mode]> (kept d)) in
   wp I Q (k (Ok ())) d' /\ wp I Q (k (Err OtherError)) d') ->
  (forall e, wp I Q (k (Err e)) d) -> wp I Q (Do (MkDir p mode) k) d.
Proof.
  intros Hi Hf He. split; [done|]. intros w. cbn [effect]. unfold make_directory, create.
  destruct (seen d !! p) as [x|] eqn:Hp; [by destruct w as [|[|n]]; simpl|].
  destruct (is_directory (seen d !! parent p)) eqn:Hd; [|by destruct w as [|[|n]]; simpl].
  destruct (Hf eq_refl eq_refl). by destruct w as [|[|n]]; simpl.
Qed.
End rules.

(** *** Replacing a file *)

(** A new file is written, synced, and renamed over [target]; its directory is synced. *)
Definition atomic_replace {E} `{Services} (g : IoError -> E) (temporary target dir : path) (content : string)
    : prog Op Reply (result E unit) :=
  step! _ <- Do (CreateNew temporary 384) (fun r => Ret (map_err g r)) ;;
  step! _ <- Do (WriteAll temporary content) (fun r => Ret (map_err g r)) ;;
  step! _ <- Do (SyncFile temporary) (fun r => Ret (map_err g r)) ;;
  step! _ <- Do (Rename temporary target) (fun r => Ret (map_err g r)) ;;
  Do (SyncDir dir) (fun r => Ret (map_err g r)).

Section replacing.
Context `{Services} (I : disk -> Prop) (temporary target : path).

Notation wp := (Programs.wp (Reply:=Reply) (Choice:=Choice) effect).

(** What the temporary file holds is nobody's business. *)
Context (Htemp : forall d c s, I d -> I (MkDisk (<[temporary := Regular 384 c s]> (seen d)) (kept d))).

Lemma after_regular f d K c s :
  (forall c s, K (MkDisk (<[temporary := f 384 c s]> (seen d)) (kept d))) ->
  after (on_regular f temporary) (MkDisk (<[temporary := Regular 384 c s]> (seen d)) (kept d)) K.
Proof.
  intros HK t. unfold on_regular. cbn [seen kept]. rewrite lookup_insert_eq. intros [= <-]. rewrite insert_insert_eq. apply HK.
Qed.

Lemma wp_atomic_replace {E} (g : IoError -> E) (Q : unit -> disk -> Prop) dir content d :
  temporary <> target -> I d ->
  (seen d !! temporary = None ->
   let d1 := MkDisk (<[target := Regular 384 content true]> (seen d)) (kept d) in
   I d1 /\
   let d2 := MkDisk (seen d1) (synced_names dir d1) in I d2 /\ Q () d2) ->
  wp I (on_ok Q) (atomic_replace g temporary target dir content) d.
Proof.
  intros Hne Hi Hren. unfold atomic_replace.
  apply wp_step, wp_create; [done| |intros e; by apply wp_err]. intros t. unfold create.
  destruct (seen d !! temporary) as [x|] eqn:Hnone; [done|]. destruct (is_directory _); [|done]. intros [= <-].
  specialize (Hren eq_refl) as [Hi1 [Hi2 Hq]].
  split; [|by apply wp_err, Htemp]. apply wp_ok; [by apply Htemp|].
  apply wp_step, wp_write; [by apply Htemp| | |intros e; by apply wp_err, Htemp].
  2: { intros c'. apply after_regular. intros _ _. by apply wp_err, Htemp. }
  apply after_regular. intros _ _. apply wp_ok; [by apply Htemp|].
  apply wp_step, wp_sync_file; [by apply Htemp| |intros e; by apply wp_err, Htemp].
  intros t. unfold on_regular. cbn [seen kept]. rewrite lookup_insert_eq. intros [= <-]. rewrite insert_insert_eq.
  apply wp_ok; [by apply Htemp|].
  apply wp_step, wp_rename; [by apply Htemp| |intros e; by apply wp_err, Htemp].
  intros t. unfold rename. cbn [seen kept]. rewrite lookup_insert_eq. destruct (_ || _); [done|]. intros [= <-].
  rewrite delete_insert_id by done. split; [|by apply wp_err]. apply wp_ok; [done|].
  apply wp_sync_dir; [done|intros _; by apply wp_ok|intros e; by apply wp_err].
Qed.

Context (Hclean : forall d, I d -> I (MkDisk (delete temporary (seen d)) (kept d))).

(** When that fails, the new file is removed. *)
Lemma wp_replace_or_clean {E} (g : IoError -> E) (Q : unit -> disk -> Prop) dir content d :
  temporary <> target -> I d ->
  (seen d !! temporary = None ->
   let d1 := MkDisk (<[target := Regular 384 content true]> (seen d)) (kept d) in
   I d1 /\
   let d2 := MkDisk (seen d1) (synced_names dir d1) in I d2 /\ Q () d2) ->
  wp I (on_ok Q)
    (bind (atomic_replace g temporary target dir content) (fun r =>
       match r with Ok _ => Ret (Ok ()) | Err e => Do (RemoveFile temporary) (fun _ => Ret (Err e)) end)) d.
Proof.
  intros Hne Hi Hren. apply wp_bind. eapply wp_mono; [|by eapply (wp_atomic_replace (E:=E))].
  intros [[]|e] d' Hi' Hq; [by apply wp_ok|]. apply wp_remove; [done| |intros e' _; by apply wp_err].
  intros t. unfold remove_file. destruct (seen d' !! temporary) as [[]|]; try done; intros [= <-];
    (split; by apply wp_err, Hclean).
Qed.
End replacing.

(** *** Runs in which nothing fails *)

Section works.
Context `{Services}.

Notation run := (Programs.run (Reply:=Reply) (Choice:=Choice) effect usual).

Lemma run_do {A} op (k : Reply op -> prog Op Reply A) d :
  run (Do op k) d = run (k (effect op (usual op) d).2) (effect op (usual op) d).1.
Proof. cbn [Programs.run]. by destruct (effect op (usual op) d). Qed.

Lemma change_works f half d t : f (seen d) = Ok t -> change Works f half d = (MkDisk t (kept d), Ok ()).
Proof. intros Hf. unfold change. by rewrite Hf. Qed.

(** One operation that works. *)
Lemma run_step {E T B} op (h : Reply op -> result E T) (f : T -> prog Op Reply (result E B)) d d' r a :
  effect op (usual op) d = (d', r) -> h r = Ok a ->
  run (attempt (Do op (fun r => Ret (h r))) f) d = run (f a) d'.
Proof. intros He Hh. apply run_attempt. rewrite run_do, He. cbn [fst snd]. by rewrite Hh. Qed.

Lemma run_atomic_replace {E} (g : IoError -> E) temporary target dir content d :
  seen d !! temporary = None -> is_directory (seen d !! parent temporary) = true ->
  is_directory (seen d !! target) = false -> is_directory (seen d !! parent target) = true ->
  is_directory (seen d !! dir) = true -> temporary <> target -> target <> dir ->
  let t := <[target := Regular 384 content true]> (seen d) in
  run (atomic_replace g temporary target dir content) d = (MkDisk t (synced_names dir (MkDisk t (kept d))), Ok ()).
Proof.
  intros Hn Hp Ht Hpt Hd Hne Htd t. unfold atomic_replace.
  assert (Hother : forall k n, is_directory (seen d !! k) = true -> <[temporary := n]> (seen d) !! k = seen d !! k).
  { intros k n Hk. rewrite lookup_insert_ne; [done|]. intros <-. by rewrite Hn in Hk. }
  erewrite run_step; [|apply change_works; unfold create; by rewrite Hn, Hp|done].
  erewrite run_step; [|apply change_works; unfold on_regular; cbn [seen]; by rewrite lookup_insert_eq|done].
  erewrite run_step; [|apply change_works; unfold on_regular; cbn [seen]; by rewrite lookup_insert_eq|done].
  cbn [seen kept]. rewrite !insert_insert_eq.
  erewrite run_step; [|apply change_works; unfold rename; cbn [seen]; rewrite lookup_insert_eq, lookup_insert_ne by done;
    rewrite Ht, Hother, Hpt by done; done|done].
  cbn [seen kept]. rewrite delete_insert_id by done. rewrite run_do. cbn [effect usual]. unfold sync_dir. cbn [seen kept].
  by rewrite lookup_insert_ne, Hd by done.
Qed.
End works.
