(* ===== verification/PlayLog.v ===== *)
(** * The play log (services/korrid/src/host/play_log.rs)

    One document per person and game lists the completed plays. A play is added
    once, however often its completion is replayed; the document stays within
    its size by forgetting its oldest plays, never the one being added. *)

From Stdlib Require Import SpecFloat.
From S2P Require Import Prelude Text Decimal Hold Floats Programs Files.

(** ** Data *)

#[export] Instance spec_float_eq_dec : EqDecision spec_float.
Proof. solve_decision. Defined.

Record PlayEntry := MkEntry {
  occurred_at : string;
  duration_seconds : f64;
  release_id : option string;
}.

Record PlayLog := MkPlayLog { log_user : string; log_game : string; entries : list PlayEntry }.

Record PlayHistoryKey := MkKey { user_id : string; game_id : string }.

Inductive PlayLogError : Type := Storage | AggregateOverflow.

Record PlayStats := MkStats { last_played : option string; play_count : Z; total_playtime_seconds : f64 }.

#[export] Instance PlayEntry_eq_dec : EqDecision PlayEntry.
Proof. solve_decision. Defined.

Definition play_log_text (e : PlayLogError) : string :=
  match e with
  | Storage => "play log storage is unavailable"
  | AggregateOverflow => "play log aggregate exceeds the finite wire-number range"
  end.

Definition PLAY_LOG_DIRECTORY : string := "play-log".
Definition MAX_PLAY_LOG_BYTES : Z := 4 * 1024 * 1024.
Definition NAME_MAX : Z := 255.

Definition root : path := [PLAY_LOG_DIRECTORY].

(** *** Numbers *)

Definition f64_finite (x : f64) : bool :=
  match x with S754_zero _ | S754_finite _ _ _ => true | _ => false end.

(** [==] of [f64]: a NaN is not equal to itself, the zeros are equal. *)
Definition f64_eq (a b : f64) : bool := match SFcompare a b with Some Eq => true | _ => false end.

(** [==] of entries. *)
Definition entry_eq (a b : PlayEntry) : bool :=
  bool_decide (occurred_at a = occurred_at b) && f64_eq (duration_seconds a) (duration_seconds b)
  && bool_decide (release_id a = release_id b).

(** The integer part, towards zero. *)
Definition f64_trunc (x : f64) : option Z :=
  match x with
  | S754_zero _ => Some 0
  | S754_finite s m e =>
      let magnitude := if 0 <=? e then Z.pos m * 2 ^ e else Z.pos m / 2 ^ (- e) in
      Some (if s then - magnitude else magnitude)
  | _ => None
  end.

(** [fract() == 0.0]; an infinity has the fraction NaN. *)
Definition f64_integral (x : f64) : bool :=
  match x with
  | S754_zero _ => true
  | S754_finite _ m e => (0 <=? e) || (Z.pos m mod 2 ^ (- e) =? 0)
  | _ => false
  end.

Definition i64_min : Z := - 2 ^ 63.
Definition i64_max : Z := 2 ^ 63 - 1.

(** How a number is written, and what is read of it. *)
Inductive JsonNumber : Type := Integer (z : Z) | Float (x : f64).

Definition f64_le (a b : f64) : bool := match SFcompare a b with Some Lt | Some Eq => true | _ => false end.

(** [as i64] saturates. *)
Definition serialize_legacy_number (value : f64) : JsonNumber :=
  if f64_integral value && f64_le (f64_of_Z i64_min) value && f64_le value (f64_of_Z i64_max)
  then Integer (Z.max i64_min (Z.min i64_max (default 0 (f64_trunc value))))
  else Float value.

(** JSON and time stamps, of serde_json and chrono. [json_float] is what a number
    with a fraction reads back as. *)
Class PlayCodec := {
  to_vec_pretty : PlayLog -> result string string;
  log_from_slice : string -> result string PlayLog;
  json_float : f64 -> f64;
  rfc3339_instant : string -> option Z;
  to_rfc3339_millis : Z -> option string;
}.

Section play_log.
Context `{Sv : !Services} `{PC : !PlayCodec}.

Notation program A := (prog Op Reply A).

Definition number_value (n : JsonNumber) : f64 :=
  match n with Integer z => f64_of_Z z | Float x => json_float x end.

Definition reread_entry (e : PlayEntry) : PlayEntry :=
  MkEntry (occurred_at e) (number_value (serialize_legacy_number (duration_seconds e))) (release_id e).

Definition reread_log (l : PlayLog) : PlayLog :=
  MkPlayLog (log_user l) (log_game l) (reread_entry <$> entries l).

(** ** Time stamps and entries *)

Definition parse_rfc3339 (value : string) : option Z := rfc3339_instant value.

Definition format_rfc3339_millis (epoch_millis : Z) : result PlayLogError string :=
  ok_or (to_rfc3339_millis epoch_millis) Storage.

Definition validate_entry (e : PlayEntry) : result PlayLogError unit :=
  if is_none (parse_rfc3339 (occurred_at e)) || negb (f64_finite (duration_seconds e))
     || f64_lt (duration_seconds e) f64_zero
  then Err Storage else Ok ().

(** ** Names *)

Definition uri_unreserved (a : ascii) : bool :=
  is_ascii_digit a || between 65 (byte a) 90 || between 97 (byte a) 122
  || existsb (fun b => byte a =? b) [45; 95; 46; 33; 126; 42; 39; 40; 41].

Definition upper_hex (d : Z) : ascii := if d <? 10 then digit d else ascii_of_N (Z.to_N (55 + d)).

Definition percent (a : ascii) : text :=
  ["%"%char; upper_hex (byte a / 16); upper_hex (byte a mod 16)].

Definition encode_char (a : ascii) : text := if uri_unreserved a then [a] else percent a.

Definition encode_uri_component (value : string) : string := of_text (concat (encode_char <$> to_text value)).

Definition validate_person_id (person : string) : result PlayLogError unit :=
  let encoded := encode_uri_component person in
  if str_is_empty person || bool_decide (encoded = ".") || bool_decide (encoded = "..")
     || (NAME_MAX <? str_len encoded)
  then Err Storage else Ok ().

Definition validate_history_key (key : PlayHistoryKey) : result PlayLogError unit :=
  match validate_person_id (user_id key) with
  | Err e => Err e
  | Ok _ =>
      if str_is_empty (game_id key) || (NAME_MAX <? str_len (encode_uri_component (game_id key)) + 5)
      then Err Storage else Ok ()
  end.

Definition file_name (game : string) : string := encode_uri_component game +:+ ".json".

Definition user_directory (key : PlayHistoryKey) : path := root ++ [encode_uri_component (user_id key)].

Definition path_for (key : PlayHistoryKey) : path := user_directory key ++ [file_name (game_id key)].

Definition valid_log (log : PlayLog) (key : PlayHistoryKey) : bool :=
  bool_decide (log_user log = user_id key) && bool_decide (log_game log = game_id key)
  && forallb (fun e => is_ok (validate_entry e)) (entries log).

Definition empty_log (key : PlayHistoryKey) : PlayLog := MkPlayLog (user_id key) (game_id key) [].

(** ** Files *)

Definition storage {T} (r : result IoError T) : result PlayLogError T := map_err (fun _ => Storage) r.

Definition exposed (mode : Z) : bool := negb (Z.land mode 63 =? 0).

Definition private_directory (m : Metadata) : bool :=
  match m with MetaDirectory mode => negb (exposed mode) | _ => false end.

Definition existing_private_directory (p : path) : program (result PlayLogError bool) :=
  Do (Stat p) (fun r =>
    Ret (match r with
         | Err NotFound => Ok false
         | Err _ => Err Storage
         | Ok m => if private_directory m then Ok true else Err Storage
         end)).

Definition sync_directory (p : path) : program (result PlayLogError unit) :=
  Do (SyncDir p) (fun r => Ret (storage r)).

Definition check_private_directory (p : path) : program (result PlayLogError unit) :=
  Do (Stat p) (fun r =>
    Ret (match r with Ok m => if private_directory m then Ok () else Err Storage | Err _ => Err Storage end)).

Definition ensure_private_directory (p : path) : program (result PlayLogError unit) :=
  Do (Exists p) (fun there =>
    if there then check_private_directory p
    else Do (MkDir p 448) (fun r =>
      match r with
      | Ok _ => step! _ <- sync_directory (parent p) ;; check_private_directory p
      | Err AlreadyExists => check_private_directory p
      | Err _ => Ret (Err Storage)
      end)).

Definition read_bounded_private (p : path) (limit : Z) : program (result PlayLogError (option string)) :=
  Do (Stat p) (fun r =>
    match r with
    | Err NotFound => Ret (Ok None)
    | Ok (MetaFile mode len) =>
        if exposed mode || (limit <? len) then Ret (Err Storage)
        else Do (ReadFile p (limit + 1)) (fun r =>
          Ret (match r with
               | Ok bytes => if limit <? str_len bytes then Err Storage else Ok (Some bytes)
               | Err _ => Err Storage
               end))
    | _ => Ret (Err Storage)
    end).

(** A new file next to [p], written and synced, takes its place. *)
Definition write_new (p temporary : path) (content : string) : program (result PlayLogError unit) :=
  step! _ <- Do (CreateNew temporary 384) (fun r => Ret (storage r)) ;;
  step! _ <- Do (WriteAll temporary content) (fun r => Ret (storage r)) ;;
  step! _ <- Do (SyncFile temporary) (fun r => Ret (storage r)) ;;
  step! _ <- Do (Rename temporary p) (fun r => Ret (storage r)) ;;
  sync_directory (parent p).

Definition temporary_name (name : string) (nonce : Z) : string := "." +:+ name +:+ "." +:+ decimal nonce +:+ ".tmp".

Definition write_private_atomically (p : path) (content : string) : program (result PlayLogError unit) :=
  Do (Random 64) (fun nonce =>
    let temporary := parent p ++ [temporary_name (default EmptyString (last p)) nonce] in
    bind (write_new p temporary content) (fun r =>
      match r with
      | Ok _ => Ret (Ok ())
      | Err e => Do (RemoveFile temporary) (fun _ => Ret (Err e))
      end)).

(** ** Loading *)

Definition load_decoded_unlocked (key : PlayHistoryKey) (reject_malformed : bool)
    : program (result PlayLogError PlayLog) :=
  match validate_history_key key with
  | Err e => Ret (Err e)
  | Ok _ =>
      step! a <- existing_private_directory root ;;
      if negb a then Ret (Ok (empty_log key))
      else
        step! b <- existing_private_directory (user_directory key) ;;
        if negb b then Ret (Ok (empty_log key))
        else
          step! read <- read_bounded_private (path_for key) MAX_PLAY_LOG_BYTES ;;
          Ret (match read with
               | None => Ok (empty_log key)
               | Some bytes =>
                   match ok (log_from_slice bytes) with
                   | Some log => if valid_log log key then Ok log
                                 else if reject_malformed then Err Storage else Ok (empty_log key)
                   | None => if reject_malformed then Err Storage else Ok (empty_log key)
                   end
               end)
  end.

Definition load (key : PlayHistoryKey) : program (result PlayLogError PlayLog) := load_decoded_unlocked key false.
Definition load_for_write_unlocked (key : PlayHistoryKey) := load_decoded_unlocked key true.

(** ** Adding a play *)

(** One step more than there are occupied instants is enough. *)
Fixpoint free_instant (fuel : nat) (occupied : list Z) (instant : Z) : result PlayLogError Z :=
  match fuel with
  | O => Err Storage
  | S fuel =>
      if bool_decide (instant ∈ occupied) then
        if i64_max <? instant + 1 then Err Storage else free_instant fuel occupied (instant + 1)
      else Ok instant
  end.

Definition occupied (log : PlayLog) : list Z := filter_map (fun e => parse_rfc3339 (occurred_at e)) (entries log).

Definition completion_entry (log : PlayLog) (actual_epoch_millis : Z) (duration : f64) : result PlayLogError PlayEntry :=
  if i64_max <? actual_epoch_millis then Err Storage
  else
    match free_instant (S (length (occupied log))) (occupied log) actual_epoch_millis with
    | Err e => Err e
    | Ok instant =>
        match format_rfc3339_millis instant with
        | Err e => Err e
        | Ok s => Ok (MkEntry s duration None)
        end
    end.

Definition unique_completion_entry (key : PlayHistoryKey) (actual_epoch_millis : Z) (duration : f64)
    : program (result PlayLogError PlayEntry) :=
  if negb (f64_finite duration) || f64_lt duration f64_zero then Ret (Err Storage)
  else
    step! log <- load_for_write_unlocked key ;;
    Ret (completion_entry log actual_epoch_millis duration).

(** The first entry of the least instant, other than the protected one. *)
Definition instant_of (e : PlayEntry) : Z := default i64_min (parse_rfc3339 (occurred_at e)).

Definition older (best : option (nat * Z)) (candidate : nat * Z) : option (nat * Z) :=
  match best with
  | Some (i, least) => if candidate.2 <? least then Some candidate else best
  | None => Some candidate
  end.

Definition oldest (protected_index : nat) (l : list PlayEntry) : option nat :=
  fst <$> foldl older None
    (keep (fun x => negb (bool_decide (x.1 = protected_index))) (imap (fun i e => (i, instant_of e)) l)).

Definition remove_at {A} (i : nat) (l : list A) : list A := take i l ++ drop (S i) l.

Definition with_entries (l : list PlayEntry) (log : PlayLog) : PlayLog := MkPlayLog (log_user log) (log_game log) l.

(** Each step forgets one entry. *)
Fixpoint retain (fuel : nat) (log : PlayLog) (protected : PlayEntry) (protected_index : nat)
    : result PlayLogError string :=
  match to_vec_pretty log with
  | Err _ => Err Storage
  | Ok s =>
      let serialized := s +:+ newline in
      if str_len serialized <=? MAX_PLAY_LOG_BYTES then
        if is_some_and (entries log !! protected_index) (fun e => entry_eq e protected) then Ok serialized
        else Err Storage
      else
        match oldest protected_index (entries log), fuel with
        | None, _ | _, O => Err Storage
        | Some i, S fuel =>
            retain fuel (with_entries (remove_at i (entries log)) log) protected
              (if bool_decide (i < protected_index)%nat then pred protected_index else protected_index)
        end
  end.

Definition serialize_with_retention (log : PlayLog) (protected_index : nat) : result PlayLogError string :=
  match entries log !! protected_index with
  | None => Err Storage
  | Some protected => retain (length (entries log)) log protected protected_index
  end.

Definition record (key : PlayHistoryKey) (entry : PlayEntry) : program (result PlayLogError unit) :=
  match validate_entry entry with
  | Err e => Ret (Err e)
  | Ok _ =>
      step! log <- load_for_write_unlocked key ;;
      if existsb (fun e => entry_eq e entry) (entries log) then Ret (Ok ())
      else
        let log := with_entries (entries log ++ [entry]) log in
        step! _ <- ensure_private_directory root ;;
        step! _ <- ensure_private_directory (user_directory key) ;;
        match serialize_with_retention log (pred (length (entries log))) with
        | Err e => Ret (Err e)
        | Ok serialized => write_private_atomically (path_for key) serialized
        end
  end.

(** ** Statistics *)

Definition u32_max : Z := 4294967295.

Definition newer (last : option (Z * string)) (e : PlayEntry) : option (Z * string) :=
  match parse_rfc3339 (occurred_at e) with
  | None => last
  | Some instant =>
      match last with
      | Some (current, _) => if current <? instant then Some (instant, occurred_at e) else last
      | None => Some (instant, occurred_at e)
      end
  end.

Fixpoint add_plays (l : list PlayEntry) (last : option (Z * string)) (total : f64)
    : result PlayLogError (option (Z * string) * f64) :=
  match l with
  | [] => Ok (last, total)
  | e :: l =>
      let last := newer last e in
      let total := SFadd 53 1024 total (duration_seconds e) in
      if f64_finite total then add_plays l last total else Err AggregateOverflow
  end.

Definition derive_play_stats (l : list PlayEntry) : result PlayLogError PlayStats :=
  match add_plays l None f64_zero with
  | Err e => Err e
  | Ok (last, total) =>
      let count := Z.of_nat (length l) in
      Ok (MkStats (snd <$> last) (if u32_max <? count then u32_max else count) total)
  end.

Definition stats (key : PlayHistoryKey) : program (result PlayLogError PlayStats) :=
  step! log <- load key ;; Ret (derive_play_stats (entries log)).

(** ** All the records of a person *)

Definition person_directory (person : string) : path := root ++ [encode_uri_component person].

Record StoredPlayLog := MkStored { stored_name : string; stored_bytes : string; stored_log : PlayLog }.

(** One entry of the directory. *)
Definition check_person_record (person name : string) (bytes : string) : result PlayLogError StoredPlayLog :=
  match log_from_slice bytes with
  | Err _ => Err Storage
  | Ok log =>
      let key := MkKey person (log_game log) in
      match validate_history_key key with
      | Err e => Err e
      | Ok _ =>
          if negb (valid_log log key) || negb (bool_decide (name = file_name (log_game log))) then Err Storage
          else Ok (MkStored name bytes log)
      end
  end.

Fixpoint read_entries (directory : path) (person : string) (l : list string)
    : program (result PlayLogError (list StoredPlayLog)) :=
  match l with
  | [] => Ret (Ok [])
  | name :: l =>
      if negb (utf8_valid (to_text name)) then Ret (Err Storage)
      else
        step! bytes <- read_bounded_private (directory ++ [name]) MAX_PLAY_LOG_BYTES ;;
        match bytes with
        | None => Ret (Err Storage)
        | Some bytes =>
            match check_person_record person name bytes with
            | Err e => Ret (Err e)
            | Ok r => step! rest <- read_entries directory person l ;; Ret (Ok (r :: rest))
            end
        end
  end.

Definition name_le (a b : StoredPlayLog) : Prop := ord_le (stored_name a) (stored_name b).

#[local] Instance name_le_dec : RelDecision name_le.
Proof. intros a b. unfold name_le. apply _. Defined.

Definition read_person_records (directory : path) (person : string)
    : program (result PlayLogError (option (list StoredPlayLog))) :=
  step! there <- existing_private_directory directory ;;
  if negb there then Ret (Ok None)
  else
    Do (ReadDir directory) (fun r =>
      match r with
      | Err _ => Ret (Err Storage)
      | Ok l => step! records <- read_entries directory person l ;; Ret (Ok (Some (merge_sort name_le records)))
      end).

Definition delete_person_records (person : string) : program (result PlayLogError unit) :=
  match validate_person_id person with
  | Err e => Ret (Err e)
  | Ok _ =>
      step! there <- existing_private_directory root ;;
      if negb there then Ret (Ok ())
      else
        step! records <- read_person_records (person_directory person) person ;;
        match records with
        | None => Ret (Ok ())
        | Some _ =>
            step! _ <- Do (RemoveTree (person_directory person)) (fun r => Ret (storage r)) ;;
            sync_directory root
        end
  end.

(** ** Numbers that come back as they were *)

Lemma f64_of_zero : f64_of_Z 0 = S754_zero false.
Proof. done. Qed.

Lemma small_legacy n : 0 <= n < 2 ^ 53 -> serialize_legacy_number (f64_of_Z n) = Integer n.
Proof.
  intros Hn. destruct n as [|p|p]; [by vm_compute| |lia].
  destruct (f64_of_small p) as (m & e & -> & He & Hm); [lia|].
  assert (Hpow : 0 < 2 ^ (- e)) by (apply Z.pow_pos_nonneg; lia).
  assert (Hint : f64_integral (S754_finite false m e) = true).
  { cbn [f64_integral]. rewrite Hm, Z_mod_mult. apply orb_true_r. }
  assert (Hlo : f64_le (f64_of_Z i64_min) (S754_finite false m e) = true) by done.
  assert (Hhi : f64_le (S754_finite false m e) (f64_of_Z i64_max) = true).
  { unfold f64_le. change (f64_of_Z i64_max) with (S754_finite false 4503599627370496 11). cbn [SFcompare].
    destruct (Z.compare_spec e 11); [lia|done|lia]. }
  unfold serialize_legacy_number. rewrite Hint, Hlo, Hhi. cbn [andb]. f_equal.
  assert (Ht : f64_trunc (S754_finite false m e) = Some (Z.pos p)).
  { cbn [f64_trunc]. destruct (Z.leb_spec 0 e).
    - assert (e = 0) by lia. subst e. rewrite Z.mul_1_r. f_equal. rewrite Hm. simpl. lia.
    - f_equal. rewrite Hm. apply Z.div_mul. lia. }
  rewrite Ht. cbn [default]. unfold i64_min, i64_max, from_option, id. lia.
Qed.

Lemma small_finite n : 0 <= n < 2 ^ 53 -> f64_finite (f64_of_Z n) = true /\ f64_lt (f64_of_Z n) f64_zero = false.
Proof.
  intros Hn. destruct n as [|p|p]; [by vm_compute| |lia]. destruct (f64_of_small p) as (m & e & -> & _); [lia|]. done.
Qed.

Lemma reread_small s n r : 0 <= n < 2 ^ 53 -> reread_entry (MkEntry s (f64_of_Z n) r) = MkEntry s (f64_of_Z n) r.
Proof. intros Hn. unfold reread_entry. cbn [duration_seconds occurred_at release_id]. by rewrite small_legacy. Qed.

Lemma f64_eq_refl x : f64_finite x = true -> f64_eq x x = true.
Proof.
  destruct x as [s| | |s m e]; try done. intros _. unfold f64_eq. cbn [SFcompare]. rewrite Z.compare_refl.
  change (Pos.compare_cont Eq m m) with (Pos.compare m m). rewrite Pos.compare_refl. by destruct s.
Qed.

Lemma entry_eq_refl e : f64_finite (duration_seconds e) = true -> entry_eq e e = true.
Proof. intros Hf. unfold entry_eq. by rewrite f64_eq_refl, !bool_decide_eq_true_2. Qed.

Lemma entry_eq_occurred a b : entry_eq a b = true -> occurred_at a = occurred_at b.
Proof. unfold entry_eq. rewrite !andb_true_iff, !bool_decide_eq_true. tauto. Qed.

Lemma validate_entry_Ok e :
  validate_entry e = Ok () <->
  is_Some (parse_rfc3339 (occurred_at e)) /\ f64_finite (duration_seconds e) = true /\
  f64_lt (duration_seconds e) f64_zero = false.
Proof.
  unfold validate_entry, is_none, is_some. destruct (parse_rfc3339 _), (f64_finite _), (f64_lt _ _); simpl;
    (split; [intros Hx; try discriminate Hx; eauto|intros ([? Hx] & ? & ?); congruence]).
Qed.

(** ** A free instant *)

Lemma free_instant_Ok fuel occ i j :
  free_instant fuel occ i = Ok j -> j ∉ occ /\ i <= j /\ forall k, i <= k < j -> k ∈ occ.
Proof.
  revert i. induction fuel as [|fuel IH]; intros i; [done|]. cbn [free_instant].
  case_bool_decide as Hin; [|intros [= <-]; repeat split; [done|lia|lia]].
  destruct (Z.ltb_spec i64_max (i + 1)); [done|]. intros (Hj & Hle & Hall)%IH. split; [done|]. split; [lia|].
  intros k Hk. destruct (Z.eq_dec k i) as [->|]; [done|]. apply Hall. lia.
Qed.

Lemma free_instant_Err fuel occ i e :
  free_instant fuel occ i = Err e ->
  i64_max < i + Z.of_nat fuel \/ (forall k, i <= k < i + Z.of_nat fuel -> k ∈ occ).
Proof.
  revert i. induction fuel as [|fuel IH]; intros i; [intros _; right; intros k; lia|]. cbn [free_instant].
  case_bool_decide as Hin; [|done].
  destruct (Z.ltb_spec i64_max (i + 1)); [intros _; left; lia|]. intros [Hov|Hall]%IH; [left; lia|right].
  intros k Hk. destruct (Z.eq_dec k i) as [->|]; [done|]. apply Hall. lia.
Qed.

Lemma interval_length (l : list Z) i n : (forall k, i <= k < i + Z.of_nat n -> k ∈ l) -> (n <= length l)%nat.
Proof.
  intros Hall. assert (Hsub : seqZ i (Z.of_nat n) ⊆+ l).
  { apply NoDup_submseteq; [apply NoDup_seqZ|]. intros k Hk%elem_of_seqZ. apply Hall. lia. }
  apply submseteq_length in Hsub. rewrite length_seqZ in Hsub. lia.
Qed.

Lemma free_instant_total occ i :
  i + Z.of_nat (S (length occ)) <= i64_max -> exists j, free_instant (S (length occ)) occ i = Ok j.
Proof.
  intros Hi. destruct (free_instant (S (length occ)) occ i) as [j|e] eqn:He; [by exists j|].
  apply free_instant_Err in He as [He|He]; [lia|]. apply interval_length in He. lia.
Qed.

(** ** Retention *)

Definition too_large (log : PlayLog) : Prop :=
  exists s, to_vec_pretty log = Ok s /\ MAX_PLAY_LOG_BYTES < str_len (s +:+ newline).

Definition fits (log : PlayLog) (serialized : string) : Prop :=
  exists s, to_vec_pretty log = Ok s /\ serialized = s +:+ newline /\ str_len serialized <= MAX_PLAY_LOG_BYTES.

(** A least entry of [l]. *)
Definition least (x : PlayEntry) (l : list PlayEntry) : Prop := forall y, y ∈ l -> instant_of x <= instant_of y.

Lemma older_spec (l : list (nat * Z)) best r :
  foldl older best l = Some r ->
  (best = Some r \/ r ∈ l) /\ (forall x, best = Some x \/ x ∈ l -> r.2 <= x.2).
Proof.
  revert best. induction l as [|c l IH]; intros best; cbn [foldl].
  { intros ->. split; [by left|]. intros x [[= ->]|Hx%elem_of_nil]; [lia|done]. }
  intros [Hr Hmin]%IH. destruct best as [[i v]|]; simpl in *.
  - destruct (Z.ltb_spec c.2 v) as [Hlt|Hge].
    + split; [right; rewrite elem_of_cons; destruct Hr as [[= <-]|]; auto|].
      intros x [[= <-]|[->|Hx]%elem_of_cons]; simpl.
      * etrans; [apply Hmin; by left|]. lia.
      * apply Hmin. by left.
      * apply Hmin. by right.
    + split; [rewrite elem_of_cons; tauto|]. intros x [[= <-]|[->|Hx]%elem_of_cons]; simpl.
      * change v with ((i, v).2). apply Hmin. by left.
      * etrans; [apply (Hmin (i, v)); by left|]. done.
      * apply Hmin. by right.
  - split; [right; rewrite elem_of_cons; destruct Hr as [[= <-]|]; auto|].
    intros x [?|[->|Hx]%elem_of_cons]; [done| |]; apply Hmin; auto.
Qed.

Lemma older_None (l : list (nat * Z)) best : foldl older best l = None -> best = None /\ l = [].
Proof.
  revert best. induction l as [|c l IH]; intros best; cbn [foldl]; [done|]. intros [Hb _]%IH.
  destruct best as [[i v]|]; simpl in Hb; [by destruct (_ <? _)|done].
Qed.

Lemma candidates_spec (l : list PlayEntry) e x :
  x ∈ keep (fun x => negb (bool_decide (x.1 = length l))) (imap (fun i e => (i, instant_of e)) (l ++ [e])) <->
  exists y, l !! x.1 = Some y /\ x.2 = instant_of y.
Proof.
  rewrite elem_of_keep, negb_true_iff, bool_decide_eq_false, elem_of_lookup_imap. split.
  - intros [(i & y & -> & Hy) Hne]. simpl in *. exists y. split; [|done].
    apply lookup_app_Some in Hy as [Hy|[Hle Hy]]; [done|]. apply list_lookup_singleton_Some in Hy as [Hi _]. lia.
  - intros (y & Hy & Hx). split; [|apply lookup_lt_Some in Hy; lia]. exists x.1, y. split; [by destruct x; simpl in *; subst|].
    by apply lookup_app_l_Some.
Qed.

Lemma oldest_spec l e :
  match oldest (length l) (l ++ [e]) with
  | Some j => exists x, l !! j = Some x /\ least x l
  | None => l = []
  end.
Proof.
  unfold oldest. destruct (foldl older None _) as [r|] eqn:Hr; simpl.
  - apply older_spec in Hr as [[|Hin] Hmin]; [done|]. apply candidates_spec in Hin as (x & Hx & Hv).
    exists x. split; [done|]. intros y (j & Hy)%list_elem_of_lookup. rewrite <- Hv.
    apply (Hmin (j, instant_of y)). right. apply candidates_spec. by exists y.
  - apply older_None in Hr as [_ Hr]. destruct l as [|y l]; [done|]. exfalso.
    assert (Hin : (0%nat, instant_of y) ∈ ([] : list (nat * Z))); [|by apply elem_of_nil in Hin].
    rewrite <- Hr. apply candidates_spec. by exists y.
Qed.

Lemma with_entries_twice l l' log : with_entries l (with_entries l' log) = with_entries l log.
Proof. done. Qed.

Lemma remove_at_delete {A} i (l : list A) : remove_at i l = delete i l.
Proof. unfold remove_at. by rewrite delete_take_drop. Qed.

Lemma remove_at_front {A} i (l : list A) x y :
  l !! i = Some x ->
  remove_at i (l ++ [y]) = remove_at i l ++ [y] /\ l ≡ₚ x :: remove_at i l /\ remove_at i l `sublist_of` l /\
  length (remove_at i l) = pred (length l) /\ (i < length l)%nat.
Proof.
  intros Hx. pose proof (lookup_lt_Some _ _ _ Hx) as Hlt. rewrite !remove_at_delete. split; [|split; [|split; [|split]]].
  - rewrite !delete_take_drop, take_app_le, drop_app_le by lia. by rewrite <- app_assoc.
  - by apply delete_Permutation.
  - apply sublist_delete.
  - rewrite length_delete by (by exists x). lia.
  - done.
Qed.

(** What is forgotten of [l] for [p] to fit: [gone], the oldest, and no more than is needed. *)
Definition forgets (log : PlayLog) (p : PlayEntry) (l gone left : list PlayEntry) : Prop :=
  l ≡ₚ gone ++ left /\ left `sublist_of` l /\
  (forall x y, x ∈ gone -> y ∈ left -> instant_of x <= instant_of y) /\
  (gone = [] \/ exists x before, before ≡ₚ x :: left /\ before `sublist_of` l /\
     too_large (with_entries (before ++ [p]) log)).

Lemma forgets_more log p j x l gone left :
  l !! j = Some x -> least x l -> too_large (with_entries (l ++ [p]) log) ->
  forgets log p (remove_at j l) gone left -> forgets log p l (x :: gone) left.
Proof.
  intros Hx Hmin Hbig (Hperm & Hsub & Hold & Hneed).
  destruct (remove_at_front j l x p Hx) as (_ & Hl & Hsl & _). split; [|split; [|split]].
  - rewrite Hl, Hperm. done.
  - by etrans.
  - intros a b [->|Ha]%elem_of_cons Hb; [|by apply Hold]. apply Hmin. eapply elem_of_sublist; [exact Hb|]. by etrans.
  - right. destruct Hneed as [->|(y & before & Hb & Hsb & Ht)].
    + exists x, l. split; [|split; [done|exact Hbig]]. by rewrite Hl, Hperm.
    + exists y, before. split; [done|]. split; [|done]. by etrans.
Qed.

Lemma retain_Ok fuel log l p s :
  entries log = l ++ [p] -> retain fuel log p (length l) = Ok s ->
  exists gone left, forgets log p l gone left /\ fits (with_entries (left ++ [p]) log) s.
Proof.
  revert log l. induction fuel as [|fuel IH]; intros log l Hl; cbn [retain].
  all: destruct (to_vec_pretty log) as [t|] eqn:Ht; [|done].
  all: assert (Hlog : log = with_entries (l ++ [p]) log) by (rewrite <- Hl; by destruct log).
  all: destruct (Z.leb_spec (str_len (t +:+ newline)) MAX_PLAY_LOG_BYTES) as [Hle|Hgt].
  1, 3: destruct (is_some_and _ _); [|done]; intros [= <-]; exists [], l; split;
    [split; [done|split; [done|split; [by intros ? ? ?%elem_of_nil|by left]]]|exists t; by rewrite <- Hlog].
  { by destruct (oldest _ _). }
  rewrite Hl. pose proof (oldest_spec l p) as Ho. destruct (oldest _ _) as [j|]; [|done].
  destruct Ho as (x & Hx & Hmin). destruct (remove_at_front j l x p Hx) as (-> & _ & _ & Hlen & Hlt).
  rewrite bool_decide_eq_true_2 by done. rewrite <- Hlen. intros (gone & left & Hf & Hs)%(IH _ (remove_at j l)); [|done].
  exists (x :: gone), left. split; [|done]. eapply forgets_more; [done|done| |exact Hf].
  exists t. rewrite <- Hlog. split; [done|lia].
Qed.

Lemma retain_Err fuel log l p e :
  entries log = l ++ [p] -> f64_finite (duration_seconds p) = true -> (length l <= fuel)%nat ->
  retain fuel log p (length l) = Err e ->
  exists left, left `sublist_of` l /\
    (is_err (to_vec_pretty (with_entries (left ++ [p]) log)) = true \/
     left = [] /\ too_large (with_entries (left ++ [p]) log)).
Proof.
  revert log l. induction fuel as [|fuel IH]; intros log l Hl Hp Hlen; cbn [retain].
  all: assert (Hlog : log = with_entries (l ++ [p]) log) by (rewrite <- Hl; by destruct log).
  all: destruct (to_vec_pretty log) as [t|] eqn:Ht; [|exists l; split; [done|left; by rewrite <- Hlog, Ht]].
  all: destruct (Z.leb_spec (str_len (t +:+ newline)) MAX_PLAY_LOG_BYTES) as [Hle|Hgt].
  1, 3: rewrite Hl, lookup_app_r, Nat.sub_diag by lia; cbn [lookup list_lookup is_some_and]; by rewrite entry_eq_refl.
  { destruct l; [|simpl in *; lia]. intros _. exists []. split; [done|right]. split; [done|]. exists t. rewrite <- Hlog.
    split; [done|lia]. }
  rewrite Hl. pose proof (oldest_spec l p) as Ho. destruct (oldest _ _) as [j|].
  - destruct Ho as (x & Hx & Hmin). destruct (remove_at_front j l x p Hx) as (-> & _ & Hsub & Hlen' & Hlt).
    rewrite bool_decide_eq_true_2 by done. rewrite <- Hlen'. intros (left & Hs & Hc)%(IH _ (remove_at j l)); [|done|done|lia].
    exists left. split; [by etrans|exact Hc].
  - intros _. subst l. exists []. split; [done|right]. split; [done|]. exists t. rewrite <- Hlog. split; [done|lia].
Qed.

(** The play being added always stays. To make it fit, a document forgets its
    oldest plays and no more of them than it has to. It is refused only when the
    play alone does not fit, or JSON fails. *)
Theorem retention_spec log l p :
  entries log = l ++ [p] -> f64_finite (duration_seconds p) = true ->
  match serialize_with_retention log (length l) with
  | Ok s => exists gone left, forgets log p l gone left /\ fits (with_entries (left ++ [p]) log) s
  | Err _ => exists left, left `sublist_of` l /\
      (is_err (to_vec_pretty (with_entries (left ++ [p]) log)) = true \/
       left = [] /\ too_large (with_entries (left ++ [p]) log))
  end.
Proof.
  intros Hl Hp. unfold serialize_with_retention. rewrite Hl, lookup_app_r, Nat.sub_diag by lia. cbn [lookup list_lookup].
  rewrite length_app. destruct (retain _ _ _ _) as [s|e] eqn:Hr.
  - by eapply retain_Ok.
  - eapply retain_Err; [done|done| |exact Hr]. simpl. lia.
Qed.

(** ** File names *)

Definition hex_value (a : ascii) : Z := if byte a <? 65 then byte a - 48 else byte a - 55.

(** What was encoded, from its encoding. *)
Fixpoint decode_uri (l : text) : text :=
  match l with
  | [] => []
  | a :: l =>
      if bool_decide (a = "%"%char) then
        match l with
        | h :: k :: l => ascii_of_N (Z.to_N (16 * hex_value h + hex_value k)) :: decode_uri l
        | _ => []
        end
      else a :: decode_uri l
  end.

Lemma decode_encode_char a l : decode_uri (encode_char a ++ l) = a :: decode_uri l.
Proof. destruct a as [[] [] [] [] [] [] [] []]; reflexivity. Qed.

Lemma decode_encode_uri s : decode_uri (to_text (encode_uri_component s)) = to_text s.
Proof.
  unfold encode_uri_component. rewrite to_of_text. induction (to_text s) as [|a l IH]; [done|].
  cbn [fmap list_fmap concat]. by rewrite decode_encode_char, IH.
Qed.

Lemma encode_uri_inj s t : encode_uri_component s = encode_uri_component t -> s = t.
Proof.
  intros Heq. rewrite <- (of_to_text s), <- (of_to_text t). f_equal.
  by rewrite <- (decode_encode_uri s), <- (decode_encode_uri t), Heq.
Qed.

(** A byte of a file name. *)
Definition name_byte (a : ascii) : bool := negb (is_byte SLASH a) && negb (is_byte 0 a).

Definition proper_name (s : string) : Prop :=
  s <> EmptyString /\ s <> "." /\ s <> ".." /\ str_len s <= NAME_MAX /\ all_chars name_byte s = true.

Lemma encode_char_bytes a : forallb name_byte (encode_char a) = true.
Proof. destruct a as [[] [] [] [] [] [] [] []]; reflexivity. Qed.

Lemma encode_uri_bytes s : all_chars name_byte (encode_uri_component s) = true.
Proof.
  rewrite all_chars_text. unfold encode_uri_component. rewrite to_of_text. apply forallb_spec.
  intros x (l & Hl & Hx)%list_elem_of_In%in_concat. apply list_elem_of_In in Hl, Hx. apply list_elem_of_fmap in Hl as (a & -> & _).
  by apply (proj1 (forallb_spec _ _) (encode_char_bytes a)).
Qed.

Lemma app_tail_inj s t x : s +:+ x = t +:+ x -> s = t.
Proof.
  intros Heq. rewrite <- (of_to_text s), <- (of_to_text t). f_equal. apply (f_equal to_text) in Heq.
  rewrite !to_text_app in Heq. by apply app_inv_tail in Heq.
Qed.

Lemma file_name_proper game : str_len (encode_uri_component game) + 5 <= NAME_MAX -> proper_name (file_name game).
Proof.
  intros Hlen. unfold file_name. assert (Hl : str_len (encode_uri_component game +:+ ".json") = str_len (encode_uri_component game) + 5).
  { by rewrite str_len_app. }
  assert (0 <= str_len (encode_uri_component game)) by (unfold str_len; lia).
  split; [intros Hx; rewrite Hx in Hl; change (str_len EmptyString) with 0 in Hl; lia|].
  split; [intros Hx; rewrite Hx in Hl; change (str_len ".") with 1 in Hl; lia|].
  split; [intros Hx; rewrite Hx in Hl; change (str_len "..") with 2 in Hl; lia|]. split; [lia|].
  rewrite all_chars_text, to_text_app, forallb_app, <- all_chars_text, encode_uri_bytes. done.
Qed.

Lemma person_name_proper person :
  validate_person_id person = Ok () -> proper_name (encode_uri_component person).
Proof.
  unfold validate_person_id. destruct (str_is_empty person) eqn:He; [done|]. simpl.
  case_bool_decide; [done|]. case_bool_decide; [done|]. simpl.
  destruct (Z.ltb_spec NAME_MAX (str_len (encode_uri_component person))); [done|]. intros _.
  split; [|split; [done|split; [done|split; [done|apply encode_uri_bytes]]]].
  intros Hx. apply (encode_uri_inj person EmptyString) in Hx. by subst.
Qed.

Lemma file_not_temporary game name nonce : file_name game <> temporary_name name nonce.
Proof.
  intros Heq. apply (f_equal (fun s => last (to_text s))) in Heq. unfold file_name, temporary_name in Heq.
  by rewrite !to_text_app, !last_app in Heq.
Qed.

(** C38: Every valid person and game have a file of their own: three proper file
    names below the private state root, different for different keys, and never
    the name of a temporary file. *)
Theorem key_has_own_file key :
  validate_history_key key = Ok () ->
  (exists user file, path_for key = [PLAY_LOG_DIRECTORY; user; file] /\
     proper_name PLAY_LOG_DIRECTORY /\ proper_name user /\ proper_name file /\
     forall name nonce, file <> temporary_name name nonce) /\
  forall key', validate_history_key key' = Ok () -> path_for key' = path_for key -> key' = key.
Proof.
  unfold validate_history_key. destruct (validate_person_id (user_id key)) as [[]|] eqn:Hp; [|done].
  destruct (str_is_empty (game_id key)); [done|]. simpl.
  destruct (Z.ltb_spec NAME_MAX (str_len (encode_uri_component (game_id key)) + 5)); [done|]. intros _. split.
  - exists (encode_uri_component (user_id key)), (file_name (game_id key)). split; [done|].
    split; [by repeat split|]. split; [by apply person_name_proper|]. split; [by apply file_name_proper|].
    apply file_not_temporary.
  - intros [user game] _. destruct key as [user' game']. unfold path_for, user_directory, root. simpl.
    intros [= Hu Hg]. unfold file_name in Hg. apply app_tail_inj in Hg. f_equal; by apply encode_uri_inj.
Qed.
End play_log.

(** ** The document of a key on the disk *)

(** What serde_json and chrono promise. A number with a fraction may read back as
    a neighbour. The last instant is that of year 262142; up to year 9999 a
    time stamp reads back. *)
Class PlayCodecLaws (PC : PlayCodec) : Prop := {
  log_text l s : to_vec_pretty l = Ok s -> log_from_slice (s +:+ newline) = Ok (reread_log l);
  json_float_valid x :
    f64_finite x = true -> f64_lt x f64_zero = false ->
    f64_finite (json_float x) = true /\ f64_lt (json_float x) f64_zero = false;
  instant_round ms s v : to_rfc3339_millis ms = Some s -> rfc3339_instant s = Some v -> v = ms;
  instant_range ms s : to_rfc3339_millis ms = Some s -> ms <= 8210266876799999;
  instant_total ms : 0 <= ms <= 253402300799999 ->
    exists s, to_rfc3339_millis ms = Some s /\ rfc3339_instant s = Some ms;
}.

(** The file, if there, is private and synced, and lists [l]. *)
Definition log_is `{PlayCodec} (key : PlayHistoryKey) (n : option node) (l : list PlayEntry) : Prop :=
  match n with
  | None => l = []
  | Some (Regular mode content true) =>
      exposed mode = false /\ str_len content <= MAX_PLAY_LOG_BYTES /\
      exists log, log_from_slice content = Ok log /\ valid_log log key = true /\ entries log = l
  | Some _ => False
  end.

Definition log_of (key : PlayHistoryKey) (l : list PlayEntry) : PlayLog := MkPlayLog (user_id key) (game_id key) l.

Lemma valid_log_of `{PlayCodec} log key : valid_log log key = true -> log = log_of key (entries log).
Proof.
  unfold valid_log. rewrite !andb_true_iff, !bool_decide_eq_true. intros [[Hu Hg] _]. unfold log_of. rewrite <- Hu, <- Hg.
  by destruct log.
Qed.

Lemma stat_NotFound p t : stat p t = Err NotFound <-> t !! p = None.
Proof. unfold stat. by destruct (t !! p). Qed.

Section stored.
Context `{Sv : !Services} `{PC : !PlayCodec}.
Context (I : disk -> Prop).

Notation wp := (Programs.wp (Reply:=Reply) (Choice:=Choice) effect).

Lemma wp_existing p (Q : bool -> disk -> Prop) d :
  I d -> (forall b, (b = false -> seen d !! p = None) -> Q b d) ->
  wp I (on_ok Q) (existing_private_directory p) d.
Proof.
  intros Hi Hq. apply wp_stat; [done|]. intros r [->| ->]; [|by apply wp_err].
  destruct (stat p (seen d)) as [m|[| |]] eqn:Hr; try by apply wp_err.
  - destruct (private_directory m); [|by apply wp_err]. apply wp_ok; [done|]. by apply Hq.
  - apply wp_ok; [done|]. apply Hq. intros _. by apply stat_NotFound.
Qed.

Lemma wp_read_bounded key (Q : option string -> disk -> Prop) l d :
  I d -> log_is key (seen d !! path_for key) l ->
  (l = [] -> Q None d) ->
  (forall content log, log_from_slice content = Ok log -> valid_log log key = true -> entries log = l -> Q (Some content) d) ->
  wp I (on_ok Q) (read_bounded_private (path_for key) MAX_PLAY_LOG_BYTES) d.
Proof.
  intros Hi Hl Hnone Hsome. apply wp_stat; [done|]. intros r [->| ->]; [|by apply wp_err]. unfold stat, log_is in *.
  destruct (seen d !! path_for key) as [[m|mode content []|b|]|] eqn:Hn; try done; cbn [metadata].
  2: by apply wp_ok, Hnone.
  destruct Hl as (Hm & Hlen & log & Hlog & Hv & He). rewrite Hm, (proj2 (Z.ltb_ge _ _) Hlen). cbn [orb].
  apply wp_read_file; [done|]. intros r [->| ->]; [|by apply wp_err]. unfold read_file. rewrite Hn.
  rewrite prefix_all by (unfold str_len, MAX_PLAY_LOG_BYTES in *; lia). rewrite (proj2 (Z.ltb_ge _ _) Hlen).
  apply wp_ok; [done|]. by eapply Hsome.
Qed.

(** A document is where its directories are. *)
Definition log_reachable (key : PlayHistoryKey) (t : tree) : Prop :=
  t !! root = None \/ t !! user_directory key = None -> t !! path_for key = None.

Lemma wp_load_for_write key l d :
  I d -> log_is key (seen d !! path_for key) l -> log_reachable key (seen d) ->
  wp I (on_ok (fun log d' => d' = d /\ log = log_of key l)) (load_for_write_unlocked key) d.
Proof.
  intros Hi Hl Hr. unfold load_for_write_unlocked, load_decoded_unlocked.
  destruct (validate_history_key key) as [[]|e]; [|by apply wp_err].
  assert (Hempty : seen d !! path_for key = None -> empty_log key = log_of key l).
  { intros Hn. rewrite Hn in Hl. simpl in Hl. by subst. }
  apply wp_step, wp_existing; [done|]. intros [] Ha; cbn [negb].
  2: { apply wp_ok; [done|]. split; [done|]. apply Hempty, Hr. left. by apply Ha. }
  apply wp_step, wp_existing; [done|]. intros [] Hb; cbn [negb].
  2: { apply wp_ok; [done|]. split; [done|]. apply Hempty, Hr. right. by apply Hb. }
  apply wp_step. eapply wp_read_bounded; [done|exact Hl| |].
  - intros ->. by apply wp_ok.
  - intros content log Hlog Hv He. rewrite Hlog. cbn [ok]. rewrite Hv. apply wp_ok; [done|]. split; [done|].
    subst l. by apply valid_log_of.
Qed.
End stored.

(** ** What a stop leaves beside the documents *)

Section leftover.
Context `{Sv : !Services} `{PC : !PlayCodec}.
Context (d : disk).

Notation wp := (Programs.wp (Reply:=Reply) (Choice:=Choice) effect).
Notation ends := (Programs.ends (Reply:=Reply) (Choice:=Choice) effect).
Notation fails := (wp (fun d' => d' = d) (fun r _ => is_err r = true)).

Lemma fails_attempt {E A B} (p : prog Op Reply (result E A)) (f : A -> prog Op Reply (result E B)) :
  wp (fun d' => d' = d) (on_ok (fun a _ => fails (f a) d)) p d -> fails (attempt p f) d.
Proof.
  intros Hp. apply wp_attempt. eapply wp_mono; [|exact Hp]. by intros [a|e] d' -> Hq.
Qed.

Lemma quiet_bounded p limit :
  wp (fun d' => d' = d) (fun _ _ => True) (read_bounded_private p limit) d.
Proof.
  apply wp_stat; [done|]. intros [[|mode len|]|[| |]] _; try by apply wp_ret. destruct (_ || _); [by apply wp_ret|].
  apply wp_read_file; [done|]. intros r _. by apply wp_ret.
Qed.

(** A name of no document refuses the whole directory. *)
Lemma read_entries_refuse directory person l name :
  name ∈ l -> (forall game, name <> file_name game) -> fails (read_entries directory person l) d.
Proof.
  intros Hin Hname. induction l as [|x l IH]; [by apply elem_of_nil in Hin|]. cbn [read_entries].
  destruct (negb _); [by apply wp_ret|]. apply fails_attempt. eapply wp_mono; [|apply quiet_bounded].
  intros [[bytes|]|e] d' -> _; [|by apply wp_ret|done]. cbn [on_ok].
  destruct (check_person_record person x bytes) as [r|e] eqn:Hcheck; [|by apply wp_ret].
  apply elem_of_cons in Hin as [->|Hin].
  - exfalso. unfold check_person_record in Hcheck. destruct (log_from_slice bytes) as [log|]; [|done].
    destruct (validate_history_key _); [|done]. rewrite (bool_decide_eq_false_2 _ (Hname (log_game log))) in Hcheck.
    by rewrite orb_true_r in Hcheck.
  - apply fails_attempt. eapply wp_mono; [|by apply IH]. intros [rest|e] d' -> Hq; [done|done].
Qed.

Lemma existing_present p (f : bool -> prog Op Reply (result PlayLogError unit)) :
  seen d !! p <> None -> fails (f true) d -> fails (attempt (existing_private_directory p) f) d.
Proof.
  intros Hp Hf. apply fails_attempt, wp_stat; [done|]. unfold stat. intros r [->| ->]; [|by apply wp_ret].
  destruct (seen d !! p) as [n|]; [|done]. destruct (private_directory _); by apply wp_ret.
Qed.

(** A stop of [write_private_atomically] before its rename leaves the new file
    in the person's directory. From then on [delete_person_records] fails for
    that person, whatever happens, and deletes nothing: no file of that name is a
    document, and nothing of the play log ever removes it. *)
Theorem leftover_blocks_deletion person name nonce d' r :
  seen d !! root <> None -> seen d !! person_directory person <> None ->
  seen d !! (person_directory person ++ [temporary_name name nonce]) <> None ->
  ends (delete_person_records person) d d' r -> is_err r = true /\ d' = d.
Proof.
  intros Hroot Hdir Hfile He. assert (Hw : fails (delete_person_records person) d).
  { unfold delete_person_records. destruct (validate_person_id person) as [[]|]; [|by apply wp_ret].
    apply existing_present; [done|]. cbn [negb]. apply fails_attempt. eapply (wp_mono _ (fun r _ => is_err r = true)).
    { by intros [x|e] d0 -> Hq. }
    unfold read_person_records. apply fails_attempt, wp_stat; [done|]. unfold stat. intros s [->| ->]; [|by apply wp_ret].
    destruct (seen d !! person_directory person) as [n|] eqn:Hn; [|done]. destruct (private_directory _); [|by apply wp_ret].
    apply wp_ret; [done|]. apply wp_read_dir; [done|]. unfold read_dir. rewrite Hn. intros s [->| ->]; [|by apply wp_ret].
    destruct n; try by apply wp_ret. apply fails_attempt. eapply wp_mono; [|apply (read_entries_refuse _ _ _ (temporary_name name nonce))].
    - by intros [x|e] d0 -> Hq.
    - apply elem_of_names. by apply not_eq_None_Some.
    - intros game. apply not_eq_sym, file_not_temporary. }
  split; [by apply (wp_ends _ _ _ _ _ _ He Hw)|]. exact (wp_stops _ _ _ _ _ (ends_stops _ _ _ _ He) Hw).
Qed.
End leftover.
