(* ===== verification/Saves.v ===== *)
(** * Save snapshots (services/korrid/src/saves/types.rs, record.rs)

    The record of one snapshot of a game's saves, and what makes it valid. *)

From S2P Require Import Prelude Text.

Inductive SaveKind : Type := Save | Savestate | Screenshot.

Record SaveLocation := MkSaveLocation { location_key : string; location_kind : SaveKind; location_path : string }.

Record SaveFile := MkSaveFile { file_path : string; sha256 : string; file_bytes : Z }.

Record SnapshotLocation := MkSnapshotLocation { snap_key : string; snap_kind : SaveKind; files : list SaveFile }.

Record SnapshotRecord := MkSnapshotRecord {
  parents : list string;
  snap_game : string;
  snap_release : option string;
  runner_id : string;
  device : string;
  ended_at : string;
  snap_duration : Z;
  interrupted : bool;
  snap_locations : list SnapshotLocation;
}.

#[export] Instance SaveKind_eq_dec : EqDecision SaveKind.
Proof. solve_decision. Defined.
#[export] Instance SaveLocation_eq_dec : EqDecision SaveLocation.
Proof. solve_decision. Defined.
#[export] Instance SaveFile_eq_dec : EqDecision SaveFile.
Proof. solve_decision. Defined.
#[export] Instance SnapshotLocation_eq_dec : EqDecision SnapshotLocation.
Proof. solve_decision. Defined.
#[export] Instance SnapshotRecord_eq_dec : EqDecision SnapshotRecord.
Proof. solve_decision. Defined.

Definition lower_hex64 (s : string) : bool := (str_len s =? 64) && all_chars is_lower_hex s.

(** The digits of a hash. *)
Definition hash_hex (value : string) : option string :=
  match strip_prefix "sha256:" value with
  | Some hex => if lower_hex64 hex then Some hex else None
  | None => None
  end.

(** The components of the path are all normal ones. *)
Definition relative_file (p : string) : bool :=
  let pieces := split_on SLASH p in
  negb (str_is_empty p) && negb (has_nul p) && negb (is_absolute p)
  && negb (bool_decide (".." ∈ pieces)) && negb (bool_decide (head pieces = Some ".")).

(** Whether [canonical_record] returns a record. [canonical_time] is the time in
    UTC milliseconds, if it is one (chrono). *)
Definition account_valid (person : string) : bool := lower_hex64 person.

Definition file_valid (f : SaveFile) : bool := relative_file (file_path f) && is_some (hash_hex (sha256 f)).

Definition location_valid (l : SnapshotLocation) : bool :=
  negb (str_is_empty (snap_key l)) && forallb file_valid (files l) && bool_decide (NoDup (file_path <$> files l)).

Definition canonical_record_ok (canonical_time : string -> option string) (r : SnapshotRecord) : bool :=
  negb (str_is_empty (snap_game r)) && negb (str_is_empty (runner_id r)) && account_valid (device r)
  && bool_decide (canonical_time (ended_at r) = Some (ended_at r))
  && forallb (fun p => is_some (hash_hex p)) (parents r)
  && forallb location_valid (snap_locations r) && bool_decide (NoDup (snap_key <$> snap_locations r)).
