(* ===== verification/Sessions.v ===== *)
(** * The completion of a session
    (services/korrid/src/host/identity.rs, hooks.rs, session_state.rs)

    The active record is a two-phase journal: [Running] names the live unit; once
    it ended, [CompletionPending] holds the exact play, which then goes to the
    play log before the record is removed. [complete_active_snapshot] is the
    whole completion, [recover] what a start of the daemon makes of the record.
    The launch units, the limits, the seats, the save store and the clock answer
    calls ([HostCall]). *)

From stdpp Require Import pretty.
From S2P Require Import Prelude Text Decimal Hold Programs Files PlayLog Saves.

(** ** Data *)

Inductive SessionResult : Type := Exited | FailedResult | Stopped.

Record HookAfterStep := MkStep { step_run : string; step_name : option string; step_timeout : option Z }.

Record LaunchSandbox := MkSandbox {
  netplay_config_source : option string; modifiers : bool; plugin : bool; pulse_audio : bool }.

Record AfterHooks := MkHooks {
  boot_id : string;
  hook_command : list string;
  sandbox : LaunchSandbox;
  environment : gmap string string;
  steps : list HookAfterStep;
  next_step : Z;
  hook_result : option SessionResult;
  exit_status : option Z;
}.

Record StreamPlayer := MkPlayer { device_public_key : string; label : string }.

Record RunningSession := MkRunning {
  netplay_config : option string;
  stream_players : list StreamPlayer;
  starter_device_public_key : option string;
  run_launch : string;
  run_game : string;
  run_person : option string;
  run_started : N;
  save_base : option string;
  run_release : option string;
  run_runner : option string;
  save_locations : option (list SaveLocation);
  after_hooks : option AfterHooks;
}.

Record PendingSession := MkPendingSession {
  pend_launch : string;
  pend_game : string;
  pend_person : string;
  pend_started : N;
  pend_entry : PlayEntry;
  save_snapshot : option SnapshotRecord;
}.

Inductive ActiveSession : Type := Running (r : RunningSession) | CompletionPending (p : PendingSession).

#[export] Instance SessionResult_eq_dec : EqDecision SessionResult.
Proof. solve_decision. Defined.
#[export] Instance HookAfterStep_eq_dec : EqDecision HookAfterStep.
Proof. solve_decision. Defined.
#[export] Instance LaunchSandbox_eq_dec : EqDecision LaunchSandbox.
Proof. solve_decision. Defined.
#[export] Instance AfterHooks_eq_dec : EqDecision AfterHooks.
Proof. solve_decision. Defined.
#[export] Instance StreamPlayer_eq_dec : EqDecision StreamPlayer.
Proof. solve_decision. Defined.
#[export] Instance RunningSession_eq_dec : EqDecision RunningSession.
Proof. solve_decision. Defined.
#[export] Instance PendingSession_eq_dec : EqDecision PendingSession.
Proof. solve_decision. Defined.
#[export] Instance ActiveSession_eq_dec : EqDecision ActiveSession.
Proof. solve_decision. Defined.

Definition launch_id (a : ActiveSession) : string :=
  match a with Running r => run_launch r | CompletionPending p => pend_launch p end.

Definition session_game (a : ActiveSession) : string :=
  match a with Running r => run_game r | CompletionPending p => pend_game p end.

Definition with_hooks (h : option AfterHooks) (r : RunningSession) : RunningSession :=
  MkRunning (netplay_config r) (stream_players r) (starter_device_public_key r) (run_launch r) (run_game r)
    (run_person r) (run_started r) (save_base r) (run_release r) (run_runner r) (save_locations r) h.

Definition with_result (result : option SessionResult) (status : option Z) (h : AfterHooks) : AfterHooks :=
  MkHooks (boot_id h) (hook_command h) (sandbox h) (environment h) (steps h) (next_step h) result status.

Definition with_steps (l : list HookAfterStep) (next : Z) (h : AfterHooks) : AfterHooks :=
  MkHooks (boot_id h) (hook_command h) (sandbox h) (environment h) l next (hook_result h) (exit_status h).

(** *** The answers of the other components *)

Inductive LaunchUnitState : Type := UnitRunning | Frozen | FreezerTransition | Stopping | UnitCompleted.

Inductive LaunchUnitErrorKind : Type :=
| InvalidConfiguration | Spawn | Timeout | UnitError | UnitFailed | Protocol | OutputLimit.

Record LaunchUnitError := MkUnitError { kind : LaunchUnitErrorKind; message : string }.

Inductive FocusOwnership : Type := FocusLaunch | FocusExcluded | FocusOther.

Inductive HostCall : Type :=
| EndLimits (launch : string)
| EndSeats (launch : string)
| ExitStatus (launch : string)
| CleanupCompleted (launch : string)
| RunHook (launch : string) (step : Z) (command : list string) (run : string) (timeout : Z)
    (environment : gmap string string) (box : LaunchSandbox)
| RemoveCredential (config : string)
| NowEpochSeconds
| DevicePublicKey
| Capture (person : string) (locations : list SaveLocation) (template : SnapshotRecord)
| PutRecord (person : string) (snapshot : SnapshotRecord)
| NotifySnapshot (game : string)
| LiveLaunchIds
| UnitState (launch : string)
| StopUnit (launch : string)
| CurrentFocus (launch : string).

Definition HostAnswer (c : HostCall) : Type :=
  match c with
  | EndLimits _ | RemoveCredential _ | NotifySnapshot _ => unit
  | EndSeats _ | PutRecord _ _ => result string unit
  | ExitStatus _ => result LaunchUnitError (option Z)
  | CleanupCompleted _ | RunHook _ _ _ _ _ _ _ | StopUnit _ => result LaunchUnitError unit
  | NowEpochSeconds => N
  | DevicePublicKey => result string string
  | Capture _ _ _ => result string SnapshotRecord
  | LiveLaunchIds => result LaunchUnitError (list string)
  | UnitState _ => result LaunchUnitError LaunchUnitState
  | CurrentFocus _ => result string FocusOwnership
  end.

(** How the host answers when all is well, and its next random number. *)
Class Host := {
  host_answer : forall c, HostAnswer c;
  host_random : Z;
}.

#[export] Instance host_services `{Host} : Services :=
  {| Call := HostCall; Answer := HostAnswer; usual_answer := host_answer; usual_random := host_random |}.

(** JSON of the active record, and the canonical form of a time stamp. *)
Class SessionCodec := {
  active_to_vec : ActiveSession -> result string string;
  active_from_slice : string -> result string ActiveSession;
  canonical_time : string -> option string;
}.

Section sessions.
Context `{HO : !Host} `{PC : !PlayCodec} `{SC : !SessionCodec}.

Notation program A := (prog Op Reply A).

(** ** The active record (identity.rs) *)

Definition ACTIVE_FILE : string := "active.json".
Definition TEMP_ACTIVE_PREFIX : string := ".active.json-".
Definition MAX_ACTIVE_BYTES : Z := 16 * 1024 * 1024.
Definition MAX_GAME_ID_BYTES : Z := 1024.

Definition identity_root : path := ["host-session"].
Definition active_path : path := identity_root ++ [ACTIVE_FILE].

Definition require (b : bool) (message : string) : result string unit := if b then Ok () else Err message.

Definition valid_launch_id (value : string) : bool :=
  (str_len value =? 32)
  && all_chars (fun a => is_ascii_hexdigit a && negb (between 65 (byte a) 90)) value.

Definition active_person (a : ActiveSession) : result string (option string) :=
  match a with
  | Running r => Ok (run_person r)
  | CompletionPending p =>
      if is_err (validate_entry (pend_entry p)) then Err "host recovery completion entry is invalid"
      else Ok (Some (pend_person p))
  end.

Definition validate_saves (a : ActiveSession) (person : option string) : result string unit :=
  match a with
  | Running r =>
      _ ← require (is_none (save_base r) || is_some_and (save_base r) (fun b => is_some (hash_hex b)))
            "host recovery save base is invalid";
      require (negb (is_some_and (save_locations r) (fun l => negb (bool_decide (l = []))))
               || (is_some_and (run_runner r) (fun id => negb (str_is_empty id)) && is_some person))
        "host recovery save metadata is incomplete"
  | CompletionPending p =>
      match save_snapshot p with
      | None => Ok ()
      | Some snapshot =>
          _ ← require (bool_decide (snap_game snapshot = pend_game p)) "host recovery save game does not match";
          require (canonical_record_ok canonical_time snapshot) "host recovery save snapshot is invalid"
      end
  end.

Definition validate (a : ActiveSession) : result string unit :=
  _ ← require (valid_launch_id (launch_id a)) "invalid host launch identity";
  _ ← require (negb (str_is_empty (session_game a)) && (str_len (session_game a) <=? MAX_GAME_ID_BYTES))
        "host recovery game identity is invalid";
  person ← active_person a;
  _ ← require (is_none person || is_some_and person lower_hex64) "host recovery person identity is invalid";
  validate_saves a person.

Definition io {T} (r : result IoError T) : result string T := map_err io_text r.

Definition not_private : string := "host recovery state directory is not private".

(** The only entry must be the record. *)
Definition read_record : program (result string (option ActiveSession)) :=
  step! m <- Do (Stat active_path) (fun r => Ret (io r)) ;;
  match m with
  | MetaFile mode len =>
      if exposed mode || (MAX_ACTIVE_BYTES <? len)
      then Ret (Err "host recovery record is not a private regular file")
      else
        step! bytes <- Do (ReadFile active_path (MAX_ACTIVE_BYTES + 1)) (fun r => Ret (io r)) ;;
        Ret (if MAX_ACTIVE_BYTES <? str_len bytes then Err "host recovery record is oversized"
             else
               record ← map_err (fun _ => "host recovery record is malformed") (active_from_slice bytes);
               _ ← validate record;
               Ok (Some record))
  | _ => Ret (Err "host recovery record is not a private regular file")
  end.

Definition read_active : program (result string (option ActiveSession)) :=
  Do (Stat identity_root) (fun r =>
    match r with
    | Err NotFound => Ret (Ok None)
    | Err e => Ret (Err (io_text e))
    | Ok m =>
        if negb (private_directory m) then Ret (Err not_private)
        else
          step! l <- Do (ReadDir identity_root) (fun r => Ret (io r)) ;;
          match l with
          | [] => Ret (Ok None)
          | [name] => if bool_decide (name = ACTIVE_FILE) then read_record
                      else Ret (Err "host recovery state is ambiguous")
          | _ => Ret (Err "host recovery state is ambiguous")
          end
    end).

Definition hex_digits (n : nat) (z : Z) : text :=
  reverse (map (fun i => let d := z / 16 ^ Z.of_nat i mod 16 in
                         if d <? 10 then digit d else ascii_of_N (Z.to_N (87 + d))) (seq 0 n)).

(** [generate_launch_id]: sixteen random bytes, in hex. *)
Definition launch_id_text (random : Z) : string := of_text (hex_digits 32 random).

Definition temporary_active (nonce : Z) : path := identity_root ++ [TEMP_ACTIVE_PREFIX +:+ launch_id_text nonce].

Definition stage_active (temporary : path) (serialized : string) : program (result string unit) :=
  step! _ <- Do (CreateNew temporary 384) (fun r => Ret (io r)) ;;
  step! _ <- Do (WriteAll temporary serialized) (fun r => Ret (io r)) ;;
  step! _ <- Do (SyncFile temporary) (fun r => Ret (io r)) ;;
  step! _ <- Do (Rename temporary active_path) (fun r => Ret (io r)) ;;
  Do (SyncDir identity_root) (fun r => Ret (io r)).

Definition write_active (record : ActiveSession) : program (result string unit) :=
  match validate record with
  | Err e => Ret (Err e)
  | Ok _ =>
      Do (Random 128) (fun nonce =>
        match active_to_vec record with
        | Err e => Ret (Err e)
        | Ok s =>
            let serialized := s +:+ newline in
            if MAX_ACTIVE_BYTES <? str_len serialized then Ret (Err "host recovery record is oversized")
            else
              bind (stage_active (temporary_active nonce) serialized) (fun r =>
                match r with
                | Ok _ => Ret (Ok ())
                | Err e => Do (RemoveFile (temporary_active nonce)) (fun _ => Ret (Err e))
                end)
        end)
  end.

Definition ensure_private_root : program (result string unit) :=
  Do (Stat identity_root) (fun r =>
    match r with
    | Ok m => Ret (if private_directory m then Ok () else Err not_private)
    | Err NotFound =>
        step! _ <- Do (MkDir identity_root 448) (fun r => Ret (io r)) ;;
        Do (SyncDir (parent identity_root)) (fun r => Ret (io r))
    | Err e => Ret (Err (io_text e))
    end).

Definition persist_active (record : ActiveSession) : program (result string unit) :=
  step! _ <- ensure_private_root ;;
  step! l <- Do (ReadDir identity_root) (fun r => Ret (io r)) ;;
  match l with
  | [] => write_active record
  | _ => Ret (Err "host recovery state is not empty")
  end.

Definition replace_active (record : ActiveSession) : program (result string unit) :=
  step! current <- read_active ;;
  match current with
  | None => Ret (Err "host recovery state has no active record to replace")
  | Some _ => write_active record
  end.

Definition is_temporary (name : string) : bool := starts_with TEMP_ACTIVE_PREFIX name.

(** Whether every entry is a private file. *)
Fixpoint all_private_files (l : list string) : program bool :=
  match l with
  | [] => Ret true
  | name :: l =>
      Do (Stat (identity_root ++ [name])) (fun r =>
        match r with
        | Ok (MetaFile mode _) => if exposed mode then Ret false else all_private_files l
        | _ => Ret false
        end)
  end.

Fixpoint remove_files (l : list string) : program (result string unit) :=
  match l with
  | [] => Ret (Ok ())
  | name :: l =>
      step! _ <- Do (RemoveFile (identity_root ++ [name])) (fun r => Ret (io r)) ;;
      remove_files l
  end.

Definition clear_crash_temporary_active : program (result string bool) :=
  Do (Exists identity_root) (fun there =>
    if negb there then Ret (Ok false)
    else
      step! m <- Do (Stat identity_root) (fun r => Ret (io r)) ;;
      if negb (private_directory m) then Ret (Ok false)
      else
        step! l <- Do (ReadDir identity_root) (fun r => Ret (io r)) ;;
        let temporaries := keep is_temporary l in
        let others := keep (fun name => negb (is_temporary name)) l in
        match temporaries with
        | [] => Ret (Ok false)
        | _ =>
            if negb (bool_decide (others = []) || bool_decide (others = [ACTIVE_FILE])) then Ret (Ok false)
            else
              bind (all_private_files l) (fun fine =>
                if negb fine then Ret (Ok false)
                else
                  step! _ <- remove_files temporaries ;;
                  step! _ <- Do (SyncDir identity_root) (fun r => Ret (io r)) ;;
                  Ret (Ok true))
        end).

Definition clear_active : program (result string unit) :=
  Do (RemoveFile active_path) (fun r =>
    match r with
    | Ok _ => Do (SyncDir identity_root) (fun r => Ret (io r))
    | Err NotFound => Ret (Ok ())
    | Err e => Ret (Err (io_text e))
    end).

Definition consume_active : program (result string (option ActiveSession)) :=
  bind read_active (fun record =>
    step! _ <- clear_active ;;
    Ret (Ok (match record with Ok r => r | Err _ => None end))).

(** ** The hooks after a session (hooks.rs) *)

Definition result_text (r : SessionResult) : string :=
  match r with Exited => "exited" | FailedResult => "failed" | Stopped => "stopped" end.

Definition hook_environment (h : AfterHooks) : gmap string string :=
  let result := default Exited (hook_result h) in
  let e := <["KORRI_SESSION_RESULT" := result_text result]> (<["KORRI_HOOK_PHASE" := "after"]> (environment h)) in
  let e := delete "KORRI_EXIT_STATUS" e in
  match result, exit_status h with
  | Exited, Some status => <["KORRI_EXIT_STATUS" := pretty status]> e
  | _, _ => e
  end.

(** A failure is logged. *)
Definition run_next (h : AfterHooks) (launch : string) (step : HookAfterStep) : program unit :=
  Do (Ask (RunHook launch (next_step h) (hook_command h) (step_run step) (default 30 (step_timeout step))
             (hook_environment h) (sandbox h)))
     (fun _ => Ret ()).

(** ** Completion (session_state.rs) *)

(** The boot the daemon was started in. *)
Context (boot_identity : result string string).

Definition unit_answer {T} (r : result LaunchUnitError T) : result string T := map_err message r.

Definition cleanup_completed (launch : string) : program (result string unit) :=
  Do (Ask (CleanupCompleted launch)) (fun r => Ret (unit_answer r)).

Definition flatten {T} (r : result LaunchUnitError (option T)) : option T := default None (ok r).

Definition running_with (r : RunningSession) (h : AfterHooks) : ActiveSession := Running (with_hooks (Some h) r).

(** The result of the session, settled before its first step runs. *)
Definition settle_result (launch : string) (h : AfterHooks) : program AfterHooks :=
  match hook_result h with
  | Some _ => Ret h
  | None => Do (Ask (ExitStatus launch)) (fun r => Ret (with_result (Some Exited) (flatten r) h))
  end.

(** The steps run from the last; [pending] is them in this order. *)
Fixpoint finish_steps (launch current_boot : string) (r : RunningSession) (pending : list HookAfterStep)
    (h : AfterHooks) : program (result string ActiveSession) :=
  match pending with
  | step :: rest =>
      if negb (bool_decide (boot_id h = current_boot))
      then step! _ <- cleanup_completed launch ;; Ret (Ok (running_with r h))
      else
        bind (settle_result launch h) (fun h =>
          step! _ <- replace_active (running_with r h) ;;
          step! _ <- cleanup_completed launch ;;
          bind (run_next h launch step) (fun _ =>
            let h := with_steps (reverse rest) ((next_step h + 1) mod 2 ^ 64) h in
            step! _ <- replace_active (running_with r h) ;;
            finish_steps launch current_boot r rest h))
  | [] => step! _ <- cleanup_completed launch ;; Ret (Ok (running_with r h))
  end.

Definition finish_after_hooks (record : ActiveSession) : program (result string ActiveSession) :=
  match record with
  | Running r =>
      match after_hooks r with
      | Some h =>
          match boot_identity with
          | Err e => Ret (Err e)
          | Ok boot => finish_steps (run_launch r) boot r (reverse (steps h)) h
          end
      | None => step! _ <- cleanup_completed (launch_id record) ;; Ret (Ok record)
      end
  | CompletionPending _ => step! _ <- cleanup_completed (launch_id record) ;; Ret (Ok record)
  end.

Definition remove_netplay_credential (record : ActiveSession) : program unit :=
  match record with
  | Running r =>
      match netplay_config r with
      | Some config => Do (Ask (RemoveCredential config)) (fun _ => Ret ())
      | None => Ret ()
      end
  | CompletionPending _ => Ret ()
  end.

Definition snapshot_template (r : RunningSession) (runner device : string) (entry : PlayEntry) (duration : Z)
    (interrupted : bool) : SnapshotRecord :=
  MkSnapshotRecord (match save_base r with Some b => [b] | None => [] end) (run_game r) (run_release r) runner device
    (occurred_at entry) duration interrupted [].

(** The saves of the session, when it has any. *)
Definition capture_saves (r : RunningSession) (person : string) (entry : PlayEntry) (duration : Z)
    (interrupted : bool) : program (result string (option SnapshotRecord)) :=
  match run_runner r, save_locations r with
  | Some runner, Some (l :: ls) =>
      step! device <- Do (Ask DevicePublicKey) Ret ;;
      step! snapshot <- Do (Ask (Capture person (l :: ls)
        (snapshot_template r runner device entry duration interrupted))) Ret ;;
      Ret (Ok (Some snapshot))
  | _, _ => Ret (Ok None)
  end.

Definition play {T} (r : result PlayLogError T) : result string T := map_err play_log_text r.

(** The first phase: the play, with its saves, takes the place of the session. *)
Definition journal_completion (r : RunningSession) (person : string) (interrupted : bool)
    : program (result string PendingSession) :=
  let key := MkKey person (run_game r) in
  Do (Ask NowEpochSeconds) (fun now =>
    let duration := saturating_sub (Z.of_N now) (Z.of_N (run_started r)) in
    step! entry <- bind (unique_completion_entry key (Z.min u64_max (Z.of_N now * 1000)) (f64_of_Z duration)) (fun e => Ret (play e)) ;;
    step! snapshot <- capture_saves r person entry duration interrupted ;;
    let pending := MkPendingSession (run_launch r) (run_game r) person (run_started r) entry snapshot in
    step! _ <- replace_active (CompletionPending pending) ;;
    Ret (Ok pending)).

(** The second phase: into the play log, and the record goes. *)
Definition finish_completion (p : PendingSession) : program (result string unit) :=
  let key := MkKey (pend_person p) (pend_game p) in
  step! _ <- match save_snapshot p with
             | Some snapshot => Do (Ask (PutRecord (pend_person p) snapshot)) Ret
             | None => Ret (Ok ())
             end ;;
  step! _ <- bind (record key (pend_entry p)) (fun r => Ret (play r)) ;;
  step! _ <- clear_active ;;
  match save_snapshot p with
  | Some _ => Do (Ask (NotifySnapshot (pend_game p))) (fun _ => Ret (Ok ()))
  | None => Ret (Ok ())
  end.

Definition complete_record (record : ActiveSession) (interrupted : bool) : program (result string unit) :=
  match record with
  | Running r =>
      match run_person r with
      | None => clear_active
      | Some person => step! p <- journal_completion r person interrupted ;; finish_completion p
      end
  | CompletionPending p => finish_completion p
  end.

Definition complete_active_snapshot (interrupted : bool) : program (result string unit) :=
  step! record <- read_active ;;
  match record with
  | None => Ret (Ok ())
  | Some record =>
      Do (Ask (EndLimits (launch_id record))) (fun _ =>
        step! _ <- Do (Ask (EndSeats (launch_id record))) Ret ;;
        step! record <- finish_after_hooks record ;;
        bind (remove_netplay_credential record) (fun _ => complete_record record interrupted))
  end.

(** [shutting_down] is read when a completion starts. *)
Definition complete_active (shutting_down : bool) : program (result string unit) :=
  complete_active_snapshot shutting_down.

Definition mark_hook_result (outcome : SessionResult) : program (result string unit) :=
  step! record <- read_active ;;
  match record with
  | Some (Running r) =>
      match after_hooks r with
      | Some h =>
          if bool_decide (hook_result h = Some Stopped) then Ret (Ok ())
          else
            bind (match outcome with
                  | Exited => Do (Ask (ExitStatus (run_launch r))) (fun s => Ret (with_result (Some outcome) (flatten s) h))
                  | _ => Ret (with_result (Some outcome) (exit_status h) h)
                  end)
              (fun h => replace_active (running_with r h))
      | None => Ret (Ok ())
      end
  | _ => Ret (Ok ())
  end.

(** A launch that never reached the player leaves no play. *)
Definition discard_active : program (result string unit) :=
  step! record <- read_active ;;
  step! _ <- match record with
             | None => Ret (Ok ())
             | Some record =>
                 bind (remove_netplay_credential record) (fun _ =>
                   Do (Ask (EndLimits (launch_id record))) (fun _ =>
                     step! _ <- Do (Ask (EndSeats (launch_id record))) Ret ;;
                     let record :=
                       match record with
                       | Running r =>
                           match after_hooks r with
                           | Some h =>
                               running_with r (match hook_result h with
                                               | None => with_result (Some FailedResult) (exit_status h) h
                                               | Some _ => h
                                               end)
                           | None => record
                           end
                       | CompletionPending _ => record
                       end in
                     step! _ <- finish_after_hooks record ;; Ret (Ok ())))
             end ;;
  step! _ <- consume_active ;; Ret (Ok ()).

(** ** Recovery *)

Inductive ActiveState : Type :=
| StateRunning (launch : string) (game : option string)
| StateFrozen (launch : string) (game : option string)
| FocusFailed (launch : string) (game : option string)
| StateStopping (launch : string) (game : option string)
| Completed (launch : string)
| Failed (launch message : string)
| NoActive
| RecoveryPending
| RecoveryBlocked.

(** Whether all of it succeeded. *)
Definition succeeds {E T} (p : program (result E T)) : program bool := bind p (fun r => Ret (is_ok r)).

Definition clear_failed_unit (launch : string) : program bool :=
  Do (Ask (StopUnit launch)) (fun r =>
    if is_ok r then Ret true
    else Do (Ask (UnitState launch)) (fun s => Ret (match s with Ok UnitCompleted => true | _ => false end))).

Definition recover_failed_unit (launch message : string) : program ActiveState :=
  bind (succeeds (mark_hook_result FailedResult)) (fun marked =>
    if negb marked then Ret RecoveryBlocked
    else bind (clear_failed_unit launch) (fun cleared =>
      if negb cleared then Ret RecoveryBlocked
      else bind (succeeds (complete_active_snapshot true)) (fun completed =>
        Ret (if completed then Failed launch message else RecoveryBlocked)))).

(** With the overlay intent that was recovered, or was there. *)
Definition recovered_running_state (launch : string) (game : option string)
    : program (ActiveState * option string) :=
  Do (Ask (CurrentFocus launch)) (fun r =>
    Ret (match r with
         | Ok FocusLaunch => (StateRunning launch game, None)
         | Ok FocusExcluded => (FocusFailed launch game, Some launch)
         | Ok FocusOther | Err _ => (FocusFailed launch game, None)
         end)).

Definition active_from_observed (observed : LaunchUnitState) (launch : string) (game : option string) : ActiveState :=
  match observed with
  | Frozen | FreezerTransition => StateFrozen launch game
  | _ => StateRunning launch game
  end.

Definition complete_or_block : program ActiveState :=
  bind (succeeds (complete_active_snapshot true)) (fun b => Ret (if b then NoActive else RecoveryBlocked)).

Definition failed_or_pending (launch : string) (e : LaunchUnitError) : program ActiveState :=
  match kind e with
  | UnitFailed => recover_failed_unit launch (message e)
  | _ => Ret RecoveryPending
  end.

(** The record of a launch whose unit is the only live one. *)
Definition recover_live (r : RunningSession) (intent : option string) : program (ActiveState * option string) :=
  let launch := run_launch r in let game := Some (run_game r) in
  Do (Ask (UnitState launch)) (fun s =>
    match s with
    | Ok UnitRunning => recovered_running_state launch game
    | Ok (Frozen as observed) | Ok (FreezerTransition as observed) =>
        Ret (active_from_observed observed launch game, intent)
    | Ok Stopping => Ret (StateStopping launch game, intent)
    | Ok UnitCompleted => bind complete_or_block (fun a => Ret (a, intent))
    | Err e => bind (failed_or_pending launch e) (fun a => Ret (a, intent))
    end).

(** The record of a launch while no unit is live. *)
Definition recover_gone (r : RunningSession) : program ActiveState :=
  Do (Ask (UnitState (run_launch r))) (fun s =>
    match s with
    | Ok UnitCompleted => complete_or_block
    | Ok _ => Ret RecoveryBlocked
    | Err e => failed_or_pending (run_launch r) e
    end).

(** What is left of a write that was cut short is removed while no unit is live. *)
Definition read_recoverable (live : list string) : program (result string (option ActiveSession)) :=
  bind read_active (fun persisted =>
    if is_err persisted && bool_decide (live = []) then
      bind clear_crash_temporary_active (fun cleared =>
        match cleared with Ok true => read_active | _ => Ret persisted end)
    else Ret persisted).

Definition recover (intent : option string) : program (ActiveState * option string) :=
  let same p := bind p (fun a : ActiveState => Ret (a, intent)) in
  Do (Ask LiveLaunchIds) (fun r =>
    match r with
    | Err _ => Ret (RecoveryPending, intent)
    | Ok live =>
        bind (read_recoverable live) (fun persisted =>
          match persisted with
          | Ok None => Ret (if bool_decide (live = []) then NoActive else RecoveryBlocked, intent)
          | Ok (Some (CompletionPending _)) =>
              if bool_decide (live = []) then same complete_or_block else Ret (RecoveryBlocked, intent)
          | Ok (Some (Running r)) =>
              if bool_decide (live = [run_launch r]) then recover_live r intent
              else if bool_decide (live = []) then same (recover_gone r)
              else Ret (RecoveryBlocked, intent)
          | Err _ => Ret (RecoveryBlocked, intent)
          end)
    end).
End sessions.
