(* ===== verification/Completion.v ===== *)
(** * A play is recorded exactly once
    (the theorems of [Sessions] over the files of [Files] and [PlayLog])

    A session that ended is completed by [complete_active_snapshot], now or by a
    later [recover]. The phases of this are [Waiting], [Journaled], [Logged] and
    [Gone]; every operation either stays in a phase or moves to the next, and the
    names a power loss keeps are those of the phase or of the one before it. *)

From S2P Require Import Prelude Text Decimal Hold Floats Programs Files PlayLog Saves Sessions.

(** Reading back an active record. *)
Definition reread_active `{PlayCodec} (a : ActiveSession) : ActiveSession :=
  match a with
  | Running r => Running r
  | CompletionPending p =>
      CompletionPending (MkPendingSession (pend_launch p) (pend_game p) (pend_person p) (pend_started p)
        (reread_entry (pend_entry p)) (save_snapshot p))
  end.

(** What serde_json promises of the active record. *)
Class SessionCodecLaws `{PlayCodec} (SC : SessionCodec) : Prop := {
  active_text a s : active_to_vec a = Ok s -> active_from_slice (s +:+ newline) = Ok (reread_active a);
}.

Section completion.
Context `{HO : !Host} `{PC : !PlayCodec} `{SC : !SessionCodec}.
Context `{PL : !PlayCodecLaws PC} `{SL : !SessionCodecLaws SC}.
Context (boot_identity : result string string).

(** The person, the game, the plays before this one; whether every stop is a power loss. *)
Context (person game : string) (plays : list PlayEntry) (power : bool).

Notation key := (MkKey person game).
Notation wp := (Programs.wp (Reply:=Reply) (Choice:=Choice) effect).
Notation stops := (Programs.stops (Reply:=Reply) (Choice:=Choice) effect).
Notation run := (Programs.run (Reply:=Reply) (Choice:=Choice) effect usual).
Notation goes := (Programs.goes (Reply:=Reply) (Choice:=Choice) effect usual).

(** ** Phases *)

Inductive phase : Type :=
| Waiting (r : RunningSession)
| Journaled (p : PendingSession)
| Logged (p : PendingSession) (l : list PlayEntry)
| Gone (l : list PlayEntry).

Definition phase_active (ph : phase) : option ActiveSession :=
  match ph with
  | Waiting r => Some (Running r)
  | Journaled p | Logged p _ => Some (CompletionPending p)
  | Gone _ => None
  end.

Definition phase_log (ph : phase) : list PlayEntry :=
  match ph with Waiting _ | Journaled _ => plays | Logged _ l | Gone l => l end.

(** A play that reads back as itself, at an instant no play had. *)
Record new_play (e : PlayEntry) : Prop := {
  new_valid : validate_entry e = Ok ();
  new_reread : reread_entry e = e;
  new_instant : parse_rfc3339 (occurred_at e) ∉ (fun x => parse_rfc3339 (occurred_at x)) <$> plays;
}.

(** The document with the play in it. *)
Definition with_play (e : PlayEntry) (l : list PlayEntry) : Prop :=
  exists gone left, forgets (log_of key plays) e plays gone left /\ l = (reread_entry <$> left) ++ [e].

Definition ours (p : PendingSession) : Prop :=
  pend_person p = person /\ pend_game p = game /\ new_play (pend_entry p).

Definition phase_ok (ph : phase) : Prop :=
  match ph with
  | Waiting r => run_person r = Some person /\ run_game r = game
  | Journaled p => ours p
  | Logged p l => ours p /\ with_play (pend_entry p) l
  | Gone l => exists e, new_play e /\ with_play e l
  end.

(** From [q] to [p] in one operation. *)
Inductive moves : phase -> phase -> Prop :=
| stays ph : moves ph ph
| moves_hooks r r' : moves (Waiting r) (Waiting r')
| moves_journal r p : moves (Waiting r) (Journaled p)
| moves_log p l : moves (Journaled p) (Logged p l)
| moves_clear p l : moves (Logged p l) (Gone l).

Definition active_is (n : option node) (a : option ActiveSession) : Prop :=
  match n, a with
  | None, None => True
  | Some (Regular mode content true), Some a =>
      exposed mode = false /\ str_len content <= MAX_ACTIVE_BYTES /\
      active_from_slice content = Ok a /\ validate a = Ok ()
  | _, _ => False
  end.

Definition on_tree (ph : phase) (t : tree) : Prop :=
  active_is (t !! active_path) (phase_active ph) /\ log_is key (t !! path_for key) (phase_log ph).

(** *** The directories *)

Definition private_at (n : option node) : Prop :=
  match n with Some (Directory mode) => exposed mode = false | _ => False end.

Definition private_or_missing (n : option node) : Prop := n = None \/ private_at n.

(** Beside the record there are only the files of writes that were cut short. *)
Definition only_temporaries (t : tree) : Prop :=
  forall name n, t !! (identity_root ++ [name]) = Some n ->
    name = ACTIVE_FILE \/
    (is_temporary name = true /\ exists mode c s, n = Regular mode c s /\ exposed mode = false).

Record shape_of (t : tree) : Prop := {
  shape_identity : private_at (t !! identity_root);
  shape_root : private_or_missing (t !! root);
  shape_user : private_or_missing (t !! user_directory key);
  shape_user_root : t !! root = None -> t !! user_directory key = None;
  shape_log : log_reachable key t;
  shape_temporaries : only_temporaries t;
}.

Definition shape (d : disk) : Prop :=
  shape_of (seen d) /\
  (power = true -> shape_of (kept d) /\ kept d !! root = seen d !! root /\
     kept d !! user_directory key = seen d !! user_directory key /\ kept d !! identity_root = seen d !! identity_root).

(** In a phase, and sure to stay in it. *)
Definition settled (ph : phase) (d : disk) : Prop :=
  shape d /\ phase_ok ph /\ on_tree ph (seen d) /\ (power = true -> on_tree ph (kept d)).

(** At any moment. *)
Definition inv (d : disk) : Prop :=
  shape d /\ exists q p, phase_ok q /\ phase_ok p /\ moves q p /\
    on_tree p (seen d) /\ (power = true -> on_tree q (kept d)).

Lemma settled_inv ph d : settled ph d -> inv d.
Proof. intros (Hs & Hok & Ht & Hk). split; [done|]. exists ph, ph. repeat split; auto using stays. all: by apply Hk || apply Ht. Qed.

(** ** Paths *)

Lemma temporary_not_active name : is_temporary name = true -> name <> ACTIVE_FILE.
Proof. by intros ? ->. Qed.

Lemma is_temporary_nonce n : is_temporary (TEMP_ACTIVE_PREFIX +:+ launch_id_text n) = true.
Proof. unfold is_temporary, starts_with. by rewrite strip_prefix_app. Qed.

(** The paths a phase looks at. *)
Definition watched (k : path) : Prop :=
  k = identity_root \/ child_of identity_root k \/ k = root \/ k = user_directory key \/ k = path_for key.

Lemma shape_ext t t' : (forall k, watched k -> t' !! k = t !! k) -> shape_of t -> shape_of t'.
Proof.
  unfold watched. intros Heq [H1 H2 H3 H4 H5 H6].
  split; unfold log_reachable, only_temporaries in *; try (rewrite !Heq by tauto; done).
  intros name n. rewrite Heq; [apply H6|]. right. left. apply child_of_app.
Qed.

Lemma on_tree_ext ph t t' : (forall k, watched k -> t' !! k = t !! k) -> on_tree ph t -> on_tree ph t'.
Proof.
  unfold watched. intros Heq [H1 H2]. split.
  - rewrite Heq; [done|]. right. left. apply child_of_app.
  - rewrite Heq by tauto. done.
Qed.

Lemma shape_agree d d' :
  (forall k, watched k -> seen d' !! k = seen d !! k) -> (power = true -> forall k, watched k -> kept d' !! k = kept d !! k) ->
  shape d -> shape d'.
Proof.
  intros Hs Hk [H1 H2]. split; [by eapply shape_ext|]. intros Hp. destruct (H2 Hp) as (H3 & H4 & H5 & H6).
  specialize (Hk Hp). unfold watched in *.
  split; [by eapply shape_ext|]. rewrite !Hs, !Hk by tauto. done.
Qed.

Lemma inv_agree d d' :
  (forall k, watched k -> seen d' !! k = seen d !! k) -> (power = true -> forall k, watched k -> kept d' !! k = kept d !! k) ->
  inv d -> inv d'.
Proof.
  intros Hs Hk (Hsh & q & p & Hq & Hp & Hm & Ht & Hpk). split; [by eapply shape_agree|]. exists q, p.
  repeat (split; [done|]). split; [by eapply on_tree_ext|]. intros Hpow. eapply on_tree_ext; [by apply Hk|by apply Hpk].
Qed.

Lemma settled_agree ph d d' :
  (forall k, watched k -> seen d' !! k = seen d !! k) -> (power = true -> forall k, watched k -> kept d' !! k = kept d !! k) ->
  settled ph d -> settled ph d'.
Proof.
  intros Hs Hk (Hsh & Hok & Ht & Hpk). split; [by eapply shape_agree|]. split; [done|].
  split; [by eapply on_tree_ext|]. intros Hpow. eapply on_tree_ext; [by apply Hk|by apply Hpk].
Qed.

(** *** Files of the play log that are not the document *)

Lemma play_temporary_unwatched name nonce k :
  watched k -> k <> user_directory key ++ [temporary_name name nonce].
Proof.
  intros Hw ->. unfold watched, path_for in Hw.
  destruct Hw as [Hk|[(x & Hk)%child_of_inv|[Hk|[Hk|Hk]]]]; try done.
  apply app_inj_tail in Hk as [_ Hk]. symmetry in Hk. by apply file_not_temporary in Hk.
Qed.

Lemma inv_play_temporary name nonce d c s :
  inv d -> inv (MkDisk (<[user_directory key ++ [temporary_name name nonce] := Regular 384 c s]> (seen d)) (kept d)).
Proof.
  apply inv_agree; [|done]. intros k Hw%(play_temporary_unwatched name nonce). cbn [seen].
  by rewrite lookup_insert_ne by congruence.
Qed.

Lemma inv_play_clean name nonce d :
  inv d -> inv (MkDisk (delete (user_directory key ++ [temporary_name name nonce]) (seen d)) (kept d)).
Proof.
  apply inv_agree; [|done]. intros k Hw%(play_temporary_unwatched name nonce). cbn [seen].
  by rewrite lookup_delete_ne by congruence.
Qed.

(** *** Temporary files of the record *)

(** A change of the entries of the identity root, the record apart. *)
Lemma shape_entries t t' :
  only_temporaries t' ->
  (forall k, k = identity_root \/ k = root \/ k = user_directory key \/ k = path_for key -> t' !! k = t !! k) ->
  shape_of t -> shape_of t'.
Proof.
  intros Ho Heq [H1 H2 H3 H4 H5 H6]. split; unfold log_reachable in *; try done; rewrite !Heq by tauto; done.
Qed.

Lemma on_tree_same ph t t' :
  t' !! active_path = t !! active_path -> t' !! path_for key = t !! path_for key -> on_tree ph t -> on_tree ph t'.
Proof. intros Ha Hl [H1 H2]. split; by rewrite ?Ha, ?Hl. Qed.

Lemma temporary_paths n k :
  k = identity_root \/ k = root \/ k = user_directory key \/ k = path_for key \/ k = active_path -> k <> temporary_active n.
Proof.
  unfold temporary_active, active_path, path_for.
  by intros [->|[->|[->|[->| ->]]]].
Qed.

Lemma only_temporaries_insert t n c s :
  only_temporaries t -> only_temporaries (<[temporary_active n := Regular 384 c s]> t).
Proof.
  intros Ho name x. destruct (decide (identity_root ++ [name] = temporary_active n)) as [Heq|Hne].
  - rewrite Heq, lookup_insert_eq. intros [= <-]. right. apply app_inj_tail in Heq as [_ ->].
    split; [apply is_temporary_nonce|]. by exists 384, c, s.
  - rewrite lookup_insert_ne by done. apply Ho.
Qed.

Lemma only_temporaries_delete t k : only_temporaries t -> only_temporaries (delete k t).
Proof. intros Ho name x (_ & Hx)%lookup_delete_Some. by apply Ho. Qed.

Lemma shape_seen d t :
  shape_of t -> t !! root = seen d !! root -> t !! user_directory key = seen d !! user_directory key ->
  t !! identity_root = seen d !! identity_root -> shape d -> shape (MkDisk t (kept d)).
Proof. intros Ht Hr Hu Hi [_ Hk]. split; [done|]. cbn [seen kept]. by rewrite Hr, Hu, Hi. Qed.

Lemma shape_temporary d n c s :
  shape d -> shape (MkDisk (<[temporary_active n := Regular 384 c s]> (seen d)) (kept d)).
Proof.
  intros Hs. assert (Heq : forall k, k = identity_root \/ k = root \/ k = user_directory key \/ k = path_for key ->
    <[temporary_active n := Regular 384 c s]> (seen d) !! k = seen d !! k).
  { intros k Hk. rewrite lookup_insert_ne; [done|]. apply not_eq_sym, temporary_paths. tauto. }
  apply shape_seen; try (apply Heq; tauto); [|done]. destruct Hs as [Hs _].
  eapply shape_entries; [|exact Heq|done]. by apply only_temporaries_insert, shape_temporaries.
Qed.

Lemma shape_clean d n : shape d -> shape (MkDisk (delete (temporary_active n) (seen d)) (kept d)).
Proof.
  intros Hs. assert (Heq : forall k, k = identity_root \/ k = root \/ k = user_directory key \/ k = path_for key ->
    delete (temporary_active n) (seen d) !! k = seen d !! k).
  { intros k Hk. rewrite lookup_delete_ne; [done|]. apply not_eq_sym, temporary_paths. tauto. }
  apply shape_seen; try (apply Heq; tauto); [|done]. destruct Hs as [Hs _].
  eapply shape_entries; [|exact Heq|done]. by apply only_temporaries_delete, shape_temporaries.
Qed.

Lemma inv_seen d t :
  shape (MkDisk t (kept d)) -> t !! active_path = seen d !! active_path -> t !! path_for key = seen d !! path_for key ->
  inv d -> inv (MkDisk t (kept d)).
Proof.
  intros Hs Ha Hl (_ & q & p & Hq & Hp & Hm & Ht & Hk). split; [done|]. exists q, p. repeat (split; [done|]).
  split; [|done]. by apply (on_tree_same p (seen d)).
Qed.

Lemma inv_temporary n d c s :
  inv d -> inv (MkDisk (<[temporary_active n := Regular 384 c s]> (seen d)) (kept d)).
Proof.
  intros Hi. apply inv_seen; [by apply shape_temporary, Hi| | |done];
    rewrite lookup_insert_ne; try done; apply not_eq_sym, temporary_paths; tauto.
Qed.

Lemma inv_clean n d : inv d -> inv (MkDisk (delete (temporary_active n) (seen d)) (kept d)).
Proof.
  intros Hi. apply inv_seen; [by apply shape_clean, Hi| | |done];
    rewrite lookup_delete_ne; try done; apply not_eq_sym, temporary_paths; tauto.
Qed.

(** *** Syncing directories *)

Lemma private_directory_at n : private_at n -> is_directory n = true.
Proof. by destruct n as [[]|]. Qed.

Lemma private_present n : private_or_missing n -> n <> None -> is_directory n = true.
Proof. intros [?|?] ?; [done|by apply private_directory_at]. Qed.

(** Syncing the directories above keeps all that was kept. *)
Lemma sync_top d k : shape d -> power = true -> watched k -> synced_names [] d !! k = kept d !! k.
Proof.
  intros [Hs Hk] Hp Hw. destruct (Hk Hp) as (Hks & Hr & Hu & Hi).
  assert (Hbelow : forall name l, l <> [] -> (kept d !! [name] = None -> kept d !! (name :: l) = None) ->
    seen d !! [name] = kept d !! [name] -> private_or_missing (seen d !! [name]) ->
    synced_names [] d !! (name :: l) = kept d !! (name :: l)).
  { intros name l Hl Hnone Heq Hpriv. destruct (decide (kept d !! [name] = None)) as [Hn|Hn].
    - rewrite lookup_synced_names, decide_False by (apply not_child_length; destruct l; simpl; [done|lia]).
      specialize (Hnone Hn). case_decide; congruence.
    - apply (synced_below [] d (name :: l) name); [apply not_child_length; destruct l; simpl; [done|lia]|by exists l|].
      simpl. apply private_present; [done|congruence]. }
  destruct Hw as [->|[(x & ->)%child_of_inv|[->|[->| ->]]]].
  - exact (eq_trans (synced_child [] d "host-session") (eq_sym Hi)).
  - apply Hbelow; [done| |done|right; apply Hs]. intros Hn. pose proof (shape_identity _ Hks) as Hx. unfold identity_root in Hx. by rewrite Hn in Hx.
  - exact (eq_trans (synced_child [] d PLAY_LOG_DIRECTORY) (eq_sym Hr)).
  - apply Hbelow; [done| |done|apply Hs]. apply (shape_user_root _ Hks).
  - apply Hbelow; [done| |done|apply Hs]. intros Hn. apply (shape_log _ Hks). by left.
Qed.

Lemma sync_plays d k : shape d -> power = true -> watched k -> synced_names root d !! k = kept d !! k.
Proof.
  intros [Hs Hk] Hp Hw. destruct (Hk Hp) as (Hks & Hr & Hu & Hi).
  assert (Hout : forall k, ~ root `prefix_of` k -> synced_names root d !! k = kept d !! k).
  { intros k' Hn. apply synced_elsewhere; [|done]. intros (x & ->)%child_of_inv. apply Hn. by eexists. }
  destruct Hw as [->|[(x & ->)%child_of_inv|[->|[->| ->]]]].
  - apply Hout. by intros [l Hl].
  - apply Hout. by intros [l Hl].
  - apply synced_elsewhere; [by apply not_child_length|done].
  - unfold user_directory. rewrite synced_child. done.
  - destruct (decide (seen d !! user_directory key = None)) as [Hn|Hn].
    + rewrite lookup_synced_names, decide_False by by apply not_child_length.
      assert (kept d !! path_for key = None) by (apply (shape_log _ Hks); right; congruence).
      case_decide; congruence.
    + apply (synced_below root d _ (encode_uri_component person)); [by apply not_child_length| |].
      * unfold path_for. by eexists.
      * apply private_present; [apply Hs|done].
Qed.

Lemma settled_sync ph p d : p = [] \/ p = root -> settled ph d -> settled ph (MkDisk (seen d) (synced_names p d)).
Proof.
  intros Hp Hs. eapply settled_agree; [| |exact Hs]; [done|]. intros Hpow k Hk. cbn [kept].
  destruct Hp as [-> | ->]; [apply sync_top|apply sync_plays]; try done; apply Hs.
Qed.

(** *** Changes of the record *)

Lemma record_watched k : k <> active_path -> child_of identity_root k \/ ~ child_of identity_root k.
Proof. intros _. destruct (decide (child_of identity_root k)); auto. Qed.

Lemma sync_identity d k : ~ child_of identity_root k -> watched k -> synced_names identity_root d !! k = kept d !! k.
Proof.
  intros Hc Hw. apply synced_elsewhere; [done|].
  destruct Hw as [->|[?|[->|[->| ->]]]]; try done; by intros [l Hl].
Qed.

Lemma record_changed ph ph' d t :
  settled ph d -> (forall k, k <> active_path -> t !! k = seen d !! k) ->
  active_is (t !! active_path) (phase_active ph') -> phase_log ph' = phase_log ph -> moves ph ph' -> phase_ok ph' ->
  inv (MkDisk t (kept d)) /\ settled ph' (MkDisk t (synced_names identity_root (MkDisk t (kept d)))).
Proof.
  intros (Hsh & Hok & Ht & Hk) Hsame Hact Hlog Hm Hok'.
  assert (Ho : only_temporaries t).
  { intros name n Hn. destruct (decide (name = ACTIVE_FILE)) as [->|Hne]; [by left|].
    destruct Hsh as [Hs _]. apply (shape_temporaries _ Hs). rewrite <- Hsame; [done|].
    unfold active_path. by intros [_ ?]%app_inj_tail. }
  assert (Hd : forall k, k = identity_root \/ k = root \/ k = user_directory key \/ k = path_for key -> t !! k = seen d !! k).
  { intros k Hkk. apply Hsame. by destruct Hkk as [->|[->|[->| ->]]]. }
  assert (Ht' : on_tree ph' t).
  { split; [done|]. rewrite Hd, Hlog by tauto. apply Ht. }
  assert (Hsh' : shape (MkDisk t (kept d))).
  { apply shape_seen; try (apply Hd; tauto); [|done]. eapply shape_entries; [done|exact Hd|apply Hsh]. }
  split.
  { split; [done|]. exists ph, ph'. by repeat (split; [done|]). }
  set (d1 := MkDisk t (kept d)) in *.
  assert (Hkd : forall k, k = identity_root \/ k = root \/ k = user_directory key \/ k = path_for key ->
    synced_names identity_root d1 !! k = kept d !! k).
  { intros k Hkk. apply (sync_identity d1); [|unfold watched; tauto].
    intros (x & ->)%child_of_inv. by destruct Hkk as [?|[?|[?|?]]]. }
  split; [|split; [done|split; [done|]]].
  - destruct Hsh' as [Hs1 Hk1]. split; [done|]. intros Hp. destruct (Hk1 Hp) as (Hks & Hr & Hu & Hi). cbn [kept seen] in *.
    rewrite !Hkd by tauto. split; [|by auto]. eapply shape_entries; [|exact Hkd|done].
    intros name n. rewrite synced_child. apply Ho.
  - intros Hp. cbn [kept]. split.
    + unfold active_path at 1. rewrite synced_child. apply Ht'.
    + rewrite Hkd, Hlog by tauto. by apply Hk.
Qed.

(** *** Changes of the document *)

Lemma log_changed ph ph' d n :
  settled ph d -> seen d !! user_directory key <> None -> log_is key (Some n) (phase_log ph') ->
  phase_active ph' = phase_active ph -> moves ph ph' -> phase_ok ph' ->
  let d1 := MkDisk (<[path_for key := n]> (seen d)) (kept d) in
  inv d1 /\ settled ph' (MkDisk (seen d1) (synced_names (user_directory key) d1)).
Proof.
  intros (Hsh & Hok & Ht & Hk) Hdir Hlog Hact Hm Hok' d1.
  assert (Hup : user_directory key <> path_for key) by (intros Hx; by apply (f_equal length) in Hx).
  assert (Hne : forall k, watched k -> k <> path_for key -> <[path_for key := n]> (seen d) !! k = seen d !! k).
  { intros k _ Hkk. by rewrite lookup_insert_ne by congruence. }
  assert (Hgood : forall t, shape_of t -> t !! user_directory key <> None -> forall t',
    (forall k, watched k -> k <> path_for key -> t' !! k = t !! k) -> shape_of t').
  { intros t [H1 H2 H3 H4 H5 H6] Hu t' Heq. unfold watched in Heq.
    assert (Hr : t !! root <> None) by (intros Hx; by apply Hu, H4).
    split; unfold log_reachable in *; rewrite ?Heq by (try tauto; done); try done; [by intros [?|?]|].
    intros name x. rewrite Heq; [apply H6|right; left; apply child_of_app|done]. }
  assert (Ht1 : on_tree ph' (seen d1)).
  { unfold d1. split; cbn [seen]; [rewrite lookup_insert_ne by done; rewrite Hact; apply Ht|by rewrite lookup_insert_eq]. }
  assert (Hsh1 : shape d1).
  { unfold d1. apply shape_seen; try (apply Hne; [unfold watched; tauto|done]); [|done]. eapply Hgood; [exact (proj1 Hsh)|done|exact Hne]. }
  split.
  { split; [done|]. exists ph, ph'. by repeat (split; [done|]). }
  assert (Hkd : forall k, watched k -> k <> path_for key -> synced_names (user_directory key) d1 !! k = kept d !! k).
  { intros k Hw Hkk. apply (synced_elsewhere _ d1).
    - intros (x & ->)%child_of_inv. destruct Hw as [Hx|[(y & Hx)%child_of_inv|[Hx|[Hx|Hx]]]]; try done.
    - destruct Hw as [->|[(y & ->)%child_of_inv|[->|[->| ->]]]]; try done; by intros [l Hl]. }
  split; [|split; [done|split; [done|]]].
  - destruct Hsh1 as [Hs1 Hk1]. split; [done|]. intros Hp. destruct (Hk1 Hp) as (Hks & Hr & Hu & Hi).
    cbn [kept seen] in *. rewrite !Hkd by (unfold watched; try tauto; done). split; [|done].
    eapply Hgood; [exact Hks| |exact Hkd]. rewrite Hu. unfold d1. cbn [seen].
    by rewrite lookup_insert_ne by done.
  - intros Hp. cbn [kept]. split.
    + rewrite Hkd; [rewrite Hact; by apply Hk|right; left; apply child_of_app|done].
    + unfold path_for at 1. rewrite synced_child. apply Ht1.
Qed.

(** *** Making the directories *)

Lemma mkdir_shape t p :
  shape_of t -> t !! p = None -> p = root \/ (p = user_directory key /\ t !! root <> None) ->
  shape_of (<[p := Directory 448]> t).
Proof.
  intros [H1 H2 H3 H4 H5 H6] Hn Hp.
  assert (Hlog : t !! path_for key = None) by (apply H5; destruct Hp as [->|[-> _]]; auto).
  assert (Hpriv : private_or_missing (Some (Directory 448))) by by right.
  destruct Hp as [->|[-> Hr]].
  - assert (Hne : forall k, k <> root -> <[root := Directory 448]> t !! k = t !! k) by (intros; by rewrite lookup_insert_ne).
    split; unfold log_reachable; rewrite ?lookup_insert_eq, ?Hne by done; try done.
    all: intros name n; rewrite Hne by done; apply H6.
  - assert (Hne : forall k, k <> user_directory key -> <[user_directory key := Directory 448]> t !! k = t !! k)
      by (intros; by rewrite lookup_insert_ne).
    assert (path_for key <> user_directory key) by (intros Hx; by apply (f_equal length) in Hx).
    split; unfold log_reachable; rewrite ?lookup_insert_eq, ?Hne by done; try done.
    all: intros name n; rewrite Hne by done; apply H6.
Qed.

Lemma settled_mkdir ph p d :
  settled ph d -> seen d !! p = None -> p = root \/ (p = user_directory key /\ seen d !! root <> None) ->
  settled ph (MkDisk (<[p := Directory 448]> (seen d)) (<[p := Directory 448]> (kept d))).
Proof.
  intros (Hsh & Hok & Ht & Hk) Hn Hp.
  assert (Hpaths : p <> active_path /\ p <> path_for key /\ p <> identity_root).
  { by destruct Hp as [->|[-> _]]. }
  destruct Hpaths as (Ha & Hl & Hi).
  assert (Htree : forall ph t, on_tree ph t -> on_tree ph (<[p := Directory 448]> t)).
  { intros ph' t. apply on_tree_same; by rewrite lookup_insert_ne. }
  destruct Hsh as [Hs Hks]. split; [|split; [done|split; [by apply Htree|intros Hpow; by apply Htree, Hk]]].
  split; [by apply mkdir_shape|]. intros Hpow. destruct (Hks Hpow) as (Hsk & Hr & Hu & Hid). cbn [seen kept].
  split; [|rewrite !lookup_insert; by repeat case_decide].
  apply mkdir_shape; [done| |].
  - destruct Hp as [->|[-> _]]; congruence.
  - destruct Hp as [->|[-> ?]]; [by left|right]. by rewrite Hr.
Qed.

Lemma wp_check_directory ph p d :
  settled ph d -> wp inv (on_ok (fun _ d' => settled ph d' /\ seen d' !! p <> None)) (check_private_directory p) d.
Proof.
  intros Hs. pose proof (settled_inv _ _ Hs). apply wp_stat; [done|]. unfold stat.
  intros r [->| ->]; [|by apply wp_err]. destruct (seen d !! p) eqn:Hp; [|by apply wp_err].
  destruct (private_directory _); [|by apply wp_err]. apply wp_ok; [done|]. split; [done|congruence].
Qed.

Lemma wp_ensure_directory ph p d :
  settled ph d -> p = root \/ (p = user_directory key /\ seen d !! root <> None) ->
  wp inv (on_ok (fun _ d' => settled ph d' /\ seen d' !! p <> None)) (ensure_private_directory p) d.
Proof.
  intros Hs Hp. pose proof (settled_inv _ _ Hs) as Hi. apply wp_exists; [done|]. intros []; [by apply wp_check_directory|].
  assert (Hpar : parent p = [] \/ parent p = root).
  { destruct Hp as [->|[-> _]]; [by left|right]. apply parent_child. }
  apply wp_mkdir; [done| |].
  - intros Hn Hd d'. assert (Hs' : settled ph d') by by apply settled_mkdir.
    pose proof (settled_inv _ _ Hs') as Hi'. split; [|by apply wp_err].
    apply wp_step, wp_sync_dir; [done| |intros e; by apply wp_err]. intros _.
    assert (Hs2 : settled ph (MkDisk (seen d') (synced_names (parent p) d'))) by by apply settled_sync.
    apply wp_ok; [by eapply settled_inv|]. by apply wp_check_directory.
  - intros []; [by apply wp_err|by apply wp_check_directory|by apply wp_err].
Qed.

(** ** Reading *)

Lemma reread_valid e : validate_entry e = Ok () -> validate_entry (reread_entry e) = Ok ().
Proof.
  rewrite !validate_entry_Ok. intros (Ht & Hf & Hlt). split; [done|]. unfold reread_entry. cbn [duration_seconds].
  unfold serialize_legacy_number. destruct (_ && _) eqn:Hint; cbn [number_value]; [|by apply json_float_valid].
  assert (Hz : 0 <= default 0 (f64_trunc (duration_seconds e))).
  { destruct (duration_seconds e) as [s| | |[] m x]; try done. cbn [f64_trunc default from_option id].
    destruct (0 <=? x); [apply Z.mul_nonneg_nonneg|apply Z_div_nonneg_nonneg]; try apply Z.pow_nonneg; lia. }
  set (z := Z.max _ _). assert (0 <= z) by (unfold z, i64_min, i64_max; lia).
  assert (z <= i64_max) by (unfold z, i64_min, i64_max; lia).
  assert (Hn : f64_nonnegative (f64_of_Z z)) by (apply whole_nonnegative; unfold i64_max in *; lia).
  by destruct (f64_of_Z z) as [| | |[] m x].
Qed.

(** [on_ok] of an operation whose answer the disk does not depend on. *)
Lemma wp_read_active ph d :
  settled ph d -> wp inv (on_ok (fun r d' => d' = d /\ r = phase_active ph)) read_active d.
Proof.
  intros Hs. pose proof (settled_inv _ _ Hs) as Hi. destruct Hs as (Hsh & _ & [Ha _] & _).
  pose proof (shape_identity _ (proj1 Hsh)) as Hid.
  apply wp_stat; [done|]. unfold stat. intros r [->| ->]; [|by apply wp_err].
  destruct (seen d !! identity_root) as [[mode| | |]|] eqn:Hroot; try done. simpl in Hid. cbn [metadata private_directory].
  rewrite Hid. cbn [negb]. apply wp_step, wp_read_dir; [done|]. unfold read_dir. rewrite Hroot.
  intros r [->| ->]; [|by apply wp_err]. apply wp_ok; [done|].
  assert (Hnone : ACTIVE_FILE ∉ names identity_root (seen d) -> phase_active ph = None).
  { rewrite elem_of_names. intros Hn. unfold active_is, active_path in Ha.
    destruct (seen d !! (identity_root ++ [ACTIVE_FILE])); [destruct Hn; eauto|]. by destruct (phase_active ph). }
  destruct (names identity_root (seen d)) as [|name [|name' l]] eqn:Hnames; [|case_bool_decide as Heq|]; try by apply wp_err.
  { apply wp_ok; [done|]. split; [done|]. symmetry. apply Hnone. by intros ?%elem_of_nil. }
  unfold read_record. apply wp_step, wp_stat; [done|]. unfold stat. intros r [->| ->]; [|by apply wp_err].
  unfold active_is in Ha. destruct (seen d !! active_path) as [[m|m content [|]|b|]|] eqn:Hact; try done.
  destruct (phase_active ph) as [a|]; [|done]. destruct Ha as (Hm & Hlen & Hdec & Hval).
  apply wp_ok; [done|]. cbn [metadata]. rewrite Hm, (proj2 (Z.ltb_ge _ _) Hlen). cbn [orb].
  apply wp_step, wp_read_file; [done|]. unfold read_file. rewrite Hact. intros r [->| ->]; [|by apply wp_err].
  rewrite prefix_all by (unfold str_len, MAX_ACTIVE_BYTES in *; lia). apply wp_ok; [done|].
  rewrite (proj2 (Z.ltb_ge _ _) Hlen), Hdec. cbn [map_err mbind result_bind]. rewrite Hval. by apply wp_ok.
Qed.

(** Writing the record of the next phase. *)
Lemma wp_write_active ph ph' rec d :
  settled ph d -> phase_active ph' = Some rec -> phase_log ph' = phase_log ph -> moves ph ph' ->
  (validate rec = Ok () -> phase_ok ph' /\ reread_active rec = rec) ->
  wp inv (on_ok (fun _ d' => settled ph' d')) (write_active rec) d.
Proof.
  intros Hs Hrec Hlog Hm Hok. pose proof (settled_inv _ _ Hs) as Hi. unfold write_active.
  destruct (validate rec) as [[]|e] eqn:Hv; [|by apply wp_err]. destruct (Hok eq_refl) as [Hok' Hre].
  apply wp_random; [done|]. intros n. destruct (active_to_vec rec) as [s|e] eqn:Hs1; [|by apply wp_err].
  destruct (Z.ltb_spec MAX_ACTIVE_BYTES (str_len (s +:+ newline))) as [?|Hlen]; [by apply wp_err|].
  assert (Hact : active_is (Some (Regular 384 (s +:+ newline) true)) (phase_active ph')).
  { rewrite Hrec. split; [done|]. split; [done|]. split; [|done]. by rewrite <- Hre at 1; apply active_text. }
  change (stage_active (temporary_active n) (s +:+ newline)) with
    (atomic_replace io_text (temporary_active n) active_path identity_root (s +:+ newline)).
  apply wp_replace_or_clean.
  - intros d' c s'. apply inv_temporary.
  - intros d'. apply inv_clean.
  - apply not_eq_sym, temporary_paths. tauto.
  - done.
  - intros _. destruct (record_changed ph ph' d (<[active_path := Regular 384 (s +:+ newline) true]> (seen d)))
      as [H1 H2]; try done.
    + intros k Hk. by rewrite lookup_insert_ne.
    + by rewrite lookup_insert_eq.
    + split; [done|]. split; [by eapply settled_inv|done].
Qed.

Lemma wp_replace_active ph ph' rec d :
  settled ph d -> phase_active ph' = Some rec -> phase_log ph' = phase_log ph -> moves ph ph' ->
  (validate rec = Ok () -> phase_ok ph' /\ reread_active rec = rec) ->
  wp inv (on_ok (fun _ d' => settled ph' d')) (replace_active rec) d.
Proof.
  intros Hs. intros. apply wp_step. eapply wp_mono; [|by eapply wp_read_active].
  intros [[a|]|e] d' Hi Hq; simpl in Hq; try done. destruct Hq as [-> _]. by eapply wp_write_active.
Qed.

(** *** The hooks *)

Lemma wp_cleanup ph launch d :
  settled ph d -> wp inv (on_ok (fun _ d' => d' = d)) (cleanup_completed launch) d.
Proof.
  intros Hs. pose proof (settled_inv _ _ Hs) as Hi. apply wp_ask; [done|]. intros [a|e]; [by apply wp_ok|by apply wp_err].
Qed.

Lemma wp_replace_running r h d :
  phase_ok (Waiting r) -> (exists r0, settled (Waiting r0) d) ->
  wp inv (on_ok (fun _ d' => settled (Waiting (with_hooks (Some h) r)) d')) (replace_active (running_with r h)) d.
Proof.
  intros Hok [r0 Hs]. by apply (wp_replace_active (Waiting r0) (Waiting (with_hooks (Some h) r))); [| | |apply moves_hooks|].
Qed.

Lemma wp_settle_result ph launch h d :
  settled ph d -> wp inv (fun _ d' => d' = d) (settle_result launch h) d.
Proof.
  intros Hs. pose proof (settled_inv _ _ Hs) as Hi. unfold settle_result. destruct (hook_result h); [by apply wp_ret|].
  apply wp_ask; [done|]. intros a. by apply wp_ret.
Qed.

Lemma wp_finish_steps launch boot r pending h d :
  phase_ok (Waiting r) -> settled (Waiting (with_hooks (Some h) r)) d ->
  wp inv (on_ok (fun a d' => exists r', a = Running r' /\ settled (Waiting r') d'))
    (finish_steps launch boot r pending h) d.
Proof.
  intros Hok. revert h d. induction pending as [|step rest IH]; intros h d Hs; cbn [finish_steps].
  2: destruct (negb _).
  1, 2: apply wp_step; eapply wp_mono; [|by eapply wp_cleanup]; intros [[]|e] d' Hi Hq; simpl in Hq; [subst d'|done];
    apply wp_ok; [done|by eexists].
  apply wp_bind. eapply wp_mono; [|by eapply wp_settle_result]. intros h1 d1 _ ->.
  apply wp_step. eapply wp_mono; [|by apply wp_replace_running; eauto]. intros [[]|e] d1 Hi1 Hs1; simpl in Hs1; [|done].
  apply wp_step. eapply wp_mono; [|by eapply wp_cleanup]. intros [[]|e] d2 Hi2 Hq; simpl in Hq; [subst d2|done].
  apply wp_ask; [done|]. intros _. apply wp_step.
  eapply wp_mono; [|by apply wp_replace_running; eauto]. intros [[]|e] d2 Hi3 Hs2; simpl in Hs2; [|done].
  by apply IH.
Qed.

(** The same phase, up to the hooks that ran. *)
Lemma wp_finish_after_hooks ph a d :
  settled ph d -> phase_active ph = Some a ->
  wp inv (on_ok (fun a' d' => exists ph', settled ph' d' /\ phase_active ph' = Some a' /\ (ph' = ph \/ exists r r', ph = Waiting r /\ ph' = Waiting r')))
    (finish_after_hooks boot_identity a) d.
Proof.
  intros Hs Ha. pose proof (settled_inv _ _ Hs) as Hi.
  assert (Hclean : wp inv (on_ok (fun a' d' => exists ph', settled ph' d' /\ phase_active ph' = Some a' /\
      (ph' = ph \/ exists r r', ph = Waiting r /\ ph' = Waiting r')))
    (step! _ <- cleanup_completed (launch_id a) ;; Ret (Ok a)) d).
  { apply wp_step. eapply wp_mono; [|by eapply wp_cleanup]. intros [[]|e] d' Hi' Hq; simpl in Hq; [subst d'|done].
    apply wp_ok; [done|]. exists ph. auto. }
  destruct a as [r|p]; [|done]. cbn [finish_after_hooks]. destruct (after_hooks r) as [h|] eqn:Hh; [|done].
  destruct boot_identity as [boot|e]; [|by apply wp_err].
  destruct ph as [r0| | |]; simplify_eq/=.
  assert (Hr : with_hooks (Some h) r = r) by (destruct r; simpl in *; by subst).
  eapply wp_mono; [|apply wp_finish_steps; [apply Hs|by rewrite Hr]].
  intros [a|e] d' Hi' Hq; simpl in Hq; [|done]. destruct Hq as (r' & -> & Hs'). exists (Waiting r'). eauto 10.
Qed.

(** ** The first phase *)

Lemma completion_entry_new n ms e :
  completion_entry (log_of key plays) ms (f64_of_Z n) = Ok e -> validate_entry e = Ok () ->
  (ms <= 8210266876799999 -> 0 <= n < 2 ^ 53) -> new_play e.
Proof.
  unfold completion_entry. destruct (i64_max <? ms); [done|]. destruct (free_instant _ _ _) as [instant|] eqn:Hf; [|done].
  apply free_instant_Ok in Hf as (Hfree & Hle & _). unfold format_rfc3339_millis, ok_or.
  destruct (to_rfc3339_millis instant) as [s|] eqn:Hs; [|done]. intros [= <-] Hv Hsmall.
  pose proof (instant_range _ _ Hs) as Hrange. specialize (Hsmall ltac:(lia)). split; [done|apply reread_small; lia|].
  apply validate_entry_Ok in Hv as ([v Hp] & _). cbn [occurred_at] in *.
  pose proof (instant_round _ _ _ Hs Hp) as ->. rewrite Hp. intros (x & Hx & Hin)%list_elem_of_fmap. apply Hfree.
  unfold occupied. apply elem_of_filter_map. by exists x.
Qed.

Lemma wp_play {T} (Q : T -> disk -> Prop) p d :
  wp inv (on_ok Q) p d -> wp inv (on_ok Q) (bind p (fun r => Ret (play r))) d.
Proof. intros Hp. apply wp_bind. eapply wp_mono; [|exact Hp]. by intros [a|e] d' Hi Hq. Qed.

Lemma settled_load ph d :
  settled ph d -> wp inv (on_ok (fun log d' => d' = d /\ log = log_of key (phase_log ph))) (load_for_write_unlocked key) d.
Proof.
  intros Hs. pose proof (settled_inv _ _ Hs) as Hi. destruct Hs as (Hsh & _ & [_ Hl] & _).
  apply wp_load_for_write; [done|done|]. apply Hsh.
Qed.

Lemma wp_capture ph r who e n b d :
  settled ph d -> wp inv (on_ok (fun _ d' => d' = d)) (capture_saves r who e n b) d.
Proof.
  intros Hs. pose proof (settled_inv _ _ Hs) as Hi. unfold capture_saves.
  destruct (run_runner r); [|by apply wp_ok]. destruct (save_locations r) as [[|l ls]|]; try by apply wp_ok.
  apply wp_step, wp_ask; [done|]. intros [k|?]; [|by apply wp_err]. apply wp_ok; [done|].
  apply wp_step, wp_ask; [done|]. intros [k'|?]; [|by apply wp_err]. apply wp_ok; [done|]. by apply wp_ok.
Qed.

Lemma wp_journal_completion r b d :
  settled (Waiting r) d ->
  wp inv (on_ok (fun p d' => settled (Journaled p) d')) (journal_completion r person b) d.
Proof.
  intros Hs. pose proof (settled_inv _ _ Hs) as Hi. assert (Hok : phase_ok (Waiting r)) by apply Hs. destruct Hok as [Hp Hg].
  unfold journal_completion. rewrite Hg. apply wp_ask; [done|]. intros now. apply wp_step, wp_play.
  unfold unique_completion_entry. destruct (_ || _); [by apply wp_err|].
  apply wp_step. eapply wp_mono; [|by apply settled_load]. intros [log|e] d' _ Hq; simpl in Hq; [|done]. destruct Hq as [-> ->]. cbn [on_ok phase_log].
  set (n := saturating_sub _ _). set (ms := Z.min _ _).
  destruct (completion_entry (log_of key plays) ms (f64_of_Z n)) as [e|e] eqn:He; [|by apply wp_err]. apply wp_ok; [done|].
  apply wp_step. eapply wp_mono; [|by eapply wp_capture]. intros [snap|x] d' _ Hq; simpl in Hq; [subst d'|done].
  set (p := MkPendingSession (run_launch r) game person (run_started r) e snap).
  assert (Hnew : validate (CompletionPending p) = Ok () -> new_play e).
  { intros Hv. assert (validate_entry e = Ok ()).
    { unfold validate in Hv. apply bind_ok in Hv as (_ & _ & Hv). apply bind_ok in Hv as (_ & _ & Hv).
      apply bind_ok in Hv as (who & Hv & _). unfold active_person, p in Hv. cbn [pend_entry] in Hv.
      destruct (validate_entry e) as [[]|]; done. }
    eapply completion_entry_new; [done|done|]. unfold ms, n, saturating_sub, u64_max. lia. }
  apply wp_step. eapply wp_mono; [|eapply (wp_replace_active (Waiting r) (Journaled p)); [done|done|done|apply moves_journal|]].
  - intros [[]|x] d' Hi' Hq; simpl in Hq; [|done]. by apply wp_ok.
  - intros Hv. specialize (Hnew Hv). split; [done|]. unfold reread_active, p. cbn [pend_entry]. by rewrite (new_reread _ Hnew).
Qed.

(** ** The second phase *)

Lemma plays_valid n l x : log_is key n l -> x ∈ l -> validate_entry x = Ok ().
Proof.
  intros Hl Hx. destruct n as [[|mode content []| |]|]; simpl in Hl; try done; [|subst; by apply elem_of_nil in Hx].
  destruct Hl as (_ & _ & log & _ & Hv & <-). unfold valid_log in Hv. apply andb_prop in Hv as [_ Hv].
  apply (proj1 (forallb_spec _ _)) with (x := x) in Hv; [|done]. by destruct (validate_entry x) as [[]|].
Qed.

(** The document written with the play reads back so. *)
Lemma written_log e left s :
  new_play e -> (forall x, x ∈ left -> validate_entry x = Ok ()) ->
  fits (with_entries (left ++ [e]) (log_of key plays)) s ->
  log_is key (Some (Regular 384 s true)) ((reread_entry <$> left) ++ [e]).
Proof.
  intros [Hv Hre _] Hall (t & Ht & -> & Hlen). split; [done|]. split; [done|].
  exists (reread_log (with_entries (left ++ [e]) (log_of key plays))). split; [by apply log_text|].
  assert (He : entries (reread_log (with_entries (left ++ [e]) (log_of key plays))) = (reread_entry <$> left) ++ [e]).
  { cbn [reread_log with_entries entries]. rewrite fmap_app. cbn [fmap list_fmap]. by rewrite Hre. }
  split; [|done]. unfold valid_log. rewrite He. cbn [log_user log_game reread_log with_entries log_of].
  rewrite !bool_decide_eq_true_2 by done. cbn [andb]. apply forallb_spec.
  intros x [(y & -> & Hy)%list_elem_of_fmap|Hx%list_elem_of_singleton]%elem_of_app; [|subst x; by rewrite Hv].
  by rewrite reread_valid by by apply Hall.
Qed.

Lemma not_there e : new_play e -> existsb (fun x => entry_eq x e) plays = false.
Proof.
  intros [Hv _ Hi]. apply not_true_iff_false. intros (x & Hx & Heq%entry_eq_occurred)%existsb_spec. apply Hi.
  rewrite <- Heq. apply list_elem_of_fmap. by exists x.
Qed.

Lemma there e l : new_play e -> with_play e l -> existsb (fun x => entry_eq x e) l = true.
Proof.
  intros [Hv _ _] (gone & left & _ & ->). apply existsb_spec. exists e. split.
  - apply elem_of_app. right. by apply list_elem_of_singleton.
  - apply entry_eq_refl. by apply validate_entry_Ok in Hv as (_ & ? & _).
Qed.

Lemma wp_record_first p d :
  settled (Journaled p) d ->
  wp inv (on_ok (fun _ d' => exists l, settled (Logged p l) d')) (record key (pend_entry p)) d.
Proof.
  intros Hs. assert (Hours : ours p) by apply Hs. destruct Hours as (Hp & Hg & Hnew).
  pose proof (settled_inv _ _ Hs) as Hi. unfold record. rewrite (new_valid _ Hnew).
  apply wp_step. eapply wp_mono; [|by apply settled_load]. intros [log|e] d' _ Hq; simpl in Hq; [|done]. destruct Hq as [-> ->].
  cbn [on_ok entries log_of]. rewrite (not_there _ Hnew). cbv zeta.
  apply wp_step. eapply wp_mono; [|by apply (wp_ensure_directory (Journaled p)); [|left]].
  intros [[]|e] d1 Hi1 Hq; simpl in Hq; [|done]. destruct Hq as [Hs1 Hroot].
  apply wp_step. eapply wp_mono; [|apply (wp_ensure_directory (Journaled p)); [done|by right]].
  intros [[]|e] d2 Hi2 Hq; simpl in Hq; [|done]. destruct Hq as [Hs2 Hdir]. cbn [on_ok].
  destruct (serialize_with_retention _ _) as [s|e] eqn:Hser; [|by apply wp_err].
  unfold serialize_with_retention in Hser. cbn [with_entries log_of entries log_user log_game phase_log] in Hser.
  rewrite length_app, Nat.add_1_r in Hser. cbn [pred length] in Hser.
  rewrite lookup_app_r, Nat.sub_diag in Hser by lia. cbn [lookup list_lookup] in Hser.
  apply (retain_Ok _ _ plays) in Hser as (gone & left & Hf & Hfit); [|done].
  set (l := (reread_entry <$> left) ++ [pend_entry p]).
  assert (Hlog : log_is key (Some (Regular 384 s true)) l).
  { apply written_log; [done| |done]. intros x Hx. destruct Hs as (_ & _ & [_ Hl] & _).
    eapply plays_valid; [exact Hl|]. destruct Hf as (_ & Hsub & _). by eapply elem_of_sublist. }
  assert (Hwith : with_play (pend_entry p) l) by by exists gone, left.
  unfold write_private_atomically. apply wp_random; [done|]. intros nonce. cbv zeta.
  assert (Hpar : parent (path_for key) = user_directory key) by apply parent_child. rewrite Hpar.
  set (temporary := user_directory key ++ [temporary_name _ nonce]).
  change (write_new (path_for key) temporary s) with
    (step! _ <- Do (CreateNew temporary 384) (fun r => Ret (map_err (fun _ : IoError => Storage) r)) ;;
     step! _ <- Do (WriteAll temporary s) (fun r => Ret (map_err (fun _ : IoError => Storage) r)) ;;
     step! _ <- Do (SyncFile temporary) (fun r => Ret (map_err (fun _ : IoError => Storage) r)) ;;
     step! _ <- Do (Rename temporary (path_for key)) (fun r => Ret (map_err (fun _ : IoError => Storage) r)) ;;
     Do (SyncDir (parent (path_for key))) (fun r => Ret (map_err (fun _ : IoError => Storage) r)) : prog Op Reply _).
  rewrite Hpar. apply (wp_replace_or_clean inv temporary (path_for key)); [intros; by apply inv_play_temporary|intros; by apply inv_play_clean| |done|].
  { apply not_eq_sym, play_temporary_unwatched. unfold watched. tauto. }
  intros _. destruct (log_changed (Journaled p) (Logged p l) d2 (Regular 384 s true)) as [H1 H2]; try done; [apply moves_log|].
  split; [done|]. split; [by eapply settled_inv|by exists l].
Qed.

Lemma wp_record_again p l d :
  settled (Logged p l) d ->
  wp inv (on_ok (fun _ d' => settled (Logged p l) d')) (record key (pend_entry p)) d.
Proof.
  intros Hs. assert (Hours : phase_ok (Logged p l)) by apply Hs. destruct Hours as ((Hp & Hg & Hnew) & Hw).
  pose proof (settled_inv _ _ Hs) as Hi. unfold record. rewrite (new_valid _ Hnew).
  apply wp_step. eapply wp_mono; [|by apply settled_load]. intros [log|e] d' _ Hq; simpl in Hq; [|done]. destruct Hq as [-> ->].
  cbn [on_ok entries log_of]. rewrite (there _ _ Hnew Hw). by apply wp_ok.
Qed.

Lemma wp_clear_active p l d :
  settled (Logged p l) d -> wp inv (on_ok (fun _ d' => settled (Gone l) d')) clear_active d.
Proof.
  intros Hs. pose proof (settled_inv _ _ Hs) as Hi. assert (Hok : phase_ok (Logged p l)) by apply Hs.
  assert (Hgone : phase_ok (Gone l)) by (destruct Hok as [(_ & _ & ?) ?]; by exists (pend_entry p)).
  destruct (record_changed (Logged p l) (Gone l) d (delete active_path (seen d))) as [H1 H2]; try done.
  { intros k Hk. by rewrite lookup_delete_ne. }
  { by rewrite lookup_delete_eq. }
  { apply moves_clear. }
  pose proof (settled_inv _ _ H2) as Hi2.
  apply wp_remove; [done| |].
  - intros t. unfold remove_file. destruct (seen d !! active_path) as [[]|]; try done; intros [= <-];
      (split; [|by apply wp_err]); (apply wp_sync_dir; [done|intros _; by apply wp_ok|intros e; by apply wp_err]).
  - intros [] Hr; try by apply wp_err. exfalso. destruct Hr as [|Hr]; [done|]. destruct Hs as (_ & _ & [Ha _] & _).
    unfold remove_file in Hr. by destruct (seen d !! active_path) as [[]|].
Qed.

(** ** Completion *)

Definition gone (d : disk) : Prop := exists l, settled (Gone l) d.

Lemma wp_finish_completion ph p d :
  settled ph d -> ph = Journaled p \/ (exists l, ph = Logged p l) ->
  wp inv (on_ok (fun _ d' => gone d')) (finish_completion p) d.
Proof.
  intros Hs Hph. pose proof (settled_inv _ _ Hs) as Hi.
  assert (Hours : ours p) by (destruct Hs as (_ & Hok & _); destruct Hph as [->|[l ->]]; [done|apply Hok]).
  destruct Hours as (Hp & Hg & _). unfold finish_completion. rewrite Hp, Hg.
  assert (Hrec : wp inv (on_ok (fun _ d' => exists l, settled (Logged p l) d')) (record key (pend_entry p)) d).
  { destruct Hph as [->|[l ->]]; [by apply wp_record_first|]. eapply wp_mono; [|by apply wp_record_again].
    intros [[]|e] d' _ Hq; [by exists l|done]. }
  apply wp_step. eapply (wp_mono inv (on_ok (fun _ d' => d' = d))).
  2: { destruct (save_snapshot p); [|by apply wp_ok]. apply wp_ask; [done|]. intros [[]|e]; [by apply wp_ok|by apply wp_err]. }
  intros [[]|e] d' _ Hq; simpl in Hq; [subst d'|done].
  apply wp_step, wp_play. eapply wp_mono; [|exact Hrec]. intros [[]|e] d1 _ Hq; simpl in Hq; [|done]. destruct Hq as [l Hs1].
  apply wp_step. eapply wp_mono; [|by eapply wp_clear_active]. intros [[]|e] d2 Hi2 Hs2; simpl in Hs2; [|done].
  assert (gone d2) by by exists l.
  cbn [on_ok]. destruct (save_snapshot p); [|by apply wp_ok]. apply wp_ask; [done|]. intros _. by apply wp_ok.
Qed.

Lemma wp_complete_record ph a b d :
  settled ph d -> phase_active ph = Some a -> wp inv (on_ok (fun _ d' => gone d')) (complete_record a b) d.
Proof.
  intros Hs Ha. destruct ph as [r|p|p l|l]; cbn [phase_active] in Ha; [|injection Ha as <-|injection Ha as <-|done].
  - injection Ha as <-. cbn [complete_record]. destruct (proj1 (proj2 Hs)) as [Hp _]. rewrite Hp. apply wp_step. eapply wp_mono; [|by apply wp_journal_completion].
    intros [p|e] d' _ Hq; simpl in Hq; [|done]. by apply (wp_finish_completion (Journaled p)); [|left].
  - by apply (wp_finish_completion (Journaled p)); [|left].
  - by apply (wp_finish_completion (Logged p l)); [|right; exists l].
Qed.

Lemma wp_complete ph b d :
  settled ph d -> wp inv (on_ok (fun _ d' => gone d')) (complete_active_snapshot boot_identity b) d.
Proof.
  intros Hs. pose proof (settled_inv _ _ Hs) as Hi.
  apply wp_step. eapply wp_mono; [|by eapply wp_read_active]. intros [r|e] d' _ Hq; simpl in Hq; [|done]. destruct Hq as [-> ->].
  cbn [on_ok]. destruct (phase_active ph) as [a|] eqn:Ha.
  2: { apply wp_ok; [done|]. destruct ph; try done. by eexists. }
  apply wp_ask; [done|]. intros _. apply wp_step, wp_ask; [done|]. intros [[]|e]; [|by apply wp_err]. apply wp_ok; [done|].
  apply wp_step. eapply wp_mono; [|by eapply wp_finish_after_hooks]. intros [a'|e] d1 _ Hq; simpl in Hq; [|done].
  destruct Hq as (ph' & Hs1 & Ha' & _). pose proof (settled_inv _ _ Hs1) as Hi1. cbn [on_ok]. apply wp_bind.
  assert (Hrest : wp inv (on_ok (fun _ d' => gone d')) (complete_record a' b) d1) by by eapply wp_complete_record.
  unfold remove_netplay_credential. destruct a' as [r|p]; [|by apply wp_ret].
  destruct (netplay_config r); [|by apply wp_ret]. apply wp_ask; [done|]. intros _. by apply wp_ret.
Qed.

(** ** Recovery *)

Lemma wp_mark_hook_result ph outcome d :
  settled ph d -> wp inv (on_ok (fun _ d' => exists ph', settled ph' d')) (mark_hook_result outcome) d.
Proof.
  intros Hs. pose proof (settled_inv _ _ Hs) as Hi.
  apply wp_step. eapply wp_mono; [|by eapply wp_read_active]. intros [r|e] d' _ Hq; simpl in Hq; [|done]. destruct Hq as [-> ->].
  cbn [on_ok]. assert (Hstay : wp inv (on_ok (fun _ d' => exists ph', settled ph' d')) (Ret (Ok ()) : prog Op Reply (result string unit)) d).
  { apply wp_ok; [done|]. by exists ph. }
  destruct ph as [r|p|p l|l]; try done. cbn [phase_active]. destruct (after_hooks r) as [h|] eqn:Hh; [|done].
  case_bool_decide; [done|]. apply wp_bind.
  assert (Hrep : forall h', wp inv (on_ok (fun _ d' => exists ph', settled ph' d')) (replace_active (running_with r h')) d).
  { intros h'. eapply wp_mono; [|apply wp_replace_running; [apply Hs|by exists r]].
    intros [[]|e] d' _ Hq; simpl in Hq; [by eexists|done]. }
  destruct outcome; [|by apply wp_ret|by apply wp_ret]. apply wp_ask; [done|]. intros a. by apply wp_ret.
Qed.

Lemma settled_clean ph n d : settled ph d -> is_temporary n = true ->
  settled ph (MkDisk (delete (identity_root ++ [n]) (seen d)) (kept d)).
Proof.
  intros (Hsh & Hok & Ht & Hk) Hn.
  assert (Hne : forall k, k = identity_root \/ k = root \/ k = user_directory key \/ k = path_for key \/ k = active_path ->
    delete (identity_root ++ [n]) (seen d) !! k = seen d !! k).
  { intros k Hkk. rewrite lookup_delete_ne; [done|]. destruct Hkk as [->|[->|[->|[->| ->]]]]; try done.
    unfold active_path. intros [_ Hx]%app_inj_tail. by apply temporary_not_active in Hn. }
  split; [|split; [done|split; [|done]]].
  - apply shape_seen; try (apply Hne; tauto); [|done]. eapply shape_entries; [| |exact (proj1 Hsh)].
    + apply only_temporaries_delete, shape_temporaries, (proj1 Hsh).
    + intros k Hkk. apply Hne. tauto.
  - eapply on_tree_same; [| |exact Ht]; apply Hne; tauto.
Qed.

Lemma wp_remove_files ph l d :
  settled ph d -> (forall n, n ∈ l -> is_temporary n = true) ->
  wp inv (on_ok (fun _ d' => settled ph d')) (remove_files l) d.
Proof.
  revert d. induction l as [|n l IH]; intros d Hs Hl; pose proof (settled_inv _ _ Hs) as Hi; cbn [remove_files].
  { by apply wp_ok. }
  assert (Hs' : settled ph (MkDisk (delete (identity_root ++ [n]) (seen d)) (kept d))) by (apply settled_clean; [done|apply Hl; by left]).
  pose proof (settled_inv _ _ Hs') as Hi'.
  apply wp_step, wp_remove; [done| |intros e _; by apply wp_err].
  intros t. unfold remove_file. destruct (seen d !! _) as [[]|]; try done; intros [= <-];
    (split; [|by apply wp_err]); apply wp_ok; try done; apply IH; try done; intros; apply Hl; by right.
Qed.

Lemma wp_all_private l d : inv d -> wp inv (fun _ d' => d' = d) (all_private_files l) d.
Proof.
  intros Hi. induction l as [|n l IH]; cbn [all_private_files]; [by apply wp_ret|]. apply wp_stat; [done|].
  intros r _. destruct r as [[]|]; try by apply wp_ret. by destruct (exposed _); [apply wp_ret|].
Qed.

Lemma settled_sync_identity ph d :
  settled ph d -> settled ph (MkDisk (seen d) (synced_names identity_root d)).
Proof.
  intros Hs. destruct d as [t k]. apply (record_changed ph ph (MkDisk t k) t); try done; [apply Hs|apply stays|apply Hs].
Qed.

Lemma wp_clear_temporaries ph d :
  settled ph d -> wp inv (on_ok (fun _ d' => settled ph d')) clear_crash_temporary_active d.
Proof.
  intros Hs. pose proof (settled_inv _ _ Hs) as Hi. apply wp_exists; [done|]. intros []; cbn [negb]; [|by apply wp_ok].
  apply wp_step, wp_stat; [done|]. intros [m|e] _; [|by apply wp_err]. apply wp_ok; [done|].
  destruct (negb _); [by apply wp_ok|].
  apply wp_step, wp_read_dir; [done|]. intros [l|e] _; [|by apply wp_err]. apply wp_ok; [done|]. cbv zeta.
  destruct (keep is_temporary l) as [|n l'] eqn:Hl; [by apply wp_ok|]. destruct (negb _); [by apply wp_ok|].
  apply wp_bind. eapply wp_mono; [|by apply wp_all_private]. intros [] d' _ ->; cbn [negb]; [|by apply wp_ok].
  rewrite <- Hl. apply wp_step. eapply wp_mono; [|apply (wp_remove_files ph); [done|]].
  2: { intros x. rewrite elem_of_keep. tauto. }
  intros [[]|e] d1 Hi1 Hs1; simpl in Hs1; [|done]. apply settled_sync_identity in Hs1 as Hs2. pose proof (settled_inv _ _ Hs2).
  apply wp_step, wp_sync_dir; [done| |intros e; by apply wp_err]. intros _. apply wp_ok; [done|]. by apply wp_ok.
Qed.

Lemma wp_succeeds {E T} (Q : bool -> disk -> Prop) (R : T -> disk -> Prop) (p : prog Op Reply (result E T)) d :
  wp inv (on_ok R) p d -> (forall a d', inv d' -> R a d' -> Q true d') -> (forall d', inv d' -> Q false d') ->
  wp inv Q (succeeds p) d.
Proof.
  intros Hp Ht Hf. apply wp_bind. eapply wp_mono; [|exact Hp]. intros [a|e] d' Hi Hq; apply wp_ret; eauto.
Qed.

Lemma wp_complete_or_block {A} ph (f : ActiveState -> A) d :
  settled ph d -> wp inv (fun _ _ => True) (bind (complete_or_block boot_identity) (fun a => Ret (f a))) d.
Proof.
  intros Hs. apply wp_bind. apply (wp_mono _ (fun _ _ => True)); [intros; by apply wp_ret|].
  apply wp_bind. eapply wp_succeeds; [by eapply wp_complete| |]; intros; by apply wp_ret.
Qed.

Lemma wp_recover_failed ph launch text d :
  settled ph d -> wp inv (fun _ _ => True) (recover_failed_unit boot_identity launch text) d.
Proof.
  intros Hs. apply wp_bind. eapply wp_succeeds; [by eapply wp_mark_hook_result| |].
  2: { intros; by apply wp_ret. }
  intros _ d1 Hi1 [ph1 Hs1]. cbn [negb]. apply wp_bind.
  assert (Hrest : forall b, wp inv (fun _ _ => True)
    (if negb b then Ret RecoveryBlocked : prog Op Reply _ else bind (succeeds (complete_active_snapshot boot_identity true))
       (fun completed => Ret (if completed then Failed launch text else RecoveryBlocked))) d1).
  { intros []; cbn [negb]; [|by apply wp_ret]. apply wp_bind. eapply wp_succeeds; [by eapply wp_complete| |]; intros; by apply wp_ret. }
  apply wp_ask; [done|]. intros a. destruct (is_ok a); [apply wp_ret; [done|apply (Hrest true)]|].
  apply wp_ask; [done|]. intros s. by apply wp_ret.
Qed.

Lemma wp_failed_or_pending {A} ph launch e (f : ActiveState -> A) d :
  settled ph d -> wp inv (fun _ _ => True) (bind (failed_or_pending boot_identity launch e) (fun a => Ret (f a))) d.
Proof.
  intros Hs. pose proof (settled_inv _ _ Hs) as Hi. apply wp_bind.
  apply (wp_mono _ (fun _ _ => True)); [intros; by apply wp_ret|].
  unfold failed_or_pending. destruct (kind e); try by apply wp_ret. by eapply wp_recover_failed.
Qed.

(** Reading changes nothing. *)
Lemma read_active_quiet d : inv d -> wp inv (fun _ d' => d' = d) read_active d.
Proof.
  intros Hi. apply wp_stat; [done|]. intros [m|[| |]] _; try by apply wp_ret. destruct (negb _); [by apply wp_ret|].
  apply wp_bind, wp_read_dir; [done|]. intros [l|e] _; [|by apply wp_ret]. apply wp_ret; [done|].
  cbv beta iota delta [io map_err]. destruct l as [|n [|]]; [by apply wp_ret|case_bool_decide; [|by apply wp_ret]|by apply wp_ret].
  apply wp_bind, wp_stat; [done|]. intros [[|mode len|]|e] _; try by apply wp_ret. apply wp_ret; [done|]. cbv beta iota delta [io map_err].
  destruct (_ || _); [by apply wp_ret|]. apply wp_bind, wp_read_file; [done|]. intros [c|e] _; by apply wp_ret.
Qed.

Lemma wp_read_recoverable ph live d :
  settled ph d ->
  wp inv (fun r d' => forall a, r = Ok a -> settled ph d' /\ a = phase_active ph) (read_recoverable live) d.
Proof.
  intros Hs. pose proof (settled_inv _ _ Hs) as Hi. apply wp_bind.
  eapply wp_mono; [|apply wp_and; [by eapply wp_read_active|by apply read_active_quiet]].
  intros r d' _ [Hr ->]. destruct r as [a|e]; simpl in Hr.
  { destruct Hr as [_ ->]. cbn [is_err is_ok negb andb]. apply wp_ret; [done|]. by intros a' [= <-]. }
  cbn [is_err is_ok negb andb]. case_bool_decide; [|by apply wp_ret]. apply wp_bind.
  eapply wp_mono; [|by eapply wp_clear_temporaries]. intros [[]|e'] d1 Hi1 Hs1; simpl in Hs1; try by apply wp_ret.
  eapply wp_mono; [|by eapply wp_read_active]. intros [a'|e'] d2 _ Hq a [= ->]. simpl in Hq. by destruct Hq as [-> ->].
Qed.

Lemma wp_recovery ph intent d :
  settled ph d -> wp inv (fun _ _ => True) (recover boot_identity intent) d.
Proof.
  intros Hs. pose proof (settled_inv _ _ Hs) as Hi. apply wp_ask; [done|]. intros [live|e]; [|by apply wp_ret].
  apply wp_bind. eapply wp_mono; [|by eapply wp_read_recoverable].
  intros [a|e] d1 Hi1 Hq; [|by apply wp_ret]. destruct (Hq a eq_refl) as [Hs1 ->].
  destruct ph as [r|p|p l|l]; cbn [phase_active].
  - case_bool_decide.
    + unfold recover_live. apply wp_ask; [done|]. intros [[]|e]; try by apply wp_ret.
      * apply wp_ask; [done|]. intros focus. by apply wp_ret.
      * by eapply wp_complete_or_block.
      * by eapply wp_failed_or_pending.
    + case_bool_decide; [|by apply wp_ret]. unfold recover_gone.
      apply wp_ask; [done|]. intros [[]|e]; try by apply wp_ret.
      * by eapply wp_complete_or_block.
      * by eapply wp_failed_or_pending.
  - case_bool_decide; [|by apply wp_ret]. by eapply wp_complete_or_block.
  - case_bool_decide; [|by apply wp_ret]. by eapply wp_complete_or_block.
  - by apply wp_ret.
Qed.

(** ** Stops and power losses *)

(** Nothing is written to it any more. *)
Definition stable (n : option node) : Prop := match n with Some (Regular _ _ false) => False | _ => True end.

Lemma active_stable n a : active_is n a -> stable n.
Proof. by destruct n as [[|m c []| |]|], a. Qed.

Lemma log_stable n l : log_is key n l -> stable n.
Proof. by destruct n as [[|m c []| |]|]. Qed.

Lemma settles_stable n n' : stable (Some n) -> settles n n' -> n' = n.
Proof. by destruct n as [|m c []| |]. Qed.

Lemma loss_stable d d' k :
  power_loss d d' -> stable (seen d !! k) -> stable (kept d !! k) ->
  seen d' !! k = seen d !! k \/ seen d' !! k = kept d !! k.
Proof.
  intros [_ Hl] Hs Hk. specialize (Hl k). destruct (seen d' !! k) as [n'|].
  - destruct Hl as (n & [Hn|Hn] & Hset); rewrite Hn in *; apply settles_stable in Hset as ->; auto.
  - destruct Hl as [Hn|Hn]; rewrite Hn; auto.
Qed.

Lemma loss_directory d d' k :
  power_loss d d' -> private_or_missing (seen d !! k) -> kept d !! k = seen d !! k -> seen d' !! k = seen d !! k.
Proof.
  intros Hl Hp Hk. assert (Hst : stable (seen d !! k)) by (destruct Hp as [->|Hp]; [done|by destruct (seen d !! k) as [[]|]]).
  destruct (loss_stable d d' k Hl Hst) as [|]; congruence.
Qed.

Lemma loss_shape d d' : power = true -> shape d -> power_loss d d' -> 
  stable (seen d !! path_for key) -> stable (kept d !! path_for key) -> shape d'.
Proof.
  intros Hp [Hs Hk] Hl Hst1 Hst2. destruct (Hk Hp) as (Hsk & Hr & Hu & Hi).
  assert (Hr' : seen d' !! root = seen d !! root) by (apply loss_directory; [done|apply Hs|done]).
  assert (Hu' : seen d' !! user_directory key = seen d !! user_directory key) by (apply loss_directory; [done|apply Hs|done]).
  assert (Hi' : seen d' !! identity_root = seen d !! identity_root) by (apply loss_directory; [done|right; apply Hs|done]).
  assert (Hs' : shape_of (seen d')).
  { destruct Hs as [H1 H2 H3 H4 H5 H6]. split; unfold log_reachable; rewrite ?Hr', ?Hu', ?Hi'; try done.
    - intros Hn. destruct (loss_stable d d' (path_for key) Hl Hst1 Hst2) as [-> | ->]; [by apply H5|].
      apply (shape_log _ Hsk). by rewrite Hr, Hu.
    - intros name n Hn. destruct Hl as [_ Hl]. specialize (Hl (identity_root ++ [name])). rewrite Hn in Hl.
      destruct Hl as (m & Hm & Hset).
      assert (Hor : name = ACTIVE_FILE \/ (is_temporary name = true /\ exists mode c s, m = Regular mode c s /\ exposed mode = false)).
      { destruct Hm as [Hm|Hm]; [by apply H6|by apply (shape_temporaries _ Hsk)]. }
      destruct Hor as [->|(Ht & mode & c & s & -> & He)]; [by left|right]. split; [done|].
      destruct s; simpl in Hset; [subst; by exists mode, c, true|]. destruct Hset as [c' ->]. by exists mode, c', true. }
  destruct Hl as [Heq _]. split; [done|]. intros _. by rewrite Heq.
Qed.

(** Of two phases next to each other, each file shows one: together they show one. *)
Lemma moves_mix q p o o' :
  moves q p -> active_is o (phase_active p) \/ active_is o (phase_active q) ->
  log_is key o' (phase_log p) \/ log_is key o' (phase_log q) ->
  exists ph, (ph = p \/ ph = q) /\ active_is o (phase_active ph) /\ log_is key o' (phase_log ph).
Proof.
  intros Hm Ha Hl. destruct Hm as [ph|r r'|r x|x l|x l]; simpl in Ha, Hl.
  - exists ph. tauto.
  - destruct Ha; [exists (Waiting r')|exists (Waiting r)]; simpl; tauto.
  - destruct Ha; [exists (Journaled x)|exists (Waiting r)]; simpl; tauto.
  - destruct Hl; [exists (Logged x l)|exists (Journaled x)]; simpl; tauto.
  - destruct Ha; [exists (Gone l)|exists (Logged x l)]; simpl; tauto.
Qed.

Lemma loss_settles d d' : power = true -> inv d -> power_loss d d' -> exists ph, settled ph d'.
Proof.
  intros Hpow (Hsh & q & p & Hq & Hp & Hm & [Ha Hlog] & Hk) Hloss. destruct (Hk Hpow) as [Hka Hkl].
  pose proof (active_stable _ _ Ha) as S1. pose proof (active_stable _ _ Hka) as S2.
  pose proof (log_stable _ _ Hlog) as S3. pose proof (log_stable _ _ Hkl) as S4.
  destruct (moves_mix q p (seen d' !! active_path) (seen d' !! path_for key) Hm) as (ph & Hph & H1 & H2).
  - destruct (loss_stable d d' active_path Hloss S1 S2) as [-> | ->]; auto.
  - destruct (loss_stable d d' (path_for key) Hloss S3 S4) as [-> | ->]; auto.
  - exists ph. split; [by eapply loss_shape|]. split; [by destruct Hph as [-> | ->]|]. split; [done|].
    intros _. destruct Hloss as [-> _]. done.
Qed.

(** An attempt to complete the session, stopped anywhere or run to its end. *)
Definition attempt (d d' : disk) : Prop :=
  (exists b, stops (complete_active_snapshot boot_identity b) d d') \/
  (exists intent, stops (recover boot_identity intent) d d').

(** What the next attempt finds. *)
Definition restarted (d d' : disk) : Prop := if power then power_loss d d' else d' = d.

Definition history : disk -> disk -> Prop := rtc (fun d d' => exists d1, attempt d d1 /\ restarted d1 d').

Lemma attempt_inv ph d d' : settled ph d -> attempt d d' -> inv d'.
Proof.
  intros Hs [[b Ha]|[i Ha]]; eapply wp_stops; [exact Ha| |exact Ha|]; [by eapply wp_complete|by eapply wp_recovery].
Qed.

Lemma history_settled ph d d' : settled ph d -> history d d' -> exists ph', settled ph' d'.
Proof.
  intros Hs Hh. revert ph Hs. induction Hh as [d|d d2 d' (d1 & Ha & Hr) _ IH]; intros ph Hs; [by exists ph|].
  pose proof (attempt_inv _ _ _ Hs Ha) as Hi. unfold restarted in Hr.
  assert (exists ph', settled ph' d2) as [ph' Hs']; [|by eapply IH].
  destruct power eqn:Hpow; [by eapply loss_settles|]. subst d2. destruct Hi as (Hsh & q & p & Hq & Hp & _ & Ht & _).
  exists p. split; [done|]. split; [done|]. split; [done|]. by rewrite Hpow.
Qed.

(** What a reader of the play log sees of a session that started with [plays]. *)
Definition recorded_once (t : tree) : Prop :=
  (exists e l, new_play e /\ with_play e l /\ log_is key (t !! path_for key) l) \/
  (log_is key (t !! path_for key) plays /\ exists a, active_is (t !! active_path) (Some a)).

Lemma settled_recorded ph d : settled ph d -> recorded_once (seen d).
Proof.
  intros (_ & Hok & [Ha Hl] & _). destruct ph as [r|p|p l|l]; cbn [phase_ok phase_active phase_log] in *.
  - right. eauto.
  - right. eauto.
  - left. destruct Hok as [(_ & _ & ?) ?]. by exists (pend_entry p), l.
  - left. destruct Hok as (e & ? & ?). by exists e, l.
Qed.

Lemma waiting_settled r d :
  shape d -> run_person r = Some person -> run_game r = game -> on_tree (Waiting r) (seen d) ->
  (power = true -> on_tree (Waiting r) (kept d)) -> settled (Waiting r) d.
Proof. intros. by split; [|split; [|split]]. Qed.

(** C9: A play is recorded exactly once, where attempts to complete the session are stopped
    by the daemon only, or by power losses only. Whatever fails, wherever an attempt is
    stopped, and however often it is tried again: either the record of the session is still
    there and the log lists what it did, or the log lists the old plays, the oldest perhaps
    forgotten for space, and this one new play. Where stops of both kinds mix, a play can
    be lost. *)
Theorem play_recorded_once r d d' :
  shape d -> run_person r = Some person -> run_game r = game ->
  on_tree (Waiting r) (seen d) -> (power = true -> on_tree (Waiting r) (kept d)) ->
  history d d' -> recorded_once (seen d').
Proof.
  intros Hsh Hp Hg Ht Hk Hh.
  destruct (history_settled (Waiting r) d d') as [ph Hs]; [by apply waiting_settled|done|]. by eapply settled_recorded.
Qed.

(** ** An attempt that nothing disturbs *)

(** A record that can be written. *)
Definition writable (a : ActiveSession) : Prop :=
  validate a = Ok () /\ exists s, active_to_vec a = Ok s /\ str_len (s +:+ newline) <= MAX_ACTIVE_BYTES.

(** The play log can take a play. *)
Definition room_for (e : PlayEntry) : Prop :=
  (forall left, left `sublist_of` plays -> is_ok (to_vec_pretty (with_entries (left ++ [e]) (log_of key plays))) = true) /\
  ~ too_large (with_entries [e] (log_of key plays)).

(** The names the random numbers give are free. *)
Definition free_name (d : disk) : Prop :=
  seen d !! (user_directory key ++ [temporary_name (file_name game) (host_random mod 2 ^ 64)]) = None.

Definition clean (d : disk) : Prop :=
  forall name, is_temporary name = true -> seen d !! (identity_root ++ [name]) = None.

Lemma names_clean ph d : settled ph d -> clean d ->
  names identity_root (seen d) = match phase_active ph with Some _ => [ACTIVE_FILE] | None => [] end.
Proof.
  intros (Hsh & _ & [Ha _] & _) Hc.
  assert (Hin : forall x, x ∈ names identity_root (seen d) <-> x = ACTIVE_FILE /\ phase_active ph <> None).
  { intros x. rewrite elem_of_names. split.
    - intros [n Hn]. destruct (shape_temporaries _ (proj1 Hsh) x n Hn) as [->|[Ht _]]; [|by rewrite (Hc x Ht) in Hn].
      split; [done|]. intros Hx. unfold active_path in Ha. rewrite Hn, Hx in Ha. by destruct n as [|? ? []| |].
    - intros [-> Hx]. unfold active_path in Ha. destruct (seen d !! (identity_root ++ [ACTIVE_FILE])); [by eexists|].
      by destruct (phase_active ph). }
  pose proof (names_NoDup identity_root (seen d)) as Hnd.
  destruct (names identity_root (seen d)) as [|x [|y l]].
  - destruct (phase_active ph); [|done]. exfalso. assert (ACTIVE_FILE ∈ ([] : list string)); [by apply Hin|by apply elem_of_nil in H].
  - destruct (Hin x) as [Hx _]. destruct Hx as [-> Hx]; [by left|]. by destruct (phase_active ph).
  - exfalso. destruct (proj1 (Hin x)) as [-> _]; [by left|]. destruct (proj1 (Hin y)) as [-> _]; [right; by left|].
    apply NoDup_cons in Hnd as [Hout _]. apply Hout. by left.
Qed.

Lemma run_read_active ph d : settled ph d -> clean d -> run read_active d = (d, Ok (phase_active ph)).
Proof.
  intros Hs Hc. pose proof (names_clean ph d Hs Hc) as Hn. destruct Hs as (Hsh & _ & [Ha _] & _).
  pose proof (shape_identity _ (proj1 Hsh)) as Hid. unfold read_active. rewrite run_do. cbn [effect usual query stat fst snd].
  unfold stat. destruct (seen d !! identity_root) as [[mode| | |]|] eqn:Hroot; try done. simpl in Hid. cbn [metadata private_directory].
  rewrite Hid. cbn [negb]. erewrite run_attempt; [|rewrite run_do; cbn [effect usual query fst snd]; unfold read_dir; by rewrite Hroot].
  rewrite Hn. destruct (phase_active ph) as [a|]; [|done]. rewrite bool_decide_eq_true_2 by done.
  unfold active_is in Ha. destruct (seen d !! active_path) as [[m|m content [|]|b|]|] eqn:Hact; try done.
  destruct Ha as (Hm & Hlen & Hdec & Hval). unfold read_record.
  erewrite run_attempt; [|rewrite run_do; cbn [effect usual query fst snd]; unfold stat; by rewrite Hact].
  cbn [metadata]. rewrite Hm, (proj2 (Z.ltb_ge _ _) Hlen). cbn [orb].
  erewrite run_attempt; [|rewrite run_do; cbn [effect usual query fst snd]; unfold read_file; by rewrite Hact].
  rewrite prefix_all by (unfold str_len, MAX_ACTIVE_BYTES in *; lia).
  rewrite (proj2 (Z.ltb_ge _ _) Hlen), Hdec. cbn [map_err mbind result_bind]. by rewrite Hval.
Qed.

(** *** Clearing what was cut short *)

Definition not_in_identity (t t' : tree) : Prop := forall k, ~ child_of identity_root k -> t' !! k = t !! k.

(** What an undisturbed run needs of the disk, and keeps. *)
Record tidy (d : disk) : Prop := {
  tidy_top : is_directory (seen d !! []) = true;
  tidy_free : free_name d;
}.

Lemma tidy_identity d d' : not_in_identity (seen d) (seen d') -> tidy d -> tidy d'.
Proof.
  unfold not_in_identity. intros Heq [H1 H2]. split.
  - rewrite Heq; [done|]. by intros [? _].
  - unfold free_name in *. rewrite Heq; [done|]. by intros (x & Hx)%child_of_inv.
Qed.

Lemma run_read_err d : (exists name, is_temporary name = true /\ is_Some (seen d !! (identity_root ++ [name]))) ->
  private_at (seen d !! identity_root) -> exists e, run read_active d = (d, Err e).
Proof.
  intros (name & Ht & Hin%elem_of_names) Hid. unfold read_active. rewrite run_do. cbn [effect usual query stat fst snd].
  unfold stat. destruct (seen d !! identity_root) as [[mode| | |]|] eqn:Hroot; try done. simpl in Hid.
  cbn [metadata private_directory]. rewrite Hid. cbn [negb].
  erewrite run_attempt; [|rewrite run_do; cbn [effect usual query fst snd]; unfold read_dir; by rewrite Hroot].
  destruct (names identity_root (seen d)) as [|x [|y l]]; [by apply elem_of_nil in Hin| |by eexists].
  apply list_elem_of_singleton in Hin as ->. rewrite bool_decide_eq_false_2; [by eexists|]. by apply temporary_not_active.
Qed.

Lemma run_all_private l d :
  (forall n, n ∈ l -> exists mode c s, seen d !! (identity_root ++ [n]) = Some (Regular mode c s) /\ exposed mode = false) ->
  run (all_private_files l) d = (d, true).
Proof.
  induction l as [|n l IH]; intros Hall; [done|]. cbn [all_private_files]. rewrite run_do.
  destruct (Hall n) as (mode & c & s & Hn & He); [by left|]. cbn [effect usual query fst snd]. unfold stat. rewrite Hn.
  cbn [metadata]. rewrite He. apply IH. intros; apply Hall. by right.
Qed.

Lemma run_remove_files l d :
  NoDup l -> (forall n, n ∈ l -> exists mode c s, seen d !! (identity_root ++ [n]) = Some (Regular mode c s)) ->
  exists t, run (remove_files l) d = (MkDisk t (kept d), Ok ()) /\ not_in_identity (seen d) t /\
    forall n, t !! (identity_root ++ [n]) = if decide (n ∈ l) then None else seen d !! (identity_root ++ [n]).
Proof.
  revert d. induction l as [|n l IH]; intros d Hnd Hall; cbn [remove_files].
  { exists (seen d). destruct d. done. }
  apply NoDup_cons in Hnd as [Hn Hnd]. destruct (Hall n) as (mode & c & s & Hat); [by left|].
  set (d1 := MkDisk (delete (identity_root ++ [n]) (seen d)) (kept d)).
  assert (Hother : forall m, m <> n -> seen d1 !! (identity_root ++ [m]) = seen d !! (identity_root ++ [m])).
  { intros m Hm. cbn [d1 seen]. rewrite lookup_delete_ne; [done|]. intros [_ Heq]%app_inj_tail. by subst. }
  destruct (IH d1 Hnd) as (t & Hrun & Hout & Ht).
  { intros m Hm. rewrite Hother by by intros ->. apply Hall. by right. }
  exists t. split; [|split].
  - erewrite run_attempt; [exact Hrun|]. rewrite run_do. cbn [effect usual]. erewrite change_works; [done|].
    unfold remove_file. by rewrite Hat.
  - intros k Hk. rewrite Hout by done. cbn [d1 seen]. rewrite lookup_delete_ne; [done|]. intros <-. by apply Hk, child_of_app.
  - intros m. rewrite Ht. destruct (decide (m = n)) as [->|Hm].
    + rewrite decide_False, decide_True by (done || by left). cbn [d1 seen]. by rewrite lookup_delete_eq.
    + rewrite Hother by done. destruct (decide (m ∈ l)); [by rewrite decide_True by by right|].
      rewrite decide_False; [done|]. by intros [?|?]%elem_of_cons.
Qed.

(** Everything below the identity root is a private file. *)
Lemma entries_private ph d name :
  settled ph d -> name ∈ names identity_root (seen d) ->
  exists mode c s, seen d !! (identity_root ++ [name]) = Some (Regular mode c s) /\ exposed mode = false.
Proof.
  intros (Hsh & _ & [Ha _] & _) [n Hn]%elem_of_names. rewrite Hn.
  destruct (shape_temporaries _ (proj1 Hsh) name n Hn) as [->|(_ & mode & c & s & -> & He)]; [|by exists mode, c, s].
  unfold active_path in Ha. rewrite Hn in Ha. unfold active_is in Ha.
  destruct n as [m|mode c [|]| |], (phase_active ph); try done. exists mode, c, true. tauto.
Qed.

Lemma not_temporary ph d :
  settled ph d ->
  let others := keep (fun name => negb (is_temporary name)) (names identity_root (seen d)) in
  others = [] \/ others = [ACTIVE_FILE].
Proof.
  intros Hs others. assert (Hin : forall x, x ∈ others -> x = ACTIVE_FILE).
  { intros x [[n Hn]%elem_of_names Hx]%elem_of_keep. destruct Hs as (Hsh & _).
    destruct (shape_temporaries _ (proj1 Hsh) x n Hn) as [->|[Ht _]]; [done|]. by rewrite Ht in Hx. }
  assert (Hnd : NoDup others) by apply keep_NoDup, names_NoDup.
  destruct others as [|x [|y l]]; [by left|right; f_equal; apply Hin; by left|].
  exfalso. apply NoDup_cons in Hnd as [Hnd _]. apply Hnd. rewrite (Hin x), (Hin y); [by left|right; by left|by left].
Qed.

Lemma goes_clear_temporaries ph d :
  settled ph d -> (exists name, is_temporary name = true /\ is_Some (seen d !! (identity_root ++ [name]))) ->
  goes (fun b d' => b = true /\ clean d' /\ not_in_identity (seen d) (seen d')) clear_crash_temporary_active d.
Proof.
  intros Hs (name & Ht & Hin%elem_of_names). pose proof (shape_identity _ (proj1 (proj1 Hs))) as Hid.
  destruct (seen d !! identity_root) as [[mode| | |]|] eqn:Hroot; try done. simpl in Hid.
  unfold clear_crash_temporary_active. apply goes_do. cbn [effect usual fst snd]. unfold exists_at. rewrite Hroot. cbn [negb].
  apply goes_step, goes_do. cbn [effect usual query fst snd]. unfold stat. rewrite Hroot. apply goes_ok. cbn [metadata private_directory].
  rewrite Hid. cbn [negb]. apply goes_step, goes_do. cbn [effect usual query fst snd]. unfold read_dir. rewrite Hroot.
  apply goes_ok. cbv zeta. set (l := names identity_root (seen d)) in *.
  assert (Hk : name ∈ keep is_temporary l) by by apply elem_of_keep.
  destruct (keep is_temporary l) as [|x l'] eqn:Hl; [by apply elem_of_nil in Hk|]. rewrite <- Hl.
  assert (Ho : negb (bool_decide (keep (fun name => negb (is_temporary name)) l = [])
      || bool_decide (keep (fun name => negb (is_temporary name)) l = [ACTIVE_FILE])) = false).
  { destruct (not_temporary ph d Hs) as [Heq|Heq]; fold l in Heq; by rewrite Heq. }
  rewrite Ho. apply goes_bind. rewrite run_all_private by (intros n Hn; by eapply entries_private). cbn [fst snd negb].
  destruct (run_remove_files (keep is_temporary l) d) as (t & Hrun & Hout & Hgone).
  { apply keep_NoDup, names_NoDup. }
  { intros n [Hn _]%elem_of_keep. destruct (entries_private ph d n Hs Hn) as (m & c & s & Hx & _). eauto. }
  apply goes_step. eapply goes_run; [exact Hrun|]. apply goes_step, goes_do. cbn [effect usual]. unfold sync_dir. cbn [seen].
  rewrite Hout by by apply not_child_length. rewrite Hroot. cbn [is_directory fst snd]. apply goes_ok, goes_ok. split; [done|].
  split; [|done]. intros n Hn. cbn [seen]. rewrite Hgone. destruct (decide (n ∈ keep is_temporary l)) as [|Hno]; [done|].
  destruct (seen d !! (identity_root ++ [n])) eqn:Hx; [|done]. exfalso. apply Hno, elem_of_keep. split; [|done].
  apply elem_of_names. by eexists.
Qed.

Lemma clean_or_not d : clean d \/ exists name, is_temporary name = true /\ is_Some (seen d !! (identity_root ++ [name])).
Proof.
  destruct (keep is_temporary (names identity_root (seen d))) as [|x l] eqn:Hl.
  - left. intros n Hn. destruct (seen d !! (identity_root ++ [n])) eqn:Hx; [|done]. exfalso.
    assert (Hin : n ∈ keep is_temporary (names identity_root (seen d))); [|rewrite Hl in Hin; by apply elem_of_nil in Hin].
    apply elem_of_keep. split; [|done]. apply elem_of_names. by eexists.
  - right. exists x. assert (Hin : x ∈ keep is_temporary (names identity_root (seen d))) by (rewrite Hl; by left).
    apply elem_of_keep in Hin as [Hin Ht]. by apply elem_of_names in Hin.
Qed.

(** Settled, with nothing left of writes that were cut short. *)
Definition calm (ph : phase) (d : disk) : Prop := settled ph d /\ clean d /\ tidy d.

Lemma goes_read_active ph d : calm ph d -> goes (fun a d' => d' = d /\ a = phase_active ph) read_active d.
Proof. intros (Hs & Hc & _). eapply goes_run; [by apply run_read_active|done]. Qed.

Lemma goes_read_recoverable ph d :
  settled ph d -> tidy d -> goes (fun a d' => calm ph d' /\ a = phase_active ph) (read_recoverable []) d.
Proof.
  intros Hs Ht. unfold read_recoverable. apply goes_bind. destruct (clean_or_not d) as [Hc|Hdirty].
  { erewrite run_read_active by done. by apply goes_ok. }
  destruct (run_read_err d Hdirty) as [e ->]; [exact (shape_identity _ (proj1 (proj1 Hs)))|]. cbn [fst snd is_err is_ok negb andb].
  rewrite bool_decide_eq_true_2 by done.
  destruct (goes_and _ _ _ _ _ (wp_clear_temporaries ph d Hs) (goes_clear_temporaries ph d Hs Hdirty))
    as (d' & b & Hrun & (-> & Hc & Hout) & Hs').
  apply goes_bind. rewrite Hrun. cbn [fst snd].
  assert (Hcalm : calm ph d') by (split; [done|split; [done|by eapply tidy_identity]]).
  eapply goes_mono; [|by apply goes_read_active]. by intros a d2 [-> ->].
Qed.

(** *** Writing the record *)

Lemma active_no_directory n a : active_is n a -> is_directory n = false.
Proof. by destruct n as [[|m c []| |]|], a. Qed.

Lemma goes_write_active ph ph' rec d :
  calm ph d -> phase_active ph' = Some rec -> phase_log ph' = phase_log ph -> moves ph ph' ->
  phase_ok ph' -> reread_active rec = rec -> writable rec ->
  goes (fun _ d' => calm ph' d') (write_active rec) d.
Proof.
  intros (Hs & Hc & Ht) Hrec Hlog Hm Hok Hre (Hv & s & Hser & Hlen).
  pose proof (shape_identity _ (proj1 (proj1 Hs))) as Hid%private_directory_at.
  assert (Hw : wp inv (on_ok (fun _ d' => settled ph' d')) (write_active rec) d) by by apply (wp_write_active ph).
  assert (Hg : goes (fun _ d' => clean d' /\ tidy d') (write_active rec) d).
  { unfold write_active. rewrite Hv. apply goes_do. cbn [effect usual fst snd]. rewrite Hser.
    rewrite (proj2 (Z.ltb_ge _ _) Hlen). set (n := _ mod 2 ^ 128).
    assert (Hne : active_path <> temporary_active n) by (apply temporary_paths; tauto).
    apply goes_bind. change (stage_active (temporary_active n) (s +:+ newline)) with
      (atomic_replace io_text (temporary_active n) active_path identity_root (s +:+ newline)).
    rewrite run_atomic_replace; try done.
    - cbn [fst snd]. apply goes_ok. split.
      + intros name Hname. cbn [seen]. rewrite lookup_insert_ne; [by apply Hc|].
        unfold active_path. intros [_ Heq]%app_inj_tail. by apply temporary_not_active in Hname.
      + apply (tidy_identity d); [|done]. intros k Hk. cbn [seen]. rewrite lookup_insert_ne; [done|].
        intros <-. by apply Hk, child_of_app.
    - apply Hc, is_temporary_nonce.
    - destruct Hs as (_ & _ & [Ha _] & _). by eapply active_no_directory. }
  eapply goes_mono; [|by apply (goes_and _ _ _ _ _ Hw Hg)]. intros _ d' [[Hc' Ht'] Hs']. by split.
Qed.

Lemma goes_replace_active ph ph' rec d :
  calm ph d -> phase_active ph <> None -> phase_active ph' = Some rec -> phase_log ph' = phase_log ph -> moves ph ph' ->
  phase_ok ph' -> reread_active rec = rec -> writable rec ->
  goes (fun _ d' => calm ph' d') (replace_active rec) d.
Proof.
  intros Hs Hact Hrec Hlog Hm Hok Hre Hw. apply goes_step. eapply goes_mono; [|by apply goes_read_active].
  intros a d' [-> ->]. destruct (phase_active ph) as [a|]; [|done]. by apply (goes_write_active ph ph').
Qed.

Lemma goes_clear_active p l d : calm (Logged p l) d -> goes (fun _ d' => settled (Gone l) d') clear_active d.
Proof.
  intros (Hs & Hc & Ht). pose proof (shape_identity _ (proj1 (proj1 Hs))) as Hid%private_directory_at.
  pose proof Hs as (_ & _ & [Ha _] & _). unfold active_is in Ha.
  destruct (seen d !! active_path) as [[|m c []| |]|] eqn:Hact; try done.
  assert (Hg : goes (fun _ _ => True) clear_active d).
  { unfold clear_active. apply goes_do. cbn [effect usual]. erewrite change_works by (unfold remove_file; by rewrite Hact).
    cbn [fst snd]. apply goes_do. cbn [effect usual]. unfold sync_dir. cbn [seen].
    rewrite lookup_delete_ne by done. rewrite Hid. by apply goes_ok. }
  eapply goes_mono; [|by apply (goes_and _ _ _ _ _ (wp_clear_active p l d Hs) Hg)]. by intros _ d' [_ ?].
Qed.

(** *** Writing the document *)

Lemma run_existing p d :
  private_or_missing (seen d !! p) ->
  run (existing_private_directory p) d = (d, Ok (is_some (seen d !! p))).
Proof.
  intros Hp. unfold existing_private_directory. rewrite run_do. cbn [effect usual query fst snd]. unfold stat.
  destruct (seen d !! p) as [[mode| | |]|]; try (by destruct Hp). destruct Hp as [|Hp]; [done|]. simpl in Hp.
  cbn [metadata private_directory]. by rewrite Hp.
Qed.

Context (Hkey : validate_history_key key = Ok ()).

Lemma run_load ph d :
  settled ph d -> run (load_for_write_unlocked key) d = (d, Ok (log_of key (phase_log ph))).
Proof.
  intros Hs. assert (Hg : goes (fun _ d' => d' = d) (load_for_write_unlocked key) d).
  { destruct Hs as (Hsh & _ & [_ Hl] & _). destruct Hsh as [Hsh _]. unfold load_for_write_unlocked, load_decoded_unlocked.
    rewrite Hkey. apply goes_step. eapply goes_run; [apply run_existing, Hsh|]. destruct (is_some _); [|by apply goes_ok].
    apply goes_step. eapply goes_run; [apply run_existing, Hsh|]. destruct (is_some _); [|by apply goes_ok]. cbn [negb].
    apply goes_step. unfold log_is in Hl. unfold read_bounded_private. apply goes_do. cbn [effect usual query fst snd]. unfold stat.
    destruct (seen d !! path_for key) as [[|mode c []| |]|] eqn:Hn; try done; [|by apply goes_ok, goes_ok].
    destruct Hl as (Hm & Hlen & log & Hlog & Hv & _). cbn [metadata]. rewrite Hm, (proj2 (Z.ltb_ge _ _) Hlen). cbn [orb].
    apply goes_do. cbn [effect usual query fst snd]. unfold read_file. rewrite Hn.
    rewrite prefix_all by (unfold str_len, MAX_PLAY_LOG_BYTES in *; lia). rewrite (proj2 (Z.ltb_ge _ _) Hlen).
    apply goes_ok. rewrite Hlog. cbn [ok]. rewrite Hv. by apply goes_ok. }
  destruct (goes_and _ _ _ _ _ (settled_load ph d Hs) Hg) as (d' & log & Hr & -> & _ & ->). exact Hr.
Qed.

Lemma goes_ensure ph p d :
  calm ph d -> p = root \/ (p = user_directory key /\ seen d !! root <> None) ->
  goes (fun _ d' => calm ph d' /\ seen d' !! p <> None) (ensure_private_directory p) d.
Proof.
  intros (Hs & Hc & Ht) Hp.
  assert (Hpriv : private_or_missing (seen d !! p)) by (destruct Hp as [->|[-> _]]; apply (proj1 (proj1 Hs))).
  assert (Hpar : is_directory (seen d !! parent p) = true).
  { destruct Hp as [->|[-> Hr]]; [apply Ht|]. unfold user_directory. rewrite parent_child. apply private_present; [|done].
    apply (proj1 (proj1 Hs)). }
  assert (Hg : goes (fun _ d' => clean d' /\ tidy d') (ensure_private_directory p) d).
  { unfold ensure_private_directory. apply goes_do. cbn [effect usual fst snd]. unfold exists_at.
    destruct (seen d !! p) as [[mode| | |]|] eqn:Hn; try (by destruct Hpriv).
    - destruct Hpriv as [|Hpriv]; [done|]. simpl in Hpriv. apply goes_do. cbn [effect usual query fst snd]. unfold stat.
      rewrite Hn. cbn [metadata private_directory]. rewrite Hpriv. by apply goes_ok.
    - apply goes_do. cbn [effect usual]. unfold make_directory, create. rewrite Hn, Hpar. cbn [fst snd].
      assert (Hne : p <> []) by (by destruct Hp as [->|[-> _]]).
      apply goes_step, goes_do. cbn [effect usual]. unfold sync_dir. cbn [seen kept].
      rewrite lookup_insert_ne by (intros Hx; unfold parent in Hx; apply (f_equal length) in Hx; rewrite length_take in Hx; destruct p; simpl in *; [done|lia]).
      rewrite Hpar. cbn [fst snd]. apply goes_ok. apply goes_do. cbn [effect usual query fst snd seen]. unfold stat.
      rewrite lookup_insert_eq. cbn [metadata private_directory]. apply goes_ok. split.
      + intros name Hname. cbn [seen]. rewrite lookup_insert_ne; [by apply Hc|].
        by destruct Hp as [->|[-> _]].
      + destruct Ht as [Ht1 Ht2]. split; cbn [seen]; [by rewrite lookup_insert_ne|]. unfold free_name in *. cbn [seen].
        rewrite lookup_insert_ne; [done|]. destruct Hp as [->|[-> _]]; [done|]. intros Hx.
        apply (f_equal length) in Hx. by rewrite length_app, Nat.add_1_r in Hx. }
  eapply goes_mono; [|by apply (goes_and _ _ _ _ _ (wp_ensure_directory ph p d Hs Hp) Hg)].
  intros _ d' [[Hc' Ht'] [Hs' Hn]]. by split.
Qed.

Lemma goes_write_log ph ph' s d :
  calm ph d -> seen d !! user_directory key <> None -> log_is key (Some (Regular 384 s true)) (phase_log ph') ->
  phase_active ph' = phase_active ph -> moves ph ph' -> phase_ok ph' ->
  goes (fun _ d' => calm ph' d') (write_private_atomically (path_for key) s) d.
Proof.
  intros (Hs & Hc & Ht) Hu Hlog Hact Hm Hok.
  destruct (log_changed ph ph' d (Regular 384 s true) Hs Hu Hlog Hact Hm Hok) as [_ Hs2]. cbn [seen kept] in Hs2.
  assert (Hpar : parent (path_for key) = user_directory key) by apply parent_child.
  assert (Hud : is_directory (seen d !! user_directory key) = true) by (by apply private_present; [apply (proj1 (proj1 Hs))|]).
  unfold write_private_atomically. apply goes_do. cbn [effect usual fst snd]. cbv zeta. rewrite Hpar.
  assert (Hlast : last (path_for key) = Some (file_name game)) by apply last_snoc. rewrite Hlast. cbn [default from_option id].
  set (temporary := user_directory key ++ [temporary_name _ _]). pose proof (tidy_free _ Ht) as Hfree. unfold free_name in Hfree.
  fold temporary in Hfree.
  assert (Hne : path_for key <> temporary) by (apply play_temporary_unwatched; unfold watched; tauto).
  assert (Hne2 : path_for key <> user_directory key) by (intros Hx; by apply (f_equal length) in Hx).
  assert (Hpt : parent temporary = user_directory key) by apply parent_child.
  apply goes_bind. change (write_new (path_for key) temporary s) with
    (atomic_replace (fun _ : IoError => Storage) temporary (path_for key) (parent (path_for key)) s). rewrite Hpar.
  rewrite run_atomic_replace; rewrite ?Hpar, ?Hpt; try done.
  - cbn [fst snd]. apply goes_ok. split; [done|]. split.
    + intros name Hname. cbn [seen]. rewrite lookup_insert_ne; [by apply Hc|done].
    + split; [|unfold free_name]; cbn [seen]; rewrite lookup_insert_ne by done; apply Ht.
  - destruct Hs as (_ & _ & [_ Hl] & _). by destruct (seen d !! path_for key) as [[]|].
Qed.

Lemma room_serialize e :
  new_play e -> room_for e ->
  exists s gone left,
    serialize_with_retention (with_entries (plays ++ [e]) (log_of key plays)) (pred (length (plays ++ [e]))) = Ok s /\
    forgets (log_of key plays) e plays gone left /\ fits (with_entries (left ++ [e]) (log_of key plays)) s.
Proof.
  intros [Hv _ _] [Hjson Hfits]. apply validate_entry_Ok in Hv as (_ & Hfin & _). unfold serialize_with_retention.
  cbn [with_entries entries]. rewrite length_app, Nat.add_1_r. cbn [pred].
  rewrite lookup_app_r, Nat.sub_diag by lia. cbn [lookup list_lookup].
  set (log := with_entries (plays ++ [e]) (log_of key plays)).
  destruct (retain (S (length plays)) log e (length plays)) as [s|x] eqn:Hr.
  - apply (retain_Ok _ log plays e s eq_refl) in Hr as (gone & left & Hf & Hfit). by exists s, gone, left.
  - exfalso. apply (retain_Err _ log plays e x eq_refl Hfin) in Hr as (left & Hsub & [Herr|[-> Hl]]); [|by apply Hfits|lia].
    specialize (Hjson left Hsub). unfold log in Herr. rewrite with_entries_twice in Herr. unfold is_err in Herr. by rewrite Hjson in Herr.
Qed.

Lemma goes_record_first p d :
  calm (Journaled p) d -> room_for (pend_entry p) ->
  goes (fun _ d' => exists l, calm (Logged p l) d') (record key (pend_entry p)) d.
Proof.
  intros Hcalm Hroom. pose proof (proj1 Hcalm) as Hs. assert (Hours : ours p) by apply Hs. pose proof Hours as (Hp & Hg & Hnew).
  unfold record. rewrite (new_valid _ Hnew). apply goes_step. eapply goes_run; [by apply (run_load (Journaled p))|].
  cbn [entries log_of phase_log]. rewrite (not_there _ Hnew). cbv zeta. cbn [with_entries entries].
  apply goes_step. eapply goes_mono; [|by apply (goes_ensure (Journaled p)); [|left]]. intros _ d1 [Hs1 Hroot].
  apply goes_step. eapply goes_mono; [|by apply (goes_ensure (Journaled p)); [|right]]. intros _ d2 [Hs2 Hdir].
  destruct (room_serialize _ Hnew Hroom) as (s & gone & left & Hser & Hf & Hfit).
  unfold log_of, with_entries in Hser |- *. cbn [entries log_user log_game] in Hser |- *. rewrite Hser.
  set (l := (reread_entry <$> left) ++ [pend_entry p]).
  assert (Hwith : with_play (pend_entry p) l) by by exists gone, left.
  eapply goes_mono; [|apply (goes_write_log (Journaled p) (Logged p l)); try done; [|apply moves_log]]; [intros ? d' Hc; by exists l|].
  apply written_log; [done| |done]. intros x Hx. destruct Hs as (_ & _ & [_ Hl] & _). eapply plays_valid; [exact Hl|].
  destruct Hf as (_ & Hsub & _). by eapply elem_of_sublist.
Qed.

Lemma goes_record_again p l d :
  calm (Logged p l) d -> goes (fun _ d' => calm (Logged p l) d') (record key (pend_entry p)) d.
Proof.
  intros Hcalm. pose proof (proj1 Hcalm) as Hs. assert (Hours : phase_ok (Logged p l)) by apply Hs.
  destruct Hours as ((Hp & Hg & Hnew) & Hw). unfold record. rewrite (new_valid _ Hnew).
  apply goes_step. eapply goes_run; [by apply (run_load (Logged p l))|].
  cbn [entries log_of phase_log]. rewrite (there _ _ Hnew Hw). by apply goes_ok.
Qed.

(** *** The host *)

Definition now : Z := Z.of_N (host_answer NowEpochSeconds).

Definition completed_entry (r : RunningSession) : result PlayLogError PlayEntry :=
  completion_entry (log_of key plays) (Z.min u64_max (now * 1000)) (f64_of_Z (saturating_sub now (Z.of_N (run_started r)))).

(** The saves the host captures of an interrupted session. *)
Definition captured (r : RunningSession) (e : PlayEntry) : result string (option SnapshotRecord) :=
  match run_runner r, save_locations r with
  | Some runner, Some (l :: ls) =>
      device ← host_answer DevicePublicKey;
      snapshot ← host_answer (Capture person (l :: ls)
        (snapshot_template r runner device e (saturating_sub now (Z.of_N (run_started r))) true));
      Ok (Some snapshot)
  | _, _ => Ok None
  end.

Definition pending_of (r : RunningSession) (e : PlayEntry) (snapshot : option SnapshotRecord) : PendingSession :=
  MkPendingSession (run_launch r) game person (run_started r) e snapshot.

Definition puts (snapshot : option SnapshotRecord) : Prop :=
  match snapshot with Some s => host_answer (PutRecord person s) = Ok () | None => True end.

(** No hook is left to run: there was none, they all ran, or the machine was started anew. *)
Definition hooks_over (r : RunningSession) : Prop :=
  match after_hooks r with
  | None => True
  | Some h => exists boot, boot_identity = Ok boot /\ (boot_id h <> boot \/ steps h = [])
  end.

(** What the rest of the completion needs: the clock before the year 10000, the
    saves, room in the file of the record and in the log. *)
Definition ready (ph : phase) : Prop :=
  match ph with
  | Waiting r =>
      hooks_over r /\ now * 1000 + Z.of_nat (length plays) <= 253402300799999 /\
      forall e, completed_entry r = Ok e ->
        exists snapshot, captured r e = Ok snapshot /\ writable (CompletionPending (pending_of r e snapshot)) /\
          room_for e /\ puts snapshot
  | Journaled p => room_for (pend_entry p) /\ puts (save_snapshot p)
  | Logged p _ => puts (save_snapshot p)
  | Gone _ => True
  end.

(** The unit is over and the other parts of the host let it go. *)
Record host_ready : Prop := {
  ready_live : host_answer LiveLaunchIds = Ok [];
  ready_unit launch : host_answer (UnitState launch) = Ok UnitCompleted;
  ready_seats launch : host_answer (EndSeats launch) = Ok ();
  ready_cleanup launch : host_answer (CleanupCompleted launch) = Ok ();
}.

Lemma completed_entry_total r :
  now * 1000 + Z.of_nat (length plays) <= 253402300799999 ->
  exists e, completed_entry r = Ok e /\ validate_entry e = Ok () /\ new_play e.
Proof.
  intros Hclock. assert (Hnow : 0 <= now) by (unfold now; lia).
  assert (Hn : 0 <= saturating_sub now (Z.of_N (run_started r)) < 2 ^ 53) by (unfold saturating_sub; lia).
  set (occ := occupied (log_of key plays)).
  assert (Hocc : (length occ <= length plays)%nat).
  { pose proof (length_filter_map (fun e => parse_rfc3339 (occurred_at e)) plays). unfold occ, occupied, log_of. cbn [entries]. lia. }
  destruct (free_instant_total occ (Z.min u64_max (now * 1000))) as [j Hj]; [unfold i64_max; lia|].
  pose proof (free_instant_Ok _ _ _ _ Hj) as (_ & Hle & Hall).
  pose proof (interval_length occ (Z.min u64_max (now * 1000)) (Z.to_nat (j - Z.min u64_max (now * 1000)))) as Hlen.
  specialize (Hlen ltac:(intros k Hk; apply Hall; lia)).
  destruct (instant_total j) as (s & Hs & Hparse); [unfold u64_max in *; lia|].
  assert (He : completed_entry r = Ok (MkEntry s (f64_of_Z (saturating_sub now (Z.of_N (run_started r)))) None)).
  { unfold completed_entry, completion_entry. fold occ. rewrite Hj. unfold format_rfc3339_millis, ok_or. rewrite Hs.
    rewrite (proj2 (Z.ltb_ge _ _)); [done|]. unfold i64_max. lia. }
  pose proof (small_finite _ Hn) as [Hf Hlt].
  eexists. split; [exact He|]. assert (Hv : validate_entry (MkEntry s (f64_of_Z (saturating_sub now (Z.of_N (run_started r)))) None) = Ok ()).
  { apply validate_entry_Ok. split; [by eexists|]. by split. }
  split; [done|]. by eapply completion_entry_new.
Qed.

Lemma run_capture r e d :
  run (capture_saves r person e (saturating_sub now (Z.of_N (run_started r))) true) d = (d, captured r e).
Proof.
  unfold capture_saves, captured. destruct (run_runner r); [|done]. destruct (save_locations r) as [[|l ls]|]; try done.
  unfold attempt. cbn. destruct (host_answer DevicePublicKey) as [device|]; [|done]. cbn.
  by destruct (host_answer (Capture _ _ _)).
Qed.

Lemma goes_journal r d :
  calm (Waiting r) d -> ready (Waiting r) ->
  goes (fun p d' => calm (Journaled p) d' /\ ready (Journaled p)) (journal_completion r person true) d.
Proof.
  intros Hcalm (_ & Hclock & Hfresh). destruct (completed_entry_total r Hclock) as (e & He & Hv & Hnew).
  destruct (Hfresh e He) as (snapshot & Hcap & Hw & Hroom & Hputs).
  pose proof (proj1 Hcalm) as Hs. assert (Hok : phase_ok (Waiting r)) by apply Hs. destruct Hok as [Hp Hg].
  unfold journal_completion. rewrite Hg. apply goes_do. cbn [effect usual fst snd]. cbv zeta.
  apply goes_step, goes_bind.
  assert (Hsmall : 0 <= saturating_sub now (Z.of_N (run_started r)) < 2 ^ 53) by (unfold saturating_sub, now in *; lia).
  pose proof (small_finite _ Hsmall) as [Hf Hlt].
  unfold unique_completion_entry. cbn [usual_answer host_services]. fold now. rewrite Hf, Hlt. cbn [negb orb].
  rewrite (run_attempt _ _ _ _ _ (run_load (Waiting r) d Hs)). cbn [phase_log]. cbn [Programs.run fst snd].
  unfold completed_entry in He. rewrite He. cbn [play map_err]. apply goes_ok.
  apply goes_step. eapply goes_run; [rewrite run_capture, Hcap; done|].
  apply goes_step. eapply goes_mono; [|apply (goes_replace_active (Waiting r) (Journaled (pending_of r e snapshot)));
    try done; [apply moves_journal|]].
  - intros ? d' Hc. apply goes_ok. split; [exact Hc|]. by split.
  - unfold reread_active, pending_of. cbn [pend_entry]. by rewrite (new_reread _ Hnew).
Qed.

Lemma goes_finish_completion ph p d :
  calm ph d -> ready ph -> ph = Journaled p \/ (exists l, ph = Logged p l) ->
  goes (fun _ d' => gone d') (finish_completion p) d.
Proof.
  intros Hcalm Hready Hph. pose proof (proj1 Hcalm) as Hs.
  assert (Hours : ours p) by (destruct Hs as (_ & Hok & _); destruct Hph as [->|[l ->]]; [done|apply Hok]).
  assert (Hputs : puts (save_snapshot p)) by (destruct Hph as [->|[l ->]]; apply Hready).
  destruct Hours as (Hp & Hg & _). unfold finish_completion. rewrite Hp, Hg.
  assert (Hrec : goes (fun _ d' => exists l, calm (Logged p l) d') (record key (pend_entry p)) d).
  { destruct Hph as [->|[l ->]]; [by apply goes_record_first; [|apply Hready]|].
    eapply goes_mono; [|by apply goes_record_again]. intros ? d' Hc. by exists l. }
  apply goes_step. eapply (goes_mono (fun _ d' => d' = d)).
  2: { destruct (save_snapshot p) as [s|]; [|by apply goes_ok]. apply goes_do. cbn [effect usual fst snd]. simpl in Hputs.
       cbn [usual_answer host_services]. rewrite Hputs. by apply goes_ok. }
  intros [] d' ->. apply goes_step, goes_bind. destruct Hrec as (d1 & [] & -> & l & Hc1). cbn [fst snd play map_err].
  apply goes_ok, goes_step. eapply goes_mono; [|by eapply goes_clear_active]. intros [] d2 Hs2.
  assert (gone d2) by by exists l.
  destruct (save_snapshot p); [|by apply goes_ok]. apply goes_do. cbn [effect usual fst snd]. by apply goes_ok.
Qed.

Lemma goes_complete ph d :
  host_ready -> calm ph d -> ready ph -> goes (fun _ d' => gone d') (complete_active_snapshot boot_identity true) d.
Proof.
  intros Hhost Hcalm Hready. unfold complete_active_snapshot. apply goes_step.
  eapply goes_mono; [|by apply goes_read_active]. intros a d' [-> ->].
  destruct (phase_active ph) as [a|] eqn:Ha.
  2: { apply goes_ok. destruct ph as [| | |l]; try done. exists l. apply Hcalm. }
  apply goes_do. cbn [effect usual fst snd]. apply goes_step, goes_do. cbn [effect usual fst snd usual_answer host_services].
  rewrite (ready_seats Hhost). apply goes_ok.
  assert (Hclean : goes (fun b d' => b = a /\ d' = d) (step! _ <- cleanup_completed (launch_id a) ;; Ret (Ok a)) d).
  { apply goes_step, goes_do. cbn [effect usual fst snd usual_answer host_services]. rewrite (ready_cleanup Hhost).
    by apply goes_ok, goes_ok. }
  apply goes_step. eapply (goes_mono (fun b d' => b = a /\ d' = d)).
  2: { destruct a as [r|p]; [|exact Hclean]. cbn [finish_after_hooks]. destruct (after_hooks r) as [h|] eqn:Hh; [|exact Hclean].
       destruct ph as [r0| | |]; simplify_eq/=. destruct Hready as (Hover & _). unfold hooks_over in Hover. rewrite Hh in Hover.
       destruct Hover as (boot & -> & Hover). unfold running_with in Hclean.
       assert (Hr : running_with r h = Running r) by (unfold running_with; destruct r; simpl in *; by subst).
       destruct (reverse (steps h)) as [|step rest] eqn:Hsteps; cbn [finish_steps]; [by rewrite Hr|].
       rewrite bool_decide_eq_false_2; [by rewrite Hr|]. destruct Hover as [|Hnil]; [done|by rewrite Hnil in Hsteps]. }
  intros b d' [-> ->]. apply goes_bind.
  assert (Hcred : run (remove_netplay_credential a) d = (d, ())).
  { unfold remove_netplay_credential. destruct a as [r|p]; [|done]. destruct (netplay_config r); [|done]. rewrite run_do.
    cbn [effect usual fst snd]. done. }
  rewrite Hcred. cbn [fst snd]. destruct ph as [r|p|p l|l]; simplify_eq/=.
  - destruct (proj1 (proj2 (proj1 Hcalm))) as [Hp _]. rewrite Hp. apply goes_step.
    eapply goes_mono; [|by apply goes_journal]. intros p d' [Hc Hr]. by apply (goes_finish_completion (Journaled p)); [| |left].
  - by apply (goes_finish_completion (Journaled p)); [| |left].
  - by apply (goes_finish_completion (Logged p l)); [| |right; exists l].
Qed.

Lemma goes_recover ph intent d :
  host_ready -> settled ph d -> tidy d -> ready ph ->
  exists d', run (recover boot_identity intent) d = (d', (NoActive, intent)) /\ gone d'.
Proof.
  intros Hhost Hs Ht Hready. unfold recover. rewrite run_do. cbn [effect usual fst snd usual_answer host_services].
  rewrite (ready_live Hhost), run_bind. destruct (goes_read_recoverable ph d Hs Ht) as (d1 & a & -> & Hcalm & ->). cbn [fst snd].
  destruct (goes_complete ph d1 Hhost Hcalm Hready) as (d2 & u & Hrun & Hgone).
  assert (Hblock : run (complete_or_block boot_identity) d1 = (d2, NoActive)).
  { unfold complete_or_block, succeeds. rewrite !run_bind, Hrun. done. }
  rewrite !bool_decide_eq_true_2 by done.
  destruct ph as [r|p|p l|l]; cbn [phase_active].
  - rewrite bool_decide_eq_false_2 by done. exists d2. split; [|done]. rewrite run_bind. unfold recover_gone. rewrite run_do.
    cbn [effect usual fst snd usual_answer host_services]. rewrite (ready_unit Hhost). by rewrite Hblock.
  - exists d2. split; [|done]. by rewrite run_bind, Hblock.
  - exists d2. split; [|done]. by rewrite run_bind, Hblock.
  - exists d1. split; [done|]. exists l. apply Hcalm.
Qed.

(** C10: Once the unit is over, a start of the daemon that nothing disturbs finishes
    the completion, whatever phase earlier attempts, stops and power losses left
    it in, and whatever files of cut-short writes they left beside the record: it
    reports no active session, the record is gone, and the log lists the play. *)
Theorem recovery_finishes ph intent d :
  host_ready -> settled ph d -> tidy d -> ready ph ->
  exists d' e l, run (recover boot_identity intent) d = (d', (NoActive, intent)) /\
    seen d' !! active_path = None /\ new_play e /\ with_play e l /\ log_is key (seen d' !! path_for key) l.
Proof.
  intros Hh Hs Ht Hr. destruct (goes_recover ph intent d Hh Hs Ht Hr) as (d' & Hrun & l & _ & (e & He & Hw) & [Ha Hl] & _).
  exists d', e, l. split; [done|]. split; [|done]. unfold active_is in Ha. cbn [phase_active] in Ha.
  by destruct (seen d' !! active_path) as [[|m c []| |]|].
Qed.
End completion.
