(* ===== verification/CompletionSim.v ===== *)
(** * Simulations of the completion of a session

    Codecs for the documents of [PlayLog] and [Sessions] that obey their laws, a
    host, and a disk with one session to complete: on them the theorems of
    [PlayLog] and [Completion] are applied, and two runs are followed that end
    badly. *)

From stdpp Require Import countable.
From Stdlib Require Import SpecFloat.
From S2P Require Import Prelude Text Decimal Hold Floats Programs Files PlayLog Saves Sessions Completion.

(** ** Codecs *)

#[export] Instance spec_float_countable : Countable spec_float.
Proof.
  refine (inj_countable'
    (fun x => match x with
              | S754_zero s => inl (inl s)
              | S754_infinity s => inl (inr s)
              | S754_nan => inr None
              | S754_finite s m e => inr (Some (s, (m, e)))
              end)
    (fun x => match x with
              | inl (inl s) => S754_zero s
              | inl (inr s) => S754_infinity s
              | inr None => S754_nan
              | inr (Some (s, (m, e))) => S754_finite s m e
              end) _).
  by intros [].
Defined.

#[export] Instance PlayEntry_countable : Countable PlayEntry.
Proof.
  refine (inj_countable' (fun e => (occurred_at e, (duration_seconds e, release_id e)))
    (fun '(a, (b, c)) => MkEntry a b c) _).
  by intros [].
Defined.

#[export] Instance PlayLog_eq_dec : EqDecision PlayLog.
Proof. solve_decision. Defined.

#[export] Instance PlayLog_countable : Countable PlayLog.
Proof.
  refine (inj_countable' (fun l => ((log_user l, log_game l), entries l)) (fun '((a, b), c) => MkPlayLog a b c) _).
  by intros [].
Defined.

#[export] Instance SaveKind_countable : Countable SaveKind.
Proof.
  refine (inj_countable' (fun k => match k with Save => Some true | Savestate => Some false | Screenshot => None end)
    (fun k => match k with Some true => Save | Some false => Savestate | None => Screenshot end) _).
  by intros [].
Defined.

#[export] Instance SaveLocation_countable : Countable SaveLocation.
Proof.
  refine (inj_countable' (fun l => (location_key l, (location_kind l, location_path l)))
    (fun '(a, (b, c)) => MkSaveLocation a b c) _).
  by intros [].
Defined.

#[export] Instance SaveFile_countable : Countable SaveFile.
Proof.
  refine (inj_countable' (fun f => (file_path f, (sha256 f, file_bytes f))) (fun '(a, (b, c)) => MkSaveFile a b c) _).
  by intros [].
Defined.

#[export] Instance SnapshotLocation_countable : Countable SnapshotLocation.
Proof.
  refine (inj_countable' (fun l => (snap_key l, (snap_kind l, files l))) (fun '(a, (b, c)) => MkSnapshotLocation a b c) _).
  by intros [].
Defined.

#[export] Instance SnapshotRecord_countable : Countable SnapshotRecord.
Proof.
  refine (inj_countable'
    (fun r => (((parents r, snap_game r), (snap_release r, runner_id r)),
               ((device r, ended_at r), (snap_duration r, (interrupted r, snap_locations r)))))
    (fun '(((a, b), (c, d)), ((e, f), (g, (h, i)))) => MkSnapshotRecord a b c d e f g h i) _).
  by intros [].
Defined.

#[export] Instance SessionResult_countable : Countable SessionResult.
Proof.
  refine (inj_countable' (fun k => match k with Exited => Some true | FailedResult => Some false | Stopped => None end)
    (fun k => match k with Some true => Exited | Some false => FailedResult | None => Stopped end) _).
  by intros [].
Defined.

#[export] Instance HookAfterStep_countable : Countable HookAfterStep.
Proof.
  refine (inj_countable' (fun s => (step_run s, (step_name s, step_timeout s))) (fun '(a, (b, c)) => MkStep a b c) _).
  by intros [].
Defined.

#[export] Instance LaunchSandbox_countable : Countable LaunchSandbox.
Proof.
  refine (inj_countable' (fun s => ((netplay_config_source s, modifiers s), (plugin s, pulse_audio s)))
    (fun '((a, b), (c, d)) => MkSandbox a b c d) _).
  by intros [].
Defined.

#[export] Instance AfterHooks_countable : Countable AfterHooks.
Proof.
  refine (inj_countable'
    (fun h => (((boot_id h, hook_command h), (sandbox h, environment h)),
               ((steps h, next_step h), (hook_result h, exit_status h))))
    (fun '(((a, b), (c, d)), ((e, f), (g, i))) => MkHooks a b c d e f g i) _).
  by intros [].
Defined.

#[export] Instance StreamPlayer_countable : Countable StreamPlayer.
Proof.
  refine (inj_countable' (fun p => (device_public_key p, label p)) (fun '(a, b) => MkPlayer a b) _).
  by intros [].
Defined.

#[export] Instance RunningSession_countable : Countable RunningSession.
Proof.
  refine (inj_countable'
    (fun r => ((((netplay_config r, stream_players r), (starter_device_public_key r, run_launch r)),
                ((run_game r, run_person r), (run_started r, save_base r))),
               ((run_release r, run_runner r), (save_locations r, after_hooks r))))
    (fun '((((a, b), (c, d)), ((e, f), (g, h))), ((i, j), (k, l))) => MkRunning a b c d e f g h i j k l) _).
  by intros [].
Defined.

#[export] Instance PendingSession_countable : Countable PendingSession.
Proof.
  refine (inj_countable'
    (fun p => (((pend_launch p, pend_game p), (pend_person p, pend_started p)), (pend_entry p, save_snapshot p)))
    (fun '(((a, b), (c, d)), (e, f)) => MkPendingSession a b c d e f) _).
  by intros [].
Defined.

#[export] Instance ActiveSession_countable : Countable ActiveSession.
Proof.
  refine (inj_countable' (fun a => match a with Running r => inl r | CompletionPending p => inr p end)
    (fun a => match a with inl r => Running r | inr p => CompletionPending p end) _).
  by intros [].
Defined.

(** Time stamps are the milliseconds, up to the last instant of chrono. *)
Definition sim_to_rfc3339 (ms : Z) : option string :=
  if (0 <=? ms) && (ms <=? 8210266876799999) then Some (decimal ms) else None.

(** A whole number is written as an integer; the others come back as they were. *)
Definition sim_number (x : f64) : f64 :=
  match serialize_legacy_number x with Integer z => f64_of_Z z | Float x => x end.

Definition sim_entry (e : PlayEntry) : PlayEntry := MkEntry (occurred_at e) (sim_number (duration_seconds e)) (release_id e).

Definition sim_read_log (s : string) : result string PlayLog :=
  match decoded s with
  | Ok l => Ok (MkPlayLog (log_user l) (log_game l) (sim_entry <$> entries l))
  | Err e => Err e
  end.

#[export] Instance sim_play_codec : PlayCodec := {|
  to_vec_pretty := code;
  log_from_slice := sim_read_log;
  json_float := fun x => x;
  rfc3339_instant := from_decimal u64_max;
  to_rfc3339_millis := sim_to_rfc3339;
|}.

#[export] Instance sim_play_laws : PlayCodecLaws sim_play_codec.
Proof.
  split; cbn [to_vec_pretty log_from_slice json_float rfc3339_instant to_rfc3339_millis sim_play_codec].
  - intros l s Hs. unfold sim_read_log. by rewrite (decoded_code_line l s Hs).
  - done.
  - intros ms s v. unfold sim_to_rfc3339. destruct (Z.leb_spec 0 ms); [|done].
    destruct (Z.leb_spec ms 8210266876799999); [|done]. cbn [andb]. intros [= <-] Hv.
    assert (Hd : from_decimal u64_max (decimal ms) = Some ms) by (apply from_to_decimal; unfold u64_max; lia).
    rewrite Hd in Hv. congruence.
  - unfold sim_to_rfc3339. intros ms s. destruct (0 <=? ms), (Z.leb_spec ms 8210266876799999); cbn [andb]; try done.
  - intros ms Hms. unfold sim_to_rfc3339. rewrite !(proj2 (Z.leb_le _ _)) by lia. cbn. eexists. split; [done|].
    apply from_to_decimal; unfold u64_max; lia.
Qed.

Definition sim_read_active (s : string) : result string ActiveSession :=
  match decoded s with Ok a => Ok (reread_active a) | Err e => Err e end.

#[export] Instance sim_session_codec : SessionCodec := {|
  active_to_vec := code;
  active_from_slice := sim_read_active;
  canonical_time := Some;
|}.

#[export] Instance sim_session_laws : SessionCodecLaws sim_session_codec.
Proof. split. cbn. intros a s Hs. unfold sim_read_active. by rewrite (decoded_code_line a s Hs). Qed.

(** ** A host whose units are all over *)

Definition sim_answer (c : HostCall) : HostAnswer c :=
  match c with
  | EndLimits _ | RemoveCredential _ | NotifySnapshot _ => ()
  | EndSeats _ | PutRecord _ _ => Ok ()
  | ExitStatus _ => Ok (Some 0)
  | CleanupCompleted _ | RunHook _ _ _ _ _ _ _ | StopUnit _ => Ok ()
  | NowEpochSeconds => 1700000060%N
  | DevicePublicKey => Ok "device"
  | Capture _ _ template => Ok template
  | LiveLaunchIds => Ok []
  | UnitState _ => Ok UnitCompleted
  | CurrentFocus _ => Ok FocusLaunch
  end.

#[export] Instance sim_host : Host := {| host_answer := sim_answer; host_random := 7 |}.

(** ** A session to complete *)

Definition sim_person : string := "f9308a019258c31049344f85f89d5229b531c845836f99b08601f113bce036f9".
Definition sim_launch : string := "aaaaaaaaaaaaaaaaaaaaaaaaaaaaaaaa".
Definition sim_game : string := "wario".
Definition sim_boot : result string string := Ok "0123456789abcdef0123456789abcdef".

Definition sim_running : RunningSession :=
  MkRunning None [] None sim_launch sim_game (Some sim_person) 1700000000%N None None None None None.

Definition sim_text (a : ActiveSession) : string := bits (countable.encode a) +:+ newline.

Definition sim_tree : tree :=
  {[ [] := Directory 493; identity_root := Directory 448; active_path := Regular 384 (sim_text (Running sim_running)) true ]}.

Definition sim_disk : disk := MkDisk sim_tree sim_tree.

Notation sim_complete := (complete_active_snapshot sim_boot true).
Notation sim_run := (Programs.run (Reply:=Reply) (Choice:=Choice) effect usual).
Notation sim_until n := (Programs.run_until (Reply:=Reply) (Choice:=Choice) effect usual n).

Notation sim_key := (MkKey sim_person sim_game).

(** ** Losing all that was not synced *)

Definition synced_node (n : node) : bool := match n with Regular _ _ s => s | _ => true end.

Lemma loss_all d :
  map_Forall (fun _ n => synced_node n = true) (kept d) -> power_loss d (MkDisk (kept d) (kept d)).
Proof.
  intros Hall. split; [done|]. intros p. cbn [seen kept]. destruct (kept d !! p) as [n|] eqn:Hp; [|by right].
  exists n. split; [by right|]. specialize (Hall p n Hp). by destruct n as [|m c []| |].
Qed.

(** ** The session is there to be completed *)

Lemma sim_only_temporaries : only_temporaries sim_tree.
Proof.
  intros name n. unfold sim_tree, active_path. rewrite lookup_insert_ne by done. rewrite lookup_insert_ne by done.
  intros [Heq _]%lookup_singleton_Some. apply app_inj_tail in Heq as [_ <-]. by left.
Qed.

Lemma sim_shape power : shape sim_person sim_game power sim_disk.
Proof.
  assert (Hs : shape_of sim_person sim_game sim_tree).
  { split; try apply sim_only_temporaries; try (by left); try done. }
  by split.
Qed.

Lemma sim_on_tree : on_tree sim_person sim_game [] (Waiting sim_running) sim_tree.
Proof. split; [|done]. split; [done|]. split; [by vm_compute|]. split; by vm_compute. Qed.

(** Stopped by a power loss after the play was journaled, and after it was in the log. *)
Definition sim_stopped (n : nat) : disk := sim_until n sim_complete sim_disk.
Definition sim_lost (n : nat) : disk := MkDisk (kept (sim_stopped n)) (kept (sim_stopped n)).

Lemma play_recorded_once_witness :
  power_loss (sim_stopped 34) (sim_lost 34) /\ recorded_once sim_person sim_game [] (seen (sim_lost 34)).
Proof.
  assert (Hl : power_loss (sim_stopped 34) (sim_lost 34)).
  { apply loss_all. apply (bool_decide_unpack _). by vm_compute. }
  split; [exact Hl|].
  apply (play_recorded_once sim_boot sim_person sim_game [] true sim_running sim_disk (sim_lost 34)).
  - apply sim_shape.
  - reflexivity.
  - reflexivity.
  - apply sim_on_tree.
  - intros _. apply sim_on_tree.
  - apply rtc_once. exists (sim_stopped 34). split; [|exact Hl]. left. exists true. apply run_until_stops.
Defined.

(** *** An undisturbed start *)

(** A write of the record was cut short. *)
Definition sim_littered : disk :=
  MkDisk (<[identity_root ++ [".active.json-left"] := Regular 384 "half" false]> sim_tree) sim_tree.

Lemma sim_littered_settled : settled sim_person sim_game [] false (Waiting sim_running) sim_littered.
Proof.
  assert (Hne : forall k, k <> identity_root ++ [".active.json-left"] -> seen sim_littered !! k = sim_tree !! k).
  { intros k Hk. cbn [sim_littered seen]. by rewrite lookup_insert_ne by congruence. }
  split; [|split; [done|split; [|done]]].
  - split; [|done]. eapply shape_entries; [| |exact (proj1 (sim_shape false))].
    + intros name n Hn. destruct (decide (name = ".active.json-left")) as [->|Hname].
      * right. split; [done|]. cbn [sim_littered seen] in Hn. rewrite lookup_insert_eq in Hn. injection Hn as <-. by exists 384, "half", false.
      * apply (sim_only_temporaries name n). rewrite <- Hne; [exact Hn|]. intros [_ Heq]%app_inj_tail. by subst.
    + intros k Hk. apply Hne. by destruct Hk as [->|[->|[->| ->]]].
  - eapply on_tree_same; [| |exact sim_on_tree]; by rewrite Hne.
Qed.

Lemma sim_ready : ready sim_boot sim_person sim_game [] (Waiting sim_running).
Proof.
  split; [done|]. split; [by vm_compute|]. intros e He. exists None. split; [done|].
  assert (Hj : e = MkEntry "1700000060000" (f64_of_Z 60) None) by (vm_compute in He |- *; congruence). subst e.
  split; [|split; [|done]].
  - split; [by vm_compute|]. eexists. split; [reflexivity|]. by vm_compute.
  - split; [by intros|]. intros (s & Hs & Hlen). injection Hs as <-. by vm_compute in Hlen.
Qed.

Lemma recovery_finishes_witness :
  exists d' e l, sim_run (recover sim_boot None) sim_littered = (d', (NoActive, None)) /\
    seen d' !! active_path = None /\ new_play [] e /\ with_play sim_person sim_game [] e l /\
    log_is sim_key (seen d' !! path_for sim_key) l.
Proof.
  apply (recovery_finishes sim_boot sim_person sim_game [] false eq_refl (Waiting sim_running) None sim_littered).
  - by split.
  - apply sim_littered_settled.
  - by split; vm_compute.
  - apply sim_ready.
Defined.

(** ** The play log alone *)

Definition sim_play (ms : Z) : PlayEntry := MkEntry (decimal ms) (f64_of_Z 60) None.

Definition sim_log : PlayLog := log_of sim_key [sim_play 5; sim_play 9].

Lemma retention_spec_witness :
  match serialize_with_retention sim_log 1 with
  | Ok s => exists gone left, forgets sim_log (sim_play 9) [sim_play 5] gone left /\
      fits (with_entries (left ++ [sim_play 9]) sim_log) s
  | Err _ => exists left, left `sublist_of` [sim_play 5] /\
      (is_err (to_vec_pretty (with_entries (left ++ [sim_play 9]) sim_log)) = true \/
       left = [] /\ too_large (with_entries (left ++ [sim_play 9]) sim_log))
  end.
Proof. apply (retention_spec sim_log [sim_play 5] (sim_play 9)); reflexivity. Defined.

Lemma key_has_own_file_witness :
  (exists user file, path_for sim_key = [PLAY_LOG_DIRECTORY; user; file] /\
     proper_name PLAY_LOG_DIRECTORY /\ proper_name user /\ proper_name file /\
     forall name nonce, file <> temporary_name name nonce) /\
  forall key, validate_history_key key = Ok () -> path_for key = path_for sim_key -> key = sim_key.
Proof. apply (key_has_own_file sim_key). reflexivity. Defined.

(** *** Two stops that are not forgotten *)

(** Stopped while the document was written. *)
Lemma leftover_blocks_deletion_witness :
  let d := sim_stopped 32 in
  let '(d', r) := sim_run (delete_person_records sim_person) d in is_err r = true /\ d' = d.
Proof.
  intros d. pose proof (run_ends (effect:=effect) (usual:=usual) (delete_person_records sim_person) d) as He.
  destruct (sim_run (delete_person_records sim_person) d) as [d' r].
  apply (leftover_blocks_deletion d sim_person (file_name sim_game) 7); [vm_compute; discriminate..|exact He].
Defined.

(** The document was renamed, its directory not synced. *)
Definition sim_unsynced : disk := sim_stopped 33.

(** C40: A stop of the daemon and a later power loss can lose a play together. The
    daemon stops when the new document is renamed and its directory is not yet
    synced. The next start finds the play in the document: [record] has nothing
    to write, syncs nothing and succeeds, and the record of the session is
    removed, with a sync. A power loss may now undo the rename, and neither the
    record nor the play is left. *)
Theorem mixed_stops_lose_play :
  exists d1 d2 d3,
    stops effect sim_complete sim_disk d1 /\
    sim_run (recover sim_boot None) d1 = (d2, (NoActive, None)) /\
    power_loss d2 d3 /\
    seen d3 !! active_path = None /\ seen d3 !! path_for sim_key = None.
Proof.
  exists sim_unsynced, (sim_run (recover sim_boot None) sim_unsynced).1.
  set (d2 := (sim_run (recover sim_boot None) sim_unsynced).1). exists (MkDisk (kept d2) (kept d2)).
  split; [apply run_until_stops|]. split; [|split; [|by vm_compute]].
  - assert (Hr : (sim_run (recover sim_boot None) sim_unsynced).2 = (NoActive, None)) by by vm_compute.
    rewrite <- Hr. apply surjective_pairing.
  - apply loss_all. apply (bool_decide_unpack _). by vm_compute.
Qed.
