(* ===== verification/History.v ===== *)
(** * The history of saves
    (services/korrid/src/saves/record.rs, history.rs, and the decisions of store.rs)

    A snapshot is an immutable record named by the hash of its canonical JSON; its
    parents are named in it. Devices exchange records; a record that is nobody's
    parent is a head. Heads with the same progress are joined automatically, and
    every device makes the same join; other heads are a split, which a person
    decides. Screenshots are always kept from all sides. *)

From S2P Require Import Prelude Text Decimal Saves.

(** ** Errors *)

Inductive SaveError : Type :=
| SaveStorage (message : string)
| SaveInvalid (message : string)
| SaveMissing
| SaveSplit
| SaveInUse.

(** How an operation fails: with an error, or in a panic. *)
Inductive failure : Type := Error (e : SaveError) | Panic (message : string).

Notation outcome := (result failure).

Definition invalid {A} (message : string) : outcome A := Err (Error (SaveInvalid message)).

Definition no_panic {A} (r : outcome A) : Prop := match r with Err (Panic _) => False | _ => True end.

Definition demand (b : bool) (message : string) : outcome unit := if b then Ok () else invalid message.

Definition expect {A} (o : option A) (message : string) : outcome A :=
  match o with Some x => Ok x | None => Err (Panic message) end.

(** [map] into a result: the first error ends it. *)
Fixpoint try_map {A B} (f : A -> outcome B) (l : list A) : outcome (list B) :=
  match l with
  | [] => Ok []
  | x :: l => y ← f x; ys ← try_map f l; Ok (y :: ys)
  end.

Fixpoint try_each {A} (f : A -> outcome unit) (l : list A) : outcome unit :=
  match l with
  | [] => Ok ()
  | x :: l => _ ← f x; try_each f l
  end.

(** ** Orders *)

Definition kind_number (k : SaveKind) : Z := match k with Save => 0 | Savestate => 1 | Screenshot => 2 end.

Lemma kind_number_inj : Inj (=) (=) kind_number.
Proof. by intros [] []. Qed.

#[export] Instance kind_ord : TotalOrd SaveKind := ord_via kind_number kind_number_inj.

(** Sorted lists with the same elements and different keys are the same. *)
Lemma sorted_unique {A K} `{TotalOrd K} (f : A -> K) (l l' : list A) :
  StronglySorted (key_le f) l -> StronglySorted (key_le f) l' -> NoDup (f <$> l) -> l ≡ₚ l' -> l = l'.
Proof.
  revert l'. induction l as [|x l IH]; intros l' Hs Hs' Hnd Hp.
  { symmetry. by apply Permutation_nil. }
  destruct l' as [|y l']; [by apply Permutation_sym, Permutation_nil in Hp|].
  assert (x = y) as <-.
  { assert (Hx : x ∈ y :: l') by (rewrite <- Hp; by left). assert (Hy : y ∈ x :: l) by (rewrite Hp; by left).
    apply elem_of_cons in Hx as [|Hx]; [done|]. apply elem_of_cons in Hy as [|Hy]; [done|].
    apply StronglySorted_inv in Hs as [_ Hs], Hs' as [_ Hs'].
    assert (Heq : f x = f y).
    { apply (anti_symm ord_le); [by apply (proj1 (Forall_forall _ _) Hs)|by apply (proj1 (Forall_forall _ _) Hs')]. }
    cbn [fmap list_fmap] in Hnd. apply NoDup_cons in Hnd as [Hnd _]. destruct Hnd. rewrite Heq. apply list_elem_of_fmap. by exists y. }
  f_equal. apply IH; try (eapply StronglySorted_inv; eassumption); [by apply NoDup_cons in Hnd as [_ ?]|by apply Permutation_cons_inv in Hp].
Qed.

Lemma sort_on_unique {A K} `{TotalOrd K} (f : A -> K) (l l' : list A) :
  NoDup (f <$> l) -> l ≡ₚ l' -> sort_on f l = sort_on f l'.
Proof.
  intros Hnd Hp. apply (sorted_unique f); [apply sort_on_sorted|apply sort_on_sorted| |by rewrite !sort_on_perm].
  by rewrite sort_on_perm.
Qed.

(** A sorted list of keys depends on its elements alone. *)
Lemma sort_id_unique {K} `{TotalOrd K} (l l' : list K) : l ≡ₚ l' -> sort_on id l = sort_on id l'.
Proof.
  intros Hp. assert (Hperm : sort_on id l ≡ₚ sort_on id l') by by rewrite !sort_on_perm.
  revert Hperm. generalize (sort_on_sorted id l) (sort_on_sorted id l'). generalize (sort_on id l) (sort_on id l').
  clear. induction l as [|x l IH]; intros l' Hs Hs' Hp; [symmetry; by apply Permutation_nil|].
  destruct l' as [|y l']; [by apply Permutation_sym, Permutation_nil in Hp|].
  assert (x = y) as <-.
  { assert (Hx : x ∈ y :: l') by (rewrite <- Hp; by left). assert (Hy : y ∈ x :: l) by (rewrite Hp; by left).
    apply elem_of_cons in Hx as [|Hx]; [done|]. apply elem_of_cons in Hy as [|Hy]; [done|].
    apply StronglySorted_inv in Hs as [_ Hs], Hs' as [_ Hs'].
    apply (anti_symm ord_le); [by apply (proj1 (Forall_forall _ _) Hs)|by apply (proj1 (Forall_forall _ _) Hs')]. }
  f_equal. apply IH; try (eapply StronglySorted_inv; eassumption). by apply Permutation_cons_inv in Hp.
Qed.

(** ** Records and their names (record.rs) *)

(** Canonical JSON, SHA-256 and time stamps. *)
Class SaveCodec := {
  record_json : SnapshotRecord -> string;
  record_parse : string -> result string SnapshotRecord;
  sha256_hex : string -> string;
  utc_millis : string -> option string;
}.

Section history.
Context `{SVC : !SaveCodec}.

Definition hash (bytes : string) : string := "sha256:" +:+ sha256_hex bytes.

Fixpoint dedup_sorted (l : list string) : list string :=
  match l with
  | x :: (y :: _) as l => if bool_decide (x = y) then dedup_sorted l else x :: dedup_sorted l
  | _ => l
  end.

Definition sort_files (l : SnapshotLocation) : SnapshotLocation :=
  MkSnapshotLocation (snap_key l) (snap_kind l) (sort_on file_path (files l)).

Definition with_locations (l : list SnapshotLocation) (r : SnapshotRecord) : SnapshotRecord :=
  MkSnapshotRecord (parents r) (snap_game r) (snap_release r) (runner_id r) (device r) (ended_at r) (snap_duration r)
    (interrupted r) l.

Definition with_parents (p : list string) (r : SnapshotRecord) : SnapshotRecord :=
  MkSnapshotRecord p (snap_game r) (snap_release r) (runner_id r) (device r) (ended_at r) (snap_duration r)
    (interrupted r) (snap_locations r).

(** The form all devices hash. *)
Definition normalise (r : SnapshotRecord) : SnapshotRecord :=
  with_parents (dedup_sorted (sort_on id (parents r)))
    (with_locations (sort_files <$> sort_on snap_key (snap_locations r)) r).

(** [hash_hex] with its errors. *)
Definition hash_digits (value : string) : outcome string :=
  match strip_prefix "sha256:" value with
  | None => invalid "hash prefix"
  | Some hex => _ ← demand (lower_hex64 hex) "hash"; Ok hex
  end.

Definition check_hash (value : string) : outcome unit := _ ← hash_digits value; Ok ().

(** [seen]: the paths before. *)
Fixpoint check_files (seen : list string) (l : list SaveFile) : outcome unit :=
  match l with
  | [] => Ok ()
  | f :: l =>
      _ ← demand (relative_file (file_path f)) "file path must be relative without traversal";
      _ ← check_hash (sha256 f);
      _ ← demand (negb (bool_decide (file_path f ∈ seen))) "duplicate location file";
      check_files (file_path f :: seen) l
  end.

Fixpoint check_locations (seen : list string) (l : list SnapshotLocation) : outcome unit :=
  match l with
  | [] => Ok ()
  | x :: l =>
      _ ← demand (negb (str_is_empty (snap_key x)) && negb (bool_decide (snap_key x ∈ seen)))
            "location key must be nonempty and unique";
      _ ← check_files [] (sort_on file_path (files x));
      check_locations (snap_key x :: seen) l
  end.

Definition check_record (r : SnapshotRecord) : outcome unit :=
  _ ← demand (negb (str_is_empty (snap_game r)) && negb (str_is_empty (runner_id r))) "game or runner identity";
  _ ← demand (account_valid (device r)) "device owner public key is invalid";
  _ ← demand (is_some (utc_millis (ended_at r))) "snapshot end time";
  _ ← demand (bool_decide (utc_millis (ended_at r) = Some (ended_at r))) "end time must be canonical UTC milliseconds";
  _ ← try_each check_hash (parents r);
  check_locations [] (sort_on snap_key (snap_locations r)).

Definition canonical_record (r : SnapshotRecord) : outcome string :=
  _ ← check_record r; Ok (record_json (normalise r)).

Definition snapshot_id (r : SnapshotRecord) : outcome string := bytes ← canonical_record r; Ok (hash bytes).

(** ** Progress and screenshots (history.rs) *)

Definition is_screenshot (l : SnapshotLocation) : bool := bool_decide (snap_kind l = Screenshot).

Notation progress_file := (string * (SaveKind * (string * string)))%type.

Definition location_progress (l : SnapshotLocation) : list progress_file :=
  (fun f => (snap_key l, (snap_kind l, (file_path f, sha256 f)))) <$> files l.

Definition progress (r : SnapshotRecord) : list progress_file :=
  sort_on id (concat (location_progress <$> keep (fun l => negb (is_screenshot l)) (snap_locations r))).

(** A path as its directory and file name; [split_on] the slashes, what is empty
    or a dot at the end does not count. *)
Fixpoint drop_trailing (l : list string) : list string :=
  match l with
  | x :: l => if str_is_empty x || bool_decide (x = ".") then drop_trailing l else x :: l
  | [] => []
  end.

Definition split_path (p : string) : string * string :=
  match drop_trailing (reverse (split_on SLASH p)) with
  | name :: rest => (join "/" (reverse (drop_trailing rest)), name)
  | [] => (EmptyString, EmptyString)
  end.

Definition in_directory (parent name : string) : string :=
  if str_is_empty parent then name else parent +:+ "/" +:+ name.

Definition DOT : Z := 46.

(** The stem and the extension with its dot: the last dot divides, unless it is the first byte. *)
Definition split_name (name : string) : string * string :=
  match reverse (split_on DOT name) with
  | ext :: ((_ :: _) as rest) =>
      let stem := join "." (reverse rest) in
      if str_is_empty stem then (name, EmptyString) else (stem, "." +:+ ext)
  | _ => (name, EmptyString)
  end.

Definition collide (hex name : string) : string :=
  let '(stem, extension) := split_name name in stem +:+ "~" +:+ hex +:+ extension.

Definition collision_name (p h : string) : outcome string :=
  hex ← expect (strip_prefix "sha256:" h) "validated hash";
  let '(parent, name) := split_path p in
  Ok (in_directory parent (collide hex name)).

(** By key, path and hash. *)
Notation screenshots := (gmap string (gmap string (gmap string SaveFile))).

Definition add_screenshot (k : string) (s : screenshots) (f : SaveFile) : screenshots :=
  <[k := let paths := default ∅ (s !! k) in
         <[file_path f := <[sha256 f := f]> (default ∅ (paths !! file_path f))]> paths]> s.

Definition add_location (s : screenshots) (l : SnapshotLocation) : screenshots :=
  if is_screenshot l then foldl (add_screenshot (snap_key l)) s (files l) else s.

Definition add_record (s : screenshots) (r : SnapshotRecord) : screenshots := foldl add_location s (snap_locations r).

Definition screenshots_of (l : list SnapshotRecord) : screenshots := foldl add_record ∅ l.

Definition taken (files : gmap string SaveFile) (h name : string) : bool :=
  is_some_and (files !! name) (fun old => negb (bool_decide (sha256 old = h))).

(** One step more than there are files is enough. *)
Fixpoint free_name (fuel : nat) (files : gmap string SaveFile) (h name : string) : outcome string :=
  if taken files h name then
    match fuel with
    | O => Err (Panic "out of fuel")
    | S fuel => next ← collision_name name h; free_name fuel files h next
    end
  else Ok name.

Definition with_path (p : string) (f : SaveFile) : SaveFile := MkSaveFile p (sha256 f) (file_bytes f).

(** One content of a path: the first keeps the name. *)
Definition place (path : string) (files : gmap string SaveFile) (entry : nat * SaveFile) : outcome (gmap string SaveFile) :=
  let '(index, f) := entry in
  start ← match index with O => Ok path | S _ => collision_name path (sha256 f) end;
  name ← free_name (S (size files)) files (sha256 f) start;
  Ok (<[name := with_path name f]> files).

Fixpoint try_fold {A B} (f : B -> A -> outcome B) (b : B) (l : list A) : outcome B :=
  match l with
  | [] => Ok b
  | x :: l => b ← f b x; try_fold f b l
  end.

Definition place_path (files : gmap string SaveFile) (entry : string * gmap string SaveFile)
    : outcome (gmap string SaveFile) :=
  try_fold (place entry.1) files (imap pair (btree_values entry.2)).

Definition place_key (entry : string * gmap string (gmap string SaveFile)) : outcome SnapshotLocation :=
  files ← try_fold place_path ∅ (btree_entries entry.2);
  Ok (MkSnapshotLocation entry.1 Screenshot (btree_values files)).

Definition named (r : SnapshotRecord) : outcome (string * SnapshotRecord) := i ← snapshot_id r; Ok (i, r).

(** [None]: the progress differs. *)
Definition automatic_join (heads : list SnapshotRecord) : outcome (option SnapshotRecord) :=
  match heads with
  | [] => Ok None
  | first :: _ =>
      if existsb (fun r => negb (bool_decide (progress r = progress first))) heads then Ok None
      else
        ordered ← try_map named heads;
        let ordered := sort_on fst ordered in
        locations ← try_map place_key (btree_entries (screenshots_of heads));
        match ordered with
        | [] => Err (Panic "index out of bounds")
        | (_, base) :: _ =>
            Ok (Some (MkSnapshotRecord ordered.*1 (snap_game base) (snap_release base) (runner_id base) (device base)
              (ended_at base) (snap_duration base) false
              (keep (fun l => negb (is_screenshot l)) (snap_locations base) ++ locations)))
        end
  end.

(** The progress of [r] with the screenshots of all. *)
Definition with_screenshot_union (r : SnapshotRecord) (others : list SnapshotRecord) : outcome SnapshotRecord :=
  let own := keep (fun l => negb (is_screenshot l)) (snap_locations r) in
  let sources := (fun s => with_locations (keep is_screenshot (snap_locations s) ++ own) s) <$> (others ++ [r]) in
  joined ← automatic_join sources;
  joined ← expect joined "progress was made identical";
  Ok (with_locations (snap_locations joined) r).

(** ** Names for colliding screenshots *)

Definition TILDE : Z := 126.

(** How often a byte occurs. *)
Definition occurs (b : Z) (l : text) : nat := length (keep (is_byte b) l).

Lemma keep_app {A} (f : A -> bool) l l' : keep f (l ++ l') = keep f l ++ keep f l'.
Proof. induction l as [|x l IH]; simpl; [done|]. rewrite IH. by destruct (f x). Qed.

Lemma occurs_app b l l' : occurs b (l ++ l') = (occurs b l + occurs b l')%nat.
Proof. unfold occurs. by rewrite keep_app, length_app. Qed.

Lemma occurs_reverse b l : occurs b (reverse l) = occurs b l.
Proof.
  induction l as [|x l IH]; [done|]. rewrite reverse_cons, occurs_app, IH. change (x :: l) with ([x] ++ l).
  rewrite occurs_app. lia.
Qed.

Definition occurs_all (b : Z) (l : list string) : nat := sum_list_with (fun s => occurs b (to_text s)) l.

Lemma occurs_all_cons b x l : occurs_all b (x :: l) = (occurs b (to_text x) + occurs_all b l)%nat.
Proof. done. Qed.

Lemma occurs_all_nil b : occurs_all b [] = 0%nat.
Proof. done. Qed.

Lemma occurs_split b sep s : b <> sep -> occurs_all b (split_on sep s) = occurs b (to_text s).
Proof.
  intros Hne. unfold split_on.
  assert (Hgen : forall piece l, occurs_all b (of_text <$> pieces_of sep piece l) = (occurs b piece + occurs b l)%nat).
  { intros piece l. revert piece. induction l as [|a l IH]; intros piece; cbn [pieces_of].
    - cbn [fmap list_fmap]. rewrite occurs_all_cons, occurs_all_nil, to_of_text, occurs_reverse. change (occurs b []) with 0%nat. lia.
    - change (a :: l) with ([a] ++ l). rewrite occurs_app. destruct (is_byte sep a) eqn:Ha.
      + cbn [fmap list_fmap]. rewrite occurs_all_cons, to_of_text, occurs_reverse, IH.
        assert (Hb : is_byte b a = false).
        { unfold is_byte in *. apply Z.eqb_eq in Ha. apply Z.eqb_neq. congruence. }
        assert (occurs b [a] = 0%nat) as -> by (unfold occurs; simpl; by rewrite Hb). change (occurs b []) with 0%nat. lia.
      + rewrite IH. change (a :: piece) with ([a] ++ piece). rewrite occurs_app. lia. }
  by rewrite Hgen.
Qed.

Lemma occurs_join b sep l :
  occurs b (to_text sep) = 0%nat -> occurs b (to_text (join sep l)) = occurs_all b l.
Proof.
  intros Hsep. induction l as [|x [|y l] IH]; [done|rewrite occurs_all_cons, occurs_all_nil; simpl join; lia|]. change (join sep (x :: y :: l)) with (x +:+ sep +:+ join sep (y :: l)).
  rewrite !to_text_app, !occurs_app, Hsep, IH. by rewrite occurs_all_cons.
Qed.

Lemma occurs_all_app b l l' : occurs_all b (l ++ l') = (occurs_all b l + occurs_all b l')%nat.
Proof. induction l as [|x l IH]; [done|]. cbn [app]. rewrite !occurs_all_cons, IH. lia. Qed.

Lemma occurs_all_reverse b l : occurs_all b (reverse l) = occurs_all b l.
Proof. induction l as [|x l IH]; [done|]. rewrite reverse_cons, occurs_all_app, IH, !occurs_all_cons, occurs_all_nil. lia. Qed.

Lemma occurs_drop l : occurs_all TILDE (drop_trailing l) = occurs_all TILDE l.
Proof.
  induction l as [|x l IH]; [done|]. cbn [drop_trailing]. destruct (str_is_empty x) eqn:He; simpl.
  - rewrite IH. by destruct x.
  - case_bool_decide; [subst; by rewrite IH|done].
Qed.

Lemma occurs_collide hex name : (occurs TILDE (to_text name) < occurs TILDE (to_text (collide hex name)))%nat.
Proof.
  unfold collide. destruct (split_name name) as [stem extension] eqn:Hs.
  assert (Heq : (occurs TILDE (to_text stem) + occurs TILDE (to_text extension))%nat = occurs TILDE (to_text name)).
  { unfold split_name in Hs. pose proof (occurs_split TILDE DOT name ltac:(done)) as Hsum.
    rewrite <- occurs_all_reverse in Hsum.
    assert (Hnone : (name, EmptyString) = (stem, extension) ->
      (occurs TILDE (to_text stem) + occurs TILDE (to_text extension))%nat = occurs TILDE (to_text name)).
    { intros [= <- <-]. change (occurs TILDE (to_text EmptyString)) with 0%nat. lia. }
    destruct (reverse (split_on DOT name)) as [|ext [|r rest]]; [by apply Hnone|by apply Hnone|].
    destruct (str_is_empty (join "." (reverse (r :: rest)))); [by apply Hnone|]. injection Hs as <- <-.
    rewrite to_text_app, occurs_app, occurs_join, occurs_all_reverse by done. rewrite !occurs_all_cons in Hsum. rewrite !occurs_all_cons.
    change (occurs TILDE (to_text ".")) with 0%nat. lia. }
  rewrite !to_text_app, !occurs_app. change (occurs TILDE (to_text "~")) with 1%nat. lia.
Qed.

Lemma collision_name_longer p h p' :
  collision_name p h = Ok p' -> (occurs TILDE (to_text p) < occurs TILDE (to_text p'))%nat.
Proof.
  unfold collision_name, expect. destruct (strip_prefix "sha256:" h) as [hex|]; [|done]. cbn [mbind result_bind].
  destruct (split_path p) as [parent name] eqn:Hs. intros [= <-].
  assert (Heq : (occurs TILDE (to_text parent) + occurs TILDE (to_text name))%nat = occurs TILDE (to_text p)).
  { unfold split_path in Hs. pose proof (occurs_split TILDE SLASH p ltac:(done)) as Hsum.
    rewrite <- occurs_all_reverse, <- occurs_drop in Hsum. destruct (drop_trailing _) as [|n rest]; injection Hs as <- <-; [rewrite <- Hsum; done|].
    rewrite occurs_join, occurs_all_reverse, occurs_drop by done. rewrite occurs_all_cons in Hsum. lia. }
  pose proof (occurs_collide hex name) as Hlt. unfold in_directory. destruct (str_is_empty parent) eqn:He.
  - destruct parent; [|done]. change (occurs TILDE (to_text EmptyString)) with 0%nat in Heq. lia.
  - rewrite !to_text_app, !occurs_app. lia.
Qed.

(** The names tried are all taken. *)
Lemma free_name_taken fuel files h name :
  is_Some (strip_prefix "sha256:" h) -> free_name fuel files h name = Err (Panic "out of fuel") ->
  exists tried, length tried = S fuel /\ NoDup tried /\ (forall n, n ∈ tried -> is_Some (files !! n)) /\
    (forall n, n ∈ tried -> (occurs TILDE (to_text name) <= occurs TILDE (to_text n))%nat).
Proof.
  intros [hex Hh]. revert name.
  assert (Htaken : forall n, taken files h n = true -> is_Some (files !! n)).
  { intros n. unfold taken, is_some_and. destruct (files !! n); [by eexists|done]. }
  induction fuel as [|fuel IH]; intros name; cbn [free_name]; destruct (taken files h name) eqn:Ht; try done.
  - intros _. exists [name]. split; [done|]. split; [apply NoDup_singleton|].
    split; intros n ->%list_elem_of_singleton; [by apply Htaken|done].
  - destruct (collision_name name h) as [next|e] eqn:Hn; cbn [mbind result_bind].
    + intros (tried & Hlen & Hnd & Hin & Hle)%IH. apply collision_name_longer in Hn. exists (name :: tried).
      split; [simpl; lia|]. split; [|split].
      * apply NoDup_cons. split; [|done]. intros Hx%Hle. lia.
      * intros n [->|Hx]%elem_of_cons; [by apply Htaken|by apply Hin].
      * intros n [->|Hx]%elem_of_cons; [done|]. apply Hle in Hx. lia.
    + intros [= ->]. unfold collision_name in Hn. rewrite Hh in Hn. cbn [expect mbind result_bind] in Hn. by destruct (split_path name).
Qed.

Lemma free_name_total files h name :
  is_Some (strip_prefix "sha256:" h) ->
  exists n, free_name (S (size files)) files h name = Ok n /\ taken files h n = false.
Proof.
  intros Hh. assert (Hgen : forall fuel name, exists r, free_name fuel files h name = r /\
    match r with Ok n => taken files h n = false | Err e => e = Panic "out of fuel" end).
  { destruct Hh as [hex Hh]. induction fuel as [|fuel IH]; intros n; cbn [free_name]; destruct (taken files h n) eqn:Ht; try by eexists.
    assert (exists next, collision_name n h = Ok next) as [next ->]; [|apply IH].
    unfold collision_name. rewrite Hh. cbn [expect mbind result_bind]. destruct (split_path n). by eexists. }
  destruct (Hgen (S (size files)) name) as ([n|e] & Hr & Hq); [by exists n|]. subst e.
  apply free_name_taken in Hr as (tried & Hlen & Hnd & Hin & _); [|done]. exfalso.
  assert (Hsub : tried ⊆+ (map_to_list files).*1).
  { apply NoDup_submseteq; [done|]. intros n [f Hf]%Hin. apply list_elem_of_fmap. exists (n, f).
    split; [done|]. by apply elem_of_map_to_list. }
  apply submseteq_length in Hsub. rewrite length_fmap, length_map_to_list in Hsub. lia.
Qed.

(** ** Screenshots by key, path and hash *)

Definition at_place (s : screenshots) (k p h : string) : option SaveFile :=
  match s !! k with
  | Some paths => match paths !! p with Some hashes => hashes !! h | None => None end
  | None => None
  end.

Definition shots (l : list SnapshotRecord) : list (string * SaveFile) :=
  concat ((fun r => concat ((fun x => (fun f => (snap_key x, f)) <$> files x) <$> keep is_screenshot (snap_locations r))) <$> l).

Definition shot (k : string) (f : SaveFile) (r : SnapshotRecord) : Prop :=
  exists l, l ∈ snap_locations r /\ is_screenshot l = true /\ snap_key l = k /\ f ∈ files l.

Definition add_shot (s : screenshots) (x : string * SaveFile) : screenshots := add_screenshot x.1 s x.2.

Lemma elem_of_concat_map {A B} (f : A -> list B) (l : list A) y : y ∈ concat (f <$> l) <-> exists x, x ∈ l /\ y ∈ f x.
Proof.
  induction l as [|x l IH]; cbn [fmap list_fmap concat].
  - split; [by intros ?%elem_of_nil|by intros (x & ?%elem_of_nil & _)].
  - rewrite elem_of_app, IH. split.
    + intros [Hy|(z & Hz & Hy)]; [exists x; split; [by left|done]|exists z; split; [by right|done]].
    + intros (z & [->|Hz]%elem_of_cons & Hy); [by left|right; by exists z].
Qed.

Lemma elem_of_shots l k f : (k, f) ∈ shots l <-> exists r, r ∈ l /\ shot k f r.
Proof.
  unfold shots. rewrite elem_of_concat_map. split.
  - intros (r & Hr & (x & [Hx Hs]%elem_of_keep & (g & [= -> ->] & Hg)%list_elem_of_fmap)%elem_of_concat_map). exists r. split; [done|]. by exists x.
  - intros (r & Hr & x & Hx & Hs & <- & Hf). exists r. split; [done|]. apply elem_of_concat_map. exists x.
    split; [by apply elem_of_keep|]. apply list_elem_of_fmap. by exists f.
Qed.

Lemma screenshots_shots l : screenshots_of l = foldl add_shot ∅ (shots l).
Proof.
  unfold screenshots_of, shots. generalize (∅ : screenshots). induction l as [|r l IH]; intros s; [done|].
  cbn [foldl fmap list_fmap concat]. rewrite foldl_app, IH. f_equal. unfold add_record. generalize (snap_locations r). clear.
  intros ls. revert s. induction ls as [|x ls IH]; intros s; [done|]. cbn [foldl keep]. rewrite IH. unfold add_location.
  destruct (is_screenshot x); [|done]. cbn [fmap list_fmap concat]. rewrite foldl_app. f_equal.
  generalize (files x). intros fs. revert s. induction fs as [|f fs IH']; intros s; [done|]. cbn [foldl fmap list_fmap]. apply IH'.
Qed.

Lemma at_add_shot s k f k' p h :
  at_place (add_shot s (k, f)) k' p h =
    if decide (k' = k /\ p = file_path f /\ h = sha256 f) then Some f else at_place s k' p h.
Proof.
  unfold add_shot, add_screenshot, at_place. cbn [fst snd].
  destruct (decide (k' = k)) as [->|Hk].
  2: { rewrite lookup_insert_ne by done. rewrite decide_False by tauto. done. }
  rewrite lookup_insert_eq. destruct (decide (p = file_path f)) as [->|Hp].
  2: { rewrite lookup_insert_ne by done. rewrite decide_False by tauto. by destruct (s !! k). }
  rewrite lookup_insert_eq. destruct (decide (h = sha256 f)) as [->|Hh].
  - rewrite lookup_insert_eq, decide_True by done. done.
  - rewrite lookup_insert_ne by done. rewrite decide_False by tauto. destruct (s !! k) as [m|]; [|done]. cbn [default].
    unfold from_option, id. by destruct (m !! file_path f).
Qed.

Lemma at_fold_shot l s k p h f :
  at_place (foldl add_shot s l) k p h = Some f ->
  at_place s k p h = Some f \/ ((k, f) ∈ l /\ file_path f = p /\ sha256 f = h).
Proof.
  revert s. induction l as [|[k' g] l IH]; intros s; cbn [foldl]; [auto|]. intros [Hs|(Hin & Hp & Hh)]%IH.
  - rewrite at_add_shot in Hs. case_decide as Hd; [|by left]. injection Hs as <-. destruct Hd as (-> & -> & ->). right.
    split; [by left|done].
  - right. split; [by right|done].
Qed.

Lemma at_fold_keeps l s k p h : is_Some (at_place s k p h) -> is_Some (at_place (foldl add_shot s l) k p h).
Proof.
  revert s. induction l as [|[k' g] l IH]; intros s Hs; cbn [foldl]; [done|]. apply IH. rewrite at_add_shot. by case_decide.
Qed.

Lemma at_fold_has l s k f : (k, f) ∈ l -> is_Some (at_place (foldl add_shot s l) k (file_path f) (sha256 f)).
Proof.
  revert s. induction l as [|[k' g] l IH]; intros s; [by intros ?%elem_of_nil|]. cbn [foldl].
  intros [[= -> ->]|Hin]%elem_of_cons; [|by apply IH]. apply at_fold_keeps. rewrite at_add_shot. by rewrite decide_True.
Qed.

(** The order of the files does not matter when equal names have equal files. *)
Definition coherent (l : list (string * SaveFile)) : Prop :=
  forall k f g, (k, f) ∈ l -> (k, g) ∈ l -> file_path f = file_path g -> sha256 f = sha256 g -> f = g.

Lemma add_shot_comm s x y :
  (x.1 = y.1 -> file_path x.2 = file_path y.2 -> sha256 x.2 = sha256 y.2 -> x.2 = y.2) ->
  add_shot (add_shot s x) y = add_shot (add_shot s y) x.
Proof.
  destruct x as [k f], y as [k' g]. unfold add_shot, add_screenshot. cbn [fst snd]. intros Hco.
  destruct (decide (k = k')) as [<-|Hk].
  2: { rewrite insert_insert_ne by done. f_equal; [by rewrite lookup_insert_ne by done|]. by rewrite lookup_insert_ne by done. }
  specialize (Hco eq_refl). rewrite !lookup_insert_eq, !insert_insert_eq. cbn [default]. unfold from_option, id.
  f_equal. set (m := match s !! k with Some y => y | None => ∅ end).
  destruct (decide (file_path f = file_path g)) as [Hp|Hp].
  2: { rewrite insert_insert_ne by done. rewrite !lookup_insert_ne by done. done. }
  specialize (Hco Hp). rewrite <- Hp, !lookup_insert_eq, !insert_insert_eq. f_equal.
  destruct (decide (sha256 f = sha256 g)) as [Hh|Hh]; [by rewrite (Hco Hh)|]. by rewrite insert_insert_ne by done.
Qed.

Lemma fold_shot_perm l l' s : l ≡ₚ l' -> coherent l -> foldl add_shot s l = foldl add_shot s l'.
Proof.
  intros Hp. revert s. induction Hp as [|x l l' Hp IH|x y l|l1 l2 l3 Hp1 IH1 Hp2 IH2]; intros s Hco; [done| | |].
  - cbn [foldl]. apply IH. intros k f g Hf Hg. apply (Hco k); by right.
  - cbn [foldl]. f_equal. destruct x as [k f], y as [k' g]. apply add_shot_comm. cbn [fst snd]. intros -> Hpath Hh. apply (Hco k); auto.
    + by left.
    + right. by left.
  - rewrite IH1 by done. apply IH2. intros k f g Hf Hg. apply (Hco k); by rewrite Hp1.
Qed.

(** ** Placing them *)

Definition has_content (fs : gmap string SaveFile) (h : string) : Prop := exists n f, fs !! n = Some f /\ sha256 f = h.

Definition well_named (fs : gmap string SaveFile) : Prop := forall n f, fs !! n = Some f -> file_path f = n.

Definition hashed (h : string) : Prop := is_Some (strip_prefix "sha256:" h).

Lemma place_spec path fs i f :
  hashed (sha256 f) -> well_named fs ->
  exists fs', place path fs (i, f) = Ok fs' /\ well_named fs' /\
    forall h, has_content fs' h <-> has_content fs h \/ h = sha256 f.
Proof.
  intros Hh Hw. unfold place.
  assert (exists start, match i with O => Ok path | S _ => collision_name path (sha256 f) end = Ok start) as [start ->].
  { destruct i; [by eexists|]. destruct Hh as [hex Hh]. unfold collision_name. rewrite Hh. cbn [expect mbind result_bind].
    destruct (split_path path). by eexists. }
  cbn [mbind result_bind]. destruct (free_name_total fs (sha256 f) start Hh) as (n & -> & Hfree). cbn [mbind result_bind].
  eexists. split; [done|]. split.
  - intros m g Hm. destruct (decide (m = n)) as [->|Hne]; [rewrite lookup_insert_eq in Hm|rewrite lookup_insert_ne in Hm by done; by apply Hw].
    by injection Hm as <-.
  - intros h. split.
    + intros (m & g & Hm & Hg). destruct (decide (m = n)) as [->|Hne].
      * rewrite lookup_insert_eq in Hm. injection Hm as <-. by right.
      * rewrite lookup_insert_ne in Hm by done. left. by exists m, g.
    + intros [(m & g & Hm & Hg)| ->]; [|exists n, (with_path n f); by rewrite lookup_insert_eq].
      destruct (decide (m = n)) as [->|Hne]; [|exists m, g; by rewrite lookup_insert_ne by done].
      exists n, (with_path n f). rewrite lookup_insert_eq. split; [done|]. unfold taken in Hfree. rewrite Hm in Hfree.
      cbn [is_some_and] in Hfree. apply negb_false_iff, bool_decide_eq_true in Hfree. by subst.
Qed.

Lemma place_all_spec path l fs :
  (forall x, x ∈ l -> hashed (sha256 x.2)) -> well_named fs ->
  exists fs', try_fold (place path) fs l = Ok fs' /\ well_named fs' /\
    forall h, has_content fs' h <-> has_content fs h \/ exists x, x ∈ l /\ sha256 x.2 = h.
Proof.
  revert fs. induction l as [|[i f] l IH]; intros fs Hl Hw; cbn [try_fold].
  { exists fs. split; [done|]. split; [done|]. intros h. split; [by left|]. by intros [?|(x & ?%elem_of_nil & _)]. }
  destruct (place_spec path fs i f) as (fs1 & -> & Hw1 & Hc1); [apply (Hl (i, f)); by left|done|]. cbn [mbind result_bind].
  destruct (IH fs1) as (fs2 & -> & Hw2 & Hc2); [intros x Hx; apply Hl; by right|done|]. exists fs2. split; [done|]. split; [done|].
  intros h. rewrite Hc2, Hc1. split.
  - intros [[?| ->]|(x & Hx & Hs)]; [by left|right; exists (i, f); split; [by left|done]|right; exists x; split; [by right|done]].
  - intros [?|(x & [->|Hx]%elem_of_cons & Hs)]; [by left; left|left; right; by rewrite <- Hs|right; by exists x].
Qed.

Lemma try_map_ok {A B} (f : A -> outcome B) (R : A -> B -> Prop) l :
  (forall x, x ∈ l -> exists y, f x = Ok y /\ R x y) -> exists ys, try_map f l = Ok ys /\ Forall2 R l ys.
Proof.
  induction l as [|x l IH]; intros Hall; cbn [try_map]; [by exists []|].
  destruct (Hall x) as (y & -> & Hr); [by left|]. cbn [mbind result_bind].
  destruct IH as (ys & -> & Hys); [intros; apply Hall; by right|]. exists (y :: ys). split; [done|by constructor].
Qed.

Lemma try_map_cases {A B} (f : A -> outcome B) l :
  match try_map f l with
  | Ok ys => Forall2 (fun x y => f x = Ok y) l ys
  | Err e => exists x, x ∈ l /\ f x = Err e
  end.
Proof.
  induction l as [|x l IH]; cbn [try_map]; [constructor|]. destruct (f x) as [y|e] eqn:Hx; cbn [mbind result_bind].
  2: { exists x. split; [by left|done]. }
  destruct (try_map f l) as [ys|e]; cbn [mbind result_bind]; [by constructor|]. destruct IH as (z & Hz & He).
  exists z. split; [by right|done].
Qed.

Lemma elem_of_btree_values {K V} `{Countable K, TotalOrd K} (m : gmap K V) v : v ∈ btree_values m <-> exists k, m !! k = Some v.
Proof.
  unfold btree_values. rewrite list_elem_of_fmap. split.
  - intros ([k w] & -> & Hin%elem_of_btree_entries). by exists k.
  - intros (k & Hk). exists (k, v). split; [done|]. by apply elem_of_btree_entries.
Qed.

Definition all_hashed (hs : gmap string SaveFile) : Prop := forall h f, hs !! h = Some f -> hashed (sha256 f).

Definition in_paths (paths : gmap string (gmap string SaveFile)) (h : string) : Prop :=
  exists p hs k f, paths !! p = Some hs /\ hs !! k = Some f /\ sha256 f = h.

Lemma place_path_spec p hs fs :
  all_hashed hs -> well_named fs ->
  exists fs', place_path fs (p, hs) = Ok fs' /\ well_named fs' /\
    forall h, has_content fs' h <-> has_content fs h \/ exists k f, hs !! k = Some f /\ sha256 f = h.
Proof.
  intros Hh Hw. unfold place_path. cbn [fst snd].
  assert (Hin : forall x, x ∈ imap pair (btree_values hs) -> exists k, hs !! k = Some x.2).
  { intros x (i & f & -> & Hf)%elem_of_lookup_imap. apply elem_of_btree_values. by eapply list_elem_of_lookup_2. }
  destruct (place_all_spec p (imap pair (btree_values hs)) fs) as (fs' & -> & Hw' & Hc); [|done|].
  { intros x (k & Hk)%Hin. by eapply Hh. }
  exists fs'. split; [done|]. split; [done|]. intros h. rewrite Hc. split.
  - intros [?|(x & (k & Hk)%Hin & Hs)]; [by left|right; by exists k, x.2].
  - intros [?|(k & f & Hk & Hs)]; [by left|right].
    assert (Hv : f ∈ btree_values hs) by (apply elem_of_btree_values; by exists k).
    apply list_elem_of_lookup in Hv as [i Hi]. exists (i, f). split; [|done]. apply elem_of_lookup_imap. by exists i, f.
Qed.

Lemma place_paths_spec l fs :
  (forall p hs, (p, hs) ∈ l -> all_hashed hs) -> well_named fs ->
  exists fs', try_fold place_path fs l = Ok fs' /\ well_named fs' /\
    forall h, has_content fs' h <-> has_content fs h \/ exists p hs k f, (p, hs) ∈ l /\ hs !! k = Some f /\ sha256 f = h.
Proof.
  revert fs. induction l as [|[p hs] l IH]; intros fs Hl Hw; cbn [try_fold].
  { exists fs. split; [done|]. split; [done|]. intros h. split; [by left|]. by intros [?|(p & hs & k & f & ?%elem_of_nil & _)]. }
  destruct (place_path_spec p hs fs) as (fs1 & -> & Hw1 & Hc1); [apply (Hl p); by left|done|]. cbn [mbind result_bind].
  destruct (IH fs1) as (fs2 & -> & Hw2 & Hc2); [intros q hs' Hx; apply (Hl q); by right|done|]. exists fs2. split; [done|].
  split; [done|]. intros h. rewrite Hc2, Hc1. split.
  - intros [[?|(k & f & Hk & Hs)]|(q & hs' & k & f & Hx & Hk & Hs)]; [by left|right; exists p, hs, k, f; split; [by left|done]|].
    right. exists q, hs', k, f. split; [by right|done].
  - intros [?|(q & hs' & k & f & [[= -> ->]|Hx]%elem_of_cons & Hk & Hs)]; [by left; left|left; right; by exists k, f|].
    right. by exists q, hs', k, f.
Qed.

(** The screenshots of one key become one location, with each content once or more. *)
Definition united (x : string * gmap string (gmap string SaveFile)) (l : SnapshotLocation) : Prop :=
  snap_key l = x.1 /\ snap_kind l = Screenshot /\ NoDup (file_path <$> files l) /\
  forall h, (exists f, f ∈ files l /\ sha256 f = h) <-> in_paths x.2 h.

Lemma values_named fs : well_named fs -> file_path <$> btree_values fs = btree_keys fs.
Proof.
  intros Hw. unfold btree_values, btree_keys.
  assert (Hall : forall e, e ∈ btree_entries fs -> file_path e.2 = e.1).
  { intros [n f] Hin%elem_of_btree_entries. by apply Hw. }
  induction (btree_entries fs) as [|e l IH]; [done|]. cbn [fmap list_fmap]. rewrite Hall by by left. f_equal.
  apply IH. intros; apply Hall. by right.
Qed.

Lemma place_key_spec x :
  (forall p hs, x.2 !! p = Some hs -> all_hashed hs) -> exists l, place_key x = Ok l /\ united x l.
Proof.
  destruct x as [k paths]. cbn [snd]. intros Hall. unfold place_key. cbn [fst snd].
  destruct (place_paths_spec (btree_entries paths) ∅) as (fs & -> & Hw & Hc).
  { intros p hs Hin%elem_of_btree_entries. by eapply Hall. }
  { by intros n f ?%lookup_empty_Some. }
  cbn [mbind result_bind]. eexists. split; [done|]. split; [done|]. split; [done|]. cbn [files snd]. split.
  { rewrite values_named by done. apply btree_keys_NoDup. }
  intros h. transitivity (has_content fs h).
  - split; [intros (f & (n & Hn)%elem_of_btree_values & Hf); by exists n, f|].
    intros (n & f & Hn & Hf). exists f. split; [|done]. apply elem_of_btree_values. by exists n.
  - rewrite Hc. split.
    + intros [(n & f & ?%lookup_empty_Some & _)|(p & hs & i & f & Hin%elem_of_btree_entries & Hi & Hs)]; [done|by exists p, hs, i, f].
    + intros (p & hs & i & f & Hp & Hi & Hs). right. exists p, hs, i, f. split; [by apply elem_of_btree_entries|done].
Qed.

(** ** What a name of a record vouches for *)

Lemma check_files_hashed seen l f : check_files seen l = Ok () -> f ∈ l -> hashed (sha256 f).
Proof.
  revert seen. induction l as [|g l IH]; intros seen; [by intros _ ?%elem_of_nil|]. cbn [check_files].
  intros (u & _ & ([] & Hh & (v & _ & Hl)%bind_ok)%bind_ok)%bind_ok [->|Hin]%elem_of_cons; [|by eapply IH].
  unfold check_hash, hash_digits in Hh. unfold hashed. by destruct (strip_prefix _ _).
Qed.

Lemma check_locations_hashed seen l x f : check_locations seen l = Ok () -> x ∈ l -> f ∈ files x -> hashed (sha256 f).
Proof.
  revert seen. induction l as [|y l IH]; intros seen; [by intros _ ?%elem_of_nil|]. cbn [check_locations].
  intros (u & _ & ([] & Hf & Hl)%bind_ok)%bind_ok [->|Hin]%elem_of_cons Hx; [|by eapply IH].
  eapply check_files_hashed; [exact Hf|]. by rewrite sort_on_perm.
Qed.

Lemma snapshot_id_checked r i : snapshot_id r = Ok i -> check_record r = Ok ().
Proof.
  unfold snapshot_id, canonical_record. intros (bytes & ([] & Hc & ?)%bind_ok & ?)%bind_ok. exact Hc.
Qed.

Lemma record_hashed r i x f : snapshot_id r = Ok i -> x ∈ snap_locations r -> f ∈ files x -> hashed (sha256 f).
Proof.
  intros Hc%snapshot_id_checked Hx Hf. unfold check_record in Hc. do 5 apply bind_ok in Hc as (? & _ & Hc).
  eapply check_locations_hashed; [exact Hc| |exact Hf]. by rewrite sort_on_perm.
Qed.

(** The identity of a record fails with an error, never in a panic. *)
Lemma demand_no_panic b m e : demand b m = Err (Panic e) -> False.
Proof. by destruct b. Qed.

Lemma check_hash_no_panic h e : check_hash h = Err (Panic e) -> False.
Proof. unfold check_hash, hash_digits. destruct (strip_prefix _ _); [|done]. by destruct (lower_hex64 _). Qed.

Lemma bind_panic {A B} (x : outcome A) (f : A -> outcome B) m :
  x ≫= f = Err (Panic m) -> x = Err (Panic m) \/ exists a, x = Ok a /\ f a = Err (Panic m).
Proof. destruct x as [a|e]; cbn; intros Hx; [right; by exists a|left; congruence]. Qed.

Lemma check_files_no_panic seen l e : check_files seen l = Err (Panic e) -> False.
Proof.
  revert seen. induction l as [|f l IH]; intros seen; [done|]. cbn [check_files].
  intros [?%demand_no_panic|(? & _ & [?%check_hash_no_panic|(? & _ & [?%demand_no_panic|(? & _ & ?%IH)]%bind_panic)]%bind_panic)]%bind_panic; done.
Qed.

Lemma check_locations_no_panic seen l e : check_locations seen l = Err (Panic e) -> False.
Proof.
  revert seen. induction l as [|x l IH]; intros seen; [done|]. cbn [check_locations].
  intros [?%demand_no_panic|(? & _ & [?%check_files_no_panic|(? & _ & ?%IH)]%bind_panic)]%bind_panic; done.
Qed.

Lemma try_each_no_panic {A} (f : A -> outcome unit) l e :
  (forall x m, f x = Err (Panic m) -> False) -> try_each f l = Err (Panic e) -> False.
Proof.
  intros Hf. induction l as [|x l IH]; cbn [try_each]; [done|]. intros [?%Hf|(? & _ & ?%IH)]%bind_panic; done.
Qed.

Lemma snapshot_id_no_panic r e : snapshot_id r = Err (Panic e) -> False.
Proof.
  intros [[Hc|(? & _ & ?)]%bind_panic|(? & _ & ?)]%bind_panic; [|done|done].
  do 4 (apply bind_panic in Hc as [?%demand_no_panic|(? & _ & Hc)]; [done|]).
  apply bind_panic in Hc as [Hc|(? & _ & ?%check_locations_no_panic)]; [|done].
  eapply try_each_no_panic; [|exact Hc]. apply check_hash_no_panic.
Qed.

(** ** The automatic join *)

Lemma named_spec r x : named r = Ok x -> x.2 = r /\ snapshot_id r = Ok x.1.
Proof. unfold named. by intros (i & Hi & [= <-])%bind_ok. Qed.

Lemma named_all l ordered :
  Forall2 (fun r x => named r = Ok x) l ordered -> ordered.*2 = l /\ Forall2 (fun r i => snapshot_id r = Ok i) l ordered.*1.
Proof.
  induction 1 as [|r x l ordered [Hx Hi]%named_spec _ [IH1 IH2]]; [by split|]. cbn [fmap list_fmap]. split; [by rewrite Hx, IH1|].
  by constructor.
Qed.

(** A content under a key of a record's screenshots. *)
Definition has_shot (k h : string) (r : SnapshotRecord) : Prop := exists f, shot k f r /\ sha256 f = h.

Lemma in_paths_shots heads k paths h :
  screenshots_of heads !! k = Some paths ->
  in_paths paths h <-> exists r, r ∈ heads /\ has_shot k h r.
Proof.
  intros Hk. assert (Hat : forall p h', at_place (screenshots_of heads) k p h' = paths !! p ≫= (fun hs => hs !! h')).
  { intros p h'. unfold at_place. rewrite Hk. by destruct (paths !! p). }
  split.
  - intros (p & hs & i & f & Hp & Hi & Hf).
    assert (Hsome : at_place (screenshots_of heads) k p i = Some f) by (rewrite Hat, Hp; done).
    rewrite screenshots_shots in Hsome. apply at_fold_shot in Hsome as [Hsome|(Hin & _ & _)].
    { unfold at_place in Hsome. by rewrite lookup_empty in Hsome. }
    apply elem_of_shots in Hin as (r & Hr & Hs). exists r. split; [done|]. by exists f.
  - intros (r & Hr & f & Hs & Hf). assert (Hin : (k, f) ∈ shots heads) by (apply elem_of_shots; by exists r).
    apply (at_fold_has _ ∅) in Hin as [g Hg]. rewrite <- screenshots_shots, Hat in Hg.
    destruct (paths !! file_path f) as [hs|] eqn:Hp; [|done]. cbn in Hg.
    exists (file_path f), hs, (sha256 f), g. split; [done|]. split; [done|].
    assert (Hsome : at_place (screenshots_of heads) k (file_path f) (sha256 f) = Some g) by (rewrite Hat, Hp; done).
    rewrite screenshots_shots in Hsome. apply at_fold_shot in Hsome as [Hsome|(_ & _ & Hh)]; [|congruence].
    unfold at_place in Hsome. by rewrite lookup_empty in Hsome.
Qed.

Lemma screenshots_key heads k : (exists r f, r ∈ heads /\ shot k f r) -> is_Some (screenshots_of heads !! k).
Proof.
  intros (r & f & Hr & Hs). assert (Hin : (k, f) ∈ shots heads) by (apply elem_of_shots; by exists r).
  apply (at_fold_has _ ∅) in Hin as [g Hg]. rewrite <- screenshots_shots in Hg. unfold at_place in Hg.
  by destruct (screenshots_of heads !! k).
Qed.

Lemma places_spec heads :
  (forall r, r ∈ heads -> exists i, snapshot_id r = Ok i) ->
  exists ls, try_map place_key (btree_entries (screenshots_of heads)) = Ok ls /\
    Forall2 united (btree_entries (screenshots_of heads)) ls.
Proof.
  intros Hids. apply try_map_ok. intros [k paths] Hin%elem_of_btree_entries. apply place_key_spec. cbn [snd].
  intros p hs Hp h f Hh.
  assert (Hpaths : in_paths paths (sha256 f)) by (by exists p, hs, h, f).
  apply (in_paths_shots heads k paths (sha256 f) Hin) in Hpaths as (r & Hr & g & (x & Hx & _ & _ & Hf) & <-).
  destruct (Hids r Hr) as [i Hi]. by eapply record_hashed.
Qed.

Lemma keep_all_false {A} (f : A -> bool) l : (forall x, x ∈ l -> f x = false) -> keep f l = [].
Proof.
  induction l as [|x l IH]; intros Hall; [done|]. simpl. rewrite Hall by by left. apply IH. intros; apply Hall. by right.
Qed.

Lemma keep_idem {A} (f : A -> bool) l : keep f (keep f l) = keep f l.
Proof. induction l as [|x l IH]; simpl; [done|]. destruct (f x) eqn:Hx; simpl; rewrite ?Hx, ?IH; done. Qed.

Lemma keep_not {A} (f : A -> bool) l : keep f (keep (fun x => negb (f x)) l) = [].
Proof. apply keep_all_false. intros x [_ Hx]%elem_of_keep. by apply negb_true_iff. Qed.

Lemma united_screenshots l ls : Forall2 united l ls -> keep (fun x => negb (is_screenshot x)) ls = [] /\ keep is_screenshot ls = ls.
Proof.
  induction 1 as [|x y l ls (_ & Hk & _) _ [IH1 IH2]]; [by split|].
  assert (Hy : is_screenshot y = true) by (unfold is_screenshot; by rewrite Hk).
  cbn [keep]. rewrite Hy. cbn [negb]. by rewrite IH1, IH2.
Qed.

(** The parts of a join. *)
Record join_of (heads : list SnapshotRecord) (ordered : list (string * SnapshotRecord)) (base : SnapshotRecord)
    (ls : list SnapshotLocation) (j : SnapshotRecord) : Prop := {
  join_ids : Forall2 (fun r x => named r = Ok x) heads ordered;
  join_base : head (sort_on fst ordered).*2 = Some base;
  join_shots : Forall2 united (btree_entries (screenshots_of heads)) ls;
  join_same : forall r r', r ∈ heads -> r' ∈ heads -> progress r = progress r';
  join_value : j = MkSnapshotRecord (sort_on fst ordered).*1 (snap_game base) (snap_release base) (runner_id base)
    (device base) (ended_at base) (snap_duration base) false
    (keep (fun l => negb (is_screenshot l)) (snap_locations base) ++ ls);
}.

Lemma automatic_join_cases heads :
  match automatic_join heads with
  | Ok None => heads = [] \/ exists r r', r ∈ heads /\ r' ∈ heads /\ progress r <> progress r'
  | Ok (Some j) => exists ordered base ls, join_of heads ordered base ls j
  | Err e => exists r, r ∈ heads /\ snapshot_id r = Err e
  end.
Proof.
  destruct heads as [|first rest]; [by left|]. unfold automatic_join.
  assert (Hfirst : first ∈ first :: rest) by (by left). assert (Hsome : first :: rest <> []) by done.
  revert Hfirst Hsome. generalize (first :: rest). clear rest. intros heads Hfirst Hsome.
  destruct (existsb _ heads) eqn:He.
  { apply existsb_spec in He as (r & Hr & Hne%negb_true_iff%bool_decide_eq_false). right. exists r, first. done. }
  pose proof (try_map_cases named heads) as Hnamed. destruct (try_map named heads) as [ordered|e]; cbn [mbind result_bind].
  2: { destruct Hnamed as (r & Hr & Hn). exists r. split; [done|]. unfold named in Hn.
       destruct (snapshot_id r) as [i|x]; cbn in Hn; congruence. }
  destruct (named_all _ _ Hnamed) as [Hsnd Hids].
  destruct (places_spec heads) as (ls & -> & Hls).
  { intros r Hr. apply list_elem_of_lookup in Hr as [k Hk]. destruct (Forall2_lookup_l _ _ _ _ _ Hids Hk) as (i & _ & Hi). by exists i. }
  cbn [mbind result_bind]. destruct (sort_on fst ordered) as [|[i base] sorted] eqn:Hsort.
  { exfalso. pose proof (sort_on_perm fst ordered) as Hp. rewrite Hsort in Hp. apply Permutation_nil in Hp. subst ordered.
    by destruct heads. }
  exists ordered, base, ls. split; [done|by rewrite Hsort|done| |by rewrite Hsort].
  assert (Hall : forall r, r ∈ heads -> progress r = progress first).
  { intros r Hr. destruct (decide (progress r = progress first)) as [|Hne]; [done|]. exfalso. apply not_true_iff_false in He.
    apply He, existsb_spec. exists r. split; [done|]. by apply negb_true_iff, bool_decide_eq_false. }
  intros r r' Hr Hr'. by rewrite (Hall r Hr), (Hall r' Hr').
Qed.

Lemma join_of_base heads ordered base ls j : join_of heads ordered base ls j -> base ∈ heads.
Proof.
  intros [Hn Hb _ _ _]. destruct (named_all _ _ Hn) as [<- _].
  assert (Hin : base ∈ (sort_on fst ordered).*2) by (destruct (sort_on fst ordered).*2; [done|injection Hb as ->; by left]).
  by rewrite sort_on_perm in Hin.
Qed.

Lemma join_progress heads ordered base ls j r : join_of heads ordered base ls j -> r ∈ heads -> progress r = progress j.
Proof.
  intros Hj Hr. rewrite (join_same _ _ _ _ _ Hj r base Hr (join_of_base _ _ _ _ _ Hj)), (join_value _ _ _ _ _ Hj).
  unfold progress. cbn [snap_locations]. rewrite keep_app, keep_idem.
  destruct (united_screenshots _ _ (join_shots _ _ _ _ _ Hj)) as [-> _]. by rewrite app_nil_r.
Qed.

Lemma join_has_shot heads ordered base ls j k h :
  join_of heads ordered base ls j -> has_shot k h j <-> exists r, r ∈ heads /\ has_shot k h r.
Proof.
  intros Hj. pose proof (join_shots _ _ _ _ _ Hj) as Hls.
  assert (Hshot : has_shot k h j <-> exists l f, l ∈ ls /\ snap_key l = k /\ f ∈ files l /\ sha256 f = h).
  { rewrite (join_value _ _ _ _ _ Hj). unfold has_shot, shot. cbn [snap_locations]. split.
    - intros (f & (l & [[_ Hn]%elem_of_keep|Hl]%elem_of_app & Hs & Hk & Hf) & Hh); [by rewrite Hs in Hn|]. by exists l, f.
    - intros (l & f & Hl & Hk & Hf & Hh). exists f. split; [|done]. exists l. split; [apply elem_of_app; by right|]. split; [|done].
      destruct (united_screenshots _ _ Hls) as [_ Heq]. rewrite <- Heq in Hl. by apply elem_of_keep in Hl as [_ ?]. }
  rewrite Hshot. split.
  - intros (l & f & Hl & Hk & Hf & Hh). apply list_elem_of_lookup in Hl as [i Hi].
    destruct (Forall2_lookup_r _ _ _ _ _ Hls Hi) as ([k' paths] & Hx & (Hkey & _ & _ & Hc)). cbn [fst snd] in *.
    apply list_elem_of_lookup_2, elem_of_btree_entries in Hx. subst k'. rewrite <- Hk.
    apply (in_paths_shots heads _ paths h Hx). apply Hc. by exists f.
  - intros (r & Hr & f & Hs & Hh). destruct (screenshots_key heads k) as [paths Hp]; [by exists r, f|].
    pose proof (proj2 (elem_of_btree_entries _ _ _) Hp) as Hin. apply list_elem_of_lookup in Hin as [i Hi].
    destruct (Forall2_lookup_l _ _ _ _ _ Hls Hi) as (l & Hl & (Hkey & _ & _ & Hc)). cbn [fst snd] in *.
    destruct (proj2 (Hc h)) as (g & Hg & Hgh).
    { apply (in_paths_shots heads k paths h Hp). exists r. split; [done|]. by exists f. }
    exists l, g. split; [by eapply list_elem_of_lookup_2|]. done.
Qed.

(** The automatic join never panics and ends. It gives up only when the
    progress of two heads differs, and it fails only where a head is not valid.
    A join has the progress of every head, exactly the screenshot contents of all
    heads under their keys, the ids of all heads in order as its parents, and it
    is not interrupted. *)
Theorem join_keeps_everything heads :
  match automatic_join heads with
  | Ok (Some j) =>
      (forall r, r ∈ heads -> progress r = progress j) /\
      (forall k h, has_shot k h j <-> exists r, r ∈ heads /\ has_shot k h r) /\
      (exists ids, Forall2 (fun r i => snapshot_id r = Ok i) heads ids /\ parents j ≡ₚ ids) /\
      StronglySorted ord_le (parents j) /\ interrupted j = false
  | Ok None => heads = [] \/ exists r r', r ∈ heads /\ r' ∈ heads /\ progress r <> progress r'
  | Err (Error e) => exists r, r ∈ heads /\ snapshot_id r = Err (Error e)
  | Err (Panic _) => False
  end.
Proof.
  pose proof (automatic_join_cases heads) as Hc. destruct (automatic_join heads) as [[j|]|[e|m]]; [|done|done|].
  2: { destruct Hc as (r & _ & Hr). by eapply snapshot_id_no_panic. }
  destruct Hc as (ordered & base & ls & Hj). split; [intros r; by eapply join_progress|]. split; [intros k h; by eapply join_has_shot|].
  destruct (named_all _ _ (join_ids _ _ _ _ _ Hj)) as [_ Hids]. rewrite (join_value _ _ _ _ _ Hj). cbn [parents interrupted].
  split; [|split; [|done]].
  - exists ordered.*1. split; [done|]. by rewrite sort_on_perm.
  - pose proof (sort_on_sorted fst ordered) as Hs. induction Hs as [|x l _ IH Hx]; cbn [fmap list_fmap]; constructor; [done|].
    apply Forall_fmap. eapply Forall_impl; [exact Hx|]. done.
Qed.

(** ** Every device makes the same join *)

Lemma try_map_intro {A B} (f : A -> outcome B) l ys : Forall2 (fun x y => f x = Ok y) l ys -> try_map f l = Ok ys.
Proof. induction 1 as [|x y l ys Hx _ IH]; cbn [try_map]; [done|]. rewrite Hx. cbn [mbind result_bind]. by rewrite IH. Qed.

Lemma shots_perm l l' : l ≡ₚ l' -> shots l ≡ₚ shots l'.
Proof.
  unfold shots. induction 1 as [|x l l' _ IH|x y l|l1 l2 l3 _ IH1 _ IH2]; cbn [fmap list_fmap concat]; [done|by rewrite IH| |by rewrite IH1].
  rewrite !app_assoc. f_equiv. apply Permutation_app_comm.
Qed.

Definition differs (first r : SnapshotRecord) : bool := negb (bool_decide (progress r = progress first)).

Lemma differs_spec first l : existsb (differs first) l = false <-> forall r, r ∈ l -> progress r = progress first.
Proof.
  rewrite <- not_true_iff_false, existsb_spec. unfold differs. split.
  - intros Hno r Hr. destruct (decide (progress r = progress first)) as [|Hne]; [done|]. destruct Hno. exists r.
    by rewrite bool_decide_false.
  - intros Hall (r & Hr & Hd). by rewrite bool_decide_true in Hd by auto.
Qed.

(** A join of valid heads as a function of the heads. *)
Lemma automatic_join_value first rest ordered :
  Forall2 (fun r x => named r = Ok x) (first :: rest) ordered ->
  automatic_join (first :: rest) =
    if existsb (differs first) (first :: rest) then Ok None
    else
      locations ← try_map place_key (btree_entries (screenshots_of (first :: rest)));
      match sort_on fst ordered with
      | [] => Err (Panic "index out of bounds")
      | (_, base) :: _ =>
          Ok (Some (MkSnapshotRecord (sort_on fst ordered).*1 (snap_game base) (snap_release base) (runner_id base) (device base)
            (ended_at base) (snap_duration base) false
            (keep (fun l => negb (is_screenshot l)) (snap_locations base) ++ locations)))
      end.
Proof. intros Hn%try_map_intro. unfold automatic_join. fold (differs first). by rewrite Hn. Qed.

Lemma named_ids heads ids :
  Forall2 (fun r i => snapshot_id r = Ok i) heads ids -> exists ordered, Forall2 (fun r x => named r = Ok x) heads ordered /\ ordered.*1 = ids.
Proof.
  induction 1 as [|r i heads ids Hr _ (o & Ho & Hi)]; [by exists []|]. exists ((i, r) :: o). split; [|by rewrite <- Hi].
  constructor; [|done]. unfold named. by rewrite Hr.
Qed.

(** C23: Devices that know the same heads make the same join, whatever order they
    read them in: heads have different ids, and files of equal hashes equal sizes. *)
Theorem join_order_free heads heads' ids :
  heads ≡ₚ heads' -> Forall2 (fun r i => snapshot_id r = Ok i) heads ids -> NoDup ids -> coherent (shots heads) ->
  automatic_join heads = automatic_join heads'.
Proof.
  intros Hp (ordered & Ho & <-)%named_ids Hnd Hco.
  destruct (Permutation_Forall2 Hp Ho) as (ordered' & Hpo & Ho').
  destruct heads as [|x heads]; [by apply Permutation_nil in Hp as ->|].
  destruct heads' as [|x' heads']; [by apply Permutation_sym, Permutation_nil in Hp|].
  rewrite (automatic_join_value _ _ _ Ho), (automatic_join_value _ _ _ Ho').
  rewrite (sort_on_unique fst ordered ordered') by done.
  assert (screenshots_of (x :: heads) = screenshots_of (x' :: heads')) as ->.
  { rewrite !screenshots_shots. by apply fold_shot_perm; [apply shots_perm|]. }
  assert (Hx : x ∈ x' :: heads') by (rewrite <- Hp; by left).
  assert (Hx' : x' ∈ x :: heads) by (rewrite Hp; by left).
  assert (Hiff : existsb (differs x) (x :: heads) = false <-> existsb (differs x') (x' :: heads') = false).
  { rewrite !differs_spec. split; intros Hall r Hr.
    - rewrite (Hall r) by by rewrite Hp. by rewrite (Hall x').
    - rewrite (Hall r) by by rewrite <- Hp. by rewrite (Hall x). }
  destruct (existsb (differs x) _), (existsb (differs x') _); intuition congruence.
Qed.

(** ** The union of screenshots *)

Definition own_progress (r : SnapshotRecord) : list SnapshotLocation := keep (fun l => negb (is_screenshot l)) (snap_locations r).

(** The screenshots of [s] with the progress of [r]. *)
Definition mixed (r s : SnapshotRecord) : SnapshotRecord :=
  with_locations (keep is_screenshot (snap_locations s) ++ own_progress r) s.

Lemma keep_shots_own l : keep (fun x => negb (is_screenshot x)) (keep is_screenshot l) = [].
Proof. apply keep_all_false. intros x [_ Hx]%elem_of_keep. by rewrite Hx. Qed.

Lemma mixed_progress r s : progress (mixed r s) = progress r.
Proof. unfold progress, mixed, own_progress. cbn [snap_locations with_locations]. by rewrite keep_app, keep_shots_own, keep_idem. Qed.

Lemma mixed_shot r s k h : has_shot k h (mixed r s) <-> has_shot k h s.
Proof.
  unfold has_shot, shot, mixed, own_progress. cbn [snap_locations with_locations]. split.
  - intros (f & (l & [[Hl _]%elem_of_keep|[_ Hn]%elem_of_keep]%elem_of_app & Hs & Hk & Hf) & Hh); [|by rewrite Hs in Hn].
    exists f. split; [|done]. by exists l.
  - intros (f & (l & Hl & Hs & Hk & Hf) & Hh). exists f. split; [|done]. exists l. split; [|done].
    apply elem_of_app. left. by apply elem_of_keep.
Qed.

Lemma union_value r others :
  with_screenshot_union r others =
    joined ← automatic_join (mixed r <$> (others ++ [r]));
    joined ← expect joined "progress was made identical";
    Ok (with_locations (snap_locations joined) r).
Proof. done. Qed.

Lemma union_cases r others :
  match with_screenshot_union r others with
  | Ok u => progress u = progress r /\
      (forall k h, has_shot k h u <-> exists s, s ∈ r :: others /\ has_shot k h s) /\
      u = with_locations (snap_locations u) r
  | Err (Error e) => exists s, s ∈ r :: others /\ snapshot_id (mixed r s) = Err (Error e)
  | Err (Panic _) => False
  end.
Proof.
  rewrite union_value. pose proof (automatic_join_cases (mixed r <$> (others ++ [r]))) as Hc.
  assert (Hin : forall x, x ∈ mixed r <$> (others ++ [r]) <-> exists s, s ∈ r :: others /\ x = mixed r s).
  { intros x. rewrite list_elem_of_fmap. split; intros (s & H1 & H2).
    - exists s. split; [|done]. rewrite elem_of_app, list_elem_of_singleton in H2. rewrite elem_of_cons. tauto.
    - exists s. split; [done|]. rewrite elem_of_app, list_elem_of_singleton. rewrite elem_of_cons in H1. tauto. }
  assert (Hr : mixed r r ∈ mixed r <$> (others ++ [r])) by (apply Hin; exists r; split; [by left|done]).
  destruct (automatic_join _) as [[j|]|[e|m]]; cbn [mbind result_bind expect].
  - destruct Hc as (ordered & base & ls & Hj). split; [|split; [|done]].
    + transitivity (progress j); [done|]. rewrite <- (join_progress _ _ _ _ _ _ Hj Hr). apply mixed_progress.
    + intros k h. transitivity (has_shot k h j); [done|]. rewrite (join_has_shot _ _ _ _ _ k h Hj). split.
      * intros (x & (s & Hs & ->)%Hin & Hx%mixed_shot). by exists s.
      * intros (s & Hs & Hx). exists (mixed r s). split; [apply Hin; by exists s|by apply mixed_shot].
  - destruct Hc as [Hnil|(x & y & (s & _ & ->)%Hin & (t & _ & ->)%Hin & Hne)]; [by rewrite Hnil in Hr; apply elem_of_nil in Hr|].
    by rewrite !mixed_progress in Hne.
  - destruct Hc as (x & (s & Hs & ->)%Hin & He). by exists s.
  - destruct Hc as (x & _ & Hx). by eapply snapshot_id_no_panic.
Qed.

(** The union never panics; it keeps the progress and everything else of the
    record, and has exactly the screenshots of the record and the others. It fails
    only where a record of the others' screenshots and this progress is not valid. *)
Theorem union_keeps_everything r others :
  match with_screenshot_union r others with
  | Ok u => progress u = progress r /\
      (forall k h, has_shot k h u <-> exists s, s ∈ r :: others /\ has_shot k h s) /\
      u = with_locations (snap_locations u) r
  | Err (Error e) => exists s, s ∈ r :: others /\ snapshot_id (mixed r s) = Err (Error e)
  | Err (Panic _) => False
  end.
Proof. apply union_cases. Qed.

(** ** Valid records *)

Lemma unit_ok (b : bool) m : demand b m = Ok () <-> b = true.
Proof. by destruct b. Qed.

Lemma bind_unit {A} (x : outcome unit) (f : outcome A) y : (_ ← x; f) = Ok y <-> x = Ok () /\ f = Ok y.
Proof. destruct x as [[]|e]; cbn; split; [done|by intros [_ ?]|done|by intros [? _]]. Qed.

Lemma check_hash_spec v : check_hash v = Ok () <-> is_some (hash_hex v) = true.
Proof. unfold check_hash, hash_digits, hash_hex. destruct (strip_prefix _ _) as [hex|]; [|done]. by destruct (lower_hex64 hex). Qed.

Lemma check_files_spec l seen :
  check_files seen l = Ok () <->
    (forall f, f ∈ l -> file_valid f = true /\ file_path f ∉ seen) /\ NoDup (file_path <$> l).
Proof.
  revert seen. induction l as [|f l IH]; intros seen; cbn [check_files].
  { split; [|done]. intros _. split; [by intros f ?%elem_of_nil|constructor]. }
  rewrite !bind_unit, !unit_ok, check_hash_spec, IH. cbn [fmap list_fmap]. rewrite NoDup_cons, negb_true_iff.
  rewrite bool_decide_eq_false.
  split.
  - intros (Hr & Hh & Hs & Hall & Hnd). split; [|split; [|done]].
    + intros g [->|Hg]%elem_of_cons; [by unfold file_valid; rewrite Hr, Hh|]. destruct (Hall g Hg) as [Hv Hn]. set_solver.
    + intros (g & Heq & Hg)%list_elem_of_fmap. destruct (Hall g Hg) as [_ Hn]. rewrite Heq in Hn. set_solver.
  - intros [Hall [Hni Hnd]]. destruct (Hall f) as [[Hr Hh]%andb_prop Hn]; [by left|]. do 3 (split; [done|]). split; [|done].
    intros g Hg. destruct (Hall g) as [Hv Hs]; [by right|]. split; [done|]. intros [Heq|]%elem_of_cons; [|done]. apply Hni.
    apply list_elem_of_fmap. by exists g.
Qed.

Lemma check_locations_spec l seen :
  check_locations seen l = Ok () <->
    (forall x, x ∈ l -> location_valid x = true /\ snap_key x ∉ seen) /\ NoDup (snap_key <$> l).
Proof.
  assert (Hfiles : forall x, check_files [] (sort_on file_path (files x)) = Ok () <->
    forallb file_valid (files x) = true /\ NoDup (file_path <$> files x)).
  { intros x. rewrite check_files_spec, (sort_on_perm file_path (files x)), forallb_spec. split.
    - intros [Hall Hnd]. split; [|done]. intros f Hf. apply Hall. by rewrite sort_on_perm.
    - intros [Hall Hnd]. split; [|done]. intros f Hf. rewrite sort_on_perm in Hf. split; [by apply Hall|by intros ?%elem_of_nil]. }
  revert seen. induction l as [|x l IH]; intros seen; cbn [check_locations].
  { split; [|done]. intros _. split; [by intros f ?%elem_of_nil|constructor]. }
  rewrite !bind_unit, !unit_ok, Hfiles, IH. cbn [fmap list_fmap]. rewrite NoDup_cons, andb_true_iff, !negb_true_iff, bool_decide_eq_false.
  split.
  - intros ([He Hs] & [Hv Hp] & Hall & Hnd). split; [|split; [|done]].
    + intros g [->|Hg]%elem_of_cons; [|destruct (Hall g Hg) as [? ?]; set_solver].
      split; [|done]. unfold location_valid. rewrite He, Hv. by apply bool_decide_eq_true.
    + intros (g & Heq & Hg)%list_elem_of_fmap. destruct (Hall g Hg) as [_ Hn]. rewrite Heq in Hn. set_solver.
  - intros [Hall [Hni Hnd]]. destruct (Hall x) as [Hv Hs]; [by left|]. unfold location_valid in Hv.
    apply andb_prop in Hv as [[He%negb_true_iff Hv]%andb_prop Hp%bool_decide_eq_true]. do 2 (split; [done|]). split; [|done].
    intros g Hg. destruct (Hall g) as [Hg' Hn]; [by right|]. split; [done|]. intros [Heq|]%elem_of_cons; [|done]. apply Hni.
    apply list_elem_of_fmap. by exists g.
Qed.

Lemma try_each_spec {A} (f : A -> outcome unit) l : try_each f l = Ok () <-> forall x, x ∈ l -> f x = Ok ().
Proof.
  induction l as [|x l IH]; cbn [try_each].
  { split; [|done]. by intros _ x ?%elem_of_nil. }
  rewrite bind_unit, IH. split; [intros [Hx Hl] y [->|Hy]%elem_of_cons; auto|].
  intros Hall. split; [apply Hall; by left|]. intros y Hy. apply Hall. by right.
Qed.

Lemma check_record_spec r : check_record r = Ok () <-> canonical_record_ok utc_millis r = true.
Proof.
  unfold check_record, canonical_record_ok. rewrite !bind_unit, !unit_ok, try_each_spec, check_locations_spec, !andb_true_iff.
  rewrite (sort_on_perm snap_key (snap_locations r)), !bool_decide_eq_true, !forallb_spec. setoid_rewrite check_hash_spec.
  split.
  - intros ([Hg Hr] & Hd & _ & Ht & Hp & Hall & Hnd). repeat split; try done. intros x Hx. apply Hall. by rewrite sort_on_perm.
  - intros ((((((Hg & Hr) & Hd) & Ht) & Hp) & Hall) & Hnd). repeat split; try done.
    + by rewrite Ht.
    + apply Hall. by rewrite sort_on_perm in H.
    + by intros ?%elem_of_nil.
Qed.

(** ** The canonical form *)

Lemma dedup_sorted_cons a b l :
  dedup_sorted (a :: b :: l) = if bool_decide (a = b) then dedup_sorted (b :: l) else a :: dedup_sorted (b :: l).
Proof. done. Qed.

Lemma dedup_sorted_in l x : x ∈ dedup_sorted l <-> x ∈ l.
Proof.
  induction l as [|a [|b l] IH]; [done|done|]. rewrite dedup_sorted_cons. case_bool_decide as Hab.
  - subst a. rewrite IH. rewrite (elem_of_cons (b :: l) x b). rewrite !elem_of_cons. tauto.
  - rewrite !(elem_of_cons _ x a). by rewrite IH.
Qed.

Lemma dedup_sorted_head l : head (dedup_sorted l) = head l.
Proof. induction l as [|a [|b l] IH]; [done|done|]. rewrite dedup_sorted_cons. case_bool_decide; [subst; by rewrite IH|done]. Qed.

Lemma dedup_idem l : dedup_sorted (dedup_sorted l) = dedup_sorted l.
Proof.
  induction l as [|a [|b l] IH]; [done|done|]. rewrite dedup_sorted_cons. case_bool_decide as Hab; [done|].
  pose proof (dedup_sorted_head (b :: l)) as Hh. destruct (dedup_sorted (b :: l)) as [|c m]; [done|].
  injection Hh as ->. rewrite dedup_sorted_cons, bool_decide_false by done. by rewrite IH.
Qed.

Lemma dedup_keeps_sorted l : StronglySorted (key_le id) l -> StronglySorted (key_le id) (dedup_sorted l).
Proof.
  induction 1 as [|a l Hs IH Ha]; [constructor|]. destruct l as [|b l]; [by repeat constructor|]. rewrite dedup_sorted_cons.
  case_bool_decide; [done|]. constructor; [done|]. rewrite Forall_forall in *. intros x Hx. rewrite dedup_sorted_in in Hx. auto.
Qed.

(** Sorted lists are left as they are. *)
Lemma sort_on_same {A K} `{TotalOrd K} (f : A -> K) l : StronglySorted (key_le f) l -> NoDup (f <$> l) -> sort_on f l = l.
Proof.
  intros Hs Hnd. apply (sorted_unique f); [apply sort_on_sorted|done| |apply sort_on_perm]. by rewrite sort_on_perm.
Qed.

Lemma sort_id_same (l : list string) : StronglySorted (key_le id) l -> sort_on id l = l.
Proof.
  intros Hs. pose proof (sort_on_perm id l) as Hp. revert Hp. generalize (sort_on_sorted id l). generalize (sort_on id l).
  induction Hs as [|x l Hs IH Hx]; intros l' Hs' Hp; [by apply Permutation_sym, Permutation_nil in Hp|].
  destruct l' as [|y l']; [by apply Permutation_nil in Hp|]. apply StronglySorted_inv in Hs' as [Hs' Hy].
  assert (y = x) as ->.
  { assert (H1 : x ∈ y :: l') by (rewrite Hp; by left). assert (H2 : y ∈ x :: l) by (rewrite <- Hp; by left).
    apply elem_of_cons in H1 as [|H1]; [done|]. apply elem_of_cons in H2 as [|H2]; [done|].
    apply (anti_symm ord_le); [by apply (proj1 (Forall_forall _ _) Hy)|by apply (proj1 (Forall_forall _ _) Hx)]. }
  f_equal. apply IH; [done|]. by apply Permutation_cons_inv in Hp.
Qed.

Lemma sort_files_idem x : NoDup (file_path <$> files x) -> sort_files (sort_files x) = sort_files x.
Proof.
  intros Hnd. unfold sort_files. cbn [snap_key snap_kind files]. f_equal.
  apply sort_on_same; [apply sort_on_sorted|]. by rewrite sort_on_perm.
Qed.

Lemma sort_files_valid x : location_valid (sort_files x) = location_valid x.
Proof.
  unfold location_valid, sort_files. cbn [snap_key files]. f_equal; [f_equal|].
  - apply eq_true_iff_eq. rewrite !forallb_spec. by setoid_rewrite (sort_on_perm file_path (files x)).
  - apply bool_decide_ext. by rewrite sort_on_perm.
Qed.

Lemma normalise_keys r : snap_key <$> snap_locations (normalise r) ≡ₚ snap_key <$> snap_locations r.
Proof.
  unfold normalise. cbn [snap_locations with_parents with_locations]. rewrite <- list_fmap_compose.
  transitivity (snap_key <$> sort_on snap_key (snap_locations r)); [done|]. by rewrite sort_on_perm.
Qed.

Lemma normal_parents r x : x ∈ parents (normalise r) <-> x ∈ parents r.
Proof. unfold normalise, with_parents. cbn [parents]. by rewrite dedup_sorted_in, sort_on_perm. Qed.

Lemma normalise_valid r : check_record r = Ok () -> check_record (normalise r) = Ok ().
Proof.
  rewrite !check_record_spec. unfold canonical_record_ok. rewrite !andb_true_iff, !bool_decide_eq_true, !forallb_spec.
  intros ((((((Hg & Hr) & Hd) & Ht) & Hp) & Hall) & Hnd). repeat split; try done.
  - intros x Hx. rewrite normal_parents in Hx. by apply Hp.
  - intros x (y & -> & Hy)%list_elem_of_fmap. rewrite sort_files_valid. apply Hall. by rewrite sort_on_perm in Hy.
  - by rewrite normalise_keys.
Qed.

Lemma normalise_idem r : check_record r = Ok () -> normalise (normalise r) = normalise r.
Proof.
  rewrite check_record_spec. unfold canonical_record_ok. rewrite !andb_true_iff, !bool_decide_eq_true, !forallb_spec.
  intros [[_ Hall] Hnd]. unfold normalise, with_parents, with_locations.
  cbn [parents snap_locations snap_game snap_release runner_id device ended_at snap_duration interrupted]. f_equal.
  - rewrite sort_id_same; [apply dedup_idem|]. apply dedup_keeps_sorted, sort_on_sorted.
  - rewrite (sort_on_same snap_key (sort_files <$> _)).
    + rewrite <- list_fmap_compose. apply list_fmap_ext. intros i x Hx%list_elem_of_lookup_2. rewrite sort_on_perm in Hx.
      apply sort_files_idem. specialize (Hall x Hx). unfold location_valid in Hall. by apply andb_prop in Hall as [_ ?%bool_decide_eq_true].
    + pose proof (sort_on_sorted snap_key (snap_locations r)) as Hs. induction Hs as [|x l _ IH Hx]; [constructor|].
      cbn [fmap list_fmap]. constructor; [done|]. apply Forall_fmap. eapply Forall_impl; [exact Hx|]. done.
    + rewrite <- list_fmap_compose. change (snap_key ∘ sort_files) with snap_key. by rewrite sort_on_perm.
Qed.

(** A record and its canonical form have the same name. *)
Lemma normalise_canonical r bytes : canonical_record r = Ok bytes -> canonical_record (normalise r) = Ok bytes.
Proof.
  unfold canonical_record. rewrite !bind_unit. intros [Hc [= <-]]. split; [by apply normalise_valid|]. by rewrite normalise_idem.
Qed.

Lemma normalise_id r i : snapshot_id r = Ok i -> snapshot_id (normalise r) = Ok i.
Proof. unfold snapshot_id. intros (bytes & Hb%normalise_canonical & <-)%bind_ok. by rewrite Hb. Qed.

(** ** One key of two kinds *)

Lemma union_valid r others u s :
  with_screenshot_union r others = Ok u -> s ∈ r :: others -> exists i, snapshot_id (mixed r s) = Ok i.
Proof.
  rewrite union_value. pose proof (automatic_join_cases (mixed r <$> (others ++ [r]))) as Hc.
  destruct (automatic_join _) as [[j|]|e]; cbn [mbind result_bind expect]; [|done|done]. intros _ Hs.
  destruct Hc as (ordered & base & ls & Hj). destruct (named_all _ _ (join_ids _ _ _ _ _ Hj)) as [_ Hids].
  assert (Hin : mixed r s ∈ mixed r <$> (others ++ [r])).
  { apply list_elem_of_fmap. exists s. split; [done|]. rewrite elem_of_app, list_elem_of_singleton. rewrite elem_of_cons in Hs. tauto. }
  apply list_elem_of_lookup in Hin as [k Hk]. destruct (Forall2_lookup_l _ _ _ _ _ Hids Hk) as (i & _ & Hi). by exists i.
Qed.

(** A location that changes its kind blocks the saves: where a record has a key
    for saves under which another has screenshots, the union of the two fails as
    invalid, so that nothing can be captured over the other, chosen or restored. *)
Theorem kind_change_fails r others s x y :
  s ∈ others -> x ∈ snap_locations r -> is_screenshot x = false -> y ∈ snap_locations s -> is_screenshot y = true ->
  snap_key y = snap_key x -> exists e, with_screenshot_union r others = Err (Error e).
Proof.
  intros Hs Hx Hxs Hy Hys Hk. pose proof (union_cases r others) as Hc.
  destruct (with_screenshot_union r others) as [u|[e|m]] eqn:Hu; [|by exists e|done]. exfalso.
  destruct (union_valid r others u s Hu) as [i Hi%snapshot_id_checked%check_record_spec]; [by right|].
  unfold canonical_record_ok in Hi. apply andb_prop in Hi as [_ Hnd%bool_decide_eq_true].
  unfold mixed, own_progress in Hnd. cbn [snap_locations with_locations] in Hnd. rewrite fmap_app in Hnd.
  apply NoDup_app in Hnd as (_ & Hdis & _). apply (Hdis (snap_key x)).
  - apply list_elem_of_fmap. exists y. split; [done|]. by apply elem_of_keep.
  - apply list_elem_of_fmap. exists x. split; [done|]. apply elem_of_keep. by rewrite Hxs.
Qed.
End history.
