(* ===== verification/SaveStore.v ===== *)
(** * The save store (services/korrid/src/saves/store.rs)

    Each person has a folder, in it a folder for every game, in it a file for every
    record of the game's saves, named by the record's hash, and two advisory files.
    The contents of all saves are objects, files named by their hash. The state is
    what these folders hold; the folders are private directories, and what a file
    system may do to a file that is written or removed is an argument, as is what a
    capture reads of the files a game left ([live]). The memories of files that were checked before are left out: they hold what the same check
    found for the same file. *)

From S2P Require Import Prelude Text Decimal Programs Files PlayLog Saves History.

(** ** Files *)

(** A name in a folder: a private regular file, anything else that is not one, a
    link, or one at which the file system fails. *)
Inductive entry : Type :=
| Private (content : string)
| Unsafe
| Link
| Unreadable (message : string).

Notation folder := (gmap string entry).

(** By person and game, under their encoded names. *)
Record storage := MkStorage { people : gmap string (gmap string folder); objects : option folder }.

(** What may go wrong when a file is written or removed: with or without effect. *)
Inductive trouble : Type := Before (message : string) | After (message : string).

(** What a capture meets at a path of a save location: nothing, a path that cannot be
    looked at, a link, a file of another kind, a directory with its entries in the
    order they are read, or a regular file with what is read of it for its hash and
    what is read once more to store it, which a running writer can make differ. *)
Inductive live : Type :=
| Gone
| Failing (message : string)
| Symlink
| Special
| Dir (l : live_entries)
| Plain (first : result SaveError string) (second : result string string)
with live_entries : Type :=
| NoMore
| EntryFails (message : string)
| Entry (name : string) (node : live) (rest : live_entries).

(** A location to capture, and whether some directory above it is a link. *)
Record place := MkPlace { place_location : SaveLocation; place_linked : bool; place_tree : live }.

(** JSON of the advisory files, and the time of a stamp in milliseconds. *)
Class StoreCodec := {
  confirmations_json : gmap string (gset string) -> string;
  confirmations_parse : string -> result string (gmap string (gset string));
  in_use_json : gmap string Z -> string;
  in_use_parse : string -> result string (gmap string Z);
  timestamp_millis : string -> option Z;
}.

Inductive SaveMark : Type := Synced | Split | NotChecked | NotSynced | SyncedBySteam.

Set Default Proof Using "Type*".

Section store.
Context `{SVC : !SaveCodec, STC : !StoreCodec}.
Context (fault : string -> option trouble).

Definition storage_error {A} (message : string) : outcome A := Err (Error (SaveStorage message)).

Definition missing {A} : outcome A := Err (Error SaveMissing).

Definition MAX_RECORD : Z := 8388608.

Definition regular (f : folder) (name : string) : outcome string :=
  match f !! name with
  | None => missing
  | Some (Private content) => Ok content
  | Some Unsafe => invalid "save object is not a private regular file"
  | Some Link => storage_error "Too many levels of symbolic links (os error 40)"
  | Some (Unreadable message) => storage_error message
  end.

Definition read_json {A} (parse : string -> result string A) (f : folder) (name : string) : outcome A :=
  content ← regular f name;
  _ ← demand (str_len content <=? MAX_RECORD) "oversized record";
  match parse content with Ok x => Ok x | Err message => invalid message end.

(** A file that is missing is read as the empty one. *)
Definition read_or {A} (d : A) (r : outcome A) : outcome A :=
  match r with Err (Error SaveMissing) => Ok d | _ => r end.

Definition publish (f : folder) (name bytes : string) (expected : option string) : folder * outcome unit :=
  match f !! name with
  | Some Unsafe | Some Link => (f, invalid "unsafe save destination")
  | _ =>
      match
        match expected with
        | None => Ok ()
        | Some h => hex ← hash_digits h; demand (bool_decide (sha256_hex bytes = hex)) "object hash mismatch"
        end
      with
      | Err e => (f, Err e)
      | Ok _ =>
          match fault name with
          | Some (Before message) => (f, storage_error message)
          | Some (After message) => (<[name := Private bytes]> f, storage_error message)
          | None => (<[name := Private bytes]> f, Ok ())
          end
      end
  end.

(** ** Folders *)

Definition account_root (person : string) : outcome unit :=
  demand (account_valid person) "device owner public key is invalid".

Definition key (s : string) : outcome string :=
  let encoded := encode_uri_component s in
  _ ← demand (negb (str_is_empty encoded || bool_decide (encoded = ".") || bool_decide (encoded = "..")
                    || (255 <? str_len encoded))) "history path identity";
  Ok encoded.

Definition person_folder (st : storage) (person : string) : outcome (option (gmap string folder)) :=
  _ ← account_root person; Ok (people st !! encode_uri_component person).

Definition game_folder (st : storage) (person game : string) : outcome (option folder) :=
  k ← key game; games ← person_folder st person;
  Ok (games ≫= (fun games => games !! k)).

Definition set_game (person k : string) (f : folder) (st : storage) : storage :=
  MkStorage (<[encode_uri_component person := <[k := f]> (default ∅ (people st !! encode_uri_component person))]> (people st))
    (objects st).

(** [game] with [create]: the name and the folder, made if it is missing. *)
Definition open_game (st : storage) (person game : string) : outcome (string * folder) :=
  k ← key game; games ← person_folder st person;
  Ok (k, default ∅ (games ≫= (fun games => games !! k))).

(** ** Records *)

(** The record of a file in the folder [dir] whose name states [id]. *)
Definition record_file (dir : string) (f : folder) (name id : string) : outcome SnapshotRecord :=
  r ← read_json record_parse f name;
  found ← snapshot_id r;
  _ ← demand (bool_decide (found = id) && bool_decide (encode_uri_component (snap_game r) = dir)) "record identity mismatch";
  Ok r.

Definition is_temporary_name (name : string) : bool := starts_with ".save-" name && ends_with ".tmp" name.

(** [None]: not a record. *)
Definition named_record (dir : string) (f : folder) (name : string) : outcome (option (string * SnapshotRecord)) :=
  name ← match to_str name with Some name => Ok name | None => invalid "record filename" end;
  if bool_decide (name = "confirmations.json") || bool_decide (name = "in-use.json") || is_temporary_name name then Ok None
  else
    hex ← match strip_suffix ".json" name with Some hex => Ok hex | None => invalid "record filename" end;
    let id := "sha256:" +:+ hex in
    _ ← hash_digits id;
    r ← record_file dir f name id;
    Ok (Some (id, r)).

Definition records_with_ids_at (dir : string) (f : folder) : outcome (list (string * SnapshotRecord)) :=
  found ← try_map (named_record dir f) (btree_keys f);
  Ok (sort_on fst (omap id found)).

Definition records_at (dir : string) (f : folder) : outcome (list SnapshotRecord) :=
  records ← records_with_ids_at dir f; Ok records.*2.

Definition read_records (st : storage) (person game : string) : outcome (list SnapshotRecord) :=
  found ← game_folder st person game;
  match found with
  | Some f => records_at (encode_uri_component game) f
  | None => Ok []
  end.

Definition record_by_id (st : storage) (person game id : string) : outcome (option SnapshotRecord) :=
  found ← game_folder st person game;
  match found with
  | None => Ok None
  | Some f =>
      hex ← hash_digits id;
      let file := hex +:+ ".json" in
      match f !! file with
      | None => Ok None
      | Some _ => r ← record_file (encode_uri_component game) f file id; Ok (Some r)
      end
  end.

Definition all_records_with_ids (st : storage) (person : string) : outcome (list (list (string * SnapshotRecord))) :=
  found ← person_folder st person;
  match found with
  | None => Ok []
  | Some games => try_map (fun x => records_with_ids_at x.1 x.2) (btree_entries games)
  end.

Definition without_ids (l : list (list (string * SnapshotRecord))) : list (list SnapshotRecord) := map (fun l => l.*2) l.

Definition all_records (st : storage) (person : string) : outcome (list (list SnapshotRecord)) :=
  records ← all_records_with_ids st person; Ok (without_ids records).

Definition write_record (st : storage) (person : string) (r : SnapshotRecord) : storage * outcome string :=
  match
    bytes ← canonical_record r;
    _ ← demand (str_len bytes <=? MAX_RECORD) "oversized record";
    found ← open_game st person (snap_game r);
    Ok (bytes, found)
  with
  | Err e => (st, Err e)
  | Ok (bytes, (k, f)) =>
      let id := hash bytes in
      match hash_digits id with
      | Err e => (set_game person k f st, Err e)
      | Ok hex =>
          let '(f, written) := publish f (hex +:+ ".json") bytes None in
          (set_game person k f st, _ ← written; Ok id)
      end
  end.

(** ** Objects *)

(** The folder of the objects and the name of one. *)
Definition object_path (st : storage) (h : string) : outcome (folder * string) :=
  hex ← hash_digits h;
  match objects st with Some f => Ok (f, hex) | None => missing end.

Definition verified_object (st : storage) (h : string) : outcome string :=
  '(f, name) ← object_path st h;
  content ← regular f name;
  hex ← hash_digits h;
  _ ← demand (bool_decide (sha256_hex content = hex)) "stored object hash mismatch";
  Ok content.

Definition all_files (r : SnapshotRecord) : list SaveFile := concat (files <$> snap_locations r).

Definition authorize_object (st : storage) (person h : string) : outcome unit :=
  _ ← hash_digits h;
  records ← all_records st person;
  if existsb (fun f => bool_decide (sha256 f = h)) (concat (all_files <$> concat records)) then Ok () else missing.

Fixpoint files_complete (st : storage) (l : list SaveFile) : outcome bool :=
  match l with
  | [] => Ok true
  | expected :: l =>
      match verified_object st (sha256 expected) with
      | Ok content =>
          if str_len content =? file_bytes expected then files_complete st l else invalid "object size mismatch"
      | Err (Error SaveMissing) => Ok false
      | Err e => Err e
      end
  end.

Definition record_complete (st : storage) (r : SnapshotRecord) : outcome bool := files_complete st (all_files r).

Definition progress_complete (st : storage) (r : SnapshotRecord) : outcome bool :=
  record_complete st (with_locations (keep (fun l => negb (is_screenshot l)) (snap_locations r)) r).

Definition progress_present (st : storage) (r : SnapshotRecord) : bool :=
  forallb (fun file =>
    match object_path st (sha256 file) with
    | Ok (f, name) =>
        match f !! name with Some (Private content) => str_len content =? file_bytes file | _ => false end
    | Err _ => false
    end) (concat (files <$> keep (fun l => negb (is_screenshot l)) (snap_locations r))).

(** ** Heads and ancestry *)

Definition all_parents (records : list SnapshotRecord) : gset string := list_to_set (concat (parents <$> records)).

Definition head_ids (records : list SnapshotRecord) : outcome (list string) :=
  ids ← try_map snapshot_id records;
  Ok (sort_on id (keep (fun i => negb (bool_decide (i ∈ all_parents records))) ids)).

(** [snapshot_id] with [expect]. *)
Definition known_id (r : SnapshotRecord) : outcome string := expect (ok (snapshot_id r)) "validated record".

Fixpoint try_keep {A} (f : A -> outcome bool) (l : list A) : outcome (list A) :=
  match l with
  | [] => Ok []
  | x :: l => b ← f x; l ← try_keep f l; Ok (if (b : bool) then x :: l else l)
  end.

Definition records_of (ids : list string) (records : list SnapshotRecord) : outcome (list SnapshotRecord) :=
  try_keep (fun r => i ← known_id r; Ok (bool_decide (i ∈ ids))) records.

Definition has_id (i : string) (r : SnapshotRecord) : bool :=
  match snapshot_id r with Ok v => bool_decide (v = i) | Err _ => false end.

Definition find_record (i : string) (records : list SnapshotRecord) : option SnapshotRecord := head (keep (has_id i) records).

Inductive HistoryDecision : Type :=
| DecideUnchanged
| DecideSplit
| DecideJoin (heads : list SnapshotRecord) (joined : SnapshotRecord).

Definition history_decision (records : list SnapshotRecord) : outcome HistoryDecision :=
  ids ← head_ids records;
  if bool_decide (length ids <= 1)%nat then Ok DecideUnchanged
  else
    heads ← records_of ids records;
    joined ← automatic_join heads;
    Ok match joined with None => DecideSplit | Some j => DecideJoin heads j end.

Definition reconciliation_status (st : storage) (person game : string) : outcome SaveMark :=
  records ← read_records st person game;
  decision ← history_decision records;
  Ok match decision with DecideSplit => Split | _ => NotChecked end.

Fixpoint all_complete (complete : SnapshotRecord -> outcome bool) (l : list SnapshotRecord) : outcome bool :=
  match l with
  | [] => Ok true
  | r :: l => c ← complete r; if (c : bool) then all_complete complete l else Ok false
  end.

Definition reconcile (st : storage) (person game : string) : storage * outcome SaveMark :=
  match records ← read_records st person game; history_decision records with
  | Err e => (st, Err e)
  | Ok DecideUnchanged => (st, Ok NotChecked)
  | Ok DecideSplit => (st, Ok Split)
  | Ok (DecideJoin heads joined) =>
      match all_complete (record_complete st) heads with
      | Err e => (st, Err e)
      | Ok false => (st, Ok NotChecked)
      | Ok true => let '(st, written) := write_record st person joined in (st, _ ← written; Ok NotChecked)
      end
  end.

Notation by_id := (gmap string SnapshotRecord).

(** Depth first: [fuel] is one step for each name that is ever pending. *)
Fixpoint search (fuel : nat) (records : by_id) (candidate : string) (seen : gset string) (pending : list string) : bool :=
  match fuel, pending with
  | S fuel, i :: pending =>
      if bool_decide (i ∈ seen) then search fuel records candidate seen pending
      else
        match records !! i with
        | Some r =>
            bool_decide (candidate ∈ parents r)
            || search fuel records candidate ({[i]} ∪ seen) (reverse (parents r) ++ pending)
        | None => search fuel records candidate ({[i]} ∪ seen) pending
        end
  | _, _ => false
  end.

Definition edges (records : by_id) : nat := sum_list_with (fun x => length (parents x.2)) (map_to_list records).

Definition ancestor (candidate descendant : string) (records : by_id) : bool :=
  search (S (edges records)) records candidate ∅ [descendant].

Definition index_records (records : list SnapshotRecord) : outcome by_id :=
  named ← try_map (fun r => i ← known_id r; Ok (i, r)) records;
  Ok (foldl (fun m x => <[x.1 := x.2]> m) ∅ named).

(** The first of the heads whose progress is there. *)
Fixpoint complete_head (st : storage) (records : list SnapshotRecord) (heads : list string) : outcome (option string) :=
  match heads with
  | [] => Ok None
  | i :: heads =>
      match find_record i records with
      | Some r => c ← progress_complete st r; if (c : bool) then Ok (Some i) else complete_head st records heads
      | None => complete_head st records heads
      end
  end.

Definition local_complete (st : storage) (local : string) (x : string * SnapshotRecord) : outcome bool :=
  if bool_decide (device x.2 = local) then record_complete st x.2 else Ok false.

Definition newest (records : by_id) (local : list string) : list string :=
  keep (fun i => negb (existsb (fun other => negb (bool_decide (other = i)) && ancestor i other records) local)) local.

Definition launch_base (st : storage) (person game local : string) : outcome (option string) :=
  records ← read_records st person game;
  heads ← head_ids records;
  current ← records_of heads records;
  split ← (if bool_decide (1 < length current)%nat then j ← automatic_join current; Ok (is_none j) else Ok false);
  if (split : bool) then Err (Error SaveSplit)
  else
    found ← complete_head st records heads;
    match found with
    | Some i => Ok (Some i)
    | None =>
        indexed ← index_records records;
        mine ← try_keep (local_complete st local) (btree_entries indexed);
        match newest indexed mine.*1 with
        | [] => Ok None
        | [i] => Ok (Some i)
        | _ => Err (Error SaveSplit)
        end
    end.

(** ** Choosing and restoring *)

Definition continue (parents : list string) (device ended_at : string) (r : SnapshotRecord) : SnapshotRecord :=
  MkSnapshotRecord parents (snap_game r) (snap_release r) (runner_id r) device ended_at 0 false (snap_locations r).

Definition picked (st : storage) (records : list SnapshotRecord) (heads : list string) (i device ended_at : string)
    : outcome SnapshotRecord :=
  r ← match find_record i records with Some r => Ok r | None => missing end;
  c ← record_complete st r;
  if (c : bool) then
    sides ← records_of heads records;
    united ← with_screenshot_union r sides;
    Ok (continue heads device ended_at united)
  else missing.

Definition pick (st : storage) (person : string) (records : list SnapshotRecord) (heads : list string)
    (i device ended_at : string) : storage * outcome string :=
  match picked st records heads i device ended_at with
  | Err e => (st, Err e)
  | Ok r => write_record st person r
  end.

Definition choose (st : storage) (person game i device ended_at : string) : storage * outcome string :=
  match
    records ← read_records st person game;
    heads ← head_ids records;
    _ ← demand (negb (bool_decide (length heads < 2)%nat) && bool_decide (i ∈ heads))
          "choice no longer names an open split side";
    Ok (records, heads)
  with
  | Err e => (st, Err e)
  | Ok (records, heads) => pick st person records heads i device ended_at
  end.

Definition restore (st : storage) (person game i device ended_at : string) : storage * outcome string :=
  match records ← read_records st person game; heads ← head_ids records; Ok (records, heads) with
  | Err e => (st, Err e)
  | Ok (records, heads) => pick st person records heads i device ended_at
  end.

(** ** Retention *)

Definition CONFIRMATIONS : string := "confirmations.json".

Definition confirmations_of (f : folder) : outcome (gmap string (gset string)) :=
  read_or ∅ (read_json confirmations_parse f CONFIRMATIONS).

Definition USIZE_MAX : Z := 18446744073709551615.

(** Breadth first from the heads: a name is expanded at its first, nearest place. *)
Fixpoint spread (fuel : nat) (known : gmap string (list string)) (distance : gmap string Z)
    (pending : list (string * Z)) : gmap string Z :=
  match fuel, pending with
  | S fuel, (i, depth) :: pending =>
      if is_some_and (distance !! i) (fun d => d <=? depth) then spread fuel known distance pending
      else
        spread fuel known (<[i := depth]> distance)
          (pending ++ match known !! i with Some ps => (fun p => (p, depth + 1)) <$> ps | None => [] end)
  | _, _ => distance
  end.

Definition known_parents (records : list SnapshotRecord) : outcome (gmap string (list string)) :=
  named ← try_map (fun r => i ← known_id r; Ok (i, parents r)) records;
  Ok (foldl (fun m x => <[x.1 := x.2]> m) ∅ named).

Definition distances (known : gmap string (list string)) (heads : list string) : gmap string Z :=
  spread (length heads + sum_list_with (fun x => length x.2) (map_to_list known)) known ∅ ((fun i => (i, 0)) <$> heads).

Definition place_of (distance : gmap string Z) (x : string * SnapshotRecord) : Z * string :=
  (default USIZE_MAX (distance !! x.1), x.1).

(** Nearest first. *)
Definition by_distance (distance : gmap string Z) (records : list SnapshotRecord) : outcome (list SnapshotRecord) :=
  named ← try_map (fun r => i ← known_id r; Ok (i, r)) records;
  Ok (sort_on (place_of distance) named).*2.

(** The sides of a merge whose progress is not the merge's. *)
Definition unpicked (records : list SnapshotRecord) (merge : SnapshotRecord) : list string :=
  keep (fun p => existsb (fun r => has_id p r && negb (bool_decide (progress r = progress merge))) records) (parents merge).

Definition protected (records : list SnapshotRecord) (heads : list string) : outcome (gset string) :=
  nearest ← try_map snapshot_id (take 10 records);
  Ok (list_to_set heads ∪ list_to_set nearest
      ∪ list_to_set (concat (unpicked records <$> keep (fun r => bool_decide (1 < length (parents r))%nat) records))).

Definition confirmed_by_other (confirmations : gmap string (gset string)) (local i : string) : bool :=
  is_some_and (confirmations !! i) (fun devices => existsb (fun d => negb (bool_decide (d = local))) (elements devices)).

Definition is_prunable (kept : gset string) (confirmations : gmap string (gset string)) (local : string)
    (r : SnapshotRecord) : outcome bool :=
  i ← snapshot_id r;
  Ok (negb (bool_decide (i ∈ kept)) && confirmed_by_other confirmations local i).

(** The records whose content may go. *)
Definition prunable (f : folder) (records : list SnapshotRecord) (local : string) : outcome (list SnapshotRecord) :=
  confirmations ← confirmations_of f;
  heads ← head_ids records;
  known ← known_parents records;
  records ← by_distance (distances known heads) records;
  kept ← protected records heads;
  try_keep (is_prunable kept confirmations local) records.

Definition hashes (r : SnapshotRecord) : list string := sha256 <$> all_files r.

(** What a record of the person [owner] holds against pruning. *)
Definition held (person game : string) (gone : gset string) (owner : string) (r : SnapshotRecord) : outcome (list string) :=
  i ← (if bool_decide (owner = person) && bool_decide (snap_game r = game) then snapshot_id r else Ok EmptyString);
  Ok (if bool_decide (owner = person) && bool_decide (snap_game r = game) && bool_decide (i ∈ gone) then [] else hashes r).

Definition held_by (st : storage) (person game : string) (gone : gset string) (owner : string) : outcome (list string) :=
  owner ← match to_str owner with Some owner => Ok owner | None => invalid "person directory" end;
  histories ← all_records st owner;
  held ← try_map (held person game gone owner) (concat histories);
  Ok (concat held).

Definition delete_object (h : string) (st : storage) : storage * outcome unit :=
  match '(f, name) ← object_path st h; Ok (name, regular f name) with
  | Err e => (st, Err e)
  | Ok (name, Ok _) =>
      let without := MkStorage (people st) (delete name <$> objects st) in
      match fault name with
      | Some (Before message) => (st, storage_error message)
      | Some (After message) => (without, storage_error message)
      | None => (without, Ok ())
      end
  | Ok (_, Err (Error SaveMissing)) => (st, Ok ())
  | Ok (_, Err e) => (st, Err e)
  end.

Fixpoint delete_objects (l : list string) (st : storage) : storage * outcome unit :=
  match l with
  | [] => (st, Ok ())
  | h :: l => match delete_object h st with (st, Ok _) => delete_objects l st | (st, Err e) => (st, Err e) end
  end.

(** The objects no retained record names. [None]: there are few records. *)
Definition prune_candidates (st : storage) (person game local : string) : outcome (option (list string)) :=
  records ← read_records st person game;
  if bool_decide (length records <= 10)%nat then Ok None
  else
    found ← game_folder st person game;
    f ← match found with Some f => Ok f | None => missing end;
    gone ← prunable f records local;
    ids ← try_map snapshot_id gone;
    held ← try_map (held_by st person game (list_to_set ids)) (btree_keys (people st));
    Ok (Some (btree_elements (list_to_set (concat (hashes <$> gone)) ∖ list_to_set (concat held)))).

(** The folder of the objects is synced. *)
Definition sync_objects (st : storage) : outcome unit :=
  match objects st, fault "objects" with
  | Some _, Some (Before message) | Some _, Some (After message) => storage_error message
  | _, _ => Ok ()
  end.

Definition prune (st : storage) (person game local : string) : storage * outcome unit :=
  match prune_candidates st person game local with
  | Err e => (st, Err e)
  | Ok None => (st, Ok ())
  | Ok (Some candidates) => let '(st, deleted) := delete_objects candidates st in (st, _ ← deleted; sync_objects st)
  end.

(** ** What devices say of each other *)

Definition IN_USE : string := "in-use.json".

(** A file of the game's folder is published; the folder is made if it is missing. *)
Definition publish_in (st : storage) (person k : string) (f : folder) (name bytes : string) : storage * outcome unit :=
  let '(f, written) := publish f name bytes None in (set_game person k f st, written).

Definition remember_in_use (st : storage) (person game device : string) (since : option Z) : storage * outcome unit :=
  match _ ← account_root device; open_game st person game with
  | Err e => (st, Err e)
  | Ok (k, f) =>
      match read_or ∅ (read_json in_use_parse f IN_USE) with
      | Err e => (set_game person k f st, Err e)
      | Ok devices =>
          let devices := match since with Some since => <[device := since]> devices | None => delete device devices end in
          publish_in st person k f IN_USE (in_use_json devices)
      end
  end.

Record SaveInUseWarning := MkSaveInUseWarning { warned_device : string; since : Z }.

(** The devices of heads whose progress has not arrived. *)
Fixpoint warn_of_heads (st : storage) (heads : list string) (devices : gmap string Z) (records : list SnapshotRecord)
    : outcome (gmap string Z) :=
  match records with
  | [] => Ok devices
  | r :: records =>
      i ← snapshot_id r;
      if bool_decide (i ∈ heads) && negb (progress_present st r) then
        time ← match timestamp_millis (ended_at r) with Some t => Ok t | None => invalid "end time" end;
        warn_of_heads st heads
          (if bool_decide (0 <= time)
           then match devices !! device r with Some _ => devices | None => <[device r := time]> devices end
           else devices) records
      else warn_of_heads st heads devices records
  end.

Definition in_use_warnings (st : storage) (person game : string) : outcome (list SaveInUseWarning) :=
  found ← game_folder st person game;
  match found with
  | None => Ok []
  | Some f =>
      devices ← read_or ∅ (read_json in_use_parse f IN_USE);
      records ← read_records st person game;
      heads ← head_ids records;
      devices ← warn_of_heads st heads devices records;
      Ok ((fun x => MkSaveInUseWarning x.1 x.2) <$> btree_entries devices)
  end.

Definition head_incomplete (st : storage) (heads : list string) (r : SnapshotRecord) : outcome bool :=
  i ← snapshot_id r;
  if bool_decide (i ∈ heads) then c ← record_complete st r; Ok (negb c) else Ok false.

(** [true] at the first. *)
Fixpoint try_any {A} (f : A -> outcome bool) (l : list A) : outcome bool :=
  match l with
  | [] => Ok false
  | x :: l => b ← f x; if (b : bool) then Ok true else try_any f l
  end.

Definition confirmed_elsewhere (st : storage) (person game local : string) : outcome bool :=
  found ← game_folder st person game;
  match found with
  | None => Ok false
  | Some f =>
      records ← read_records st person game;
      heads ← head_ids records;
      confirmations ← confirmations_of f;
      incomplete ← try_any (head_incomplete st heads) records;
      Ok (negb incomplete && negb (bool_decide (heads = [])) && forallb (confirmed_by_other confirmations local) heads)
  end.

(** ** The repository peers ask *)

Record GameSaveHeads := MkGameSaveHeads { heads_game : string; game_heads : list string }.

Definition heads_of_game (records : list (string * SnapshotRecord)) : option GameSaveHeads :=
  match records with
  | [] => None
  | (_, r) :: _ =>
      Some (MkGameSaveHeads (snap_game r)
        (sort_on id (keep (fun i => negb (bool_decide (i ∈ all_parents records.*2))) records.*1)))
  end.

Definition heads (st : storage) (person : string) : outcome (list GameSaveHeads) :=
  games ← all_records_with_ids st person;
  Ok (sort_on heads_game (omap heads_of_game games)).

Definition records (st : storage) (person game : string) : outcome (list SnapshotRecord) := read_records st person game.

Definition record (st : storage) (person game i : string) : outcome (option SnapshotRecord) :=
  _ ← hash_digits i; record_by_id st person game i.

Definition put_record (st : storage) (person : string) (r : SnapshotRecord) : storage * outcome string := write_record st person r.

Definition object (st : storage) (person h : string) : outcome string :=
  _ ← authorize_object st person h; verified_object st h.

Definition put_object (st : storage) (person h input : string) : storage * outcome unit :=
  match _ ← authorize_object st person h; hash_digits h with
  | Err e => (st, Err e)
  | Ok name =>
      let '(f, written) := publish (default ∅ (objects st)) name input (Some h) in
      (MkStorage (people st) (Some f), written)
  end.

(** *** Capturing what a game left *)

(** [publish] of a file that is read meanwhile. *)
Definition publish_read (f : folder) (name : string) (input : result string string) (h : string) : folder * outcome unit :=
  match input with
  | Ok bytes => publish f name bytes (Some h)
  | Err message =>
      match f !! name with
      | Some Unsafe | Some Link => (f, invalid "unsafe save destination")
      | _ => (f, storage_error message)
      end
  end.

Definition capture_file (st : storage) (relative : string) (first : result SaveError string) (second : result string string)
    : storage * outcome (list SaveFile) :=
  match first with
  | Err e => (st, Err (Error e))
  | Ok content =>
      let h := hash content in
      match hash_digits h with
      | Err e => (st, Err e)
      | Ok name =>
          let '(f, written) := publish_read (default ∅ (objects st)) name second h in
          (MkStorage (people st) (Some f),
           _ ← written;
           relative ← match to_str relative with Some s => Ok s | None => invalid "save filename is not UTF-8" end;
           Ok [MkSaveFile relative h (str_len content)])
      end
  end.

(** [walk] of a location; [below] is the path from its root, [None] at the root. *)
Fixpoint walk_live (st : storage) (below : option string) (node : live) : storage * outcome (list SaveFile) :=
  match node with
  | Gone =>
      match below with
      | None => (st, Ok [])
      | Some _ => (st, storage_error "No such file or directory (os error 2)")
      end
  | Failing message => (st, storage_error message)
  | Symlink => (st, invalid "symlink in save location")
  | Special => (st, invalid "special file in save location")
  | Dir l => walk_entries st below l
  | Plain first second => capture_file st (default EmptyString below) first second
  end
with walk_entries (st : storage) (below : option string) (l : live_entries) : storage * outcome (list SaveFile) :=
  match l with
  | NoMore => (st, Ok [])
  | EntryFails message => (st, storage_error message)
  | Entry name node rest =>
      let path := match below with None => name | Some p => p +:+ "/" +:+ name end in
      match walk_live st (Some path) node with
      | (st, Err e) => (st, Err e)
      | (st, Ok found) =>
          let '(st, more) := walk_entries st below rest in
          (st, more ← more; Ok (found ++ more))
      end
  end.

Fixpoint capture_places (st : storage) (l : list place) : storage * outcome (list SnapshotLocation) :=
  match l with
  | [] => (st, Ok [])
  | p :: l =>
      if place_linked p then (st, invalid "symlink in save ancestors")
      else
        match walk_live st None (place_tree p) with
        | (st, Err e) => (st, Err e)
        | (st, Ok found) =>
            let '(st, more) := capture_places st l in
            let location := place_location p in
            (st, more ← more; Ok (MkSnapshotLocation (location_key location) (location_kind location) (sort_on file_path found) :: more))
        end
  end.

(** The objects first; the caller keeps the record and writes it afterwards. *)
Definition capture (st : storage) (person : string) (l : list place) (r : SnapshotRecord) : storage * outcome SnapshotRecord :=
  match capture_places st l with
  | (st, Err e) => (st, Err e)
  | (st, Ok locations) =>
      let r := with_locations locations r in
      (st,
       records ← read_records st person (snap_game r);
       inherited ← records_of (parents r) records;
       r ← with_screenshot_union r inherited;
       _ ← canonical_record r;
       Ok r)
  end.

Definition complete (st : storage) (person game i : string) : outcome bool :=
  _ ← hash_digits i;
  found ← record_by_id st person game i;
  match found with Some r => record_complete st r | None => missing end.

Definition confirmed_snapshots (st : storage) (person game device : string) : outcome (gset string) :=
  found ← game_folder st person game;
  match found with
  | None => Ok ∅
  | Some f =>
      confirmations ← confirmations_of f;
      Ok (list_to_set (keep (fun x => bool_decide (device ∈ x.2)) (btree_entries confirmations)).*1)
  end.

Definition confirm (st : storage) (person game i device : string) : storage * outcome unit :=
  match
    _ ← hash_digits i;
    _ ← account_root device;
    records ← read_records st person game;
    _ ← (if existsb (has_id i) records then Ok () else missing);
    k ← key game;
    found ← game_folder st person game;
    f ← match found with Some f => Ok f | None => missing end;
    confirmations ← confirmations_of f;
    Ok (k, f, confirmations)
  with
  | Err e => (st, Err e)
  | Ok (k, f, confirmations) =>
      let devices := default ∅ (confirmations !! i) in
      if bool_decide (device ∈ devices) then (st, Ok ())
      else publish_in st person k f CONFIRMATIONS (confirmations_json (<[i := {[device]} ∪ devices]> confirmations))
  end.

(** ** Reading a folder *)

Lemma hash_digits_spec h hex : hash_digits h = Ok hex <-> h = "sha256:" +:+ hex /\ lower_hex64 hex = true.
Proof.
  unfold hash_digits. split.
  - destruct (strip_prefix "sha256:" h) as [x|] eqn:Hx; [|done]. apply strip_prefix_Some in Hx.
    destruct (lower_hex64 x) eqn:Hl; [|done]. by intros [= <-].
  - intros [-> Hl]. rewrite strip_prefix_app, Hl. done.
Qed.

Lemma demand_ok b m u : demand b m = Ok u -> b = true.
Proof. by destruct b. Qed.

Lemma record_file_id dir f name i r :
  record_file dir f name i = Ok r -> snapshot_id r = Ok i /\ encode_uri_component (snap_game r) = dir.
Proof.
  unfold record_file. intros (x & _ & (found & Hf & (? & [Hb%bool_decide_eq_true Hg%bool_decide_eq_true]%demand_ok%andb_prop & [= <-])%bind_ok)%bind_ok)%bind_ok.
  subst. done.
Qed.

(** A name and the record in it. *)
Definition holds (dir : string) (f : folder) (i : string) (r : SnapshotRecord) : Prop :=
  exists name, is_Some (f !! name) /\ named_record dir f name = Ok (Some (i, r)).

Lemma named_record_id dir f name i r :
  named_record dir f name = Ok (Some (i, r)) ->
  snapshot_id r = Ok i /\ encode_uri_component (snap_game r) = dir /\ exists hex, name = hex +:+ ".json" /\ i = "sha256:" +:+ hex.
Proof.
  unfold named_record, to_str. intros (n & Hn & Hr)%bind_ok. destruct (utf8_valid _); [|done]. injection Hn as <-.
  destruct (_ || _); [done|]. apply bind_ok in Hr as (hex & Hhex & (d & _ & (x & Hx & [= <- <-])%bind_ok)%bind_ok).
  destruct (strip_suffix ".json" name) as [y|] eqn:Hy; [|done]. injection Hhex as ->. apply strip_suffix_Some in Hy.
  apply record_file_id in Hx as [Hx Hg]. split; [done|]. split; [done|]. by exists hex.
Qed.

Lemma holds_unique dir f i r r' : holds dir f i r -> holds dir f i r' -> r = r'.
Proof.
  intros (n & _ & Hn) (n' & _ & Hn'). pose proof (named_record_id _ _ _ _ _ Hn) as (_ & _ & h & -> & ->).
  pose proof (named_record_id _ _ _ _ _ Hn') as (_ & _ & h' & -> & Hi). simplify_eq. congruence.
Qed.

Lemma read_folder dir f l :
  records_with_ids_at dir f = Ok l ->
  (forall n, is_Some (f !! n) -> exists o, named_record dir f n = Ok o) /\
  (forall i r, (i, r) ∈ l <-> holds dir f i r) /\ NoDup l.*1.
Proof.
  unfold records_with_ids_at. intros (found & Hf & [= <-])%bind_ok.
  pose proof (try_map_cases (named_record dir f) (btree_keys f)) as Hall. rewrite Hf in Hall.
  assert (Hin : forall i r, (i, r) ∈ omap id found <-> holds dir f i r).
  { intros i r. rewrite list_elem_of_omap. unfold id. split.
    - intros (o & Ho & Heq). subst o. apply list_elem_of_lookup in Ho as [k Hk]. destruct (Forall2_lookup_r _ _ _ _ _ Hall Hk) as (n & Hn & Hr).
      exists n. split; [|done]. apply elem_of_btree_keys. by eapply list_elem_of_lookup_2.
    - intros (n & Hn & Hr). apply elem_of_btree_keys, list_elem_of_lookup in Hn as [k Hk].
      destruct (Forall2_lookup_l _ _ _ _ _ Hall Hk) as (o & Ho & Hr'). exists o. split; [by eapply list_elem_of_lookup_2|congruence]. }
  split; [|split].
  - intros n Hn%elem_of_btree_keys. apply list_elem_of_lookup in Hn as [k Hk].
    destruct (Forall2_lookup_l _ _ _ _ _ Hall Hk) as (o & _ & Ho). by exists o.
  - intros i r. by rewrite sort_on_perm.
  - rewrite sort_on_perm. pose proof (btree_keys_NoDup f) as Hnd. clear Hf Hin. induction Hall as [|n o ns found Hn Hall IH]; [constructor|].
    apply NoDup_cons in Hnd as [Hni Hnd]. destruct o as [[i r]|]; [|by apply IH]. change (omap id (Some (i, r) :: found)) with ((i, r) :: omap id found).
    cbn [fmap list_fmap]. apply NoDup_cons. split; [|by apply IH]. intros ([i' r'] & Hi & Ho)%list_elem_of_fmap. cbn in Hi. subst i'.
    apply list_elem_of_omap in Ho as (o & Ho & Heq). unfold id in Heq. subst o. apply list_elem_of_lookup in Ho as [k Hk].
    destruct (Forall2_lookup_r _ _ _ _ _ Hall Hk) as (n' & Hn' & Hr'). apply named_record_id in Hn as (_ & _ & h & -> & ->).
    apply named_record_id in Hr' as (_ & _ & h' & -> & Hi). apply (inj (String.append _)) in Hi as <-. apply Hni. by eapply list_elem_of_lookup_2.
Qed.

Lemma try_map_total {A B} (f : A -> outcome B) l : (forall x, x ∈ l -> exists y, f x = Ok y) -> exists ys, try_map f l = Ok ys.
Proof.
  induction l as [|x l IH]; intros Hall; cbn [try_map]; [by eexists|]. destruct (Hall x) as [y ->]; [by left|]. cbn [mbind result_bind].
  destruct IH as [ys ->]; [intros; apply Hall; by right|]. by eexists.
Qed.

Lemma read_folder_total dir f :
  (forall n, is_Some (f !! n) -> exists o, named_record dir f n = Ok o) -> exists l, records_with_ids_at dir f = Ok l.
Proof.
  intros Hall. unfold records_with_ids_at. destruct (try_map_total (named_record dir f) (btree_keys f)) as [found ->]; [|by eexists].
  intros n Hn%elem_of_btree_keys. by apply Hall.
Qed.

(** A name's record depends on what is in it alone. *)
Lemma named_record_local dir f f' name : f !! name = f' !! name -> named_record dir f name = named_record dir f' name.
Proof.
  intros Hn. unfold named_record, record_file, read_json, regular. destruct (to_str name) as [n|] eqn:Ht; [|done]. cbn [mbind result_bind].
  unfold to_str in Ht. destruct (utf8_valid _); [|done]. injection Ht as <-. by rewrite Hn.
Qed.

(** ** Writing a record *)

(** What JSON keeps, and that a hash has 64 digits. *)
Class StoreLaws := {
  record_round : forall r, check_record r = Ok () -> record_parse (record_json (normalise r)) = Ok (normalise r);
  sha256_digits : forall s, lower_hex64 (sha256_hex s) = true;
}.

Context `{LAWS : !StoreLaws}.

Definition record_name (hex : string) : string := hex +:+ ".json".

(** A file named by a hash is a record. *)
Lemma named_record_hex dir f hex :
  lower_hex64 hex = true ->
  named_record dir f (record_name hex) =
    (r ← record_file dir f (record_name hex) ("sha256:" +:+ hex); Ok (Some ("sha256:" +:+ hex, r))).
Proof.
  intros Hh. pose proof Hh as [Hlen%Z.eqb_eq Hall]%andb_prop. rewrite all_chars_text, forallb_spec in Hall. unfold named_record, to_str.
  assert (utf8_valid (to_text (record_name hex)) = true) as ->.
  { apply ascii_utf8. unfold record_name. rewrite to_text_app, forallb_app. apply andb_true_intro. split; [|done].
    apply forallb_spec. intros a Ha. by apply lower_hex_ascii, Hall. }
  cbn [mbind result_bind].
  assert (Hlong : str_len (record_name hex) = 69).
  { unfold str_len, record_name in *. assert (Happ : forall s t, String.length (s +:+ t) = (String.length s + String.length t)%nat).
    { intros s t. induction s as [|a s IH]; [done|]. simpl. by rewrite IH. }
    rewrite Happ. simpl. lia. }
  rewrite !bool_decide_false by (intros Heq; by rewrite Heq in Hlong). cbn [orb].
  assert (is_temporary_name (record_name hex) = false) as ->.
  { unfold is_temporary_name, record_name. destruct hex as [|a hex]; [done|]. unfold starts_with. cbn [strip_prefix].
    change ((SCons a hex +:+ ".json")) with (SCons a (hex +:+ ".json")). cbn [strip_prefix]. destruct (decide _) as [<-|]; [|done].
    specialize (Hall "."%char ltac:(by left)). done. }
  assert (strip_suffix ".json" (record_name hex) = Some hex) as -> by by apply strip_suffix_Some.
  cbn [mbind result_bind]. assert (hash_digits ("sha256:" +:+ hex) = Ok hex) as -> by by apply hash_digits_spec. done.
Qed.

Lemma snapshot_id_digits r i : snapshot_id r = Ok i -> exists hex, hash_digits i = Ok hex /\ i = "sha256:" +:+ hex /\ lower_hex64 hex = true.
Proof.
  unfold snapshot_id. intros (bytes & _ & [= <-])%bind_ok. exists (sha256_hex bytes). split; [|split; [done|apply sha256_digits]].
  apply hash_digits_spec. split; [done|apply sha256_digits].
Qed.

Lemma canonical_bytes r bytes : canonical_record r = Ok bytes -> check_record r = Ok () /\ bytes = record_json (normalise r).
Proof. unfold canonical_record. rewrite bind_unit. by intros [Hc [= <-]]. Qed.

(** The file of a record reads as its canonical form. *)
Lemma read_written dir f r bytes hex :
  canonical_record r = Ok bytes -> str_len bytes <= MAX_RECORD -> hash bytes = "sha256:" +:+ hex ->
  encode_uri_component (snap_game r) = dir -> f !! record_name hex = Some (Private bytes) ->
  record_file dir f (record_name hex) ("sha256:" +:+ hex) = Ok (normalise r).
Proof.
  intros Hb Hlen Hhash Hg Hf. pose proof (normalise_canonical _ _ Hb) as Hn. apply canonical_bytes in Hb as [Hc ->].
  unfold record_file, read_json, regular. rewrite Hf. cbn [mbind result_bind]. apply Z.leb_le in Hlen. rewrite Hlen.
  cbn [demand mbind result_bind]. rewrite record_round by done. cbn [mbind result_bind]. unfold snapshot_id. rewrite Hn. cbn [mbind result_bind].
  rewrite Hhash, !bool_decide_true by done. done.
Qed.

Lemma publish_cases f name bytes h f' (u : unit) :
  publish f name bytes h = (f', Ok u) -> f' = <[name := Private bytes]> f.
Proof. unfold publish. destruct (f !! name) as [[]|]; try done; destruct (match h with Some _ => _ | None => _ end); try done; destruct (fault name) as [[]|]; try done; by intros [= <-]. Qed.

Lemma publish_other f name bytes h n : n <> name -> (publish f name bytes h).1 !! n = f !! n.
Proof.
  intros Hne. unfold publish. destruct (f !! name) as [[]|]; try done; destruct (match h with Some _ => _ | None => _ end); try done;
    destruct (fault name) as [[]|]; cbn [fst]; rewrite ?lookup_insert_ne by done; done.
Qed.

(** The folder of a game, found or empty. *)
Definition folder_of (st : storage) (person game : string) : folder :=
  default ∅ (people st !! encode_uri_component person ≫= (fun games => games !! encode_uri_component game)).

Lemma key_value game k : key game = Ok k -> k = encode_uri_component game.
Proof. unfold key. rewrite bind_unit. by intros [_ [= <-]]. Qed.

Lemma game_folder_spec st person game o :
  game_folder st person game = Ok o ->
  key game = Ok (encode_uri_component game) /\ account_root person = Ok () /\
  o = people st !! encode_uri_component person ≫= (fun games => games !! encode_uri_component game).
Proof.
  unfold game_folder, person_folder. intros (k & Hk & (games & ([] & Ha & [= <-])%bind_ok & [= <-])%bind_ok)%bind_ok.
  pose proof (key_value _ _ Hk) as ->. done.
Qed.

Lemma open_game_spec st person game k f :
  open_game st person game = Ok (k, f) ->
  key game = Ok (encode_uri_component game) /\ account_root person = Ok () /\ k = encode_uri_component game /\ f = folder_of st person game.
Proof.
  unfold open_game, person_folder. intros (k' & Hk & (games & ([] & Ha & [= <-])%bind_ok & [= <- <-])%bind_ok)%bind_ok.
  pose proof (key_value _ _ Hk) as ->. done.
Qed.

Lemma read_folder_of st person game l :
  read_records st person game = Ok l ->
  exists pairs, records_with_ids_at (encode_uri_component game) (folder_of st person game) = Ok pairs /\ pairs.*2 = l.
Proof.
  unfold read_records. intros (o & (_ & _ & ->)%game_folder_spec & Hl)%bind_ok. unfold folder_of.
  destruct (_ ≫= _) as [f|]; cbn [default]; [|injection Hl as <-; by exists []].
  unfold records_at in Hl. apply bind_ok in Hl as (pairs & Hp & [= <-]). by exists pairs.
Qed.

Lemma people_set person k f st : people (set_game person k f st) !! encode_uri_component person = Some (<[k := f]> (default ∅ (people st !! encode_uri_component person))).
Proof. unfold set_game. cbn [people]. by rewrite lookup_insert_eq. Qed.

Lemma folder_set st person game f : folder_of (set_game person (encode_uri_component game) f st) person game = f.
Proof. unfold folder_of. rewrite people_set. cbn. by rewrite lookup_insert_eq. Qed.

Lemma set_game_other st person game f p g :
  encode_uri_component p <> encode_uri_component person \/ encode_uri_component g <> encode_uri_component game ->
  folder_of (set_game person (encode_uri_component game) f st) p g = folder_of st p g.
Proof.
  intros Hne. unfold folder_of. destruct (decide (encode_uri_component p = encode_uri_component person)) as [Heq|Hp].
  - rewrite Heq, people_set. cbn. destruct Hne as [?|Hg]; [done|]. rewrite lookup_insert_ne by done.
    by destruct (people st !! encode_uri_component person).
  - unfold set_game. cbn [people]. by rewrite lookup_insert_ne by done.
Qed.

(** The records of a game after one was written: the new one instead of what had
    its name. *)
Definition adds (i : string) (r : SnapshotRecord) (l l' : list SnapshotRecord) : Prop :=
  forall x, x ∈ l' <-> x = r \/ (x ∈ l /\ snapshot_id x <> Ok i).

Definition ids_of (l : list SnapshotRecord) (ids : list string) : Prop := Forall2 (fun x i => snapshot_id x = Ok i) l ids.

Lemma pairs_ids dir f pairs : records_with_ids_at dir f = Ok pairs -> ids_of pairs.*2 pairs.*1 /\ NoDup pairs.*1.
Proof.
  intros (_ & Hin & Hnd)%read_folder. split; [|done]. unfold ids_of. apply Forall2_fmap.
  assert (Hall : forall x, x ∈ pairs -> snapshot_id x.2 = Ok x.1).
  { intros [i r] (n & _ & (? & _)%named_record_id)%Hin. done. }
  clear Hin Hnd. induction pairs as [|x pairs IH]; constructor; [apply Hall; by left|]. apply IH. intros; apply Hall. by right.
Qed.

(** What was read has names, all different. *)
Lemma read_ids st person game l : read_records st person game = Ok l -> exists ids, ids_of l ids /\ NoDup ids.
Proof. intros (pairs & Hp & <-)%read_folder_of. exists pairs.*1. by eapply pairs_ids. Qed.

Lemma pair_in_pairs dir f pairs x i : records_with_ids_at dir f = Ok pairs -> x ∈ pairs.*2 -> snapshot_id x = Ok i -> (i, x) ∈ pairs.
Proof.
  intros (_ & Hin & _)%read_folder ([j y] & -> & Hx)%list_elem_of_fmap Hi. cbn [snd] in *.
  pose proof (proj1 (Hin j y) Hx) as (n & _ & (Hj & _)%named_record_id). congruence.
Qed.

Lemma written_cases st person r st' i :
  write_record st person r = (st', Ok i) ->
  exists bytes hex f, canonical_record r = Ok bytes /\ str_len bytes <= MAX_RECORD /\ i = hash bytes /\ hash bytes = "sha256:" +:+ hex /\
    f = <[record_name hex := Private bytes]> (folder_of st person (snap_game r)) /\
    key (snap_game r) = Ok (encode_uri_component (snap_game r)) /\ account_root person = Ok () /\
    st' = set_game person (encode_uri_component (snap_game r)) f st.
Proof.
  unfold write_record.
  destruct (_ ← _; _) as [[bytes [k f]]|e] eqn:Hpre; [|done].
  apply bind_ok in Hpre as (b & Hb & ([] & Hlen%demand_ok%Z.leb_le & ([k' f'] & Ho & [= -> -> ->])%bind_ok)%bind_ok).
  apply open_game_spec in Ho as (Hk & Ha & -> & ->). destruct (hash_digits (hash bytes)) as [hex|] eqn:Hh; [|done].
  pose proof (proj1 (hash_digits_spec _ _) Hh) as [Heq _].
  destruct (publish _ _ _ _) as [f' w] eqn:Hp. destruct w as [[]|e]; [|done]. apply publish_cases in Hp. intros [= <- <-].
  exists bytes, hex, f'. done.
Qed.

Lemma write_id st person r st' i : write_record st person r = (st', Ok i) -> snapshot_id r = Ok i.
Proof. intros (bytes & hex & f & Hb & _ & -> & _)%written_cases. unfold snapshot_id. by rewrite Hb. Qed.

Lemma write_objects st person r : objects (write_record st person r).1 = objects st.
Proof.
  unfold write_record. destruct (_ ← _; _) as [[bytes [k f]]|e]; [|done]. destruct (hash_digits _); [|done]. by destruct (publish _ _ _ _).
Qed.

Lemma write_read st person r st' i l :
  write_record st person r = (st', Ok i) -> read_records st person (snap_game r) = Ok l ->
  exists l', read_records st' person (snap_game r) = Ok l' /\ adds i (normalise r) l l'.
Proof.
  intros (bytes & hex & f & Hb & Hlen & -> & Hhash & -> & Hk & Ha & ->)%written_cases (pairs & Hp & <-)%read_folder_of.
  pose proof (snapshot_id_digits r (hash bytes)) as Hd. unfold snapshot_id in Hd. rewrite Hb in Hd.
  destruct (Hd eq_refl) as (hex' & _ & Hhex' & Hlow). rewrite Hhash in Hhex'. apply (inj (String.append _)) in Hhex' as <-. clear Hd.
  set (dir := encode_uri_component (snap_game r)) in *. set (f := folder_of st person (snap_game r)) in *.
  pose proof (read_folder _ _ _ Hp) as (Htot & Hin & _).
  assert (Hnew : named_record dir (<[record_name hex := Private bytes]> f) (record_name hex) = Ok (Some (hash bytes, normalise r))).
  { rewrite named_record_hex by done. rewrite (read_written _ _ r bytes hex) by (done || by rewrite lookup_insert_eq). by rewrite Hhash. }
  assert (Hold : forall n, n <> record_name hex -> named_record dir (<[record_name hex := Private bytes]> f) n = named_record dir f n).
  { intros n Hn. apply named_record_local. by rewrite lookup_insert_ne. }
  assert (exists pairs', records_with_ids_at dir (<[record_name hex := Private bytes]> f) = Ok pairs') as [pairs' Hp'].
  { apply read_folder_total. intros n Hn. destruct (decide (n = record_name hex)) as [->|Hne]; [by eexists|].
    rewrite Hold by done. apply Htot. by rewrite lookup_insert_ne in Hn. }
  exists pairs'.*2. split.
  { unfold read_records, game_folder, person_folder. rewrite Hk, Ha. cbn [mbind result_bind]. rewrite people_set. cbn. rewrite lookup_insert_eq.
    unfold records_at. fold dir. by rewrite Hp'. }
  pose proof (read_folder _ _ _ Hp') as (_ & Hin' & _). intros x. split.
  - intros ([j y] & -> & Hx)%list_elem_of_fmap. cbn [snd]. pose proof (proj1 (Hin' j y) Hx) as (n & Hn & Hr).
    destruct (decide (n = record_name hex)) as [->|Hne]; [left; congruence|]. right. rewrite Hold in Hr by done.
    rewrite lookup_insert_ne in Hn by done. split; [apply list_elem_of_fmap; exists (j, y); split; [done|]; apply Hin; by exists n|].
    apply named_record_id in Hr as (Hy & _ & h & -> & ->). rewrite Hy. rewrite Hhash. intros [= Heq].
    apply (inj (String.append _)) in Heq as ->. by destruct Hne.
  - intros [->|[([j y] & -> & Hx)%list_elem_of_fmap Hne]].
    + apply list_elem_of_fmap. exists (hash bytes, normalise r). split; [done|]. apply Hin'. exists (record_name hex).
      by rewrite lookup_insert_eq.
    + cbn [snd] in *. apply list_elem_of_fmap. exists (j, y). split; [done|]. apply Hin'. apply Hin in Hx as (n & Hn & Hr).
      pose proof (named_record_id _ _ _ _ _ Hr) as (Hy & _ & h & -> & ->).
      assert (h +:+ ".json" <> record_name hex).
      { unfold record_name. intros Heq. apply Hne. rewrite Hy, Hhash. f_equal. f_equal. apply (inj to_text).
        apply (f_equal to_text) in Heq. rewrite !to_text_app in Heq. by apply app_inv_tail in Heq. }
      exists (h +:+ ".json"). rewrite Hold, lookup_insert_ne by done. done.
Qed.

(** ** Heads *)

Lemma in_all_parents l i : i ∈ all_parents l <-> exists x, x ∈ l /\ i ∈ parents x.
Proof. unfold all_parents. rewrite elem_of_list_to_set. apply elem_of_concat_map. Qed.

Lemma head_ids_value l ids :
  ids_of l ids -> head_ids l = Ok (sort_on id (keep (fun i => negb (bool_decide (i ∈ all_parents l))) ids)).
Proof. intros Hi%try_map_intro. unfold head_ids. by rewrite Hi. Qed.

Lemma head_ids_ids l hs : head_ids l = Ok hs -> exists ids, ids_of l ids.
Proof.
  unfold head_ids. intros (ids & Hi & _)%bind_ok. exists ids. pose proof (try_map_cases snapshot_id l) as Hall. by rewrite Hi in Hall.
Qed.

Definition is_head (l : list SnapshotRecord) (i : string) : Prop :=
  (exists x, x ∈ l /\ snapshot_id x = Ok i) /\ forall y, y ∈ l -> i ∉ parents y.

Lemma head_ids_spec l hs i : head_ids l = Ok hs -> i ∈ hs <-> is_head l i.
Proof.
  intros Hh. destruct (head_ids_ids _ _ Hh) as [ids Hids]. rewrite (head_ids_value _ _ Hids) in Hh. injection Hh as <-.
  rewrite sort_on_perm, elem_of_keep, negb_true_iff, bool_decide_eq_false, in_all_parents. unfold is_head. split.
  - intros [Hi Hn]. split; [|intros y Hy Hp; apply Hn; by exists y]. apply list_elem_of_lookup in Hi as [k Hk].
    destruct (Forall2_lookup_r _ _ _ _ _ Hids Hk) as (x & Hx & Hi). exists x. split; [by eapply list_elem_of_lookup_2|done].
  - intros [(x & Hx & Hi) Hn]. split; [|by intros (y & Hy & Hp); eapply Hn]. apply list_elem_of_lookup in Hx as [k Hk].
    destruct (Forall2_lookup_l _ _ _ _ _ Hids Hk) as (j & Hj & Hi'). assert (i = j) as -> by congruence. by eapply list_elem_of_lookup_2.
Qed.

Lemma head_ids_NoDup l hs ids : head_ids l = Ok hs -> ids_of l ids -> NoDup ids -> NoDup hs.
Proof.
  intros Hh Hids Hnd. rewrite (head_ids_value _ _ Hids) in Hh. injection Hh as <-. rewrite sort_on_perm.
  clear Hids. induction Hnd as [|x ids Hx Hnd IH]; [constructor|]. cbn [keep]. destruct (negb _); [|done].
  apply NoDup_cons. split; [|done]. by intros [? _]%elem_of_keep.
Qed.

(** No record has or names [i]. *)
Definition fresh (l : list SnapshotRecord) (i : string) : Prop := forall x, x ∈ l -> snapshot_id x <> Ok i /\ i ∉ parents x.

(** A record whose parents are the heads becomes the head. *)
Lemma only_head st person r st' i l hs :
  write_record st person r = (st', Ok i) -> read_records st person (snap_game r) = Ok l -> head_ids l = Ok hs ->
  (forall h, h ∈ parents r <-> h ∈ hs) -> fresh l i ->
  exists l', read_records st' person (snap_game r) = Ok l' /\ adds i (normalise r) l l' /\ head_ids l' = Ok [i].
Proof.
  intros Hw Hl Hh Hps Hf. destruct (write_read _ _ _ _ _ _ Hw Hl) as (l' & Hl' & Hadd). exists l'. split; [done|]. split; [done|].
  destruct (read_ids _ _ _ _ Hl') as (ids & Hids & Hnd). pose proof (head_ids_value _ _ Hids) as Hv. rewrite Hv. f_equal.
  set (hs' := sort_on id _) in *. assert (Hone : hs' ≡ₚ [i]); [|by apply Permutation_singleton_r in Hone].
  apply NoDup_Permutation; [by eapply head_ids_NoDup|apply NoDup_singleton|]. intros j. rewrite (head_ids_spec _ _ j Hv), list_elem_of_singleton.
  pose proof (normalise_id _ _ (write_id _ _ _ _ _ Hw)) as Hni. split.
  - intros [(x & [->|[Hx Hne]]%Hadd & Hj) Hno]; [congruence|]. exfalso.
    apply (Hno (normalise r)); [apply Hadd; by left|]. apply normal_parents, Hps, (head_ids_spec _ _ j Hh). split; [by exists x|].
    intros y Hy. apply Hno, Hadd. right. split; [done|]. by apply Hf.
  - intros ->. split; [exists (normalise r); split; [apply Hadd; by left|done]|]. intros y [->|[Hy _]]%Hadd; [|by apply Hf].
    rewrite normal_parents, Hps, (head_ids_spec _ _ i Hh). intros [(x & Hx & Hi) _]. by destruct (Hf x Hx).
Qed.

(** ** Joining heads *)

Definition head_records (l : list SnapshotRecord) (hs : list string) (x : SnapshotRecord) : Prop :=
  x ∈ l /\ exists i, i ∈ hs /\ snapshot_id x = Ok i.

Lemma records_of_spec l ids hs :
  ids_of l ids -> exists rs, records_of hs l = Ok rs /\ forall x, x ∈ rs <-> head_records l hs x.
Proof. clear fault.
  unfold records_of. induction 1 as [|x i l ids Hi _ (rs & Hrs & Hin)]; cbn [try_keep].
  { exists []. split; [done|]. intros x. split; [by intros ?%elem_of_nil|by intros [?%elem_of_nil _]]. }
  assert (known_id x = Ok i) as -> by (unfold known_id; by rewrite Hi). cbn [mbind result_bind]. rewrite Hrs. cbn [mbind result_bind].
  eexists. split; [done|]. intros y. case_bool_decide as Hhs.
  - rewrite elem_of_cons, Hin. unfold head_records. rewrite elem_of_cons. split; [|naive_solver].
    intros [->|[Hy He]]; [split; [by left|by exists i]|split; [by right|done]].
  - rewrite Hin. unfold head_records. rewrite elem_of_cons. split; [naive_solver|]. intros [[->|Hy] (j & Hj & He)]; [congruence|].
    split; [done|by exists j].
Qed.

Lemma head_records_iff l hs h : head_ids l = Ok hs -> h ∈ hs <-> exists x, head_records l hs x /\ snapshot_id x = Ok h.
Proof.
  intros Hh. split.
  - intros Hin. pose proof (proj1 (head_ids_spec _ _ h Hh) Hin) as [(x & Hx & Hi) _]. exists x. split; [|done]. split; [done|]. by exists h.
  - intros (x & (Hx & i & Hi & He) & He'). congruence.
Qed.

Lemma join_parents heads ordered base ls j h :
  join_of heads ordered base ls j -> h ∈ parents j <-> exists x, x ∈ heads /\ snapshot_id x = Ok h.
Proof.
  intros Hj. destruct (named_all _ _ (join_ids _ _ _ _ _ Hj)) as [_ Hids]. rewrite (join_value _ _ _ _ _ Hj). cbn [parents].
  rewrite sort_on_perm. split.
  - intros Hh. apply list_elem_of_lookup in Hh as [k Hk]. destruct (Forall2_lookup_r _ _ _ _ _ Hids Hk) as (x & Hx & Hi).
    exists x. split; [by eapply list_elem_of_lookup_2|done].
  - intros (x & Hx & Hi). apply list_elem_of_lookup in Hx as [k Hk]. destruct (Forall2_lookup_l _ _ _ _ _ Hids Hk) as (i & Hi' & Hx).
    assert (i = h) as <- by congruence. by eapply list_elem_of_lookup_2.
Qed.

Lemma read_game st person game l x : read_records st person game = Ok l -> x ∈ l -> snap_game x = game.
Proof.
  intros (pairs & Hp & <-)%read_folder_of ([i y] & -> & Hx)%list_elem_of_fmap. apply read_folder in Hp as (_ & Hin & _).
  apply Hin in Hx as (n & _ & (_ & Hg & _)%named_record_id). by apply encode_uri_inj.
Qed.

Lemma all_complete_spec complete l b :
  all_complete complete l = Ok b -> if b then (forall x, x ∈ l -> complete x = Ok true) else exists x, x ∈ l /\ complete x = Ok false.
Proof.
  induction l as [|x l IH]; cbn [all_complete]; [intros [= <-]; by intros x ?%elem_of_nil|]. intros (c & Hc & Hl)%bind_ok. destruct c.
  - specialize (IH Hl). destruct b; [intros y [->|Hy]%elem_of_cons; auto|]. destruct IH as (y & Hy & He). exists y. split; [by right|done].
  - injection Hl as <-. exists x. split; [by left|done].
Qed.

(** What a record that joins the heads holds. *)
Record joins (l : list SnapshotRecord) (hs : list string) (j : SnapshotRecord) : Prop := {
  joins_parents : forall h, h ∈ parents j <-> h ∈ hs;
  joins_progress : forall x, head_records l hs x -> progress x = progress j;
  joins_shots : forall k h, has_shot k h j <-> exists x, head_records l hs x /\ has_shot k h x;
}.

Lemma heads_join st person game l hs rs j :
  read_records st person game = Ok l -> head_ids l = Ok hs -> records_of hs l = Ok rs -> automatic_join rs = Ok (Some j) ->
  joins l hs j /\ snap_game j = game.
Proof.
  intros Hl Hh Hrs Hj. destruct (read_ids _ _ _ _ Hl) as (ids & Hids & _). destruct (records_of_spec l ids hs Hids) as (rs' & Hrs' & Hin).
  assert (rs' = rs) as -> by congruence. pose proof (automatic_join_cases rs) as Hc. rewrite Hj in Hc.
  destruct Hc as (ordered & base & ls & Hof). split; [split|].
  - intros h. rewrite (join_parents _ _ _ _ _ h Hof), (head_records_iff l hs h Hh). by setoid_rewrite Hin.
  - intros x Hx%Hin. by eapply join_progress.
  - intros k h. rewrite (join_has_shot _ _ _ _ _ k h Hof). by setoid_rewrite Hin.
  - rewrite (join_value _ _ _ _ _ Hof). cbn [snap_game]. apply join_of_base, Hin in Hof as [Hb _]. by eapply read_game.
Qed.

(** One head, or none: nothing is done. *)
Lemma reconcile_one st person game l hs :
  read_records st person game = Ok l -> head_ids l = Ok hs -> (length hs <= 1)%nat -> reconcile st person game = (st, Ok NotChecked).
Proof.
  intros Hl Hh Hlen. unfold reconcile, history_decision. rewrite Hl. cbn [mbind result_bind]. rewrite Hh. cbn [mbind result_bind].
  by rewrite bool_decide_true.
Qed.

(** C20: Reconciling the heads of a game. With one head nothing is done; a split is
    two heads whose progress differs. Where a join is written, it holds the progress
    of every head and the screenshots of all, it is then the only head, no record is
    lost, and reconciling again changes nothing; before that, every head's content
    is there. The name of the join is taken to be new, as names are hashes. *)
Theorem reconcile_spec st person game l hs st' m :
  read_records st person game = Ok l -> head_ids l = Ok hs -> reconcile st person game = (st', Ok m) ->
  (forall rs j i, records_of hs l = Ok rs -> automatic_join rs = Ok (Some j) -> snapshot_id j = Ok i -> fresh l i) ->
  match m with
  | Split => st' = st /\ exists x y, head_records l hs x /\ head_records l hs y /\ progress x <> progress y
  | NotChecked =>
      (st' = st /\ ((length hs <= 1)%nat \/ exists x, head_records l hs x /\ record_complete st x = Ok false)) \/
      exists i j l', joins l hs j /\ (forall x, head_records l hs x -> record_complete st x = Ok true) /\
        read_records st' person game = Ok l' /\ adds i (normalise j) l l' /\ head_ids l' = Ok [i] /\
        reconcile st' person game = (st', Ok NotChecked)
  | _ => False
  end.
Proof.
  intros Hl Hh. unfold reconcile at 1. rewrite Hl. cbn [mbind result_bind]. unfold history_decision. rewrite Hh. cbn [mbind result_bind].
  case_bool_decide as Hlen; [intros [= <- <-] _; left; split; [done|by left]|].
  destruct (read_ids _ _ _ _ Hl) as (ids & Hids & _). destruct (records_of_spec l ids hs Hids) as (rs & Hrs & Hin).
  rewrite Hrs. cbn [mbind result_bind]. destruct (automatic_join rs) as [[j|]|e] eqn:Hj; cbn [mbind result_bind]; [| |done].
  2: { intros [= <- <-] _. split; [done|]. pose proof (automatic_join_cases rs) as Hc. rewrite Hj in Hc.
       destruct Hc as [->|(x & y & Hx%Hin & Hy%Hin & Hne)]; [|by exists x, y]. exfalso. destruct hs as [|h hs]; [by destruct Hlen; simpl; lia|].
       pose proof (proj1 (head_records_iff _ _ h Hh) ltac:(by left)) as (x & Hx%Hin & _). by apply elem_of_nil in Hx. }
  destruct (all_complete _ rs) as [[]|e] eqn:Hcomp; [| |done]; apply all_complete_spec in Hcomp.
  2: { intros [= <- <-] _. left. split; [done|]. right. destruct Hcomp as (x & Hx%Hin & He). by exists x. }
  destruct (write_record st person j) as [st2 w] eqn:Hw. destruct w as [i|e]; [|done]. intros [= <- <-] Hfresh. right.
  destruct (heads_join _ _ _ _ _ _ _ Hl Hh Hrs Hj) as [Hjoin Hgame]. rewrite <- Hgame in Hl.
  destruct (only_head _ _ _ _ _ _ hs Hw Hl Hh) as (l' & Hl' & Hadd & Hone); [apply Hjoin|eapply Hfresh; try done; by eapply write_id|].
  rewrite Hgame in Hl'. exists i, j, l'. split; [done|]. split; [intros x Hx%Hin; by apply Hcomp|]. do 3 (split; [done|]). eapply reconcile_one; [done|done|].
  simpl. lia.
Qed.

(** ** Choosing *)

Lemma has_id_spec i r : has_id i r = true <-> snapshot_id r = Ok i.
Proof.
  unfold has_id. destruct (snapshot_id r) as [v|]; [|done]. rewrite bool_decide_eq_true. split; [by intros ->|by intros [= ->]].
Qed.

Lemma find_record_Some i l r : find_record i l = Some r -> r ∈ l /\ snapshot_id r = Ok i.
Proof.
  unfold find_record. intros Hh. assert (Hin : r ∈ keep (has_id i) l) by (destruct (keep _ _); [done|injection Hh as ->; by left]).
  apply elem_of_keep in Hin as [Hin Hi]. split; [done|by apply has_id_spec].
Qed.

(** What a record that continues from [r] holds. *)
Record continues (l : list SnapshotRecord) (hs : list string) (r : SnapshotRecord) (dev at_ : string) (p : SnapshotRecord) : Prop := {
  continues_parents : parents p = hs;
  continues_progress : progress p = progress r;
  continues_shots : forall k h, has_shot k h p <-> has_shot k h r \/ exists x, head_records l hs x /\ has_shot k h x;
  continues_rest : p = continue hs dev at_ (with_locations (snap_locations p) r);
}.

Lemma picked_spec st l ids hs i dev at_ p :
  ids_of l ids -> picked st l hs i dev at_ = Ok p ->
  exists r, r ∈ l /\ snapshot_id r = Ok i /\ record_complete st r = Ok true /\ continues l hs r dev at_ p.
Proof. clear fault.
  intros Hids. unfold picked. intros (r & Hr & (c & Hc & Hp)%bind_ok)%bind_ok. destruct (find_record i l) as [r'|] eqn:Hf; [|done].
  injection Hr as ->. apply find_record_Some in Hf as [Hr Hi]. destruct c; [|done].
  destruct (records_of_spec l ids hs Hids) as (sides & Hs & Hin). rewrite Hs in Hp. cbn [mbind result_bind] in Hp.
  apply bind_ok in Hp as (u & Hu & [= <-]). pose proof (union_cases r sides) as Hcases. rewrite Hu in Hcases.
  destruct Hcases as (Hprog & Hshots & Hrest). exists r. do 3 (split; [done|]). split; [done|done| |].
  - intros k h. transitivity (has_shot k h u); [done|]. rewrite Hshots. setoid_rewrite elem_of_cons. setoid_rewrite Hin. naive_solver.
  - rewrite Hrest at 1. done.
Qed.

(** What choosing and restoring leave behind. *)
Definition continued (st : storage) (person game : string) (l : list SnapshotRecord) (hs : list string) (i dev at_ : string)
    (st' : storage) (n : string) : Prop :=
  exists r p l', r ∈ l /\ snapshot_id r = Ok i /\ record_complete st r = Ok true /\ continues l hs r dev at_ p /\
    read_records st' person game = Ok l' /\ adds n (normalise p) l l' /\ head_ids l' = Ok [n] /\
    reconcile st' person game = (st', Ok NotChecked).

Lemma pick_spec st person game l hs i dev at_ st' n :
  read_records st person game = Ok l -> head_ids l = Ok hs -> pick st person l hs i dev at_ = (st', Ok n) ->
  (forall p, picked st l hs i dev at_ = Ok p -> fresh l n) -> continued st person game l hs i dev at_ st' n.
Proof.
  intros Hl Hh. unfold pick. destruct (picked _ _ _ _ _ _) as [p|] eqn:Hp; [|done]. intros Hw Hfresh.
  destruct (read_ids _ _ _ _ Hl) as (ids & Hids & _). destruct (picked_spec _ _ _ _ _ _ _ _ Hids Hp) as (r & Hr & Hi & Hc & Hcont).
  assert (Hgame : snap_game p = game).
  { rewrite (continues_rest _ _ _ _ _ _ Hcont). change (snap_game r = game). by eapply read_game. }
  rewrite <- Hgame in Hl. destruct (only_head _ _ _ _ _ _ hs Hw Hl Hh) as (l' & Hl' & Hadd & Hone).
  { by rewrite (continues_parents _ _ _ _ _ _ Hcont). }
  { by eapply Hfresh. }
  rewrite Hgame in Hl'. exists r, p, l'. do 7 (split; [done|]). eapply reconcile_one; [done|done|]. simpl. lia.
Qed.

(** Choosing a side of a split. The side is a head and its content is there;
    the record that is written has its progress, the screenshots of all sides and all
    heads as parents, and it is the only head afterwards: the split is over, and no
    record is lost. *)
Theorem choose_spec st person game l hs i dev at_ st' n :
  read_records st person game = Ok l -> head_ids l = Ok hs -> choose st person game i dev at_ = (st', Ok n) ->
  (forall p, picked st l hs i dev at_ = Ok p -> fresh l n) ->
  (2 <= length hs)%nat /\ i ∈ hs /\ continued st person game l hs i dev at_ st' n.
Proof.
  intros Hl Hh. unfold choose. rewrite Hl. cbn [mbind result_bind]. rewrite Hh. cbn [mbind result_bind].
  destruct (negb _ && _) eqn:Hd; [|done]. cbn [demand mbind result_bind].
  apply andb_prop in Hd as [Hlen%negb_true_iff%bool_decide_eq_false Hi%bool_decide_eq_true]. intros Hp Hfresh.
  split; [lia|]. split; [done|]. by eapply pick_spec.
Qed.

(** Restoring an older snapshot goes on from it by a new record: it has its
    progress and its screenshots and those of the heads, it is the only head
    afterwards, and the history is kept. *)
Theorem restore_spec st person game l hs i dev at_ st' n :
  read_records st person game = Ok l -> head_ids l = Ok hs -> restore st person game i dev at_ = (st', Ok n) ->
  (forall p, picked st l hs i dev at_ = Ok p -> fresh l n) ->
  continued st person game l hs i dev at_ st' n.
Proof.
  intros Hl Hh. unfold restore. rewrite Hl. cbn [mbind result_bind]. rewrite Hh. cbn [mbind result_bind]. by apply pick_spec.
Qed.

(** ** Ancestry *)

(** What is still to be expanded. *)
Definition weight {V} (f : V -> nat) (m : gmap string V) (seen : gset string) : nat :=
  sum_list_with (fun x => if bool_decide (x.1 ∈ seen) then 0%nat else f x.2) (map_to_list m).

Lemma weight_empty {V} (f : V -> nat) m : weight f m ∅ = sum_list_with (fun x => f x.2) (map_to_list m).
Proof. unfold weight. induction (map_to_list m) as [|x l IH]; [done|]. simpl. by rewrite IH. Qed.

Lemma weight_less {V} (f : V -> nat) m seen i : (weight f m ({[i]} ∪ seen) <= weight f m seen)%nat.
Proof. clear LAWS fault SVC.
  unfold weight. induction (map_to_list m) as [|x l IH]; [done|]. simpl. repeat case_bool_decide; try lia. set_solver.
Qed.

Lemma weight_expand {V} (f : V -> nat) m seen i v :
  i ∉ seen -> m !! i = Some v -> (weight f m ({[i]} ∪ seen) + f v <= weight f m seen)%nat.
Proof. clear LAWS fault SVC.
  intros Hi Hv. assert (Hin : (i, v) ∈ map_to_list m) by by apply elem_of_map_to_list. clear Hv. unfold weight.
  induction (map_to_list m) as [|x l IH]; [by apply elem_of_nil in Hin|]. simpl. apply elem_of_cons in Hin as [<-|Hin].
  - cbn [fst snd]. rewrite bool_decide_true by set_solver. rewrite bool_decide_false by done.
    clear IH. induction l as [|y l IH]; simpl; [lia|].
    repeat case_bool_decide; try lia; set_solver.
  - specialize (IH Hin). repeat case_bool_decide; try lia; set_solver.
Qed.

Definition parent_of (records : gmap string SnapshotRecord) (x p : string) : Prop :=
  exists r, records !! x = Some r /\ p ∈ parents r.

Lemma tc_last {A} (R : A -> A -> Prop) x z : tc R x z -> exists y, rtc R x y /\ R y z.
Proof.
  induction 1 as [x z Hxz|x y z Hxy _ (w & Hw & Hz)]; [by exists x|]. exists w. split; [by eapply rtc_l|done].
Qed.

Section search.
Context (records : gmap string SnapshotRecord) (candidate start : string).

Notation step := (parent_of records).

(** Everything seen was looked at, and leads to what is seen or pending. *)
Record searching (seen : gset string) (pending : list string) : Prop := {
  searching_from : forall i, i ∈ pending -> rtc step start i;
  searching_start : start ∈ seen \/ start ∈ pending;
  searching_no : forall i, i ∈ seen -> ~ step i candidate;
  searching_next : forall i p, i ∈ seen -> step i p -> p ∈ seen \/ p ∈ pending;
}.

Lemma searching_skip seen i pending : searching seen (i :: pending) -> i ∈ seen -> searching seen pending.
Proof.
  intros [Hf Hs Hn Hx] Hi. split; [intros; apply Hf; by right| |done|].
  - destruct Hs as [|[->|]%elem_of_cons]; auto.
  - intros j p Hj Hp. destruct (Hx j p Hj Hp) as [|[->|]%elem_of_cons]; auto.
Qed.

Lemma searching_expand seen i pending ps :
  searching seen (i :: pending) -> ~ step i candidate -> (forall p, p ∈ ps <-> step i p) ->
  searching ({[i]} ∪ seen) (ps ++ pending).
Proof. clear LAWS fault SVC.
  intros [Hf Hs Hn Hx] Hno Hps. split.
  - intros j [Hj%Hps|Hj]%elem_of_app; [|apply Hf; by right]. eapply rtc_r; [apply Hf; by left|done].
  - destruct Hs as [|[->|]%elem_of_cons]; set_solver.
  - intros j [->%elem_of_singleton|Hj]%elem_of_union; auto.
  - intros j p [->%elem_of_singleton|Hj]%elem_of_union Hp.
    + right. apply elem_of_app. left. by apply Hps.
    + destruct (Hx j p Hj Hp) as [|[->|]%elem_of_cons]; set_solver.
Qed.

Lemma searching_end seen : searching seen [] -> ~ tc step start candidate.
Proof.
  intros [_ Hs Hn Hx] (x & Hr & Hc)%tc_last.
  assert (Hin : x ∈ seen); [|by eapply Hn].
  destruct Hs as [Hs|?%elem_of_nil]; [|done]. clear Hc. revert Hs. induction Hr as [|x y z Hxy _ IH]; intros Hs; [done|].
  apply IH. by destruct (Hx x y Hs Hxy) as [|?%elem_of_nil].
Qed.

Lemma search_spec fuel seen pending :
  searching seen pending -> (length pending + weight (fun r => length (parents r)) records seen <= fuel)%nat ->
  search fuel records candidate seen pending = true <-> tc step start candidate.
Proof.
  revert seen pending. induction fuel as [|fuel IH]; intros seen [|i pending] Hs Hfuel; cbn [search].
  1, 3: split; [done|by intros ?%(searching_end _ Hs)].
  { simpl in Hfuel. lia. }
  simpl in Hfuel. case_bool_decide as Hi; [apply IH; [by eapply searching_skip|lia]|].
  destruct (records !! i) as [r|] eqn:Hr.
  - rewrite orb_true_iff, bool_decide_eq_true. destruct (decide (candidate ∈ parents r)) as [Hc|Hc].
    { split; [|by left]. intros _. eapply tc_rtc_l; [apply Hs; by left|]. apply tc_once. by exists r. }
    rewrite IH.
    + split; [by intros [?|?]|by right].
    + apply searching_expand; [done| |].
      * intros (r' & Hr' & Hc'). by simplify_eq.
      * intros p. rewrite elem_of_reverse. split; [by exists r|]. intros (r' & Hr' & Hp). by simplify_eq.
    + rewrite length_app, length_reverse. pose proof (weight_expand (fun r => length (parents r)) records seen i r Hi Hr). simpl in *. lia.
  - apply IH.
    + apply (searching_expand seen i pending []); [done| |].
      * intros (r' & Hr' & _). by simplify_eq.
      * intros p. split; [by intros ?%elem_of_nil|]. intros (r' & Hr' & _). by simplify_eq.
    + pose proof (weight_less (fun r => length (parents r)) records seen i). lia.
Qed.
End search.

(** The search ends and decides whether a chain of parents leads from one name to
    the other. *)
Lemma ancestor_correct records candidate descendant :
  ancestor candidate descendant records = true <-> tc (parent_of records) descendant candidate.
Proof. clear LAWS SVC.
  unfold ancestor. apply search_spec.
  - split; [|right; by left|set_solver|set_solver]. intros i ->%list_elem_of_singleton. done.
  - rewrite weight_empty. unfold edges. simpl. lia.
Qed.

(** ** Where a launch goes on *)

Lemma try_keep_spec {A} (f : A -> outcome bool) l rs :
  try_keep f l = Ok rs -> (forall x, x ∈ rs <-> x ∈ l /\ f x = Ok true) /\ forall x, x ∈ l -> exists b, f x = Ok b.
Proof.
  revert rs. induction l as [|x l IH]; intros rs; cbn [try_keep].
  { intros [= <-]. split; [|by intros x ?%elem_of_nil]. intros x. split; [by intros ?%elem_of_nil|by intros [?%elem_of_nil _]]. }
  intros (b & Hb & (rs' & Hrs & [= <-])%bind_ok)%bind_ok. destruct (IH _ Hrs) as [Hin Hall]. split.
  - intros y. destruct b; rewrite !elem_of_cons, Hin; naive_solver congruence.
  - intros y [->|Hy]%elem_of_cons; [by exists b|auto].
Qed.

Lemma index_spec l ids m :
  ids_of l ids -> NoDup ids -> index_records l = Ok m -> forall i r, m !! i = Some r <-> r ∈ l /\ snapshot_id r = Ok i.
Proof. clear fault.
  intros Hids Hnd. unfold index_records.
  assert (try_map (fun r => i ← known_id r; Ok (i, r)) l = Ok (zip ids l)) as ->.
  { apply try_map_intro. clear Hnd. induction Hids as [|x i l ids Hx _ IH]; [constructor|]. cbn [zip_with]. constructor; [|done].
    unfold known_id. by rewrite Hx. }
  cbn [mbind result_bind]. intros [= <-] i r.
  assert (Hgen : forall acc : gmap string SnapshotRecord, foldl (fun m x => <[x.1 := x.2]> m) acc (zip ids l) !! i = Some r <->
    (i, r) ∈ zip ids l \/ (i ∉ ids /\ acc !! i = Some r)).
  { induction Hids as [|x j l ids Hx _ IH]; intros acc; cbn [zip_with foldl].
    - split; [intros ?; right; split; [by intros ?%elem_of_nil|done]|]. by intros [?%elem_of_nil|[_ ?]].
    - apply NoDup_cons in Hnd as [Hj Hnd]. rewrite IH, elem_of_cons by done. cbn [fst snd]. rewrite not_elem_of_cons.
      destruct (decide (i = j)) as [->|Hne]; [rewrite lookup_insert_eq|rewrite lookup_insert_ne by done; naive_solver].
split; [intros [|[_ [= ->]]]; auto|]. intros [[[= ->]|?]|[[? _] _]]; [right; done|by left|done]. }
  rewrite Hgen, lookup_empty. split.
  - intros [Hin|[_ ?]]; [|done]. apply list_elem_of_lookup in Hin as [k Hk]. apply lookup_zip_Some in Hk as [Hi Hr].
    split; [by eapply list_elem_of_lookup_2|]. destruct (Forall2_lookup_l _ _ _ _ _ Hids Hr) as (i' & Hi' & Hx). congruence.
  - intros [Hr Hi]. left. apply list_elem_of_lookup in Hr as [k Hk]. destruct (Forall2_lookup_l _ _ _ _ _ Hids Hk) as (i' & Hi' & Hx).
    assert (i' = i) as -> by congruence. apply list_elem_of_lookup. exists k. apply lookup_zip_Some. done.
Qed.

(** Content that is not as its record says is an error of the data or the disk. *)
Definition plain (e : failure) : Prop := match e with Error (SaveInvalid _) | Error (SaveStorage _) => True | _ => False end.

Lemma hash_digits_plain h e : hash_digits h = Err e -> plain e.
Proof. unfold hash_digits. destruct (strip_prefix _ _) as [d|]; [|by intros [= <-]]. destruct (lower_hex64 d); [done|by intros [= <-]]. Qed.

Lemma bind_err {A B} (x : outcome A) (f : A -> outcome B) e :
  x ≫= f = Err e -> x = Err e \/ exists a, x = Ok a /\ f a = Err e.
Proof. destruct x as [a|e']; cbn; intros Hx; [right; by exists a|left; congruence]. Qed.

Lemma verified_object_err st h e : verified_object st h = Err e -> e = Error SaveMissing \/ plain e.
Proof.
  unfold verified_object, object_path.
  intros [[?%hash_digits_plain|(? & _ & Ho)]%bind_err|([g n] & _ & [Hr|(? & _ & [?%hash_digits_plain|(? & _ & [Hd|(? & _ & ?)]%bind_err)]%bind_err)]%bind_err)]%bind_err; auto.
  - destruct (objects st); [done|]. injection Ho as <-. by left.
  - unfold regular in Hr. destruct (g !! n) as [[]|]; try done; injection Hr as <-; first [by left|by right].
  - destruct (bool_decide _); [done|]. injection Hd as <-. by right.
  - done.
Qed.

Lemma files_complete_plain st l e : files_complete st l = Err e -> plain e.
Proof.
  induction l as [|f l IH]; cbn [files_complete]; [done|]. destruct (verified_object st (sha256 f)) as [c|x] eqn:Hv.
  { destruct (str_len c =? file_bytes f); [done|]. by intros [= <-]. }
  intros Hx. apply verified_object_err in Hv as [->|Hp]; [done|]. destruct x as [[]|]; try done; by injection Hx as <-.
Qed.

(** *** The newest snapshots of a device *)

Section newest.
Context (m : gmap string SnapshotRecord) (Hacyclic : forall x, ~ tc (parent_of m) x x).

Lemma elem_of_newest l i : i ∈ newest m l <-> i ∈ l /\ forall o, o ∈ l -> ~ tc (parent_of m) o i.
Proof.
  unfold newest. rewrite elem_of_keep, negb_true_iff, <- not_true_iff_false, existsb_spec. split; intros [Hi Hno]; (split; [done|]).
  - intros o Ho Ht. apply Hno. exists o. split; [done|]. rewrite (proj2 (ancestor_correct _ _ _) Ht), bool_decide_false by (intros ->; by eapply Hacyclic). done.
  - intros (o & Ho & [_ Ht%ancestor_correct]%andb_prop). by eapply Hno.
Qed.

Lemma keep_fewer {A} (f g : A -> bool) l x :
  (forall y, f y = true -> g y = true) -> x ∈ l -> f x = false -> g x = true -> (length (keep f l) < length (keep g l))%nat.
Proof.
  intros Hfg. assert (Hle : forall l, (length (keep f l) <= length (keep g l))%nat).
  { clear l. induction l as [|y l IH]; [done|]. cbn [keep]. specialize (Hfg y). destruct (f y), (g y); simpl; try lia; by specialize (Hfg eq_refl). }
  induction l as [|y l IH]; [by intros ?%elem_of_nil|]. intros [->|Hx]%elem_of_cons Hf Hg; cbn [keep].
  - rewrite Hf, Hg. simpl. specialize (Hle l). lia.
  - specialize (IH Hx Hf Hg). specialize (Hfg y). destruct (f y), (g y); simpl; try lia; by specialize (Hfg eq_refl).
Qed.

(** Every one leads to a newest one. *)
Lemma to_newest l i : i ∈ l -> exists n, n ∈ newest m l /\ (n = i \/ tc (parent_of m) n i).
Proof.
  remember (length (keep (fun o => ancestor i o m) l)) as k eqn:Hk. revert i Hk. induction k as [k IH] using lt_wf_ind. intros i -> Hi.
  destruct (decide (i ∈ newest m l)) as [|Hno]; [exists i; split; [done|by left]|].
  assert (exists o, o ∈ l /\ tc (parent_of m) o i) as (o & Ho & Ht).
  { destruct (existsb (fun o => ancestor i o m) l) eqn:He; [apply existsb_spec in He as (o & Ho & Ht%ancestor_correct); by exists o|].
    destruct Hno. apply elem_of_newest. split; [done|]. intros o Ho Ht%ancestor_correct. apply not_true_iff_false in He. apply He, existsb_spec. by exists o. }
  destruct (IH (length (keep (fun x => ancestor o x m) l))) with (i := o) as (n & Hn & Hd); [|done|done|].
  { apply keep_fewer with o; [|done| |by apply ancestor_correct].
    - intros y Hy%ancestor_correct. apply ancestor_correct. by etrans.
    - apply not_true_iff_false. by intros ?%ancestor_correct%Hacyclic. }
  exists n. split; [done|]. right. destruct Hd as [->|Hd]; [done|by etrans].
Qed.
End newest.

(** None of these heads has its progress here. *)
Definition none_complete (st : storage) (l : list SnapshotRecord) (hs : list string) : Prop :=
  forall i r, i ∈ hs -> r ∈ l -> snapshot_id r = Ok i -> progress_complete st r = Ok false.

(** The first of the heads, in the order of their names, whose progress is here. *)
Definition first_complete (st : storage) (l : list SnapshotRecord) (hs : list string) (i : string) : Prop :=
  exists before after r, hs = before ++ i :: after /\ none_complete st l before /\
    r ∈ l /\ snapshot_id r = Ok i /\ progress_complete st r = Ok true.

Definition unique_ids (l : list SnapshotRecord) : Prop :=
  forall i r r', r ∈ l -> r' ∈ l -> snapshot_id r = Ok i -> snapshot_id r' = Ok i -> r = r'.

Lemma find_record_known i l r : r ∈ l -> snapshot_id r = Ok i -> exists r', find_record i l = Some r'.
Proof.
  intros Hr Hi. unfold find_record. assert (Hin : r ∈ keep (has_id i) l) by (apply elem_of_keep; split; [done|by apply has_id_spec]).
  destruct (keep _ _) as [|x xs]; [by apply elem_of_nil in Hin|by exists x].
Qed.

Lemma complete_head_spec st l hs o :
  unique_ids l -> complete_head st l hs = Ok o ->
  match o with Some i => first_complete st l hs i | None => none_complete st l hs end.
Proof.
  intros Hu. induction hs as [|i hs IH]; cbn [complete_head].
  { intros [= <-]. by intros i r ?%elem_of_nil. }
  assert (Hnext : complete_head st l hs = Ok o -> none_complete st l [i] ->
    match o with Some j => first_complete st l (i :: hs) j | None => none_complete st l (i :: hs) end).
  { intros Ho%IH Hi. destruct o as [j|].
    - destruct Ho as (before & after & r & -> & Hb & Hr). exists (i :: before), after, r. split; [done|]. split; [|done].
      intros k x [->|Hk]%elem_of_cons; [apply Hi; by left|by apply Hb].
    - intros k x [->|Hk]%elem_of_cons; [apply Hi; by left|by apply Ho]. }
  destruct (find_record i l) as [r|] eqn:Hf.
  - apply find_record_Some in Hf as [Hr Hi]. intros (c & Hc & Ho)%bind_ok. destruct c.
    + injection Ho as <-. exists [], hs, r. split; [done|]. split; [by intros k x ?%elem_of_nil|done].
    + apply Hnext; [done|]. intros k x ->%list_elem_of_singleton Hx Hxi. by rewrite (Hu _ _ _ Hx Hr Hxi Hi).
  - intros Ho. apply Hnext; [done|]. intros k x ->%list_elem_of_singleton Hx Hxi. destruct (find_record_known _ _ _ Hx Hxi) as [y Hy]. congruence.
Qed.

(** A complete snapshot of the device itself. *)
Definition own_complete (st : storage) (local : string) (l : list SnapshotRecord) (i : string) (r : SnapshotRecord) : Prop :=
  r ∈ l /\ snapshot_id r = Ok i /\ device r = local /\ record_complete st r = Ok true.

Definition indexed (l : list SnapshotRecord) (m : gmap string SnapshotRecord) : Prop :=
  forall i r, m !! i = Some r <-> r ∈ l /\ snapshot_id r = Ok i.

Lemma local_complete_spec st local x b :
  local_complete st local x = Ok b ->
  b = true <-> device x.2 = local /\ record_complete st x.2 = Ok true.
Proof. clear fault. unfold local_complete. case_bool_decide as Hd; [intros ->|intros [= <-]]; naive_solver. Qed.

Lemma mine_spec st local l m mine :
  indexed l m -> try_keep (local_complete st local) (btree_entries m) = Ok mine ->
  NoDup mine.*1 /\ forall i, i ∈ mine.*1 <-> exists r, own_complete st local l i r.
Proof.
  intros Hm Hk. pose proof (btree_entries_NoDup m) as Hnd. split.
  - clear Hm. revert mine Hk Hnd. induction (btree_entries m) as [|x es IH]; cbn [try_keep]; intros mine; [intros [= <-] _; constructor|].
    intros (b & Hb & (rs & Hrs & [= <-])%bind_ok)%bind_ok [Hx Hnd]%NoDup_cons. specialize (IH _ Hrs Hnd). destruct b; [|done].
    cbn [fmap list_fmap]. apply NoDup_cons. split; [|done]. intros (y & Hy & Hin)%list_elem_of_fmap. apply Hx.
    apply try_keep_spec in Hrs as [Hrs _]. apply Hrs in Hin as [Hin _]. apply list_elem_of_fmap. by exists y.
  - apply try_keep_spec in Hk as [Hin _]. intros i. unfold own_complete. split.
    + intros ([j r] & -> & [Hr%elem_of_btree_entries%Hm Hc]%Hin)%list_elem_of_fmap. exists r. pose proof (local_complete_spec _ _ _ _ Hc) as [Hl _].
      destruct (Hl eq_refl). destruct Hr. done.
    + intros (r & Hr & Hi & Hd & Hc). apply list_elem_of_fmap. exists (i, r). split; [done|]. apply Hin. split.
      * by apply elem_of_btree_entries, Hm.
      * unfold local_complete. cbn [snd]. by rewrite bool_decide_true.
Qed.

Lemma newest_NoDup m l : NoDup l -> NoDup (newest m l).
Proof.
  unfold newest. generalize (fun i => negb (existsb (fun other => negb (bool_decide (other = i)) && ancestor i other m) l)). intros f.
  induction 1 as [|x l' Hx Hnd IH]; [constructor|]. cbn [keep]. destruct (f x); [|done]. apply NoDup_cons. split; [|done]. by intros [? _]%elem_of_keep.
Qed.

Lemma index_total l ids : ids_of l ids -> NoDup ids -> exists m, index_records l = Ok m /\ indexed l m.
Proof.
  intros Hids Hnd. destruct (index_records l) as [m|e] eqn:Hm; [exists m; split; [done|exact (index_spec _ _ _ Hids Hnd Hm)]|]. exfalso.
  revert Hm. unfold index_records. assert (try_map (fun r => i ← known_id r; Ok (i, r)) l = Ok (zip ids l)) as ->; [|done].
  apply try_map_intro. clear Hnd. induction Hids as [|x i l ids Hx _ IH]; [constructor|]. cbn [zip_with]. constructor; [|done].
  unfold known_id. by rewrite Hx.
Qed.

Lemma complete_head_plain st l hs e : complete_head st l hs = Err e -> plain e.
Proof.
  induction hs as [|i hs IH]; cbn [complete_head]; [done|]. destruct (find_record i l) as [r|]; [|done].
  intros [?%files_complete_plain|([] & _ & ?)]%bind_err; auto. done.
Qed.

Lemma try_keep_err {A} (f : A -> outcome bool) l e : try_keep f l = Err e -> exists x, x ∈ l /\ f x = Err e.
Proof.
  induction l as [|x l IH]; cbn [try_keep]; [done|]. intros [Hx|(b & _ & [(y & Hy & He)%IH|(? & _ & ?)]%bind_err)]%bind_err; [|exists y|done].
  - exists x. split; [by left|done].
  - split; [by right|done].
Qed.

Lemma local_complete_plain st local x e : local_complete st local x = Err e -> plain e.
Proof. unfold local_complete. case_bool_decide; [apply files_complete_plain|done]. Qed.

(** The heads of a history agree on the progress. *)
Definition agreeing (l : list SnapshotRecord) (hs : list string) : Prop :=
  forall x y, head_records l hs x -> head_records l hs y -> progress x = progress y.

(** The heads of a history join, or two of them differ in their progress. *)
Lemma heads_split l ids hs rs :
  ids_of l ids -> (forall x, x ∈ rs <-> head_records l hs x) ->
  match (if bool_decide (1 < length rs)%nat then j ← automatic_join rs; Ok (is_none j) else Ok false) with
  | Ok true => exists x y, head_records l hs x /\ head_records l hs y /\ progress x <> progress y
  | Ok false => agreeing l hs
  | Err _ => False
  end.
Proof.
  intros Hids Hin. case_bool_decide as Hlen.
  2: { intros x y Hx%Hin Hy%Hin. destruct rs as [|z [|]]; simpl in Hlen; [by apply elem_of_nil in Hx| |lia].
       apply list_elem_of_singleton in Hx as ->, Hy as ->. done. }
  pose proof (automatic_join_cases rs) as Hc. destruct (automatic_join rs) as [[j|]|e]; cbn.
  { destruct Hc as (ordered & base & ls & Hj). intros x y Hx%Hin Hy%Hin.
    by rewrite (join_progress _ _ _ _ _ x Hj Hx), (join_progress _ _ _ _ _ y Hj Hy). }
  - destruct Hc as [->|(x & y & Hx%Hin & Hy%Hin & Hne)]; [simpl in Hlen; lia|by exists x, y].
  - destruct Hc as (r & [Hr _]%Hin & He). apply list_elem_of_lookup in Hr as [k Hk].
    destruct (Forall2_lookup_l _ _ _ _ _ Hids Hk) as (i & _ & Hi). congruence.
Qed.

(** C22: The base a launch continues from, exactly. When the heads differ in their
    progress it is a split. When they agree, it is the first head
    whose progress is here; only when no head has it, it is the snapshot of this device
    with all content that every other such snapshot leads to, none when the device has
    none, and a split when it has two newest ones. Ids are hashes, so that no record is
    its own ancestor. *)
Theorem launch_base_spec st person game local l hs m :
  read_records st person game = Ok l -> head_ids l = Ok hs -> indexed l m -> (forall x, ~ tc (parent_of m) x x) ->
  match launch_base st person game local with
  | Ok (Some i) =>
      agreeing l hs /\
      (first_complete st l hs i \/
       none_complete st l hs /\ exists r, own_complete st local l i r /\
         forall j x, own_complete st local l j x -> j = i \/ tc (parent_of m) i j)
  | Ok None => agreeing l hs /\ none_complete st l hs /\ forall i r, ~ own_complete st local l i r
  | Err (Error SaveSplit) =>
      ~ agreeing l hs \/
      agreeing l hs /\ none_complete st l hs /\
      exists i j x y, i <> j /\ own_complete st local l i x /\ own_complete st local l j y /\
        ~ tc (parent_of m) i j /\ ~ tc (parent_of m) j i
  | Err e => plain e
  end.
Proof.
  intros Hl Hh Hm Hacyclic. unfold launch_base. rewrite Hl. cbn [mbind result_bind]. rewrite Hh. cbn [mbind result_bind].
  destruct (read_ids _ _ _ _ Hl) as (ids & Hids & Hnd). destruct (records_of_spec l ids hs Hids) as (rs & -> & Hin).
  cbn [mbind result_bind]. pose proof (heads_split l ids hs rs Hids Hin) as Hs.
  destruct (if bool_decide _ then _ else _) as [[]|e]; cbn [mbind result_bind]; [left; destruct Hs as (x & y & Hx & Hy & Hne); intros Ha; by apply Hne, Ha| |done].
  assert (Hu : unique_ids l).
  { intros i r r' Hr Hr' Hi Hi'. assert (H1 : m !! i = Some r) by by apply Hm. assert (H2 : m !! i = Some r') by by apply Hm. congruence. }
  destruct (complete_head st l hs) as [[i|]|e] eqn:Hc; cbn [mbind result_bind].
  { apply complete_head_spec in Hc; [|done]. split; [done|by left]. }
  2: { apply complete_head_plain in Hc. by destruct e as [[]|]. }
  apply complete_head_spec in Hc; [|done].
  destruct (index_total l ids Hids Hnd) as (m' & -> & Hm'). cbn [mbind result_bind].
  assert (m' = m) as ->.
  { apply map_eq. intros i. apply option_eq. intros r. unfold indexed in *. by rewrite Hm, Hm'. }
  destruct (try_keep (local_complete st local) (btree_entries m)) as [mine|e] eqn:Hk; cbn [mbind result_bind].
  2: { apply try_keep_err in Hk as (x & _ & Hx%local_complete_plain). by destruct e as [[]|]. }
  destruct (mine_spec st local l m mine Hm Hk) as [Hmnd Hmine].
  pose proof (newest_NoDup m mine.*1 Hmnd) as Hnnd. pose proof (elem_of_newest m Hacyclic mine.*1) as Hnew.
  assert (Hto : forall j x, own_complete st local l j x -> exists n, n ∈ newest m mine.*1 /\ (n = j \/ tc (parent_of m) n j)).
  { intros j x Hx. apply to_newest; [done|]. apply Hmine. by exists x. }
  destruct (newest m mine.*1) as [|i [|j rest]].
  - do 2 (split; [done|]). intros i r (n & ?%elem_of_nil & _)%Hto. done.
  - destruct (proj1 (Hnew i) ltac:(by left)) as [(r & Hr)%Hmine _]. split; [done|]. right.
    split; [done|]. exists r. split; [done|]. intros j x (n & ->%list_elem_of_singleton & Hd)%Hto. destruct Hd as [->|Hd]; [by left|by right].
  - right. do 2 (split; [done|]). destruct (proj1 (Hnew i) ltac:(by left)) as [Hi Hni]. destruct (proj1 (Hnew j) ltac:(by right; left)) as [Hj Hnj].
    pose proof Hi as (x & Hx)%Hmine. pose proof Hj as (y & Hy)%Hmine. exists i, j, x, y. split.
    { apply NoDup_cons in Hnnd as [Hn _]. intros ->. apply Hn. by left. }
    do 2 (split; [done|]). split; [by apply Hnj|by apply Hni].
Qed.

(** ** Distance from the heads *)

Section distance.
Context (known : gmap string (list string)) (hs : list string).

(** A chain of [n] parents leads from a head to [i]. *)
Inductive reach : Z -> string -> Prop :=
| reach_head i : i ∈ hs -> reach 0 i
| reach_parent n i ps p : reach n i -> known !! i = Some ps -> p ∈ ps -> reach (n + 1) p.

Lemma reach_nonneg n i : reach n i -> 0 <= n.
Proof. induction 1; lia. Qed.

(** All places found are real, and what is nearer is found or pending. *)
Record spreading (d : gmap string Z) (pending : list (string * Z)) : Prop := {
  spread_real : forall i n, d !! i = Some n \/ (i, n) ∈ pending -> reach n i;
  spread_heads : forall i, i ∈ hs -> (exists n, d !! i = Some n /\ n <= 0) \/ (i, 0) ∈ pending;
  spread_next : forall i n ps p, d !! i = Some n -> known !! i = Some ps -> p ∈ ps ->
    (exists k, d !! p = Some k /\ k <= n + 1) \/ (p, n + 1) ∈ pending;
}.

(** Pending places are in order, not nearer than what was found, and one level apart. *)
Definition levels (d : gmap string Z) (pending : list (string * Z)) : Prop :=
  exists k l l', pending = l ++ l' /\ (forall x, x ∈ l -> x.2 = k) /\ (forall x, x ∈ l' -> x.2 = k + 1) /\
    forall i n, d !! i = Some n -> n <= k.

Lemma levels_front d i n pending :
  levels d ((i, n) :: pending) ->
  (forall j k, d !! j = Some k -> k <= n) /\
  exists l l', pending = l ++ l' /\ (forall x, x ∈ l -> x.2 = n) /\ (forall x, x ∈ l' -> x.2 = n + 1).
Proof.
  intros (k & l & l' & Hp & Hl & Hl' & Hd). destruct l as [|x l]; cbn [app] in Hp.
  - assert (n = k + 1) as -> by (apply (Hl' (i, n)); rewrite <- Hp; by left). split; [intros j m Hj%Hd; lia|].
    destruct l' as [|y l']; [done|]. injection Hp as _ ->. exists l', []. split; [by rewrite app_nil_r|]. split; [|by intros ? ?%elem_of_nil].
    intros x Hx. apply Hl'. by right.
  - injection Hp as <- ->. assert (n = k) as -> by (apply (Hl (i, n)); by left). split; [done|]. exists l, l'. split; [done|].
    split; [|done]. intros x Hx. apply Hl. by right.
Qed.

Lemma spreading_skip d i n pending :
  spreading d ((i, n) :: pending) -> is_some_and (d !! i) (fun k => k <=? n) = true -> spreading d pending.
Proof.
  intros [Hr Hh Hn] Hi. destruct (d !! i) as [k|] eqn:Hk; [|done]. cbn in Hi. apply Z.leb_le in Hi. split.
  - intros j m [?|?]; apply Hr; [by left|right; by right].
  - intros j Hj. destruct (Hh j Hj) as [?|[[= -> <-]|?]%elem_of_cons]; [by left|left; by exists k|by right].
  - intros j m ps p Hj Hps Hp. destruct (Hn j m ps p Hj Hps Hp) as [?|[[= -> <-]|?]%elem_of_cons]; [by left|left; by exists k|by right].
Qed.

Lemma spreading_expand d i n pending ps :
  spreading d ((i, n) :: pending) -> (forall k, d !! i = Some k -> n <= k) -> default [] (known !! i) = ps ->
  spreading (<[i := n]> d) (pending ++ ((fun p => (p, n + 1)) <$> ps)).
Proof.
  intros [Hr Hh Hn] Hk Hps.
  assert (Hkeep : forall p m, (exists k, d !! p = Some k /\ k <= m) \/ (p, m) ∈ (i, n) :: pending ->
    (exists k, <[i := n]> d !! p = Some k /\ k <= m) \/ (p, m) ∈ pending ++ ((fun p => (p, n + 1)) <$> ps)).
  { intros p m [(k & Hp & Hle)|[[= -> ->]|Hp]%elem_of_cons].
    - left. destruct (decide (p = i)) as [->|Hne]; [exists n; rewrite lookup_insert_eq; specialize (Hk k Hp); split; [done|lia]|].
      exists k. by rewrite lookup_insert_ne.
    - left. exists n. by rewrite lookup_insert_eq.
    - right. apply elem_of_app. by left. }
  split.
  - intros j m [Hj|[Hj|(p & [= -> ->] & Hp)%list_elem_of_fmap]%elem_of_app].
    + destruct (decide (j = i)) as [->|Hne]; [rewrite lookup_insert_eq in Hj; injection Hj as <-; apply Hr; right; by left|].
      rewrite lookup_insert_ne in Hj by done. apply Hr. by left.
    + apply Hr. right. by right.
    + destruct (known !! i) as [qs|] eqn:Hq; cbn in Hps; subst ps; [|by apply elem_of_nil in Hp].
      eapply reach_parent; [apply Hr; right; by left|done|done].
  - intros j Hj. apply Hkeep. by apply Hh.
  - intros j m qs p Hj Hq Hp. destruct (decide (j = i)) as [->|Hne].
    + rewrite lookup_insert_eq in Hj. injection Hj as <-. right. apply elem_of_app. right. apply list_elem_of_fmap.
      exists p. split; [done|]. rewrite Hq in Hps. by subst ps.
    + rewrite lookup_insert_ne in Hj by done. apply Hkeep. by eapply Hn.
Qed.

Lemma spreading_end d : spreading d [] -> forall i n, reach n i -> exists k, d !! i = Some k /\ k <= n.
Proof.
  intros [_ Hh Hn] i n. induction 1 as [i Hi|n i ps p _ (k & Hk & Hle) Hps Hp].
  - by destruct (Hh i Hi) as [?|?%elem_of_nil].
  - destruct (Hn i k ps p Hk Hps Hp) as [(m & Hm & Hle')|?%elem_of_nil]; [|done]. exists m. split; [done|lia].
Qed.

Lemma dom_insert_weight (d : gmap string Z) i n :
  weight length known (dom (<[i := n]> d)) = weight length known ({[i]} ∪ dom d).
Proof. unfold weight. by rewrite dom_insert_L. Qed.

Lemma spread_spec fuel d pending :
  spreading d pending -> levels d pending -> (length pending + weight length known (dom d) <= fuel)%nat ->
  spreading (spread fuel known d pending) [].
Proof.
  revert d pending. induction fuel as [|fuel IH]; intros d [|[i n] pending] Hs Hl Hf; cbn [spread]; [done|simpl in Hf; lia|done|].
  simpl in Hf. destruct (levels_front _ _ _ _ Hl) as (Hd & l & l' & -> & Hll & Hll').
  destruct (is_some_and _ _) eqn:Hi.
  { apply IH; [by eapply spreading_skip| |lia]. exists n, l, l'. done. }
  assert (Hnone : d !! i = None).
  { destruct (d !! i) as [k|] eqn:Hk; [|done]. cbn in Hi. specialize (Hd i k Hk). lia. }
  change (match known !! i with Some ps => (fun p => (p, n + 1)) <$> ps | None => [] end)
    with (match known !! i with Some ps => (fun p => (p, n + 1)) <$> ps | None => (fun p => (p, n + 1)) <$> [] end).
  assert (match known !! i with Some ps => (fun p => (p, n + 1)) <$> ps | None => (fun p => (p, n + 1)) <$> [] end
    = (fun p => (p, n + 1)) <$> default [] (known !! i)) as -> by by destruct (known !! i).
  apply IH.
  - apply spreading_expand; [done| |done]. intros k Hk. congruence.
  - exists n, l, (l' ++ ((fun p => (p, n + 1)) <$> default [] (known !! i))). split; [by rewrite app_assoc|]. split; [done|]. split.
    + intros x [Hx|(p & -> & _)%list_elem_of_fmap]%elem_of_app; [by apply Hll'|done].
    + intros j k. destruct (decide (j = i)) as [->|Hne]; [rewrite lookup_insert_eq; intros [= <-]; lia|].
      rewrite lookup_insert_ne by done. apply Hd.
  - rewrite dom_insert_weight, !length_app, length_fmap. rewrite length_app in Hf.
    assert (Hni : i ∉ dom d) by by apply not_elem_of_dom. destruct (known !! i) as [ps|] eqn:Hps; cbn [default].
    + pose proof (weight_expand length known (dom d) i ps Hni Hps). unfold from_option, id. lia.
    + pose proof (weight_less length known (dom d) i). unfold from_option, id. simpl. lia.
Qed.

(** The distance of a record is the length of the shortest chain from a head. *)
Lemma distances_spec i :
  match distances known hs !! i with
  | Some n => reach n i /\ forall k, reach k i -> n <= k
  | None => forall k, ~ reach k i
  end.
Proof.
  assert (Hs : spreading (distances known hs) []).
  { unfold distances. apply spread_spec.
    - split.
      + intros j n [?|(h & [= -> ->] & Hh)%list_elem_of_fmap]; [done|by constructor].
      + intros j Hj. right. apply list_elem_of_fmap. by exists j.
      + done.
    - exists 0, ((fun i => (i, 0)) <$> hs), []. split; [by rewrite app_nil_r|]. split; [by intros x (h & -> & _)%list_elem_of_fmap|].
      split; [by intros x ?%elem_of_nil|done].
    - rewrite length_fmap, dom_empty_L, weight_empty. lia. }
  destruct (distances known hs !! i) as [n|] eqn:Hi.
  - split; [apply Hs; by left|]. intros k (m & Hm & Hle)%(spreading_end _ Hs). rewrite Hi in Hm. by injection Hm as <-.
  - intros k (m & Hm & _)%(spreading_end _ Hs). congruence.
Qed.
End distance.

(** ** What pruning may take *)

(** [y] is at most as far from the heads as [x]. *)
Definition no_farther (l : list SnapshotRecord) (known : gmap string (list string)) (hs : list string) (i : string) (y : SnapshotRecord) : Prop :=
  y ∈ l /\ exists j, snapshot_id y = Ok j /\ forall n, reach known hs n i -> n < USIZE_MAX -> exists k, k <= n /\ reach known hs k j.

(** The content of [x] may go: another device has said it holds it, it is not a head,
    not one of ten nearest, and not the other side of a merge. *)
Record expendable (l : list SnapshotRecord) (hs : list string) (known : gmap string (list string))
    (confirmations : gmap string (gset string)) (local i : string) : Prop := {
  expendable_head : i ∉ hs;
  expendable_elsewhere : exists devices d, confirmations !! i = Some devices /\ d ∈ devices /\ d <> local;
  expendable_side : forall m x, m ∈ l -> (1 < length (parents m))%nat -> i ∈ parents m -> x ∈ l -> snapshot_id x = Ok i ->
    progress x = progress m;
  expendable_far : exists near, length near = 10%nat /\ NoDup near /\ forall y, y ∈ near -> no_farther l known hs i y;
}.

Lemma same_id l ids x y i : ids_of l ids -> NoDup ids -> x ∈ l -> y ∈ l -> snapshot_id x = Ok i -> snapshot_id y = Ok i -> x = y.
Proof.
  intros Hids Hnd Hx Hy Hi Hj. apply list_elem_of_lookup in Hx as [a Ha], Hy as [b Hb].
  destruct (Forall2_lookup_l _ _ _ _ _ Hids Ha) as (i1 & H1 & E1). destruct (Forall2_lookup_l _ _ _ _ _ Hids Hb) as (i2 & H2 & E2).
  assert (i1 = i) as -> by congruence. assert (i2 = i) as -> by congruence.
  assert (a = b) as -> by (by eapply NoDup_lookup). congruence.
Qed.

Lemma place_nearer known hs x y :
  key_le (place_of (distances known hs)) x y ->
  forall n, reach known hs n y.1 -> n < USIZE_MAX -> exists k, k <= n /\ reach known hs k x.1.
Proof.
  intros Hle n Hn Hmax. pose proof (distances_spec known hs y.1) as Hy. pose proof (distances_spec known hs x.1) as Hx.
  unfold key_le, place_of in Hle. destruct (distances known hs !! y.1) as [m|]; [|by destruct (Hy n)].
  destruct Hy as [_ Hmin]. specialize (Hmin n Hn). destruct (distances known hs !! x.1) as [k|]; cbn in Hle.
  - exists k. split; [|by destruct Hx]. destruct Hle as [Hlt|[Heq _]]; cbn in *; lia.
  - exfalso. destruct Hle as [Hlt|[Heq _]]; cbn in *; lia.
Qed.

Lemma by_distance_spec d l ids rs :
  ids_of l ids -> by_distance d l = Ok rs -> rs ≡ₚ l /\ rs = (sort_on (place_of d) (zip ids l)).*2.
Proof.
  intros Hids. unfold by_distance.
  assert (try_map (fun r => i ← known_id r; Ok (i, r)) l = Ok (zip ids l)) as ->.
  { apply try_map_intro. induction Hids as [|x i l ids Hx _ IH]; [constructor|]. cbn [zip_with]. constructor; [|done].
    unfold known_id. by rewrite Hx. }
  cbn [mbind result_bind]. intros [= <-]. split; [|done]. rewrite sort_on_perm. rewrite snd_zip; [done|]. by rewrite (Forall2_length _ _ _ Hids).
Qed.

Lemma sorted_take {A} (R : A -> A -> Prop) l n x y : StronglySorted R l -> x ∈ take n l -> y ∈ drop n l -> R x y.
Proof.
  intros Hs. revert n. induction Hs as [|a l _ IH Ha]; intros [|n]; cbn [take drop]; try by intros ?%elem_of_nil.
  intros [->|Hx]%elem_of_cons Hy; [|by eapply IH]. rewrite Forall_forall in Ha. apply Ha.
  rewrite <- (take_drop n l). apply elem_of_app. by right.
Qed.

Lemma take_far known hs l ids rs i x :
  ids_of l ids -> NoDup ids -> by_distance (distances known hs) l = Ok rs -> x ∈ rs -> x ∉ take 10 rs -> snapshot_id x = Ok i ->
  exists near, length near = 10%nat /\ NoDup near /\ forall y, y ∈ near -> no_farther l known hs i y.
Proof.
  intros Hids Hnd Hb Hx Hno Hi. destruct (by_distance_spec _ _ _ _ Hids Hb) as [Hp Hrs].
  set (P := sort_on _ _) in Hrs. assert (Hsorted : StronglySorted (key_le (place_of (distances known hs))) P) by apply sort_on_sorted.
  assert (Hpair : forall j y, (j, y) ∈ P -> snapshot_id y = Ok j).
  { intros j y Hy. unfold P in Hy. rewrite sort_on_perm in Hy. apply list_elem_of_lookup in Hy as [k [Hj Hk]%lookup_zip_Some].
    destruct (Forall2_lookup_l _ _ _ _ _ Hids Hk) as (j' & Hj' & Hs). congruence. }
  assert (Hndl : NoDup l).
  { apply NoDup_alt. intros a b y Ha Hb'. destruct (Forall2_lookup_l _ _ _ _ _ Hids Ha) as (i1 & H1 & E1).
    destruct (Forall2_lookup_l _ _ _ _ _ Hids Hb') as (i2 & H2 & E2). assert (i1 = i2) as <- by congruence. by eapply NoDup_lookup. }
  assert (Hdrop : x ∈ drop 10 rs).
  { rewrite <- (take_drop 10 rs) in Hx. apply elem_of_app in Hx as [Hx|Hx]; [by destruct Hno|done]. }
  exists (take 10 rs). split; [|split].
  - apply length_take_le. apply list_elem_of_lookup in Hdrop as [k Hk]. rewrite lookup_drop in Hk. apply lookup_lt_Some in Hk. lia.
  - rewrite <- Hp, <- (take_drop 10 rs) in Hndl. by apply NoDup_app in Hndl as [? _].
  - intros y Hy. split; [rewrite <- Hp, <- (take_drop 10 rs); apply elem_of_app; by left|].
    rewrite Hrs, <- fmap_take in Hy. rewrite Hrs, <- fmap_drop in Hdrop.
    apply list_elem_of_fmap in Hy as ([j y'] & -> & Hy), Hdrop as ([i' x'] & Heq & Hdrop). cbn [snd] in *. subst x'.
    pose proof (sorted_take _ _ _ _ _ Hsorted Hy Hdrop) as Hle.
    assert (i' = i) as ->. { assert (Hin : (i', x) ∈ P) by (rewrite <- (take_drop 10 P); apply elem_of_app; by right). apply Hpair in Hin. congruence. }
    exists j. split; [apply Hpair; rewrite <- (take_drop 10 P); apply elem_of_app; by left|]. apply (place_nearer _ _ _ _ Hle).
Qed.

Lemma elem_of_concat {A} (x : A) l : x ∈ concat l <-> exists xs, x ∈ xs /\ xs ∈ l.
Proof.
  induction l as [|ys l IH]; cbn [concat]; [split; [by intros ?%elem_of_nil|by intros (? & _ & ?%elem_of_nil)]|].
  rewrite elem_of_app, IH. setoid_rewrite elem_of_cons. naive_solver.
Qed.

Lemma prunable_spec f l local gone ids hs known :
  ids_of l ids -> NoDup ids -> prunable f l local = Ok gone -> head_ids l = Ok hs -> known_parents l = Ok known ->
  exists confirmations, confirmations_of f = Ok confirmations /\
    forall x, x ∈ gone -> x ∈ l /\ exists i, snapshot_id x = Ok i /\ expendable l hs known confirmations local i.
Proof. clear fault.
  intros Hids Hnd Hg Hh Hk. unfold prunable in Hg. apply bind_ok in Hg as (confirmations & Hc & Hg). exists confirmations. split; [done|].
  rewrite Hh in Hg. cbn [mbind result_bind] in Hg. rewrite Hk in Hg. cbn [mbind result_bind] in Hg.
  apply bind_ok in Hg as (rs & Hb & (kept & Hkept & [Hin _]%try_keep_spec)%bind_ok).
  destruct (by_distance_spec _ _ _ _ Hids Hb) as [Hp _].
  unfold protected in Hkept. apply bind_ok in Hkept as (nearest & Hnear & [= <-]).
  pose proof (try_map_cases snapshot_id (take 10 rs)) as Hall. rewrite Hnear in Hall.
  intros x [Hx Hpr]%Hin. pose proof Hx as Hxl. rewrite Hp in Hxl. split; [done|]. unfold is_prunable in Hpr.
  apply bind_ok in Hpr as (i & Hi & [= [Hnot%negb_true_iff%bool_decide_eq_false Hconf]%andb_prop]). exists i. split; [done|].
  rewrite !elem_of_union, !elem_of_list_to_set in Hnot. split.
  - tauto.
  - unfold confirmed_by_other in Hconf. destruct (confirmations !! i) as [devices|]; [|done].
    apply existsb_spec in Hconf as (d & Hd%elem_of_elements & Hne%negb_true_iff%bool_decide_eq_false). by exists devices, d.
  - intros m y Hm Hlen Hpm Hy Hyi. destruct (decide (progress y = progress m)) as [|Hne]; [done|]. exfalso. apply Hnot. right.
    apply elem_of_concat_map. exists m. split; [apply elem_of_keep; split; [by rewrite Hp|by apply bool_decide_eq_true]|].
    unfold unpicked. apply elem_of_keep. split; [done|]. apply existsb_spec. exists y. split; [by rewrite Hp|].
    rewrite (proj2 (has_id_spec i y) Hyi). by rewrite bool_decide_false.
  - eapply take_far; try done. intros Ht. apply Hnot. left. right. apply list_elem_of_lookup in Ht as [k Hk'].
    destruct (Forall2_lookup_l _ _ _ _ _ Hall Hk') as (j & Hj & Hij). assert (j = i) as <- by congruence. by eapply list_elem_of_lookup_2.
Qed.

(** ** What pruning leaves *)

Lemma delete_other h st h' : h' <> h -> verified_object (delete_object h st).1 h' = verified_object st h'.
Proof.
  intros Hne. unfold delete_object. destruct (object_path st h) as [[f n]|e] eqn:Ho; cbn [mbind result_bind]; [|done].
  destruct (regular f n) as [c|[[]|]]; try done. unfold object_path in Ho. apply bind_ok in Ho as (hex & Hhex & Ho).
  assert (Hsame : verified_object (MkStorage (people st) (delete n <$> objects st)) h' = verified_object st h').
  { unfold verified_object, object_path. destruct (hash_digits h') as [hex'|] eqn:Hh'; cbn [mbind result_bind]; [|done].
    cbn [objects]. destruct (objects st) as [g|]; [|done]. injection Ho as -> <-. cbn [fmap option_fmap option_map mbind result_bind].
    unfold regular. rewrite lookup_delete_ne; [done|]. intros ->. apply Hne. apply hash_digits_spec in Hhex as [-> _], Hh' as [-> _]. done. }
  by destruct (fault n) as [[]|].
Qed.

Lemma delete_people h st : people (delete_object h st).1 = people st.
Proof. unfold delete_object. destruct (_ ← _; _) as [[n [c|[[]|]]]|e]; try done. by destruct (fault n) as [[]|]. Qed.

Lemma delete_all l st :
  people (delete_objects l st).1 = people st /\
  forall h, h ∉ l -> verified_object (delete_objects l st).1 h = verified_object st h.
Proof.
  revert st. induction l as [|h l IH]; intros st; cbn [delete_objects]; [done|].
  pose proof (delete_people h st) as Hp. pose proof (delete_other h st) as Ho. destruct (delete_object h st) as [st1 [u|e]]; cbn [fst] in *.
  - destruct (IH st1) as [IH1 IH2]. split; [congruence|]. intros h' [Hne Hl]%not_elem_of_cons. by rewrite IH2, Ho.
  - split; [done|]. intros h' [Hne _]%not_elem_of_cons. by apply Ho.
Qed.

Lemma encode_hex s : lower_hex64 s = true -> encode_uri_component s = s.
Proof.
  intros [_ Hall]%andb_prop. rewrite all_chars_text, forallb_spec in Hall. unfold encode_uri_component.
  rewrite <- (of_to_text s) at 2. f_equal. induction (to_text s) as [|a l IH]; [done|]. cbn [fmap list_fmap concat].
  rewrite IH by (intros; apply Hall; by right). specialize (Hall a ltac:(by left)). unfold encode_char, uri_unreserved, is_lower_hex in *.
  apply orb_prop in Hall as [Ha|Ha].
  - by rewrite Ha.
  - assert (between 97 (byte a) 122 = true) as Hb by (unfold between in *; lia). by rewrite Hb, !orb_true_r.
Qed.

Lemma hex_text s : lower_hex64 s = true -> to_str s = Some s.
Proof.
  intros [_ Hall]%andb_prop. rewrite all_chars_text, forallb_spec in Hall. unfold to_str. rewrite ascii_utf8; [done|].
  apply forallb_spec. intros a Ha. by apply lower_hex_ascii, Hall.
Qed.

(** A record that is read is among all records of its person. *)
Lemma read_all st owner g l histories :
  read_records st owner g = Ok l -> all_records st owner = Ok histories -> l = [] \/ l ∈ histories.
Proof.
  unfold read_records, all_records, all_records_with_ids. intros (o & (_ & Ha & ->)%game_folder_spec & Hl)%bind_ok.
  unfold person_folder. rewrite Ha. cbn [mbind result_bind]. destruct (people st !! encode_uri_component owner) as [games|]; cbn in Hl |- *.
  2: { injection Hl as <-. by left. }
  destruct (games !! encode_uri_component g) as [f|] eqn:Hf; [|injection Hl as <-; by left]. intros (pairs & Hm & [= <-])%bind_ok. right.
  pose proof (try_map_cases (fun x => records_with_ids_at x.1 x.2) (btree_entries games)) as Hall. rewrite Hm in Hall.
  apply elem_of_btree_entries, list_elem_of_lookup in Hf as [k Hk]. destruct (Forall2_lookup_l _ _ _ _ _ Hall Hk) as (p & Hp & He).
  cbn [fst snd] in He. unfold records_at in Hl. rewrite He in Hl. injection Hl as <-. unfold without_ids. apply list_elem_of_fmap.
  exists p. split; [done|]. by eapply list_elem_of_lookup_2.
Qed.

Lemma account_hex owner : account_root owner = Ok () -> lower_hex64 owner = true.
Proof. unfold account_root. by intros ?%demand_ok. Qed.

(** What a record of another game, or one that stays, holds is held. *)
Lemma held_in st person game gone owner g l x held_lists :
  try_map (held_by st person game gone) (btree_keys (people st)) = Ok held_lists ->
  read_records st owner g = Ok l -> x ∈ l ->
  (forall h, h ∈ hashes x -> h ∈ concat held_lists) \/
  (owner = person /\ snap_game x = game /\ exists i, snapshot_id x = Ok i /\ i ∈ gone).
Proof.
  intros Hm Hl Hx. assert (Ha : account_root owner = Ok ()).
  { unfold read_records in Hl. by apply bind_ok in Hl as (o & (_ & Ha & _)%game_folder_spec & _). }
  pose proof (account_hex _ Ha) as Hhex. pose proof (encode_hex _ Hhex) as Henc.
  assert (Hkey : owner ∈ btree_keys (people st)).
  { apply elem_of_btree_keys. unfold read_records in Hl. apply bind_ok in Hl as (o & (_ & _ & ->)%game_folder_spec & Hl).
    rewrite Henc in Hl. destruct (people st !! owner); [by eexists|]. cbn in Hl. injection Hl as <-. by apply elem_of_nil in Hx. }
  pose proof (try_map_cases (held_by st person game gone) (btree_keys (people st))) as Hall. rewrite Hm in Hall.
  apply list_elem_of_lookup in Hkey as [k Hk]. destruct (Forall2_lookup_l _ _ _ _ _ Hall Hk) as (hl & Hhl & Hh).
  unfold held_by in Hh. rewrite (hex_text _ Hhex) in Hh. cbn [mbind result_bind] in Hh.
  apply bind_ok in Hh as (histories & Hhist & (hs & Hhs & [= <-])%bind_ok).
  destruct (read_all _ _ _ _ _ Hl Hhist) as [->|Hin]; [by apply elem_of_nil in Hx|].
  assert (Hxc : x ∈ concat histories) by (apply elem_of_concat; by exists l).
  pose proof (try_map_cases (held person game gone owner) (concat histories)) as Hall'. rewrite Hhs in Hall'.
  apply list_elem_of_lookup in Hxc as [k' Hk']. destruct (Forall2_lookup_l _ _ _ _ _ Hall' Hk') as (xs & Hxs & Hheld).
  unfold held in Hheld. apply bind_ok in Hheld as (i & Hi & [= <-]).
  destruct (bool_decide (owner = person) && bool_decide (snap_game x = game)) eqn:Hb; cbn [andb] in *.
  - apply andb_prop in Hb as [->%bool_decide_eq_true ->%bool_decide_eq_true]. case_bool_decide as Hg; [right; by eauto|].
    left. intros h Hh. apply elem_of_concat. exists (concat hs). split; [|by eapply list_elem_of_lookup_2].
    apply elem_of_concat. exists (hashes x). split; [done|by eapply list_elem_of_lookup_2].
  - left. intros h Hh. apply elem_of_concat. exists (concat hs). split; [|by eapply list_elem_of_lookup_2].
    apply elem_of_concat. exists (hashes x). split; [done|by eapply list_elem_of_lookup_2].
Qed.

(** C21: Pruning, whether it succeeds or fails half way, changes no record, and takes
    no content that a record of anyone names, but a record of this person and game
    that another device has said it holds, that is no head, not among ten that are
    at most as far from the heads, and not the other side of a merge. *)
Theorem prune_keeps st person game local st' res owner g l x :
  prune st person game local = (st', res) -> read_records st owner g = Ok l -> x ∈ l ->
  people st' = people st /\
  ((forall f, f ∈ all_files x -> verified_object st' (sha256 f) = verified_object st (sha256 f)) \/
   owner = person /\ g = game /\
   exists i hs known confirmations, snapshot_id x = Ok i /\ head_ids l = Ok hs /\ known_parents l = Ok known /\
     confirmations_of (folder_of st person game) = Ok confirmations /\ expendable l hs known confirmations local i).
Proof.
  unfold prune. intros Hp Hl Hx. destruct (prune_candidates st person game local) as [[cs|]|e] eqn:Hc.
  2, 3: injection Hp as <- <-; split; [done|by left].
  destruct (delete_all cs st) as [Hpeople Hkeep]. destruct (delete_objects cs st) as [st1 d]. injection Hp as -> _. cbn [fst] in *. split; [done|].
  unfold prune_candidates in Hc. apply bind_ok in Hc as (rl & Hrl & Hc). case_bool_decide; [done|].
  apply bind_ok in Hc as (o & (_ & _ & ->)%game_folder_spec & (f & Hf & (gone & Hgone & (ids & Hids & (hl & Hhl & [= <-])%bind_ok)%bind_ok)%bind_ok)%bind_ok).
  destruct (held_in _ _ _ _ _ _ _ _ _ Hhl Hl Hx) as [Hheld|(-> & Hgame & i & Hi & Hin)].
  { left. intros file Hfile. apply Hkeep. rewrite elem_of_btree_elements, elem_of_difference, !elem_of_list_to_set. intros [_ Hno].
    apply Hno, Hheld. unfold hashes. apply list_elem_of_fmap. by exists file. }
  right. assert (g = game) as -> by (rewrite <- Hgame; symmetry; by eapply read_game). assert (rl = l) as -> by congruence.
  do 2 (split; [done|]). destruct (read_ids _ _ _ _ Hl) as (all & Hall & Hnd).
  assert (f = folder_of st person game) as ->.
  { unfold folder_of. destruct (_ ≫= _); [by injection Hf as ->|done]. }
  pose proof Hgone as Hgone'. unfold prunable in Hgone'. apply bind_ok in Hgone' as (cf & _ & (hs & Hhs & (known & Hknown & _)%bind_ok)%bind_ok).
  destruct (prunable_spec _ _ _ _ _ _ _ Hall Hnd Hgone Hhs Hknown) as (confirmations & Hcf & Hexp).
  rewrite elem_of_list_to_set in Hin. pose proof (try_map_cases snapshot_id gone) as Hg. rewrite Hids in Hg.
  apply list_elem_of_lookup in Hin as [k Hk]. destruct (Forall2_lookup_r _ _ _ _ _ Hg Hk) as (y & Hy & Hyi).
  apply list_elem_of_lookup_2 in Hy. destruct (Hexp y Hy) as (_ & j & Hj & He). assert (j = i) as -> by congruence. by exists i, hs, known, confirmations.
Qed.

(** ** Objects *)

(** Every object is what its name says. *)
Definition sound_objects (st : storage) : Prop :=
  forall f name content, objects st = Some f -> f !! name = Some (Private content) -> sha256_hex content = name.

Lemma publish_sound f name bytes h f' r n content :
  publish f name bytes (Some h) = (f', r) -> f' !! n = Some (Private content) ->
  f !! n = Some (Private content) \/ (n = name /\ content = bytes /\ exists hex, hash_digits h = Ok hex /\ sha256_hex bytes = hex).
Proof.
  unfold publish. intros Hp Hn.
  assert (Hsame : f' = f \/ (f' = <[name := Private bytes]> f /\ exists hex, hash_digits h = Ok hex /\ sha256_hex bytes = hex)).
  { destruct (f !! name) as [[]|]; try (injection Hp as <- _; by left);
      (destruct (_ ← _; _) as [[]|e] eqn:Hd; [|injection Hp as <- _; by left];
       apply bind_ok in Hd as (hex & Hhex & Hsha%demand_ok%bool_decide_eq_true);
       destruct (fault name) as [[]|]; injection Hp as <- _; eauto). }
  destruct Hsame as [->|[-> Hh]]; [by left|]. destruct (decide (n = name)) as [->|Hne].
  - rewrite lookup_insert_eq in Hn. injection Hn as <-. by right.
  - rewrite lookup_insert_ne in Hn by done. by left.
Qed.

Lemma delete_objects_sound l st : sound_objects st -> sound_objects (delete_objects l st).1.
Proof.
  revert st. induction l as [|h l IH]; intros st Hs; cbn [delete_objects]; [done|].
  assert (Hone : sound_objects (delete_object h st).1).
  { unfold delete_object. destruct (_ ← _; _) as [[n [c|[[]|]]]|e]; try done.
    assert (sound_objects (MkStorage (people st) (delete n <$> objects st))).
    { intros f name content Hf Hn. cbn [objects] in Hf. destruct (objects st) as [g|] eqn:Hg; [|done]. injection Hf as <-.
      apply lookup_delete_Some in Hn as [_ Hn]. by eapply Hs. }
    by destruct (fault n) as [[]|]. }
  destruct (delete_object h st) as [st1 [u|e]]; [by apply IH|done].
Qed.

(** The operations that change the state. *)
Inductive Change : Type :=
| DoReconcile (person game : string)
| DoChoose (person game i dev at_ : string)
| DoRestore (person game i dev at_ : string)
| DoPutRecord (person : string) (r : SnapshotRecord)
| DoPutObject (person h input : string)
| DoCapture (person : string) (l : list place) (r : SnapshotRecord)
| DoConfirm (person game i dev : string)
| DoRememberInUse (person game dev : string) (since : option Z)
| DoPrune (person game local : string).

Definition apply_change (c : Change) (st : storage) : storage :=
  match c with
  | DoReconcile person game => (reconcile st person game).1
  | DoChoose person game i dev at_ => (choose st person game i dev at_).1
  | DoRestore person game i dev at_ => (restore st person game i dev at_).1
  | DoPutRecord person r => (put_record st person r).1
  | DoPutObject person h input => (put_object st person h input).1
  | DoCapture person l r => (capture st person l r).1
  | DoConfirm person game i dev => (confirm st person game i dev).1
  | DoRememberInUse person game dev since => (remember_in_use st person game dev since).1
  | DoPrune person game local => (prune st person game local).1
  end.

Lemma pick_objects st person l hs i dev at_ : objects (pick st person l hs i dev at_).1 = objects st.
Proof. unfold pick. destruct (picked _ _ _ _ _ _); [apply write_objects|done]. Qed.

Lemma publish_in_objects st person k f name bytes : objects (publish_in st person k f name bytes).1 = objects st.
Proof. unfold publish_in. by destruct (publish _ _ _ _). Qed.

(** Only received, captured and pruned objects change what is stored of them. *)
Lemma change_objects c st :
  match c with DoPutObject _ _ _ | DoCapture _ _ _ | DoPrune _ _ _ => True | _ => objects (apply_change c st) = objects st end.
Proof.
  destruct c; cbn [apply_change]; try done.
  - unfold reconcile. destruct (_ ← _; _) as [[| |heads j]|e]; try done. destruct (all_complete _ _) as [[]|]; try done.
    pose proof (write_objects st person j) as Hw. by destruct (write_record st person j).
  - unfold choose. destruct (_ ← _; _) as [[l hs]|e]; [apply pick_objects|done].
  - unfold restore. destruct (_ ← _; _) as [[l hs]|e]; [apply pick_objects|done].
  - apply write_objects.
  - unfold confirm. destruct (_ ← _; _) as [[[k f] cs]|e]; [|done]. cbn [fst]. case_bool_decide; [done|apply publish_in_objects].
  - unfold remember_in_use. destruct (_ ← _; _) as [[k f]|e]; [|done]. destruct (read_or _ _); [apply publish_in_objects|done].
Qed.

Lemma put_object_cases st person h input st' r :
  put_object st person h input = (st', r) ->
  st' = st \/ exists name f' w, authorize_object st person h = Ok () /\ hash_digits h = Ok name /\
    publish (default ∅ (objects st)) name input (Some h) = (f', w) /\ st' = MkStorage (people st) (Some f') /\ r = w.
Proof.
  unfold put_object. destruct (_ ← _; _) as [name|e] eqn:Hpre; [|intros [= <- _]; by left].
  apply bind_unit in Hpre as [Ha Hh]. destruct (publish _ _ _ _) as [f' w] eqn:Hp. intros [= <- <-]. right. by exists name, f', w.
Qed.

(** A publication that checks the hash keeps the objects sound, whatever comes of it. *)
Lemma publish_objects_sound st name bytes h :
  hash_digits h = Ok name -> sound_objects st ->
  sound_objects (MkStorage (people st) (Some (publish (default ∅ (objects st)) name bytes (Some h)).1)).
Proof.
  intros Hh Hs f n content [= <-] Hn. destruct (publish _ _ _ _) as [f' w] eqn:Hpub. cbn [fst] in Hn.
  destruct (publish_sound _ _ _ _ _ _ _ _ Hpub Hn) as [Hold|(-> & -> & hex & Hhex & Hsha)]; [|congruence].
  destruct (objects st) as [g|] eqn:Hg; [by eapply Hs|]. cbn in Hold. by rewrite lookup_empty in Hold.
Qed.

Scheme live_mutual := Induction for live Sort Prop
with entries_mutual := Induction for live_entries Sort Prop.

(** What holds of the store when every file that is captured keeps it. *)
Section captured.
Context (M : storage -> Prop).
Context (M_file : forall st relative first second, M st -> M (capture_file st relative first second).1).

Lemma walk_keeps node st below : M st -> M (walk_live st below node).1.
Proof.
  revert st below. induction node as [|m| | |l IH|first second| |m|name node IH rest IHr] using live_mutual
    with (P0 := fun l => forall st below, M st -> M (walk_entries st below l).1);
    intros st below Hm; cbn [walk_live walk_entries]; try done; [by destruct below|by apply IH|by apply M_file|].
  specialize (IH st (Some (match below with None => name | Some p => p +:+ "/" +:+ name end)) Hm).
  destruct (walk_live st _ node) as [st1 [found|e]]; [|done]. specialize (IHr st1 below IH).
  by destruct (walk_entries st1 below rest) as [st2 more].
Qed.

Lemma entries_keep l st below : M st -> M (walk_entries st below l).1.
Proof.
  intros Hm. pose proof (walk_keeps (Dir l) st below Hm) as Hw. exact Hw.
Qed.

Lemma capture_places_keeps l st : M st -> M (capture_places st l).1.
Proof.
  revert st. induction l as [|p l IH]; intros st Hm; cbn [capture_places]; [done|]. destruct (place_linked p); [done|].
  pose proof (walk_keeps (place_tree p) st None Hm) as Hw. destruct (walk_live _ _ _) as [st1 [found|e]]; [|done].
  specialize (IH st1 Hw). by destruct (capture_places st1 l) as [st2 more].
Qed.

Lemma capture_keeps st person l r : M st -> M (capture st person l r).1.
Proof.
  intros Hm. pose proof (capture_places_keeps l st Hm) as Hc. unfold capture. by destruct (capture_places st l) as [st1 [found|e]].
Qed.
End captured.

Lemma publish_read_cases f name input h :
  (publish_read f name input h).1 = f \/ exists bytes, publish_read f name input h = publish f name bytes (Some h).
Proof. destruct input as [bytes|m]; cbn [publish_read]; [right; by exists bytes|left]. by destruct (f !! name) as [[]|]. Qed.

Lemma capture_file_sound st relative first second : sound_objects st -> sound_objects (capture_file st relative first second).1.
Proof.
  intros Hs. unfold capture_file. destruct first as [content|e]; [|done]. destruct (hash_digits (hash content)) as [name|e] eqn:Hh; [|done].
  pose proof (publish_read_cases (default ∅ (objects st)) name second (hash content)) as Hp.
  destruct (publish_read _ _ _ _) as [f w] eqn:Hpub. cbn [fst] in *. destruct Hp as [->|(bytes & Heq)].
  - intros f n c [= <-] Hn. destruct (objects st) as [g|] eqn:Hg; [by eapply Hs|]. cbn in Hn. by rewrite lookup_empty in Hn.
  - pose proof (publish_objects_sound st name bytes (hash content) Hh Hs) as Hsound. by rewrite <- Heq in Hsound.
Qed.

Lemma publish_result f name bytes h : (publish f name bytes h).1 = f \/ (publish f name bytes h).1 = <[name := Private bytes]> f.
Proof.
  unfold publish. destruct (f !! name) as [[]|]; try (by left); (destruct (match h with Some _ => _ | None => _ end); [|by left];
    destruct (fault name) as [[]|]; cbn [fst]; auto).
Qed.

(** *** What a capture stored *)

Definition present (h : string) (st : storage) : Prop :=
  exists name f content, hash_digits h = Ok name /\ objects st = Some f /\ f !! name = Some (Private content).

Lemma present_verified h st : sound_objects st -> present h st -> exists content, verified_object st h = Ok content.
Proof.
  intros Hs (name & f & content & Hh & Hf & Hn). exists content. unfold verified_object, object_path. rewrite Hh, Hf.
  cbn [mbind result_bind]. unfold regular. rewrite Hn. cbn [mbind result_bind]. rewrite (Hs f name content Hf Hn).
  by rewrite bool_decide_eq_true_2.
Qed.

Lemma capture_file_present h st relative first second : present h st -> present h (capture_file st relative first second).1.
Proof.
  intros (name & f & content & Hh & Hf & Hn). unfold capture_file. destruct first as [c|e]; [|by exists name, f, content].
  destruct (hash_digits (hash c)) as [other|e]; [|by exists name, f, content]. rewrite Hf. cbn [default]. unfold from_option, id.
  pose proof (publish_read_cases f other second (hash c)) as Hp. destruct (publish_read _ _ _ _) as [f' w]. cbn [fst] in *.
  assert (Hn' : exists content', f' !! name = Some (Private content')).
  { destruct Hp as [->|(bytes & Heq)]; [by exists content|]. pose proof (publish_result f other bytes (Some (hash c))) as Hr.
    rewrite <- Heq in Hr. cbn [fst] in Hr. destruct Hr as [-> | ->]; [by exists content|].
    destruct (decide (name = other)) as [->|Hne]; [exists bytes; by rewrite lookup_insert_eq|].
    exists content. by rewrite lookup_insert_ne. }
  destruct Hn' as [content' Hn']. by exists name, f', content'.
Qed.

Lemma capture_file_stores st relative first second st' l x :
  capture_file st relative first second = (st', Ok l) -> x ∈ l -> present (sha256 x) st'.
Proof.
  unfold capture_file. destruct first as [c|e]; [|done]. destruct (hash_digits (hash c)) as [name|e] eqn:Hh; [|done].
  destruct (publish_read _ _ _ _) as [f w] eqn:Hp. intros [= <- Hl]. apply bind_ok in Hl as (u & -> & (rel & _ & [= <-])%bind_ok).
  intros ->%list_elem_of_singleton. cbn [sha256]. exists name, f. unfold publish_read, publish in Hp.
  destruct second as [bytes|m]; [|by destruct (_ !! name) as [[]|] in Hp].
  exists bytes. split; [done|]. split; [done|].
  destruct (_ !! name) as [[]|] in Hp; try done;
    (destruct (_ ← hash_digits (hash c); _) as [v|e] in Hp; [|done]; destruct (fault name) as [[]|]; try done;
     injection Hp as <- _; by rewrite lookup_insert_eq).
Qed.

Lemma walk_stores node st below st' l x : walk_live st below node = (st', Ok l) -> x ∈ l -> present (sha256 x) st'.
Proof.
  revert st below st' l x. induction node as [|m| | |es IH|first second| |m|name node IH rest IHr] using live_mutual
    with (P0 := fun es => forall st below st' l x, walk_entries st below es = (st', Ok l) -> x ∈ l -> present (sha256 x) st');
    intros st below st' l x; cbn [walk_live walk_entries]; try done.
  - destruct below; [done|]. intros [= _ <-] ?%not_elem_of_nil. done.
  - by apply IH.
  - apply capture_file_stores.
  - intros [= _ <-] ?%not_elem_of_nil. done.
  - destruct (walk_live st _ node) as [st1 [found|e]] eqn:Hw; [|done].
    pose proof (entries_keep (present (sha256 x)) (capture_file_present (sha256 x)) rest st1 below) as Hkeep.
    destruct (walk_entries st1 below rest) as [st2 [more|e]] eqn:He; cbn [mbind result_bind]; [|done].
    intros [= <- <-] [Hx|Hx]%elem_of_app; [apply Hkeep; by eapply IH|by eapply IHr].
Qed.

Lemma capture_places_stores l st st' locations location x :
  capture_places st l = (st', Ok locations) -> location ∈ locations -> x ∈ files location -> present (sha256 x) st'.
Proof.
  revert st st' locations. induction l as [|p l IH]; intros st st' locations; cbn [capture_places].
  { by intros [= _ <-] ?%not_elem_of_nil. }
  destruct (place_linked p); [done|]. destruct (walk_live st None _) as [st1 [found|e]] eqn:Hw; [|done].
  pose proof (capture_places_keeps (present (sha256 x)) (capture_file_present (sha256 x)) l st1) as Hkeep.
  destruct (capture_places st1 l) as [st2 [more|e]] eqn:Hc; cbn [mbind result_bind]; [|done].
  intros [= <- <-] [->|Hin]%elem_of_cons Hx; [|by eapply IH]. cbn [files] in Hx. rewrite sort_on_perm in Hx.
  apply Hkeep. by eapply walk_stores.
Qed.

(** A capture that reports success has stored the content of all progress it names:
    objects first, so that a record is never ahead of its content. *)
Theorem capture_stores st person l r0 st' r location file :
  sound_objects st -> capture st person l r0 = (st', Ok r) ->
  location ∈ snap_locations r -> is_screenshot location = false -> file ∈ files location ->
  exists content, verified_object st' (sha256 file) = Ok content.
Proof.
  intros Hs Hc Hl Hk Hf. pose proof (capture_keeps sound_objects capture_file_sound st person l r0 Hs) as Hs'.
  unfold capture in Hc, Hs'. destruct (capture_places st l) as [st1 [locations|e]] eqn:Hp; [|done].
  injection Hc as <- Hc. cbn [fst] in Hs'. apply present_verified; [done|].
  apply bind_ok in Hc as (rs & _ & (ps & _ & (u & Hu & (b & _ & [= ->])%bind_ok)%bind_ok)%bind_ok).
  pose proof (union_cases (with_locations locations r0) ps) as Hcases. rewrite Hu in Hcases. destruct Hcases as (Hprog & _ & _).
  assert (Hin : (snap_key location, (snap_kind location, (file_path file, sha256 file))) ∈ progress r).
  { unfold progress. rewrite sort_on_perm. apply elem_of_concat_map. exists location. split; [by apply elem_of_keep; rewrite Hk|].
    unfold location_progress. apply list_elem_of_fmap. by exists file. }
  rewrite Hprog in Hin. unfold progress in Hin. rewrite sort_on_perm in Hin.
  apply elem_of_concat_map in Hin as (place' & [Hplace _]%elem_of_keep & Hin).
  unfold location_progress in Hin. apply list_elem_of_fmap in Hin as (x & [= _ _ _ ->] & Hx).
  cbn [snap_locations with_locations] in Hplace. by eapply capture_places_stores.
Qed.

Lemma change_sound c st : sound_objects st -> sound_objects (apply_change c st).
Proof.
  intros Hs. pose proof (change_objects c st) as Ho.
  destruct c; try (intros f name content Hf; rewrite Ho in Hf; by apply Hs); cbn [apply_change] in *; clear Ho.
  - destruct (put_object st person h input) as [st' r] eqn:Hp. cbn [fst].
    destruct (put_object_cases _ _ _ _ _ _ Hp) as [->|(name & f' & w & _ & Hh & Hpub & -> & _)]; [done|].
    pose proof (publish_objects_sound st name input h Hh Hs) as Hsound. by rewrite Hpub in Hsound.
  - apply capture_keeps; [|done]. intros. by apply capture_file_sound.
  - unfold prune. destruct (prune_candidates _ _ _ _) as [[cs|]|]; [|done|done].
    pose proof (delete_objects_sound cs st Hs) as Hd. by destruct (delete_objects cs st).
Qed.

(** What is observed without a change is what reconciling reports. *)
Theorem observation_matches st person game m st' m' :
  reconciliation_status st person game = Ok m -> reconcile st person game = (st', Ok m') -> m = m'.
Proof.
  unfold reconciliation_status, reconcile. destruct (read_records st person game) as [l|]; [|done]. cbn [mbind result_bind].
  destruct (history_decision l) as [[| |heads j]|]; cbn [mbind result_bind]; [by intros [= <-] [= _ <-]..| |done].
  intros [= <-]. destruct (all_complete _ _) as [[]|]; [|by intros [= _ <-]|done].
  destruct (write_record st person j) as [st1 [i|e]]; [by intros [= _ <-]|done].
Qed.

(** ** Nothing is ever lost *)

(** Every file of a game's folder is a record or a file that is passed over. *)
Definition folder_readable (dir : string) (f : folder) : Prop := forall n, is_Some (f !! n) -> exists o, named_record dir f n = Ok o.

Definition readable (st : storage) : Prop :=
  forall p games k f, people st !! p = Some games -> games !! k = Some f -> folder_readable k f.

(** The names in a folder stay. *)
Definition folder_grows (dir : string) (f f' : folder) : Prop := forall i r, holds dir f i r -> exists r', holds dir f' i r'.

Definition grows (st st' : storage) : Prop :=
  forall p games k f, people st !! p = Some games -> games !! k = Some f ->
    exists games' f', people st' !! p = Some games' /\ games' !! k = Some f' /\ folder_grows k f f'.

Lemma folder_grows_refl dir f : folder_grows dir f f.
Proof. intros i r Hr. by exists r. Qed.

Lemma grows_refl st : grows st st.
Proof. intros p games k f Hp Hk. exists games, f. split; [done|]. split; [done|]. apply folder_grows_refl. Qed.

Lemma grows_trans st1 st2 st3 : grows st1 st2 -> grows st2 st3 -> grows st1 st3.
Proof.
  intros H12 H23 p games k f Hp Hk. destruct (H12 _ _ _ _ Hp Hk) as (g2 & f2 & Hp2 & Hk2 & Hf2).
  destruct (H23 _ _ _ _ Hp2 Hk2) as (g3 & f3 & Hp3 & Hk3 & Hf3). exists g3, f3. split; [done|]. split; [done|].
  intros i r (r2 & Hr2)%Hf2. by eapply Hf3.
Qed.

Lemma grows_people st st' : people st' = people st -> grows st st'.
Proof. intros Heq p games k f Hp Hk. exists games, f. rewrite Heq. split; [done|]. split; [done|]. apply folder_grows_refl. Qed.

(** What a change of one folder must keep. *)
Lemma set_game_grows st person game f :
  readable st -> (folder_readable (encode_uri_component game) (folder_of st person game) ->
    folder_readable (encode_uri_component game) f /\ folder_grows (encode_uri_component game) (folder_of st person game) f) ->
  readable (set_game person (encode_uri_component game) f st) /\ grows st (set_game person (encode_uri_component game) f st).
Proof.
  intros Hr Hf. set (p0 := encode_uri_component person) in *. set (k0 := encode_uri_component game) in *.
  assert (Hold : folder_readable k0 (folder_of st person game)).
  { unfold folder_of. fold p0 k0. destruct (people st !! p0) as [games|] eqn:Hp; cbn; [|by intros n [? ?%lookup_empty_Some]].
    destruct (games !! k0) as [g|] eqn:Hk; cbn; [by eapply Hr|by intros n [? ?%lookup_empty_Some]]. }
  destruct (Hf Hold) as [Hfr Hfg]. split.
  - intros p games k g Hp Hk. unfold set_game in Hp. cbn [people] in Hp. fold p0 in Hp. destruct (decide (p = p0)) as [->|Hne].
    + rewrite lookup_insert_eq in Hp. injection Hp as <-. destruct (decide (k = k0)) as [->|Hke].
      * rewrite lookup_insert_eq in Hk. by injection Hk as <-.
      * rewrite lookup_insert_ne in Hk by done. destruct (people st !! p0) as [games|] eqn:Hp; cbn in Hk; [by eapply Hr|by apply lookup_empty_Some in Hk].
    + rewrite lookup_insert_ne in Hp by done. by eapply Hr.
  - intros p games k g Hp Hk. unfold set_game. cbn [people]. fold p0. destruct (decide (p = p0)) as [->|Hne].
    + rewrite lookup_insert_eq. rewrite Hp. cbn [default]. unfold from_option, id. destruct (decide (k = k0)) as [->|Hke].
      * exists (<[k0:=f]> games), f. split; [done|]. split; [by rewrite lookup_insert_eq|]. unfold folder_of in Hfg. fold p0 k0 in Hfg.
        rewrite Hp in Hfg. cbn in Hfg. by rewrite Hk in Hfg.
      * exists (<[k0:=f]> games), g. split; [done|]. split; [by rewrite lookup_insert_ne|]. apply folder_grows_refl.
    + rewrite lookup_insert_ne by done. exists games, g. split; [done|]. split; [done|]. apply folder_grows_refl.
Qed.

Lemma insert_readable dir f name e o :
  folder_readable dir f -> named_record dir (<[name := e]> f) name = Ok o -> folder_readable dir (<[name := e]> f).
Proof.
  intros Hf Ho n Hn. destruct (decide (n = name)) as [->|Hne]; [by exists o|].
  rewrite lookup_insert_ne in Hn by done. destruct (Hf n Hn) as [o' Ho']. exists o'. rewrite <- Ho'. apply named_record_local.
  by rewrite lookup_insert_ne.
Qed.

Lemma insert_grows dir f name e :
  (forall i r, named_record dir f name = Ok (Some (i, r)) -> exists r', named_record dir (<[name := e]> f) name = Ok (Some (i, r'))) ->
  folder_grows dir f (<[name := e]> f).
Proof.
  intros Hsame i r (n & Hn & Hr). destruct (decide (n = name)) as [->|Hne].
  - destruct (Hsame i r Hr) as [r' Hr']. exists r', name. by rewrite lookup_insert_eq.
  - exists r, n. rewrite lookup_insert_ne by done. split; [done|]. rewrite <- Hr. apply named_record_local. by rewrite lookup_insert_ne.
Qed.

(** The advisory files are passed over. *)
Lemma advisory_passed dir f name : name = CONFIRMATIONS \/ name = IN_USE -> named_record dir f name = Ok None.
Proof. by intros [-> | ->]. Qed.

Lemma publish_in_grows st person game name bytes :
  readable st -> name = CONFIRMATIONS \/ name = IN_USE ->
  let st' := (publish_in st person (encode_uri_component game) (folder_of st person game) name bytes).1 in readable st' /\ grows st st'.
Proof.
  intros Hr Hname. unfold publish_in. pose proof (publish_result (folder_of st person game) name bytes None) as Hp.
  destruct (publish _ _ _ _) as [f' w]. cbn [fst] in *. apply set_game_grows; [done|]. intros Hf.
  destruct Hp as [-> | ->]; [split; [done|apply folder_grows_refl]|]. split.
  - eapply insert_readable; [done|]. by apply advisory_passed.
  - apply insert_grows. intros i r. by rewrite advisory_passed.
Qed.

Lemma write_grows st person r : readable st -> readable (write_record st person r).1 /\ grows st (write_record st person r).1.
Proof.
  intros Hr. unfold write_record. destruct (_ ← _; _) as [[bytes [k f]]|e] eqn:Hpre; [|split; [done|apply grows_refl]].
  apply bind_ok in Hpre as (b & Hb & ([] & Hlen%demand_ok%Z.leb_le & ([k' f'] & Ho & [= -> -> ->])%bind_ok)%bind_ok).
  apply open_game_spec in Ho as (_ & _ & -> & ->).
  destruct (snapshot_id_digits r (hash bytes)) as (hex & Hh & Hi & Hlow); [unfold snapshot_id; by rewrite Hb|]. rewrite Hh.
  fold (record_name hex). pose proof (publish_result (folder_of st person (snap_game r)) (record_name hex) bytes None) as Hp.
  destruct (publish _ _ _ _) as [f' w]. cbn [fst] in *. apply set_game_grows; [done|]. intros Hf.
  destruct Hp as [-> | ->]; [split; [done|apply folder_grows_refl]|].
  assert (Hnew : named_record (encode_uri_component (snap_game r)) (<[record_name hex:=Private bytes]> (folder_of st person (snap_game r)))
    (record_name hex) = Ok (Some ("sha256:" +:+ hex, normalise r))).
  { rewrite named_record_hex by done. by rewrite (read_written _ _ r bytes hex) by (done || by rewrite lookup_insert_eq). }
  split; [by eapply insert_readable|]. apply insert_grows. intros i x Hx. exists (normalise r). rewrite Hnew. f_equal. f_equal. f_equal.
  apply named_record_id in Hx as (_ & _ & h & Hn & ->). f_equal. unfold record_name in Hn. apply (f_equal to_text) in Hn.
  rewrite !to_text_app in Hn. apply app_inv_tail in Hn. by apply (inj to_text).
Qed.

Lemma pick_grows st person l hs i dev at_ :
  readable st -> readable (pick st person l hs i dev at_).1 /\ grows st (pick st person l hs i dev at_).1.
Proof. intros Hr. unfold pick. destruct (picked _ _ _ _ _ _); [by apply write_grows|split; [done|apply grows_refl]]. Qed.

Lemma change_grows c st : readable st -> readable (apply_change c st) /\ grows st (apply_change c st).
Proof.
  intros Hr. assert (Hsame : readable st /\ grows st st) by (split; [done|apply grows_refl]).
  assert (Hpeople : forall st', people st' = people st -> readable st' /\ grows st st').
  { intros st' Heq. split; [unfold readable; by rewrite Heq|by apply grows_people]. }
  destruct c; cbn [apply_change].
  - unfold reconcile. destruct (_ ← _; _) as [[| |heads j]|e]; try done. destruct (all_complete _ _) as [[]|]; try done.
    pose proof (write_grows st person j Hr) as Hw. by destruct (write_record st person j).
  - unfold choose. destruct (_ ← _; _) as [[l hs]|e]; [by apply pick_grows|done].
  - unfold restore. destruct (_ ← _; _) as [[l hs]|e]; [by apply pick_grows|done].
  - by apply write_grows.
  - destruct (put_object st person h input) as [st' r] eqn:Hp. cbn [fst].
    destruct (put_object_cases _ _ _ _ _ _ Hp) as [->|(name & f' & w & _ & _ & _ & -> & _)]; [done|]. by apply Hpeople.
  - apply Hpeople. apply (capture_keeps (fun st' => people st' = people st)); [|done].
    intros st' rel [content|e] second Hst; [|done]. unfold capture_file. destruct (hash_digits _); [|done].
    by destruct (publish_read _ _ _ _).
  - unfold confirm. destruct (_ ← _; _) as [[[k f] cs]|e] eqn:Hpre; [|done]. case_bool_decide; [done|].
    do 4 (apply bind_ok in Hpre as (? & _ & Hpre)). apply bind_ok in Hpre as (k' & ->%key_value & (o & (_ & _ & ->)%game_folder_spec & Hpre)%bind_ok).
    apply bind_ok in Hpre as (f' & Hf & (cs' & _ & [= <- <- <-])%bind_ok).
    assert (f' = folder_of st person game) as ->.
    { unfold folder_of. destruct (_ ≫= _); [by injection Hf as ->|done]. }
    apply publish_in_grows; [done|by left].
  - unfold remember_in_use. destruct (_ ← _; _) as [[k f]|e] eqn:Hpre; [|done].
    apply bind_ok in Hpre as (? & _ & (_ & _ & -> & ->)%open_game_spec). destruct (read_or _ _); cbn [fst].
    + apply publish_in_grows; [done|by right].
    + apply set_game_grows; [done|]. intros Hf. split; [done|apply folder_grows_refl].
  - unfold prune. destruct (prune_candidates _ _ _ _) as [[cs|]|]; [|done|done].
    destruct (delete_all cs st) as [Hp _]. destruct (delete_objects cs st) as [st1 d]. by apply Hpeople.
Qed.

Lemma readable_reads st person game :
  readable st -> key game = Ok (encode_uri_component game) -> account_root person = Ok () ->
  exists pairs, read_records st person game = Ok pairs.*2 /\
    records_with_ids_at (encode_uri_component game) (folder_of st person game) = Ok pairs.
Proof.
  intros Hr Hk Ha. set (p0 := encode_uri_component person) in *. set (k0 := encode_uri_component game) in *.
  assert (Htot : folder_readable k0 (folder_of st person game)).
  { unfold folder_of. fold p0 k0. destruct (people st !! p0) as [games|] eqn:Hpe; cbn; [|by intros n [? ?%lookup_empty_Some]].
    destruct (games !! k0) as [g|] eqn:Hke; cbn; [by eapply Hr|by intros n [? ?%lookup_empty_Some]]. }
  destruct (read_folder_total _ _ Htot) as [pairs Hp]. exists pairs. split; [|done].
  unfold read_records, game_folder, person_folder. rewrite Hk, Ha. cbn [mbind result_bind]. fold p0 k0.
  unfold folder_of in Hp. fold p0 k0 in Hp. destruct (people st !! p0 ≫= _) as [f|]; cbn in Hp |- *.
  - unfold records_at. fold k0. by rewrite Hp.
  - unfold records_with_ids_at in Hp. cbn in Hp. by injection Hp as <-.
Qed.

Lemma grows_reads st st' person game l :
  readable st' -> grows st st' -> read_records st person game = Ok l ->
  exists l', read_records st' person game = Ok l' /\
    forall x i, x ∈ l -> snapshot_id x = Ok i -> exists x', x' ∈ l' /\ snapshot_id x' = Ok i.
Proof.
  intros Hr Hg Hl. destruct (read_folder_of _ _ _ _ Hl) as (pairs & Hp & <-).
  unfold read_records in Hl. apply bind_ok in Hl as (o & Hgf & _). pose proof (game_folder_spec _ _ _ _ Hgf) as (Hk & Ha & _).
  destruct (readable_reads st' person game Hr Hk Ha) as (pairs' & Hl' & Hp'). exists pairs'.*2. split; [done|].
  set (p0 := encode_uri_component person) in *. set (k0 := encode_uri_component game) in *.
  intros x i Hx Hi. pose proof (pair_in_pairs _ _ _ _ _ Hp Hx Hi) as Hin. apply read_folder in Hp as (_ & Hh & _).
  apply Hh in Hin. assert (Hgrow : folder_grows k0 (folder_of st person game) (folder_of st' person game)).
  { unfold folder_of in Hin |- *. fold p0 k0 in Hin |- *. destruct (people st !! p0) as [games|] eqn:Hpe; cbn in Hin |- *.
    2: { destruct Hin as (n & [? ?%lookup_empty_Some] & _). done. }
    destruct (games !! k0) as [g|] eqn:Hke; cbn in Hin |- *; [|destruct Hin as (n & [? ?%lookup_empty_Some] & _); done].
    destruct (Hg _ _ _ _ Hpe Hke) as (games' & f' & -> & Hk' & Hf). cbn. by rewrite Hk'. }
  destruct (Hgrow i x Hin) as [x' Hx']. exists x'. apply read_folder in Hp' as (_ & Hh' & _). pose proof (proj2 (Hh' i x') Hx') as Hin'.
  destruct Hx' as (n & _ & (Hid & _)%named_record_id). split; [|done]. apply list_elem_of_fmap. by exists (i, x').
Qed.

Lemma changes_grow changes st :
  readable st -> let st' := foldl (fun st c => apply_change c st) st changes in readable st' /\ grows st st'.
Proof.
  revert st. induction changes as [|c changes IH]; intros st Hr; cbn [foldl]; [split; [done|apply grows_refl]|].
  destruct (change_grows c st Hr) as [Hr1 Hg1]. destruct (IH _ Hr1) as [Hr2 Hg2]. split; [done|]. by eapply grows_trans.
Qed.

(** C25: No operation makes a history unreadable or forgets a record of it, however
    writes fail: what could be read before can be read after all of them, with a
    record under every name there was. *)
Theorem history_only_grows changes st person game l :
  readable st -> read_records st person game = Ok l ->
  exists l', read_records (foldl (fun st c => apply_change c st) st changes) person game = Ok l' /\
    forall x i, x ∈ l -> snapshot_id x = Ok i -> exists x', x' ∈ l' /\ snapshot_id x' = Ok i.
Proof. intros Hr. destruct (changes_grow changes st Hr) as [Hr' Hg]. by apply grows_reads. Qed.
End store.

(** C24: Every object is the content its name is the hash of, whatever is done to the
    store: received, captured from the files of a game, even while these change, pruned,
    or the records written; and however the disk fails in each of it, before or after it
    took effect. *)
Theorem objects_sound `{SVC : !SaveCodec, STC : !StoreCodec, LAWS : !StoreLaws} (changes : list ((string -> option trouble) * Change)) st :
  sound_objects st -> sound_objects (foldl (fun st c => apply_change c.1 c.2 st) st changes).
Proof. revert st. induction changes as [|c changes IH]; intros st Hs; cbn [foldl]; [done|]. by apply IH, change_sound. Qed.
