(* ===== verification/SaveSim.v ===== *)
(** * A simulation of the save store

    Codecs that obey the laws of [SaveStore], and a person's saves on two devices:
    on them the theorems of [History] and [SaveStore] are applied. *)

From stdpp Require Import countable.
From Stdlib Require Import Ascii.
From S2P Require Import Prelude Text Decimal Programs Files PlayLog Saves History SaveStore.

(** ** Codecs *)

Definition lower_digit (d : Z) : ascii := if d <? 10 then digit d else ascii_of_N (Z.to_N (87 + d)).

Fixpoint hexes (n : nat) (z : Z) (acc : string) : string :=
  match n with
  | O => acc
  | S n => hexes n (z / 16) (SCons (lower_digit (z mod 16)) acc)
  end.

(** Four bytes that depend on every byte, as 64 digits. *)
Definition mix (x y : ascii) : ascii :=
  let '(Ascii a b c d e f g h) := x in
  let '(Ascii i j k l m n o p) := y in
  Ascii (xorb b i) (xorb c j) (xorb d k) (xorb e l) (xorb f m) (xorb g n) (xorb h o) (xorb a p).

Fixpoint sim_mix (s : string) (a b c d : ascii) : Z :=
  match s with
  | EmptyString => byte a + 256 * (byte b + 256 * (byte c + 256 * byte d))
  | SCons x s => sim_mix s b (mix c a) d (mix a x)
  end.

Definition sim_sha256 (s : string) : string := hexes 64 (sim_mix s "k" "o" "r" "i") EmptyString.

Lemma lower_digit_hex z : is_lower_hex (lower_digit (z mod 16)) = true.
Proof.
  pose proof (Z.mod_pos_bound z 16 ltac:(lia)) as Hz. generalize dependent (z mod 16). intros d Hd.
  destruct d as [|p|p]; [done| |lia]. do 4 (destruct p as [p|p|]; try done; try lia).
Qed.

Lemma hexes_digits n z acc : all_chars is_lower_hex acc = true -> all_chars is_lower_hex (hexes n z acc) = true.
Proof.
  revert z acc. induction n as [|n IH]; intros z acc Hacc; cbn [hexes]; [done|]. apply IH. cbn [all_chars]. by rewrite lower_digit_hex.
Qed.

Lemma hexes_length n z acc : str_len (hexes n z acc) = Z.of_nat n + str_len acc.
Proof. revert z acc. induction n as [|n IH]; intros z acc; cbn [hexes]; [lia|]. rewrite IH. unfold str_len. simpl. lia. Qed.

(** Values as lists of words, and words as strings: every byte after a sign. *)
Definition PLUS : ascii := "+"%char.
Definition MINUS : ascii := "-"%char.

Fixpoint word (s rest : string) : string :=
  match s with
  | EmptyString => SCons MINUS rest
  | SCons a s => SCons PLUS (SCons a (word s rest))
  end.

Definition words (l : list string) : string := foldr word EmptyString l.

Fixpoint unword (current : text) (s : string) : list string :=
  match s with
  | SCons sign (SCons a s as more) =>
      if decide (sign = PLUS) then unword (a :: current) s else of_text (reverse current) :: unword [] more
  | SCons _ EmptyString => [of_text (reverse current)]
  | EmptyString => []
  end.

Lemma unword_word current s rest :
  unword current (word s rest) = of_text (reverse current ++ to_text s) :: unword [] rest.
Proof.
  revert current. induction s as [|a s IH]; intros current.
  - cbn [word]. change (to_text EmptyString) with (@nil ascii). rewrite app_nil_r. by destruct rest.
  - cbn [word unword]. rewrite decide_True, IH by done. f_equal. f_equal. by rewrite reverse_cons, <- app_assoc.
Qed.

Lemma unword_words l : unword [] (words l) = l.
Proof. induction l as [|s l IH]; [done|]. cbn [words foldr]. fold (words l). rewrite unword_word, IH, reverse_nil, app_nil_l. by rewrite of_to_text. Qed.

Class Words (A : Type) := {
  put : A -> list string;
  get : list string -> option (A * list string);
  get_put : forall x rest, get (put x ++ rest) = Some (x, rest);
}.

#[export, refine] Instance words_string : Words string := {|
  put := fun s => [s];
  get := fun l => match l with s :: rest => Some (s, rest) | [] => None end;
|}.
Proof. done. Defined.

#[export, refine] Instance words_Z : Words Z := {|
  put := fun z => [Programs.bits (countable.encode z)];
  get := fun l => match l with s :: rest => match decoded s with Ok z => Some (z, rest) | Err _ => None end | [] => None end;
|}.
Proof. intros z rest. cbn [app]. destruct (decoded_code z) as (s & [= <-] & Hs). by rewrite Hs. Defined.

#[export, refine] Instance words_bool : Words bool := {|
  put := fun b : bool => [if b then "t" else "f"];
  get := fun l => match l with s :: rest => Some (bool_decide (s = "t"), rest) | [] => None end;
|}.
Proof. by intros [] rest. Defined.

#[export, refine] Instance words_pair {A B} `{!Words A, !Words B} : Words (A * B) := {|
  put := fun x => put x.1 ++ put x.2;
  get := fun l => '(a, l) ← get l; '(b, l) ← get l; Some ((a, b), l);
|}.
Proof. intros [a b] rest. cbn [fst snd]. rewrite <- app_assoc, get_put. cbn. by rewrite get_put. Defined.

Section words_list.
Context {A : Type} `{!Words A}.

Definition put_list (l : list A) : list string := foldr (fun x rest => "," :: put x ++ rest) ["."] l.

Fixpoint get_list (fuel : nat) (l : list string) : option (list A * list string) :=
  match fuel, l with
  | S fuel, s :: l =>
      if decide (s = ",") then '(x, l) ← get l; '(xs, l) ← get_list fuel l; Some (x :: xs, l) else Some ([], l)
  | _, _ => None
  end.

Lemma get_put_list l fuel rest : (length (put_list l ++ rest) <= fuel)%nat -> get_list fuel (put_list l ++ rest) = Some (l, rest).
Proof.
  revert fuel. induction l as [|x l IH]; intros [|fuel] Hf; cbn [put_list foldr app length] in *; try lia; cbn [get_list].
  - done.
  - rewrite decide_True by done. fold (put_list l) in *. rewrite <- app_assoc, get_put. cbn. rewrite IH; [done|].
    rewrite !length_app in *. lia.
Qed.
End words_list.

#[export, refine] Instance words_list {A} `{!Words A} : Words (list A) := {|
  put := put_list;
  get := fun l => get_list (length l) l;
|}.
Proof. intros l rest. by apply get_put_list. Defined.

Definition words_iso {A B} `{!Words A} (f : B -> A) (g : A -> B) (Hgf : forall x, g (f x) = x) : Words B.
Proof.
  refine {| put := fun x => put (f x); get := fun l => '(a, l) ← get l; Some (g a, l) |}.
  intros x rest. rewrite get_put. cbn. by rewrite Hgf.
Defined.

#[export] Instance words_option {A} `{!Words A} : Words (option A).
Proof.
  apply (words_iso (fun o => match o with Some x => [x] | None => [] end) (fun l => match l with x :: _ => Some x | [] => None end)).
  by intros [].
Defined.

#[export] Instance words_kind : Words SaveKind.
Proof.
  apply (words_iso kind_number (fun z => if z =? 0 then Save else if z =? 1 then Savestate else Screenshot)). by intros [].
Defined.

#[export] Instance words_file : Words SaveFile.
Proof.
  apply (words_iso (fun f => (file_path f, (sha256 f, file_bytes f))) (fun '(a, (b, c)) => MkSaveFile a b c)). by intros [].
Defined.

#[export] Instance words_location : Words SnapshotLocation.
Proof.
  apply (words_iso (fun l => (snap_key l, (snap_kind l, files l))) (fun '(a, (b, c)) => MkSnapshotLocation a b c)). by intros [].
Defined.

#[export] Instance words_record : Words SnapshotRecord.
Proof.
  apply (words_iso
    (fun r => (((parents r, snap_game r), (snap_release r, runner_id r)),
               ((device r, ended_at r), (snap_duration r, (interrupted r, snap_locations r)))))
    (fun '(((a, b), (c, d)), ((e, f), (g, (h, i)))) => MkSnapshotRecord a b c d e f g h i)).
  by intros [].
Defined.

Definition print {A} `{!Words A} (x : A) : string := words (put x).

Definition parse {A} `{!Words A} (s : string) : result string A :=
  match get (unword [] s) with Some (x, []) => Ok x | _ => Err "malformed" end.

Lemma parse_print {A} `{!Words A} (x : A) : parse (print x) = Ok x.
Proof. unfold parse, print. rewrite unword_words, <- (app_nil_r (put x)), get_put. done. Qed.

Definition on_ok {E A B} (f : A -> B) (r : result E A) : result E B := match r with Ok x => Ok (f x) | Err e => Err e end.

#[export] Instance sim_saves : SaveCodec := {|
  record_json := print;
  record_parse := parse;
  sha256_hex := sim_sha256;
  utc_millis := Some;
|}.

#[export] Instance sim_store : StoreCodec := {|
  confirmations_json := fun m => print ((fun x => (x.1, elements x.2)) <$> btree_entries m);
  confirmations_parse := fun s => on_ok (fun l => list_to_map ((fun x => (x.1, list_to_set x.2)) <$> l)) (parse s);
  in_use_json := fun m => print (btree_entries m);
  in_use_parse := fun s => on_ok list_to_map (parse s);
  timestamp_millis := from_decimal u64_max;
|}.

#[export] Instance sim_store_laws : StoreLaws.
Proof.
  split.
  - intros r _. apply parse_print.
  - intros s. cbn [sha256_hex sim_saves]. unfold sim_sha256, lower_hex64. by rewrite hexes_length, hexes_digits.
Qed.

(** ** Two devices *)

Definition no_fault (name : string) : option trouble := None.

Definition device_a : string := "aaaaaaaaaaaaaaaaaaaaaaaaaaaaaaaaaaaaaaaaaaaaaaaaaaaaaaaaaaaaaaaa".
Definition device_b : string := "bbbbbbbbbbbbbbbbbbbbbbbbbbbbbbbbbbbbbbbbbbbbbbbbbbbbbbbbbbbbbbbb".
Definition owner : string := "cccccccccccccccccccccccccccccccccccccccccccccccccccccccccccccccc".
Definition game : string := "wario".

Definition object_of (content path : string) : SaveFile := MkSaveFile path (hash content) (str_len content).

Definition snapshot (ps : list string) (dev progress shot : string) : SnapshotRecord :=
  MkSnapshotRecord ps game None "runner" dev "2026-10-21T00:00:00.000Z" 60 false
    [MkSnapshotLocation "saves" Save [object_of progress "game.srm"];
     MkSnapshotLocation "shots" Screenshot [object_of shot "1.png"]].

(** The same progress with two screenshots, and two that differ. *)
Definition record_a : SnapshotRecord := snapshot [] device_a "slot 1" "first".
Definition record_b : SnapshotRecord := snapshot [] device_b "slot 1" "second".
Definition record_c : SnapshotRecord := snapshot [] device_b "slot 2" "second".

Definition name_of (r : SnapshotRecord) : string := default EmptyString (ok (snapshot_id r)).

Definition record_entry (r : SnapshotRecord) : string * entry :=
  (default EmptyString (hash_hex (name_of r)) +:+ ".json", Private (default EmptyString (ok (canonical_record r)))).

Definition object_entry (content : string) : string * entry := (sim_sha256 content, Private content).

Definition store_of (l : list SnapshotRecord) (contents : list string) : storage :=
  MkStorage {[ owner := {[ game := list_to_map (record_entry <$> l) ]} ]} (Some (list_to_map (object_entry <$> contents))).

Definition contents : list string := ["slot 1"; "slot 2"; "first"; "second"].

Definition joinable : storage := store_of [record_a; record_b] contents.
Definition divided : storage := store_of [record_a; record_c] contents.

Definition later : string := "2026-10-22T00:00:00.000Z".

Example joinable_joins : (reconcile no_fault joinable owner game).2 = Ok NotChecked.
Proof. vm_compute. reflexivity. Qed.

Example divided_splits : (reconcile no_fault divided owner game).2 = Ok Split.
Proof. vm_compute. reflexivity. Qed.

Example divided_chosen : is_ok (choose no_fault divided owner game (name_of record_a) device_a later).2 = true.
Proof. vm_compute. reflexivity. Qed.

(** ** Deciding hypotheses *)

Definition fresh_b (l : list SnapshotRecord) (i : string) : bool :=
  forallb (fun x => negb (has_id i x) && negb (bool_decide (i ∈ parents x))) l.

Lemma fresh_b_spec l i : fresh_b l i = true -> fresh l i.
Proof.
  unfold fresh_b. rewrite forallb_spec. intros Hall x Hx. specialize (Hall x Hx). apply andb_prop in Hall as [Hi%negb_true_iff Hp%negb_true_iff%bool_decide_eq_false].
  split; [|done]. intros Hid%has_id_spec. congruence.
Qed.

(** The name of the join of a history is new. *)
Definition join_fresh_b (l : list SnapshotRecord) (hs : list string) : bool :=
  match records_of hs l with
  | Ok rs => match automatic_join rs with Ok (Some j) => fresh_b l (name_of j) | _ => true end
  | Err _ => true
  end.

Lemma join_fresh l hs :
  join_fresh_b l hs = true ->
  forall rs j i, records_of hs l = Ok rs -> automatic_join rs = Ok (Some j) -> snapshot_id j = Ok i -> fresh l i.
Proof.
  unfold join_fresh_b. intros Hb rs j i Hrs Hj Hi. rewrite Hrs, Hj in Hb. unfold name_of in Hb. rewrite Hi in Hb. by apply fresh_b_spec.
Qed.

Definition acyclic_b (m : gmap string SnapshotRecord) : bool := forallb (fun x => negb (ancestor x x m)) (btree_keys m).

Lemma acyclic_b_spec m : acyclic_b m = true -> forall x, ~ tc (parent_of m) x x.
Proof.
  unfold acyclic_b. rewrite forallb_spec. intros Hall x Ht. assert (Hin : x ∈ btree_keys m).
  { apply elem_of_btree_keys. inversion Ht as [? ? (r & Hr & _)|? y ? (r & Hr & _)]; subst; by eexists. }
  specialize (Hall x Hin). by rewrite (proj2 (ancestor_correct _ _ _) Ht) in Hall.
Qed.

Definition index (l : list SnapshotRecord) : gmap string SnapshotRecord := list_to_map ((fun r => (name_of r, r)) <$> l).

Definition ok_or_nil {E A} (r : result E (list A)) : list A := match r with Ok l => l | Err _ => [] end.

Definition complete_b (st : storage) (x : SnapshotRecord) : bool := match record_complete st x with Ok b => b | Err _ => false end.

Lemma ok_or_nil_ok {E A} (r : result E (list A)) : is_ok r = true -> r = Ok (ok_or_nil r).
Proof. by destruct r. Qed.

Lemma pair_second {A B} (p : A * B) y : p.2 = y -> p = (p.1, y).
Proof. by destruct p; intros <-. Qed.

Lemma second_ok {A} (p : A * outcome string) : is_ok p.2 = true -> p = (p.1, Ok (default EmptyString (ok p.2))).
Proof. by destruct p as [a []]. Qed.

(** ** The theorems on these stores *)

Definition joinable_records : list SnapshotRecord := ok_or_nil (read_records joinable owner game).
Definition joinable_heads : list string := ok_or_nil (head_ids joinable_records).

Lemma joinable_read : is_ok (read_records joinable owner game) = true.
Proof. vm_compute. reflexivity. Qed.

Lemma joinable_headed : is_ok (head_ids joinable_records) = true.
Proof. vm_compute. reflexivity. Qed.

Definition joined : storage := (reconcile no_fault joinable owner game).1.

Lemma reconcile_spec_witness :
  (exists i j l', joins joinable_records joinable_heads j /\ read_records joined owner game = Ok l' /\ adds i (normalise j) joinable_records l' /\
     head_ids l' = Ok [i] /\ reconcile no_fault joined owner game = (joined, Ok NotChecked)).
Proof.
  destruct (reconcile_spec no_fault joinable owner game joinable_records joinable_heads joined NotChecked) as [[_ [Hlen|(x & Hx & Hf)]]|Hj].
  - exact (ok_or_nil_ok (read_records joinable owner game) joinable_read).
  - exact (ok_or_nil_ok (head_ids joinable_records) joinable_headed).
  - exact (pair_second (reconcile no_fault joinable owner game) (Ok NotChecked) joinable_joins).
  - apply join_fresh. vm_compute. reflexivity.
  - vm_compute in Hlen. lia.
  - exfalso. destruct Hx as [Hx _]. assert (Hall : forallb (complete_b joinable) joinable_records = true) by (vm_compute; reflexivity).
    rewrite forallb_spec in Hall. specialize (Hall x Hx). unfold complete_b in Hall. rewrite Hf in Hall. discriminate Hall.
  - destruct Hj as (i & j & l' & H1 & _ & H2 & H3 & H4 & H5). exists i, j, l'. exact (conj H1 (conj H2 (conj H3 (conj H4 H5)))).
Defined.

Definition divided_records : list SnapshotRecord := ok_or_nil (read_records divided owner game).
Definition divided_heads : list string := ok_or_nil (head_ids divided_records).

Lemma divided_read : is_ok (read_records divided owner game) = true.
Proof. vm_compute. reflexivity. Qed.

Lemma divided_headed : is_ok (head_ids divided_records) = true.
Proof. vm_compute. reflexivity. Qed.

Definition chosen : storage := (choose no_fault divided owner game (name_of record_a) device_a later).1.
Definition chosen_name : string := default EmptyString (ok (choose no_fault divided owner game (name_of record_a) device_a later).2).

Lemma choose_spec_witness :
  (2 <= length divided_heads)%nat /\ name_of record_a ∈ divided_heads /\
  continued no_fault divided owner game divided_records divided_heads (name_of record_a) device_a later chosen chosen_name.
Proof.
  apply (choose_spec no_fault divided owner game divided_records divided_heads (name_of record_a) device_a later chosen chosen_name).
  - exact (ok_or_nil_ok (read_records divided owner game) divided_read).
  - exact (ok_or_nil_ok (head_ids divided_records) divided_headed).
  - exact (second_ok (choose no_fault divided owner game (name_of record_a) device_a later) divided_chosen).
  - intros p _. apply fresh_b_spec. vm_compute. reflexivity.
Defined.

(** The first snapshot of a device, then a second one that another device's head is
    not there for. *)
Definition record_d : SnapshotRecord := snapshot [name_of record_a] device_a "slot 1" "first".
Definition record_e : SnapshotRecord := snapshot [name_of record_d] device_b "slot 3" "third".
Definition offline : storage := store_of [record_a; record_d; record_e] contents.
Definition offline_records : list SnapshotRecord := ok_or_nil (read_records offline owner game).
Definition offline_heads : list string := ok_or_nil (head_ids offline_records).

Lemma offline_read : is_ok (read_records offline owner game) = true.
Proof. vm_compute. reflexivity. Qed.

Lemma offline_headed : is_ok (head_ids offline_records) = true.
Proof. vm_compute. reflexivity. Qed.


Lemma indexed_index l :
  forallb (fun r => is_ok (snapshot_id r)) l = true -> bool_decide (NoDup (name_of <$> l)) = true -> indexed l (index l).
Proof.
  rewrite forallb_spec, bool_decide_eq_true. intros Hok Hnd i r. unfold index. rewrite <- elem_of_list_to_map.
  - rewrite list_elem_of_fmap. unfold name_of. split.
    + intros (x & [= -> ->] & Hx). split; [done|]. specialize (Hok x Hx). by destruct (snapshot_id x).
    + intros [Hr Hi]. exists r. by rewrite Hi.
  - by rewrite <- list_fmap_compose.
Qed.

Lemma launch_base_spec_witness :
  match launch_base offline owner game device_a with
  | Ok (Some i) =>
      agreeing offline_records offline_heads /\
      (first_complete offline offline_records offline_heads i \/
       none_complete offline offline_records offline_heads /\ exists r, own_complete offline device_a offline_records i r /\
         forall j x, own_complete offline device_a offline_records j x -> j = i \/ tc (parent_of (index offline_records)) i j)
  | Ok None => agreeing offline_records offline_heads /\ none_complete offline offline_records offline_heads /\
      forall i r, ~ own_complete offline device_a offline_records i r
  | Err (Error SaveSplit) =>
      ~ agreeing offline_records offline_heads \/
      agreeing offline_records offline_heads /\ none_complete offline offline_records offline_heads /\
      exists i j x y, i <> j /\ own_complete offline device_a offline_records i x /\ own_complete offline device_a offline_records j y /\
        ~ tc (parent_of (index offline_records)) i j /\ ~ tc (parent_of (index offline_records)) j i
  | Err e => plain e
  end.
Proof.
  apply (launch_base_spec offline owner game device_a offline_records offline_heads (index offline_records)).
  - exact (ok_or_nil_ok (read_records offline owner game) offline_read).
  - exact (ok_or_nil_ok (head_ids offline_records) offline_headed).
  - apply indexed_index; vm_compute; reflexivity.
  - apply acyclic_b_spec. vm_compute. reflexivity.
Defined.

Example offline_continues : launch_base offline owner game device_a = Ok (Some (name_of record_d)).
Proof. vm_compute. reflexivity. Qed.

(** Eleven snapshots in a line; the other device has them all. *)
Fixpoint line (n : nat) (last : option string) : list SnapshotRecord :=
  match n with
  | O => []
  | S n =>
      let r := snapshot (match last with Some i => [i] | None => [] end) device_a (decimal (Z.of_nat n)) "first" in
      r :: line n (Some (name_of r))
  end.

Definition lined : list SnapshotRecord := line 11 None.
Definition line_contents : list string := "first" :: ((fun n => decimal (Z.of_nat n)) <$> seq 0 11).

Definition line_confirmations : gmap string (gset string) := list_to_map ((fun r => (name_of r, {[ device_b ]})) <$> lined).

Definition aged : storage :=
  MkStorage
    {[ owner := {[ game := <[CONFIRMATIONS := Private (confirmations_json line_confirmations)]> (list_to_map (record_entry <$> lined)) ]} ]}
    (Some (list_to_map (object_entry <$> line_contents))).

Definition aged_records : list SnapshotRecord := ok_or_nil (read_records aged owner game).
Definition pruned : storage * outcome unit := prune no_fault aged owner game device_a.

(** The content of the oldest goes, the screenshot it shares with the others stays. *)
Example pruned_oldest :
  (fun n => is_ok (verified_object pruned.1 (hash (decimal (Z.of_nat n))))) <$> seq 0 11 =
  [true; true; true; true; true; true; true; true; true; true; false] /\
  is_ok (verified_object pruned.1 (hash "first")) = true /\ pruned.2 = Ok ().
Proof. vm_compute. repeat split. Qed.

Lemma aged_read : is_ok (read_records aged owner game) = true.
Proof. vm_compute. reflexivity. Qed.

Definition oldest : SnapshotRecord := default record_a (last aged_records).

Lemma oldest_read : bool_decide (oldest ∈ aged_records) = true.
Proof. vm_compute. reflexivity. Qed.

Lemma prune_keeps_witness :
  people pruned.1 = people aged /\
  ((forall f, f ∈ all_files oldest -> verified_object pruned.1 (sha256 f) = verified_object aged (sha256 f)) \/
   owner = owner /\ game = game /\
   exists i hs known confirmations, snapshot_id oldest = Ok i /\ head_ids aged_records = Ok hs /\ known_parents aged_records = Ok known /\
     confirmations_of (folder_of aged owner game) = Ok confirmations /\ expendable aged_records hs known confirmations device_a i).
Proof.
  apply (prune_keeps no_fault aged owner game device_a pruned.1 pruned.2 owner game aged_records oldest).
  - exact (surjective_pairing pruned).
  - exact (ok_or_nil_ok (read_records aged owner game) aged_read).
  - exact (proj1 (bool_decide_eq_true _) oldest_read).
Defined.

(** What a game left: a save, a screenshot in a folder, and at last a file that the game
    still writes while it is captured. *)
Definition saves_at (k : SaveKind) (name : string) (tree : live) : place := MkPlace (MkSaveLocation name k name) false tree.

Definition left_behind : list place :=
  [saves_at Save "saves" (Dir (Entry "slot.sav" (Plain (Ok "slot 2") (Ok "slot 2")) NoMore));
   saves_at Screenshot "shots" (Dir (Entry "day" (Dir (Entry "a.png" (Plain (Ok "second") (Ok "second")) NoMore)) NoMore))].

Definition torn : list place := [saves_at Save "saves" (Plain (Ok "slot 3") (Ok "slot 4"))].

Definition captured := capture no_fault (MkStorage ∅ None) owner left_behind record_a.

Example captured_progress :
  is_ok captured.2 = true /\ is_ok (verified_object captured.1 (hash "slot 2")) = true /\
  is_ok (verified_object captured.1 (hash "second")) = true /\
  is_err (capture no_fault (MkStorage ∅ None) owner torn record_a).2 = true.
Proof. vm_compute. repeat split. Qed.

(** Everything a store does, one after the other, on a disk that fails once. *)
Definition changes : list ((string -> option trouble) * Change) :=
  [(no_fault, DoPutRecord owner record_a); (no_fault, DoPutObject owner (hash "slot 1") "slot 1");
   (no_fault, DoPutObject owner (hash "first") "forged"); (fun _ => Some (After "no space"), DoCapture owner left_behind record_a);
   (no_fault, DoCapture owner torn record_a); (no_fault, DoReconcile owner game);
   (no_fault, DoConfirm owner game (name_of record_a) device_b); (no_fault, DoPrune owner game device_a)].

Lemma objects_sound_witness :
  sound_objects (foldl (fun st c => apply_change c.1 c.2 st) (MkStorage ∅ None) changes).
Proof. apply (objects_sound changes (MkStorage ∅ None)). by intros f name content ?. Defined.

(** A forged object and a torn one are refused, the true ones are stored. *)
Example changes_objects :
  let st := foldl (fun st c => apply_change c.1 c.2 st) (MkStorage ∅ None) changes in
  (fun s => is_ok (verified_object st (hash s))) <$> ["slot 1"; "slot 2"; "first"; "slot 3"; "slot 4"] =
  [true; true; false; false; false].
Proof. vm_compute. reflexivity. Qed.

Lemma divided_observed : reconciliation_status divided owner game = Ok Split.
Proof. vm_compute. reflexivity. Qed.

Lemma observation_matches_witness : Split = Split.
Proof.
  apply (observation_matches no_fault divided owner game Split (reconcile no_fault divided owner game).1 Split).
  - exact divided_observed.
  - exact (pair_second (reconcile no_fault divided owner game) (Ok Split) divided_splits).
Defined.

(** ** The joins *)

Definition coherent_b (l : list (string * SaveFile)) : bool :=
  forallb (fun x => forallb (fun y =>
    negb (bool_decide (x.1 = y.1) && bool_decide (file_path x.2 = file_path y.2) && bool_decide (sha256 x.2 = sha256 y.2))
    || bool_decide (x.2 = y.2)) l) l.

Lemma coherent_b_spec l : coherent_b l = true -> coherent l.
Proof.
  unfold coherent_b. rewrite forallb_spec. intros Hall k f g Hf Hg Hp Hh. specialize (Hall _ Hf). rewrite forallb_spec in Hall.
  specialize (Hall _ Hg). cbn [fst snd] in Hall. rewrite !bool_decide_true in Hall by done. by apply bool_decide_eq_true in Hall.
Qed.

Lemma named_a : is_ok (snapshot_id record_a) = true.
Proof. vm_compute. reflexivity. Qed.

Lemma named_b : is_ok (snapshot_id record_b) = true.
Proof. vm_compute. reflexivity. Qed.

Lemma name_of_ok r : is_ok (snapshot_id r) = true -> snapshot_id r = Ok (name_of r).
Proof. unfold name_of. by destruct (snapshot_id r). Qed.

Lemma different_names : bool_decide (NoDup [name_of record_a; name_of record_b]) = true.
Proof. vm_compute. reflexivity. Qed.

Lemma join_order_free_witness : automatic_join [record_a; record_b] = automatic_join [record_b; record_a].
Proof.
  apply (join_order_free [record_a; record_b] [record_b; record_a] [name_of record_a; name_of record_b]).
  - apply perm_swap.
  - constructor; [exact (name_of_ok _ named_a)|]. constructor; [exact (name_of_ok _ named_b)|constructor].
  - exact (proj1 (bool_decide_eq_true _) different_names).
  - apply coherent_b_spec. vm_compute. reflexivity.
Defined.

(** The runner keeps saves now where it kept screenshots. *)
Definition moved : SnapshotRecord :=
  with_locations [MkSnapshotLocation "shots" Save [object_of "slot 1" "game.srm"]] (snapshot [name_of record_a] device_a "" "").

Lemma kind_change_fails_witness : exists e, with_screenshot_union moved [record_a] = Err (Error e).
Proof.
  apply (kind_change_fails moved [record_a] record_a (MkSnapshotLocation "shots" Save [object_of "slot 1" "game.srm"])
    (MkSnapshotLocation "shots" Screenshot [object_of "first" "1.png"])); [by left|by left|reflexivity|by right; left|reflexivity|reflexivity].
Defined.

(** ** What can be read stays *)

Definition readable_b (st : storage) : bool :=
  forallb (fun x => forallb (fun y => forallb (fun z => is_ok (named_record y.1 y.2 z.1)) (map_to_list y.2)) (map_to_list x.2))
    (map_to_list (people st)).

Lemma readable_b_spec st : readable_b st = true -> readable st.
Proof.
  unfold readable_b. rewrite forallb_spec. intros Hall p games k f Hp Hk n [e Hn]. specialize (Hall (p, games)).
  rewrite elem_of_map_to_list in Hall. specialize (Hall Hp). cbn [snd] in Hall. rewrite forallb_spec in Hall. specialize (Hall (k, f)).
  rewrite elem_of_map_to_list in Hall. specialize (Hall Hk). cbn [fst snd] in Hall. rewrite forallb_spec in Hall. specialize (Hall (n, e)).
  rewrite elem_of_map_to_list in Hall. specialize (Hall Hn). cbn [fst] in Hall. destruct (named_record k f n) as [o|]; [by exists o|done].
Qed.

(** The disk fails while the join is written. *)
Definition full_disk (name : string) : option trouble := Some (After "No space left on device (os error 28)").

Lemma joinable_readable : readable_b joinable = true.
Proof. vm_compute. reflexivity. Qed.

Lemma history_only_grows_witness :
  exists l', read_records (foldl (fun st c => apply_change full_disk c st) joinable changes.*2) owner game = Ok l' /\
    forall x i, x ∈ joinable_records -> snapshot_id x = Ok i -> exists x', x' ∈ l' /\ snapshot_id x' = Ok i.
Proof.
  apply (history_only_grows full_disk changes.*2 joinable owner game joinable_records).
  - apply readable_b_spec. exact joinable_readable.
  - exact (ok_or_nil_ok (read_records joinable owner game) joinable_read).
Defined.
