(* ===== verification/Peers.v ===== *)
(** * Speaking with another device of the owner
    (services/korrid/src/saves/peer/mod.rs, client.rs, object_route.rs; the
    addresses of federation/mod.rs and federation/reach/nearby_seam.rs)

    What a task of the save exchange asks for is a program in the sense of
    [Programs]: the identity, the directory of devices, the network, the clock, a
    private file and the save store of [SaveStore]. Whatever it waits for, other
    tasks may have changed the store meanwhile; that, the answers from outside and
    the faults of the disk are the choices. A log keeps what was sent, what was
    answered and which objects were found whole; the code has no such log. *)

From S2P Require Import Prelude Text Decimal Hold Programs Files PlayLog Saves History SaveStore.
From Stdlib Require Import SpecFloat.

(** ** Addresses *)

(** [url::Url]. *)
Record Url := MkUrl {
  scheme : string;
  host_str : option string;
  username : string;
  password : option string;
  query : option string;
  fragment : option string;
  url_path : string;
  port_or_known_default : option Z;
  ascii_origin : string;
}.

Class Urls := { url_parse : string -> option Url }.

Section addresses.
Context `{URLS : !Urls}.

Fixpoint has_white (l : text) : bool :=
  match l with
  | [] => false
  | a :: l' =>
      white1 (byte a)
      || match l' with b :: _ => white2 (byte a) (byte b) | [] => false end
      || match l' with b :: c :: _ => white3 (byte a) (byte b) (byte c) | _ => false end
      || has_white l'
  end.

(** [split_once] at a pattern. *)
Fixpoint split_at (pattern s : string) : option (string * string) :=
  match strip_prefix pattern s with
  | Some back => Some (EmptyString, back)
  | None =>
      match s with
      | EmptyString => None
      | SCons a s => '(front, back) ← split_at pattern s; Some (SCons a front, back)
      end
  end.

Definition peer_origin (value : string) : option string :=
  if str_is_empty value || (2048 <? str_len value) || has_control value || has_white (to_text value) || contains "\" value then None
  else
    '(_, rest) ← split_at "://" value;
    let '(authority, path) := default (rest, EmptyString) (split_once SLASH rest) in
    if negb (str_is_empty path) || contains "@" authority || contains "?" authority || contains "#" authority || ends_with ":" authority
    then None
    else
      url ← url_parse value;
      if negb (bool_decide (scheme url = "http") || bool_decide (scheme url = "https")) || is_none (host_str url)
         || negb (str_is_empty (username url)) || is_some (password url) || is_some (query url) || is_some (fragment url)
         || negb (bool_decide (url_path url = "/")) || match port_or_known_default url with Some port => port =? 0 | None => true end
      then None
      else Some (ascii_origin url).

Definition known_port (origin : string) : option Z := url ← url_parse origin; port_or_known_default url.

(** The device on a nearby link comes first. [ip] is written as in a socket address. *)
Definition prepend_ip (ip : option string) (candidates : list string) : list string :=
  match ip, head (omap known_port candidates) with
  | Some ip, Some port =>
      let origin := "http://" +:+ ip +:+ ":" +:+ decimal port in
      origin :: keep (fun c => negb (bool_decide (c = origin))) candidates
  | _, _ => candidates
  end.
End addresses.

(** ** What devices say to each other *)

Record SaveRecords := MkSaveRecords { sent_records : list SnapshotRecord; confirmed : list string }.

Inductive SaveInUse : Type :=
| InUseActive (device : string) (in_use : bool) (since : Z)
| InUseIdle (device : string) (in_use : bool).

Inductive RpcRequest : Type :=
| SaveHeadsRequest
| SaveInUseRequest (game : string)
| SaveRecordsRequest (game : string) (ids : list string) (pushed : option (list SnapshotRecord))
| SaveObjectRequest (sha256 : string).

(** [None]: the failure of the other device. *)
Inductive RpcResponse : Type :=
| SaveHeadsResponse (outcome : option (list GameSaveHeads))
| SaveInUseResponse (outcome : option SaveInUse)
| SaveRecordsResponse (outcome : option SaveRecords)
| OtherResponse.

Inductive PeerSaveError : Type :=
| SaveFailed (e : SaveError)
| Unauthorized
| Network
| Protocol
| Deadline
| PayloadUnavailable.

(** What a client is told: a code and a text without private paths. *)
Definition failure_code (e : PeerSaveError) : string :=
  match e with
  | Unauthorized => "SavePeerUnauthorized"
  | Deadline => "SavePeerDeadline"
  | Protocol => "SavePeerInvalid"
  | Network => "SavePeerUnavailable"
  | SaveFailed _ => "SaveStorageUnavailable"
  | PayloadUnavailable => "SavePayloadUnavailable"
  end.

Definition failure_message (e : PeerSaveError) : string :=
  match e with
  | PayloadUnavailable => "This save's files are not available on any reachable device. Connect a device that has this save and retry."
  | Deadline => "The save transfer timed out. Check that the other device is reachable and retry."
  | _ => "Saves could not be checked with this device."
  end.

Record PeerSnapshot := MkPeerSnapshot {
  device_public_key : string;
  owner_public_key : string;
  owned : bool;
  current_endpoint : option (list string);
  remembered_endpoint : option (list string);
}.

(** ** Ranges of an object *)

Definition DASH : Z := 45.

Definition parse_u64 (s : string) : option Z := from_decimal u64_max s.

(** The answer continues at [offset] and goes to the end. *)
Definition validate_content_range (value : string) (offset bytes : Z) : result PeerSaveError unit :=
  let parsed :=
    v ← strip_prefix "bytes " value;
    '(range, total) ← split_once SLASH v;
    '(first, last) ← split_once DASH range;
    first ← parse_u64 first; last ← parse_u64 last; total ← parse_u64 total;
    Some (first, last, total) in
  match parsed with
  | None => Err Protocol
  | Some (first, last, total) =>
      if negb (first =? offset) || (u64_max <=? last) || negb (last + 1 =? bytes) || negb (total =? bytes) || (bytes <=? offset)
      then Err Protocol else Ok ()
  end.

(** The part of a file a request asks for: its start and length. *)
Definition byte_range (value : string) (bytes : Z) : option (Z * Z) :=
  if bytes =? 0 then None
  else
    v ← strip_prefix "bytes=" value;
    '(first, last) ← split_once DASH v;
    if negb (all_chars is_ascii_digit first && all_chars is_ascii_digit last) then None
    else if str_is_empty first then
      suffix ← parse_u64 last;
      if suffix =? 0 then None
      else let length := Z.min suffix bytes in Some (bytes - length, length)
    else
      first ← parse_u64 first;
      last ← (if str_is_empty last then Some (bytes - 1) else n ← parse_u64 last; Some (Z.min n (bytes - 1)));
      if (last <? first) || (bytes <=? first) then None else Some (first, last - first + 1).

(** What is asked for to resume, and how a part is answered. *)
Definition resume_range (done_ : Z) : string := "bytes=" +:+ decimal done_ +:+ "-".

Definition content_range (offset length bytes : Z) : string :=
  "bytes " +:+ decimal offset +:+ "-" +:+ decimal (offset + length - 1) +:+ "/" +:+ decimal bytes.

Lemma split_once_app sep a s t :
  is_byte sep a = true -> all_chars (fun b => negb (is_byte sep b)) s = true -> split_once sep (s +:+ SCons a t) = Some (s, t).
Proof.
  intros Ha. induction s as [|b s IH]; cbn [all_chars]; intros Hs.
  - change (EmptyString +:+ SCons a t) with (SCons a t). cbn [split_once]. by rewrite Ha.
  - apply andb_prop in Hs as [Hb%negb_true_iff Hs]. change (SCons b s +:+ SCons a t) with (SCons b (s +:+ SCons a t)).
    cbn [split_once]. by rewrite Hb, IH.
Qed.

Lemma all_chars_impl (f g : ascii -> bool) s : (forall a, f a = true -> g a = true) -> all_chars f s = true -> all_chars g s = true.
Proof. intros Hfg. induction s as [|a s IH]; [done|]. cbn [all_chars]. intros [Ha Hs]%andb_prop. by rewrite Hfg, IH. Qed.

(** ** The world of a task *)

Notation head_sets_map := (gmap string (gset string)).

Record ContactMark := MkContactMark { mark_remote : head_sets_map; mark_local : head_sets_map; mark_at : Z }.

(** [marks] and [incomplete] are the [ContactMemory]. A task that is stopped at a
    deadline leaves [pending_head_records]; the rest is the log, the newest first. *)
Record world := MkWorld {
  store : storage;
  marks : gmap (string * string) ContactMark;
  incomplete : gmap (string * string) (gset string);
  pending_head_records : gset string;
  posted : list (string * option string * RpcRequest);
  answered : list (string * RpcRequest * RpcResponse);
  found_whole : list (string * Z);
}.

Inductive Finish : Type := Finished | Broken | Stalled.

(** A chunk of a body, when it came, when a new window begins after it, and how its
    writing to the private file fails. *)
Record piece := MkPiece { chunk : string; arrived : Z; resumed : Z; write_error : option string }.

Record Response := MkResponse {
  status : Z;
  content_range_header : option string;
  content_length : option Z;
  body : list piece;
  body_end : Finish;
}.

Inductive Posting : Type := PostLate | PostFailed | Responded (r : Response).

Inductive Choosing : Type := ChoseLate | ChoseNone | Chose (index : nat).

(** The origin that answered first, and the others. *)
Inductive Selected : Type := SelectLate | SelectNone | SelectOrigin_ (origin : string) (others : list string).

Definition select_from (timed : bool) (c : Choosing) (l : list string) : Selected :=
  match c with
  | ChoseLate => if timed then SelectLate else SelectNone
  | ChoseNone => SelectNone
  | Chose i => match l !! i with Some o => SelectOrigin_ o (delete i l) | None => SelectNone end
  end.

Inductive Op : Type :=
| Identity
| OwnKey
| Directory
| NearbyIp (device : string)
| HasRoute (device : string)
| BeginWork (device : string) (contact : bool)
| SetPeerState (device : string) (ready : bool)
| SelectOrigin (timed : bool) (origins : list string)
| ReachConnection (device : string)
| Encode (device : string) (request : RpcRequest)
| Post (device : string) (origin : option string) (request : RpcRequest) (range : option string)
| Decode (device : string) (request : RpcRequest) (text : string)
| Now
| PrivateRoot
| OpenTemporary
| ResetTemporary
| Heads (person : string)
| Records (person game : string)
| RecordOf (person game i : string)
| Complete (person game i : string)
| ConfirmedSnapshots (person game device : string)
| Confirm (person game i device : string)
| PutRecord (person : string) (r : SnapshotRecord)
| ObjectOf (person h : string)
| PutObject (person h content : string)
| InUse (person game : string)
| ReadMark (person device : string)
| WriteMark (person device : string) (mark : ContactMark)
| ReadIncomplete (person device : string)
| AddIncomplete (person device i : string)
| Pending (f : gset string -> gset string)
| Forever.

Definition Reply (op : Op) : Type :=
  match op with
  | Identity | OwnKey => option string
  | Directory => option (list PeerSnapshot)
  | NearbyIp _ => option string
  | HasRoute _ | BeginWork _ _ | ReachConnection _ | Encode _ _ => bool
  | SelectOrigin _ _ => Selected
  | Post _ _ _ _ => Posting
  | Decode _ _ _ => option RpcResponse
  | Now => Z
  | PrivateRoot => result string (bool * Z)
  | OpenTemporary | ResetTemporary => option string
  | Heads _ => outcome (list GameSaveHeads)
  | Records _ _ => outcome (list SnapshotRecord)
  | RecordOf _ _ _ => outcome (option SnapshotRecord)
  | Complete _ _ _ => outcome bool
  | ConfirmedSnapshots _ _ _ => outcome (gset string)
  | Confirm _ _ _ _ | PutObject _ _ _ => outcome unit
  | PutRecord _ _ => outcome string
  | ObjectOf _ _ => outcome string
  | InUse _ _ => result SaveError (option Z)
  | ReadMark _ _ => option ContactMark
  | ReadIncomplete _ _ => gset string
  | SetPeerState _ _ | WriteMark _ _ _ | AddIncomplete _ _ _ | Pending _ => unit
  | Forever => Empty_set
  end.

Notation trouble_of := (string -> option trouble).

(** What comes from outside of the task: for an operation of the store how the disk
    fails; nothing for what is in memory. *)
Definition Answer (op : Op) : Type :=
  match op with
  | SelectOrigin _ _ => Choosing
  | Heads _ | Records _ _ | RecordOf _ _ _ | Complete _ _ _ | ConfirmedSnapshots _ _ _ | ObjectOf _ _
  | ReadMark _ _ | ReadIncomplete _ _ => unit
  | Confirm _ _ _ _ | PutObject _ _ _ | PutRecord _ _ => trouble_of
  | op => Reply op
  end.

(** What other tasks do to the store before, and the answer. *)
Definition Choice (op : Op) : Type := list (trouble_of * Change) * Answer op.

Section peers.
Context `{SVC : !SaveCodec, STC : !StoreCodec, URLS : !Urls}.

Definition with_store (st : storage) (w : world) : world :=
  MkWorld st (marks w) (incomplete w) (pending_head_records w) (posted w) (answered w) (found_whole w).

Definition with_pending (f : gset string -> gset string) (w : world) : world :=
  MkWorld (store w) (marks w) (incomplete w) (f (pending_head_records w)) (posted w) (answered w) (found_whole w).

Definition with_memory (m : gmap (string * string) ContactMark) (i : gmap (string * string) (gset string)) (w : world) : world :=
  MkWorld (store w) m i (pending_head_records w) (posted w) (answered w) (found_whole w).

Definition log_post (x : string * option string * RpcRequest) (w : world) : world :=
  MkWorld (store w) (marks w) (incomplete w) (pending_head_records w) (x :: posted w) (answered w) (found_whole w).

Definition log_answer (x : string * RpcRequest * RpcResponse) (w : world) : world :=
  MkWorld (store w) (marks w) (incomplete w) (pending_head_records w) (posted w) (x :: answered w) (found_whole w).

Definition log_object (h content : string) (w : world) : world :=
  MkWorld (store w) (marks w) (incomplete w) (pending_head_records w) (posted w) (answered w) ((h, str_len content) :: found_whole w).

Definition others_go (l : list (trouble_of * Change)) (w : world) : world :=
  with_store (foldl (fun st x => apply_change x.1 x.2 st) (store w) l) w.

Definition write_store {A} (written : storage * A) (w : world) : world * A := (with_store written.1 w, written.2).

Definition answer (op : Op) : Answer op -> world -> world * Reply op :=
  match op return Answer op -> world -> world * Reply op with
  | SelectOrigin timed l => fun c w => (w, select_from timed c l)
  | Post device origin request range => fun r w => (log_post (device, origin, request) w, r)
  | Decode device request text => fun r w =>
      (match r with Some response => log_answer (device, request, response) w | None => w end, r)
  | Heads person => fun _ w => (w, heads (store w) person)
  | Records person game => fun _ w => (w, records (store w) person game)
  | RecordOf person game i => fun _ w => (w, record (store w) person game i)
  | Complete person game i => fun _ w => (w, complete (store w) person game i)
  | ConfirmedSnapshots person game device => fun _ w => (w, confirmed_snapshots (store w) person game device)
  | Confirm person game i device => fun fault w => write_store (confirm fault (store w) person game i device) w
  | PutRecord person r => fun fault w => write_store (put_record fault (store w) person r) w
  | ObjectOf person h => fun _ w =>
      let r := object (store w) person h in (match r with Ok content => log_object h content w | Err _ => w end, r)
  | PutObject person h content => fun fault w =>
      let '(w, r) := write_store (put_object fault (store w) person h content) w in
      (match r with Ok _ => log_object h content w | Err _ => w end, r)
  | ReadMark person device => fun _ w => (w, marks w !! (person, device))
  | WriteMark person device mark => fun _ w => (with_memory (<[(person, device) := mark]> (marks w)) (incomplete w) w, tt)
  | ReadIncomplete person device => fun _ w => (w, default ∅ (incomplete w !! (person, device)))
  | AddIncomplete person device i => fun _ w =>
      (with_memory (marks w) (<[(person, device) := {[i]} ∪ default ∅ (incomplete w !! (person, device))]> (incomplete w)) w, tt)
  | Pending f => fun _ w => (with_pending f w, tt)
  | Identity | OwnKey | Directory | NearbyIp _ | HasRoute _ | BeginWork _ _ | SetPeerState _ _ | ReachConnection _ | Encode _ _
  | Now | PrivateRoot | OpenTemporary | ResetTemporary | InUse _ _ | Forever => fun r w => (w, r)
  end.

Definition effect (op : Op) (c : Choice op) (w : world) : world * Reply op := answer op c.2 (others_go c.1 w).

(** ** Whom to speak with *)

Notation program A := (prog Op Reply (result PeerSaveError A)).

Definition call (op : Op) : prog Op Reply (Reply op) := Do op Ret.

Definition fail {A} (e : PeerSaveError) : program A := Ret (Err e).
Definition done_ {A} (a : A) : program A := Ret (Ok a).

(** A loop that takes more steps than the model gives it goes on forever. *)
Definition forever {A} : program A := Do Forever (fun e : Empty_set => match e with end).

(** The worker thread reports its panic. *)
Definition stored {A} (r : outcome A) : result PeerSaveError A :=
  match r with
  | Ok a => Ok a
  | Err (Error e) => Err (SaveFailed e)
  | Err (Panic _) => Err (SaveFailed (SaveStorage "save worker stopped"))
  end.

(** [validate_hash]. *)
Definition validate_hash (h : string) : result PeerSaveError unit :=
  match hash_hex h with Some _ => Ok () | None => Err Protocol end.

Definition owner : program string :=
  bind (call Identity) (fun o => match o with Some o => done_ o | None => fail Unauthorized end).

Definition require_owner (person : string) : program unit :=
  step! o <- owner ;; if bool_decide (o = person) then done_ () else fail Unauthorized.

(** Every candidate must be an origin. *)
Definition checked_origins (l : list string) : option (list string) := mapM peer_origin l.

Definition is_own_peer (person device : string) (p : PeerSnapshot) : bool :=
  bool_decide (device_public_key p = device) && bool_decide (owner_public_key p = person) && owned p.

Definition endpoint (p : PeerSnapshot) : list string :=
  default [] (match current_endpoint p with Some l => Some l | None => remembered_endpoint p end).

Definition origins (person device : string) : program (list string) :=
  step! _ <- require_owner person ;;
  bind (call Directory) (fun peers =>
  match peers ≫= (fun peers => head (keep (is_own_peer person device) peers)) with
  | None => fail Unauthorized
  | Some peer =>
      match checked_origins (endpoint peer) with
      | None => fail Protocol
      | Some candidates => bind (call (NearbyIp device)) (fun ip => done_ (prepend_ip ip candidates))
      end
  end).

(** ** A request *)

Definition MAX_PEER_EVENT_BYTES : Z := 6 * 1024 * 1024.

Definition is_success (status : Z) : bool := between 200 status 299.

Fixpoint gather (text : string) (pieces : list piece) (f : Finish) : result PeerSaveError string :=
  match pieces with
  | [] => match f with Finished => Ok text | Broken => Err Network | Stalled => Err Deadline end
  | p :: pieces =>
      if MAX_PEER_EVENT_BYTES <? str_len text + str_len (chunk p) then Err Protocol else gather (text +:+ chunk p) pieces f
  end.

(** The answer of the peer to what was sent. *)
Definition read_response (person peer : string) (request : RpcRequest) (p : Posting) : program RpcResponse :=
  match p with
  | PostLate => fail Deadline
  | PostFailed => fail Network
  | Responded r =>
      if negb (is_success (status r)) then fail Network
      else
        step! text <- Ret (gather EmptyString (body r) (body_end r)) ;;
        step! _ <- origins person peer ;;
        match to_str text with
        | None => fail Protocol
        | Some text =>
            bind (call (Decode peer request text)) (fun response =>
            match response with Some response => done_ response | None => fail Protocol end)
        end
  end.

Definition read_only (request : RpcRequest) : bool :=
  match request with
  | SaveHeadsRequest | SaveInUseRequest _ => true
  | SaveRecordsRequest _ _ pushed => is_none pushed
  | SaveObjectRequest _ => false
  end.

(** Sent to one origin, or over the connection that reaches the device. *)
Definition send_to (person peer : string) (request : RpcRequest) (origin : option string) : program RpcResponse :=
  step! _ <- origins person peer ;;
  bind (call (Encode peer request)) (fun encoded =>
  if (encoded : bool) then bind (call (Post peer origin request None)) (read_response person peer request)
  else fail Unauthorized).

(** The loop over the origins: a round for each of them and one for the connection. *)
Fixpoint try_origins (fuel : nat) (person peer : string) (request : RpcRequest) (rest : list string) (reach_tried : bool)
    : program RpcResponse :=
  match fuel with
  | O => forever
  | S fuel =>
      if bool_decide (rest = []) && reach_tried then fail Network
      else
        let sent (origin : option string) (rest : list string) (reach_tried : bool) :=
          bind (send_to person peer request origin) (fun r =>
          match r with
          | Err Network => if read_only request then try_origins fuel person peer request rest reach_tried else fail Network
          | r => Ret r
          end) in
        bind (call (SelectOrigin true rest)) (fun selected =>
        match selected with
        | SelectLate => fail Deadline
        | SelectOrigin_ origin rest => sent (Some origin) rest reach_tried
        | SelectNone =>
            if reach_tried then fail Network
            else bind (call (ReachConnection peer)) (fun reached => if (reached : bool) then sent None [] true else fail Network)
        end)
  end.

(** The result, and whether work on the peer was begun. *)
Definition request_candidates (person peer : string) (request : RpcRequest) (contact : bool)
    : prog Op Reply (bool * result PeerSaveError RpcResponse) :=
  bind (origins person peer) (fun found =>
  match found with
  | Err e => Ret (false, Err e)
  | Ok found =>
      bind (if bool_decide (found = []) then call (HasRoute peer) else Ret true) (fun route =>
      if (route : bool) then
        bind (call (BeginWork peer contact)) (fun begun =>
        if (begun : bool) then
          bind (try_origins (S (S (length found))) person peer request found false) (fun r => Ret (true, r))
        else Ret (false, Err Unauthorized))
      else Ret (false, Err Network))
  end).

Definition request {A} (person peer : string) (req : RpcRequest) (contact : bool) (checked : RpcResponse -> result PeerSaveError A)
    : program A :=
  bind (request_candidates person peer req contact) (fun '(begun, r) =>
  let result := r ≫= checked in
  if (begun : bool) then Do (SetPeerState peer (is_ok result)) (fun _ => Ret result) else Ret result).

Definition heads_outcome (r : RpcResponse) : result PeerSaveError (list GameSaveHeads) :=
  match r with SaveHeadsResponse (Some value) => Ok value | SaveHeadsResponse None => Err Network | _ => Err Protocol end.

Definition records_outcome (r : RpcResponse) : result PeerSaveError SaveRecords :=
  match r with SaveRecordsResponse (Some value) => Ok value | SaveRecordsResponse None => Err Network | _ => Err Protocol end.

Definition in_use_outcome (peer : string) (r : RpcResponse) : result PeerSaveError SaveInUse :=
  match r with
  | SaveInUseResponse (Some value) =>
      if match value with
         | InUseActive device in_use _ => bool_decide (device = peer) && in_use
         | InUseIdle device in_use => bool_decide (device = peer) && negb in_use
         end
      then Ok value else Err Protocol
  | SaveInUseResponse None => Err Network
  | _ => Err Protocol
  end.

Definition remote_heads (person peer : string) (contact : bool) : program (list GameSaveHeads) :=
  request person peer SaveHeadsRequest contact heads_outcome.

Definition remote_records (person peer game : string) (ids : list string) (pushed : option (list SnapshotRecord)) (contact : bool)
    : program SaveRecords :=
  request person peer (SaveRecordsRequest game ids pushed) contact records_outcome.

Definition remote_in_use (person peer game : string) : program SaveInUse :=
  request person peer (SaveInUseRequest game) false (in_use_outcome peer).

(** ** Records and objects *)

Definition import_record (person peer : string) (r : SnapshotRecord) (expected : option string) : program string :=
  step! _ <- origins person peer ;;
  step! i <- Ret (stored (snapshot_id r)) ;;
  if match expected with Some e => negb (bool_decide (e = i)) | None => false end then fail Protocol
  else
    step! _ <- bind (call (PutRecord person r)) (fun written => Ret (stored written)) ;;
    done_ i.

(** [TRANSFER] and [STALL_TIMEOUT] in nanoseconds. *)
Definition SECOND : Z := 1000000000.
Definition STALL_TIMEOUT : Z := 60 * SECOND.

Definition f64_add (a b : f64) : f64 := SFadd 53 1024 a b.

(** [Duration::as_secs_f64]. *)
Definition as_secs_f64 (nanos : Z) : f64 :=
  f64_add (f64_of_Z (nanos / SECOND)) (f64_div (f64_of_Z (nanos mod SECOND)) (f64_of_Z SECOND)).

(** Less than a kibibyte in a second. *)
Definition is_slow (bytes elapsed : Z) : bool := f64_lt (f64_div (f64_of_Z bytes) (as_secs_f64 elapsed)) (f64_of_Z 1024).

(** What is in the private file, and whether the body was read to its end. *)
Fixpoint receive (bytes window_start window_bytes : Z) (got : string) (pieces : list piece) (f : Finish)
    : result PeerSaveError (string * bool) :=
  match pieces with
  | [] => Ok (got, match f with Finished => true | _ => false end)
  | p :: pieces =>
      let done := str_len got + str_len (chunk p) in
      if (u64_max <? done) || (bytes <? done) then Err Protocol
      else
        let elapsed := arrived p - window_start in
        if (STALL_TIMEOUT <=? elapsed) && is_slow (done - window_bytes) elapsed then Ok (got, false)
        else
          match write_error p with
          | Some message => Err (SaveFailed (SaveStorage message))
          | None =>
              if STALL_TIMEOUT <=? elapsed then receive bytes (resumed p) done (got +:+ chunk p) pieces f
              else receive bytes window_start window_bytes (got +:+ chunk p) pieces f
          end
  end.

(** What the status says of the body: no use of it, a whole one, or a continuation. *)
Inductive Start : Type := Again (restart : bool) | FromStart | Continue.

Definition start_of (r : Response) (done bytes : Z) : result PeerSaveError Start :=
  if status r =? 416 then Ok (Again true)
  else if status r =? 200 then Ok FromStart
  else if status r =? 206 then
    match content_range_header r with
    | None => Err Protocol
    | Some range => _ ← validate_content_range range done bytes; Ok Continue
    end
  else Ok (Again false).

Definition reset (got : string) : program string :=
  bind (call ResetTemporary) (fun failed =>
  match failed with Some message => fail (SaveFailed (SaveStorage message)) | None => done_ EmptyString end).

(** The body of a response. [None]: the attempt brought nothing to its end; what is in
    the file stays. *)
Definition take_body (file : SaveFile) (got : string) (r : Response) : program (string * option bool) :=
  step! start <- Ret (start_of r (str_len got) (file_bytes file)) ;;
  match start with
  | Again false => done_ (got, None)
  | Again true => step! got <- reset got ;; done_ (got, None)
  | _ =>
      step! got <- (match start with FromStart => reset got | _ => done_ got end) ;;
      if match content_length r with Some n => negb (n =? Z.max 0 (file_bytes file - str_len got)) | None => false end then fail Protocol
      else
        bind (call Now) (fun now =>
        step! received <- Ret (receive (file_bytes file) now (str_len got) got (body r) (body_end r)) ;;
        done_ (received.1, Some received.2))
  end.

(** The object is whole: [None] when its hash is another. *)
Definition keep_object (person peer : string) (file : SaveFile) (got : string) : program (option unit) :=
  if negb (bool_decide (hash got = sha256 file)) then step! _ <- reset got ;; done_ None
  else
    step! _ <- origins person peer ;;
    bind (call (PutObject person (sha256 file) got)) (fun written => step! _ <- Ret (stored written) ;; done_ (Some ())).

Definition target_of (peer : string) (candidates : list string) : prog Op Reply (option (option string)) :=
  bind (call (SelectOrigin false candidates)) (fun selected =>
  match selected with
  | SelectOrigin_ origin _ => Ret (Some (Some origin))
  | _ => bind (call (ReachConnection peer)) (fun reached => Ret (if (reached : bool) then Some None else None))
  end).

Definition with_origin (origin : option string) (tried : gset string) : gset string :=
  match origin with Some o => {[o]} ∪ tried | None => tried end.

(** [fuel] is a step for every attempt. *)
Fixpoint download (fuel : nat) (person peer : string) (file : SaveFile) (got : string) (attempt : Z) (tried : gset string) : program unit :=
  match fuel with
  | O => forever
  | S fuel =>
      step! found <- origins person peer ;;
      if Z.max (Z.of_nat (length found)) 6 <=? attempt then fail Network
      else
        let fresh := keep (fun o => negb (bool_decide (o ∈ tried))) found in
        let '(candidates, tried) := if bool_decide (fresh = []) then (found, ∅) else (fresh, tried) in
        bind (target_of peer candidates) (fun target =>
        match target with
        | None => download fuel person peer file got (attempt + 1) tried
        | Some origin =>
            let tried := with_origin origin tried in
            bind (call (Encode peer (SaveObjectRequest (sha256 file)))) (fun encoded =>
            if negb encoded then fail Unauthorized
            else
              bind (call (Post peer origin (SaveObjectRequest (sha256 file))
                (if 0 <? str_len got then Some (resume_range (str_len got)) else None))) (fun p =>
              match p with
              | Responded r =>
                  step! (got, finished) <- take_body file got r ;;
                  match finished with
                  | None => download fuel person peer file got (attempt + 1) tried
                  | Some finished =>
                      let tried := if (0 <? str_len got) && (str_len got <? file_bytes file) then ∅ else tried in
                      if finished && (str_len got =? file_bytes file) then
                        step! kept <- keep_object person peer file got ;;
                        match kept with
                        | Some _ => done_ ()
                        | None => download fuel person peer file EmptyString (attempt + 1) tried
                        end
                      else download fuel person peer file got (attempt + 1) tried
                  end
              | _ => download fuel person peer file got (attempt + 1) tried
              end))
        end)
  end.

Definition download_object (fuel : nat) (person peer : string) (file : SaveFile) : program unit :=
  step! _ <- Ret (validate_hash (sha256 file)) ;;
  bind (call PrivateRoot) (fun root =>
  match root with
  | Err message => fail (SaveFailed (SaveStorage message))
  | Ok (is_dir, mode) =>
      if negb is_dir || negb (Z.land mode 63 =? 0) then fail Unauthorized
      else
        bind (call OpenTemporary) (fun failed =>
        match failed with
        | Some message => fail (SaveFailed (SaveStorage message))
        | None => download fuel person peer file EmptyString 0 ∅
        end)
  end).

Definition object_size (r : outcome string) : result PeerSaveError (option Z) :=
  match r with
  | Ok content => Ok (Some (str_len content))
  | Err (Error SaveMissing) => Ok None
  | Err e => stored (Err e)
  end.

Fixpoint fetch_files (fuel : nat) (person peer : string) (l : list SaveFile) : program unit :=
  match l with
  | [] => done_ ()
  | file :: l =>
      step! present <- bind (call (ObjectOf person (sha256 file))) (fun r => Ret (object_size r)) ;;
      step! _ <- (match present with
        | None => download_object fuel person peer file
        | Some n => if n =? file_bytes file then done_ () else fail Protocol
        end) ;;
      fetch_files fuel person peer l
  end.

Definition fetch_record_payload (fuel : nat) (person peer : string) (r : SnapshotRecord) : program unit :=
  fetch_files fuel person peer (all_files r).

Fixpoint confirm_all (person game device : string) (l : list string) : program unit :=
  match l with
  | [] => done_ ()
  | i :: l =>
      step! _ <- bind (call (Confirm person game i device)) (fun r => Ret (stored r)) ;;
      confirm_all person game device l
  end.

Definition confirm_response (person peer game : string) (requested confirmed : list string) : program unit :=
  if existsb (fun i => negb (bool_decide (i ∈ requested))) confirmed then fail Protocol
  else
    step! _ <- require_owner person ;;
    confirm_all person game peer confirmed.

(** ** What the device answers *)

(** Who asks: a device of an owner, or anybody else. *)
Inductive AuthorizationContext : Type := OwnerDevice (owner device : string) | OtherContext.

Definition principal (context : AuthorizationContext) : program (string * string) :=
  match context with
  | OwnerDevice person device => step! _ <- require_owner person ;; done_ (person, device)
  | OtherContext => fail Unauthorized
  end.

Definition answer_heads (context : AuthorizationContext) : program (list GameSaveHeads) :=
  step! (person, _) <- principal context ;;
  bind (call (Heads person)) (fun r => Ret (stored r)).

Definition answer_in_use (context : AuthorizationContext) (game : string) : program SaveInUse :=
  step! (person, _) <- principal context ;;
  bind (call OwnKey) (fun device =>
  match device with
  | None => fail Unauthorized
  | Some device =>
      bind (call (InUse person game)) (fun since =>
      match since with
      | Err e => fail (SaveFailed e)
      | Ok (Some since) => done_ (InUseActive device true since)
      | Ok None => done_ (InUseIdle device false)
      end)
  end).

Fixpoint validate_hashes (l : list string) : result PeerSaveError unit :=
  match l with [] => Ok () | h :: l => _ ← validate_hash h; validate_hashes l end.

Fixpoint import_pushed (person peer game : string) (l : list SnapshotRecord) : program unit :=
  match l with
  | [] => done_ ()
  | r :: l =>
      if negb (bool_decide (snap_game r = game)) then fail Protocol
      else step! _ <- import_record person peer r None ;; import_pushed person peer game l
  end.

Definition is_advertised (game : string) (heads : list GameSaveHeads) (i : string) : bool :=
  existsb (fun g => bool_decide (heads_game g = game) && bool_decide (i ∈ game_heads g)) heads.

Fixpoint fetch_pushed (fuel : nat) (person peer game : string) (heads : list GameSaveHeads) (l : list SnapshotRecord) : program unit :=
  match l with
  | [] => done_ ()
  | r :: l =>
      step! i <- Ret (stored (snapshot_id r)) ;;
      step! _ <- (if is_advertised game heads i then fetch_record_payload fuel person peer r else done_ ()) ;;
      fetch_pushed fuel person peer game heads l
  end.

Definition take_pushed (fuel : nat) (person peer game : string) (l : list SnapshotRecord) : program unit :=
  step! _ <- import_pushed person peer game l ;;
  step! ids <- Ret (stored (try_map snapshot_id l)) ;;
  if bool_decide (ids = []) then done_ ()
  else
    step! heads <- remote_heads person peer false ;;
    step! _ <- fetch_pushed fuel person peer game heads l ;;
    step! response <- remote_records person peer game ids None false ;;
    confirm_response person peer game ids (confirmed response).

Fixpoint read_requested (person game : string) (ids : list string) (response : SaveRecords) : program SaveRecords :=
  match ids with
  | [] => done_ response
  | i :: ids =>
      step! found <- bind (call (RecordOf person game i)) (fun r => Ret (stored r)) ;;
      match found with
      | None => read_requested person game ids response
      | Some r =>
          step! whole <- bind (call (Complete person game i)) (fun r => Ret (stored r)) ;;
          read_requested person game ids
            (MkSaveRecords (sent_records response ++ [r]) (confirmed response ++ (if (whole : bool) then [i] else [])))
      end
  end.

Definition answer_records (fuel : nat) (context : AuthorizationContext) (game : string) (ids : list string)
    (pushed : option (list SnapshotRecord)) : program SaveRecords :=
  step! (person, peer) <- principal context ;;
  step! _ <- Ret (validate_hashes ids) ;;
  step! _ <- (match pushed with Some l => take_pushed fuel person peer game l | None => done_ () end) ;;
  step! _ <- require_owner person ;;
  read_requested person game (btree_elements (list_to_set ids)) (MkSaveRecords [] []).

Definition answer_object (context : AuthorizationContext) (h : string) : program string :=
  step! _ <- Ret (validate_hash h) ;;
  step! (person, _) <- principal context ;;
  bind (call (ObjectOf person h)) (fun r => Ret (stored r)).

Definition slice (offset length : Z) (s : string) : string :=
  of_text (take (Z.to_nat length) (drop (Z.to_nat offset) (to_text s))).

(** The file is read in blocks; [reads] says how much of a block a read brings. *)
Fixpoint object_stream (reads : list Z) (content : string) (offset remaining : Z) : list string * Finish :=
  if remaining =? 0 then ([], Finished)
  else
    match reads with
    | [] => ([], Broken)
    | n :: reads =>
        let part := slice offset (Z.min n (Z.min remaining (64 * 1024))) content in
        if str_is_empty part then ([], Broken)
        else
          let '(parts, f) := object_stream reads content (offset + str_len part) (remaining - str_len part) in (part :: parts, f)
    end.

(** Where the part starts, its length, and whether it is a part. *)
Definition requested_range (ranges : list (option string)) (bytes : Z) : option (Z * Z * bool) :=
  match ranges with
  | [] => Some (0, bytes, false)
  | [value] => value ← value; '(start, length) ← byte_range value bytes; Some (start, length, true)
  | _ => None
  end.

(** The status, the headers and the body for an object. *)
Definition object_reply (ranges : list (option string)) (content : string) (reads : list Z)
    : Z * option string * option Z * (list string * Finish) :=
  let bytes := str_len content in
  match requested_range ranges bytes with
  | None => (416, Some ("bytes */" +:+ decimal bytes), None, ([], Finished))
  | Some (offset, length, partial) =>
      (if partial then 206 else 200, if partial then Some (content_range offset length bytes) else None, Some length,
       object_stream reads content offset length)
  end.

(** ** A resumed transfer *)

Lemma digits_no_byte b s : ~ (48 <= b <= 57) -> all_chars is_ascii_digit s = true -> all_chars (fun a => negb (is_byte b a)) s = true.
Proof.
  intros Hb. apply all_chars_impl. intros a Ha%is_digit_byte. apply negb_true_iff, Z.eqb_neq. lia.
Qed.

Lemma split_decimal sep a n t : is_byte sep a = true -> ~ (48 <= sep <= 57) -> 0 <= n -> split_once sep (decimal n +:+ SCons a t) = Some (decimal n, t).
Proof. intros Ha Hs Hn. apply split_once_app; [done|]. apply digits_no_byte; [done|]. by apply decimal_digits. Qed.

Lemma no_dash_split n t : 0 <= n -> split_once DASH (decimal n +:+ SCons "-" t) = Some (decimal n, t).
Proof. intros Hn. apply split_decimal; [done|unfold DASH; lia|done]. Qed.

Lemma resume_asks done bytes : 0 <= done < bytes -> bytes <= u64_max -> byte_range (resume_range done) bytes = Some (done, bytes - done).
Proof.
  intros Hd Hb. unfold byte_range, resume_range. rewrite (proj2 (Z.eqb_neq bytes 0)) by lia.
  rewrite strip_prefix_app. cbn [mbind option_bind]. rewrite no_dash_split by lia. cbn [mbind option_bind].
  rewrite decimal_digits by lia. cbn [andb negb all_chars]. rewrite decimal_nonempty. unfold parse_u64.
  rewrite from_to_decimal by lia. cbn [mbind option_bind str_is_empty].
  rewrite (proj2 (Z.ltb_ge (bytes - 1) done)), (proj2 (Z.leb_gt bytes done)) by lia. cbn [orb]. f_equal. f_equal. lia.
Qed.

Lemma part_accepted done bytes : 0 <= done < bytes -> bytes <= u64_max ->
  validate_content_range (content_range done (bytes - done) bytes) done bytes = Ok ().
Proof.
  intros Hd Hb. unfold validate_content_range, content_range. rewrite strip_prefix_app. cbn [mbind option_bind].
  replace (done + (bytes - done) - 1) with (bytes - 1) by lia.
  assert (Hs : split_once SLASH (decimal done +:+ "-" +:+ decimal (bytes - 1) +:+ "/" +:+ decimal bytes) =
    Some (decimal done +:+ "-" +:+ decimal (bytes - 1), decimal bytes)).
  { replace (decimal done +:+ "-" +:+ decimal (bytes - 1) +:+ "/" +:+ decimal bytes)
      with ((decimal done +:+ "-" +:+ decimal (bytes - 1)) +:+ SCons "/" (decimal bytes)) by (by rewrite <- !append_assoc).
    apply split_once_app; [done|].
    rewrite !all_chars_text, !to_text_app, !forallb_app, <- !all_chars_text.
    rewrite (digits_no_byte SLASH (decimal done)), (digits_no_byte SLASH (decimal (bytes - 1)))
      by (first [apply decimal_digits; lia | unfold SLASH; lia]). done. }
  rewrite Hs. cbn [mbind option_bind]. change ("-" +:+ decimal (bytes - 1)) with (SCons "-" (decimal (bytes - 1))).
  rewrite no_dash_split by lia. cbn [mbind option_bind]. unfold parse_u64. rewrite !from_to_decimal by lia. cbn [mbind option_bind].
  rewrite (Z.eqb_refl done), (proj2 (Z.leb_gt u64_max (bytes - 1))), (proj2 (Z.leb_gt bytes done)) by lia.
  replace (bytes - 1 + 1) with bytes by lia. by rewrite !Z.eqb_refl.
Qed.

Lemma slice_after s t n : slice (str_len s) n (s +:+ t) = of_text (take (Z.to_nat n) (to_text t)).
Proof. unfold slice. by rewrite to_text_app, str_len_text, Nat2Z.id, drop_app_length. Qed.

Definition concat_text (l : list string) : string := of_text (concat (to_text <$> l)).

Lemma str_len_nonneg s : 0 <= str_len s.
Proof. unfold str_len. lia. Qed.

(** Every read brings something, and there is one for every byte: the body is whole. *)
Lemma stream_whole reads a t parts f :
  object_stream reads (a +:+ t) (str_len a) (str_len t) = (parts, f) ->
  (f = Finished -> concat_text parts = t) /\ (Forall (fun n => 0 < n) reads -> str_len t <= Z.of_nat (length reads) -> f = Finished).
Proof.
  revert a t parts f. induction reads as [|n reads IH]; intros a t parts f.
  - cbn [object_stream]. destruct (Z.eqb_spec (str_len t) 0) as [Ht|Ht]; intros [= <- <-].
    + split; [|done]. intros _. destruct t; [done|]. rewrite str_len_text in Ht. cbn in Ht. lia.
    + split; [done|]. intros _ Hl. cbn in Hl. pose proof (str_len_nonneg t). lia.
  - cbn [object_stream]. destruct (Z.eqb_spec (str_len t) 0) as [Ht|Ht].
    { intros [= <- <-]. split; [|done]. intros _. destruct t; [done|]. rewrite str_len_text in Ht. cbn in Ht. lia. }
    set (m := Z.min n (Z.min (str_len t) (64 * 1024))). rewrite slice_after.
    set (k := Z.to_nat m). set (part := of_text (take k (to_text t))). set (more := of_text (drop k (to_text t))).
    assert (Hsplit : t = part +:+ more) by (unfold part, more; by rewrite <- of_text_app, take_drop, of_to_text).
    assert (Hlen : str_len part = Z.of_nat (k `min` length (to_text t))) by (unfold part; by rewrite str_len_text, to_of_text, length_take).
    assert (Hmore : str_len t - str_len part = str_len more) by (rewrite Hsplit at 1; rewrite str_len_app; lia).
    destruct (str_is_empty part) eqn:He.
    { intros [= <- <-]. split; [done|]. intros [Hn _]%Forall_cons_1 _. exfalso. assert (str_len part = 0) by (by destruct part).
      pose proof (str_len_text t) as Hl. pose proof (str_len_nonneg t). unfold k, m in Hlen. lia. }
    clearbody part more. clear Hlen k m. rewrite Hmore. replace (str_len a + str_len part) with (str_len (a +:+ part)) by (by rewrite str_len_app).
    subst t. rewrite append_assoc. destruct (object_stream reads _ _ _) as [ps f'] eqn:Hs.
    apply IH in Hs as [Hc Hf]. intros [= <- <-]. split.
    + intros ->. unfold concat_text. cbn [fmap list_fmap concat]. rewrite of_text_app, of_to_text. fold (concat_text ps). by rewrite Hc.
    + intros [Hn Hr]%Forall_cons_1 Hl. apply Hf; [done|]. cbn [length] in Hl. rewrite str_len_app in Hl.
      assert (str_len part <> 0) by (destruct part; [done|rewrite str_len_text; cbn; lia]). pose proof (str_len_nonneg part). lia.
Qed.

(** What a transfer asks for after [got]. *)
Definition asked (got : string) : list (option string) := if 0 <? str_len got then [Some (resume_range (str_len got))] else [].

(** C29: A device that has the object answers a transfer that was cut off with the bytes
    that are missing: the answer is accepted at every length and boundary, and what
    was there with the body of the answer is the object. *)
Theorem transfer_resumes content got rest reads pieces :
  content = got +:+ rest -> rest <> EmptyString -> str_len content <= u64_max ->
  let '(st, range, len, (parts, f)) := object_reply (asked got) content reads in
  start_of (MkResponse st range len pieces f) (str_len got) (str_len content)
    = Ok (if str_is_empty got then FromStart else Continue) /\
  len = Some (str_len content - str_len got) /\
  (f = Finished -> got +:+ concat_text parts = content) /\
  (Forall (fun n => 0 < n) reads -> str_len rest <= Z.of_nat (length reads) -> f = Finished).
Proof.
  intros -> Hrest Hmax. assert (Hpos : 0 < str_len rest) by (destruct rest; [done|rewrite str_len_text; cbn; lia]).
  pose proof (str_len_nonneg got) as Hgot. rewrite str_len_app in Hmax. unfold object_reply, asked.
  destruct (Z.ltb_spec 0 (str_len got)) as [Hg|Hg]; cbn [requested_range].
  - assert (He : str_is_empty got = false) by (by destruct got). rewrite He. cbn [mbind option_bind].
    rewrite str_len_app, resume_asks by lia. cbn [mbind option_bind]. replace (str_len got + str_len rest - str_len got) with (str_len rest) by lia.
    destruct (object_stream reads (got +:+ rest) (str_len got) (str_len rest)) as [parts f] eqn:Hs. apply stream_whole in Hs as [Hc Hf].
    split; [|split; [done|split; [|done]]]; [|intros Hfin; by rewrite (Hc Hfin)].
    unfold start_of. cbn [status content_range_header]. replace (206 =? 416) with false by done. replace (206 =? 200) with false by done.
    rewrite Z.eqb_refl. pose proof (part_accepted (str_len got) (str_len got + str_len rest) ltac:(lia) ltac:(lia)) as Hp.
    replace (str_len got + str_len rest - str_len got) with (str_len rest) in Hp by lia. by rewrite Hp.
  - assert (got = EmptyString) as -> by (destruct got; [done|rewrite str_len_text in Hg; cbn in Hg; lia]).
    change (EmptyString +:+ rest) with rest. destruct (object_stream reads rest 0 (str_len rest)) as [parts f] eqn:Hs.
    apply (stream_whole reads EmptyString rest) in Hs as [Hc Hf]. split; [done|]. split; [by rewrite Z.sub_0_r|]. split; [|done].
    intros Hfin. by rewrite (Hc Hfin).
Qed.

(** ** Pushes are sent once *)

Notation ends := (Programs.ends (Reply:=Reply) (Choice:=Choice) effect).
Notation stops := (Programs.stops (Reply:=Reply) (Choice:=Choice) effect).

Definition is_post (op : Op) : bool := match op with Post _ _ _ _ => true | _ => false end.

Definition same_posts (w w' : world) : Prop := posted w' = posted w.

#[local] Instance same_posts_refl : Reflexive same_posts.
Proof. by intros w. Qed.

#[local] Instance same_posts_trans : Transitive same_posts.
Proof. intros x y z Hxy Hyz. unfold same_posts in *. congruence. Qed.

Lemma effect_posts op c w : is_post op = false -> same_posts w (effect op c w).1.
Proof.
  unfold same_posts. destruct c as [l a]. unfold effect. cbn [fst snd]. destruct op; intros Hp; try discriminate; cbn [answer]; try done.
  - by destruct a.
  - by destruct (object _ _ _).
  - unfold write_store. by destruct (put_object _ _ _ _ _) as [st [|]].
Qed.

Notation posts_nothing := (asks (fun op => is_post op = false)).

Lemma silent_posts {A} (p : prog Op Reply A) w w' a : posts_nothing p -> ends p w w' a -> posted w' = posted w.
Proof. intros Hp He. apply (ends_related same_posts (fun op => is_post op = false) effect_posts p w w' a Hp He). Qed.

Lemma origins_silent person device : posts_nothing (origins person device).
Proof.
  unfold origins, require_owner, owner. repeat (apply asks_attempt; [|intros ?]).
  - apply asks_bind; [by repeat split|]. by intros [].
  - by case_bool_decide.
  - apply asks_bind; [by repeat split|]. intros o. destruct (_ ≫= _); [|done]. destruct (checked_origins _); [|done].
    apply asks_bind; [by repeat split|]. done.
Qed.

Lemma read_response_silent person peer req p : posts_nothing (read_response person peer req p).
Proof.
  destruct p as [| |r]; [done..|]. cbn [read_response]. destruct (negb _); [done|]. apply asks_attempt; [done|]. intros text.
  apply asks_attempt; [apply origins_silent|]. intros _. destruct (to_str text); [|done]. apply asks_bind; [by repeat split|]. by intros [].
Qed.

(** No post, or one of this request. *)
Definition posts_once (peer : string) (req : RpcRequest) (w w' : world) : Prop :=
  posted w' = posted w \/ exists origin, posted w' = (peer, origin, req) :: posted w.

Lemma posts_once_later peer req w w1 w' : posted w1 = posted w -> posts_once peer req w1 w' -> posts_once peer req w w'.
Proof. unfold posts_once. by intros ->. Qed.

Lemma posts_once_before peer req w w1 w' : posted w' = posted w1 -> posts_once peer req w w1 -> posts_once peer req w w'.
Proof. unfold posts_once. by intros ->. Qed.

Lemma ends_call op w w' r : ends (call op) w w' r -> exists c, w' = (effect op c w).1 /\ r = (effect op c w).2.
Proof. intros (c & -> & ->). by exists c. Qed.

Lemma call_silent op : is_post op = false -> posts_nothing (call op).
Proof. by repeat split. Qed.

Lemma send_to_once person peer req origin w w' r : ends (send_to person peer req origin) w w' r -> posts_once peer req w w'.
Proof.
  intros (w1 & x & Ho & Hf)%ends_bind. apply silent_posts in Ho; [|apply origins_silent].
  apply (posts_once_later _ _ _ w1); [done|]. clear Ho. destruct x as [u|e]; [|by destruct Hf as [-> _]; left].
  apply ends_bind in Hf as (w2 & encoded & He%silent_posts & Hf); [|by apply call_silent].
  apply (posts_once_later _ _ _ w2); [done|]. clear He. destruct encoded; [|by destruct Hf as [-> _]; left].
  apply ends_bind in Hf as (w3 & p & (c & -> & ->)%ends_call & Hf). apply silent_posts in Hf; [|apply read_response_silent].
  apply (posts_once_before _ _ _ _ _ Hf). right. by exists origin.
Qed.

Lemma try_origins_once fuel person peer req rest tried w w' r :
  read_only req = false -> ends (try_origins fuel person peer req rest tried) w w' r -> posts_once peer req w w'.
Proof.
  intros Hro. destruct fuel as [|fuel]; cbn [try_origins]; [by intros [[? []] _]|].
  destruct (_ && _); [by intros [-> _]; left|]. intros (w1 & s & Hs%silent_posts & Hf)%ends_bind; [|by apply call_silent].
  apply (posts_once_later _ _ _ w1); [done|]. clear Hs.
  assert (Hsent : forall o w w', ends (bind (send_to person peer req o) (fun r =>
      match r with Err Network => if read_only req then try_origins fuel person peer req rest tried else fail Network | r => Ret r end)) w w' r ->
    posts_once peer req w w').
  { intros o v v' (v1 & x & Hx%send_to_once & Hr)%ends_bind. rewrite Hro in Hr.
    assert (v' = v1) as ->; [|done]. by destruct x as [|[]]; destruct Hr as [-> _]. }
  assert (Hsent' : forall o l b w w', ends (bind (send_to person peer req o) (fun r =>
      match r with Err Network => if read_only req then try_origins fuel person peer req l b else fail Network | r => Ret r end)) w w' r ->
    posts_once peer req w w').
  { intros o l b v v' (v1 & x & Hx%send_to_once & Hr)%ends_bind. rewrite Hro in Hr.
    assert (v' = v1) as ->; [|done]. by destruct x as [|[]]; destruct Hr as [-> _]. }
  clear Hsent. destruct s as [| |o l]; [by destruct Hf as [-> _]; left| |by eapply Hsent'].
  destruct tried; [by destruct Hf as [-> _]; left|]. apply ends_bind in Hf as (w2 & reached & Hb%silent_posts & Hf); [|by apply call_silent].
  apply (posts_once_later _ _ _ w2); [done|]. destruct reached; [by eapply Hsent'|by destruct Hf as [-> _]; left].
Qed.

(** C26: Records are pushed at most once for each request: after a failure that may have
    had an effect no other address is tried. *)
Theorem push_sent_once {A} person peer req contact (checked : RpcResponse -> result PeerSaveError A) w w' r :
  read_only req = false -> ends (request person peer req contact checked) w w' r ->
  posted w' = posted w \/ exists origin, posted w' = (peer, origin, req) :: posted w.
Proof.
  intros Hro (w1 & [begun x] & Hc & Hf)%ends_bind. apply (posts_once_before _ _ _ w1).
  { destruct begun; [destruct Hf as (c & [-> _]); by apply effect_posts|by destruct Hf as [-> _]]. }
  apply ends_bind in Hc as (w2 & found & Ho%silent_posts & Hc); [|apply origins_silent]. apply (posts_once_later _ _ _ w2); [done|].
  destruct found as [found|e]; [|by destruct Hc as [-> _]; left].
  apply ends_bind in Hc as (w3 & route & Hr%silent_posts & Hc); [|case_bool_decide; [by apply call_silent|done]].
  apply (posts_once_later _ _ _ w3); [done|]. destruct route; [|by destruct Hc as [-> _]; left].
  apply ends_bind in Hc as (w4 & b & Hb%silent_posts & Hc); [|by apply call_silent]. apply (posts_once_later _ _ _ w4); [done|].
  destruct b; [|by destruct Hc as [-> _]; left]. apply ends_bind in Hc as (w5 & y & Ht & Hy). destruct Hy as [-> _].
  by eapply try_origins_once.
Qed.

(** ** What is downloaded *)

Context `{LAWS : !StoreLaws}.

Lemma put_object_verified fault st person h content st' :
  put_object fault st person h content = (st', Ok ()) -> verified_object st' h = Ok content.
Proof.
  unfold put_object. destruct (_ ← _; _) as [name|e] eqn:Hpre; [|done]. apply bind_unit in Hpre as [_ Hh].
  destruct (publish _ _ _ _ _) as [f' w] eqn:Hpub. intros [= <- ->]. unfold verified_object, object_path. rewrite Hh.
  cbn [mbind result_bind objects]. unfold publish in Hpub. rewrite Hh in Hpub. cbn [mbind result_bind] in Hpub.
  assert (f' = <[name := Private content]> (default ∅ (objects st)) /\ sha256_hex content = name) as [-> Hs].
  { destruct (default ∅ (objects st) !! name) as [[]|]; try done;
      (case_bool_decide as Hs; cbn [demand] in Hpub; [|done]; destruct (fault name) as [[]|]; try done; by injection Hpub as <-). }
  unfold regular. rewrite lookup_insert_eq. cbn [mbind result_bind]. by rewrite bool_decide_true.
Qed.

(** A download that succeeds ends with the object in the store. *)
Definition has_object (file : SaveFile) (w : world) : Prop :=
  exists content, verified_object (store w) (sha256 file) = Ok content /\ str_len content = file_bytes file /\
    (sha256 file, file_bytes file) ∈ found_whole w.

Lemma keep_object_has person peer file got w w' u :
  str_len got = file_bytes file -> ends (keep_object person peer file got) w w' (Ok (Some u)) -> has_object file w'.
Proof.
  intros Hlen. unfold keep_object. destruct (negb _).
  { intros (w1 & a & _ & [_ ?])%ends_attempt. done. }
  intros (w1 & a & _ & Hp)%ends_attempt. apply ends_bind in Hp as (w2 & r & (c & -> & ->)%ends_call & Hp).
  unfold effect in Hp. cbn [answer] in Hp. unfold write_store in Hp.
  destruct (put_object _ _ _ _ _) as [st r] eqn:Hput. cbn [fst snd] in Hp. destruct r as [v|e]; [destruct v|by destruct e; destruct Hp].
  destruct Hp as [-> _]. exists got. split; [|split; [done|]].
  - cbn [log_object with_store store]. by eapply put_object_verified.
  - rewrite <- Hlen. by left.
Qed.

Lemma download_has fuel person peer file got attempt tried w w' :
  ends (download fuel person peer file got attempt tried) w w' (Ok ()) -> has_object file w'.
Proof.
  revert got attempt tried w. induction fuel as [|fuel IH]; intros got attempt tried w; cbn [download]; [by intros [[? []] _]|].
  intros (w1 & found & _ & Hd)%ends_attempt. destruct (_ <=? attempt); [by destruct Hd|].
  destruct (if bool_decide _ then _ else _) as [candidates tried'].
  apply ends_bind in Hd as (w2 & target & _ & Hd). destruct target as [origin|]; [|by eapply IH].
  apply ends_bind in Hd as (w3 & encoded & _ & Hd). destruct encoded; cbn [negb] in Hd; [|by destruct Hd].
  apply ends_bind in Hd as (w4 & p & _ & Hd). destruct p as [| |r]; [by eapply IH..|].
  apply ends_attempt in Hd as (w5 & [got' finished] & _ & Hd). destruct finished as [finished|]; [|by eapply IH].
  destruct (finished && _) eqn:Hfin; [|by eapply IH]. apply andb_prop in Hfin as [_ Hlen%Z.eqb_eq].
  apply ends_attempt in Hd as (w6 & kept & Hk & Hd). destruct kept as [u|]; [|by eapply IH].
  destruct Hd as [-> _]. by eapply keep_object_has.
Qed.

(** C28: A download that reports success has stored exactly an object of the hash and the
    size the record names, whatever the peers sent and however often it was cut off. *)
Theorem download_stores fuel person peer file w w' :
  ends (download_object fuel person peer file) w w' (Ok ()) ->
  exists content, verified_object (store w') (sha256 file) = Ok content /\ str_len content = file_bytes file /\
    hash content = sha256 file.
Proof.
  intros (w1 & u & _ & Hd)%ends_attempt. apply ends_bind in Hd as (w2 & root & _ & Hd).
  destruct root as [[is_dir mode]|]; [|by destruct Hd]. destruct (_ || _); [by destruct Hd|].
  apply ends_bind in Hd as (w3 & failed & _ & Hd). destruct failed; [by destruct Hd|].
  apply download_has in Hd as (content & Hv & Hl & _). exists content. split; [done|]. split; [done|].
  unfold verified_object in Hv. apply bind_ok in Hv as ([f name] & Hp & (c & _ & (hex & Hh & ([] & Hs%demand_ok%bool_decide_eq_true & [= ->])%bind_ok)%bind_ok)%bind_ok).
  apply hash_digits_spec in Hh as [-> _]. unfold hash. by rewrite Hs.
Qed.
End peers.
