(* ===== verification/SavePeer.v ===== *)
(** * The exchange of saves between the devices of a person
    (services/korrid/src/saves/peer/sync.rs)

    A device asks another for the heads of its games, imports the records they descend
    from, fetches the contents of the heads, and offers the records the other does not
    have. The programs run over the world of [Peers]. *)

From S2P Require Import Prelude Text Decimal Programs Files PlayLog Saves History SaveStore Peers.

Inductive HeldRecord : Type := Push | Read | Skip.

Inductive SyncPurpose : Type := Replicate | Contact | CheckLaunch.

#[export] Instance HeldRecord_eq_dec : EqDecision HeldRecord.
Proof. solve_decision. Defined.

#[export] Instance SyncPurpose_eq_dec : EqDecision SyncPurpose.
Proof. solve_decision. Defined.

#[export] Instance head_sets_eq_dec : EqDecision (gmap string (gset string)).
Proof. solve_decision. Defined.

Set Default Proof Using "Type*".

Section sync.
Context `{SVC : !SaveCodec, STC : !StoreCodec, URLS : !Urls}.

Notation program A := (prog Op Reply (result PeerSaveError A)).

Definition head_sets (l : list GameSaveHeads) : gmap string (gset string) :=
  foldl (fun m g => <[heads_game g := list_to_set (game_heads g)]> m) ∅ (keep (fun g => negb (bool_decide (game_heads g = []))) l).

(** What a record the peer already has as metadata still needs. *)
Definition held_record (purpose : SyncPurpose) (i : string)
    (advertised local_heads confirmed remote_complete known_incomplete : gset string) : HeldRecord :=
  match purpose with
  | CheckLaunch =>
      if bool_decide (i ∈ advertised) && negb (bool_decide (i ∈ confirmed) && bool_decide (i ∈ remote_complete)) then Push else Skip
  | _ =>
      if (bool_decide (i ∈ advertised) && negb (bool_decide (i ∈ remote_complete)))
         || (bool_decide (i ∈ local_heads) && negb (bool_decide (i ∈ confirmed)))
      then Push
      else if bool_decide (i ∈ confirmed) || bool_decide (i ∈ remote_complete) || bool_decide (i ∈ known_incomplete) then Skip
      else Read
  end.

Definition CONTACT_MEMORY_TTL : Z := 30 * 60 * SECOND.

Definition contact_unchanged (person peer : string) (remote local : gmap string (gset string)) : prog Op Reply bool :=
  bind (call (ReadMark person peer)) (fun mark =>
  match mark with
  | None => Ret false
  | Some mark =>
      bind (call Now) (fun now =>
      Ret ((now - mark_at mark <? CONTACT_MEMORY_TTL) && bool_decide (mark_remote mark = remote) && bool_decide (mark_local mark = local)))
  end).

Definition remember_contact (person peer : string) (remote local : gmap string (gset string)) : prog Op Reply unit :=
  bind (call Now) (fun now => call (WriteMark person peer (MkContactMark remote local now))).

(** The walk over the ancestry of what the peer advertises. *)
Record walked := MkWalked {
  known : gmap string SnapshotRecord;
  visited : gset string;
  head_records : list SnapshotRecord;
  confirmations : list (string * list string);
  remote_complete : gset string;
}.

Definition visit (i : string) (s : walked) : walked :=
  MkWalked (known s) ({[i]} ∪ visited s) (head_records s) (confirmations s) (remote_complete s).

(** The one record asked for, as it must be. *)
Definition single_record (game i : string) (l : list SnapshotRecord) : result PeerSaveError SnapshotRecord :=
  match l with
  | [r] =>
      if negb (bool_decide (snap_game r = game)) then Err Protocol
      else found ← stored (snapshot_id r); if bool_decide (found = i) then Ok r else Err Protocol
  | _ => Err Protocol
  end.

Definition learn (advertised : gset string) (i : string) (r : SnapshotRecord) (response : list string) (s : walked) : walked :=
  MkWalked (match known s !! i with Some _ => known s | None => <[i := r]> (known s) end) (visited s)
    (if bool_decide (i ∈ advertised) then head_records s ++ [r] else head_records s)
    (confirmations s ++ [(i, response)]) (list_to_set response ∪ remote_complete s).

(** [fuel] is a step for each name that is ever pending. *)
Fixpoint walk (fuel : nat) (person peer game : string) (contact : bool) (advertised : gset string) (pending : list string) (s : walked)
    : program walked :=
  match pending with
  | [] => done_ s
  | i :: pending =>
      match fuel with
      | O => forever
      | S fuel =>
          step! _ <- Ret (validate_hash i) ;;
          if bool_decide (i ∈ visited s) then walk fuel person peer game contact advertised pending s
          else
            let s := visit i s in
            match (if bool_decide (i ∈ advertised) then None else known s !! i) with
            | Some r => walk fuel person peer game contact advertised (pending ++ parents r) s
            | None =>
                step! response <- remote_records person peer game [i] None contact ;;
                step! r <- Ret (single_record game i (sent_records response)) ;;
                bind (call (Pending (fun p => p ∖ {[i]}))) (fun _ =>
                step! _ <- (match known s !! i with Some _ => done_ i | None => import_record person peer r (Some i) end) ;;
                walk fuel person peer game contact advertised (pending ++ parents r) (learn advertised i r (confirmed response) s))
            end
      end
  end.

Fixpoint fetch_heads (fuel : nat) (person peer : string) (l : list SnapshotRecord) : program unit :=
  match l with
  | [] => done_ ()
  | r :: l => step! _ <- fetch_record_payload fuel person peer r ;; fetch_heads fuel person peer l
  end.

Fixpoint confirm_heads (person peer game : string) (l : list (string * list string)) : program unit :=
  match l with
  | [] => done_ ()
  | (i, response) :: l => step! _ <- confirm_response person peer game [i] response ;; confirm_heads person peer game l
  end.

(** What is known of the other side when records are offered. *)
Record offering := MkOffering {
  off_purpose : SyncPurpose;
  off_advertised : gset string;
  off_visited : gset string;
  off_heads : gset string;
  off_confirmed : gset string;
  off_complete : gset string;
  off_incomplete : gset string;
}.

Definition offer_of (o : offering) (i : string) : HeldRecord :=
  if bool_decide (i ∈ off_visited o)
  then held_record (off_purpose o) i (off_advertised o) (off_heads o) (off_confirmed o) (off_complete o) (off_incomplete o)
  else Push.

Definition offer_record (person peer game : string) (contact : bool) (o : offering) (i : string) (r : SnapshotRecord) : program unit :=
  match offer_of o i with
  | Skip => done_ ()
  | Read =>
      step! response <- remote_records person peer game [i] None contact ;;
      bind (if bool_decide (i ∈ confirmed response) then Ret tt else call (AddIncomplete person peer i)) (fun _ =>
      confirm_response person peer game [i] (confirmed response))
  | Push =>
      step! response <- remote_records person peer game [i] (Some [r]) contact ;;
      confirm_response person peer game [i] (confirmed response)
  end.

Fixpoint offer (person peer game : string) (contact : bool) (o : offering) (l : list SnapshotRecord) : program unit :=
  match l with
  | [] => done_ ()
  | r :: l =>
      step! i <- Ret (stored (snapshot_id r)) ;;
      step! _ <- offer_record person peer game contact o i r ;;
      offer person peer game contact o l
  end.

Definition heads_of (game : string) (l : list GameSaveHeads) : list string :=
  concat (game_heads <$> keep (fun g => bool_decide (heads_game g = game)) l).

Definition index_all (l : list SnapshotRecord) : outcome (gmap string SnapshotRecord) :=
  named ← try_map (fun r => i ← snapshot_id r; Ok (i, r)) l;
  Ok (foldl (fun m x => <[x.1 := x.2]> m) ∅ named).

Definition is_contact (purpose : SyncPurpose) : bool := bool_decide (purpose = Contact).

Definition sync_game (fuel : nat) (person peer : string) (purpose : SyncPurpose) (remote : list GameSaveHeads) (game : string) : program unit :=
  step! records <- bind (call (Records person game)) (fun r => Ret (stored r)) ;;
  step! known <- Ret (stored (index_all records)) ;;
  step! confirmed <- bind (call (ConfirmedSnapshots person game peer)) (fun r => Ret (stored r)) ;;
  bind (call (Pending (filter (fun i => known !! i = None)))) (fun _ =>
  let advertised := list_to_set (heads_of game remote) in
  step! s <- walk fuel person peer game (is_contact purpose) advertised (heads_of game remote) (MkWalked known ∅ [] [] ∅) ;;
  step! _ <- fetch_heads fuel person peer (head_records s) ;;
  step! _ <- confirm_heads person peer game (confirmations s) ;;
  step! records <- bind (call (Records person game)) (fun r => Ret (stored r)) ;;
  step! local_heads <- Ret (stored (head_ids records)) ;;
  bind (call (ReadIncomplete person peer)) (fun incomplete =>
  offer person peer game (is_contact purpose)
    (MkOffering purpose advertised (visited s) (list_to_set local_heads) confirmed (remote_complete s) incomplete) records)).

Fixpoint sync_games (fuel : nat) (person peer : string) (purpose : SyncPurpose) (remote : list GameSaveHeads) (games : list string)
    : program unit :=
  match games with
  | [] => done_ ()
  | game :: games =>
      step! _ <- sync_game fuel person peer purpose remote game ;; sync_games fuel person peer purpose remote games
  end.

Definition wanted (only : option string) (game : string) : bool :=
  match only with Some g => bool_decide (game = g) | None => true end.

Definition games_of (only : option string) (remote local : list GameSaveHeads) : list string :=
  keep (wanted only) (btree_elements (list_to_set (heads_game <$> remote ++ local))).

Definition synchronize (fuel : nat) (person peer : string) (only : option string) (purpose : SyncPurpose) : program unit :=
  step! remote <- remote_heads person peer (is_contact purpose) ;;
  bind (call (Pending (fun p => list_to_set (concat (game_heads <$> keep (fun g => wanted only (heads_game g)) remote)) ∪ p))) (fun _ =>
  step! local <- bind (call (Heads person)) (fun r => Ret (stored r)) ;;
  bind (if is_contact purpose then contact_unchanged person peer (head_sets remote) (head_sets local) else Ret false) (fun unchanged =>
  if (unchanged : bool) then done_ ()
  else
    step! _ <- sync_games fuel person peer purpose remote (games_of only remote local) ;;
    if is_contact purpose then
      step! local <- bind (call (Heads person)) (fun r => Ret (stored r)) ;;
      bind (remember_contact person peer (head_sets remote) (head_sets local)) (fun _ => done_ ())
    else done_ ())).

(** ** Who is spoken to *)

Definition owner_peers (person : string) : program (list string) :=
  step! _ <- require_owner person ;;
  bind (call Directory) (fun peers =>
  match peers with
  | None => fail Unauthorized
  | Some peers => done_ (device_public_key <$> keep (fun p => bool_decide (owner_public_key p = person)) peers)
  end).

Definition on_contact (fuel : nat) (peer : string) : program unit :=
  step! person <- owner ;; synchronize fuel person peer None Contact.

(** What [after_snapshot] does for each of the devices. *)
Definition replicate (fuel : nat) (person game peer : string) : program unit := synchronize fuel person peer (Some game) Replicate.

Record PeerCheckResult := MkPeerCheckResult {
  checked_device : string;
  check_in_use : option SaveInUse;
  transfer : result PeerSaveError unit;
  heads_without_records : list string;
}.

(** The check of a device before a launch: the warning, then the exchange. *)
Definition check_launch (fuel : nat) (person game peer : string) : program unit :=
  synchronize fuel person peer (Some game) CheckLaunch.

(** What is reported of the two steps, each of which ended or was dropped at the deadline,
    with what is left in [w]. *)
Definition check_result (peer : string) (in_use : option (result PeerSaveError SaveInUse)) (r : option (result PeerSaveError unit)) (w : world)
    : PeerCheckResult :=
  match in_use with
  | None => MkPeerCheckResult peer None (Err Deadline) []
  | Some (Err e) => MkPeerCheckResult peer None (Err e) []
  | Some (Ok value) =>
      MkPeerCheckResult peer (Some value) (default (Err Deadline) r) (if bool_decide (pending_head_records w = ∅) then [] else [peer])
  end.

(** One device's part of [fetch_snapshot_payload]. *)
Definition fetch_from (fuel : nat) (person game i peer : string) : program unit :=
  step! response <- remote_records person peer game [i] None false ;;
  if existsb (fun c => negb (bool_decide (c = i))) (confirmed response) || (1 <? Z.of_nat (length (sent_records response))) then fail Protocol
  else
    match sent_records response with
    | [] => fail PayloadUnavailable
    | r :: _ =>
        if negb (bool_decide (i ∈ confirmed response)) then fail PayloadUnavailable
        else if negb (bool_decide (snap_game r = game)) then fail Protocol
        else
          step! _ <- import_record person peer r (Some i) ;;
          step! _ <- fetch_record_payload fuel person peer r ;;
          confirm_response person peer game [i] (confirmed response)
    end.

(** The devices in the order in which they are done. *)
Fixpoint first_fetched (fuel : nat) (person game i : string) (peers : list string) : program unit :=
  match peers with
  | [] => fail PayloadUnavailable
  | peer :: peers =>
      bind (fetch_from fuel person game i peer) (fun r =>
      step! _ <- require_owner person ;;
      match r with
      | Ok _ => done_ ()
      | Err (SaveFailed e) => fail (SaveFailed e)
      | Err _ => first_fetched fuel person game i peers
      end)
  end.

Definition fetch_snapshot_payload (fuel : nat) (game i : string) (order : list string -> list string) : program unit :=
  step! _ <- Ret (validate_hash i) ;;
  step! person <- owner ;;
  step! whole <- bind (call (Complete person game i)) (fun r => Ret (stored r)) ;;
  if (whole : bool) then require_owner person
  else step! peers <- owner_peers person ;; first_fetched fuel person game i (order peers).

(** ** What stays *)

Notation ends := (Programs.ends (Reply:=Reply) (Choice:=Choice) effect).
Notation stops := (Programs.stops (Reply:=Reply) (Choice:=Choice) effect).

Context `{LAWS : !StoreLaws}.

Definition go (l : list ((string -> option trouble) * Change)) (st : storage) : storage :=
  foldl (fun st x => apply_change x.1 x.2 st) st l.

Lemma go_grows l st : readable st -> readable (go l st) /\ grows st (go l st).
Proof.
  revert st. induction l as [|[fault c] l IH]; intros st Hr; [split; [done|apply grows_refl]|].
  destruct (change_grows fault c st Hr) as [Hr1 Hg1]. destruct (IH _ Hr1) as [Hr2 Hg2]. split; [done|]. by eapply grows_trans.
Qed.

(** Every operation of a task is changes of the store. *)
Lemma effect_changes op c w : exists l, store (effect op c w).1 = go l (store w).
Proof.
  destruct c as [others a]. unfold effect. cbn [fst snd].
  assert (Hsame : exists l, store (others_go others w) = go l (store w)) by (by exists others).
  assert (Hone : forall fault ch, exists l, apply_change fault ch (store (others_go others w)) = go l (store w)).
  { intros fault ch. exists (others ++ [(fault, ch)]). unfold go. by rewrite foldl_app. }
  destruct op; cbn [answer]; try exact Hsame.
  - by destruct a.
  - apply (Hone a (DoConfirm person game i device)).
  - apply (Hone a (DoPutRecord person r)).
  - by destruct (object _ _ _).
  - destruct (Hone a (DoPutObject person h content)) as [l Hl]. exists l. rewrite <- Hl. cbn [apply_change]. unfold write_store.
    by destruct (put_object _ _ _ _ _) as [st [|]].
Qed.

(** The person's history of the game has a record of that name. *)
Definition local (person game i : string) (w : world) : Prop :=
  readable (store w) /\ exists l x, read_records (store w) person game = Ok l /\ x ∈ l /\ snapshot_id x = Ok i.

Definition said (e : string * RpcRequest * RpcResponse) (w : world) : Prop := e ∈ answered w.

Definition whole (f : SaveFile) (w : world) : Prop := (sha256 f, file_bytes f) ∈ found_whole w.

Lemma readable_stable : stable effect (fun w => readable (store w)).
Proof. intros op c w Hr. destruct (effect_changes op c w) as [l ->]. by apply go_grows. Qed.

Lemma local_stable person game i : stable effect (local person game i).
Proof.
  intros op c w (Hr & l & x & Hl & Hx & Hi). destruct (effect_changes op c w) as [changes Hs].
  destruct (go_grows changes (store w) Hr) as [Hr' Hg]. unfold local. rewrite Hs. split; [done|].
  destruct (grows_reads _ _ _ _ _ Hr' Hg Hl) as (l' & Hl' & Hk). destruct (Hk x i Hx Hi) as (x' & Hx' & Hi'). by exists l', x'.
Qed.

Lemma said_stable e : stable effect (said e).
Proof.
  intros op [others a] w He. unfold effect, said in *. cbn [fst snd]. destruct op; cbn [answer]; try done.
  - destruct a; [by right|done].
  - by destruct (object _ _ _).
  - unfold write_store. by destruct (put_object _ _ _ _ _) as [st [|]].
Qed.

Lemma whole_stable f : stable effect (whole f).
Proof.
  intros op [others a] w He. unfold effect, whole in *. cbn [fst snd]. destruct op; cbn [answer]; try done.
  - by destruct a.
  - destruct (object _ _ _); [by right|done].
  - unfold write_store. destruct (put_object _ _ _ _ _) as [st [|]]; [by right|done].
Qed.

(** ** What is answered *)

Definition is_decode (op : Op) : bool := match op with Decode _ _ _ => true | _ => false end.

Notation hears_nothing := (asks (fun op => is_decode op = false)).

Definition same_answers (w w' : world) : Prop := answered w' = answered w.

#[local] Instance same_answers_refl : Reflexive same_answers.
Proof. by intros w. Qed.

#[local] Instance same_answers_trans : Transitive same_answers.
Proof. intros x y z Hxy Hyz. unfold same_answers in *. congruence. Qed.

Lemma effect_answers op c w : is_decode op = false -> same_answers w (effect op c w).1.
Proof.
  unfold same_answers. destruct c as [l a]. unfold effect. cbn [fst snd]. destruct op; intros Hp; try discriminate; cbn [answer]; try done.
  - by destruct (object _ _ _).
  - unfold write_store. by destruct (put_object _ _ _ _ _) as [st [|]].
Qed.

Lemma silent {A} (p : prog Op Reply A) w w' a : hears_nothing p -> ends p w w' a -> answered w' = answered w.
Proof. intros Hp He. apply (ends_related same_answers (fun op => is_decode op = false) effect_answers p w w' a Hp He). Qed.

(** Programs are taken apart; a call is looked at, a loop is known. *)
Ltac asked :=
  repeat first
    [ done
    | assumption
    | progress eauto with asked
    | apply asks_attempt; [|intros ?]
    | apply asks_bind; [|intros ?]
    | split; [reflexivity|intros ?]
    | case_match ].

Create HintDb asked.

Lemma origins_hears person device : hears_nothing (origins person device).
Proof. unfold origins, require_owner, owner, call, fail, done_. asked. Qed.

(** At most the answer that is the result. *)
Definition heard (peer : string) (req : RpcRequest) (w w' : world) (r : result PeerSaveError RpcResponse) : Prop :=
  answered w' = match r with Ok x => (peer, req, x) :: answered w | Err _ => answered w end.

Lemma heard_later peer req w w1 w' r : answered w1 = answered w -> heard peer req w1 w' r -> heard peer req w w' r.
Proof. unfold heard. by intros ->. Qed.

Lemma heard_err peer req w w' r e : ends (fail e) w w' r -> heard peer req w w' r.
Proof. by intros [-> ->]. Qed.

Lemma read_response_heard person peer req p w w' r : ends (read_response person peer req p) w w' r -> heard peer req w w' r.
Proof.
  destruct p as [| |res]; [by apply heard_err..|]. cbn [read_response]. destruct (negb _); [by apply heard_err|].
  intros (w1 & text & [-> ->] & Hd)%ends_bind. destruct (gather _ _ _) as [text|e]; [|by apply (heard_err _ _ _ _ _ _ Hd)].
  apply ends_bind in Hd as (w2 & u & Ho%silent & Hd); [|apply origins_hears]. apply (heard_later _ _ _ w2 _ _ Ho).
  destruct u as [u|e]; [|by apply (heard_err _ _ _ _ _ _ Hd)]. destruct (to_str text) as [t|]; [|by apply (heard_err _ _ _ _ _ _ Hd)].
  apply ends_bind in Hd as (w3 & x & (c & -> & ->)%ends_call & Hd). unfold effect in Hd. cbn [answer fst snd] in Hd.
  destruct (c.2) as [y|]; by destruct Hd as [-> ->].
Qed.

Lemma send_to_heard person peer req origin w w' r : ends (send_to person peer req origin) w w' r -> heard peer req w w' r.
Proof.
  intros (w1 & x & Ho%silent & Hd)%ends_bind; [|apply origins_hears]. apply (heard_later _ _ _ w1 _ _ Ho).
  destruct x as [u|e]; [|by apply (heard_err _ _ _ _ _ _ Hd)]. apply ends_bind in Hd as (w2 & enc & He%silent & Hd); [|by repeat split].
  apply (heard_later _ _ _ w2 _ _ He). destruct enc; [|by apply (heard_err _ _ _ _ _ _ Hd)].
  apply ends_bind in Hd as (w3 & p & Hp%silent & Hd); [|by repeat split]. apply (heard_later _ _ _ w3 _ _ Hp). by eapply read_response_heard.
Qed.

Lemma try_origins_heard fuel person peer req rest tried w w' r :
  ends (try_origins fuel person peer req rest tried) w w' r -> heard peer req w w' r.
Proof.
  revert rest tried w. induction fuel as [|fuel IH]; intros rest tried w; cbn [try_origins]; [by intros [[? []] _]|].
  destruct (_ && _); [by apply heard_err|]. intros (w1 & s & Hsel%silent & Hd)%ends_bind; [|by repeat split].
  apply (heard_later _ _ _ w1 _ _ Hsel).
  assert (Hsent : forall o l b v, ends (bind (send_to person peer req o) (fun r =>
      match r with Err Network => if read_only req then try_origins fuel person peer req l b else fail Network | r => Ret r end)) v w' r ->
    heard peer req v w' r).
  { intros o l b v (v1 & x & Hx%send_to_heard & Hr)%ends_bind. destruct x as [x|e]; [by destruct Hr as [-> ->]|].
    apply (heard_later _ _ _ v1 _ _ Hx). destruct e; try (by apply (heard_err _ _ _ _ _ _ Hr)).
    destruct (read_only req); [by eapply IH|by apply (heard_err _ _ _ _ _ _ Hr)]. }
  destruct s as [| |o l]; [by apply (heard_err _ _ _ _ _ _ Hd)| |by eapply Hsent]. destruct tried; [by apply (heard_err _ _ _ _ _ _ Hd)|].
  apply ends_bind in Hd as (w2 & reached & Hr%silent & Hd); [|by repeat split]. apply (heard_later _ _ _ w2 _ _ Hr).
  destruct reached; [by eapply Hsent|by apply (heard_err _ _ _ _ _ _ Hd)].
Qed.

(** A request that succeeds has heard one answer of the peer. *)
Lemma request_heard {A} person peer req contact (checked : RpcResponse -> result PeerSaveError A) w w' a :
  ends (request person peer req contact checked) w w' (Ok a) ->
  exists r, checked r = Ok a /\ answered w' = (peer, req, r) :: answered w.
Proof.
  intros (w1 & [begun x] & Hc & Hf)%ends_bind. assert (x ≫= checked = Ok a /\ answered w' = answered w1) as [Hx ->].
  { destruct begun; [destruct Hf as (c & [-> ->]); split; [done|by apply effect_answers]|by destruct Hf as [-> ->]]. }
  apply bind_ok in Hx as (r & -> & Hr). exists r. split; [done|].
  apply ends_bind in Hc as (w2 & found & Ho%silent & Hc); [|apply origins_hears]. rewrite <- Ho. destruct found as [found|e]; [|by destruct Hc].
  apply ends_bind in Hc as (w3 & route & Hro%silent & Hc); [|case_bool_decide; [by repeat split|done]]. rewrite <- Hro.
  destruct route; [|by destruct Hc]. apply ends_bind in Hc as (w4 & b & Hb%silent & Hc); [|by repeat split]. rewrite <- Hb.
  destruct b; [|by destruct Hc]. apply ends_bind in Hc as (w5 & y & Ht%try_origins_heard & [-> [= _ <-]]). exact Ht.
Qed.

Lemma remote_records_said person peer game ids pushed contact w w' response :
  ends (remote_records person peer game ids pushed contact) w w' (Ok response) ->
  said (peer, SaveRecordsRequest game ids pushed, SaveRecordsResponse (Some response)) w'.
Proof.
  intros (r & Hr & Hs)%request_heard. destruct r as [|? |[]|]; try done. injection Hr as ->. unfold said. rewrite Hs. by left.
Qed.

Lemma remote_heads_heard person peer contact w w' heads :
  ends (remote_heads person peer contact) w w' (Ok heads) -> answered w' = (peer, SaveHeadsRequest, SaveHeadsResponse (Some heads)) :: answered w.
Proof. intros (r & Hr & Hs)%request_heard. destruct r as [[]| | |]; try done. by injection Hr as ->. Qed.

(** ** What is imported *)

Lemma written_local fault st person r st' i :
  readable st -> write_record fault st person r = (st', Ok i) ->
  readable st' /\ exists l x, read_records st' person (snap_game r) = Ok l /\ x ∈ l /\ snapshot_id x = Ok i.
Proof.
  intros Hr Hw. pose proof (write_grows fault st person r Hr) as [Hr' _]. pose proof (write_id _ _ _ _ _ _ Hw) as Hi.
  destruct (written_cases _ _ _ _ _ _ Hw) as (_ & _ & _ & _ & _ & _ & _ & _ & Hk & Ha & _). rewrite Hw in Hr'. split; [done|].
  destruct (readable_reads st person (snap_game r) Hr Hk Ha) as (pairs & Hl & _).
  destruct (write_read _ _ _ _ _ _ _ Hw Hl) as (l' & Hl' & Hadds). exists l', (normalise r). split; [done|].
  split; [apply Hadds; by left|]. by apply normalise_id.
Qed.

Lemma import_local person peer r e w w' i :
  readable (store w) -> ends (import_record person peer r e) w w' (Ok i) -> local person (snap_game r) i w' /\ snapshot_id r = Ok i.
Proof.
  intros Hr (w1 & u & Ho & Hd)%ends_attempt. apply (ends_stable _ _ _ _ _ readable_stable Ho) in Hr.
  apply ends_attempt in Hd as (w2 & j & [-> Hj] & Hd). destruct (match e with Some _ => _ | None => _ end); [by destruct Hd|].
  apply ends_attempt in Hd as (w3 & k & Hp & [-> [= ->]]). apply ends_bind in Hp as (w4 & x & (c & -> & ->)%ends_call & [-> Hk]).
  pose proof (readable_stable (PutRecord person r) c w1 Hr) as Hr'. unfold effect in *. cbn [answer] in *. unfold write_store in *.
  assert (Hro : readable (store (others_go c.1 w1))) by (by apply (go_grows c.1)).
  destruct (snapshot_id r) as [i|[]] eqn:Hid; [|done..]. injection Hj as <-. split; [|done].
  destruct (put_record (c.2) (store (others_go c.1 w1)) person r) as [st [n|[]]] eqn:Hput; [|done..]. cbn [fst snd] in *.
  injection Hk as ->. unfold put_record in Hput. pose proof (write_id _ _ _ _ _ _ Hput) as Hn. rewrite Hid in Hn. injection Hn as <-.
  by apply (written_local _ _ _ _ _ _ Hro Hput).
Qed.

(** ** The walk *)

(** Records by name that name their parents among them. *)
Record lineage (m : gmap string SnapshotRecord) : Prop := {
  lineage_ids : forall i r, m !! i = Some r -> snapshot_id r = Ok i;
  lineage_parents : forall x p, parent_of m x p -> is_Some (m !! p);
}.

(** The heads and all they descend from, and nothing else. *)
Record ancestry (heads : list string) (m : gmap string SnapshotRecord) : Prop := {
  ancestry_lineage : lineage m;
  ancestry_heads : forall h, h ∈ heads -> is_Some (m !! h);
  ancestry_reached : forall i, is_Some (m !! i) -> exists h, h ∈ heads /\ rtc (parent_of m) h i;
}.

Definition all_local (person game : string) (m : gmap string SnapshotRecord) (w : world) : Prop :=
  forall i, is_Some (m !! i) -> local person game i w.

Lemma all_local_stable person game m : stable effect (all_local person game m).
Proof. intros op c w Hm i Hi. by apply local_stable, Hm. Qed.

Section walking.
Context (person peer game : string) (heads : list string).

Record walking (m : gmap string SnapshotRecord) (pending : list string) (s : walked) (w : world) : Prop := {
  wk_visited : forall i, i ∈ visited s <-> is_Some (m !! i);
  wk_ids : forall i r, m !! i = Some r -> snapshot_id r = Ok i;
  wk_local : all_local person game m w;
  wk_parents : forall x p, parent_of m x p -> p ∈ visited s \/ p ∈ pending;
  wk_heads : forall h, h ∈ heads -> h ∈ visited s \/ h ∈ pending;
  wk_reached : forall i, i ∈ visited s \/ i ∈ pending -> exists h, h ∈ heads /\ rtc (parent_of m) h i;
  wk_known : forall i r, known s !! i = Some r -> snapshot_id r = Ok i /\ local person game i w;
  wk_payload : forall h r, h ∈ heads -> m !! h = Some r -> r ∈ head_records s;
  wk_readable : readable (store w);
}.

Lemma walking_start k w :
  readable (store w) -> (forall i r, k !! i = Some r -> snapshot_id r = Ok i /\ local person game i w) ->
  walking ∅ heads (MkWalked k ∅ [] [] ∅) w.
Proof.
  intros Hr Hk. split; cbn [visited known head_records]; try done.
  - intros i. rewrite lookup_empty. split; [set_solver|by intros [? ?]].
  - intros i [r Hi]. by rewrite lookup_empty in Hi.
  - intros x p (r & Hx & _). by rewrite lookup_empty in Hx.
  - intros h Hh. by right.
  - intros i [Hi|Hi]; [set_solver|]. exists i. split; [done|apply rtc_refl].
Qed.

Lemma walking_stable m pending s : stable effect (walking m pending s).
Proof.
  intros op c w []. split; try done.
  - by apply all_local_stable.
  - intros i r Hi. destruct (wk_known0 i r Hi) as [Hid Hl]. split; [done|]. by apply local_stable.
  - by apply readable_stable.
Qed.

Lemma walking_skip m i pending s w : i ∈ visited s -> walking m (i :: pending) s w -> walking m pending s w.
Proof.
  intros Hi []. split; try done.
  - intros x p Hp. destruct (wk_parents0 x p Hp) as [|Hin]; [by left|]. apply elem_of_cons in Hin as [->|]; auto.
  - intros h Hh. destruct (wk_heads0 h Hh) as [|Hin]; [by left|]. apply elem_of_cons in Hin as [->|]; auto.
  - intros j [Hj|Hj]; apply wk_reached0; [by left|right; by right].
Qed.

Lemma parent_of_insert (m : gmap string SnapshotRecord) i r x p : m !! i = None -> parent_of m x p -> parent_of (<[i := r]> m) x p.
Proof. intros Hn (y & Hy & Hp). exists y. split; [|done]. rewrite lookup_insert_ne; [done|]. by intros ->; rewrite Hn in Hy. Qed.

(** A name that was not visited is expanded with a record of it. *)
Lemma walking_expand m i r pending s s' w w' :
  walking m (i :: pending) s w -> i ∉ visited s -> snapshot_id r = Ok i -> local person game i w' -> all_local person game m w' ->
  visited s' = {[i]} ∪ visited s ->
  (forall j x, known s' !! j = Some x -> snapshot_id x = Ok j /\ local person game j w') ->
  (forall x, x ∈ head_records s -> x ∈ head_records s') -> (i ∈ heads -> r ∈ head_records s') ->
  walking (<[i := r]> m) (pending ++ parents r) s' w'.
Proof.
  intros [] Hi Hid Hl Hall Hv Hk Hkeep Hhead. assert (Hn : m !! i = None).
  { apply eq_None_not_Some. by rewrite <- wk_visited0. }
  split.
  - intros j. rewrite Hv, elem_of_union, elem_of_singleton, wk_visited0. destruct (decide (j = i)) as [->|Hne].
    + rewrite lookup_insert_eq. split; [by eexists|by left].
    + rewrite lookup_insert_ne by done. split; [by intros [|]|by right].
  - intros j x Hj. destruct (decide (j = i)) as [->|Hne]; [rewrite lookup_insert_eq in Hj; by injection Hj as <-|].
    rewrite lookup_insert_ne in Hj by done. by apply wk_ids0.
  - intros j Hj. destruct (decide (j = i)) as [->|Hne]; [done|]. rewrite lookup_insert_ne in Hj by done. by apply Hall.
  - intros x p (y & Hx & Hp). rewrite Hv. destruct (decide (x = i)) as [->|Hne].
    + rewrite lookup_insert_eq in Hx. injection Hx as <-. right. set_solver.
    + rewrite lookup_insert_ne in Hx by done. destruct (wk_parents0 x p) as [|Hin]; [by exists y|left; set_solver|].
      apply elem_of_cons in Hin as [->|]; [left; set_solver|right; set_solver].
  - intros h Hh. rewrite Hv. destruct (wk_heads0 h Hh) as [|Hin]; [left; set_solver|].
    apply elem_of_cons in Hin as [->|]; [left; set_solver|right; set_solver].
  - assert (Hmono : forall h j, rtc (parent_of m) h j -> rtc (parent_of (<[i := r]> m)) h j).
    { intros h j Hj. eapply rtc_subrel; [|exact Hj]. intros x p. by apply parent_of_insert. }
    assert (Hold : forall j, j ∈ visited s \/ j ∈ i :: pending -> exists h, h ∈ heads /\ rtc (parent_of (<[i := r]> m)) h j).
    { intros j Hj. destruct (wk_reached0 j Hj) as (h & Hh & Hr). exists h. auto. }
    intros j Hj. rewrite Hv in Hj. destruct (decide (j ∈ visited s \/ j ∈ i :: pending)) as [Hd|Hd]; [by apply Hold|].
    destruct (Hold i) as (h & Hh & Hr); [right; by left|]. exists h. split; [done|]. eapply rtc_r; [exact Hr|]. exists r.
    split; [apply lookup_insert_eq|]. set_solver.
  - done.
  - intros h x Hh Hx. destruct (decide (h = i)) as [->|Hne]; [rewrite lookup_insert_eq in Hx; injection Hx as <-; by apply Hhead|].
    rewrite lookup_insert_ne in Hx by done. by eapply Hkeep, wk_payload0.
  - by destruct Hl.
Qed.

Lemma single_record_spec i l r : single_record game i l = Ok r -> snap_game r = game /\ snapshot_id r = Ok i.
Proof.
  unfold single_record. destruct l as [|x [|]]; try done. destruct (bool_decide (snap_game x = game)) eqn:Hg; [|done].
  apply bool_decide_eq_true in Hg. cbn [negb]. destruct (snapshot_id x) as [j|[]] eqn:Hid; cbn [stored mbind result_bind]; [|done..].
  case_bool_decide; [|done]. intros [= <-]. by subst.
Qed.

Lemma walk_spec fuel contact m pending s w w' s' :
  walking m pending s w -> ends (walk fuel person peer game contact (list_to_set heads) pending s) w w' (Ok s') ->
  exists m', walking m' [] s' w'.
Proof.
  revert m pending s w. induction fuel as [|fuel IH]; intros m [|i pending] s w Hw; cbn [walk].
  1, 3: by intros [-> [= ->]]; exists m.
  { by intros [[? []] _]. }
  intros (w1 & u & [-> _] & Hd)%ends_attempt. case_bool_decide as Hi; [by eapply IH; [by apply walking_skip in Hw|]|].
  destruct (if bool_decide (i ∈ (list_to_set heads : gset string)) then None else known (visit i s) !! i) as [r|] eqn:Hk.
  - case_bool_decide as Ha; [done|]. cbn [visit known] in Hk. destruct (wk_known _ _ _ _ Hw i r Hk) as [Hid Hl].
    eapply IH; [|exact Hd]. eapply walking_expand; try done; try apply Hw. intros Hh. exfalso. by apply Ha, elem_of_list_to_set.
  - apply ends_attempt in Hd as (w2 & response & Hreq & Hd). apply (ends_stable _ _ _ _ _ (walking_stable _ _ _) Hreq) in Hw.
    apply ends_attempt in Hd as (w3 & r & [-> Hr] & Hd). symmetry in Hr. apply single_record_spec in Hr as [Hg Hid].
    apply ends_bind in Hd as (w4 & [] & Hp & Hd). apply (ends_stable _ _ _ _ _ (walking_stable _ _ _) Hp) in Hw.
    apply ends_attempt in Hd as (w5 & j & Himp & Hd). pose proof (ends_stable _ _ _ _ _ (walking_stable _ _ _) Himp Hw) as Hw5.
    assert (Hl : local person game i w5).
    { cbn [visit known] in Himp. destruct (known s !! i) as [x|] eqn:Hx; [by apply (wk_known _ _ _ _ Hw5 i x)|].
      apply import_local in Himp as [Hl Hj]; [|apply Hw]. rewrite Hid in Hj. injection Hj as <-. by rewrite <- Hg. }
    eapply IH; [|exact Hd]. eapply walking_expand; [exact Hw5|done|done|done|apply Hw5|done|..].
    + cbn [learn known visit]. intros k x Hx. destruct (known s !! i) eqn:Hki; [by eapply wk_known|].
      destruct (decide (k = i)) as [->|Hne]; [rewrite lookup_insert_eq in Hx; by injection Hx as <-|].
      rewrite lookup_insert_ne in Hx by done. by eapply wk_known.
    + cbn [learn head_records visit]. intros x Hx. case_bool_decide; [|done]. apply elem_of_app. by left.
    + cbn [learn head_records visit]. intros Hh. rewrite bool_decide_true; [|by apply elem_of_list_to_set]. apply elem_of_app. right. by left.
Qed.

Lemma walked_ancestry m s w : walking m [] s w -> ancestry heads m.
Proof.
  intros []. split; [split|..].
  - done.
  - intros x p Hp. destruct (wk_parents0 x p Hp) as [Hv|Hv]; [by apply wk_visited0|by apply elem_of_nil in Hv].
  - intros h Hh. destruct (wk_heads0 h Hh) as [Hv|Hv]; [by apply wk_visited0|by apply elem_of_nil in Hv].
  - intros i Hi. apply wk_reached0. left. by apply wk_visited0.
Qed.
End walking.

(** ** Contents, offers, games *)

Definition payload (r : SnapshotRecord) (w : world) : Prop := forall f, f ∈ all_files r -> whole f w.

Lemma payload_stable r : stable effect (payload r).
Proof. intros op c w Hp f Hf. by apply whole_stable, Hp. Qed.

Lemma fetch_files_whole fuel person peer l w w' f :
  ends (fetch_files fuel person peer l) w w' (Ok ()) -> f ∈ l -> whole f w'.
Proof.
  revert w. induction l as [|file l IH]; intros w; cbn [fetch_files]; [by intros _ ?%elem_of_nil|].
  intros (w1 & present & Hp & (w2 & u & Hd & Hrest)%ends_attempt)%ends_attempt [->|Hf]%elem_of_cons; [|by eapply IH].
  apply (ends_stable _ _ _ _ _ (whole_stable file) Hrest). destruct present as [n|].
  - destruct (Z.eqb_spec n (file_bytes file)) as [->|]; [|by destruct Hd]. destruct Hd as [-> _].
    apply ends_bind in Hp as (w3 & r & (c & -> & ->)%ends_call & [-> Hr]). unfold effect in *. cbn [answer fst snd] in *.
    destruct (object _ _ _) as [content|[[]|]]; try done. injection Hr as Hr. unfold whole. rewrite Hr. by left.
  - destruct u. apply ends_attempt in Hd as (w3 & v & _ & Hd). apply ends_bind in Hd as (w4 & root & _ & Hd).
    destruct root as [[is_dir mode]|]; [|by destruct Hd]. destruct (_ || _); [by destruct Hd|].
    apply ends_bind in Hd as (w5 & failed & _ & Hd). destruct failed; [by destruct Hd|].
    by apply download_has in Hd as (content & _ & _ & Hin).
Qed.

Lemma fetch_heads_payload fuel person peer l w w' r :
  ends (fetch_heads fuel person peer l) w w' (Ok ()) -> r ∈ l -> payload r w'.
Proof.
  revert w. induction l as [|x l IH]; intros w; cbn [fetch_heads]; [by intros _ ?%elem_of_nil|].
  intros (w1 & [] & Hx & Hrest)%ends_attempt [->|Hr]%elem_of_cons; [|by eapply IH].
  apply (ends_stable _ _ _ _ _ (payload_stable x) Hrest). intros f Hf. by eapply fetch_files_whole.
Qed.

(** The record was sent, and the peer answered that. *)
Definition pushed (peer game i : string) (w : world) : Prop :=
  exists r response, snapshot_id r = Ok i /\ said (peer, SaveRecordsRequest game [i] (Some [r]), SaveRecordsResponse (Some response)) w.

Lemma pushed_stable peer game i : stable effect (pushed peer game i).
Proof. intros op c w (r & response & Hi & Hs). exists r, response. split; [done|]. by apply said_stable. Qed.

Lemma offer_pushed person peer game contact o l w w' r i :
  ends (offer person peer game contact o l) w w' (Ok ()) -> r ∈ l -> snapshot_id r = Ok i -> offer_of o i = Push -> pushed peer game i w'.
Proof.
  revert w. induction l as [|x l IH]; intros w; cbn [offer]; [by intros _ ?%elem_of_nil|].
  intros (w1 & j & [-> Hj] & (w2 & [] & Ho & Hrest)%ends_attempt)%ends_attempt [->|Hr]%elem_of_cons Hi Hpush; [|by eapply IH].
  rewrite Hi in Hj. injection Hj as ->. apply (ends_stable _ _ _ _ _ (pushed_stable peer game i) Hrest).
  unfold offer_record in Ho. rewrite Hpush in Ho. apply ends_attempt in Ho as (w3 & response & Hs%remote_records_said & Ho).
  apply (ends_stable _ _ _ _ _ (pushed_stable peer game i) Ho). by exists x, response.
Qed.

Lemma index_all_spec l m i r : index_all l = Ok m -> m !! i = Some r -> r ∈ l /\ snapshot_id r = Ok i.
Proof.
  unfold index_all. intros (named & Hn & [= <-])%bind_ok.
  assert (Hall : forall x, x ∈ named -> x.2 ∈ l /\ snapshot_id x.2 = Ok x.1).
  { pose proof (try_map_cases (fun r => i ← snapshot_id r; Ok (i, r)) l) as Hc. rewrite Hn in Hc.
    intros x [n Hx]%list_elem_of_lookup. destruct (Forall2_lookup_r _ _ _ _ _ Hc Hx) as (y & Hy & (j & Hj & [= <-])%bind_ok).
    split; [by eapply list_elem_of_lookup_2|done]. }
  assert (Hgen : forall (l' : list (string * SnapshotRecord)) (acc : gmap string SnapshotRecord), foldl (fun m x => <[x.1 := x.2]> m) acc l' !! i = Some r ->
    (i, r) ∈ l' \/ acc !! i = Some r).
  { intros l'. induction l' as [|[j x] l' IH]; intros acc; cbn [foldl]; [by right|]. intros [Hin|Hacc]%IH; [left; by right|].
    cbn [fst snd] in Hacc. destruct (decide (j = i)) as [->|Hne]; [rewrite lookup_insert_eq in Hacc; injection Hacc as ->; left; by left|].
    rewrite lookup_insert_ne in Hacc by done. by right. }
  intros [Hin|Hin]%Hgen; [by apply (Hall (i, r))|by rewrite lookup_empty in Hin].
Qed.

(** What an exchange of one game brings: all the peer's heads descend from is here, with
    the contents of the heads, and whatever else was here the peer was sent. *)
Record exchanged (person peer game : string) (heads : list string) (before after : world) (m : gmap string SnapshotRecord) : Prop := {
  ex_ancestry : ancestry heads m;
  ex_local : all_local person game m after;
  ex_payload : forall h r, h ∈ heads -> m !! h = Some r -> payload r after;
  ex_pushed : forall i, local person game i before -> is_Some (m !! i) \/ pushed peer game i after;
}.

Lemma exchanged_stable person peer game heads before m : stable effect (fun w => exchanged person peer game heads before w m).
Proof.
  intros op c w []. split; [done|by apply all_local_stable|..].
  - intros h r Hh Hr. by apply payload_stable, (ex_payload0 h).
  - intros i Hi. destruct (ex_pushed0 i Hi) as [|Hp]; [by left|right; by apply pushed_stable].
Qed.

Lemma exchanged_before person peer game heads before before' after m :
  (forall i, local person game i before' -> local person game i before) -> exchanged person peer game heads before after m ->
  exchanged person peer game heads before' after m.
Proof. intros Hb []. split; try done. intros i Hi. by apply ex_pushed0, Hb. Qed.

Lemma ends_records person game w w' l :
  ends (bind (call (Records person game)) (fun r => Ret (stored r))) w w' (Ok l) -> read_records (store w') person game = Ok l.
Proof.
  intros (w1 & r & (c & -> & ->)%ends_call & [-> Hr])%ends_bind. unfold effect in *. cbn [answer fst snd] in *.
  unfold records in Hr. destruct (read_records _ _ _) as [x|[]]; [by injection Hr as ->|done..].
Qed.

(** A stable fact holds to the end of the run. *)
Ltac along St H :=
  repeat match goal with E : Programs.ends effect _ _ _ _ |- _ => apply (ends_stable _ _ _ _ _ St E) in H end.

(** The walk has ended in [w], the contents are there: the records are offered. *)
Lemma offered_exchanged person peer game contact heads m s o l before w w1 w2 w' incomplete :
  (forall i, local person game i before -> local person game i w) ->
  ancestry heads m -> walking person game heads m [] s w -> (forall h r, h ∈ heads -> m !! h = Some r -> payload r w) ->
  ends (bind (call (Records person game)) (fun r => Ret (stored r))) w w1 (Ok l) ->
  ends (call (ReadIncomplete person peer)) w1 w2 incomplete ->
  off_visited o = visited s -> ends (offer person peer game contact o l) w2 w' (Ok ()) ->
  exchanged person peer game heads before w' m.
Proof.
  intros Hb Hanc Hm Hpay Hrec Hinc Hv Ho. split; [done|..].
  - pose proof (wk_local _ _ _ _ _ _ _ Hm) as Hl. by along (all_local_stable person game m) Hl.
  - intros h r Hh Hr. pose proof (Hpay h r Hh Hr) as Hp. by along (payload_stable r) Hp.
  - intros i Hi%Hb. apply (ends_stable _ _ _ _ _ (local_stable person game i) Hrec) in Hi. apply ends_records in Hrec as Hl.
    destruct Hi as (_ & l' & x & Hl' & Hx & Hid). rewrite Hl in Hl'. injection Hl' as <-.
    destruct (decide (i ∈ visited s)) as [Hin|Hout]; [left; by apply (wk_visited _ _ _ _ _ _ _ Hm)|right].
    eapply offer_pushed; [done..|]. unfold offer_of. by rewrite Hv, bool_decide_false.
Qed.

Lemma sync_game_exchanged fuel person peer purpose remote game w w' :
  readable (store w) -> ends (sync_game fuel person peer purpose remote game) w w' (Ok ()) ->
  exists m, exchanged person peer game (heads_of game remote) w w' m.
Proof.
  intros Hr (w1 & l & Hrec & (w2 & k & [-> Hk] & (w3 & confirmed & Hconf & Hd)%ends_attempt)%ends_attempt)%ends_attempt.
  pose proof (ends_stable _ _ _ _ _ readable_stable Hrec Hr) as Hr1. apply ends_records in Hrec as Hl.
  assert (Hknown : forall i r, k !! i = Some r -> snapshot_id r = Ok i /\ local person game i w1).
  { intros i r Hi. destruct (index_all l) as [k'|[]] eqn:Hidx; [injection Hk as ->|done..].
    destruct (index_all_spec _ _ _ _ Hidx Hi) as [Hin Hid]. split; [done|]. split; [done|]. by exists l, r. }
  pose proof (walking_start person game (heads_of game remote) k w1 Hr1 Hknown) as Hwalk. clear Hk Hl Hknown.
  apply (ends_stable _ _ _ _ _ (walking_stable _ _ _ _ _ _) Hconf) in Hwalk.
  apply ends_bind in Hd as (w4 & [] & Hp & Hd). apply (ends_stable _ _ _ _ _ (walking_stable _ _ _ _ _ _) Hp) in Hwalk.
  apply ends_attempt in Hd as (w5 & s & Hs & Hd). destruct (walk_spec _ _ _ _ _ _ _ _ _ _ _ _ Hwalk Hs) as [m Hm].
  pose proof (walked_ancestry _ _ _ _ _ _ Hm) as Hanc. exists m.
  apply ends_attempt in Hd as (w6 & [] & Hf & (w7 & [] & Hc & Hd)%ends_attempt).
  assert (Hpay : forall h r, h ∈ heads_of game remote -> m !! h = Some r -> payload r w7).
  { intros h r Hh Hmh. apply (ends_stable _ _ _ _ _ (payload_stable r) Hc). eapply fetch_heads_payload; [done|]. by eapply wk_payload. }
  apply (ends_stable _ _ _ _ _ (walking_stable _ _ _ _ _ _) Hf), (ends_stable _ _ _ _ _ (walking_stable _ _ _ _ _ _) Hc) in Hm.
  apply ends_attempt in Hd as (w8 & l' & Hrec' & (w9 & hs & [-> _] & Hd)%ends_attempt).
  apply ends_bind in Hd as (w10 & incomplete & Hinc & Ho). refine (offered_exchanged _ _ _ _ _ _ _ _ _ _ _ _ _ _ _ _ Hanc Hm Hpay Hrec' Hinc _ Ho); [|done].
  intros i Hi. clear Hrec' Hinc Ho. by along (local_stable person game i) Hi.
Qed.

(** ** The memory of contacts *)

Definition writes_mark (op : Op) : bool := match op with WriteMark _ _ _ => true | _ => false end.

Notation keeps_marks := (asks (fun op => writes_mark op = false)).

Definition same_marks (w w' : world) : Prop := marks w' = marks w.

#[local] Instance same_marks_refl : Reflexive same_marks.
Proof. by intros w. Qed.

#[local] Instance same_marks_trans : Transitive same_marks.
Proof. intros x y z Hxy Hyz. unfold same_marks in *. congruence. Qed.

Lemma effect_marks op c w : writes_mark op = false -> same_marks w (effect op c w).1.
Proof.
  unfold same_marks. destruct c as [l a]. unfold effect. cbn [fst snd]. destruct op; intros Hp; try discriminate; cbn [answer]; try done.
  - by destruct a.
  - by destruct (object _ _ _).
  - unfold write_store. by destruct (put_object _ _ _ _ _) as [st [|]].
Qed.

Lemma marks_kept {A} (p : prog Op Reply A) w w' a : keeps_marks p -> ends p w w' a -> marks w' = marks w.
Proof. intros Hp He. apply (ends_related same_marks (fun op => writes_mark op = false) effect_marks p w w' a Hp He). Qed.

(** Operations that leave the marks and the pending heads alone. *)
Definition is_plain_op (op : Op) : bool := match op with WriteMark _ _ _ | Pending _ => false | _ => true end.

Notation is_plain_prog := (asks (fun op => is_plain_op op = true)).

Lemma plain_marks {A} (p : prog Op Reply A) : is_plain_prog p -> keeps_marks p.
Proof. apply asks_mono. by intros []. Qed.
#[local] Hint Resolve plain_marks : asked.

Lemma origins_plain person device : is_plain_prog (origins person device).
Proof. unfold origins, require_owner, owner, call, fail, done_. asked. Qed.
#[local] Hint Resolve origins_plain : asked.

Lemma send_to_plain person peer req origin : is_plain_prog (send_to person peer req origin).
Proof. unfold send_to, read_response, call, fail, done_. asked. Qed.
#[local] Hint Resolve send_to_plain : asked.

Lemma try_origins_plain fuel person peer req rest tried : is_plain_prog (try_origins fuel person peer req rest tried).
Proof.
  revert rest tried. induction fuel as [|fuel IH]; intros rest tried; cbn [try_origins]; [by split; [|intros []]|].
  unfold call, fail. asked; apply IH.
Qed.
#[local] Hint Resolve try_origins_plain : asked.

Lemma request_plain {A} person peer req contact (checked : RpcResponse -> result PeerSaveError A) :
  is_plain_prog (request person peer req contact checked).
Proof. unfold request, request_candidates, call. asked. Qed.
#[local] Hint Resolve request_plain : asked.

Lemma import_plain person peer r e : is_plain_prog (import_record person peer r e).
Proof. unfold import_record, call, fail, done_. asked. Qed.
#[local] Hint Resolve import_plain : asked.

Lemma take_body_plain file got r : is_plain_prog (take_body file got r).
Proof. unfold take_body, reset, call, fail, done_. asked. Qed.
#[local] Hint Resolve take_body_plain : asked.

Lemma keep_object_plain person peer file got : is_plain_prog (keep_object person peer file got).
Proof. unfold keep_object, reset, call, fail, done_. asked. Qed.
#[local] Hint Resolve keep_object_plain : asked.

Lemma download_plain fuel person peer file got attempt tried : is_plain_prog (download fuel person peer file got attempt tried).
Proof.
  revert got attempt tried. induction fuel as [|fuel IH]; intros got attempt tried; cbn [download]; [by split; [|intros []]|].
  unfold target_of, call, fail, done_. asked; apply IH.
Qed.
#[local] Hint Resolve download_plain : asked.

Lemma fetch_files_plain fuel person peer l : is_plain_prog (fetch_files fuel person peer l).
Proof. induction l as [|f l IH]; cbn [fetch_files]; [done|]. unfold download_object, call, fail, done_. asked. Qed.
#[local] Hint Resolve fetch_files_plain : asked.

Lemma fetch_heads_plain fuel person peer l : is_plain_prog (fetch_heads fuel person peer l).
Proof. induction l as [|r l IH]; cbn [fetch_heads]; [done|]. unfold fetch_record_payload. asked. Qed.
#[local] Hint Resolve fetch_heads_plain : asked.

Lemma confirm_all_plain person game device l : is_plain_prog (confirm_all person game device l).
Proof. induction l as [|i l IH]; cbn [confirm_all]; [done|]. unfold call. asked. Qed.
#[local] Hint Resolve confirm_all_plain : asked.

Lemma confirm_response_plain person peer game requested l : is_plain_prog (confirm_response person peer game requested l).
Proof. unfold confirm_response, require_owner, owner, call, fail, done_. asked. Qed.
#[local] Hint Resolve confirm_response_plain : asked.

Lemma confirm_heads_plain person peer game l : is_plain_prog (confirm_heads person peer game l).
Proof. induction l as [|[i r] l IH]; cbn [confirm_heads]; [done|]. asked. Qed.
#[local] Hint Resolve confirm_heads_plain : asked.

Lemma offer_plain person peer game contact o l : is_plain_prog (offer person peer game contact o l).
Proof. induction l as [|r l IH]; cbn [offer]; [done|]. unfold offer_record, remote_records, call, done_. asked. Qed.
#[local] Hint Resolve offer_plain : asked.

Lemma walk_marks fuel person peer game contact advertised pending s : keeps_marks (walk fuel person peer game contact advertised pending s).
Proof.
  revert pending s. induction fuel as [|fuel IH]; intros [|i pending] s; cbn [walk]; [done|by split; [|intros []]|done|].
  unfold remote_records, call, done_. asked; apply IH.
Qed.
#[local] Hint Resolve walk_marks : asked.

Lemma sync_games_marks fuel person peer purpose remote games : keeps_marks (sync_games fuel person peer purpose remote games).
Proof. induction games as [|g games IH]; cbn [sync_games]; [done|]. unfold sync_game, call. asked. Qed.

(** ** The exchange as a whole *)

Lemma sync_games_exchanged fuel person peer purpose remote games game w w' :
  readable (store w) -> ends (sync_games fuel person peer purpose remote games) w w' (Ok ()) -> game ∈ games ->
  exists m, exchanged person peer game (heads_of game remote) w w' m.
Proof.
  revert w. induction games as [|g games IH]; intros w Hr; cbn [sync_games]; [by intros _ ?%elem_of_nil|].
  intros (w1 & [] & Hg & Hrest)%ends_attempt [->|Hin]%elem_of_cons.
  - destruct (sync_game_exchanged _ _ _ _ _ _ _ _ Hr Hg) as [m Hm]. exists m.
    by apply (ends_stable _ _ _ _ _ (exchanged_stable _ _ _ _ _ _) Hrest) in Hm.
  - pose proof (ends_stable _ _ _ _ _ readable_stable Hg Hr) as Hr1. destruct (IH w1 Hr1 Hrest Hin) as [m Hm]. exists m.
    apply (exchanged_before _ _ _ _ w1); [|done]. intros i Hi. by apply (ends_stable _ _ _ _ _ (local_stable person game i) Hg).
Qed.

(** A game with a record is among the games that are told. *)
Lemma heads_tell st person game hs l x :
  heads st person = Ok hs -> read_records st person game = Ok l -> x ∈ l -> game ∈ heads_game <$> hs.
Proof.
  unfold heads, all_records_with_ids. intros (games & (o & Ho & Hg)%bind_ok & [= <-])%bind_ok Hl Hx.
  assert (Hgame : forall y, y ∈ l -> snap_game y = game) by (intros y Hy; by eapply read_game). unfold read_records in Hl.
  apply bind_ok in Hl as (found & (_ & _ & ->)%game_folder_spec & Hl).
  unfold person_folder in Ho. apply bind_ok in Ho as (u & _ & [= <-]).
  destruct (people st !! encode_uri_component person) as [folders|] eqn:Hp; cbn [mbind option_bind] in Hl.
  2: { injection Hl as <-. by apply elem_of_nil in Hx. }
  destruct (folders !! encode_uri_component game) as [f|] eqn:Hf; [|injection Hl as <-; by apply elem_of_nil in Hx].
  unfold records_at in Hl. apply bind_ok in Hl as (pairs & Hpairs & [= <-]).
  pose proof (try_map_cases (fun x => records_with_ids_at x.1 x.2) (btree_entries folders)) as Hc. rewrite Hg in Hc.
  apply elem_of_btree_entries, list_elem_of_lookup in Hf as [k Hk].
  destruct (Forall2_lookup_l _ _ _ _ _ Hc Hk) as (pairs' & Hk' & Heq). cbn [fst snd] in Heq. rewrite Hpairs in Heq. injection Heq as <-.
  assert (exists g, heads_of_game pairs = Some g /\ heads_game g = game) as (g & Hsome & Hname).
  { destruct pairs as [|[i r] pairs]; [by apply elem_of_nil in Hx|]. eexists. split; [done|]. apply Hgame. by left. }
  apply list_elem_of_fmap. exists g. split; [done|]. rewrite (sort_on_perm heads_game). apply list_elem_of_omap.
  exists pairs. split; [by eapply list_elem_of_lookup_2|done].
Qed.

Lemma elem_of_games only remote local game :
  game ∈ games_of only remote local <-> wanted only game = true /\ (game ∈ heads_game <$> remote \/ game ∈ heads_game <$> local).
Proof.
  unfold games_of. rewrite elem_of_keep, elem_of_btree_elements, elem_of_list_to_set, fmap_app, elem_of_app. tauto.
Qed.

Lemma heads_of_nil game remote : game ∉ heads_game <$> remote -> heads_of game remote = [].
Proof.
  intros Hn. unfold heads_of. induction remote as [|g remote IH]; [done|]. cbn [keep].
  rewrite fmap_cons, not_elem_of_cons in Hn. destruct Hn as [Hne Hn]. rewrite bool_decide_false by done. by apply IH.
Qed.

Lemma head_sets_heads remote game hs h : head_sets remote !! game = Some hs -> h ∈ hs -> h ∈ heads_of game remote.
Proof.
  intros Hl Hh. unfold heads_of. assert (Hgen : forall l (acc : gmap string (gset string)),
    foldl (fun m g => <[heads_game g := list_to_set (game_heads g)]> m) acc l !! game = Some hs ->
    (exists g, g ∈ l /\ heads_game g = game /\ h ∈ game_heads g) \/ acc !! game = Some hs).
  { intros l. induction l as [|g l IH]; intros acc; cbn [foldl]; [by right|]. intros [(x & Hx & Hr)|Hacc]%IH; [left; exists x; split; [by right|done]|].
    destruct (decide (heads_game g = game)) as [<-|Hne]; [|rewrite lookup_insert_ne in Hacc by done; by right].
    rewrite lookup_insert_eq in Hacc. injection Hacc as <-. left. exists g. split; [by left|]. split; [done|]. by apply elem_of_list_to_set in Hh. }
  unfold head_sets in Hl. apply Hgen in Hl as [(g & Hg%elem_of_keep & Hname & Hin)|Hl]; [|by rewrite lookup_empty in Hl].
  apply elem_of_concat_map. exists g. split; [|done]. apply elem_of_keep. split; [by apply Hg|]. by apply bool_decide_eq_true.
Qed.

(** A head and all it descends from are here. *)
Definition descends (person game h : string) (w : world) : Prop :=
  exists m, lineage m /\ is_Some (m !! h) /\ all_local person game m w.

Lemma descends_stable person game h : stable effect (descends person game h).
Proof. intros op c w (m & Hm & Hh & Hl). exists m. split; [done|]. split; [done|]. by apply all_local_stable. Qed.

Lemma exchanged_descends person peer game heads before w m h :
  exchanged person peer game heads before w m -> h ∈ heads -> descends person game h w.
Proof. intros [Ha Hl _ _] Hh. exists m. split; [apply Ha|]. split; [by apply Ha|done]. Qed.

(** What a remembered contact says the peer had is here. *)
Definition sound_mark (person : string) (mark : ContactMark) (w : world) : Prop :=
  forall game hs h, mark_remote mark !! game = Some hs -> h ∈ hs -> descends person game h w.

Definition sound_marks (person peer : string) (w : world) : Prop :=
  forall mark, marks w !! (person, peer) = Some mark -> sound_mark person mark w.

Lemma sound_mark_stable person mark : stable effect (sound_mark person mark).
Proof. intros op c w Hm game hs h Hl Hh. by eapply descends_stable, Hm. Qed.

Lemma sound_marks_kept {A} (p : prog Op Reply A) person peer w w' a :
  keeps_marks p -> ends p w w' a -> sound_marks person peer w -> sound_marks person peer w'.
Proof.
  intros Hp He Hs mark Hm. rewrite (marks_kept _ _ _ _ Hp He) in Hm. apply (ends_stable _ _ _ _ _ (sound_mark_stable person mark) He).
  by apply Hs.
Qed.

(** The answers heard in [w] are still the oldest later. *)
Definition hears_after (l : list (string * RpcRequest * RpcResponse)) (w : world) : Prop := exists more, answered w = more ++ l.

Lemma hears_after_stable l : stable effect (hears_after l).
Proof.
  intros op c w [more Hm]. destruct (is_decode op) eqn:Hd.
  - destruct op; try done. destruct c as [others [a|]]; unfold effect, hears_after; cbn [answer fst snd log_answer answered others_go with_store].
    + rewrite Hm. by exists ((device, request, a) :: more).
    + by exists more.
  - exists more. by rewrite (effect_answers op c w Hd).
Qed.

(** The games are exchanged, or nothing has changed since the last contact. *)
Lemma synchronize_cases fuel person peer only purpose w w' :
  ends (synchronize fuel person peer only purpose) w w' (Ok ()) ->
  exists remote local w1 w2 w3,
    answered w1 = (peer, SaveHeadsRequest, SaveHeadsResponse (Some remote)) :: answered w /\
    ends (remote_heads person peer (is_contact purpose)) w w1 (Ok remote) /\
    ends (bind (call (Heads person)) (fun r => Ret (stored r))) w2 w3 (Ok local) /\
    (forall M, stable effect M -> M w1 -> M w2) /\ marks w3 = marks w1 /\
    ((purpose = Contact /\ (exists mark, marks w3 !! (person, peer) = Some mark /\ mark_remote mark = head_sets remote) /\
      marks w' = marks w3 /\ (forall M, stable effect M -> M w3 -> M w')) \/
     exists w4 w5, (forall M, stable effect M -> M w3 -> M w4) /\ marks w4 = marks w3 /\
       ends (sync_games fuel person peer purpose remote (games_of only remote local)) w4 w5 (Ok ()) /\
       (forall M, stable effect M -> M w5 -> M w') /\
       (marks w' = marks w5 \/ purpose = Contact /\ exists mark, mark_remote mark = head_sets remote /\ marks w' = <[(person, peer) := mark]> (marks w5))).
Proof.
  intros (w1 & remote & Hrem & Hd)%ends_attempt. apply ends_bind in Hd as (w2 & [] & Hp & Hd).
  apply ends_attempt in Hd as (w3 & local & Hh & Hd). apply ends_bind in Hd as (w4 & unchanged & Hu & Hd).
  exists remote, local, w1, w2, w3. split; [by apply remote_heads_heard in Hrem|]. split; [done|]. split; [done|].
  split; [intros M HM Hw; by apply (ends_stable _ _ _ _ _ HM Hp)|].
  assert (marks w3 = marks w1) as Hm3.
  { apply marks_kept in Hh; [|by repeat split]. rewrite Hh. by apply marks_kept in Hp; [|by repeat split]. }
  split; [done|]. assert (Hm4 : marks w4 = marks w3).
  { eapply marks_kept; [|exact Hu]. destruct (is_contact purpose); [|done]. unfold contact_unchanged, call. by asked. }
  destruct unchanged.
  - left. destruct (is_contact purpose) eqn:Hc; [|by destruct Hu]. apply bool_decide_eq_true in Hc. split; [done|].
    destruct Hd as [-> _]. split; [|split; [done|intros M HM Hw; by apply (ends_stable _ _ _ _ _ HM Hu)]].
    apply ends_bind in Hu as (w5 & mark & (c & -> & ->)%ends_call & Hu). unfold effect in *. cbn [answer fst snd] in *.
    destruct (marks (others_go c.1 w3) !! (person, peer)) as [mark|] eqn:Hmark; [|by destruct Hu].
    apply ends_bind in Hu as (w6 & now & _ & [_ Hb]). symmetry in Hb. apply andb_prop in Hb as [[_ Hb%bool_decide_eq_true]%andb_prop _].
    exists mark. split; [exact Hmark|done].
  - right. apply ends_attempt in Hd as (w5 & [] & Hg & Hd). exists w4, w5. split; [intros M HM Hw; by apply (ends_stable _ _ _ _ _ HM Hu)|].
    split; [done|]. split; [done|]. split; [intros M HM Hw; by apply (ends_stable _ _ _ _ _ HM Hd)|].
    destruct (is_contact purpose) eqn:Hc; [|left; by destruct Hd as [-> _]]. right. apply bool_decide_eq_true in Hc. split; [done|].
    apply ends_attempt in Hd as (w6 & local' & Hh' & Hd). apply marks_kept in Hh'; [|by repeat split].
    apply ends_bind in Hd as (w7 & [] & Hr & [-> _]). apply ends_bind in Hr as (w8 & now & Hn & (c & -> & _)%ends_call).
    apply marks_kept in Hn; [|by repeat split]. eexists (MkContactMark (head_sets remote) (head_sets local') now). split; [done|].
    unfold effect. cbn [answer fst with_memory marks others_go with_store]. by rewrite Hn, Hh'.
Qed.

Lemma ends_heads person w w' hs :
  ends (bind (call (Heads person)) (fun r => Ret (stored r))) w w' (Ok hs) -> heads (store w') person = Ok hs.
Proof.
  intros (w1 & r & (c & -> & ->)%ends_call & [-> Hr])%ends_bind. unfold effect in *. cbn [answer fst snd] in *.
  destruct (heads _ _) as [x|[]]; [by injection Hr as ->|done..].
Qed.

(** A game nobody has told of has no records. *)
Lemma nothing_exchanged person peer game only remote hs before told after :
  heads (store told) person = Ok hs -> (forall i, local person game i before -> local person game i told) ->
  wanted only game = true -> game ∉ games_of only remote hs -> exchanged person peer game (heads_of game remote) before after ∅.
Proof.
  intros Hh Hb Hw Hout. rewrite elem_of_games in Hout. rewrite heads_of_nil by tauto. split; [split; [split|..]|..].
  - intros i r Hi. by rewrite lookup_empty in Hi.
  - intros x p (r & Hx & _). by rewrite lookup_empty in Hx.
  - intros h Hin. by apply elem_of_nil in Hin.
  - intros i [r Hi]. by rewrite lookup_empty in Hi.
  - intros i [r Hi]. by rewrite lookup_empty in Hi.
  - intros h r Hin. by apply elem_of_nil in Hin.
  - intros i (_ & l & x & Hl & Hx & _)%Hb. exfalso. apply Hout. split; [done|]. right. by eapply heads_tell.
Qed.

(** C18: When an exchange reports success, every head the peer advertised and all its
    ancestors are in the local history; the contents of the heads were found whole as well,
    and every other record of the game was sent to the peer and answered. The one exception
    is a contact that finds the peer advertising the very heads of the last contact: it
    may ask and send nothing, and the heads and their ancestors are there all the same.
    Whatever other tasks do to the store meanwhile, and whatever the peer, the network and
    the disk do. *)
Theorem synchronize_exchanges fuel person peer only purpose w w' :
  readable (store w) -> sound_marks person peer w -> (purpose = Contact -> only = None) ->
  ends (synchronize fuel person peer only purpose) w w' (Ok ()) ->
  sound_marks person peer w' /\
  exists remote more,
    answered w' = more ++ (peer, SaveHeadsRequest, SaveHeadsResponse (Some remote)) :: answered w /\
    (forall game hs h, wanted only game = true -> head_sets remote !! game = Some hs -> h ∈ hs -> descends person game h w') /\
    ((purpose = Contact /\ exists mark, marks w !! (person, peer) = Some mark /\ mark_remote mark = head_sets remote) \/
     forall game, wanted only game = true -> exists m, exchanged person peer game (heads_of game remote) w w' m).
Proof.
  intros Hr Hs Honly (remote & local & w1 & w2 & w3 & Hans & Hrem & Hh & H12 & Hm31 & Hcases)%synchronize_cases.
  assert (H01 : forall M, stable effect M -> M w -> M w1) by (intros M HM; by apply (ends_stable _ _ _ _ _ HM Hrem)).
  assert (H23 : forall M, stable effect M -> M w2 -> M w3) by (intros M HM; by apply (ends_stable _ _ _ _ _ HM Hh)).
  assert (Hm30 : marks w3 = marks w) by by rewrite Hm31, (marks_kept _ _ _ _ (plain_marks _ (request_plain _ _ _ _ _)) Hrem).
  assert (Hs3 : forall mark, marks w3 !! (person, peer) = Some mark -> sound_mark person mark w3).
  { intros mark Hm. rewrite Hm30 in Hm. apply H23, H12, H01, Hs; [apply sound_mark_stable..|done]. }
  assert (Hafter : hears_after ((peer, SaveHeadsRequest, SaveHeadsResponse (Some remote)) :: answered w) w3).
  { apply H23, H12; [apply hears_after_stable..|]. by exists []. }
  destruct Hcases as [(-> & (mark & Hmark & Heq) & Hm & H3)|(w4 & w5 & H34 & Hm4 & Hg & H5 & Hm5)].
  - assert (Hsound : sound_mark person mark w') by (apply H3; [apply sound_mark_stable|by apply Hs3]).
    split; [intros mark' Hm'; rewrite Hm, Hmark in Hm'; by injection Hm' as <-|].
    destruct (H3 _ (hears_after_stable _) Hafter) as [more Hmore]. exists remote, more. split; [done|].
    split; [|left; split; [done|]; exists mark; by rewrite <- Hm30].
    intros game hs h _ Hl Hin. rewrite <- Heq in Hl. by eapply Hsound.
  - assert (H04 : forall M, stable effect M -> M w -> M w4) by (intros M HM Hw; by apply H34, H23, H12, H01).
    assert (Hall : forall game, wanted only game = true -> exists m, exchanged person peer game (heads_of game remote) w w' m).
    { intros game Hw. destruct (decide (game ∈ games_of only remote local)) as [Hin|Hout].
      - destruct (sync_games_exchanged _ _ _ _ _ _ _ _ _ (H04 _ readable_stable Hr) Hg Hin) as [m Hm]. exists m.
        apply (H5 _ (exchanged_stable _ _ _ _ _ _)). apply (exchanged_before _ _ _ _ w4); [|done]. intros i. apply (H04 _ (local_stable _ _ _)).
      - exists ∅. apply ends_heads in Hh. eapply (nothing_exchanged _ _ _ _ _ _ _ w3); [done| |done|done].
        intros i Hi. by apply H23, H12, H01; try apply local_stable. }
    assert (Hheads : forall game hs h, wanted only game = true -> head_sets remote !! game = Some hs -> h ∈ hs -> descends person game h w').
    { intros game hs h Hw Hl Hin. destruct (Hall game Hw) as [m Hm]. eapply exchanged_descends; [done|]. by eapply head_sets_heads. }
    split.
    + intros mark Hm. destruct Hm5 as [Hm5|(Hc & new & Hnew & Hm5)]; rewrite Hm5 in Hm.
      * rewrite (marks_kept _ _ _ _ (sync_games_marks _ _ _ _ _ _) Hg), Hm4 in Hm. apply (H5 _ (sound_mark_stable _ _)).
        apply (ends_stable _ _ _ _ _ (sound_mark_stable _ _) Hg), (H34 _ (sound_mark_stable _ _)). by apply Hs3.
      * rewrite lookup_insert_eq in Hm. injection Hm as <-. intros game hs h Hl Hin. rewrite Hnew in Hl. apply (Hheads game hs h); [|done..].
        by rewrite (Honly Hc).
    + apply (H34 _ (hears_after_stable _)), (ends_stable _ _ _ _ _ (hears_after_stable _) Hg), (H5 _ (hears_after_stable _)) in Hafter as [more Hmore].
      exists remote, more. split; [done|]. split; [done|]. auto.
Qed.

(** ** The check before a launch *)

(** Operations a task waits for: there it is dropped when its deadline passes. *)
Definition awaits (op : Op) : bool :=
  match op with
  | SelectOrigin _ _ | ReachConnection _ | Post _ _ _ _ | Heads _ | Records _ _ | RecordOf _ _ _ | Complete _ _ _
  | ConfirmedSnapshots _ _ _ | Confirm _ _ _ _ | PutRecord _ _ | ObjectOf _ _ | PutObject _ _ _ | Forever => true
  | _ => false
  end.

Fixpoint dropped {A} (p : prog Op Reply A) (w w' : world) : Prop :=
  match p with
  | Ret _ => False
  | Do op k => (awaits op = true /\ w' = w) \/ exists c, dropped (k (effect op c w).2) (effect op c w).1 w'
  end.

Lemma dropped_stops {A} (p : prog Op Reply A) w w' : dropped p w w' -> stops p w w'.
Proof.
  revert w. induction p as [a|op k IH]; intros w; simpl; [done|]. intros [[_ ->]|[c Hc]]; [by left|]. right. exists c. by apply IH.
Qed.

Lemma dropped_bind {A B} (p : prog Op Reply A) (f : A -> prog Op Reply B) w w' :
  dropped (bind p f) w w' -> dropped p w w' \/ exists w1 a, ends p w w1 a /\ dropped (f a) w1 w'.
Proof.
  revert w. induction p as [a|op k IH]; intros w; simpl; [intros Hd; right; by exists w, a|].
  intros [[Ha ->]|(c & [Hs|(w1 & a & He & Hs)]%IH)]; [left; by left|left; right; by exists c|].
  right. exists w1, a. split; [by exists c|done].
Qed.

Definition unheard (w w' : world) : Prop := answered w' = answered w.

Lemma dropped_silent {A} (p : prog Op Reply A) w w' : hears_nothing p -> dropped p w w' -> unheard w w'.
Proof.
  intros Hp Hd%dropped_stops. exact (stops_related same_answers (fun op => is_decode op = false) effect_answers p w w' Hp Hd).
Qed.

Lemma unheard_later w w1 w' : answered w1 = answered w -> unheard w1 w' -> unheard w w'.
Proof. unfold unheard. by intros ->. Qed.

Lemma send_to_dropped person peer req origin w w' : dropped (send_to person peer req origin) w w' -> unheard w w'.
Proof.
  intros [Hd|(w1 & x & Ho%silent & Hd)]%dropped_bind; [by apply dropped_silent in Hd; [|apply origins_hears]| |apply origins_hears].
  apply (unheard_later _ _ _ Ho). destruct x as [u|e]; [|done].
  apply dropped_bind in Hd as [Hd|(w2 & enc & He%silent & Hd)]; [by apply dropped_silent in Hd; [|repeat split]| |by repeat split].
  apply (unheard_later _ _ _ He). destruct enc; [|done].
  apply dropped_bind in Hd as [Hd|(w3 & p & Hp%silent & Hd)]; [by apply dropped_silent in Hd; [|repeat split]| |by repeat split].
  apply (unheard_later _ _ _ Hp). destruct p as [| |r]; [done..|]. cbn [read_response] in Hd. destruct (negb _); [done|].
  apply dropped_bind in Hd as [Hd|(w4 & text & [-> _] & Hd)]; [done|]. destruct text as [text|e]; [|done].
  apply dropped_bind in Hd as [Hd|(w5 & x & Ho'%silent & Hd)]; [by apply dropped_silent in Hd; [|apply origins_hears]| |apply origins_hears].
  apply (unheard_later _ _ _ Ho'). destruct x as [v|e]; [|done]. destruct (to_str text) as [t|]; [|done].
  apply dropped_bind in Hd as [[[? _]|[c []]]|(w6 & y & _ & Hd)]; [done|]. by destruct y.
Qed.

Lemma try_origins_dropped fuel person peer req rest tried w w' :
  dropped (try_origins fuel person peer req rest tried) w w' -> unheard w w'.
Proof.
  revert rest tried w. induction fuel as [|fuel IH]; intros rest tried w; cbn [try_origins]; [by intros [[_ ->]|[[? []] _]]|].
  destruct (_ && _); [done|]. intros [Hd|(w1 & s & Hsel%silent & Hd)]%dropped_bind; [by apply dropped_silent in Hd; [|repeat split]| |by repeat split].
  apply (unheard_later _ _ _ Hsel).
  assert (Hsent : forall o l b v, dropped (bind (send_to person peer req o) (fun r =>
      match r with Err Network => if read_only req then try_origins fuel person peer req l b else fail Network | r => Ret r end)) v w' ->
    unheard v w').
  { intros o l b v [Hd'%send_to_dropped|(v1 & x & Hx%send_to_heard & Hr)]%dropped_bind; [done|]. destruct x as [x|e]; [done|].
    apply (unheard_later _ _ _ Hx). destruct e; try done. destruct (read_only req); [by eapply IH|done]. }
  destruct s as [| |o l]; [done| |by eapply Hsent]. destruct tried; [done|].
  apply dropped_bind in Hd as [Hd|(w2 & reached & Hr%silent & Hd)]; [by apply dropped_silent in Hd; [|repeat split]| |by repeat split].
  apply (unheard_later _ _ _ Hr). destruct reached; [by eapply Hsent|done].
Qed.

(** A request that was dropped has heard nothing; one that failed has heard nothing or
    what was refused. *)
Lemma request_dropped {A} person peer req contact (checked : RpcResponse -> result PeerSaveError A) w w' :
  dropped (request person peer req contact checked) w w' -> unheard w w'.
Proof.
  intros [Hd|(w1 & [begun x] & _ & Hd)]%dropped_bind.
  2: { destruct begun; [|done]. by destruct Hd as [[? _]|[c []]]. }
  apply dropped_bind in Hd as [Hd|(w2 & found & Ho%silent & Hd)]; [by apply dropped_silent in Hd; [|apply origins_hears]| |apply origins_hears].
  apply (unheard_later _ _ _ Ho). destruct found as [found|e]; [|done].
  apply dropped_bind in Hd as [Hd|(w3 & route & Hr%silent & Hd)]; [apply dropped_silent in Hd; [done|]| |]; try (case_bool_decide; [by repeat split|done]).
  apply (unheard_later _ _ _ Hr). destruct route; [|done].
  apply dropped_bind in Hd as [Hd|(w4 & b & Hb%silent & Hd)]; [by apply dropped_silent in Hd; [|repeat split]| |by repeat split].
  apply (unheard_later _ _ _ Hb). destruct b; [|done]. apply dropped_bind in Hd as [Hd|(w5 & y & _ & [])]. by eapply try_origins_dropped.
Qed.

Lemma request_failed {A} person peer req contact (checked : RpcResponse -> result PeerSaveError A) w w' e :
  ends (request person peer req contact checked) w w' (Err e) ->
  unheard w w' \/ exists r, checked r = Err e /\ answered w' = (peer, req, r) :: answered w.
Proof.
  intros (w1 & [begun x] & Hc & Hf)%ends_bind. assert (x ≫= checked = Err e /\ answered w' = answered w1) as [Hx Hsame].
  { destruct begun; [destruct Hf as (c & [-> ->]); split; [done|by apply effect_answers]|by destruct Hf as [-> ->]]. }
  unfold unheard. rewrite Hsame. clear Hf Hsame.
  apply ends_bind in Hc as (w2 & found & Ho%silent & Hc); [|apply origins_hears]. rewrite <- Ho. destruct found as [found|e']; [|destruct Hc as [-> _]; by left].
  apply ends_bind in Hc as (w3 & route & Hro%silent & Hc); [|case_bool_decide; [by repeat split|done]]. rewrite <- Hro.
  destruct route; [|destruct Hc as [-> _]; by left]. apply ends_bind in Hc as (w4 & b & Hb%silent & Hc); [|by repeat split]. rewrite <- Hb.
  destruct b; [|destruct Hc as [-> _]; by left]. apply ends_bind in Hc as (w5 & y & Ht%try_origins_heard & [-> [= _ ->]]).
  unfold heard in Ht. destruct y as [r|e']; [right; by exists r|by left].
Qed.

Section warnings.
Context (person peer game : string).

(** The head's record is here, or came from the peer and was what was asked for. *)
Definition vouched (h : string) (w : world) : Prop :=
  local person game h w \/
  exists response r, said (peer, SaveRecordsRequest game [h] None, SaveRecordsResponse (Some response)) w /\
    single_record game h (sent_records response) = Ok r.

Lemma vouched_stable h : stable effect (vouched h).
Proof.
  intros op c w [Hl|(response & r & Hs & Hr)]; [left; by apply local_stable|right]. exists response, r. split; [by apply said_stable|done].
Qed.

(** Every head is pending or vouched for. *)
Definition warned (heads : list string) (w : world) : Prop :=
  readable (store w) /\ forall h, h ∈ heads -> h ∈ pending_head_records w \/ vouched h w.

Lemma plain_pending op c w : is_plain_op op = true -> pending_head_records (effect op c w).1 = pending_head_records w.
Proof.
  destruct c as [l a]. unfold effect. cbn [fst snd]. destruct op; intros Hp; try discriminate; cbn [answer]; try done.
  - by destruct a.
  - by destruct (object _ _ _).
  - unfold write_store. by destruct (put_object _ _ _ _ _) as [st [|]].
Qed.

Definition warned_on (heads : list string) (w w' : world) : Prop := warned heads w -> warned heads w'.

#[local] Instance warned_on_refl heads : Reflexive (warned_on heads).
Proof. intros w Hw. exact Hw. Qed.

#[local] Instance warned_on_trans heads : Transitive (warned_on heads).
Proof. intros x y z Hxy Hyz Hx. auto. Qed.

Lemma effect_warned heads op c w : is_plain_op op = true -> warned_on heads w (effect op c w).1.
Proof.
  intros Hp [Hr Hw]. split; [by apply readable_stable|]. intros h Hh. rewrite (plain_pending op c w Hp).
  destruct (Hw h Hh) as [|Hv]; [by left|right; by apply vouched_stable].
Qed.

Lemma plain_stops {A} heads (p : prog Op Reply A) w w' : is_plain_prog p -> stops p w w' -> warned heads w -> warned heads w'.
Proof. intros Hp Hs. exact (stops_related (warned_on heads) (fun op => is_plain_op op = true) (effect_warned heads) p w w' Hp Hs). Qed.

Lemma plain_ends {A} heads (p : prog Op Reply A) w w' a : is_plain_prog p -> ends p w w' a -> warned heads w -> warned heads w'.
Proof. intros Hp He. eapply plain_stops; [exact Hp|by eapply ends_stops]. Qed.

Lemma call_plain {A} op (f : Reply op -> A) : is_plain_op op = true -> is_plain_prog (bind (call op) (fun r => Ret (f r))).
Proof. by intros Hp. Qed.

Lemma stops_ret {A} (a : A) w w' : stops (Ret a) w w' -> w' = w.
Proof. by intros [->|[]]. Qed.

(** Only a head that is vouched for is taken from the pending ones. *)
Lemma warned_pending heads (f : gset string -> gset string) w w' :
  (forall h, h ∈ pending_head_records w -> h ∉ f (pending_head_records w) -> vouched h w) ->
  stops (call (Pending f)) w w' -> warned heads w -> warned heads w'.
Proof.
  intros Hf [->|[c Hs%stops_ret]] Hw; [done|]. subst w'. destruct Hw as [Hr Hw]. split; [by apply readable_stable|].
  intros h Hh. unfold effect. cbn [answer fst with_pending pending_head_records others_go with_store].
  destruct (decide (h ∈ f (pending_head_records w))) as [|Hout]; [by left|right]. apply (vouched_stable h (Pending f) c).
  destruct (Hw h Hh) as [Hp|]; [by apply Hf|done].
Qed.

Lemma walk_warned fuel contact heads advertised pending s w w' :
  stops (walk fuel person peer game contact advertised pending s) w w' -> warned heads w -> warned heads w'.
Proof.
  revert pending s w. induction fuel as [|fuel IH]; intros [|i pending] s w; cbn [walk].
  1, 3: by intros ->%stops_ret.
  { by intros [->|[[? []] _]]. }
  intros [->%stops_ret|(w1 & u & [-> _] & Hd)]%stops_bind Hw; [done|]. destruct u as [u|e]; [|by apply stops_ret in Hd as ->].
  case_bool_decide; [by eapply IH|]. destruct (if bool_decide _ then None else _); [by eapply IH|].
  apply stops_bind in Hd as [Hd|(w2 & response & Hq & Hd)]; [eapply plain_stops; [|exact Hd|exact Hw]; apply request_plain|].
  apply (plain_ends _ _ _ _ _ (request_plain _ _ _ _ _) Hq) in Hw. destruct response as [response|e]; [|by apply stops_ret in Hd as ->].
  apply remote_records_said in Hq as Hsaid.
  apply stops_bind in Hd as [->%stops_ret|(w3 & r & [-> ->] & Hd)]; [done|].
  destruct (single_record game i (sent_records response)) as [r|e] eqn:Hr; [|by apply stops_ret in Hd as ->].
  assert (Hrem : forall h, h ∈ pending_head_records w2 -> h ∉ pending_head_records w2 ∖ {[i]} -> vouched h w2).
  { intros h Hin Hout. destruct (decide (h = i)) as [->|Hne]; [|exfalso; apply Hout, elem_of_difference; split; [exact Hin|by intros Heq%elem_of_singleton]]. right. by exists response, r. }
  apply stops_bind in Hd as [Hd|(w4 & v & Hp & Hd)]; [by apply (warned_pending heads _ _ _ Hrem Hd)|].
  apply (warned_pending heads _ _ _ Hrem (ends_stops _ _ _ _ Hp)) in Hw.
  assert (Himp : is_plain_prog (match known (visit i s) !! i with Some _ => done_ i | None => import_record person peer r (Some i) end))
    by (case_match; [exact I|apply import_plain]).
  apply stops_bind in Hd as [Hd|(w5 & x & Hi & Hd)]; [by apply (plain_stops _ _ _ _ Himp Hd)|].
  apply (plain_ends _ _ _ _ _ Himp Hi) in Hw.
  destruct x as [x|e]; [by eapply IH|by apply stops_ret in Hd as ->].
Qed.

Lemma sync_game_warned fuel purpose remote heads w w' :
  stops (sync_game fuel person peer purpose remote game) w w' -> warned heads w -> warned heads w'.
Proof.
  intros [Hd|(w1 & l & Hrec & Hd)]%stops_bind Hw; [eapply plain_stops; [|exact Hd|exact Hw]; by apply call_plain|].
  eapply (plain_ends heads) in Hw; [| |exact Hrec]; [|by apply call_plain]. destruct l as [l|e]; [|by apply stops_ret in Hd as ->].
  apply ends_records in Hrec as Hl. apply stops_bind in Hd as [->%stops_ret|(w2 & k & [-> Hk] & Hd)]; [done|].
  destruct k as [k|e]; [|by apply stops_ret in Hd as ->].
  assert (Hknown : forall i r, k !! i = Some r -> local person game i w1).
  { intros i r Hi. destruct (index_all l) as [k'|[]] eqn:Hidx; [injection Hk as <-|done..].
    destruct (index_all_spec _ _ _ _ Hidx Hi) as [Hin Hid]. split; [by destruct Hw|]. by exists l, r. }
  apply stops_bind in Hd as [Hd|(w3 & confirmed & Hc & Hd)]; [eapply plain_stops; [|exact Hd|exact Hw]; by apply call_plain|].
  eapply (plain_ends heads) in Hw; [| |exact Hc]; [|by apply call_plain]. destruct confirmed as [confirmed|e]; [|by apply stops_ret in Hd as ->].
  assert (Hrem : forall h, h ∈ pending_head_records w3 -> h ∉ filter (fun i => k !! i = None) (pending_head_records w3) -> vouched h w3).
  { intros h Hin Hout. destruct (k !! h) as [r|] eqn:Hh; [|exfalso; apply Hout; by apply elem_of_filter].
    left. apply (ends_stable _ _ _ _ _ (local_stable person game h) Hc). by eapply Hknown. }
  apply stops_bind in Hd as [Hd|(w4 & v & Hp & Hd)]; [by apply (warned_pending heads _ _ _ Hrem Hd)|].
  apply (warned_pending heads _ _ _ Hrem (ends_stops _ _ _ _ Hp)) in Hw.
  apply stops_bind in Hd as [Hd|(w5 & s & Hs & Hd)]; [by eapply walk_warned|].
  apply (walk_warned _ _ _ _ _ _ _ _ (ends_stops _ _ _ _ Hs)) in Hw. destruct s as [s|e]; [|by apply stops_ret in Hd as ->].
  eapply plain_stops; [|exact Hd|exact Hw]. unfold call. by asked.
Qed.
End warnings.

Lemma sync_games_warned fuel person peer game purpose remote games heads w w' :
  (forall g, g ∈ games -> g = game) -> stops (sync_games fuel person peer purpose remote games) w w' ->
  warned person peer game heads w -> warned person peer game heads w'.
Proof.
  revert w. induction games as [|g games IH]; intros w Hg; cbn [sync_games]; [by intros ->%stops_ret|].
  assert (g = game) as -> by (apply Hg; by left). intros [Hd|(w1 & r & He & Hd)]%stops_bind Hw; [by eapply sync_game_warned|].
  apply (sync_game_warned _ _ _ _ _ _ _ _ _ (ends_stops _ _ _ _ He)) in Hw. destruct r as [u|e]; [|by apply stops_ret in Hd as ->].
  eapply IH; [|exact Hd|exact Hw]. intros x Hx. apply Hg. by right.
Qed.

(** What [synchronize] does after it has heard of the heads. *)
Definition after_heads (fuel : nat) (person game peer : string) (remote : list GameSaveHeads) : program unit :=
  step! local <- bind (call (Heads person)) (fun r => Ret (stored r)) ;;
  step! _ <- sync_games fuel person peer CheckLaunch remote (games_of (Some game) remote local) ;; done_ ().

Lemma after_heads_warned fuel person game peer remote heads w w' :
  stops (after_heads fuel person game peer remote) w w' -> warned person peer game heads w -> warned person peer game heads w'.
Proof.
  intros [Hd|(w1 & hs & Hh & Hd)]%stops_bind Hw; [eapply plain_stops; [|exact Hd|exact Hw]; by apply call_plain|].
  eapply (plain_ends person peer game heads) in Hw; [| |exact Hh]; [|by apply call_plain]. destruct hs as [hs|e]; [|by apply stops_ret in Hd as ->].
  apply stops_bind in Hd as [Hd|(w2 & r & Hg & Hd)].
  - eapply sync_games_warned; [|exact Hd|exact Hw]. intros g [Hg _]%elem_of_games. by apply bool_decide_eq_true in Hg.
  - assert (w' = w2) as -> by (by destruct r; apply stops_ret in Hd). eapply sync_games_warned; [|by eapply ends_stops|exact Hw].
    intros g [Hg' _]%elem_of_games. by apply bool_decide_eq_true in Hg'.
Qed.

(** All heads of the game are pending once they were heard of. *)
Lemma heads_pending person peer game remote c w :
  readable (store w) ->
  warned person peer game (heads_of game remote)
    (effect (Pending (fun p => list_to_set (concat (game_heads <$> keep (fun g => wanted (Some game) (heads_game g)) remote)) ∪ p)) c w).1.
Proof.
  intros Hr. split; [by apply readable_stable|]. intros h Hh. left. apply elem_of_union. left. by apply elem_of_list_to_set.
Qed.

Definition check_over (fuel : nat) (person game peer : string) (w w' : world) (r : option (result PeerSaveError unit)) : Prop :=
  match r with
  | None => dropped (check_launch fuel person game peer) w w'
  | Some r => ends (check_launch fuel person game peer) w w' r
  end.

(** Heads that were heard of: the rest of the check ran from there. *)
Lemma check_heard fuel person game peer w w' r remote more :
  check_over fuel person game peer w w' r ->
  answered w' = more ++ (peer, SaveHeadsRequest, SaveHeadsResponse (Some remote)) :: answered w ->
  exists w1 c, ends (remote_heads person peer false) w w1 (Ok remote) /\
    stops (after_heads fuel person game peer remote)
      (effect (Pending (fun p => list_to_set (concat (game_heads <$> keep (fun g => wanted (Some game) (heads_game g)) remote)) ∪ p)) c w1).1 w'.
Proof.
  intros Hover Hans.
  assert (Hne : answered w' <> answered w).
  { rewrite Hans. intros Heq. apply (f_equal length) in Heq. rewrite length_app in Heq. cbn [length] in Heq. lia. }
  assert (Hrest : exists w1 remote', ends (remote_heads person peer false) w w1 (Ok remote') /\ exists c,
    stops (after_heads fuel person game peer remote')
      (effect (Pending (fun p => list_to_set (concat (game_heads <$> keep (fun g => wanted (Some game) (heads_game g)) remote')) ∪ p)) c w1).1 w').
  { destruct r as [r|]; cbn [check_over] in Hover.
    - apply ends_bind in Hover as (w1 & [remote'|e] & Hreq & Hd).
      + exists w1, remote'. split; [done|]. destruct Hd as (c & Hd). exists c. by eapply ends_stops.
      + exfalso. destruct Hd as [-> _]. apply request_failed in Hreq as [Hu|(x & Hx & Ha)]; [done|]. rewrite Ha in Hans.
        destruct more as [|y more]; [injection Hans as ->; done|]. apply (f_equal length) in Hans. cbn [app length] in Hans.
        rewrite length_app in Hans. cbn [length] in Hans. lia.
    - apply dropped_bind in Hover as [Hd|(w1 & [remote'|e] & Hreq & Hd)]; [by apply request_dropped in Hd| |done].
      exists w1, remote'. split; [done|]. destruct Hd as [[? _]|(c & Hd)]; [done|]. exists c. by apply dropped_stops. }
  destruct Hrest as (w1 & remote' & Hreq & c & Hs). exists w1, c.
  assert (remote' = remote) as ->; [|done]. apply remote_heads_heard in Hreq as Ha.
  assert (Hafter : hears_after (answered w1) w').
  { apply (stops_stable _ _ _ _ (hears_after_stable _) Hs), hears_after_stable. by exists []. }
  destruct Hafter as [more' Hmore]. rewrite Hmore, Ha in Hans. apply app_inj_2 in Hans as [_ [= ->]]; [done|done].
Qed.

(** C19: A check before a launch that warns of no missing records tells the truth, also when
    the deadline cut it off anywhere: of every head the peer advertised the record is
    here, or it came from the peer and is the one that was asked for. *)
Theorem launch_check_truthful fuel person game peer in_use r remote more w w' :
  readable (store w) -> check_over fuel person game peer w w' r ->
  answered w' = more ++ (peer, SaveHeadsRequest, SaveHeadsResponse (Some remote)) :: answered w ->
  heads_without_records (check_result peer (Some (Ok in_use)) r w') = [] ->
  forall h, h ∈ heads_of game remote -> vouched person peer game h w'.
Proof.
  intros Hr Hover Hans Hnone h Hh. destruct (check_heard _ _ _ _ _ _ _ _ _ Hover Hans) as (w1 & c & Hreq & Hs).
  apply (ends_stable _ _ _ _ _ readable_stable Hreq) in Hr.
  destruct (after_heads_warned _ _ _ _ _ _ _ _ Hs (heads_pending person peer game remote c w1 Hr)) as [_ Hw].
  destruct (Hw h Hh) as [Hp|]; [|done]. exfalso. cbn [check_result heads_without_records] in Hnone.
  case_bool_decide as He; [|done]. rewrite He in Hp. by apply elem_of_empty in Hp.
Qed.

(** ** The loops end *)

Section bounds.
(** At most [n] addresses of a device; at most [b] parents of a record and heads of a
    game, among the names [U]. *)
Context (n b : nat) (U : gset string).

Definition within (l : list string) : Prop := (length l <= b)%nat /\ forall x, x ∈ l -> x ∈ U.

Definition fine_response (r : RpcResponse) : Prop :=
  match r with
  | SaveRecordsResponse (Some response) => forall x, x ∈ sent_records response -> within (parents x)
  | SaveHeadsResponse (Some l) => forall game, within (heads_of game l)
  | _ => True
  end.

Definition bounded (op : Op) : Reply op -> Prop :=
  match op return Reply op -> Prop with
  | Directory => fun r => forall peers p, r = Some peers -> p ∈ peers -> (length (endpoint p) <= n)%nat
  | SelectOrigin timed l => fun r => exists c, r = select_from timed c l
  | Decode _ _ _ => fun r => match r with Some r => fine_response r | None => True end
  | Records _ _ => fun r => match r with Ok l => forall x, x ∈ l -> within (parents x) | Err _ => True end
  | _ => fun _ => True
  end.

Definition is_forever (op : Op) : bool := match op with Forever => true | _ => false end.

(** Over bounded replies the program does not go on forever, and ends with [Q]. *)
Fixpoint settles {A} (Q : A -> Prop) (p : prog Op Reply A) : Prop :=
  match p with
  | Ret a => Q a
  | Do op k => is_forever op = false /\ forall r, bounded op r -> settles Q (k r)
  end.

Definition well {A} (Q : A -> Prop) (r : result PeerSaveError A) : Prop := match r with Ok a => Q a | Err _ => True end.

Definition anything {A} (a : A) : Prop := True.

Lemma settles_bind {A B} (Q : A -> Prop) (R : B -> Prop) (p : prog Op Reply A) (f : A -> prog Op Reply B) :
  settles Q p -> (forall a, Q a -> settles R (f a)) -> settles R (bind p f).
Proof.
  intros Hp Hf. induction p as [a|op k IH]; simpl in *; [by apply Hf|]. destruct Hp as [Ho Hk]. split; [done|]. intros r Hr. by apply IH, Hk.
Qed.

Lemma settles_mono {A} (Q R : A -> Prop) (p : prog Op Reply A) : (forall a, Q a -> R a) -> settles Q p -> settles R p.
Proof. intros HQR Hp. induction p as [a|op k IH]; simpl in *; [by apply HQR|]. destruct Hp as [Ho Hk]. split; [done|]. intros r Hr. by apply IH, Hk. Qed.

Lemma settles_attempt {A B} (Q : A -> Prop) (R : B -> Prop) (p : program A) (f : A -> program B) :
  settles (well Q) p -> (forall a, Q a -> settles (well R) (f a)) -> settles (well R) (attempt p f).
Proof. intros Hp Hf. eapply settles_bind; [exact Hp|]. intros [a|e]; [apply Hf|done]. Qed.

Lemma asks_settles {A} (p : prog Op Reply A) : asks (fun op => is_forever op = false) p -> settles anything p.
Proof. intros Hp. induction p as [a|op k IH]; simpl in *; [done|]. destruct Hp as [Ho Hk]. split; [done|]. intros r _. by apply IH. Qed.

Lemma settles_any {A} (p : program A) : settles anything p -> settles (well anything) p.
Proof. apply settles_mono. by intros []. Qed.

Lemma call_settles op : is_forever op = false -> settles (bounded op) (call op).
Proof. intros Ho. split; [done|]. by intros r. Qed.

Lemma prepend_length ip l : (length (prepend_ip ip l) <= S (length l))%nat.
Proof.
  unfold prepend_ip. destruct ip as [ip|]; [|lia]. destruct (head _); [|lia]. cbn [length].
  induction l as [|x l IH]; cbn [keep length]; [lia|]. destruct (negb _); cbn [length]; lia.
Qed.

Lemma origins_settles person device : settles (well (fun l => (length l <= S n)%nat)) (origins person device).
Proof.
  apply (settles_attempt anything).
  { apply settles_any, asks_settles. unfold require_owner, owner, call, fail, done_. by asked. }
  intros u _. eapply settles_bind; [by apply call_settles|]. intros peers Hp. cbn [bounded] in Hp.
  destruct (peers ≫= _) as [p|] eqn:Hpeer; [|done]. destruct (checked_origins (endpoint p)) as [l|] eqn:Hl; [|done].
  eapply settles_bind; [by apply call_settles|]. intros ip _. cbn [settles well done_].
  destruct peers as [peers|]; [|done]. cbn [mbind option_bind] in Hpeer.
  assert (Hin : p ∈ peers). { destruct (keep _ peers) as [|x rest] eqn:Hk; [done|]. injection Hpeer as ->.
    assert (p ∈ keep (is_own_peer person device) peers) as Hin by (rewrite Hk; by left). by apply elem_of_keep in Hin as [? _]. }
  specialize (Hp peers p eq_refl Hin). unfold checked_origins in Hl. apply length_mapM in Hl. pose proof (prepend_length ip l). lia.
Qed.

Lemma send_to_settles person peer req origin : settles (well fine_response) (send_to person peer req origin).
Proof.
  apply (settles_attempt anything); [eapply settles_mono; [|apply origins_settles]; by intros []|]. intros u _.
  eapply settles_bind; [by apply call_settles|]. intros enc _. destruct enc; [|done].
  eapply settles_bind; [by apply call_settles|]. intros [| |r] _; [done..|]. cbn [read_response]. destruct (negb _); [done|].
  apply (settles_attempt anything); [by destruct (gather _ _ _)|]. intros text _.
  apply (settles_attempt anything); [eapply settles_mono; [|apply origins_settles]; by intros []|]. intros v _.
  destruct (to_str text) as [t|]; [|done]. eapply settles_bind; [by apply call_settles|]. intros [x|] Hx; [exact Hx|done].
Qed.

Lemma select_shorter timed c l o rest : SelectOrigin_ o rest = select_from timed c l -> S (length rest) = length l.
Proof.
  destruct c as [| |i]; cbn [select_from]; [by destruct timed|done|]. destruct (l !! i) eqn:Hi; [|done]. intros [= _ ->].
  apply lookup_lt_Some in Hi as Hlt. rewrite length_delete by (by eexists). lia.
Qed.

Lemma try_origins_settles fuel person peer req rest tried :
  (length rest + (if tried : bool then 0 else 1) < fuel)%nat -> settles (well fine_response) (try_origins fuel person peer req rest tried).
Proof.
  revert rest tried. induction fuel as [|fuel IH]; intros rest tried Hf; [lia|]. cbn [try_origins]. destruct (_ && _); [done|].
  eapply settles_bind; [by apply call_settles|]. intros s [c Hs].
  assert (Hsent : forall o l t, (length l + (if t : bool then 0 else 1) < fuel)%nat -> settles (well fine_response) (bind (send_to person peer req o) (fun r =>
      match r with Err Network => if read_only req then try_origins fuel person peer req l t else fail Network | r => Ret r end))).
  { intros o l t Hl. eapply settles_bind; [apply send_to_settles|]. intros [x|[]] Hx; try done. destruct (read_only req); [by apply IH|done]. }
  destruct s as [| |o l]; [done| |apply select_shorter in Hs; apply Hsent; lia].
  destruct tried; [done|]. eapply settles_bind; [by apply call_settles|]. intros r _. destruct r; [|done]. apply Hsent. cbn [length]. lia.
Qed.

Lemma request_settles {A} (Q : A -> Prop) person peer req contact (checked : RpcResponse -> result PeerSaveError A) :
  (forall r, fine_response r -> well Q (checked r)) -> settles (well Q) (request person peer req contact checked).
Proof.
  intros Hc. apply (settles_bind (fun x => well fine_response x.2)).
  - eapply settles_bind; [apply origins_settles|]. intros [found|e] Hl; [|done].
    apply (settles_bind anything); [case_bool_decide; [by apply asks_settles|done]|]. intros route _. destruct route; [|done].
    eapply settles_bind; [by apply call_settles|]. intros begun _. destruct begun; [|done].
    eapply settles_bind; [apply try_origins_settles; lia|]. intros r Hr. exact Hr.
  - intros [begun x] Hx. cbn [snd] in Hx. assert (Hw : well Q (x ≫= checked)) by (destruct x as [r|e]; [by apply Hc|done]).
    destruct begun; [|exact Hw]. split; [done|]. intros r _. exact Hw.
Qed.

Lemma remote_records_settles person peer game ids pushed contact :
  settles (well (fun response => forall x, x ∈ sent_records response -> within (parents x))) (remote_records person peer game ids pushed contact).
Proof. apply request_settles. intros [|?|[response|]|] Hr; done. Qed.

Lemma remote_heads_settles person peer contact :
  settles (well (fun l => forall game, within (heads_of game l))) (remote_heads person peer contact).
Proof. apply request_settles. intros [[l|]| | |] Hr; done. Qed.

Lemma download_settles fuel person peer file got attempt tried :
  Z.max (Z.of_nat (S n)) 6 - attempt < Z.of_nat fuel -> (0 < fuel)%nat -> settles (well anything) (download fuel person peer file got attempt tried).
Proof.
  revert got attempt tried. induction fuel as [|fuel IH]; intros got attempt tried Hf Ha; cbn [download].
  { lia. }
  apply (settles_attempt (fun l => (length l <= S n)%nat)); [apply origins_settles|]. intros found Hfound.
  destruct (Z.leb_spec (Z.max (Z.of_nat (length found)) 6) attempt) as [Hle|Hgt]; [done|].
  assert (Hnext : forall got tried, settles (well anything) (download fuel person peer file got (attempt + 1) tried)).
  { intros g t. apply IH; lia. }
  destruct (if bool_decide _ then _ else _) as [candidates tried'].
  apply (settles_bind anything). { apply asks_settles. unfold target_of, call. by asked. }
  intros [origin|] _; [|apply Hnext]. eapply settles_bind; [by apply call_settles|]. intros enc _. destruct enc; cbn [negb]; [|done].
  eapply settles_bind; [by apply call_settles|]. intros [| |r] _; [apply Hnext..|].
  apply (settles_attempt anything). { apply settles_any, asks_settles. unfold take_body, reset, call, fail, done_. by asked. }
  intros [got' [finished|]] _; [|apply Hnext]. destruct (_ && _); [|apply Hnext].
  apply (settles_attempt anything).
  { unfold keep_object. destruct (negb _); [apply settles_any, asks_settles; unfold reset, call, fail, done_; by asked|].
    apply (settles_attempt anything); [eapply settles_mono; [|apply origins_settles]; by intros []|]. intros u _.
    apply settles_any, asks_settles. unfold call, done_. by asked. }
  intros [u|] _; [done|apply Hnext].
Qed.

Lemma fetch_files_settles fuel person peer l : Z.max (Z.of_nat (S n)) 6 < Z.of_nat fuel -> settles (well anything) (fetch_files fuel person peer l).
Proof.
  intros Hf. induction l as [|file l IH]; cbn [fetch_files]; [done|].
  apply (settles_attempt anything). { apply settles_any, asks_settles. unfold call. by asked. }
  intros present _. apply (settles_attempt anything); [|by intros _ _].
  destruct present as [k|]; [destruct (k =? _); done|].
  apply (settles_attempt anything); [by destruct (validate_hash _)|]. intros u _. eapply settles_bind; [by apply call_settles|].
  intros [[is_dir mode]|] _; [|done]. destruct (_ || _); [done|]. eapply settles_bind; [by apply call_settles|]. intros [m|] _; [done|].
  apply download_settles; lia.
Qed.

Lemma fetch_heads_settles fuel person peer l : Z.max (Z.of_nat (S n)) 6 < Z.of_nat fuel -> settles (well anything) (fetch_heads fuel person peer l).
Proof.
  intros Hf. induction l as [|r l IH]; cbn [fetch_heads]; [done|]. apply (settles_attempt anything); [by apply fetch_files_settles|]. by intros u _.
Qed.

Lemma confirm_response_settles person peer game requested l : settles (well anything) (confirm_response person peer game requested l).
Proof.
  apply settles_any, asks_settles. unfold confirm_response, require_owner, owner, call, fail, done_.
  assert (Hall : asks (fun op => is_forever op = false) (confirm_all person game peer l)).
  { induction l as [|i l IH]; cbn [confirm_all]; [done|]. unfold call. by asked. }
  by asked.
Qed.

Lemma confirm_heads_settles person peer game l : settles (well anything) (confirm_heads person peer game l).
Proof.
  induction l as [|[i r] l IH]; cbn [confirm_heads]; [done|]. apply (settles_attempt anything); [apply confirm_response_settles|]. by intros u _.
Qed.

Lemma import_settles person peer r e : settles (well anything) (import_record person peer r e).
Proof.
  apply (settles_attempt anything); [eapply settles_mono; [|apply origins_settles]; by intros []|]. intros u _.
  apply settles_any, asks_settles. unfold call, fail, done_. by asked.
Qed.

Lemma offer_settles person peer game contact o l : settles (well anything) (offer person peer game contact o l).
Proof.
  induction l as [|r l IH]; cbn [offer]; [done|]. apply (settles_attempt anything); [by destruct (stored _)|]. intros i _.
  apply (settles_attempt anything); [|by intros u _]. unfold offer_record. destruct (offer_of o i).
  - apply (settles_attempt anything); [eapply settles_mono; [|apply remote_records_settles]; by intros []|]. intros response _. apply confirm_response_settles.
  - apply (settles_attempt anything); [eapply settles_mono; [|apply remote_records_settles]; by intros []|]. intros response _.
    apply (settles_bind anything); [case_bool_decide; [done|by apply asks_settles]|]. intros v _. apply confirm_response_settles.
  - done.
Qed.

(** What is left of the walk: the pending names, and the parents of those not visited. *)
Definition rest_of (pending : list string) (s : walked) : nat := length pending + size (U ∖ visited s) * b.

Definition walkable (pending : list string) (s : walked) : Prop :=
  (forall i, i ∈ pending -> i ∈ U) /\ forall i r, known s !! i = Some r -> within (parents r).

Lemma rest_visit i r pending s s' :
  i ∈ U -> i ∉ visited s -> within (parents r) -> visited s' = {[i]} ∪ visited s ->
  (rest_of (pending ++ parents r) s' < rest_of (i :: pending) s)%nat.
Proof using SVC LAWS U b.
  intros Hi Hv [Hlen _] Hs. unfold rest_of. rewrite length_app, Hs. cbn [length].
  assert (size (U ∖ visited s) = S (size (U ∖ ({[i]} ∪ visited s)))) as ->.
  { rewrite (union_difference_singleton_L i (U ∖ visited s)) by set_solver. rewrite size_union by set_solver. rewrite size_singleton.
    replace (U ∖ visited s ∖ {[i]}) with (U ∖ ({[i]} ∪ visited s)) by set_solver. lia. }
  lia.
Qed.

Lemma walk_settles fuel person peer game contact advertised pending s :
  (rest_of pending s <= fuel)%nat -> walkable pending s ->
  settles (well anything) (walk fuel person peer game contact advertised pending s).
Proof.
  revert pending s. induction fuel as [|fuel IH]; intros [|i pending] s Hf Hw; cbn [walk]; try done.
  { unfold rest_of in Hf. cbn [length] in Hf. lia. }
  apply (settles_attempt anything); [by destruct (validate_hash i)|]. intros u _.
  assert (Hi : i ∈ U) by (apply Hw; by left). assert (Hpend : forall x, x ∈ pending -> x ∈ U) by (intros x Hx; apply Hw; by right).
  case_bool_decide as Hv. { apply IH; [unfold rest_of in *; cbn [length] in Hf; lia|]. by destruct Hw. }
  assert (Hstep : forall r s', within (parents r) -> visited s' = {[i]} ∪ visited s -> (forall j x, known s' !! j = Some x -> within (parents x)) ->
    settles (well anything) (walk fuel person peer game contact advertised (pending ++ parents r) s')).
  { intros r s' Hr Hs' Hk. apply IH; [pose proof (rest_visit i r pending s s' Hi Hv Hr Hs'); lia|]. split; [|exact Hk].
    intros x [Hx|Hx]%elem_of_app; [by apply Hpend|by apply Hr]. }
  destruct (if bool_decide _ then None else _) as [r|] eqn:Hk.
  - apply Hstep; [|done|apply Hw]. case_bool_decide; [done|]. by apply (proj2 Hw i).
  - apply (settles_attempt (fun response => forall x, x ∈ sent_records response -> within (parents x))); [apply remote_records_settles|].
    intros response Hresponse. apply (settles_attempt (fun r => within (parents r))).
    { unfold single_record. destruct (sent_records response) as [|x [|]]; [done| |done]. destruct (negb _); [done|].
      destruct (stored _) as [a|]; cbn [mbind result_bind]; [|exact I]. destruct (bool_decide (a = i)); [|exact I]. apply Hresponse. by left. }
    intros r Hr. eapply settles_bind; [by apply call_settles|]. intros v _.
    apply (settles_attempt anything); [destruct (known (visit i s) !! i); [exact I|apply import_settles]|]. intros j _.
    apply Hstep; [done|done|]. cbn [learn visit known]. intros k x Hx. destruct (known s !! i); [by apply (proj2 Hw k)|].
    destruct (decide (k = i)) as [->|Hne]; [rewrite lookup_insert_eq in Hx; by injection Hx as <-|].
    rewrite lookup_insert_ne in Hx by done. by apply (proj2 Hw k).
Qed.

Lemma sync_game_settles fuel person peer purpose remote game :
  Z.max (Z.of_nat (S n)) 6 < Z.of_nat fuel -> (b + size U * b <= fuel)%nat -> within (heads_of game remote) ->
  settles (well anything) (sync_game fuel person peer purpose remote game).
Proof.
  intros Hf Hfb Hh. apply (settles_attempt (fun l => forall x, x ∈ l -> within (parents x))).
  { eapply settles_bind; [by apply call_settles|]. intros [l|[]] Hl; done. }
  intros l Hl. apply (settles_attempt (fun k : gmap string SnapshotRecord => forall i r, k !! i = Some r -> within (parents r))).
  { destruct (index_all l) as [k|[]] eqn:Hk; [|done..]. intros i r Hi. apply Hl. by apply (index_all_spec _ _ _ _ Hk) in Hi as [Hin _]. }
  intros k Hk. apply (settles_attempt anything); [apply settles_any, asks_settles; unfold call; by asked|]. intros confirmed _.
  eapply settles_bind; [by apply call_settles|]. intros v _. apply (settles_attempt anything).
  { apply walk_settles; [|by split; [apply Hh|]]. unfold rest_of. cbn [visited]. rewrite difference_empty_L. destruct Hh. lia. }
  intros s _. apply (settles_attempt anything); [by apply fetch_heads_settles|]. intros _ _.
  apply (settles_attempt anything); [apply confirm_heads_settles|]. intros _ _.
  apply (settles_attempt anything); [apply settles_any, asks_settles; unfold call; by asked|]. intros l' _.
  apply (settles_attempt anything); [by destruct (stored _)|]. intros hs _. eapply settles_bind; [by apply call_settles|]. intros inc _. apply offer_settles.
Qed.

(** C27: An exchange ends. When a device has at most [n] addresses and the names it tells,
    and those of the local history, are among [U] with at most [b] at a time, so many
    attempts and steps are enough for every loop; whatever else is answered. *)
Theorem synchronize_ends fuel person peer only purpose :
  Z.max (Z.of_nat (S n)) 6 < Z.of_nat fuel -> (b + size U * b <= fuel)%nat ->
  settles anything (synchronize fuel person peer only purpose).
Proof.
  intros Hf Hfb. apply (settles_mono (well anything)); [done|].
  apply (settles_attempt (fun l => forall game, within (heads_of game l))); [apply remote_heads_settles|]. intros remote Hr.
  eapply settles_bind; [by apply call_settles|]. intros v _.
  apply (settles_attempt anything); [apply settles_any, asks_settles; unfold call; by asked|]. intros local _.
  apply (settles_bind anything). { destruct (is_contact purpose); [|done]. apply asks_settles. unfold contact_unchanged, call. by asked. }
  intros unchanged _. destruct unchanged; [done|]. apply (settles_attempt anything).
  { generalize (games_of only remote local). intros games. induction games as [|g games IH]; cbn [sync_games]; [done|].
    apply (settles_attempt anything); [by apply sync_game_settles|]. by intros u _. }
  intros u _. destruct (is_contact purpose); [|done]. apply settles_any, asks_settles. unfold remember_contact, call, done_. by asked.
Qed.
End bounds.
End sync.
