(* ===== verification/SavePeerSim.v ===== *)
(** * A simulation of the exchange of saves

    Two devices with the codecs of [SaveSim]: one runs [SavePeer], the other answers
    from its own store with the handlers of [Peers]. *)

From S2P Require Import Prelude Text Decimal Programs Files PlayLog Saves History SaveStore SaveSim Peers SavePeer.

Notation me := SaveSim.owner.

#[export] Instance sim_urls : Urls := {|
  url_parse := fun s => Some (MkUrl "http" (Some "peer") EmptyString None None None "/" (Some 39217) s);
|}.

Definition peer_address : string := "http://192.168.1.2:39217".

Definition device_of_b : PeerSnapshot := MkPeerSnapshot device_b me true (Some [peer_address]) None.

Definition new_world (st : storage) : world := MkWorld st ∅ ∅ ∅ [] [] [].

(** ** The other device *)

Definition record_f : SnapshotRecord := snapshot [name_of record_a] device_a "slot 2" "second".
Definition record_g : SnapshotRecord := snapshot [name_of record_a] device_b "slot 3" "third".

Definition all_contents : list string := ["slot 1"; "slot 2"; "slot 3"; "first"; "second"; "third"].

Definition here : storage := store_of [record_a; record_f] ["slot 1"; "slot 2"; "first"; "second"].
Definition there : storage := store_of [record_a; record_g] ["slot 1"; "slot 3"; "first"; "third"].

(** A run with a reply for every operation. *)
Fixpoint play {A} (usual : forall op, option (Choice op)) (p : prog Op Reply A) (w : world) : option (world * A) :=
  match p with
  | Ret a => Some (w, a)
  | Do op k =>
      match usual op with
      | Some c => let x := effect op c w in play usual (k x.2) x.1
      | None => None
      end
  end.

Lemma play_ends {A} usual (p : prog Op Reply A) w w' a : play usual p w = Some (w', a) -> Programs.ends effect p w w' a.
Proof.
  revert w. induction p as [b|op k IH]; intros w; cbn [play]; [by intros [= -> ->]|]. destruct (usual op) as [c|]; [|done].
  intros Hp. exists c. by apply IH.
Qed.

Definition alone {op} (a : Answer op) : option (Choice op) := Some ([], a).

(** The handlers of the other device need nothing from outside but its identity. *)
Definition own_reply (op : Op) : option (Choice op) :=
  match op return option (Choice op) with
  | Identity => alone (op:=Identity) (Some me)
  | Records person game => alone (op:=Records person game) tt
  | RecordOf person game i => alone (op:=RecordOf person game i) tt
  | Complete person game i => alone (op:=Complete person game i) tt
  | Heads person => alone (op:=Heads person) tt
  | ObjectOf person h => alone (op:=ObjectOf person h) tt
  | _ => None
  end.

Definition handled {A} (p : prog Op Reply (result PeerSaveError A)) : option A :=
  match play own_reply p (new_world there) with Some (_, Ok a) => Some a | _ => None end.

Definition asker : AuthorizationContext := OwnerDevice me device_a.

(** It keeps what it has; a record that is pushed is not taken. *)
Definition serve (request : RpcRequest) : RpcResponse :=
  match request with
  | SaveHeadsRequest => SaveHeadsResponse (handled (answer_heads asker))
  | SaveRecordsRequest game ids _ => SaveRecordsResponse (handled (answer_records 0 asker game ids None))
  | _ => OtherResponse
  end.

Definition serve_object (h : string) : Posting :=
  match handled (answer_object asker h) with
  | Some content =>
      let '(st, range, len, (parts, f)) := object_reply [] content [1; 100; 100] in
      Responded (MkResponse st range len ((fun part => MkPiece part 0 0 None) <$> parts) f)
  | None => Responded (MkResponse 404 None None [] Finished)
  end.

(** What this device meets. *)
Definition usual (op : Op) : option (Choice op) :=
  match op return option (Choice op) with
  | Identity => alone (op:=Identity) (Some me)
  | Directory => alone (op:=Directory) (Some [device_of_b])
  | NearbyIp device => alone (op:=NearbyIp device) None
  | BeginWork device contact => alone (op:=BeginWork device contact) true
  | SetPeerState device ready => alone (op:=SetPeerState device ready) tt
  | SelectOrigin timed l => alone (op:=SelectOrigin timed l) (Chose 0)
  | Encode device request => alone (op:=Encode device request) true
  | Post device origin (SaveObjectRequest h) range => alone (op:=Post device origin (SaveObjectRequest h) range) (serve_object h)
  | Post device origin request range => alone (op:=Post device origin request range) (Responded (MkResponse 200 None None [] Finished))
  | Decode device request text => alone (op:=Decode device request text) (Some (serve request))
  | Now => alone (op:=Now) 0
  | PrivateRoot => alone (op:=PrivateRoot) (Ok (true, 448))
  | OpenTemporary => alone (op:=OpenTemporary) None
  | ResetTemporary => alone (op:=ResetTemporary) None
  | Heads person => alone (op:=Heads person) tt
  | Records person game => alone (op:=Records person game) tt
  | ConfirmedSnapshots person game device => alone (op:=ConfirmedSnapshots person game device) tt
  | Confirm person game i device => alone (op:=Confirm person game i device) no_fault
  | PutRecord person r => alone (op:=PutRecord person r) no_fault
  | ObjectOf person h => alone (op:=ObjectOf person h) tt
  | PutObject person h content => alone (op:=PutObject person h content) no_fault
  | ReadMark person device => alone (op:=ReadMark person device) tt
  | WriteMark person device mark => alone (op:=WriteMark person device mark) tt
  | ReadIncomplete person device => alone (op:=ReadIncomplete person device) tt
  | AddIncomplete person device i => alone (op:=AddIncomplete person device i) tt
  | Pending f => alone (op:=Pending f) tt
  | _ => None
  end.

Definition after (p : prog Op Reply (result PeerSaveError unit)) (w : world) : world :=
  match play usual p w with Some (w', _) => w' | None => w end.

Definition goes_well {A} (p : prog Op Reply (result PeerSaveError A)) (w : world) : bool :=
  match play usual p w with Some (_, Ok _) => true | _ => false end.

Lemma well_ends (p : prog Op Reply (result PeerSaveError unit)) w :
  goes_well p w = true -> Programs.ends effect p w (after p w) (Ok ()).
Proof.
  unfold goes_well, after. destruct (play usual p w) as [[w' [[]|e]]|] eqn:Hp; [|done..]. intros _. by eapply play_ends.
Qed.

(** ** An exchange *)

Definition begin : world := new_world here.
Definition replicated : world := after (synchronize 10 me device_b (Some game) Replicate) begin.

Lemma replicates : goes_well (synchronize 10 me device_b (Some game) Replicate) begin = true.
Proof. vm_compute. reflexivity. Qed.

Definition names_in (st : storage) : list string := ok_or_nil (on_ok (fun l => name_of <$> l) (read_records st me game)).

(** All three records are here, with the contents of the head that came; the one of this
    device was pushed. *)
Example replicated_all :
  (forallb (fun r => bool_decide (name_of r ∈ names_in (store replicated))) [record_a; record_f; record_g],
   complete_b (store replicated) record_g,
   existsb (fun x => match x.2 with SaveRecordsRequest _ ids (Some _) => bool_decide (ids = [name_of record_f]) | _ => false end) (posted replicated))
  = (true, true, true).
Proof. vm_compute. reflexivity. Qed.

Lemma here_readable : readable_b here = true.
Proof. vm_compute. reflexivity. Qed.

Lemma no_marks st : sound_marks me device_b (new_world st).
Proof. intros mark Hm. cbn [new_world marks] in Hm. by rewrite lookup_empty in Hm. Qed.

Lemma synchronize_exchanges_witness :
  sound_marks me device_b replicated /\
  exists remote more,
    answered replicated = more ++ (device_b, SaveHeadsRequest, SaveHeadsResponse (Some remote)) :: answered begin /\
    (forall g hs h, wanted (Some game) g = true -> head_sets remote !! g = Some hs -> h ∈ hs -> descends me g h replicated) /\
    ((Replicate = Contact /\ exists mark, marks begin !! (me, device_b) = Some mark /\ mark_remote mark = head_sets remote) \/
     forall g, wanted (Some game) g = true -> exists m, exchanged me device_b g (heads_of g remote) begin replicated m).
Proof.
  apply (synchronize_exchanges 10 me device_b (Some game) Replicate begin replicated).
  - apply readable_b_spec. exact here_readable.
  - apply no_marks.
  - intros Heq. discriminate Heq.
  - apply well_ends. exact replicates.
Defined.

(** ** The check before a launch *)

Definition checked : world := after (check_launch 10 me game device_b) begin.

Lemma checks : goes_well (check_launch 10 me game device_b) begin = true.
Proof. vm_compute. reflexivity. Qed.

Lemma check_hears fuel person game peer w w' :
  Programs.ends effect (check_launch fuel person game peer) w w' (Ok ()) ->
  exists remote more, answered w' = more ++ (peer, SaveHeadsRequest, SaveHeadsResponse (Some remote)) :: answered w.
Proof.
  intros (w1 & remote & Hreq & Hd)%ends_attempt. apply remote_heads_heard in Hreq. exists remote.
  assert (Ha : hears_after (answered w1) w1) by by exists [].
  apply (ends_stable _ _ _ _ _ (hears_after_stable _) Hd) in Ha as [more Hmore]. exists more. by rewrite Hmore, Hreq.
Qed.

Lemma nothing_pending : bool_decide (pending_head_records checked = ∅) = true.
Proof. vm_compute. reflexivity. Qed.

Lemma launch_check_truthful_witness :
  exists remote, forall h, h ∈ heads_of game remote -> vouched me device_b game h checked.
Proof.
  destruct (check_hears 10 me game device_b begin checked (well_ends _ _ checks)) as (remote & more & Hans). exists remote.
  apply (launch_check_truthful 10 me game device_b (InUseIdle device_b false) (Some (Ok ())) remote more begin checked).
  - apply readable_b_spec. exact here_readable.
  - apply well_ends. exact checks.
  - exact Hans.
  - cbn [check_result heads_without_records]. rewrite nothing_pending. reflexivity.
Defined.

(** ** Single steps *)

Definition push : prog Op Reply (result PeerSaveError SaveRecords) :=
  remote_records me device_b game [name_of record_f] (Some [record_f]) false.

Definition pushed_world : world := match play usual push begin with Some (w, _) => w | None => begin end.
Definition push_result : result PeerSaveError SaveRecords := match play usual push begin with Some (_, r) => r | None => Err Network end.

Lemma pushes : is_some (play usual push begin) = true.
Proof. vm_compute. reflexivity. Qed.

Lemma push_ends : Programs.ends effect push begin pushed_world push_result.
Proof.
  pose proof pushes as Hp. unfold pushed_world, push_result. destruct (play usual push begin) as [[w r]|] eqn:Hplay; [|discriminate Hp].
  by eapply play_ends.
Qed.

Lemma push_sent_once_witness :
  posted pushed_world = posted begin \/
  exists origin, posted pushed_world = (device_b, origin, SaveRecordsRequest game [name_of record_f] (Some [record_f])) :: posted begin.
Proof.
  apply (push_sent_once me device_b (SaveRecordsRequest game [name_of record_f] (Some [record_f])) false records_outcome begin pushed_world push_result).
  - reflexivity.
  - exact push_ends.
Defined.

Definition told : world := new_world (store_of [record_a; record_g] ["slot 1"; "first"]).
Definition wanted_file : SaveFile := object_of "slot 3" "game.srm".
Definition downloaded : world := after (download_object 10 me device_b wanted_file) told.

Lemma downloads : goes_well (download_object 10 me device_b wanted_file) told = true.
Proof. vm_compute. reflexivity. Qed.

Lemma download_stores_witness :
  exists content, verified_object (store downloaded) (sha256 wanted_file) = Ok content /\ str_len content = file_bytes wanted_file /\
    hash content = sha256 wanted_file.
Proof.
  apply (download_stores 10 me device_b wanted_file told downloaded). apply well_ends. exact downloads.
Defined.

Lemma transfer_resumes_witness :
  let '(st, range, len, (parts, f)) := object_reply (asked "slo") "slot 3" [2; 5; 1] in
  start_of (MkResponse st range len [] f) (str_len "slo") (str_len "slot 3") = Ok (if str_is_empty "slo" then FromStart else Continue) /\
  len = Some (str_len "slot 3" - str_len "slo") /\
  (f = Finished -> "slo" +:+ concat_text parts = "slot 3") /\
  (Forall (fun n => 0 < n) [2; 5; 1] -> str_len "t 3" <= Z.of_nat (length [2; 5; 1]) -> f = Finished).
Proof.
  apply (transfer_resumes "slot 3" "slo" "t 3" [2; 5; 1] []).
  - reflexivity.
  - discriminate.
  - vm_compute. discriminate.
Defined.

Lemma synchronize_ends_witness :
  settles 1 2 {["x"; "y"]} anything (synchronize 10 me device_b (Some game) Replicate).
Proof. apply (synchronize_ends 1 2 {["x"; "y"]} 10); [lia|vm_compute; lia]. Defined.
