(* ===== verification/Identity.v ===== *)
(** * Device identity and owner statements (services/korrid/src/identity.rs)

    A device has a key and at most one owner statement, an event signed by the
    owner that names the device as owned or revoked. Both are private files. The
    events, their signatures, NIP-44 and the JSON of a template are those of the
    nostr library, the class [Nostr]. *)

From S2P Require Import Prelude Text Decimal Programs Files.

(** ** What the nostr library knows *)

(** [nostr::Event], its identifiers and keys in hexadecimal. *)
Record Event := MkEvent {
  ev_id : string;
  ev_pubkey : string;
  ev_created_at : Z;
  ev_kind : Z;
  ev_tags : list (list string);
  ev_content : string;
  ev_sig : string;
}.

(** An event that is to be signed. *)
Record OwnerStatementTemplate := MkTemplate {
  template_kind : Z;
  template_created_at : Z;
  template_tags : list (list string);
  template_content : string;
}.

#[export] Instance template_eq_dec : EqDecision OwnerStatementTemplate.
Proof. solve_decision. Defined.

(** [sign] and [encrypt] take randomness. *)
Class Nostr := {
  Keys : Type;
  from_json : string -> option Event;
  event_json : Event -> string;
  verify : Event -> bool;
  parse_keys : string -> option Keys;
  generate : Z -> Keys;
  secret_hex : Keys -> string;
  public_hex : Keys -> string;
  key_of_hex : string -> bool;
  xonly : string -> bool;
  parse_tag : list string -> bool;
  sign : Keys -> Z -> list (list string) -> string -> Z -> Z -> option Event;
  nip44_encrypt : Keys -> string -> string -> Z -> option string;
  nip44_decrypt : Keys -> string -> string -> option string;
  template_to_json : OwnerStatementTemplate -> option string;
  template_from_json : string -> option OwnerStatementTemplate;
}.

Definition OWNER_EVENT_KIND : Z := 30078.
Definition OWNER_EVENT_PREFIX : string := "org.korri.device-owner:".
Definition MAX_EVENT_BYTES : Z := 65536.
Definition MAX_ENCRYPTED_PLAINTEXT_BYTES : Z := 4194304.
Definition MAX_ENCRYPTED_PAYLOAD_BYTES : Z := 6291456.

Inductive IdentityError : Type :=
| Storage
| InvalidIdentity (reason : string)
| InvalidEvent (reason : string)
| Encryption
| Decryption
| NoDeviceKey
| Signer.

(** [IdentityError::to_string]. *)
Definition error_text (e : IdentityError) : string :=
  match e with
  | Storage => "identity storage is unavailable"
  | InvalidIdentity reason => "device identity is invalid: " +:+ reason
  | InvalidEvent reason => "identity event is invalid: " +:+ reason
  | Encryption => "identity encryption failed"
  | Decryption => "identity decryption failed"
  | NoDeviceKey => "device has no usable key"
  | Signer => "person signer did not approve the owner binding"
  end.

Inductive IdentityState : Type :=
| Unowned (device_public_key : string)
| Owned (device_public_key owner_public_key event_id : string) (created_at : Z)
| Revoked (device_public_key owner_public_key event_id : string) (created_at : Z)
| Invalid (reason : string).

#[export] Instance identity_state_eq_dec : EqDecision IdentityState.
Proof. solve_decision. Defined.

Record VerifiedEvent := MkVerifiedEvent {
  v_id : string;
  author : string;
  v_created_at : Z;
  v_kind : Z;
  v_tags : list (list string);
  v_content : string;
}.

Record SignedEvent := MkSignedEvent { s_id : string; s_author : string; s_json : string }.

Inductive OwnerStatementStatus : Type := StatementOwned | StatementRevoked.

#[export] Instance owner_statement_status_eq_dec : EqDecision OwnerStatementStatus.
Proof. solve_decision. Defined.

Definition status_str (s : OwnerStatementStatus) : string :=
  match s with StatementOwned => "owned" | StatementRevoked => "revoked" end.

Definition status_parse (value : string) : result IdentityError OwnerStatementStatus :=
  if bool_decide (value = "owned") then Ok StatementOwned
  else if bool_decide (value = "revoked") then Ok StatementRevoked
  else Err (InvalidEvent "owner status is not supported").

Record VerifiedOwnerStatement := MkVerifiedOwnerStatement {
  o_event_id : string;
  o_owner : string;
  o_device : string;
  o_status : OwnerStatementStatus;
  o_created_at : Z;
}.

#[export] Instance verified_owner_statement_eq_dec : EqDecision VerifiedOwnerStatement.
Proof. solve_decision. Defined.

(** The order of NIP-01: later first, and of two at the same time the lower name. *)
Definition event_is_newer (candidate_created_at : Z) (candidate_id : string) (current_created_at : Z) (current_id : string) : bool :=
  (current_created_at <? candidate_created_at)
  || ((candidate_created_at =? current_created_at)
      && bool_decide (ord_le candidate_id current_id) && negb (bool_decide (candidate_id = current_id))).

Definition is_newer_than (s current : VerifiedOwnerStatement) : bool :=
  bool_decide (o_owner s = o_owner current) && bool_decide (o_device s = o_device current)
  && event_is_newer (o_created_at s) (o_event_id s) (o_created_at current) (o_event_id current).

Definition owner_tags (device : string) (status : OwnerStatementStatus) : list (list string) :=
  [["d"; OWNER_EVENT_PREFIX +:+ device]; ["device"; device]; ["status"; status_str status]].

(** ** Files *)

Definition directory : path := ["identity"].
Definition key_path : path := ["identity"; "device.key"].
Definition owner_path : path := ["identity"; "owner.event.json"].

Definition io {T} (r : result IoError T) : result IdentityError T := map_err (fun _ => Storage) r.

Definition exposed (mode : Z) : bool := negb (Z.land mode 63 =? 0).

Definition hex_64 (value : string) : bool := (str_len value =? 64) && all_chars is_lower_hex value.

Section identity.
Context `{NO : !Nostr, Sv : !Services}.

Notation program A := (prog Op Reply A).

Definition sync_directory (p : path) : program (result IdentityError unit) := Do (SyncDir p) (fun r => Ret (io r)).

Definition make_root : program (result IdentityError unit) :=
  Do (Exists []) (fun there =>
    if there then Ret (Ok ()) else Do (MkDir [] 448) (fun r =>
      Ret (match r with Ok _ | Err AlreadyExists => Ok () | Err _ => Err Storage end))).

Definition make_directory : program (result IdentityError unit) :=
  Do (Exists directory) (fun there =>
    if there then Ret (Ok ()) else Do (MkDir directory 448) (fun r =>
      match r with Ok _ => sync_directory [] | Err AlreadyExists => Ret (Ok ()) | Err _ => Ret (Err Storage) end)).

Definition check_root : program (result IdentityError unit) :=
  Do (Stat []) (fun r => Ret (match r with Ok (MetaDirectory _) => Ok () | _ => Err Storage end)).

Definition check_directory : program (result IdentityError unit) :=
  Do (Stat directory) (fun r =>
    Ret (match r with Ok (MetaDirectory mode) => if exposed mode then Err Storage else Ok () | _ => Err Storage end)).

Definition prepare_identity_directory : program (result IdentityError unit) :=
  step! _ <- make_root ;; step! _ <- check_root ;; step! _ <- make_directory ;; check_directory.

Definition read_bounded_optional (p : path) (limit : Z) : program (result IdentityError (option string)) :=
  Do (Stat p) (fun r =>
    match r with
    | Err NotFound => Ret (Ok None)
    | Ok (MetaFile mode len) =>
        if exposed mode || (limit <? len) then Ret (Err Storage)
        else Do (ReadFile p (limit + 1)) (fun r =>
          Ret (match r with
               | Ok bytes => if limit <? str_len bytes then Err Storage else Ok (Some bytes)
               | Err _ => Err Storage
               end))
    | _ => Ret (Err Storage)
    end).

Definition write_new_private (p : path) (content : string) : program (result IdentityError bool) :=
  Do (CreateNew p 384) (fun r =>
    match r with
    | Err AlreadyExists => Ret (Ok false)
    | Err _ => Ret (Err Storage)
    | Ok _ =>
        step! _ <- Do (WriteAll p content) (fun r => Ret (io r)) ;;
        step! _ <- Do (SyncFile p) (fun r => Ret (io r)) ;;
        step! _ <- sync_directory (parent p) ;;
        Ret (Ok true)
    end).

Definition private_temporary_path (p : path) (nonce : Z) : path :=
  parent p ++ ["." +:+ default "identity" (last p) +:+ "." +:+ decimal nonce +:+ ".tmp"].

Definition write_private_atomically (p : path) (content : string) : program (result IdentityError unit) :=
  Do (Random 64) (fun nonce =>
    let temporary := private_temporary_path p nonce in
    bind (atomic_replace (fun _ => Storage) temporary p (parent p) content) (fun r =>
      match r with Ok _ => Ret (Ok ()) | Err e => Do (RemoveFile temporary) (fun _ => Ret (Err e)) end)).

(** ** Keys *)

Definition parse_named_keys (bytes label : string) : result IdentityError Keys :=
  match to_str bytes with
  | None => Err (InvalidIdentity (label +:+ " key is not UTF-8"))
  | Some s =>
      let value := trim s in
      if negb (hex_64 value) then Err (InvalidIdentity (label +:+ " key is not 32-byte lowercase hexadecimal"))
      else ok_or (parse_keys value) (InvalidIdentity (label +:+ " key is not valid secp256k1"))
  end.

Definition load_existing_keys (p : path) (label : string) : program (result IdentityError Keys) :=
  step! read <- read_bounded_optional p 128 ;;
  Ret (match read with Some bytes => parse_named_keys bytes label | None => Err Storage end).

Definition load_or_create_named_keys (p : path) (label : string) : program (result IdentityError Keys) :=
  step! read <- read_bounded_optional p 128 ;;
  match read with
  | Some bytes => Ret (parse_named_keys bytes label)
  | None =>
      Do (Random 256) (fun seed =>
        let keys := generate seed in
        step! written <- write_new_private p (secret_hex keys +:+ newline) ;;
        if (written : bool) then Ret (Ok keys) else load_existing_keys p label)
  end.

Definition load_or_create_keys : program (result IdentityError Keys) := load_or_create_named_keys key_path "device".

Definition parse_public_key (value : string) : result IdentityError string :=
  if negb (hex_64 value) then Err (InvalidEvent "public key must be 32-byte hexadecimal")
  else if key_of_hex value then Ok value else Err (InvalidEvent "public key is invalid").

(** [parse_public_key] and the check that it is a point of the curve. *)
Definition parse_point (value : string) : result IdentityError string :=
  key ← parse_public_key value; if xonly key then Ok key else Err (InvalidEvent "public key is invalid").

(** ** Events *)

Definition signed_event (e : Event) : SignedEvent := MkSignedEvent (ev_id e) (ev_pubkey e) (event_json e).

Definition verified_event (e : Event) : VerifiedEvent :=
  MkVerifiedEvent (ev_id e) (ev_pubkey e) (ev_created_at e) (ev_kind e) (ev_tags e) (ev_content e).

Definition verify_event_bounded (json : string) (maximum_bytes : Z) : result IdentityError VerifiedEvent :=
  if maximum_bytes <? str_len json then Err (InvalidEvent "event is too large")
  else match from_json json with
       | None => Err (InvalidEvent "event JSON is malformed")
       | Some e => if verify e then Ok (verified_event e) else Err (InvalidEvent "event signature is invalid")
       end.

Definition verify_event (json : string) := verify_event_bounded json MAX_EVENT_BYTES.
Definition verify_encrypted_event (json : string) := verify_event_bounded json MAX_ENCRYPTED_PAYLOAD_BYTES.

Definition parse_tags (tags : list (list string)) : result IdentityError (list (list string)) :=
  if forallb parse_tag tags then Ok tags else Err (InvalidEvent "event has an invalid tag").

(** *** Owner statements *)

Record ParsedOwnerStatement := MkParsedOwnerStatement { statement_event : Event; statement_status : OwnerStatementStatus }.

Definition parse_owner_statement (bytes expected_device : string) : result IdentityError ParsedOwnerStatement :=
  if MAX_EVENT_BYTES <? str_len bytes then Err (InvalidEvent "owner statement is too large")
  else match from_json bytes with
  | None => Err (InvalidEvent "owner statement JSON is malformed")
  | Some e =>
      if negb (verify e) then Err (InvalidEvent "owner signature is invalid")
      else if negb (ev_kind e =? OWNER_EVENT_KIND) || negb (str_is_empty (ev_content e))
      then Err (InvalidEvent "owner statement has the wrong event shape")
      else match ev_tags e with
      | [d; device; status] =>
          match status with
          | [name; value] =>
              if bool_decide (d = ["d"; OWNER_EVENT_PREFIX +:+ expected_device])
                 && bool_decide (device = ["device"; expected_device]) && bool_decide (name = "status")
              then status ← status_parse value; Ok (MkParsedOwnerStatement e status)
              else Err (InvalidEvent "owner statement names a different device")
          | _ => Err (InvalidEvent "owner statement names a different device")
          end
      | _ => Err (InvalidEvent "owner statement has unexpected tags")
      end
  end.

Definition verified_statement (device : string) (s : ParsedOwnerStatement) : VerifiedOwnerStatement :=
  MkVerifiedOwnerStatement (ev_id (statement_event s)) (ev_pubkey (statement_event s)) device
    (statement_status s) (ev_created_at (statement_event s)).

(** Without the memory of statements that were verified before. *)
Definition verify_owner_statement (json expected_device : string) : result IdentityError VerifiedOwnerStatement :=
  s ← parse_owner_statement json expected_device; Ok (verified_statement expected_device s).

Definition MAX_VERIFIED_OWNER_STATEMENTS : nat := 256.

Notation memo := (gmap (string * string) VerifiedOwnerStatement).

Definition remember (key : string * string) (v : VerifiedOwnerStatement) (m : memo) : memo :=
  <[key := v]> (if (MAX_VERIFIED_OWNER_STATEMENTS <=? size m)%nat then ∅ else m).

(** With it. *)
Definition verify_owner_statement_memo (m : memo) (json expected_device : string)
    : memo * result IdentityError VerifiedOwnerStatement :=
  match m !! (json, expected_device) with
  | Some verified => (m, Ok verified)
  | None =>
      match parse_owner_statement json expected_device with
      | Err e => (m, Err e)
      | Ok s => let verified := verified_statement expected_device s in (remember (json, expected_device) verified m, Ok verified)
      end
  end.

(** The device is the one the statement names. *)
Definition derive_owner_statement (json : string) : result IdentityError VerifiedOwnerStatement :=
  if MAX_EVENT_BYTES <? str_len json then Err (InvalidEvent "owner statement is too large")
  else match from_json json with
  | None => Err (InvalidEvent "owner statement JSON is malformed")
  | Some e =>
      match ev_tags e !! 1%nat with
      | None => Err (InvalidEvent "owner statement has no device tag")
      | Some [name; device] =>
          if bool_decide (name = "device") then _ ← parse_point device; verify_owner_statement json device
          else Err (InvalidEvent "owner device tag is malformed")
      | Some _ => Err (InvalidEvent "owner device tag is malformed")
      end
  end.

(** [None]: the [expect] or [unreachable] of the code. *)
Definition state_from_owner_event (e : Event) (device : string) : option IdentityState :=
  let status_of tag :=
    match tag with [name; value] => if bool_decide (name = "status") then Some value else None | _ => None end in
  status ← head (omap status_of (ev_tags e));
  if bool_decide (status = "owned") then Some (Owned device (ev_pubkey e) (ev_id e) (ev_created_at e))
  else if bool_decide (status = "revoked") then Some (Revoked device (ev_pubkey e) (ev_id e) (ev_created_at e))
  else None.

(** ** The identity of the device *)

Record DeviceIdentity := MkDeviceIdentity {
  keys : option Keys;
  state : IdentityState;
  owner_event : option Event;
}.

Inductive failure : Type := Error (e : IdentityError) | Panic.

Definition returned {A} (r : result IdentityError A) : result failure A := map_err Error r.

Definition broken (k : option Keys) (e : IdentityError) : DeviceIdentity := MkDeviceIdentity k (Invalid (error_text e)) None.

(** What is read from the file of the owner statement. *)
Definition identity_of (k : Keys) (read : result IdentityError (option string)) : result failure DeviceIdentity :=
  let device := public_hex k in
  match read with
  | Err e => Ok (broken (Some k) e)
  | Ok None => Ok (MkDeviceIdentity (Some k) (Unowned device) None)
  | Ok (Some bytes) =>
      match parse_owner_statement bytes device with
      | Err e => Ok (broken (Some k) e)
      | Ok s =>
          match state_from_owner_event (statement_event s) device with
          | Some st => Ok (MkDeviceIdentity (Some k) st (Some (statement_event s)))
          | None => Err Panic
          end
      end
  end.

Definition load_or_create : program (result failure DeviceIdentity) :=
  step! _ <- bind prepare_identity_directory (fun r => Ret (returned r)) ;;
  bind load_or_create_keys (fun r =>
    match r with
    | Err e => Ret (Ok (broken None e))
    | Ok k => bind (read_bounded_optional owner_path MAX_EVENT_BYTES) (fun read => Ret (identity_of k read))
    end).

Definition expect_root : program (result failure unit) :=
  Do (Stat []) (fun r => Ret (match r with Ok (MetaDirectory _) | Err NotFound => Ok () | _ => Err (Error Storage) end)).

Definition remove_identity : program (result failure unit) :=
  Do (Stat directory) (fun r =>
    match r with
    | Ok (MetaDirectory _) =>
        Do (RemoveTree directory) (fun r =>
          match r with Ok _ => bind (sync_directory []) (fun r => Ret (returned r)) | Err _ => Ret (Err (Error Storage)) end)
    | Err NotFound => Ret (Ok ())
    | _ => Ret (Err (Error Storage))
    end).

Definition reset : program (result failure DeviceIdentity) :=
  step! _ <- expect_root ;; step! _ <- remove_identity ;; load_or_create.

Definition device_public_key (i : DeviceIdentity) : option string :=
  match state i with
  | Unowned device | Owned device _ _ _ | Revoked device _ _ _ => Some device
  | Invalid _ => None
  end.

Definition owner_statement_json (i : DeviceIdentity) : option string := event_json <$> owner_event i.

Definition own_key (i : DeviceIdentity) : result IdentityError string := ok_or (public_hex <$> keys i) NoDeviceKey.

Definition owner_statement_template (i : DeviceIdentity) (status : OwnerStatementStatus) (created_at : Z)
    : result IdentityError string :=
  device ← own_key i;
  ok_or (template_to_json (MkTemplate OWNER_EVENT_KIND created_at (owner_tags device status) EmptyString))
    (InvalidEvent "owner template cannot be serialized").

(** *** A new owner statement *)

(** Whether a statement may follow what the device holds. *)
Definition accepts (i : DeviceIdentity) (s : ParsedOwnerStatement) : result failure unit :=
  let e := statement_event s in
  match state i, statement_status s with
  | Unowned _, StatementOwned => Ok ()
  | Unowned _, StatementRevoked => Err (Error (InvalidEvent "an unowned device cannot accept a revocation"))
  | Owned _ owner _ _, _ =>
      if negb (bool_decide (owner = ev_pubkey e)) then Err (Error (InvalidEvent "owner statement uses a different owner"))
      else match owner_event i with
           | None => Err (Error (InvalidIdentity "owned identity has no owner event"))
           | Some current =>
               if event_is_newer (ev_created_at e) (ev_id e) (ev_created_at current) (ev_id current) then Ok ()
               else Err (Error (InvalidEvent "owner statement is not newer"))
           end
  | _, _ => Err Panic
  end.

Definition refuse (i : DeviceIdentity) (e : failure) : program (DeviceIdentity * result failure unit) := Ret (i, Err e).

Definition store_statement (i : DeviceIdentity) (device : string) (e : Event) : program (DeviceIdentity * result failure unit) :=
  bind (write_private_atomically owner_path (event_json e)) (fun r =>
    match r with
    | Err x => refuse i (Error x)
    | Ok _ =>
        match state_from_owner_event e device with
        | None => refuse i Panic
        | Some st => Ret (MkDeviceIdentity (keys i) st (Some e), Ok ())
        end
    end).

Definition apply_parsed (i : DeviceIdentity) (device json : string) : program (DeviceIdentity * result failure unit) :=
  match parse_owner_statement json device with
  | Err e => refuse i (Error e)
  | Ok s => match accepts i s with Err e => refuse i e | Ok _ => store_statement i device (statement_event s) end
  end.

(** The identity after the call and its result. *)
Definition apply_owner_statement (i : DeviceIdentity) (json : string) : program (DeviceIdentity * result failure unit) :=
  match state i with
  | Invalid _ | Revoked _ _ _ _ => refuse i (Error (InvalidIdentity "the current identity state does not accept owner changes"))
  | _ => match own_key i with Err e => refuse i (Error e) | Ok device => apply_parsed i device json end
  end.

Record ValidatedOwnerBindingTemplate := MkValidated {
  binding_created_at : Z;
  binding_tags : list (list string);
  binding_content : string;
  binding_device : string;
}.

Definition validate_owner_statement_template (json : string) (status : OwnerStatementStatus)
    : result IdentityError ValidatedOwnerBindingTemplate :=
  if MAX_EVENT_BYTES <? str_len json then Err (InvalidEvent "owner template is too large")
  else match template_from_json json with
  | None => Err (InvalidEvent "owner template JSON is malformed")
  | Some supplied =>
      match template_tags supplied !! 1%nat with
      | Some [name; device] =>
          if negb (bool_decide (name = "device")) then Err (InvalidEvent "owner template device tag is malformed")
          else
            _ ← parse_point device;
            if bool_decide (supplied = MkTemplate OWNER_EVENT_KIND (template_created_at supplied) (owner_tags device status) EmptyString)
            then Ok (MkValidated (template_created_at supplied) (template_tags supplied) (template_content supplied) device)
            else Err (InvalidEvent "owner template has the wrong statement shape")
      | _ => Err (InvalidEvent "owner template device tag is malformed")
      end
  end.

Definition validate_owned_statement_template (json : string) := validate_owner_statement_template json StatementOwned.

(** The signer returned this template, signed by this owner. *)
Definition verify_signed_owner_binding (device template_json expected_owner signed_json : string) : result IdentityError unit :=
  if MAX_EVENT_BYTES <? str_len template_json then Err (InvalidEvent "owner template is too large")
  else
    owner ← parse_public_key expected_owner;
    supplied ← validate_owned_statement_template template_json;
    if negb (bool_decide (binding_device supplied = device)) then Err (InvalidEvent "owner template does not request this device binding")
    else if MAX_EVENT_BYTES <? str_len signed_json then Err (InvalidEvent "owner statement is too large")
    else match from_json signed_json with
    | None => Err (InvalidEvent "owner statement JSON is malformed")
    | Some e =>
        if negb (verify e) then Err (InvalidEvent "owner signature is invalid")
        else if bool_decide (ev_pubkey e = owner) && (ev_kind e =? OWNER_EVENT_KIND)
                && (ev_created_at e =? binding_created_at supplied) && bool_decide (ev_tags e = binding_tags supplied)
                && bool_decide (ev_content e = binding_content supplied)
        then Ok ()
        else Err (InvalidEvent "signer returned a different event")
    end.

Definition apply_signed_owner_binding (i : DeviceIdentity) (template_json expected_owner signed_json : string)
    : program (DeviceIdentity * result failure unit) :=
  match (device ← own_key i; verify_signed_owner_binding device template_json expected_owner signed_json) with
  | Err e => refuse i (Error e)
  | Ok _ => apply_owner_statement i signed_json
  end.

(** *** Messages to another device *)

Definition sign_event (i : DeviceIdentity) (kind : Z) (tags : list (list string)) (content : string) (created_at random : Z)
    : result IdentityError SignedEvent :=
  tags ← parse_tags tags;
  k ← ok_or (keys i) NoDeviceKey;
  e ← ok_or (sign k kind tags content created_at random) (InvalidEvent "event signing failed");
  Ok (signed_event e).

Definition encrypt_tagged_event (i : DeviceIdentity) (recipient : string) (kind : Z) (tags : list (list string))
    (plaintext : string) (created_at : Z) (random : Z * Z) : result IdentityError SignedEvent :=
  if str_is_empty plaintext || (MAX_ENCRYPTED_PLAINTEXT_BYTES <? str_len plaintext) then Err Encryption
  else
    recipient ← parse_public_key recipient;
    k ← ok_or (keys i) NoDeviceKey;
    encrypted ← ok_or (nip44_encrypt k recipient plaintext random.1) Encryption;
    tags ← parse_tags tags;
    e ← ok_or (sign k kind tags encrypted created_at random.2) Encryption;
    Ok (signed_event e).

Definition encrypt_event (i : DeviceIdentity) (recipient : string) (kind : Z) (plaintext : string) (created_at : Z)
    (random : Z * Z) : result IdentityError SignedEvent :=
  encrypt_tagged_event i recipient kind [["p"; recipient]] plaintext created_at random.

Definition decrypt_event (i : DeviceIdentity) (json : string) : result IdentityError string :=
  if MAX_ENCRYPTED_PAYLOAD_BYTES <? str_len json then Err Decryption
  else
    e ← ok_or (from_json json) Decryption;
    if negb (verify e) then Err Decryption
    else
      k ← ok_or (keys i) NoDeviceKey;
      if existsb (fun tag => bool_decide (tag = ["p"; public_hex k])) (ev_tags e)
      then ok_or (nip44_decrypt k (ev_pubkey e) (ev_content e)) Decryption
      else Err Decryption.
End identity.

(** ** The memory of verified statements *)

Section memory.
Context `{NO : !Nostr}.

Definition memo_sound (m : gmap (string * string) VerifiedOwnerStatement) : Prop :=
  (size m <= MAX_VERIFIED_OWNER_STATEMENTS)%nat /\
  forall json device v, m !! (json, device) = Some v -> verify_owner_statement json device = Ok v.

Lemma remember_sound key v m : memo_sound m -> verify_owner_statement key.1 key.2 = Ok v -> memo_sound (remember key v m).
Proof.
  intros [Hs Hm] Hv. unfold remember, MAX_VERIFIED_OWNER_STATEMENTS in *. split.
  - destruct (Nat.leb_spec 256 (size m)) as [Hle|Hlt].
    + rewrite map_size_insert, lookup_empty, map_size_empty. by apply Nat.leb_le.
    + rewrite map_size_insert. destruct (m !! key); unfold id, MAX_VERIFIED_OWNER_STATEMENTS; lia.
  - intros json device w. destruct (decide (key = (json, device))) as [->|Hne].
    + rewrite lookup_insert_eq. by intros [= <-].
    + rewrite lookup_insert_ne by done. case_match; [by rewrite lookup_empty|apply Hm].
Qed.

(** The memory of verified owner statements changes no answer: from any memory that
    grew by it, verification with the memory answers as verification without it, and
    the memory stays correct and bounded. *)
Theorem memo_transparent m json device :
  memo_sound m ->
  (verify_owner_statement_memo m json device).2 = verify_owner_statement json device
  /\ memo_sound (verify_owner_statement_memo m json device).1.
Proof.
  intros Hm. unfold verify_owner_statement_memo. destruct (m !! (json, device)) as [v|] eqn:Hl.
  - split; [|done]. symmetry. by apply (proj2 Hm).
  - unfold verify_owner_statement. destruct (parse_owner_statement json device) as [s|e] eqn:Hp; [|done].
    split; [done|]. apply remember_sound; [done|]. unfold verify_owner_statement. simpl. by rewrite Hp.
Qed.
End memory.

(** ** What follows what *)

(** An accepted statement follows the state before it. *)
Inductive succeeds : IdentityState -> IdentityState -> Prop :=
| binds device owner id time : succeeds (Unowned device) (Owned device owner id time)
| renews device owner id time id' time' :
    event_is_newer time' id' time id = true -> succeeds (Owned device owner id time) (Owned device owner id' time')
| revokes device owner id time id' time' :
    event_is_newer time' id' time id = true -> succeeds (Owned device owner id time) (Revoked device owner id' time').

Definition advances : relation IdentityState := rtc succeeds.

(** What is relied on of the library: JSON of an event reads back, a statement fits
    the bound of a file, keys and names are 32 bytes in hexadecimal, and the name of an
    event, the hash of what it says, names nothing else. *)
Class NostrLaws `{!Nostr} := {
  json_back e : verify e = true -> from_json (event_json e) = Some e;
  statement_fits e device status :
    verify e = true -> str_len device = 64 -> ev_tags e = owner_tags device status -> ev_content e = EmptyString ->
    str_len (event_json e) <= MAX_EVENT_BYTES;
  id_is_hex e : verify e = true -> hex_64 (ev_id e) = true;
  id_names e e' :
    verify e = true -> verify e' = true -> ev_id e = ev_id e' ->
    ev_pubkey e = ev_pubkey e' /\ ev_created_at e = ev_created_at e' /\ ev_kind e = ev_kind e' /\ ev_tags e = ev_tags e'
    /\ ev_content e = ev_content e';
  public_is_hex k : hex_64 (public_hex k) = true;
  secret_is_hex k : hex_64 (secret_hex k) = true;
  secret_back k : parse_keys (secret_hex k) = Some k;
}.

(** An event that is the statement of an owner for a device. *)
Definition statement_for `{!Nostr} (device : string) (status : OwnerStatementStatus) (e : Event) : Prop :=
  verify e = true /\ ev_kind e = OWNER_EVENT_KIND /\ ev_content e = EmptyString /\ ev_tags e = owner_tags device status.

Section laws.
Context `{NO : !Nostr, NL : !NostrLaws, Sv : !Services}.

Lemma status_parse_inv value s : status_parse value = Ok s -> value = status_str s.
Proof. unfold status_parse. repeat case_bool_decide; intros [= <-]; done. Qed.

Lemma status_parse_str s : status_parse (status_str s) = Ok s.
Proof. by destruct s. Qed.

Lemma empty_content s : str_is_empty s = true <-> s = EmptyString.
Proof. by destruct s. Qed.

Lemma parse_owner_statement_iff bytes device s :
  parse_owner_statement bytes device = Ok s <->
    from_json bytes = Some (statement_event s) /\ str_len bytes <= MAX_EVENT_BYTES
    /\ statement_for device (statement_status s) (statement_event s).
Proof.
  unfold parse_owner_statement. split.
  - destruct (Z.ltb_spec MAX_EVENT_BYTES (str_len bytes)) as [|Hlen]; [done|]. destruct (from_json bytes) as [e|]; [|done].
    destruct (verify e) eqn:Hv; [|done]. cbn [negb]. destruct (ev_kind e =? OWNER_EVENT_KIND) eqn:Hk; [|done].
    destruct (str_is_empty (ev_content e)) eqn:Hc; [|done]. cbn [negb orb].
    destruct (ev_tags e) as [|a [|b [|[|x [|y [|]]] [|]]]] eqn:Ht; try done.
    destruct (bool_decide (a = _) && bool_decide (b = _) && bool_decide (x = _)) eqn:Hb; [|done].
    apply andb_prop in Hb as [[Ha Hb']%andb_prop Hx]. apply bool_decide_eq_true in Ha, Hb', Hx. subst.
    cbn [mbind result_bind]. destruct (status_parse y) as [st|] eqn:Hs; [|done]. intros [= <-]. apply status_parse_inv in Hs as ->.
    apply Z.eqb_eq in Hk. by apply empty_content in Hc.
  - destruct s as [e status]. cbn [statement_event statement_status]. intros (-> & Hf & Hv & Hk & Hc & Ht).
    rewrite (proj2 (Z.ltb_ge _ _) Hf), Hv, Hk, Hc, Ht.
    cbn [negb orb str_is_empty]. rewrite Z.eqb_refl. unfold owner_tags. rewrite !bool_decide_eq_true_2 by done. simpl. by rewrite status_parse_str.
Qed.

Lemma parse_statement device status e :
  str_len device = 64 -> statement_for device status e ->
  parse_owner_statement (event_json e) device = Ok (MkParsedOwnerStatement e status).
Proof.
  intros Hd Hf. apply parse_owner_statement_iff. pose proof Hf as (Hv & _ & Hc & Ht). split; [by apply json_back|]. split; [|done].
  by eapply statement_fits.
Qed.

Lemma state_of_statement device status e :
  statement_for device status e ->
  state_from_owner_event e device =
    Some (match status with
          | StatementOwned => Owned device (ev_pubkey e) (ev_id e) (ev_created_at e)
          | StatementRevoked => Revoked device (ev_pubkey e) (ev_id e) (ev_created_at e)
          end).
Proof.
  intros (_ & _ & _ & Ht). unfold state_from_owner_event. rewrite Ht. unfold owner_tags.
  assert (Hd : bool_decide ("d" = "status") = false) by done. assert (Hv : bool_decide ("device" = "status") = false) by done.
  simpl. by destruct status.
Qed.

(** *** What is on the disk *)

Definition state_of (k : Keys) (ev : option Event) : option IdentityState :=
  match ev with None => Some (Unowned (public_hex k)) | Some e => state_from_owner_event e (public_hex k) end.

(** The identity of a device with this key and this statement. *)
Definition is_identity (k : Keys) (ev : option Event) (st : IdentityState) (i : DeviceIdentity) : Prop :=
  i = MkDeviceIdentity (Some k) st ev /\ state_of k ev = Some st /\
  match ev with None => True | Some e => exists status, statement_for (public_hex k) status e end.

Definition stored_statement (ev : option Event) (n : option node) : Prop :=
  match ev with
  | None => n = None
  | Some e => exists mode, n = Some (Regular mode (event_json e) true) /\ exposed mode = false
  end.

(** A tree in which the directory, the key and this statement are found. *)
Definition stores (k : Keys) (ev : option Event) (t : tree) : Prop :=
  (exists mode, t !! ([] : path) = Some (Directory mode)) /\
  (exists mode, t !! directory = Some (Directory mode) /\ exposed mode = false) /\
  (exists mode, t !! key_path = Some (Regular mode (secret_hex k +:+ newline) true) /\ exposed mode = false) /\
  stored_statement ev (t !! owner_path).

(** A statement that may be found after the state [s]. *)
Definition later (k : Keys) (s : IdentityState) (ev : option Event) : Prop :=
  exists st i, is_identity k ev st i /\ advances s st.

(** Whatever is found now or after a power loss is not before [s]. *)
Definition within (k : Keys) (s : IdentityState) (d : disk) : Prop :=
  (exists ev, later k s ev /\ stores k ev (seen d)) /\ (exists ev, later k s ev /\ stores k ev (kept d)).

Lemma stores_ext k ev t t' :
  (forall p, p = [] \/ p = directory \/ p = key_path \/ p = owner_path -> t' !! p = t !! p) -> stores k ev t -> stores k ev t'.
Proof. intros Hp (Hr & Hd & Hk & Ho). unfold stores. rewrite !Hp by tauto. done. Qed.

Lemma stores_other k ev t p n : length p = 2%nat -> p <> key_path -> p <> owner_path -> stores k ev t -> stores k ev (<[p := n]> t).
Proof.
  intros Hl Hk Ho. apply stores_ext. intros q [->|[->|[->| ->]]]; apply lookup_insert_ne; try done; by intros ->.
Qed.

Lemma stores_delete k ev t p : length p = 2%nat -> p <> key_path -> p <> owner_path -> stores k ev t -> stores k ev (delete p t).
Proof.
  intros Hl Hk Ho. apply stores_ext. intros q [->|[->|[->| ->]]]; apply lookup_delete_ne; try done; by intros ->.
Qed.

Lemma stores_statement k ev t e : stores k ev t -> stores k (Some e) (<[owner_path := Regular 384 (event_json e) true]> t).
Proof.
  intros (Hr & Hd & Hk & _). unfold stores. rewrite !lookup_insert_ne by done. rewrite lookup_insert_eq.
  do 3 (split; [done|]). by exists 384.
Qed.

Lemma stores_synced k a b t t' :
  stores k a t -> stores k b t' -> stores k a (synced_names directory (MkDisk t t')).
Proof.
  intros (Hr & Hd & Hk & Ho) (Hr' & Hd' & Hk' & Ho'). unfold stores.
  rewrite (synced_child directory _ "device.key"), (synced_child directory _ "owner.event.json"). cbn [seen].
  rewrite (synced_elsewhere directory _ []), (synced_elsewhere directory _ directory).
  - done.
  - by intros [? ?].
  - done.
  - by intros [? ?].
  - by intros [l ?].
Qed.

Lemma settled_regular mode c n : settles (Regular mode c true) n -> n = Regular mode c true.
Proof. done. Qed.

Lemma power_loss_within k s d d' : power_loss d d' -> within k s d -> within k s d'.
Proof.
  intros [Heq Hp] [(a & Ha & Hsa) (b & Hb & Hsb)].
  assert (Hone : forall p n n', seen d !! p = Some n -> kept d !! p = Some n' ->
    (forall m, settles n m -> m = n) -> (forall m, settles n' m -> m = n') -> seen d' !! p = Some n \/ seen d' !! p = Some n').
  { intros p n n' Hs Hk Hn Hn'. specialize (Hp p). destruct (seen d' !! p) as [m|].
    - destruct Hp as (x & [Hx|Hx] & Hm); simplify_eq; [left; f_equal; by apply Hn|right; f_equal; by apply Hn'].
    - destruct Hp; congruence. }
  destruct Hsa as ((mr & Hr) & (md & Hd & Hdx) & (mk & Hk & Hkx) & Ho), Hsb as ((mr' & Hr') & (md' & Hd' & Hdx') & (mk' & Hk' & Hkx') & Ho').
  assert (Hbase : forall ev, stored_statement ev (seen d' !! owner_path) -> stores k ev (seen d')).
  { intros ev Hev. split; [|split; [|split; [|done]]].
    - destruct (Hone _ _ _ Hr Hr' (fun _ h => h) (fun _ h => h)) as [->| ->]; eauto.
    - destruct (Hone _ _ _ Hd Hd' (fun _ h => h) (fun _ h => h)) as [->| ->]; eauto.
    - destruct (Hone _ _ _ Hk Hk' (fun _ h => h) (fun _ h => h)) as [->| ->]; eauto. }
  assert (Hown : stored_statement a (seen d' !! owner_path) \/ stored_statement b (seen d' !! owner_path)).
  { specialize (Hp owner_path). destruct (seen d' !! owner_path) as [m|] eqn:Hm.
    - destruct Hp as (x & [Hx|Hx] & Hn); [left|right]; [destruct a as [e|]|destruct b as [e|]]; simpl in *; try congruence;
        [destruct Ho as (mo & Ho & ?)|destruct Ho' as (mo & Ho' & ?)]; exists mo; simplify_eq; unfold settles in Hn; by subst.
    - destruct Hp as [Hx|Hx]; [left|right]; [destruct a as [e|]|destruct b as [e|]]; simpl in *; try done;
        [destruct Ho as (mo & Ho & ?)|destruct Ho' as (mo & Ho' & ?)]; congruence. }
  unfold within. rewrite Heq. destruct Hown as [Hev|Hev]; split; eauto.
Qed.

(** *** Loading *)

Notation program A := (prog Op Reply A).
Notation wp := (Programs.wp (Reply:=Reply) (Choice:=Choice) effect).
Notation ends := (Programs.ends (Reply:=Reply) (Choice:=Choice) effect).
Notation stops := (Programs.stops (Reply:=Reply) (Choice:=Choice) effect).

Lemma identity_of_stored k ev st i :
  is_identity k ev st i -> identity_of k (Ok (event_json <$> ev)) = Ok i.
Proof.
  intros (-> & Hst & Hev). destruct ev as [e|]; [|by injection Hst as <-]. destruct Hev as [status Hf]. cbn [fmap option_fmap option_map identity_of].
  assert (Hl : str_len (public_hex k) = 64) by (pose proof (public_is_hex k) as Hh; unfold hex_64 in Hh; lia).
  rewrite (parse_statement _ status) by done. cbn [statement_event]. unfold state_of in Hst. by rewrite Hst.
Qed.

Lemma hex_ascii_text s t :
  all_chars is_lower_hex s = true -> forallb (fun a => byte a <? 128) (to_text t) = true -> to_str (s +:+ t) = Some (s +:+ t).
Proof.
  intros Hs Ht. unfold to_str. rewrite ascii_utf8; [done|]. rewrite to_text_app, forallb_app, Ht, andb_true_r.
  rewrite all_chars_text in Hs. rewrite forallb_spec in Hs |- *. intros a Ha. by apply lower_hex_ascii, Hs.
Qed.

Lemma hex_plain s : all_chars is_lower_hex s = true -> all_chars is_plain s = true.
Proof.
  rewrite !all_chars_text, !forallb_spec. intros Hs a Ha%Hs. unfold is_plain, is_lower_hex, is_ascii_digit, between in *. lia.
Qed.

Lemma hex_key_reads k label : parse_named_keys (secret_hex k +:+ newline) label = Ok k.
Proof.
  pose proof (secret_is_hex k) as Hh. pose proof Hh as [_ Ha]%andb_prop. unfold parse_named_keys.
  rewrite hex_ascii_text by done. rewrite trim_line by by apply hex_plain. by rewrite Hh, secret_back.
Qed.

Lemma exposed_or mode n m : exposed mode = false -> n <= m -> exposed mode || (m <? n) = false.
Proof. intros -> Hn. apply Z.ltb_ge. lia. Qed.

(** A private file of bounded length is read, or that fails. *)
Lemma wp_read_identity p limit mode content synced d :
  0 <= limit -> seen d !! p = Some (Regular mode content synced) -> exposed mode = false -> str_len content <= limit ->
  wp (eq d) (fun r d' => d' = d /\ (r = Ok (Some content) \/ r = Err Storage)) (read_bounded_optional p limit) d.
Proof.
  intros Hlim Hp Hm Hl. unfold read_bounded_optional. apply wp_stat; [done|]. intros r [->| ->]; [|by split; [|split; [|right]]].
  unfold stat. rewrite Hp. cbn [metadata]. rewrite exposed_or by done.
  apply wp_read_file; [done|]. intros r [->| ->]; [|by split; [|split; [|right]]].
  unfold read_file. rewrite Hp. rewrite prefix_all by (unfold str_len in *; lia). rewrite (proj2 (Z.ltb_ge _ _) Hl). by split; [|split; [|left]].
Qed.

Lemma wp_no_file p limit d :
  seen d !! p = None ->
  wp (eq d) (fun r d' => d' = d /\ (r = Ok None \/ r = Err Storage)) (read_bounded_optional p limit) d.
Proof.
  intros Hp. unfold read_bounded_optional. apply wp_stat; [done|]. intros r [->| ->]; [|by split; [|split; [|right]]].
  unfold stat. rewrite Hp. by split; [|split; [|left]].
Qed.

(** Nothing changes. *)
Definition still {A} (d : disk) (p : program A) : Prop := wp (eq d) (fun _ d' => d' = d) p d.

Lemma still_attempt {E A B} d (p : program (result E A)) (f : A -> program (result E B)) :
  still d p -> (forall a, still d (f a)) -> still d (attempt p f).
Proof. intros Hp Hf. apply wp_attempt. eapply wp_mono; [|exact Hp]. intros [a|e] d' <- _; [apply Hf|done]. Qed.

Lemma still_stat {A} d p (f : result IoError Metadata -> program A) : (forall r, still d (f r)) -> still d (Do (Stat p) f).
Proof. intros Hf. apply wp_stat; [done|]. intros r _. apply Hf. Qed.

(** A directory that is there is not made. *)
Lemma still_make {A} d p n mode (yes : program A) (no : result IoError unit -> program A) :
  seen d !! p = Some n -> still d yes -> (forall e, still d (no (Err e))) ->
  still d (Do (Exists p) (fun there => if there then yes else Do (MkDir p mode) no)).
Proof.
  intros Hn Hy He. apply wp_exists; [done|]. intros []; [done|]. apply wp_mkdir; [done| |done]. intros Hnone. congruence.
Qed.

(** Over a tree that stores an identity nothing is made. *)
Lemma still_prepare k ev d : stores k ev (seen d) -> still d prepare_identity_directory.
Proof.
  intros ((mr & Hr) & (md & Hd & Hx) & _). unfold prepare_identity_directory.
  apply still_attempt; [by eapply still_make; [exact Hr|..]; [|intros []]|]. intros _.
  apply still_attempt; [by apply still_stat|]. intros _.
  apply still_attempt; [by eapply still_make; [exact Hd|..]; [|intros []]|]. intros _. by apply still_stat.
Qed.

(** What a start finds: the identity that is stored, or none that can be used. *)
Definition found (k : Keys) (i i' : DeviceIdentity) : Prop := i' = i \/ exists reason, state i' = Invalid reason.

Lemma hex_len s : hex_64 s = true -> str_len s = 64.
Proof. unfold hex_64. lia. Qed.

Lemma wp_load_keys k ev d :
  stores k ev (seen d) -> wp (eq d) (fun r d' => d' = d /\ (r = Ok k \/ r = Err Storage)) load_or_create_keys d.
Proof.
  intros (_ & _ & (mk & Hk & Hx) & _). unfold load_or_create_keys, load_or_create_named_keys. apply wp_attempt.
  assert (Hl : str_len (secret_hex k +:+ newline) <= 128) by (rewrite str_len_app, (hex_len (secret_hex k)) by apply secret_is_hex; done).
  eapply wp_mono; [|by eapply wp_read_identity; [|exact Hk|..]]. intros r d' <- [_ [->| ->]].
  - rewrite hex_key_reads. apply wp_ret; [done|]. split; [done|by left].
  - split; [done|by right].
Qed.

Lemma wp_load k ev st i d :
  stores k ev (seen d) -> is_identity k ev st i ->
  wp (eq d) (fun r d' => d' = d /\ match r with Ok i' => found k i i' | Err _ => True end) load_or_create d.
Proof.
  intros Hs Hi. pose proof (still_prepare k ev d Hs) as Hprep. pose proof (wp_load_keys k ev d Hs) as Hkeys.
  destruct Hs as (_ & _ & _ & Ho). unfold load_or_create. apply wp_attempt, wp_bind.
  eapply wp_mono; [|exact Hprep]. intros r d' <- _. apply wp_ret; [done|]. unfold returned.
  destruct r as [[]|e]; cbn [map_err]; [|done].
  apply wp_bind. eapply wp_mono; [|exact Hkeys]. intros r d' <- [_ [->| ->]].
  2: { apply wp_ret; [done|]. split; [done|]. right. by eexists. }
  apply wp_bind.
  assert (Hread : wp (eq d) (fun r d' => d' = d /\ (r = Ok (event_json <$> ev) \/ r = Err Storage)) (read_bounded_optional owner_path MAX_EVENT_BYTES) d).
  { destruct ev as [e|]; simpl in Ho; [|by apply wp_no_file]. destruct Ho as (m & Hm & Hx). eapply wp_read_identity; [done|exact Hm|done|].
    destruct Hi as (_ & _ & status & Hv & _ & Hc & Ht). eapply statement_fits; [done| |exact Ht|done]. apply hex_len, public_is_hex. }
  eapply wp_mono; [|exact Hread]. intros r d' <- [_ [->| ->]].
  - rewrite (identity_of_stored _ _ _ _ Hi). apply wp_ret; [done|]. split; [done|by left].
  - apply wp_ret; [done|]. split; [done|]. right. by eexists.
Qed.

(** *** Storing a new statement *)

Lemma temporary_apart nonce :
  length (private_temporary_path owner_path nonce) = 2%nat /\ private_temporary_path owner_path nonce <> key_path
  /\ private_temporary_path owner_path nonce <> owner_path.
Proof. done. Qed.

Lemma within_temporary k s d nonce n :
  within k s d -> within k s (MkDisk (<[private_temporary_path owner_path nonce := n]> (seen d)) (kept d)).
Proof.
  destruct (temporary_apart nonce) as (Hl & Hk & Ho). intros [(a & Ha & Hs) Hb]. split; [|done]. exists a. split; [done|]. by apply stores_other.
Qed.

Lemma within_cleaned k s d nonce :
  within k s d -> within k s (MkDisk (delete (private_temporary_path owner_path nonce) (seen d)) (kept d)).
Proof.
  destruct (temporary_apart nonce) as (Hl & Hk & Ho). intros [(a & Ha & Hs) Hb]. split; [|done]. exists a. split; [done|]. by apply stores_delete.
Qed.

(** [e] is found whatever happens from now on. *)
Definition holds (k : Keys) (e : Event) (d : disk) : Prop := stores k (Some e) (seen d) /\ stores k (Some e) (kept d).

Lemma wp_store_statement k s e d :
  within k s d -> later k s (Some e) ->
  wp (within k s) (on_ok (fun _ d' => holds k e d')) (write_private_atomically owner_path (event_json e)) d.
Proof.
  intros Hw Hl. unfold write_private_atomically. apply wp_random; [done|]. intros nonce. cbv zeta.
  destruct (temporary_apart nonce) as (_ & _ & Hne).
  apply wp_replace_or_clean; [intros; by apply within_temporary|intros; by apply within_cleaned|done|done|].
  intros _ d1. change (parent owner_path) with directory. destruct Hw as [(a & Ha & Hsa) (b & Hb & Hsb)].
  assert (H1 : stores k (Some e) (seen d1)) by (by eapply stores_statement). split; [split; [by exists (Some e)|by exists b]|].
  intros d2. assert (H2 : stores k (Some e) (kept d2)) by (by eapply stores_synced). split; [|by split]. split; by exists (Some e).
Qed.

Lemma accepts_succeeds k ev st i s :
  is_identity k ev st i -> statement_for (public_hex k) (statement_status s) (statement_event s) -> accepts i s = Ok () ->
  exists st', state_from_owner_event (statement_event s) (public_hex k) = Some st' /\ succeeds st st' /\
    is_identity k (Some (statement_event s)) st' (MkDeviceIdentity (Some k) st' (Some (statement_event s))).
Proof.
  intros (-> & Hst & Hev) Hf. unfold accepts. cbn [state owner_event]. pose proof (state_of_statement _ _ _ Hf) as Hs'.
  intros Hacc. eexists. split; [exact Hs'|]. split; [|split; [done|]; split; [exact Hs'|by eexists]]. revert Hacc.
  destruct ev as [e|]; cbn in Hst; [|injection Hst as <-; destruct (statement_status s); [constructor|done]].
  destruct Hev as [status He]. rewrite (state_of_statement _ _ _ He) in Hst. injection Hst as <-. destruct status; [|done].
  case_bool_decide as Ho; [|done]. cbn [negb]. destruct (event_is_newer _ _ _ _) eqn:Hn; [|done]. intros _. rewrite <- Ho.
  by destruct (statement_status s); constructor.
Qed.

(** How a call that applies a statement ends. *)
Definition applied (k : Keys) (i : DeviceIdentity) (r : DeviceIdentity * result failure unit) (d : disk) : Prop :=
  match r.2 with
  | Ok _ => exists e st, is_identity k (Some e) st r.1 /\ succeeds (state i) st /\ holds k e d
  | Err x => r.1 = i /\ x <> Panic
  end.

Lemma wp_refuse k s i e d : within k s d -> e <> Panic -> wp (within k s) (applied k i) (refuse i e) d.
Proof. intros Hw He. apply wp_ret; [done|]. by split. Qed.

Lemma accepts_no_panic k ev st i s :
  is_identity k ev st i -> (forall x, st <> Invalid x) -> (forall a b c t, st <> Revoked a b c t) -> accepts i s <> Err Panic.
Proof.
  intros (-> & _) Hi Hr. unfold accepts. cbn [state]. destruct st; [by destruct (statement_status s)| |by edestruct Hr|by edestruct Hi].
  case_bool_decide; [|done]. cbn [negb]. destruct (owner_event _); [|done]. by destruct (event_is_newer _ _ _ _).
Qed.

Lemma wp_apply_parsed k s ev st i json d :
  within k s d -> is_identity k ev st i -> advances s st ->
  (forall x, st <> Invalid x) -> (forall a b c t, st <> Revoked a b c t) ->
  wp (within k s) (applied k i) (apply_parsed i (public_hex k) json) d.
Proof.
  intros Hw Hi Ha Hni Hnr. unfold apply_parsed. destruct (parse_owner_statement json (public_hex k)) as [p|e] eqn:Hp; [|by apply wp_refuse].
  apply parse_owner_statement_iff in Hp as (_ & _ & Hf). pose proof (accepts_no_panic k ev st i p Hi Hni Hnr) as Hnp.
  destruct (accepts i p) as [[]|e] eqn:Hacc; [|apply wp_refuse; [done|congruence]].
  destruct (accepts_succeeds k ev st i p Hi Hf Hacc) as (st' & Hst & Hsucc & Hid). unfold store_statement.
  assert (Hlater : later k s (Some (statement_event p))) by (eexists st', _; split; [done|by eapply rtc_r]).
  apply wp_bind. eapply wp_mono; [|by eapply wp_store_statement]. intros [u|e] d' Hw' Hq; [|by apply wp_refuse].
  rewrite Hst. apply wp_ret; [done|]. destruct Hi as (-> & _). exists (statement_event p), st'. done.
Qed.

Lemma wp_apply k s ev st i json d :
  within k s d -> is_identity k ev st i -> advances s st -> wp (within k s) (applied k i) (apply_owner_statement i json) d.
Proof.
  intros Hw Hi Ha. pose proof (wp_apply_parsed k s ev st i json d Hw Hi Ha) as Hp. destruct Hi as (-> & _).
  unfold apply_owner_statement, own_key. cbn [state keys fmap option_fmap option_map ok_or].
  destruct st; try (by apply wp_refuse); by apply Hp.
Qed.

(** *** The life of an identity *)

(** A statement is applied, or the daemon stops while it is, perhaps with a power
    loss, and loads its identity again. *)
Inductive life : DeviceIdentity * disk -> DeviceIdentity * disk -> Prop :=
| life_applied i d json i' r d' : ends (apply_owner_statement i json) d d' (i', r) -> life (i, d) (i', d')
| life_bound i d template owner json i' r d' :
    ends (apply_signed_owner_binding i template owner json) d d' (i', r) -> life (i, d) (i', d')
| life_restarted i d json d1 d2 d3 i' :
    stops (apply_owner_statement i json) d d1 -> d2 = d1 \/ power_loss d1 d2 -> ends load_or_create d2 d3 (Ok i') -> life (i, d) (i', d3).

Definition unusable (i : DeviceIdentity) : Prop := exists reason, state i = Invalid reason.

(** What stays true from a state [s] on. *)
Definition since (k : Keys) (s : IdentityState) (c : DeviceIdentity * disk) : Prop :=
  within k s c.2 /\ (unusable c.1 \/ exists ev st, is_identity k ev st c.1 /\ advances s st).

Lemma wp_apply_since k s i json d :
  since k s (i, d) -> wp (within k s) (fun r d' => since k s (r.1, d')) (apply_owner_statement i json) d.
Proof.
  intros [Hw [[reason Hi]|(ev & st & Hi & Ha)]]; cbn [fst snd] in *.
  - unfold apply_owner_statement. rewrite Hi. apply wp_ret; [done|]. split; [done|]. left. by exists reason.
  - eapply wp_mono; [|by eapply wp_apply]. intros [i' r] d' Hw' Hr. split; [done|]. unfold applied in Hr. cbn [fst snd] in *.
    destruct r as [[]|x]; [|destruct Hr as [-> _]; right; by exists ev, st].
    destruct Hr as (e & st' & Hi' & Hs & _). right. exists (Some e), st'. split; [done|]. eapply rtc_r; [done|]. destruct Hi as (-> & _). exact Hs.
Qed.

Lemma life_since k s c c' : life c c' -> since k s c -> since k s c'.
Proof.
  intros Hl Hs. destruct Hl as [i d json i' r d' He|i d template owner json i' r d' He|i d json d1 d2 d3 i' Hst Hd He].
  - exact (wp_ends _ _ _ _ _ _ He (wp_apply_since k s i json d Hs)).
  - unfold apply_signed_owner_binding in He. destruct (_ ≫= _) as [u|e]; [|by destruct He as [-> [= -> _]]].
    exact (wp_ends _ _ _ _ _ _ He (wp_apply_since k s i json d Hs)).
  - pose proof (wp_stops _ _ _ _ _ Hst (wp_apply_since k s i json d Hs)) as Hw.
    assert (Hw2 : within k s d2) by (destruct Hd as [->|Hpl]; [done|by eapply power_loss_within]).
    pose proof Hw2 as [(ev & (st & j & Hj & Ha) & Hstore) _].
    pose proof (wp_load k ev st j d2 Hstore Hj) as Hload.
    destruct (wp_ends _ _ _ _ _ _ He Hload) as [-> [->|Hbad]]; (split; [done|]); [right; by exists ev, st|by left].
Qed.

Lemma lives_since k s c c' : rtc life c c' -> since k s c -> since k s c'.
Proof. induction 1 as [c|c c1 c2 Hstep Hl IH]; [done|]. intros Hs. by eapply IH, life_since. Qed.

(** The identity is removed and created anew, on purpose; that may fail or stop
    anywhere, and the daemon loads what is there. *)
Inductive was_reset : DeviceIdentity * disk -> DeviceIdentity * disk -> Prop :=
| reset_done i d i' d' : ends reset d d' (Ok i') -> was_reset (i, d) (i', d')
| reset_failed i d x d' : ends reset d d' (Err x) -> was_reset (i, d) (i, d')
| reset_stopped i d d1 d2 d3 i' :
    stops reset d d1 -> d2 = d1 \/ power_loss d1 d2 -> ends load_or_create d2 d3 (Ok i') -> was_reset (i, d) (i', d3).

(** Anything this module does to an identity, and every stop of it. *)
Definition lived (c c' : DeviceIdentity * disk) : Prop := life c c' \/ was_reset c c'.

(** Either the identity was reset on the way, or what happened to it is its life. *)
Lemma lived_cases c c' :
  rtc lived c c' -> rtc life c c' \/ exists c1 c2, rtc lived c c1 /\ was_reset c1 c2 /\ rtc lived c2 c'.
Proof.
  induction 1 as [c|c c1 c2 [Hl|Hr] Hrest IH]; [by left| |].
  - destruct IH as [IH|(x & y & Hx & Hr & Hy)]; [left; by eapply rtc_l|right]. exists x, y.
    split; [|done]. eapply rtc_l; [by left|done].
  - right. exists c, c1. by split.
Qed.

End laws.
