(* ===== verification/Authorization.v ===== *)
(** * Who may ask what (services/korrid/src/authorization.rs)

    The evidence in a request of another device says who asks: a device of the owner,
    or a holder of a pass the owner signed. The policy says what each may ask.
    Revocations and the certificates that were provisioned for streaming are private
    files; the payload of a request that is only handed on is a type [P]. *)

From S2P Require Import Prelude Text Decimal Programs Files Identity.

(** ** Requests *)

Inductive RpcRequest (P : Type) : Type :=
| DisplayWake (payload : P)
| SurfaceDisplays (payload : P)
| LaunchSettingsSnapshot (payload : P)
| LaunchSettingsSet (payload : P)
| LaunchProfileSave (payload : P)
| LaunchProfileRemove (payload : P)
| LaunchProfileSelect (payload : P)
| SaveHeads (payload : P)
| SaveRecords (payload : P)
| SaveInUse (payload : P)
| SaveObject (payload : P)
| SavesStatus (payload : P)
| SavesHistory (payload : P)
| SavesChoose (payload : P)
| SavesRestore (payload : P)
| SavesCheck (payload : P)
| OnboardingRestart (payload : P)
| AcquisitionStatus (payload : P)
| AcquisitionStart (payload : P)
| AcquisitionCancel (payload : P)
| AcquisitionDownload (payload : P)
| AcquisitionRemove (payload : P)
| AcquisitionProviders (payload : P)
| AcquisitionSearch (payload : P)
| AcquisitionDetails (payload : P)
| AcquisitionAcquire (payload : P)
| AcquisitionAcquireStatus (payload : P)
| AcquisitionAcquireCancel (payload : P)
| OnboardingFinish (payload : P)
| OnboardingStatus (payload : P)
| WifiConnectHidden (payload : P)
| WifiConnect (payload : P)
| WifiScan (payload : P)
| NetworkStatus (payload : P)
| GameRoutes (payload : P)
| SelectedGameLaunch (payload : P)
| CatalogSnapshot (payload : P)
| MoonlightCertificateAttest (payload : P)
| MoonlightCertificateProvision (host_uuid client_certificate : string)
| MoonlightCertificateRevoke (host_uuid client_certificate : string)
| SessionPrepare (payload : P)
| SessionReserve (payload : P)
| SessionStart (payload : P)
| SessionCancel (payload : P)
| SessionNetplay (payload : P)
| ReleaseObject (payload : P)
| InvitesNetplay (payload : P)
| SessionStreamPlay (payload : P)
| InvitesList (payload : P)
| InvitesStreamPlay (payload : P)
| InvitesDismiss (payload : P)
| SessionStatus (payload : P)
| SessionControls (payload : P)
| SessionControlInvoke (payload : P)
| SessionEnd (force : option bool) (payload : P)
| SessionLeave (payload : P)
| SessionResume (payload : P)
| SourceStatus (payload : P)
| PeerList (payload : P)
| LocalGamesList (payload : P)
| Health (payload : P)
| LibraryFoldersSnapshot (payload : P)
| LibraryFolderAdd (payload : P)
| LibraryFolderChange (payload : P)
| AttentionList (payload : P)
| AttentionAssign (payload : P)
| AttentionIgnore (payload : P)
| LibraryFolderRemove (payload : P)
| LibraryFoldersRescan (payload : P)
| SettingsSnapshot (payload : P)
| SettingsUpdate (payload : P)
| SteamGridDbCredentialSet (payload : P)
| SteamGridDbCredentialClear (payload : P)
| IdentityStatus (payload : P)
| OwnerBindingSnapshot (payload : P)
| OwnerBindingStart (payload : P)
| IdentityBackupExport (payload : P)
| IdentityLocalSwitch (payload : P)
| IdentityNip46Switch (payload : P)
| IdentityRetiredExport (payload : P)
| IdentityRetiredDelete (payload : P)
| PluginPublishers (payload : P)
| PluginTrustPublisher (payload : P)
| PluginRevokePublisher (payload : P)
| PluginArchiveBegin (payload : P)
| PluginArchiveChunk (payload : P)
| PluginArchiveFinish (payload : P)
| PluginArchiveInspect (payload : P)
| PluginArchiveInstall (payload : P)
| PluginRepositories (payload : P)
| PluginRepositoryAdd (payload : P)
| PluginRepositoryRemove (payload : P)
| PluginCatalog (payload : P)
| PluginInspect (payload : P)
| PluginInstall (payload : P)
| PluginSetEnabled (payload : P).
Arguments DisplayWake {P}.
Arguments SurfaceDisplays {P}.
Arguments LaunchSettingsSnapshot {P}.
Arguments LaunchSettingsSet {P}.
Arguments LaunchProfileSave {P}.
Arguments LaunchProfileRemove {P}.
Arguments LaunchProfileSelect {P}.
Arguments SaveHeads {P}.
Arguments SaveRecords {P}.
Arguments SaveInUse {P}.
Arguments SaveObject {P}.
Arguments SavesStatus {P}.
Arguments SavesHistory {P}.
Arguments SavesChoose {P}.
Arguments SavesRestore {P}.
Arguments SavesCheck {P}.
Arguments OnboardingRestart {P}.
Arguments AcquisitionStatus {P}.
Arguments AcquisitionStart {P}.
Arguments AcquisitionCancel {P}.
Arguments AcquisitionDownload {P}.
Arguments AcquisitionRemove {P}.
Arguments AcquisitionProviders {P}.
Arguments AcquisitionSearch {P}.
Arguments AcquisitionDetails {P}.
Arguments AcquisitionAcquire {P}.
Arguments AcquisitionAcquireStatus {P}.
Arguments AcquisitionAcquireCancel {P}.
Arguments OnboardingFinish {P}.
Arguments OnboardingStatus {P}.
Arguments WifiConnectHidden {P}.
Arguments WifiConnect {P}.
Arguments WifiScan {P}.
Arguments NetworkStatus {P}.
Arguments GameRoutes {P}.
Arguments SelectedGameLaunch {P}.
Arguments CatalogSnapshot {P}.
Arguments MoonlightCertificateAttest {P}.
Arguments MoonlightCertificateProvision {P}.
Arguments MoonlightCertificateRevoke {P}.
Arguments SessionPrepare {P}.
Arguments SessionReserve {P}.
Arguments SessionStart {P}.
Arguments SessionCancel {P}.
Arguments SessionNetplay {P}.
Arguments ReleaseObject {P}.
Arguments InvitesNetplay {P}.
Arguments SessionStreamPlay {P}.
Arguments InvitesList {P}.
Arguments InvitesStreamPlay {P}.
Arguments InvitesDismiss {P}.
Arguments SessionStatus {P}.
Arguments SessionControls {P}.
Arguments SessionControlInvoke {P}.
Arguments SessionEnd {P}.
Arguments SessionLeave {P}.
Arguments SessionResume {P}.
Arguments SourceStatus {P}.
Arguments PeerList {P}.
Arguments LocalGamesList {P}.
Arguments Health {P}.
Arguments LibraryFoldersSnapshot {P}.
Arguments LibraryFolderAdd {P}.
Arguments LibraryFolderChange {P}.
Arguments AttentionList {P}.
Arguments AttentionAssign {P}.
Arguments AttentionIgnore {P}.
Arguments LibraryFolderRemove {P}.
Arguments LibraryFoldersRescan {P}.
Arguments SettingsSnapshot {P}.
Arguments SettingsUpdate {P}.
Arguments SteamGridDbCredentialSet {P}.
Arguments SteamGridDbCredentialClear {P}.
Arguments IdentityStatus {P}.
Arguments OwnerBindingSnapshot {P}.
Arguments OwnerBindingStart {P}.
Arguments IdentityBackupExport {P}.
Arguments IdentityLocalSwitch {P}.
Arguments IdentityNip46Switch {P}.
Arguments IdentityRetiredExport {P}.
Arguments IdentityRetiredDelete {P}.
Arguments PluginPublishers {P}.
Arguments PluginTrustPublisher {P}.
Arguments PluginRevokePublisher {P}.
Arguments PluginArchiveBegin {P}.
Arguments PluginArchiveChunk {P}.
Arguments PluginArchiveFinish {P}.
Arguments PluginArchiveInspect {P}.
Arguments PluginArchiveInstall {P}.
Arguments PluginRepositories {P}.
Arguments PluginRepositoryAdd {P}.
Arguments PluginRepositoryRemove {P}.
Arguments PluginCatalog {P}.
Arguments PluginInspect {P}.
Arguments PluginInstall {P}.
Arguments PluginSetEnabled {P}.

(** ** Policies *)

Inductive Scope : Type := CatalogRead | StreamLaunch.

#[export] Instance scope_eq_dec : EqDecision Scope.
Proof. solve_decision. Defined.

Definition scope_parse (value : string) : option Scope :=
  if bool_decide (value = "catalog.read") then Some CatalogRead
  else if bool_decide (value = "stream.launch") then Some StreamLaunch
  else None.

Inductive PeerPolicy : Type :=
| LocalPortalOnly
| LocalPortalOrOwnerDevice
| LocalOnly
| OwnerDeviceOnly
| ExplicitScope (scope : Scope)
| CatalogOrStreamScope.

Definition policy_for {P} (request : RpcRequest P) : PeerPolicy :=
  match request with
  | SaveHeads _ | SaveRecords _ | SaveInUse _ | SaveObject _ => OwnerDeviceOnly
  | NetworkStatus _ | WifiScan _ | WifiConnect _ | WifiConnectHidden _ | OnboardingStatus _
  | OnboardingFinish _ | OnboardingRestart _ => LocalPortalOnly
  | CatalogSnapshot _ => CatalogOrStreamScope
  | MoonlightCertificateAttest _ => ExplicitScope StreamLaunch
  | MoonlightCertificateProvision _ _ => ExplicitScope StreamLaunch
  | MoonlightCertificateRevoke _ _ => OwnerDeviceOnly
  | SessionStreamPlay _ | SessionNetplay _ | ReleaseObject _ => OwnerDeviceOnly
  | InvitesList _ | InvitesNetplay _ | InvitesStreamPlay _ | InvitesDismiss _ => LocalOnly
  | SessionPrepare _ => ExplicitScope StreamLaunch
  | SavesStatus _ | SavesHistory _ | SavesChoose _ | SavesRestore _ | SavesCheck _ => LocalOnly
  | AcquisitionStatus _ | AcquisitionStart _ | AcquisitionDownload _ | AcquisitionCancel _
  | AcquisitionRemove _ | AcquisitionProviders _ | AcquisitionSearch _ | AcquisitionDetails _
  | AcquisitionAcquire _ | AcquisitionAcquireStatus _ | AcquisitionAcquireCancel _ => LocalPortalOnly
  | SessionReserve _ | SessionStart _ | SessionCancel _ => LocalOnly
  | SessionStatus _ | SessionControls _ => ExplicitScope StreamLaunch
  | SessionControlInvoke _ => ExplicitScope StreamLaunch
  | SessionEnd force _ => if default false force then OwnerDeviceOnly else ExplicitScope StreamLaunch
  | SessionLeave _ => ExplicitScope StreamLaunch
  | SessionResume _ => ExplicitScope StreamLaunch
  | SourceStatus _ => CatalogOrStreamScope
  | PeerList _ => OwnerDeviceOnly
  | GameRoutes _ | LaunchSettingsSnapshot _ | LaunchSettingsSet _ | LaunchProfileSave _
  | LaunchProfileRemove _ | LaunchProfileSelect _ | SelectedGameLaunch _ => OwnerDeviceOnly
  | LocalGamesList _ => OwnerDeviceOnly
  | DisplayWake _ => LocalOnly
  | SurfaceDisplays _ => LocalPortalOnly
  | Health _ => OwnerDeviceOnly
  | LibraryFoldersSnapshot _ => OwnerDeviceOnly
  | LibraryFolderAdd _ | LibraryFolderChange _ => OwnerDeviceOnly
  | AttentionList _ | AttentionAssign _ | AttentionIgnore _ => OwnerDeviceOnly
  | LibraryFolderRemove _ => OwnerDeviceOnly
  | LibraryFoldersRescan _ => OwnerDeviceOnly
  | SettingsSnapshot _ => OwnerDeviceOnly
  | SettingsUpdate _ => OwnerDeviceOnly
  | SteamGridDbCredentialSet _ => OwnerDeviceOnly
  | SteamGridDbCredentialClear _ => OwnerDeviceOnly
  | OwnerBindingSnapshot _ | OwnerBindingStart _ => LocalPortalOnly
  | IdentityStatus _ | IdentityBackupExport _ | IdentityLocalSwitch _ | IdentityNip46Switch _
  | IdentityRetiredExport _ | IdentityRetiredDelete _ => LocalOnly
  | PluginRepositories _ | PluginRepositoryAdd _ | PluginRepositoryRemove _ | PluginCatalog _
  | PluginInspect _ | PluginInstall _ | PluginPublishers _ | PluginTrustPublisher _
  | PluginRevokePublisher _ | PluginArchiveBegin _ | PluginArchiveChunk _ | PluginArchiveFinish _
  | PluginArchiveInspect _ | PluginArchiveInstall _ | PluginSetEnabled _ => LocalPortalOrOwnerDevice
  end.

Definition is_security_mutation {P} (request : RpcRequest P) : bool :=
  match request with
  | WifiScan _ | WifiConnect _ | WifiConnectHidden _ | OnboardingFinish _ | OnboardingRestart _
  | SelectedGameLaunch _ | SessionEnd _ _ | SessionControlInvoke _ | SessionLeave _ | SessionResume _
  | MoonlightCertificateProvision _ _ | MoonlightCertificateRevoke _ _ | LibraryFolderAdd _
  | LibraryFolderChange _ | AttentionAssign _ | AttentionIgnore _ | LibraryFolderRemove _
  | LibraryFoldersRescan _ | SettingsUpdate _ | LaunchSettingsSet _ | LaunchProfileSave _
  | LaunchProfileRemove _ | LaunchProfileSelect _ | SteamGridDbCredentialSet _
  | SteamGridDbCredentialClear _ | IdentityBackupExport _ | IdentityLocalSwitch _ | IdentityNip46Switch _
  | IdentityRetiredExport _ | IdentityRetiredDelete _ | PluginRepositoryAdd _ | PluginRepositoryRemove _
  | PluginInspect _ | PluginInstall _ | PluginTrustPublisher _ | PluginRevokePublisher _
  | PluginArchiveBegin _ | PluginArchiveChunk _ | PluginArchiveFinish _ | PluginArchiveInspect _
  | PluginArchiveInstall _ | PluginSetEnabled _ => true
  | _ => false
  end.

(** ** Principals *)

Record PersonPass := MkPersonPass {
  pass_event_id : string;
  pass_event_json : string;
  expires_at : Z;
  scopes : list Scope;
  person_public_key : string;
}.

Inductive Principal : Type :=
| OwnerDevice (device owner_statement owner : string)
| Household (device owner_statement : string) (pass : PersonPass)
| Guest (device owner_statement : string) (pass : PersonPass)
| Unknown (device : string).

Definition principal_device (p : Principal) : string :=
  match p with OwnerDevice device _ _ | Household device _ _ | Guest device _ _ | Unknown device => device end.

(** The person a principal acts for. *)
Definition principal_person (p : Principal) : option string :=
  match p with
  | OwnerDevice _ _ owner => Some owner
  | Household _ _ pass | Guest _ _ pass => Some (person_public_key pass)
  | Unknown _ => None
  end.

Definition has_scope (p : Principal) (expected : Scope) : bool :=
  match p with
  | Household _ _ pass | Guest _ _ pass => bool_decide (expected ∈ scopes pass)
  | OwnerDevice _ _ _ | Unknown _ => false
  end.

Inductive AuthorizationContext : Type :=
| LocalBrowser
| LocalCli
| LocalUnixControl
| Peer (p : Principal)
| TrustReconciliation.

Definition starting_device (c : AuthorizationContext) : option string :=
  match c with Peer p => Some (principal_device p) | _ => None end.

Definition context_person (c : AuthorizationContext) (local_owner : option string) : option string :=
  match c with
  | LocalBrowser | LocalCli | LocalUnixControl => local_owner
  | Peer p => principal_person p
  | TrustReconciliation => None
  end.

Definition require_session_starter (device : string) (starter : option string) : bool := bool_decide (starter = Some device).

Definition by_scope (p : Principal) (policy : PeerPolicy) : bool :=
  match policy with
  | LocalOnly | LocalPortalOnly | LocalPortalOrOwnerDevice | OwnerDeviceOnly => false
  | ExplicitScope scope => has_scope p scope
  | CatalogOrStreamScope => has_scope p CatalogRead || has_scope p StreamLaunch
  end.

(** [authorize]: whether the request is allowed. *)
Definition authorize {P} (context : AuthorizationContext) (request : RpcRequest P) : bool :=
  let policy := policy_for request in
  match context with
  | LocalBrowser | LocalCli => true
  | LocalUnixControl => match policy with LocalPortalOnly | LocalPortalOrOwnerDevice => false | _ => true end
  | TrustReconciliation => match policy with LocalOnly | LocalPortalOnly | LocalPortalOrOwnerDevice => false | _ => true end
  | Peer (OwnerDevice _ _ _) => match policy with LocalOnly | LocalPortalOnly => false | _ => true end
  | Peer (Household _ _ _ as p) | Peer (Guest _ _ _ as p) => by_scope p policy
  | Peer (Unknown _) => false
  end.

(** ** Evidence *)

Inductive AuthorizationError : Type := InvalidEvidence | StorageUnavailable.

Definition PERSON_PASS_EVENT_KIND : Z := 30079.
Definition MAX_PERSON_PASS_LIFETIME_SECONDS : Z := 86400.
Definition NIP_09_DELETION_KIND : Z := 5.
Definition PASS_ADDRESS_PREFIX : string := "org.korri.person-pass:".
Definition MAX_GRANT_BYTES : Z := 131072.
Definition CLOCK_SKEW_SECONDS : Z := 120.

(** [u64::saturating_add]. *)
Definition saturating_add (a b : Z) : Z := Z.min u64_max (a + b).

Inductive RevocationTarget : Type := RevokesDevice (device : string) | RevokesPass (pass_id : string).

#[export] Instance revocation_target_eq_dec : EqDecision RevocationTarget.
Proof. solve_decision. Defined.

Record Revocation := MkRevocation {
  r_event_id : string;
  r_event_json : string;
  r_author : string;
  r_target : RevocationTarget;
}.

#[export] Instance revocation_eq_dec : EqDecision Revocation.
Proof. solve_decision. Defined.

Definition is_revoked (revocations : list Revocation) (owner : string) (target : RevocationTarget) : bool :=
  existsb (fun r => bool_decide (r_author r = owner) && bool_decide (r_target r = target)) revocations.

Definition is_owner_device_revoked (revocations : list Revocation) (owner device : string) : bool :=
  is_revoked revocations owner (RevokesDevice device).

Definition is_person_pass_revoked (revocations : list Revocation) (owner pass_id : string) : bool :=
  is_revoked revocations owner (RevokesPass pass_id).

Definition evidence {A} (o : option A) : result AuthorizationError A := ok_or o InvalidEvidence.

Definition validate_hex_32 (value : string) : result AuthorizationError unit :=
  if hex_64 value then Ok () else Err InvalidEvidence.

Inductive PassTier : Type := HouseholdTier | GuestTier.

Definition tier_parse (value : string) : option PassTier :=
  if bool_decide (value = "household") then Some HouseholdTier
  else if bool_decide (value = "guest") then Some GuestTier
  else None.

(** The value of a tag with this name. *)
Definition tag_value (name : string) (tag : list string) : option string :=
  match tag with [n; value] => if bool_decide (n = name) then Some value else None | _ => None end.

Section authorization.
Context `{NO : !Nostr}.

Definition parse_person_pass (json expected_owner expected_device : string) (now : Z) (revocations : list Revocation)
    : option (PassTier * PersonPass) :=
  event ← ok (verify_event json);
  if negb (v_kind event =? PERSON_PASS_EVENT_KIND) || negb (bool_decide (author event = expected_owner))
     || negb (str_is_empty (v_content event)) || (saturating_add now CLOCK_SKEW_SECONDS <? v_created_at event)
     || is_person_pass_revoked revocations expected_owner (v_id event)
  then None
  else match v_tags event with
  | d :: device :: tier :: expires :: first :: rest =>
      named ← tag_value "d" d;
      tier ← tag_value "tier" tier;
      expires ← tag_value "expires" expires;
      scope_values ← mapM (tag_value "scope") (first :: rest);
      if negb (bool_decide (device = ["device"; expected_device])) then None
      else
        address ← strip_prefix PASS_ADDRESS_PREFIX named;
        if negb (hex_64 address) then None
        else
          tier ← tier_parse tier;
          expires_at ← from_decimal u64_max expires;
          if (expires_at <=? now) || (expires_at <=? v_created_at event)
             || (MAX_PERSON_PASS_LIFETIME_SECONDS <? saturating_sub expires_at (v_created_at event))
          then None
          else
            found ← mapM scope_parse scope_values;
            if bool_decide (found = []) || negb (bool_decide (NoDup found)) then None
            else Some (tier, MkPersonPass (v_id event) json expires_at found address)
  | _ => None
  end.

Definition revocation_target (event : VerifiedEvent) : result AuthorizationError RevocationTarget :=
  if v_kind event =? OWNER_EVENT_KIND then
    match v_tags event with
    | [d; [name; device]; status] =>
        if negb (str_is_empty (v_content event)) || negb (bool_decide (name = "device"))
           || negb (bool_decide (status = ["status"; "revoked"]))
           || negb (bool_decide (d = ["d"; OWNER_EVENT_PREFIX +:+ device]))
        then Err InvalidEvidence
        else _ ← validate_hex_32 device; Ok (RevokesDevice device)
    | _ => Err InvalidEvidence
    end
  else if v_kind event =? NIP_09_DELETION_KIND then
    match v_tags event with
    | [[name; pass_id]; k] =>
        if negb (str_is_empty (v_content event)) || negb (bool_decide (name = "e"))
           || negb (bool_decide (k = ["k"; decimal PERSON_PASS_EVENT_KIND]))
        then Err InvalidEvidence
        else _ ← validate_hex_32 pass_id; Ok (RevokesPass pass_id)
    | _ => Err InvalidEvidence
    end
  else Err InvalidEvidence.

Definition parse_revocation (json : string) : result AuthorizationError Revocation :=
  event ← evidence (ok (verify_event json));
  target ← revocation_target event;
  Ok (MkRevocation (v_id event) json (author event) target).

Definition principal_for (local : IdentityState) (device : string) (owner_statement person_pass : option string) (now : Z)
    (revocations : list Revocation) : Principal :=
  match local, owner_statement with
  | Owned _ local_owner _ _, Some statement_json =>
      match verify_owner_statement statement_json device with
      | Err _ => Unknown device
      | Ok statement =>
          if negb (bool_decide (o_status statement = StatementOwned))
             || is_owner_device_revoked revocations (o_owner statement) device
          then Unknown device
          else if bool_decide (o_owner statement = local_owner)
          then OwnerDevice device statement_json (o_owner statement)
          else match (pass_json ← person_pass; parse_person_pass pass_json local_owner device now revocations) with
               | None => Unknown device
               | Some (HouseholdTier, pass) => Household device statement_json pass
               | Some (GuestTier, pass) => Guest device statement_json pass
               end
      end
  | _, _ => Unknown device
  end.

(** ** The state *)

(** Revocations that are known; those in [pending_revocations] are not yet on the disk. *)
Record AuthorizationState := MkAuthorizationState { revocations : list Revocation; pending_revocations : gset string }.

Record AuthorizationAttempt := MkAuthorizationAttempt { attempt_context : AuthorizationContext; attempt_revocations : list Revocation }.

Definition is_device_revoked (st : AuthorizationState) (owner device : string) : bool :=
  is_owner_device_revoked (revocations st) owner device.

Definition attempt (st : AuthorizationState) (local : IdentityState) (device : string) (owner_statement person_pass : option string)
    (events : list string) (now : Z) : result AuthorizationError AuthorizationAttempt :=
  candidates ← mapM parse_revocation events;
  let principal := principal_for local device owner_statement person_pass now (revocations st ++ candidates) in
  Ok (MkAuthorizationAttempt (Peer principal) candidates).

(** A revocation denies at once, before it is written. *)
Definition install (st : AuthorizationState) (r : Revocation) : AuthorizationState :=
  if existsb (fun known => bool_decide (r_event_id known = r_event_id r)) (revocations st) then st
  else MkAuthorizationState (revocations st ++ [r]) ({[r_event_id r]} ∪ pending_revocations st).

Definition persisted (st : AuthorizationState) (id : string) : AuthorizationState :=
  MkAuthorizationState (revocations st) (pending_revocations st ∖ {[id]}).

(** *** Certificates *)

Inductive CertificateAuthorization : Type :=
| ByOwnerDevice (owner_statement : string)
| ByPersonPass (owner_statement person_pass : string).

Record CertificateGrant := MkCertificateGrant {
  host_uuid : string;
  client_certificate : string;
  authorization : CertificateAuthorization;
}.

Record CertificateRevocation := MkCertificateRevocation {
  revoked_device : string;
  revoked_host : string;
  revoked_client : string;
}.

Definition grant_principal (local : IdentityState) (now : Z) (revocations : list Revocation) (device : string) (grant : CertificateGrant)
    : Principal :=
  match authorization grant with
  | ByOwnerDevice statement => principal_for local device (Some statement) None now revocations
  | ByPersonPass statement pass => principal_for local device (Some statement) (Some pass) now revocations
  end.

(** The grants that would not be given now. *)
Definition plan_certificate_revocations (local : IdentityState) (now : Z) (revocations : list Revocation)
    (grants : list (string * CertificateGrant)) : list CertificateRevocation :=
  omap (fun '(device, grant) =>
    let probe := MoonlightCertificateProvision (P:=unit) (host_uuid grant) (client_certificate grant) in
    if authorize (Peer (grant_principal local now revocations device grant)) probe then None
    else Some (MkCertificateRevocation device (host_uuid grant) (client_certificate grant))) grants.

Definition grant_authorization (p : Principal) : option (string * CertificateAuthorization) :=
  match p with
  | OwnerDevice device statement _ => Some (device, ByOwnerDevice statement)
  | Household device statement pass | Guest device statement pass => Some (device, ByPersonPass statement (pass_event_json pass))
  | Unknown _ => None
  end.
End authorization.

(** ** Files *)

Definition REVOCATION_DIRECTORY : path := ["identity"; "authorization-revocations"].
Definition CERTIFICATE_DIRECTORY : path := ["identity"; "peer-certificates"].

(** SHA-256 in hexadecimal and the JSON of a grant. *)
Class GrantCodec := {
  digest_hex : string -> string;
  grant_json : CertificateGrant -> option string;
  grant_parse : string -> option CertificateGrant;
}.

Section storage.
Context `{NO : !Nostr, GC : !GrantCodec, Sv : !Services}.

Notation program A := (prog Op Reply A).

Definition unavailable {A T} (r : result A T) : result AuthorizationError T := map_err (fun _ => StorageUnavailable) r.

(** The results for all elements, or the first error. *)
Fixpoint for_all {A B E} (f : A -> program (result E B)) (l : list A) : program (result E (list B)) :=
  match l with
  | [] => Ret (Ok [])
  | x :: l => step! y <- f x ;; step! ys <- for_all f l ;; Ret (Ok (y :: ys))
  end.

Definition sync_authorization (p : path) : program (result AuthorizationError unit) := Do (SyncDir p) (fun r => Ret (unavailable r)).

Definition check_private (p : path) : program (result AuthorizationError unit) :=
  Do (Stat p) (fun r =>
    Ret (match r with Ok (MetaDirectory mode) => if exposed mode then Err StorageUnavailable else Ok () | _ => Err StorageUnavailable end)).

(** With the directory above it when that is missing. *)
Definition make_directories (p : path) : program (result AuthorizationError unit) :=
  Do (MkDir p 448) (fun r =>
    match r with
    | Err NotFound =>
        Do (MkDir (parent p) 448) (fun r =>
          match r with
          | Ok _ => Do (MkDir p 448) (fun r => Ret (unavailable r))
          | Err _ => Ret (Err StorageUnavailable)
          end)
    | r => Ret (unavailable r)
    end).

Definition prepare_private_directory (p : path) : program (result AuthorizationError unit) :=
  Do (Exists p) (fun there =>
    if there then check_private p else step! _ <- make_directories p ;; check_private p).

Definition read_bounded (p : path) (limit : Z) : program (result AuthorizationError string) :=
  Do (ReadFile p (limit + 1)) (fun r =>
    Ret (match r with
         | Ok bytes => if limit <? str_len bytes then Err StorageUnavailable else Ok bytes
         | Err _ => Err StorageUnavailable
         end)).

(** An entry has to be a private file of bounded length. *)
Definition check_entry (p : path) (limit : Z) : program (result AuthorizationError unit) :=
  Do (Stat p) (fun r =>
    Ret (match r with
         | Ok (MetaFile mode len) => if exposed mode || (limit <? len) then Err StorageUnavailable else Ok ()
         | _ => Err StorageUnavailable
         end)).

Definition temporary_for (dir : path) (content : string) (nonce : Z) : path :=
  dir ++ ["." +:+ digest_hex content +:+ "." +:+ decimal nonce +:+ ".tmp"].

Definition write_atomically (dir : path) (name content : string) : program (result AuthorizationError unit) :=
  Do (Random 64) (fun nonce =>
    let temporary := temporary_for dir content nonce in
    bind (atomic_replace (fun _ => StorageUnavailable) temporary (dir ++ [name]) dir content) (fun r =>
      match r with Ok _ => Ret (Ok ()) | Err e => Do (RemoveFile temporary) (fun _ => Ret (Err e)) end)).

Definition remove_entries (dir : path) (names : list string) : program (result AuthorizationError unit) :=
  step! _ <- for_all (fun name => Do (RemoveFile (dir ++ [name])) (fun r => Ret (unavailable r))) names ;;
  sync_authorization dir.

Definition plain_entry (p : path) : program (result AuthorizationError unit) :=
  Do (Stat p) (fun r => Ret (match r with Ok (MetaFile _ _) => Ok () | _ => Err StorageUnavailable end)).

Definition clear_private_directory (p : path) : program (result AuthorizationError unit) :=
  step! _ <- prepare_private_directory p ;;
  step! names <- Do (ReadDir p) (fun r => Ret (unavailable r)) ;;
  step! _ <- for_all (fun name => plain_entry (p ++ [name])) names ;;
  remove_entries p names.

(** *** Revocations *)

Definition revocation_file (name bytes : string) : result AuthorizationError Revocation :=
  id ← ok_or (strip_suffix ".json" name) StorageUnavailable;
  _ ← validate_hex_32 id;
  json ← ok_or (to_str bytes) StorageUnavailable;
  r ← parse_revocation json;
  if bool_decide (r_event_id r = id) then Ok r else Err StorageUnavailable.

Definition load_revocation (name : string) : program (result AuthorizationError Revocation) :=
  let p := REVOCATION_DIRECTORY ++ [name] in
  step! _ <- check_entry p MAX_EVENT_BYTES ;;
  match ok_or (to_str name) StorageUnavailable with
  | Err e => Ret (Err e)
  | Ok _ =>
      match (id ← ok_or (strip_suffix ".json" name) StorageUnavailable; validate_hex_32 id) with
      | Err e => Ret (Err e)
      | Ok _ => step! bytes <- read_bounded p MAX_EVENT_BYTES ;; Ret (revocation_file name bytes)
      end
  end.

Definition load_revocations : program (result AuthorizationError (list Revocation)) :=
  step! names <- Do (ReadDir REVOCATION_DIRECTORY) (fun r => Ret (unavailable r)) ;;
  step! found <- for_all load_revocation names ;;
  Ret (Ok (sort_on r_event_id found)).

Definition load : program (result AuthorizationError AuthorizationState) :=
  step! _ <- prepare_private_directory REVOCATION_DIRECTORY ;;
  step! _ <- prepare_private_directory CERTIFICATE_DIRECTORY ;;
  step! found <- load_revocations ;;
  Ret (Ok (MkAuthorizationState found ∅)).

Definition revocation_name (r : Revocation) : string := r_event_id r +:+ ".json".

(** Writes what is pending, in the order in which it is known. *)
Fixpoint persist (l : list Revocation) (st : AuthorizationState) : program (AuthorizationState * result AuthorizationError unit) :=
  match l with
  | [] => Ret (st, Ok ())
  | r :: l =>
      if bool_decide (r_event_id r ∈ pending_revocations st) then
        bind (write_atomically REVOCATION_DIRECTORY (revocation_name r) (r_event_json r)) (fun written =>
          match written with Err e => Ret (st, Err e) | Ok _ => persist l (persisted st (r_event_id r)) end)
      else persist l st
  end.

Definition commit_revocations (st : AuthorizationState) (a : AuthorizationAttempt)
    : program (AuthorizationState * result AuthorizationError unit) :=
  let st := foldl install st (attempt_revocations a) in persist (revocations st) st.

Definition reset_after_identity_switch (st : AuthorizationState) : program (AuthorizationState * result AuthorizationError unit) :=
  bind (step! _ <- clear_private_directory REVOCATION_DIRECTORY ;; clear_private_directory CERTIFICATE_DIRECTORY) (fun r =>
    Ret (match r with Ok _ => (MkAuthorizationState [] ∅, Ok ()) | Err e => (st, Err e) end)).

(** *** Grants *)

Definition grant_file (name bytes : string) : result AuthorizationError (string * CertificateGrant) :=
  grant ← ok_or (grant_parse bytes) StorageUnavailable; Ok (name, grant).

Definition load_grant (name : string) : program (result AuthorizationError (string * CertificateGrant)) :=
  let p := CERTIFICATE_DIRECTORY ++ [name] in
  step! _ <- check_entry p MAX_GRANT_BYTES ;;
  if negb (is_some (to_str name)) || starts_with "." name then Ret (Err StorageUnavailable)
  else match validate_hex_32 name with
       | Err e => Ret (Err e)
       | Ok _ => step! bytes <- read_bounded p MAX_GRANT_BYTES ;; Ret (grant_file name bytes)
       end.

Definition certificate_grants : program (result AuthorizationError (list (string * CertificateGrant))) :=
  step! names <- Do (ReadDir CERTIFICATE_DIRECTORY) (fun r => Ret (unavailable r)) ;;
  step! grants <- for_all load_grant names ;;
  Ret (Ok (sort_on fst grants)).

Definition stream_client_grants : program (result AuthorizationError (list (string * string))) :=
  step! grants <- certificate_grants ;; Ret (Ok ((fun g => (host_uuid g.2, client_certificate g.2)) <$> grants)).

Definition record_certificate (p : Principal) (uuid certificate : string) : program (result AuthorizationError unit) :=
  match grant_authorization p with
  | None => Ret (Err InvalidEvidence)
  | Some (device, by_) =>
      match grant_json (MkCertificateGrant uuid certificate by_) with
      | None => Ret (Err StorageUnavailable)
      | Some bytes => write_atomically CERTIFICATE_DIRECTORY device bytes
      end
  end.

Definition certificate_revocations (st : AuthorizationState) (local : IdentityState) (now : Z)
    : program (result AuthorizationError (list CertificateRevocation)) :=
  step! grants <- certificate_grants ;; Ret (Ok (plan_certificate_revocations local now (revocations st) grants)).

Definition complete_certificate_revocation (device : string) : program (result AuthorizationError unit) :=
  Do (RemoveFile (CERTIFICATE_DIRECTORY ++ [device])) (fun r =>
    match r with
    | Ok _ => sync_authorization CERTIFICATE_DIRECTORY
    | Err NotFound => Ret (Ok ())
    | Err _ => Ret (Err StorageUnavailable)
    end).

(** The evidence of a grant was valid when it was given. *)
Definition grant_well_formed (device : string) (grant : CertificateGrant) : bool :=
  let '(statement, pass) :=
    match authorization grant with ByOwnerDevice s => (s, None) | ByPersonPass s p => (s, Some p) end in
  match verify_owner_statement statement device with
  | Err _ => false
  | Ok owner =>
      bool_decide (o_status owner = StatementOwned)
      && match pass with
         | None => true
         | Some pass =>
             match verify_event pass with
             | Err _ => false
             | Ok event => is_some (parse_person_pass pass (author event) device (v_created_at event) [])
             end
         end
  end.

Definition all_stale_certificate_revocations (st : AuthorizationState) (local : IdentityState) (now : Z)
    : program (result AuthorizationError (list CertificateRevocation)) :=
  step! grants <- certificate_grants ;;
  Ret (if negb (forallb (fun g => grant_well_formed g.1 g.2) grants) then Err InvalidEvidence
       else let plan := plan_certificate_revocations local now (revocations st) grants in
            if bool_decide (length plan = length grants) then Ok plan else Err InvalidEvidence).

Definition confirm_offline_reconciliation : program (result AuthorizationError unit) :=
  step! grants <- certificate_grants ;;
  if bool_decide (grants = []) then sync_authorization CERTIFICATE_DIRECTORY else Ret (Err StorageUnavailable).
End storage.

(** ** Who is recognised *)

Definition tier_str (t : PassTier) : string := match t with HouseholdTier => "household" | GuestTier => "guest" end.

Definition scope_str (s : Scope) : string := match s with CatalogRead => "catalog.read" | StreamLaunch => "stream.launch" end.

Section evidence.
Context `{NO : !Nostr}.

(** The owner signed that the device is theirs. *)
Definition owned_by (json device owner : string) : Prop :=
  exists e, from_json json = Some e /\ str_len json <= MAX_EVENT_BYTES /\ statement_for device StatementOwned e /\ ev_pubkey e = owner.

(** The tags of a pass. *)
Definition pass_tags (person device : string) (tier : PassTier) (expires : string) (l : list Scope) : list (list string) :=
  ["d"; PASS_ADDRESS_PREFIX +:+ person] :: ["device"; device] :: ["tier"; tier_str tier] :: ["expires"; expires]
  :: ((fun s => ["scope"; scope_str s]) <$> l).

(** A pass of the owner for a person at this device that is in force. *)
Definition pass_in_force (json owner device : string) (now : Z) (revoked : list Revocation) (tier : PassTier) (pass : PersonPass) : Prop :=
  exists e expires,
    from_json json = Some e /\ str_len json <= MAX_EVENT_BYTES /\ verify e = true /\ ev_kind e = PERSON_PASS_EVENT_KIND /\
    ev_pubkey e = owner /\ ev_content e = EmptyString /\
    ev_tags e = pass_tags (person_public_key pass) device tier expires (scopes pass) /\
    hex_64 (person_public_key pass) = true /\ from_decimal u64_max expires = Some (expires_at pass) /\
    scopes pass <> [] /\ NoDup (scopes pass) /\
    ev_created_at e <= saturating_add now CLOCK_SKEW_SECONDS /\ now < expires_at pass /\
    ev_created_at e < expires_at pass <= ev_created_at e + MAX_PERSON_PASS_LIFETIME_SECONDS /\
    is_person_pass_revoked revoked owner (ev_id e) = false /\ pass_event_id pass = ev_id e /\ pass_event_json pass = json.

Lemma verify_owner_statement_ok json device v :
  verify_owner_statement json device = Ok v <->
    exists e, from_json json = Some e /\ str_len json <= MAX_EVENT_BYTES /\ statement_for device (o_status v) e /\
      v = MkVerifiedOwnerStatement (ev_id e) (ev_pubkey e) device (o_status v) (ev_created_at e).
Proof.
  unfold verify_owner_statement. split.
  - destruct (parse_owner_statement json device) as [s|] eqn:Hp; [|done]. intros [= <-].
    apply parse_owner_statement_iff in Hp as (Hj & Hl & Hf). by exists (statement_event s).
  - intros (e & Hj & Hl & Hf & ->). cbn [o_status] in *.
    by rewrite (proj2 (parse_owner_statement_iff json device (MkParsedOwnerStatement e (o_status v)))).
Qed.

Lemma verify_event_ok json v :
  verify_event json = Ok v <->
    exists e, from_json json = Some e /\ str_len json <= MAX_EVENT_BYTES /\ verify e = true /\ v = verified_event e.
Proof.
  unfold verify_event, verify_event_bounded. destruct (Z.ltb_spec MAX_EVENT_BYTES (str_len json)); split; try done.
  - intros (e & _ & ? & _). lia.
  - destruct (from_json json) as [e|]; [|done]. destruct (verify e) eqn:Hv; [|done]. intros [= <-]. by exists e.
  - intros (e & -> & _ & -> & ->). done.
Qed.

Lemma tag_value_Some name tag v : tag_value name tag = Some v <-> tag = [name; v].
Proof.
  unfold tag_value. destruct tag as [|n [|x [|]]]; split; try done; [|intros [= -> ->]; by rewrite bool_decide_eq_true_2].
  case_bool_decide; [|done]. by intros [= ->]; subst.
Qed.

Lemma scope_parse_Some v s : scope_parse v = Some s <-> v = scope_str s.
Proof. unfold scope_parse. split; [repeat case_bool_decide; by intros [= <-]|intros ->; by destruct s]. Qed.

Lemma tier_parse_Some v t : tier_parse v = Some t <-> v = tier_str t.
Proof. unfold tier_parse. split; [repeat case_bool_decide; by intros [= <-]|intros ->; by destruct t]. Qed.

Lemma mapM_scope_values tags l : mapM (tag_value "scope") tags = Some l <-> tags = (fun v => ["scope"; v]) <$> l.
Proof.
  rewrite mapM_Some. split.
  - induction 1 as [|x y tags l Hx _ IH]; [done|]. apply tag_value_Some in Hx as ->. simpl. by rewrite IH.
  - intros ->. induction l; constructor; [by apply tag_value_Some|done].
Qed.

Lemma mapM_scopes values l : mapM scope_parse values = Some l <-> values = scope_str <$> l.
Proof.
  rewrite mapM_Some. split.
  - induction 1 as [|x y values l Hx _ IH]; [done|]. apply scope_parse_Some in Hx as ->. simpl. by rewrite IH.
  - intros ->. induction l; constructor; [by apply scope_parse_Some|done].
Qed.

Lemma parse_person_pass_spec json owner device now revoked tier pass :
  parse_person_pass json owner device now revoked = Some (tier, pass) <-> pass_in_force json owner device now revoked tier pass.
Proof.
  unfold parse_person_pass. split.
  - intros (v & Hv & Hp)%bind_Some. destruct (verify_event json) as [v'|] eqn:He; [|done]. injection Hv as ->.
    apply verify_event_ok in He as (e & Hj & Hl & Hver & ->). cbn [v_kind author v_content v_created_at v_id v_tags verified_event] in Hp.
    destruct (_ || is_person_pass_revoked _ _ _) eqn:Hg; [done|]. apply orb_false_iff in Hg as [[[[Hk Ho]%orb_false_iff Hc]%orb_false_iff Ht]%orb_false_iff Hr].
    apply negb_false_iff in Hk, Ho, Hc. apply Z.eqb_eq in Hk. apply bool_decide_eq_true in Ho. apply empty_content in Hc. apply Z.ltb_ge in Ht.
    destruct (ev_tags e) as [|d [|dev [|ti [|ex [|sc rest]]]]] eqn:Htags; try done.
    apply bind_Some in Hp as (named & ->%tag_value_Some & Hp). apply bind_Some in Hp as (tv & ->%tag_value_Some & Hp).
    apply bind_Some in Hp as (ev & ->%tag_value_Some & Hp). apply bind_Some in Hp as (values & Hvs%mapM_scope_values & Hp).
    case_bool_decide as Hdev; [|done]. cbn [negb] in Hp.
    apply bind_Some in Hp as (address & Haddr%strip_prefix_Some & Hp). destruct (hex_64 address) eqn:Hhex; [|done]. cbn [negb] in Hp.
    apply bind_Some in Hp as (t & ->%tier_parse_Some & Hp). apply bind_Some in Hp as (exp & Hexp & Hp).
    destruct (_ || _) eqn:Hg in Hp; [done|]. apply orb_false_iff in Hg as [[Hn Hcr]%orb_false_iff Hlife].
    apply Z.leb_gt in Hn, Hcr. apply Z.ltb_ge in Hlife. unfold saturating_sub in Hlife.
    apply bind_Some in Hp as (l & ->%mapM_scopes & Hp). destruct (_ || _) eqn:Hg in Hp; [done|].
    apply orb_false_iff in Hg as [Hne Hnd]. apply bool_decide_eq_false in Hne. apply negb_false_iff, bool_decide_eq_true in Hnd.
    injection Hp as <- <-. exists e, ev. cbn [person_public_key scopes expires_at pass_event_id pass_event_json].
    split_and!; try done; try lia. rewrite Htags. unfold pass_tags. rewrite Hdev, Haddr, Hvs. do 4 f_equal. by rewrite <- list_fmap_compose.
  - intros (e & ex & Hj & Hl & Hver & Hk & Ho & Hc & Ht & Hhex & Hexp & Hne & Hnd & Hcr & Hn & Hlife & Hr & Hid & Hjson).
    rewrite (proj2 (verify_event_ok json (verified_event e))) by (by exists e). cbn [ok mbind option_bind].
    cbn [v_kind author v_content v_created_at v_id v_tags verified_event]. rewrite Hk, Ho, Hc, Hr, (proj2 (Z.ltb_ge _ _) Hcr), Z.eqb_refl.
    rewrite bool_decide_eq_true_2 by done. cbn [negb orb str_is_empty]. rewrite Ht. unfold pass_tags.
    destruct (scopes pass) as [|s1 l] eqn:Hs; [done|]. cbn [fmap list_fmap].
    rewrite !(proj2 (tag_value_Some _ _ _) eq_refl). cbn [mbind option_bind].
    rewrite (proj2 (mapM_scope_values _ (scope_str <$> (s1 :: l)))) by (by rewrite <- list_fmap_compose). cbn [mbind option_bind].
    rewrite bool_decide_eq_true_2 by done. cbn [negb]. rewrite strip_prefix_app. cbn [mbind option_bind]. rewrite Hhex. cbn [negb].
    rewrite (proj2 (tier_parse_Some _ tier) eq_refl). cbn [mbind option_bind]. rewrite Hexp. cbn [mbind option_bind].
    unfold saturating_sub. rewrite (proj2 (Z.leb_gt _ _)), (proj2 (Z.leb_gt _ _)), (proj2 (Z.ltb_ge _ _)) by lia. cbn [orb].
    rewrite (proj2 (mapM_scopes _ (s1 :: l)) eq_refl). cbn [mbind option_bind]. rewrite bool_decide_eq_false_2, bool_decide_eq_true_2 by done.
    cbn [negb orb]. rewrite <- Hid, <- Hjson, <- Hs. by destruct pass.
Qed.

(** ** Who a request comes from *)

(** The evidence for a principal that may ask for something. *)
Definition entitled (local : IdentityState) (statement pass : option string) (now : Z) (revoked : list Revocation) (p : Principal) : Prop :=
  exists own me id time json owner,
    local = Owned own me id time /\ statement = Some json /\ owned_by json (principal_device p) owner /\
    is_owner_device_revoked revoked owner (principal_device p) = false /\
    match p with
    | OwnerDevice _ json' owner' => json' = json /\ owner' = owner /\ owner = me
    | Household device json' held =>
        json' = json /\ owner <> me /\ exists pj, pass = Some pj /\ pass_in_force pj me device now revoked HouseholdTier held
    | Guest device json' held =>
        json' = json /\ owner <> me /\ exists pj, pass = Some pj /\ pass_in_force pj me device now revoked GuestTier held
    | Unknown _ => False
    end.

(** C17: A request is taken to come from a device of the owner exactly when a statement
    signed by the owner of this device names the sender as theirs, and from a household
    or a guest exactly when, instead, the owner of this device signed a pass for the
    sender of that tier that is in force: neither too early nor expired, for at most a
    day, with scopes that do not repeat. In each case only while neither the statement
    nor the pass is revoked by its author; everyone else is unknown. *)
Theorem principal_spec local device statement pass now revoked p :
  (forall d, p <> Unknown d) ->
  principal_for local device statement pass now revoked = p
    <-> principal_device p = device /\ entitled local statement pass now revoked p.
Proof.
  intros Hp. unfold principal_for. split.
  - destruct local as [|own me id time| |]; try (intros <-; by edestruct Hp). destruct statement as [json|]; [|intros <-; by edestruct Hp].
    destruct (verify_owner_statement json device) as [v|] eqn:Hv; [|intros <-; by edestruct Hp].
    apply verify_owner_statement_ok in Hv as (e & Hj & Hl & Hf & Hveq).
    destruct (negb _ || _) eqn:Hg; [intros <-; by edestruct Hp|]. apply orb_false_iff in Hg as [Hs Hr].
    apply negb_false_iff, bool_decide_eq_true in Hs. rewrite Hs in Hf.
    assert (Howned : owned_by json device (o_owner v)) by (exists e; rewrite Hveq; done).
    case_bool_decide as Ho.
    { intros <-. split; [done|]. by exists own, me, id, time, json, (o_owner v). }
    destruct (pass ≫= _) as [[tier held]|] eqn:Hpass; [|intros <-; by edestruct Hp].
    apply bind_Some in Hpass as (pj & -> & Hpass%parse_person_pass_spec).
    destruct tier; intros <-; (split; [done|]); exists own, me, id, time, json, (o_owner v); repeat (split; [done|]); by exists pj.
  - intros (Hd & own & me & id & time & json & owner & -> & -> & (e & Hj & Hl & Hf & Ho) & Hr & Hev).
    rewrite Hd in Hf, Hr. rewrite (proj2 (verify_owner_statement_ok json device (MkVerifiedOwnerStatement (ev_id e) (ev_pubkey e) device StatementOwned (ev_created_at e))))
      by (by exists e).
    cbn [o_status o_owner]. rewrite Ho, Hr. rewrite bool_decide_eq_true_2 by done. cbn [negb orb].
    destruct p as [d' json' owner'|d' json' held|d' json' held|]; cbn [principal_device] in Hd; try done; subst d'.
    + destruct Hev as (-> & -> & ->). by rewrite bool_decide_eq_true_2.
    + destruct Hev as (-> & Hne & pj & -> & Hpass). rewrite bool_decide_eq_false_2 by done. simpl. by rewrite (proj2 (parse_person_pass_spec _ _ _ _ _ _ _) Hpass).
    + destruct Hev as (-> & Hne & pj & -> & Hpass). rewrite bool_decide_eq_false_2 by done. simpl. by rewrite (proj2 (parse_person_pass_spec _ _ _ _ _ _ _) Hpass).
Qed.
End evidence.

(** ** The revocations on the disk *)

Section durable.
Context `{NO : !Nostr, NL : !NostrLaws, GC : !GrantCodec, Sv : !Services}.

Notation program A := (prog Op Reply A).
Notation wp := (Programs.wp (Reply:=Reply) (Choice:=Choice) effect).
Notation ends := (Programs.ends (Reply:=Reply) (Choice:=Choice) effect).
Notation stops := (Programs.stops (Reply:=Reply) (Choice:=Choice) effect).
Notation run := (Programs.run (Reply:=Reply) (Choice:=Choice) effect usual).

(** A revocation as it is parsed from its event, whose text is UTF-8 and fits a file. *)
Definition genuine (r : Revocation) : Prop :=
  parse_revocation (r_event_json r) = Ok r /\ to_str (r_event_json r) = Some (r_event_json r).

Definition revocation_path (r : Revocation) : path := REVOCATION_DIRECTORY ++ [revocation_name r].

Definition filed (t : tree) (r : Revocation) : Prop :=
  exists mode, t !! revocation_path r = Some (Regular mode (r_event_json r) true) /\ exposed mode = false.

Definition has_directory (t : tree) : Prop := exists mode, t !! REVOCATION_DIRECTORY = Some (Directory mode) /\ exposed mode = false.

(** The directory holds the files of these revocations, and nothing else when it is [clean]. *)
Definition holds (clean : bool) (l : list Revocation) (t : tree) : Prop :=
  has_directory t /\ Forall (filed t) l /\
  (clean = true -> forall name, is_Some (t !! (REVOCATION_DIRECTORY ++ [name])) -> exists r, r ∈ l /\ name = revocation_name r).

(** Now and after a power loss. *)
Definition lasting (clean : bool) (l : list Revocation) (d : disk) : Prop := holds clean l (seen d) /\ holds clean l (kept d).

(** The revocations that are on the disk. *)
Definition written (st : AuthorizationState) : list Revocation :=
  keep (fun r => negb (bool_decide (r_event_id r ∈ pending_revocations st))) (revocations st).

Definition sound_state (st : AuthorizationState) : Prop :=
  Forall genuine (revocations st) /\ NoDup (r_event_id <$> revocations st)
  /\ pending_revocations st ⊆ list_to_set (r_event_id <$> revocations st).

Lemma elem_of_written st r : r ∈ written st <-> r ∈ revocations st /\ r_event_id r ∉ pending_revocations st.
Proof. unfold written. rewrite elem_of_keep. by rewrite negb_true_iff, bool_decide_eq_false. Qed.

Lemma parse_revocation_inv json r :
  parse_revocation json = Ok r ->
  exists e, from_json json = Some e /\ str_len json <= MAX_EVENT_BYTES /\ verify e = true /\ r_event_id r = ev_id e
    /\ r_event_json r = json /\ r_author r = ev_pubkey e /\ revocation_target (verified_event e) = Ok (r_target r).
Proof.
  unfold parse_revocation. intros (v & Hv & Hp)%bind_ok. destruct (verify_event json) as [v'|] eqn:He; [|done]. injection Hv as ->.
  apply verify_event_ok in He as (e & Hj & Hl & Hver & ->). apply bind_ok in Hp as (t & Ht & [= <-]). exists e. done.
Qed.

(** A name that is a hash ends in no temporary's name. *)
Lemma hex_no_dot s : hex_64 s = true -> starts_with "." s = false.
Proof.
  intros [_ Ha]%andb_prop. unfold starts_with. destruct (strip_prefix "." s) as [x|] eqn:Hx; [|done]. apply strip_prefix_Some in Hx as ->. done.
Qed.

Lemma genuine_hex r : genuine r -> hex_64 (r_event_id r) = true.
Proof. intros [(e & _ & _ & Hv & -> & _)%parse_revocation_inv _]. by apply id_is_hex. Qed.

Lemma temporary_not_file dir content nonce r : genuine r -> temporary_for dir content nonce <> dir ++ [revocation_name r].
Proof.
  intros Hg Heq. unfold temporary_for in Heq. apply (inj (app dir)) in Heq. injection Heq as Heq.
  pose proof (hex_no_dot _ (genuine_hex r Hg)) as Hn. pose proof (hex_len _ (genuine_hex r Hg)) as Hl. unfold revocation_name in Heq.
  destruct (r_event_id r) as [|a s]; [done|]. unfold starts_with in Hn. cbn in Hn. injection Heq as <- _. by rewrite decide_True in Hn.
Qed.

Lemma revocation_name_inj r r' : revocation_name r = revocation_name r' -> r_event_id r = r_event_id r'.
Proof.
  unfold revocation_name. intros Heq. apply (f_equal to_text) in Heq. rewrite !to_text_app in Heq. apply app_inv_tail in Heq. by apply (inj to_text).
Qed.

Lemma holds_weaken clean l t : holds clean l t -> holds false l t.
Proof. intros (Hd & Hf & _). done. Qed.

Lemma lasting_weaken clean l d : lasting clean l d -> lasting false l d.
Proof. intros [Hs Hk]. by split; eapply holds_weaken. Qed.

Lemma directory_apart name : REVOCATION_DIRECTORY ++ [name] <> REVOCATION_DIRECTORY.
Proof. done. Qed.

(** What happens to a file that is none of them. *)
Lemma holds_other l t t' p :
  (forall q, q <> p -> t' !! q = t !! q) -> p <> REVOCATION_DIRECTORY -> (forall r, r ∈ l -> p <> revocation_path r) ->
  holds false l t -> holds false l t'.
Proof.
  intros Ht Hd Hp ((m & Hm & Hx) & Hf & _). split; [exists m; by rewrite Ht|]. split; [|done].
  rewrite Forall_forall in Hf |- *. intros r Hr. destruct (Hf r Hr) as (mr & Hmr & Hxr). exists mr. rewrite Ht; [done|]. symmetry. by apply Hp.
Qed.

Lemma holds_insert clean l t r :
  r_event_id r ∉ (r_event_id <$> l) -> holds clean l t ->
  holds clean (r :: l) (<[revocation_path r := Regular 384 (r_event_json r) true]> t).
Proof.
  intros Hnew ((m & Hm & Hx) & Hf & Hc). split; [exists m; by rewrite lookup_insert_ne|]. split.
  - constructor; [exists 384; by rewrite lookup_insert_eq|]. rewrite Forall_forall in Hf |- *. intros r' Hr'.
    destruct (Hf r' Hr') as (mr & Hmr & Hxr). exists mr. rewrite lookup_insert_ne; [done|]. intros Heq.
    apply (inj (app REVOCATION_DIRECTORY)) in Heq. injection Heq as Heq%revocation_name_inj. apply Hnew. rewrite Heq. by apply list_elem_of_fmap_2.
  - intros Hclean name. destruct (decide (name = revocation_name r)) as [->|Hne]; [intros _; exists r; split; [by left|done]|].
    rewrite lookup_insert_ne by (intros Heq; apply (inj (app REVOCATION_DIRECTORY)) in Heq; congruence).
    intros (r' & Hr' & ->)%Hc; [|done]. exists r'. split; [by right|done].
Qed.

(** Syncing the directory keeps what is in it. *)
Lemma holds_synced clean l l' t t' :
  holds clean l t -> holds false l' t' -> holds clean l (synced_names REVOCATION_DIRECTORY (MkDisk t t')).
Proof.
  intros (_ & Hf & Hc) ((m & Hm & Hx) & _). split; [exists m; rewrite synced_elsewhere; [done|by intros [? ?]|done]|]. split.
  - rewrite Forall_forall in Hf |- *. intros r Hr. destruct (Hf r Hr) as (mr & Hmr & Hxr). exists mr. unfold revocation_path. by rewrite synced_child.
  - intros Hclean name. rewrite synced_child. by apply Hc.
Qed.

Lemma wp_write_revocation clean l r d :
  Forall genuine (r :: l) -> r_event_id r ∉ (r_event_id <$> l) -> lasting clean l d ->
  wp (lasting false l) (on_ok (fun _ d' => lasting clean (r :: l) d'))
    (write_atomically REVOCATION_DIRECTORY (revocation_name r) (r_event_json r)) d.
Proof.
  intros Hg Hnew Hd. pose proof (lasting_weaken _ _ _ Hd) as Hdw. unfold write_atomically. apply wp_random; [done|]. intros nonce. cbv zeta.
  assert (Hapart : forall r', r' ∈ r :: l -> temporary_for REVOCATION_DIRECTORY (r_event_json r) nonce <> revocation_path r').
  { rewrite Forall_forall in Hg. intros r' Hr'. by apply temporary_not_file, Hg. }
  apply wp_replace_or_clean; [| |by apply Hapart; left|done|].
  - intros d0 c s [Hs Hk]. split; [|done]. eapply holds_other; [| | |exact Hs]; [intros q Hq; by apply lookup_insert_ne|done|].
    intros r' Hr'. apply Hapart. by right.
  - intros d0 [Hs Hk]. split; [|done]. eapply holds_other; [| | |exact Hs]; [intros q Hq; by apply lookup_delete_ne|done|].
    intros r' Hr'. apply Hapart. by right.
  - intros _ d1. destruct Hd as [Hs Hk]. pose proof (holds_insert clean l (seen d) r Hnew Hs) as Hs1.
    assert (Hless : forall c t, holds c (r :: l) t -> holds false l t) by (intros c t (H1 & H2 & _); split; [done|]; split; [by inversion H2|done]).
    split; [split; [by eapply Hless|by eapply holds_weaken]|]. intros d2.
    assert (Hs2 : holds clean (r :: l) (kept d2)) by (eapply holds_synced; [exact Hs1|by eapply holds_weaken]).
    split; [split; by eapply Hless|by split].
Qed.

Lemma holds_ext clean l l' t : (forall r, r ∈ l <-> r ∈ l') -> holds clean l t -> holds clean l' t.
Proof.
  intros Hl (Hd & Hf & Hc). split; [done|]. split; [rewrite Forall_forall in Hf |- *; intros r Hr%Hl; by apply Hf|].
  intros Hcl name (r & Hr & ->)%(Hc Hcl). exists r. by rewrite <- Hl.
Qed.

Lemma lasting_sub l l' d : (forall r, r ∈ l' -> r ∈ l) -> lasting false l d -> lasting false l' d.
Proof.
  intros Hl [(H1 & H2 & _) (H3 & H4 & _)]. rewrite !Forall_forall in *. split; (split; [done|]); (split; [|done]); rewrite Forall_forall; auto.
Qed.

Lemma lasting_ext clean l l' d : (forall r, r ∈ l <-> r ∈ l') -> lasting clean l d -> lasting clean l' d.
Proof. intros Hl [Hs Hk]. by split; eapply holds_ext. Qed.

Lemma same_revocation (l : list Revocation) r r' : NoDup (r_event_id <$> l) -> r ∈ l -> r' ∈ l -> r_event_id r = r_event_id r' -> r = r'.
Proof.
  induction l as [|x l IH]; [intros _ Hr; by apply elem_of_nil in Hr|]. cbn [fmap list_fmap]. intros [Hx Hnd]%NoDup_cons.
  intros [->|Hr]%elem_of_cons [->|Hr']%elem_of_cons Heq; [done| | |by apply IH]; exfalso; apply Hx;
    [rewrite Heq|rewrite <- Heq]; by apply list_elem_of_fmap_2.
Qed.

Lemma written_persisted st r r' :
  NoDup (r_event_id <$> revocations st) -> r ∈ revocations st ->
  r' ∈ r :: written st <-> r' ∈ written (persisted st (r_event_id r)).
Proof.
  intros Hnd Hr. rewrite elem_of_cons, !elem_of_written. cbn [revocations pending_revocations persisted].
  rewrite elem_of_difference, elem_of_singleton. split; [intros [->|[]]; tauto|]. intros [Hr' Hn].
  destruct (decide (r_event_id r' = r_event_id r)) as [Heq|Hne]; [left; by eapply same_revocation|right]. split; [done|]. tauto.
Qed.

Lemma written_new st r : r_event_id r ∈ pending_revocations st -> r_event_id r ∉ (r_event_id <$> written st).
Proof. intros Hp (r' & Heq & [_ Hn]%elem_of_written)%list_elem_of_fmap. congruence. Qed.

Lemma persisted_sound st id : sound_state st -> sound_state (persisted st id).
Proof. intros (Hg & Hnd & Hp). split; [done|]. split; [done|]. cbn [pending_revocations persisted revocations]. set_solver. Qed.

(** What writing the revocations of [l] leaves. *)
Definition persisting (clean : bool) (l : list Revocation) (st : AuthorizationState)
    (r : AuthorizationState * result AuthorizationError unit) (d : disk) : Prop :=
  revocations r.1 = revocations st /\ sound_state r.1 /\ pending_revocations r.1 ⊆ pending_revocations st /\
  lasting false (written r.1) d /\
  (r.2 = Ok () -> lasting clean (written r.1) d /\ forall x, x ∈ l -> r_event_id x ∉ pending_revocations r.1).

Lemma wp_persist clean l st d :
  sound_state st -> (forall r, r ∈ l -> r ∈ revocations st) -> lasting clean (written st) d ->
  wp (lasting false (written st)) (persisting clean l st) (persist l st) d.
Proof.
  revert st d. induction l as [|r l IH]; intros st d Hs Hl Hd; cbn [persist].
  { apply wp_ret; [by eapply lasting_weaken|]. repeat (split; [done|]). split; [by eapply lasting_weaken|]. intros _. split; [done|].
    intros x Hx. by apply elem_of_nil in Hx. }
  assert (Hr : r ∈ revocations st) by (apply Hl; by left).
  assert (Hl' : forall r, r ∈ l -> r ∈ revocations st) by (intros x Hx; apply Hl; by right). case_bool_decide as Hp.
  - pose proof Hs as (Hg & Hnd & _). rewrite Forall_forall in Hg.
    assert (Hgw : Forall genuine (r :: written st)).
    { constructor; [by apply Hg|]. apply Forall_forall. intros x [Hx _]%elem_of_written. by apply Hg. }
    apply wp_bind. eapply wp_mono; [|by apply wp_write_revocation; [|apply written_new|]]. intros [u|e] d' Hd' Hq.
    2: { apply wp_ret; [done|]. by repeat (split; [done|]). }
    assert (Hq' : lasting clean (written (persisted st (r_event_id r))) d').
    { eapply lasting_ext; [|exact Hq]. intros x. by apply written_persisted. }
    eapply wp_inv_mono; [|eapply wp_mono; [|by apply (IH (persisted st (r_event_id r))); [apply persisted_sound|..]]].
    + intros d0. apply lasting_sub. intros x Hx. apply written_persisted; [done|done|by right].
    + intros [st' res] d0 _ (H1 & H2 & H3 & H4 & H5). cbn [fst snd revocations pending_revocations persisted] in *.
      split; [done|]. split; [done|]. split; [set_solver|]. split; [done|]. intros Hok. destruct (H5 Hok) as [H6 H7]. split; [done|].
      intros x [->|Hx]%elem_of_cons; [set_solver|by apply H7].
  - eapply wp_mono; [|by apply IH]. intros [st' res] d0 _ (H1 & H2 & H3 & H4 & H5). do 4 (split; [done|]).
    intros Hok. destruct (H5 Hok) as [H6 H7]. split; [done|]. intros x [->|Hx]%elem_of_cons; [set_solver|by apply H7].
Qed.

(** *** Committing *)

Lemma install_sound st r : sound_state st -> genuine r -> sound_state (install st r).
Proof.
  intros (Hg & Hnd & Hp) Hr. unfold install. destruct (existsb _ _) eqn:He; [done|]. unfold sound_state. cbn [revocations pending_revocations].
  split; [by apply Forall_app_2; [|constructor]|]. rewrite fmap_app, list_to_set_app. cbn [fmap list_fmap]. split; [|set_solver].
  apply NoDup_app. split; [done|]. split; [|apply NoDup_singleton]. intros id (x & -> & Hx)%list_elem_of_fmap [Heq|Hn]%elem_of_cons; [|by apply elem_of_nil in Hn].
  apply not_true_iff_false in He. apply He, existsb_spec. exists x. split; [done|]. by apply bool_decide_eq_true_2.
Qed.

(** A revocation that has just been installed is not on the disk, and the others are as they were. *)
Lemma install_written st r x : sound_state st -> x ∈ written (install st r) <-> x ∈ written st.
Proof.
  intros (_ & _ & Hp). unfold install. destruct (existsb _ _) eqn:He; [done|]. rewrite !elem_of_written. cbn [revocations pending_revocations].
  assert (Hnew : forall y, y ∈ revocations st -> r_event_id y <> r_event_id r).
  { intros y Hy Heq. apply not_true_iff_false in He. apply He, existsb_spec. exists y. split; [done|]. by apply bool_decide_eq_true_2. }
  rewrite elem_of_app, list_elem_of_singleton, elem_of_union, elem_of_singleton. split; [|intros [Hx Hn]; split; [by left|]; intros [Heq|?]; [by eapply Hnew|done]].
  intros [[Hx| ->] Hn]; [split; [done|]; tauto|]. by destruct Hn; left.
Qed.

(** The state knows the event of [r]. *)
Definition knows (st : AuthorizationState) (r : Revocation) : Prop := r_event_id r ∈ (r_event_id <$> revocations st).

Lemma install_knows st r x : x = r \/ knows st x -> knows (install st r) x.
Proof.
  unfold knows, install. destruct (existsb _ _) eqn:He; cbn [revocations].
  - intros [->|Hx]; [|done]. apply existsb_spec in He as (y & Hy & Heq%bool_decide_eq_true). rewrite <- Heq. by apply list_elem_of_fmap_2.
  - rewrite fmap_app, elem_of_app. intros [->|Hx]; [right; by left|by left].
Qed.

Lemma install_all l st :
  sound_state st -> Forall genuine l ->
  let st' := foldl install st l in
  sound_state st' /\ (forall x, x ∈ written st' <-> x ∈ written st) /\ (forall x, x ∈ l \/ knows st x -> knows st' x)
  /\ (forall x, x ∈ revocations st -> x ∈ revocations st').
Proof.
  revert st. induction l as [|r l IH]; intros st Hs Hg; cbn [foldl].
  { split; [done|]. split; [done|]. split; [intros x [Hx|]; [by apply elem_of_nil in Hx|done]|done]. }
  apply Forall_cons in Hg as [Hr Hg]. destruct (IH (install st r) (install_sound st r Hs Hr) Hg) as (H1 & H2 & H3 & H4).
  split; [done|]. split; [intros x; rewrite H2; by apply install_written|]. split.
  - intros x [[->|Hx]%elem_of_cons|Hx]; apply H3; [right; apply install_knows; by left|by left|right; apply install_knows; by right].
  - intros x Hx. apply H4. unfold install. destruct (existsb _ _); [done|]. cbn [revocations]. apply elem_of_app. by left.
Qed.

(** *** Loading *)

Lemma run_for_all {X B E} (f : X -> program (result E B)) (R : X -> B -> Prop) l d :
  (forall x, x ∈ l -> exists y, run (f x) d = (d, Ok y) /\ R x y) -> exists ys, run (for_all f l) d = (d, Ok ys) /\ Forall2 R l ys.
Proof.
  induction l as [|x l IH]; intros Hf; cbn [for_all]; [by exists []|].
  destruct (Hf x ltac:(by left)) as (y & Hy & Hr). destruct IH as (ys & Hys & Hrs); [intros z Hz; apply Hf; by right|].
  exists (y :: ys). split; [|by constructor]. rewrite (run_attempt _ _ _ _ _ Hy), (run_attempt _ _ _ _ _ Hys). done.
Qed.

Lemma run_load_revocation d r :
  genuine r -> filed (seen d) r -> run (load_revocation (revocation_name r)) d = (d, Ok r).
Proof.
  intros Hg (mode & Hf & Hx). pose proof Hg as [(e & _ & Hl & _)%parse_revocation_inv Hu]. pose proof (genuine_hex r Hg) as Hh.
  assert (Hname : to_str (revocation_name r) = Some (revocation_name r)).
  { unfold revocation_name. apply hex_ascii_text; [|done]. by apply andb_prop in Hh as [_ ?]. }
  assert (Hstrip : strip_suffix ".json" (revocation_name r) = Some (r_event_id r)) by by apply strip_suffix_Some.
  unfold load_revocation. fold (revocation_path r).
  erewrite (run_attempt _ _ d () d); [|unfold check_entry; rewrite run_do; cbn [effect usual query fst snd]; unfold stat; rewrite Hf; cbn [metadata];
    rewrite exposed_or by done; reflexivity].
  rewrite Hname, Hstrip. cbn [ok_or mbind result_bind]. unfold validate_hex_32. rewrite Hh.
  erewrite (run_attempt _ _ d (r_event_json r) d); [|unfold read_bounded; rewrite run_do; cbn [effect usual query fst snd]; unfold read_file; rewrite Hf;
    rewrite prefix_all by (unfold str_len in *; lia); rewrite (proj2 (Z.ltb_ge _ _) Hl); reflexivity].
  unfold revocation_file. rewrite Hstrip. cbn [ok_or mbind result_bind]. unfold validate_hex_32. rewrite Hh. cbn [mbind result_bind].
  rewrite Hu. cbn [ok_or mbind result_bind]. rewrite (proj1 Hg). cbn [mbind result_bind]. by rewrite bool_decide_eq_true_2.
Qed.

Lemma run_load_revocations d l :
  Forall genuine l -> NoDup (r_event_id <$> l) -> holds true l (seen d) ->
  exists found, run load_revocations d = (d, Ok found) /\ forall r, r ∈ found <-> r ∈ l.
Proof.
  intros Hg Hnd ((m & Hm & Hx) & Hf & Hc). rewrite Forall_forall in Hg, Hf. unfold load_revocations.
  erewrite (run_attempt _ _ d (names REVOCATION_DIRECTORY (seen d)) d);
    [|rewrite run_do; cbn [effect usual query fst snd]; unfold read_dir; rewrite Hm; reflexivity].
  destruct (run_for_all load_revocation (fun name r => r ∈ l /\ name = revocation_name r) (names REVOCATION_DIRECTORY (seen d)) d)
    as (ys & Hys & Hall).
  { intros name (r & Hr & ->)%elem_of_names%(Hc eq_refl). exists r. split; [|done]. apply run_load_revocation; auto. }
  rewrite (run_attempt _ _ _ _ _ Hys). eexists. split; [reflexivity|]. intros r. rewrite sort_on_perm. split.
  - intros (i & Hi)%list_elem_of_lookup. destruct (Forall2_lookup_r _ _ _ _ _ Hall Hi) as (name & _ & Hr & _). done.
  - intros Hr. destruct (Hf r Hr) as (mr & Hmr & _).
    assert (Hin : revocation_name r ∈ names REVOCATION_DIRECTORY (seen d)) by (apply elem_of_names; by exists (Regular mr (r_event_json r) true)).
    apply list_elem_of_lookup in Hin as (i & Hi). destruct (Forall2_lookup_l _ _ _ _ _ Hall Hi) as (y & Hy & Hyl & Heq%revocation_name_inj).
    rewrite (same_revocation l r y) by done. by eapply list_elem_of_lookup_2.
Qed.

Lemma lasting_power_loss clean l d d' : lasting clean l d -> power_loss d d' -> holds clean l (seen d').
Proof.
  intros [((m & Hm & Hx) & Hf & Hc) ((m' & Hm' & Hx') & Hf' & Hc')] [_ Hp]. rewrite Forall_forall in Hf, Hf'. split; [|split].
  - specialize (Hp REVOCATION_DIRECTORY). unfold has_directory. destruct (seen d' !! REVOCATION_DIRECTORY) as [n|]; [|destruct Hp; congruence].
    destruct Hp as (x & [Hn|Hn] & Hs); simplify_eq; unfold settles in Hs; subst; [by exists m|by exists m'].
  - rewrite Forall_forall. intros r Hr. destruct (Hf r Hr) as (mr & Hmr & Hxr), (Hf' r Hr) as (mr' & Hmr' & Hxr').
    specialize (Hp (revocation_path r)). unfold filed. destruct (seen d' !! revocation_path r) as [n|]; [|destruct Hp; congruence].
    destruct Hp as (x & [Hn|Hn] & Hs); simplify_eq; unfold settles in Hs; subst; [by exists mr|by exists mr'].
  - intros Hcl name [n Hn]. specialize (Hp (REVOCATION_DIRECTORY ++ [name])). rewrite Hn in Hp.
    destruct Hp as (x & [Hs|Hs] & _); [apply (Hc Hcl)|apply (Hc' Hcl)]; by exists x.
Qed.

Definition private_directory (p : path) (t : tree) : Prop := exists mode, t !! p = Some (Directory mode) /\ exposed mode = false.

Lemma run_prepare p d : private_directory p (seen d) -> run (prepare_private_directory p) d = (d, Ok ()).
Proof.
  intros (m & Hm & Hx). unfold prepare_private_directory. rewrite run_do. cbn [effect usual fst snd]. unfold exists_at. rewrite Hm.
  unfold check_private. rewrite run_do. cbn [effect usual query fst snd]. unfold stat. rewrite Hm. cbn [metadata]. by rewrite Hx.
Qed.

(** C16: Revocations last. When [commit_revocations] reports success, a start after it, or
    after a power loss, knows every revocation that was known before or was committed;
    and wherever the commit is stopped, by the daemon or by a power loss, the files of
    all revocations that were on the disk before are still there whole. *)
Theorem commit_lasts st a d :
  sound_state st -> Forall genuine (attempt_revocations a) -> lasting true (written st) d ->
  (forall d1 d2 st', ends (commit_revocations st a) d d1 (st', Ok ()) -> d2 = d1 \/ power_loss d1 d2 ->
     private_directory CERTIFICATE_DIRECTORY (seen d2) ->
     exists l, run load d2 = (d2, Ok (MkAuthorizationState l ∅)) /\ (forall r, r ∈ l <-> r ∈ revocations st') /\
       forall r, r ∈ attempt_revocations a \/ knows st r -> r_event_id r ∈ (r_event_id <$> l)) /\
  (forall d1 d2, stops (commit_revocations st a) d d1 -> d2 = d1 \/ power_loss d1 d2 -> Forall (filed (seen d2)) (written st)).
Proof.
  intros Hs Ha Hd. destruct (install_all _ st Hs Ha) as (Hs' & Hw & Hk & Hold). set (st0 := foldl install st (attempt_revocations a)) in *.
  assert (Hd0 : lasting true (written st0) d) by (eapply lasting_ext; [|exact Hd]; intros r; symmetry; apply Hw).
  pose proof (wp_persist true (revocations st0) st0 d Hs' (fun r Hr => Hr) Hd0) as Hp. split.
  - intros d1 d2 st' He Hloss Hcert. destruct (wp_ends _ _ _ _ _ _ He Hp) as (Hrev & (Hg & Hnd & Hsub) & _ & _ & Hok).
    cbn [fst snd] in *. destruct (Hok eq_refl) as [Hlast Hnone].
    assert (Hall : holds true (revocations st') (seen d2)).
    { assert (Hl' : lasting true (revocations st') d1).
      { eapply lasting_ext; [|exact Hlast]. intros r. rewrite elem_of_written. split; [tauto|]. intros Hr. split; [done|]. apply Hnone. by rewrite <- Hrev. }
      destruct Hloss as [->|Hloss]; [apply Hl'|by eapply lasting_power_loss]. }
    destruct (run_load_revocations d2 (revocations st') Hg Hnd Hall) as (l & Hl & Hin). exists l. split; [|split; [done|]].
    + unfold load. rewrite (run_attempt _ _ _ _ _ (run_prepare _ _ (proj1 Hall))), (run_attempt _ _ _ _ _ (run_prepare _ _ Hcert)).
      rewrite (run_attempt _ _ _ _ _ Hl). done.
    + intros r Hr%Hk. unfold knows in Hr. rewrite <- Hrev in Hr. apply list_elem_of_fmap in Hr as (y & -> & Hy). by apply list_elem_of_fmap_2, Hin.
  - intros d1 d2 Hst Hloss. pose proof (wp_stops _ _ _ _ _ Hst Hp) as Hl.
    assert (Hl2 : holds false (written st0) (seen d2)) by (destruct Hloss as [->|Hloss]; [apply Hl|by eapply lasting_power_loss]).
    destruct Hl2 as (_ & Hf & _). rewrite Forall_forall in Hf |- *. intros r Hr. by apply Hf, Hw.
Qed.

(** *** A file that a stop leaves behind *)

(** A file in the directory that is no revocation. *)
Definition littered (d : disk) : Prop :=
  exists name, strip_suffix ".json" name = None /\ is_Some (seen d !! (REVOCATION_DIRECTORY ++ [name])).

Lemma temporary_no_suffix content nonce :
  strip_suffix ".json" ("." +:+ digest_hex content +:+ "." +:+ decimal nonce +:+ ".tmp") = None.
Proof.
  destruct (strip_suffix _ _) as [x|] eqn:Hx; [|done]. apply strip_suffix_Some in Hx.
  apply (f_equal (fun s => last (to_text s))) in Hx. rewrite !to_text_app, !last_app in Hx. cbn in Hx. discriminate Hx.
Qed.

(** A stop right after the new file was made. *)
Lemma write_litters name content d :
  is_directory (seen d !! REVOCATION_DIRECTORY) = true -> seen d !! temporary_for REVOCATION_DIRECTORY content 0 = None ->
  exists d1, stops (write_atomically REVOCATION_DIRECTORY name content) d d1 /\ littered d1.
Proof.
  intros Hd Hn. set (t := temporary_for REVOCATION_DIRECTORY content 0) in *.
  exists (MkDisk (<[t := Regular 384 EmptyString false]> (seen d)) (kept d)). split.
  - unfold write_atomically. apply (stops_later (Random 64) _ d 0). cbn [effect fst snd]. change (0 mod 2 ^ 64) with 0. cbv zeta. fold t.
    apply (stops_later (CreateNew t 384) _ d Works). cbn [effect fst snd].
    assert (Hc : create t (Regular 384 EmptyString false) (seen d) = Ok (<[t := Regular 384 EmptyString false]> (seen d))).
    { unfold create. rewrite Hn. change (parent t) with REVOCATION_DIRECTORY. by rewrite Hd. }
    rewrite (change_works _ _ _ _ Hc). cbn [fst snd]. apply stops_here.
  - eexists. split; [apply (temporary_no_suffix content 0)|]. cbn [seen]. unfold t, temporary_for. rewrite lookup_insert_eq. by eexists.
Qed.

Lemma persist_litters l st d :
  (exists r, r ∈ l /\ r_event_id r ∈ pending_revocations st) ->
  is_directory (seen d !! REVOCATION_DIRECTORY) = true ->
  (forall content, seen d !! temporary_for REVOCATION_DIRECTORY content 0 = None) ->
  exists d1, stops (persist l st) d d1 /\ littered d1.
Proof.
  intros (r & Hr & Hp) Hd Hn. induction l as [|x l IH]; [by apply elem_of_nil in Hr|]. cbn [persist]. case_bool_decide as Hx.
  - destruct (write_litters (revocation_name x) (r_event_json x) d Hd (Hn _)) as (d1 & Hs & Hl). exists d1. split; [|done].
    revert Hs. generalize (write_atomically REVOCATION_DIRECTORY (revocation_name x) (r_event_json x)). clear. intros p. revert d.
    induction p as [a|op k IH]; intros d; cbn; [intros [->|[]]; apply stops_here|]. intros [->|[c Hs]]; [by left|]. right. exists c. by apply IH.
  - apply IH. apply elem_of_cons in Hr as [->|Hr]; done.
Qed.

Lemma for_all_ends {X B E} (f : X -> program (result E B)) l d d' ys x :
  ends (for_all f l) d d' (Ok ys) -> x ∈ l -> exists d1 d2 y, ends (f x) d1 d2 (Ok y).
Proof.
  revert d d' ys. induction l as [|z l IH]; intros d d' ys He Hx; [by apply elem_of_nil in Hx|]. cbn [for_all] in He.
  apply ends_attempt in He as (d1 & y & Hy & He). apply ends_attempt in He as (d2 & zs & Hzs & _).
  apply elem_of_cons in Hx as [->|Hx]; [by exists d, d1, y|exact (IH d1 d2 zs Hzs Hx)].
Qed.

Lemma litter_not_loaded name d d' r : strip_suffix ".json" name = None -> ~ ends (load_revocation name) d d' (Ok r).
Proof.
  intros Hn He. unfold load_revocation in He. apply ends_attempt in He as (d1 & u & _ & He). rewrite Hn in He.
  destruct (ok_or _ _); cbn [ok_or mbind result_bind] in He; by destruct He.
Qed.

Lemma wp_prepare_keeps p q d :
  is_Some (seen d !! q) ->
  wp (fun d => is_Some (seen d !! q)) (fun _ d => is_Some (seen d !! q)) (prepare_private_directory p) d.
Proof.
  intros Hq. set (I := fun d : disk => is_Some (seen d !! q)).
  assert (Hret : forall T (x : T) d, I d -> wp I (fun _ d => I d) (Ret x) d) by (by intros; apply wp_ret).
  assert (Hcheck : forall d, I d -> wp I (fun _ d => I d) (check_private p) d) by (intros d0 Hi; unfold check_private; apply wp_stat; [done|]; intros r _; by apply Hret).
  assert (Hmake : forall T p (k : result IoError unit -> program T) d, I d -> (forall r d, I d -> wp I (fun _ d => I d) (k r) d) ->
    wp I (fun _ d => I d) (Do (MkDir p 448) k) d).
  { intros T p0 k d0 Hi Hk. apply wp_mkdir; [done| |auto]. intros Hnone _ d1.
    assert (I d1) by (destruct Hi as [n Hi]; exists n; cbn; rewrite lookup_insert_ne; [done|intros ->; congruence]). auto. }
  unfold prepare_private_directory. apply wp_exists; [done|]. intros []; [by apply Hcheck|].
  assert (Hdirs : wp I (fun _ d => I d) (make_directories p) d).
  { unfold make_directories. apply Hmake; [done|]. intros r d1 Hi. destruct r as [u|[]]; auto.
    apply Hmake; [done|]. intros r d2 Hi2. destruct r; auto. }
  apply wp_attempt. eapply wp_mono; [|exact Hdirs]. intros [u|e] d' _ Hi; [by apply Hcheck|exact Hi].
Qed.

Lemma load_blocked d d' st : littered d -> ~ ends load d d' (Ok st).
Proof.
  intros (name & Hn & Hf) He. unfold load in He.
  apply ends_attempt in He as (d1 & u1 & H1 & He). apply ends_attempt in He as (d2 & u2 & H2 & He). apply ends_attempt in He as (d3 & l & He & _).
  pose proof (wp_ends _ _ _ _ _ _ H1 (wp_prepare_keeps _ _ _ Hf)) as Hf1. pose proof (wp_ends _ _ _ _ _ _ H2 (wp_prepare_keeps _ _ _ Hf1)) as Hf2.
  cbn beta in Hf2. unfold load_revocations in He. apply ends_attempt in He as (d4 & ns & Hr & He). apply ends_attempt in He as (d5 & found & Hl & _).
  destruct Hr as (w & Hw). cbn [effect snd fst] in Hw. unfold query in Hw. destruct w; cbn [fst snd] in Hw; [|by destruct Hw].
  unfold read_dir in Hw. destruct (seen d2 !! REVOCATION_DIRECTORY) as [[]|]; cbn in Hw; destruct Hw as [-> [= ->]]; [].
  destruct (for_all_ends _ _ _ _ _ name Hl) as (a & b & r & Hbad); [by apply elem_of_names|]. by eapply litter_not_loaded.
Qed.

(** A stop of a commit in the instant after its new file was made blocks the
    authorization for good: the file is no revocation, and no start after that succeeds,
    as nothing removes it. *)
Theorem leftover_blocks_start st a d r :
  sound_state st -> Forall genuine (attempt_revocations a) -> lasting true (written st) d ->
  r ∈ attempt_revocations a -> ~ knows st r ->
  exists d1, stops (commit_revocations st a) d d1 /\ forall d2 st2, ~ ends load d1 d2 (Ok st2).
Proof.
  intros Hs Ha Hd Hr Hnew. destruct (install_all _ st Hs Ha) as (Hs' & Hw & Hk & Hold). set (st0 := foldl install st (attempt_revocations a)) in *.
  destruct (persist_litters (revocations st0) st0 d) as (d1 & Hst & Hl).
  - assert (Hknown : knows st0 r) by (apply Hk; by left). apply list_elem_of_fmap in Hknown as (y & Heq & Hy). exists y. split; [done|].
    apply dec_stable. intros Hn. apply Hnew. assert (Hwy : y ∈ written st) by (apply Hw, elem_of_written; done).
    apply elem_of_written in Hwy as [Hy' _]. unfold knows. rewrite Heq. by apply list_elem_of_fmap_2.
  - destruct Hd as [((m & -> & _) & _) _]. done.
  - intros content. destruct Hd as [(_ & _ & Hc) _]. destruct (seen d !! temporary_for REVOCATION_DIRECTORY content 0) as [n|] eqn:Hn; [|done].
    destruct (Hc eq_refl ("." +:+ digest_hex content +:+ "." +:+ decimal 0 +:+ ".tmp")) as (x & [Hx _]%elem_of_written & Heq); [by exists n|].
    destruct Hs as [Hg _]. rewrite Forall_forall in Hg. destruct (temporary_not_file REVOCATION_DIRECTORY content 0 x (Hg x Hx)).
    unfold temporary_for. by rewrite Heq.
  - exists d1. split; [done|]. intros d2 st2. by apply load_blocked.
Qed.
End durable.
