(* ===== verification/PeerRpc.v ===== *)
(** * Requests between devices (services/korrid/src/peer_rpc.rs)

    A request is a signed event with an encrypted envelope. Before it is dispatched it
    is verified and decrypted, its evidence is judged, its nonce is consumed, the
    revocations it carries are committed and the certificates that lost their reason
    are taken back. What a request does is a program over a world of files, memory and
    the streaming host; other requests may act between any two of its operations. *)

From S2P Require Import Prelude Text Decimal Programs Files Identity Authorization.

(** ** Messages *)

Definition PEER_RPC_VERSION : Z := 1.
Definition PEER_REQUEST_KIND : Z := 21100.
Definition PEER_RESPONSE_KIND : Z := 21101.
Definition CLOCK_WINDOW_SECONDS : Z := 120.
Definition TOKEN_BYTES : Z := 32.

Inductive PeerRpcError : Type :=
| Malformed
| IdentityMissing
| WrongKind
| Unauthorized
| Time
| Replay
| Binding
| StorageFailed
| Trust.

(** The status a caller sees. *)
Definition rpc_status (e : PeerRpcError) : Z :=
  match e with
  | Unauthorized => 403
  | Replay => 409
  | Time => 401
  | Trust | StorageFailed => 503
  | _ => 400
  end.

(** On the route for objects. *)
Definition object_status (e : PeerRpcError) : Z :=
  match e with Replay => 409 | Unauthorized => 403 | Time => 401 | _ => 400 end.

(** What handlers are given and what they answer; only the answers to a certificate
    request are looked at: whether they are [Ok]. *)
Class Payloads := { Payload : Type; Outcome : Type }.

Section envelopes.
Context `{PL : !Payloads}.

Inductive RpcResponse : Type :=
| ProvisionResponse (outcome : result Outcome Outcome)
| RevokeResponse (outcome : result Outcome Outcome)
| OtherResponse (outcome : Outcome).

Record PeerRequestEnvelope := MkPeerRequestEnvelope {
  version : Z;
  recipient : string;
  request_id : string;
  nonce : string;
  owner_statement : option string;
  person_pass : option string;
  carried : list string;
  request : RpcRequest Payload;
}.

Record PeerResponseEnvelope := MkPeerResponseEnvelope {
  answer_version : Z;
  answer_recipient : string;
  answer_request_id : string;
  answer_event_id : string;
  answer_nonce : string;
  response : RpcResponse;
}.

End envelopes.

(** JSON of the envelopes. *)
Class Envelopes `{Payloads} := {
  request_json : PeerRequestEnvelope -> option string;
  request_parse : string -> option PeerRequestEnvelope;
  response_json : PeerResponseEnvelope -> option string;
  response_parse : string -> option PeerResponseEnvelope;
}.

Record EncodedPeerRequest := MkEncodedPeerRequest {
  enc_event_json : string;
  enc_event_id : string;
  enc_request_id : string;
  enc_nonce : string;
  enc_recipient : string;
}.

Definition validate_token (token : string) : result PeerRpcError unit :=
  if (str_len token =? TOKEN_BYTES * 2) && all_chars is_lower_hex token then Ok () else Err Malformed.

Definition check_time (created_at now : Z) : result PeerRpcError unit :=
  if CLOCK_WINDOW_SECONDS <? Z.abs (created_at - now) then Err Time else Ok ().

Definition has_exact_recipient (tags : list (list string)) (expected : string) : bool :=
  bool_decide (tags = [["p"; expected]]).

Definition is_object_request {P} (r : RpcRequest P) : bool :=
  match r with SaveObject _ | ReleaseObject _ => true | _ => false end.

Definition provisioned_certificate {P} (r : RpcRequest P) : option (string * string) :=
  match r with MoonlightCertificateProvision host certificate => Some (host, certificate) | _ => None end.

Definition revoked_certificate {P} (r : RpcRequest P) : bool :=
  match r with MoonlightCertificateRevoke _ _ => true | _ => false end.

Section messages.
Context `{NO : !Nostr, PL : !Payloads, EN : !Envelopes}.

(** [encode_request]: the nonce, the name and the randomness of the encryption are drawn. *)
Definition encode_request (identity : DeviceIdentity) (pass : option string) (revocations : list string) (to : string)
    (r : RpcRequest Payload) (now : Z) (request_id nonce : string) (random : Z * Z) : result PeerRpcError EncodedPeerRequest :=
  _ ← validate_token request_id;
  _ ← validate_token nonce;
  match state identity with
  | Owned _ _ _ _ =>
      let envelope := MkPeerRequestEnvelope PEER_RPC_VERSION to request_id nonce (owner_statement_json identity) pass revocations r in
      plaintext ← ok_or (request_json envelope) Malformed;
      event ← map_err (fun _ => IdentityMissing) (encrypt_event identity to PEER_REQUEST_KIND plaintext now random);
      Ok (MkEncodedPeerRequest (s_json event) (s_id event) request_id nonce to)
  | _ => Err IdentityMissing
  end.

Definition decode_response (identity : DeviceIdentity) (expected_peer : string) (sent : EncodedPeerRequest) (json : string) (now : Z)
    : result PeerRpcError RpcResponse :=
  verified ← map_err (fun _ => Malformed) (verify_encrypted_event json);
  if negb (v_kind verified =? PEER_RESPONSE_KIND) || negb (bool_decide (author verified = expected_peer)) then Err WrongKind
  else
    _ ← check_time (v_created_at verified) now;
    own_key ← ok_or (device_public_key identity) IdentityMissing;
    if negb (has_exact_recipient (v_tags verified) own_key) then Err Binding
    else
      plaintext ← map_err (fun _ => Malformed) (decrypt_event identity json);
      answer ← ok_or (response_parse plaintext) Malformed;
      if (answer_version answer =? PEER_RPC_VERSION) && bool_decide (answer_recipient answer = own_key)
         && bool_decide (answer_request_id answer = enc_request_id sent) && bool_decide (answer_event_id answer = enc_event_id sent)
         && bool_decide (answer_nonce answer = enc_nonce sent)
      then Ok (response answer)
      else Err Binding.

(** [reload_identity]: what was loaded takes the place of what is there only when it is
    the same device and no older statement. *)
Definition may_replace (current next : DeviceIdentity) : result PeerRpcError unit :=
  if negb (bool_decide (device_public_key next = device_public_key current)) || is_none (device_public_key next) then Err IdentityMissing
  else match owner_statement_json current with
  | None => Ok ()
  | Some previous =>
      previous ← map_err (fun _ => IdentityMissing) (derive_owner_statement previous);
      statement ← ok_or (owner_statement_json next) IdentityMissing;
      statement ← map_err (fun _ => IdentityMissing) (derive_owner_statement statement);
      if negb (bool_decide (statement = previous))
         && (bool_decide (o_status previous = StatementRevoked) || negb (is_newer_than statement previous))
      then Err IdentityMissing else Ok ()
  end.
End messages.

(** ** The server *)

#[local] Instance no_services : Services := {|
  Call := Empty_set;
  Answer := fun c => match c with end;
  usual_answer := fun c => match c with end;
  usual_random := 0
|}.

Definition REPLAY_DIRECTORY : path := ["identity"; "security-replay"].

Section server.
Context `{NO : !Nostr, GC : !GrantCodec, PL : !Payloads, EN : !Envelopes}.

(** [seen_nonces] is the memory of the [ReplayGuard]; [trusted] are the hosts and
    certificates the streaming host accepts, which the program does not see. *)
Record world := MkWorld {
  files : disk;
  identity : DeviceIdentity;
  auth : AuthorizationState;
  seen_nonces : gmap (string * string) Z;
  trusted : gset (string * string);
}.

(** An operation on the disk, one under a lock, or a call to a handler. *)
Inductive Op : Type :=
| OnDisk (op : Files.Op)
| TheIdentity
| SetIdentity (i : DeviceIdentity)
| Known
| Install (l : list Revocation)
| IsPending (id : string)
| Persisted (id : string)
| ForgetRevocations
| Seen (sender nonce : string) (created_at now : Z)
| Handle (context : AuthorizationContext) (r : RpcRequest Payload)
| Clock
| Draw.

Definition Reply (op : Op) : Type :=
  match op with
  | OnDisk op => Files.Reply op
  | TheIdentity => DeviceIdentity
  | Known | Install _ => list Revocation
  | IsPending _ | Seen _ _ _ _ => bool
  | SetIdentity _ | Persisted _ | ForgetRevocations => unit
  | Handle _ _ => option RpcResponse
  | Clock => Z
  | Draw => Z * Z
  end.

(** A handler answers as it likes; what it failed to do to a certificate may have
    happened. *)
Definition Choice (op : Op) : Type :=
  match op with
  | OnDisk op => Files.Choice op
  | Handle _ _ => option RpcResponse * bool
  | Clock => Z
  | Draw => Z * Z
  | _ => unit
  end.

Definition with_files (d : disk) (w : world) : world := MkWorld d (identity w) (auth w) (seen_nonces w) (trusted w).
Definition with_auth (a : AuthorizationState) (w : world) : world := MkWorld (files w) (identity w) a (seen_nonces w) (trusted w).
Definition with_seen (s : gmap (string * string) Z) (w : world) : world := MkWorld (files w) (identity w) (auth w) s (trusted w).
Definition with_identity (i : DeviceIdentity) (w : world) : world := MkWorld (files w) i (auth w) (seen_nonces w) (trusted w).
Definition with_trusted (t : gset (string * string)) (w : world) : world := MkWorld (files w) (identity w) (auth w) (seen_nonces w) t.

Definition forget_old (now : Z) (seen : gmap (string * string) Z) : gmap (string * string) Z :=
  filter (fun kv => saturating_sub now kv.2 <= CLOCK_WINDOW_SECONDS) seen.

(** What a call about a certificate does at the streaming host. *)
Definition certify (r : RpcRequest Payload) (answer : option RpcResponse) (despite : bool) (t : gset (string * string))
    : gset (string * string) :=
  match r, answer with
  | MoonlightCertificateProvision host certificate, Some (ProvisionResponse (Ok _)) => {[(host, certificate)]} ∪ t
  | MoonlightCertificateProvision host certificate, _ => if despite then {[(host, certificate)]} ∪ t else t
  | MoonlightCertificateRevoke host certificate, Some (RevokeResponse (Ok _)) => t ∖ {[(host, certificate)]}
  | MoonlightCertificateRevoke host certificate, _ => if despite then t ∖ {[(host, certificate)]} else t
  | _, _ => t
  end.

Definition effect (op : Op) : Choice op -> world -> world * Reply op :=
  match op return Choice op -> world -> world * Reply op with
  | OnDisk op => fun c w => let '(d, r) := Files.effect op c (files w) in (with_files d w, r)
  | TheIdentity => fun _ w => (w, identity w)
  | SetIdentity i => fun _ w => (with_identity i w, tt)
  | Known => fun _ w => (w, revocations (auth w))
  | Install l => fun _ w => let st := foldl install (auth w) l in (with_auth st w, revocations st)
  | IsPending id => fun _ w => (w, bool_decide (id ∈ pending_revocations (auth w)))
  | Persisted id => fun _ w => (with_auth (persisted (auth w) id) w, tt)
  | ForgetRevocations => fun _ w => (with_auth (MkAuthorizationState [] ∅) w, tt)
  | Seen sender nonce created_at now => fun _ w =>
      let recent := forget_old now (seen_nonces w) in
      (with_seen (<[(sender, nonce) := created_at]> recent) w, is_none (recent !! (sender, nonce)))
  | Handle context r => fun c w => (with_trusted (certify r c.1 c.2 (trusted w)) w, c.1)
  | Clock => fun c w => (w, c)
  | Draw => fun c w => (w, c)
  end.

(** *** Programs *)

Notation program A := (prog Op Reply A).

Definition call (op : Op) : program (Reply op) := Do op Ret.

Fixpoint lift {A} (p : prog Files.Op Files.Reply A) : program A :=
  match p with
  | Ret a => Ret a
  | Do op k => Do (OnDisk op) (fun r => lift (k r))
  end.

Definition on_storage {A} (p : prog Files.Op Files.Reply (result AuthorizationError A)) : program (result PeerRpcError A) :=
  bind (lift p) (fun r => Ret (map_err (fun _ => StorageFailed) r)).

(** [dispatch], up to the handlers. *)
Definition dispatch (context : AuthorizationContext) (r : RpcRequest Payload) : program (option RpcResponse) :=
  if negb (authorize context r) || is_object_request r then Ret None else call (Handle context r).

Definition replay_path (sender nonce : string) : path := REPLAY_DIRECTORY ++ [digest_hex (sender +:+ ":" +:+ nonce)].

Definition mark_replay (sender nonce : string) : program (result PeerRpcError unit) :=
  Do (OnDisk (CreateNew (replay_path sender nonce) 384)) (fun r =>
    Ret (match r with Ok _ => Ok () | Err AlreadyExists => Err Replay | Err _ => Err StorageFailed end)).

(** [ReplayGuard::consume]. *)
Definition consume (sender nonce : string) (created_at now : Z) (persist : bool) : program (result PeerRpcError unit) :=
  step! _ <- (if persist then mark_replay sender nonce else Ret (Ok ())) ;;
  bind (call (Seen sender nonce created_at now)) (fun fresh => Ret (if (fresh : bool) then Ok () else Err Replay)).

Fixpoint persist_each (l : list Revocation) : program (result PeerRpcError unit) :=
  match l with
  | [] => Ret (Ok ())
  | r :: l =>
      bind (call (IsPending (r_event_id r))) (fun pending =>
      if (pending : bool) then
        step! _ <- on_storage (write_atomically REVOCATION_DIRECTORY (revocation_name r) (r_event_json r)) ;;
        bind (call (Persisted (r_event_id r))) (fun _ => persist_each l)
      else persist_each l)
  end.

(** [commit_revocations] over the shared state. *)
Definition commit (a : AuthorizationAttempt) : program (result PeerRpcError unit) :=
  bind (call (Install (attempt_revocations a))) persist_each.

Fixpoint retire (l : list CertificateRevocation) : program (result PeerRpcError unit) :=
  match l with
  | [] => Ret (Ok ())
  | r :: l =>
      bind (dispatch TrustReconciliation (MoonlightCertificateRevoke (revoked_host r) (revoked_client r))) (fun answer =>
      match answer with
      | Some (RevokeResponse (Ok _)) =>
          step! _ <- on_storage (complete_certificate_revocation (revoked_device r)) ;; retire l
      | _ => Ret (Err Trust)
      end)
  end.

Definition reconcile_certificate_trust (local : IdentityState) (now : Z) : program (result PeerRpcError unit) :=
  bind (call Known) (fun known =>
  step! plan <- on_storage (certificate_revocations (MkAuthorizationState known ∅) local now) ;; retire plan).

Record AuthenticatedPeerRequest := MkAuthenticated {
  envelope : PeerRequestEnvelope;
  sender : string;
  event_id : string;
  context : AuthorizationContext;
}.

(** What can be checked of an event by this device before its evidence. *)
Definition open_request (i : DeviceIdentity) (json : string) (now : Z) : result PeerRpcError (VerifiedEvent * PeerRequestEnvelope) :=
  verified ← map_err (fun _ => Malformed) (verify_encrypted_event json);
  if negb (v_kind verified =? PEER_REQUEST_KIND) then Err WrongKind
  else
    _ ← check_time (v_created_at verified) now;
    local_key ← ok_or (device_public_key i) IdentityMissing;
    if negb (has_exact_recipient (v_tags verified) local_key) then Err Binding
    else
      plaintext ← map_err (fun _ => Malformed) (decrypt_event i json);
      e ← ok_or (request_parse plaintext) Malformed;
      if negb (version e =? PEER_RPC_VERSION) || negb (bool_decide (recipient e = local_key)) then Err Binding
      else
        _ ← validate_token (request_id e);
        _ ← validate_token (nonce e);
        Ok (verified, e).

(** The evidence is judged and the request allowed on this route. *)
Definition judge (known : list Revocation) (i : DeviceIdentity) (v : VerifiedEvent) (e : PeerRequestEnvelope) (now : Z) (object_route : bool)
    : result PeerRpcError AuthorizationAttempt :=
  a ← map_err (fun _ => Malformed)
        (Authorization.attempt (MkAuthorizationState known ∅) (state i) (author v) (owner_statement e) (person_pass e) (carried e) now);
  if negb (Bool.eqb (is_object_request (request e)) object_route) then Err WrongKind
  else if negb (authorize (attempt_context a) (request e)) then Err Unauthorized
  else Ok a.

Definition authenticate (json : string) (now : Z) (object_route : bool) : program (result PeerRpcError AuthenticatedPeerRequest) :=
  bind (call TheIdentity) (fun i =>
  match open_request i json now with
  | Err x => Ret (Err x)
  | Ok (v, e) =>
      bind (call Known) (fun known =>
      match judge known i v e now object_route with
      | Err x => Ret (Err x)
      | Ok a =>
          step! _ <- consume (author v) (nonce e) (v_created_at v) now (is_security_mutation (request e)) ;;
          step! _ <- commit a ;;
          step! _ <- reconcile_certificate_trust (state i) now ;;
          Ret (Ok (MkAuthenticated e (author v) (v_id v) (attempt_context a)))
      end)
  end).

(** What an answered certificate request leaves on record. *)
Definition record_provision (c : AuthorizationContext) (r : RpcRequest Payload) (answer : RpcResponse) : program (result PeerRpcError unit) :=
  match provisioned_certificate r, answer, c with
  | Some (host, certificate), ProvisionResponse (Ok _), Peer p => on_storage (record_certificate p host certificate)
  | _, _, _ => Ret (Ok ())
  end.

Definition forget_revoked (from : string) (r : RpcRequest Payload) (answer : RpcResponse) : program (result PeerRpcError unit) :=
  match revoked_certificate r, answer with
  | true, RevokeResponse (Ok _) => on_storage (complete_certificate_revocation from)
  | _, _ => Ret (Ok ())
  end.

Definition seal_response (a : AuthenticatedPeerRequest) (answer : RpcResponse) : program (result PeerRpcError string) :=
  let e := envelope a in
  match response_json (MkPeerResponseEnvelope PEER_RPC_VERSION (sender a) (request_id e) (event_id a) (nonce e) answer) with
  | None => Ret (Err Malformed)
  | Some plaintext =>
      bind (call TheIdentity) (fun i => bind (call Clock) (fun now => bind (call Draw) (fun random =>
        Ret (event ← map_err (fun _ => IdentityMissing) (encrypt_event i (sender a) PEER_RESPONSE_KIND plaintext now random);
             Ok (s_json event)))))
  end.

Definition handle (json : string) (now : Z) : program (result PeerRpcError string) :=
  step! a <- authenticate json now false ;;
  bind (dispatch (context a) (request (envelope a))) (fun answer =>
  match answer with
  | None => Ret (Err Unauthorized)
  | Some answer =>
      step! _ <- record_provision (context a) (request (envelope a)) answer ;;
      step! _ <- forget_revoked (sender a) (request (envelope a)) answer ;;
      seal_response a answer
  end).

(** The bytes of a request and the status and body of its answer. *)
Definition peer_rpc (body : string) : program (Z * string) :=
  match to_str body with
  | None => Ret (400, EmptyString)
  | Some json =>
      bind (call Clock) (fun now => bind (handle json now) (fun r =>
        Ret (match r with Ok answer => (200, answer) | Err e => (rpc_status e, EmptyString) end)))
  end.

Definition reload_identity : program (result PeerRpcError unit) :=
  bind (call TheIdentity) (fun current =>
  bind (lift load_or_create) (fun loaded =>
  match loaded with
  | Err _ => Ret (Err IdentityMissing)
  | Ok next =>
      match may_replace current next with
      | Err e => Ret (Err e)
      | Ok _ => bind (call (SetIdentity next)) (fun _ => Ret (Ok ()))
      end
  end)).

(** [Authorization::reset_after_identity_switch], which a switch of the identity calls
    on the running daemon: it answers under the old identity until it restarts. *)
Definition reset_authorization : program (result PeerRpcError unit) :=
  step! _ <- on_storage (clear_private_directory REVOCATION_DIRECTORY) ;;
  step! _ <- on_storage (clear_private_directory CERTIFICATE_DIRECTORY) ;;
  bind (call ForgetRevocations) (fun _ => Ret (Ok ())).

(** ** Other requests *)

(** Whatever other tasks do, of a kind [P], between two operations. *)
Section others.
Context (P : Op -> Prop).

Definition Other : Type := { x : { op : Op & Choice op } | P (projT1 x) }.

Definition others_go (l : list Other) (w : world) : world :=
  foldl (fun w x => (effect (projT1 (proj1_sig x)) (projT2 (proj1_sig x)) w).1) w l.

Definition SharedChoice (op : Op) : Type := list Other * Choice op.

Definition shared (op : Op) (c : SharedChoice op) (w : world) : world * Reply op := effect op c.2 (others_go c.1 w).
End others.
End server.

(** ** What the parts of a request ask for *)

Section plain.
Context `{NO : !Nostr, GC : !GrantCodec, PL : !Payloads, EN : !Envelopes}.

(** Operations that neither consume, nor take another identity, nor forget a revocation. *)
Definition plain (op : Op) : Prop := match op with Seen _ _ _ _ | SetIdentity _ | ForgetRevocations => False | _ => True end.

Lemma lift_plain {A} (p : prog Files.Op Files.Reply A) : asks plain (lift p).
Proof. induction p as [a|op k IH]; cbn; [done|]. by split. Qed.

Lemma storage_plain {A} (p : prog Files.Op Files.Reply (result AuthorizationError A)) : asks plain (on_storage p).
Proof. apply asks_bind; [apply lift_plain|by intros]. Qed.

Lemma persist_plain l : asks plain (persist_each l).
Proof.
  induction l as [|r l IH]; [done|]. cbn [persist_each]. apply asks_bind; [done|]. intros [|]; [|done].
  apply asks_attempt; [apply storage_plain|]. intros _. by apply asks_bind.
Qed.

Lemma commit_plain a : asks plain (commit a).
Proof. apply asks_bind; [done|]. intros l. apply persist_plain. Qed.

Lemma dispatch_plain c r : asks plain (dispatch c r).
Proof. unfold dispatch. by destruct (_ || _). Qed.

Lemma retire_plain l : asks plain (retire l).
Proof.
  induction l as [|r l IH]; [done|]. cbn [retire]. apply asks_bind; [apply dispatch_plain|]. intros [[|[]|]|]; try done.
  apply asks_attempt; [apply storage_plain|done].
Qed.

Lemma reconcile_plain i now : asks plain (reconcile_certificate_trust i now).
Proof.
  apply asks_bind; [done|]. intros known. apply asks_attempt; [apply storage_plain|]. intros l. apply retire_plain.
Qed.

Lemma mark_plain s n : asks plain (mark_replay s n).
Proof. by split. Qed.
End plain.

(** ** What an authenticated request is *)

(** The scope of a pass covers a policy. *)
Definition covers (scope : Scope) (policy : PeerPolicy) : Prop := policy = ExplicitScope scope \/ policy = CatalogOrStreamScope.

(** What a principal may ask of another device. *)
Definition may_ask {P} (p : Principal) (r : RpcRequest P) : Prop :=
  match p with
  | OwnerDevice _ _ _ => policy_for r <> LocalOnly /\ policy_for r <> LocalPortalOnly
  | Household _ _ pass | Guest _ _ pass => exists scope, scope ∈ scopes pass /\ covers scope (policy_for r)
  | Unknown _ => False
  end.

Lemma by_scope_covers p pass policy :
  (forall s, has_scope p s = true <-> s ∈ scopes pass) ->
  by_scope p policy = true <-> exists scope, scope ∈ scopes pass /\ covers scope policy.
Proof.
  intros Hs. unfold covers. destruct policy as [| | | |s|]; cbn [by_scope]; (split; [try done|intros (x & Hx & [Heq|Heq]); try done]).
  - intros Hh%Hs. exists s. tauto.
  - apply Hs. by injection Heq as ->.
  - intros [Hh%Hs|Hh%Hs]%orb_prop; eauto.
  - apply Hs in Hx. apply orb_true_iff. destruct x; tauto.
Qed.

Lemma authorize_peer {P} p (r : RpcRequest P) : authorize (Peer p) r = true <-> may_ask p r.
Proof.
  destruct p as [device s o|device s pass|device s pass|device]; cbn [authorize may_ask].
  - destruct (policy_for r); split; try done; intros [? ?]; done.
  - apply by_scope_covers. intros x. cbn. by rewrite bool_decide_eq_true.
  - apply by_scope_covers. intros x. cbn. by rewrite bool_decide_eq_true.
  - done.
Qed.

Section soundness.
Context `{NO : !Nostr, GC : !GrantCodec, PL : !Payloads, EN : !Envelopes} (P : Op -> Prop).

Notation ends := (Programs.ends (Reply:=Reply) (Choice:=SharedChoice P) (shared P)).
Notation stops := (Programs.stops (Reply:=Reply) (Choice:=SharedChoice P) (shared P)).
Notation others := (others_go P).

Lemma call_ends op w w' r : ends (call op) w w' r -> exists l c, (w', r) = effect op c (others l w).
Proof. intros ([l c] & -> & ->). exists l, c. unfold shared. cbn [fst snd]. by destruct (effect op c (others l w)). Qed.

(** *** Revocations are not forgotten but by a switch of the identity *)

Definition more_known (w w' : world) : Prop := forall r, r ∈ revocations (auth w) -> r ∈ revocations (auth w').

#[local] Instance more_known_refl : Reflexive more_known.
Proof. by intros w r. Qed.
#[local] Instance more_known_trans : Transitive more_known.
Proof. intros a b c Hab Hbc r Hr. by apply Hbc, Hab. Qed.

Lemma install_known l st r : r ∈ revocations st -> r ∈ revocations (foldl install st l).
Proof.
  revert st. induction l as [|x l IH]; intros st Hr; cbn [foldl]; [done|]. apply IH. unfold install. destruct (existsb _ _); [done|].
  cbn [revocations]. apply elem_of_app. by left.
Qed.

Lemma effect_known op c w : op <> ForgetRevocations -> more_known w (effect op c w).1.
Proof.
  intros Hop r Hr. destruct op; cbn [effect fst]; try done; [by destruct (Files.effect _ _ _)|]. by apply install_known.
Qed.

Section kept.
Context (P_keeps : ~ P ForgetRevocations).

Lemma others_known l w : more_known w (others l w).
Proof.
  unfold others_go. revert w. induction l as [|[[op c] Hop] l IH]; intros w; cbn [foldl proj1_sig projT1 projT2]; [done|].
  etrans; [apply effect_known; intros Hx; rewrite Hx in Hop; done|apply IH].
Qed.

Lemma ends_known {A} (p : prog Op Reply A) w w' a : asks plain p -> ends p w w' a -> more_known w w'.
Proof.
  apply (ends_related more_known plain). intros op c x Hp. unfold shared.
  etrans; [apply (others_known c.1)|apply effect_known]. by intros ->.
Qed.
End kept.

(** *** What was checked *)

Lemma map_err_ok {E F A} (f : E -> F) (r : result E A) a : map_err f r = Ok a -> r = Ok a.
Proof. by destruct r; [intros [= ->]|]. Qed.

Lemma ok_or_ok {E A} (o : option A) (e : E) a : ok_or o e = Ok a -> o = Some a.
Proof. by destruct o; [intros [= ->]|]. Qed.

Lemma check_time_ok t now u : check_time t now = Ok u -> Z.abs (t - now) <= CLOCK_WINDOW_SECONDS.
Proof. unfold check_time. destruct (Z.ltb_spec CLOCK_WINDOW_SECONDS (Z.abs (t - now))); done. Qed.

(** The event is signed by its author, for this device and recent. *)
Definition opened (i : DeviceIdentity) (json : string) (now : Z) (e : Event) (env : PeerRequestEnvelope) : Prop :=
  exists own plaintext,
    from_json json = Some e /\ verify e = true /\ ev_kind e = PEER_REQUEST_KIND /\ Z.abs (ev_created_at e - now) <= CLOCK_WINDOW_SECONDS /\
    device_public_key i = Some own /\ ev_tags e = [["p"; own]] /\
    decrypt_event i json = Ok plaintext /\ request_parse plaintext = Some env /\ version env = PEER_RPC_VERSION /\ recipient env = own.

Lemma open_request_ok i json now v env :
  open_request i json now = Ok (v, env) -> exists e, v = verified_event e /\ opened i json now e env.
Proof.
  unfold open_request. intros (v0 & Hv%map_err_ok & Hr)%bind_ok. unfold verify_encrypted_event, verify_event_bounded in Hv.
  destruct (_ <? str_len json); [done|]. destruct (from_json json) as [e|] eqn:Hj; [|done]. destruct (verify e) eqn:Hver; [|done].
  injection Hv as <-. cbn [v_kind v_created_at v_tags verified_event] in Hr.
  destruct (ev_kind e =? PEER_REQUEST_KIND) eqn:Hk; [|done]. apply Z.eqb_eq in Hk. cbn [negb] in Hr.
  apply bind_ok in Hr as (u & Ht%check_time_ok & Hr). apply bind_ok in Hr as (own & Hown%ok_or_ok & Hr).
  unfold has_exact_recipient in Hr. case_bool_decide as Htags; [|done]. cbn [negb] in Hr.
  apply bind_ok in Hr as (plaintext & Hd%map_err_ok & Hr). apply bind_ok in Hr as (e' & He%ok_or_ok & Hr).
  destruct (version e' =? PEER_RPC_VERSION) eqn:Hvs; [|done]. apply Z.eqb_eq in Hvs. case_bool_decide as Hrec; [|done]. cbn [negb orb] in Hr.
  apply bind_ok in Hr as (u1 & _ & Hr). apply bind_ok in Hr as (u2 & _ & Hr). injection Hr as <- <-.
  exists e. split; [done|]. by exists own, plaintext.
Qed.

Lemma parsed_events events l : mapM parse_revocation events = Ok l -> Forall (fun r => parse_revocation (r_event_json r) = Ok r) l.
Proof.
  revert l. induction events as [|json events IH]; intros l Hl; [injection Hl as <-; constructor|]. cbn in Hl.
  apply bind_ok in Hl as (y & Hy & (ys & Hys & [= <-])%bind_ok). constructor; [|by apply IH].
  pose proof Hy as (e & _ & _ & _ & _ & Hjs & _)%parse_revocation_inv. by rewrite Hjs.
Qed.

Lemma judge_ok known i v env now route a :
  judge known i v env now route = Ok a ->
  exists p, attempt_context a = Peer p /\ principal_device p = author v /\ is_object_request (request env) = route /\
    entitled (state i) (owner_statement env) (person_pass env) now (known ++ attempt_revocations a) p /\ may_ask p (request env) /\
    Forall (fun r => parse_revocation (r_event_json r) = Ok r) (attempt_revocations a).
Proof.
  unfold judge. intros (a0 & Ha%map_err_ok & Hr)%bind_ok. unfold Authorization.attempt in Ha. apply bind_ok in Ha as (l & Hl & [= <-]).
  cbn [attempt_context revocations] in Hr. destruct (Bool.eqb _ _) eqn:Hroute; [|done]. apply Bool.eqb_prop in Hroute. cbn [negb] in Hr.
  set (p := principal_for _ _ _ _ _ _) in *. destruct (authorize (Peer p) _) eqn:Hau; [|done]. injection Hr as <-. cbn [attempt_context attempt_revocations].
  apply authorize_peer in Hau. exists p. split; [done|].
  destruct (proj1 (principal_spec (state i) (author v) (owner_statement env) (person_pass env) now (known ++ l) p
    ltac:(intros d Hd; by rewrite Hd in Hau)) eq_refl) as [Hd Hent].
  do 4 (split; [done|]). by eapply parsed_events.
Qed.

Lemma authenticate_ends json now route w w' got :
  ends (authenticate json now route) w w' (Ok got) ->
  exists i l l' e env known w1 w2 w3 a,
    i = identity (others l w) /\ w1 = others l' (others l w) /\ known = revocations (auth w1) /\
    opened i json now e env /\ judge known i (verified_event e) env now route = Ok a /\
    ends (consume (ev_pubkey e) (nonce env) (ev_created_at e) now (is_security_mutation (request env))) w1 w2 (Ok ()) /\
    ends (commit a) w2 w3 (Ok ()) /\ ends (reconcile_certificate_trust (state i) now) w3 w' (Ok ()) /\
    got = MkAuthenticated env (ev_pubkey e) (ev_id e) (attempt_context a).
Proof.
  intros (w0 & i & (l0 & c0 & Hi)%call_ends & He)%ends_bind. cbn [effect] in Hi. injection Hi as -> ->.
  destruct (open_request _ _ _) as [[v env]|x] eqn:Ho; [|by destruct He]. apply open_request_ok in Ho as (e & -> & Hop).
  apply ends_bind in He as (w1 & known & (l1 & c1 & Hk)%call_ends & He). cbn [effect] in Hk. injection Hk as -> ->.
  destruct (judge _ _ _ _ _ _) as [a|x] eqn:Hj; [|by destruct He].
  apply ends_attempt in He as (w2 & [] & Hcons & He). apply ends_attempt in He as (w3 & [] & Hcom & He).
  apply ends_attempt in He as (w4 & [] & Hrec & [-> [= ->]]).
  exists (identity (others l0 w)), l0, l1, e, env, (revocations (auth (others l1 (others l0 w)))), (others l1 (others l0 w)), w2, w3, a.
  by repeat (split; [done|]).
Qed.

(** C11: A request that is authenticated was signed by its sender, is meant for this device
    and no more than two minutes from its clock; its sender is a device of the owner or
    holds a pass of the owner that is in force, as the evidence in it proves against every
    revocation known when it is judged, among them every one that was known when it came
    unless the identity is switched meanwhile; and what it asks is what such a sender may
    ask: never anything for local surfaces, and for the holder of a pass only what a scope
    of the pass covers. Whatever other requests do meanwhile. *)
Theorem authenticate_sound json now route w w' got :
  ends (authenticate json now route) w w' (Ok got) ->
  exists l l' e p known,
    let i := identity (others l w) in
    opened i json now e (envelope got) /\ sender got = ev_pubkey e /\ event_id got = ev_id e /\
    is_object_request (request (envelope got)) = route /\
    context got = Peer p /\ principal_device p = ev_pubkey e /\
    (forall r, r ∈ revocations (auth (others l' (others l w))) -> r ∈ known) /\
    (~ P ForgetRevocations -> forall r, r ∈ revocations (auth w) -> r ∈ known) /\
    entitled (state i) (owner_statement (envelope got)) (person_pass (envelope got)) now known p /\
    may_ask p (request (envelope got)).
Proof.
  intros (i & l & l' & e & env & known & w1 & w2 & w3 & a & -> & -> & -> & Ho & Hj & _ & _ & _ & ->)%authenticate_ends.
  apply judge_ok in Hj as (p & Hc & Hd & Hr & Hent & Hm & _).
  exists l, l', e, p, (revocations (auth (others l' (others l w))) ++ attempt_revocations a).
  cbn [envelope sender event_id context]. repeat (split; [done|]). split; [|split; [|done]]; intros.
  - apply elem_of_app. by left.
  - apply elem_of_app. left. by do 2 (apply others_known; [done|]).
Qed.
End soundness.

(** ** Revocations deny at once *)

Definition signed `{!Nostr} (r : Revocation) : Prop := parse_revocation (r_event_json r) = Ok r.

(** The owner's statement for the sender, or the pass it holds, that a principal rests on. *)
Definition holds_pass (p : Principal) : Prop := match p with Household _ _ _ | Guest _ _ _ => True | _ => False end.

Section denial.
Context `{NO : !Nostr, NL : !NostrLaws, GC : !GrantCodec, PL : !Payloads, EN : !Envelopes} (P : Op -> Prop).

Notation ends := (Programs.ends (Reply:=Reply) (Choice:=SharedChoice P) (shared P)).
Notation others := (others_go P).

(** Two signed events of one name say the same. *)
Lemma signed_same r r' : signed r -> signed r' -> r_event_id r = r_event_id r' -> r_author r = r_author r' /\ r_target r = r_target r'.
Proof.
  intros (e & _ & _ & Hv & Hid & _ & Ha & Ht)%parse_revocation_inv (e' & _ & _ & Hv' & Hid' & _ & Ha' & Ht')%parse_revocation_inv Heq.
  rewrite Hid, Hid' in Heq. destruct (id_names e e' Hv Hv' Heq) as (Hp & Hc & Hk & Htags & Hcont). split; [congruence|].
  unfold revocation_target in *. cbn [v_kind v_tags v_content verified_event] in *. rewrite Hk, Htags, Hcont, Ht' in Ht. by injection Ht.
Qed.

Lemma install_signed l st : Forall signed (revocations st) -> Forall signed l -> Forall signed (revocations (foldl install st l)).
Proof.
  revert st. induction l as [|r l IH]; intros st Hs Hl; cbn [foldl]; [done|]. apply Forall_cons in Hl as [Hr Hl]. apply IH; [|done].
  unfold install. destruct (existsb _ _); [done|]. cbn [revocations]. by apply Forall_app_2; [|constructor].
Qed.

Lemma install_has l st r :
  r ∈ l \/ r_event_id r ∈ (r_event_id <$> revocations st) -> r_event_id r ∈ (r_event_id <$> revocations (foldl install st l)).
Proof.
  revert st. induction l as [|x l IH]; intros st Hr; cbn [foldl]; [destruct Hr as [Hr|]; [by apply elem_of_nil in Hr|done]|].
  apply IH. destruct Hr as [[->|Hr]%elem_of_cons|Hr]; [right|by left|right]; apply install_knows; [by left|by right].
Qed.

Context (P_signed : forall l, P (Install l) -> Forall signed l).

Lemma others_signed l w : Forall signed (revocations (auth w)) -> Forall signed (revocations (auth (others l w))).
Proof.
  unfold others_go. revert w. induction l as [|[[op c] Hop] l IH]; intros w Hw; cbn [foldl proj1_sig projT1 projT2]; [done|]. apply IH.
  destruct op; cbn [effect fst]; try done; [by destruct (Files.effect _ _ _)|by apply install_signed, P_signed].
Qed.

Definition denied (o : string) (t : RevocationTarget) (w : world) : Prop := is_revoked (revocations (auth w)) o t = true.

Lemma is_revoked_In l o t : is_revoked l o t = true <-> exists r, r ∈ l /\ r_author r = o /\ r_target r = t.
Proof.
  unfold is_revoked. rewrite existsb_spec. split; intros (r & Hr & Hx); exists r; (split; [done|]).
  - by apply andb_prop in Hx as [?%bool_decide_eq_true ?%bool_decide_eq_true].
  - destruct Hx as [-> ->]. by rewrite !bool_decide_eq_true_2.
Qed.

Context (P_keeps : ~ P ForgetRevocations).

Lemma commit_denies a w w' res r :
  Forall signed (revocations (auth w)) -> Forall signed (attempt_revocations a) -> ends (commit a) w w' res ->
  r ∈ attempt_revocations a -> denied (r_author r) (r_target r) w'.
Proof.
  intros Hw Ha (w1 & known & (l & c & Hk)%call_ends & He)%ends_bind Hr. cbn [effect] in Hk. injection Hk as -> ->.
  apply (ends_known P P_keeps) in He; [|apply persist_plain]. set (st := foldl install (auth (others l w)) (attempt_revocations a)) in *.
  assert (Hs : Forall signed (revocations st)) by (apply install_signed; [by apply others_signed|done]).
  assert (Hin : r_event_id r ∈ (r_event_id <$> revocations st)) by (apply install_has; by left).
  apply list_elem_of_fmap in Hin as (y & Hid & Hy). rewrite Forall_forall in Hs, Ha.
  destruct (signed_same r y (Ha r Hr) (Hs y Hy) Hid) as [Hau Ht]. apply is_revoked_In. exists y. split; [by apply He|done].
Qed.

End denial.


(** ** A request is answered once *)

Section replays.
Context `{NO : !Nostr, NL : !NostrLaws, GC : !GrantCodec, PL : !Payloads, EN : !Envelopes} (P : Op -> Prop).

Notation ends := (Programs.ends (Reply:=Reply) (Choice:=SharedChoice P) (shared P)).
Notation others := (others_go P).

(** The nonce was consumed, and its record is no older than [created_at]. *)
Definition remembers (k : option Keys) (key : string * string) (created_at : Z) (w : world) : Prop :=
  keys (identity w) = k /\ exists c, created_at <= c /\ seen_nonces w !! key = Some c.

Lemma plain_keys op c w : plain op -> keys (identity (effect op c w).1) = keys (identity w).
Proof. intros Hp. destruct op; try done. cbn [effect]. by destruct (Files.effect _ _ _). Qed.

Lemma plain_remembers op c k key t w : plain op -> remembers k key t w -> remembers k key t (effect op c w).1.
Proof. intros Hp [Hi Hs]. destruct op; try done. unfold remembers. cbn [effect]. by destruct (Files.effect _ _ _). Qed.

Section kept.
Context (k : option Keys) (key : string * string) (t now : Z).
Context (recent : now - t <= CLOCK_WINDOW_SECONDS).
Context (P_keys : forall i, P (SetIdentity i) -> keys i = k).
Context (P_nonce : forall s n c m, P (Seen s n c m) -> m <= now /\ ((s, n) = key -> t <= c)).

Lemma forget_keeps m c seen : m <= now -> t <= c -> seen !! key = Some c -> forget_old m seen !! key = Some c.
Proof.
  intros Hm Hc Hs. apply map_lookup_filter_Some. split; [done|]. cbn [snd]. unfold saturating_sub, CLOCK_WINDOW_SECONDS in *. lia.
Qed.

Lemma others_keys l w : keys (identity w) = k -> keys (identity (others l w)) = k.
Proof.
  unfold others_go. revert w. induction l as [|[[op c] Hop] l IH]; intros w Hw; cbn [foldl proj1_sig projT1 projT2] in *; [done|]. apply IH.
  destruct op; cbn [effect fst]; try done; [by destruct (Files.effect _ _ _)|by apply P_keys].
Qed.

Lemma others_remember l w : remembers k key t w -> remembers k key t (others l w).
Proof.
  unfold others_go. revert w. induction l as [|[[op c] Hop] l IH]; intros w Hw; cbn [foldl proj1_sig projT1 projT2] in *; [done|]. apply IH.
  destruct op as [| |i| | | | | |s n c' m| | |]; try by apply plain_remembers.
  - split; [by apply P_keys|apply Hw].
  - exact Hw.
  - destruct Hw as [Hi (u & Hu & Hs)], (P_nonce s n c' m Hop) as [Hm Hc]. split; [done|]. cbn [effect fst with_seen seen_nonces].
    destruct (decide ((s, n) = key)) as [Heq|Hne].
    + exists c'. rewrite Heq, lookup_insert_eq. split; [by apply Hc|done].
    + exists u. rewrite lookup_insert_ne by done. split; [done|]. by apply forget_keeps.
Qed.

(** What plain operations and other requests keep, a program of plain operations keeps. *)
Lemma program_keeps (M : world -> Prop) {A} (p : prog Op Reply A) w w' a :
  (forall op c w, plain op -> M w -> M (effect op c w).1) -> (forall l w, M w -> M (others l w)) ->
  asks plain p -> ends p w w' a -> M w -> M w'.
Proof.
  intros Hop Ho. set (R := fun w w' => M w -> M w').
  assert (Reflexive R) by (by intros x Hx). assert (Transitive R) by (intros x y z Hxy Hyz Hx; by apply Hyz, Hxy).
  apply (ends_related R plain). intros op c x Hp Hx. unfold shared. apply Hop; [done|]. by apply Ho.
Qed.

Lemma program_keys {A} (p : prog Op Reply A) w w' a : asks plain p -> ends p w w' a -> keys (identity w) = k -> keys (identity w') = k.
Proof. apply (program_keeps (fun x => keys (identity x) = k)); [intros; by rewrite plain_keys|by intros; apply others_keys]. Qed.

Lemma program_remembers {A} (p : prog Op Reply A) w w' a : asks plain p -> ends p w w' a -> remembers k key t w -> remembers k key t w'.
Proof. apply program_keeps; [intros; by apply plain_remembers|by intros; apply others_remember]. Qed.
End kept.

(** *** The nonce of a request *)

Lemma consume_ends s n t now persist w w' :
  ends (consume s n t now persist) w w' (Ok ()) ->
  exists w0 l, ends (if persist then mark_replay s n else Ret (Ok ())) w w0 (Ok ()) /\
    let seen := forget_old now (seen_nonces (others l w0)) in
    seen !! (s, n) = None /\ w' = with_seen (<[(s, n) := t]> seen) (others l w0).
Proof.
  intros (w0 & [] & Hm & He)%ends_attempt. apply ends_bind in He as (w2 & fresh & (l & c & Hs)%call_ends & He).
  cbn [effect] in Hs. injection Hs as -> ->. exists w0, l. split; [done|]. cbv zeta. destruct (_ !! _); [by destruct He|].
  by destruct He as [-> _].
Qed.

(** The same name, the same request. *)
Lemma opened_same i1 i2 json1 json2 now1 now2 e1 e2 env1 env2 :
  opened i1 json1 now1 e1 env1 -> opened i2 json2 now2 e2 env2 -> keys i1 = keys i2 -> ev_id e1 = ev_id e2 ->
  ev_pubkey e1 = ev_pubkey e2 /\ ev_created_at e1 = ev_created_at e2 /\ env1 = env2.
Proof.
  intros (o1 & p1 & Hj1 & Hv1 & _ & _ & _ & _ & Hd1 & Hr1 & _) (o2 & p2 & Hj2 & Hv2 & _ & _ & _ & _ & Hd2 & Hr2 & _) Hk Hid.
  destruct (id_names e1 e2 Hv1 Hv2 Hid) as (Hp & Hc & _ & Htags & Hcont). split; [done|]. split; [done|].
  unfold decrypt_event in Hd1, Hd2. destruct (_ <? str_len json1); [done|]. destruct (_ <? str_len json2); [done|].
  rewrite Hj1 in Hd1. rewrite Hj2 in Hd2. simpl in Hd1, Hd2. rewrite Hv1 in Hd1. rewrite Hv2 in Hd2. simpl in Hd1, Hd2.
  rewrite <- Hk, <- Hp, <- Htags, <- Hcont, Hd1 in Hd2. injection Hd2 as ->. rewrite Hr1 in Hr2. by injection Hr2.
Qed.

(** C13: A request is accepted once: after an event was authenticated, no message that
    carries the same event is authenticated again, by its time or by its nonce, while the
    daemon runs. The guard needs three things for it, whatever else other requests do in
    between and meanwhile: no nonce is consumed by a later clock than the one this message
    is checked by, the sender signs no request with the same nonce and an earlier time,
    since the guard keeps the time of the last one, and the device keeps its keys. *)
Theorem replay_refused json now route w w1 got l json' now' route' w2 got' :
  (forall i, P (SetIdentity i) -> keys i = keys (identity w)) ->
  (forall s n c m, P (Seen s n c m) -> m <= now' /\
     ((s, n) = (sender got, nonce (envelope got)) -> forall e, from_json json = Some e -> ev_created_at e <= c)) ->
  ends (authenticate json now route) w w1 (Ok got) ->
  ends (authenticate json' now' route') (others l w1) w2 (Ok got') -> event_id got' <> event_id got.
Proof.
  intros HPk HPn (i & l1 & l1' & e & env & known & wa & wb & wc & a & -> & -> & _ & Ho & _ & Hcons & Hcom & Hrec & ->)%authenticate_ends.
  intros (i' & l2 & l2' & e' & env' & known' & wa' & wb' & wc' & a' & -> & -> & _ & Ho' & _ & Hcons' & _ & _ & ->)%authenticate_ends Hid.
  cbn [event_id envelope sender] in *. pose proof Ho as (o & pl & Hjs & _). pose proof Ho' as (o' & pl' & _ & _ & _ & Ht' & _).
  assert (HPn' : forall s n c m, P (Seen s n c m) -> m <= now' /\ ((s, n) = (ev_pubkey e, nonce env) -> ev_created_at e <= c)).
  { intros s n c m Hop. destruct (HPn s n c m Hop) as [Hm Hc]. split; [done|]. intros Heq. by apply (Hc Heq). }
  apply consume_ends in Hcons as (w0 & l0 & Hm & _ & ->). apply consume_ends in Hcons' as (w0' & l0' & Hm' & Hnone & _).
  assert (Hk0 : keys (identity (others l0 w0)) = keys (identity w)).
  { apply others_keys; [done|]. eapply (program_keys (keys (identity w))); [done| |exact Hm|by do 2 (apply others_keys; [done|])].
    by destruct (is_security_mutation _). }
  destruct (opened_same _ _ _ _ _ _ _ _ _ _ Ho Ho') as (Hp & Hc & Henv); [|done|].
  { rewrite others_keys with (k := keys (identity w)) by done. symmetry.
    apply others_keys; [done|]. apply others_keys; [done|].
    eapply (program_keys (keys (identity w))); [done| |exact Hrec|]; [apply reconcile_plain|].
    eapply (program_keys (keys (identity w))); [done| |exact Hcom|done]. apply commit_plain. }
  rewrite <- Hp, <- Henv in Hnone, Hm'. rewrite <- Hc in Ht'.
  set (M := remembers (keys (identity w)) (ev_pubkey e, nonce env) (ev_created_at e)).
  assert (Hrecent : now' - ev_created_at e <= CLOCK_WINDOW_SECONDS) by lia.
  pose proof (fun l w => others_remember _ _ _ _ Hrecent HPk HPn' l w) as HM.
  pose proof (fun A (p : prog Op Reply A) w w' a => program_remembers _ _ _ _ Hrecent HPk HPn' p w w' a) as HMp.
  assert (Hfirst : M (with_seen (<[(ev_pubkey e, nonce env) := ev_created_at e]> (forget_old now (seen_nonces (others l0 w0)))) (others l0 w0))).
  { split; [exact Hk0|]. exists (ev_created_at e). split; [done|apply lookup_insert_eq]. }
  apply (HMp _ _ _ _ _ (commit_plain _) Hcom) in Hfirst. apply (HMp _ _ _ _ _ (reconcile_plain _ _) Hrec) in Hfirst.
  assert (Hlast : M (others l0' w0')).
  { apply HM. eapply HMp; [|exact Hm'|by do 3 (apply HM)]. by destruct (is_security_mutation _). }
  destruct Hlast as [_ (u & Hu & Hl)]. by rewrite (forget_keeps _ _ now' Hrecent now' u) in Hnone.
Qed.
End replays.


(** ** Certificates that lost their reason are taken back *)

Section reconciliation.
Context `{NO : !Nostr, GC : !GrantCodec, PL : !Payloads, EN : !Envelopes}.

Notation fends := (Programs.ends (Reply:=Files.Reply) (Choice:=Files.Choice) Files.effect).
Notation fwp := (Programs.wp (Reply:=Files.Reply) (Choice:=Files.Choice) Files.effect).
Notation ends := (Programs.ends (Reply:=Reply) (Choice:=Choice) effect).
Notation stops := (Programs.stops (Reply:=Reply) (Choice:=Choice) effect).
Notation wp := (Programs.wp (Reply:=Reply) (Choice:=Choice) effect).

Definition grant_path (device : string) : path := CERTIFICATE_DIRECTORY ++ [device].

(** The file of a device says this. *)
Definition recorded (t : tree) (device : string) (g : CertificateGrant) : Prop :=
  exists mode content synced, t !! grant_path device = Some (Regular mode content synced) /\ grant_parse content = Some g.

Lemma recorded_same t device g g' : recorded t device g -> recorded t device g' -> g = g'.
Proof. intros (m & c & s & Hf & Hp) (m' & c' & s' & Hf' & Hp'). rewrite Hf in Hf'. injection Hf' as <- <- <-. congruence. Qed.

(** *** Reading the grants *)

Lemma load_grant_ends name d d' y : fends (load_grant name) d d' (Ok y) -> d' = d /\ exists g, y = (name, g) /\ recorded (seen d) name g.
Proof.
  unfold load_grant. intros (d1 & [] & Hc & He)%ends_attempt. destruct Hc as (wc & Hc). cbn [Files.effect] in Hc.
  destruct (_ || _); [by destruct He|]. destruct (validate_hex_32 name); [|by destruct He].
  apply ends_attempt in He as (d2 & bytes & (wr & Hr) & He). cbn [Files.effect] in Hr.
  destruct wc; cbn [query fst snd] in Hc; [|by destruct Hc]. destruct wr; cbn [query fst snd] in Hr; [|by destruct Hr].
  unfold stat in Hc. destruct Hc as [-> Hc]. unfold read_file in Hr. fold (grant_path name) in *.
  destruct (seen d !! grant_path name) as [[|mode content synced| |]|] eqn:Hf; cbn [metadata] in *; try done.
  destruct (_ || _) eqn:Hlen in Hc; [done|]. apply orb_false_iff in Hlen as [_ Hlen%Z.ltb_ge].
  rewrite prefix_all in Hr by (unfold str_len in *; lia). destruct (_ <? _) in Hr; [by destruct Hr|]. destruct Hr as [-> [= ->]].
  unfold grant_file in He. destruct (grant_parse content) as [g|] eqn:Hp; [|by destruct He]. destruct He as [-> [= ->]].
  split; [done|]. exists g. split; [done|]. by exists mode, content, synced.
Qed.

Lemma for_all_quiet {X B E} (f : X -> prog Files.Op Files.Reply (result E B)) (R : disk -> X -> B -> Prop) l d d' ys :
  (forall x d d' y, fends (f x) d d' (Ok y) -> d' = d /\ R d x y) ->
  fends (for_all f l) d d' (Ok ys) -> d' = d /\ Forall2 (R d) l ys.
Proof.
  intros Hf. revert d d' ys. induction l as [|x l IH]; intros d d' ys He; cbn [for_all] in He; [by destruct He as [-> [= ->]]|].
  apply ends_attempt in He as (d1 & y & [-> Hy]%Hf & He). apply ends_attempt in He as (d2 & zs & [-> Hz]%IH & [-> [= ->]]).
  split; [done|]. by constructor.
Qed.

Lemma grants_end d d' l :
  fends certificate_grants d d' (Ok l) ->
  d' = d /\ (forall name g, (name, g) ∈ l -> recorded (seen d) name g) /\
  forall name, is_Some (seen d !! grant_path name) -> exists g, (name, g) ∈ l.
Proof.
  intros (d1 & ns & (wc & Hr) & He)%ends_attempt. cbn [Files.effect] in Hr. destruct wc; cbn [query fst snd] in Hr; [|by destruct Hr].
  unfold read_dir in Hr. destruct (seen d !! CERTIFICATE_DIRECTORY) as [[]|]; cbn in Hr; destruct Hr as [-> [= ->]]; [].
  apply ends_attempt in He as (d2 & ys & Hl & [-> [= ->]]).
  apply (for_all_quiet _ (fun d name y => exists g, y = (name, g) /\ recorded (seen d) name g)) in Hl as [-> Hall]; [|by intros; apply load_grant_ends].
  split; [done|]. split.
  - intros name g Hin. rewrite sort_on_perm in Hin. apply list_elem_of_lookup in Hin as (i & Hi).
    destruct (Forall2_lookup_r _ _ _ _ _ Hall Hi) as (x & _ & g' & [= <- <-] & Hrec). done.
  - intros name Hn. assert (Hin : name ∈ names CERTIFICATE_DIRECTORY (seen d)) by by apply elem_of_names.
    apply list_elem_of_lookup in Hin as (i & Hi). destruct (Forall2_lookup_l _ _ _ _ _ Hall Hi) as (y & Hy & g & -> & _).
    exists g. rewrite sort_on_perm. by eapply list_elem_of_lookup_2.
Qed.

Lemma reads_only known local now : asks (quiet Files.effect) (certificate_revocations known local now).
Proof.
  assert (Hq : forall (T : Type) op (k : Files.Reply op -> prog Files.Op Files.Reply T),
    match op with Stat _ | ReadDir _ | ReadFile _ _ => True | _ => False end -> (forall r, asks (quiet Files.effect) (k r)) ->
    asks (quiet Files.effect) (Do op k)).
  { intros T op k Hop Hk. split; [|done]. by destruct op; try done; intros []. }
  apply asks_attempt; [|done]. apply asks_attempt; [by apply Hq|]. intros ns. apply asks_attempt; [|done].
  induction ns as [|n ns IH]; [done|]. cbn [for_all]. apply asks_attempt; [|intros y; by apply asks_attempt].
  unfold load_grant. apply asks_attempt; [by apply Hq|]. intros _. destruct (_ || _); [done|]. destruct (validate_hex_32 n); [|done].
  apply asks_attempt; [by apply Hq|done].
Qed.

(** *** Taking back *)

(** A grant that a device would not be given now. *)
Definition stale (known : list Revocation) (local : IdentityState) (now : Z) (device : string) (g : CertificateGrant) : Prop :=
  authorize (Peer (grant_principal local now known device g))
    (MoonlightCertificateProvision (P:=unit) (host_uuid g) (client_certificate g)) = false.

Lemma planned known local now l r :
  r ∈ plan_certificate_revocations local now known l <->
  exists device g, (device, g) ∈ l /\ stale known local now device g /\ r = MkCertificateRevocation device (host_uuid g) (client_certificate g).
Proof.
  unfold plan_certificate_revocations, stale. rewrite list_elem_of_omap. split.
  - intros ([device g] & Hin & Hr). destruct (authorize _ _) eqn:Ha; [done|]. injection Hr as <-. by exists device, g.
  - intros (device & g & Hin & Ha & ->). exists (device, g). by rewrite Ha.
Qed.

Definition held (g : CertificateGrant) : string * string := (host_uuid g, client_certificate g).

(** What is so at every moment: no certificate was added, no grant was changed, and a
    grant is gone only when its certificate is. *)
Record receding (w w' : world) : Prop := {
  fewer_trusted : trusted w' ⊆ trusted w;
  same_known : auth w' = auth w;
  same_files device : seen (files w') !! grant_path device = seen (files w) !! grant_path device \/ seen (files w') !! grant_path device = None;
  taken_first device g : recorded (seen (files w)) device g -> held g ∈ trusted w' -> recorded (seen (files w')) device g;
}.

Lemma receding_refl w : receding w w.
Proof. split; auto. Qed.

Lemma receding_files w w' d : (forall device, seen d !! grant_path device = seen (files w') !! grant_path device) -> receding w w' -> receding w (with_files d w').
Proof.
  intros Hd [Ht Hk Hs Hf]. split; cbn [with_files files trusted auth]; auto.
  - intros device. rewrite Hd. apply Hs.
  - intros device g Hr Hin. destruct (Hf device g Hr Hin) as (m & c & s & Hx & Hp). exists m, c, s. by rewrite Hd.
Qed.

Lemma receding_certify w w' r answer despite :
  (exists host certificate, r = MoonlightCertificateRevoke host certificate) -> receding w w' ->
  receding w (with_trusted (certify r answer despite (trusted w')) w').
Proof.
  intros (h & c & ->) [Ht Hk Hs Hf].
  assert (Hsub : certify (MoonlightCertificateRevoke h c) answer despite (trusted w') ⊆ trusted w').
  { cbn [certify]. destruct answer as [[|[]|]|], despite; set_solver. }
  split; cbn [with_trusted files trusted auth]; auto. by etrans.
Qed.

Lemma with_same_files w : with_files (files w) w = w.
Proof. by destruct w. Qed.

Lemma lift_wp {A} (I : world -> Prop) Q (p : prog Files.Op Files.Reply A) w :
  fwp (fun d => I (with_files d w)) (fun a d => Q a (with_files d w)) p (files w) -> wp I Q (lift p) w.
Proof.
  enough (Hall : forall d, fwp (fun d => I (with_files d w)) (fun a d => Q a (with_files d w)) p d -> wp I Q (lift p) (with_files d w)).
  { intros Hp. rewrite <- (with_same_files w). by apply Hall. }
  induction p as [a|op k IH]; intros d Hp; cbn [lift]; [exact Hp|]. cbn [Programs.wp] in *. destruct Hp as [Hi Hk].
  split; [done|]. intros c. specialize (Hk c). cbn [effect]. cbn [with_files files] in *. destruct (Files.effect op c d) as [d' r].
  cbn [fst snd] in *. by apply IH.
Qed.

Lemma ends_lift {A} (p : prog Files.Op Files.Reply A) w w' a :
  ends (lift p) w w' a -> exists d, fends p (files w) d a /\ w' = with_files d w.
Proof.
  revert w. induction p as [b|op k IH]; intros w He; cbn [lift] in He; [destruct He as [-> ->]; exists (files w); by destruct w|].
  destruct He as [c He]. cbn [effect] in He. destruct (Files.effect op c (files w)) as [d r] eqn:Heff. cbn [fst snd] in He.
  apply IH in He as (d' & He & ->). exists d'. split; [exists c; by rewrite Heff|done].
Qed.

Lemma grant_path_inj device device' : grant_path device = grant_path device' -> device = device'.
Proof. unfold grant_path. intros Heq%(inj (CERTIFICATE_DIRECTORY ++.)). by injection Heq. Qed.

Lemma removed_apart t device other : other <> device -> delete (grant_path device) t !! grant_path other = (t : tree) !! grant_path other.
Proof. intros Hne. apply lookup_delete_ne. intros Heq. by apply Hne, grant_path_inj. Qed.

(** The grant of a certificate that is gone may be removed. *)
Lemma receding_removed w w' device d :
  receding w w' -> (forall g, recorded (seen (files w)) device g -> held g ∉ trusted w') ->
  seen d = delete (grant_path device) (seen (files w')) -> receding w (with_files d w').
Proof.
  intros [Ht Hk Hs Hf] Hgone Hd. split; cbn [with_files files trusted auth]; auto; rewrite Hd.
  - intros dev. destruct (decide (dev = device)) as [->|Hne]; [right; apply lookup_delete_eq|]. rewrite removed_apart by done. apply Hs.
  - intros dev g Hr Hin. destruct (decide (dev = device)) as [->|Hne]; [by destruct (Hgone g)|].
    destruct (Hf dev g Hr Hin) as (m & c & s & Hx & Hp). exists m, c, s. by rewrite removed_apart.
Qed.

Lemma wp_complete_revocation w device :
  (forall g, recorded (seen (files w)) device g -> held g ∉ trusted w) ->
  wp (receding w) (on_ok (fun _ x => receding w x /\ seen (files x) !! grant_path device = None))
    (on_storage (complete_certificate_revocation device)) w.
Proof.
  intros Hgone. unfold on_storage. apply wp_bind, lift_wp.
  assert (Hi : receding w (with_files (files w) w)) by (rewrite with_same_files; apply receding_refl).
  assert (Hend : forall d (r : result AuthorizationError unit), receding w (with_files d w) ->
    (is_ok r = true -> seen d !! grant_path device = None) ->
    fwp (fun d => receding w (with_files d w)) (fun r d => wp (receding w) (on_ok (fun _ x => receding w x /\
      seen (files x) !! grant_path device = None)) (Ret (map_err (fun _ => StorageFailed) r)) (with_files d w)) (Ret r) d).
  { intros d r Hd Hx. split; [done|]. split; [done|]. destruct r; [|done]. cbn. auto. }
  unfold complete_certificate_revocation. fold (grant_path device). apply wp_remove; [done| |].
  - intros t Ht. assert (Hseen : t = delete (grant_path device) (seen (files w))).
    { unfold remove_file in Ht. destruct (seen (files w) !! grant_path device) as [[]|]; try done; by injection Ht as <-. }
    assert (Hd : receding w (with_files (MkDisk t (kept (files w))) w)) by (by (apply receding_removed with device; [apply receding_refl|..])).
    split; [|by apply Hend]. unfold sync_authorization. apply wp_sync_dir; [done| |by intros; apply Hend].
    intros _. apply Hend; [|intros _; cbn [seen]; by rewrite Hseen, lookup_delete_eq]. by (apply receding_removed with device; [apply receding_refl|..]).
  - intros e He. destruct e; try by apply Hend. apply Hend; [done|]. intros _. destruct He as [He|He]; [done|].
    unfold remove_file in He. by destruct (seen (files w) !! grant_path device) as [[]|].
Qed.

#[local] Instance receding_trans : Transitive receding.
Proof.
  intros a b c [Ht Hk Hs Hf] [Ht' Hk' Hs' Hf']. split; [by etrans|congruence| |].
  - intros device. destruct (Hs' device) as [-> | ->]; [apply Hs|by right].
  - intros device g Hr Hin. apply Hf'; [|done]. apply Hf; [done|]. by apply Ht'.
Qed.

Lemma recorded_before w w' device g : receding w w' -> recorded (seen (files w')) device g -> recorded (seen (files w)) device g.
Proof.
  intros [_ _ Hs _] (m & c & s & Hx & Hp). exists m, c, s. destruct (Hs device) as [Heq|Hnone]; [by rewrite <- Heq|by rewrite Hnone in Hx].
Qed.

Definition says (t : tree) (r : CertificateRevocation) : Prop :=
  forall g, recorded t (revoked_device r) g -> held g = (revoked_host r, revoked_client r).

(** Every planned certificate goes before its grant. *)
Lemma wp_retire w l :
  Forall (says (seen (files w))) l ->
  wp (receding w) (on_ok (fun _ x => receding w x /\ Forall (fun r => seen (files x) !! grant_path (revoked_device r) = None) l)) (retire l) w.
Proof.
  revert w. induction l as [|r l IH]; intros w Hl; cbn [retire]; [by apply wp_ok; [|split]; try apply receding_refl|]. apply Forall_cons in Hl as [Hrl Hl].
  cbn [dispatch authorize policy_for is_object_request negb orb bind call]. split; [apply receding_refl|]. intros [answer despite].
  cbn [effect fst snd]. set (w1 := with_trusted _ w).
  assert (H1 : receding w w1).
  { apply receding_certify; [by exists (revoked_host r), (revoked_client r)|apply receding_refl]. }
  destruct answer as [[|[u|]|]|] eqn:Ha; try by apply wp_err.
  eapply wp_inv_mono; [intros x; by apply (transitivity H1)|]. apply wp_step. eapply wp_mono; [|apply wp_complete_revocation].
  - intros [u'|e] x _; [|done]. intros [Hx Hgone]. cbn [on_ok]. eapply wp_inv_mono; [intros y; by apply (transitivity Hx)|].
    eapply wp_mono; [|apply IH].
    + intros [u''|e] y _; [|done]. intros [Hy Hall]. cbn [on_ok]. split; [etrans; [exact H1|by etrans]|]. constructor; [|done].
      destruct (same_files _ _ Hy (revoked_device r)) as [Heq|?]; [by rewrite Heq|done].
    + eapply Forall_impl; [exact Hl|]. intros z Hz g Hg. apply Hz. eapply recorded_before; [by etrans; [exact H1|exact Hx]|exact Hg].
  - intros g Hg%Hrl. rewrite Hg. cbn. set_solver.
Qed.

(** *** The streaming host accepts no certificate without a reason *)

(** Every certificate that is trusted is in the grant of some device. *)
Definition accounted (w : world) : Prop := forall c, c ∈ trusted w -> exists device g, recorded (seen (files w)) device g /\ held g = c.

Lemma receding_accounted w w' : receding w w' -> accounted w -> accounted w'.
Proof. intros [Ht _ _ Hf] Ha c Hc. destruct (Ha c (Ht c Hc)) as (device & g & Hr & <-). exists device, g. auto. Qed.

Lemma wp_reconcile local now w :
  wp (receding w) (on_ok (fun _ x => receding w x /\
    forall device g, recorded (seen (files x)) device g -> ~ stale (revocations (auth w)) local now device g))
    (reconcile_certificate_trust local now) w.
Proof.
  cbn [reconcile_certificate_trust bind call]. split; [apply receding_refl|]. intros []. cbn [effect fst snd].
  apply wp_step. unfold on_storage. apply wp_bind, lift_wp.
  eapply wp_inv_mono; [|eapply wp_mono; [|eapply wp_its_ends, wp_asks_quiet, reads_only]].
  { intros d ->. rewrite with_same_files. apply receding_refl. }
  intros r d -> He. rewrite with_same_files. split; [apply receding_refl|]. destruct r as [plan|e]; [|done]. cbn [on_ok map_err].
  apply ends_attempt in He as (d' & l & (-> & Hl & Hall)%grants_end & [_ [= ->]]). cbn [revocations] in *.
  eapply wp_mono; [|apply wp_retire].
  - intros [u|e] x _; [|done]. cbn [on_ok]. intros [Hx Hgone]. split; [done|]. intros device g Hg Hst.
    pose proof (recorded_before _ _ _ _ Hx Hg) as Hg0. pose proof Hg as (m & c & s & Hf & _).
    destruct (Hall device) as (g' & Hin); [destruct Hg0 as (m0 & c0 & s0 & -> & _); by eexists|].
    rewrite (recorded_same _ _ _ _ Hg0 (Hl _ _ Hin)) in Hst. rewrite Forall_forall in Hgone.
    assert (Hr : MkCertificateRevocation device (host_uuid g') (client_certificate g') ∈
      plan_certificate_revocations local now (revocations (auth w)) l) by (apply planned; by exists device, g').
    specialize (Hgone _ Hr). cbn [revoked_device] in Hgone. congruence.
  - apply Forall_forall. intros r (device & g & Hin & _ & ->)%planned. intros g' Hg'. cbn [revoked_device revoked_host revoked_client] in *.
    by rewrite (recorded_same _ _ _ _ Hg' (Hl _ _ Hin)).
Qed.

(** C14: The reconciliation before a request keeps every certificate that the streaming host
    accepts in the grant of some device, wherever it stops and whatever fails: a grant is
    removed after its certificate. When it succeeds, the holder of every certificate that is
    left would be given it now, by the evidence in the grant, against every revocation known. *)
Theorem reconciliation_accounts local now w :
  accounted w ->
  (forall w', stops (reconcile_certificate_trust local now) w w' -> accounted w') /\
  (forall w' u, ends (reconcile_certificate_trust local now) w w' (Ok u) -> forall c, c ∈ trusted w' ->
     exists device g, recorded (seen (files w')) device g /\ held g = c /\
       may_ask (grant_principal local now (revocations (auth w)) device g)
         (MoonlightCertificateProvision (P:=unit) (host_uuid g) (client_certificate g))).
Proof.
  intros Ha. split; [intros w' Hs; by apply (receding_accounted w); [eapply wp_stops, wp_reconcile|]|].
  intros w' u He c Hc. destruct (wp_ends _ _ _ _ _ _ He (wp_reconcile local now w)) as [Hr Hst].
  destruct (receding_accounted _ _ Hr Ha c Hc) as (device & g & Hg & Heq). exists device, g. split; [done|]. split; [done|].
  apply authorize_peer, not_false_iff_true. exact (Hst device g Hg).
Qed.
End reconciliation.
