(* ===== verification/PeerRpcSim.v ===== *)
(** * A simulation of requests between devices

    Four devices and a person with a library of events that is a table: the text of
    an event is its name, and an event is verified when it is in the table. *)

From S2P Require Import Prelude Text Decimal Programs Files Identity Authorization PeerRpc.

(** ** The library *)

Fixpoint fill (n : nat) (a : ascii) : string := match n with O => EmptyString | S n => SCons a (fill n a) end.

(** Keys and names are the same character 64 times. *)
Definition hex (a : ascii) : string := fill 64 a.

Inductive Who : Type := Owner | Here | Laptop | Neighbour | Tablet.

Definition initial (w : Who) : ascii :=
  match w with Owner => "a" | Here => "b" | Laptop => "c" | Neighbour => "d" | Tablet => "e" end%char.

Definition key_of (w : Who) : string := hex (initial w).

Definition everyone : list Who := [Owner; Here; Laptop; Neighbour; Tablet].

#[export] Instance event_eq_dec : EqDecision Event.
Proof. solve_decision. Defined.

Definition table_event (name : ascii) (by_ : Who) (created_at kind : Z) (tags : list (list string)) (content : string) : Event :=
  MkEvent (hex name) (key_of by_) created_at kind tags content EmptyString.

Definition statement (name : ascii) (owner device : Who) (created_at : Z) (status : OwnerStatementStatus) : Event :=
  table_event name owner created_at OWNER_EVENT_KIND (owner_tags (key_of device) status) EmptyString.

Definition asks_here (name : ascii) (from : Who) (created_at : Z) (content : string) : Event :=
  table_event name from created_at PEER_REQUEST_KIND [["p"; key_of Here]] content.

Definition here_owned : Event := statement "0" Owner Here 10 StatementOwned.
Definition laptop_owned : Event := statement "1" Owner Laptop 20 StatementOwned.
Definition laptop_revoked : Event := statement "2" Owner Laptop 30 StatementRevoked.
Definition tablet_owned : Event := statement "3" Neighbour Tablet 20 StatementOwned.

(** The owner lets the neighbour's tablet play until 5000. *)
Definition tablet_pass : Event :=
  table_event "4" Owner 900 PERSON_PASS_EVENT_KIND (pass_tags (key_of Neighbour) (key_of Tablet) HouseholdTier "5000" [StreamLaunch]) EmptyString.

Definition first_provision : Event := asks_here "5" Tablet 1000 "first certificate".
Definition second_provision : Event := asks_here "6" Tablet 1100 "second certificate".
Definition later_question : Event := asks_here "7" Laptop 6000 "question".
Definition laptop_provision : Event := asks_here "8" Laptop 1000 "laptop certificate".
(** The laptop asks for the health of this device, and once more under the same nonce
    with an earlier time. *)
Definition health_asked : Event := asks_here "c" Laptop 1000 "health".
Definition health_earlier : Event := asks_here "e" Laptop 900 "health".
Definition answered : Event := table_event "f" Here 1000 PEER_RESPONSE_KIND [["p"; key_of Tablet]] "answer".
Definition here_revoked : Event := statement "9" Owner Here 40 StatementRevoked.

Definition table : list Event :=
  [here_owned; laptop_owned; laptop_revoked; tablet_owned; tablet_pass; first_provision; second_provision; later_question;
   laptop_provision; here_revoked; health_asked; health_earlier; answered].

Definition named (name : string) : option Event := head (keep (fun e => bool_decide (ev_id e = name)) table).

#[export] Instance sim_nostr : Nostr := {|
  Keys := Who;
  from_json := named;
  event_json := ev_id;
  verify := fun e => bool_decide (e ∈ table);
  parse_keys := fun s => head (keep (fun w => bool_decide (key_of w = s)) everyone);
  generate := fun _ => Here;
  secret_hex := key_of;
  public_hex := key_of;
  key_of_hex := fun _ => true;
  xonly := fun _ => true;
  parse_tag := fun _ => true;
  sign := fun k kind tags content created_at _ =>
    head (keep (fun e => bool_decide ((ev_pubkey e, ev_kind e, ev_tags e, ev_content e, ev_created_at e) = (key_of k, kind, tags, content, created_at))) table);
  nip44_encrypt := fun _ _ plaintext _ => Some plaintext;
  nip44_decrypt := fun _ _ content => Some content;
  template_to_json := fun _ => None;
  template_from_json := fun _ => None;
|}.

(** Of the events of the table something can be tried. *)
Lemma in_table (P : Event -> Prop) e : Forall P table -> verify e = true -> P e.
Proof. intros HP He%bool_decide_eq_true. rewrite Forall_forall in HP. by apply HP. Qed.

Lemma named_back : Forall (fun e => named (ev_id e) = Some e) table.
Proof. apply (bool_decide_eq_true_1 _). vm_compute. reflexivity. Qed.

#[export] Instance sim_laws : NostrLaws.
Proof.
  split.
  - exact (fun e => in_table _ e named_back).
  - intros e device status He _ _ _. revert e He. refine (fun e => in_table (fun e => str_len (ev_id e) <= MAX_EVENT_BYTES) e _).
    apply (bool_decide_eq_true_1 _). vm_compute. reflexivity.
  - refine (fun e => in_table (fun e => hex_64 (ev_id e) = true) e _). apply (bool_decide_eq_true_1 _). vm_compute. reflexivity.
  - intros e e' He He' Heq. pose proof (in_table _ e named_back He) as H1. pose proof (in_table _ e' named_back He') as H2.
    cbn beta in *. rewrite Heq, H2 in H1. by injection H1 as ->.
  - by intros [].
  - by intros [].
  - by intros [].
Qed.

#[local] Existing Instance no_services.

Lemma ended_ok {A E} (x : A * result E unit) : is_ok x.2 = true -> (x.1, Ok ()) = x.
Proof. by destruct x as [a [[]|e]]. Defined.

Lemma is_ok_inv {A E} (r : result E A) : is_ok r = true -> exists a, r = Ok a.
Proof. destruct r as [a|e]; [by exists a|done]. Defined.

Definition as_grant (x : string * string * (string * option string)) : CertificateGrant :=
  let '(host, certificate, (statement, pass)) := x in
  MkCertificateGrant host certificate (match pass with None => ByOwnerDevice statement | Some pass => ByPersonPass statement pass end).

Definition from_grant (g : CertificateGrant) : string * string * (string * option string) :=
  (host_uuid g, client_certificate g, match authorization g with ByOwnerDevice s => (s, None) | ByPersonPass s p => (s, Some p) end).

#[export] Instance sim_grants : GrantCodec := {|
  digest_hex := id;
  grant_json := fun g => ok (code (from_grant g));
  grant_parse := fun s => as_grant <$> ok (decoded (T:=string * string * (string * option string)) s);
|}.

(** ** The disk of the device *)

Definition private_tree (files : list (path * string)) : tree :=
  list_to_map (((fun f => (f.1, Regular 384 f.2 true)) <$> files) ++
    ((fun p => (p, Directory 448)) <$> ([] : path) :: directory :: REVOCATION_DIRECTORY :: CERTIFICATE_DIRECTORY :: [REPLAY_DIRECTORY])).

Definition settled (files : list (path * string)) : disk := MkDisk (private_tree files) (private_tree files).

Definition own_files : list (path * string) := [(key_path, key_of Here +:+ newline); (owner_path, event_json here_owned)].

Definition here_state : IdentityState := Owned (key_of Here) (key_of Owner) (ev_id here_owned) 10.
Definition here_keys : Keys := Here.
Definition here_now : DeviceIdentity := MkDeviceIdentity (Some here_keys) here_state (Some here_owned).

Lemma here_is : is_identity here_keys (Some here_owned) here_state here_now.
Proof. split; [done|]. split; [done|]. by exists StatementOwned. Defined.

Lemma here_within : within here_keys here_state (settled own_files).
Proof.
  assert (Hs : stores here_keys (Some here_owned) (private_tree own_files)).
  { split; [exists 448; vm_compute; reflexivity|]. split; [exists 448; split; vm_compute; reflexivity|].
    split; exists 384; split; vm_compute; reflexivity. }
  assert (Hl : later here_keys here_state (Some here_owned)) by (exists here_state, here_now; split; [apply here_is|apply rtc_refl]).
  unfold within, settled, seen, kept. split; exists (Some here_owned); exact (conj Hl Hs).
Defined.

(** ** Witnesses of the properties of identities *)

Lemma memo_transparent_witness :
  (verify_owner_statement_memo ∅ (event_json laptop_owned) (key_of Laptop)).2 =
    Ok (MkVerifiedOwnerStatement (ev_id laptop_owned) (key_of Owner) (key_of Laptop) StatementOwned 20)
  /\ memo_sound (verify_owner_statement_memo ∅ (event_json laptop_owned) (key_of Laptop)).1.
Proof.
  assert (Hm : memo_sound ∅) by (split; [apply (bool_decide_eq_true_1 _); vm_compute; reflexivity|intros j d v Hv; by rewrite lookup_empty in Hv]).
  destruct (memo_transparent ∅ (event_json laptop_owned) (key_of Laptop) Hm) as [Heq Hs]. split; [|exact Hs].
  rewrite Heq. vm_compute. reflexivity.
Defined.

Definition revoked_run : disk * (DeviceIdentity * result failure unit) :=
  Programs.run Files.effect Files.usual (apply_owner_statement here_now (event_json here_revoked)) (settled own_files).


(** ** Witnesses of the properties of authorization *)

Lemma principal_spec_witness :
  (forall d, OwnerDevice (key_of Laptop) (event_json laptop_owned) (key_of Owner) <> Unknown d) /\
  entitled here_state (Some (event_json laptop_owned)) None 1000 [] (OwnerDevice (key_of Laptop) (event_json laptop_owned) (key_of Owner)).
Proof.
  split; [done|].
  apply (proj1 (principal_spec here_state (key_of Laptop) (Some (event_json laptop_owned)) None 1000 []
    (OwnerDevice (key_of Laptop) (event_json laptop_owned) (key_of Owner)) ltac:(done))). vm_compute. reflexivity.
Defined.

Definition revocation : Revocation := MkRevocation (ev_id laptop_revoked) (event_json laptop_revoked) (key_of Owner) (RevokesDevice (key_of Laptop)).

Definition fresh : AuthorizationState := MkAuthorizationState [] ∅.
Definition carrying : AuthorizationAttempt := MkAuthorizationAttempt (Peer (Unknown (key_of Tablet))) [revocation].

Lemma fresh_sound : sound_state fresh.
Proof. split; [constructor|]. split; [constructor|]. set_solver. Defined.

Lemma carrying_genuine : Forall genuine (attempt_revocations carrying).
Proof. constructor; [|constructor]. split; vm_compute; reflexivity. Defined.

Lemma no_revocation_files : lasting true (written fresh) (settled own_files).
Proof.
  assert (Hh : holds true (written fresh) (private_tree own_files)); [|by split].
  split; [exists 448; split; vm_compute; reflexivity|]. split; [constructor|]. intros _ name Hn. apply elem_of_names in Hn.
  assert (Hnil : names REVOCATION_DIRECTORY (private_tree own_files) = []) by (vm_compute; reflexivity). rewrite Hnil in Hn. destruct (not_elem_of_nil name Hn).
Defined.

Definition committed : disk * (AuthorizationState * result AuthorizationError unit) :=
  Programs.run Files.effect Files.usual (commit_revocations fresh carrying) (settled own_files).

Lemma commit_lasts_witness :
  exists l, Programs.run Files.effect Files.usual load committed.1 = (committed.1, Ok (MkAuthorizationState l ∅)) /\
    ev_id laptop_revoked ∈ (r_event_id <$> l).
Proof.
  destruct (proj1 (commit_lasts fresh carrying (settled own_files) fresh_sound carrying_genuine no_revocation_files)
    committed.1 committed.1 committed.2.1) as (l & Hl & _ & Hall).
  - rewrite (ended_ok committed.2) by (vm_compute; reflexivity). exact (run_ends _ _).
  - by left.
  - exists 448. split; vm_compute; reflexivity.
  - exists l. split; [exact Hl|]. apply (Hall revocation). left. apply list_elem_of_here.
Defined.

Lemma leftover_blocks_start_witness :
  exists d1, Programs.stops Files.effect (commit_revocations fresh carrying) (settled own_files) d1 /\
    forall d2 st2, ~ Programs.ends Files.effect load d1 d2 (Ok st2).
Proof.
  apply (leftover_blocks_start fresh carrying (settled own_files) revocation fresh_sound carrying_genuine no_revocation_files); [by left|].
  intros Hk. destruct (not_elem_of_nil _ Hk).
Defined.

(** ** Requests *)

#[export] Instance sim_payloads : Payloads := {| Payload := unit; Outcome := unit |}.

Definition envelope_of (n : ascii) (evidence : string) (pass : option string) (revocations : list string) (r : RpcRequest Payload)
    : PeerRequestEnvelope :=
  PeerRpc.MkPeerRequestEnvelope PEER_RPC_VERSION (key_of Here) (hex n) (hex n) (Some evidence) pass revocations r.

Definition envelopes : list (string * PeerRequestEnvelope) :=
  [("first certificate", envelope_of "1" (event_json tablet_owned) (Some (event_json tablet_pass)) [] (MoonlightCertificateProvision "host" "first"));
   ("second certificate", envelope_of "2" (event_json tablet_owned) (Some (event_json tablet_pass)) [] (MoonlightCertificateProvision "host" "second"));
   ("question", envelope_of "3" (event_json laptop_owned) None [] (MoonlightCertificateRevoke "host" "none"));
   ("health", envelope_of "5" (event_json laptop_owned) None [] (Health ()));
   ("laptop certificate", envelope_of "4" (event_json laptop_owned) None [] (MoonlightCertificateProvision "host" "laptop"))].

#[export] Instance sim_envelopes : Envelopes := {|
  request_json := fun _ => None;
  request_parse := fun s => snd <$> head (keep (fun x => bool_decide (x.1 = s)) envelopes);
  response_json := fun _ => Some "answer";
  response_parse := fun _ => None;
|}.

(** The handlers do what they are asked. *)
Definition obliging (r : RpcRequest Payload) : RpcResponse :=
  match r with
  | MoonlightCertificateProvision _ _ => ProvisionResponse (Ok ())
  | MoonlightCertificateRevoke _ _ => RevokeResponse (Ok ())
  | _ => OtherResponse ()
  end.

Definition usual_choice (op : Op) : Choice op :=
  match op return Choice op with
  | OnDisk op => Files.usual op
  | Handle _ r => (Some (obliging r), false)
  | Clock => 1000
  | Draw => (0, 0)
  | TheIdentity | SetIdentity _ | Known | Install _ | IsPending _ | Persisted _ | ForgetRevocations | Seen _ _ _ _ => ()
  end.

Definition start : world := MkWorld (settled own_files) here_now fresh ∅ ∅.

Notation undisturbed := (Programs.run (Reply:=Reply) PeerRpc.effect usual_choice).

Definition at_first := undisturbed (handle (event_json first_provision) 1000) start.
Definition at_second := undisturbed (handle (event_json second_provision) 1100) at_first.1.
Definition at_last := undisturbed (authenticate (event_json later_question) 6000 false) at_second.1.

Lemma undisturbed_ends {A} (p : prog Op Reply (result PeerRpcError A)) w x :
  x = undisturbed p w -> is_ok x.2 = true -> exists a, Programs.ends PeerRpc.effect p w x.1 (Ok a).
Proof. intros -> (a & Ha)%is_ok_inv. exists a. rewrite <- Ha. apply run_ends. Qed.

(** C39: A device that holds a pass may get a second certificate before the first is taken
    back. Its grant takes the place of the first one, so that after the pass expired the
    reconciliation takes back the second certificate only: the streaming host accepts the
    first one for good, and nothing on the disk names it. *)
Theorem certificate_outlives_pass :
  exists w1 w2 w3 a b got,
    Programs.ends PeerRpc.effect (handle (event_json first_provision) 1000) start w1 (Ok a) /\
    Programs.ends PeerRpc.effect (handle (event_json second_provision) 1100) w1 w2 (Ok b) /\
    Programs.ends PeerRpc.effect (authenticate (event_json later_question) 6000 false) w2 w3 (Ok got) /\
    ("host", "first") ∈ trusted w3 /\ ("host", "second") ∉ trusted w3 /\
    forall device g, ~ recorded (seen (files w3)) device g.
Proof.
  destruct (undisturbed_ends _ _ at_first eq_refl) as [a Ha]; [vm_compute; reflexivity|].
  destruct (undisturbed_ends _ _ at_second eq_refl) as [b Hb]; [vm_compute; reflexivity|].
  destruct (undisturbed_ends _ _ at_last eq_refl) as [got Hg]; [vm_compute; reflexivity|].
  exists at_first.1, at_second.1, at_last.1, a, b, got. split; [exact Ha|]. split; [exact Hb|]. split; [exact Hg|].
  assert (Hleft : elements (trusted at_last.1) = [("host", "first")]) by (vm_compute; reflexivity).
  split; [by apply elem_of_elements; rewrite Hleft; left|]. split; [by rewrite <- elem_of_elements, Hleft, list_elem_of_singleton|].
  intros device g (m & c & s & Hf & _).
  assert (Hnil : names CERTIFICATE_DIRECTORY (seen (files at_last.1)) = []) by (vm_compute; reflexivity).
  assert (Hin : device ∈ names CERTIFICATE_DIRECTORY (seen (files at_last.1))) by (apply elem_of_names; exists (Regular m c s); exact Hf).
  rewrite Hnil in Hin. exact (not_elem_of_nil device Hin).
Qed.

Definition status_of {A} (x : world * result PeerRpcError A) : option PeerRpcError :=
  match x.2 with Ok _ => None | Err e => Some e end.

Lemma undisturbed_fails {A} (p : prog Op Reply (result PeerRpcError A)) w x e :
  x = undisturbed p w -> status_of x = Some e -> Programs.ends PeerRpc.effect p w x.1 (Err e).
Proof.
  intros -> Hs. unfold status_of in Hs. pose proof (run_ends (Reply:=Reply) (Choice:=Choice) (effect:=PeerRpc.effect) (usual:=usual_choice) p w) as Hr.
  destruct (undisturbed p w).2 as [a|e']; [done|]. injection Hs as ->. exact Hr.
Qed.

Lemma undisturbed_got (p : prog Op Reply (result PeerRpcError AuthenticatedPeerRequest)) w x :
  x = undisturbed p w -> is_ok x.2 = true ->
  exists a, x.2 = Ok a /\ Programs.ends PeerRpc.effect p w x.1 (Ok a).
Proof. intros -> (a & Ha)%is_ok_inv. exists a. split; [exact Ha|]. rewrite <- Ha. apply run_ends. Qed.

(** Of an answered request, its sender and the name of its event. *)
Definition came (r : result PeerRpcError AuthenticatedPeerRequest) : option (string * string) :=
  match r with Ok a => Some (sender a, event_id a) | Err _ => None end.

(** *** A nonce that is overwritten *)

Definition health_first := undisturbed (authenticate (event_json health_asked) 1000 false) start.
Definition health_refused := undisturbed (authenticate (event_json health_earlier) 1000 false) health_first.1.
Definition health_again := undisturbed (authenticate (event_json health_asked) 1021 false) health_refused.1.

(** The guard keeps the time of the last request of a nonce, also of one it refuses. A
    request of the same sender with the same nonce and an earlier time is refused, and
    shortens how long the nonce is remembered: the first event, which is still recent, is
    authenticated a second time. *)
Theorem nonce_overwritten :
  exists w1 w2 w3 got again,
    Programs.ends PeerRpc.effect (authenticate (event_json health_asked) 1000 false) start w1 (Ok got) /\
    Programs.ends PeerRpc.effect (authenticate (event_json health_earlier) 1000 false) w1 w2 (Err Replay) /\
    Programs.ends PeerRpc.effect (authenticate (event_json health_asked) 1021 false) w2 w3 (Ok again) /\
    event_id again = event_id got.
Proof.
  destruct (undisturbed_got _ _ health_first eq_refl) as (got & Hg & Hgot); [vm_compute; reflexivity|].
  destruct (undisturbed_got _ _ health_again eq_refl) as (again & Ha & Hagain); [vm_compute; reflexivity|].
  exists health_first.1, health_refused.1, health_again.1, got, again. split; [exact Hgot|].
  split; [apply (undisturbed_fails _ _ _ _ eq_refl); vm_compute; reflexivity|]. split; [exact Hagain|].
  assert (Hsame : came health_again.2 = came health_first.2) by (vm_compute; reflexivity).
  rewrite Hg, Ha in Hsame. by injection Hsame.
Qed.

(** *** Revocations that a switch of the identity clears *)

Definition laptop_gone := undisturbed (commit carrying) start.
Definition denied_laptop := undisturbed (authenticate (event_json health_asked) 1000 false) laptop_gone.1.
Definition after_switch := undisturbed reset_authorization laptop_gone.1.
Definition laptop_back := undisturbed (authenticate (event_json health_asked) 1000 false) after_switch.1.

(** A switch of the identity clears the revocations of the running daemon, which still
    answers under the old identity: a device that the owner revoked, and that is refused
    until then, is authenticated afterwards as a device of the owner. *)
Theorem switch_forgets_revocations :
  exists w1 w2 w3 w4 u v got,
    Programs.ends PeerRpc.effect (commit carrying) start w1 (Ok u) /\
    Programs.ends PeerRpc.effect (authenticate (event_json health_asked) 1000 false) w1 w2 (Err Unauthorized) /\
    Programs.ends PeerRpc.effect reset_authorization w1 w3 (Ok v) /\ state (identity w3) = here_state /\
    Programs.ends PeerRpc.effect (authenticate (event_json health_asked) 1000 false) w3 w4 (Ok got) /\
    sender got = key_of Laptop.
Proof.
  destruct (undisturbed_ends _ _ laptop_gone eq_refl) as [u Hu]; [vm_compute; reflexivity|].
  destruct (undisturbed_ends _ _ after_switch eq_refl) as [v Hv]; [vm_compute; reflexivity|].
  destruct (undisturbed_got _ _ laptop_back eq_refl) as (got & Hg & Hgot); [vm_compute; reflexivity|].
  exists laptop_gone.1, denied_laptop.1, after_switch.1, laptop_back.1, u, v, got. split; [exact Hu|].
  split; [apply (undisturbed_fails _ _ _ _ eq_refl); vm_compute; reflexivity|]. split; [exact Hv|].
  split; [vm_compute; reflexivity|]. split; [exact Hgot|].
  assert (Hs : fst <$> came laptop_back.2 = Some (key_of Laptop)) by (vm_compute; reflexivity).
  rewrite Hg in Hs. exact (f_equal (default EmptyString) Hs).
Qed.

(** ** Witnesses of the properties of requests *)

(** Other requests consume other nonces, until 1100, and the identity is not switched. *)
Definition elsewhere (op : Op) : Prop :=
  match op with
  | Seen s n c m => m <= 1100 /\ s <> key_of Laptop
  | SetIdentity _ | Install _ | ForgetRevocations => False
  | _ => True
  end.

Definition alone_choice (op : Op) : SharedChoice elsewhere op := ([], usual_choice op).

Notation amid := (Programs.run (Reply:=Reply) (Choice:=SharedChoice elsewhere) (shared elsewhere) alone_choice).
Notation amid_ends := (Programs.ends (Reply:=Reply) (Choice:=SharedChoice elsewhere) (shared elsewhere)).

Lemma amid_ok {A} (p : prog Op Reply (result PeerRpcError A)) w x :
  x = amid p w -> is_ok x.2 = true -> exists a, amid_ends p w x.1 (Ok a).
Proof. intros -> (a & Ha)%is_ok_inv. exists a. rewrite <- Ha. apply run_ends. Defined.

Definition laptop_asked := amid (authenticate (event_json laptop_provision) 1000 false) start.

Lemma authenticate_sound_witness :
  exists got p, amid_ends (authenticate (event_json laptop_provision) 1000 false) start laptop_asked.1 (Ok got) /\
    context got = Peer p /\ may_ask p (request (envelope got)).
Proof.
  destruct (amid_ok _ _ laptop_asked eq_refl) as [got Hgot]; [vm_compute; reflexivity|].
  destruct (authenticate_sound elsewhere (event_json laptop_provision) 1000 false start laptop_asked.1 got Hgot)
    as (l & l' & e & p & known & _ & _ & _ & _ & Hp & _ & _ & _ & _ & Hm).
  exists got, p. split; [exact Hgot|]. split; [exact Hp|exact Hm].
Defined.

Definition revoked_laptop := amid (commit carrying) start.
Definition tablet_asked := amid (authenticate (event_json first_provision) 1000 false) revoked_laptop.1.


Definition tablet_later := amid (authenticate (event_json second_provision) 1100 false) laptop_asked.1.

Lemma laptop_sent w w' got : amid_ends (authenticate (event_json laptop_provision) 1000 false) w w' (Ok got) -> sender got = key_of Laptop.
Proof.
  intros (i & l & l' & e & env & known & w1 & w2 & w3 & a & _ & _ & _ & (own & pl & Hj & _) & _ & _ & _ & _ & ->)%authenticate_ends.
  assert (He : from_json (event_json laptop_provision) = Some laptop_provision) by (vm_compute; reflexivity).
  rewrite He in Hj. injection Hj as <-. reflexivity.
Defined.

Lemma replay_refused_witness :
  exists got got', amid_ends (authenticate (event_json laptop_provision) 1000 false) start laptop_asked.1 (Ok got) /\
    amid_ends (authenticate (event_json second_provision) 1100 false) laptop_asked.1 tablet_later.1 (Ok got') /\ event_id got' <> event_id got.
Proof.
  destruct (amid_ok _ _ laptop_asked eq_refl) as [got Hgot]; [vm_compute; reflexivity|].
  destruct (amid_ok _ _ tablet_later eq_refl) as [got' Hgot']; [vm_compute; reflexivity|].
  exists got, got'. split; [exact Hgot|]. split; [exact Hgot'|].
  pose proof (laptop_sent _ _ _ Hgot) as Hs.
  apply (replay_refused elsewhere (event_json laptop_provision) 1000 false start laptop_asked.1 got []
    (event_json second_provision) 1100 false tablet_later.1 got').
  - intros i Hi. destruct Hi.
  - intros s n c m [Hm Hother]. split; [exact Hm|]. intros Heq. destruct Hother. rewrite <- Hs. by injection Heq.
  - exact Hgot.
  - exact Hgot'.
Defined.

(** A grant of the tablet whose pass expired. *)
Definition old_grant : CertificateGrant := MkCertificateGrant "host" "first" (ByPersonPass (event_json tablet_owned) (event_json tablet_pass)).

Definition granted : world :=
  MkWorld (settled ((grant_path (key_of Tablet), default EmptyString (grant_json old_grant)) :: own_files)) here_now fresh ∅ {[("host", "first")]}.

Definition reconciled := undisturbed (reconcile_certificate_trust here_state 6000) granted.

Lemma reconciliation_accounts_witness :
  exists u, Programs.ends PeerRpc.effect (reconcile_certificate_trust here_state 6000) granted reconciled.1 (Ok u) /\
    accounted granted /\ accounted reconciled.1 /\ elements (trusted reconciled.1) = [].
Proof.
  destruct (undisturbed_ends _ _ reconciled eq_refl) as [u Hu]; [vm_compute; reflexivity|].
  assert (Ha : accounted granted).
  { intros c Hc. unfold granted, trusted in Hc. apply elem_of_singleton in Hc as ->. exists (key_of Tablet), old_grant. split; [|reflexivity].
    exists 384, (default EmptyString (grant_json old_grant)), true. split; vm_compute; reflexivity. }
  exists u. split; [exact Hu|]. split; [exact Ha|]. split; [|vm_compute; reflexivity].
  apply (proj1 (reconciliation_accounts here_state 6000 granted Ha)). exact (ends_stops _ _ _ _ Hu).
Defined.
